(* ===== verification/_CoqProject ===== *)
-Q . S2P
Prelude.v
Assets.v
Interfaces.v
AssetInfo.v
StateTypes.v
Hex.v
StateSample.v
StateDB.v
StateRevert.v
StateSnapshot.v
Accounts.v
Transfer.v
Votes.v
DelegateState.v
Candidates.v
VoteCount.v
VoteLedger.v
VmData.v
StateSound.v
VmGas.v
Evm.v
Instructions.v
Interpreter.v
VmArith.v
VmJump.v
VmWp.v
VmOps.v
VmCosts.v
VmCalls.v
VmSafe.v
VmFindings.v
VmTerm.v
VmLoop.v
Config.v
Transition.v
TransitionSafe.v
TransitionFindings.v
Rlp.v
RlpLayout.v
RlpStream.v
RlpRead.v
RlpRoundtrip.v
RlpCanon.v
RlpRaw.v
TrieCodec.v
TrieNode.v
TrieHash.v
TrieTree.v
TrieEdit.v
TrieEnc.v
TrieRep.v
TrieUpdate.v
TrieCommit.v
TrieMap.v
TrieClaims.v
TrieProof.v
SecureTrie.v
DeriveSha.v
Secp.v
TxData.v
Signing.v
Bloom.v
Blocks.v
StateFinal.v
StateRlp.v
Processor.v
ManagedState.v
Heap.v
TxList.v
TxPriced.v
TxPool.v
TxPoolLists.v
TxPoolBooks.v
TxPoolSteps.v
TxPoolRun.v
TxPoolClaims.v
Shuffle.v
Dpos.v
HeaderPipeline.v
