(* ===== verification/Prelude.v ===== *)
(** * go-aoa: a verification library

    go-aoa is the node of the Aurora chain: accounts with balances in AOA and in
    published assets, a virtual machine for contracts, and a delegated proof of stake in
    which accounts vote for the delegates that produce blocks in turn.  This library
    models the node's core as executable functions and proves what it relies on.

    ** Parts of the program, and the files that model them

    Serialization.  [Rlp] has the encoder ([rlp/encode.go], [rlp/typecache.go]) and
    [RlpStream] the decoder and raw values ([rlp/decode.go], [rlp/raw.go]), over a
    universe of Go types.  [RlpLayout], [RlpRead], [RlpRoundtrip], [RlpCanon] and [RlpRaw]
    have the theory.

    Tries ([trie/]).  [TrieCodec] (keys), [TrieNode] (nodes, get, insert, delete),
    [TrieHash] (hashing and committing), [TrieProof] (Merkle proofs), [SecureTrie] and
    [DeriveSha] ([core/types/derive_sha.go]).  [TrieTree], [TrieEdit] and [TrieEnc] are the
    abstract trees, [TrieRep] says which tree a node stands for, [TrieUpdate],
    [TrieCommit], [TrieMap] and [TrieClaims] show that the code implements a map.

    Account state ([core/state/]).  [Assets] and [AssetInfo] ([core/types/asset.go],
    [asset_info.go]), [StateTypes] (records), [StateDB] (every operation), [StateRevert] and
    [StateSnapshot] (journal and snapshots), [Accounts] (what an operation does to each
    account), [StateSound] (the part the virtual machine needs), [StateFinal] (writing
    the dirty objects to the trie), [ManagedState] (virtual nonces).  The state sees its
    trie and its serializer through the classes of [Interfaces], [StateTypes] and
    [StateFinal]; [SecureTrie] and [StateRlp] discharge them with the code's trie and RLP
    encodings, and [StateSample] is a small instance that can be run.

    Delegates.  [Votes] and [Transfer] ([core/evm.go]), [DelegateState] and [Candidates]
    ([consensus/delegatestate/]), [VoteCount] ([core/vote_util.go] and
    [voteChangeToDelegateState]) and [VoteLedger], which joins the two sides; [Hex] has
    the addresses as strings.

    Virtual machine ([core/vm/]).  [VmData] (stack, memory, jump analysis, contracts),
    [VmGas] (costs), [Evm] (calls and precompiled contracts), [Instructions] and
    [Interpreter].  [VmArith] and [VmJump] compare with references; [VmWp], [VmOps],
    [VmCosts], [VmCalls] and [VmSafe] show that code cannot stop the node; [VmTerm],
    [VmLoop] and [VmFindings] are about turns and about what goes wrong.

    Transactions.  [Config] ([params/config.go]), [Transition], [TransitionSafe] and
    [TransitionFindings] ([core/state_transition.go], [core/gaspool.go]), [TxData]
    ([core/types/transaction.go]), [Signing] ([transaction_signing.go]) over [Secp]
    ([crypto/], [util/crypto_signature.go]).

    Blocks.  [Bloom] (filters and the search for logs, [aoa/filters/filter.go]), [Blocks]
    ([core/types/block.go], [receipt.go], [log.go], [ValidateBody]), [Processor]
    ([core/state_processor.go], [ValidateState], the contexts of [core/evm.go]).

    Transaction pool.  [Heap] ([container/heap]), [TxList] and [TxPriced]
    ([core/tx_list.go]), [TxPool] ([core/tx_pool.go]); [TxPoolLists], [TxPoolBooks],
    [TxPoolSteps], [TxPoolRun] and [TxPoolClaims] prove that the pool keeps its books.

    Consensus.  [Shuffle] ([util/shuffle.go]), [Dpos] and [HeaderPipeline]
    ([consensus/dpos/dpos_consensus.go]).

    ** How code becomes definitions

    A method that changes its receiver is a program in [GM]: a function from the state
    to an [outcome], which is the result with the new state or a [Panic].  Go errors are
    values.  Fixed-width integers are [Z] with the wrap-around written out ([u64], [i64]);
    a [*big.Int] is a [Z].  Where a slice is shared and edited in place (vote lists) it is
    a header into a heap of arrays.  The order in which Go visits a map is an argument
    [iterate], and theorems hold for every order.  The goroutines of [VerifyHeaders] are
    a step relation.

    Code outside the repository is a parameter: Keccak and SHA-256, libsecp256k1 (class
    [Secp256k1], its documented behaviour in [SecpLaws]), the pairing contracts and hashes
    of the virtual machine ([CryptoOps]), JSON ([TxJson]), the key-value store and the
    lookups of the chain ([PoolChain], [GetHeader]).  No theorem assumes that a hash
    function is injective; the ones about commitments ask that the encodings at hand
    do not clash.

    ** What the theorems show

    State: reverting to a snapshot restores what can be asked about accounts but for
    contract interfaces and zero entries of assets; operations on accounts, writing the
    state out and resetting it keep the invariant; the state root does not depend on visiting order
    or caching; the encodings read back.  Theorems on reverts, the virtual machine and
    transactions are about the rules after the Epiphron fork.  Tries: the
    code implements a map; the root hash is determined by the map and determines it;
    committing and opening again changes nothing; proofs are sound and complete.  RLP:
    round trip, one encoding per value, and the buffered encoder equals the recursive one.
    Virtual machine: no code from a sound state makes it panic but for four named
    causes; a failed call leaves no trace; a call creates no value; arithmetic and jumps
    agree with references; code without calls ends.  Transactions and blocks: gas and
    value are accounted for unless more gas is used than was bought, which
    [transaction_mints] shows can happen; hashes and signatures commit to what they
    stand for.  Votes: a vote does what it should, and the votes of a delegate are the
    accounts that vote for it.  Pool: its indices agree after any sequence of calls, for
    configurations with room for transactions ([config_ok]).
    Consensus: what an accepted block carries, fairness of a round, and the order of the
    verdicts of concurrent header checks.  Files named [...Findings], and examples next to
    the models, show runs in which the code does not do what it means to.

    ** Bounds

    Loops that are not structural take fuel.  The interpreter's [loop] takes a number of
    turns: safety is proved for every number, the answer does not depend on it
    ([VmTerm]), code without calls needs at most one turn more than its gas, and [VmLoop]
    shows that with calls no number is enough.  [sort.Search], heaps, the trie and the
    decoder take fuel from the length of their input, which is proved enough where the
    result is stated; the search for logs takes one turn per block, [GetHashFn] one per
    ancestor and [CheckCompatible] one per change of rules.  The numbers of code and
    memory are bounded by [code_limit] and by what gas can pay for.

    ** What is not modelled

    The chain's database and reorganisations ([core/blockchain.go], [headerchain.go]),
    genesis, block production timers, network protocols ([aoa/], [p2p/], [light/]), RPC,
    key files and command line tools: they are input and output or plumbing around the
    parts above.  Of the parts above, copying of states, writing them to the disk,
    JSON and printing, the pool's journal file, the bloom index and trie iterators are
    left out. *)

From stdpp Require Export prelude gmap strings list sorting.
From Stdlib Require Export ZArith Lia.

#[global] Set Default Goal Selector "!".

(** ** Outcomes and the state monad of Go code

    A Go call either returns or panics (nil dereference, index out of range,
    an explicit [panic]).  Code that mutates a receiver becomes a function from
    the receiver's state to an outcome carrying the result and the new state. *)

Inductive outcome (A : Type) : Type :=
| Ret (a : A)
| Panic (why : string).
Arguments Ret {A} a.
Arguments Panic {A} why.

#[export] Instance outcome_ret : MRet outcome := λ A a, Ret a.
#[export] Instance outcome_bind : MBind outcome := λ A B f m,
  match m with Ret a => f a | Panic w => Panic w end.

Definition GM (S A : Type) : Type := S → outcome (A * S).

#[export] Instance GM_ret {S} : MRet (GM S) := λ A a s, Ret (a, s).
#[export] Instance GM_bind {S} : MBind (GM S) := λ A B f m s,
  match m s with Ret (a, s') => f a s' | Panic w => Panic w end.

Definition gpanic {S A} (why : string) : GM S A := λ _, Panic why.
Definition gget {S} : GM S S := λ s, Ret (s, s).
Definition gmodify {S} (f : S → S) : GM S unit := λ s, Ret (tt, f s).
Definition greads {S A} (f : S → A) : GM S A := λ s, Ret (f s, s).

Lemma GM_bind_Ret {S A B} (m : GM S A) (f : A → GM S B) s b s' :
  (m ≫= f) s = Ret (b, s') ↔
  ∃ a s1, m s = Ret (a, s1) ∧ f a s1 = Ret (b, s').
Proof.
  unfold mbind, GM_bind. destruct (m s) as [[a s1]|w]; split.
  - intros Hf. by exists a, s1.
  - by intros (? & ? & [= <- <-] & Hf).
  - done.
  - by intros (? & ? & ? & _).
Qed.

Lemma outcome_bind_Ret {A B} (m : outcome A) (f : A → outcome B) b :
  m ≫= f = Ret b ↔ ∃ a, m = Ret a ∧ f a = Ret b.
Proof.
  destruct m as [a|w]; simpl; split.
  - intros Hf. by exists a.
  - by intros (? & [= <-] & Hf).
  - done.
  - by intros (? & ? & _).
Qed.

(** Break a successful run of a monadic program into its steps. *)
Ltac grun :=
  repeat match goal with
  | H : (_ ≫= _) _ = Ret _ |- _ => apply GM_bind_Ret in H as (? & ? & ? & ?)
  | H : _ ≫= _ = Ret _ |- _ => apply outcome_bind_Ret in H as (? & ? & ?)
  | H : mret _ _ = Ret _ |- _ => injection H as ? ?; subst
  | H : gmodify _ _ = Ret _ |- _ => injection H as ? ?; subst
  | H : greads _ _ = Ret _ |- _ => injection H as ? ?; subst
  | H : gget _ = Ret _ |- _ => injection H as ? ?; subst
  | H : gpanic _ _ = Ret _ |- _ => discriminate H
  end.

Lemma GM_bind_run {S A B} (m : GM S A) (f : A → GM S B) s a s1 :
  m s = Ret (a, s1) → (m ≫= f) s = f a s1.
Proof. intros H. unfold mbind, GM_bind. by rewrite H. Qed.

(** Evaluate the basic commands of a program in the goal. *)
Ltac geval :=
  repeat first
    [ erewrite GM_bind_run by reflexivity
    | progress (unfold mret, GM_ret) ]; simpl.

(** ** Record update

    [r <| f := v |>] is the record [r] with field [f] set to [v];
    [r <| f ::= g |>] applies [g] to the field.  A record type opts in with an
    [Eta] instance that rebuilds a record from its projections. *)

Class Eta (R : Type) : Type := eta_of : R → R.

Class FieldSetter {R F : Type} (proj : R → F) : Type := mkSetter { upd : (F → F) → R → R }.
Arguments upd {R F} proj {_} f r /.
Arguments mkSetter {R F proj} _.

Ltac build_setter proj :=
  lazymatch type of proj with
  | ?R → _ =>
    let inst := constr:(_ : Eta R) in
    let body := eval hnf in inst in
    lazymatch eval pattern proj in body with
    | ?ctx _ =>
      lazymatch ctx with
      | fun _ => ?b => fail "the record has no such field"
      | _ => exact (mkSetter (fun f => ctx (fun r => f (proj r))))
      end
    end
  end.
#[export] Hint Extern 1 (FieldSetter ?p) => build_setter p : typeclass_instances.

(** Hint databases of the components. *)
Create HintDb assets.
Create HintDb statedb.

Declare Scope go_scope.
Delimit Scope go_scope with go.
Notation "r <| p := v |>" := (upd p (λ _, v) r)
  (at level 1, left associativity, format "r  <|  p  :=  v  |>") : go_scope.
Notation "r <| p ::= f |>" := (upd p f r)
  (at level 1, left associativity, format "r  <|  p  ::=  f  |>") : go_scope.
#[global] Open Scope go_scope.
#[global] Open Scope Z_scope.

(** ** Machine integers

    Unsigned integers are [Z] values kept below [2^w]; [u64] is the wrap-around
    of Go's [uint64] arithmetic and [i64] the conversion [int64(x)]. *)

Definition u64 (z : Z) : Z := z mod 2 ^ 64.
Definition i64 (z : Z) : Z := (z + 2 ^ 63) mod 2 ^ 64 - 2 ^ 63.
Definition MaxUint64 : Z := 2 ^ 64 - 1.
Definition is_u64 (z : Z) : Prop := 0 ≤ z < 2 ^ 64.

Lemma u64_small z : is_u64 z → u64 z = z.
Proof. unfold is_u64, u64. intros. by apply Z.mod_small. Qed.

Lemma u64_range z : is_u64 (u64 z).
Proof. unfold is_u64, u64. by apply Z.mod_pos_bound. Qed.

Lemma i64_small z : - 2 ^ 63 ≤ z < 2 ^ 63 → i64 z = z.
Proof. unfold i64. intros. rewrite Z.mod_small; lia. Qed.

(** [word w] is a [w]-bit value: [common.Address] is [word 160] and
    [common.Hash] is [word 256], each standing for the big-endian value of the
    byte array. *)

Definition in_range (w : N) (z : Z) : bool :=
  (0 <=? z) && (z <? 2 ^ Z.of_N w).

Record word (w : N) : Type := mkWord {
  word_val :> Z;
  word_ok : Is_true (in_range w word_val)
}.
Arguments mkWord {w} _ _.
Arguments word_val {w} _.
Arguments word_ok {w} _.

Lemma word_bounds {w} (x : word w) : 0 ≤ x < 2 ^ Z.of_N w.
Proof.
  destruct x as [v Hv]; simpl. unfold in_range in Hv.
  apply andb_True in Hv as [H1 H2]. apply Is_true_true in H1, H2. lia.
Qed.

Lemma word_eq {w} (x y : word w) : (x : Z) = y → x = y.
Proof.
  destruct x as [v Hv], y as [v' Hv']; simpl. intros <-.
  f_equal. apply proof_irrel.
Qed.

#[export] Instance word_eq_dec w : EqDecision (word w).
Proof.
  intros x y. destruct (decide ((x : Z) = y)) as [E|E].
  - left. by apply word_eq.
  - right. intros ->. done.
Defined.

Lemma mod_in_range w z : in_range w (z mod 2 ^ Z.of_N w) = true.
Proof.
  unfold in_range. assert (0 < 2 ^ Z.of_N w) by (apply Z.pow_pos_nonneg; lia).
  pose proof (Z.mod_pos_bound z (2 ^ Z.of_N w)).
  apply andb_true_iff. split; lia.
Qed.

(** Truncation to [w] bits; on closed arguments it computes to a canonical
    proof component. *)
Definition to_word (w : N) (z : Z) : word w :=
  let v := z mod 2 ^ Z.of_N w in
  mkWord v
    (match in_range w v as b return in_range w v = b → Is_true b with
     | true => λ _, I
     | false => λ E, match eq_true_false_abs _ (mod_in_range w z) E with end
     end eq_refl).

Lemma to_word_val w z : (to_word w z : Z) = z mod 2 ^ Z.of_N w.
Proof. done. Qed.

Lemma to_word_small w z : 0 ≤ z < 2 ^ Z.of_N w → (to_word w z : Z) = z.
Proof. intros. rewrite to_word_val. by apply Z.mod_small. Qed.

Lemma to_word_id {w} (x : word w) : to_word w x = x.
Proof. apply word_eq, to_word_small, word_bounds. Qed.

#[export] Program Instance word_countable w : Countable (word w) :=
  inj_countable' word_val (to_word w) _.
Next Obligation. intros w x. apply to_word_id. Qed.

Definition address : Type := word 160.
Definition hash : Type := word 256.
#[export] Instance address_eq_dec : EqDecision address := word_eq_dec 160.
#[export] Instance hash_eq_dec : EqDecision hash := word_eq_dec 256.
#[export] Instance address_countable : Countable address := word_countable 160.
#[export] Instance hash_countable : Countable hash := word_countable 256.
#[export] Instance address_inhabited : Inhabited address := populate (to_word 160 0).
#[export] Instance hash_inhabited : Inhabited hash := populate (to_word 256 0).

(** The zero array [common.Hash{}]. *)
Definition hash0 : hash := to_word 256 0.
Definition address0 : address := to_word 160 0.

(** ** Bytes *)

Definition bytes : Type := list Byte.byte.
#[export] Instance byte_eq_dec : EqDecision Byte.byte := Byte.byte_eq_dec.
#[export] Instance byte_countable : Countable Byte.byte.
Proof. apply (inj_countable Byte.to_N Byte.of_N). apply Byte.of_to_N. Defined.
#[export] Instance byte_inhabited : Inhabited Byte.byte := populate Byte.x00.

Definition byte_val (b : Byte.byte) : Z := Z.of_N (Byte.to_N b).
Definition byte_of (z : Z) : Byte.byte :=
  default Byte.x00 (Byte.of_N (Z.to_N (z mod 256))).

Lemma byte_val_range x : 0 ≤ byte_val x < 256.
Proof. unfold byte_val. pose proof (Byte.to_N_bounded x). lia. Qed.

Lemma byte_of_val x : byte_of (byte_val x) = x.
Proof.
  unfold byte_of. rewrite Z.mod_small by apply byte_val_range.
  unfold byte_val. by rewrite N2Z.id, Byte.of_to_N.
Qed.
Lemma byte_val_inj x y : byte_val x = byte_val y → x = y.
Proof. intros H. by rewrite <- (byte_of_val x), <- (byte_of_val y), H. Qed.

Lemma byte_val_of z : byte_val (byte_of z) = z mod 256.
Proof.
  unfold byte_val, byte_of. pose proof (Z.mod_pos_bound z 256).
  destruct (Byte.of_N (Z.to_N (z mod 256))) as [b|] eqn:E; simpl.
  - apply Byte.to_of_N in E. rewrite E. lia.
  - apply Byte.of_N_None_iff in E. lia.
Qed.

(** ** Binary search of the Go standard library

    [sort.Search(n, f)]: the half-open interval [[i, j)] shrinks at every
    iteration, so [n] iterations are enough and the fuel is never exhausted. *)

Fixpoint search_loop (fuel : nat) (f : nat → bool) (i j : nat) : nat :=
  match fuel with
  | O => i
  | S fuel =>
    if (i <? j)%nat then
      let h := ((i + j) / 2)%nat in
      if negb (f h) then search_loop fuel f (S h) j
      else search_loop fuel f i h
    else i
  end.
Definition search (n : nat) (f : nat → bool) : nat := search_loop n f 0 n.

Lemma search_loop_spec f n fuel i j :
  (∀ a b, (a ≤ b < n)%nat → f a = true → f b = true) →
  (j - i ≤ fuel)%nat → (i ≤ j ≤ n)%nat →
  (∀ k, (k < i)%nat → f k = false) →
  (∀ k, (j ≤ k < n)%nat → f k = true) →
  let r := search_loop fuel f i j in
  (r ≤ n)%nat ∧ (∀ k, (k < r)%nat → f k = false) ∧
  (∀ k, (r ≤ k < n)%nat → f k = true).
Proof.
  intros Hmono. revert i j. induction fuel as [|fuel IH]; intros i j Hf Hij Hlo Hhi; cbn [search_loop].
  { assert (i = j) as -> by lia. split_and!; [lia|done|done]. }
  destruct (Nat.ltb_spec i j) as [Hlt|Hge]; last first.
  { assert (i = j) as -> by lia. split_and!; [lia|done|done]. }
  assert (Hh : (i ≤ (i + j) / 2 < j)%nat).
  { split; [apply Nat.div_le_lower_bound|apply Nat.Div0.div_lt_upper_bound]; lia. }
  set (h := ((i + j) / 2)%nat) in *.
  destruct (f h) eqn:Efh; cbn [negb]; apply IH; try lia; try done.
  - intros k Hk. apply (Hmono h); [lia|done].
  - intros k Hk. destruct (f k) eqn:Efk; [|done].
    rewrite <- Efh. symmetry. apply (Hmono k); [lia|done].
Qed.

(** For a predicate that stays true once true, [search] returns the first index
    at which it holds ([n] when there is none). *)
Lemma search_spec f n :
  (∀ a b, (a ≤ b < n)%nat → f a = true → f b = true) →
  (search n f ≤ n)%nat ∧ (∀ k, (k < search n f)%nat → f k = false) ∧
  (∀ k, (search n f ≤ k < n)%nat → f k = true).
Proof.
  intros Hmono. apply (search_loop_spec f n); try done; lia.
Qed.

Lemma search_unique f n r :
  (∀ a b, (a ≤ b < n)%nat → f a = true → f b = true) →
  (r ≤ n)%nat → (∀ k, (k < r)%nat → f k = false) → (r < n → f r = true)%nat →
  search n f = r.
Proof.
  intros Hmono Hr Hlo Hhi. destruct (search_spec f n Hmono) as (H1 & H2 & H3).
  destruct (Nat.lt_trichotomy (search n f) r) as [Hlt|[->|Hgt]]; [|done|].
  - specialize (Hlo _ Hlt). rewrite H3 in Hlo; [done|lia].
  - specialize (H2 _ Hgt). rewrite Hhi in H2; [done|lia].
Qed.

(** ** Lists *)

Lemma list_insert_middle {A} (l r : list A) x y :
  <[length l := y]> (l ++ x :: r) = l ++ y :: r.
Proof. rewrite insert_app_r_alt by done. by rewrite Nat.sub_diag. Qed.
