(* ===== verification/Assets.v ===== *)
(** * The per-account asset list ([core/types/asset.go])

    [Assets] is the list of asset balances of one account, kept in ascending
    order of the asset id and searched with [sort.Search].  The model keeps the
    slice as a list and the operations as the code has them; the specification
    is a finite map from asset id to balance. *)

From S2P Require Import Prelude.

Record Asset : Type := mkAsset {
  ID : address;
  Balance : Z
}.
#[export] Instance eta_Asset : Eta Asset := λ r, mkAsset (ID r) (Balance r).
#[export] Instance Asset_eq_dec : EqDecision Asset.
Proof. solve_decision. Defined.
#[export] Instance Asset_inhabited : Inhabited Asset :=
  populate (mkAsset address0 0).

(** The Go struct wraps the one field [assetList]. *)
Abbreviation Assets := (list Asset).

Definition NewAssets : Assets := [].

(** [indexOf] returns the index where the asset is or should be, and whether it
    is there.  [bytes.Compare] on two 20-byte ids is the order of their
    big-endian values. *)
Definition indexOf (al : Assets) (id : address) : nat * bool :=
  let n := length al in
  if (n =? 0)%nat then (0%nat, false)
  else
    let i := search n (λ i, id <=? ID (al !!! i)) in
    let b := if (i <? n)%nat then bool_decide (ID (al !!! i) = id) else false in
    (i, b).

Definition AddAsset (a : Asset) (al : Assets) : Assets :=
  let '(i, isContain) := indexOf al (ID a) in
  if isContain then
    <[i := (al !!! i) <| Balance := Balance (al !!! i) + Balance a |>]> al
  else
    (take i al ++ [a]) ++ drop i al.

Definition SubAsset (a : Asset) (al : Assets) : bool * Assets :=
  let '(i, isContain) := indexOf al (ID a) in
  if isContain then
    let dest := al !!! i in
    if Balance dest >=? Balance a then
      let rest := Balance dest - Balance a in
      let al' := <[i := dest <| Balance := rest |>]> al in
      if rest =? 0 then
        if (i <? length al' - 1)%nat then (true, take i al' ++ drop (S i) al')
        else (true, take i al')
      else (true, al')
    else (false, al)
  else (false, al).

Definition BalanceOf (al : Assets) (id : address) : Z :=
  let '(i, isContain) := indexOf al id in
  if isContain then Balance (al !!! i) else 0.

(** [GetAssets] returns a fresh slice, or nil for an empty list. *)
Definition GetAssets (al : Assets) : option (list Asset) :=
  if (0 <? length al)%nat then
    Some ((λ a, mkAsset (ID a) (Balance a)) <$> al)
  else None.

Definition IsEmpty (al : Assets) : bool := (length al =? 0)%nat.

(** ** Well-formedness *)

(** The order the field comment asks for. *)
Definition ordered (al : Assets) : Prop :=
  StronglySorted (λ a b : Asset, ID a < ID b) al.

(** No entry of balance zero or below. *)
Definition positive_entries (al : Assets) : Prop :=
  Forall (λ a, 0 < Balance a) al.

(** ** Where [indexOf] lands *)

(** The two ways an ordered list splits around an id. *)
Inductive located (al : Assets) (id : address) : nat → bool → Prop :=
| located_found l x r :
    al = l ++ x :: r → ID x = id →
    Forall (λ a, ID a < id) l → Forall (λ a, id < ID a) r →
    located al id (length l) true
| located_absent l r :
    al = l ++ r →
    Forall (λ a, ID a < id) l → Forall (λ a, id < ID a) r →
    located al id (length l) false.

Lemma lookup_total_middle (l r : Assets) x : (l ++ x :: r) !!! length l = x.
Proof. by rewrite list_lookup_total_middle. Qed.

Lemma indexOf_split (l r : Assets) (id : address) :
  Forall (λ a, ID a < id) l → Forall (λ a, id ≤ ID a) r →
  (indexOf (l ++ r) id).1 = length l.
Proof.
  intros Hl Hr. unfold indexOf.
  destruct (Nat.eqb_spec (length (l ++ r)) 0) as [E|E]; simpl.
  { rewrite length_app in E. lia. }
  assert (Hlo : ∀ k, (k < length l)%nat → (id <=? ID ((l ++ r) !!! k)) = false).
  { intros k Hk. rewrite lookup_total_app_l by done.
    destruct (lookup_lt_is_Some_2 l k Hk) as [x Hx].
    rewrite (list_lookup_total_correct _ _ _ Hx).
    rewrite Forall_lookup in Hl. specialize (Hl _ _ Hx). lia. }
  assert (Hhi : ∀ k, (length l ≤ k < length (l ++ r))%nat →
                     (id <=? ID ((l ++ r) !!! k)) = true).
  { intros k Hk. rewrite lookup_total_app_r by lia. rewrite length_app in Hk.
    destruct (lookup_lt_is_Some_2 r (k - length l)) as [x Hx]; [lia|].
    rewrite (list_lookup_total_correct _ _ _ Hx).
    rewrite Forall_lookup in Hr. specialize (Hr _ _ Hx). lia. }
  apply search_unique.
  - intros a b Hab Ha. destruct (decide (a < length l)%nat) as [Hlt|Hge].
    + rewrite Hlo in Ha; done.
    + apply Hhi. lia.
  - rewrite length_app. lia.
  - done.
  - intros. apply Hhi. lia.
Qed.

Lemma indexOf_flag (al : Assets) id i b :
  indexOf al id = (i, b) →
  b = match al !! i with Some x => bool_decide (ID x = id) | None => false end.
Proof.
  unfold indexOf. destruct (Nat.eqb_spec (length al) 0) as [E|E].
  - intros [= <- <-]. apply nil_length_inv in E. by subst.
  - intros [= <- <-].
    set (i := search _ _). destruct (Nat.ltb_spec i (length al)) as [Hlt|Hge].
    + destruct (lookup_lt_is_Some_2 al i Hlt) as [x Hx].
      by rewrite Hx, (list_lookup_total_correct _ _ _ Hx).
    + by rewrite lookup_ge_None_2.
Qed.

Lemma indexOf_found (l r : Assets) x (id : address) :
  ID x = id → Forall (λ a, ID a < id) l → Forall (λ a, id < ID a) r →
  indexOf (l ++ x :: r) id = (length l, true).
Proof.
  intros Hx Hl Hr. destruct (indexOf (l ++ x :: r) id) as [i b] eqn:E.
  pose proof (indexOf_flag _ _ _ _ E) as ->.
  assert (i = length l) as ->.
  { rewrite <- (indexOf_split l (x :: r) id).
    - by rewrite E.
    - done.
    - constructor; [by rewrite Hx|]. eapply Forall_impl; [done|]. simpl. lia. }
  rewrite list_lookup_middle by done. by rewrite bool_decide_eq_true_2.
Qed.

Lemma indexOf_absent (l r : Assets) (id : address) :
  Forall (λ a, ID a < id) l → Forall (λ a, id < ID a) r →
  indexOf (l ++ r) id = (length l, false).
Proof.
  intros Hl Hr. destruct (indexOf (l ++ r) id) as [i b] eqn:E.
  pose proof (indexOf_flag _ _ _ _ E) as ->.
  assert (i = length l) as ->.
  { rewrite <- (indexOf_split l r id).
    - by rewrite E.
    - done.
    - eapply Forall_impl; [done|]. simpl. lia. }
  f_equal. rewrite lookup_app_r by done. rewrite Nat.sub_diag.
  destruct r as [|y r]; [done|]. simpl.
  apply bool_decide_eq_false_2. intros <-. inversion Hr; subst. simpl in *. lia.
Qed.

Lemma ordered_locate (al : Assets) (id : address) :
  ordered al → located al id (indexOf al id).1 (indexOf al id).2.
Proof.
  intros Ho.
  assert (∃ l r, al = l ++ r ∧ Forall (λ a, ID a < id) l ∧
            (Forall (λ a, id < ID a) r ∨
             ∃ x r', r = x :: r' ∧ ID x = id ∧ Forall (λ a, id < ID a) r'))
    as (l & r & -> & Hl & Hr).
  { induction Ho as [|x al Ho IH Hx].
    { exists [], []. split_and!; [done|constructor|left; constructor]. }
    destruct (Z.lt_trichotomy (ID x) id) as [Hlt|[Heq|Hgt]].
    - destruct IH as (l & r & -> & Hl & Hr).
      exists (x :: l), r. split_and!; [done|by constructor|done].
    - apply word_eq in Heq. exists [], (x :: al). split_and!; [done|constructor|].
      right. exists x, al. split_and!; [done|done|].
      eapply Forall_impl; [done|]. simpl. intros a. by rewrite Heq.
    - exists [], (x :: al). split_and!; [done|constructor|]. left.
      constructor; [done|]. eapply Forall_impl; [done|]. simpl. lia. }
  destruct Hr as [Hr|(x & r' & -> & Hx & Hr)].
  - rewrite indexOf_absent by done. by eapply located_absent.
  - rewrite indexOf_found by done. by eapply located_found.
Qed.

(** ** The operations on a located id *)

Section Located.
Context (l r : Assets) (x : Asset) (id : address).
Hypothesis Hx : ID x = id.
Hypothesis Hl : Forall (λ a, ID a < id) l.
Hypothesis Hr : Forall (λ a, id < ID a) r.

Lemma BalanceOf_found : BalanceOf (l ++ x :: r) id = Balance x.
Proof. unfold BalanceOf. rewrite indexOf_found by done. by rewrite lookup_total_middle. Qed.

Lemma BalanceOf_absent : BalanceOf (l ++ r) id = 0.
Proof. unfold BalanceOf. by rewrite indexOf_absent. Qed.

Lemma AddAsset_found v :
  AddAsset (mkAsset id v) (l ++ x :: r) = l ++ mkAsset id (Balance x + v) :: r.
Proof.
  unfold AddAsset; simpl. rewrite indexOf_found by done.
  rewrite lookup_total_middle, list_insert_middle; simpl. by rewrite Hx.
Qed.

Lemma AddAsset_absent v :
  AddAsset (mkAsset id v) (l ++ r) = l ++ mkAsset id v :: r.
Proof.
  unfold AddAsset; simpl. rewrite indexOf_absent by done.
  by rewrite take_app_length, drop_app_length, <- (assoc_L (++)).
Qed.

Lemma SubAsset_found v :
  SubAsset (mkAsset id v) (l ++ x :: r) =
    if Balance x >=? v then
      (true, if Balance x - v =? 0 then l ++ r
             else l ++ mkAsset id (Balance x - v) :: r)
    else (false, l ++ x :: r).
Proof.
  unfold SubAsset; simpl. rewrite indexOf_found by done.
  rewrite lookup_total_middle; simpl. destruct (Balance x >=? v); [|done].
  rewrite list_insert_middle; simpl. rewrite Hx.
  destruct (Balance x - v =? 0); [|done].
  rewrite take_app_length, length_app; simpl.
  destruct (Nat.ltb_spec (length l) (length l + S (length r) - 1)) as [_|Hge].
  - f_equal. f_equal. by rewrite cons_middle, (assoc_L (++)),
      drop_app_length' by (rewrite length_app; simpl; lia).
  - destruct r; simpl in *; [by rewrite app_nil_r|lia].
Qed.

Lemma SubAsset_absent v :
  SubAsset (mkAsset id v) (l ++ r) = (false, l ++ r).
Proof. unfold SubAsset; simpl. by rewrite indexOf_absent. Qed.
End Located.

(** Case analysis of an ordered list around an id. *)
Lemma ordered_cases (al : Assets) (id : address) :
  ordered al →
  (∃ l x r, al = l ++ x :: r ∧ ID x = id ∧
     Forall (λ a, ID a < id) l ∧ Forall (λ a, id < ID a) r) ∨
  (∃ l r, al = l ++ r ∧ Forall (λ a, ID a < id) l ∧ Forall (λ a, id < ID a) r).
Proof. intros Ho. destruct (ordered_locate al id Ho); naive_solver. Qed.

(** ** The specification: a finite map of balances *)

Definition to_map (al : Assets) : gmap address Z :=
  list_to_map ((λ a, (ID a, Balance a)) <$> al).

Definition spec_add (id : address) (v : Z) (m : gmap address Z) : gmap address Z :=
  <[id := default 0 (m !! id) + v]> m.

Definition spec_sub (id : address) (v : Z) (m : gmap address Z)
  : bool * gmap address Z :=
  match m !! id with
  | Some b =>
    if b >=? v then (true, if b - v =? 0 then delete id m else <[id := b - v]> m)
    else (false, m)
  | None => (false, m)
  end.

Lemma to_map_app l r : to_map (l ++ r) = to_map l ∪ to_map r.
Proof. unfold to_map. rewrite fmap_app. apply list_to_map_app. Qed.

Lemma to_map_cons x r : to_map (x :: r) = <[ID x := Balance x]> (to_map r).
Proof. done. Qed.

Lemma to_map_None (al : Assets) (id : address) :
  Forall (λ a, ID a ≠ id) al → to_map al !! id = None.
Proof.
  intros Hf. apply not_elem_of_list_to_map_1. intros Hin.
  apply list_elem_of_fmap in Hin as (p & -> & Hp).
  apply list_elem_of_fmap in Hp as (a & -> & Ha). simpl in *.
  rewrite Forall_forall in Hf. by apply (Hf a).
Qed.

Lemma Forall_lt_ne (id : address) (l : Assets) :
  Forall (λ a, ID a < id) l → Forall (λ a, ID a ≠ id) l.
Proof. intros H. eapply Forall_impl; [done|]. simpl. intros a Ha <-. lia. Qed.

Lemma Forall_gt_ne (id : address) (l : Assets) :
  Forall (λ a, id < ID a) l → Forall (λ a, ID a ≠ id) l.
Proof. intros H. eapply Forall_impl; [done|]. simpl. intros a Ha <-. lia. Qed.

#[export] Hint Resolve Forall_lt_ne Forall_gt_ne to_map_None : assets.

Lemma to_map_middle (l r : Assets) (id : address) v :
  Forall (λ a, ID a ≠ id) l →
  to_map (l ++ mkAsset id v :: r) = <[id := v]> (to_map (l ++ r)).
Proof.
  intros Hl. rewrite !to_map_app, to_map_cons; simpl.
  rewrite insert_union_r; [done|]. auto with assets.
Qed.

Lemma asset_eta x : mkAsset (ID x) (Balance x) = x.
Proof. by destruct x. Qed.

Lemma to_map_middle' (l r : Assets) x :
  Forall (λ a, ID a ≠ ID x) l →
  to_map (l ++ x :: r) = <[ID x := Balance x]> (to_map (l ++ r)).
Proof. intros. rewrite <- (asset_eta x) at 1. by apply to_map_middle. Qed.

Lemma to_map_app_None (l r : Assets) (id : address) :
  Forall (λ a, ID a ≠ id) l → Forall (λ a, ID a ≠ id) r →
  to_map (l ++ r) !! id = None.
Proof. intros. apply to_map_None. by apply Forall_app. Qed.
#[export] Hint Resolve to_map_app_None : assets.

(** ** Ordering is preserved *)

Lemma ordered_app (l r : Assets) :
  ordered (l ++ r) ↔
  ordered l ∧ ordered r ∧ Forall (λ a, Forall (λ b, ID a < ID b) r) l.
Proof.
  unfold ordered. induction l as [|x l IH]; simpl.
  { split; [|by intros (_ & ? & _)]. intros H. split_and!; by constructor || done. }
  split.
  - intros H. inversion H as [|? ? Hs Hf]; subst. apply Forall_app in Hf as [Hf1 Hf2].
    apply IH in Hs as (? & ? & ?). split_and!; [by constructor|done|by constructor].
  - intros (H1 & H2 & H3). inversion H1; subst. inversion H3; subst.
    constructor; [by apply IH|]. by apply Forall_app.
Qed.

Lemma ordered_middle (l r : Assets) (id : address) v :
  ordered (l ++ r) → Forall (λ a, ID a < id) l → Forall (λ a, id < ID a) r →
  ordered (l ++ mkAsset id v :: r).
Proof.
  rewrite !ordered_app. intros (H1 & H2 & H3) Hl Hr. split_and!; [done|by constructor|].
  apply Forall_forall. intros a Ha. rewrite Forall_forall in H3, Hl.
  constructor; simpl; auto.
Qed.

Lemma ordered_drop (l r : Assets) x : ordered (l ++ x :: r) → ordered (l ++ r).
Proof.
  rewrite !ordered_app. intros (H1 & H2 & H3). inversion H2; subst.
  split_and!; [done|done|]. eapply Forall_impl; [done|]. simpl.
  intros a Ha. by inversion Ha.
Qed.
#[export] Hint Resolve ordered_middle ordered_drop : assets.

Lemma AddAsset_ordered a al : ordered al → ordered (AddAsset a al).
Proof.
  intros Ho. destruct a as [id v].
  destruct (ordered_cases al id Ho) as [(l&x&r&->&Hx&Hl&Hr)|(l&r&->&Hl&Hr)].
  - rewrite AddAsset_found by done. eauto with assets.
  - rewrite AddAsset_absent by done. eauto with assets.
Qed.

Lemma SubAsset_ordered a al : ordered al → ordered (SubAsset a al).2.
Proof.
  intros Ho. destruct a as [id v].
  destruct (ordered_cases al id Ho) as [(l&x&r&->&Hx&Hl&Hr)|(l&r&->&Hl&Hr)].
  - rewrite SubAsset_found by done. repeat case_match; simpl; eauto with assets.
  - by rewrite SubAsset_absent.
Qed.

(** ** Refinement of the map specification *)

Lemma BalanceOf_to_map al id :
  ordered al → BalanceOf al id = default 0 (to_map al !! id).
Proof.
  intros Ho. destruct (ordered_cases al id Ho) as [(l&x&r&->&Hx&Hl&Hr)|(l&r&->&Hl&Hr)].
  - rewrite BalanceOf_found by done.
    rewrite to_map_middle' by (rewrite Hx; auto with assets). rewrite Hx.
    by rewrite lookup_insert_eq.
  - rewrite BalanceOf_absent by done. rewrite to_map_app_None; auto with assets.
Qed.

(** The entries with a balance are determined by the balances. *)
Definition held (al : list Asset) : list Asset := filter (λ a, Balance a ≠ 0) al.

Lemma elem_of_held al x : ordered al → x ∈ held al ↔ Balance x ≠ 0 ∧ BalanceOf al (ID x) = Balance x.
Proof.
  intros Ho. unfold held. rewrite list_elem_of_filter. split.
  - intros [Hb (l & r & ->)%list_elem_of_split]. split; [done|].
    apply ordered_app in Ho as (_ & Hr & Hl). apply StronglySorted_cons in Hr as [Hr _].
    assert (Forall (λ a, ID a < ID x) l) by (eapply Forall_impl; [done|]; intros a Ha; by inversion Ha).
    by apply (BalanceOf_found l r x (ID x)).
  - intros [Hb E]. split; [done|].
    destruct (ordered_cases al (ID x) Ho) as [(l&y&r&->&Hy&Hl&Hr)|(l&r&->&Hl&Hr)].
    + rewrite (BalanceOf_found l r y (ID x) Hy Hl Hr) in E. apply elem_of_app. right.
      rewrite <- (asset_eta x), <- (asset_eta y), Hy, E. apply list_elem_of_here.
    + rewrite (BalanceOf_absent l r (ID x) Hl Hr) in E. congruence.
Qed.

Lemma held_ordered al : ordered al → StronglySorted (λ a b : Asset, ID a < ID b) (held al).
Proof.
  unfold held. induction 1 as [|x al Ha IH Hx]; [constructor|]. rewrite filter_cons. case_decide; [|done].
  constructor; [done|]. apply Forall_forall. intros y Hy. apply list_elem_of_filter in Hy as [_ Hy].
  rewrite Forall_forall in Hx. by apply Hx.
Qed.

Lemma held_eq al al' :
  ordered al → ordered al' → (∀ id, BalanceOf al id = BalanceOf al' id) → held al = held al'.
Proof.
  intros Ho Ho' E. pose proof (held_ordered _ Ho) as S. pose proof (held_ordered _ Ho') as S'.
  assert (HN : ∀ l : list Asset, StronglySorted (λ a b, ID a < ID b) l → NoDup l).
  { induction 1 as [|x l Hl IH Hx]; constructor; [|done]. intros Hin. rewrite Forall_forall in Hx. specialize (Hx x Hin). lia. }
  eapply StronglySorted_unique_strong; [|exact S|exact S'|].
  - intros x1 x2 _ _ H1 H2. simpl in *. exfalso. lia.
  - apply NoDup_Permutation; [by apply HN..|]. intros x. by rewrite !elem_of_held, E by done.
Qed.

Lemma AddAsset_to_map id v al :
  ordered al → to_map (AddAsset (mkAsset id v) al) = spec_add id v (to_map al).
Proof.
  intros Ho. unfold spec_add.
  destruct (ordered_cases al id Ho) as [(l&x&r&->&Hx&Hl&Hr)|(l&r&->&Hl&Hr)].
  - rewrite AddAsset_found, to_map_middle by auto with assets.
    rewrite to_map_middle' by (rewrite Hx; auto with assets).
    by rewrite Hx, lookup_insert_eq, insert_insert_eq.
  - rewrite AddAsset_absent, to_map_middle by auto with assets.
    by rewrite to_map_app_None by auto with assets.
Qed.

Lemma SubAsset_to_map id v al :
  ordered al →
  prod_map (λ b, b) to_map (SubAsset (mkAsset id v) al) = spec_sub id v (to_map al).
Proof.
  intros Ho. unfold spec_sub.
  destruct (ordered_cases al id Ho) as [(l&x&r&->&Hx&Hl&Hr)|(l&r&->&Hl&Hr)].
  - rewrite SubAsset_found by done.
    rewrite to_map_middle' by (rewrite Hx; auto with assets). rewrite Hx.
    rewrite lookup_insert_eq. case_match; simpl.
    + case_match; simpl; f_equal.
      * rewrite delete_insert_id; [done|]. auto with assets.
      * rewrite insert_insert_eq. apply to_map_middle. auto with assets.
    + f_equal. rewrite <- Hx. apply to_map_middle'. rewrite Hx. auto with assets.
  - rewrite SubAsset_absent by done. by rewrite to_map_app_None by auto with assets.
Qed.

(** ** Consequences used by the accounts *)

Lemma BalanceOf_AddAsset al id v id' :
  ordered al →
  BalanceOf (AddAsset (mkAsset id v) al) id' =
    BalanceOf al id' + (if decide (id' = id) then v else 0).
Proof.
  intros Ho. rewrite !BalanceOf_to_map by auto using AddAsset_ordered.
  rewrite AddAsset_to_map by done. unfold spec_add. rewrite lookup_insert.
  repeat case_decide; subst; simpl; try done; lia.
Qed.

Lemma SubAsset_true al id v al' :
  ordered al → SubAsset (mkAsset id v) al = (true, al') →
  v ≤ BalanceOf al id ∧ ordered al' ∧
  ∀ id', BalanceOf al' id' = BalanceOf al id' - (if decide (id' = id) then v else 0).
Proof.
  intros Ho Hs. assert (Ho' : ordered al').
  { replace al' with ((SubAsset (mkAsset id v) al).2) by (by rewrite Hs).
    by apply SubAsset_ordered. }
  pose proof (SubAsset_to_map id v al Ho) as Hm. rewrite Hs in Hm. simpl in Hm.
  unfold spec_sub in Hm. destruct (to_map al !! id) as [b|] eqn:Eb; [|done].
  destruct (b >=? v) eqn:Ev; [|done]. injection Hm as Hm.
  assert (Hb : BalanceOf al id = b) by (by rewrite BalanceOf_to_map, Eb).
  split_and!; [lia|done|]. intros id'. rewrite !BalanceOf_to_map, Hm by done.
  destruct (decide (id' = id)) as [->|Hne].
  - rewrite Eb. simpl. case_match; simpl.
    + rewrite lookup_delete_eq. simpl. lia.
    + by rewrite lookup_insert_eq.
  - case_match; [rewrite lookup_delete_ne by done|rewrite lookup_insert_ne by done]; lia.
Qed.

Lemma SubAsset_false al a al' : SubAsset a al = (false, al') → al' = al.
Proof. unfold SubAsset. repeat case_match; intros [= ]; by subst. Qed.

(** Deduction succeeds exactly when the asset is listed with enough balance. *)
Lemma SubAsset_succeeds al id v :
  ordered al →
  (SubAsset (mkAsset id v) al).1 =
    bool_decide (id ∈ (ID <$> al) ∧ v ≤ BalanceOf al id).
Proof.
  intros Ho. symmetry.
  destruct (ordered_cases al id Ho) as [(l&x&r&->&Hx&Hl&Hr)|(l&r&->&Hl&Hr)].
  - rewrite SubAsset_found, BalanceOf_found by done.
    destruct (Balance x >=? v) eqn:E; simpl.
    + apply bool_decide_eq_true_2. split; [|lia]. rewrite <- Hx, fmap_app.
      apply elem_of_app. right. by constructor.
    + apply bool_decide_eq_false_2. lia.
  - rewrite SubAsset_absent by done. apply bool_decide_eq_false_2. intros [Hin _].
    apply list_elem_of_fmap in Hin as (a & -> & Ha).
    apply elem_of_app in Ha as [Ha|Ha]; rewrite Forall_forall in Hl, Hr.
    + specialize (Hl _ Ha). lia.
    + specialize (Hr _ Ha). lia.
Qed.

(** ** Undoing an operation by its inverse

    The state journal undoes [AddAsset] with [SubAsset] and conversely. *)

Definition nonneg_entries (al : Assets) : Prop := Forall (λ a, 0 ≤ Balance a) al.

Lemma positive_nonneg al : positive_entries al → nonneg_entries al.
Proof. intros H. eapply Forall_impl; [done|]. simpl. lia. Qed.

Lemma AddAsset_nonneg id v al :
  ordered al → 0 ≤ v → nonneg_entries al → nonneg_entries (AddAsset (mkAsset id v) al).
Proof.
  intros Ho Hv Hn. unfold nonneg_entries in *.
  destruct (ordered_cases al id Ho) as [(l&x&r&->&Hx&Hl&Hr)|(l&r&->&Hl&Hr)].
  - rewrite AddAsset_found by done.
    apply Forall_app in Hn as [? Hn]. inversion Hn; subst.
    apply Forall_app; split; [done|]. constructor; simpl; [lia|done].
  - rewrite AddAsset_absent by done.
    apply Forall_app in Hn as [??]. apply Forall_app; split; [done|]. by constructor.
Qed.

Lemma SubAsset_nonneg id v al :
  ordered al → nonneg_entries al → nonneg_entries (SubAsset (mkAsset id v) al).2.
Proof.
  intros Ho Hn. unfold nonneg_entries in *.
  destruct (ordered_cases al id Ho) as [(l&x&r&->&Hx&Hl&Hr)|(l&r&->&Hl&Hr)].
  - rewrite SubAsset_found by done. pose proof Hn as Hn'.
    apply Forall_app in Hn as [? Hn]. inversion Hn; subst.
    repeat case_match; simpl; try done; apply Forall_app; split; try done.
    constructor; simpl; [lia|done].
  - by rewrite SubAsset_absent.
Qed.

Lemma nonneg_BalanceOf al id : ordered al → nonneg_entries al → 0 ≤ BalanceOf al id.
Proof.
  intros Ho Hn. destruct (ordered_cases al id Ho) as [(l&x&r&->&Hx&Hl&Hr)|(l&r&->&Hl&Hr)].
  - rewrite BalanceOf_found by done. apply Forall_app in Hn as [_ Hn]. by inversion Hn.
  - by rewrite BalanceOf_absent.
Qed.

(** The balances [SubAsset] leaves, whether or not it succeeds. *)
Lemma BalanceOf_SubAsset al id v id' :
  ordered al → 0 ≤ v →
  BalanceOf (SubAsset (mkAsset id v) al).2 id' =
    BalanceOf al id' - (if decide (id' = id ∧ v ≤ BalanceOf al id) then v else 0).
Proof.
  intros Ho Hv. destruct (SubAsset (mkAsset id v) al) as [[] al'] eqn:E; simpl.
  - apply SubAsset_true in E as (H1 & H2 & H3); [|done]. rewrite H3.
    repeat case_decide; naive_solver.
  - pose proof E as E'. apply SubAsset_false in E as ->.
    case_decide as Hd; [|lia]. destruct Hd as [-> Hle].
    pose proof (SubAsset_succeeds al id v Ho) as Hs. rewrite E' in Hs. simpl in Hs.
    symmetry in Hs. apply bool_decide_eq_false in Hs.
    destruct (ordered_cases al id Ho) as [(l&x&r&->&Hx&Hl&Hr)|(l&r&->&Hl&Hr)].
    + exfalso. apply Hs. split; [|done]. rewrite fmap_app, <- Hx.
      apply elem_of_app. right. by constructor.
    + rewrite BalanceOf_absent in * by done. lia.
Qed.

Lemma SubAsset_AddAsset id v al :
  ordered al → positive_entries al →
  SubAsset (mkAsset id v) (AddAsset (mkAsset id v) al) = (true, al).
Proof.
  intros Ho Hp. destruct (ordered_cases al id Ho) as [(l&x&r&->&Hx&Hl&Hr)|(l&r&->&Hl&Hr)].
  - rewrite AddAsset_found, SubAsset_found by done. simpl.
    apply Forall_app in Hp as [_ Hp]. inversion Hp; subst.
    replace (Balance x + v >=? v) with true by lia.
    replace (Balance x + v - v =? 0) with false by lia.
    repeat f_equal. rewrite <- (asset_eta x) at 3. f_equal. lia.
  - rewrite AddAsset_absent, SubAsset_found by done. simpl.
    replace (v >=? v) with true by lia. by replace (v - v =? 0) with true by lia.
Qed.

Lemma AddAsset_SubAsset id v al al' :
  ordered al → SubAsset (mkAsset id v) al = (true, al') →
  AddAsset (mkAsset id v) al' = al.
Proof.
  intros Ho Hs. destruct (ordered_cases al id Ho) as [(l&x&r&->&Hx&Hl&Hr)|(l&r&->&Hl&Hr)].
  - rewrite SubAsset_found in Hs by done.
    destruct (Balance x >=? v); [|done].
    destruct (Balance x - v =? 0) eqn:E; injection Hs as <-.
    + rewrite AddAsset_absent by done. do 2 f_equal. rewrite <- (asset_eta x), Hx.
      f_equal. lia.
    + rewrite AddAsset_found by done. do 2 f_equal. rewrite <- (asset_eta x), Hx. simpl.
      f_equal. lia.
  - by rewrite SubAsset_absent in Hs.
Qed.

(** ** Theorems *)

(** Refinement of [core/types/asset.go]: on a list in ascending id order,
    [AddAsset], [SubAsset] and [BalanceOf] behave as addition, deduction and
    lookup in a finite map of balances, for every id and amount, and both
    mutators keep the order.  A deduction succeeds exactly when the asset is
    listed with at least that balance; an entry that reaches zero is removed. *)
Theorem assets_refine_map (al : Assets) (id : address) (v : Z) :
  ordered al →
  (to_map (AddAsset (mkAsset id v) al) = spec_add id v (to_map al)
   ∧ ordered (AddAsset (mkAsset id v) al)) ∧
  (prod_map (λ b, b) to_map (SubAsset (mkAsset id v) al) = spec_sub id v (to_map al)
   ∧ ordered (SubAsset (mkAsset id v) al).2) ∧
  (∀ id', BalanceOf al id' = default 0 (to_map al !! id')) ∧
  (SubAsset (mkAsset id v) al).1 =
    bool_decide (id ∈ (ID <$> al) ∧ v ≤ BalanceOf al id).
Proof.
  intros Ho. split_and!;
    auto using AddAsset_to_map, AddAsset_ordered, SubAsset_to_map, SubAsset_ordered,
      BalanceOf_to_map, SubAsset_succeeds.
Qed.

Definition sample_assets : Assets :=
  [mkAsset (to_word 160 3) 10; mkAsset (to_word 160 7) 5].

Lemma sample_ordered : ordered sample_assets.
Proof. repeat constructor. Qed.

Lemma assets_refine_map_witness :
  ordered sample_assets ∧
  SubAsset (mkAsset (to_word 160 7) 5) sample_assets =
    (true, [mkAsset (to_word 160 3) 10]) ∧
  to_map (AddAsset (mkAsset (to_word 160 5) 4) sample_assets) =
    spec_add (to_word 160 5) 4 (to_map sample_assets).
Proof.
  split; [exact sample_ordered|]. split; [reflexivity|].
  apply (assets_refine_map sample_assets (to_word 160 5) 4). exact sample_ordered.
Defined.

(** The journal's inverse operations are exact: after a successful
    deduction, adding the amount back restores the very same list; after an
    addition to a list without zero entries, deducting the amount succeeds and
    restores the very same list. *)
Theorem assets_undo_exact (al : Assets) (id : address) (v : Z) :
  ordered al →
  (∀ al', SubAsset (mkAsset id v) al = (true, al') →
          AddAsset (mkAsset id v) al' = al) ∧
  (positive_entries al →
   SubAsset (mkAsset id v) (AddAsset (mkAsset id v) al) = (true, al)).
Proof. intros Ho. split; eauto using AddAsset_SubAsset, SubAsset_AddAsset. Qed.

Lemma assets_undo_exact_witness :
  SubAsset (mkAsset (to_word 160 7) 5) (AddAsset (mkAsset (to_word 160 7) 5) sample_assets)
  = (true, sample_assets).
Proof.
  apply (assets_undo_exact sample_assets (to_word 160 7) 5).
  - exact sample_ordered.
  - repeat constructor.
Defined.

(** A zero transfer breaks that exactness: adding amount zero lists an
    entry of balance zero, which the "if balance is 0, then remove it" rule of
    [SubAsset] never does, and undoing a further zero addition deletes an entry
    that was there before. *)
Theorem assets_zero_entry :
  let id := to_word 160 9 in
  let zero := AddAsset (mkAsset id 0) [] in
  zero = [mkAsset id 0] ∧ IsEmpty zero = false ∧
  SubAsset (mkAsset id 0) (AddAsset (mkAsset id 0) zero) = (true, []).
Proof. by vm_compute. Qed.
