(* ===== verification/Interfaces.v ===== *)
(** * Interfaces between components

    What the account state and the delegate state ask of the trie package, of
    the key-value store below it and of the serializer.  Operations are in the
    operation classes, what the clients rely on is in the law classes; a client
    file opens a section on the operations and its theorems take the laws. *)

From S2P Require Import Prelude.

(** A Go [error] that is not nil, by its message. *)
Definition gerror : Type := string.

(** ** [state.Trie]

    The methods of the [Trie] interface of [core/state/database.go] and
    [consensus/delegatestate/database.go] that read and write entries, for keys
    of type [K] ([addr[:]] or [key[:]]).  Resolving a hash node replaces it by
    the node it names, which no later call can observe, so [TryGet] returns no
    new trie. *)
Class TrieOps (K T : Type) : Type := {
  TryGet : T → K → bytes * option gerror;
  TryUpdate : T → K → bytes → T * option gerror;
  TryDelete : T → K → T * option gerror;
  trie_Hash : T → hash
}.

(** Values that can be stored: not empty, which would delete, and below four
    gigabytes, so that the sizes of nodes fit their fields. *)
Definition storable_value (v : bytes) : Prop := v ≠ [] ∧ Z.of_nat (length v) < 2 ^ 32.

(** A trie all of whose nodes are available behaves as a map from keys to
    nonempty values, and its root hash depends on that map only. *)
Class TrieLaws (K T : Type) `{EqDecision K} `{TrieOps K T} : Type := {
  trie_ok : T → Prop;
  TryGet_ok t k : trie_ok t → (TryGet t k).2 = None;
  TryUpdate_ok t k v :
    trie_ok t → storable_value v → trie_ok (TryUpdate t k v).1 ∧ (TryUpdate t k v).2 = None;
  TryUpdate_get t k v k' :
    trie_ok t → storable_value v →
    (TryGet (TryUpdate t k v).1 k').1 = if decide (k' = k) then v else (TryGet t k').1;
  TryDelete_ok t k :
    trie_ok t → trie_ok (TryDelete t k).1 ∧ (TryDelete t k).2 = None;
  TryDelete_get t k k' :
    trie_ok t →
    (TryGet (TryDelete t k).1 k').1 = if decide (k' = k) then [] else (TryGet t k').1;
  trie_Hash_ext t t' :
    trie_ok t → trie_ok t' →
    (∀ k, (TryGet t k).1 = (TryGet t' k).1) → trie_Hash t = trie_Hash t'
}.

(** ** [trie.DatabaseWriter]

    The one method of the writer, and [Trie.CommitTo] which writes the trie's
    nodes through it. *)
Class WriterOps (W : Type) : Type := {
  Put : bytes → bytes → W → W * option gerror
}.
Class TrieCommitOps (T W : Type) : Type := {
  trie_CommitTo : T → W → (hash * option gerror) * (T * W)
}.
