(* ===== verification/AssetInfo.v ===== *)
(** * Asset descriptions ([core/types/asset_info.go])

    The description carried by a publish transaction and the checks it must
    pass.  Go strings are byte strings; the two regular expressions are matched
    on bytes, which is exact because their literals are ASCII letters or one
    fixed UTF-8 sequence, and no letter outside ASCII upper-cases to one of the
    letters of the forbidden words. *)

From S2P Require Import Prelude Interfaces.
From Stdlib Require Import Ascii.

Definition AssetNameMaxLen : nat := 50.
Definition AssetSymbolMaxLen : nat := 20.
Definition AssetDescMaxLen : nat := 1024.

Record AssetInfo : Type := mkAssetInfo {
  Issuer : option address;
  Name : string;
  Symbol : string;
  Supply : option Z;
  Desc : string
}.
#[export] Instance eta_AssetInfo : Eta AssetInfo :=
  λ r, mkAssetInfo (Issuer r) (Name r) (Symbol r) (Supply r) (Desc r).

(** ** The parts of [strings] and [regexp] the checks use *)

Definition code (c : ascii) : Z := Z.of_N (N_of_ascii c).
Definition is_upper (c : ascii) : bool := (65 <=? code c) && (code c <=? 90).
Definition is_lower (c : ascii) : bool := (97 <=? code c) && (code c <=? 122).
Definition is_digit (c : ascii) : bool := (48 <=? code c) && (code c <=? 57).
Definition is_letter (c : ascii) : bool := is_upper c || is_lower c.

Definition upper (c : ascii) : ascii :=
  if is_lower c then ascii_of_N (Z.to_N (code c - 32)) else c.
Fixpoint ToUpper (s : string) : string :=
  match s with
  | EmptyString => EmptyString
  | String c s => String (upper c) (ToUpper s)
  end.

Fixpoint contains (pat s : string) : bool :=
  String.prefix pat s ||
  match s with EmptyString => false | String _ s' => contains pat s' end.

(** [len(strings.TrimSpace(s)) == 0]: every character is one of Unicode's white
    space characters, here by their UTF-8 encodings. *)
Fixpoint blank (s : string) : bool :=
  match s with
  | EmptyString => true
  | String c s1 =>
    let a := code c in
    if ((9 <=? a) && (a <=? 13)) || (a =? 32) then blank s1
    else match s1 with
    | EmptyString => false
    | String c2 s2 =>
      let b := code c2 in
      if (a =? 194) && ((b =? 133) || (b =? 160)) then blank s2
      else match s2 with
      | EmptyString => false
      | String c3 s3 =>
        let d := code c3 in
        if ((a =? 225) && (b =? 154) && (d =? 128))
           || ((a =? 226) && (b =? 128) && (128 <=? d) && (d <=? 138))
           || ((a =? 226) && (b =? 128) && ((d =? 168) || (d =? 169) || (d =? 175)))
           || ((a =? 226) && (b =? 129) && (d =? 159))
           || ((a =? 227) && (b =? 128) && (d =? 128))
        then blank s3 else false
      end
    end
  end.

Fixpoint all_chars (f : ascii → bool) (s : string) : bool :=
  match s with EmptyString => true | String c s => f c && all_chars f s end.

(** [^[a-zA-Z]{1}[a-zA-Z0-9]+$] *)
Definition validSymbol (s : string) : bool :=
  match s with
  | String c (String _ _ as rest) =>
    is_letter c && all_chars (λ c, is_letter c || is_digit c) rest
  | _ => false
  end.

(** The third forbidden word is the project's Chinese name, three characters
    of three bytes each. *)
Definition chinese_name : string :=
  String.string_of_list_ascii (ascii_of_nat <$> [230; 158; 129; 229; 133; 137; 233; 147; 190]%nat).

(** [AOA|AURORA|...] *)
Definition illegalSymbol (s : string) : bool :=
  contains "AOA" s || contains "AURORA" s || contains chinese_name s.

Definition IsAssetInfoValid (ai : option AssetInfo) : option gerror :=
  match ai with
  | Some ai =>
    if blank (Symbol ai) || blank (Name ai) then
      Some "name or symbol can not be empty"%string
    else if ((AssetSymbolMaxLen <? String.length (Symbol ai))%nat
             || (AssetNameMaxLen <? String.length (Name ai))%nat
             || (AssetDescMaxLen <? String.length (Desc ai))%nat) then
      Some "Asset name or symbol or desc is too long"%string
    else if illegalSymbol (ToUpper (Name ai)) then Some "name illegal"%string
    else if illegalSymbol (ToUpper (Symbol ai)) then Some "symbol illegal"%string
    else if negb (validSymbol (Symbol ai)) then Some "symbol invalid"%string
    else match Supply ai with
    | None => Some "Supply must be greater then 0 "%string
    | Some v =>
      if v =? 0 then Some "Supply must be greater then 0 "%string else None
    end
  | None => Some "assetInfo is Nil"%string
  end.

(** ** Theorems *)

(** What an accepted asset description guarantees: a symbol of two to
    twenty ASCII letters and digits that starts with a letter, a name of at
    most fifty bytes and a description of at most 1024, neither name nor symbol
    containing a reserved word in any letter case, and a supply that is present
    and different from zero. *)
Theorem asset_info_accepted (ai : AssetInfo) :
  IsAssetInfoValid (Some ai) = None ↔
  (∃ c d s, Symbol ai = String c (String d s) ∧ is_letter c = true ∧
     all_chars (λ c, is_letter c || is_digit c) (String d s) = true) ∧
  (String.length (Symbol ai) ≤ 20)%nat ∧
  blank (Name ai) = false ∧ (String.length (Name ai) ≤ 50)%nat ∧
  (String.length (Desc ai) ≤ 1024)%nat ∧
  illegalSymbol (ToUpper (Name ai)) = false ∧
  illegalSymbol (ToUpper (Symbol ai)) = false ∧
  ∃ v, Supply ai = Some v ∧ v ≠ 0.
Proof.
  unfold IsAssetInfoValid, AssetNameMaxLen, AssetSymbolMaxLen, AssetDescMaxLen.
  split.
  - destruct (blank (Symbol ai)) eqn:E1; [done|].
    destruct (blank (Name ai)) eqn:E2; [done|].
    destruct (20 <? _)%nat eqn:E3; [done|]. destruct (50 <? _)%nat eqn:E4; [done|].
    destruct (1024 <? _)%nat eqn:E5; [done|]. simpl.
    destruct (illegalSymbol (ToUpper (Name ai))); [done|].
    destruct (illegalSymbol (ToUpper (Symbol ai))); [done|].
    destruct (validSymbol (Symbol ai)) eqn:E6; [|done]. simpl.
    destruct (Supply ai) as [v|]; [|done]. destruct (Z.eqb_spec v 0); [done|].
    intros _. apply Nat.ltb_ge in E3, E4, E5.
    split_and!; try done; [|by eauto].
    unfold validSymbol in E6. destruct (Symbol ai) as [|c [|d s]]; [done|done|].
    apply andb_true_iff in E6 as [? ?]. eauto 10.
  - intros ((c & d & s & Hs & Hc & Hall) & H1 & -> & H2 & H3 & -> & -> & v & -> & Hv).
    assert (blank (Symbol ai) = false) as ->.
    { rewrite Hs. unfold is_letter, is_upper, is_lower in Hc. cbn [blank].
      replace ((9 <=? code c) && (code c <=? 13) || (code c =? 32)) with false by lia.
      replace (code c =? 194) with false by lia.
      replace (code c =? 225) with false by lia.
      replace (code c =? 226) with false by lia.
      replace (code c =? 227) with false by lia.
      simpl. by destruct s. }
    apply Nat.ltb_ge in H1, H2, H3. rewrite H1, H2, H3; simpl.
    assert (validSymbol (Symbol ai) = true) as ->.
    { rewrite Hs. unfold validSymbol. by rewrite Hc, Hall. }
    simpl. by destruct (Z.eqb_spec v 0).
Qed.

(** The rejection message says the supply must be greater than zero, but a
    negative supply passes: the check compares with zero for equality only, and
    the JSON decoder that produces the description accepts negative integers. *)
Theorem asset_info_negative_supply :
  IsAssetInfoValid
    (Some (mkAssetInfo None "Gold coin" "GLD" (Some (-5)) "")) = None.
Proof. reflexivity. Qed.
