(* ===== verification/StateTypes.v ===== *)
(** * Account state: data ([core/state])

    The records of [core/state/state_object.go], [core/state/statedb.go] and the
    journal entries of [core/state/journal.go].

    Three type parameters stand for what the package handles opaquely: [AT] is
    the account trie, [ST] an account's storage trie and [VL] a Go slice
    [[]common.Address] (the vote list; [core/state] only stores and returns the
    slice header, the code that writes through it is in [core/evm.go]).

    A pointer to a state object that a method holds is always the pointer kept
    in [stateObjects], so objects are values in that map; a journal entry that
    keeps a replaced object keeps its value, which no later call can change. *)

From S2P Require Import Prelude Assets Interfaces AssetInfo.

(** [types.Log] *)
Record Log : Type := mkLog {
  log_Address : address;
  log_Topics : list hash;
  log_Data : bytes;
  log_BlockNumber : Z;
  log_TxHash : hash;
  log_TxIndex : Z;
  log_BlockHash : hash;
  log_Index : Z
}.
#[export] Instance eta_Log : Eta Log := λ r,
  mkLog (log_Address r) (log_Topics r) (log_Data r) (log_BlockNumber r)
        (log_TxHash r) (log_TxIndex r) (log_BlockHash r) (log_Index r).

(** [Account].  [LockBalance] is a pointer that [newObject] leaves nil;
    [CodeHash] and [AssetHash] are byte slices that only ever hold a 32-byte
    hash, [AssetHash] possibly nil. *)
Record Account (VL : Type) : Type := mkAccount {
  a_Nonce : Z;
  a_Balance : Z;
  a_Root : hash;
  a_CodeHash : hash;
  a_LockBalance : option Z;
  a_VoteList : VL;
  a_AssetList : Assets;
  a_AssetHash : option hash
}.
Arguments mkAccount {VL} _ _ _ _ _ _ _ _.
Arguments a_Nonce {VL} _.
Arguments a_Balance {VL} _.
Arguments a_Root {VL} _.
Arguments a_CodeHash {VL} _.
Arguments a_LockBalance {VL} _.
Arguments a_VoteList {VL} _.
Arguments a_AssetList {VL} _.
Arguments a_AssetHash {VL} _.
#[export] Instance eta_Account {VL} : Eta (Account VL) := λ r,
  mkAccount (a_Nonce r) (a_Balance r) (a_Root r) (a_CodeHash r) (a_LockBalance r)
            (a_VoteList r) (a_AssetList r) (a_AssetHash r).

(** An [Account] literal before [newObject] replaces its nil pointers. *)
Record AccountLit (VL : Type) : Type := mkAccountLit {
  l_Nonce : Z;
  l_Balance : option Z;
  l_Root : hash;
  l_CodeHash : option hash;
  l_LockBalance : option Z;
  l_VoteList : VL;
  l_AssetList : option Assets;
  l_AssetHash : option hash
}.
Arguments mkAccountLit {VL} _ _ _ _ _ _ _ _.
Arguments l_Nonce {VL} _.
Arguments l_Balance {VL} _.
Arguments l_Root {VL} _.
Arguments l_CodeHash {VL} _.
Arguments l_LockBalance {VL} _.
Arguments l_VoteList {VL} _.
Arguments l_AssetList {VL} _.
Arguments l_AssetHash {VL} _.

(** [Storage] *)
Abbreviation Storage := (gmap hash hash).

(** [stateObject].  [code] and [assetData] distinguish a nil slice; [onDirty]
    records whether the callback is still set (it is [MarkStateObjectDirty]
    whenever it is not nil).  [addrHash] is a function of the address. *)
Record stateObject (ST VL : Type) : Type := mkObject {
  o_address : address;
  o_data : Account VL;
  o_dbErr : option gerror;
  o_trie : option ST;
  o_code : option bytes;
  o_abi : string;
  o_assetData : option bytes;
  o_cachedStorage : Storage;
  o_dirtyStorage : Storage;
  o_dirtyCode : bool;
  o_suicided : bool;
  o_touched : bool;
  o_deleted : bool;
  o_dirtyAssetData : bool;
  o_onDirty : bool
}.
Arguments mkObject {ST VL} _ _ _ _ _ _ _ _ _ _ _ _ _ _ _.
Arguments o_address {ST VL} _.
Arguments o_data {ST VL} _.
Arguments o_dbErr {ST VL} _.
Arguments o_trie {ST VL} _.
Arguments o_code {ST VL} _.
Arguments o_abi {ST VL} _.
Arguments o_assetData {ST VL} _.
Arguments o_cachedStorage {ST VL} _.
Arguments o_dirtyStorage {ST VL} _.
Arguments o_dirtyCode {ST VL} _.
Arguments o_suicided {ST VL} _.
Arguments o_touched {ST VL} _.
Arguments o_deleted {ST VL} _.
Arguments o_dirtyAssetData {ST VL} _.
Arguments o_onDirty {ST VL} _.
#[export] Instance eta_stateObject {ST VL} : Eta (stateObject ST VL) := λ r,
  mkObject (o_address r) (o_data r) (o_dbErr r) (o_trie r) (o_code r) (o_abi r)
           (o_assetData r) (o_cachedStorage r) (o_dirtyStorage r) (o_dirtyCode r)
           (o_suicided r) (o_touched r) (o_deleted r) (o_dirtyAssetData r)
           (o_onDirty r).

(** [journalEntry] and its implementations. *)
Inductive journalEntry (ST VL : Type) : Type :=
| createObjectChange (account : address)
| resetObjectChange (prev : stateObject ST VL)
| suicideChange (account : address) (prev : bool) (prevbalance : Z)
| balanceChange (account : address) (prev : Z)
| lockBalanceChange (account : address) (prev : Z)
| voteListChange (account : address) (prev : VL)
| nonceChange (account : address) (prev : Z)
| storageChange (account : address) (key prevalue : hash)
| codeChange (account : address) (prevcode : option bytes) (prevhash : hash)
| refundChange (prev : Z)
| addLogChange (txhash : hash)
| addPreimageChange (h : hash)
| touchChange (account : address) (prev prevDirty : bool)
| assetBalanceChange (account : address) (asset : Asset) (preOpIsAdd : bool).
Arguments createObjectChange {ST VL} _.
Arguments resetObjectChange {ST VL} _.
Arguments suicideChange {ST VL} _ _ _.
Arguments balanceChange {ST VL} _ _.
Arguments lockBalanceChange {ST VL} _ _.
Arguments voteListChange {ST VL} _ _.
Arguments nonceChange {ST VL} _ _.
Arguments storageChange {ST VL} _ _ _.
Arguments codeChange {ST VL} _ _ _.
Arguments refundChange {ST VL} _.
Arguments addLogChange {ST VL} _.
Arguments addPreimageChange {ST VL} _.
Arguments touchChange {ST VL} _ _ _.
Arguments assetBalanceChange {ST VL} _ _ _.

Record revision : Type := mkRevision { rev_id : Z; rev_journalIndex : nat }.
#[export] Instance revision_inhabited : Inhabited revision := populate (mkRevision 0 0).

(** [StateDB] (the database handle is part of the environment). *)
Record StateDB (AT ST VL : Type) : Type := mkStateDB {
  s_trie : AT;
  s_stateObjects : gmap address (stateObject ST VL);
  s_stateObjectsDirty : gset address;
  s_dbErr : option gerror;
  s_refund : Z;
  s_thash : hash;
  s_bhash : hash;
  s_txIndex : Z;
  s_logs : gmap hash (list Log);
  s_logSize : Z;
  s_preimages : gmap hash bytes;
  s_journal : list (journalEntry ST VL);
  s_validRevisions : list revision;
  s_nextRevisionId : Z
}.
Arguments mkStateDB {AT ST VL} _ _ _ _ _ _ _ _ _ _ _ _ _ _.
Arguments s_trie {AT ST VL} _.
Arguments s_stateObjects {AT ST VL} _.
Arguments s_stateObjectsDirty {AT ST VL} _.
Arguments s_dbErr {AT ST VL} _.
Arguments s_refund {AT ST VL} _.
Arguments s_thash {AT ST VL} _.
Arguments s_bhash {AT ST VL} _.
Arguments s_txIndex {AT ST VL} _.
Arguments s_logs {AT ST VL} _.
Arguments s_logSize {AT ST VL} _.
Arguments s_preimages {AT ST VL} _.
Arguments s_journal {AT ST VL} _.
Arguments s_validRevisions {AT ST VL} _.
Arguments s_nextRevisionId {AT ST VL} _.
#[export] Instance eta_StateDB {AT ST VL} : Eta (StateDB AT ST VL) := λ r,
  mkStateDB (s_trie r) (s_stateObjects r) (s_stateObjectsDirty r) (s_dbErr r)
            (s_refund r) (s_thash r) (s_bhash r) (s_txIndex r) (s_logs r)
            (s_logSize r) (s_preimages r) (s_journal r) (s_validRevisions r)
            (s_nextRevisionId r).

(** The environment of the package: the database interface of
    [core/state/database.go], the serializer, the hash function, and the nil
    slice of type [VL].  [rlp_content] is the content [rlp.Split] returns. *)
Class StateEnv (AT ST VL : Type) : Type := {
  se_atrie :: TrieOps address AT;
  se_strie :: TrieOps hash ST;
  db_OpenTrie : hash → AT + gerror;
  db_OpenStorageTrie : hash → hash → ST + gerror;
  db_ContractCode : hash → hash → option bytes * option gerror;
  db_ContractCodeSize : hash → hash → Z * option gerror;
  db_ContractAbi : hash → hash → string * option gerror;
  db_AssetData : hash → hash → option bytes * option gerror;
  Keccak256Hash : bytes → hash;
  CreateAddress : address → Z → address;
  nil_VoteList : VL;
  rlp_DecodeAccount : address → bytes → option (Account VL);
  rlp_EncodeValue : hash → bytes;
  rlp_SplitValue : bytes → bytes * option gerror;
  rlp_EncodeAssetInfo : AssetInfo → bytes + gerror;
  rlp_DecodeAssetInfo : bytes → AssetInfo * option gerror
}.

(** What writing the state back depends on: the orders in which [range] visits the
    maps, and what [rlp.EncodeToBytes] makes of an account, [None] for an error.  The
    encoding reads the array a vote list points to, so it is not a part of the
    database interface. *)
Class WriteEnv (ST VL : Type) : Type := {
  range_storage : Storage → list (hash * hash);
  range_dirty : gset address → list address;
  range_objects : gmap address (stateObject ST VL) → list (address * stateObject ST VL);
  rlp_EncodeAccount : Account VL → option bytes
}.

(** Big-endian bytes of a value, [n] of them, and back. *)
Fixpoint be_bytes (n : nat) (z : Z) : bytes :=
  match n with
  | O => []
  | S n => be_bytes n (z / 256) ++ [byte_of z]
  end.
Definition be_val (b : bytes) : Z := foldl (λ acc x, acc * 256 + byte_val x) 0 b.


(** [addr[:]] and [common.BytesToHash]. *)
Definition address_bytes (a : address) : bytes := be_bytes 20 a.
Arguments address_bytes : simpl never.
Definition hash_bytes (h : hash) : bytes := be_bytes 32 h.
Arguments hash_bytes : simpl never.
Definition BytesToHash (b : bytes) : hash := to_word 256 (be_val b).
