(* ===== verification/Hex.v ===== *)
(** * Addresses and their hexadecimal strings ([common/types.go], [common/bytes.go])

    A Go string is its bytes.  [Address.Hex] prints an address as [AOA] and
    forty digits; the delegate code uses that string as the identity of an
    account and reads it back with [HexToAddress]. *)

From S2P Require Import Prelude Interfaces StateTypes.

(** ** Characters *)

Definition str (s : string) : bytes := String.list_byte_of_string s.

Definition lower_byte (c : Byte.byte) : Byte.byte :=
  let v := byte_val c in if (65 <=? v) && (v <=? 90) then byte_of (v + 32) else c.

(** [strings.ToLower] on a string of ASCII characters. *)
Definition ToLower (s : bytes) : bytes := lower_byte <$> s.

(** ** [encoding/hex] *)

Definition hex_digit (v : Z) : Byte.byte := byte_of (if v <? 10 then 48 + v else 87 + v).

Definition from_hex_digit (c : Byte.byte) : option Z :=
  let v := byte_val c in
  if (48 <=? v) && (v <=? 57) then Some (v - 48)
  else if (97 <=? v) && (v <=? 102) then Some (v - 87)
  else if (65 <=? v) && (v <=? 70) then Some (v - 55)
  else None.

(** [hex.EncodeToString] *)
Fixpoint EncodeToString (b : bytes) : bytes :=
  match b with
  | [] => []
  | x :: b => hex_digit (byte_val x / 16) :: hex_digit (byte_val x mod 16) :: EncodeToString b
  end.

(** [hex.DecodeString], whose result up to an error is what the callers keep. *)
Fixpoint DecodeString (s : bytes) : bytes :=
  match s with
  | c1 :: c2 :: s =>
    match from_hex_digit c1, from_hex_digit c2 with
    | Some a, Some b => byte_of (a * 16 + b) :: DecodeString s
    | _, _ => []
    end
  | _ => []
  end.

(** ** [common/bytes.go] *)

Definition Bytes2Hex (d : bytes) : bytes := EncodeToString d.
Definition Hex2Bytes (s : bytes) : bytes := DecodeString s.

Definition is_char (c : Byte.byte) (upper : Z) : bool :=
  (byte_val c =? upper) || (byte_val c =? upper + 32).

Definition hasAOAPrefix (s : bytes) : bool :=
  match s with
  | c0 :: c1 :: c2 :: _ => is_char c0 65 && is_char c1 79 && is_char c2 65
  | _ => false
  end.

Definition FromHex (s : bytes) : bytes :=
  let s := match s with
           | c0 :: c1 :: r => if (byte_val c0 =? 48) && is_char c1 88 then r else s
           | _ => s
           end in
  let s := if (length s mod 2 =? 1)%nat then byte_of 48 :: s else s in
  Hex2Bytes s.

(** A slice expression past the end of a string panics. *)
Definition FromAoAHex (s : bytes) : outcome bytes :=
  if (1 <? length s)%nat then
    if (length s <? 3)%nat then Panic "slice bounds out of range"
    else if bool_decide (ToLower (take 3 s) = str "aoa") then Ret (Hex2Bytes (drop 3 s))
    else Ret (Hex2Bytes s)
  else Ret (Hex2Bytes s).

(** ** [common/types.go] *)

(** [Address.SetBytes] on the zero address. *)
Definition BytesToAddress (b : bytes) : address :=
  to_word 160 (be_val (if (20 <? length b)%nat then drop (length b - 20) b else b)).

Definition HexToAddress (s : bytes) : outcome address :=
  if hasAOAPrefix s then b ← FromAoAHex s; Ret (BytesToAddress b)
  else Ret (BytesToAddress (FromHex s)).

Section Hex.
(** [sha3.NewLegacyKeccak256], whose digests have 32 bytes. *)
Variable keccak : bytes → bytes.

(** The loop of [Hex] over the digits; [i] is the index of the first one.  Forty
    digits only reach the first twenty bytes of the digest. *)
Fixpoint checksum (hash : bytes) (i : nat) (result : bytes) : bytes :=
  match result with
  | [] => []
  | c :: rest =>
    let hashByte := byte_val (nth (i / 2) hash Byte.x00) in
    let hashByte := if (i mod 2 =? 0)%nat then Z.shiftr hashByte 4 else Z.land hashByte 15 in
    (if (byte_val c >? 57) && (hashByte >? 7) then byte_of (byte_val c - 32) else c)
    :: checksum hash (S i) rest
  end.

Definition Hex (a : address) : bytes :=
  let unchecksummed := EncodeToString (address_bytes a) in
  let hash := keccak unchecksummed in
  str "AOA" ++ ToLower (checksum hash 0 unchecksummed).
End Hex.

(** ** Digits *)

(** The facts about one digit, for all sixteen. *)
Definition digit_fact (v : Z) : bool :=
  let c := hex_digit v in
  bool_decide (lower_byte c = c) &&
  bool_decide (from_hex_digit c = Some v) &&
  (if byte_val c >? 57 then bool_decide (lower_byte (byte_of (byte_val c - 32)) = c) else true).

Lemma digit_facts v : 0 ≤ v < 16 → digit_fact v = true.
Proof.
  intros Hv. assert (H : forallb digit_fact (seqZ 0 16) = true) by (by vm_compute).
  rewrite forallb_forall in H. apply H, list_elem_of_In, elem_of_seqZ. lia.
Qed.

Definition is_digit (c : Byte.byte) : Prop := ∃ v, 0 ≤ v < 16 ∧ c = hex_digit v.

Lemma EncodeToString_digits b : Forall is_digit (EncodeToString b).
Proof.
  induction b as [|x b IH]; simpl; constructor; [|constructor; [|done]].
  - exists (byte_val x / 16). split; [|done]. pose proof (byte_val_range x). split.
    + apply Z.div_pos; lia.
    + apply Z.div_lt_upper_bound; lia.
  - exists (byte_val x mod 16). split; [|done]. by apply Z.mod_pos_bound.
Qed.

(** Lowering undoes the checksum. *)
Lemma ToLower_checksum hash i s : Forall is_digit s → ToLower (checksum hash i s) = s.
Proof.
  intros Hs. revert i. induction Hs as [|c s (v & Hv & ->) Hs IH]; intros i; [done|].
  cbn [checksum ToLower fmap list_fmap]. f_equal; [|apply IH].
  pose proof (digit_facts v Hv) as H. unfold digit_fact in H.
  apply andb_prop in H as [H H3]. apply andb_prop in H as [H1 H2].
  apply bool_decide_eq_true in H1. destruct (byte_val (hex_digit v) >? 57); simpl; [|done].
  case_match; [|done]. by apply bool_decide_eq_true in H3.
Qed.

Lemma from_hex_digit_hex v : 0 ≤ v < 16 → from_hex_digit (hex_digit v) = Some v.
Proof.
  intros Hv. pose proof (digit_facts v Hv) as H. unfold digit_fact in H.
  apply andb_prop in H as [H _]. apply andb_prop in H as [_ H]. by apply bool_decide_eq_true in H.
Qed.

Lemma DecodeString_EncodeToString b : DecodeString (EncodeToString b) = b.
Proof.
  induction b as [|x b IH]; [done|]. simpl. pose proof (byte_val_range x).
  rewrite !from_hex_digit_hex.
  - rewrite IH. f_equal. rewrite (Z.mul_comm (byte_val x / 16)), <- Z.div_mod by done.
    apply byte_of_val.
  - by apply Z.mod_pos_bound.
  - split; [apply Z.div_pos; lia|apply Z.div_lt_upper_bound; lia].
Qed.

(** ** Addresses *)

Lemma be_val_snoc b x : be_val (b ++ [x]) = be_val b * 256 + byte_val x.
Proof. unfold be_val. by rewrite foldl_app. Qed.

Lemma length_be_bytes n z : length (be_bytes n z) = n.
Proof. revert z. induction n as [|n IH]; intros z; cbn [be_bytes]; [done|]. rewrite length_app, IH. simpl. lia. Qed.

Lemma be_val_be_bytes n z : be_val (be_bytes n z) = z mod 256 ^ Z.of_nat n.
Proof.
  revert z. induction n as [|n IH]; intros z; [by rewrite Z.mod_1_r|]. cbn [be_bytes].
  rewrite be_val_snoc, IH, byte_val_of. rewrite Nat2Z.inj_succ, Z.pow_succ_r by lia.
  rewrite Z.rem_mul_r by lia. lia.
Qed.

Lemma BytesToHash_hash_bytes h : BytesToHash (hash_bytes h) = h.
Proof.
  unfold BytesToHash, hash_bytes. rewrite be_val_be_bytes. apply word_eq. pose proof (word_bounds h) as Hb.
  rewrite Z.mod_small by (change (256 ^ Z.of_nat 32) with (2 ^ Z.of_N 256); done). by apply to_word_small.
Qed.
#[export] Instance hash_bytes_inj : Inj (=) (=) hash_bytes.
Proof. intros h h' E. by rewrite <- (BytesToHash_hash_bytes h), E, BytesToHash_hash_bytes. Qed.

Lemma BytesToAddress_bytes a : BytesToAddress (address_bytes a) = a.
Proof.
  unfold BytesToAddress, address_bytes. rewrite length_be_bytes.
  change (20 <? 20)%nat with false. cbv iota. rewrite be_val_be_bytes.
  change (256 ^ Z.of_nat 20) with (2 ^ 160). rewrite Z.mod_small by exact (word_bounds a). apply to_word_id.
Qed.

Lemma Hex_plain keccak a : Hex keccak a = str "AOA" ++ EncodeToString (address_bytes a).
Proof. unfold Hex. by rewrite ToLower_checksum by apply EncodeToString_digits. Qed.

Lemma ToLower_digits s : Forall is_digit s → ToLower s = s.
Proof.
  intros Hs. induction Hs as [|c s (v & Hv & ->) Hs IH]; [done|]. simpl. f_equal; [|done].
  pose proof (digit_facts v Hv) as H. unfold digit_fact in H.
  apply andb_prop in H as [H _]. apply andb_prop in H as [H _]. by apply bool_decide_eq_true in H.
Qed.

Lemma HexToAddress_AOA s : HexToAddress (str "AOA" ++ s) = Ret (BytesToAddress (Hex2Bytes s)).
Proof. done. Qed.

Lemma HexToAddress_aoa s : HexToAddress (str "aoa" ++ s) = Ret (BytesToAddress (Hex2Bytes s)).
Proof. done. Qed.

Lemma HexToAddress_Hex keccak a : HexToAddress (Hex keccak a) = Ret a.
Proof.
  rewrite Hex_plain, HexToAddress_AOA. unfold Hex2Bytes.
  by rewrite DecodeString_EncodeToString, BytesToAddress_bytes.
Qed.

Lemma HexToAddress_lower keccak a : HexToAddress (ToLower (Hex keccak a)) = Ret a.
Proof.
  rewrite Hex_plain. unfold ToLower. rewrite fmap_app.
  change (lower_byte <$> str "AOA") with (str "aoa").
  rewrite (ToLower_digits (EncodeToString _)), HexToAddress_aoa by apply EncodeToString_digits.
  unfold Hex2Bytes. by rewrite DecodeString_EncodeToString, BytesToAddress_bytes.
Qed.

Lemma Hex_inj keccak a b : Hex keccak a = Hex keccak b → a = b.
Proof.
  intros E. pose proof (HexToAddress_Hex keccak a) as H. rewrite E, HexToAddress_Hex in H. by injection H.
Qed.

Lemma lower_Hex_inj keccak a b : ToLower (Hex keccak a) = ToLower (Hex keccak b) → a = b.
Proof.
  intros E. pose proof (HexToAddress_lower keccak a) as H. rewrite E, HexToAddress_lower in H.
  by injection H.
Qed.

(** An address survives being printed and read back.  [HexToAddress] never
    panics on the string [Address.Hex] makes nor on its lower-case form, and
    gives the address back; so the string identifies the address. *)
Theorem hex_roundtrip (keccak : bytes → bytes) (a : address) :
  HexToAddress (Hex keccak a) = Ret a ∧ HexToAddress (ToLower (Hex keccak a)) = Ret a ∧
  ∀ b, Hex keccak a = Hex keccak b → a = b.
Proof.
  split_and!; [apply HexToAddress_Hex|apply HexToAddress_lower|apply Hex_inj].
Qed.

(** [FromAoAHex] panics on a string of two characters, which it slices at
    three. *)
Theorem from_aoa_hex_short (c1 c2 : Byte.byte) : FromAoAHex [c1; c2] = Panic "slice bounds out of range".
Proof. done. Qed.
