(* ===== verification/StateSample.v ===== *)
(** * A concrete environment

    An instance of the interfaces of [StateTypes] in which the state packages can
    be run: tries are finite maps, the database is empty and values are
    serialized through their position in an enumeration.  Theorems about the
    state are evaluated on it, and it shows that what they assume of the trie
    and of the serializer can hold. *)

From S2P Require Import Prelude Assets Interfaces AssetInfo StateTypes.

Module Sample.

(** One byte per bit, most significant first. *)
Fixpoint bits_of (p : positive) : bytes :=
  match p with
  | xH => [Byte.x02]
  | xO p => Byte.x00 :: bits_of p
  | xI p => Byte.x01 :: bits_of p
  end.

Fixpoint of_bits (b : bytes) : option positive :=
  match b with
  | [Byte.x02] => Some xH
  | Byte.x00 :: b => xO <$> of_bits b
  | Byte.x01 :: b => xI <$> of_bits b
  | _ => None
  end.

Lemma of_bits_of p : of_bits (bits_of p) = Some p.
Proof. induction p; simpl; by rewrite ?IHp. Qed.

Lemma bits_of_nonempty p : bits_of p ≠ [].
Proof. by destruct p. Qed.

Definition serialize `{Countable A} (x : A) : bytes := bits_of (encode x).
Definition deserialize `{Countable A} (b : bytes) : option A := of_bits b ≫= decode.

Lemma deserialize_serialize `{Countable A} (x : A) : deserialize (serialize x) = Some x.
Proof. unfold deserialize, serialize. rewrite of_bits_of. apply decode_encode. Qed.

#[export] Instance Asset_countable : Countable Asset.
Proof.
  apply (inj_countable' (λ a, (ID a, Balance a)) (λ p, mkAsset p.1 p.2)). by intros [].
Defined.

Definition account_tuple {VL} (a : Account VL) :=
  (a_Nonce a, a_Balance a, a_Root a, a_CodeHash a, a_LockBalance a, a_VoteList a,
   a_AssetList a, a_AssetHash a).

#[export] Instance Account_eq `{EqDecision VL} : EqDecision (Account VL).
Proof. solve_decision. Defined.

#[export] Instance Account_countable `{Countable VL} : Countable (Account VL).
Proof.
  apply (inj_countable' account_tuple
    (λ '(n, b, r, c, l, v, al, ah), mkAccount n b r c l v al ah)). by intros [].
Defined.

#[export] Instance AssetInfo_eq : EqDecision AssetInfo.
Proof. solve_decision. Defined.

#[export] Instance AssetInfo_countable : Countable AssetInfo.
Proof.
  apply (inj_countable' (λ i, (Issuer i, Name i, Symbol i, Supply i, Desc i))
    (λ '(i, n, s, v, d), mkAssetInfo i n s v d)). by intros [].
Defined.

#[export] Instance map_trie `{Countable K} : TrieOps K (gmap K bytes) := {
  TryGet t k := (default [] (t !! k), None);
  TryUpdate t k v := (<[k := v]> t, None);
  TryDelete t k := (delete k t, None);
  trie_Hash t := to_word 256 (Z.pos (encode t))
}.

(** Values are never empty. *)
#[export] Instance map_trie_laws `{Countable K} : TrieLaws K (gmap K bytes).
Proof.
  refine {| trie_ok (t : gmap K bytes) := ∀ k, t !! k ≠ Some [] |}.
  - done.
  - intros t k v Hok [Hv _]. split; [|done]. intros k'. simpl.
    rewrite lookup_insert. case_decide; [congruence|done].
  - intros t k v k' Hok _. simpl. rewrite lookup_insert.
    by destruct (decide (k = k')), (decide (k' = k)).
  - intros t k Hok. split; [|done]. intros k'. simpl. rewrite lookup_delete. by case_decide.
  - intros t k k' Hok. simpl. rewrite lookup_delete.
    by destruct (decide (k = k')), (decide (k' = k)).
  - intros t t' Hok Hok' Hext. simpl. do 3 f_equal. apply map_eq. intros k.
    specialize (Hext k). simpl in Hext. specialize (Hok k). specialize (Hok' k).
    destruct (t !! k), (t' !! k); simpl in *; congruence.
Defined.

Definition sample_env_of `{Countable VL} (nil : VL) :
  StateEnv (gmap address bytes) (gmap hash bytes) VL := {|
  db_OpenTrie h := if decide (h = hash0) then inl ∅ else inr "missing trie node"%string;
  db_OpenStorageTrie _ h := if decide (h = hash0) then inl ∅ else inr "missing trie node"%string;
  db_ContractCode _ _ := (None, Some "not found"%string);
  db_ContractCodeSize _ _ := (0, Some "not found"%string);
  db_ContractAbi _ _ := (EmptyString, Some "not found"%string);
  db_AssetData _ _ := (None, Some "not found"%string);
  Keccak256Hash b := to_word 256 (be_val b + 7);
  CreateAddress a n := to_word 160 (a + 1000 + n);
  nil_VoteList := nil;
  rlp_DecodeAccount _ b := deserialize b;
  rlp_EncodeValue h := hash_bytes h;
  rlp_SplitValue b := (b, None);
  rlp_EncodeAssetInfo i := if default 0 (Supply i) <? 0 then inr "rlp: cannot encode negative *big.Int"%string else inl (serialize i);
  rlp_DecodeAssetInfo b :=
    match deserialize b with
    | Some i => (i, None)
    | None => (mkAssetInfo None EmptyString EmptyString None EmptyString, Some "rlp: bad input"%string)
    end
|}.

(** Maps visited in the order of their keys; a negative number has no encoding, nor
    has an account that does not fit a trie value. *)
Definition sample_write_env `{Countable VL} : WriteEnv (gmap hash bytes) VL := {|
  range_storage := map_to_list;
  range_dirty := elements;
  range_objects := map_to_list;
  rlp_EncodeAccount a :=
    if (a_Balance a <? 0) || (default 0 (a_LockBalance a) <? 0) || (2 ^ 32 <=? Z.of_nat (length (serialize a))) then None
    else Some (serialize a)
|}.

(** Vote lists as plain lists. *)
#[export] Instance sample_env : StateEnv (gmap address bytes) (gmap hash bytes) (list address) :=
  sample_env_of [].

Definition empty_state : StateDB (gmap address bytes) (gmap hash bytes) (list address) :=
  mkStateDB ∅ ∅ ∅ None 0 hash0 hash0 0 ∅ 0 ∅ [] [] 0.

(** Running a program, and that it does not panic. *)
Definition final {S A} (m : GM S A) (s : S) : S :=
  match m s with Ret (_, s') => s' | Panic _ => s end.
Definition returns {S A} (m : GM S A) (s : S) : bool :=
  match m s with Ret _ => true | Panic _ => false end.

Lemma final_unit {S} (m : GM S unit) s : returns m s = true → m s = Ret (tt, final m s).
Proof. unfold returns, final. by destruct (m s) as [[[] s']|w]. Qed.

End Sample.
