(* ===== verification/StateDB.v ===== *)
(** * Account state: operations ([core/state/state_object.go],
      [core/state/statedb.go], [core/state/journal.go])

    Methods of [StateDB] are programs over the database state.  A method of a
    state object runs on the pair of the database ([self.db]) and the object
    ([self]); [on_object] runs it on the object [stateObjects] holds and stores
    the object back, which is what mutation through the pointer does. *)

From S2P Require Import Prelude Assets Interfaces AssetInfo StateTypes.

Section Operations.
Context {AT ST VL : Type} `{ENV : StateEnv AT ST VL}.

#[local] Abbreviation SDB := (StateDB AT ST VL).
#[local] Abbreviation OBJ := (stateObject ST VL).
#[local] Abbreviation SM := (GM SDB).
#[local] Abbreviation OM := (GM (SDB * OBJ)).

(** ** State objects *)

Definition emptyCodeHash : hash := Keccak256Hash [].

Definition addrHash (o : OBJ) : hash := Keccak256Hash (address_bytes (o_address o)).

(** [Account{}] *)
Definition Account0 : AccountLit VL :=
  mkAccountLit 0 None hash0 None None nil_VoteList None None.

Definition newObject (addr : address) (data : AccountLit VL) (onDirty : bool) : OBJ :=
  let data := mkAccount (l_Nonce data) (default 0 (l_Balance data)) (l_Root data)
                (default emptyCodeHash (l_CodeHash data)) (l_LockBalance data)
                (l_VoteList data) (default NewAssets (l_AssetList data))
                (l_AssetHash data) in
  mkObject addr data None None None EmptyString None ∅ ∅ false false false false false onDirty.

(** A decoded account has no nil pointer but is passed to [newObject] alike. *)
Definition lit_of (a : Account VL) : AccountLit VL :=
  mkAccountLit (a_Nonce a) (Some (a_Balance a)) (a_Root a) (Some (a_CodeHash a))
    (a_LockBalance a) (a_VoteList a) (Some (a_AssetList a)) (a_AssetHash a).

Definition empty (o : OBJ) : bool :=
  (a_Nonce (o_data o) =? 0) && (a_Balance (o_data o) =? 0)
  && bool_decide (a_CodeHash (o_data o) = emptyCodeHash)
  && IsEmpty (a_AssetList (o_data o)).

Definition self : OM OBJ := λ so, Ret (so.2, so).
Definition set_self (f : OBJ → OBJ) : OM unit := λ so, Ret (tt, (so.1, f so.2)).
Definition set_db (f : SDB → SDB) : OM unit := λ so, Ret (tt, (f so.1, so.2)).

Definition obj_setError (err : option gerror) : OM unit :=
  set_self (λ o, match o_dbErr o with None => o <| o_dbErr := err |> | Some _ => o end).

(** [append(self.db.journal, e)] *)
Definition journal_append (e : journalEntry ST VL) : OM unit :=
  set_db (λ s, s <| s_journal ::= λ j, j ++ [e] |>).

Definition MarkStateObjectDirty (addr : address) (s : SDB) : SDB :=
  s <| s_stateObjectsDirty ::= λ d, {[addr]} ∪ d |>.

Definition tryMarkDirty : OM unit :=
  o ← self;
  if o_onDirty o then
    set_db (MarkStateObjectDirty (o_address o));;
    set_self (λ o, o <| o_onDirty := false |>)
  else mret tt.

Definition markSuicided : OM unit :=
  set_self (λ o, o <| o_suicided := true |>);;
  tryMarkDirty.

Definition touch : OM unit :=
  o ← self;
  journal_append (touchChange (o_address o) (o_touched o) (negb (o_onDirty o)));;
  tryMarkDirty;;
  set_self (λ o, o <| o_touched := true |>).

(** The storage trie, opened on first access. *)
Definition getTrie : OM ST :=
  o ← self;
  match o_trie o with
  | Some t => mret t
  | None =>
    match db_OpenStorageTrie (addrHash o) (a_Root (o_data o)) with
    | inl t => set_self (λ o, o <| o_trie := Some t |>);; mret t
    | inr err =>
      match db_OpenStorageTrie (addrHash o) hash0 with
      | inl t =>
        set_self (λ o, o <| o_trie := Some t |>);;
        obj_setError (Some (String.append "can't create storage trie: " err));;
        mret t
      | inr _ => gpanic "nil storage trie"
      end
    end
  end.

Definition obj_GetState (key : hash) : OM hash :=
  o ← self;
  match o_cachedStorage o !! key with
  | Some value => mret value
  | None =>
    tr ← getTrie;
    let '(enc, err) := TryGet tr key in
    match err with
    | Some _ => obj_setError err;; mret hash0
    | None =>
      value ← (if decide (enc = []) then mret hash0
               else let '(content, err) := rlp_SplitValue enc in
                    (match err with Some _ => obj_setError err | None => mret tt end);;
                    mret (BytesToHash content));
      (if decide (value = hash0) then mret tt
       else set_self (λ o, o <| o_cachedStorage ::= <[key := value]> |>));;
      mret value
    end
  end.

Definition obj_setState (key value : hash) : OM unit :=
  set_self (λ o, o <| o_cachedStorage ::= <[key := value]> |>
                   <| o_dirtyStorage ::= <[key := value]> |>);;
  tryMarkDirty.

Definition obj_SetState (key value : hash) : OM unit :=
  prevalue ← obj_GetState key;
  o ← self;
  journal_append (storageChange (o_address o) key prevalue);;
  obj_setState key value.

(** One iteration of the loop of [updateTrie] over [dirtyStorage]. *)
Definition updateTrie_step (key value : hash) (tr : ST) : OM ST :=
  set_self (λ o, o <| o_dirtyStorage ::= delete key |>);;
  if decide (value = hash0) then
    let '(tr', err) := TryDelete tr key in obj_setError err;; mret tr'
  else
    let '(tr', err) := TryUpdate tr key (rlp_EncodeValue value) in
    obj_setError err;; mret tr'.

Fixpoint updateTrie_loop (entries : list (hash * hash)) (tr : ST) : OM ST :=
  match entries with
  | [] => mret tr
  | (key, value) :: rest =>
    tr' ← updateTrie_step key value tr;
    updateTrie_loop rest tr'
  end.

Definition updateTrie `{WENV : WriteEnv ST VL} : OM ST :=
  tr ← getTrie;
  o ← self;
  tr' ← updateTrie_loop (range_storage (o_dirtyStorage o)) tr;
  set_self (λ o, o <| o_trie := Some tr' |>);;
  mret tr'.

Definition updateRoot `{WENV : WriteEnv ST VL} : OM unit :=
  tr ← updateTrie;
  set_self (λ o, o <| o_data ::= λ d, d <| a_Root := trie_Hash tr |> |>).

(** ** Balances, nonce, votes, code *)

Definition obj_setBalance (amount : Z) : OM unit :=
  set_self (λ o, o <| o_data ::= λ d, d <| a_Balance := amount |> |>);;
  tryMarkDirty.

Definition obj_SetBalance (amount : Z) : OM unit :=
  o ← self;
  journal_append (balanceChange (o_address o) (a_Balance (o_data o)));;
  obj_setBalance amount.

Definition obj_AddBalance (amount : Z) : OM unit :=
  o ← self;
  if amount =? 0 then (if empty o then touch else mret tt)
  else obj_SetBalance (a_Balance (o_data o) + amount).

Definition obj_SubBalance (amount : Z) : OM unit :=
  o ← self;
  if amount =? 0 then mret tt
  else obj_SetBalance (a_Balance (o_data o) - amount).

Definition obj_setLockBalance (amount : Z) : OM unit :=
  set_self (λ o, o <| o_data ::= λ d, d <| a_LockBalance := Some amount |> |>);;
  tryMarkDirty.

(** [new(big.Int).Set(nil)] and [Add(nil, _)] dereference a nil pointer. *)
Definition obj_SetLockBalance (amount : Z) : OM unit :=
  o ← self;
  match a_LockBalance (o_data o) with
  | None => gpanic "nil LockBalance"
  | Some prev =>
    journal_append (lockBalanceChange (o_address o) prev);;
    obj_setLockBalance amount
  end.

Definition obj_AddLockBalance (amount : Z) : OM unit :=
  o ← self;
  if amount =? 0 then (if empty o then touch else mret tt)
  else match a_LockBalance (o_data o) with
  | None => gpanic "nil LockBalance"
  | Some b => obj_SetLockBalance (b + amount)
  end.

Definition obj_SubLockBalance (amount : Z) : OM unit :=
  o ← self;
  if amount =? 0 then mret tt
  else match a_LockBalance (o_data o) with
  | None => gpanic "nil LockBalance"
  | Some b => obj_SetLockBalance (b - amount)
  end.

Definition obj_setNonce (nonce : Z) : OM unit :=
  set_self (λ o, o <| o_data ::= λ d, d <| a_Nonce := nonce |> |>);;
  tryMarkDirty.

Definition obj_SetNonce (nonce : Z) : OM unit :=
  o ← self;
  journal_append (nonceChange (o_address o) (a_Nonce (o_data o)));;
  obj_setNonce nonce.

Definition obj_setVoteList (voteList : VL) : OM unit :=
  set_self (λ o, o <| o_data ::= λ d, d <| a_VoteList := voteList |> |>);;
  tryMarkDirty.

Definition obj_SetVoteList (voteList : VL) : OM unit :=
  o ← self;
  journal_append (voteListChange (o_address o) (a_VoteList (o_data o)));;
  obj_setVoteList voteList.

Definition obj_Code : OM (option bytes) :=
  o ← self;
  match o_code o with
  | Some c => mret (Some c)
  | None =>
    if decide (a_CodeHash (o_data o) = emptyCodeHash) then mret None
    else
      let '(code, err) := db_ContractCode (addrHash o) (a_CodeHash (o_data o)) in
      (match err with
       | Some e => obj_setError (Some (String.append "can't load code hash: " e))
       | None => mret tt
       end);;
      set_self (λ o, o <| o_code := code |>);;
      mret code
  end.

Definition obj_Abi : OM string :=
  o ← self;
  if decide (o_abi o = EmptyString) then
    if decide (a_CodeHash (o_data o) = emptyCodeHash) then mret EmptyString
    else
      let '(abi, err) := db_ContractAbi (addrHash o) (a_CodeHash (o_data o)) in
      (match err with
       | Some e => obj_setError (Some (String.append "can't load abi: " e))
       | None => mret tt
       end);;
      set_self (λ o, o <| o_abi := abi |>);;
      mret abi
  else mret (o_abi o).

Definition obj_setCode (codeHash : hash) (code : option bytes) : OM unit :=
  set_self (λ o, o <| o_code := code |>
                   <| o_data ::= λ d, d <| a_CodeHash := codeHash |> |>
                   <| o_dirtyCode := true |>);;
  tryMarkDirty.

Definition obj_SetCode (codeHash : hash) (code : option bytes) : OM unit :=
  prevcode ← obj_Code;
  o ← self;
  journal_append (codeChange (o_address o) prevcode (a_CodeHash (o_data o)));;
  obj_setCode codeHash code.

Definition obj_SetAbi (abi : string) : OM unit := set_self (λ o, o <| o_abi := abi |>).

(** ** Assets of an object *)

Definition set_assets (al : Assets) : OM unit :=
  set_self (λ o, o <| o_data ::= λ d, d <| a_AssetList := al |> |>).

Definition obj_SubAssetBalance (asset : address) (amount : Z) : OM bool :=
  o ← self;
  let '(isOk, al) := SubAsset (mkAsset asset amount) (a_AssetList (o_data o)) in
  set_assets al;;
  (if isOk then
     journal_append (assetBalanceChange (o_address o) (mkAsset asset amount) false);;
     tryMarkDirty
   else mret tt);;
  mret isOk.

Definition obj_AddAssetBalance (asset : address) (amount : Z) : OM unit :=
  o ← self;
  journal_append (assetBalanceChange (o_address o) (mkAsset asset amount) true);;
  set_assets (AddAsset (mkAsset asset amount) (a_AssetList (o_data o)));;
  tryMarkDirty.

Definition revertAssetBalance (asset : Asset) (preOpIsAdd : bool) : OM unit :=
  o ← self;
  (if preOpIsAdd then set_assets (SubAsset asset (a_AssetList (o_data o))).2
   else set_assets (AddAsset asset (a_AssetList (o_data o))));;
  tryMarkDirty.

Definition obj_SetAssetData (h : hash) (data : bytes) : OM (option gerror) :=
  o ← self;
  if (0 <? length (default [] (o_assetData o)))%nat then
    mret (Some "assetData already exist, can not be updated"%string)
  else
    set_self (λ o, o <| o_assetData ::= λ d,
                        match d, data with None, [] => None | _, _ => Some (default [] d ++ data) end |>
                     <| o_data ::= λ d, d <| a_AssetHash := Some h |> |>
                     <| o_dirtyAssetData := true |>);;
    tryMarkDirty;;
    mret None.

Definition IsAssetAccount (o : OBJ) : bool :=
  match a_AssetHash (o_data o) with
  | None => false
  | Some h => negb (bool_decide (h = emptyCodeHash))
  end.

Definition obj_AssetData : OM (option bytes * option gerror) :=
  o ← self;
  match o_assetData o with
  | Some d => mret (Some d, None)
  | None =>
    if negb (IsAssetAccount o) then mret (None, None)
    else
      let '(d, err) := db_AssetData (addrHash o) (default hash0 (a_AssetHash (o_data o))) in
      set_self (λ o, o <| o_assetData := d |>);;
      mret (d, err)
  end.

(** ** The database: objects *)

Definition setError (err : option gerror) : SM unit :=
  gmodify (λ s, match s_dbErr s with None => s <| s_dbErr := err |> | Some _ => s end).

Definition setStateObject (o : OBJ) : SM unit :=
  gmodify (λ s, s <| s_stateObjects ::= <[o_address o := o]> |>).

(** Run a method on an object the database holds. *)
Definition on_object {A} (o : OBJ) (m : OM A) : SM A := λ s,
  match m (s, o) with
  | Ret (a, (s', o')) => Ret (a, s' <| s_stateObjects ::= <[o_address o' := o']> |>)
  | Panic w => Panic w
  end.

Definition getStateObject (addr : address) : SM (option OBJ) :=
  s ← gget;
  match s_stateObjects s !! addr with
  | Some obj => if o_deleted obj then mret None else mret (Some obj)
  | None =>
    let '(enc, err) := TryGet (s_trie s) addr in
    if decide (enc = []) then setError err;; mret None
    else match rlp_DecodeAccount addr enc with
    | None => mret None
    | Some data =>
      let obj := newObject addr (lit_of data) true in
      setStateObject obj;; mret (Some obj)
    end
  end.

Definition db_journal_append (e : journalEntry ST VL) : SM unit :=
  gmodify (λ s, s <| s_journal ::= λ j, j ++ [e] |>).

Definition createObject (addr : address) : SM (OBJ * option OBJ) :=
  prev ← getStateObject addr;
  let newobj := newObject addr Account0 true in
  newobj ← (λ s, match obj_setNonce 0 (s, newobj) with
                 | Ret (_, (s', o')) => Ret (o', s')
                 | Panic w => Panic w
                 end);
  db_journal_append (match prev with
                     | None => createObjectChange addr
                     | Some prev => resetObjectChange prev
                     end);;
  setStateObject newobj;;
  mret (newobj, prev).

Definition GetOrNewStateObject (addr : address) : SM OBJ :=
  obj ← getStateObject addr;
  match obj with
  | Some o =>
    if o_deleted o then '(o', _) ← createObject addr; mret o' else mret o
  | None => '(o', _) ← createObject addr; mret o'
  end.

Definition CreateAccount (addr : address) : SM unit :=
  '(newobj, prev) ← createObject addr;
  match prev with
  | Some p => on_object newobj (obj_setBalance (a_Balance (o_data p)))
  | None => mret tt
  end.

(** ** Getters *)

(** The common shape of the getters: a default when there is no object. *)
Definition read_object {A} (d : A) (f : OBJ → A) (addr : address) : SM A :=
  obj ← getStateObject addr;
  mret (match obj with Some o => f o | None => d end).

Definition Exist (addr : address) : SM bool := read_object false (λ _, true) addr.
Definition Empty (addr : address) : SM bool := read_object true empty addr.
Definition GetBalance (addr : address) : SM Z :=
  read_object 0 (λ o, a_Balance (o_data o)) addr.
Definition GetLockBalance (addr : address) : SM (option Z) :=
  read_object (Some 0) (λ o, a_LockBalance (o_data o)) addr.
Definition GetAssetBalance (addr asset : address) : SM Z :=
  read_object 0 (λ o, BalanceOf (a_AssetList (o_data o)) asset) addr.
Definition sdb_GetAssets (addr : address) : SM (option (list Asset)) :=
  read_object None (λ o, GetAssets (a_AssetList (o_data o))) addr.
Definition GetVoteList (addr : address) : SM VL :=
  read_object nil_VoteList (λ o, a_VoteList (o_data o)) addr.
Definition GetNonce (addr : address) : SM Z :=
  read_object 0 (λ o, a_Nonce (o_data o)) addr.
Definition GetCodeHash (addr : address) : SM hash :=
  read_object hash0 (λ o, a_CodeHash (o_data o)) addr.
Definition HasSuicided (addr : address) : SM bool :=
  read_object false o_suicided addr.

Definition GetCode (addr : address) : SM (option bytes) :=
  obj ← getStateObject addr;
  match obj with Some o => on_object o obj_Code | None => mret None end.

Definition GetCodeSize (addr : address) : SM Z :=
  obj ← getStateObject addr;
  match obj with
  | None => mret 0
  | Some o =>
    match o_code o with
    | Some c => mret (Z.of_nat (length c))
    | None =>
      let '(size, err) := db_ContractCodeSize (addrHash o) (a_CodeHash (o_data o)) in
      (match err with Some _ => setError err | None => mret tt end);;
      mret size
    end
  end.

Definition GetAbi (addr : address) : SM string :=
  obj ← getStateObject addr;
  match obj with Some o => on_object o obj_Abi | None => mret EmptyString end.

Definition GetState (addr : address) (key : hash) : SM hash :=
  obj ← getStateObject addr;
  match obj with Some o => on_object o (obj_GetState key) | None => mret hash0 end.

Definition GetLogs (h : hash) : SM (list Log) := greads (λ s, default [] (s_logs s !! h)).
Definition GetRefund : SM Z := greads s_refund.
Definition Preimages : SM (gmap hash bytes) := greads s_preimages.

(** ** Setters *)

(** The common shape of the setters: act on the object, creating it if needed. *)
Definition write_object {A} (addr : address) (m : OM A) : SM A :=
  o ← GetOrNewStateObject addr;
  on_object o m.

Definition AddBalance (addr : address) (amount : Z) : SM unit :=
  write_object addr (obj_AddBalance amount).
Definition AddLockBalance (addr : address) (amount : Z) : SM unit :=
  write_object addr (obj_AddLockBalance amount).
Definition SubBalance (addr : address) (amount : Z) : SM unit :=
  write_object addr (obj_SubBalance amount).
Definition SubLockBalance (addr : address) (amount : Z) : SM unit :=
  write_object addr (obj_SubLockBalance amount).
Definition SetBalance (addr : address) (amount : Z) : SM unit :=
  write_object addr (obj_SetBalance amount).
Definition SetLockBalance (addr : address) (amount : Z) : SM unit :=
  write_object addr (obj_SetLockBalance amount).
Definition SubAssetBalance (addr asset : address) (amount : Z) : SM bool :=
  write_object addr (obj_SubAssetBalance asset amount).
Definition AddAssetBalance (addr asset : address) (amount : Z) : SM unit :=
  write_object addr (obj_AddAssetBalance asset amount).
Definition SetVoteList (addr : address) (voteList : VL) : SM unit :=
  write_object addr (obj_SetVoteList voteList).
Definition SetNonce (addr : address) (nonce : Z) : SM unit :=
  write_object addr (obj_SetNonce nonce).
Definition SetCode (addr : address) (code : option bytes) : SM unit :=
  write_object addr (obj_SetCode (Keccak256Hash (default [] code)) code).
Definition SetState (addr : address) (key value : hash) : SM unit :=
  write_object addr (obj_SetState key value).

Definition SetAbi (addr : address) (abi : string) : SM unit :=
  if decide (abi = EmptyString) then mret tt
  else
    o ← GetOrNewStateObject addr;
    if decide (a_CodeHash (o_data o) = emptyCodeHash) then mret tt
    else on_object o (obj_SetAbi abi).

Definition Suicide (addr : address) : SM bool :=
  obj ← getStateObject addr;
  match obj with
  | None => mret false
  | Some o =>
    db_journal_append (suicideChange addr (o_suicided o) (a_Balance (o_data o)));;
    on_object o (markSuicided;;
                 set_self (λ o, o <| o_data ::= λ d, d <| a_Balance := 0 |> |>));;
    mret true
  end.

Definition AddLog (log : Log) : SM unit :=
  s ← gget;
  db_journal_append (addLogChange (s_thash s));;
  let log := log <| log_TxHash := s_thash s |> <| log_BlockHash := s_bhash s |>
                 <| log_TxIndex := u64 (s_txIndex s) |> <| log_Index := s_logSize s |> in
  gmodify (λ s, s <| s_logs ::= <[s_thash s := default [] (s_logs s !! s_thash s) ++ [log]]> |>
                  <| s_logSize ::= λ n, u64 (n + 1) |>).

Definition AddPreimage (h : hash) (preimage : bytes) : SM unit :=
  s ← gget;
  match s_preimages s !! h with
  | Some _ => mret tt
  | None =>
    db_journal_append (addPreimageChange h);;
    gmodify (λ s, s <| s_preimages ::= <[h := preimage]> |>)
  end.

Definition AddRefund (gas : Z) : SM unit :=
  s ← gget;
  db_journal_append (refundChange (s_refund s));;
  gmodify (λ s, s <| s_refund ::= λ r, u64 (r + gas) |>).

Definition Prepare (thash bhash : hash) (ti : Z) : SM unit :=
  gmodify (λ s, s <| s_thash := thash |> <| s_bhash := bhash |> <| s_txIndex := ti |>).

(** ** Asset accounts *)

Definition ValidateAsset (assetInfo : AssetInfo) : option gerror :=
  IsAssetInfoValid (Some assetInfo).

(** [PublishAsset] keeps a pointer to the issuer's object across
    [createObject(id)]; the issuer is looked up again here, which is the same
    object because a created address differs from its creator's. *)
Definition PublishAsset (addr : address) (assetInfo : AssetInfo) : SM (option gerror) :=
  o ← GetOrNewStateObject addr;
  let assetInfo := assetInfo <| Issuer := Some addr |> in
  match ValidateAsset assetInfo with
  | Some err => mret (Some err)
  | None =>
    let nonce := a_Nonce (o_data o) in
    on_object o (obj_SetNonce (u64 (nonce + 1)));;
    let id := CreateAddress addr nonce in
    '(assetAccount, _) ← createObject id;
    match rlp_EncodeAssetInfo assetInfo with
    | inr err => mret (Some err)
    | inl data =>
      _ ← on_object assetAccount (obj_SetAssetData (Keccak256Hash data) data);
      s ← gget;
      match s_stateObjects s !! addr with
      | None => gpanic "issuer object"
      | Some o =>
        on_object o (obj_AddAssetBalance id (default 0 (Supply assetInfo)));;
        mret None
      end
    end
  end.

Definition GetAssetInfo (addr : address) : SM (option AssetInfo * option gerror) :=
  o ← GetOrNewStateObject addr;
  if IsAssetAccount o then
    '(data, err) ← on_object o obj_AssetData;
    match err with
    | None =>
      let '(ai, err) := rlp_DecodeAssetInfo (default [] data) in
      mret (Some ai, err)
    | Some e => mret (None, Some e)
    end
  else mret (None, Some "not an asset account"%string).

(** ** Journal: undo, snapshots *)

Definition ripemd : address := to_word 160 3.

(** Call a method on the object of an account; nil panics. *)
Definition undo_object (account : address) (m : OM unit) : SM unit :=
  obj ← getStateObject account;
  match obj with
  | Some o => on_object o m
  | None => gpanic "nil state object"
  end.

Definition undo (e : journalEntry ST VL) : SM unit :=
  match e with
  | createObjectChange account =>
    gmodify (λ s, s <| s_stateObjects ::= delete account |>
                    <| s_stateObjectsDirty ::= λ d, d ∖ {[account]} |>)
  | resetObjectChange prev => setStateObject prev
  | suicideChange account prev prevbalance =>
    obj ← getStateObject account;
    match obj with
    | Some o => on_object o (set_self (λ o, o <| o_suicided := prev |>);;
                             obj_setBalance prevbalance)
    | None => mret tt
    end
  | touchChange account prev prevDirty =>
    if negb prev && negb (bool_decide (account = ripemd)) then
      undo_object account (set_self (λ o, o <| o_touched := prev |>));;
      if negb prevDirty then
        gmodify (λ s, s <| s_stateObjectsDirty ::= λ d, d ∖ {[account]} |>)
      else mret tt
    else mret tt
  | balanceChange account prev => undo_object account (obj_setBalance prev)
  | lockBalanceChange account prev => undo_object account (obj_setLockBalance prev)
  | voteListChange account prev => undo_object account (obj_setVoteList prev)
  | nonceChange account prev => undo_object account (obj_setNonce prev)
  | codeChange account prevcode prevhash =>
    undo_object account (obj_setCode prevhash prevcode)
  | storageChange account key prevalue =>
    undo_object account (obj_setState key prevalue)
  | refundChange prev => gmodify (λ s, s <| s_refund := prev |>)
  | addLogChange txhash =>
    s ← gget;
    let logs := default [] (s_logs s !! txhash) in
    if (length logs =? 0)%nat then gpanic "slice bounds out of range"
    else
      gmodify (λ s,
        s <| s_logs ::= (if (length logs =? 1)%nat then delete txhash
                         else <[txhash := take (length logs - 1) logs]>) |>
          <| s_logSize ::= λ n, u64 (n - 1) |>)
  | addPreimageChange h => gmodify (λ s, s <| s_preimages ::= delete h |>)
  | assetBalanceChange account asset preOpIsAdd =>
    undo_object account (revertAssetBalance asset preOpIsAdd)
  end.

Definition is_asset_entry (e : journalEntry ST VL) : bool :=
  match e with assetBalanceChange _ _ _ => true | _ => false end.

(** The loop of [RevertToSnapshot], on the entries from the last one down. *)
Fixpoint undo_all (isEpiphron : bool) (es : list (journalEntry ST VL)) : SM unit :=
  match es with
  | [] => mret tt
  | e :: es =>
    (if negb isEpiphron && is_asset_entry e then mret tt else undo e);;
    undo_all isEpiphron es
  end.

Definition Snapshot : SM Z :=
  s ← gget;
  let id := s_nextRevisionId s in
  gmodify (λ s, s <| s_nextRevisionId ::= λ n, n + 1 |>
                  <| s_validRevisions ::= λ l, l ++ [mkRevision id (length (s_journal s))] |>);;
  mret id.

Definition RevertToSnapshot (revid : Z) (isEpiphron : bool) : SM unit :=
  s ← gget;
  let revs := s_validRevisions s in
  let idx := search (length revs) (λ i, revid <=? rev_id (revs !!! i)) in
  if (idx =? length revs)%nat || negb (rev_id (revs !!! idx) =? revid) then
    gpanic "revision id cannot be reverted"
  else
    let snapshot := rev_journalIndex (revs !!! idx) in
    undo_all isEpiphron (reverse (drop snapshot (s_journal s)));;
    gmodify (λ s, s <| s_journal ::= take snapshot |>
                    <| s_validRevisions ::= take idx |>).

(** ** Writing back to the trie *)

Definition updateStateObject `{WENV : WriteEnv ST VL} (o : OBJ) : SM unit :=
  match rlp_EncodeAccount (o_data o) with
  | None => gpanic "can't encode object"
  | Some data =>
    s ← gget;
    let '(tr, err) := TryUpdate (s_trie s) (o_address o) data in
    gmodify (λ s, s <| s_trie := tr |>);;
    setError err
  end.

Definition deleteStateObject (o : OBJ) : SM unit :=
  setStateObject (o <| o_deleted := true |>);;
  s ← gget;
  let '(tr, err) := TryDelete (s_trie s) (o_address o) in
  gmodify (λ s, s <| s_trie := tr |>);;
  setError err.

Definition clearJournalAndRefund : SM unit :=
  gmodify (λ s, s <| s_journal := [] |> <| s_validRevisions := [] |> <| s_refund := 0 |>).

(** The object of an address after a method ran on it. *)
Definition current (addr : address) : SM OBJ :=
  s ← gget;
  match s_stateObjects s !! addr with
  | Some o => mret o
  | None => gpanic "nil state object"
  end.

Definition finalise_object `{WENV : WriteEnv ST VL} (deleteEmptyObjects : bool) (addr : address) : SM unit :=
  o ← current addr;
  if o_suicided o || (deleteEmptyObjects && empty o) then deleteStateObject o
  else
    on_object o updateRoot;;
    o' ← current addr;
    updateStateObject o'.

Fixpoint finalise_loop `{WENV : WriteEnv ST VL} (deleteEmptyObjects : bool) (addrs : list address) : SM unit :=
  match addrs with
  | [] => mret tt
  | addr :: addrs =>
    finalise_object deleteEmptyObjects addr;;
    finalise_loop deleteEmptyObjects addrs
  end.

Definition Finalise `{WENV : WriteEnv ST VL} (deleteEmptyObjects : bool) : SM unit :=
  s ← gget;
  finalise_loop deleteEmptyObjects (range_dirty (s_stateObjectsDirty s));;
  clearJournalAndRefund.

Definition IntermediateRoot `{WENV : WriteEnv ST VL} (deleteEmptyObjects : bool) : SM hash :=
  Finalise deleteEmptyObjects;;
  greads (λ s, trie_Hash (s_trie s)).

(** [New] and [Reset] *)

Definition New (root : hash) : SDB + gerror :=
  match db_OpenTrie root with
  | inr err => inr err
  | inl tr => inl (mkStateDB tr ∅ ∅ None 0 hash0 hash0 0 ∅ 0 ∅ [] [] 0)
  end.

Definition Reset (root : hash) : SM (option gerror) :=
  match db_OpenTrie root with
  | inr err => mret (Some err)
  | inl tr =>
    gmodify (λ s, s <| s_trie := tr |> <| s_stateObjects := ∅ |>
                    <| s_stateObjectsDirty := ∅ |> <| s_thash := hash0 |>
                    <| s_bhash := hash0 |> <| s_txIndex := 0 |> <| s_logs := ∅ |>
                    <| s_logSize := 0 |> <| s_preimages := ∅ |>);;
    clearJournalAndRefund;;
    mret None
  end.
End Operations.
