(* ===== verification/StateRevert.v ===== *)
(** * Snapshots and reverts ([core/state/journal.go], [RevertToSnapshot])

    Reverting to a snapshot undoes everything that was done since, as far as the
    getters of the database can tell.  Two states are compared by what they
    answer for every account; caches, dirty marks and lazily loaded objects may
    differ. *)

From S2P Require Import Prelude Assets Interfaces AssetInfo StateTypes StateDB.

Section Revert.
Context {AT ST VL : Type} `{ENV : StateEnv AT ST VL}.

#[local] Abbreviation SDB := (StateDB AT ST VL).
#[local] Abbreviation OBJ := (stateObject ST VL).
#[local] Abbreviation SM := (GM SDB).
#[local] Abbreviation OM := (GM (SDB * OBJ)).
#[local] Abbreviation ENTRY := (journalEntry ST VL).

(** ** What the getters answer *)

(** The object an address loads to when the map does not hold it. *)
Definition load (t : AT) (addr : address) : option OBJ :=
  let enc := (TryGet t addr).1 in
  if decide (enc = []) then None
  else (λ d, newObject addr (lit_of d) true) <$> rlp_DecodeAccount addr enc.

(** The object [getStateObject] returns. *)
Definition live (s : SDB) (addr : address) : option OBJ :=
  match s_stateObjects s !! addr with
  | Some o => if o_deleted o then None else Some o
  | None => load (s_trie s) addr
  end.

(** The storage trie, the code and the asset data an object answers with, by the
    fields they depend on. *)
Definition trie_of (addr : address) (root : hash) (tr : option ST) : option ST :=
  let addrHash := Keccak256Hash (address_bytes addr) in
  match tr with
  | Some t => Some t
  | None =>
    match db_OpenStorageTrie addrHash root with
    | inl t => Some t
    | inr _ => match db_OpenStorageTrie addrHash hash0 with
               | inl t => Some t
               | inr _ => None
               end
    end
  end.

Definition trie_value (t : ST) (key : hash) : hash :=
  let '(enc, err) := TryGet t key in
  match err with
  | Some _ => hash0
  | None => if decide (enc = []) then hash0 else BytesToHash (rlp_SplitValue enc).1
  end.

Definition storage_of (cache : Storage) (tr : option ST) (key : hash) : option hash :=
  match cache !! key with
  | Some v => Some v
  | None => (λ t, trie_value t key) <$> tr
  end.

Definition storage_view (o : OBJ) (key : hash) : option hash :=
  storage_of (o_cachedStorage o) (trie_of (o_address o) (a_Root (o_data o)) (o_trie o)) key.

Definition code_of (addr : address) (codeHash : hash) (code : option bytes) : option bytes :=
  match code with
  | Some c => Some c
  | None => if decide (codeHash = emptyCodeHash) then None
            else (db_ContractCode (Keccak256Hash (address_bytes addr)) codeHash).1
  end.

Definition code_view (o : OBJ) : option bytes :=
  code_of (o_address o) (a_CodeHash (o_data o)) (o_code o).

Definition assetData_of (addr : address) (assetHash : option hash) (data : option bytes)
  : option bytes :=
  match data, assetHash with
  | Some d, _ => Some d
  | None, None => None
  | None, Some h => if decide (h = emptyCodeHash) then None
                    else (db_AssetData (Keccak256Hash (address_bytes addr)) h).1
  end.

Definition assetData_view (o : OBJ) : option bytes :=
  assetData_of (o_address o) (a_AssetHash (o_data o)) (o_assetData o).

(** The scalar answers of an account. *)
Definition core_of (o : OBJ) :=
  (o_address o, a_Nonce (o_data o), a_Balance (o_data o), a_Root (o_data o),
   a_CodeHash (o_data o), a_LockBalance (o_data o), a_VoteList (o_data o),
   a_AssetHash (o_data o), code_view o, assetData_view o, o_suicided o).

(** Two objects with the same answers. *)
Record obj_equiv (o o' : OBJ) : Prop := mkObjEquiv {
  oe_core : core_of o = core_of o';
  oe_assets id : BalanceOf (a_AssetList (o_data o)) id = BalanceOf (a_AssetList (o_data o')) id;
  oe_storage k : storage_view o k = storage_view o' k
}.

#[export] Instance obj_equiv_equivalence : Equivalence obj_equiv.
Proof.
  split.
  - by intros o.
  - intros o o' []. constructor; done.
  - intros o1 o2 o3 [] []. constructor; etrans; eauto.
Qed.

(** The fields of the database other than objects, journal and error. *)
Definition env_of (s : SDB) :=
  (s_trie s, s_refund s, s_thash s, s_bhash s, s_txIndex s, s_logSize s, s_preimages s).

Definition book_of (s : SDB) :=
  (s_journal s, s_validRevisions s, s_nextRevisionId s).

(** Two databases with the same answers. *)
Record sdb_equiv (s s' : SDB) : Prop := mkSdbEquiv {
  se_env : env_of s = env_of s';
  se_logs h : default [] (s_logs s !! h) = default [] (s_logs s' !! h);
  se_live a : option_Forall2 obj_equiv (live s a) (live s' a)
}.
#[local] Infix "≈" := sdb_equiv (at level 70).

#[export] Instance sdb_equiv_equivalence : Equivalence sdb_equiv.
Proof.
  split.
  - intros s. by constructor.
  - intros s s' []. constructor; [done|done|]. intros a. by symmetry.
  - intros s1 s2 s3 [] []. constructor; intros; etrans; eauto.
Qed.

(** ** Well-formed databases *)

(** Storage tries come from the database and change by writing values. *)
Inductive made : ST → Prop :=
| made_opened ah root t : db_OpenStorageTrie ah root = inl t → made t
| made_updated t key v : made t → v ≠ hash0 → made (TryUpdate t key (rlp_EncodeValue v)).1
| made_deleted t key : made t → made (TryDelete t key).1.

(** Assets are in order and not negative, and what is still to be written to the
    storage trie is what the cache answers. *)
Definition object_ok (o : OBJ) : Prop :=
  ordered (a_AssetList (o_data o)) ∧ nonneg_entries (a_AssetList (o_data o)) ∧
  o_dirtyStorage o ⊆ o_cachedStorage o ∧ from_option made True (o_trie o).

Record wf (s : SDB) : Prop := mkWf {
  wf_address a o : s_stateObjects s !! a = Some o → o_address o = a;
  wf_deleted a o : s_stateObjects s !! a = Some o → o_deleted o = true →
                   load (s_trie s) a = None;
  wf_gone a o : s_stateObjects s !! a = Some o → o_deleted o = true → o_suicided o = true ∨ empty o = true;
  wf_assets a o : s_stateObjects s !! a = Some o → object_ok o;
  wf_load a o : load (s_trie s) a = Some o → object_ok o;
  wf_logSize : is_u64 (s_logSize s);
  wf_dirty : s_stateObjectsDirty s ⊆ dom (s_stateObjects s)
}.

Definition entry_ok (e : ENTRY) : Prop :=
  match e with
  | resetObjectChange prev => o_deleted prev = false ∧ object_ok prev
  | assetBalanceChange _ a _ => 0 ≤ Balance a
  | _ => True
  end.

(** ** Replacing one object *)

(** [s'] is [s] with object [o] at address [a], which may now be dirty; errors
    aside. *)
Definition put (s : SDB) (a : address) (o : OBJ) (s' : SDB) : Prop :=
  env_of s' = env_of s ∧ s_logs s' = s_logs s ∧ book_of s' = book_of s ∧
  s_stateObjectsDirty s' ⊆ {[a]} ∪ s_stateObjectsDirty s ∧
  ∃ b, s_stateObjects s' = <[a := o <| o_onDirty := b |>]> (s_stateObjects s).

Lemma load_address t a o : load t a = Some o → o_address o = a.
Proof.
  unfold load. case_decide; [done|]. intros (d & _ & ->)%fmap_Some. done.
Qed.

Lemma load_deleted t a o : load t a = Some o → o_deleted o = false.
Proof.
  unfold load. case_decide; [done|]. intros (d & _ & ->)%fmap_Some. done.
Qed.

Lemma live_deleted s a o : live s a = Some o → o_deleted o = false.
Proof.
  unfold live. destruct (s_stateObjects s !! a) as [o'|].
  - destruct (o_deleted o') eqn:E; [done|]. by intros [= <-].
  - apply load_deleted.
Qed.

Lemma live_assets s a o : wf s → live s a = Some o → object_ok o.
Proof.
  intros W. unfold live. destruct (s_stateObjects s !! a) as [o'|] eqn:E.
  - destruct (o_deleted o'); [done|]. intros [= <-]. by eapply wf_assets.
  - by apply wf_load.
Qed.

Lemma live_address s a o : wf s → live s a = Some o → o_address o = a.
Proof.
  intros W. unfold live. destruct (s_stateObjects s !! a) as [o'|] eqn:E.
  - destruct (o_deleted o'); [done|]. intros [= <-]. by eapply wf_address.
  - apply load_address.
Qed.

Lemma env_of_trie s s' : env_of s' = env_of s → s_trie s' = s_trie s.
Proof. by intros [= ]. Qed.

Lemma live_put s a o s' x :
  put s a o s' → o_deleted o = false →
  (x = a → ∃ b, live s' x = Some (o <| o_onDirty := b |>)) ∧ (x ≠ a → live s' x = live s x).
Proof.
  intros (He & _ & _ & _ & b & Ho) Hd. unfold live. rewrite Ho, (env_of_trie _ _ He). split.
  - intros ->. rewrite lookup_insert_eq. simpl. rewrite Hd. eauto.
  - intros Hne. by rewrite lookup_insert_ne.
Qed.

Lemma wf_put s a o s' :
  wf s → put s a o s' → o_address o = a → o_deleted o = false → object_ok o → wf s'.
Proof.
  intros W (He & _ & _ & Hm & b & Ho) Ha Hd Hok. pose proof (env_of_trie _ _ He) as Ht.
  constructor; rewrite ?Ho, ?Ht.
  - intros x y [[<- <-]|[_ Hy]]%lookup_insert_Some; [done|]. by eapply wf_address.
  - intros x y [[<- <-]|[_ Hy]]%lookup_insert_Some; simpl; [by rewrite Hd|]. by eapply wf_deleted.
  - intros x y [[<- <-]|[_ Hy]]%lookup_insert_Some; simpl; [by rewrite Hd|]. by eapply wf_gone.
  - intros x y [[<- <-]|[_ Hy]]%lookup_insert_Some; [done|]. by eapply wf_assets.
  - apply (wf_load s W).
  - unfold env_of in He. injection He as E1 E2 E3 E4 E5 E6 E7. rewrite E6. apply W.
  - rewrite dom_insert. pose proof (wf_dirty _ W). set_solver.
Qed.

(** A lookup answers [live] and at most loads the object. *)
Definition fetched (s : SDB) (a : address) (s' : SDB) : Prop :=
  match live s a with
  | Some o => put s a o s' ∧ s_stateObjects s' !! a = Some o
  | None => env_of s' = env_of s ∧ s_logs s' = s_logs s ∧ book_of s' = book_of s ∧
            s_stateObjectsDirty s' = s_stateObjectsDirty s ∧ s_stateObjects s' = s_stateObjects s
  end.

Lemma put_self s a o : s_stateObjects s !! a = Some o → put s a o s.
Proof.
  intros H. unfold put. split_and!; [done..|set_solver|]. exists (o_onDirty o).
  rewrite insert_id; [done|]. rewrite H. by destruct o.
Qed.

Lemma getStateObject_run s a :
  ∃ s', getStateObject a s = Ret (live s a, s') ∧ fetched s a s'.
Proof.
  unfold getStateObject, fetched, live, load. geval.
  destruct (s_stateObjects s !! a) as [o|] eqn:Ho.
  - destruct (o_deleted o) eqn:Hd; eexists; (split; [reflexivity|]); [done|].
    split; [by apply put_self|done].
  - destruct (TryGet (s_trie s) a) as [enc err]. simpl. case_decide.
    + geval. eexists. split; [reflexivity|]. by destruct (s_dbErr s).
    + destruct (rlp_DecodeAccount a enc) as [d|]; simpl; geval;
        eexists; (split; [reflexivity|]); [|done].
      simpl. rewrite lookup_insert_eq. split; [|done]. unfold put. split_and!; [done..|set_solver|]. by exists true.
Qed.

(** ** One object becomes another *)

(** [s'] is [s] except that account [a] now answers like [o]. *)
Record becomes (s : SDB) (a : address) (o : OBJ) (s' : SDB) : Prop := mkBecomes {
  be_env : env_of s' = env_of s;
  be_logs : s_logs s' = s_logs s;
  be_book : book_of s' = book_of s;
  be_wf : wf s → wf s';
  be_here : ∃ o', live s' a = Some o' ∧ obj_equiv o o';
  be_else x : x ≠ a → live s' x = live s x
}.

Lemma obj_equiv_onDirty o b : obj_equiv o (o <| o_onDirty := b |>).
Proof. done. Qed.

Lemma put_becomes s a o s' :
  put s a o s' → o_address o = a → o_deleted o = false → (wf s → object_ok o) →
  becomes s a o s'.
Proof.
  intros P Ha Hd Hok. pose proof P as (He & Hl & Hb & _).
  constructor; [done..| | |].
  - intros W. eapply wf_put; eauto.
  - destruct (proj1 (live_put s a o s' a P Hd) eq_refl) as [b Hb']. eauto using obj_equiv_onDirty.
  - intros x. apply (live_put s a o s' x P Hd).
Qed.

Lemma put_put s a o1 s1 o2 s2 : put s a o1 s1 → put s1 a o2 s2 → put s a o2 s2.
Proof.
  intros (E1 & L1 & B1 & D1 & b1 & O1) (E2 & L2 & B2 & D2 & b2 & O2). unfold put.
  split_and!; try congruence; [set_solver|]. exists b2. by rewrite O2, O1, insert_insert_eq.
Qed.

(** [s'] answers like [s] and has the same journal. *)
Record unchanged (s s' : SDB) : Prop := mkUnchanged {
  un_equiv : s' ≈ s;
  un_book : book_of s' = book_of s;
  un_wf : wf s → wf s'
}.

#[export] Instance unchanged_preorder : PreOrder unchanged.
Proof.
  split.
  - intros s. by constructor.
  - intros s1 s2 s3 [E1 B1 W1] [E2 B2 W2]. constructor; [by trans s2|congruence|auto].
Qed.

Lemma becomes_unchanged s a o o' s' :
  becomes s a o' s' → live s a = Some o → obj_equiv o' o → unchanged s s'.
Proof.
  intros [He Hl Hb Hw (o2 & H2 & Heq) Hx] Hlive Hoo. constructor; [|done|done].
  constructor; [done|by intros; rewrite Hl|]. intros x. destruct (decide (x = a)) as [->|Hne].
  - rewrite H2, Hlive. constructor. etrans; [symmetry|]; eauto.
  - by rewrite Hx.
Qed.

Lemma same_unchanged s s' :
  env_of s' = env_of s → s_logs s' = s_logs s → book_of s' = book_of s →
  s_stateObjectsDirty s' = s_stateObjectsDirty s → s_stateObjects s' = s_stateObjects s → unchanged s s'.
Proof.
  intros He Hl Hb Hm Ho. pose proof (env_of_trie _ _ He) as Ht. constructor; [|done|].
  - constructor; [done|by intros; rewrite Hl|]. intros x. unfold live. by rewrite Ho, Ht.
  - intros []. constructor; rewrite ?Ho, ?Ht, ?Hm; try done.
    unfold env_of in He. injection He as E1 E2 E3 E4 E5 E6 E7. by rewrite E6.
Qed.

Lemma fetched_unchanged s a s' : wf s → fetched s a s' → unchanged s s'.
Proof.
  intros W. unfold fetched. destruct (live s a) as [o|] eqn:Hl.
  - intros [P _]. eapply becomes_unchanged; [|done|done].
    eapply put_becomes; eauto using live_address, live_deleted, live_assets.
  - intros (? & ? & ? & ? & ?). by apply same_unchanged.
Qed.

(** ** Object methods that only change the object *)

Definition obj_step (m : OM unit) (f : OBJ → OBJ) : Prop := ∀ s o, ∃ d b,
  d ⊆ {[o_address (f o)]} ∪ s_stateObjectsDirty s ∧
  m (s, o) = Ret (tt, (s <| s_stateObjectsDirty := d |>, (f o) <| o_onDirty := b |>)).

Lemma set_self_mark f : obj_step (set_self f;; tryMarkDirty) f.
Proof.
  intros s o. unfold tryMarkDirty. geval. destruct (o_onDirty (f o)) eqn:E; geval.
  - eexists _, _. by split; [|done].
  - exists (s_stateObjectsDirty s), false. split; [set_solver|]. rewrite <- E. by destruct s, (f o).
Qed.

Lemma on_object_step s a o m f :
  obj_step m f → o_address (f o) = a →
  ∃ s', on_object o m s = Ret (tt, s') ∧ put s a (f o) s'.
Proof.
  intros Hm Ha. destruct (Hm s o) as (d & b & Hd & E). unfold on_object. rewrite E.
  eexists. split; [reflexivity|]. unfold put; simpl. rewrite Ha in *.
  split_and!; [done..|]. by exists b.
Qed.

Lemma undo_object_run s a o m f :
  obj_step m f → live s a = Some o → o_address (f o) = a →
  ∃ s', undo_object a m s = Ret (tt, s') ∧ put s a (f o) s'.
Proof.
  intros Hm Hl Ha. unfold undo_object.
  destruct (getStateObject_run s a) as (s1 & E1 & F). rewrite (GM_bind_run _ _ _ _ _ E1).
  unfold fetched in F. rewrite Hl in F |- *. destruct F as [P _].
  destruct (on_object_step s1 a o m f Hm Ha) as (s2 & E2 & P2).
  exists s2. eauto using put_put.
Qed.

Lemma undo_object_nil s a m : live s a = None → ∃ w, undo_object a m s = Panic w.
Proof.
  intros Hl. unfold undo_object.
  destruct (getStateObject_run s a) as (s1 & E1 & _). rewrite (GM_bind_run _ _ _ _ _ E1), Hl.
  by eexists.
Qed.

Lemma set_self_step f : obj_step (set_self f) f.
Proof.
  intros s o. exists (s_stateObjectsDirty s), (o_onDirty (f o)). split; [set_solver|].
  unfold set_self; simpl. by destruct s, (f o).
Qed.

(** ** What the entries do to an object *)

Definition on_data (g : Account VL → Account VL) (o : OBJ) : OBJ := o <| o_data ::= g |>.

Definition reverts_touch (account : address) (prev : bool) : bool :=
  negb prev && negb (bool_decide (account = ripemd)).

Definition entry_action (e : ENTRY) : option (address * (OBJ → OBJ)) :=
  match e with
  | suicideChange a prev prevbalance =>
    Some (a, λ o, on_data (λ d, d <| a_Balance := prevbalance |>) (o <| o_suicided := prev |>))
  | balanceChange a prev => Some (a, on_data (λ d, d <| a_Balance := prev |>))
  | lockBalanceChange a prev => Some (a, on_data (λ d, d <| a_LockBalance := Some prev |>))
  | voteListChange a prev => Some (a, on_data (λ d, d <| a_VoteList := prev |>))
  | nonceChange a prev => Some (a, on_data (λ d, d <| a_Nonce := prev |>))
  | storageChange a key prev =>
    Some (a, λ o, o <| o_cachedStorage ::= <[key := prev]> |>
                    <| o_dirtyStorage ::= <[key := prev]> |>)
  | codeChange a prevcode prevhash =>
    Some (a, λ o, o <| o_code := prevcode |>
                    <| o_data ::= λ d, d <| a_CodeHash := prevhash |> |>
                    <| o_dirtyCode := true |>)
  | touchChange a prev _ =>
    Some (a, λ o, if reverts_touch a prev then o <| o_touched := prev |> else o)
  | assetBalanceChange a x preOpIsAdd =>
    Some (a, on_data (λ d, d <| a_AssetList ::= if preOpIsAdd then λ al, (SubAsset x al).2
                                                 else AddAsset x |>))
  | _ => None
  end.

(** Entries whose undo tolerates a missing account. *)
Definition tolerant (e : ENTRY) : bool :=
  match e with
  | suicideChange _ _ _ => true
  | touchChange a prev _ => negb (reverts_touch a prev)
  | _ => false
  end.

Lemma action_address e a f o : entry_action e = Some (a, f) → o_address (f o) = o_address o.
Proof. destruct e; intros [= <- <-]; simpl; try done. by case_match. Qed.

Lemma action_deleted e a f o : entry_action e = Some (a, f) → o_deleted (f o) = o_deleted o.
Proof. destruct e; intros [= <- <-]; simpl; try done. by case_match. Qed.

Lemma action_assets e a f o :
  entry_action e = Some (a, f) → entry_ok e → object_ok o → object_ok (f o).
Proof.
  intros He Hok Ho.
  destruct e; cbn [entry_action] in He; try discriminate He; injection He as <- <-; simpl in *; try done.
  { destruct Ho as (H1 & H2 & H3 & H4). split_and!; [done|done|by apply insert_mono|done]. }
  { by case_match. }
  destruct Ho as (H1 & H2 & H3 & H4), asset. destruct preOpIsAdd.
  - split_and!; [by apply SubAsset_ordered|by apply SubAsset_nonneg|done|done].
  - split_and!; [by apply AddAsset_ordered|by apply AddAsset_nonneg|done|done].
Qed.

Lemma storage_view_insert o key v g k :
  storage_view (o <| o_cachedStorage ::= <[key := v]> |> <| o_dirtyStorage ::= g |>) k =
  if decide (key = k) then Some v else storage_view o k.
Proof.
  unfold storage_view, storage_of at 1; simpl. rewrite lookup_insert. by case_decide.
Qed.

(** The undo of an entry gives like results on objects alike. *)
Lemma action_equiv e a f o o' :
  entry_action e = Some (a, f) → entry_ok e → object_ok o → object_ok o' →
  obj_equiv o o' → obj_equiv (f o) (f o').
Proof.
  intros He Hok [Ho _] [Ho' _] [Hc Ha Hs].
  destruct o as [addr [] ? ? ? ? ? ? ? ? ? ? ? ? ?], o' as [addr' [] ? ? ? ? ? ? ? ? ? ? ? ? ?].
  unfold core_of in Hc. injection Hc as E1 E2 E3 E4 E5 E6 E7 E8 E9 E10 E11. simpl in *. subst.
  unfold code_view, assetData_view in E9, E10; simpl in E9, E10.
  destruct e; cbn [entry_action] in He; try discriminate He; injection He as <- <-;
    try destruct (reverts_touch _ _);
    (constructor; [unfold core_of, code_view, assetData_view; simpl; congruence| |]);
    try exact Ha; try exact Hs.
  - intros k. specialize (Hs k). unfold storage_view, storage_of in *; simpl in *.
    rewrite !lookup_insert. by case_decide.
  - intros id. destruct asset as [x v]. simpl in Hok. destruct preOpIsAdd; simpl.
    + by rewrite !BalanceOf_SubAsset, !Ha.
    + rewrite !BalanceOf_AddAsset by done. by rewrite Ha.
Qed.

Lemma set_self_then g m f : obj_step m f → obj_step (set_self g;; m) (λ o, f (g o)).
Proof. intros Hm s o. erewrite GM_bind_run by reflexivity. apply Hm. Qed.

Lemma revertAssetBalance_step x preOpIsAdd :
  obj_step (revertAssetBalance x preOpIsAdd)
    (on_data (λ d, d <| a_AssetList ::= if preOpIsAdd then λ al, (SubAsset x al).2
                                        else AddAsset x |>)).
Proof.
  intros s o. unfold revertAssetBalance. erewrite GM_bind_run by reflexivity. simpl.
  destruct preOpIsAdd.
  - exact (set_self_mark (λ o', o' <| o_data ::= λ d, d <| a_AssetList :=
                                        (SubAsset x (a_AssetList (o_data o))).2 |> |>) s o).
  - exact (set_self_mark (λ o', o' <| o_data ::= λ d, d <| a_AssetList :=
                                        AddAsset x (a_AssetList (o_data o)) |> |>) s o).
Qed.

(** The undo of a suicide on an account that exists. *)
Lemma undo_suicide_run s a o prev prevbalance :
  live s a = Some o →
  undo (suicideChange a prev prevbalance) s =
  undo_object a (set_self (λ o, o <| o_suicided := prev |>);; obj_setBalance prevbalance) s.
Proof.
  intros Hl. unfold undo, undo_object.
  destruct (getStateObject_run s a) as (s1 & E1 & _).
  by rewrite !(GM_bind_run _ _ _ _ _ E1), Hl.
Qed.

Lemma becomes_self s a o : live s a = Some o → becomes s a o s.
Proof. intros H. constructor; try done. by exists o. Qed.

(** Dirty marks are not part of the answers. *)
Lemma becomes_dirty s a o s' (g : gset address → gset address) :
  (∀ d, g d ⊆ d) → becomes s a o s' → becomes s a o (s' <| s_stateObjectsDirty ::= g |>).
Proof.
  intros Hg [He Hl Hb Hw Hh Hx]. constructor; try done.
  intros W. destruct (Hw W). constructor; try done. simpl. etrans; [apply Hg|done].
Qed.

Lemma undo_touch_run s a o prev prevDirty :
  live s a = Some o → o_address o = a → (wf s → object_ok o) →
  ∃ s', undo (touchChange a prev prevDirty) s = Ret (tt, s') ∧
        becomes s a (if reverts_touch a prev then o <| o_touched := prev |> else o) s'.
Proof.
  intros Hl Ha Has. unfold undo. fold (reverts_touch a prev).
  destruct (reverts_touch a prev); [|eauto using becomes_self].
  destruct (undo_object_run s a o _ _ (set_self_step (λ o, o <| o_touched := prev |>)))
    as (s' & E & P); [done|exact Ha|].
  rewrite (GM_bind_run _ _ _ _ _ E).
  assert (B : becomes s a (o <| o_touched := prev |>) s').
  { apply put_becomes; [done..| |done]. by apply live_deleted in Hl. }
  destruct prevDirty; cbn [negb]; eexists; (split; [reflexivity|]); [done|].
  apply becomes_dirty; [set_solver|done].
Qed.

(** Undoing an object entry applies its action. *)
Lemma action_run e a f s o :
  entry_action e = Some (a, f) → live s a = Some o → o_address o = a →
  entry_ok e → (wf s → object_ok o) →
  ∃ s', undo e s = Ret (tt, s') ∧ becomes s a (f o) s'.
Proof.
  intros He Hl Ha Hok Has.
  assert (Hb : ∀ s', put s a (f o) s' → becomes s a (f o) s').
  { intros s' P. apply put_becomes; [done|..].
    - by erewrite action_address.
    - erewrite action_deleted by done. by eapply live_deleted.
    - eauto using action_assets. }
  assert (Hs : ∀ m, obj_step m f → ∃ s', undo_object a m s = Ret (tt, s') ∧ becomes s a (f o) s').
  { intros m Hm. destruct (undo_object_run s a o m f) as (s' & ? & ?); [done..| |eauto].
    by erewrite action_address. }
  destruct e; cbn [entry_action] in He; try discriminate He; injection He as <- <-;
    try (apply Hs, set_self_mark).
  - rewrite (undo_suicide_run _ _ o) by done. apply Hs.
    exact (set_self_then (λ o, o <| o_suicided := prev |>) _ _
             (set_self_mark (on_data (λ d, d <| a_Balance := prevbalance |>)))).
  - by apply undo_touch_run.
  - apply Hs, revertAssetBalance_step.
Qed.

(** ... and without the account it panics or does nothing. *)
Lemma action_nil e a f s :
  entry_action e = Some (a, f) → live s a = None →
  if tolerant e then ∃ s', undo e s = Ret (tt, s') ∧ unchanged s s'
  else ∃ w, undo e s = Panic w.
Proof.
  intros He Hl. destruct e; cbn [entry_action] in He; try discriminate He; injection He as <- <-;
    try (by apply undo_object_nil).
  - simpl. destruct (getStateObject_run s account) as (s1 & E1 & F).
    rewrite (GM_bind_run _ _ _ _ _ E1), Hl. eexists. split; [reflexivity|].
    unfold fetched in F. rewrite Hl in F. by apply same_unchanged; destruct_and?.
  - cbn [undo tolerant]. fold (reverts_touch account prev).
    destruct (reverts_touch account prev); cbn [negb].
    + destruct (undo_object_nil s account (set_self (λ o, o <| o_touched := prev |>)) Hl) as [w E].
      exists w. unfold mbind, GM_bind. by rewrite E.
    + exists s. split; [done|reflexivity].
Qed.

(** ** Undoing respects the answers *)

Lemma becomes_equiv s s' a o o' s1 s1' :
  s ≈ s' → becomes s a o s1 → becomes s' a o' s1' → obj_equiv o o' → s1 ≈ s1'.
Proof.
  intros [He Hl Hv] [B1 B2 _ _ (x & Hx & Ex) B4] [B1' B2' _ _ (x' & Hx' & Ex') B4'] Hoo.
  constructor; [congruence|by intros h; rewrite B2, B2'|].
  intros y. destruct (decide (y = a)) as [->|Hne].
  - rewrite Hx, Hx'. constructor. by rewrite <- Ex, <- Ex'.
  - by rewrite B4, B4'.
Qed.

(** [undo] on states alike: both panic, or both return states alike. *)
Definition undo_ok (e : ENTRY) (s s' : SDB) : Prop :=
  match undo e s, undo e s' with
  | Ret (_, s1), Ret (_, s1') =>
    s1 ≈ s1' ∧ wf s1 ∧ wf s1' ∧ book_of s1 = book_of s ∧ book_of s1' = book_of s'
  | Panic _, Panic _ => True
  | _, _ => False
  end.

Lemma undo_ok_action e a f s s' :
  entry_action e = Some (a, f) → entry_ok e → wf s → wf s' → s ≈ s' → undo_ok e s s'.
Proof.
  intros He Hok W W' Heq. unfold undo_ok.
  pose proof (se_live _ _ Heq a) as F.
  destruct (live s a) as [o|] eqn:Hl, (live s' a) as [o'|] eqn:Hl'; inversion F; subst.
  - assert (Ho := live_assets _ _ _ W Hl). assert (Ho' := live_assets _ _ _ W' Hl').
    edestruct (action_run e a f s o) as (s1 & -> & B); eauto using live_address.
    edestruct (action_run e a f s' o') as (s1' & -> & B'); eauto using live_address.
    split_and!; [|by apply B|by apply B'|by apply B|by apply B'].
    eapply becomes_equiv; eauto using action_equiv.
  - pose proof (action_nil e a f s He Hl) as N. pose proof (action_nil e a f s' He Hl') as N'.
    destruct (tolerant e).
    + destruct N as (s1 & -> & [U1 U2 U3]), N' as (s1' & -> & [U1' U2' U3']).
      split_and!; auto. by rewrite U1, U1'.
    + by destruct N as [w ->], N' as [w' ->].
Qed.

Lemma live_delete s a x (g : gset address → gset address) :
  live (s <| s_stateObjects ::= delete a |> <| s_stateObjectsDirty ::= g |>) x =
  if decide (a = x) then load (s_trie s) x else live s x.
Proof. unfold live at 1; simpl. rewrite lookup_delete. by case_decide. Qed.

Lemma wf_delete s a (g : gset address → gset address) :
  (∀ d, g d ⊆ d ∖ {[a]}) →
  wf s → wf (s <| s_stateObjects ::= delete a |> <| s_stateObjectsDirty ::= g |>).
Proof.
  intros Hg []. constructor; simpl; try done; try (intros x o [_ Ho]%lookup_delete_Some; eauto).
  rewrite dom_delete. set_solver.
Qed.

Lemma setStateObject_becomes s o :
  o_deleted o = false → object_ok o →
  ∃ s', setStateObject o s = Ret (tt, s') ∧ becomes s (o_address o) o s'.
Proof.
  intros Hd Ho. eexists. split; [reflexivity|]. apply put_becomes; [|done..].
  unfold put. split_and!; [done..|set_solver|]. exists (o_onDirty o). by destruct o.
Qed.

(** The log list after an undo. *)
Lemma undo_log_lookup (m : gmap hash (list Log)) h x l :
  default [] (m !! h) = l →
  default [] (((if (length l =? 1)%nat then delete h
                else <[h := take (length l - 1) l]>) m) !! x) =
  if decide (h = x) then take (length l - 1) l else default [] (m !! x).
Proof.
  intros Hl. destruct (Nat.eqb_spec (length l) 1) as [E|E].
  - rewrite E, lookup_delete. by case_decide.
  - rewrite lookup_insert. by case_decide.
Qed.

Lemma wf_frame s s' :
  wf s → s_trie s' = s_trie s → s_stateObjects s' = s_stateObjects s →
  s_stateObjectsDirty s' = s_stateObjectsDirty s → is_u64 (s_logSize s') → wf s'.
Proof. intros [] Ht Ho Hd Hl. constructor; rewrite ?Ht, ?Ho, ?Hd; done. Qed.

Lemma undo_ok_create a s s' :
  wf s → wf s' → s ≈ s' → undo_ok (createObjectChange a) s s'.
Proof.
  intros W W' [He Hl Hv]. unfold undo_ok, undo, gmodify. split_and!; try done.
  - constructor; [done|done|]. intros x. rewrite !live_delete, (env_of_trie _ _ He).
    by case_decide.
  - by apply wf_delete.
  - by apply wf_delete.
Qed.

Lemma undo_ok_reset prev s s' :
  entry_ok (resetObjectChange prev) → wf s → wf s' → s ≈ s' →
  undo_ok (resetObjectChange prev) s s'.
Proof.
  intros [Hd Ho] W W' Heq. unfold undo_ok, undo.
  destruct (setStateObject_becomes s prev Hd Ho) as (s1 & -> & B).
  destruct (setStateObject_becomes s' prev Hd Ho) as (s1' & -> & B').
  split_and!; [|by apply B|by apply B'|by apply B|by apply B'].
  by eapply becomes_equiv.
Qed.

Lemma undo_ok_log h s s' : wf s → wf s' → s ≈ s' → undo_ok (addLogChange h) s s'.
Proof.
  intros W W' [He Hl Hv]. unfold undo_ok, undo.
  do 2 (erewrite GM_bind_run by reflexivity). rewrite <- Hl.
  destruct (Nat.eqb_spec (length (default [] (s_logs s !! h))) 0) as [E|E]; [done|].
  unfold gmodify. split_and!; try done.
  - constructor; [unfold env_of in *; simpl; congruence| |done].
    intros x. simpl. rewrite (undo_log_lookup (s_logs s)) by done.
    rewrite (undo_log_lookup (s_logs s')) by done. case_decide; [done|apply Hl].
  - apply (wf_frame s); [done..|apply u64_range].
  - apply (wf_frame s'); [done..|apply u64_range].
Qed.

Lemma undo_respects e s s' : entry_ok e → wf s → wf s' → s ≈ s' → undo_ok e s s'.
Proof.
  intros Hok W W' Heq. destruct e; try (by eapply undo_ok_action).
  - by apply undo_ok_create.
  - by apply undo_ok_reset.
  - destruct Heq as [He Hl Hv], W, W'. unfold undo_ok, undo, gmodify. split_and!; try done.
    constructor; try done. unfold env_of in *; simpl. congruence.
  - by apply undo_ok_log.
  - destruct Heq as [He Hl Hv], W, W'. unfold undo_ok, undo, gmodify. split_and!; try done.
    constructor; try done. unfold env_of in *; simpl. congruence.
Qed.

(** Undoing a list of entries. *)
Lemma undo_all_cons e es s :
  undo_all true (e :: es) s = (undo e;; undo_all true es) s.
Proof. done. Qed.

Lemma undo_all_respects es s s' s1 :
  Forall entry_ok es → wf s → wf s' → s ≈ s' → undo_all true es s = Ret (tt, s1) →
  ∃ s1', undo_all true es s' = Ret (tt, s1') ∧ s1 ≈ s1' ∧ wf s1 ∧ wf s1' ∧
         book_of s1 = book_of s ∧ book_of s1' = book_of s'.
Proof.
  intros Hok. revert s s'. induction Hok as [|e es He Hes IH]; intros s s' W W' Heq.
  { intros [= <-]. exists s'. by split_and!. }
  rewrite !undo_all_cons. pose proof (undo_respects e s s' He W W' Heq) as U. unfold undo_ok in U.
  destruct (undo e s) as [[[] s2]|w] eqn:E.
  2: { unfold mbind, GM_bind. by rewrite E. }
  destruct (undo e s') as [[[] s2']|w'] eqn:E'; [|done].
  rewrite !(GM_bind_run _ _ _ _ _ E), !(GM_bind_run _ _ _ _ _ E').
  destruct U as (U1 & U2 & U3 & U4 & U5). intros H.
  destruct (IH s2 s2' U2 U3 U1 H) as (s1' & ? & ? & ? & ? & ? & ?).
  exists s1'. split_and!; try done; congruence.
Qed.

Lemma undo_all_app es1 es2 s :
  undo_all true (es1 ++ es2) s = (undo_all true es1;; undo_all true es2) s.
Proof.
  revert s. induction es1 as [|e es1 IH]; intros s; [done|].
  simpl app. rewrite undo_all_cons. unfold mbind, GM_bind in *. rewrite undo_all_cons.
  unfold mbind, GM_bind. destruct (undo e s) as [[[] s1]|w]; [|done]. apply IH.
Qed.

(** ** What can be undone *)

(** The journal entries [s1] has beyond [s0] lead back from [s1] to [s0]. *)
Definition leads_back (s0 s1 : SDB) : Prop :=
  ∃ es s', s_journal s1 = s_journal s0 ++ es ∧ Forall entry_ok es ∧
    undo_all true (reverse es) s1 = Ret (tt, s') ∧ s' ≈ s0.

(** [s1] follows [s0] by operations whose journal entries lead back to it. *)
Record undoable (s0 s1 : SDB) : Prop := mkUndoable {
  ud_wf : wf s1;
  ud_revs : s_validRevisions s1 = s_validRevisions s0 ∧ s_nextRevisionId s1 = s_nextRevisionId s0;
  ud_undo : leads_back s0 s1
}.

Lemma undoable_unchanged s0 s1 : wf s0 → unchanged s0 s1 → undoable s0 s1.
Proof.
  intros W [U1 U2 U3]. unfold book_of in U2. injection U2 as E1 E2 E3. constructor; [auto|done|].
  exists [], s1. split_and!; try done. by rewrite app_nil_r.
Qed.

Lemma leads_back_trans s0 s1 s2 :
  wf s1 → wf s2 → leads_back s0 s1 → leads_back s1 s2 → leads_back s0 s2.
Proof.
  intros W1 W2 (es1 & x1 & J1 & F1 & U1 & Q1) (es2 & x2 & J2 & F2 & U2 & Q2).
  destruct (undo_all_respects (reverse es2) s2 s2 x2) as (? & ? & _ & Wx & _); [|done..|].
  { by apply Forall_reverse. }
  destruct (undo_all_respects (reverse es1) s1 x2 x1) as (y & Ey & Qy & _); [|done..|].
  { by apply Forall_reverse. }
  exists (es1 ++ es2), y. split_and!.
  - by rewrite J2, J1, (assoc_L (++)).
  - by apply Forall_app.
  - rewrite reverse_app, undo_all_app. by rewrite (GM_bind_run _ _ _ _ _ U2).
  - etrans; [symmetry; exact Qy|exact Q1].
Qed.

Lemma undoable_trans s0 s1 s2 : undoable s0 s1 → undoable s1 s2 → undoable s0 s2.
Proof.
  intros [W1 [R1 N1] L1] [W2 [R2 N2] L2].
  constructor; [done|split; congruence|by apply (leads_back_trans s0 s1)].
Qed.

(** ** Methods of an object and their entries *)

(** Undoing the entries [es] of account [a], last one first, takes an object like
    [o1] back to one like [o]. *)
Inductive unwinds (a : address) : list ENTRY → OBJ → OBJ → Prop :=
| unwinds_nil o1 o : obj_equiv o1 o → unwinds a [] o1 o
| unwinds_snoc es e f o1 o :
    entry_action e = Some (a, f) → unwinds a es (f o1) o → unwinds a (es ++ [e]) o1 o.

(** Every successful run of [m] on [o] appends entries that unwind its change. *)
Definition logged {A} (m : OM A) (s : SDB) (o : OBJ) : Prop := ∀ r s1 o1,
  m (s, o) = Ret (r, (s1, o1)) → ∃ es d,
  s1 = s <| s_journal ::= λ j, j ++ es |> <| s_stateObjectsDirty := d |> ∧
  d ⊆ {[o_address o]} ∪ s_stateObjectsDirty s ∧
  o_address o1 = o_address o ∧ o_deleted o1 = o_deleted o ∧ object_ok o1 ∧
  Forall entry_ok es ∧ unwinds (o_address o) es o1 o.

Lemma becomes_trans s a o1 s1 o2 s2 :
  becomes s a o1 s1 → becomes s1 a o2 s2 → becomes s a o2 s2.
Proof.
  intros [E1 L1 B1 W1 _ X1] [E2 L2 B2 W2 H2 X2]. constructor; try congruence; auto.
  intros x Hx. by rewrite X2, X1.
Qed.

Lemma unwinds_undo a es o1 o s1 o1' :
  unwinds a es o1 o → Forall entry_ok es → wf s1 → object_ok o1 →
  live s1 a = Some o1' → obj_equiv o1' o1 →
  ∃ s', undo_all true (reverse es) s1 = Ret (tt, s') ∧ becomes s1 a o s'.
Proof.
  intros U. revert s1 o1'. induction U as [o1 o Heq|es e f o1 o He U IH];
    intros s1 o1' Hes W Ho1 Hl Ho1'.
  { exists s1. split; [done|]. constructor; try done. exists o1'. split; [done|].
    symmetry. by trans o1. }
  apply Forall_app in Hes as [Hes He']. apply Forall_cons in He' as [He' _].
  assert (Has := live_assets _ _ _ W Hl).
  destruct (action_run e a f s1 o1') as (s2 & E & B); eauto using live_address.
  destruct (be_here _ _ _ _ B) as (o2 & Hl2 & Heq2).
  destruct (IH s2 o2) as (s' & E' & B'); eauto using action_assets.
  { by apply B. }
  { rewrite <- Heq2. by eapply action_equiv. }
  exists s'. rewrite reverse_snoc, undo_all_cons, (GM_bind_run _ _ _ _ _ E). eauto using becomes_trans.
Qed.

Lemma becomes_back s s1 a o s' :
  becomes s1 a o s' → live s a = Some o → env_of s1 = env_of s → s_logs s1 = s_logs s →
  (∀ x, x ≠ a → live s1 x = live s x) → s' ≈ s.
Proof.
  intros [E L _ _ (o' & Hl & Ho) X] Ha He Hlog Hx. constructor; [congruence|by intros; rewrite L, Hlog|].
  intros x. destruct (decide (x = a)) as [->|Hne].
  - rewrite Hl, Ha. by constructor.
  - by rewrite X, Hx.
Qed.

(** A logged method run on the object of the database is undoable. *)
Lemma on_object_logged {A} s o (m : OM A) r s1 :
  wf s → live s (o_address o) = Some o → logged m s o → on_object o m s = Ret (r, s1) →
  undoable s s1.
Proof.
  intros W Hl Hm. unfold on_object. destruct (m (s, o)) as [[x [s2 o1]]|w] eqn:E; [|done].
  intros [= <- <-]. destruct (Hm _ _ _ E) as (es & d & -> & Hm1 & Ha & Hd & Hok & Hes & U).
  set (s2 := s <| s_journal ::= λ j, j ++ es |>).
  assert (W2 : wf s2) by (by apply (wf_frame s); try done; apply W).
  assert (P : put s2 (o_address o) o1
                (s2 <| s_stateObjectsDirty := d |> <| s_stateObjects ::= <[o_address o1 := o1]> |>)).
  { unfold put. split_and!; [done..|]. exists (o_onDirty o1). rewrite Ha. by destruct o1. }
  assert (Hd' : o_deleted o1 = false) by (rewrite Hd; by eapply live_deleted).
  pose proof (put_becomes _ _ _ _ P Ha Hd' (λ _, Hok)) as B.
  destruct (be_here _ _ _ _ B) as (o1' & Hl1 & Ho1).
  destruct (unwinds_undo _ _ _ _ _ o1' U Hes (be_wf _ _ _ _ B W2) Hok Hl1) as (s' & E' & B').
  { by symmetry. }
  constructor; [by apply B|done|]. exists es, s'. split_and!; [done..|].
  eapply becomes_back; [done|done|by rewrite (be_env _ _ _ _ B)|by rewrite (be_logs _ _ _ _ B)|].
  intros y Hy. by rewrite (be_else _ _ _ _ B).
Qed.

(** ** Building logged methods *)

Lemma unwinds_equiv a es o1 o1' o o' :
  unwinds a es o1 o → Forall entry_ok es → object_ok o1 → object_ok o1' →
  obj_equiv o1' o1 → obj_equiv o o' → unwinds a es o1' o'.
Proof.
  intros U. revert o1'. induction U as [o1 o Heq|es e f o1 o He U IH]; intros o1' Hes H1 H1' E1 E2.
  - constructor. by rewrite E1, Heq.
  - apply Forall_app in Hes as [Hes He']. apply Forall_cons in He' as [He' _].
    econstructor; [done|]. eapply IH; eauto using action_assets, action_equiv.
Qed.

Lemma unwinds_app a es1 es2 o o1 o2 :
  unwinds a es2 o2 o1 → unwinds a es1 o1 o → Forall entry_ok (es1 ++ es2) →
  object_ok o1 → object_ok o2 → unwinds a (es1 ++ es2) o2 o.
Proof.
  intros U2. revert o. induction U2 as [o2 o1 Heq|es e f o2 o1 He U IH]; intros o U1 Hes H1 H2.
  - rewrite app_nil_r in *. by eapply unwinds_equiv.
  - rewrite (assoc_L (++)) in *. apply Forall_app in Hes as [Hes He'].
    apply Forall_cons in He' as [He' _].
    econstructor; [done|]. apply IH; eauto using action_assets.
Qed.

Lemma logged_bind {A B} (m : OM A) (k : A → OM B) s o :
  logged m s o → (∀ r s1 o1, m (s, o) = Ret (r, (s1, o1)) → object_ok o1 → logged (k r) s1 o1) →
  logged (m ≫= k) s o.
Proof.
  intros Hm Hk r s2 o2 E. apply GM_bind_Ret in E as (r1 & [s1 o1] & E1 & E2).
  destruct (Hm _ _ _ E1) as (es1 & d1 & -> & M1 & A1 & D1 & K1 & F1 & U1).
  destruct (Hk _ _ _ E1 K1 _ _ _ E2) as (es2 & d2 & -> & M2 & A2 & D2 & K2 & F2 & U2).
  exists (es1 ++ es2), d2. rewrite A1 in U2. split_and!; try congruence.
  - destruct s; simpl. by rewrite (assoc_L (++)).
  - simpl in M2. rewrite A1 in M2. set_solver.
  - by apply Forall_app.
  - eapply unwinds_app; eauto. by apply Forall_app.
Qed.

Lemma logged_self {A} (k : OBJ → OM A) s o : logged (k o) s o → logged (self ≫= k) s o.
Proof. intros Hk r s1 o1 E. erewrite GM_bind_run in E by reflexivity. exact (Hk _ _ _ E). Qed.

(** Steps that leave the database alone and the object like it was. *)
Lemma logged_quiet {A} (m : OM A) s o :
  (∀ r s1 o1, m (s, o) = Ret (r, (s1, o1)) →
     s1 = s ∧ o_address o1 = o_address o ∧ o_deleted o1 = o_deleted o ∧ object_ok o1 ∧
     obj_equiv o1 o) →
  logged m s o.
Proof.
  intros H r s1 o1 E. destruct (H _ _ _ E) as (-> & ? & ? & ? & ?).
  exists [], (s_stateObjectsDirty s). split_and!; try done.
  - destruct s; simpl. by rewrite app_nil_r.
  - set_solver.
  - by constructor.
Qed.

Lemma logged_ret {A} (r : A) s o : object_ok o → logged (mret r) s o.
Proof. intros Ho. apply logged_quiet. by intros ??? [= <- <- <-]. Qed.

(** The common shape: journal the old value, then change the object. *)
Lemma logged_entry e f g (m : OM unit) s o :
  entry_action e = Some (o_address o, f) → entry_ok e → obj_step m g →
  o_address (g o) = o_address o → o_deleted (g o) = o_deleted o → object_ok (g o) →
  obj_equiv (f (g o)) o → logged (journal_append e;; m) s o.
Proof.
  intros He Hok Hm Ha Hd Has Heq r s1 o1. erewrite GM_bind_run by reflexivity.
  destruct (Hm (s <| s_journal ::= λ j, j ++ [e] |>) o) as (d & b & Hd1 & E).
  intros E1. simpl fst in E1. simpl snd in E1. rewrite E in E1. injection E1 as <- <- <-.
  exists [e], d. split_and!; try done; [by rewrite <- Ha|by apply Forall_singleton|].
  apply (unwinds_snoc _ []  e f); [done|]. constructor.
  trans (f (g o)); [|done]. by eapply action_equiv.
Qed.

(** ** The methods *)

Lemma obj_SetBalance_logged v s o : object_ok o → logged (obj_SetBalance v) s o.
Proof.
  intros Ho. apply logged_self. eapply logged_entry; [reflexivity|done|apply set_self_mark|done..|].
  by destruct o as [? [] ? ? ? ? ? ? ? ? ? ? ? ? ?].
Qed.

Lemma obj_setLock_logged v s o : object_ok o → logged (obj_SetLockBalance v) s o.
Proof.
  intros Ho. apply logged_self. destruct (a_LockBalance (o_data o)) as [b|] eqn:E; [|by intros ?].
  eapply logged_entry; [reflexivity|done|apply set_self_mark|done..|].
  destruct o as [? [] ? ? ? ? ? ? ? ? ? ? ? ? ?]. simpl in E. by subst.
Qed.

Lemma obj_SetNonce_logged v s o : object_ok o → logged (obj_SetNonce v) s o.
Proof.
  intros Ho. apply logged_self. eapply logged_entry; [reflexivity|done|apply set_self_mark|done..|].
  by destruct o as [? [] ? ? ? ? ? ? ? ? ? ? ? ? ?].
Qed.

Lemma obj_SetVoteList_logged v s o : object_ok o → logged (obj_SetVoteList v) s o.
Proof.
  intros Ho. apply logged_self. eapply logged_entry; [reflexivity|done|apply set_self_mark|done..|].
  by destruct o as [? [] ? ? ? ? ? ? ? ? ? ? ? ? ?].
Qed.

Lemma touch_step :
  obj_step (tryMarkDirty;; set_self (λ o, o <| o_touched := true |>)) (λ o, o <| o_touched := true |>).
Proof.
  intros s o. unfold tryMarkDirty.
  destruct s, o as [? ? ? ? ? ? ? ? ? ? ? ? ? ? []]; eexists _, _; (split; [|reflexivity]); simpl; set_solver.
Qed.

Lemma touch_logged s o : object_ok o → logged touch s o.
Proof.
  intros Ho. apply logged_self. eapply logged_entry; [reflexivity|done|apply touch_step|done..|].
  destruct (reverts_touch _ _); done.
Qed.

Lemma obj_AddBalance_logged v s o : object_ok o → logged (obj_AddBalance v) s o.
Proof.
  intros Ho. apply logged_self. repeat case_match; auto using touch_logged, logged_ret, obj_SetBalance_logged.
Qed.

Lemma obj_SubBalance_logged v s o : object_ok o → logged (obj_SubBalance v) s o.
Proof.
  intros Ho. apply logged_self. case_match; auto using logged_ret, obj_SetBalance_logged.
Qed.

Lemma obj_AddLockBalance_logged v s o : object_ok o → logged (obj_AddLockBalance v) s o.
Proof.
  intros Ho. apply logged_self.
  repeat case_match; auto using touch_logged, logged_ret, obj_setLock_logged. by intros ?.
Qed.

Lemma obj_SubLockBalance_logged v s o : object_ok o → logged (obj_SubLockBalance v) s o.
Proof.
  intros Ho. apply logged_self.
  repeat case_match; auto using logged_ret, obj_setLock_logged. by intros ?.
Qed.

Lemma obj_AddAssetBalance_logged x v s o :
  0 ≤ v → object_ok o → logged (obj_AddAssetBalance x v) s o.
Proof.
  intros Hv Ho. apply logged_self.
  eapply (logged_entry _ _ (on_data (λ d, d <| a_AssetList := AddAsset (mkAsset x v) (a_AssetList (o_data o)) |>)));
    [reflexivity|done|apply set_self_mark|done..| |].
  - destruct Ho as (H1 & H2 & H3 & H4). split_and!; [by apply AddAsset_ordered|by apply AddAsset_nonneg|done|done].
  - destruct Ho as (Ho1 & Ho2 & Ho3 & Ho4), o as [? [] ? ? ? ? ? ? ? ? ? ? ? ? ?]. simpl in *. constructor; try done.
    intros id. simpl. pose proof (nonneg_BalanceOf _ x Ho1 Ho2).
    rewrite BalanceOf_SubAsset, !BalanceOf_AddAsset by auto using AddAsset_ordered.
    repeat case_decide; destruct_and?; subst; lia || (exfalso; naive_solver lia).
Qed.

Lemma obj_SubAssetBalance_logged x v s o :
  0 ≤ v → object_ok o → logged (obj_SubAssetBalance x v) s o.
Proof.
  intros Hv Ho. apply logged_self. pose proof Ho as (Ho1 & Ho2 & Ho3 & Ho4).
  destruct (SubAsset (mkAsset x v) (a_AssetList (o_data o))) as [[] al] eqn:E.
  - pose proof (SubAsset_true _ _ _ _ Ho1 E) as (Hle & Hal & Hb).
    pose proof (SubAsset_nonneg x v _ Ho1 Ho2) as Hal2. rewrite E in Hal2.
    enough (L : logged ((journal_append (assetBalanceChange (o_address o) (mkAsset x v) false);;
                         (set_assets al;; tryMarkDirty));; mret true) s o) by exact L.
    apply logged_bind; [|by intros; apply logged_ret].
    eapply logged_entry; [reflexivity|done|apply set_self_mark|done..|].
    destruct o as [? [] ? ? ? ? ? ? ? ? ? ? ? ? ?]. simpl in *. constructor; try done.
    intros id. simpl. by erewrite AddAsset_SubAsset.
  - apply SubAsset_false in E as ->. apply logged_quiet. intros r s1 o1 [= <- <- <-].
    by destruct o as [? [] ? ? ? ? ? ? ? ? ? ? ? ? ?].
Qed.

(** Reads of an object, which at most fill its caches. *)
Definition same_object (o1 o : OBJ) : Prop :=
  o_address o1 = o_address o ∧ o_deleted o1 = o_deleted o ∧ o_data o1 = o_data o ∧
  (object_ok o → object_ok o1) ∧ obj_equiv o1 o.

Lemma obj_setError_run err (s : SDB) (o : OBJ) :
  ∃ e, obj_setError err (s, o) = Ret (tt, (s, o <| o_dbErr := e |>)).
Proof.
  unfold obj_setError, set_self; simpl. destruct o as [? ? [e|] ? ? ? ? ? ? ? ? ? ? ? ?]; simpl.
  - by exists (Some e).
  - by exists err.
Qed.

Lemma getTrie_run s o t s1 o1 :
  getTrie (s, o) = Ret (t, (s1, o1)) →
  s1 = s ∧ trie_of (o_address o) (a_Root (o_data o)) (o_trie o) = Some t ∧
  ∃ e, o1 = o <| o_trie := Some t |> <| o_dbErr := e |>.
Proof.
  unfold getTrie, trie_of. erewrite GM_bind_run by reflexivity. cbn [fst snd].
  fold (addrHash o). destruct (o_trie o) as [t'|] eqn:Et.
  - intros [= -> <- <-]. split_and!; [done..|]. exists (o_dbErr o). destruct o; simpl in *. by subst.
  - destruct (db_OpenStorageTrie _ _) as [t'|err].
    + intros [= -> <- <-]. split_and!; [done..|]. exists (o_dbErr o). by destruct o.
    + destruct (db_OpenStorageTrie _ hash0) as [t'|err']; [|done].
      erewrite GM_bind_run by reflexivity. cbn [fst snd].
      destruct (obj_setError_run (Some (String.append "can't create storage trie: " err)) s
                  (o <| o_trie := Some t' |>)) as [e E].
      rewrite (GM_bind_run _ _ _ _ _ E). intros [= -> <- <-]. eauto.
Qed.

Lemma trie_of_made a root tr t : from_option made True tr → trie_of a root tr = Some t → made t.
Proof.
  unfold trie_of. destruct tr as [t'|]; cbn; [by intros H [= <-]|intros _].
  destruct (db_OpenStorageTrie _ root) eqn:E; [intros [= <-]; by eapply made_opened|].
  destruct (db_OpenStorageTrie _ hash0) eqn:E0; [intros [= <-]; by eapply made_opened|done].
Qed.

(** An object whose trie was opened, with some more cached values. *)
Lemma same_object_loaded o t e c :
  trie_of (o_address o) (a_Root (o_data o)) (o_trie o) = Some t →
  o_cachedStorage o ⊆ c → (∀ k, storage_of c (Some t) k = storage_of (o_cachedStorage o) (Some t) k) →
  same_object (o <| o_trie := Some t |> <| o_dbErr := e |> <| o_cachedStorage := c |>) o.
Proof.
  intros Ht Hs Hc. unfold same_object. split_and!; [done..| |].
  { intros (H1 & H2 & H3 & H4). split_and!; [done|done|by etrans|by eapply trie_of_made]. }
  constructor; [done..|].
  intros k. unfold storage_view. rewrite Ht. apply Hc.
Qed.

Lemma storage_of_cache (c : Storage) t key v k :
  c !! key = None → trie_value t key = v →
  storage_of (<[key := v]> c) (Some t) k = storage_of c (Some t) k.
Proof.
  intros Hc Hv. unfold storage_of. rewrite lookup_insert. case_decide; [|done].
  subst. by rewrite Hc.
Qed.

(** The value [GetState] reads from the trie. *)
Definition read_value (enc : bytes) : OM hash :=
  if decide (enc = []) then mret hash0
  else let '(content, err) := rlp_SplitValue enc in
       (match err with Some _ => obj_setError err | None => mret tt end);;
       mret (BytesToHash content).

Lemma read_value_run enc (s : SDB) (o : OBJ) :
  ∃ e, read_value enc (s, o) =
    Ret (if decide (enc = []) then hash0 else BytesToHash (rlp_SplitValue enc).1,
         (s, o <| o_dbErr := e |>)).
Proof.
  unfold read_value. case_decide.
  { exists (o_dbErr o). by destruct o. }
  destruct (rlp_SplitValue enc) as [content [err|]].
  - destruct (obj_setError_run (Some err) s o) as [e E]. exists e.
    by rewrite (GM_bind_run _ _ _ _ _ E).
  - exists (o_dbErr o). by destruct o.
Qed.

Lemma obj_GetState_run key s o v s1 o1 :
  obj_GetState key (s, o) = Ret (v, (s1, o1)) →
  s1 = s ∧ same_object o1 o ∧ storage_view o key = Some v.
Proof.
  unfold obj_GetState. erewrite GM_bind_run by reflexivity. cbn [fst snd].
  destruct (o_cachedStorage o !! key) as [v'|] eqn:Ec.
  { intros [= -> <- <-]. split_and!; [done..|]. unfold storage_view, storage_of. by rewrite Ec. }
  intros (t & [s2 o2] & (-> & Ht & [e ->])%getTrie_run & E)%GM_bind_Ret.
  assert (Hv : storage_view o key = Some (trie_value t key)).
  { unfold storage_view, storage_of. by rewrite Ec, Ht. }
  rewrite Hv. unfold trie_value in *. destruct (TryGet t key) as [enc err] eqn:Et.
  set (o2 := o <| o_trie := Some t |> <| o_dbErr := e |>) in *.
  destruct err as [err|].
  - destruct (obj_setError_run (Some err) s o2) as [e' E']. rewrite (GM_bind_run _ _ _ _ _ E') in E.
    injection E as <- <- <-. split_and!; [done| |done].
    by apply (same_object_loaded o t e' (o_cachedStorage o)).
  - fold (read_value enc) in E. destruct (read_value_run enc s o2) as [e' E'].
    rewrite (GM_bind_run _ _ _ _ _ E') in E. revert E.
    set (w := if decide (enc = []) then hash0 else _). destruct (decide (w = hash0)).
    + intros [= <- <- <-]. split_and!; [done| |done].
      by apply (same_object_loaded o t e' (o_cachedStorage o)).
    + intros [= <- <- <-]. split_and!; [done| |done].
      apply (same_object_loaded o t e' (<[key := w]> (o_cachedStorage o))); [done|by apply insert_subseteq|].
      intros k. apply storage_of_cache; [done|]. unfold trie_value. by rewrite Et.
Qed.

Lemma same_object_quiet {A} (m : OM A) s o :
  object_ok o → (∀ r s1 o1, m (s, o) = Ret (r, (s1, o1)) → s1 = s ∧ same_object o1 o) →
  logged m s o.
Proof.
  intros Ho H. apply logged_quiet. intros r s1 o1 E.
  destruct (H _ _ _ E) as (-> & ? & ? & Hd & Hk & ?). split_and!; auto.
Qed.

Lemma obj_GetState_logged key s o : object_ok o → logged (obj_GetState key) s o.
Proof. intros Ho. apply same_object_quiet; [done|]. by intros r s1 o1 (? & ? & ?)%obj_GetState_run. Qed.

Lemma obj_SetState_logged key v s o : object_ok o → logged (obj_SetState key v) s o.
Proof.
  intros Ho. apply logged_bind; [by apply obj_GetState_logged|].
  intros prev s1 o1 (-> & (_ & _ & _ & _ & Hoo) & Hp)%obj_GetState_run Ho1. apply logged_self.
  eapply logged_entry; [reflexivity|done|apply set_self_mark|done|done| |].
  { destruct Ho1 as (H1 & H2 & H3 & H4). split_and!; [done|done|by apply insert_mono|done]. }
  constructor; [done..|]. intros k. rewrite !storage_view_insert. case_decide; [|done].
  subst. by rewrite (oe_storage _ _ Hoo).
Qed.

Lemma code_of_idemp a h c : code_of a h (code_of a h c) = code_of a h c.
Proof. unfold code_of. by destruct c; [|case_decide; [|by destruct (_.1)]]. Qed.

Lemma obj_Code_run s o r s1 o1 :
  obj_Code (s, o) = Ret (r, (s1, o1)) → s1 = s ∧ same_object o1 o ∧ r = code_view o.
Proof.
  unfold obj_Code. erewrite GM_bind_run by reflexivity. cbn [fst snd].
  unfold code_view, code_of. fold (addrHash o).
  destruct (o_code o) as [c|] eqn:Ec; [by intros [= <- <- <-]|].
  case_decide as Hc; [by intros [= <- <- <-]|].
  destruct (db_ContractCode (addrHash o) (a_CodeHash (o_data o))) as [code err] eqn:Ed.
  assert (Hs : ∀ e, same_object (o <| o_dbErr := e |> <| o_code := code |>) o).
  { intros e. unfold same_object. split_and!; [done..|]. constructor; [|done..].
    unfold core_of, code_view. simpl. unfold code_of. fold (addrHash o).
    rewrite Ec, Ed, decide_False by done. by destruct code. }
  destruct err as [err|].
  - destruct (obj_setError_run (Some (String.append "can't load code hash: " err)) s o) as [e E].
    rewrite (GM_bind_run _ _ _ _ _ E). intros [= <- <- <-]. split_and!; [done| |done]. apply (Hs e).
  - intros [= <- <- <-]. split_and!; [done| |done]. specialize (Hs (o_dbErr o)). by destruct o.
Qed.

Lemma obj_Code_logged s o : object_ok o → logged obj_Code s o.
Proof. intros Ho. apply same_object_quiet; [done|]. by intros r s1 o1 (? & ? & ?)%obj_Code_run. Qed.

Lemma obj_SetCode_logged h c s o : object_ok o → logged (obj_SetCode h c) s o.
Proof.
  intros Ho. apply logged_bind; [by apply obj_Code_logged|].
  intros prev s1 o1 (-> & (Ha & _ & Hd & _ & Hoo) & ->)%obj_Code_run Ho1. apply logged_self.
  eapply logged_entry; [reflexivity|done|apply set_self_mark|done..|].
  pose proof (oe_core _ _ Hoo) as Hc. unfold core_of in Hc. injection Hc as _ _ _ _ _ _ _ _ Hc _ _.
  rewrite <- Hc. destruct o1 as [? [] ? ? ? ? ? ? ? ? ? ? ? ? ?]. constructor; [|done..].
  unfold core_of, code_view; simpl. by rewrite code_of_idemp.
Qed.

Lemma obj_Abi_logged s o : object_ok o → logged obj_Abi s o.
Proof.
  intros Ho. apply logged_self. case_decide; [|by apply logged_ret]. case_decide; [by apply logged_ret|].
  destruct (db_ContractAbi _ _) as [abi err]. apply same_object_quiet; [done|].
  intros r s1 o1 (x & [s2 o2] & E1 & E2)%GM_bind_Ret. injection E2 as <- <- <-.
  destruct err as [err|]; [|by injection E1 as <- <- <-].
  destruct (obj_setError_run (Some (String.append "can't load abi: " err)) s o) as [e E].
  rewrite E in E1. by injection E1 as <- <- <-.
Qed.

Lemma obj_AssetData_logged s o : object_ok o → logged obj_AssetData s o.
Proof.
  intros Ho. apply logged_self. destruct (o_assetData o) as [d|] eqn:Ed; [by apply logged_ret|].
  destruct (IsAssetAccount o) eqn:Ei; [|by apply logged_ret]. cbn [negb].
  destruct (db_AssetData _ _) as [d err] eqn:Eh. apply same_object_quiet; [done|].
  intros r s1 o1 [= <- <- <-]. split; [done|]. unfold same_object. split_and!; [done..|].
  constructor; [|done..]. unfold core_of, assetData_view; simpl. unfold assetData_of.
  rewrite Ed. unfold IsAssetAccount in Ei. destruct (a_AssetHash (o_data o)) as [h|]; [|done].
  simpl in Eh. fold (addrHash o). rewrite Eh. case_decide as Hh.
  - subst. by rewrite bool_decide_true in Ei.
  - by destruct d.
Qed.

(** ** Operations of the database *)

Lemma live_none_load s a : wf s → live s a = None → load (s_trie s) a = None.
Proof.
  intros W. unfold live. destruct (s_stateObjects s !! a) as [o|] eqn:E; [|done].
  destruct (o_deleted o) eqn:Hd; [|done]. intros _. by eapply wf_deleted.
Qed.

Definition fresh_object (a : address) (b : bool) : OBJ :=
  (newObject a Account0 true) <| o_onDirty := b |>.

Lemma fetched_frame s a s' :
  fetched s a s' → env_of s' = env_of s ∧ s_logs s' = s_logs s ∧ book_of s' = book_of s ∧
  ∀ x, x ≠ a → live s' x = live s x.
Proof.
  unfold fetched. destruct (live s a) as [o|] eqn:Hl.
  - intros [P _]. split_and!; [apply P..|]. intros x.
    apply (live_put s a o s' x P). by eapply live_deleted.
  - intros (? & ? & ? & _ & Ho). split_and!; [done..|]. intros x Hx. unfold live.
    rewrite Ho. by rewrite (env_of_trie s s').
Qed.

Lemma book_of_eq s s' :
  book_of s' = book_of s → s_journal s' = s_journal s ∧
  s_validRevisions s' = s_validRevisions s ∧ s_nextRevisionId s' = s_nextRevisionId s.
Proof. by intros [= -> -> ->]. Qed.

(** The entry [createObject] journals leads back from any change to account [a]. *)
Lemma created_undo s s2 a :
  wf s → wf s2 → env_of s2 = env_of s → s_logs s2 = s_logs s →
  (∀ x, x ≠ a → live s2 x = live s x) →
  let e := match live s a with
           | None => createObjectChange a
           | Some prev => resetObjectChange prev
           end in
  entry_ok e ∧ ∃ s', undo e s2 = Ret (tt, s') ∧ s' ≈ s.
Proof.
  intros W W2 He Hl Hx. destruct (live s a) as [prev|] eqn:Ha; cbv zeta; cbn [undo entry_ok].
  - assert (Hd := live_deleted _ _ _ Ha). assert (Ho := live_assets _ _ _ W Ha).
    split; [done|]. destruct (setStateObject_becomes s2 prev Hd Ho) as (s' & E & B).
    rewrite (live_address _ _ _ W Ha) in B. eauto using becomes_back.
  - split; [done|]. eexists. split; [reflexivity|]. constructor; [done|by intros; simpl; rewrite Hl|].
    intros x. rewrite live_delete, (env_of_trie s s2) by done. case_decide; [subst|by rewrite Hx].
    by rewrite Ha, live_none_load.
Qed.

(** [createObject] makes a fresh object, and whatever is done to that object next
    is undone by the entry it journals. *)
Lemma createObject_run s a :
  wf s → ∃ s1 b, createObject a s = Ret ((fresh_object a b, live s a), s1) ∧ wf s1 ∧
    s_stateObjects s1 !! a = Some (fresh_object a b) ∧
    ∀ s2 o2, put s1 a o2 s2 → o_address o2 = a → o_deleted o2 = false → object_ok o2 → undoable s s2.
Proof.
  intros W. unfold createObject.
  destruct (getStateObject_run s a) as (s0 & E0 & F). rewrite (GM_bind_run _ _ _ _ _ E0).
  pose proof (fetched_unchanged _ _ _ W F) as [_ _ W0].
  apply fetched_frame in F as (Fe & Fl & (Fj & Fr & Fn)%book_of_eq & Fx).
  destruct (set_self_mark (on_data (λ d, d <| a_Nonce := 0 |>)) s0 (newObject a Account0 true))
    as (d & b & Hd1 & E).
  set (e := match live s a with None => _ | Some prev => _ end).
  set (s1 := s0 <| s_stateObjectsDirty := d |> <| s_journal ::= λ j, j ++ [e] |>
                <| s_stateObjects ::= <[a := fresh_object a b]> |>).
  assert (W1 : wf s1).
  { eapply (wf_put (s0 <| s_journal ::= λ j, j ++ [e] |>) a (fresh_object a b)); [| |done..|by repeat constructor].
    - apply (wf_frame s0); [auto|done..|]. by apply W0.
    - unfold put. split_and!; [done..|]. by exists b. }
  exists s1, b. split_and!.
  - unfold mbind at 1, GM_bind at 1. unfold obj_setNonce. unfold on_data in E. rewrite E. done.
  - done.
  - apply lookup_insert_eq.
  - intros s2 o2 P Ha Hd Ho. pose proof P as (Pe & Pl & (Pj & Pr & Pn)%book_of_eq & _).
    assert (W2 : wf s2) by (by eapply wf_put).
    destruct (created_undo s s2 a) as (Hok & s' & E' & Q); [done|done|by rewrite Pe|by rewrite Pl| |].
    { intros x Hx. rewrite (proj2 (live_put _ _ _ _ x P Hd) Hx).
      rewrite <- (Fx x Hx). unfold live at 1; simpl. by rewrite lookup_insert_ne. }
    constructor; [done|split; [by rewrite Pr|by rewrite Pn]|].
    exists [e], s'. split_and!; [by rewrite Pj; simpl; rewrite Fj|by apply Forall_singleton| |done].
    rewrite reverse_singleton, undo_all_cons, (GM_bind_run _ _ _ _ _ E'). done.
Qed.

Lemma GetOrNewStateObject_run s a o s1 :
  wf s → GetOrNewStateObject a s = Ret (o, s1) →
  undoable s s1 ∧ live s1 a = Some o ∧ o_address o = a.
Proof.
  intros W. unfold GetOrNewStateObject.
  destruct (getStateObject_run s a) as (s0 & E0 & F). rewrite (GM_bind_run _ _ _ _ _ E0).
  pose proof (fetched_unchanged _ _ _ W F) as U. unfold fetched in F.
  assert (W0 : wf s0) by (by apply U).
  assert (Hnew : ∀ o' s1', (('(o', _) ← createObject a; mret o') : SM OBJ) s0 = Ret (o', s1') →
            undoable s s1' ∧ live s1' a = Some o' ∧ o_address o' = a).
  { intros o' s1' E. destruct (createObject_run s0 a W0) as (s2 & b & E2 & W2 & H2 & HU).
    rewrite (GM_bind_run _ _ _ _ _ E2) in E. injection E as <- <-. split_and!; [|by unfold live; rewrite H2|done].
    eapply undoable_trans; [by apply undoable_unchanged|].
    eapply (HU _ (fresh_object a b)); [by apply put_self|done..|]. by repeat constructor. }
  destruct (live s a) as [o'|] eqn:Hl; [|apply Hnew].
  rewrite (live_deleted _ _ _ Hl). intros [= <- <-]. destruct F as [_ H].
  split_and!; [by apply undoable_unchanged| |by apply (live_address s)].
  unfold live. by rewrite H, (live_deleted _ _ _ Hl).
Qed.

Lemma write_object_undoable {A} s a (m : OM A) r s1 :
  (∀ s o, object_ok o → logged m s o) → wf s → write_object a m s = Ret (r, s1) → undoable s s1.
Proof.
  intros Hm W (o & s0 & E0 & E1)%GM_bind_Ret.
  destruct (GetOrNewStateObject_run _ _ _ _ W E0) as (U & Hl & Ha).
  eapply undoable_trans; [done|]. assert (W0 := ud_wf _ _ U).
  eapply on_object_logged; [done|by rewrite Ha| |done]. by eapply Hm, live_assets.
Qed.

Lemma read_object_undoable {A} s a d (f : OBJ → A) r s1 :
  wf s → read_object d f a s = Ret (r, s1) → undoable s s1.
Proof.
  intros W. unfold read_object. destruct (getStateObject_run s a) as (s0 & E0 & F).
  rewrite (GM_bind_run _ _ _ _ _ E0). intros [= <- <-].
  by apply undoable_unchanged, (fetched_unchanged _ a).
Qed.

(** Getters that fill the object's caches. *)
Lemma cached_read_undoable {A} s a d (m : OM A) r s1 :
  (∀ s o, object_ok o → logged m s o) → wf s →
  ((obj ← getStateObject a;
    match obj with Some o => on_object o m | None => mret d end) : SM A) s = Ret (r, s1) →
  undoable s s1.
Proof.
  intros Hm W. destruct (getStateObject_run s a) as (s0 & E0 & F).
  rewrite (GM_bind_run _ _ _ _ _ E0). pose proof (fetched_unchanged _ _ _ W F) as U.
  apply undoable_unchanged in U as U'; [|done]. assert (W0 := ud_wf _ _ U').
  destruct (live s a) as [o|] eqn:Hl; [|by intros [= <- <-]].
  unfold fetched in F. rewrite Hl in F. destruct F as [_ H].
  intros E. eapply undoable_trans; [done|]. assert (Ha := live_address _ _ _ W Hl).
  eapply on_object_logged; [done| |by eapply Hm, wf_assets|done].
  unfold live. rewrite Ha, H. by rewrite (live_deleted _ _ _ Hl).
Qed.
End Revert.

#[export] Hint Resolve
  obj_SetBalance_logged obj_AddBalance_logged obj_SubBalance_logged
  obj_setLock_logged obj_AddLockBalance_logged obj_SubLockBalance_logged
  obj_AddAssetBalance_logged obj_SubAssetBalance_logged
  obj_SetVoteList_logged obj_SetNonce_logged obj_SetCode_logged obj_SetState_logged
  obj_Code_logged obj_Abi_logged obj_GetState_logged obj_AssetData_logged : statedb.
