(* ===== verification/StateSnapshot.v ===== *)
(** * Snapshots: every operation can be reverted

    The operations of [core/state/statedb.go] as steps of a program, the
    invariant they keep, and the theorem that [RevertToSnapshot] restores the
    answers of the database to what they were when the snapshot was taken. *)

From S2P Require Import Prelude Assets Interfaces AssetInfo StateTypes StateSample StateDB StateRevert.

Section Snapshots.
Context {AT ST VL : Type} `{ENV : StateEnv AT ST VL}.

#[local] Abbreviation SDB := (StateDB AT ST VL).
#[local] Abbreviation OBJ := (stateObject ST VL).
#[local] Abbreviation SM := (GM SDB).
#[local] Abbreviation OM := (GM (SDB * OBJ)).
#[local] Abbreviation ENTRY := (journalEntry ST VL).
#[local] Infix "≈" := sdb_equiv (at level 70).

(** ** The remaining operations *)

Lemma suicide_step :
  obj_step (AT := AT)
    (markSuicided;; set_self (λ o : OBJ, o <| o_data ::= λ d, d <| a_Balance := 0 |> |>))
    (λ o, o <| o_suicided := true |> <| o_data ::= λ d, d <| a_Balance := 0 |> |>).
Proof.
  intros s o. unfold markSuicided, tryMarkDirty.
  destruct s, o as [? ? ? ? ? ? ? ? ? ? ? ? ? ? []]; eexists _, _; (split; [|reflexivity]); simpl; set_solver.
Qed.

Definition suicide_object : OM unit :=
  o ← self;
  journal_append (suicideChange (o_address o) (o_suicided o) (a_Balance (o_data o)));;
  (markSuicided;; set_self (λ o : OBJ, o <| o_data ::= λ d, d <| a_Balance := 0 |> |>)).

Lemma suicide_object_logged s o : object_ok o → logged suicide_object s o.
Proof.
  intros Ho. apply logged_self. eapply logged_entry; [reflexivity|done|apply suicide_step|done..|].
  by destruct o as [? [] ? ? ? ? ? ? ? ? ? ? ? ? ?].
Qed.

Lemma Suicide_undoable s a r s1 : wf s → Suicide a s = Ret (r, s1) → undoable s s1.
Proof.
  intros W E. destruct (getStateObject_run s a) as (s0 & E0 & F).
  unfold Suicide in E. rewrite (GM_bind_run _ _ _ _ _ E0) in E.
  destruct (live s a) as [o|] eqn:Hl.
  - apply (cached_read_undoable s a tt suicide_object tt); [apply suicide_object_logged|done|].
    rewrite (GM_bind_run _ _ _ _ _ E0). assert (Ha := live_address _ _ _ W Hl). subst a.
    apply GM_bind_Ret in E as (x & s2 & E1 & E). injection E1 as <- <-.
    apply GM_bind_Ret in E as ([] & s2 & E1 & E). injection E as <- <-. exact E1.
  - injection E as <- <-. by apply undoable_unchanged, (fetched_unchanged _ a).
Qed.

Lemma on_object_put {A} s o (m : OM A) r s1 o1 d :
  m (s, o) = Ret (r, (s <| s_stateObjectsDirty := d |>, o1)) →
  d ⊆ {[o_address o1]} ∪ s_stateObjectsDirty s →
  on_object o m s = Ret (r, s1) → put s (o_address o1) o1 s1.
Proof.
  intros E Hd. unfold on_object. rewrite E. intros [= <-]. unfold put. split_and!; [done..|].
  exists (o_onDirty o1). by destruct o1.
Qed.

Lemma CreateAccount_undoable s a r s1 : wf s → CreateAccount a s = Ret (r, s1) → undoable s s1.
Proof.
  intros W E. destruct (createObject_run s a W) as (s2 & b & E2 & W2 & H2 & HU).
  unfold CreateAccount in E. rewrite (GM_bind_run _ _ _ _ _ E2) in E.
  destruct (live s a) as [p|].
  - destruct (on_object_step s2 a (fresh_object a b) (obj_setBalance (a_Balance (o_data p))) _
                (set_self_mark _) eq_refl) as (s3 & E3 & P).
    rewrite E3 in E. injection E as <- <-. eapply HU; [done..|]. by repeat constructor.
  - injection E as <- <-. eapply (HU _ (fresh_object a b)); [by apply put_self|done..|].
    by repeat constructor.
Qed.

Lemma createObject_undoable s a x s1 : wf s → createObject a s = Ret (x, s1) → undoable s s1.
Proof.
  intros W E. destruct (createObject_run s a W) as (s2 & b & E2 & W2 & H2 & HU).
  rewrite E2 in E. injection E as <- <-. eapply (HU _ (fresh_object a b)); [by apply put_self|done..|].
  by repeat constructor.
Qed.

Lemma obj_SetAbi_logged abi (s : SDB) (o : OBJ) : object_ok o → logged (obj_SetAbi abi) s o.
Proof. intros Ho. apply same_object_quiet; [done|]. intros r s1 o1 [= <- <- <-]. by split. Qed.

Lemma SetAbi_undoable s a abi r s1 : wf s → SetAbi a abi s = Ret (r, s1) → undoable s s1.
Proof.
  intros W. unfold SetAbi. case_decide; [intros [= <- <-]; by apply undoable_unchanged|].
  intros (o & s0 & E0 & E1)%GM_bind_Ret. destruct (GetOrNewStateObject_run _ _ _ _ W E0) as (U & Hl & Ha).
  case_decide; [by injection E1 as <- <-|]. eapply undoable_trans; [done|]. assert (W0 := ud_wf _ _ U).
  eapply on_object_logged; [done|by rewrite Ha| |done]. by eapply obj_SetAbi_logged, live_assets.
Qed.

(** Entries about the database itself. *)
Lemma entry_undoable s s1 e s' :
  wf s1 → s_validRevisions s1 = s_validRevisions s → s_nextRevisionId s1 = s_nextRevisionId s →
  s_journal s1 = s_journal s ++ [e] → entry_ok e → undo e s1 = Ret (tt, s') → s' ≈ s →
  undoable s s1.
Proof.
  intros W R N J Hok E Q. constructor; [done|done|]. exists [e], s'.
  split_and!; [done|by apply Forall_singleton| |done].
  by rewrite reverse_singleton, undo_all_cons, (GM_bind_run _ _ _ _ _ E).
Qed.

Lemma u64_succ_pred n : is_u64 n → u64 (u64 (n + 1) - 1) = n.
Proof.
  intros H. unfold u64, is_u64 in *. rewrite Zminus_mod_idemp_l.
  rewrite Z.add_simpl_r. apply Z.mod_small. lia.
Qed.

Lemma undo_log_run h (s : SDB) l x :
  default [] (s_logs s !! h) = l ++ [x] → ∃ m,
  undo (addLogChange h) s = Ret (tt, s <| s_logs := m |> <| s_logSize ::= λ n, u64 (n - 1) |>) ∧
  ∀ y, default [] (m !! y) = if decide (h = y) then l else default [] (s_logs s !! y).
Proof.
  intros Hl. eexists. split.
  - cbn [undo]. erewrite GM_bind_run by reflexivity. cbv zeta.
    rewrite Hl, length_app. rewrite (proj2 (Nat.eqb_neq _ 0)) by (simpl; lia). reflexivity.
  - intros y. rewrite <- length_app. rewrite undo_log_lookup by done.
    by rewrite length_app, Nat.add_sub, take_app_length.
Qed.

Lemma AddLog_undoable s l r s1 : wf s → AddLog l s = Ret (r, s1) → undoable s s1.
Proof.
  intros W [= <- <-]. edestruct (undo_log_run (s_thash s)) as (m & E & Hm); cycle 1.
  - eapply entry_undoable; [|reflexivity..|done|exact E|].
    + apply (wf_frame s); [done..|apply u64_range].
    + constructor; [|intros y; simpl s_logs; rewrite Hm|done].
      * unfold env_of; simpl. by rewrite u64_succ_pred by apply W.
      * simpl. case_decide; [by subst|]. by rewrite lookup_insert_ne.
  - simpl. by rewrite lookup_insert_eq.
Qed.

Lemma AddPreimage_undoable s h p r s1 : wf s → AddPreimage h p s = Ret (r, s1) → undoable s s1.
Proof.
  intros W. unfold AddPreimage. erewrite GM_bind_run by reflexivity.
  destruct (s_preimages s !! h) eqn:Hh; intros [= <- <-].
  { by apply undoable_unchanged. }
  eapply entry_undoable; [|reflexivity..|done|reflexivity|].
  - by apply (wf_frame s); try apply W.
  - constructor; [|done..]. unfold env_of; simpl. by rewrite delete_insert_eq, delete_id.
Qed.

Lemma AddRefund_undoable s g r s1 : wf s → AddRefund g s = Ret (r, s1) → undoable s s1.
Proof.
  intros W [= <- <-]. eapply entry_undoable; [|reflexivity..|done|reflexivity|].
  - by apply (wf_frame s); try apply W.
  - by constructor.
Qed.

Lemma GetCodeSize_undoable s a r s1 : wf s → GetCodeSize a s = Ret (r, s1) → undoable s s1.
Proof.
  intros W. unfold GetCodeSize. destruct (getStateObject_run s a) as (s0 & E0 & F).
  rewrite (GM_bind_run _ _ _ _ _ E0). pose proof (fetched_unchanged _ _ _ W F) as U.
  destruct (live s a) as [o|]; [|intros [= <- <-]; by apply undoable_unchanged].
  destruct (o_code o); [intros [= <- <-]; by apply undoable_unchanged|].
  destruct (db_ContractCodeSize _ _) as [z [err|]]; intros [= <- <-];
    (apply undoable_unchanged; [done|]); [|done].
  trans s0; [done|]. apply same_unchanged; by destruct (s_dbErr s0).
Qed.

(** ** Asset accounts *)

Lemma GetAssetInfo_undoable s a r s1 : wf s → GetAssetInfo a s = Ret (r, s1) → undoable s s1.
Proof.
  intros W (o & s0 & E0 & E1)%GM_bind_Ret.
  destruct (GetOrNewStateObject_run _ _ _ _ W E0) as (U & Hl & Ha).
  destruct (IsAssetAccount o); [|by injection E1 as <- <-].
  apply GM_bind_Ret in E1 as ([data err] & s2 & E2 & E3).
  assert (s2 = s1) as -> by (destruct err; [|destruct (rlp_DecodeAssetInfo _)]; by injection E3).
  eapply undoable_trans; [done|]. assert (W0 := ud_wf _ _ U).
  eapply on_object_logged; [done|by rewrite Ha| |done]. by eapply obj_AssetData_logged, live_assets.
Qed.

Lemma SetAssetData_fresh h data (s : SDB) a b :
  ∃ d o1, obj_SetAssetData h data (s, fresh_object a b) = Ret (None, (s <| s_stateObjectsDirty := d |>, o1)) ∧
    o_address o1 = a ∧ o_deleted o1 = false ∧ object_ok o1 ∧ d ⊆ {[a]} ∪ s_stateObjectsDirty s.
Proof.
  unfold obj_SetAssetData. erewrite GM_bind_run by reflexivity. cbn [fst snd].
  rewrite (proj2 (Nat.ltb_ge 0 _)) by (simpl; lia).
  destruct s, b; eexists _, _; (split; [reflexivity|]); (split_and!; [done..| |simpl; set_solver]); by repeat constructor.
Qed.

Lemma on_object_live {A} s o (m : OM A) r s1 :
  live s (o_address o) = Some o → logged m s o → on_object o m s = Ret (r, s1) →
  is_Some (live s1 (o_address o)).
Proof.
  intros Hl Hm. unfold on_object. destruct (m (s, o)) as [[x [s2 o1]]|w] eqn:E; [|done].
  intros [= <- <-]. destruct (Hm _ _ _ E) as (es & d & -> & _ & Ha & Hd & _).
  exists o1. unfold live; simpl. rewrite Ha, lookup_insert_eq, Hd.
  by rewrite (live_deleted _ _ _ Hl).
Qed.

Lemma live_stored s a o : s_stateObjects s !! a = Some o → is_Some (live s a) → live s a = Some o.
Proof. unfold live. intros ->. destruct (o_deleted o); [by intros []|done]. Qed.

Lemma createObject_live s a b s1 x prev :
  createObject a s = Ret ((fresh_object a b, prev), s1) → is_Some (live s x) → is_Some (live s1 x).
Proof.
  unfold createObject. destruct (getStateObject_run s a) as (s0 & E0 & F).
  rewrite (GM_bind_run _ _ _ _ _ E0). apply fetched_frame in F as (_ & _ & _ & Fx).
  destruct (set_self_mark (on_data (λ d, d <| a_Nonce := 0 |>)) s0 (newObject a Account0 true))
    as (d & b' & _ & E).
  unfold mbind at 1, GM_bind at 1. unfold obj_setNonce. unfold on_data in E. rewrite E.
  intros [= <- <- <-] Hx. unfold live; simpl. destruct (decide (x = a)) as [->|Hne].
  - by rewrite lookup_insert_eq.
  - rewrite lookup_insert_ne by done. change (is_Some (live s0 x)). by rewrite Fx.
Qed.

(** The new asset account of [PublishAsset]. *)
Lemma publish_account s id h data s1 :
  wf s → ((x ← createObject id; on_object x.1 (obj_SetAssetData h data)) : SM _) s = Ret (None, s1) →
  undoable s s1 ∧ ∀ a, is_Some (live s a) → is_Some (live s1 a).
Proof.
  intros W E. destruct (createObject_run s id W) as (s3 & b & E4 & W3 & H3 & HU).
  rewrite (GM_bind_run _ _ _ _ _ E4) in E. cbn [fst] in E.
  destruct (SetAssetData_fresh h data s3 id b) as (d & o1 & E5 & A1 & D1 & K1 & M1).
  rewrite <- A1 in M1 at 1. assert (P := on_object_put _ _ _ _ _ _ _ E5 M1 E). rewrite A1 in P.
  split; [by eapply HU|]. intros a Va.
  destruct (live_put _ _ _ _ a P D1) as [V5 V6]. destruct (decide (a = id)) as [Hid|Hid].
  - destruct (V5 Hid) as [? ->]. eauto.
  - rewrite (V6 Hid). by apply (createObject_live _ _ _ _ _ _ E4).
Qed.

Lemma publish_account_ok s id h data r s1 :
  ((x ← createObject id; on_object x.1 (obj_SetAssetData h data)) : SM _) s = Ret (r, s1) →
  wf s → r = None.
Proof.
  intros E W. destruct (createObject_run s id W) as (s3 & b & E4 & _).
  rewrite (GM_bind_run _ _ _ _ _ E4) in E. cbn [fst] in E.
  destruct (SetAssetData_fresh h data s3 id b) as (d & o1 & E5 & _).
  unfold on_object in E. rewrite E5 in E. by injection E.
Qed.

Lemma PublishAsset_undoable s a info r s1 :
  wf s → 0 ≤ default 0 (Supply info) → PublishAsset a info s = Ret (r, s1) → undoable s s1.
Proof.
  intros W Hs (o & s0 & E0 & E1)%GM_bind_Ret. cbv zeta in E1.
  destruct (GetOrNewStateObject_run _ _ _ _ W E0) as (U0 & Hl & Ha). assert (W0 := ud_wf _ _ U0).
  destruct (ValidateAsset _); [by injection E1 as <- <-|].
  apply GM_bind_Ret in E1 as ([] & s2 & E2 & E3). rewrite <- Ha in Hl.
  assert (L := obj_SetNonce_logged (u64 (a_Nonce (o_data o) + 1)) s0 o (live_assets _ _ _ W0 Hl)).
  assert (U2 := on_object_logged _ _ _ _ _ W0 Hl L E2). assert (W2 := ud_wf _ _ U2).
  assert (V2 := on_object_live _ _ _ _ _ Hl L E2).
  apply GM_bind_Ret in E3 as ([x p] & s3 & E4 & E5).
  set (id := CreateAddress a (a_Nonce (o_data o))) in *. destruct (rlp_EncodeAssetInfo _) as [data|err]; cycle 1.
  { injection E5 as <- <-. eapply undoable_trans; [by eapply undoable_trans|]. by eapply createObject_undoable. }
  apply GM_bind_Ret in E5 as (e & s4 & E5 & E6).
  assert (E : ((x ← createObject id; on_object x.1 (obj_SetAssetData (Keccak256Hash data) data)) : SM _)
              s2 = Ret (e, s4)) by (by rewrite (GM_bind_run _ _ _ _ _ E4)).
  rewrite (publish_account_ok _ _ _ _ _ _ E W2) in E.
  destruct (publish_account _ _ _ _ _ W2 E) as [U4 V4]. assert (W4 := ud_wf _ _ U4).
  erewrite GM_bind_run in E6 by reflexivity.
  destruct (s_stateObjects s4 !! a) as [o4|] eqn:H4; [|done].
  apply GM_bind_Ret in E6 as ([] & s5 & E7 & E8). injection E8 as <- <-.
  eapply undoable_trans; [eapply undoable_trans; [eapply undoable_trans; eassumption|eassumption]|].
  rewrite Ha in V2. assert (Hl4 := live_stored _ _ _ H4 (V4 _ V2)).
  eapply on_object_logged; [done| | |exact E7].
  - by rewrite (live_address _ _ _ W4 Hl4).
  - apply obj_AddAssetBalance_logged; [done|by eapply live_assets].
Qed.

(** ** Programs over the database *)

Inductive op : Type :=
| opCreateAccount (a : address)
| opAddBalance (a : address) (v : Z)
| opSubBalance (a : address) (v : Z)
| opSetBalance (a : address) (v : Z)
| opAddLockBalance (a : address) (v : Z)
| opSubLockBalance (a : address) (v : Z)
| opSetLockBalance (a : address) (v : Z)
| opAddAssetBalance (a asset : address) (v : Z)
| opSubAssetBalance (a asset : address) (v : Z)
| opPublishAsset (a : address) (info : AssetInfo)
| opSetVoteList (a : address) (l : VL)
| opSetNonce (a : address) (v : Z)
| opSetCode (a : address) (code : option bytes)
| opSetAbi (a : address) (abi : string)
| opSetState (a : address) (key value : hash)
| opSuicide (a : address)
| opAddLog (l : Log)
| opAddPreimage (h : hash) (p : bytes)
| opAddRefund (gas : Z)
| opExist (a : address)
| opEmpty (a : address)
| opGetBalance (a : address)
| opGetNonce (a : address)
| opGetCode (a : address)
| opGetCodeSize (a : address)
| opGetCodeHash (a : address)
| opGetAbi (a : address)
| opGetState (a : address) (key : hash)
| opGetAssetInfo (a : address)
| opSnapshot
| opRevert (id : Z).

Definition discard {A} (m : SM A) : SM unit := _ ← m; mret tt.

Definition exec (o : op) : SM unit :=
  match o with
  | opCreateAccount a => CreateAccount a
  | opAddBalance a v => AddBalance a v
  | opSubBalance a v => SubBalance a v
  | opSetBalance a v => SetBalance a v
  | opAddLockBalance a v => AddLockBalance a v
  | opSubLockBalance a v => SubLockBalance a v
  | opSetLockBalance a v => SetLockBalance a v
  | opAddAssetBalance a x v => AddAssetBalance a x v
  | opSubAssetBalance a x v => discard (SubAssetBalance a x v)
  | opPublishAsset a info => discard (PublishAsset a info)
  | opSetVoteList a l => SetVoteList a l
  | opSetNonce a v => SetNonce a v
  | opSetCode a c => SetCode a c
  | opSetAbi a abi => SetAbi a abi
  | opSetState a k v => SetState a k v
  | opSuicide a => discard (Suicide a)
  | opAddLog l => AddLog l
  | opAddPreimage h p => AddPreimage h p
  | opAddRefund g => AddRefund g
  | opExist a => discard (Exist a)
  | opEmpty a => discard (Empty a)
  | opGetBalance a => discard (GetBalance a)
  | opGetNonce a => discard (GetNonce a)
  | opGetCode a => discard (GetCode a)
  | opGetCodeSize a => discard (GetCodeSize a)
  | opGetCodeHash a => discard (GetCodeHash a)
  | opGetAbi a => discard (GetAbi a)
  | opGetState a k => discard (GetState a k)
  | opGetAssetInfo a => discard (GetAssetInfo a)
  | opSnapshot => discard Snapshot
  | opRevert id => RevertToSnapshot id true
  end.

Fixpoint run (ops : list op) : SM unit :=
  match ops with
  | [] => mret tt
  | o :: ops => exec o;; run ops
  end.

(** Amounts of assets are not negative.  Transferred amounts come from unsigned
    encodings; a published supply may be negative, see [AssetInfo]. *)
Definition amounts_ok (o : op) : Prop :=
  match o with
  | opAddAssetBalance _ _ v | opSubAssetBalance _ _ v => 0 ≤ v
  | opPublishAsset _ info => 0 ≤ default 0 (Supply info)
  | _ => True
  end.

Definition plain (o : op) : bool :=
  match o with opSnapshot | opRevert _ => false | _ => true end.

Lemma discard_Ret {A} (m : SM A) s s1 : discard m s = Ret (tt, s1) → ∃ r, m s = Ret (r, s1).
Proof. intros (r & s2 & E & [= <-])%GM_bind_Ret. eauto. Qed.

Lemma exec_undoable o s s1 :
  plain o = true → amounts_ok o → wf s → exec o s = Ret (tt, s1) → undoable s s1.
Proof.
  intros Hp Hok W E. destruct o; try discriminate Hp; cbn [exec] in E;
    try (apply discard_Ret in E as [r E]);
    first
    [ eapply write_object_undoable; [|exact W|exact E]; intros
    | by eapply read_object_undoable
    | eapply cached_read_undoable; [|exact W|exact E]; intros
    | idtac ].
  all: eauto using CreateAccount_undoable, PublishAsset_undoable, Suicide_undoable,
    AddLog_undoable, AddPreimage_undoable, AddRefund_undoable, GetCodeSize_undoable,
    GetAssetInfo_undoable, SetAbi_undoable with statedb.
Qed.

(** ** The invariant *)

(** Revision ids grow and stay below the next id; journal indices grow and stay
    within the journal. *)
Record revs_ok (s : SDB) : Prop := mkRevsOk {
  ro_ids : StronglySorted (λ r r', rev_id r < rev_id r') (s_validRevisions s);
  ro_next : Forall (λ r, rev_id r < s_nextRevisionId s) (s_validRevisions s);
  ro_index : StronglySorted (λ r r', rev_journalIndex r ≤ rev_journalIndex r')%nat
               (s_validRevisions s);
  ro_journal : Forall (λ r, (rev_journalIndex r ≤ length (s_journal s))%nat) (s_validRevisions s)
}.

Record Inv (s : SDB) : Prop := mkInv {
  inv_wf : wf s;
  inv_revs : revs_ok s;
  inv_entries : Forall entry_ok (s_journal s)
}.

Lemma undoable_Inv s s1 : Inv s → undoable s s1 → Inv s1.
Proof.
  intros [W [R1 R2 R3 R4] F] [W1 [Hr Hn] (es & s' & J & Fe & _)].
  constructor; [done| |by rewrite J; apply Forall_app].
  constructor; rewrite ?Hr, ?Hn; try done. eapply Forall_impl; [done|].
  intros r. simpl. rewrite J, length_app. lia.
Qed.

Lemma StronglySorted_snoc {A} (R : A → A → Prop) l x :
  StronglySorted R l → Forall (λ y, R y x) l → StronglySorted R (l ++ [x]).
Proof.
  induction 1 as [|y l Hl IH Hy]; intros Hf; simpl; [by repeat constructor|].
  inversion Hf; subst. constructor; [auto|]. apply Forall_app. by split; [|repeat constructor].
Qed.

Lemma Snapshot_run (s : SDB) :
  Snapshot s = Ret (s_nextRevisionId s,
    s <| s_nextRevisionId ::= λ n, n + 1 |>
      <| s_validRevisions ::= λ l, l ++ [mkRevision (s_nextRevisionId s) (length (s_journal s))] |>).
Proof. done. Qed.

Lemma Snapshot_Inv s id s1 : Inv s → Snapshot s = Ret (id, s1) → Inv s1.
Proof.
  rewrite Snapshot_run. intros [W [R1 R2 R3 R4] F] [= <- <-].
  constructor; [|constructor; simpl|done].
  - by apply (wf_frame s); try apply W.
  - by apply StronglySorted_snoc.
  - apply Forall_app. split; [|apply Forall_singleton; simpl; lia].
    eapply Forall_impl; [exact R2|]. intros r. simpl. lia.
  - by apply StronglySorted_snoc.
  - apply Forall_app. split; [done|]. by repeat constructor.
Qed.

(** The predicate [RevertToSnapshot] searches with is monotone. *)
Lemma revision_mono (revs : list revision) id a b :
  StronglySorted (λ r r', rev_id r < rev_id r') revs → (a ≤ b < length revs)%nat →
  (id <=? rev_id (revs !!! a)) = true → (id <=? rev_id (revs !!! b)) = true.
Proof.
  intros Hs. revert a b. induction Hs as [|r revs Hs IH Hr]; intros a b [Hab Hb]; simpl in Hb; [lia|].
  destruct b as [|b]; [by replace a with 0%nat by lia|]. destruct a as [|a]; [|apply IH; lia].
  simpl. rewrite !Z.leb_le. rewrite Forall_forall in Hr.
  specialize (Hr (revs !!! b)). rewrite list_elem_of_lookup in Hr.
  assert (rev_id r < rev_id (revs !!! b)); [|lia]. apply Hr. exists b.
  apply list_lookup_lookup_total_lt. lia.
Qed.

(** The binary search of [RevertToSnapshot] finds the revision. *)
Lemma revision_search (l rs : list revision) r :
  StronglySorted (λ r r', rev_id r < rev_id r') (l ++ r :: rs) →
  search (length (l ++ r :: rs)) (λ i, rev_id r <=? rev_id ((l ++ r :: rs) !!! i)) = length l.
Proof.
  intros Hs. apply search_unique.
  - intros a b. by apply revision_mono.
  - rewrite length_app. lia.
  - intros k Hk. apply Z.leb_gt. rewrite lookup_total_app_l by done.
    apply StronglySorted_app in Hs as (Hlr & _).
    apply Hlr; [by apply list_elem_of_lookup_total_2|]. apply list_elem_of_here.
  - intros _. apply Z.leb_le. by rewrite list_lookup_total_middle.
Qed.

Definition truncate (idx snapshot : nat) (s : SDB) : SDB :=
  s <| s_journal ::= take snapshot |> <| s_validRevisions ::= take idx |>.

Lemma revert_found s l r rs fork :
  revs_ok s → s_validRevisions s = l ++ r :: rs →
  RevertToSnapshot (rev_id r) fork s =
  (undo_all fork (reverse (drop (rev_journalIndex r) (s_journal s)));;
   gmodify (truncate (length l) (rev_journalIndex r))) s.
Proof.
  intros [Hs _ _ _] E. unfold RevertToSnapshot. erewrite GM_bind_run by reflexivity. cbv zeta.
  rewrite E in *. rewrite revision_search by done.
  rewrite (proj2 (Nat.eqb_neq _ _)) by (rewrite length_app; simpl; lia).
  rewrite list_lookup_total_middle by done. by rewrite Z.eqb_refl.
Qed.

Lemma revert_valid s id s1 fork :
  revs_ok s → RevertToSnapshot id fork s = Ret (tt, s1) →
  ∃ l r rs, s_validRevisions s = l ++ r :: rs ∧ rev_id r = id.
Proof.
  intros [Hs _ _ _] E. unfold RevertToSnapshot in E.
  erewrite GM_bind_run in E by reflexivity. cbv zeta in E.
  set (revs := s_validRevisions s) in *.
  pose proof (search_spec (λ i, id <=? rev_id (revs !!! i)) (length revs)) as (Hle & _).
  { intros a b. by apply revision_mono. }
  set (idx := search _ _) in *.
  destruct (_ || _) eqn:Ho in E; [done|]. apply orb_false_iff in Ho as [H1%Nat.eqb_neq H2].
  apply negb_false_iff, Z.eqb_eq in H2.
  exists (take idx revs), (revs !!! idx), (drop (S idx) revs). split; [|done].
  symmetry. apply take_drop_middle, list_lookup_lookup_total_lt. lia.
Qed.

Lemma truncate_unchanged idx n s : wf s → truncate idx n s ≈ s ∧ wf (truncate idx n s).
Proof. intros W. split; [by constructor|]. by apply (wf_frame s); try apply W. Qed.

(** Before the fork the entries of assets are skipped. *)
Definition undone (fork : bool) (es : list ENTRY) : list ENTRY := if fork then es else filter (λ e, is_asset_entry e = false) es.

Lemma undo_all_undone fork (es : list ENTRY) (s : SDB) : undo_all fork es s = undo_all true (undone fork es) s.
Proof.
  destruct fork; [done|]. unfold undone. revert s. induction es as [|e es IH]; intros s; [done|].
  rewrite filter_cons. cbn [undo_all negb andb]. destruct (is_asset_entry e) eqn:Ee.
  - rewrite decide_False by done. rewrite (GM_bind_run _ _ s tt s) by done. apply IH.
  - rewrite decide_True by done. cbn [undo_all negb andb]. unfold mbind, GM_bind. destruct (undo e s) as [[[] s1]|]; [apply IH|done].
Qed.

Lemma revert_Inv s id s1 fork : Inv s → RevertToSnapshot id fork s = Ret (tt, s1) → Inv s1.
Proof.
  intros [W R F] E. destruct (revert_valid _ _ _ _ R E) as (l & r & rs & Hr & <-).
  rewrite (revert_found _ _ _ _ _ R Hr) in E. set (n := rev_journalIndex r) in *.
  apply GM_bind_Ret in E as ([] & s2 & E2 & [= <-]). rewrite undo_all_undone in E2.
  assert (Fd : Forall entry_ok (undone fork (reverse (drop n (s_journal s))))).
  { assert (Fr : Forall entry_ok (reverse (drop n (s_journal s)))) by (by apply Forall_reverse, Forall_drop).
    unfold undone. destruct fork; [done|]. apply Forall_forall. intros e [_ He]%list_elem_of_filter. by eapply Forall_forall in He. }
  destruct (undo_all_respects _ s s s2 Fd W W (reflexivity s) E2)
    as (? & _ & _ & W2 & _ & (Hj & Hv & Hn)%book_of_eq & _).
  destruct R as [R1 R2 R3 R4]. rewrite Hr in R1, R2, R3, R4.
  constructor; [by apply truncate_unchanged| |].
  - constructor; unfold truncate; simpl; rewrite ?Hv, ?Hr, ?Hn, ?take_app_length.
    + by eapply StronglySorted_app_1_l.
    + by apply Forall_app in R2 as [? _].
    + by eapply StronglySorted_app_1_l.
    + rewrite Hj, length_take. apply Forall_forall. intros y Hy.
      assert (rev_journalIndex y ≤ n)%nat.
      { eapply (StronglySorted_app_1_elem_of _ _ _ y r R3); [done|]. apply list_elem_of_here. }
      rewrite Forall_forall in R4. specialize (R4 y). rewrite elem_of_app in R4.
      specialize (R4 (or_introl Hy)). lia.
  - unfold truncate; simpl. rewrite Hj. by apply Forall_take.
Qed.

(** Undoing and doing leave the account trie alone. *)
Definition keeps_trie {A} (m : OM A) : Prop := ∀ so r so', m so = Ret (r, so') → s_trie so'.1 = s_trie so.1.

Lemma keeps_bind {A B} (m : OM A) (k : A → OM B) : keeps_trie m → (∀ x, keeps_trie (k x)) → keeps_trie (m ≫= k).
Proof. intros Hm Hk so r so' (x & so1 & E1 & E2)%GM_bind_Ret. rewrite (Hk _ _ _ _ E2). by eapply Hm. Qed.

Lemma keeps_self : keeps_trie (self (AT := AT)).
Proof. by intros so r so' [= <- <-]. Qed.

Lemma keeps_set_self f : keeps_trie (set_self (AT := AT) f).
Proof. by intros so r so' [= <- <-]. Qed.

Lemma keeps_mark : keeps_trie tryMarkDirty.
Proof.
  apply keeps_bind; [apply keeps_self|]. intros o. destruct (o_onDirty o); [|by intros so r so' [= <- <-]].
  apply keeps_bind; [by intros so r so' [= <- <-]|]. intros []. apply keeps_set_self.
Qed.

#[local] Hint Resolve keeps_bind keeps_self keeps_set_self keeps_mark : statedb.

Lemma keeps_revert_asset asset add : keeps_trie (revertAssetBalance asset add).
Proof.
  apply keeps_bind; [apply keeps_self|]. intros o. apply keeps_bind; [|intros []; apply keeps_mark].
  destruct add; apply keeps_set_self.
Qed.

Lemma undo_object_trie a (m : OM unit) s r s1 :
  keeps_trie m → undo_object a m s = Ret (r, s1) → s_trie s1 = s_trie s.
Proof.
  intros Hm. unfold undo_object. destruct (getStateObject_run s a) as (s0 & E0 & F). rewrite (GM_bind_run _ _ _ _ _ E0).
  apply fetched_frame in F as (F%env_of_trie & _). destruct (live s a) as [o|]; [|done]. unfold on_object.
  destruct (m (s0, o)) as [[x [s2 o2]]|] eqn:E; [|done]. intros [= <- <-]. apply Hm in E. simpl in *. congruence.
Qed.

Lemma undo_trie e s s1 : undo e s = Ret (tt, s1) → s_trie s1 = s_trie s.
Proof.
  destruct e; cbn [undo]; try (by intros [= <-]);
    try (apply undo_object_trie; unfold obj_setBalance, obj_setLockBalance, obj_setVoteList, obj_setNonce, obj_setState, obj_setCode;
         eauto using keeps_revert_asset with statedb).
  - destruct (getStateObject_run s account) as (s0 & E0 & F). rewrite (GM_bind_run _ _ _ _ _ E0). pose proof F as F'.
    apply fetched_frame in F' as (F'%env_of_trie & _). destruct (live s account) as [o|] eqn:Hl; [|intros [= <-]; congruence].
    set (m := (set_self _;; obj_setBalance _) : OM unit).
    assert (K : keeps_trie m) by (unfold m, obj_setBalance; eauto with statedb).
    unfold on_object. destruct (m (s0, o)) as [[[] [s2 o2]]|] eqn:E; [|done]. intros [= <-]. apply K in E. simpl in *. congruence.
  - erewrite GM_bind_run by reflexivity. cbv zeta. destruct (_ =? 0)%nat; [done|]. by intros [= <-].
  - destruct (_ && _); [|by intros [= <-]]. intros ([] & s2 & E1 & E2)%GM_bind_Ret. apply undo_object_trie in E1; [|apply keeps_set_self].
    destruct (negb prevDirty); injection E2 as <-; done.
Qed.

Lemma undo_all_trie es s s1 : undo_all true es s = Ret (tt, s1) → s_trie s1 = s_trie s.
Proof.
  revert s. induction es as [|e es IH]; intros s; [by intros [= <-]|]. cbn [undo_all negb andb].
  intros ([] & s2 & E1 & E2)%GM_bind_Ret. rewrite (IH _ E2). by apply undo_trie in E1.
Qed.

Lemma undoable_trie s s1 : undoable s s1 → s_trie s1 = s_trie s.
Proof.
  intros [_ _ (es & s' & _ & _ & E & Q)]. apply undo_all_trie in E. rewrite <- E. symmetry. apply env_of_trie.
  symmetry. apply Q.
Qed.

Lemma revert_trie id fork s s1 : revs_ok s → RevertToSnapshot id fork s = Ret (tt, s1) → s_trie s1 = s_trie s.
Proof.
  intros R E. destruct (revert_valid _ _ _ _ R E) as (l & r & rs & Hr & <-). rewrite (revert_found _ _ _ _ _ R Hr) in E.
  apply GM_bind_Ret in E as ([] & s2 & E2 & [= <-]). rewrite undo_all_undone in E2. by apply undo_all_trie in E2.
Qed.

Lemma exec_trie o s s1 : amounts_ok o → Inv s → exec o s = Ret (tt, s1) → s_trie s1 = s_trie s.
Proof.
  intros Ha I E. destruct (plain o) eqn:Hp.
  - apply undoable_trie. eapply exec_undoable; eauto. apply I.
  - destruct o; try discriminate Hp.
    + apply discard_Ret in E as [r E]. rewrite Snapshot_run in E. by injection E as _ <-.
    + eapply revert_trie; [apply I|done].
Qed.

Lemma exec_Inv o s s1 : amounts_ok o → Inv s → exec o s = Ret (tt, s1) → Inv s1.
Proof.
  intros Ha I E. destruct (plain o) eqn:Hp.
  - eapply undoable_Inv; [done|]. eapply exec_undoable; eauto. apply I.
  - destruct o; try discriminate Hp.
    + apply discard_Ret in E as [r E]. by eapply Snapshot_Inv.
    + by eapply revert_Inv.
Qed.

(** ** Reverting to a snapshot *)

(** After a snapshot of [s0] with id [id] was taken and later operations ran: the
    snapshot is still listed below the later ones, and the journal leads back. *)
Record since (s0 : SDB) (id : Z) (s : SDB) : Prop := mkSince {
  sn_Inv : Inv s;
  sn_revs : ∃ rs, s_validRevisions s =
      s_validRevisions s0 ++ mkRevision id (length (s_journal s0)) :: rs;
  sn_back : leads_back s0 s
}.

Lemma since_Snapshot s0 id s1 : Inv s0 → Snapshot s0 = Ret (id, s1) → since s0 id s1.
Proof.
  intros I E. assert (I1 := Snapshot_Inv _ _ _ I E). rewrite Snapshot_run in E. injection E as <- <-.
  constructor; [done|by exists []|]. eexists [], _. rewrite app_nil_r. by split_and!.
Qed.

Lemma since_plain s0 id s s1 : since s0 id s → undoable s s1 → since s0 id s1.
Proof.
  intros [I (rs & Hr) B] U. pose proof (undoable_Inv _ _ I U). destruct U as [W1 [Hv _] L].
  constructor; [done|exists rs; congruence|]. eapply leads_back_trans; [apply I|done..].
Qed.

Lemma Snapshot_frame (s s1 : SDB) r :
  Snapshot s = Ret (r, s1) → s1 ≈ s ∧ s_journal s1 = s_journal s ∧
  ∃ x, s_validRevisions s1 = s_validRevisions s ++ [x].
Proof. rewrite Snapshot_run. intros [= <- <-]. split_and!; [by constructor|done|by eexists]. Qed.

Lemma since_nested s0 id s s1 r :
  since s0 id s → Snapshot s = Ret (r, s1) → since s0 id s1.
Proof.
  intros [I (rs & Hr) (es & s' & J & F & U & Q)] E. assert (I1 := Snapshot_Inv _ _ _ I E).
  destruct (Snapshot_frame _ _ _ E) as (Q1 & J1 & x & Hx). constructor; [done| |].
  - rewrite Hx, Hr, <- (assoc_L (++)). simpl. by eexists.
  - assert (Fr : Forall entry_ok (reverse es)) by (by apply Forall_reverse).
    destruct (undo_all_respects _ s s1 s' Fr) as (s2 & E2 & Q2 & _);
      [apply I|apply I1|by symmetry|done|].
    exists es, s2. split_and!; [congruence|done..|]. by rewrite <- Q2.
Qed.

(** A later revision is listed after an earlier one. *)
Lemma revision_after (l l' rs rs' : list revision) r r' :
  l ++ r :: rs = l' ++ r' :: rs' →
  StronglySorted (λ r r', rev_id r < rev_id r') (l ++ r :: rs) → rev_id r < rev_id r' →
  ∃ k, l' = l ++ r :: k ∧ r' ∈ rs.
Proof.
  intros E Hs Hlt. apply StronglySorted_app in Hs as (Hlr & _ & Hr).
  apply app_eq_app in E as (k & [[-> E]|[-> E]]).
  - destruct k as [|x k]; simplify_eq/=; [lia|].
    assert (x ∈ l' ++ x :: k) as Hx by (apply elem_of_app; right; apply list_elem_of_here).
    specialize (Hlr x r Hx (list_elem_of_here _ _)). lia.
  - destruct k as [|x k]; simplify_eq/=; [lia|]. exists k. split; [done|].
    apply elem_of_app. right. apply list_elem_of_here.
Qed.

Lemma since_revert s0 id id' s s1 :
  since s0 id s → id < id' → RevertToSnapshot id' true s = Ret (tt, s1) → since s0 id s1.
Proof.
  intros [I (rs & Hr) (es & s' & J & F & U & Q)] Hid E. assert (I1 := revert_Inv _ _ _ _ I E).
  pose proof I as [W R Fe]. destruct (revert_valid _ _ _ _ R E) as (l & r & rs' & Hr' & <-).
  rewrite (revert_found _ _ _ _ _ R Hr') in E. apply GM_bind_Ret in E as ([] & s2 & E2 & [= <-]).
  pose proof R as [R1 _ R3 _]. rewrite Hr in R1, R3. rewrite Hr in Hr'.
  destruct (revision_after _ _ _ _ _ _ Hr' R1 Hid) as (k & -> & Hk).
  apply StronglySorted_app_1_r, StronglySorted_cons in R3 as [R3 _].
  rewrite Forall_forall in R3. specialize (R3 r Hk). simpl in R3.
  rewrite J, drop_app_ge in E2 by done. set (n := (rev_journalIndex r - _)%nat) in *.
  rewrite <- (take_drop n es), reverse_app, undo_all_app in U.
  rewrite (GM_bind_run _ _ _ _ _ E2) in U.
  assert (Fd : Forall entry_ok (reverse (drop n es))) by (by apply Forall_reverse, Forall_drop).
  assert (Ft : Forall entry_ok (reverse (take n es))) by (by apply Forall_reverse, Forall_take).
  destruct (undo_all_respects _ s s s2 Fd W W (reflexivity s) E2)
    as (_ & _ & _ & W2 & _ & (Hj & Hv & Hn)%book_of_eq & _).
  set (m := (length (_ ++ _ :: k))) in *.
  destruct (truncate_unchanged m (rev_journalIndex r) s2 W2) as [Qt Wt].
  destruct (undo_all_respects _ s2 (truncate m (rev_journalIndex r) s2) s' Ft)
    as (s3 & E3 & Q3 & _); [done|done|by symmetry|done|].
  constructor; [done| |].
  - exists k. unfold truncate, m; simpl s_validRevisions. rewrite Hv, Hr, Hr'. by rewrite take_app_length.
  - exists (take n es), s3. split_and!; [| |done|by rewrite <- Q3].
    + unfold truncate; simpl. by rewrite Hj, J, take_app_ge.
    + by apply Forall_take.
Qed.

Definition above (id : Z) (o : op) : Prop :=
  match o with opRevert id' => id < id' | _ => True end.

Lemma since_exec s0 id o s s1 :
  amounts_ok o → above id o → since s0 id s → exec o s = Ret (tt, s1) → since s0 id s1.
Proof.
  intros Ha Hi S E. destruct (plain o) eqn:Hp.
  - eapply since_plain; [done|]. eapply exec_undoable; eauto. apply S.
  - destruct o; try discriminate Hp.
    + apply discard_Ret in E as [r E]. by eapply since_nested.
    + by eapply since_revert.
Qed.

Lemma since_run s0 id ops s s1 :
  Forall amounts_ok ops → Forall (above id) ops → since s0 id s → run ops s = Ret (tt, s1) →
  since s0 id s1.
Proof.
  intros Ha. revert s. induction Ha as [|o ops Ho Ha IH]; intros s Hi S E.
  - by injection E as <-.
  - inversion Hi; subst. apply GM_bind_Ret in E as ([] & s2 & E1 & E2).
    eapply IH; [done| |done]. by eapply since_exec.
Qed.

(** Reverting to the snapshot restores the answers and the journal. *)
Lemma since_restore s0 id s :
  since s0 id s → ∃ s1, RevertToSnapshot id true s = Ret (tt, s1) ∧ s1 ≈ s0 ∧
    s_journal s1 = s_journal s0 ∧ s_validRevisions s1 = s_validRevisions s0.
Proof.
  intros [[W R Fe] (rs & Hr) (es & s' & J & F & U & Q)].
  pose proof (revert_found s _ _ _ true R Hr) as E. simpl rev_id in E. simpl rev_journalIndex in E.
  rewrite J, drop_app_length in E. rewrite (GM_bind_run _ _ _ _ _ U) in E.
  assert (Fr : Forall entry_ok (reverse es)) by (by apply Forall_reverse).
  destruct (undo_all_respects _ s s s' Fr W W (reflexivity s) U)
    as (_ & _ & _ & W' & _ & (Hj & Hv & _)%book_of_eq & _).
  eexists. split; [exact E|]. unfold truncate; simpl. split_and!.
  - etrans; [|exact Q]. by constructor.
  - by rewrite Hj, J, take_app_length.
  - by rewrite Hv, Hr, take_app_length.
Qed.

(** ** Answers of the getters *)

Definition answer {A} (m : SM A) (s : SDB) : option A :=
  match m s with Ret (x, _) => Some x | Panic _ => None end.

Lemma answer_bind {A B} (m : SM A) (k : A → SM B) s x s1 :
  m s = Ret (x, s1) → answer (m ≫= k) s = answer (k x) s1.
Proof. intros E. unfold answer. by rewrite (GM_bind_run _ _ _ _ _ E). Qed.

Lemma answer_read {A} s a d (f : OBJ → A) :
  answer (read_object d f a) s = Some (match live s a with Some o => f o | None => d end).
Proof.
  unfold read_object. destruct (getStateObject_run s a) as (s0 & E0 & _).
  by rewrite (answer_bind _ _ _ _ _ E0).
Qed.

Lemma getTrie_panics (s : SDB) o w :
  getTrie (s, o) = Panic w → trie_of (o_address o) (a_Root (o_data o)) (o_trie o) = None.
Proof.
  unfold getTrie, trie_of. erewrite GM_bind_run by reflexivity. cbn [fst snd]. fold (addrHash o).
  destruct (o_trie o); [done|]. destruct (db_OpenStorageTrie _ (a_Root _)); [done|].
  destruct (db_OpenStorageTrie _ hash0) as [t|]; [|done].
  erewrite GM_bind_run by reflexivity. cbn [fst snd].
  destruct (obj_setError_run (Some (String.append "can't create storage trie: " g)) s
              (o <| o_trie := Some t |>)) as [e E].
  by rewrite (GM_bind_run _ _ _ _ _ E).
Qed.

Lemma obj_GetState_panics key (s : SDB) o w :
  obj_GetState key (s, o) = Panic w → storage_view o key = None.
Proof.
  unfold obj_GetState, storage_view, storage_of. erewrite GM_bind_run by reflexivity. cbn [fst snd].
  destruct (o_cachedStorage o !! key); [done|].
  destruct (getTrie (s, o)) as [[t [s1 o1]]|w'] eqn:Et.
  - rewrite (GM_bind_run _ _ _ _ _ Et). destruct (TryGet t key) as [enc [err|]].
    + destruct (obj_setError_run (Some err) s1 o1) as [e E]. by rewrite (GM_bind_run _ _ _ _ _ E).
    + fold (read_value (ENV := ENV) enc). destruct (read_value_run enc s1 o1) as [e E].
      rewrite (GM_bind_run _ _ _ _ _ E). by destruct (decide (_ = hash0)).
  - intros _. by rewrite (getTrie_panics _ _ _ Et).
Qed.

Lemma answer_on_object {A} s o (m : OM A) (v : option A) :
  (∀ r s1 o1, m (s, o) = Ret (r, (s1, o1)) → v = Some r) → (∀ w, m (s, o) = Panic w → v = None) →
  answer (on_object o m) s = v.
Proof.
  intros H1 H2. unfold answer, on_object. destruct (m (s, o)) as [[r [s1 o1]]|w] eqn:E.
  - symmetry. by eapply H1.
  - symmetry. by eapply H2.
Qed.

Lemma answer_GetState s a key :
  answer (GetState a key) s =
  match live s a with Some o => storage_view o key | None => Some hash0 end.
Proof.
  unfold GetState. destruct (getStateObject_run s a) as (s0 & E0 & _).
  rewrite (answer_bind _ _ _ _ _ E0). destruct (live s a) as [o|]; [|done].
  apply answer_on_object.
  - by intros r s1 o1 (_ & _ & ->)%obj_GetState_run.
  - apply obj_GetState_panics.
Qed.

Lemma answer_GetCode s a :
  answer (GetCode a) s = Some (match live s a with Some o => code_view o | None => None end).
Proof.
  unfold GetCode. destruct (getStateObject_run s a) as (s0 & E0 & _).
  rewrite (answer_bind _ _ _ _ _ E0). destruct (live s a) as [o|]; [|done].
  apply answer_on_object.
  - by intros r s1 o1 (_ & _ & ->)%obj_Code_run.
  - intros w. unfold obj_Code. erewrite GM_bind_run by reflexivity. cbn [fst snd].
    destruct (o_code o); [done|]. case_decide; [done|]. destruct (db_ContractCode _ _) as [c [err|]]; [|done].
    destruct (obj_setError_run (Some (String.append "can't load code hash: " err)) s0 o) as [e E].
    by rewrite (GM_bind_run _ _ _ _ _ E).
Qed.

(** What [core/state/database.go] promises of its reads: a read that fails returns
    nothing, and the size of a code is its length, cached or not. *)
Class ReadLaws : Prop := {
  code_missing ah h c err : db_ContractCode ah h = (c, Some err) → c = None;
  code_size ah h c : db_ContractCode ah h = (Some c, None) → (db_ContractCodeSize ah h).1 = Z.of_nat (length c);
  asset_missing ah h d err : db_AssetData ah h = (d, Some err) → d = None
}.

Definition size_view (o : OBJ) : Z :=
  match o_code o with
  | Some c => Z.of_nat (length c)
  | None => (db_ContractCodeSize (addrHash o) (a_CodeHash (o_data o))).1
  end.

Lemma answer_GetCodeSize s a :
  answer (GetCodeSize a) s = Some (match live s a with Some o => size_view o | None => 0 end).
Proof.
  unfold GetCodeSize, size_view. destruct (getStateObject_run s a) as (s0 & E0 & _).
  rewrite (answer_bind _ _ _ _ _ E0). destruct (live s a) as [o|]; [|done]. destruct (o_code o); [done|].
  by destruct (db_ContractCodeSize _ _) as [z [err|]].
Qed.

Lemma read_code `{!ReadLaws} ah h c : (db_ContractCode ah h).1 = Some c → (db_ContractCodeSize ah h).1 = Z.of_nat (length c).
Proof.
  destruct (db_ContractCode ah h) as [c' [err|]] eqn:E; simpl; intros ->; [by apply code_missing in E|by apply code_size].
Qed.

Lemma size_view_equiv `{!ReadLaws} o o' : obj_equiv o o' → size_view o = size_view o'.
Proof.
  intros [Hc _ _]. unfold core_of in Hc. injection Hc as Ea _ _ _ Eh _ _ _ Ec _ _.
  unfold size_view, code_view, code_of, addrHash in *. rewrite Ea, Eh in *.
  destruct (o_code o) as [c|], (o_code o') as [c'|]; [by simplify_eq|..|done].
  - case_decide; [done|]. symmetry. by apply read_code.
  - case_decide; [done|]. by apply read_code.
Qed.

Definition read_asset (o : OBJ) : option bytes * option gerror :=
  match o_assetData o with
  | Some d => (Some d, None)
  | None => db_AssetData (addrHash o) (default hash0 (a_AssetHash (o_data o)))
  end.

Lemma obj_AssetData_reads (s : SDB) o :
  IsAssetAccount o = true → ∃ s1, on_object o obj_AssetData s = Ret (read_asset o, s1).
Proof.
  intros Hi. unfold on_object, obj_AssetData, read_asset. rewrite (GM_bind_run _ _ (s, o) o (s, o)) by done.
  destruct (o_assetData o); [by eexists|]. rewrite Hi. cbn [negb]. destruct (db_AssetData _ _). by eexists.
Qed.

Definition info_view (o : OBJ) : option AssetInfo * option gerror :=
  if IsAssetAccount o then
    let '(data, err) := read_asset o in
    match err with
    | None => let '(ai, err) := rlp_DecodeAssetInfo (default [] data) in (Some ai, err)
    | Some e => (None, Some e)
    end
  else (None, Some "not an asset account"%string).

Lemma answer_info s o :
  answer ((if IsAssetAccount o then
    '(data, err) ← on_object o obj_AssetData;
    match err with
    | None => let '(ai, err) := rlp_DecodeAssetInfo (default [] data) in mret (Some ai, err)
    | Some e => mret (None, Some e)
    end
  else mret (None, Some "not an asset account"%string)) : SM _) s = Some (info_view o).
Proof.
  unfold info_view. destruct (IsAssetAccount o) eqn:Ei; [|done]. destruct (obj_AssetData_reads s o Ei) as [s1 E].
  rewrite (answer_bind _ _ _ _ _ E). destruct (read_asset o) as [d [err|]]; [done|]. by destruct (rlp_DecodeAssetInfo _).
Qed.

Lemma answer_GetAssetInfo s a :
  wf s → answer (GetAssetInfo a) s =
  Some (match live s a with Some o => info_view o | None => (None, Some "not an asset account"%string) end).
Proof.
  intros W. unfold GetAssetInfo, GetOrNewStateObject. destruct (getStateObject_run s a) as (s0 & E0 & F).
  pose proof (fetched_unchanged _ _ _ W F) as [_ _ W0]. unfold answer, mbind, GM_bind. rewrite E0.
  destruct (live s a) as [o|] eqn:Hl.
  - rewrite (live_deleted _ _ _ Hl). exact (answer_info s0 o).
  - destruct (createObject_run s0 a (W0 W)) as (s1 & b & E1 & _). rewrite E1. exact (answer_info s1 (fresh_object a b)).
Qed.

Lemma info_view_equiv `{!ReadLaws} o o' : obj_equiv o o' → info_view o = info_view o'.
Proof.
  intros [Hc _ _]. unfold core_of in Hc. injection Hc as Ea _ _ _ _ _ _ Eh _ Ed _.
  unfold info_view, read_asset, IsAssetAccount, assetData_view, assetData_of, addrHash in *. rewrite Ea, Eh in *.
  destruct (a_AssetHash (o_data o')) as [h|]; [|done]. destruct (bool_decide_reflect (h = emptyCodeHash)); [done|]. simpl.
  rewrite !decide_False in Ed by done.
  destruct (o_assetData o) as [d|], (o_assetData o') as [d'|]; [by simplify_eq|..|done].
  - destruct (db_AssetData _ h) as [x [err|]] eqn:E; [by apply asset_missing in E; subst x|]. by simplify_eq/=.
  - destruct (db_AssetData _ h) as [x [err|]] eqn:E; [by apply asset_missing in E; subst x|]. by simplify_eq/=.
Qed.

(** The getters as queries.  [qAssets] is about the assets an account has something of:
    [GetAssets] also lists entries of balance zero, see [Assets]. *)
Inductive query : Type :=
| qExist (a : address)
| qBalance (a : address)
| qLockBalance (a : address)
| qAssetBalance (a asset : address)
| qVoteList (a : address)
| qNonce (a : address)
| qCodeHash (a : address)
| qCode (a : address)
| qState (a : address) (key : hash)
| qSuicided (a : address)
| qAssets (a : address)
| qCodeSize (a : address)
| qAssetInfo (a : address)
| qPreimages
| qLogs (h : hash)
| qRefund.

Definition query_type (q : query) : Type :=
  match q with
  | qExist _ | qSuicided _ => bool
  | qBalance _ | qAssetBalance _ _ | qNonce _ | qCodeSize _ | qRefund => Z
  | qLockBalance _ => option Z
  | qVoteList _ => VL
  | qCodeHash _ | qState _ _ => hash
  | qCode _ => option bytes
  | qAssets _ => list Asset
  | qAssetInfo _ => option AssetInfo * option gerror
  | qPreimages => gmap hash bytes
  | qLogs _ => list Log
  end.

Definition ask (q : query) : SM (query_type q) :=
  match q with
  | qExist a => Exist a
  | qBalance a => GetBalance a
  | qLockBalance a => GetLockBalance a
  | qAssetBalance a x => GetAssetBalance a x
  | qVoteList a => GetVoteList a
  | qNonce a => GetNonce a
  | qCodeHash a => GetCodeHash a
  | qCode a => GetCode a
  | qState a k => GetState a k
  | qSuicided a => HasSuicided a
  | qAssets a => l ← sdb_GetAssets a; mret (held (default [] l))
  | qCodeSize a => GetCodeSize a
  | qAssetInfo a => GetAssetInfo a
  | qPreimages => Preimages
  | qLogs h => GetLogs h
  | qRefund => GetRefund
  end.

Lemma answer_assets s a :
  answer (ask (qAssets a)) s =
  Some (match live s a with Some o => held (a_AssetList (o_data o)) | None => [] end).
Proof.
  cbn [ask]. unfold sdb_GetAssets, read_object. destruct (getStateObject_run s a) as (s0 & E0 & _).
  unfold answer, mbind, GM_bind. rewrite E0. destruct (live s a) as [o|]; [|done]. unfold mret, GM_ret. do 2 f_equal.
  unfold GetAssets. destruct (a_AssetList (o_data o)) as [|x l]; [done|]. cbn [length Nat.ltb Nat.leb default from_option].
  f_equal. rewrite <- (list_fmap_id (x :: l)) at 2. apply list_fmap_ext. intros ? y _. apply asset_eta.
Qed.

Lemma equiv_answers `{!ReadLaws} s s' q : wf s → wf s' → s ≈ s' → answer (ask q) s = answer (ask q) s'.
Proof.
  intros W W' [He Hl Hv]. destruct q; try (rewrite !answer_assets); cbn [ask];
    try (unfold Exist, GetBalance, GetLockBalance, GetAssetBalance, GetVoteList, GetNonce,
           GetCodeHash, HasSuicided; rewrite !answer_read);
    rewrite ?answer_GetCode, ?answer_GetState, ?answer_GetCodeSize, ?answer_GetAssetInfo by done;
    try (pose proof (live_assets s a) as K; pose proof (live_assets s' a) as K'; specialize (Hv a);
         destruct Hv as [o o' Ho|]; [|done]; pose proof Ho as [Hc Ha Hs];
         try (unfold core_of in Hc; injection Hc; intros)); try congruence.
  - f_equal. apply held_eq; [by apply (K o)|by apply (K' o')|done].
  - f_equal. by apply size_view_equiv.
  - f_equal. by apply info_view_equiv.
  - unfold answer; simpl. unfold env_of in He. congruence.
  - unfold answer; simpl. by rewrite Hl.
  - unfold answer; simpl. unfold env_of in He. congruence.
Qed.
End Snapshots.

Lemma run_Inv {AT ST VL} `{ENV : StateEnv AT ST VL} (ops : list (op (VL := VL)))
    (s s' : StateDB AT ST VL) :
  Inv s → Forall amounts_ok ops → run ops s = Ret (tt, s') → Inv s'.
Proof.
  intros I Ha. revert s I. induction Ha as [|o ops Ho Ha IH]; intros s I E.
  - by injection E as <-.
  - apply GM_bind_Ret in E as ([] & s2 & E1 & E2). eauto using exec_Inv.
Qed.

(** ** The theorems *)

Import Sample.

(** C1: Reverting to a snapshot undoes what was done since, under the rules after the
    Epiphron fork.  Take a snapshot, run any sequence of operations after it - all
    setters and getters, nested snapshots and reverts to them, with no negative amount
    of an asset - then revert to the snapshot: the revert does not panic, and for every
    account its existence, balance, locked balance, assets held, votes, nonce, code and
    its hash and size, storage, description and mark of self-destruction are what they
    were when the snapshot was taken, and so are the logs, the refund counter, the
    preimages, the trie, the journal and the list of revisions.  [GetAbi], entries of
    assets with balance zero and so [Empty] are not restored, and before the fork no
    assets are, see [revert_forgets]. *)
Theorem revert_restores {AT ST VL} `{ENV : StateEnv AT ST VL} `{RL : !ReadLaws (ENV := ENV)}
    (s0 s1 s2 : StateDB AT ST VL) (id : Z) (ops : list (op (VL := VL))) :
  Inv s0 → Snapshot s0 = Ret (id, s1) →
  Forall amounts_ok ops → Forall (above id) ops → run ops s1 = Ret (tt, s2) →
  ∃ s3, RevertToSnapshot id true s2 = Ret (tt, s3) ∧
    (∀ q, answer (ask q) s3 = answer (ask q) s0) ∧ s_trie s3 = s_trie s0 ∧
    s_journal s3 = s_journal s0 ∧ s_validRevisions s3 = s_validRevisions s0.
Proof.
  intros I E Ha Hi R. pose proof (since_Snapshot _ _ _ I E) as S. apply (since_run s0 id ops s1 s2 Ha Hi S) in R.
  destruct (since_restore s0 id s2 R) as (s3 & E3 & Q & J & V). exists s3. split_and!; try done.
  - intros q. apply equiv_answers; [|apply I|done]. eapply inv_wf, revert_Inv; [apply R|done].
  - symmetry. apply env_of_trie. by rewrite (se_env _ _ Q).
Qed.

#[export] Instance sample_read_laws : ReadLaws (ENV := sample_env).
Proof. split; [by intros ???? [= <- _]|done|by intros ???? [= <- _]]. Qed.

Definition sample_ops : list (op (VL := list address)) :=
  let a := to_word 160 1 in let b := to_word 160 2 in let x := to_word 160 77 in
  [opAddBalance a 50; opSetNonce a 7; opAddAssetBalance a x 5; opSetState b (to_word 256 3) (to_word 256 9);
   opSnapshot; opSubAssetBalance a x 2; opSuicide a; opAddRefund 100; opRevert 1;
   opAddLog (mkLog a [] [] 0 hash0 0 hash0 0); opCreateAccount a; opAddPreimage hash0 [];
   opSetCode b (Some [Byte.x60]); opSetAbi b "abi"; opSetVoteList b [a]; opPublishAsset a
     (mkAssetInfo None "Gold"%string "GLD"%string (Some 1000) "d"%string)].

Definition sample_taken := final Snapshot empty_state.
Definition sample_after := final (run sample_ops) sample_taken.

Lemma sample_Inv : Inv (ENV := sample_env) empty_state.
Proof. constructor; constructor; try done; constructor. Qed.

Lemma revert_restores_witness :
  length (s_journal sample_after) = 14%nat ∧
  ∃ s3, RevertToSnapshot 0 true sample_after = Ret (tt, s3) ∧
    answer (ask (qBalance (to_word 160 1))) s3 = Some 0 ∧ s_journal s3 = [].
Proof.
  split; [by vm_compute|].
  destruct (revert_restores empty_state sample_taken sample_after 0 sample_ops)
    as (s3 & E & Q & _ & J & _).
  - exact sample_Inv.
  - reflexivity.
  - repeat constructor; simpl; lia.
  - repeat constructor; simpl; lia.
  - unfold sample_after. apply final_unit. by vm_compute.
  - exists s3. split_and!; [exact E|by rewrite Q|exact J].
Defined.

(** What a revert does not restore: an entry of balance zero is gone after a further
    addition of nothing to it was reverted, and with it the account is empty; the
    interface of a contract stays; and before the fork assets stay. *)
Theorem revert_forgets :
  let a := to_word 160 1 in let x := to_word 160 77 in
  let revert fork := (λ id : Z, RevertToSnapshot id fork) in
  match ((AddAssetBalance a x 0;; before ← Empty a; id ← Snapshot; AddAssetBalance a x 0;; revert true id;; after ← Empty a; mret (before, after))
         : GM (StateDB _ _ (list address)) _) empty_state,
        ((SetCode a (Some [Byte.x60]);; before ← GetAbi a; id ← Snapshot; SetAbi a "abi";; revert true id;; after ← GetAbi a; mret (before, after))
         : GM (StateDB _ _ (list address)) _) empty_state,
        ((AddAssetBalance a x 1;; id ← Snapshot; AddAssetBalance a x 4;; revert false id;; GetAssetBalance a x) : GM (StateDB _ _ (list address)) _) empty_state with
  | Ret (empty_before, empty_after, _), Ret (abi_before, abi_after, _), Ret (v, _) =>
    empty_before = false ∧ empty_after = true ∧ abi_before = EmptyString ∧ abi_after = "abi"%string ∧ v = 5
  | _, _, _ => False
  end.
Proof. by vm_compute. Qed.
