(* ===== verification/Accounts.v ===== *)
(** * What the operations do to accounts

    The functional behaviour of the setters of [core/state/statedb.go], stated on
    the fields of every account: the account written changes in one field, every
    other account and the database around it stay as they were.  The files about
    transfers, votes and transactions build on these. *)

From S2P Require Import Prelude Assets Interfaces AssetInfo StateTypes StateDB StateRevert StateSnapshot.

Section Effects.
Context {AT ST VL : Type} `{ENV : StateEnv AT ST VL}.

#[local] Abbreviation SDB := (StateDB AT ST VL).
#[local] Abbreviation OBJ := (stateObject ST VL).
#[local] Abbreviation SM := (GM SDB).
#[local] Abbreviation OM := (GM (SDB * OBJ)).

(** The data of an account, the zero account when it does not exist. *)
Definition account0 : Account VL :=
  mkAccount 0 0 hash0 emptyCodeHash None nil_VoteList NewAssets None.
Definition acct (s : SDB) (a : address) : Account VL :=
  match live s a with Some o => o_data o | None => account0 end.

Definition balance (s : SDB) (a : address) : Z := a_Balance (acct s a).
Definition nonce (s : SDB) (a : address) : Z := a_Nonce (acct s a).
Definition asset_balance (s : SDB) (a id : address) : Z := BalanceOf (a_AssetList (acct s a)) id.

(** [s'] is [s] with account [a] changed by [f]. *)
Record changes (s : SDB) (a : address) (f : Account VL → Account VL) (s' : SDB) : Prop := mkChanges {
  ch_wf : wf s';
  ch_env : env_of s' = env_of s;
  ch_logs : s_logs s' = s_logs s;
  ch_exists : is_Some (live s' a);
  ch_here : acct s' a = f (acct s a);
  ch_else x : x ≠ a → live s' x = live s x
}.

Lemma changes_acct s a f s' x :
  changes s a f s' → acct s' x = if decide (x = a) then f (acct s a) else acct s x.
Proof.
  intros [_ _ _ _ H X]. case_decide as E; [by subst|]. unfold acct. by rewrite X.
Qed.

Lemma createObject_frame s a o p s1 :
  createObject a s = Ret ((o, p), s1) →
  env_of s1 = env_of s ∧ s_logs s1 = s_logs s ∧ ∀ x, x ≠ a → live s1 x = live s x.
Proof.
  unfold createObject. destruct (getStateObject_run s a) as (s0 & E0 & F).
  rewrite (GM_bind_run _ _ _ _ _ E0). apply fetched_frame in F as (Fe & Fl & _ & Fx).
  destruct (set_self_mark (on_data (λ d, d <| a_Nonce := 0 |>)) s0 (newObject a Account0 true))
    as (d & b' & _ & E).
  unfold mbind at 1, GM_bind at 1. unfold obj_setNonce. unfold on_data in E. rewrite E.
  intros [= <- <- <-]. split_and!; [done..|]. intros x Hx. rewrite <- (Fx x Hx).
  unfold live; simpl. by rewrite lookup_insert_ne.
Qed.

(** What [GetOrNewStateObject] hands to a setter. *)
Lemma GetOrNew_acct s a :
  wf s → ∃ o s1, GetOrNewStateObject a s = Ret (o, s1) ∧
  wf s1 ∧ env_of s1 = env_of s ∧ s_logs s1 = s_logs s ∧ live s1 a = Some o ∧ o_address o = a ∧
  o_data o = acct s a ∧ ∀ x, x ≠ a → live s1 x = live s x.
Proof.
  intros W. unfold acct. destruct (getStateObject_run s a) as (s0 & E0 & F).
  pose proof (fetched_unchanged _ _ _ W F) as [_ _ W0]. specialize (W0 W).
  apply fetched_frame in F as F'. destruct F' as (Fe & Fl & _ & Fx).
  assert (R : ∃ o s1, GetOrNewStateObject a s = Ret (o, s1) ∧ env_of s1 = env_of s ∧
                s_logs s1 = s_logs s ∧ o_data o = acct s a ∧ ∀ x, x ≠ a → live s1 x = live s x).
  { unfold GetOrNewStateObject, acct. rewrite (GM_bind_run _ _ _ _ _ E0).
    destruct (live s a) as [o|] eqn:Hl.
    - rewrite (live_deleted _ _ _ Hl). by exists o, s0.
    - destruct (createObject_run s0 a W0) as (s2 & b & E2 & _).
      destruct (createObject_frame _ _ _ _ _ E2) as (Ge & Gl & Gx).
      eexists (fresh_object a b), s2. rewrite (GM_bind_run _ _ _ _ _ E2).
      split_and!; [done|congruence..|done|]. intros x Hx. by rewrite Gx, Fx. }
  destruct R as (o & s1 & E & ? & ? & ? & ?). exists o, s1.
  destruct (GetOrNewStateObject_run _ _ _ _ W E) as (U & Hl & Ha).
  split_and!; try done. apply U.
Qed.

(** A logged method that returns, run through [write_object]. *)
Lemma write_object_changes {A} s a (m : OM A) (f : Account VL → Account VL) (r : A) :
  wf s →
  (∀ s0 o, object_ok o → o_data o = acct s a → logged m s0 o ∧
     ∃ s1 o1, m (s0, o) = Ret (r, (s1, o1)) ∧ o_data o1 = f (o_data o)) →
  ∃ s', write_object a m s = Ret (r, s') ∧ changes s a f s'.
Proof.
  intros W Hm. destruct (GetOrNew_acct s a W) as (o & s1 & E & W1 & He & Hl & Ho & Ha & Hd & Hx).
  unfold write_object. rewrite (GM_bind_run _ _ _ _ _ E).
  destruct (Hm s1 o) as [L (s2 & o2 & E2 & Hf)]; [by eapply live_assets|done|].
  assert (E3 : on_object o m s1 = Ret (r, s2 <| s_stateObjects ::= <[o_address o2 := o2]> |>)).
  { unfold on_object. by rewrite E2. }
  eexists. split; [exact E3|]. rewrite <- Ha in Ho.
  pose proof (on_object_logged _ _ _ _ _ W1 Ho L E3) as [W3 _ _].
  destruct (L _ _ _ E2) as (es & d & -> & _ & A2 & D2 & _). rewrite Ha in A2. rewrite A2 in *.
  rewrite (live_deleted _ _ _ Ho) in D2.
  assert (Hlive : ∀ x, live (s1 <| s_journal ::= λ j, j ++ es |> <| s_stateObjectsDirty := d |>
             <| s_stateObjects ::= <[a := o2]> |>) x = if decide (x = a) then Some o2 else live s1 x).
  { intros x. unfold live at 1; simpl. case_decide; subst.
    - by rewrite lookup_insert_eq, D2.
    - by rewrite lookup_insert_ne. }
  constructor; [done|done|done| | |].
  - rewrite Hlive, decide_True by done. eauto.
  - unfold acct at 1. rewrite Hlive, decide_True by done. congruence.
  - intros x Hne. rewrite Hlive, decide_False by done. auto.
Qed.

(** ** The setters *)

Lemma step_run (m : OM unit) g s o :
  obj_step m g → ∃ s1 o1, m (s, o) = Ret (tt, (s1, o1)) ∧ o_data o1 = o_data (g o).
Proof. intros Hm. destruct (Hm s o) as (d & b & _ & E). by eexists _, _. Qed.

Lemma journal_step_run e (m : OM unit) g s o :
  obj_step m g → ∃ s1 o1, (journal_append e;; m) (s, o) = Ret (tt, (s1, o1)) ∧ o_data o1 = o_data (g o).
Proof. intros Hm. erewrite GM_bind_run by reflexivity. by apply step_run. Qed.

Lemma data_step_run e f (s : SDB) (o : OBJ) :
  ∃ s1 o1, (journal_append e;; (set_self (on_data f);; tryMarkDirty)) (s, o) = Ret (tt, (s1, o1)) ∧
           o_data o1 = f (o_data o).
Proof. apply (journal_step_run e _ _ s o (set_self_mark (on_data f))). Qed.

Lemma account_same_balance (d : Account VL) : d <| a_Balance := a_Balance d + 0 |> = d.
Proof. destruct d; simpl. by rewrite Z.add_0_r. Qed.

Lemma touch_run (s : SDB) (o : OBJ) : ∃ s1 o1, touch (s, o) = Ret (tt, (s1, o1)) ∧ o_data o1 = o_data o.
Proof.
  unfold touch. erewrite GM_bind_run by reflexivity. cbn [fst snd].
  destruct (journal_step_run (touchChange (o_address o) (o_touched o) (negb (o_onDirty o))) _ _ s o touch_step)
    as (s1 & o1 & E & Hd). by exists s1, o1.
Qed.

Lemma SetBalance_changes s a v :
  wf s → ∃ s', SetBalance a v s = Ret (tt, s') ∧ changes s a (λ d, d <| a_Balance := v |>) s'.
Proof.
  intros W. apply write_object_changes; [done|]. intros s1 o Ho _. split; [auto with statedb|].
  apply (data_step_run _ (λ d, d <| a_Balance := v |>)).
Qed.

Lemma AddBalance_changes s a v :
  wf s → ∃ s', AddBalance a v s = Ret (tt, s') ∧
               changes s a (λ d, d <| a_Balance := a_Balance d + v |>) s'.
Proof.
  intros W. apply write_object_changes; [done|]. intros s1 o Ho _. split; [auto with statedb|].
  unfold obj_AddBalance. erewrite GM_bind_run by reflexivity. cbn [fst snd].
  destruct (Z.eqb_spec v 0) as [->|Hv].
  - rewrite account_same_balance. destruct (empty o); [apply touch_run|by eexists _, _].
  - apply (data_step_run _ (λ d, d <| a_Balance := a_Balance d + v |>)).
Qed.

Lemma SubBalance_changes s a v :
  wf s → ∃ s', SubBalance a v s = Ret (tt, s') ∧
               changes s a (λ d, d <| a_Balance := a_Balance d - v |>) s'.
Proof.
  intros W. apply write_object_changes; [done|]. intros s1 o Ho _. split; [auto with statedb|].
  unfold obj_SubBalance. erewrite GM_bind_run by reflexivity. cbn [fst snd].
  destruct (Z.eqb_spec v 0) as [->|Hv].
  - exists s1, o. split; [done|]. destruct o as [? [] ? ? ? ? ? ? ? ? ? ? ? ? ?]; simpl.
    by rewrite Z.sub_0_r.
  - apply (data_step_run _ (λ d, d <| a_Balance := a_Balance d - v |>)).
Qed.

Lemma SetNonce_changes s a n :
  wf s → ∃ s', SetNonce a n s = Ret (tt, s') ∧ changes s a (λ d, d <| a_Nonce := n |>) s'.
Proof.
  intros W. apply write_object_changes; [done|]. intros s1 o Ho _. split; [auto with statedb|].
  apply (data_step_run _ (λ d, d <| a_Nonce := n |>)).
Qed.

Lemma SetVoteList_changes s a l :
  wf s → ∃ s', SetVoteList a l s = Ret (tt, s') ∧ changes s a (λ d, d <| a_VoteList := l |>) s'.
Proof.
  intros W. apply write_object_changes; [done|]. intros s1 o Ho _. split; [auto with statedb|].
  apply (data_step_run _ (λ d, d <| a_VoteList := l |>)).
Qed.

Lemma AddAssetBalance_changes s a id v :
  wf s → 0 ≤ v →
  ∃ s', AddAssetBalance a id v s = Ret (tt, s') ∧
        changes s a (λ d, d <| a_AssetList ::= AddAsset (mkAsset id v) |>) s'.
Proof.
  intros W Hv. apply write_object_changes; [done|]. intros s1 o Ho _. split; [auto with statedb|].
  unfold obj_AddAssetBalance. erewrite GM_bind_run by reflexivity. cbn [fst snd].
  destruct (journal_step_run (assetBalanceChange (o_address o) (mkAsset id v) true) _ _ s1 o
    (set_self_mark (λ o', o' <| o_data ::= λ d, d <| a_AssetList :=
                              AddAsset (mkAsset id v) (a_AssetList (o_data o)) |> |>)))
    as (s2 & o2 & E & Hd). by exists s2, o2.
Qed.

Lemma SubAssetBalance_changes s a id v :
  wf s → 0 ≤ v →
  let r := SubAsset (mkAsset id v) (a_AssetList (acct s a)) in
  ∃ s', SubAssetBalance a id v s = Ret (r.1, s') ∧
        changes s a (λ d, d <| a_AssetList ::= λ al, (SubAsset (mkAsset id v) al).2 |>) s'.
Proof.
  intros W Hv r. apply write_object_changes; [done|]. intros s1 o Ho Hd. split; [auto with statedb|].
  unfold obj_SubAssetBalance, r. rewrite <- Hd. erewrite GM_bind_run by reflexivity. cbn [fst snd].
  destruct (SubAsset (mkAsset id v) (a_AssetList (o_data o))) as [[] al] eqn:E.
  - destruct (journal_step_run (assetBalanceChange (o_address o) (mkAsset id v) false) _ _ s1 o
      (set_self_mark (λ o', o' <| o_data ::= λ d, d <| a_AssetList := al |> |>))) as (s2 & o2 & E2 & Hd2).
    exists s2, o2. split; [|by rewrite Hd2; simpl; rewrite E].
    change ((((journal_append (assetBalanceChange (o_address o) (mkAsset id v) false);;
               (set_assets al;; tryMarkDirty));; mret true) : OM bool) (s1, o) = Ret (true, (s2, o2))).
    by rewrite (GM_bind_run _ _ _ _ _ E2).
  - eexists _, _. split; [reflexivity|]. simpl. by rewrite E.
Qed.

Lemma lock_step_run b v (s : SDB) (o : OBJ) :
  a_LockBalance (o_data o) = Some b →
  ∃ s1 o1, obj_SetLockBalance v (s, o) = Ret (tt, (s1, o1)) ∧
           o_data o1 = (o_data o) <| a_LockBalance := Some v |>.
Proof.
  intros Hb. unfold obj_SetLockBalance. erewrite GM_bind_run by reflexivity. cbn [fst snd].
  rewrite Hb. apply (data_step_run (lockBalanceChange (o_address o) b) (λ d, d <| a_LockBalance := Some v |>)).
Qed.

Lemma account_same_lock (d : Account VL) b :
  a_LockBalance d = Some b → d <| a_LockBalance := Some b |> = d.
Proof. intros H. destruct d; simpl in *. by subst. Qed.

Lemma AddLockBalance_changes s a b v :
  wf s → a_LockBalance (acct s a) = Some b →
  ∃ s', AddLockBalance a v s = Ret (tt, s') ∧
        changes s a (λ d, d <| a_LockBalance := Some (b + v) |>) s'.
Proof.
  intros W Hb. apply write_object_changes; [done|]. intros s1 o Ho Hd. split; [auto with statedb|].
  rewrite <- Hd in Hb. unfold obj_AddLockBalance. erewrite GM_bind_run by reflexivity. cbn [fst snd].
  destruct (Z.eqb_spec v 0) as [->|Hv].
  - rewrite Z.add_0_r, account_same_lock by done. destruct (empty o); [apply touch_run|by eexists _, _].
  - rewrite Hb. by apply (lock_step_run b).
Qed.

(** An account made anew keeps the balance and nothing else. *)
Lemma CreateAccount_changes s a :
  wf s → ∃ s', CreateAccount a s = Ret (tt, s') ∧
               changes s a (λ d, account0 <| a_Balance := a_Balance d |>) s'.
Proof.
  intros W. unfold CreateAccount. destruct (createObject_run s a W) as (s1 & b & E & W1 & H1 & HU).
  rewrite (GM_bind_run _ _ _ _ _ E). destruct (createObject_frame _ _ _ _ _ E) as (Fe & Fl & Fx).
  assert (Hl : live s1 a = Some (fresh_object a b)) by (unfold live; by rewrite H1).
  unfold acct. destruct (live s a) as [p|] eqn:Hp.
  - destruct (on_object_step s1 a (fresh_object a b) _ _ (set_self_mark (on_data (λ d, d <| a_Balance := a_Balance (o_data p) |>))) eq_refl)
      as (s2 & E2 & P).
    exists s2. split; [exact E2|].
    set (o2 := on_data _ _) in P. assert (K2 : object_ok o2) by (by repeat constructor).
    pose proof (HU _ _ P eq_refl eq_refl K2) as [W2 _ _]. destruct (live_put _ _ _ _ a P eq_refl) as [Pa _].
    destruct (Pa eq_refl) as [b' Hb'].
    constructor; [done|..].
    + destruct P as (Pe & _). by rewrite Pe.
    + destruct P as (_ & Pl & _). by rewrite Pl.
    + rewrite Hb'. eauto.
    + unfold acct. by rewrite Hb', Hp.
    + intros x Hx. rewrite (proj2 (live_put _ _ _ _ x P eq_refl)) by done. auto.
  - exists s1. split; [done|]. constructor; try done.
    unfold acct. by rewrite Hl, Hp.
Qed.

(** ** Reads *)

(** [s'] is [s] up to objects loaded and caches filled. *)
Record reads (s s' : SDB) : Prop := mkReads {
  rd_wf : wf s';
  rd_env : env_of s' = env_of s;
  rd_logs : s_logs s' = s_logs s;
  rd_live x : live s' x = live s x
}.

Lemma reads_refl s : wf s → reads s s.
Proof. by constructor. Qed.

Lemma reads_acct s s' x : reads s s' → acct s' x = acct s x.
Proof. intros [_ _ _ H]. unfold acct. by rewrite H. Qed.

Lemma getStateObject_reads s a :
  wf s → ∃ s', getStateObject a s = Ret (live s a, s') ∧ reads s s'.
Proof.
  intros W. destruct (getStateObject_run s a) as (s1 & E & F). exists s1. split; [done|].
  pose proof (fetched_unchanged _ _ _ W F) as [_ _ W1].
  apply fetched_frame in F as F'. destruct F' as (Fe & Fl & _ & Fx).
  constructor; [auto|done..|]. intros x. destruct (decide (x = a)) as [->|Hx]; [|auto].
  unfold fetched in F. destruct (live s a) as [o|] eqn:Hl.
  - destruct F as [_ H]. unfold live. by rewrite H, (live_deleted _ _ _ Hl).
  - destruct F as (_ & _ & _ & _ & Ho). unfold live in *. by rewrite Ho, (env_of_trie s s1).
Qed.

Lemma read_object_reads {A} s a d (f : OBJ → A) :
  wf s → ∃ s', read_object d f a s = Ret (match live s a with Some o => f o | None => d end, s') ∧
               reads s s'.
Proof.
  intros W. destruct (getStateObject_reads s a W) as (s1 & E & R). exists s1. split; [|done].
  unfold read_object. by rewrite (GM_bind_run _ _ _ _ _ E).
Qed.

Lemma GetBalance_reads s a : wf s → ∃ s', GetBalance a s = Ret (balance s a, s') ∧ reads s s'.
Proof.
  intros W. destruct (read_object_reads s a 0 (λ o, a_Balance (o_data o)) W) as (s1 & E & R).
  exists s1. split; [|done]. unfold GetBalance. rewrite E. unfold balance, acct. by destruct (live s a).
Qed.

Lemma GetNonce_reads s a : wf s → ∃ s', GetNonce a s = Ret (nonce s a, s') ∧ reads s s'.
Proof.
  intros W. destruct (read_object_reads s a 0 (λ o, a_Nonce (o_data o)) W) as (s1 & E & R).
  exists s1. split; [|done]. unfold GetNonce. rewrite E. unfold nonce, acct. by destruct (live s a).
Qed.

Lemma GetAssetBalance_reads s a id :
  wf s → ∃ s', GetAssetBalance a id s = Ret (asset_balance s a id, s') ∧ reads s s'.
Proof.
  intros W. destruct (read_object_reads s a 0 (λ o, BalanceOf (a_AssetList (o_data o)) id) W)
    as (s1 & E & R).
  exists s1. split; [|done]. unfold GetAssetBalance. rewrite E. unfold asset_balance, acct.
  by destruct (live s a).
Qed.
End Effects.
