(* ===== verification/Transfer.v ===== *)
(** * Transfers ([core/evm.go])

    [CanTransfer] and [Transfer], for the main currency ([asset == nil]) and for
    published assets, with the theorem that a transfer moves exactly the amount
    and that nothing is created or destroyed. *)

From S2P Require Import Prelude Assets Interfaces AssetInfo StateTypes StateSample StateDB StateRevert.
From S2P Require Import StateSnapshot Accounts.

(** Sum of a quantity over a list of accounts. *)
Definition total (f : address → Z) (l : list address) : Z := foldr (λ x acc, f x + acc) 0 l.

Lemma total_ext f g l : (∀ x, f x = g x) → total f l = total g l.
Proof. intros H. induction l as [|x l IH]; simpl; [done|]. by rewrite H, IH. Qed.

Lemma total_add f g l : total (λ x, f x + g x) l = total f l + total g l.
Proof. induction l as [|x l IH]; simpl; [done|]. rewrite IH. lia. Qed.

Lemma total_zero l : total (λ _, 0) l = 0.
Proof. by induction l. Qed.

Lemma total_le f g l : (∀ x, f x ≤ g x) → total f l ≤ total g l.
Proof. intros H. induction l as [|x l IH]; simpl; [done|]. pose proof (H x). lia. Qed.

(** A quantity at one account only. *)
Definition at_one (a : address) (v : Z) (x : address) : Z := if decide (x = a) then v else 0.

Lemma total_at_one a v l : NoDup l → a ∈ l → total (at_one a v) l = v.
Proof.
  intros Hn. induction Hn as [|x l Hx Hn IH]; intros Ha; [by apply elem_of_nil in Ha|].
  simpl. unfold at_one at 1. case_decide as E.
  - subst. assert (Hz : total (at_one a v) l = 0); [|lia].
    rewrite <- (total_zero l). clear - Hx. induction l as [|y l IH]; simpl; [done|].
    apply not_elem_of_cons in Hx as [Hy Hl]. rewrite IH by done. unfold at_one.
    rewrite decide_False by done. done.
  - apply elem_of_cons in Ha as [Ha|Ha]; [done|]. by rewrite IH.
Qed.

Section Transfer.
Context {AT ST VL : Type} `{ENV : StateEnv AT ST VL}.

#[local] Abbreviation SDB := (StateDB AT ST VL).
#[local] Abbreviation SM := (GM SDB).

Definition CanTransfer (addr : address) (asset : option address) (amount : Z) : SM bool :=
  match asset with
  | None => b ← GetBalance addr; mret (b >=? amount)
  | Some id => b ← GetAssetBalance addr id; mret (b >=? amount)
  end.

Definition Transfer (sender recipient : address) (asset : option address) (amount : Z) : SM unit :=
  match asset with
  | None =>
    SubBalance sender amount;;
    AddBalance recipient amount
  | Some id =>
    ok ← SubAssetBalance sender id amount;
    match ok with true => AddAssetBalance recipient id amount | false => mret tt end
  end.

(** What an account holds of the currency or of an asset. *)
Definition holding (s : SDB) (asset : option address) (a : address) : Z :=
  match asset with None => balance s a | Some id => asset_balance s a id end.

Lemma CanTransfer_reads s a asset v :
  wf s → ∃ s', CanTransfer a asset v s = Ret (holding s asset a >=? v, s') ∧ reads s s'.
Proof.
  intros W. destruct asset as [id|]; simpl.
  - destruct (GetAssetBalance_reads s a id W) as (s' & E & R). exists s'.
    by rewrite (GM_bind_run _ _ _ _ _ E).
  - destruct (GetBalance_reads s a W) as (s' & E & R). exists s'. by rewrite (GM_bind_run _ _ _ _ _ E).
Qed.

Lemma acct_ordered s a : wf s → ordered (a_AssetList (acct s a)).
Proof.
  intros W. unfold acct. destruct (live s a) as [o|] eqn:Hl; [|constructor].
  by apply (live_assets _ _ _ W Hl).
Qed.

(** [s'] is [s] with [v] more of [asset] at account [a]. *)
Record moved (s : SDB) (asset : option address) (a : address) (v : Z) (s' : SDB) : Prop := mkMoved {
  mv_wf : wf s';
  mv_env : env_of s' = env_of s;
  mv_holding asset' x :
    holding s' asset' x = holding s asset' x + (if decide (asset' = asset) then at_one a v x else 0);
  mv_nonce x : nonce s' x = nonce s x
}.

Lemma changes_moved s asset a v f s' :
  changes s a f s' → a_Nonce (f (acct s a)) = nonce s a →
  (∀ asset', match asset' with
             | None => a_Balance (f (acct s a))
             | Some id => BalanceOf (a_AssetList (f (acct s a))) id
             end = holding s asset' a + (if decide (asset' = asset) then v else 0)) →
  moved s asset a v s'.
Proof.
  intros C Hn Hh. constructor; [apply C|apply C|..]; intros.
  - unfold at_one. destruct (decide (x = a)) as [->|Hx].
    + rewrite <- Hh. unfold holding, balance, asset_balance. rewrite (ch_here _ _ _ _ C).
      by destruct asset'.
    + unfold holding, balance, asset_balance, acct. rewrite (ch_else _ _ _ _ C) by done.
      by destruct asset', (decide _); rewrite Z.add_0_r.
  - destruct (decide (x = a)) as [->|Hx].
    + rewrite <- Hn. unfold nonce. by rewrite (ch_here _ _ _ _ C).
    + unfold nonce, acct. by rewrite (ch_else _ _ _ _ C).
Qed.

Lemma AddBalance_moved s a v :
  wf s → ∃ s', AddBalance a v s = Ret (tt, s') ∧ moved s None a v s'.
Proof.
  intros W. destruct (AddBalance_changes s a v W) as (s' & E & C). exists s'. split; [done|].
  apply (changes_moved _ _ _ _ _ _ C); [done|]. intros [id|]; simpl; [|done].
  by rewrite Z.add_0_r.
Qed.

Lemma SubBalance_moved s a v :
  wf s → ∃ s', SubBalance a v s = Ret (tt, s') ∧ moved s None a (- v) s'.
Proof.
  intros W. destruct (SubBalance_changes s a v W) as (s' & E & C). exists s'. split; [done|].
  apply (changes_moved _ _ _ _ _ _ C); [done|]. intros [id|]; simpl; [|done].
  by rewrite Z.add_0_r.
Qed.

Lemma AddAssetBalance_moved s a id v :
  wf s → 0 ≤ v → ∃ s', AddAssetBalance a id v s = Ret (tt, s') ∧ moved s (Some id) a v s'.
Proof.
  intros W Hv. destruct (AddAssetBalance_changes s a id v W Hv) as (s' & E & C). exists s'.
  split; [done|]. apply (changes_moved _ _ _ _ _ _ C); [done|]. intros [id'|]; simpl.
  - rewrite BalanceOf_AddAsset by (by apply acct_ordered). unfold asset_balance.
    destruct (decide (id' = id)), (decide (Some id' = Some id)); congruence || done.
  - by rewrite Z.add_0_r.
Qed.

(** A deduction takes [v] or, when it is not covered, nothing. *)
Lemma SubAssetBalance_moved s a id v :
  wf s → 0 ≤ v → ∃ ok s', SubAssetBalance a id v s = Ret (ok, s') ∧
    moved s (Some id) a (if ok then - v else 0) s' ∧
    (v ≤ asset_balance s a id → 0 < v → ok = true).
Proof.
  intros W Hv. destruct (SubAssetBalance_changes s a id v W Hv) as (s' & E & C).
  eexists _, s'. split; [exact E|]. assert (Ho := acct_ordered s a W). split.
  - apply (changes_moved _ _ _ _ _ _ C); [done|]. intros [id'|]; simpl.
    + unfold asset_balance. destruct (SubAsset _ _) as [[] al] eqn:Es; simpl.
      * apply SubAsset_true in Es as (_ & _ & ->); [|done].
        destruct (decide (id' = id)), (decide (Some id' = Some id)); congruence || lia.
      * apply SubAsset_false in Es as ->. case_decide; lia.
    + by rewrite Z.add_0_r.
  - intros Hle Hpos. rewrite SubAsset_succeeds by done. apply bool_decide_eq_true. split; [|done].
    unfold asset_balance in Hle.
    destruct (ordered_cases (a_AssetList (acct s a)) id Ho) as [(l&x&r&Hl&Hx&_)|(l&r&Hl&Hl1&Hl2)].
    + rewrite Hl, fmap_app, fmap_cons, Hx. apply elem_of_app. right. apply list_elem_of_here.
    + rewrite Hl, BalanceOf_absent in Hle by done. lia.
Qed.

(** A transfer moves exactly [amount] from the sender to the recipient. *)
Lemma Transfer_moves s sender recipient asset amount :
  wf s → 0 ≤ amount → amount ≤ holding s asset sender →
  ∃ s1 s', Transfer sender recipient asset amount s = Ret (tt, s') ∧
    moved s asset sender (- amount) s1 ∧ moved s1 asset recipient amount s'.
Proof.
  intros W Hv Hle. destruct asset as [id|]; unfold Transfer.
  - destruct (SubAssetBalance_moved s sender id amount W Hv) as (ok & s1 & E1 & M1 & Hok).
    rewrite (GM_bind_run _ _ _ _ _ E1). destruct ok.
    + destruct (AddAssetBalance_moved s1 recipient id amount (mv_wf _ _ _ _ _ M1) Hv) as (s2 & E2 & M2).
      by exists s1, s2.
    + assert (amount = 0) as ->.
      { destruct (decide (0 < amount)) as [Hp|Hp]; [by specialize (Hok Hle Hp)|lia]. }
      exists s1, s1. split_and!; [done|done|]. constructor; try done; [apply M1|]. intros.
      unfold at_one. by repeat case_decide; rewrite Z.add_0_r.
  - destruct (SubBalance_moved s sender amount W) as (s1 & E1 & M1).
    rewrite (GM_bind_run _ _ _ _ _ E1).
    destruct (AddBalance_moved s1 recipient amount (mv_wf _ _ _ _ _ M1)) as (s2 & E2 & M2).
    by exists s1, s2.
Qed.

Lemma moved_total s asset a v s' asset' l :
  moved s asset a v s' → NoDup l → a ∈ l →
  total (holding s' asset') l = total (holding s asset') l + (if decide (asset' = asset) then v else 0).
Proof.
  intros M Hn Ha. rewrite (total_ext _ _ _ (mv_holding _ _ _ _ _ M asset')), total_add. f_equal.
  case_decide; [by apply total_at_one|apply total_zero].
Qed.

(** ** Supply

    Of the currency and of every asset there is at most as much in [s'] as in [s]:
    over all accounts, which is to say over every large enough list of them. *)
Definition flow (s s' : SDB) : Prop := ∀ asset, ∃ known : list address, ∀ l,
  NoDup l → known ⊆ l → total (holding s' asset) l ≤ total (holding s asset) l.

Lemma flow_le s s' : (∀ asset x, holding s' asset x ≤ holding s asset x) → flow s s'.
Proof. intros H asset. exists []. intros l _ _. apply total_le. auto. Qed.

Lemma flow_refl s : flow s s.
Proof. by apply flow_le. Qed.

Lemma flow_trans s1 s2 s3 : flow s1 s2 → flow s2 s3 → flow s1 s3.
Proof.
  intros F1 F2 asset. destruct (F1 asset) as [k1 H1], (F2 asset) as [k2 H2]. exists (k1 ++ k2). intros l Hn Hk.
  apply list_subseteq_app_iff_l in Hk as [Hk1 Hk2]. etrans; [by apply H2|by apply H1].
Qed.

Lemma flow_reads s s' : (∀ x, live s' x = live s x) → flow s s'.
Proof. intros L. apply flow_le. intros [id|] x; simpl; unfold balance, asset_balance, acct; by rewrite L. Qed.

Lemma flow_moved s asset a v s1 b w s' :
  moved s asset a v s1 → moved s1 asset b w s' → v + w ≤ 0 → flow s s'.
Proof.
  intros M1 M2 Hle asset'. exists [a; b]. intros l Hn Hk.
  rewrite (moved_total _ _ _ _ _ asset' l M2 Hn), (moved_total _ _ _ _ _ asset' l M1 Hn); [case_decide; lia|apply Hk; set_solver..].
Qed.

(** [Transfer] creates nothing, covered or not. *)
Lemma Transfer_flow s from to asset v s' :
  wf s → 0 ≤ v → Transfer from to asset v s = Ret (tt, s') → flow s s'.
Proof.
  intros W Hv E. destruct asset as [id|]; simpl in E.
  - destruct (SubAssetBalance_moved s from id v W Hv) as (ok & s1 & E1 & M1 & _). rewrite (GM_bind_run _ _ _ _ _ E1) in E.
    destruct ok.
    + destruct (AddAssetBalance_moved s1 to id v (mv_wf _ _ _ _ _ M1) Hv) as (s2 & E2 & M2). rewrite E2 in E.
      injection E as <-. apply (flow_moved _ _ _ _ _ _ _ _ M1 M2). lia.
    + injection E as <-. apply flow_le. intros asset x. rewrite (mv_holding _ _ _ _ _ M1 asset x). unfold at_one.
      repeat case_decide; lia.
  - destruct (SubBalance_moved s from v W) as (s1 & E1 & M1). rewrite (GM_bind_run _ _ _ _ _ E1) in E.
    destruct (AddBalance_moved s1 to v (mv_wf _ _ _ _ _ M1)) as (s2 & E2 & M2). rewrite E2 in E.
    injection E as <-. apply (flow_moved _ _ _ _ _ _ _ _ M1 M2). lia.
Qed.
End Transfer.

(** A transfer that [CanTransfer] allows takes exactly [amount] of the currency
    or asset from the sender and gives it to the recipient (who may be the
    sender), leaves every other holding of every account and all nonces as they
    were, and neither creates nor destroys anything: over any set of accounts
    that contains the two, the total of the currency and of every asset is
    unchanged.  The sender's holding stays nonnegative. *)
Theorem transfer_correct {AT ST VL} `{ENV : StateEnv AT ST VL} (s : StateDB AT ST VL)
    (sender recipient : address) (asset : option address) (amount : Z) :
  wf s → 0 ≤ amount → answer (CanTransfer sender asset amount) s = Some true →
  ∃ s', Transfer sender recipient asset amount s = Ret (tt, s') ∧ wf s' ∧
    (∀ asset' x, holding s' asset' x = holding s asset' x +
       (if decide (asset' = asset) then at_one recipient amount x - at_one sender amount x else 0)) ∧
    (∀ x, nonce s' x = nonce s x) ∧
    (∀ asset' l, NoDup l → sender ∈ l → recipient ∈ l →
       total (holding s' asset') l = total (holding s asset') l) ∧
    0 ≤ holding s' asset sender.
Proof.
  intros W Hv Hc. destruct (CanTransfer_reads s sender asset amount W) as (s0 & E0 & _).
  unfold answer in Hc. rewrite E0 in Hc. injection Hc as Hc. apply Z.geb_le in Hc.
  destruct (Transfer_moves s sender recipient asset amount W Hv Hc) as (s1 & s2 & E & M1 & M2).
  exists s2. assert (Hh : ∀ asset' x, holding s2 asset' x = holding s asset' x +
       (if decide (asset' = asset) then at_one recipient amount x - at_one sender amount x else 0)).
  { intros asset' x. rewrite (mv_holding _ _ _ _ _ M2), (mv_holding _ _ _ _ _ M1).
    unfold at_one. repeat case_decide; lia. }
  split_and!; [done|apply M2|done|..].
  - intros x. by rewrite (mv_nonce _ _ _ _ _ M2), (mv_nonce _ _ _ _ _ M1).
  - intros asset' l Hn Hs Hr. rewrite (moved_total _ _ _ _ _ _ _ M2), (moved_total _ _ _ _ _ _ _ M1) by done.
    case_decide; lia.
  - rewrite Hh. unfold at_one. repeat case_decide; done || lia.
Qed.

Import Sample.

Definition sample_rich : StateDB (gmap address bytes) (gmap hash bytes) (list address) :=
  final (run [opAddBalance (to_word 160 1) 50; opAddAssetBalance (to_word 160 1) (to_word 160 77) 5])
        empty_state.

Lemma sample_rich_wf : wf sample_rich.
Proof.
  apply inv_wf, (run_Inv [opAddBalance (to_word 160 1) 50; opAddAssetBalance (to_word 160 1) (to_word 160 77) 5]
           empty_state).
  - exact sample_Inv.
  - by repeat constructor.
  - unfold sample_rich. apply final_unit. by vm_compute.
Qed.

Lemma transfer_correct_witness :
  ∃ s', Transfer (to_word 160 1) (to_word 160 2) (Some (to_word 160 77)) 3 sample_rich = Ret (tt, s') ∧
        holding s' (Some (to_word 160 77)) (to_word 160 2) = 3 ∧
        holding s' (Some (to_word 160 77)) (to_word 160 1) = 2.
Proof.
  destruct (transfer_correct sample_rich (to_word 160 1) (to_word 160 2) (Some (to_word 160 77)) 3)
    as (s' & E & _ & H & _).
  - exact sample_rich_wf.
  - lia.
  - by vm_compute.
  - exists s'. split_and!; [exact E|rewrite H; by vm_compute|rewrite H; by vm_compute].
Defined.
