(* ===== verification/Votes.v ===== *)
(** * Votes ([core/evm.go])

    [Vote] and [changeVoteList].  The vote list of an account is a Go slice, and
    [changeVoteList] edits the slice it is given through [append], so slices are
    modelled as headers into a heap of arrays.  The theorems show that a vote
    computes the intended list and keeps the locked balance in step with it, and
    what the in-place edits do to the list an account still holds. *)

From S2P Require Import Prelude Assets Interfaces AssetInfo StateTypes StateSample StateDB StateRevert.
From S2P Require Import StateSnapshot Accounts Transfer.

(** ** Slices *)

(** [[]common.Address]: an array and a length; the capacity is the array's length.
    (No slice of the vote code starts past its array's first element.) *)
Record slice : Type := mkSlice { sl_arr : nat; sl_len : nat }.

Record heap : Type := mkHeap { h_arrays : gmap nat (list address); h_next : nat }.
#[export] Instance eta_heap : Eta heap := λ h, mkHeap (h_arrays h) (h_next h).

Definition array (h : heap) (i : nat) : list address := default [] (h_arrays h !! i).
Definition contents (h : heap) (sl : slice) : list address := take (sl_len sl) (array h (sl_arr sl)).
Definition valid_slice (h : heap) (sl : slice) : Prop :=
  (sl_len sl ≤ length (array h (sl_arr sl)))%nat ∧ (sl_arr sl < h_next h)%nat.

Definition write_array (i : nat) (l : list address) (h : heap) : heap :=
  h <| h_arrays ::= <[i := l]> |>.
Definition alloc_array (l : list address) (h : heap) : nat * heap :=
  (h_next h, h <| h_arrays ::= <[h_next h := l]> |> <| h_next ::= S |>).

(** [types.Vote]; [Candidate] is a pointer. *)
Record VoteItem : Type := mkVote { Candidate : option address; Operation : Z }.

Definition Aoa : Z := 10 ^ 18.

Inductive vm_error : Type := ErrVote.

(** The errors of [validateVote], by the case that returns them. *)
Inductive vote_rejection : Type :=
  ErrVoteList | AlreadyVoted (c : address) | NotVoted (c : address) | OperationError (c : address).

Section Slices.
(** The capacity [append] gives a slice it must grow to hold [n] elements. *)
Variable grow : nat → nat.

(** [append(sl, x)] *)
Definition append1 (sl : slice) (x : address) (h : heap) : slice * heap :=
  let arr := array h (sl_arr sl) in
  if (sl_len sl <? length arr)%nat then
    (mkSlice (sl_arr sl) (S (sl_len sl)), write_array (sl_arr sl) (<[sl_len sl := x]> arr) h)
  else
    let l := contents h sl ++ [x] in
    let '(i, h') := alloc_array (l ++ replicate (grow (length l) - length l) address0) h in
    (mkSlice i (S (sl_len sl)), h').

(** [append(sl[:j], sl[j+1:]...)]: the elements after [j] move down one place in
    the same array. *)
Definition remove_at (sl : slice) (j : nat) (h : heap) : slice * heap :=
  let arr := array h (sl_arr sl) in
  let tail := drop (S j) (contents h sl) in
  (mkSlice (sl_arr sl) (j + length tail),
   write_array (sl_arr sl) (take j arr ++ tail ++ drop (j + length tail) arr) h).

Fixpoint sliceContains_from (i : nat) (addr : address) (l : list address) : Z * bool :=
  match l with
  | [] => (-1, false)
  | a :: l => if decide (addr = a) then (Z.of_nat i, true) else sliceContains_from (S i) addr l
  end.
Definition sliceContains (addr : address) (l : list address) : Z * bool :=
  sliceContains_from 0 addr l.

(** The loop of [changeVoteList]; [diff] counts at most the votes of one
    transaction, far below the range of [int64]. *)
Fixpoint changeVoteList_loop (curVoteList : list VoteItem) (delegateList : gset address)
    (voteChangeList : slice) (diff : Z) : GM heap (option (slice * Z) * option vm_error) :=
  match curVoteList with
  | [] => mret (Some (voteChangeList, diff), None)
  | vote :: rest =>
    match Operation vote with
    | 0 =>
      match Candidate vote with
      | None => gpanic "nil candidate"
      | Some c =>
        h ← gget;
        if (sliceContains c (contents h voteChangeList)).2 then mret (None, Some ErrVote)
        else if decide (c ∈ delegateList) then
          let '(sl, h') := append1 voteChangeList c h in
          gmodify (λ _, h');;
          changeVoteList_loop rest delegateList sl (diff + 1)
        else mret (None, Some ErrVote)
      end
    | 1 =>
      match Candidate vote with
      | None => gpanic "nil candidate"
      | Some c =>
        h ← gget;
        let '(j, contain) := sliceContains c (contents h voteChangeList) in
        if (contain : bool) then
          let '(sl, h') := remove_at voteChangeList (Z.to_nat j) h in
          gmodify (λ _, h');;
          changeVoteList_loop rest delegateList sl (diff - 1)
        else mret (None, Some ErrVote)
      end
    | _ => mret (None, Some ErrVote)
    end
  end.

Definition changeVoteList (prevVoteList : slice) (curVoteList : list VoteItem)
    (delegateList : gset address) : GM heap (option (slice * Z) * option vm_error) :=
  r ← changeVoteList_loop curVoteList delegateList prevVoteList 0;
  mret (match r.1 with Some (sl, diff) => Some (sl, diff * Aoa) | None => None end, r.2).

(** [validateVote] of [core/tx_pool.go], by which the transaction pool checks a
    vote transaction against its state. *)
Fixpoint validateVote (voteChange : slice) (curVoteList : list VoteItem) (delegateList : gset address)
  : GM heap (option vote_rejection) :=
  match curVoteList with
  | [] => mret None
  | vote :: rest =>
    match Candidate vote with
    | None => gpanic "nil candidate"
    | Some c =>
      match Operation vote with
      | 0 =>
        h ← gget;
        if (sliceContains c (contents h voteChange)).2 then mret (Some (AlreadyVoted c))
        else if decide (c ∈ delegateList) then
          let '(sl, h') := append1 voteChange c h in
          gmodify (λ _, h');;
          validateVote sl rest delegateList
        else mret (Some ErrVoteList)
      | 1 =>
        h ← gget;
        let '(i, contain) := sliceContains c (contents h voteChange) in
        if (contain : bool) then
          let '(sl, h') := remove_at voteChange (Z.to_nat i) h in
          gmodify (λ _, h');;
          validateVote sl rest delegateList
        else mret (Some (NotVoted c))
      | _ => mret (Some (OperationError c))
      end
    end
  end.
End Slices.

(** ** The intended list *)

Fixpoint remove_first (c : address) (l : list address) : list address :=
  match l with
  | [] => []
  | a :: l => if decide (c = a) then l else a :: remove_first c l
  end.

Definition vote_one (delegateList : gset address) (l : list address) (v : VoteItem) : option (list address) :=
  match Operation v, Candidate v with
  | 0, Some c =>
    if decide (c ∈ l) then None else if decide (c ∈ delegateList) then Some (l ++ [c]) else None
  | 1, Some c => if decide (c ∈ l) then Some (remove_first c l) else None
  | _, _ => None
  end.

Fixpoint vote_all (delegateList : gset address) (l : list address) (vs : list VoteItem)
  : option (list address) :=
  match vs with
  | [] => Some l
  | v :: vs => l' ← vote_one delegateList l v; vote_all delegateList l' vs
  end.

(** No vote dereferences a nil candidate. *)
Definition has_candidate (v : VoteItem) : Prop :=
  (Operation v = 0 ∨ Operation v = 1) → is_Some (Candidate v).

(** ** Slices hold what they should *)

Lemma sliceContains_in i c l :
  c ∈ l → ∃ l1 l2, l = l1 ++ c :: l2 ∧ (c ∉ l1) ∧ sliceContains_from i c l = (Z.of_nat (i + length l1), true).
Proof.
  revert i. induction l as [|a l IH]; intros i Hc; [by apply elem_of_nil in Hc|]. simpl.
  destruct (decide (c = a)) as [->|Hne].
  - exists [], l. split_and!; [done|apply not_elem_of_nil|]. by rewrite Nat.add_0_r.
  - apply elem_of_cons in Hc as [Hc|Hc]; [done|].
    destruct (IH (S i) Hc) as (l1 & l2 & -> & Hl1 & ->). exists (a :: l1), l2.
    split_and!; [done|by apply not_elem_of_cons|]. simpl. by rewrite Nat.add_succ_r.
Qed.

Lemma sliceContains_out i c l : c ∉ l → sliceContains_from i c l = (-1, false).
Proof.
  revert i. induction l as [|a l IH]; intros i Hc; [done|]. simpl.
  apply not_elem_of_cons in Hc as [Ha Hl]. rewrite decide_False by done. by apply IH.
Qed.

Lemma remove_first_app c l1 l2 : c ∉ l1 → remove_first c (l1 ++ c :: l2) = l1 ++ l2.
Proof.
  induction l1 as [|a l1 IH]; intros Hc; simpl; [by rewrite decide_True|].
  apply not_elem_of_cons in Hc as [Ha Hl]. rewrite decide_False by done. by rewrite IH.
Qed.

(** [h'] is [h] except for array [i], unless it is empty, and arrays made since. *)
Definition heap_frame (i : nat) (h h' : heap) : Prop :=
  (h_next h ≤ h_next h')%nat ∧
  ∀ k, k ≠ i ∨ array h k = [] → (k < h_next h)%nat → array h' k = array h k.

Lemma array_write h i l k : array (write_array i l h) k = if decide (i = k) then l else array h k.
Proof. unfold array, write_array; simpl. rewrite lookup_insert. by case_decide. Qed.

Lemma append1_ok grow h sl x sl' h' :
  valid_slice h sl → append1 grow sl x h = (sl', h') →
  contents h' sl' = contents h sl ++ [x] ∧ valid_slice h' sl' ∧ heap_frame (sl_arr sl) h h' ∧
  (sl_arr sl' = sl_arr sl ∨ sl_arr sl' = h_next h).
Proof.
  intros [Hv Hn]. unfold append1, contents. destruct (Nat.ltb_spec (sl_len sl) (length (array h (sl_arr sl)))) as [Hlt|Hge].
  - intros [= <- <-]. unfold valid_slice, heap_frame; simpl. split; [|split; [|split]].
    + rewrite array_write, decide_True by done.
      rewrite (take_S_r _ _ x) by (by apply list_lookup_insert_eq). by rewrite take_insert_ge.
    + rewrite array_write, decide_True by done. rewrite length_insert. lia.
    + split; [done|]. intros k Hk _. rewrite array_write. rewrite decide_False; [done|].
      intros <-. destruct Hk as [?|Hk]; [done|]. rewrite Hk in Hlt. simpl in Hlt. lia.
    + by left.
  - intros [= <- <-]. unfold valid_slice, heap_frame, array; simpl.
    rewrite !lookup_insert_eq. simpl. rewrite (take_ge (default [] _)) by done.
    assert (sl_len sl = length (array h (sl_arr sl))) as Hl by lia. unfold array in Hl.
    split; [|split; [|split]].
    + rewrite Hl. rewrite take_app_le by (rewrite length_app; simpl; lia).
      by rewrite take_ge by (rewrite length_app; simpl; lia).
    + rewrite !length_app. simpl. lia.
    + split; [lia|]. intros k Hk Hlt. rewrite lookup_insert_ne by lia. done.
    + by right.
Qed.

Lemma remove_at_ok h sl l1 c l2 sl' h' :
  valid_slice h sl → contents h sl = l1 ++ c :: l2 → remove_at sl (length l1) h = (sl', h') →
  contents h' sl' = l1 ++ l2 ∧ valid_slice h' sl' ∧ heap_frame (sl_arr sl) h h' ∧
  sl_arr sl' = sl_arr sl.
Proof.
  intros [Hv Hn] Hc. unfold remove_at. rewrite Hc.
  replace (drop (S (length l1)) (l1 ++ c :: l2)) with l2.
  2: { by rewrite cons_middle, (assoc_L (++)), drop_app_length' by (rewrite length_app; simpl; lia). }
  assert (Ht : take (length l1) (array h (sl_arr sl)) = l1).
  { unfold contents in Hc. assert (length l1 ≤ sl_len sl)%nat.
    { apply (f_equal length) in Hc. rewrite length_take, length_app in Hc. simpl in Hc. lia. }
    rewrite <- (Nat.min_l (length l1) (sl_len sl)), <- take_take, Hc by done.
    by rewrite take_app_length. }
  rewrite Ht. intros [= <- <-]. unfold contents, valid_slice, heap_frame; simpl.
  rewrite array_write, decide_True by done. split; [|split; [|split]]; [| | |done].
  - rewrite (assoc_L (++)). by rewrite take_app_length' by (rewrite length_app; lia).
  - rewrite !length_app. lia.
  - split; [done|]. intros k Hk _. rewrite array_write. rewrite decide_False; [done|].
    intros <-. destruct Hk as [?|Hk]; [done|]. unfold contents in Hc. rewrite Hk, take_nil in Hc. by destruct l1.
Qed.

Lemma heap_frame_trans i j h h1 h2 :
  heap_frame i h h1 → heap_frame j h1 h2 → (j = i ∨ (h_next h ≤ j)%nat) → heap_frame i h h2.
Proof.
  intros [N1 F1] [N2 F2] Hj. split; [lia|]. intros k Hk Hlt. pose proof (F1 k Hk Hlt) as E1.
  rewrite F2, E1; [done| |lia]. rewrite E1. destruct Hk as [Hk|Hk]; [left; lia|by right].
Qed.

(** The operation of a vote as the code tells it apart. *)
Lemma vote_op_cases (z : Z) : z = 0 ∨ z = 1 ∨ (z ≠ 0 ∧ z ≠ 1).
Proof. lia. Qed.

Lemma vote_one_other dl l v : Operation v ≠ 0 → Operation v ≠ 1 → vote_one dl l v = None.
Proof.
  unfold vote_one. intros H0 H1. destruct (Operation v) as [|[p|p|]|p]; try done; by destruct (Candidate v).
Qed.

Section Correct.
Variable grow : nat → nat.

(** What a run of the loop on votes [vs] from the list [l] and the count [diff]
    should give. *)
Definition loop_result (h : heap) (sl : slice) (diff : Z) (expected : option (list address))
    (r : outcome ((option (slice * Z) * option vm_error) * heap)) : Prop :=
  match expected with
  | Some l' => ∃ sl' h',
      r = Ret ((Some (sl', diff + Z.of_nat (length l') - Z.of_nat (sl_len sl)), None), h') ∧
      contents h' sl' = l' ∧ valid_slice h' sl' ∧ heap_frame (sl_arr sl) h h' ∧
      (sl_arr sl' = sl_arr sl ∨ (h_next h ≤ sl_arr sl')%nat)
  | None => ∃ h', r = Ret ((None, Some ErrVote), h') ∧ heap_frame (sl_arr sl) h h'
  end.

Lemma heap_frame_refl i h : heap_frame i h h.
Proof. done. Qed.

Lemma contents_length h sl : valid_slice h sl → length (contents h sl) = sl_len sl.
Proof. intros [Hv _]. unfold contents. rewrite length_take. lia. Qed.

(** One vote carried out, then the rest of the loop. *)
Lemma loop_result_step h h1 sl sl1 diff d expected r :
  valid_slice h sl → heap_frame (sl_arr sl) h h1 →
  (sl_arr sl1 = sl_arr sl ∨ sl_arr sl1 = h_next h) →
  d = Z.of_nat (sl_len sl1) - Z.of_nat (sl_len sl) →
  loop_result h1 sl1 (diff + d) expected r → loop_result h sl diff expected r.
Proof.
  intros V F Ha Hd R. unfold loop_result in *.
  assert (Hj : sl_arr sl1 = sl_arr sl ∨ (h_next h ≤ sl_arr sl1)%nat) by lia.
  destruct expected as [l'|].
  - destruct R as (sl' & h' & -> & C & V' & F' & A). exists sl', h'. split_and!; try done.
    + by replace (diff + d + Z.of_nat (length l') - Z.of_nat (sl_len sl1))
        with (diff + Z.of_nat (length l') - Z.of_nat (sl_len sl)) by lia.
    + by eapply heap_frame_trans.
    + destruct F. lia.
  - destruct R as (h' & -> & F'). exists h'. split; [done|]. by eapply heap_frame_trans.
Qed.

Lemma changeVoteList_loop_ok vs dl h sl diff :
  valid_slice h sl → Forall has_candidate vs →
  loop_result h sl diff (vote_all dl (contents h sl) vs) (changeVoteList_loop grow vs dl sl diff h).
Proof.
  intros V Hc. revert h sl diff V. induction Hc as [|v vs Hv Hc IH]; intros h sl diff V.
  { simpl vote_all. unfold loop_result. rewrite contents_length by done. exists sl, h.
    split_and!; try done; [|by left]. 
    by replace (diff + Z.of_nat (sl_len sl) - Z.of_nat (sl_len sl)) with diff by lia. }
  cbn [changeVoteList_loop vote_all].
  destruct (vote_op_cases (Operation v)) as [E|[E|[E0 E1]]].
  - destruct (Hv (or_introl E)) as [c Ec]. unfold vote_one. rewrite E, Ec.
    erewrite GM_bind_run by reflexivity. unfold sliceContains.
    destruct (decide (c ∈ contents h sl)) as [Hin|Hout].
    { destruct (sliceContains_in 0 c _ Hin) as (l1 & l2 & _ & _ & ->). by exists h. }
    rewrite sliceContains_out by done. cbn [snd].
    destruct (decide (c ∈ dl)); [|by exists h].
    destruct (append1 grow sl c h) as [sl1 h1] eqn:Ea.
    destruct (append1_ok _ _ _ _ _ _ V Ea) as (C1 & V1 & F1 & A1).
    cbv beta iota. erewrite GM_bind_run by reflexivity. simpl. rewrite <- C1.
    eapply loop_result_step; [done|done|done| |by apply IH].
    rewrite <- !(contents_length _ _ V), <- (contents_length _ _ V1), C1, length_app. simpl. lia.
  - destruct (Hv (or_intror E)) as [c Ec]. unfold vote_one. rewrite E, Ec.
    erewrite GM_bind_run by reflexivity. unfold sliceContains.
    destruct (decide (c ∈ contents h sl)) as [Hin|Hout].
    2: { rewrite sliceContains_out by done. by exists h. }
    destruct (sliceContains_in 0 c _ Hin) as (l1 & l2 & Hl & Hl1 & ->).
    rewrite Nat.add_0_l, Nat2Z.id. destruct (remove_at sl (length l1) h) as [sl1 h1] eqn:Ea.
    destruct (remove_at_ok _ _ _ _ _ _ _ V Hl Ea) as (C1 & V1 & F1 & A1).
    cbv beta iota. erewrite GM_bind_run by reflexivity. simpl. rewrite Hl, remove_first_app, <- C1 by done.
    eapply (loop_result_step _ _ _ _ _ (-1)); [done|done|by left| |by apply IH].
    rewrite <- !(contents_length _ _ V), <- (contents_length _ _ V1), C1, Hl, !length_app. simpl. lia.
  - rewrite vote_one_other by done. simpl.
    destruct (Operation v) as [|[p|p|]|p]; try done; by exists h.
Qed.

Lemma rejected (h : heap) i (r : outcome (option vote_rejection * heap)) :
  (∃ e, r = Ret (Some e, h)) →
  ∃ e h', r = Ret (e, h') ∧ heap_frame i h h' ∧ (e = None ↔ is_Some (None (A := list address))).
Proof. intros [e ->]. exists (Some e), h. split_and!; [done|done|]. split; [done|]. by intros []. Qed.

Lemma validateVote_ok vs dl h sl :
  valid_slice h sl → Forall (λ v, is_Some (Candidate v)) vs →
  ∃ r h', validateVote grow sl vs dl h = Ret (r, h') ∧ heap_frame (sl_arr sl) h h' ∧
          (r = None ↔ is_Some (vote_all dl (contents h sl) vs)).
Proof.
  intros V Hc. revert h sl V. induction Hc as [|v vs [c Ec] Hc IH]; intros h sl V.
  { exists None, h. split_and!; [done|done|]. simpl. split; [by eexists|done]. }
  cbn [validateVote vote_all]. rewrite Ec.
  destruct (vote_op_cases (Operation v)) as [E|[E|[E0 E1]]].
  - unfold vote_one. rewrite E, Ec. erewrite GM_bind_run by reflexivity. unfold sliceContains.
    destruct (decide (c ∈ contents h sl)) as [Hin|Hout].
    { destruct (sliceContains_in 0 c _ Hin) as (l1 & l2 & _ & _ & ->). apply rejected. by eexists. }
    rewrite sliceContains_out by done. cbn [snd].
    destruct (decide (c ∈ dl)); [|apply rejected; by eexists].
    destruct (append1 grow sl c h) as [sl1 h1] eqn:Ea.
    destruct (append1_ok _ _ _ _ _ _ V Ea) as (C1 & V1 & F1 & A1).
    cbv beta iota. erewrite GM_bind_run by reflexivity. simpl. rewrite <- C1.
    destruct (IH _ _ V1) as (r & h' & E' & F' & R). exists r, h'. split_and!; [done| |apply R..].
    eapply heap_frame_trans; [done|done|]. lia.
  - unfold vote_one. rewrite E, Ec. erewrite GM_bind_run by reflexivity. unfold sliceContains.
    destruct (decide (c ∈ contents h sl)) as [Hin|Hout].
    2: { rewrite sliceContains_out by done. apply rejected. by eexists. }
    destruct (sliceContains_in 0 c _ Hin) as (l1 & l2 & Hl & Hl1 & ->).
    rewrite Nat.add_0_l, Nat2Z.id. destruct (remove_at sl (length l1) h) as [sl1 h1] eqn:Ea.
    destruct (remove_at_ok _ _ _ _ _ _ _ V Hl Ea) as (C1 & V1 & F1 & A1).
    cbv beta iota. erewrite GM_bind_run by reflexivity. simpl. rewrite Hl, remove_first_app, <- C1 by done.
    destruct (IH _ _ V1) as (r & h' & E' & F' & R). exists r, h'. split_and!; [done| |apply R..].
    eapply heap_frame_trans; [done|done|]. by left.
  - rewrite vote_one_other by done. apply rejected.
    destruct (Operation v) as [|[p|p|]|p]; try done; by eexists.
Qed.
End Correct.

(** ** [Vote] *)

Section Vote.
Context {AT ST : Type} `{ENV : StateEnv AT ST slice}.
Variable grow : nat → nat.

#[local] Abbreviation SDB := (StateDB AT ST slice).
#[local] Abbreviation VM := (GM (heap * SDB)).

Definition on_heap {A} (m : GM heap A) : VM A := λ hs,
  match m hs.1 with Ret (r, h) => Ret (r, (h, hs.2)) | Panic w => Panic w end.
Definition on_state {A} (m : GM SDB A) : VM A := λ hs,
  match m hs.2 with Ret (r, s) => Ret (r, (hs.1, s)) | Panic w => Panic w end.

(** [delegateList] is a pointer to a map of which only the keys are read; reading
    the decimal string of a nil [LockBalance] back gives nil, which [Add] then
    dereferences. *)
Definition Vote (user : address) (vote : list VoteItem) (delegateList : option (gset address))
    (maxElectDelegate : Z) : VM (option vm_error) :=
  match delegateList with
  | None => gpanic "nil delegate list"
  | Some d =>
    prev ← on_state (GetVoteList user);
    r ← on_heap (changeVoteList grow prev vote d);
    match r with
    | (Some (newVoteList, diff), None) =>
      lock ← on_state (GetLockBalance user);
      match lock with
      | None => gpanic "nil LockBalance"
      | Some lockBalance =>
        if lockBalance + diff >? Aoa * maxElectDelegate then mret (Some ErrVote)
        else
          on_state (SubBalance user diff);;
          on_state (AddLockBalance user diff);;
          on_state (SetVoteList user newVoteList);;
          mret None
      end
    | (_, err) => mret err
    end
  end.

Lemma on_state_run {A} (m : GM SDB A) h s r s' : m s = Ret (r, s') → on_state m (h, s) = Ret (r, (h, s')).
Proof. intros E. unfold on_state; simpl. by rewrite E. Qed.
Lemma on_heap_run {A} (m : GM heap A) h (s : SDB) r h' : m h = Ret (r, h') → on_heap m (h, s) = Ret (r, (h', s)).
Proof. intros E. unfold on_heap; simpl. by rewrite E. Qed.

(** What an account has locked and votes for. *)
Definition lock (s : SDB) (a : address) : option Z := a_LockBalance (acct s a).
Definition votes (h : heap) (s : SDB) (a : address) : list address := contents h (a_VoteList (acct s a)).

Lemma GetVoteList_reads (s : SDB) a :
  wf s → ∃ s', GetVoteList a s = Ret (a_VoteList (acct s a), s') ∧ reads s s'.
Proof.
  intros W. destruct (read_object_reads s a nil_VoteList (λ o, a_VoteList (o_data o)) W) as (s1 & E & R).
  exists s1. split; [|done]. unfold GetVoteList. rewrite E. unfold acct. by destruct (live s a).
Qed.

Lemma GetLockBalance_reads (s : SDB) a b :
  wf s → lock s a = Some b → ∃ s', GetLockBalance a s = Ret (Some b, s') ∧ reads s s'.
Proof.
  intros W Hb. destruct (read_object_reads s a (Some 0) (λ o, a_LockBalance (o_data o)) W) as (s1 & E & R).
  exists s1. split; [|done]. unfold GetLockBalance. rewrite E. unfold lock, acct in Hb.
  destruct (live s a); [|done]. by rewrite Hb.
Qed.

(** The three writes of a vote. *)
Lemma vote_writes (s : SDB) h user diff b sl :
  wf s → lock s user = Some b →
  ∃ s', (on_state (SubBalance user diff);; on_state (AddLockBalance user diff);;
         on_state (SetVoteList user sl);; mret None) (h, s) = Ret (None (A := vm_error), (h, s')) ∧
    wf s' ∧ balance s' user = balance s user - diff ∧ lock s' user = Some (b + diff) ∧
    a_VoteList (acct s' user) = sl ∧ ∀ x, x ≠ user → acct s' x = acct s x.
Proof.
  intros W Hb. destruct (SubBalance_changes s user diff W) as (s1 & E1 & C1).
  assert (Hb1 : a_LockBalance (acct s1 user) = Some b) by (by rewrite (ch_here _ _ _ _ C1)).
  destruct (AddLockBalance_changes s1 user b diff (ch_wf _ _ _ _ C1) Hb1) as (s2 & E2 & C2).
  destruct (SetVoteList_changes s2 user sl (ch_wf _ _ _ _ C2)) as (s3 & E3 & C3).
  exists s3. split.
  { rewrite (GM_bind_run _ _ _ _ _ (on_state_run _ h _ _ _ E1)).
    rewrite (GM_bind_run _ _ _ _ _ (on_state_run _ h _ _ _ E2)).
    by rewrite (GM_bind_run _ _ _ _ _ (on_state_run _ h _ _ _ E3)). }
  split_and!.
  - apply C3.
  - unfold balance. by rewrite (ch_here _ _ _ _ C3), (ch_here _ _ _ _ C2), (ch_here _ _ _ _ C1).
  - unfold lock. by rewrite (ch_here _ _ _ _ C3), (ch_here _ _ _ _ C2).
  - by rewrite (ch_here _ _ _ _ C3).
  - intros x Hx. unfold acct. by rewrite (ch_else _ _ _ _ C3), (ch_else _ _ _ _ C2), (ch_else _ _ _ _ C1).
Qed.

(** What [Vote] does, on every branch. *)
Lemma Vote_run h (s : SDB) user vs d max b :
  wf s → lock s user = Some b → valid_slice h (a_VoteList (acct s user)) → Forall has_candidate vs →
  ∃ r h' s', Vote user vs (Some d) max (h, s) = Ret (r, (h', s')) ∧ wf s' ∧
    heap_frame (sl_arr (a_VoteList (acct s user))) h h' ∧ (∀ x, x ≠ user → acct s' x = acct s x) ∧
    match vote_all d (votes h s user) vs with
    | Some l =>
      let diff := (Z.of_nat (length l) - Z.of_nat (length (votes h s user))) * Aoa in
      if b + diff >? Aoa * max then r = Some ErrVote ∧ acct s' user = acct s user
      else r = None ∧ balance s' user = balance s user - diff ∧ lock s' user = Some (b + diff) ∧
           votes h' s' user = l ∧ valid_slice h' (a_VoteList (acct s' user)) ∧
           (sl_arr (a_VoteList (acct s' user)) = sl_arr (a_VoteList (acct s user)) ∨
            (h_next h ≤ sl_arr (a_VoteList (acct s' user)))%nat)
    | None => r = Some ErrVote ∧ acct s' user = acct s user
    end.
Proof.
  intros W Hb V Hc. set (sl := a_VoteList (acct s user)) in *.
  destruct (GetVoteList_reads s user W) as (s1 & E1 & R1). unfold Vote.
  rewrite (GM_bind_run _ _ _ _ _ (on_state_run _ h _ _ _ E1)). fold sl.
  pose proof (changeVoteList_loop_ok grow vs d h sl 0 V Hc) as L. unfold votes. fold sl.
  rewrite (contents_length _ _ V). unfold loop_result in L.
  assert (Hx1 : ∀ x, acct s1 x = acct s x) by (intros; by apply reads_acct).
  destruct (vote_all d (contents h sl) vs) as [l|].
  - destruct L as (sl' & h' & EL & C' & V' & F' & A').
    assert (EC : changeVoteList grow sl vs d h =
             Ret ((Some (sl', (Z.of_nat (length l) - Z.of_nat (sl_len sl)) * Aoa), None), h')).
    { unfold changeVoteList. by rewrite (GM_bind_run _ _ _ _ _ EL). }
    rewrite (GM_bind_run _ _ _ _ _ (on_heap_run _ _ s1 _ _ EC)). cbv zeta.
    set (diff := (_ - _) * Aoa) in *.
    assert (Hb1 : lock s1 user = Some b) by (unfold lock; by rewrite Hx1).
    destruct (GetLockBalance_reads s1 user b (rd_wf _ _ R1) Hb1) as (s2 & E2 & R2).
    rewrite (GM_bind_run _ _ _ _ _ (on_state_run _ h' _ _ _ E2)).
    assert (Hx2 : ∀ x, acct s2 x = acct s x) by (intros; by rewrite (reads_acct _ _ x R2), Hx1).
    destruct (b + diff >? Aoa * max).
    + exists (Some ErrVote), h', s2. split_and!; try done. apply R2.
    + assert (Hb2 : lock s2 user = Some b) by (unfold lock; by rewrite Hx2).
      destruct (vote_writes s2 h' user diff b sl' (rd_wf _ _ R2) Hb2) as (s3 & E3 & W3 & B3 & K3 & S3 & X3).
      exists None, h', s3. split_and!; try done.
      * intros x Hx. by rewrite X3, Hx2.
      * unfold balance in *. by rewrite B3, Hx2.
      * by rewrite S3.
      * by rewrite S3.
      * by rewrite S3.
  - destruct L as (h' & EL & F').
    assert (EC : changeVoteList grow sl vs d h = Ret ((None, Some ErrVote), h')).
    { unfold changeVoteList. by rewrite (GM_bind_run _ _ _ _ _ EL). }
    rewrite (GM_bind_run _ _ _ _ _ (on_heap_run _ _ s1 _ _ EC)).
    exists (Some ErrVote), h', s1. split_and!; try done. apply R1.
Qed.
End Vote.

(** ** Votes keep the lock in step *)

Lemma remove_first_sublist c l : remove_first c l `sublist_of` l.
Proof.
  induction l as [|a l IH]; simpl; [done|]. case_decide; [by apply sublist_cons|by apply sublist_skip].
Qed.

Lemma vote_one_NoDup d l v l' : NoDup l → vote_one d l v = Some l' → NoDup l'.
Proof.
  intros Hn. unfold vote_one.
  destruct (Operation v) as [|[p|p|]|p]; try done; destruct (Candidate v) as [c|]; try done.
  - case_decide as Hc; [done|]. case_decide; [|done]. intros [= <-].
    apply NoDup_app. split_and!; [done| |apply NoDup_singleton]. intros x Hx ->%list_elem_of_singleton. done.
  - case_decide; [|done]. intros [= <-]. by eapply sublist_NoDup, remove_first_sublist.
Qed.

Lemma vote_all_NoDup d l vs l' : NoDup l → vote_all d l vs = Some l' → NoDup l'.
Proof.
  revert l. induction vs as [|v vs IH]; intros l Hn; simpl; [by intros [= <-]|].
  intros (l1 & H1 & H2)%bind_Some. eauto using vote_one_NoDup.
Qed.

(** One unit of currency is locked per vote, no candidate is voted for twice. *)
Definition voter_ok {AT ST} `{StateEnv AT ST slice} (h : heap) (s : StateDB AT ST slice)
    (a : address) : Prop :=
  lock s a = Some (Aoa * Z.of_nat (length (votes h s a))) ∧ NoDup (votes h s a).


(** ** Sample runs *)

#[export] Instance slice_eq : EqDecision slice.
Proof. solve_decision. Defined.
#[export] Instance slice_countable : Countable slice.
Proof. apply (inj_countable' (λ x, (sl_arr x, sl_len x)) (λ p, mkSlice p.1 p.2)). by intros []. Defined.

Module SampleVotes.
#[export] Instance slice_env : StateEnv (gmap address bytes) (gmap hash bytes) slice :=
  Sample.sample_env_of (mkSlice 0 0).

Definition voter : address := to_word 160 1.
Definition ca : address := to_word 160 11.
Definition cb : address := to_word 160 12.
Definition cc : address := to_word 160 13.
Definition delegates : gset address := {[ ca; cb; cc ]}.
Definition double (n : nat) : nat := (2 * n)%nat.

(** A voter for [ca], [cb] and [cc] with the given balance. *)
Definition sample_heap : heap := mkHeap {[ 0%nat := []; 1%nat := [ca; cb; cc] ]} 2.
Definition voter_account (b : Z) : Account slice :=
  mkAccount 0 b hash0 emptyCodeHash (Some (Aoa * 3)) (mkSlice 1 3) NewAssets None.
Definition sample_state (b : Z) : StateDB (gmap address bytes) (gmap hash bytes) slice :=
  mkStateDB ∅ {[ voter := newObject voter (lit_of (voter_account b)) true ]} ∅ None 0 hash0 hash0 0 ∅ 0 ∅ [] [] 0.

Lemma sample_state_wf b : wf (sample_state b).
Proof.
  assert (H : ∀ a o, s_stateObjects (sample_state b) !! a = Some o →
                a = voter ∧ o = newObject voter (lit_of (voter_account b)) true).
  { intros a o. simpl. by intros [<- <-]%lookup_singleton_Some. }
  constructor; try done.
  - by intros a o [-> ->]%H.
  - by intros a o [-> ->]%H.
  - intros a o [-> ->]%H. by repeat constructor.
Qed.

Definition sub (c : address) : VoteItem := mkVote (Some c) 1.
Definition addv (c : address) : VoteItem := mkVote (Some c) 0.
End SampleVotes.
Import SampleVotes.


(** The transaction pool and the execution of a transaction agree on votes:
    on the same vote list and delegates, [validateVote] accepts a list of votes
    exactly when [changeVoteList] carries it out, which is exactly when all the
    votes are admissible in order; neither panics. *)
Theorem pool_vote_agrees (grow : nat → nat) (h : heap) (sl : slice) (vs : list VoteItem) (d : gset address) :
  valid_slice h sl → Forall (λ v, is_Some (Candidate v)) vs →
  ∃ r h1 e h2, validateVote grow sl vs d h = Ret (e, h1) ∧ changeVoteList grow sl vs d h = Ret (r, h2) ∧
    (e = None ↔ r.2 = None) ∧ (e = None ↔ is_Some (vote_all d (contents h sl) vs)).
Proof.
  intros V Hc. destruct (validateVote_ok grow vs d h sl V Hc) as (e & h1 & E1 & _ & R1).
  assert (Hc' : Forall has_candidate vs) by (eapply Forall_impl; [done|]; by intros v ? _).
  pose proof (changeVoteList_loop_ok grow vs d h sl 0 V Hc') as L. unfold loop_result in L.
  destruct (vote_all d (contents h sl) vs) as [l|] eqn:Ev.
  - destruct L as (sl' & h' & EL & _). eexists _, h1, e, h'. split_and!; [done| |split|apply R1..].
    + unfold changeVoteList. by rewrite (GM_bind_run _ _ _ _ _ EL).
    + done.
    + intros _. apply R1. eauto.
  - destruct L as (h' & EL & _). eexists _, h1, e, h'. split_and!; [done| |split|apply R1..].
    + unfold changeVoteList. by rewrite (GM_bind_run _ _ _ _ _ EL).
    + intros He. apply R1 in He as [? He]. done.
    + done.
Qed.

Lemma pool_vote_agrees_witness :
  ∃ r h1 e h2, validateVote double (mkSlice 1 3) [sub ca; addv ca] delegates sample_heap = Ret (e, h1) ∧
    changeVoteList double (mkSlice 1 3) [sub ca; addv ca] delegates sample_heap = Ret (r, h2) ∧ e = None.
Proof.
  destruct (pool_vote_agrees double sample_heap (mkSlice 1 3) [sub ca; addv ca] delegates)
    as (r & h1 & e & h2 & E1 & E2 & _ & R).
  - by vm_compute; lia.
  - by repeat constructor; eexists.
  - exists r, h1, e, h2. split_and!; [done|done|]. apply R. exists [cb; cc; ca]. by vm_compute.
Defined.

(** Checking votes edits the voter's list.  The voter votes for three
    candidates.  Withdrawing the first twice is rejected by [Vote] with
    [ErrVote] and the account is not written, but the first withdrawal has
    already moved the array's elements down, so the account now votes for the
    third candidate twice and no longer for the first.  The pool's [validateVote]
    does the same to the pool's state when it accepts a withdrawal. *)
Theorem vote_check_edits_list :
  votes sample_heap (sample_state 0) voter = [ca; cb; cc] ∧
  match Vote double voter [sub ca; sub ca] (Some delegates) 101 (sample_heap, sample_state 0) with
  | Ret (r, (h', s')) => r = Some ErrVote ∧ acct s' voter = acct (sample_state 0) voter ∧
                         votes h' s' voter = [cb; cc; cc]
  | Panic _ => False
  end ∧
  match validateVote double (a_VoteList (acct (sample_state 0) voter)) [sub ca] delegates sample_heap with
  | Ret (r, h') => r = None ∧ votes h' (sample_state 0) voter = [cb; cc; cc]
  | Panic _ => False
  end.
Proof. by vm_compute. Qed.

(** [Vote] does not compare what it locks with the balance: a voter with a
    balance of zero who adds a vote is left with a balance of minus one AOA. *)
Theorem vote_overdraws :
  balance (sample_state 0) voter = 0 ∧
  match Vote double voter [addv (to_word 160 14)] (Some {[to_word 160 14]}) 101
          (sample_heap, sample_state 0) with
  | Ret (r, (_, s')) => r = None ∧ balance s' voter = - Aoa
  | Panic _ => False
  end.
Proof. by vm_compute. Qed.
