(* ===== verification/DelegateState.v ===== *)
(** * Delegate state ([consensus/delegatestate])

    The state of the delegates: who is registered, under which name and since
    when, and how many votes each has.  It is a copy of the account state's
    design (live objects over a trie, a journal, snapshots) with its own rules:
    an object is marked dirty as soon as it is made, a cancelled delegate keeps
    its entry and its votes with [Delete] set, and votes are not journaled. *)

From S2P Require Import Prelude Interfaces StateTypes.

(** [Delegate] *)
Record Delegate : Type := mkDelegate {
  d_Root : hash;
  d_Vote : Z;
  d_Nickname : bytes;
  d_RegisterTime : Z;
  d_Delete : bool
}.
#[export] Instance eta_Delegate : Eta Delegate := λ r,
  mkDelegate (d_Root r) (d_Vote r) (d_Nickname r) (d_RegisterTime r) (d_Delete r).

(** [delegateObject]; [addrHash] is a function of the address and [db] is the
    database that holds the object.  Making an object calls [tryMarkDirty], so
    the callback [onDirty] is nil ever after. *)
Record delegateObject (ST : Type) : Type := mkDObject {
  do_address : address;
  do_data : Delegate;
  do_dbErr : option gerror;
  do_trie : option ST;
  do_cachedStorage : Storage;
  do_dirtyStorage : Storage;
  do_touched : bool;
  do_deleted : bool;
  do_suicided : bool
}.
Arguments mkDObject {ST} _ _ _ _ _ _ _ _ _.
Arguments do_address {ST} _.
Arguments do_data {ST} _.
Arguments do_dbErr {ST} _.
Arguments do_trie {ST} _.
Arguments do_cachedStorage {ST} _.
Arguments do_dirtyStorage {ST} _.
Arguments do_touched {ST} _.
Arguments do_deleted {ST} _.
Arguments do_suicided {ST} _.
#[export] Instance eta_delegateObject {ST} : Eta (delegateObject ST) := λ r,
  mkDObject (do_address r) (do_data r) (do_dbErr r) (do_trie r) (do_cachedStorage r)
            (do_dirtyStorage r) (do_touched r) (do_deleted r) (do_suicided r).

(** [journalEntry]. *)
Inductive delegateEntry (ST : Type) : Type :=
| dCreateObjectChange (account : address)
| dResetObjectChange (prev : delegateObject ST)
| dAddLogChange (txhash : hash)
| dStorageChange (account : address) (key prevalue : hash)
| dVoteChange (account : address) (prev : Z)
| dTouchChange (account : address) (prev prevDirty : bool)
| dSuicideChange (account : address) (prev : bool) (prevVote : Z).
Arguments dCreateObjectChange {ST} _.
Arguments dResetObjectChange {ST} _.
Arguments dAddLogChange {ST} _.
Arguments dStorageChange {ST} _ _ _.
Arguments dVoteChange {ST} _ _.
Arguments dTouchChange {ST} _ _ _.
Arguments dSuicideChange {ST} _ _ _.

(** [DelegateDB] *)
Record DelegateDB (AT ST : Type) : Type := mkDelegateDB {
  dd_trie : AT;
  dd_objects : gmap address (delegateObject ST);
  dd_dirty : gset address;
  dd_dbErr : option gerror;
  dd_thash : hash;
  dd_bhash : hash;
  dd_txIndex : Z;
  dd_logs : gmap hash (list Log);
  dd_logSize : Z;
  dd_journal : list (delegateEntry ST);
  dd_validRevisions : list revision;
  dd_nextRevisionId : Z
}.
Arguments mkDelegateDB {AT ST} _ _ _ _ _ _ _ _ _ _ _ _.
Arguments dd_trie {AT ST} _.
Arguments dd_objects {AT ST} _.
Arguments dd_dirty {AT ST} _.
Arguments dd_dbErr {AT ST} _.
Arguments dd_thash {AT ST} _.
Arguments dd_bhash {AT ST} _.
Arguments dd_txIndex {AT ST} _.
Arguments dd_logs {AT ST} _.
Arguments dd_logSize {AT ST} _.
Arguments dd_journal {AT ST} _.
Arguments dd_validRevisions {AT ST} _.
Arguments dd_nextRevisionId {AT ST} _.
#[export] Instance eta_DelegateDB {AT ST} : Eta (DelegateDB AT ST) := λ r,
  mkDelegateDB (dd_trie r) (dd_objects r) (dd_dirty r) (dd_dbErr r) (dd_thash r) (dd_bhash r)
    (dd_txIndex r) (dd_logs r) (dd_logSize r) (dd_journal r) (dd_validRevisions r)
    (dd_nextRevisionId r).

(** The database below: the delegates' trie and storage tries, the serializer, and
    the keys [NodeIterator] walks through. *)
Class DelegateEnv (AT ST : Type) : Type := {
  de_atrie :: TrieOps address AT;
  de_strie :: TrieOps hash ST;
  ddb_OpenTrie : hash → AT + gerror;
  ddb_OpenStorageTrie : hash → hash → ST + gerror;
  d_Keccak256Hash : bytes → hash;
  trie_keys : AT → list address;
  rlp_EncodeDelegate : Delegate → bytes;
  rlp_DecodeDelegate : bytes → option Delegate;
  d_rlp_EncodeValue : hash → bytes;
  d_rlp_SplitValue : bytes → bytes * option gerror
}.

(** [types.Candidate]; the address is the string [Address.Hex] makes. *)
Record Candidate : Type := mkCandidate {
  c_Address : bytes;
  c_Vote : Z;
  c_Nickname : bytes;
  c_RegisterTime : Z
}.

Section Operations.
Context {AT ST : Type} `{ENV : DelegateEnv AT ST}.

#[local] Abbreviation DDB := (DelegateDB AT ST).
#[local] Abbreviation OBJ := (delegateObject ST).
#[local] Abbreviation DM := (GM DDB).
#[local] Abbreviation OM := (GM (DDB * OBJ)).

(** ** Objects *)

Definition d_self : OM OBJ := λ so, Ret (so.2, so).
Definition d_set_self (f : OBJ → OBJ) : OM unit := λ so, Ret (tt, (so.1, f so.2)).
Definition d_set_db (f : DDB → DDB) : OM unit := λ so, Ret (tt, (f so.1, so.2)).

Definition d_MarkStateObjectDirty (addr : address) (s : DDB) : DDB :=
  s <| dd_dirty ::= λ d, {[addr]} ∪ d |>.

(** [newObject], which marks the address dirty. *)
Definition d_newObject (addr : address) (delegate : Delegate) (s : DDB) : OBJ * DDB :=
  (mkDObject addr delegate None None ∅ ∅ false false false, d_MarkStateObjectDirty addr s).

Definition dobj_setError (err : option gerror) : OM unit :=
  d_set_self (λ o, match do_dbErr o with None => o <| do_dbErr := err |> | Some _ => o end).

Definition d_journal_append (e : delegateEntry ST) : OM unit :=
  d_set_db (λ s, s <| dd_journal ::= λ j, j ++ [e] |>).

Definition d_addrHash (o : OBJ) : hash := d_Keccak256Hash (address_bytes (do_address o)).

Definition d_getTrie : OM ST :=
  o ← d_self;
  match do_trie o with
  | Some t => mret t
  | None =>
    match ddb_OpenStorageTrie (d_addrHash o) (d_Root (do_data o)) with
    | inl t => d_set_self (λ o, o <| do_trie := Some t |>);; mret t
    | inr err =>
      match ddb_OpenStorageTrie (d_addrHash o) hash0 with
      | inl t =>
        d_set_self (λ o, o <| do_trie := Some t |>);;
        dobj_setError (Some (String.append "can't create storage trie: " err));;
        mret t
      | inr _ => gpanic "nil storage trie"
      end
    end
  end.

(** [empty] always answers false. *)
Definition d_empty (o : OBJ) : bool := false.

Definition d_touch : OM unit :=
  o ← d_self;
  d_journal_append (dTouchChange (do_address o) (do_touched o) true);;
  d_set_self (λ o, o <| do_touched := true |>).

Definition dobj_setVote (amount : Z) : OM unit :=
  d_set_self (λ o, o <| do_data ::= λ d, d <| d_Vote := amount |> |>).

Definition dobj_SubVote (amount : Z) : OM unit :=
  o ← d_self;
  if amount =? 0 then mret tt
  else
    let result := d_Vote (do_data o) - amount in
    if result <? 0 then dobj_setVote 0 else dobj_setVote result.

Definition dobj_AddVote (amount : Z) : OM unit :=
  o ← d_self;
  if amount =? 0 then (if d_empty o then d_touch else mret tt)
  else dobj_setVote (d_Vote (do_data o) + amount).

Definition dobj_GetState (key : hash) : OM hash :=
  o ← d_self;
  match do_cachedStorage o !! key with
  | Some value => mret value
  | None =>
    tr ← d_getTrie;
    let '(enc, err) := TryGet tr key in
    match err with
    | Some _ => dobj_setError err;; mret hash0
    | None =>
      value ← (if decide (enc = []) then mret hash0
               else let '(content, err) := d_rlp_SplitValue enc in
                    (match err with Some _ => dobj_setError err | None => mret tt end);;
                    mret (BytesToHash content));
      (if decide (value = hash0) then mret tt
       else d_set_self (λ o, o <| do_cachedStorage ::= <[key := value]> |>));;
      mret value
    end
  end.

Definition dobj_setState (key value : hash) : OM unit :=
  d_set_self (λ o, o <| do_cachedStorage ::= <[key := value]> |>
                     <| do_dirtyStorage ::= <[key := value]> |>).

Definition dobj_SetState (key value : hash) : OM unit :=
  prevalue ← dobj_GetState key;
  o ← d_self;
  d_journal_append (dStorageChange (do_address o) key prevalue);;
  dobj_setState key value.

Fixpoint d_updateTrie_loop (entries : list (hash * hash)) (tr : ST) : OM ST :=
  match entries with
  | [] => mret tr
  | (key, value) :: rest =>
    d_set_self (λ o, o <| do_dirtyStorage ::= delete key |>);;
    let '(tr', err) := if decide (value = hash0) then TryDelete tr key
                       else TryUpdate tr key (d_rlp_EncodeValue value) in
    dobj_setError err;;
    d_updateTrie_loop rest tr'
  end.

Definition d_updateTrie : OM ST :=
  tr ← d_getTrie;
  o ← d_self;
  tr' ← d_updateTrie_loop (map_to_list (do_dirtyStorage o)) tr;
  d_set_self (λ o, o <| do_trie := Some tr' |>);;
  mret tr'.

Definition d_updateRoot : OM unit :=
  tr ← d_updateTrie;
  d_set_self (λ o, o <| do_data ::= λ d, d <| d_Root := trie_Hash tr |> |>).

(** ** The database *)

Definition d_setError (err : option gerror) : DM unit :=
  gmodify (λ s, match dd_dbErr s with None => s <| dd_dbErr := err |> | Some _ => s end).

Definition d_setStateObject (o : OBJ) : DM unit :=
  gmodify (λ s, s <| dd_objects ::= <[do_address o := o]> |>).

(** Run a method on an object the database holds. *)
Definition d_on_object {A} (o : OBJ) (m : OM A) : DM A := λ s,
  match m (s, o) with
  | Ret (a, (s', o')) => Ret (a, s' <| dd_objects ::= <[do_address o' := o']> |>)
  | Panic w => Panic w
  end.

(** Load an address the live set does not hold. *)
Definition d_load (addr : address) : DM (option OBJ) :=
  s ← gget;
  let '(enc, err) := TryGet (dd_trie s) addr in
  if decide (enc = []) then d_setError err;; mret None
  else match rlp_DecodeDelegate enc with
  | None => mret None
  | Some data =>
    let '(obj, s') := d_newObject addr data s in
    gmodify (λ _, s');;
    d_setStateObject obj;;
    mret (Some obj)
  end.

Definition getStateObjectContainDelete (addr : address) : DM (option OBJ) :=
  s ← gget;
  match dd_objects s !! addr with
  | Some obj => mret (Some obj)
  | None => d_load addr
  end.

Definition d_GetStateObject (addr : address) : DM (option OBJ) :=
  s ← gget;
  match dd_objects s !! addr with
  | Some obj => if do_deleted obj || d_Delete (do_data obj) then mret None else mret (Some obj)
  | None => d_load addr
  end.

Definition d_db_journal_append (e : delegateEntry ST) : DM unit :=
  gmodify (λ s, s <| dd_journal ::= λ j, j ++ [e] |>).

Definition d_createObject (addr : address) (nickname : bytes) (registerTime : Z)
  : DM (OBJ * option OBJ) :=
  prev ← d_GetStateObject addr;
  s ← gget;
  let '(newobj, s') := d_newObject addr (mkDelegate hash0 0 nickname registerTime false) s in
  gmodify (λ _, s');;
  d_db_journal_append (match prev with
                       | None => dCreateObjectChange addr
                       | Some prev => dResetObjectChange prev
                       end);;
  d_setStateObject newobj;;
  mret (newobj, prev).

Definition d_Exist (addr : address) : DM bool :=
  obj ← d_GetStateObject addr; mret (match obj with Some _ => true | None => false end).
Definition SubExist (addr : address) : DM bool :=
  obj ← getStateObjectContainDelete addr; mret (match obj with Some _ => true | None => false end).

Definition GetVote (addr : address) : DM Z :=
  obj ← getStateObjectContainDelete addr;
  mret (match obj with Some o => d_Vote (do_data o) | None => 0 end).

(** [tryMarkDirty] after the object's method finds the callback nil. *)
Definition AddVote (addr : address) (amount : Z) : DM unit :=
  obj ← d_GetStateObject addr;
  match obj with Some o => d_on_object o (dobj_AddVote amount) | None => mret tt end.

Definition SubVote (addr : address) (amount : Z) : DM unit :=
  obj ← getStateObjectContainDelete addr;
  match obj with Some o => d_on_object o (dobj_SubVote amount) | None => mret tt end.

Definition SetVote (addr : address) (amount : Z) : DM unit :=
  obj ← d_GetStateObject addr;
  match obj with Some o => d_on_object o (dobj_setVote amount) | None => mret tt end.

(** A cancelled delegate that registers again keeps its votes.  [AddVote] works on
    the object just made, which is the one returned. *)
Definition d_GetOrNewStateObject (addr : address) (nickname : bytes) (registerTime : Z) : DM (option OBJ) :=
  obj ← getStateObjectContainDelete addr;
  match obj with
  | None => '(o, _) ← d_createObject addr nickname registerTime; mret (Some o)
  | Some o =>
    if d_Delete (do_data o) then
      let preVote := d_Vote (do_data o) in
      _ ← d_createObject addr nickname registerTime;
      AddVote addr preVote;;
      s ← gget; mret (dd_objects s !! addr)
    else mret (Some o)
  end.

Definition d_GetState (a : address) (key : hash) : DM hash :=
  obj ← d_GetStateObject a;
  match obj with Some o => d_on_object o (dobj_GetState key) | None => mret hash0 end.

Definition d_SetState (addr : address) (key value : hash) : DM unit :=
  obj ← d_GetStateObject addr;
  match obj with Some o => d_on_object o (dobj_SetState key value) | None => mret tt end.

Definition d_Suicide (addr : address) : DM bool :=
  obj ← d_GetStateObject addr;
  match obj with
  | None => mret false
  | Some o =>
    d_db_journal_append (dSuicideChange addr (do_suicided o) (d_Vote (do_data o)));;
    d_on_object o (d_set_self (λ o, o <| do_data ::= λ d, d <| d_Delete := true |> |>));;
    mret true
  end.

Definition d_HasSuicided (addr : address) : DM bool :=
  obj ← d_GetStateObject addr;
  mret (match obj with Some o => d_Delete (do_data o) | None => false end).

Definition d_AddLog (log : Log) : DM unit :=
  s ← gget;
  d_db_journal_append (dAddLogChange (dd_thash s));;
  let log := log <| log_TxHash := dd_thash s |> <| log_BlockHash := dd_bhash s |>
                 <| log_TxIndex := u64 (dd_txIndex s) |> <| log_Index := dd_logSize s |> in
  gmodify (λ s, s <| dd_logs ::= <[dd_thash s := default [] (dd_logs s !! dd_thash s) ++ [log]]> |>
                  <| dd_logSize ::= λ n, u64 (n + 1) |>).

Definition d_Prepare (thash bhash : hash) (ti : Z) : DM unit :=
  gmodify (λ s, s <| dd_thash := thash |> <| dd_bhash := bhash |> <| dd_txIndex := ti |>).

(** ** Journal *)

Definition d_ripemd : address := to_word 160 3.

Definition d_undo_object (account : address) (m : OM unit) : DM unit :=
  obj ← d_GetStateObject account;
  match obj with
  | Some o => d_on_object o m
  | None => gpanic "nil delegate object"
  end.

Definition d_undo (e : delegateEntry ST) : DM unit :=
  match e with
  | dCreateObjectChange account =>
    gmodify (λ s, s <| dd_objects ::= delete account |> <| dd_dirty ::= λ d, d ∖ {[account]} |>)
  | dResetObjectChange prev => d_setStateObject prev
  | dAddLogChange txhash =>
    s ← gget;
    let logs := default [] (dd_logs s !! txhash) in
    if (length logs =? 0)%nat then gpanic "slice bounds out of range"
    else
      gmodify (λ s,
        s <| dd_logs ::= (if (length logs =? 1)%nat then delete txhash
                          else <[txhash := take (length logs - 1) logs]>) |>
          <| dd_logSize ::= λ n, u64 (n - 1) |>)
  | dStorageChange account key prevalue => d_undo_object account (dobj_setState key prevalue)
  | dVoteChange account prev => d_undo_object account (dobj_setVote prev)
  | dTouchChange account prev prevDirty =>
    if negb prev && negb (bool_decide (account = d_ripemd)) then
      d_undo_object account (d_set_self (λ o, o <| do_touched := prev |>));;
      if negb prevDirty then gmodify (λ s, s <| dd_dirty ::= λ d, d ∖ {[account]} |>) else mret tt
    else mret tt
  | dSuicideChange account prev prevVote =>
    obj ← d_GetStateObject account;
    match obj with
    | Some o => d_on_object o (d_set_self (λ o, o <| do_suicided := prev |>);; dobj_setVote prevVote)
    | None => mret tt
    end
  end.

Fixpoint d_undo_all (es : list (delegateEntry ST)) : DM unit :=
  match es with
  | [] => mret tt
  | e :: es => d_undo e;; d_undo_all es
  end.

Definition d_Snapshot : DM Z :=
  s ← gget;
  let id := dd_nextRevisionId s in
  gmodify (λ s, s <| dd_nextRevisionId ::= λ n, n + 1 |>
                  <| dd_validRevisions ::= λ l, l ++ [mkRevision id (length (dd_journal s))] |>);;
  mret id.

Definition d_RevertToSnapshot (revid : Z) : DM unit :=
  s ← gget;
  let revs := dd_validRevisions s in
  let idx := search (length revs) (λ i, revid <=? rev_id (revs !!! i)) in
  if (idx =? length revs)%nat || negb (rev_id (revs !!! idx) =? revid) then
    gpanic "revision id cannot be reverted"
  else
    let snapshot := rev_journalIndex (revs !!! idx) in
    d_undo_all (reverse (drop snapshot (dd_journal s)));;
    gmodify (λ s, s <| dd_journal ::= take snapshot |> <| dd_validRevisions ::= take idx |>).

(** ** Writing back *)

Definition d_updateStateObject (o : OBJ) : DM unit :=
  s ← gget;
  let '(tr, err) := TryUpdate (dd_trie s) (do_address o) (rlp_EncodeDelegate (do_data o)) in
  gmodify (λ s, s <| dd_trie := tr |>);;
  d_setError err.

Definition d_deleteStateObject (o : OBJ) : DM unit :=
  d_setStateObject (o <| do_deleted := true |>);;
  s ← gget;
  let '(tr, err) := TryDelete (dd_trie s) (do_address o) in
  gmodify (λ s, s <| dd_trie := tr |>);;
  d_setError err.

Definition d_clearJournal : DM unit :=
  gmodify (λ s, s <| dd_journal := [] |> <| dd_validRevisions := [] |>).

Definition d_current (addr : address) : DM OBJ :=
  s ← gget;
  match dd_objects s !! addr with
  | Some o => mret o
  | None => gpanic "nil delegate object"
  end.

Definition d_finalise_object (addr : address) : DM unit :=
  o ← d_current addr;
  if do_suicided o then d_deleteStateObject o
  else
    d_on_object o d_updateRoot;;
    o' ← d_current addr;
    d_updateStateObject o'.

Fixpoint d_finalise_loop (addrs : list address) : DM unit :=
  match addrs with
  | [] => mret tt
  | addr :: addrs => d_finalise_object addr;; d_finalise_loop addrs
  end.

Definition d_Finalise : DM unit :=
  s ← gget;
  d_finalise_loop (elements (dd_dirty s));;
  d_clearJournal.

Definition d_IntermediateRoot : DM hash :=
  d_Finalise;;
  greads (λ s, trie_Hash (dd_trie s)).

Fixpoint loadDelegateToCache (keys : list address) : DM unit :=
  match keys with
  | [] => mret tt
  | addr :: keys => _ ← d_GetStateObject addr; loadDelegateToCache keys
  end.

Definition d_New (root : hash) : outcome (DDB + gerror) :=
  match ddb_OpenTrie root with
  | inr err => Ret (inr err)
  | inl tr =>
    let s := mkDelegateDB tr ∅ ∅ None hash0 hash0 0 ∅ 0 [] [] 0 in
    match loadDelegateToCache (trie_keys tr) s with
    | Ret (_, s') => Ret (inl s')
    | Panic w => Panic w
    end
  end.

Definition d_Reset (root : hash) : DM (option gerror) :=
  match ddb_OpenTrie root with
  | inr err => mret (Some err)
  | inl tr =>
    gmodify (λ s, s <| dd_trie := tr |> <| dd_objects := ∅ |> <| dd_dirty := ∅ |>
                    <| dd_thash := hash0 |> <| dd_bhash := hash0 |> <| dd_txIndex := 0 |>
                    <| dd_logs := ∅ |> <| dd_logSize := 0 |>);;
    d_clearJournal;;
    mret None
  end.
End Operations.
