(* ===== verification/Candidates.v ===== *)
(** * The order of the delegates ([core/types/delegatePoll.go], [GetDelegates])

    [GetDelegates] collects the live delegates in the order Go iterates over a
    map, which is arbitrary, and sorts them with [sort.Sort], which is not
    stable.  All nodes must still agree on the result, since the first
    [maxElectDelegate] delegates of the list produce the blocks. *)

From S2P Require Import Prelude Interfaces StateTypes Hex DelegateState.

(** ** [CandidateSlice.Less] *)

(** Go's [<] on strings. *)
Fixpoint bytes_lt (a b : bytes) : bool :=
  match a, b with
  | _, [] => false
  | [], _ :: _ => true
  | x :: a, y :: b =>
    (byte_val x <? byte_val y) || ((byte_val x =? byte_val y) && bytes_lt a b)
  end.

(** [Less(i, j)] for [x] at [i] and [y] at [j]. *)
Definition Less (x y : Candidate) : bool :=
  if negb (c_Vote y =? c_Vote x) then c_Vote y <? c_Vote x
  else if negb (c_RegisterTime y =? c_RegisterTime x) then c_RegisterTime y >? c_RegisterTime x
  else bytes_lt (c_Address y) (c_Address x).

(** What [sort.Sort] makes of a list: a rearrangement in which no element is less
    than one before it. *)
Definition sorted_by_Less (l : list Candidate) : Prop :=
  StronglySorted (λ x y, Less y x = false) l.
Definition sort_result (l l' : list Candidate) : Prop := l' ≡ₚ l ∧ sorted_by_Less l'.

(** ** Order properties *)

Lemma bytes_lt_irrefl a : bytes_lt a a = false.
Proof. induction a as [|x a IH]; simpl; [done|]. by rewrite Z.ltb_irrefl, Z.eqb_refl, IH. Qed.

Lemma bytes_lt_cons x a y b :
  bytes_lt (x :: a) (y :: b) = true ↔
  byte_val x < byte_val y ∨ (byte_val x = byte_val y ∧ bytes_lt a b = true).
Proof. simpl. by rewrite orb_true_iff, andb_true_iff, Z.ltb_lt, Z.eqb_eq. Qed.

Lemma bytes_lt_trans a b c : bytes_lt a b = true → bytes_lt b c = true → bytes_lt a c = true.
Proof.
  revert b c. induction a as [|x a IH]; intros [|y b] [|z c]; try done.
  rewrite !bytes_lt_cons. intros [?|[? ?]] [?|[? ?]]; [left; lia..|]. right. split; [lia|eauto].
Qed.

Lemma bytes_lt_total a b : bytes_lt a b = false → bytes_lt b a = false → a = b.
Proof.
  revert b. induction a as [|x a IH]; intros [|y b]; simpl; try done.
  rewrite !orb_false_iff, !andb_false_iff, !Z.ltb_ge, !Z.eqb_neq. intros [? ?] [? ?].
  assert (byte_val x = byte_val y) as E by lia. apply byte_val_inj in E as ->.
  f_equal. apply IH; naive_solver.
Qed.

Lemma Less_spec x y :
  Less x y = true ↔
  c_Vote y < c_Vote x ∨
  (c_Vote y = c_Vote x ∧ (c_RegisterTime x < c_RegisterTime y ∨
   (c_RegisterTime x = c_RegisterTime y ∧ bytes_lt (c_Address y) (c_Address x) = true))).
Proof.
  unfold Less. destruct (Z.eqb_spec (c_Vote y) (c_Vote x)) as [E|E]; simpl.
  - destruct (Z.eqb_spec (c_RegisterTime y) (c_RegisterTime x)) as [E'|E']; simpl.
    + naive_solver lia.
    + rewrite Z.gtb_lt. naive_solver lia.
  - rewrite Z.ltb_lt. naive_solver lia.
Qed.

Lemma Less_trans x y z : Less x y = true → Less y z = true → Less x z = true.
Proof.
  rewrite !Less_spec. intros [?|[? [?|[? Hxy]]]] [?|[? [?|[? Hyz]]]]; try (left; lia);
    right; (split; [lia|]); try (left; lia).
  right. split; [lia|]. by eapply bytes_lt_trans.
Qed.

Lemma Less_irrefl x : Less x x = false.
Proof.
  destruct (Less x x) eqn:E; [|done]. apply Less_spec in E as [?|[_ [?|[_ E]]]]; [lia|lia|].
  by rewrite bytes_lt_irrefl in E.
Qed.

(** What the order looks at. *)
Definition rank (x : Candidate) : Z * Z * bytes := (c_Vote x, c_RegisterTime x, c_Address x).

Lemma Less_antisym x y : Less x y = false → Less y x = false → rank x = rank y.
Proof.
  intros H1 H2. apply not_true_iff_false in H1, H2. rewrite Less_spec in H1, H2.
  assert (c_Vote x = c_Vote y) as E1 by lia. assert (c_RegisterTime x = c_RegisterTime y) as E2 by lia.
  unfold rank. rewrite E1, E2. f_equal.
  apply bytes_lt_total; apply not_true_iff_false; intros Hb; [apply H2|apply H1]; right;
    (split; [done|]); right; done.
Qed.

Lemma Less_rank x y z : rank x = rank y → Less x z = Less y z.
Proof. intros [= E1 E2 E3]. unfold Less. by rewrite E1, E2, E3. Qed.

(** ** [GetDelegates] *)

Definition before (x y : Candidate) : Prop := Less y x = false.
#[export] Instance before_dec x y : Decision (before x y) := decide (Less y x = false).

#[export] Instance before_total : Total before.
Proof.
  intros x y. unfold before. destruct (Less y x) eqn:E1; [|by left]. right.
  destruct (Less x y) eqn:E2; [|done]. pose proof (Less_trans _ _ _ E1 E2) as H.
  by rewrite Less_irrefl in H.
Qed.

#[export] Instance before_trans : Transitive before.
Proof.
  intros x y z. unfold before. intros H1 H2. destruct (Less z x) eqn:E; [|done].
  destruct (Less y z) eqn:E1; [by rewrite (Less_trans _ _ _ E1 E) in H1|].
  by rewrite (Less_rank z y x (Less_antisym _ _ H2 E1)), H1 in E.
Qed.

Section GetDelegates.
Context {AT ST : Type}.
Variable keccak : bytes → bytes.

Definition candidate_of (p : address * delegateObject ST) : Candidate :=
  let d := do_data p.2 in
  mkCandidate (Hex keccak p.1) (u64 (d_Vote d)) (d_Nickname d) (d_RegisterTime d).

Definition listed (p : address * delegateObject ST) : Prop :=
  d_Delete (do_data p.2) = false ∧ do_suicided p.2 = false.
#[export] Instance listed_dec p : Decision (listed p).
Proof. unfold listed. apply _. Defined.

(** The list before sorting, for the objects in the order they are visited. *)
Definition candidates (objects : list (address * delegateObject ST)) : list Candidate :=
  candidate_of <$> filter listed objects.

Definition GetDelegates (s : DelegateDB AT ST) : list Candidate :=
  merge_sort before (candidates (map_to_list (dd_objects s))).

Lemma GetDelegates_sorted s : sort_result (candidates (map_to_list (dd_objects s))) (GetDelegates s).
Proof.
  unfold GetDelegates. split; [by rewrite merge_sort_Permutation|]. apply (StronglySorted_merge_sort before).
Qed.

(** Addresses identify the candidates of a state. *)
Lemma candidates_unique (m : gmap address (delegateObject ST)) x y :
  x ∈ candidates (map_to_list m) → y ∈ candidates (map_to_list m) → rank x = rank y → x = y.
Proof.
  unfold candidates. intros ([a o] & -> & [_ Ha%elem_of_map_to_list]%list_elem_of_filter)%list_elem_of_fmap.
  intros ([b p] & -> & [_ Hb%elem_of_map_to_list]%list_elem_of_filter)%list_elem_of_fmap.
  intros Hr. assert (E : Hex keccak a = Hex keccak b) by exact (f_equal snd Hr).
  apply Hex_inj in E as ->. congruence.
Qed.
End GetDelegates.

(** All nodes agree on the list of delegates.  Whatever order the map of
    delegates is visited in and whatever rearrangement [sort.Sort] settles on,
    the sorted list of live delegates is the same: by votes downwards, among
    equals by registration time upwards, among those by address downwards. *)
Theorem delegates_deterministic {AT ST} (keccak : bytes → bytes) (s : DelegateDB AT ST)
    (visited : list (address * delegateObject ST)) (result : list Candidate) :
  visited ≡ₚ map_to_list (dd_objects s) → sort_result (candidates keccak visited) result →
  result = GetDelegates keccak s.
Proof.
  intros Hv [Hp Hs]. destruct (GetDelegates_sorted keccak s) as [Gp Gs].
  assert (E : result ≡ₚ candidates keccak (map_to_list (dd_objects s))).
  { rewrite Hp. unfold candidates. by rewrite Hv. }
  apply (StronglySorted_unique_strong before); [|done|done|by rewrite E, Gp].
  intros x y Hx Hy H1 H2. apply (candidates_unique keccak (dd_objects s)).
  - by rewrite <- E.
  - by rewrite <- Gp.
  - by apply Less_antisym.
Qed.

Definition sample_delegates : DelegateDB unit unit :=
  let d v t := mkDelegate hash0 v [] t false in
  let o a x := mkDObject a x None None ∅ ∅ false false false in
  mkDelegateDB tt
    (list_to_map (map (λ p : Z * Z * Z, (to_word 160 p.1.1, o (to_word 160 p.1.1) (d p.1.2 p.2)))
       [(1, 5, 100); (2, 9, 200); (3, 5, 50); (4, 5, 100)]))
    ∅ None hash0 hash0 0 ∅ 0 [] [] 0.

Lemma delegates_deterministic_witness :
  ∃ result, sort_result (candidates (λ b, b) (reverse (map_to_list (dd_objects sample_delegates)))) result ∧
    c_Vote <$> result = [9; 5; 5; 5] ∧ c_RegisterTime <$> result = [200; 50; 100; 100].
Proof.
  set (visited := reverse (map_to_list (dd_objects sample_delegates))).
  assert (Hs : sort_result (candidates (λ b, b) visited) (merge_sort before (candidates (λ b, b) visited))).
  { split; [by rewrite merge_sort_Permutation|apply (StronglySorted_merge_sort before)]. }
  exists (merge_sort before (candidates (λ b, b) visited)). split; [exact Hs|].
  rewrite (delegates_deterministic (λ b, b) sample_delegates visited _ (reverse_Permutation _) Hs).
  by vm_compute.
Defined.
