(* ===== verification/VoteCount.v ===== *)
(** * Counting votes ([core/vote_util.go], [core/state_processor.go])

    After a transaction ran, [voteChangeToDelegateState] carries its votes,
    registration or cancellation over to the delegate state.  The votes of a
    transaction are first added up per candidate in a Go map, which is then
    iterated in arbitrary order. *)

From S2P Require Import Prelude Assets Interfaces AssetInfo StateTypes StateSample StateDB StateRevert.
From S2P Require Import StateSnapshot Accounts Hex DelegateState Votes.

(** Transaction actions ([core/types/transaction.go]). *)
Definition ActionTrans : Z := 0.
Definition ActionRegister : Z := 1.
Definition ActionAddVote : Z := 2.
Definition ActionSubVote : Z := 3.
Definition ActionPublishAsset : Z := 4.
Definition ActionCreateContract : Z := 5.
Definition ActionCallContract : Z := 6.

(** The constants of [vote_util.go]. *)
Definition register : Z := 1.
Definition addVote : Z := 2.
Definition subVote : Z := 3.
Definition cancel : Z := 4.

(** [types.VoteCandidate] *)
Record VoteCandidate : Type := mkVoteCandidate {
  vc_Address : bytes;
  vc_Vote : Z;
  vc_Nickname : bytes;
  vc_Action : Z
}.

Inductive core_error : Type :=
| ErrDuplicateRegisterAgent
| ErrAddVote
| ErrSubVote
| ErrSubVoteNotEnough
| ErrCancelAgent
| ErrUnmarshal (e : gerror).

(** [params.TxGasAgentCreation] *)
Definition registerCost : Z := 5000000 * 10 ^ 18.

(** The parts of a transaction the counting reads.  [tx_Vote] is what
    [BytesToVote] makes of its vote field. *)
Record VoteTx : Type := mkVoteTx {
  tx_Action : Z;
  tx_Vote : list VoteItem + gerror;
  tx_Nickname : bytes
}.

Section Count.
Context {AT ST VL DT DS : Type} `{ENV : StateEnv AT ST VL} `{DENV : DelegateEnv DT DS}.
Variable keccak : bytes → bytes.

(** The order in which a [range] loop visits a map. *)
Variable iterate : gmap bytes Z → list (bytes * Z).

#[local] Abbreviation SDB := (StateDB AT ST VL).
#[local] Abbreviation DDB := (DelegateDB DT DS).
#[local] Abbreviation BM := (GM (SDB * DDB)).

Definition on_sdb {A} (m : GM SDB A) : BM A := λ sd,
  match m sd.1 with Ret (r, s) => Ret (r, (s, sd.2)) | Panic w => Panic w end.
Definition on_ddb {A} (m : GM DDB A) : BM A := λ sd,
  match m sd.2 with Ret (r, d) => Ret (r, (sd.1, d)) | Panic w => Panic w end.
Definition lift_outcome {S A} (o : outcome A) : GM S A := λ s,
  match o with Ret a => Ret (a, s) | Panic w => Panic w end.

(** One vote added to the map; a new key starts at 1 or -1. *)
Definition count_vote (m : gmap bytes Z) (v : VoteItem) : outcome (gmap bytes Z) :=
  match Candidate v with
  | None => Panic "nil candidate"
  | Some c =>
    let address := ToLower (Hex keccak c) in
    if Operation v =? 0 then Ret (<[address := default 0 (m !! address) + 1]> m)
    else if Operation v =? 1 then Ret (<[address := default 0 (m !! address) - 1]> m)
    else Ret m
  end.

Fixpoint count_votes (vs : list VoteItem) (m : gmap bytes Z) : outcome (gmap bytes Z) :=
  match vs with
  | [] => Ret m
  | v :: vs => m' ← count_vote m v; count_votes vs m'
  end.

(** The second loop of [CountTrxVote]. *)
Definition net_candidate (p : bytes * Z) : VoteCandidate :=
  if p.2 <? 0 then mkVoteCandidate p.1 (- p.2) [] subVote
  else mkVoteCandidate p.1 p.2 [] addVote.

(** The last part: a delegate whose balance fell below the cost of registering is
    cancelled. *)
Definition add_cancel (from : bytes) (candidates : list VoteCandidate) : BM (list VoteCandidate) :=
  addr ← lift_outcome (HexToAddress from);
  exist ← on_ddb (d_Exist addr);
  match exist with
  | true =>
    b ← on_sdb (GetBalance addr);
    mret (if b <? registerCost then candidates ++ [mkVoteCandidate from 0 [] cancel] else candidates)
  | false => mret candidates
  end.

Definition CountTrxVote (from : bytes) (tx : VoteTx) : BM (list VoteCandidate + core_error) :=
  if (tx_Action tx =? ActionAddVote) || (tx_Action tx =? ActionSubVote) then
    match tx_Vote tx with
    | inr e => mret (inr (ErrUnmarshal e))
    | inl votes =>
      candidateVotes ← lift_outcome (count_votes votes ∅);
      candidates ← add_cancel from (net_candidate <$> iterate candidateVotes);
      mret (inl candidates)
    end
  else
    candidates ← add_cancel from (if tx_Action tx =? ActionRegister
                                  then [mkVoteCandidate from 0 (tx_Nickname tx) register] else []);
    mret (inl candidates).

Definition voteCount (v : VoteCandidate) (blockTime : Z) : GM DDB (option core_error) :=
  address ← lift_outcome (HexToAddress (vc_Address v));
  if vc_Action v =? register then
    exist ← d_Exist address;
    match exist with
    | true => mret (Some ErrDuplicateRegisterAgent)
    | false => _ ← d_GetOrNewStateObject address (vc_Nickname v) blockTime; mret None
    end
  else if vc_Action v =? addVote then
    exist ← d_Exist address;
    match exist with
    | false => mret (Some ErrAddVote)
    | true => AddVote address (i64 (vc_Vote v));; mret None
    end
  else if vc_Action v =? subVote then
    exist ← SubExist address;
    match exist with
    | false => mret (Some ErrSubVote)
    | true =>
      vote ← GetVote address;
      let subVoteNumber := i64 (vc_Vote v) in
      if i64 vote <? subVoteNumber then mret (Some ErrSubVoteNotEnough)
      else SubVote address subVoteNumber;; mret None
    end
  else if vc_Action v =? cancel then
    exist ← d_Exist address;
    match exist with
    | false => mret (Some ErrCancelAgent)
    | true => _ ← d_Suicide address; mret None
    end
  else mret None.

Fixpoint voteCount_all (vs : list VoteCandidate) (blockTime : Z) : GM DDB (option core_error) :=
  match vs with
  | [] => mret None
  | v :: vs =>
    err ← voteCount v blockTime;
    match err with
    | Some e => mret (Some e)
    | None => voteCount_all vs blockTime
    end
  end.

Definition voteChangeToDelegateState (from : address) (tx : VoteTx) (blockTime : Z)
  : BM (option core_error) :=
  r ← CountTrxVote (ToLower (Hex keccak from)) tx;
  match r with
  | inr e => mret (Some e)
  | inl candidates => on_ddb (voteCount_all candidates blockTime)
  end.
End Count.

(** ** Adding up *)

Section Net.
Variable keccak : bytes → bytes.

Definition key (c : address) : bytes := ToLower (Hex keccak c).

#[export] Instance key_inj : Inj (=) (=) key.
Proof. intros a b. apply lower_Hex_inj. Qed.

(** What one vote, and a list of votes, change for a candidate. *)
Definition net_one (v : VoteItem) (c : address) : Z :=
  if decide (Candidate v = Some c) then
    (if Operation v =? 0 then 1 else if Operation v =? 1 then -1 else 0)
  else 0.
Definition net (vs : list VoteItem) (c : address) : Z := foldr (λ v acc, net_one v c + acc) 0 vs.

(** Candidates a list of votes adds or withdraws a vote for. *)
Definition mentions (vs : list VoteItem) (c : address) : Prop :=
  ∃ v, v ∈ vs ∧ Candidate v = Some c ∧ (Operation v = 0 ∨ Operation v = 1).

Lemma net_unmentioned vs c : ¬ mentions vs c → net vs c = 0.
Proof.
  intros H. induction vs as [|v vs IH]; simpl; [done|]. rewrite IH.
  - unfold net_one. case_decide as E; [|done].
    destruct (Z.eqb_spec (Operation v) 0) as [E0|_]; [|destruct (Z.eqb_spec (Operation v) 1) as [E1|_]; [|done]].
    + destruct H. exists v. split_and!; [apply list_elem_of_here|done|by left].
    + destruct H. exists v. split_and!; [apply list_elem_of_here|done|by right].
  - intros (w & Hw & ?). apply H. exists w. split; [by apply list_elem_of_further|done].
Qed.

Lemma mentions_cons v vs c :
  mentions (v :: vs) c ↔ (Candidate v = Some c ∧ (Operation v = 0 ∨ Operation v = 1)) ∨ mentions vs c.
Proof.
  unfold mentions. split.
  - intros (w & [->|Hw]%elem_of_cons & H); [by left|right; eauto].
  - intros [H|(w & Hw & H)]; [exists v|exists w]; (split; [|done]);
      [apply list_elem_of_here|by apply list_elem_of_further].
Qed.

Lemma net_bound vs c : Z.abs (net vs c) ≤ Z.of_nat (length vs).
Proof.
  induction vs as [|v vs IH]; cbn [net foldr length]; [done|]. fold (net vs c).
  assert (Z.abs (net_one v c) ≤ 1) by (unfold net_one; repeat case_match; lia). lia.
Qed.

#[export] Instance mentions_dec vs c : Decision (mentions vs c).
Proof.
  refine (cast_if (decide (Exists (λ v, Candidate v = Some c ∧ (Operation v = 0 ∨ Operation v = 1)) vs)));
    unfold mentions; rewrite <- ?Exists_exists; done.
Defined.

(** What the counting loop leaves for the key of a candidate. *)
Definition counted (vs : list VoteItem) (m : gmap bytes Z) (c : address) : option Z :=
  if decide (mentions vs c) then Some (default 0 (m !! key c) + net vs c) else m !! key c.

Lemma counted_step v vs m m' c :
  is_Some (Candidate v) → count_vote keccak m v = Ret m' → counted vs m' c = counted (v :: vs) m c.
Proof.
  intros [x Ex]. unfold count_vote. rewrite Ex. fold (key x). intros E.
  assert (Hv : Candidate v = Some c ↔ x = c) by (rewrite Ex; naive_solver).
  assert (Hm : mentions (v :: vs) c ↔ (x = c ∧ (Operation v = 0 ∨ Operation v = 1)) ∨ mentions vs c).
  { by rewrite mentions_cons, Hv. }
  assert (Hn : net (v :: vs) c = (if decide (x = c) then net_one v c else 0) + net vs c).
  { cbn [net foldr]. f_equal. unfold net_one. repeat case_decide; naive_solver. }
  unfold counted. rewrite Hn. unfold net_one.
  destruct (decide (x = c)) as [->|Hne].
  - rewrite (decide_True (P := Candidate v = Some c)) by done.
    destruct (Z.eqb_spec (Operation v) 0) as [E0|N0]; [|destruct (Z.eqb_spec (Operation v) 1) as [E1|N1]];
      injection E as <-; rewrite ?lookup_insert_eq.
    + rewrite (decide_True (P := mentions (v :: vs) c)) by naive_solver.
      case_decide as Hu; [|rewrite (net_unmentioned _ _ Hu)]; f_equal; simpl; lia.
    + rewrite (decide_True (P := mentions (v :: vs) c)) by naive_solver.
      case_decide as Hu; [|rewrite (net_unmentioned _ _ Hu)]; f_equal; simpl; lia.
    + repeat case_decide; naive_solver.
  - assert (Hk : m' !! key c = m !! key c).
    { repeat case_match; injection E as <-; rewrite ?lookup_insert_ne; try done;
        intros ?%(inj key); done. }
    rewrite Hk. repeat case_decide; naive_solver.
Qed.

Lemma count_votes_run vs m :
  Forall (λ v, is_Some (Candidate v)) vs → ∃ m', count_votes keccak vs m = Ret m' ∧
  (∀ c, m' !! key c = counted vs m c) ∧ (∀ k, (∀ c, k ≠ key c) → m' !! k = m !! k).
Proof.
  intros Hc. revert m. induction Hc as [|v vs Hv Hc IH]; intros m.
  { exists m. split_and!; [done| |done]. intros c. unfold counted. rewrite decide_False; [done|].
    by intros (v & Hv%elem_of_nil & _). }
  assert (∃ m1, count_vote keccak m v = Ret m1 ∧ ∀ k, (∀ c, k ≠ key c) → m1 !! k = m !! k) as (m1 & E & F).
  { destruct Hv as [x Ex]. unfold count_vote. rewrite Ex. fold (key x).
    repeat case_match; (eexists; split; [done|]); intros k Hk; rewrite ?lookup_insert_ne; done. }
  destruct (IH m1) as (m' & E' & L & K). exists m'. cbn [count_votes]. rewrite E.
  split_and!; [done| |intros k Hk; by rewrite K, F]. intros c. rewrite L. by apply counted_step.
Qed.

(** The counts of a transaction: one entry per candidate it mentions. *)
Lemma count_votes_entries vs m' :
  Forall (λ v, is_Some (Candidate v)) vs → count_votes keccak vs ∅ = Ret m' →
  ∀ k n, m' !! k = Some n ↔ ∃ c, k = key c ∧ mentions vs c ∧ n = net vs c.
Proof.
  intros Hc E k n. destruct (count_votes_run vs ∅ Hc) as (m1 & E1 & L & K).
  rewrite E in E1. injection E1 as <-.
  assert (Lc : ∀ c, m' !! key c = if decide (mentions vs c) then Some (net vs c) else None).
  { intros c. rewrite L. unfold counted. rewrite lookup_empty. by case_decide. }
  split.
  - intros H. assert (∃ c, k = key c) as [c ->].
    { destruct (HexToAddress k) as [c|w] eqn:Ek; [destruct (decide (k = key c)) as [?|Hne]; [by exists c|]|];
        (rewrite K in H; [done|]; intros c' ->; unfold key in *; rewrite HexToAddress_lower in Ek; congruence). }
    rewrite Lc in H. case_decide; naive_solver.
  - intros (c & -> & Hm & ->). by rewrite Lc, decide_True.
Qed.
End Net.

(** ** The delegates after a transaction *)

Section Tally.
Context {DT DS : Type} `{DENV : DelegateEnv DT DS}.
Variable keccak : bytes → bytes.

#[local] Abbreviation DDB := (DelegateDB DT DS).
#[local] Abbreviation DOBJ := (delegateObject DS).

Definition add_vote (n : Z) (o : DOBJ) : DOBJ := o <| do_data ::= λ d, d <| d_Vote ::= Z.add n |> |>.
Definition cancelled (o : DOBJ) : DOBJ := o <| do_data ::= λ d, d <| d_Delete := true |> |>.

(** A delegate that is registered and not cancelled. *)
Definition serves (o : DOBJ) : Prop := do_deleted o = false ∧ d_Delete (do_data o) = false.

(** The delegates are in memory, as [New] leaves them, each object under its own
    address, with a count that fits an [int64]. *)
Record loaded (s : DDB) : Prop := mkLoaded {
  ld_all a : dd_objects s !! a = None → TryGet (dd_trie s) a = ([], None);
  ld_address a o : dd_objects s !! a = Some o → do_address o = a;
  ld_votes a o : dd_objects s !! a = Some o → 0 ≤ d_Vote (do_data o) < 2 ^ 63
}.

(** A change of [n] votes is refused for a delegate that does not serve, and when
    more votes are withdrawn than were given. *)
Definition acceptable (s : DDB) (c : address) (n : Z) : Prop :=
  match dd_objects s !! c with
  | Some o => if n <? 0 then - n ≤ d_Vote (do_data o) else serves o
  | None => False
  end.

Lemma d_load_nothing s a : loaded s → dd_objects s !! a = None → d_load a s = Ret (None, s).
Proof.
  intros L H. unfold d_load. erewrite GM_bind_run by reflexivity. cbn [fst snd]. rewrite (ld_all _ L a H).
  cbv iota beta. rewrite decide_True by done. unfold d_setError. erewrite GM_bind_run by reflexivity.
  by destruct s as [? ? ? [] ? ? ? ? ? ? ? ?].
Qed.

Lemma GetStateObject_loaded s a :
  loaded s → d_GetStateObject a s =
  Ret (match dd_objects s !! a with
       | Some o => if do_deleted o || d_Delete (do_data o) then None else Some o
       | None => None
       end, s).
Proof.
  intros L. unfold d_GetStateObject. erewrite GM_bind_run by reflexivity. cbn [fst snd].
  destruct (dd_objects s !! a) as [o|] eqn:E; [by destruct (_ || _)|by apply d_load_nothing].
Qed.

Lemma ContainDelete_loaded s a :
  loaded s → getStateObjectContainDelete a s = Ret (dd_objects s !! a, s).
Proof.
  intros L. unfold getStateObjectContainDelete. erewrite GM_bind_run by reflexivity. cbn [fst snd].
  destruct (dd_objects s !! a) as [o|] eqn:E; [done|by apply d_load_nothing].
Qed.

Lemma Exist_loaded s a :
  loaded s → ∃ b, d_Exist a s = Ret (b, s) ∧ (b = true ↔ ∃ o, dd_objects s !! a = Some o ∧ serves o).
Proof.
  intros L. unfold d_Exist. rewrite (GM_bind_run _ _ _ _ _ (GetStateObject_loaded s a L)).
  unfold serves. destruct (dd_objects s !! a) as [o|]; [|exists false; naive_solver].
  exists (negb (do_deleted o || d_Delete (do_data o))). split; [by destruct (_ || _)|].
  rewrite negb_true_iff, orb_false_iff. split; [by exists o|]. by intros (? & [= <-] & H).
Qed.

Lemma on_object_alter (s : DDB) c o (f : DOBJ → DOBJ) m :
  dd_objects s !! c = Some o → do_address o = c → do_address (f o) = do_address o →
  m (s, o) = Ret (tt, (s, f o)) → d_on_object o m s = Ret (tt, s <| dd_objects ::= alter f c |>).
Proof.
  intros Ho Hc Hf E. unfold d_on_object. rewrite E, Hf, Hc. do 2 f_equal.
  destruct s as [? objs ? ? ? ? ? ? ? ? ? ?]; unfold upd; simpl in *. f_equal.
  apply map_eq. intros a. rewrite lookup_insert, lookup_alter. case_decide; [by subst; rewrite Ho|done].
Qed.

Lemma SubVote_loaded (s : DDB) c o n :
  loaded s → dd_objects s !! c = Some o → 0 ≤ n ≤ d_Vote (do_data o) →
  SubVote c n s = Ret (tt, s <| dd_objects ::= alter (add_vote (- n)) c |>).
Proof.
  intros L Ho Hn. unfold SubVote. rewrite (GM_bind_run _ _ _ _ _ (ContainDelete_loaded s c L)), Ho.
  apply on_object_alter; [done|by apply (ld_address _ L)|done|].
  unfold dobj_SubVote. erewrite GM_bind_run by reflexivity. cbn [fst snd].
  destruct o as [? [] ? ? ? ? ? ? ?]. simpl in Hn. destruct (Z.eqb_spec n 0) as [->|]; [done|].
  simpl. destruct (Z.ltb_spec (d_Vote - n) 0); [lia|]. unfold dobj_setVote, d_set_self, add_vote; simpl.
  unfold upd; simpl. do 5 f_equal. lia.
Qed.

Lemma AddVote_loaded (s : DDB) c o n :
  loaded s → dd_objects s !! c = Some o → serves o →
  AddVote c n s = Ret (tt, s <| dd_objects ::= alter (add_vote n) c |>).
Proof.
  intros L Ho [Hs Hd]. unfold AddVote. rewrite (GM_bind_run _ _ _ _ _ (GetStateObject_loaded s c L)), Ho, Hs, Hd.
  apply on_object_alter; [done|by apply (ld_address _ L)|done|].
  unfold dobj_AddVote. erewrite GM_bind_run by reflexivity. cbn [fst snd].
  destruct o as [? [] ? ? ? ? ? ? ?]. destruct (Z.eqb_spec n 0) as [->|]; [done|].
  unfold dobj_setVote, d_set_self, add_vote; simpl. unfold upd; simpl. do 5 f_equal. lia.
Qed.

(** What [voteCount] answers for the net change of one candidate, and the state
    it leaves. *)
Lemma voteCount_net (s : DDB) c n t :
  loaded s → Z.abs n < 2 ^ 63 →
  ∃ e, voteCount (net_candidate (key keccak c, n)) t s =
    Ret (e, match e with None => s <| dd_objects ::= alter (add_vote n) c |> | Some _ => s end) ∧
  (e = None ↔ acceptable s c n).
Proof.
  intros L Hn. unfold voteCount, net_candidate, acceptable. cbn [fst snd].
  destruct (Z.ltb_spec n 0) as [Hs|Ha]; cbn [vc_Address vc_Action vc_Vote];
    erewrite GM_bind_run by (unfold lift_outcome, key; rewrite HexToAddress_lower; reflexivity);
    cbn [fst snd].
  - change (subVote =? register) with false. change (subVote =? addVote) with false.
    change (subVote =? subVote) with true. cbv iota. unfold SubExist, GetVote.
    pose proof (ContainDelete_loaded s c L) as E.
    rewrite (GM_bind_run _ _ _ _ s (GM_bind_run _ _ _ _ _ E)).
    destruct (dd_objects s !! c) as [o|] eqn:Eo; [|by exists (Some ErrSubVote)].
    rewrite (GM_bind_run _ _ _ _ s (GM_bind_run _ _ _ _ _ E)).
    pose proof (ld_votes _ L _ _ Eo). rewrite !i64_small by lia.
    destruct (Z.ltb_spec (d_Vote (do_data o)) (- n)) as [Hlt|Hge].
    + exists (Some ErrSubVoteNotEnough). split; [done|]. split; [done|lia].
    + exists None. split; [|done]. rewrite (GM_bind_run _ _ _ _ _ (SubVote_loaded _ _ _ (- n) L Eo ltac:(lia))).
      by rewrite Z.opp_involutive.
  - change (addVote =? register) with false. change (addVote =? addVote) with true. cbv iota.
    destruct (Exist_loaded s c L) as (b & E & Hb). rewrite (GM_bind_run _ _ _ _ _ E).
    rewrite i64_small by lia. destruct (dd_objects s !! c) as [o|] eqn:Eo.
    + destruct b.
      * destruct Hb as [(o' & [= <-] & Hsv) _]; [done|]. exists None.
        by rewrite (GM_bind_run _ _ _ _ _ (AddVote_loaded _ _ _ n L Eo Hsv)).
      * exists (Some ErrAddVote). split; [done|]. split; [done|]. intros Hsv.
        assert (false = true) by (apply Hb; eauto). done.
    + exists (Some ErrAddVote). destruct b; [|done]. destruct Hb as [(? & [=] & _) _]. done.
Qed.
Lemma loaded_alter (s : DDB) c n :
  loaded s → (∀ o, dd_objects s !! c = Some o → 0 ≤ d_Vote (do_data o) + n < 2 ^ 63) →
  loaded (s <| dd_objects ::= alter (add_vote n) c |>).
Proof.
  intros [L1 L2 L3] Hn. constructor; cbn [dd_objects dd_trie upd]; intros a; rewrite ?lookup_alter.
  - case_decide; [|apply L1]. subst. rewrite fmap_None. apply L1.
  - intros o. case_decide; [|apply L2]. subst. intros (x & Hx & ->)%fmap_Some. by apply L2 in Hx.
  - intros o. case_decide; [|apply L3]. subst. intros (x & Hx & ->)%fmap_Some. simpl. rewrite Z.add_comm. auto.
Qed.

(** The net changes applied one after another. *)
Definition tally (ps : list (address * Z)) (objs : gmap address DOBJ) : gmap address DOBJ :=
  foldl (λ m p, alter (add_vote p.2) p.1 m) objs ps.

Lemma add_vote_0 o : add_vote 0 o = o.
Proof. by destruct o as [? [] ? ? ? ? ? ? ?]. Qed.

Lemma tally_lookup ps objs a :
  NoDup ps.*1 →
  tally ps objs !! a = add_vote (default 0 ((list_to_map ps : gmap address Z) !! a)) <$> objs !! a.
Proof.
  revert objs. induction ps as [|[c n] ps IH]; intros objs Hd; cbn [fmap list_fmap fst] in Hd.
  - simpl. rewrite lookup_empty. destruct (objs !! a); simpl; [by rewrite add_vote_0|done].
  - apply NoDup_cons in Hd as [Hc Hd]. change (tally ((c, n) :: ps) objs) with (tally ps (alter (add_vote n) c objs)).
    rewrite IH by done. rewrite list_to_map_cons, lookup_alter, lookup_insert. destruct (decide (c = a)) as [->|Hne].
    + rewrite not_elem_of_list_to_map_1 by done. simpl. destruct (objs !! a); simpl; [by rewrite add_vote_0|done].
    + done.
Qed.

(** The counts leave room for the changes. *)
Definition roomy (s : DDB) (ps : list (address * Z)) : Prop :=
  ∀ c n o, (c, n) ∈ ps → dd_objects s !! c = Some o → d_Vote (do_data o) + n < 2 ^ 63.

Lemma voteCount_all_net ps t (s : DDB) :
  loaded s → NoDup ps.*1 → Forall (λ p, Z.abs p.2 < 2 ^ 63) ps → roomy s ps →
  ∃ e s', voteCount_all ((λ p, net_candidate (key keccak p.1, p.2)) <$> ps) t s = Ret (e, s') ∧
    (e = None ↔ Forall (λ p, acceptable s p.1 p.2) ps) ∧
    (e = None → s' = s <| dd_objects ::= tally ps |> ∧ loaded s').
Proof.
  intros L Hd Hb. revert s L. induction Hb as [|[c n] ps Hn Hb IH]; intros s L Hr.
  { exists None, s. split_and!; [done|by split|]. intros _. split; [by destruct s|done]. }
  cbn [fmap list_fmap fst snd] in *. apply NoDup_cons in Hd as [Hc Hd].
  destruct (voteCount_net s c n t L Hn) as (e & E & He). cbn [voteCount_all].
  rewrite (GM_bind_run _ _ _ _ _ E). destruct e as [e|].
  { exists (Some e), s. split_and!; [done| |done]. split; [done|]. intros Hf. apply Forall_cons in Hf as [Hf _].
    by apply He in Hf. }
  destruct He as [Ha _]. specialize (Ha eq_refl).
  set (s1 := s <| dd_objects ::= alter (add_vote n) c |>).
  assert (Hs1 : ∀ x, x ≠ c → dd_objects s1 !! x = dd_objects s !! x).
  { intros x Hx. unfold s1; cbn [dd_objects upd]. by rewrite lookup_alter_ne. }
  assert (Hin : ∀ p, p ∈ ps → p.1 ≠ c) by (intros p Hp <-; apply Hc, list_elem_of_fmap; eauto).
  destruct (IH Hd s1) as (e & s' & E' & Hiff & Hfin).
  - apply loaded_alter; [done|]. intros o Ho. pose proof (ld_votes _ L _ _ Ho).
    pose proof (Hr c n o ltac:(by left) Ho). unfold acceptable in Ha. rewrite Ho in Ha.
    destruct (Z.ltb_spec n 0); lia.
  - intros x m o Hx Ho. rewrite Hs1 in Ho by (by apply (Hin _ Hx)). by apply (Hr x m o); [right|].
  - exists e, s'. split_and!; [done| |intros ->; by apply Hfin].
    rewrite Hiff, Forall_cons. cbn [fst snd]. enough (Forall (λ p, acceptable s1 p.1 p.2) ps ↔ Forall (λ p, acceptable s p.1 p.2) ps)
      as -> by naive_solver.
    rewrite !Forall_forall. unfold acceptable. split; intros Hf p Hp; specialize (Hf p Hp);
      rewrite Hs1 in * by auto; done.
Qed.
End Tally.

Section Transaction.
Context {AT ST VL DT DS : Type} `{ENV : StateEnv AT ST VL} `{DENV : DelegateEnv DT DS}.
Variable keccak : bytes → bytes.
Variable iterate : gmap bytes Z → list (bytes * Z).
Hypothesis iterate_perm : ∀ m, iterate m ≡ₚ map_to_list m.

#[local] Abbreviation SDB := (StateDB AT ST VL).
#[local] Abbreviation DDB := (DelegateDB DT DS).
#[local] Abbreviation DOBJ := (delegateObject DS).

(** The sender is a delegate that no longer holds what registering costs. *)
Definition falls (s : SDB) (d : DDB) (from : address) : Prop :=
  balance s from < registerCost ∧ ∃ o, dd_objects d !! from = Some o ∧ serves o.

#[export] Instance falls_dec s d from : Decision (falls s d from).
Proof.
  unfold falls, serves. destruct (dd_objects d !! from) as [o|].
  - destruct (decide (balance s from < registerCost ∧ do_deleted o = false ∧ d_Delete (do_data o) = false)).
    + left. naive_solver.
    + right. naive_solver.
  - right. naive_solver.
Defined.

Lemma add_cancel_run (s : SDB) (d : DDB) from cs :
  wf s → loaded d → ∃ b s', reads s s' ∧ (b = true ↔ falls s d from) ∧
  add_cancel (key keccak from) cs (s, d) =
  Ret (cs ++ (if b : bool then [mkVoteCandidate (key keccak from) 0 [] cancel] else []), (s', d)).
Proof.
  intros W L. unfold add_cancel, falls. erewrite (GM_bind_run _ _ _ from (s, d)).
  2: { unfold lift_outcome, key. by rewrite HexToAddress_lower. }
  destruct (Exist_loaded d from L) as (x & E & Hx).
  rewrite (GM_bind_run _ _ _ x (s, d)) by (unfold on_ddb; cbn [snd]; by rewrite E).
  destruct x.
  - destruct (GetBalance_reads s from W) as (s' & Eb & R). exists (balance s from <? registerCost), s'.
    split_and!; [done| |].
    + rewrite Z.ltb_lt. naive_solver.
    + rewrite (GM_bind_run _ _ _ (balance s from) (s', d)) by (unfold on_sdb; cbn [fst snd]; by rewrite Eb).
      destruct (_ <? _); [done|]. by rewrite app_nil_r.
  - exists false, s. rewrite app_nil_r. split_and!; [by apply reads_refl|naive_solver|done].
Qed.

Lemma voteCount_all_app l1 l2 t (d d1 : DDB) e :
  voteCount_all l1 t d = Ret (e, d1) →
  voteCount_all (l1 ++ l2) t d = match e with None => voteCount_all l2 t d1 | Some e => Ret (Some e, d1) end.
Proof.
  revert d. induction l1 as [|v l1 IH]; intros d; cbn [voteCount_all app]; [by intros [= <- <-]|].
  intros (x & d2 & E & H)%GM_bind_Ret. rewrite (GM_bind_run _ _ _ _ _ E). destruct x; [|by apply IH].
  by injection H as <- <-.
Qed.

(** A delegate that serves can be cancelled. *)
Lemma voteCount_cancel (d : DDB) from o t :
  loaded d → dd_objects d !! from = Some o → serves o →
  ∃ d', voteCount (mkVoteCandidate (key keccak from) 0 [] cancel) t d = Ret (None, d') ∧
        dd_objects d' = alter cancelled from (dd_objects d).
Proof.
  intros L Ho Hs. unfold voteCount. cbn [vc_Address vc_Action].
  erewrite (GM_bind_run _ _ _ from d) by (unfold lift_outcome, key; by rewrite HexToAddress_lower).
  change (cancel =? register) with false. change (cancel =? addVote) with false.
  change (cancel =? subVote) with false. change (cancel =? cancel) with true. cbv iota.
  destruct (Exist_loaded d from L) as (x & E & Hx). rewrite (GM_bind_run _ _ _ _ _ E).
  destruct x; [|destruct Hx as [_ Hx]; discriminate Hx; eauto].
  unfold d_Suicide. destruct Hs as [Hs1 Hs2].
  set (d1 := d <| dd_journal ::= λ j, j ++ [dSuicideChange from (do_suicided o) (d_Vote (do_data o))] |>).
  assert (Ea : d_on_object o (d_set_self cancelled) d1 = Ret (tt, d1 <| dd_objects ::= alter cancelled from |>)).
  { apply on_object_alter; [done|by apply (ld_address _ L)|done|done]. }
  exists (d1 <| dd_objects ::= alter cancelled from |>). split; [|done].
  rewrite (GM_bind_run _ _ _ true (d1 <| dd_objects ::= alter cancelled from |>)); [done|].
  rewrite (GM_bind_run _ _ _ _ _ (GetStateObject_loaded d from L)), Ho, Hs1, Hs2. cbn [orb].
  erewrite GM_bind_run by reflexivity. fold d1. by rewrite (GM_bind_run _ _ _ _ _ Ea).
Qed.

(** The list the counts are read from, as candidates. *)
Lemma counted_candidates vs m :
  Forall (λ v, is_Some (Candidate v)) vs → count_votes keccak vs ∅ = Ret m →
  ∃ cs, iterate m = (λ c, (key keccak c, net vs c)) <$> cs ∧ NoDup cs ∧ ∀ c, c ∈ cs ↔ mentions vs c.
Proof.
  intros Hc E. pose proof (count_votes_entries keccak vs m Hc E) as Hm.
  assert (∃ cs, iterate m = (λ c, (key keccak c, net vs c)) <$> cs) as [cs Ecs].
  { assert (Hf : Forall (λ p, ∃ c, p = (key keccak c, net vs c)) (iterate m)).
    { apply Forall_forall. intros [k n] Hp. rewrite iterate_perm in Hp.
      apply elem_of_map_to_list, Hm in Hp as (c & -> & _ & ->). by exists c. }
    clear -Hf. induction Hf as [|p l [c ->] Hf [cs ->]]; [by exists []|by exists (c :: cs)]. }
  exists cs. split_and!; [done| |].
  - pose proof (NoDup_fst_map_to_list m) as Hn. rewrite <- iterate_perm, Ecs in Hn.
    rewrite <- list_fmap_compose in Hn. by eapply NoDup_fmap_1.
  - intros c. assert (Hi : (key keccak c, net vs c) ∈ iterate m ↔ mentions vs c).
    { rewrite iterate_perm, elem_of_map_to_list, Hm. split; [|by exists c].
      by intros (c' & ->%(inj (key keccak)) & ? & _). }
    rewrite <- Hi, Ecs, list_elem_of_fmap. split; [by exists c|].
    intros (c' & Ep%(f_equal fst) & ?). by apply (inj (key keccak)) in Ep as ->.
Qed.

(** The delegates after the votes [vs] and, if the sender falls, its cancellation. *)
Definition outcome_of (s : SDB) (d : DDB) (from : address) (vs : list VoteItem) (objs : gmap address DOBJ) : Prop :=
  ∀ a, let counted := add_vote (net vs a) <$> dd_objects d !! a in
  (falls s d from → objs !! a = if decide (a = from) then cancelled <$> counted else counted) ∧
  (¬ falls s d from → objs !! a = counted).

Lemma tally_net vs cs (objs : gmap address DOBJ) a :
  NoDup cs → (∀ c, c ∈ cs ↔ mentions vs c) →
  tally ((λ c, (c, net vs c)) <$> cs) objs !! a = add_vote (net vs a) <$> objs !! a.
Proof.
  intros Hd Hc. rewrite tally_lookup by (rewrite <- list_fmap_compose; by rewrite list_fmap_id).
  enough (default 0 ((list_to_map ((λ c, (c, net vs c)) <$> cs) : gmap address Z) !! a) = net vs a) as -> by done.
  destruct (decide (a ∈ cs)) as [Ha|Ha].
  - rewrite (elem_of_list_to_map_1 _ a (net vs a)); [done| |].
    + rewrite <- list_fmap_compose; by rewrite list_fmap_id.
    + apply list_elem_of_fmap. by exists a.
  - rewrite not_elem_of_list_to_map_1; [|rewrite <- list_fmap_compose; by rewrite list_fmap_id].
    simpl. symmetry. apply net_unmentioned. by rewrite <- Hc.
Qed.

(** A vote transaction up to the changes of the delegates. *)
Lemma voteChange_votes (s s' : SDB) (d : DDB) from tx vs t m cs :
  tx_Action tx = ActionAddVote ∨ tx_Action tx = ActionSubVote → tx_Vote tx = inl vs →
  count_votes keccak vs ∅ = Ret m →
  add_cancel (key keccak from) (net_candidate <$> iterate m) (s, d) = Ret (cs, (s', d)) →
  voteChangeToDelegateState keccak iterate from tx t (s, d) = on_ddb (voteCount_all cs t) (s', d).
Proof.
  intros Ha Hv Em Ec. unfold voteChangeToDelegateState. fold (key keccak from).
  rewrite (GM_bind_run _ _ _ (inl cs) (s', d)); [done|].
  unfold CountTrxVote. replace (_ || _) with true by (by destruct Ha as [-> | ->]). rewrite Hv.
  rewrite (GM_bind_run _ _ _ m (s, d)) by (unfold lift_outcome; by rewrite Em).
  by rewrite (GM_bind_run _ _ _ _ _ Ec).
Qed.

Lemma voteChange_run (s : SDB) (d : DDB) from tx vs t :
  wf s → loaded d → tx_Action tx = ActionAddVote ∨ tx_Action tx = ActionSubVote → tx_Vote tx = inl vs →
  Forall (λ v, is_Some (Candidate v)) vs → Z.of_nat (length vs) < 2 ^ 63 →
  (∀ c o, dd_objects d !! c = Some o → d_Vote (do_data o) + net vs c < 2 ^ 63) →
  ∃ e s' d', voteChangeToDelegateState keccak iterate from tx t (s, d) = Ret (e, (s', d')) ∧ reads s s' ∧
    (e = None ↔ ∀ c, mentions vs c → acceptable d c (net vs c)) ∧
    (e = None → outcome_of s d from vs (dd_objects d')).
Proof.
  intros W L Ha Hv Hc Hlen Hroom.
  destruct (count_votes_run keccak vs ∅ Hc) as (m & Em & _).
  destruct (counted_candidates vs m Hc Em) as (cs & Ei & Hd & Hcs).
  destruct (add_cancel_run s d from (net_candidate <$> iterate m) W L) as (b & s' & R & Hb & Ec).
  set (ps := (λ c, (c, net vs c)) <$> cs).
  assert (Ep : net_candidate <$> iterate m = (λ p, net_candidate (key keccak p.1, p.2)) <$> ps).
  { rewrite Ei. unfold ps. by rewrite <- !list_fmap_compose. }
  assert (Hd' : NoDup ps.*1) by (unfold ps; rewrite <- list_fmap_compose; by rewrite list_fmap_id).
  destruct (voteCount_all_net keccak ps t d L Hd') as (e & d1 & E & He & Hfin).
  { apply Forall_fmap, Forall_forall. intros c _. simpl. pose proof (net_bound vs c). lia. }
  { intros c n o (c' & [= -> ->] & _)%list_elem_of_fmap. apply Hroom. }
  assert (Hacc : Forall (λ p, acceptable d p.1 p.2) ps ↔ ∀ c, mentions vs c → acceptable d c (net vs c)).
  { unfold ps. rewrite Forall_fmap, Forall_forall. simpl. by setoid_rewrite Hcs. }
  rewrite Hacc in He.
  rewrite (voteChange_votes s s' d from tx vs t m _ Ha Hv Em Ec), Ep.
  unfold on_ddb. cbn [fst snd]. rewrite (voteCount_all_app _ _ _ _ _ _ E).
  destruct e as [e|]; [by exists (Some e), s', d1|].
  destruct (Hfin eq_refl) as [Ed1 L1]. 
  assert (Ht : ∀ a, dd_objects d1 !! a = add_vote (net vs a) <$> dd_objects d !! a).
  { intros a. rewrite Ed1. cbn [dd_objects upd]. by apply tally_net. }
  destruct b; cbn [voteCount_all].
  - destruct Hb as [Hb _]. specialize (Hb eq_refl). destruct Hb as (Hbal & o & Ho & Hs).
    destruct (voteCount_cancel d1 from (add_vote (net vs from) o) t L1) as (d2 & E2 & Hd2).
    { by rewrite Ht, Ho. }
    { done. }
    rewrite (GM_bind_run _ _ _ _ _ E2). exists None, s', d2. split_and!; [done|done|done|].
    intros _ a. split; [|intros []; by split; eauto]. intros _. rewrite Hd2, lookup_alter, Ht.
    repeat case_decide; (done || congruence).
  - exists None, s', d1. split_and!; [done|done|done|]. intros _ a. split; [|done].
    intros Hf. by apply Hb in Hf.
Qed.
End Transaction.
