(* ===== verification/VoteLedger.v ===== *)
(** * Votes add up

    An account's vote list is kept in its account ([core/evm.go], [Vote]); the
    number of votes of a delegate is kept in the delegate state
    ([core/state_processor.go], [voteChangeToDelegateState]).  The two are updated
    by different code.  This file shows that they stay in step: the votes of a
    delegate are the number of accounts whose list names it. *)

From S2P Require Import Prelude Assets Interfaces AssetInfo StateTypes StateSample StateDB StateRevert.
From S2P Require Import StateSnapshot Accounts Hex DelegateState Votes VoteCount.

(** ** What a list of votes does to one candidate *)

Definition ind (P : Prop) `{Decision P} : Z := if decide P then 1 else 0.

Lemma remove_first_elem c x l : NoDup l → c ∈ l → x ∈ remove_first c l ↔ x ∈ l ∧ x ≠ c.
Proof.
  intros Hd. induction Hd as [|a l Ha Hd IH]; intros Hc; [by apply elem_of_nil in Hc|]. simpl.
  destruct (decide (c = a)) as [->|Hne]; rewrite ?elem_of_cons; [naive_solver|].
  apply elem_of_cons in Hc as [?|Hc]; [done|]. rewrite IH by done. naive_solver.
Qed.

Lemma vote_one_net dl l v l' c :
  NoDup l → vote_one dl l v = Some l' →
  is_Some (Candidate v) ∧ net_one v c = ind (c ∈ l') - ind (c ∈ l) ∧
  (Operation v = 0 → Candidate v = Some c → c ∈ dl) ∧ (Operation v = 1 → Candidate v = Some c → c ∈ l).
Proof.
  intros Hd. destruct (vote_op_cases (Operation v)) as [E|[E|[E0 E1]]]; [| |by rewrite vote_one_other].
  - unfold vote_one, net_one. rewrite E. destruct (Candidate v) as [x|]; [|done]. cbn [Z.eqb].
    destruct (decide (x ∈ l)); [done|]. destruct (decide (x ∈ dl)); [|done]. intros [= <-].
    split_and!; [done| |naive_solver|done]. unfold ind.
    repeat case_decide; simplify_eq; try done; set_solver.
  - unfold vote_one, net_one. rewrite E. destruct (Candidate v) as [x|]; [|done]. cbn [Z.eqb].
    destruct (decide (x ∈ l)); [|done]. intros [= <-]. split_and!; [done| |done|naive_solver].
    unfold ind. pose proof (remove_first_elem x c l Hd). repeat case_decide; simplify_eq; try done; naive_solver.
Qed.

Lemma vote_all_net dl vs l l' c :
  NoDup l → vote_all dl l vs = Some l' →
  Forall (λ v, is_Some (Candidate v)) vs ∧ net vs c = ind (c ∈ l') - ind (c ∈ l) ∧
  (mentions vs c → 0 ≤ net vs c → c ∈ dl).
Proof.
  revert l. induction vs as [|v vs IH]; intros l Hd; simpl.
  { intros [= <-]. split_and!; [by constructor|lia|]. by intros (v & Hv%elem_of_nil & _). }
  destruct (vote_one dl l v) as [l1|] eqn:E1; [|done]. simpl. intros E.
  destruct (vote_one_net _ _ _ _ c Hd E1) as (Hc & Hn & H0 & H1).
  pose proof (vote_one_NoDup _ _ _ _ Hd E1) as Hd1. destruct (IH l1 Hd1 E) as (Hf & Hnet & Hm).
  split_and!; [by constructor|lia|]. rewrite mentions_cons.
  destruct (decide (Candidate v = Some c ∧ Operation v = 0)) as [[]|Hno]; [auto|].
  intros Hmen Hpos. assert (Hle : net_one v c ≤ 0).
  { unfold net_one. destruct (decide (Candidate v = Some c)); [|lia]. destruct (Z.eqb_spec (Operation v) 0); [naive_solver|].
    destruct (Operation v =? 1); lia. }
  destruct (decide (mentions vs c)) as [Hmv|Hmv]; [apply Hm; [done|lia]|].
  rewrite (net_unmentioned vs c Hmv) in Hpos. destruct Hmen as [[Hcv [?|Ho]]|?]; [naive_solver| |done].
  unfold net_one in Hpos. rewrite decide_True, Ho in Hpos by done. simpl in Hpos. lia.
Qed.

(** ** The ledger *)

Section Ledger.
Context {AT ST DT DS : Type} `{ENV : StateEnv AT ST slice} `{DENV : DelegateEnv DT DS}.

#[local] Abbreviation SDB := (StateDB AT ST slice).
#[local] Abbreviation DDB := (DelegateDB DT DS).

(** How many of the accounts [voters] vote for [c]. *)
Definition support (h : heap) (s : SDB) (voters : list address) (c : address) : Z :=
  foldr (λ a n, ind (c ∈ votes h s a) + n) 0 voters.

(** Two accounts share an array only if nothing fits in it, as nil slices do. *)
Record ledger (h : heap) (s : SDB) (d : DDB) (voters : list address) : Prop := mkLedger {
  lg_votes c o : dd_objects d !! c = Some o → d_Vote (do_data o) = support h s voters c;
  lg_known a c : c ∈ votes h s a → is_Some (dd_objects d !! c);
  lg_voters a : a ∈ voters → voter_ok h s a;
  lg_others a : a ∉ voters → votes h s a = [];
  lg_valid a : valid_slice h (a_VoteList (acct s a));
  lg_apart a b : a ≠ b → sl_arr (a_VoteList (acct s a)) = sl_arr (a_VoteList (acct s b)) →
    array h (sl_arr (a_VoteList (acct s a))) = []
}.

Lemma support_change h s h' s' voters user c :
  NoDup voters → user ∈ voters → (∀ a, a ≠ user → votes h' s' a = votes h s a) →
  support h' s' voters c = support h s voters c + ind (c ∈ votes h' s' user) - ind (c ∈ votes h s user).
Proof.
  intros Hd Hu Hx.
  assert (Hout : ∀ l, user ∉ l → support h' s' l c = support h s l c).
  { induction l as [|a l IH]; intros Hn; [done|]. apply not_elem_of_cons in Hn as [? ?]. simpl.
    fold (support h' s' l c) (support h s l c). rewrite IH by done. by rewrite Hx. }
  induction Hd as [|a l Ha Hd IH]; [by apply elem_of_nil in Hu|]. simpl.
  fold (support h' s' l c) (support h s l c). destruct (decide (a = user)) as [->|Hne].
  - rewrite Hout by done. lia.
  - apply elem_of_cons in Hu as [?|Hu]; [done|]. rewrite IH by done. rewrite Hx by done. lia.
Qed.

Lemma support_bounds h s voters c : 0 ≤ support h s voters c ≤ Z.of_nat (length voters).
Proof.
  induction voters as [|a l IH]; simpl; [lia|]. fold (support h s l c).
  assert (0 ≤ ind (c ∈ votes h s a) ≤ 1) by (unfold ind; case_decide; lia). lia.
Qed.

Lemma support_pos h s voters a c : a ∈ voters → c ∈ votes h s a → 1 ≤ support h s voters c.
Proof.
  intros Ha Hc. induction voters as [|x l IH]; [by apply elem_of_nil in Ha|]. simpl. fold (support h s l c).
  pose proof (support_bounds h s l c). apply elem_of_cons in Ha as [<-|Ha].
  - unfold ind. rewrite decide_True by done. lia.
  - specialize (IH Ha). unfold ind. case_decide; lia.
Qed.

(** [s'] has the votes and locks of [s]; balances, nonces and code may differ. *)
Definition same_votes (s s' : SDB) : Prop :=
  ∀ a, a_VoteList (acct s' a) = a_VoteList (acct s a) ∧ lock s' a = lock s a.

Lemma same_votes_refl (s : SDB) : same_votes s s.
Proof. done. Qed.

Lemma votes_same h (s s' : SDB) a : same_votes s s' → votes h s' a = votes h s a.
Proof. intros H. unfold votes. by rewrite (proj1 (H a)). Qed.

(** The heap and the accounts after a vote that was carried out. *)
Lemma Vote_frame grow h (s : SDB) d voters user vs dl max r h' s' :
  wf s → ledger h s d voters → user ∈ voters → Forall has_candidate vs →
  Vote grow user vs (Some dl) max (h, s) = Ret (r, (h', s')) → r = None →
  wf s' ∧ vote_all dl (votes h s user) vs = Some (votes h' s' user) ∧ voter_ok h' s' user ∧
  (∀ a, a ≠ user → acct s' a = acct s a ∧ votes h' s' a = votes h s a) ∧
  (∀ a, valid_slice h' (a_VoteList (acct s' a))) ∧
  (∀ a b, a ≠ b → sl_arr (a_VoteList (acct s' a)) = sl_arr (a_VoteList (acct s' b)) →
    array h' (sl_arr (a_VoteList (acct s' a))) = []).
Proof.
  intros W L Hu Hc E ->. destruct (lg_voters _ _ _ _ L user Hu) as [Hk Hn].
  destruct (Vote_run grow h s user vs dl max _ W Hk (lg_valid _ _ _ _ L user) Hc)
    as (r & h2 & s2 & E2 & W2 & [Fn F] & X & R).
  rewrite E in E2. injection E2 as <- <- <-.
  destruct (vote_all dl (votes h s user) vs) as [l|] eqn:Ev; [|by destruct R].
  cbv zeta in R. destruct (_ >? _); [by destruct R|]. destruct R as (_ & _ & Rl & Rv & Rs & Ra).
  assert (Hkeep : ∀ a, a ≠ user → array h' (sl_arr (a_VoteList (acct s a))) = array h (sl_arr (a_VoteList (acct s a)))).
  { intros a Ha. apply F; [|apply (lg_valid _ _ _ _ L)]. destruct (decide (sl_arr (a_VoteList (acct s a)) =
      sl_arr (a_VoteList (acct s user)))) as [Eq|]; [right; by apply (lg_apart _ _ _ _ L a user)|by left]. }
  assert (Huser : ∀ b, b ≠ user → sl_arr (a_VoteList (acct s' user)) = sl_arr (a_VoteList (acct s b)) →
            array h' (sl_arr (a_VoteList (acct s b))) = []).
  { intros b Hb Eq. rewrite Hkeep by done. apply (lg_apart _ _ _ _ L b user Hb).
    destruct (lg_valid _ _ _ _ L b) as [_ ?]. destruct Ra as [Ra|Ra]; [congruence|lia]. }
  split_and!; [done|by rewrite Rv| | | |].
  - split; rewrite Rv; [rewrite Rl; f_equal; nia|by eapply vote_all_NoDup].
  - intros a Ha. split; [by apply X|]. unfold votes, contents. rewrite X by done. by rewrite Hkeep.
  - intros a. destruct (decide (a = user)) as [->|Ha]; [done|]. rewrite X by done.
    destruct (lg_valid _ _ _ _ L a) as [V1 V2]. split; [by rewrite Hkeep|lia].
  - intros a b Hab Eq. destruct (decide (a = user)) as [->|Ha].
    + rewrite Eq, (X b) in * by done. by apply Huser.
    + rewrite (X a) in * by done. destruct (decide (b = user)) as [->|Hb]; [by apply Huser|].
      rewrite (X b) in Eq by done. rewrite Hkeep by done. by apply (lg_apart _ _ _ _ L a b).
Qed.

(** The delegates after the count. *)
Lemma counted_objects s (d d' : DDB) user vs c :
  outcome_of s d user vs (dd_objects d') →
  (is_Some (dd_objects d !! c) → is_Some (dd_objects d' !! c)) ∧
  ∀ o', dd_objects d' !! c = Some o' →
    ∃ o, dd_objects d !! c = Some o ∧ d_Vote (do_data o') = d_Vote (do_data o) + net vs c.
Proof.
  intros Ho. assert (H : ∃ f : delegateObject DS → delegateObject DS,
    (∀ o, d_Vote (do_data (f o)) = d_Vote (do_data o)) ∧
    dd_objects d' !! c = f <$> (add_vote (net vs c) <$> dd_objects d !! c)).
  { destruct (decide (falls s d user)) as [Hf|Hf].
    - rewrite (proj1 (Ho c) Hf). case_decide; [by exists cancelled|]. exists id. by rewrite option_fmap_id.
    - rewrite (proj2 (Ho c) Hf). exists id. by rewrite option_fmap_id. }
  destruct H as (f & Hf & ->). split.
  - intros [o ->]. by eexists.
  - intros o' (o1 & (o & Hco & ->)%fmap_Some & ->)%fmap_Some. exists o. split; [done|].
    rewrite Hf. simpl. lia.
Qed.

Lemma ledger_after h h' s s' s2 s3 (d d' : DDB) voters user vs :
  ledger h s d voters → user ∈ voters → voter_ok h' s' user →
  (∀ a, a ≠ user → acct s' a = acct s a ∧ votes h' s' a = votes h s a) →
  (∀ a, valid_slice h' (a_VoteList (acct s' a))) →
  (∀ a b, a ≠ b → sl_arr (a_VoteList (acct s' a)) = sl_arr (a_VoteList (acct s' b)) →
    array h' (sl_arr (a_VoteList (acct s' a))) = []) →
  (∀ c, c ∈ votes h' s' user → is_Some (dd_objects d !! c)) →
  (∀ c, support h' s' voters c = support h s voters c + net vs c) →
  outcome_of s2 d user vs (dd_objects d') → same_votes s' s3 → ledger h' s3 d' voters.
Proof.
  intros L Hu Hok Hx Hval Hap Hknown Hsup Ho S3.
  assert (Hsupp : ∀ c, support h' s3 voters c = support h' s' voters c).
  { intros c. clear -S3. unfold support. induction voters as [|a l IH]; simpl; [done|].
    by rewrite (votes_same _ _ _ _ S3), IH. }
  constructor.
  - intros c o' Hc. destruct (counted_objects _ _ _ _ _ c Ho) as [_ H]. destruct (H o' Hc) as (o & Hco & ->).
    by rewrite Hsupp, Hsup, (lg_votes _ _ _ _ L c o Hco).
  - intros a c. rewrite (votes_same _ _ _ _ S3). intros Hc. apply (counted_objects _ _ _ _ _ c Ho).
    destruct (decide (a = user)) as [->|Hne]; [by apply Hknown|]. apply (lg_known _ _ _ _ L a).
    by rewrite <- (proj2 (Hx a Hne)).
  - intros a Ha. unfold voter_ok. rewrite (votes_same _ _ _ _ S3), (proj2 (S3 a)).
    destruct (decide (a = user)) as [->|Hne]; [done|]. rewrite (proj2 (Hx a Hne)).
    unfold lock. rewrite (proj1 (Hx a Hne)). by apply (lg_voters _ _ _ _ L).
  - intros a Ha. rewrite (votes_same _ _ _ _ S3). rewrite (proj2 (Hx a ltac:(congruence))).
    by apply (lg_others _ _ _ _ L).
  - intros a. rewrite (proj1 (S3 a)). apply Hval.
  - intros a b. rewrite (proj1 (S3 a)), (proj1 (S3 b)). apply Hap.
Qed.
End Ledger.

(** C4: The votes of a delegate are the accounts that vote for it.  If the delegate
    state and the accounts agree in this way before a vote transaction whose votes name
    candidates, [Vote] accepts it - so that it is neither refused nor taken back - and
    every delegate of the list [Vote] was given is a registered one of the delegate
    state, then counting them
    ([voteChangeToDelegateState]) cannot fail, whatever order the counts are visited
    in and whatever else the transaction did to balances, nonces and code, and the
    delegate state and the accounts agree afterwards.  The vote lists stay free of
    duplicates, with one AOA locked per vote, in arrays of their own. *)
Theorem votes_add_up {AT ST DT DS} `{ENV : StateEnv AT ST slice} `{DENV : DelegateEnv DT DS}
    (keccak : bytes → bytes) (iterate : gmap bytes Z → list (bytes * Z)) (grow : nat → nat) (h h' : heap)
    (s s' s2 : StateDB AT ST slice) (d : DelegateDB DT DS) (voters : list address) (user : address)
    (tx : VoteTx) (vs : list VoteItem) (dl : gset address) (max t : Z) :
  (∀ m, iterate m ≡ₚ map_to_list m) → wf s → loaded d → ledger h s d voters →
  NoDup voters → user ∈ voters → Z.of_nat (length voters) < 2 ^ 63 → Z.of_nat (length vs) < 2 ^ 63 →
  (∀ c, c ∈ dl → ∃ o, dd_objects d !! c = Some o ∧ serves o) →
  Forall has_candidate vs →
  tx_Action tx = ActionAddVote ∨ tx_Action tx = ActionSubVote → tx_Vote tx = inl vs →
  Vote grow user vs (Some dl) max (h, s) = Ret (None, (h', s')) → wf s2 → same_votes s' s2 →
  ∃ s3 d', voteChangeToDelegateState keccak iterate user tx t (s2, d) = Ret (None, (s3, d')) ∧
    ledger h' s3 d' voters.
Proof.
  intros Hit W Ld L Hd Hu Hlv Hlen Hdl Hc Ha Hv E W2 S2.
  destruct (Vote_frame grow h s d voters user vs dl max None h' s' W L Hu Hc E eq_refl)
    as (W' & Ev & Hok & Hx & Hval & Hap).
  destruct (lg_voters _ _ _ _ L user Hu) as [_ Hn].
  assert (Hnet : ∀ c, net vs c = ind (c ∈ votes h' s' user) - ind (c ∈ votes h s user)).
  { intros c. by apply (vote_all_net dl vs _ _ c Hn Ev). }
  assert (Hsup : ∀ c, support h' s' voters c = support h s voters c + net vs c).
  { intros c. rewrite Hnet, (support_change h s h' s' voters user c); [lia|done|done|]. intros a Hne. by apply Hx. }
  destruct (voteChange_run keccak iterate Hit s2 d user tx vs t) as (e & s3 & d' & E3 & R3 & He & Ho); try done.
  { by apply (vote_all_net dl vs _ _ user Hn Ev). }
  { intros c o Hco. rewrite (lg_votes _ _ _ _ L c o Hco), <- Hsup. pose proof (support_bounds h' s' voters c). lia. }
  assert (e = None) as ->.
  { apply He. intros c Hm. unfold acceptable. destruct (Z.ltb_spec (net vs c) 0) as [Hneg|Hpos].
    - assert (Hin : c ∈ votes h s user).
      { rewrite Hnet in Hneg. unfold ind in Hneg. repeat case_decide; done || lia. }
      destruct (lg_known _ _ _ _ L _ _ Hin) as [o Hco]. rewrite Hco, (lg_votes _ _ _ _ L c o Hco).
      pose proof (support_bounds h' s' voters c). specialize (Hsup c). lia.
    - destruct (Hdl c) as (o & Hco & Hs); [by eapply (vote_all_net dl vs)|]. by rewrite Hco. }
  exists s3, d'. split; [done|]. specialize (Ho eq_refl).
  assert (S3 : same_votes s' s3).
  { intros a. unfold lock. rewrite (reads_acct _ _ a R3). apply S2. }
  eapply ledger_after; try done. intros c Hin.
  destruct (decide (c ∈ votes h s user)) as [Hold|Hnew]; [by apply (lg_known _ _ _ _ L user)|].
  assert (net vs c = 1) as H1 by (rewrite Hnet; unfold ind; rewrite decide_True, decide_False by done; lia).
  destruct (Hdl c) as (o & Hco & _); [|by rewrite Hco].
  apply (vote_all_net dl vs _ _ c Hn Ev); [|lia]. destruct (decide (mentions vs c)) as [|Hm]; [done|].
  apply net_unmentioned in Hm. lia.
Qed.

(** ** A sample *)

Module SampleLedger.
Import SampleVotes.

(** Delegates over a finite map, none of which is stored yet. *)
#[export] Instance delegate_env : DelegateEnv (gmap address bytes) (gmap hash bytes) := {|
  ddb_OpenTrie h := if decide (h = hash0) then inl ∅ else inr "missing trie node"%string;
  ddb_OpenStorageTrie _ h := if decide (h = hash0) then inl ∅ else inr "missing trie node"%string;
  d_Keccak256Hash b := to_word 256 (be_val b + 7);
  trie_keys t := (map_to_list t).*1;
  rlp_EncodeDelegate d := Sample.serialize (d_Root d, d_Vote d, d_Nickname d, d_RegisterTime d, d_Delete d);
  rlp_DecodeDelegate b :=
    (λ '(r, v, n, t, x), mkDelegate r v n t x) <$> Sample.deserialize b;
  d_rlp_EncodeValue h := hash_bytes h;
  d_rlp_SplitValue b := (b, None)
|}.

Definition delegate (a : address) (votes : Z) : delegateObject (gmap hash bytes) :=
  mkDObject a (mkDelegate hash0 votes [] 0 false) None None ∅ ∅ false false false.

Definition sample_ddb : DelegateDB (gmap address bytes) (gmap hash bytes) :=
  mkDelegateDB ∅ {[ ca := delegate ca 1; cb := delegate cb 1; cc := delegate cc 1 ]} ∅ None hash0 hash0 0 ∅ 0 [] [] 0.

Lemma sample_lookup c o :
  dd_objects sample_ddb !! c = Some o → c ∈ [ca; cb; cc] ∧ o = delegate c 1.
Proof.
  simpl. rewrite !lookup_insert, lookup_singleton. repeat case_decide; intros; simplify_eq;
    (split; [set_solver|done]).
Qed.

Lemma sample_known c : c ∈ [ca; cb; cc] → dd_objects sample_ddb !! c = Some (delegate c 1).
Proof.
  rewrite !elem_of_cons, elem_of_nil. intros Hc. unfold sample_ddb. cbn [dd_objects].
  rewrite !lookup_insert, lookup_singleton. repeat case_decide; naive_solver congruence.
Qed.

Lemma sample_serve c : c ∈ delegates → ∃ o, dd_objects sample_ddb !! c = Some o ∧ serves o.
Proof.
  intros Hd. exists (delegate c 1). split; [|exact (conj eq_refl eq_refl)]. apply sample_known.
  revert Hd. unfold delegates. rewrite !elem_of_union, !elem_of_singleton, !elem_of_cons. tauto.
Qed.

Lemma sample_loaded : loaded sample_ddb.
Proof.
  constructor.
  - done.
  - by intros a o [_ ->]%sample_lookup.
  - intros a o [_ ->]%sample_lookup. simpl. lia.
Qed.

Lemma sample_acct a :
  acct (sample_state 0) a = if decide (a = voter) then voter_account 0 else account0.
Proof.
  unfold acct, live, load. cbn [s_stateObjects sample_state]. rewrite lookup_singleton.
  repeat case_decide; done.
Qed.

Lemma sample_votes a : votes sample_heap (sample_state 0) a = if decide (a = voter) then [ca; cb; cc] else [].
Proof. unfold votes. rewrite sample_acct. case_decide; by vm_compute. Qed.

Lemma sample_ledger : ledger sample_heap (sample_state 0) sample_ddb [voter].
Proof.
  constructor.
  - intros c o [Hc ->]%sample_lookup. simpl. rewrite sample_votes. unfold ind.
    rewrite !decide_True by done. done.
  - intros a c. rewrite sample_votes. case_decide; [|by intros ?%elem_of_nil].
    intros Hc. rewrite sample_known by done. done.
  - intros a ->%list_elem_of_singleton. unfold voter_ok, lock. rewrite sample_votes, sample_acct.
    rewrite !decide_True by done. split; [done|]. apply (bool_decide_unpack _). by vm_compute.
  - intros a Ha. rewrite sample_votes, decide_False; [done|]. intros ->. apply Ha. set_solver.
  - intros a. rewrite sample_acct. case_decide; vm_compute; lia.
  - intros a b Hab. rewrite !sample_acct. repeat case_decide; try done. congruence.
Qed.
End SampleLedger.
Import SampleVotes SampleLedger.

Lemma votes_add_up_witness :
  ∃ h' s' s3 d',
    Vote double voter [sub ca; addv ca; sub cb] (Some delegates) 101 (sample_heap, sample_state 0) =
      Ret (None, (h', s')) ∧
    voteChangeToDelegateState (λ b, b) map_to_list voter
      (mkVoteTx ActionAddVote (inl [sub ca; addv ca; sub cb]) []) 5 (s', sample_ddb) = Ret (None, (s3, d')) ∧
    ledger h' s3 d' [voter].
Proof.
  assert (Hc : Forall has_candidate [sub ca; addv ca; sub cb]) by (by repeat constructor; intros _; eexists).
  destruct (Vote_run double sample_heap (sample_state 0) voter [sub ca; addv ca; sub cb] delegates 101 (Aoa * 3))
    as (r & h' & s' & E & W' & _ & _ & R).
  - apply sample_state_wf.
  - by vm_compute.
  - by vm_compute; lia.
  - done.
  - assert (Hr : r = None).
    { replace (vote_all _ _ _) with (Some [cc; ca]) in R by (by vm_compute). cbv zeta in R.
      replace (_ >? _) with false in R by (by vm_compute). apply R. }
    subst r. exists h', s'.
    destruct (votes_add_up (λ b, b) map_to_list double sample_heap h' (sample_state 0) s' s' sample_ddb [voter] voter
      (mkVoteTx ActionAddVote (inl [sub ca; addv ca; sub cb]) []) [sub ca; addv ca; sub cb] delegates 101 5)
      as (s3 & d' & E3 & L3).
    + intros m. apply Permutation_refl.
    + apply sample_state_wf.
    + apply sample_loaded.
    + apply sample_ledger.
    + apply NoDup_singleton.
    + by apply list_elem_of_singleton.
    + simpl. lia.
    + simpl. lia.
    + exact sample_serve.
    + exact Hc.
    + by left.
    + reflexivity.
    + exact E.
    + exact W'.
    + exact (same_votes_refl s').
    + exists s3, d'. split_and!; assumption.
Defined.
