(* ===== verification/VmData.v ===== *)
(** * Data of the virtual machine

    The integers of [common/math], the helpers of [core/vm/common.go], the stack
    ([stack.go]), the memory ([memory.go]), the analysis of jump destinations
    ([analysis.go]) and contracts ([contract.go]).  A [*big.Int] is a [Z]: no
    instruction keeps a pointer to a number it has handed over, so the pool of
    integers ([intpool.go]) does not show. *)

From S2P Require Import Prelude Interfaces StateTypes.

(** ** [math/big] and [common/math] *)

Definition BitLen (x : Z) : Z := if x =? 0 then 0 else Z.log2 (Z.abs x) + 1.
Definition Uint64 (x : Z) : Z := u64 (Z.abs x).
Definition Int64 (x : Z) : Z := if x <? 0 then i64 (- i64 (Z.abs x)) else i64 x.

(** Division and remainder with a remainder that is not negative. *)
Definition bigDiv (x y : Z) : Z := Z.sgn y * (x / Z.abs y).
Definition bigMod (x y : Z) : Z := x mod Z.abs y.

(** [x.Bytes()]: the bytes of the absolute value without leading zeros. *)
Definition big_Bytes (x : Z) : bytes := be_bytes (Z.to_nat ((BitLen x + 7) / 8)) (Z.abs x).

(** [x.Bits()]: the 64-bit words of the absolute value, least significant first. *)
Definition Bits (x : Z) : list Z :=
  (λ i, u64 (Z.abs x / 2 ^ (64 * Z.of_nat i))) <$> seq 0 (Z.to_nat ((BitLen x + 63) / 64)).

Definition tt255 : Z := 2 ^ 255.
Definition tt256 : Z := 2 ^ 256.
Definition tt256m1 : Z := tt256 - 1.

Definition U256 (x : Z) : Z := Z.land x tt256m1.
Definition S256 (x : Z) : Z := if x <? tt255 then x else x - tt256.

Definition BigMax (x y : Z) : Z := if x <? y then y else x.
Definition BigMin (x y : Z) : Z := if x >? y then y else x.

Definition SafeAdd (x y : Z) : Z * bool := (u64 (x + y), y >? MaxUint64 - x).
Definition SafeMul (x y : Z) : Z * bool :=
  if (x =? 0) || (y =? 0) then (0, false) else (u64 (x * y), y >? MaxUint64 / x).

(** The two loops of [Exp]: the bits of a word, and the words. *)
Fixpoint Exp_word (n : nat) (word result base : Z) : Z * Z :=
  match n with
  | O => (result, base)
  | S n => Exp_word n (Z.shiftr word 1) (if Z.land word 1 =? 1 then U256 (result * base) else result)
             (U256 (base * base))
  end.
Fixpoint Exp_words (words : list Z) (result base : Z) : Z :=
  match words with
  | [] => result
  | word :: words => let '(result, base) := Exp_word 64 word result base in Exp_words words result base
  end.
Definition Exp (base exponent : Z) : Z := Exp_words (Bits exponent) 1 base.

Definition bigEndianByteAt (bigint : Z) (n : Z) : Z :=
  match Bits bigint !! Z.to_nat (n / 8) with
  | None => 0
  | Some word => Z.shiftr word (8 * (n mod 8)) mod 256
  end.
Definition Byte (bigint padlength n : Z) : Z :=
  if n >=? padlength then 0 else bigEndianByteAt bigint (padlength - 1 - n).

Definition PaddedBigBytes (bigint : Z) (n : nat) : bytes :=
  if BitLen bigint / 8 >=? Z.of_nat n then big_Bytes bigint else be_bytes n (Z.abs bigint).

(** ** Words and bytes ([common]) *)

(** [BigToAddress] and [BigToHash] keep the low bytes. *)
Definition BigToAddress (x : Z) : address := to_word 160 (Z.abs x).
Definition BigToHash (x : Z) : hash := to_word 256 (Z.abs x).

Definition RightPadBytes (slice : bytes) (l : Z) : bytes :=
  if l <=? Z.of_nat (length slice) then slice
  else slice ++ replicate (Z.to_nat l - length slice) Byte.x00.
Definition LeftPadBytes (slice : bytes) (l : Z) : bytes :=
  if l <=? Z.of_nat (length slice) then slice
  else replicate (Z.to_nat l - length slice) Byte.x00 ++ slice.

Definition blen (b : bytes) : Z := Z.of_nat (length b).
Lemma blen_nonneg b : 0 ≤ blen b. Proof. unfold blen. lia. Qed.

(** [b[lo:hi]].  Go also allows [hi] beyond the length up to the capacity; that
    counts as a panic here. *)
Definition slice_bytes (b : bytes) (lo hi : Z) : outcome bytes :=
  if (0 <=? lo) && (lo <=? hi) && (hi <=? blen b)
  then Ret (take (Z.to_nat (hi - lo)) (drop (Z.to_nat lo) b))
  else Panic "slice bounds out of range".

(** ** [core/vm/common.go] *)

Definition calcMemSize (off l : Z) : Z := if Z.sgn l =? 0 then 0 else off + l.

(** The sum of [start] and [size] may wrap around. *)
Definition getData_panic : string := "slice bounds out of range (getData)".

Definition getData (data : bytes) (start size : Z) : outcome bytes :=
  let len := blen data in
  let start := if start >? len then len else start in
  let e := u64 (start + size) in
  let e := if e >? len then len else e in
  match slice_bytes data start e with
  | Ret b => Ret (RightPadBytes b (i64 size))
  | Panic _ => Panic getData_panic
  end.

Definition getDataBig (data : bytes) (start size : Z) : outcome bytes :=
  let dlen := blen data in
  let s := BigMin start dlen in
  let e := BigMin (s + size) dlen in
  b ← slice_bytes data (Uint64 s) (Uint64 e);
  Ret (RightPadBytes b (i64 (Uint64 size))).

Definition bigUint64 (v : Z) : Z * bool := (Uint64 v, BitLen v >? 64).

Definition toWordSize (size : Z) : Z :=
  if size >? MaxUint64 - 31 then MaxUint64 / 32 + 1 else (size + 31) / 32.

Definition allZero (b : bytes) : bool := forallb (λ x, byte_val x =? 0) b.

(** ** Stack

    Kept with the top first. *)

Definition Stack : Type := list Z.

Definition st_pop (st : Stack) : outcome (Z * Stack) :=
  match st with
  | [] => Panic "stack index out of range"
  | x :: st => Ret (x, st)
  end.
Definition st_Back (st : Stack) (n : nat) : outcome Z :=
  match st !! n with
  | None => Panic "stack index out of range"
  | Some x => Ret x
  end.
Definition st_dup (st : Stack) (n : nat) : outcome Stack :=
  match n with
  | O => Panic "stack index out of range"
  | S n => x ← st_Back st n; Ret (x :: st)
  end.
Definition st_swap (st : Stack) (n : nat) : outcome Stack :=
  match n with
  | O => Panic "stack index out of range"
  | S n =>
    x ← st_Back st n;
    top ← st_Back st 0;
    Ret (<[0%nat := x]> (<[n := top]> st))
  end.

(** ** Memory *)

Record Memory : Type := mkMemory { m_store : bytes; m_lastGasCost : Z }.
#[export] Instance eta_Memory : Eta Memory := λ r, mkMemory (m_store r) (m_lastGasCost r).

Definition NewMemory : Memory := mkMemory [] 0.
Definition mem_Len (m : Memory) : Z := blen (m_store m).

(** [copy(dst[offset:], value)] for a destination of [size] bytes. *)
Definition splice (store : bytes) (offset size : nat) (value : bytes) : bytes :=
  let v := take size value in
  take offset store ++ v ++ drop (offset + length v) store.

Definition mem_Set (offset size : Z) (value : bytes) (m : Memory) : outcome Memory :=
  if size >? mem_Len m then Panic "INVALID memory: store empty"
  else if size >? 0 then
    if u64 (offset + size) <? offset then Panic "slice bounds out of range"
    else if u64 (offset + size) >? mem_Len m then Panic "slice bounds out of range"
    else Ret (m <| m_store ::= λ s, splice s (Z.to_nat offset) (Z.to_nat size) value |>)
  else Ret m.

Definition mem_Resize (size : Z) (m : Memory) : Memory :=
  if mem_Len m <? size then
    m <| m_store ::= λ s, s ++ replicate (Z.to_nat (size - mem_Len m)) Byte.x00 |>
  else m.

(** [Get] and [GetPtr]; the pointer's bytes are read before the frame's memory is
    written again. *)
Definition mem_Get (offset size : Z) (m : Memory) : outcome bytes :=
  if size =? 0 then Ret []
  else if mem_Len m >? offset then slice_bytes (m_store m) offset (i64 (offset + size))
  else Ret [].
Definition mem_GetPtr : Z → Z → Memory → outcome bytes := mem_Get.

Definition mem_store8 (off : Z) (v : Byte.byte) (m : Memory) : outcome Memory :=
  if (0 <=? off) && (off <? mem_Len m) then Ret (m <| m_store ::= <[Z.to_nat off := v]> |>)
  else Panic "index out of range".

(** ** Jump destinations ([analysis.go]) *)

(** A bit vector, by bytes. *)
Definition bitvec : Type := list Z.

Definition or_at (i : Z) (v : Z) (bits : bitvec) : outcome bitvec :=
  match bits !! Z.to_nat i with
  | None => Panic "index out of range"
  | Some x => Ret (<[Z.to_nat i := Z.lor x v]> bits)
  end.

Definition bv_set (pos : Z) (bits : bitvec) : outcome bitvec :=
  or_at (pos / 8) (Z.shiftr 0x80 (pos mod 8)) bits.
Definition bv_set8 (pos : Z) (bits : bitvec) : outcome bitvec :=
  bits ← or_at (pos / 8) (Z.shiftr 0xFF (pos mod 8)) bits;
  or_at (pos / 8 + 1) (Z.lxor 0xFF (Z.shiftr 0xFF (pos mod 8))) bits.

Definition bitvec_panic : string := "index out of range (bit vector)".

Definition codeSegment (pos : Z) (bits : bitvec) : outcome bool :=
  match bits !! Z.to_nat (pos / 8) with
  | None => Panic bitvec_panic
  | Some x => Ret (Z.land x (Z.shiftr 0x80 (pos mod 8)) =? 0)
  end.

Definition PUSH1 : Z := 0x60.
Definition PUSH32 : Z := 0x7f.
Definition JUMPDEST : Z := 0x5b.

(** The loops of [codeBitmap] over the bytes of one push: eight at a time, then one
    by one. *)
Fixpoint push_set (n : nat) (pc : Z) (bits : bitvec) : outcome (Z * bitvec) :=
  match n with
  | O => Ret (pc, bits)
  | S n => bits ← bv_set pc bits; push_set n (pc + 1) bits
  end.
Fixpoint push_set8 (n : nat) (pc : Z) (bits : bitvec) : outcome (Z * bitvec) :=
  match n with
  | O => Ret (pc, bits)
  | S n => bits ← bv_set8 pc bits; push_set8 n (pc + 8) bits
  end.
Definition push_bits (numbits : Z) (pc : Z) (bits : bitvec) : outcome (Z * bitvec) :=
  '(pc, bits) ← push_set8 (Z.to_nat (numbits / 8)) pc bits;
  push_set (Z.to_nat (numbits mod 8)) pc bits.

(** The main loop.  Every turn moves [pc] forward, so that as many turns as there
    are bytes are enough. *)
Fixpoint codeBitmap_loop (fuel : nat) (code : bytes) (pc : Z) (bits : bitvec) : outcome bitvec :=
  match fuel with
  | O => Ret bits
  | S fuel =>
    match code !! Z.to_nat pc with
    | None => Ret bits
    | Some c =>
      let op := byte_val c in
      if (PUSH1 <=? op) && (op <=? PUSH32) then
        '(pc, bits) ← push_bits (op - PUSH1 + 1) (pc + 1) bits;
        codeBitmap_loop fuel code pc bits
      else codeBitmap_loop fuel code (pc + 1) bits
    end
  end.
Definition codeBitmap (code : bytes) : outcome bitvec :=
  codeBitmap_loop (length code) code 0 (replicate (length code / 8 + 1 + 4) 0).

Definition destinations : Type := gmap hash bitvec.

Definition dest_has (codehash : hash) (code : bytes) (dest : Z) (d : destinations)
  : outcome (bool * destinations) :=
  let udest := Uint64 dest in
  if (BitLen dest >=? 63) || (udest >=? blen code) then Ret (false, d)
  else
    '(m, d) ← match d !! codehash with
              | Some m => Ret (m, d)
              | None => m ← codeBitmap code; Ret (m, <[codehash := m]> d)
              end;
    match code !! Z.to_nat udest with
    | None => Panic "index out of range"
    | Some c =>
      if byte_val c =? JUMPDEST then
        b ← codeSegment udest m;
        Ret (b, d)
      else Ret (false, d)
    end.

(** ** Contracts

    [caller] and [self] are known by their address; a delegate call also reads the
    caller's fields, which it gets as an argument.  [jumpdests] is one map for all
    the frames of a transaction and is part of the machine's state. *)
Record Contract : Type := mkContract {
  ct_CallerAddress : address;
  ct_self : address;
  ct_Code : bytes;
  ct_CodeHash : hash;
  ct_CodeAddr : option address;
  ct_Input : bytes;
  ct_Gas : Z;
  ct_value : Z;
  ct_asset : option address;
  ct_DelegateCall : bool
}.
#[export] Instance eta_Contract : Eta Contract := λ r,
  mkContract (ct_CallerAddress r) (ct_self r) (ct_Code r) (ct_CodeHash r) (ct_CodeAddr r) (ct_Input r)
    (ct_Gas r) (ct_value r) (ct_asset r) (ct_DelegateCall r).

Definition NewContract (caller object : address) (asset : option address) (value gas : Z) : Contract :=
  mkContract caller object [] hash0 None [] gas value asset false.

Definition AsDelegate (parent c : Contract) : Contract :=
  c <| ct_DelegateCall := true |> <| ct_CallerAddress := ct_CallerAddress parent |>
    <| ct_value := ct_value parent |>.

Definition GetByte (n : Z) (c : Contract) : Z :=
  if n <? blen (ct_Code c) then
    match ct_Code c !! Z.to_nat n with Some b => byte_val b | None => 0 end
  else 0.
Definition GetOp : Z → Contract → Z := GetByte.

Definition UseGas (gas : Z) (c : Contract) : bool * Contract :=
  if ct_Gas c <? gas then (false, c) else (true, c <| ct_Gas ::= λ g, g - gas |>).

Definition SetCallCode (addr : option address) (h : hash) (code : bytes) (c : Contract) : Contract :=
  c <| ct_Code := code |> <| ct_CodeHash := h |> <| ct_CodeAddr := addr |>.

(** ** Lengths *)

Lemma BitLen_bound x n : 0 ≤ n → Z.abs x < 2 ^ n → BitLen x ≤ n.
Proof.
  intros Hn Hx. unfold BitLen. destruct (Z.eqb_spec x 0); [lia|].
  assert (Z.log2 (Z.abs x) < n) by (apply Z.log2_lt_pow2; lia). lia.
Qed.

Lemma BitLen_spec x : 0 ≤ x → x < 2 ^ BitLen x.
Proof.
  intros Hx. unfold BitLen. destruct (Z.eqb_spec x 0) as [->|]; [done|].
  rewrite Z.abs_eq by done. apply Z.log2_spec. lia.
Qed.

Lemma BitLen_nonneg x : 0 ≤ BitLen x.
Proof. unfold BitLen. destruct (_ =? _); [done|]. pose proof (Z.log2_nonneg (Z.abs x)). lia. Qed.
