(* ===== verification/StateSound.v ===== *)
(** * Accounts that cannot stop the virtual machine

    The account state as code sees it: balances are not negative and code has a
    length a slice can have.  Every operation the virtual machine calls returns,
    keeps that, and leaves a journal that leads back; so does a transfer that was
    checked before. *)

From S2P Require Import Prelude Assets Interfaces AssetInfo StateTypes StateDB StateRevert.
From S2P Require Import StateSnapshot Accounts Transfer VmData.

Section Sound.
Context {AT ST VL : Type} `{ENV : StateEnv AT ST VL}.

#[local] Abbreviation SDB := (StateDB AT ST VL).
#[local] Abbreviation OBJ := (stateObject ST VL).
#[local] Abbreviation SM := (GM SDB).
#[local] Abbreviation OM := (GM (SDB * OBJ)).
#[local] Infix "≈" := sdb_equiv (at level 70).

Definition code_limit : Z := 2 ^ 62.

Record obj_sound (o : OBJ) : Prop := mkObjSound {
  os_balance : 0 ≤ a_Balance (o_data o);
  os_code c : code_view o = Some c → blen c ≤ code_limit
}.

Definition sound (s : SDB) : Prop := ∀ a o, live s a = Some o → obj_sound o.

Lemma obj_sound_equiv o o' : obj_equiv o o' → obj_sound o → obj_sound o'.
Proof.
  intros [E _ _] [B C]. unfold core_of in E. injection E as _ _ Eb _ _ _ _ _ Ec _ _.
  constructor; [by rewrite <- Eb|by rewrite <- Ec].
Qed.

Lemma sound_equiv s s' : s ≈ s' → sound s → sound s'.
Proof.
  intros [_ _ L] S a o' Ho'. specialize (L a). rewrite Ho' in L. inversion L as [o o2 E Ho|]; subst.
  eapply obj_sound_equiv; [done|]. by eapply S.
Qed.

Lemma sound_live s s' : (∀ x, live s' x = live s x) → sound s → sound s'.
Proof. intros L S a o H. rewrite L in H. by eapply S. Qed.

Lemma sound_update s s' a o :
  (∀ x, x ≠ a → live s' x = live s x) → live s' a = Some o → obj_sound o → sound s → sound s'.
Proof.
  intros L La O S x ox H. destruct (decide (x = a)) as [->|Hx]; [congruence|]. rewrite L in H by done. by eapply S.
Qed.

Lemma sound_balance s a : sound s → 0 ≤ balance s a.
Proof.
  intros S. unfold balance, acct. destruct (live s a) as [o|] eqn:E; [|done]. by apply (S a).
Qed.

Lemma asset_balance_nonneg s a id : wf s → 0 ≤ asset_balance s a id.
Proof.
  intros W. unfold asset_balance, acct. destruct (live s a) as [o|] eqn:E; [|done].
  by apply nonneg_BalanceOf; apply (live_assets _ _ _ W E).
Qed.

Lemma holding_nonneg s asset a : wf s → sound s → 0 ≤ holding s asset a.
Proof. intros W S. destruct asset; [by apply asset_balance_nonneg|by apply sound_balance]. Qed.

Lemma fresh_sound a b : obj_sound (fresh_object a b).
Proof.
  constructor; [done|]. intros c. unfold code_view, code_of, fresh_object, newObject. simpl.
  by rewrite decide_True by done.
Qed.

(** ** What only writing back changes *)

(** The trie, and the transaction [Prepare] was called for. *)
Definition base_of (s : SDB) : AT * hash * hash * Z := (s_trie s, s_thash s, s_bhash s, s_txIndex s).

Definition same_base {A} (m : SM A) : Prop := ∀ s r s', m s = Ret (r, s') → base_of s' = base_of s.

Lemma same_base_bind {A B} (m : SM A) (k : A → SM B) : same_base m → (∀ a, same_base (k a)) → same_base (m ≫= k).
Proof. intros Hm Hk s r s' (a & s1 & E1 & E2)%GM_bind_Ret. etrans; [by eapply Hk|by eapply Hm]. Qed.
Lemma same_base_ret {A} (a : A) : same_base (mret a).
Proof. by intros s r s' [= <- <-]. Qed.
Lemma same_base_gmodify (f : SDB → SDB) : (∀ s, base_of (f s) = base_of s) → same_base (gmodify f).
Proof. intros Hf s r s' [= <- <-]. apply Hf. Qed.

Lemma same_base_getStateObject a : same_base (getStateObject a).
Proof.
  intros s r s'. unfold getStateObject, mbind, GM_bind, gget, mret, GM_ret. destruct (_ !! a) as [o|]; [by destruct (o_deleted o); intros [= <- <-]|].
  destruct (TryGet _ a) as [enc err]. case_decide; [|destruct (rlp_DecodeAccount a enc); by intros [= <- <-]].
  intros [= <- <-]. unfold base_of. by destruct (s_dbErr s).
Qed.

(** The methods undoing calls change the object, which they may mark. *)
Definition object_only (m : OM unit) : Prop := ∀ s o r s' o', m (s, o) = Ret (r, (s', o')) → base_of s' = base_of s.

Lemma object_only_marked f : object_only (set_self f;; tryMarkDirty).
Proof.
  intros s o r s' o'. unfold tryMarkDirty, mbind, GM_bind, set_self, self, set_db, mret, GM_ret. cbn [fst snd].
  destruct (o_onDirty _); by intros [= <- <- <-].
Qed.

Lemma object_only_self f m : object_only m → object_only (set_self f;; m).
Proof. intros Hm s o r s' o' E. exact (Hm _ _ _ _ _ E). Qed.

Lemma same_base_on o m : object_only m → same_base (on_object o m).
Proof.
  intros Hm s r s'. unfold on_object. destruct (m (s, o)) as [[x [s1 o1]]|w] eqn:E; [|done]. intros [= <- <-]. exact (Hm _ _ _ _ _ E).
Qed.

Lemma same_base_object a m : object_only m → same_base (undo_object a m).
Proof.
  intros Hm. apply same_base_bind; [apply same_base_getStateObject|]. intros [o|]; [by apply same_base_on|]. by intros s r s'.
Qed.

Lemma undo_same_base e : same_base (undo e).
Proof.
  destruct e; cbn [undo]; try (by apply same_base_gmodify); try (apply same_base_object, object_only_marked).
  - apply same_base_bind; [apply same_base_getStateObject|]. intros [o|]; [|apply same_base_ret].
    apply same_base_on, object_only_self, object_only_marked.
  - intros s r s'. unfold mbind, GM_bind, gget. destruct (_ =? 0)%nat; [done|]. by intros [= <- <-].
  - destruct (_ && _); [|apply same_base_ret]. apply same_base_bind; [|intros []; destruct (negb _); [by apply same_base_gmodify|apply same_base_ret]].
    apply same_base_object. by intros s o r s' o' [= <- <- <-].
  - apply same_base_object. intros s o r s' o' E. revert E. unfold revertAssetBalance, mbind at 1, GM_bind at 1, self. cbn [fst snd].
    destruct preOpIsAdd; apply object_only_marked.
Qed.

Lemma undo_all_same_base b es : same_base (undo_all b es).
Proof.
  induction es as [|e es IH]; [apply same_base_ret|]. apply same_base_bind; [|done].
  destruct (_ && _); [apply same_base_ret|apply undo_same_base].
Qed.

Lemma equiv_base s s' : s ≈ s' → base_of s = base_of s'.
Proof. intros [E _ _]. unfold env_of in E. unfold base_of. congruence. Qed.

Lemma leads_back_base s s' : leads_back s s' → base_of s' = base_of s.
Proof. intros (es & s1 & _ & _ & E & Q). rewrite <- (equiv_base _ _ Q). symmetry. by eapply undo_all_same_base. Qed.

Lemma undoable_base s s' : undoable s s' → base_of s' = base_of s.
Proof. intros [_ _ L]. by apply leads_back_base. Qed.

(** ** Operations that return and keep accounts sound *)

(** [s'] comes from [s] by journaled changes and is sound; if [fl], nothing was
    created on the way. *)
Record advances (fl : bool) (s s' : SDB) : Prop := mkAdvances {
  ad_undo : undoable s s';
  ad_sound : sound s';
  ad_flow : fl = true → flow s s'
}.

Lemma advances_trans fl s1 s2 s3 : advances fl s1 s2 → advances fl s2 s3 → advances fl s1 s3.
Proof. intros [U1 _ F1] [U2 S2 F2]. split; [by eapply undoable_trans|done|eauto using flow_trans]. Qed.

Lemma advances_wf fl s s' : advances fl s s' → wf s'.
Proof. intros [U _ _]. apply U. Qed.

Definition works (fl : bool) {A} (m : SM A) (s : SDB) (Q : A → SDB → Prop) : Prop :=
  ∃ r s', m s = Ret (r, s') ∧ advances fl s s' ∧ Q r s'.

Lemma works_bind {A B} fl (m : SM A) (k : A → SM B) s Q1 Q :
  works fl m s Q1 → (∀ r s1, advances fl s s1 → Q1 r s1 → works fl (k r) s1 Q) → works fl (m ≫= k) s Q.
Proof.
  intros (r & s1 & E & A1 & H) K. destruct (K r s1 A1 H) as (r2 & s2 & E2 & A2 & H2).
  exists r2, s2. rewrite (GM_bind_run _ _ _ _ _ E). eauto using advances_trans.
Qed.

Lemma works_weaken {A} fl (m : SM A) s (Q1 Q : A → SDB → Prop) :
  works fl m s Q1 → (∀ r s1, Q1 r s1 → Q r s1) → works fl m s Q.
Proof. intros (r & s1 & E & A1 & H) K. exists r, s1. auto. Qed.

(** The flow can be shown apart. *)
Lemma works_flow {A} (m : SM A) s Q :
  works false m s Q → (∀ r s', m s = Ret (r, s') → flow s s') → works true m s Q.
Proof.
  intros (r & s1 & E & [U S _] & H) F. exists r, s1. split_and!; [done| |done]. split; [done|done|]. intros _. by eapply F.
Qed.

Lemma works_same {A} fl (r : A) s (Q : A → SDB → Prop) : wf s → sound s → Q r s → works fl (mret r) s Q.
Proof.
  intros W S H. exists r, s. split_and!; [done| |done]. split; [|done|intros _; apply flow_refl].
  apply undoable_unchanged; [done|reflexivity].
Qed.

Lemma undoable_refl s : wf s → undoable s s.
Proof. intros W. apply undoable_unchanged; [done|reflexivity]. Qed.

Lemma read_works {A} fl s a d (f : OBJ → A) :
  wf s → sound s →
  works fl (read_object d f a) s (λ r s', r = match live s a with Some o => f o | None => d end ∧ reads s s').
Proof.
  intros W S. destruct (read_object_reads s a d f W) as (s1 & E & R). eexists _, s1. split_and!; [exact E| |done|done].
  split; [by eapply read_object_undoable|eapply sound_live; [apply R|done]|intros _; apply flow_reads, R].
Qed.

Lemma GetOrNew_sound s a o s1 :
  wf s → sound s → GetOrNewStateObject a s = Ret (o, s1) → sound s1.
Proof.
  intros W S E. destruct (GetOrNew_acct s a W) as (o' & s1' & E' & W1 & _ & _ & Ho & _ & _ & Hx).
  rewrite E' in E. injection E as -> ->. eapply sound_update; [exact Hx|exact Ho| |exact S].
  unfold GetOrNewStateObject in E'. destruct (getStateObject_run s a) as (s0 & E0 & F).
  rewrite (GM_bind_run _ _ _ _ _ E0) in E'. pose proof (fetched_unchanged _ _ _ W F) as [_ _ W0].
  destruct (live s a) as [p|] eqn:Hp.
  - rewrite (live_deleted _ _ _ Hp) in E'. injection E' as <- _. by apply (S a).
  - destruct (createObject_run s0 a (W0 W)) as (s2 & b & E2 & _). rewrite (GM_bind_run _ _ _ _ _ E2) in E'.
    injection E' as <- _. apply fresh_sound.
Qed.

(** A method that returns and leaves a sound object; [Q] is about the result and
    the account's new data. *)
Definition sound_on {A} (m : OM A) (o : OBJ) (Q : A → Account VL → Prop) : Prop :=
  ∀ s, ∃ r s1 o1, m (s, o) = Ret (r, (s1, o1)) ∧ obj_sound o1 ∧ Q r (o_data o1).

(** The account [a] has new data of which [Q] holds, every other account has its own. *)
Definition at_account {A} (s : SDB) (a : address) (Q : A → Account VL → Prop) (r : A) (s' : SDB) : Prop :=
  Q r (acct s' a) ∧ ∀ x, x ≠ a → acct s' x = acct s x.

Lemma on_object_works {A} s o (m : OM A) Q :
  wf s → sound s → live s (o_address o) = Some o → logged m s o → sound_on m o Q →
  works false (on_object o m) s (at_account s (o_address o) Q).
Proof.
  intros W S Ho L M. destruct (M s) as (r & s1 & o1 & E & So & HQ).
  assert (E1 : on_object o m s = Ret (r, s1 <| s_stateObjects ::= <[o_address o1 := o1]> |>)).
  { unfold on_object. by rewrite E. }
  destruct (L _ _ _ E) as (es & d & Es & _ & Ha & Hd & _). rewrite (live_deleted _ _ _ Ho) in Hd.
  assert (Hx : ∀ x, x ≠ o_address o → live (s1 <| s_stateObjects ::= <[o_address o1 := o1]> |>) x = live s x).
  { intros x Hx. subst s1. rewrite Ha. unfold live; simpl. by rewrite lookup_insert_ne. }
  assert (Hh : live (s1 <| s_stateObjects ::= <[o_address o1 := o1]> |>) (o_address o) = Some o1).
  { subst s1. rewrite Ha. unfold live; simpl. by rewrite lookup_insert_eq, Hd. }
  eexists r, _. split_and!; [exact E1| |split].
  - split; [by eapply on_object_logged|by eapply (sound_update s _ (o_address o) o1)|done].
  - unfold acct. by rewrite Hh.
  - intros x Hne. unfold acct. by rewrite Hx.
Qed.

Lemma write_works {A} s a (m : OM A) Q :
  wf s → sound s → (∀ s o, object_ok o → logged m s o) →
  (∀ o, obj_sound o → o_data o = acct s a → sound_on m o Q) →
  works false (write_object a m) s (at_account s a Q).
Proof.
  intros W S L M. destruct (GetOrNew_acct s a W) as (o & s1 & E & W1 & _ & _ & Ho & Ha & Hd & Hx).
  assert (S1 := GetOrNew_sound _ _ _ _ W S E).
  eapply (works_bind _ _ _ _ (λ r s', r = o ∧ s' = s1)).
  { exists o, s1. split_and!; [done| |done..]. split; [|done|done]. by apply (GetOrNewStateObject_run _ _ _ _ W E). }
  intros r s' _ [-> ->]. eapply works_weaken; [apply on_object_works; [done|done|by rewrite Ha| |]|].
  - eapply L, live_assets; [exact W1|exact Ho].
  - apply M; [by apply (S1 a)|done].
  - rewrite Ha. intros r s' [HQ Hs]. split; [done|]. intros x Hne. rewrite Hs by done. unfold acct. by rewrite Hx.
Qed.

(** Getters that fill caches, and [Suicide]: nothing happens without an account. *)
Lemma cached_works {A} s a d (m : OM A) (Q : A → Account VL → Prop) :
  wf s → sound s → (∀ s o, object_ok o → logged m s o) →
  (∀ o, obj_sound o → o_data o = acct s a → sound_on m o Q) → (live s a = None → Q d (acct s a)) →
  works false ((obj ← getStateObject a; match obj with Some o => on_object o m | None => mret d end) : SM A) s (at_account s a Q).
Proof.
  intros W S L M D. destruct (getStateObject_reads s a W) as (s1 & E & R).
  assert (S1 : sound s1) by (by eapply sound_live; [apply R|]). assert (W1 := rd_wf _ _ R).
  assert (Hs : ∀ x, acct s1 x = acct s x) by (intros x; unfold acct; by rewrite (rd_live _ _ R)).
  eapply (works_bind _ _ _ _ (λ r s', r = live s a ∧ s' = s1)).
  { exists (live s a), s1. split_and!; [done| |done..]. split; [|done|done]. apply undoable_unchanged; [done|].
    destruct (getStateObject_run s a) as (s2 & E2 & F). rewrite E in E2. injection E2 as <-.
    by apply (fetched_unchanged _ a). }
  intros r s' _ [-> ->]. destruct (live s a) as [o|] eqn:Ho; [|apply works_same; [done..|split; [rewrite Hs; auto|auto]]].
  assert (Ho1 : live s1 a = Some o) by (by rewrite (rd_live _ _ R)).
  assert (Ha := live_address _ _ _ W1 Ho1).
  eapply works_weaken; [apply on_object_works; [done|done|by rewrite Ha| |apply M; [by apply (S1 a)|]]|].
  - eapply L, live_assets; [exact W1|exact Ho1].
  - unfold acct. by rewrite Ho.
  - rewrite Ha. intros r s' [HQ Hx]. split; [done|]. intros x Hne. by rewrite Hx.
Qed.

(** A method after which the account holds no more than before creates nothing. *)
Definition poorer (d d' : Account VL) : Prop := a_Balance d' ≤ a_Balance d ∧ a_AssetList d' = a_AssetList d.

Lemma works_poorer {A} (m : SM A) s a (Q : A → Account VL → Prop) :
  works false m s (at_account s a Q) → (∀ r d, Q r d → poorer (acct s a) d) → works true m s (at_account s a Q).
Proof.
  intros Hw HQ. eapply works_flow; [exact Hw|]. destruct Hw as (r & s1 & E & _ & Ha & Hx).
  intros r' s' E'. rewrite E in E'. injection E' as <- <-. destruct (HQ _ _ Ha) as [Hb Hl]. apply flow_le.
  intros asset x. unfold holding, balance, asset_balance. destruct (decide (x = a)) as [->|Hne].
  - destruct asset; [by rewrite Hl|done].
  - by rewrite Hx.
Qed.

Lemma write_keeps {A} s a (m : OM A) (Q : A → Prop) :
  wf s → sound s → (∀ s o, object_ok o → logged m s o) →
  (∀ o, obj_sound o → o_data o = acct s a → sound_on m o (λ r d, poorer (o_data o) d ∧ Q r)) →
  works true (write_object a m) s (λ r _, Q r).
Proof.
  intros W S L M. eapply works_weaken; [eapply works_poorer; [apply (write_works s a m (λ r d, poorer (acct s a) d ∧ Q r)); try done|]|].
  - intros o So Hd. rewrite <- Hd. by apply M.
  - by intros r d [H _].
  - by intros r s1 [[_ H] _].
Qed.

Lemma poorer_refl d : poorer d d.
Proof. done. Qed.

Lemma cached_keeps {A} s a d (m : OM A) (Q : A → Prop) :
  wf s → sound s → (∀ s o, object_ok o → logged m s o) →
  (∀ o, obj_sound o → o_data o = acct s a → sound_on m o (λ r d, poorer (o_data o) d ∧ Q r)) → Q d →
  works true ((obj ← getStateObject a; match obj with Some o => on_object o m | None => mret d end) : SM A) s (λ r _, Q r).
Proof.
  intros W S L M D.
  eapply works_weaken; [eapply works_poorer; [apply (cached_works s a d m (λ r d, poorer (acct s a) d ∧ Q r)); try done|]|].
  - intros o So Hd. rewrite <- Hd. by apply M.
  - by intros r d' [H _].
  - by intros r s1 [[_ H] _].
Qed.

(** ** Building such methods *)

Lemma sound_self {A} (k : OBJ → OM A) o Q : sound_on (k o) o Q → sound_on (self ≫= k) o Q.
Proof. intros H s. by erewrite GM_bind_run by reflexivity. Qed.

Lemma sound_journal {A} e (m : OM A) o Q : sound_on m o Q → sound_on (journal_append e;; m) o Q.
Proof. intros H s. erewrite GM_bind_run by reflexivity. apply H. Qed.

Lemma sound_ret {A} (r : A) o (Q : A → Account VL → Prop) : obj_sound o → Q r (o_data o) → sound_on (mret r) o Q.
Proof. intros S H s. by exists r, s, o. Qed.

Lemma sound_step (m : OM unit) g o (Q : unit → Account VL → Prop) :
  obj_step m g → obj_sound (g o) → Q tt (o_data (g o)) → sound_on m o Q.
Proof.
  intros M [B C] H s. destruct (M s o) as (d & b & _ & E). eexists tt, _, _. split_and!; [exact E| |done]. by constructor.
Qed.

Lemma sound_bind {A B} (m : OM A) (k : A → OM B) o Q1 Q :
  (∀ s, ∃ r s1 o1, m (s, o) = Ret (r, (s1, o1)) ∧ obj_sound o1 ∧ Q1 r o1) →
  (∀ r o1, obj_sound o1 → Q1 r o1 → sound_on (k r) o1 Q) → sound_on (m ≫= k) o Q.
Proof.
  intros M K s. destruct (M s) as (r & s1 & o1 & E & S1 & H). rewrite (GM_bind_run _ _ _ _ _ E). by apply K.
Qed.

(** A change of the account's data that leaves code alone. *)
Lemma sound_data o (f : Account VL → Account VL) :
  obj_sound o → a_CodeHash (f (o_data o)) = a_CodeHash (o_data o) → 0 ≤ a_Balance (f (o_data o)) →
  obj_sound (on_data f o).
Proof. intros [B C] Hc Hb. constructor; [done|]. unfold code_view in *. simpl. by rewrite Hc. Qed.

Lemma obj_Code_sound o :
  obj_sound o → ∀ s, ∃ r s1 o1, obj_Code (s, o) = Ret (r, (s1, o1)) ∧ obj_sound o1 ∧
    ((∀ c, r = Some c → blen c ≤ code_limit) ∧ o_data o1 = o_data o).
Proof.
  intros So s. assert (R : ∃ r s1 o1, obj_Code (s, o) = Ret (r, (s1, o1))).
  { unfold obj_Code. erewrite GM_bind_run by reflexivity. cbn [fst snd]. destruct (o_code o); [by eexists _, _, _|].
    destruct (decide _); [by eexists _, _, _|]. destruct (db_ContractCode _ _) as [code [err|]]; [|by eexists _, _, _].
    destruct (obj_setError_run (Some (String.append "can't load code hash: " err)) s o) as [e E].
    rewrite (GM_bind_run _ _ _ _ _ E). by eexists _, _, _. }
  destruct R as (r & s1 & o1 & E). exists r, s1, o1. split; [done|].
  apply obj_Code_run in E as (_ & (_ & _ & Hd & _ & Q) & ->). split_and!; [|apply So|done].
  eapply obj_sound_equiv; [symmetry; exact Q|done].
Qed.

(** Opening the storage trie of the zero root does not fail. *)
Definition empty_trie_opens : Prop := ∀ ah, ∃ t, db_OpenStorageTrie ah hash0 = inl t.

Lemma obj_GetState_sound key o :
  empty_trie_opens → obj_sound o → ∀ s, ∃ r s1 o1, obj_GetState key (s, o) = Ret (r, (s1, o1)) ∧ obj_sound o1 ∧
    o_data o1 = o_data o.
Proof.
  intros Open So s. destruct (obj_GetState key (s, o)) as [[r [s1 o1]]|w] eqn:E.
  - exists r, s1, o1. split; [done|]. apply obj_GetState_run in E as (_ & (_ & _ & Hd & _ & Q) & _).
    split; [|done]. eapply obj_sound_equiv; [symmetry; exact Q|done].
  - apply obj_GetState_panics in E. unfold storage_view, storage_of, trie_of in E.
    destruct (o_cachedStorage o !! key); [done|]. destruct (o_trie o); [done|].
    destruct (Open (Keccak256Hash (address_bytes (o_address o)))) as [t Ht]. rewrite Ht in E.
    by destruct (db_OpenStorageTrie _ (a_Root _)).
Qed.

(** ** The operations the virtual machine calls *)

Section Used.
Context (s : SDB) (W : wf s) (S : sound s).

Lemma Exist_works a : works true (Exist a) s (λ r s', r = bool_decide (is_Some (live s a)) ∧ reads s s').
Proof.
  eapply works_weaken; [by apply read_works|]. intros r s1 [-> R]. split; [|done]. by destruct (live s a).
Qed.

Lemma GetBalance_works a : works true (GetBalance a) s (λ r s', 0 ≤ r ∧ r = balance s' a).
Proof.
  eapply works_weaken; [by apply read_works|]. intros r s1 [-> R]. pose proof (sound_balance s a S) as H.
  unfold balance, acct in *. rewrite (rd_live _ _ R). by destruct (live s a).
Qed.

Lemma GetAssetBalance_works a id : works true (GetAssetBalance a id) s (λ r _, 0 ≤ r).
Proof.
  eapply works_weaken; [by apply read_works|]. intros r s1 [-> R]. pose proof (asset_balance_nonneg s a id W) as H.
  unfold asset_balance, acct in H. by destruct (live s a).
Qed.

Lemma GetNonce_works a : works true (GetNonce a) s (λ _ s', reads s s').
Proof. eapply works_weaken; [by apply read_works|]. by intros r s1 [_ R]. Qed.
Lemma GetCodeHash_works a : works true (GetCodeHash a) s (λ _ s', reads s s').
Proof. eapply works_weaken; [by apply read_works|]. by intros r s1 [_ R]. Qed.
Lemma HasSuicided_works a : works true (HasSuicided a) s (λ _ s', reads s s').
Proof. eapply works_weaken; [by apply read_works|]. by intros r s1 [_ R]. Qed.

Lemma GetCode_works a : works true (GetCode a) s (λ r _, ∀ c, r = Some c → blen c ≤ code_limit).
Proof.
  apply (cached_keeps s a None obj_Code); [done|done|auto with statedb| |done].
  intros o So _ s0. destruct (obj_Code_sound o So s0) as (r & s1 & o1 & E & S1 & H & Hd).
  exists r, s1, o1. split_and!; [done|done|by rewrite Hd|done].
Qed.

Lemma GetCodeSize_works a : works true (GetCodeSize a) s (λ _ _, True).
Proof.
  assert (R : ∃ r s', GetCodeSize a s = Ret (r, s') ∧ ∀ x, live s' x = live s x).
  { unfold GetCodeSize. destruct (getStateObject_reads s a W) as (s1 & E & R). rewrite (GM_bind_run _ _ _ _ _ E).
    destruct (live s a) as [o|]; [|eexists _, s1; split; [reflexivity|apply R]].
    destruct (o_code o); [eexists _, s1; split; [reflexivity|apply R]|].
    destruct (db_ContractCodeSize _ _) as [n [err|]]; [|eexists _, s1; split; [reflexivity|apply R]].
    eexists n, _. split; [reflexivity|]. intros x. rewrite <- (rd_live _ _ R x). unfold live. simpl.
    by destruct (s_dbErr s1). }
  destruct R as (r & s' & E & L). exists r, s'. split_and!; [done| |done].
  split; [by eapply GetCodeSize_undoable|by eapply sound_live|intros _; by apply flow_reads].
Qed.

Lemma GetState_works a key : empty_trie_opens → works true (GetState a key) s (λ _ _, True).
Proof.
  intros Open. apply (cached_keeps s a hash0 (obj_GetState key) (λ _, True)); [done|done|auto with statedb| |done].
  intros o So _ s0. destruct (obj_GetState_sound key o Open So s0) as (r & s1 & o1 & E & S1 & Hd).
  exists r, s1, o1. split_and!; [done|done|by rewrite Hd|done].
Qed.

Lemma SetState_works a key v : empty_trie_opens → works true (SetState a key v) s (λ _ _, True).
Proof.
  intros Open. apply (write_keeps s a _ (λ _, True)); [done|done|auto with statedb|]. intros o So _.
  eapply sound_bind; [by apply obj_GetState_sound|]. cbv beta. intros r o1 S1 <-. apply sound_self, sound_journal.
  eapply sound_step; [apply set_self_mark|by destruct S1|]. split; [apply poorer_refl|done].
Qed.

Lemma SetNonce_works a n : works true (SetNonce a n) s (λ _ s', ∀ x, balance s' x = balance s x).
Proof.
  destruct (SetNonce_changes s a n W) as (s' & E & C). cut (works true (SetNonce a n) s (λ _ _, True)).
  { intros (r & s1 & E1 & A & _). rewrite E in E1. injection E1 as <- <-. exists tt, s'. split_and!; [done..|].
    intros x. unfold balance. rewrite (changes_acct _ _ _ _ x C). case_decide; by subst. }
  apply (write_keeps s a _ (λ _, True)); [done|done|auto with statedb|]. intros o So _. apply sound_self, sound_journal.
  by eapply sound_step; [apply (set_self_mark (on_data (λ d, d <| a_Nonce := n |>)))|apply sound_data; [done..|apply So]|].
Qed.

Lemma set_balance_sound v o : obj_sound o → 0 ≤ v → sound_on (obj_SetBalance v) o (λ _ _, True).
Proof.
  intros So Hv. apply sound_self, sound_journal.
  by eapply sound_step; [apply (set_self_mark (on_data (λ d, d <| a_Balance := v |>)))|apply sound_data|].
Qed.

Lemma touch_sound o : obj_sound o → sound_on touch o (λ _ _, True).
Proof. intros So. apply sound_self, sound_journal. by eapply sound_step; [apply touch_step|destruct So|]. Qed.

Lemma AddBalance_works a v : 0 ≤ v → works false (AddBalance a v) s (λ _ _, True).
Proof.
  intros Hv. eapply works_weaken; [apply (write_works s a _ (λ _ _, True))|done]; [done|done|auto with statedb|].
  intros o So _. apply sound_self.
  destruct (v =? 0); [destruct (empty o); [by apply touch_sound|by apply sound_ret]|].
  apply set_balance_sound; [done|]. pose proof (os_balance o So). lia.
Qed.

Lemma SubBalance_works a v : v ≤ balance s a → works false (SubBalance a v) s (λ _ _, True).
Proof.
  intros Hv. eapply works_weaken; [apply (write_works s a _ (λ _ _, True))|done]; [done|done|auto with statedb|].
  intros o So Hd. apply sound_self.
  destruct (v =? 0); [by apply sound_ret|]. apply set_balance_sound; [done|]. rewrite Hd. unfold balance in Hv. lia.
Qed.

Lemma SetCode_works a c :
  (∀ b, c = Some b → blen b ≤ code_limit) → works true (SetCode a c) s (λ _ _, True).
Proof.
  intros Hc. apply (write_keeps s a _ (λ _, True)); [done|done|auto with statedb|]. intros o So _.
  eapply sound_bind; [by apply obj_Code_sound|]. cbv beta. intros r o1 S1 [_ <-]. apply sound_self, sound_journal.
  eapply sound_step; [apply set_self_mark| |done].
  constructor; [apply S1|]. intros b. unfold code_view, code_of. simpl.
  destruct c as [c|]; [auto|]. by rewrite decide_True by done.
Qed.

Lemma set_assets_sound e al o :
  obj_sound o → sound_on (journal_append e;; (set_assets al;; tryMarkDirty)) o (λ _ _, True).
Proof.
  intros So. apply sound_journal.
  by eapply sound_step; [apply (set_self_mark (on_data (λ d, d <| a_AssetList := al |>)))|apply sound_data; [done..|apply So]|].
Qed.

Lemma AddAssetBalance_works a id v : 0 ≤ v → works false (AddAssetBalance a id v) s (λ _ _, True).
Proof.
  intros Hv. eapply works_weaken; [apply (write_works s a _ (λ _ _, True))|done]; [done|done|auto with statedb|].
  intros o So _. apply sound_self, set_assets_sound. done.
Qed.

Lemma SubAssetBalance_works a id v : 0 ≤ v → works false (SubAssetBalance a id v) s (λ _ _, True).
Proof.
  intros Hv. eapply works_weaken; [apply (write_works s a _ (λ _ _, True))|done]; [done|done|auto with statedb|].
  intros o So _. apply sound_self.
  destruct (SubAsset _ _) as [ok al].
  eapply (sound_bind _ _ _ (λ _ o1, True)).
  { apply (sound_step _ (on_data (λ d, d <| a_AssetList := al |>)) _ (λ _ _, True)); [apply set_self_step|apply sound_data; [done..|apply So]|done]. }
  intros _ o1 S1 _. eapply (sound_bind _ _ _ (λ _ _, True)).
  { destruct ok; [|intros s0; by exists tt, s0, o1]. apply (sound_journal _ _ _ (λ _ _, True)).
    intros s0. destruct (set_self_mark (λ o, o) s0 o1) as (d & b & _ & E). erewrite GM_bind_run in E by reflexivity.
    cbn [fst snd] in E. eexists tt, _, _. split_and!; [exact E| |done]. by destruct S1. }
  intros _ o2 S2 _. by apply sound_ret.
Qed.

Lemma AddRefund_works g : works true (AddRefund g) s (λ _ _, True).
Proof.
  eexists tt, _. split_and!; [reflexivity| |done]. split; [by eapply AddRefund_undoable|by eapply sound_live; [|exact S]|].
  intros _. by apply flow_reads.
Qed.

Lemma AddLog_works l : works true (AddLog l) s (λ _ _, True).
Proof.
  assert (R : ∃ s', AddLog l s = Ret (tt, s') ∧ ∀ x, live s' x = live s x).
  { unfold AddLog. erewrite GM_bind_run by reflexivity. erewrite GM_bind_run by reflexivity.
    eexists. split; [reflexivity|]. done. }
  destruct R as (s' & E & L). exists tt, s'. split_and!; [done| |done].
  split; [by eapply AddLog_undoable|by eapply sound_live|intros _; by apply flow_reads].
Qed.

Lemma AddPreimage_works h p : works true (AddPreimage h p) s (λ _ _, True).
Proof.
  assert (R : ∃ s', AddPreimage h p s = Ret (tt, s') ∧ ∀ x, live s' x = live s x).
  { unfold AddPreimage. erewrite GM_bind_run by reflexivity. destruct (s_preimages s !! h); eexists; (split; [reflexivity|]); done. }
  destruct R as (s' & E & L). exists tt, s'. split_and!; [done| |done].
  split; [by eapply AddPreimage_undoable|by eapply sound_live|intros _; by apply flow_reads].
Qed.

Lemma Suicide_works a :
  works true (Suicide a) s (λ _ s', at_account s a (λ _ d, poorer (acct s a) d ∧ a_Balance d = 0) tt s').
Proof.
  assert (R : works true ((obj ← getStateObject a; match obj with Some o => on_object o suicide_object | None => mret tt end) : SM unit) s
                (at_account s a (λ _ d, poorer (acct s a) d ∧ a_Balance d = 0))).
  { apply works_poorer; [|by intros r d [H _]].
    apply (cached_works s a tt suicide_object); [done|done|apply suicide_object_logged| |].
    - intros o So Hd. apply sound_self, sound_journal. eapply sound_step; [apply suicide_step|by destruct So|].
      rewrite <- Hd. split; [split; [apply So|done]|done].
    - intros Hn. unfold acct. by rewrite Hn. }
  destruct R as ([] & s' & E & A & HQ). destruct (getStateObject_reads s a W) as (s1 & E1 & R).
  rewrite (GM_bind_run _ _ _ _ _ E1) in E. exists (bool_decide (is_Some (live s a))), s'. split_and!; [|done..].
  unfold Suicide. rewrite (GM_bind_run _ _ _ _ _ E1). destruct (live s a) as [o|] eqn:Ho; [|by injection E as <-].
  rewrite <- (live_address _ _ _ W Ho) at 1. erewrite GM_bind_run by reflexivity.
  change (on_object o (markSuicided;; set_self (λ o : OBJ, o <| o_data ::= λ d, d <| a_Balance := 0 |> |>))
    (s1 <| s_journal ::= λ j, j ++ [suicideChange (o_address o) (o_suicided o) (a_Balance (o_data o))] |>) = Ret (tt, s')) in E.
  by rewrite (GM_bind_run _ _ _ _ _ E).
Qed.

Lemma fresh_flow a s' :
  changes s a (λ d, account0 <| a_Balance := a_Balance d |>) s' → flow s s'.
Proof.
  intros C. apply flow_le. intros asset x. unfold holding, balance. pose proof (asset_balance_nonneg s a) as Hn.
  unfold asset_balance in *. rewrite (changes_acct _ _ _ _ x C). case_decide as Hx; [subst x|done].
  destruct asset as [id|]; [|done]. by apply (Hn id).
Qed.

Lemma CreateAccount_works a : works true (CreateAccount a) s (λ _ s', ∀ x, balance s' x = balance s x).
Proof.
  destruct (CreateAccount_changes s a W) as (s' & E & C). exists tt, s'. split_and!; [done| |].
  2:{ intros x. unfold balance. rewrite (changes_acct _ _ _ _ x C). case_decide; by subst. }
  split; [by eapply CreateAccount_undoable| |intros _; by eapply fresh_flow]. unfold CreateAccount in E.
  destruct (createObject_run s a W) as (s1 & b & E1 & W1 & H1 & _). rewrite (GM_bind_run _ _ _ _ _ E1) in E.
  destruct (live s a) as [p|] eqn:Hp.
  - destruct (on_object_step s1 a (fresh_object a b) _ _ (set_self_mark (on_data (λ d, d <| a_Balance := a_Balance (o_data p) |>))) eq_refl)
      as (s2 & E2 & P). unfold obj_setBalance in E. unfold on_data in E2. rewrite E2 in E. injection E as <-.
    destruct (live_put _ _ _ _ a P eq_refl) as [Pa _]. destruct (Pa eq_refl) as [b' Hb'].
    eapply (sound_update s s2 a); [apply C|exact Hb'| |done].
    apply (sound_data (fresh_object a b') (λ d, d <| a_Balance := a_Balance (o_data p) |>)); [apply fresh_sound|done|].
    by apply (S a).
  - injection E as <-. eapply (sound_update s s1 a); [apply C| |apply fresh_sound|done]. unfold live. by rewrite H1.
Qed.

Lemma GetOrNew_works a :
  works true (GetOrNewStateObject a) s (λ o s', wf s' ∧ sound s' ∧ live s' a = Some o ∧ o_address o = a).
Proof.
  destruct (GetOrNew_acct s a W) as (o & s1 & E & W1 & _ & _ & Ho & Ha & Hd & Hx).
  assert (S1 := GetOrNew_sound _ _ _ _ W S E). exists o, s1. split_and!; try done.
  split; [by apply (GetOrNewStateObject_run _ _ _ _ W E)|done|]. intros _. apply flow_le. intros asset x.
  assert (Hs : acct s1 x = acct s x).
  { destruct (decide (x = a)) as [->|Hne]; unfold acct at 1; [by rewrite Ho|by rewrite Hx]. }
  unfold holding, balance, asset_balance. by rewrite Hs.
Qed.

Lemma SetAbi_works a abi : works true (SetAbi a abi) s (λ _ _, True).
Proof.
  unfold SetAbi. destruct (decide _); [by apply works_same|].
  eapply works_bind; [apply GetOrNew_works|]. cbv beta. intros o s1 _ (W1 & S1 & Ho & Ha).
  destruct (decide _); [by apply works_same|]. assert (So : obj_sound o) by (by apply (S1 a)).
  eapply works_weaken; [eapply works_poorer; [apply (on_object_works s1 o _ (λ _ d, poorer (acct s1 (o_address o)) d))|]|].
  - done.
  - done.
  - by rewrite Ha.
  - apply same_object_quiet; [by eapply live_assets|]. by intros r ? ? [= <- <- <-].
  - intros s2. eexists tt, _, _. split_and!; [reflexivity|by destruct So|]. rewrite Ha. unfold acct. by rewrite Ho.
  - done.
  - done.
Qed.

Lemma CanTransfer_works a asset v :
  works true (CanTransfer a asset v) s (λ r s', r = (holding s asset a >=? v) ∧ reads s s').
Proof.
  destruct (CanTransfer_reads s a asset v W) as (s' & E & R). eexists _, s'. split_and!; [exact E| |done..].
  split; [|by eapply sound_live; [apply R|]|intros _; apply flow_reads, R].
  destruct asset; simpl in E; apply GM_bind_Ret in E as (b & s1 & E & [= _ <-]); by eapply read_object_undoable.
Qed.
End Used.

Lemma Transfer_works s from to asset v :
  wf s → sound s → 0 ≤ v → (asset = None → v ≤ balance s from) →
  works true (Transfer from to asset v) s (λ _ _, True).
Proof.
  intros W S Hv Hb. apply works_flow; [|intros [] s' E; by eapply Transfer_flow].
  destruct asset as [id|]; simpl.
  - eapply works_bind; [by apply SubAssetBalance_works|]. cbv beta. intros [] s1 [U1 S1 _] _.
    + apply AddAssetBalance_works; [apply U1|done|done].
    + apply works_same; [apply U1|done|done].
  - eapply works_bind; [apply SubBalance_works; auto|]. cbv beta. intros [] s1 [U1 S1 _] _.
    apply AddBalance_works; [apply U1|done|done].
Qed.

(** What [SELFDESTRUCT] does with the balance [v] of the account [a]. *)
Lemma pay_out_works s a to v :
  wf s → sound s → v = balance s a → works true (AddBalance to v;; Suicide a) s (λ _ _, True).
Proof.
  intros W S ->. pose proof (sound_balance s a S) as Hb. destruct (AddBalance_moved s to (balance s a) W) as (s1 & E1 & M).
  destruct (AddBalance_works s W S to (balance s a) Hb) as ([] & s1' & E1' & [U1 S1 _] & _).
  rewrite E1 in E1'. injection E1' as <-.
  destruct (Suicide_works s1 (mv_wf _ _ _ _ _ M) S1 a) as (r & s2 & E2 & [U2 S2 _] & (Hp & Hz) & Hx).
  exists r, s2. split_and!; [by rewrite (GM_bind_run _ _ _ _ _ E1)| |done]. split; [by eapply undoable_trans|done|].
  intros _ asset. exists [a; to]. intros l Hn Hk. pose proof (moved_total _ _ _ _ _ asset l M Hn ltac:(apply Hk; set_solver)) as Ht.
  destruct asset as [id|]; [|].
  - rewrite decide_False in Ht by done. rewrite Z.add_0_r in Ht. rewrite <- Ht. apply total_le. intros x. simpl. unfold asset_balance.
    destruct (decide (x = a)) as [->|Hne]; [by destruct Hp as [_ ->]|by rewrite Hx].
  - rewrite decide_True in Ht by done.
    assert (Hs : total (holding s2 None) l = total (λ x, holding s1 None x + at_one a (- balance s1 a) x) l).
    { apply total_ext. intros x. simpl. unfold balance at 1, at_one. case_decide as Hne; [subst x; rewrite Hz; lia|].
      rewrite Hx by done. unfold balance. lia. }
    rewrite Hs, total_add, total_at_one; [|done|apply Hk; set_solver]. pose proof (mv_holding _ _ _ _ _ M None a) as Ha.
    rewrite decide_True in Ha by done. simpl in Ha. unfold at_one in Ha. case_decide; lia.
Qed.

Lemma equiv_holding s s' asset x : s ≈ s' → holding s asset x = holding s' asset x.
Proof.
  intros [_ _ L]. specialize (L x). unfold holding, balance, asset_balance, acct.
  destruct L as [o o' [E Ha _]|]; [|done]. unfold core_of in E. injection E as _ _ Eb _ _ _ _ _ _ _ _.
  destruct asset; [by rewrite Ha|done].
Qed.

Lemma equiv_flow s s' : s ≈ s' → flow s s'.
Proof. intros Q. apply flow_le. intros asset x. by rewrite (equiv_holding _ _ asset x Q). Qed.

Lemma advances_Inv fl s s' : Inv s → advances fl s s' → Inv s'.
Proof. intros I [U _ _]. by eapply undoable_Inv. Qed.
End Sound.
