(* ===== verification/VmGas.v ===== *)
(** * State and gas of the virtual machine

    The machine's state, its context and its errors ([core/vm/evm.go],
    [interpreter.go], [errors.go]), the gas parameters ([params]), the memory an
    instruction needs ([memory_table.go]) and what it costs ([gas.go],
    [gas_table.go]). *)

From S2P Require Import Prelude Assets Interfaces AssetInfo StateTypes StateDB Votes DelegateState.
From S2P Require Import VmData.

(** ** Parameters ([params/protocol_params.go], [params/gas_table.go]) *)

Definition CallValueTransferGas : Z := 550.
Definition CallNewAccountGas : Z := 1600.
Definition CallStipend : Z := 1000.
Definition QuadCoeffDiv : Z := 1024.
Definition SstoreSetGas : Z := 1250.
Definition SstoreResetGas : Z := 310.
Definition SstoreClearGas : Z := 310.
Definition SstoreRefundGas : Z := 950.
Definition LogDataGas : Z := 1.
Definition LogGas : Z := 24.
Definition LogTopicGas : Z := 24.
Definition CopyGas : Z := 1.
Definition JumpdestGas : Z := 1.
Definition CreateGas : Z := 2000.
Definition CreateDataGas : Z := 12.
Definition TxABIGas : Z := 3.
Definition SuicideRefundGas : Z := 1500.
Definition MemoryGas : Z := 1.
Definition Sha3Gas : Z := 2.
Definition Sha3WordGas : Z := 1.
Definition BalanceOfGas : Z := 50.
Definition TransferAssetGas : Z := 550.
Definition CallCreateDepth : Z := 1024.
Definition StackLimit : Z := 1024.
Definition MaxCodeSize : Z := 24576.
(** [params.TxGasAgentCreation] *)
Definition TxGasAgentCreation : Z := 5000000 * 10 ^ 18.

Record GasTable : Type := mkGasTable {
  gt_ExtcodeSize : Z;
  gt_ExtcodeCopy : Z;
  gt_Balance : Z;
  gt_SLoad : Z;
  gt_Calls : Z;
  gt_Suicide : Z;
  gt_ExpByte : Z;
  gt_CreateBySuicide : Z
}.
Definition GasTableEpiphron : GasTable := mkGasTable 45 45 25 20 45 350 4 2500.
Definition GasTable0 : GasTable := mkGasTable 0 0 0 0 0 0 0 0.

(** [ChainConfig.GasTable] for a block at or after the fork, or before it. *)
Definition gasTable_of (isEpiphron : bool) : GasTable := if isEpiphron then GasTableEpiphron else GasTable0.

(** [gas.go] *)
Definition GasQuickStep : Z := 1.
Definition GasFastestStep : Z := 1.
Definition GasFastStep : Z := 2.
Definition GasMidStep : Z := 3.
Definition GasSlowStep : Z := 4.
Definition GasExtStep : Z := 7.

(** ** Errors *)

Inductive vmerr : Type :=
| ErrOutOfGas
| ErrCodeStoreOutOfGas
| ErrDepth
| ErrInsufficientBalance
| ErrVoteFailed
| ErrContractAddressCollision
| errWriteProtection
| errReturnDataOutOfBounds
| errExecutionReverted
| errMaxCodeSizeExceeded
| errGasUintOverflow
| errInvalidOpcode (op : Z)
| errStackUnderflow
| errStackLimit
| errInvalidJump
| errEmptyVoteList
| errAlreadyRegistered (a : address)
| errPrecompile (why : string).

#[export] Instance vmerr_eq : EqDecision vmerr.
Proof. solve_decision. Defined.

(** ** State *)

(** [types.InnerTx] *)
Record InnerTx : Type := mkInnerTx {
  it_From : address;
  it_To : address;
  it_AssetID : option address;
  it_Value : Z
}.

(** What changes while a transaction runs: the account state and the arrays of the
    vote lists, and the fields of [EVM] and [Interpreter]. *)
Record EVM (AT ST : Type) : Type := mkEVM {
  e_heap : heap;
  e_db : StateDB AT ST slice;
  e_depth : Z;
  e_callGasTemp : Z;
  e_InnerTxs : list InnerTx;
  e_readOnly : bool;
  e_returnData : bytes;
  e_jumpdests : destinations
}.
Arguments mkEVM {AT ST} _ _ _ _ _ _ _ _.
Arguments e_heap {AT ST} _.
Arguments e_db {AT ST} _.
Arguments e_depth {AT ST} _.
Arguments e_callGasTemp {AT ST} _.
Arguments e_InnerTxs {AT ST} _.
Arguments e_readOnly {AT ST} _.
Arguments e_returnData {AT ST} _.
Arguments e_jumpdests {AT ST} _.
#[export] Instance eta_EVM {AT ST} : Eta (EVM AT ST) := λ r,
  mkEVM (e_heap r) (e_db r) (e_depth r) (e_callGasTemp r) (e_InnerTxs r) (e_readOnly r)
    (e_returnData r) (e_jumpdests r).

(** What does not: [Context], the configuration and the rules of the block.
    [x_GetHash] is the function [GetHashFn] makes; [x_grow] is the capacity
    [append] gives. *)
Record Context : Type := mkContext {
  x_Origin : address;
  x_GasPrice : Z;
  x_Coinbase : address;
  x_GasLimit : Z;
  x_BlockNumber : Z;
  x_Time : Z;
  x_Difficulty : Z;
  x_DelegateList : option (gmap address DelegateState.Candidate);
  x_GetHash : Z → hash;
  x_NoRecursion : bool;
  x_EnablePreimageRecording : bool;
  x_WatchInnerTx : bool;
  x_IsByzantium : bool;
  x_IsEpiphron : bool;
  x_maxElectDelegate : Z;
  x_grow : nat → nat
}.

(** Reading through a nil pointer to the delegate list panics. *)
Definition nil_list_panic : string := "nil delegate list".

(** The state of a frame. *)
Record Frame : Type := mkFrame {
  f_contract : Contract;
  f_mem : Memory;
  f_stack : Stack;
  f_pc : Z
}.
#[export] Instance eta_Frame : Eta Frame := λ r,
  mkFrame (f_contract r) (f_mem r) (f_stack r) (f_pc r).

Section Gas.
Context {AT ST : Type} `{ENV : StateEnv AT ST slice}.

#[local] Abbreviation SDB := (StateDB AT ST slice).
#[local] Abbreviation EM := (GM (EVM AT ST)).
#[local] Abbreviation FM := (GM (EVM AT ST * Frame)).

(** ** Commands *)

Definition on_db {A} (m : GM SDB A) : EM A := λ e,
  match m (e_db e) with Ret (a, s) => Ret (a, e <| e_db := s |>) | Panic w => Panic w end.
Definition on_evm {A} (m : EM A) : FM A := λ ef,
  match m ef.1 with Ret (a, e) => Ret (a, (e, ef.2)) | Panic w => Panic w end.
Definition db {A} (m : GM SDB A) : FM A := on_evm (on_db m).

Definition pure_out {S A} (o : outcome A) : GM S A := λ s,
  match o with Ret a => Ret (a, s) | Panic w => Panic w end.

Definition frame : FM Frame := λ ef, Ret (ef.2, ef).
Definition contract : FM Contract := λ ef, Ret (f_contract ef.2, ef).
Definition set_frame (f : Frame → Frame) : FM unit := λ ef, Ret (tt, (ef.1, f ef.2)).
Definition set_contract (f : Contract → Contract) : FM unit := set_frame (λ r, r <| f_contract ::= f |>).

Definition pop : FM Z :=
  f ← frame;
  '(x, st) ← pure_out (st_pop (f_stack f));
  set_frame (λ f, f <| f_stack := st |>);;
  mret x.
Definition push (x : Z) : FM unit := set_frame (λ f, f <| f_stack ::= λ st, x :: st |>).
Definition Back (n : nat) : FM Z := f ← frame; pure_out (st_Back (f_stack f) n).
(** [stack.peek()], and the number it points to set. *)
Definition peek : FM Z := Back 0.
Definition set_top (x : Z) : FM unit :=
  set_frame (λ f, f <| f_stack ::= λ st, match st with [] => [] | _ :: st => x :: st end |>).

(** ** Memory sizes ([memory_table.go]) *)

Definition size_at (off len : nat) : FM Z := o ← Back off; l ← Back len; mret (calcMemSize o l).
Definition size_const (off : nat) (l : Z) : FM Z := o ← Back off; mret (calcMemSize o l).
Definition size_max (a b : FM Z) : FM Z := x ← a; y ← b; mret (BigMax x y).

Definition memorySha3 : FM Z := size_at 0 1.
Definition memoryCallDataCopy : FM Z := size_at 0 2.
Definition memoryReturnDataCopy : FM Z := size_at 0 2.
Definition memoryCodeCopy : FM Z := size_at 0 2.
Definition memoryExtCodeCopy : FM Z := size_at 1 3.
Definition memoryMLoad : FM Z := size_const 0 32.
Definition memoryMStore8 : FM Z := size_const 0 1.
Definition memoryMStore : FM Z := size_const 0 32.
Definition memoryCreate : FM Z := size_at 1 2.
Definition memoryCall : FM Z := size_max (size_at 5 6) (size_at 3 4).
Definition memoryDelegateCall : FM Z := size_max (size_at 4 5) (size_at 2 3).
Definition memoryStaticCall : FM Z := size_max (size_at 4 5) (size_at 2 3).
Definition memoryReturn : FM Z := size_at 0 1.
Definition memoryRevert : FM Z := size_at 0 1.
Definition memoryLog : FM Z := size_at 0 1.

(** ** Costs ([gas_table.go])

    A cost, or the error of the computation. *)

Definition bind_err {A B} (m : FM (A + vmerr)) (k : A → FM (B + vmerr)) : FM (B + vmerr) :=
  r ← m; match r with inl a => k a | inr e => mret (inr e) end.
#[local] Notation "x '←?' m ; k" := (bind_err m (λ x, k))
  (at level 20, m at level 100, k at level 200, right associativity).

Definition cost {A} (a : A) : FM (A + vmerr) := mret (inl a).
Definition checked (r : Z * bool) : FM (Z + vmerr) :=
  mret (if r.2 then inr errGasUintOverflow else inl r.1).

Definition memoryGasCost (newMemSize : Z) : FM (Z + vmerr) :=
  if newMemSize =? 0 then cost 0
  else if newMemSize >? 0xffffffffe0 then mret (inr errGasUintOverflow)
  else
    let newMemSizeWords := toWordSize newMemSize in
    let newMemSize := u64 (newMemSizeWords * 32) in
    f ← frame;
    if newMemSize >? mem_Len (f_mem f) then
      let square := u64 (newMemSizeWords * newMemSizeWords) in
      let linCoef := u64 (newMemSizeWords * MemoryGas) in
      let quadCoef := square / QuadCoeffDiv in
      let newTotalFee := u64 (linCoef + quadCoef) in
      let fee := u64 (newTotalFee - m_lastGasCost (f_mem f)) in
      set_frame (λ f, f <| f_mem ::= λ m, m <| m_lastGasCost := newTotalFee |> |>);;
      cost fee
    else cost 0.

Definition gasFunc : Type := GasTable → Z → FM (Z + vmerr).

Definition constGasFunc (gas : Z) : gasFunc := λ _ _, cost gas.

(** Memory, a constant, and a price per word of the item [n] of the stack. *)
Definition gasCopy (base : Z) (n : nat) : Z → FM (Z + vmerr) := λ memorySize,
  gas ←? memoryGasCost memorySize;
  gas ←? checked (SafeAdd gas base);
  w ← Back n;
  words ←? checked (bigUint64 w);
  words ←? checked (SafeMul (toWordSize words) CopyGas);
  checked (SafeAdd gas words).

Definition gasCallDataCopy : gasFunc := λ _, gasCopy GasFastestStep 2.
Definition gasReturnDataCopy : gasFunc := λ _, gasCopy GasFastestStep 2.
Definition gasCodeCopy : gasFunc := λ _, gasCopy GasFastestStep 2.
Definition gasExtCodeCopy : gasFunc := λ gt, gasCopy (gt_ExtcodeCopy gt) 3.

Definition gasSStore : gasFunc := λ _ _,
  y ← Back 1;
  x ← Back 0;
  c ← contract;
  val ← db (GetState (ct_self c) (BigToHash x));
  if bool_decide (val = hash0) && negb (bool_decide (BigToHash y = hash0)) then cost SstoreSetGas
  else if negb (bool_decide (val = hash0)) && bool_decide (BigToHash y = hash0) then
    db (AddRefund SstoreRefundGas);;
    cost SstoreClearGas
  else cost SstoreResetGas.

Definition makeGasLog (n : Z) : gasFunc := λ _ memorySize,
  size ← Back 1;
  requestedSize ←? checked (bigUint64 size);
  gas ←? memoryGasCost memorySize;
  gas ←? checked (SafeAdd gas LogGas);
  gas ←? checked (SafeAdd gas (u64 (n * LogTopicGas)));
  memorySizeGas ←? checked (SafeMul requestedSize LogDataGas);
  checked (SafeAdd gas memorySizeGas).

Definition gasSha3 : gasFunc := λ _ memorySize,
  gas ←? memoryGasCost memorySize;
  gas ←? checked (SafeAdd gas Sha3Gas);
  size ← Back 1;
  wordGas ←? checked (bigUint64 size);
  wordGas ←? checked (SafeMul (toWordSize wordGas) Sha3WordGas);
  checked (SafeAdd gas wordGas).

(** An error of [memoryGasCost] is the same overflow error. *)
Definition gasMem (base : Z) : Z → FM (Z + vmerr) := λ memorySize,
  gas ←? memoryGasCost memorySize;
  checked (SafeAdd gas base).

Definition gasMLoad : gasFunc := λ _, gasMem GasFastestStep.
Definition gasMStore8 : gasFunc := λ _, gasMem GasFastestStep.
Definition gasMStore : gasFunc := λ _, gasMem GasFastestStep.
Definition gasCreate : gasFunc := λ _, gasMem CreateGas.

Definition gasBalance : gasFunc := λ gt _, cost (gt_Balance gt).
Definition gasExtCodeSize : gasFunc := λ gt _, cost (gt_ExtcodeSize gt).
Definition gasSLoad : gasFunc := λ gt _, cost (gt_SLoad gt).

Definition gasExp : gasFunc := λ gt _,
  e ← Back 1;
  let expByteLen := (BitLen e + 7) / 8 in
  checked (SafeAdd (u64 (expByteLen * gt_ExpByte gt)) GasSlowStep).

(** [gas.go] *)
Definition callGas (gt : GasTable) (availableGas base callCost : Z) : Z + vmerr :=
  let plain := if BitLen callCost >? 64 then inr errGasUintOverflow else inl (Uint64 callCost) in
  if gt_CreateBySuicide gt >? 0 then
    let availableGas := u64 (availableGas - base) in
    let gas := availableGas - availableGas / 64 in
    if (BitLen callCost >? 64) || (gas <? Uint64 callCost) then inl gas else plain
  else plain.

(** The end of the four call costs: the gas for the callee is computed from the top
    of the stack, kept in [callGasTemp] and added. *)
Definition callCosts (gt : GasTable) (gas : Z) : FM (Z + vmerr) :=
  c ← contract;
  top ← Back 0;
  match callGas gt (ct_Gas c) gas top with
  | inr err => on_evm (gmodify (λ e, e <| e_callGasTemp := 0 |>));; mret (inr err)
  | inl g =>
    on_evm (gmodify (λ e, e <| e_callGasTemp := g |>));;
    checked (SafeAdd gas g)
  end.

Definition gasCall : gasFunc := λ gt memorySize,
  value ← Back 2;
  a ← Back 1;
  exist ← db (Exist (BigToAddress a));
  let gas := gt_Calls gt in
  let gas := if (exist : bool) then gas else u64 (gas + CallNewAccountGas) in
  let gas := if Z.sgn value =? 0 then gas else u64 (gas + CallValueTransferGas) in
  memoryGas ←? memoryGasCost memorySize;
  gas ←? checked (SafeAdd gas memoryGas);
  callCosts gt gas.

Definition gasCallCode : gasFunc := λ gt memorySize,
  value ← Back 2;
  let gas := gt_Calls gt in
  let gas := if Z.sgn value =? 0 then gas else u64 (gas + CallValueTransferGas) in
  memoryGas ←? memoryGasCost memorySize;
  gas ←? checked (SafeAdd gas memoryGas);
  callCosts gt gas.

Definition gasDelegateCall : gasFunc := λ gt memorySize,
  gas ←? memoryGasCost memorySize;
  gas ←? checked (SafeAdd gas (gt_Calls gt));
  callCosts gt gas.
Definition gasStaticCall : gasFunc := gasDelegateCall.

Definition gasReturn : gasFunc := λ _ memorySize, memoryGasCost memorySize.
Definition gasRevert : gasFunc := λ _ memorySize, memoryGasCost memorySize.

Definition gasSuicide : gasFunc := λ _ _,
  c ← contract;
  dead ← db (HasSuicided (ct_self c));
  (if (dead : bool) then mret tt else db (AddRefund SuicideRefundGas));;
  cost 0.

Definition gasPush : gasFunc := λ _ _, cost GasFastestStep.
Definition gasSwap : gasFunc := λ _ _, cost GasFastestStep.
Definition gasDup : gasFunc := λ _ _, cost GasFastestStep.
Definition gasBalanceOf : gasFunc := λ _ _, cost BalanceOfGas.
Definition gasTransferAsset : gasFunc := λ gt _, checked (SafeAdd (gt_Calls gt) TransferAssetGas).
End Gas.
