(* ===== verification/Evm.v ===== *)
(** * Calls ([core/vm/evm.go], [core/vm/contracts.go])

    The five ways code is entered ([Call], [CallCode], [DelegateCall],
    [StaticCall], [Create]) and the precompiled contracts.  All of them run code
    through [run], which is given here and defined with the interpreter. *)

From S2P Require Import Prelude Assets Interfaces AssetInfo StateTypes StateDB Votes DelegateState.
From S2P Require Import Accounts Transfer VoteCount VmData VmGas.

(** ** Precompiled contracts *)

(** The primitives of the [crypto] packages the contracts call. *)
Class CryptoOps : Type := {
  Ecrecover : bytes → bytes → bytes + gerror;
  Keccak256 : bytes → bytes;
  sha256_Sum256 : bytes → bytes;
  ripemd160_Sum : bytes → bytes;
  bn256Add_Run : bytes → bytes + gerror;
  bn256ScalarMul_Run : bytes → bytes + gerror;
  bn256Pairing_Run : bytes → bytes + gerror
}.

Definition secp256k1_N : Z := 0xfffffffffffffffffffffffffffffffebaaedce6af48a03bbfd25e8cd0364141.
Definition secp256k1_halfN : Z := secp256k1_N / 2.

Definition ValidateSignatureValues (v r s : Z) (homestead : bool) : bool :=
  if (r <? 1) || (s <? 1) then false
  else if homestead && (s >? secp256k1_halfN) then false
  else (r <? secp256k1_N) && (s <? secp256k1_N) && ((v =? 0) || (v =? 1)).

Definition EcrecoverGas : Z := 200.
Definition Sha256BaseGas : Z := 4.
Definition Sha256PerWordGas : Z := 1.
Definition Ripemd160BaseGas : Z := 38.
Definition Ripemd160PerWordGas : Z := 8.
Definition IdentityBaseGas : Z := 1.
Definition IdentityPerWordGas : Z := 1.
Definition ModExpQuadCoeffDiv : Z := 2.
Definition Bn256AddGas : Z := 32.
Definition Bn256ScalarMulGas : Z := 2500.
Definition Bn256PairingBaseGas : Z := 6250.
Definition Bn256PairingPerPointGas : Z := 5000.

Inductive precompiled : Type :=
| ecrecover | sha256hash | ripemd160hash | dataCopy | bigModExp | bn256Add | bn256ScalarMul | bn256Pairing.

Definition PrecompiledContracts (a : address) : option precompiled :=
  match (a : Z) with
  | 1 => Some ecrecover
  | 2 => Some sha256hash
  | 3 => Some ripemd160hash
  | 4 => Some dataCopy
  | 5 => Some bigModExp
  | 6 => Some bn256Add
  | 7 => Some bn256ScalarMul
  | 8 => Some bn256Pairing
  | _ => None
  end.

Definition words_of (input : bytes) : Z := (blen input + 31) / 32.

(** The lengths at the head of a call of [bigModExp], and what follows them. *)
Definition modexp_head (input : bytes) : outcome (Z * Z * Z * bytes) :=
  b ← getData input 0 32;
  e ← getData input 32 32;
  m ← getData input 64 32;
  Ret (be_val b, be_val e, be_val m, drop 96 input).

Definition bigModExp_RequiredGas (input : bytes) : outcome Z :=
  '(baseLen, expLen, modLen, input) ← modexp_head input;
  expHead ← (if blen input <=? baseLen then Ret 0
             else if expLen >? 32 then h ← getData input (Uint64 baseLen) 32; Ret (be_val h)
             else h ← getData input (Uint64 baseLen) (Uint64 expLen); Ret (be_val h));
  let msb := if BitLen expHead >? 0 then BitLen expHead - 1 else 0 in
  let adjExpLen := (if expLen >? 32 then 8 * (expLen - 32) else 0) + msb in
  let gas := BigMax modLen baseLen in
  let gas :=
    if gas <=? 64 then gas * gas
    else if gas <=? 1024 then gas * gas / 4 + (96 * gas - 3072)
    else gas * gas / 16 + (480 * gas - 199680) in
  let gas := gas * BigMax adjExpLen 1 / ModExpQuadCoeffDiv in
  Ret (if BitLen gas >? 64 then MaxUint64 else Uint64 gas).

Definition bigModExp_Run (input : bytes) : outcome bytes :=
  '(baseLen, expLen, modLen, input) ← modexp_head input;
  let baseLen := Uint64 baseLen in
  let expLen := Uint64 expLen in
  let modLen := Uint64 modLen in
  if (baseLen =? 0) && (modLen =? 0) then Ret []
  else
    base ← getData input 0 baseLen;
    exp ← getData input baseLen expLen;
    mod_ ← getData input (u64 (baseLen + expLen)) modLen;
    if be_val mod_ =? 0 then Ret (LeftPadBytes [] (i64 modLen))
    else Ret (LeftPadBytes (big_Bytes (be_val base ^ be_val exp mod be_val mod_)) (i64 modLen)).

Definition RequiredGas (p : precompiled) (input : bytes) : outcome Z :=
  match p with
  | ecrecover => Ret EcrecoverGas
  | sha256hash => Ret (u64 (u64 (words_of input * Sha256PerWordGas) + Sha256BaseGas))
  | ripemd160hash => Ret (u64 (u64 (words_of input * Ripemd160PerWordGas) + Ripemd160BaseGas))
  | dataCopy => Ret (u64 (u64 (words_of input * IdentityPerWordGas) + IdentityBaseGas))
  | bigModExp => bigModExp_RequiredGas input
  | bn256Add => Ret Bn256AddGas
  | bn256ScalarMul => Ret Bn256ScalarMulGas
  | bn256Pairing => Ret (u64 (Bn256PairingBaseGas + u64 (blen input / 192 * Bn256PairingPerPointGas)))
  end.

Definition sub_bytes (b : bytes) (lo hi : nat) : bytes := take (hi - lo) (drop lo b).

Section Precompiled.
Context `{CRYPTO : CryptoOps}.

Definition ecrecover_Run (input : bytes) : bytes :=
  let input := RightPadBytes input 128 in
  let r := be_val (sub_bytes input 64 96) in
  let s := be_val (sub_bytes input 96 128) in
  let v := (default 0 (byte_val <$> input !! 63%nat) - 27) mod 256 in
  if negb (allZero (sub_bytes input 32 63)) || negb (ValidateSignatureValues v r s false) then []
  else match Ecrecover (sub_bytes input 0 32) (sub_bytes input 64 128 ++ [byte_of v]) with
  | inr _ => []
  | inl pubKey => LeftPadBytes (drop 12 (Keccak256 (drop 1 pubKey))) 32
  end.

Definition lift_err (r : bytes + gerror) : bytes * option vmerr :=
  match r with inl b => (b, None) | inr e => ([], Some (errPrecompile e)) end.

Definition precompiled_Run (p : precompiled) (input : bytes) : outcome (bytes * option vmerr) :=
  match p with
  | ecrecover => Ret (ecrecover_Run input, None)
  | sha256hash => Ret (sha256_Sum256 input, None)
  | ripemd160hash => Ret (LeftPadBytes (ripemd160_Sum input) 32, None)
  | dataCopy => Ret (input, None)
  | bigModExp => b ← bigModExp_Run input; Ret (b, None)
  | bn256Add => Ret (lift_err (bn256Add_Run input))
  | bn256ScalarMul => Ret (lift_err (bn256ScalarMul_Run input))
  | bn256Pairing => Ret (lift_err (bn256Pairing_Run input))
  end.

(** The contract is returned with the gas it has left. *)
Definition RunPrecompiledContract (p : precompiled) (input : bytes) (c : Contract)
  : outcome (bytes * option vmerr * Contract) :=
  gas ← RequiredGas p input;
  let '(ok, c) := UseGas gas c in
  if (ok : bool) then r ← precompiled_Run p input; Ret (r, c)
  else Ret ([], Some ErrOutOfGas, c).
End Precompiled.

(** ** Calls *)

Section Calls.
Context {AT ST : Type} `{ENV : StateEnv AT ST slice} `{CRYPTO : CryptoOps}.
Variable ctx : Context.

#[local] Abbreviation SDB := (StateDB AT ST slice).
#[local] Abbreviation EM := (GM (EVM AT ST)).

(** A contract that ran: what it returned, its error, and the contract with the gas
    it has left. *)
#[local] Abbreviation ran := (bytes * option vmerr * Contract)%type.

(** [Interpreter.Run] *)
Variable interpreter_Run : Contract → bytes → EM ran.

Definition run (c : Contract) (input : bytes) : EM ran :=
  match ct_CodeAddr c ≫= PrecompiledContracts with
  | Some p => pure_out (RunPrecompiledContract p input c)
  | None => interpreter_Run c input
  end.

(** The delegates a vote is checked against. *)
Definition delegate_keys : option (gset address) := dom <$> x_DelegateList ctx.

Definition evm_Vote (user : address) (votes : list VoteItem) : EM (option vm_error) := λ e,
  match Vote (x_grow ctx) user votes delegate_keys (x_maxElectDelegate ctx) (e_heap e, e_db e) with
  | Ret (r, (h, s)) => Ret (r, e <| e_heap := h |> <| e_db := s |>)
  | Panic w => Panic w
  end.

Definition watchInnerTx (from to : address) (asset : option address) (value : Z) : EM unit :=
  if x_WatchInnerTx ctx && (0 <? value) then
    gmodify (λ e, e <| e_InnerTxs ::= λ l, l ++ [mkInnerTx from to asset value] |>)
  else mret tt.

(** The end of a call: an error reverts the state, and takes the gas that is left
    unless the code itself reverted. *)
Definition after_run (snapshot : Z) (r : ran) : EM (bytes * Z * option vmerr) :=
  let '(ret, err, c) := r in
  match err with
  | None => mret (ret, ct_Gas c, None)
  | Some e =>
    on_db (RevertToSnapshot snapshot (x_IsEpiphron ctx));;
    let c := if decide (e = errExecutionReverted) then c else (UseGas (ct_Gas c) c).2 in
    mret (ret, ct_Gas c, Some e)
  end.

(** Load the code of [addr] into a contract and run it. *)
Definition call_code (snapshot : Z) (addr : address) (input : bytes) (c : Contract)
  : EM (bytes * Z * option vmerr) :=
  h ← on_db (GetCodeHash addr);
  code ← on_db (GetCode addr);
  r ← run (SetCallCode (Some addr) h (default [] code) c) input;
  after_run snapshot r.

(** The balance checks at the head of [Call]. *)
Definition cannot_pay (caller : address) (action value : Z) (asset : option address) : EM bool :=
  let checkValue := if action =? ActionSubVote then -1 * value else value in
  ok ← on_db (CanTransfer caller asset checkValue);
  match ok with
  | false => mret true
  | true =>
    if action =? ActionRegister then
      ok ← on_db (CanTransfer caller None TxGasAgentCreation);
      mret (negb ok)
    else mret false
  end.

(** What a call does before the code runs: the votes, the check of a registration,
    or the transfer. *)
Definition call_effect (snapshot : Z) (caller addr : address) (action value : Z)
    (voteList : list VoteItem) (asset : option address) : EM (option vmerr) :=
  if (action =? ActionAddVote) || (action =? ActionSubVote) then
    if (length voteList =? 0)%nat then mret (Some errEmptyVoteList)
    else
      err ← evm_Vote caller voteList;
      match err with
      | Some _ => on_db (RevertToSnapshot snapshot (x_IsEpiphron ctx));; mret (Some ErrVoteFailed)
      | None => mret None
      end
  else if action =? ActionRegister then
    match x_DelegateList ctx with
    | None => gpanic "nil delegate list"
    | Some l => mret (match l !! caller with Some _ => Some (errAlreadyRegistered caller) | None => None end)
    end
  else on_db (Transfer caller addr asset value);; mret None.

Definition Call (caller addr : address) (input : bytes) (gas action value : Z)
    (voteList : list VoteItem) (asset : option address) : EM (bytes * Z * option vmerr) :=
  e ← gget;
  if x_NoRecursion ctx && (e_depth e >? 0) then mret ([], gas, None)
  else if e_depth e >? CallCreateDepth then mret ([], gas, Some ErrDepth)
  else
    bad ← cannot_pay caller action value asset;
    match bad with
    | true => mret ([], gas, Some ErrInsufficientBalance)
    | false =>
      snapshot ← on_db Snapshot;
      exist ← on_db (Exist addr);
      if negb exist && negb (bool_decide (is_Some (PrecompiledContracts addr))) && (Z.sgn value =? 0) then
        mret ([], gas, None)
      else
        (if (exist : bool) then mret tt else on_db (CreateAccount addr));;
        err ← call_effect snapshot caller addr action value voteList asset;
        match err with
        | Some err => mret ([], gas, Some err)
        | None => call_code snapshot addr input (NewContract caller addr asset value gas)
        end
    end.

Definition CallCode (caller addr : address) (input : bytes) (gas value : Z) : EM (bytes * Z * option vmerr) :=
  e ← gget;
  if x_NoRecursion ctx && (e_depth e >? 0) then mret ([], gas, None)
  else if e_depth e >? CallCreateDepth then mret ([], gas, Some ErrDepth)
  else
    ok ← on_db (CanTransfer caller None value);
    match ok with
    | false => mret ([], gas, Some ErrInsufficientBalance)
    | true =>
      snapshot ← on_db Snapshot;
      call_code snapshot addr input (NewContract caller caller None value gas)
    end.

(** [caller] is the calling contract, whose own caller and value the code sees. *)
Definition DelegateCall (caller : Contract) (addr : address) (input : bytes) (gas : Z)
  : EM (bytes * Z * option vmerr) :=
  e ← gget;
  if x_NoRecursion ctx && (e_depth e >? 0) then mret ([], gas, None)
  else if e_depth e >? CallCreateDepth then mret ([], gas, Some ErrDepth)
  else
    snapshot ← on_db Snapshot;
    call_code snapshot addr input
      (AsDelegate caller (NewContract (ct_self caller) (ct_self caller) None 0 gas)).

Definition StaticCall (caller addr : address) (input : bytes) (gas : Z) : EM (bytes * Z * option vmerr) :=
  e ← gget;
  if x_NoRecursion ctx && (e_depth e >? 0) then mret ([], gas, None)
  else if e_depth e >? CallCreateDepth then mret ([], gas, Some ErrDepth)
  else
    (if e_readOnly e then mret tt else gmodify (λ e, e <| e_readOnly := true |>));;
    snapshot ← on_db Snapshot;
    r ← call_code snapshot addr input (NewContract caller addr None 0 gas);
    (if e_readOnly e then mret tt else gmodify (λ e, e <| e_readOnly := false |>));;
    mret r.

(** Storing the code a constructor returned. *)
Definition store_code (addr : address) (abi : string) (r : ran) : EM ran :=
  let '(ret, err, c) := r in
  if negb (bool_decide (err = None)) || (blen ret >? MaxCodeSize) then mret r
  else
    let createDataGas := u64 (u64 (blen ret * CreateDataGas) +
                              u64 (Z.of_nat (String.length abi) * TxABIGas)) in
    let '(ok, c) := UseGas createDataGas c in
    if (ok : bool) then
      on_db (SetCode addr (match ret with [] => None | _ => Some ret end));;
      on_db (SetAbi addr abi);;
      mret (ret, None, c)
    else mret (ret, Some ErrCodeStoreOutOfGas, c).

(** The end of [Create]. *)
Definition after_create (snapshot : Z) (addr : address) (r : ran)
  : EM (bytes * address * Z * option vmerr) :=
  let '(ret, err, c) := r in
  let maxCodeSizeExceeded := blen ret >? MaxCodeSize in
  if maxCodeSizeExceeded || (negb (bool_decide (err = None)) && negb (bool_decide (err = Some ErrCodeStoreOutOfGas)))
  then
    on_db (RevertToSnapshot snapshot (x_IsEpiphron ctx));;
    let c := if decide (err = Some errExecutionReverted) then c else (UseGas (ct_Gas c) c).2 in
    mret (ret, addr, ct_Gas c,
          match err with None => Some errMaxCodeSizeExceeded | Some e => Some e end)
  else mret (ret, addr, ct_Gas c, err).

Definition Create (caller : address) (code : bytes) (gas : Z) (asset : option address) (value : Z)
    (abi : string) : EM (bytes * address * Z * option vmerr) :=
  e ← gget;
  if e_depth e >? CallCreateDepth then mret ([], address0, gas, Some ErrDepth)
  else
    ok ← on_db (CanTransfer caller asset value);
    match ok with
    | false => mret ([], address0, gas, Some ErrInsufficientBalance)
    | true =>
      nonce ← on_db (GetNonce caller);
      on_db (SetNonce caller (u64 (nonce + 1)));;
      let contractAddr := CreateAddress caller nonce in
      contractHash ← on_db (GetCodeHash contractAddr);
      n ← on_db (GetNonce contractAddr);
      if negb (n =? 0) || (negb (bool_decide (contractHash = hash0)) &&
                           negb (bool_decide (contractHash = emptyCodeHash)))
      then mret ([], address0, 0, Some ErrContractAddressCollision)
      else
        snapshot ← on_db Snapshot;
        on_db (CreateAccount contractAddr);;
        on_db (Transfer caller contractAddr asset value);;
        let c := SetCallCode (Some contractAddr) (Keccak256Hash code) code
                   (NewContract caller contractAddr asset value gas) in
        if x_NoRecursion ctx && (e_depth e >? 0) then mret ([], contractAddr, gas, None)
        else
          r ← run c [];
          r ← store_code contractAddr abi r;
          after_create snapshot contractAddr r
    end.
End Calls.
