(* ===== verification/Instructions.v ===== *)
(** * Instructions ([core/vm/instructions.go])

    One definition per instruction.  An instruction works on the machine and on the
    running frame and returns the bytes and the error the interpreter looks at. *)

From S2P Require Import Prelude Assets Interfaces AssetInfo StateTypes StateDB Votes DelegateState.
From S2P Require Import Accounts Transfer VoteCount VmData VmGas Evm.

Section Instructions.
Context {AT ST : Type} `{ENV : StateEnv AT ST slice} `{CRYPTO : CryptoOps}.
Variable ctx : Context.

#[local] Abbreviation EM := (GM (EVM AT ST)).
#[local] Abbreviation FM := (GM (EVM AT ST * Frame)).
#[local] Abbreviation ran := (bytes * option vmerr * Contract)%type.

Variable interpreter_Run : Contract → bytes → EM ran.

Definition executionFunc : Type := FM (bytes * option vmerr).

(** [return nil, nil] *)
Definition done_ : executionFunc := mret ([], None).
Definition fail (e : vmerr) : executionFunc := mret ([], Some e).

Definition flag (b : bool) : Z := if b then 1 else 0.

(** ** Arithmetic *)

Definition opAdd : executionFunc := x ← pop; y ← peek; set_top (U256 (x + y));; done_.
Definition opSub : executionFunc := x ← pop; y ← peek; set_top (U256 (x - y));; done_.
Definition opMul : executionFunc := x ← pop; y ← pop; push (U256 (x * y));; done_.
Definition opDiv : executionFunc :=
  x ← pop; y ← peek;
  set_top (if Z.sgn y =? 0 then 0 else U256 (bigDiv x y));; done_.

(** The value [SDIV] and [SMOD] push, for signed operands. *)
Definition sdiv (x y : Z) : Z :=
  if (Z.sgn y =? 0) || (Z.sgn x =? 0) then 0
  else if negb (Z.sgn x =? Z.sgn y) then U256 (- bigDiv (Z.abs x) (Z.abs y))
  else U256 (bigDiv (Z.abs x) (Z.abs y)).
Definition smod (x y : Z) : Z :=
  if Z.sgn y =? 0 then 0
  else if Z.sgn x <? 0 then U256 (- bigMod (Z.abs x) (Z.abs y))
  else U256 (bigMod (Z.abs x) (Z.abs y)).

Definition opSdiv : executionFunc := x ← pop; y ← pop; push (sdiv (S256 x) (S256 y));; done_.
Definition opMod : executionFunc :=
  x ← pop; y ← pop; push (if Z.sgn y =? 0 then 0 else U256 (bigMod x y));; done_.
Definition opSmod : executionFunc := x ← pop; y ← pop; push (smod (S256 x) (S256 y));; done_.
Definition opExp : executionFunc := base ← pop; exponent ← pop; push (Exp base exponent);; done_.

Definition signextend (back num : Z) : Z :=
  let bit := u64 (Uint64 back * 8 + 7) in
  let mask := Z.shiftl 1 bit - 1 in
  U256 (if Z.testbit num bit then Z.lor num (Z.lnot mask) else Z.land num mask).
Definition opSignExtend : executionFunc :=
  back ← pop;
  if back <? 31 then num ← pop; push (signextend back num);; done_ else done_.

Definition opNot : executionFunc := x ← peek; set_top (U256 (Z.lnot x));; done_.
Definition opLt : executionFunc := x ← pop; y ← peek; set_top (flag (x <? y));; done_.
Definition opGt : executionFunc := x ← pop; y ← peek; set_top (flag (x >? y));; done_.

Definition slt (x y : Z) : Z :=
  if (x >=? tt255) && (y <? tt255) then 1
  else if (x <? tt255) && (y >=? tt255) then 0
  else flag (x <? y).
Definition sgt (x y : Z) : Z :=
  if (x >=? tt255) && (y <? tt255) then 0
  else if (x <? tt255) && (y >=? tt255) then 1
  else flag (x >? y).
Definition opSlt : executionFunc := x ← pop; y ← peek; set_top (slt x y);; done_.
Definition opSgt : executionFunc := x ← pop; y ← peek; set_top (sgt x y);; done_.
Definition opEq : executionFunc := x ← pop; y ← peek; set_top (flag (x =? y));; done_.
Definition opIszero : executionFunc := x ← peek; set_top (if Z.sgn x >? 0 then 0 else 1);; done_.
Definition opAnd : executionFunc := x ← pop; y ← peek; set_top (Z.land x y);; done_.
Definition opOr : executionFunc := x ← pop; y ← peek; set_top (Z.lor x y);; done_.
Definition opXor : executionFunc := x ← pop; y ← peek; set_top (Z.lxor x y);; done_.
Definition opByte : executionFunc :=
  th ← pop; val ← peek; set_top (if th <? 32 then Byte val 32 (Int64 th) else 0);; done_.
Definition opAddmod : executionFunc :=
  x ← pop; y ← pop; z ← pop;
  push (if z >? 0 then U256 (bigMod (x + y) z) else 0);; done_.
Definition opMulmod : executionFunc :=
  x ← pop; y ← pop; z ← pop;
  push (if z >? 0 then U256 (bigMod (x * y) z) else 0);; done_.

Definition shl (shift value : Z) : Z :=
  if shift >=? 256 then 0 else U256 (Z.shiftl value (Uint64 shift)).
Definition shr (shift value : Z) : Z :=
  if shift >=? 256 then 0 else U256 (Z.shiftr value (Uint64 shift)).
Definition sar (shift value : Z) : Z :=
  if shift >=? 256 then U256 (if Z.sgn value >? 0 then 0 else -1)
  else U256 (Z.shiftr value (Uint64 shift)).
Definition opSHL : executionFunc := s ← pop; v ← peek; set_top (shl (U256 s) (U256 v));; done_.
Definition opSHR : executionFunc := s ← pop; v ← peek; set_top (shr (U256 s) (U256 v));; done_.
Definition opSAR : executionFunc := s ← pop; v ← pop; push (sar (U256 s) (S256 v));; done_.

(** ** Memory and data *)

Definition mem_get (offset size : Z) : FM bytes :=
  f ← frame; pure_out (mem_Get (Int64 offset) (Int64 size) (f_mem f)).
Definition mem_set (offset size : Z) (value : bytes) : FM unit :=
  f ← frame;
  m ← pure_out (mem_Set (Uint64 offset) (Uint64 size) value (f_mem f));
  set_frame (λ f, f <| f_mem := m |>).

Definition opSha3 : executionFunc :=
  offset ← pop; size ← pop;
  data ← mem_get offset size;
  let h := Keccak256Hash data in
  (if x_EnablePreimageRecording ctx then db (AddPreimage h data) else mret tt);;
  push h;; done_.

Definition opAddress : executionFunc := c ← contract; push (ct_self c);; done_.
Definition opBalance : executionFunc :=
  slot ← peek; b ← db (GetBalance (BigToAddress slot)); set_top b;; done_.
Definition opOrigin : executionFunc := push (x_Origin ctx);; done_.
Definition opCaller : executionFunc := c ← contract; push (ct_CallerAddress c);; done_.

Definition isAOA (c : Contract) : bool := match ct_asset c with None => true | Some _ => false end.

Definition opCallValue : executionFunc :=
  c ← contract; push (if isAOA c then ct_value c else 0);; done_.
Definition opCallDataLoad : executionFunc :=
  c ← contract; start ← pop;
  d ← pure_out (getDataBig (ct_Input c) start 32);
  push (be_val d);; done_.
Definition opCallDataSize : executionFunc := c ← contract; push (blen (ct_Input c));; done_.

(** The copies: memory offset, data offset and length are popped in this order. *)
Definition copy_data (data : FM bytes) : executionFunc :=
  memOffset ← pop; dataOffset ← pop; length ← pop;
  d ← data;
  b ← pure_out (getDataBig d dataOffset length);
  mem_set memOffset length b;; done_.

Definition opCallDataCopy : executionFunc := copy_data (c ← contract; mret (ct_Input c)).
Definition opReturnDataSize : executionFunc :=
  d ← on_evm (greads e_returnData); push (blen d);; done_.
Definition opReturnDataCopy : executionFunc :=
  memOffset ← pop; dataOffset ← pop; length ← pop;
  d ← on_evm (greads e_returnData);
  let e := dataOffset + length in
  if (BitLen e >? 64) || (blen d <? Uint64 e) then fail errReturnDataOutOfBounds
  else
    b ← pure_out (slice_bytes d (Uint64 dataOffset) (Uint64 e));
    mem_set memOffset length b;; done_.

Definition opExtCodeSize : executionFunc :=
  slot ← peek; n ← db (GetCodeSize (BigToAddress slot)); set_top (u64 n);; done_.
Definition opCodeSize : executionFunc := c ← contract; push (blen (ct_Code c));; done_.
Definition opCodeCopy : executionFunc := copy_data (c ← contract; mret (ct_Code c)).
Definition opExtCodeCopy : executionFunc :=
  a ← pop;
  copy_data (code ← db (GetCode (BigToAddress a)); mret (default [] code)).

(** ** The block *)

Definition opGasprice : executionFunc := push (x_GasPrice ctx);; done_.
Definition opBlockhash : executionFunc :=
  num ← pop;
  push (if (num >? x_BlockNumber ctx - 257) && (num <? x_BlockNumber ctx)
        then x_GetHash ctx (Uint64 num) else 0);; done_.
Definition opCoinbase : executionFunc := push (x_Coinbase ctx);; done_.
Definition opTimestamp : executionFunc := push (U256 (x_Time ctx));; done_.
Definition opNumber : executionFunc := push (U256 (x_BlockNumber ctx));; done_.
Definition opDifficulty : executionFunc := push (U256 (x_Difficulty ctx));; done_.
Definition opGasLimit : executionFunc := push (U256 (x_GasLimit ctx));; done_.

(** ** Stack, memory, storage and flow *)

Definition opPop : executionFunc := _ ← pop; done_.
Definition opMload : executionFunc :=
  offset ← pop; d ← mem_get offset 32; push (be_val d);; done_.
Definition opMstore : executionFunc :=
  mStart ← pop; val ← pop; mem_set mStart 32 (PaddedBigBytes val 32);; done_.
Definition opMstore8 : executionFunc :=
  off ← pop; val ← pop;
  f ← frame;
  m ← pure_out (mem_store8 (Int64 off) (byte_of (Int64 val)) (f_mem f));
  set_frame (λ f, f <| f_mem := m |>);; done_.
Definition opSload : executionFunc :=
  loc ← pop; c ← contract;
  v ← db (GetState (ct_self c) (BigToHash loc));
  push ((v : hash) : Z);; done_.
Definition opSstore : executionFunc :=
  loc ← pop; val ← pop; c ← contract;
  db (SetState (ct_self c) (BigToHash loc) (BigToHash val));; done_.

(** [contract.jumpdests.has], which keeps what it finds out. *)
Definition jump_ok (pos : Z) : FM bool :=
  c ← contract;
  d ← on_evm (greads e_jumpdests);
  '(b, d) ← pure_out (dest_has (ct_CodeHash c) (ct_Code c) pos d);
  on_evm (gmodify (λ e, e <| e_jumpdests := d |>));;
  mret b.

Definition jump_to (pos : Z) : executionFunc :=
  ok ← jump_ok pos;
  match ok with
  | true => set_frame (λ f, f <| f_pc := Uint64 pos |>);; done_
  | false => fail errInvalidJump
  end.

Definition opJump : executionFunc := pos ← pop; jump_to pos.
Definition opJumpi : executionFunc :=
  pos ← pop; cond ← pop;
  if Z.sgn cond =? 0 then set_frame (λ f, f <| f_pc ::= λ pc, u64 (pc + 1) |>);; done_
  else jump_to pos.
Definition opJumpdest : executionFunc := done_.
Definition opPc : executionFunc := f ← frame; push (f_pc f);; done_.
Definition opMsize : executionFunc := f ← frame; push (mem_Len (f_mem f));; done_.
Definition opGas : executionFunc := c ← contract; push (ct_Gas c);; done_.

(** ** Calls *)

Definition add_gas (g : Z) : FM unit := set_contract (λ c, c <| ct_Gas ::= λ x, u64 (x + g) |>).

Definition opCreate : executionFunc :=
  value ← pop; offset ← pop; size ← pop;
  input ← mem_get offset size;
  c ← contract;
  let gas := ct_Gas c in
  set_contract (λ c, (UseGas gas c).2);;
  '(res, addr, returnGas, suberr) ←
    on_evm (Create ctx interpreter_Run (ct_self c) input gas None value EmptyString);
  push (match suberr with None => ((addr : address) : Z) | Some _ => 0 end);;
  add_gas returnGas;;
  mret (if bool_decide (suberr = Some errExecutionReverted) then res else [], None).

(** What the four calls share: the callee's answer goes on the stack and into
    memory, and its gas comes back. *)
Definition after_call (retOffset retSize : Z) (r : bytes * Z * option vmerr) (watch : FM unit)
  : executionFunc :=
  let '(ret, returnGas, err) := r in
  (match err with
   | Some _ => push 0
   | None => push 1;; watch
   end);;
  (if bool_decide (err = None) || bool_decide (err = Some errExecutionReverted)
   then mem_set retOffset retSize ret else mret tt);;
  add_gas returnGas;;
  mret (ret, None).

Definition callGasTemp : FM Z := on_evm (greads e_callGasTemp).
Definition with_stipend (gas value : Z) : Z := if Z.sgn value =? 0 then gas else u64 (gas + CallStipend).

Definition opCall : executionFunc :=
  _ ← pop;
  gas ← callGasTemp;
  addr ← pop; value ← pop; inOffset ← pop; inSize ← pop; retOffset ← pop; retSize ← pop;
  let toAddr := BigToAddress addr in
  let value := U256 value in
  args ← mem_get inOffset inSize;
  c ← contract;
  r ← on_evm (Call ctx interpreter_Run (ct_self c) toAddr args (with_stipend gas value) 0 value [] None);
  after_call retOffset retSize r (on_evm (watchInnerTx ctx (ct_self c) toAddr None value)).

Definition opCallCode : executionFunc :=
  _ ← pop;
  gas ← callGasTemp;
  addr ← pop; value ← pop; inOffset ← pop; inSize ← pop; retOffset ← pop; retSize ← pop;
  let value := U256 value in
  args ← mem_get inOffset inSize;
  c ← contract;
  r ← on_evm (CallCode ctx interpreter_Run (ct_self c) (BigToAddress addr) args (with_stipend gas value) value);
  after_call retOffset retSize r (mret tt).

Definition opDelegateCall : executionFunc :=
  _ ← pop;
  gas ← callGasTemp;
  addr ← pop; inOffset ← pop; inSize ← pop; retOffset ← pop; retSize ← pop;
  args ← mem_get inOffset inSize;
  c ← contract;
  r ← on_evm (DelegateCall ctx interpreter_Run c (BigToAddress addr) args gas);
  after_call retOffset retSize r (mret tt).

Definition opStaticCall : executionFunc :=
  _ ← pop;
  gas ← callGasTemp;
  addr ← pop; inOffset ← pop; inSize ← pop; retOffset ← pop; retSize ← pop;
  args ← mem_get inOffset inSize;
  c ← contract;
  r ← on_evm (StaticCall ctx interpreter_Run (ct_self c) (BigToAddress addr) args gas);
  after_call retOffset retSize r (mret tt).

(** ** Halting *)

Definition opReturn : executionFunc :=
  offset ← pop; size ← pop; ret ← mem_get offset size; mret (ret, None).
Definition opRevert : executionFunc :=
  offset ← pop; size ← pop; ret ← mem_get offset size; mret (ret, None).
Definition opStop : executionFunc := done_.
Definition opSuicide : executionFunc :=
  c ← contract;
  balance ← db (GetBalance (ct_self c));
  a ← pop;
  db (AddBalance (BigToAddress a) balance);;
  _ ← db (Suicide (ct_self c));
  done_.

(** ** Families *)

Fixpoint pop_topics (n : nat) : FM (list hash) :=
  match n with
  | O => mret []
  | S n => x ← pop; l ← pop_topics n; mret (BigToHash x :: l)
  end.

Definition makeLog (size : nat) : executionFunc :=
  mStart ← pop; mSize ← pop;
  topics ← pop_topics size;
  d ← mem_get mStart mSize;
  c ← contract;
  db (AddLog (mkLog (ct_self c) topics d (Uint64 (x_BlockNumber ctx)) hash0 0 hash0 0));; done_.

Definition makePush (size : Z) (pushByteSize : Z) : executionFunc :=
  f ← frame;
  let code := ct_Code (f_contract f) in
  let codeLen := blen code in
  let next := i64 (u64 (f_pc f + 1)) in
  let startMin := if next <? codeLen then next else codeLen in
  let endMin := if startMin + pushByteSize <? codeLen then startMin + pushByteSize else codeLen in
  b ← pure_out (slice_bytes code startMin endMin);
  push (be_val (RightPadBytes b pushByteSize));;
  set_frame (λ f, f <| f_pc ::= λ pc, u64 (pc + size) |>);; done_.

Definition makeDup (size : nat) : executionFunc :=
  f ← frame;
  st ← pure_out (st_dup (f_stack f) size);
  set_frame (λ f, f <| f_stack := st |>);; done_.

Definition makeSwap (size : nat) : executionFunc :=
  f ← frame;
  st ← pure_out (st_swap (f_stack f) (S size));
  set_frame (λ f, f <| f_stack := st |>);; done_.

(** ** Assets and delegates *)

Definition opBalanceOf : executionFunc :=
  asset ← pop; addr ← pop;
  b ← db (GetAssetBalance (BigToAddress addr) (BigToAddress asset));
  push b;; done_.

Definition opTransferAsset : executionFunc :=
  value ← pop; aid ← pop; to ← pop;
  let value := U256 value in
  let asset := BigToAddress aid in
  let toaddr := BigToAddress to in
  c ← contract;
  ok ← db (CanTransfer (ct_self c) (Some asset) value);
  match ok with
  | true =>
    db (Transfer (ct_self c) toaddr (Some asset) value);;
    on_evm (watchInnerTx ctx (ct_self c) toaddr (Some asset) value);;
    push 1;; done_
  | false => push 0;; fail ErrInsufficientBalance
  end.

Definition opAsset : executionFunc :=
  c ← contract; push (match ct_asset c with None => 0 | Some a => ((a : address) : Z) end);; done_.
Definition opAssetValue : executionFunc :=
  c ← contract; push (if isAOA c then 0 else ct_value c);; done_.

Definition delegate_list : FM (gmap address DelegateState.Candidate) :=
  match x_DelegateList ctx with None => gpanic nil_list_panic | Some l => mret l end.

Definition vote_of (l : gmap address DelegateState.Candidate) (addr : Z) : Z :=
  match l !! BigToAddress addr with Some c => c_Vote c | None => 0 end.

Definition opIsDelegate : executionFunc :=
  addr ← pop; l ← delegate_list;
  push (flag (bool_decide (is_Some (l !! BigToAddress addr))));; done_.
Definition opGetCandidateVoteInfo : executionFunc :=
  addr ← pop; l ← delegate_list; push (vote_of l addr);; done_.
Definition opGetCandidateVoteInfoFors : executionFunc :=
  a ← pop; b ← pop; c ← pop; d ← pop; e ← pop;
  l ← delegate_list;
  push (foldl (λ total x, u64 (total + vote_of l x)) 0 [a; b; c; d; e]);; done_.
(** The sum of a wrapping addition does not depend on the order of the map. *)
Definition opGetCandidateTotalVote : executionFunc :=
  _ ← pop; c ← contract; l ← delegate_list;
  push (match l !! ct_CallerAddress c with
        | Some _ => foldl (λ total p, u64 (total + c_Vote p.2)) 0 (map_to_list l)
        | None => 0
        end);; done_.
End Instructions.
