(* ===== verification/Interpreter.v ===== *)
(** * The interpreter ([core/vm/jump_table.go], [core/vm/interpreter.go])

    The table of instructions and the loop that runs code.  The loop takes as many
    turns as it is given; running code by a nested call takes turns of its own. *)

From S2P Require Import Prelude Assets Interfaces AssetInfo StateTypes StateDB Votes DelegateState.
From S2P Require Import Accounts Transfer VoteCount VmData VmGas Evm Instructions.

(** ** Operations *)

Section Interpreter.
Context {AT ST : Type} `{ENV : StateEnv AT ST slice} `{CRYPTO : CryptoOps}.
Variable ctx : Context.

#[local] Abbreviation EM := (GM (EVM AT ST)).
#[local] Abbreviation FM := (GM (EVM AT ST * Frame)).
#[local] Abbreviation ran := (bytes * option vmerr * Contract)%type.

Record operation : Type := mkOperation {
  execute : FM (bytes * option vmerr);
  gasCost : gasFunc (AT := AT) (ST := ST);
  validateStack : Z → option vmerr;
  memorySize : option (FM Z);
  halts : bool;
  jumps : bool;
  writes : bool;
  reverts : bool;
  returns : bool
}.
#[export] Instance eta_operation : Eta operation := λ r,
  mkOperation (execute r) (gasCost r) (validateStack r) (memorySize r) (halts r) (jumps r) (writes r)
    (reverts r) (returns r).

(** [makeStackFunc], on the number of items of the stack ([stack_table.go]). *)
Definition makeStackFunc (pops pushes : Z) : Z → option vmerr := λ len,
  if len <? pops then Some errStackUnderflow
  else if len + pushes - pops >? StackLimit then Some errStackLimit
  else None.
Definition makeDupStackFunc (n : Z) : Z → option vmerr := makeStackFunc n (n + 1).
Definition makeSwapStackFunc (n : Z) : Z → option vmerr := makeStackFunc n n.

(** An operation without memory or flags. *)
Definition simple (ex : FM (bytes * option vmerr)) (gas : gasFunc) (st : Z → option vmerr) : operation :=
  mkOperation ex gas st None false false false false false.
Definition with_mem (size : FM Z) (o : operation) : operation := o <| memorySize := Some size |>.
Definition halting (o : operation) : operation := o <| halts := true |>.
Definition jumping (o : operation) : operation := o <| jumps := true |>.
Definition writing (o : operation) : operation := o <| writes := true |>.
Definition returning (o : operation) : operation := o <| returns := true |>.
Definition reverting (o : operation) : operation := o <| reverts := true |>.

Section Table.
Variable Run : Contract → bytes → EM ran.

#[local] Abbreviation const := constGasFunc.
#[local] Abbreviation stk := makeStackFunc.

(** Pairs of an opcode and its operation. *)
Definition arithmeticOps : list (Z * operation) := [
  (0x00, halting (simple opStop (const 0) (stk 0 0)));
  (0x01, simple opAdd (const GasFastestStep) (stk 2 1));
  (0x02, simple opMul (const GasFastStep) (stk 2 1));
  (0x03, simple opSub (const GasFastestStep) (stk 2 1));
  (0x04, simple opDiv (const GasFastStep) (stk 2 1));
  (0x05, simple opSdiv (const GasFastStep) (stk 2 1));
  (0x06, simple opMod (const GasFastStep) (stk 2 1));
  (0x07, simple opSmod (const GasFastStep) (stk 2 1));
  (0x08, simple opAddmod (const GasMidStep) (stk 3 1));
  (0x09, simple opMulmod (const GasMidStep) (stk 3 1));
  (0x0a, simple opExp gasExp (stk 2 1));
  (0x0b, simple opSignExtend (const GasFastStep) (stk 2 1));
  (0x10, simple opLt (const GasFastestStep) (stk 2 1));
  (0x11, simple opGt (const GasFastestStep) (stk 2 1));
  (0x12, simple opSlt (const GasFastestStep) (stk 2 1));
  (0x13, simple opSgt (const GasFastestStep) (stk 2 1));
  (0x14, simple opEq (const GasFastestStep) (stk 2 1));
  (0x15, simple opIszero (const GasFastestStep) (stk 1 1));
  (0x16, simple opAnd (const GasFastestStep) (stk 2 1));
  (0x17, simple opOr (const GasFastestStep) (stk 2 1));
  (0x18, simple opXor (const GasFastestStep) (stk 2 1));
  (0x19, simple opNot (const GasFastestStep) (stk 1 1));
  (0x1a, simple opByte (const GasFastestStep) (stk 2 1));
  (0x20, with_mem memorySha3 (simple (opSha3 ctx) gasSha3 (stk 2 1))) ].

Definition environmentOps : list (Z * operation) := [
  (0x30, simple opAddress (const GasQuickStep) (stk 0 1));
  (0x31, simple opBalance gasBalance (stk 1 1));
  (0x32, simple (opOrigin ctx) (const GasQuickStep) (stk 0 1));
  (0x33, simple opCaller (const GasQuickStep) (stk 0 1));
  (0x34, simple opCallValue (const GasQuickStep) (stk 0 1));
  (0x35, simple opCallDataLoad (const GasFastestStep) (stk 1 1));
  (0x36, simple opCallDataSize (const GasQuickStep) (stk 0 1));
  (0x37, with_mem memoryCallDataCopy (simple opCallDataCopy gasCallDataCopy (stk 3 0)));
  (0x38, simple opCodeSize (const GasQuickStep) (stk 0 1));
  (0x39, with_mem memoryCodeCopy (simple opCodeCopy gasCodeCopy (stk 3 0)));
  (0x3a, simple (opGasprice ctx) (const GasQuickStep) (stk 0 1));
  (0x3b, simple opExtCodeSize gasExtCodeSize (stk 1 1));
  (0x3c, with_mem memoryExtCodeCopy (simple opExtCodeCopy gasExtCodeCopy (stk 4 0)));
  (0x40, simple (opBlockhash ctx) (const GasExtStep) (stk 1 1));
  (0x41, simple (opCoinbase ctx) (const GasQuickStep) (stk 0 1));
  (0x42, simple (opTimestamp ctx) (const GasQuickStep) (stk 0 1));
  (0x43, simple (opNumber ctx) (const GasQuickStep) (stk 0 1));
  (0x44, simple (opDifficulty ctx) (const GasQuickStep) (stk 0 1));
  (0x45, simple (opGasLimit ctx) (const GasQuickStep) (stk 0 1)) ].

Definition storageOps : list (Z * operation) := [
  (0x50, simple opPop (const GasQuickStep) (stk 1 0));
  (0x51, with_mem memoryMLoad (simple opMload gasMLoad (stk 1 1)));
  (0x52, with_mem memoryMStore (simple opMstore gasMStore (stk 2 0)));
  (0x53, with_mem memoryMStore8 (simple opMstore8 gasMStore8 (stk 2 0)));
  (0x54, simple opSload gasSLoad (stk 1 1));
  (0x55, writing (simple opSstore gasSStore (stk 2 0)));
  (0x56, jumping (simple opJump (const GasMidStep) (stk 1 0)));
  (0x57, jumping (simple opJumpi (const GasSlowStep) (stk 2 0)));
  (0x58, simple opPc (const GasQuickStep) (stk 0 1));
  (0x59, simple opMsize (const GasQuickStep) (stk 0 1));
  (0x5a, simple opGas (const GasQuickStep) (stk 0 1));
  (0x5b, simple opJumpdest (const JumpdestGas) (stk 0 0)) ].

Definition pushOps : list (Z * operation) :=
  (λ n, (0x5f + n, simple (makePush n n) gasPush (stk 0 1))) <$> seqZ 1 32.
Definition dupOps : list (Z * operation) :=
  (λ n, (0x7f + n, simple (makeDup (Z.to_nat n)) gasDup (makeDupStackFunc n))) <$> seqZ 1 16.
Definition swapOps : list (Z * operation) :=
  (λ n, (0x8f + n, simple (makeSwap (Z.to_nat n)) gasSwap (makeSwapStackFunc (n + 1)))) <$> seqZ 1 16.
Definition logOps : list (Z * operation) :=
  (λ n, (0xa0 + n, writing (with_mem memoryLog
     (simple (makeLog ctx (Z.to_nat n)) (makeGasLog n) (stk (n + 2) 0))))) <$> seqZ 0 5.

Definition closureOps : list (Z * operation) := [
  (0xf0, returning (writing (with_mem memoryCreate (simple (opCreate ctx Run) gasCreate (stk 3 1)))));
  (0xf1, returning (with_mem memoryCall (simple (opCall ctx Run) gasCall (stk 7 1))));
  (0xf2, returning (with_mem memoryCall (simple (opCallCode ctx Run) gasCallCode (stk 7 1))));
  (0xf3, halting (with_mem memoryReturn (simple opReturn gasReturn (stk 2 0))));
  (0xff, writing (halting (simple opSuicide gasSuicide (stk 1 0)))) ].

(** The instructions this chain adds.  Neither transfer of assets is marked as
    writing. *)
Definition assetOps : list (Z * operation) := [
  (0xe0, simple opBalanceOf gasBalanceOf (stk 2 1));
  (0xe1, simple (opTransferAsset ctx) gasTransferAsset (stk 3 1));
  (0xe2, simple (opTransferAsset ctx) gasTransferAsset (stk 3 1));
  (0xe3, simple opAsset (const GasQuickStep) (stk 0 1));
  (0xe4, simple opAssetValue (const GasQuickStep) (stk 0 1));
  (0xe5, simple (opIsDelegate ctx) (const GasQuickStep) (stk 1 1));
  (0xe6, simple (opGetCandidateVoteInfo ctx) (const GasQuickStep) (stk 1 1));
  (0xe7, simple (opGetCandidateVoteInfoFors ctx) (const GasQuickStep) (stk 5 1));
  (0xe8, simple (opGetCandidateTotalVote ctx) (const GasQuickStep) (stk 1 1)) ].

Definition NewFrontierInstructionSet : list (Z * operation) :=
  arithmeticOps ++ environmentOps ++ storageOps ++ pushOps ++ dupOps ++ swapOps ++ logOps ++
  closureOps ++ assetOps.

Definition NewHomesteadInstructionSet : list (Z * operation) :=
  (0xf4, returning (with_mem memoryDelegateCall (simple (opDelegateCall ctx Run) gasDelegateCall (stk 6 1))))
  :: NewFrontierInstructionSet.

Definition NewByzantiumInstructionSet : list (Z * operation) := [
  (0xfa, returning (with_mem memoryStaticCall (simple (opStaticCall ctx Run) gasStaticCall (stk 6 1))));
  (0x3d, simple opReturnDataSize (const GasQuickStep) (stk 0 1));
  (0x3e, with_mem memoryReturnDataCopy (simple opReturnDataCopy gasReturnDataCopy (stk 3 0)));
  (0xfd, returning (reverting (with_mem memoryRevert (simple opRevert gasRevert (stk 2 0))))) ] ++
  NewHomesteadInstructionSet.

Definition NewConstantinopleInstructionSet : list (Z * operation) := [
  (0x1b, simple opSHL (const GasFastestStep) (stk 2 1));
  (0x1c, simple opSHR (const GasFastestStep) (stk 2 1));
  (0x1d, simple opSAR (const GasFastestStep) (stk 2 1)) ] ++
  NewByzantiumInstructionSet.

(** [in.cfg.JumpTable[op]]; an opcode without an entry is not valid. *)
Fixpoint lookup_op (op : Z) (l : list (Z * operation)) : option operation :=
  match l with
  | [] => None
  | (k, o) :: l => if k =? op then Some o else lookup_op op l
  end.
Definition JumpTable (op : Z) : option operation := lookup_op op NewConstantinopleInstructionSet.

(** ** One turn of the loop *)

Definition CALL : Z := 0xf1.

Definition enforceRestrictions (op : Z) (o : operation) : FM (option vmerr) :=
  e ← on_evm gget;
  if x_IsByzantium ctx && e_readOnly e then
    if writes o then mret (Some errWriteProtection)
    else if op =? CALL then
      v ← Back 2;
      mret (if BitLen v >? 0 then Some errWriteProtection else None)
    else mret None
  else mret None.

(** The memory the operation needs, in bytes, rounded up to words. *)
Definition neededMemory (o : operation) : FM (Z + vmerr) :=
  match memorySize o with
  | None => mret (inl 0)
  | Some size =>
    n ← size;
    let '(memSize, overflow) := bigUint64 n in
    if (overflow : bool) then mret (inr errGasUintOverflow)
    else
      let '(m, overflow) := SafeMul (toWordSize memSize) 32 in
      mret (if (overflow : bool) then inr errGasUintOverflow else inl m)
  end.

(** Pay for the operation and grow the memory; any failure to compute or to pay the
    cost is [ErrOutOfGas]. *)
Definition payAndResize (o : operation) (memorySize : Z) : FM (option vmerr) :=
  g ← gasCost o (gasTable_of (x_IsEpiphron ctx)) memorySize;
  match g with
  | inr _ => mret (Some ErrOutOfGas)
  | inl cost =>
    c ← contract;
    let '(ok, c) := UseGas cost c in
    set_contract (λ _, c);;
    if (ok : bool) then
      (if memorySize >? 0 then set_frame (λ f, f <| f_mem ::= mem_Resize memorySize |>) else mret tt);;
      mret None
    else mret (Some ErrOutOfGas)
  end.

(** What a turn decides: go on, or leave the loop with a result. *)
Definition turn : FM (option (bytes * option vmerr)) :=
  f ← frame;
  let op := GetOp (f_pc f) (f_contract f) in
  match JumpTable op with
  | None => mret (Some ([], Some (errInvalidOpcode op)))
  | Some o =>
    match validateStack o (Z.of_nat (length (f_stack f))) with
    | Some err => mret (Some ([], Some err))
    | None =>
      err ← enforceRestrictions op o;
      match err with
      | Some err => mret (Some ([], Some err))
      | None =>
        need ← neededMemory o;
        match need with
        | inr err => mret (Some ([], Some err))
        | inl memorySize =>
          err ← payAndResize o memorySize;
          match err with
          | Some err => mret (Some ([], Some err))
          | None =>
            '(res, err) ← execute o;
            (if returns o then on_evm (gmodify (λ e, e <| e_returnData := res |>)) else mret tt);;
            match err with
            | Some err => mret (Some ([], Some err))
            | None =>
              if reverts o then mret (Some (res, Some errExecutionReverted))
              else if halts o then mret (Some (res, None))
              else
                (if jumps o then mret tt else set_frame (λ f, f <| f_pc ::= λ pc, u64 (pc + 1) |>));;
                mret None
            end
          end
        end
      end
    end
  end.
End Table.

(** ** Running code *)

Definition out_of_turns : string := "out of turns".

(** [Run] around a loop: the frame's start, and the depth before and after. *)
Definition Run_with (loop : FM (bytes * option vmerr)) (c : Contract) (input : bytes) : EM ran := λ e,
  let e := e <| e_depth ::= λ d, d + 1 |> <| e_returnData := [] |> in
  if (length (ct_Code c) =? 0)%nat then Ret (([], None, c), e <| e_depth ::= λ d, d - 1 |>)
  else
    match loop (e, mkFrame (c <| ct_Input := input |>) NewMemory [] 0) with
    | Ret ((ret, err), (e, f)) => Ret ((ret, err, f_contract f), e <| e_depth ::= λ d, d - 1 |>)
    | Panic w => Panic w
    end.

(** The loop, for as many turns as [fuel]; nested calls run with the turns that are
    left. *)
Fixpoint loop (fuel : nat) : FM (bytes * option vmerr) :=
  match fuel with
  | O => gpanic out_of_turns
  | S fuel =>
    r ← turn (Run_with (loop fuel));
    match r with
    | Some res => mret res
    | None => loop fuel
    end
  end.

Definition Run (fuel : nat) : Contract → bytes → EM ran := Run_with (loop fuel).
End Interpreter.
