(* ===== verification/VmArith.v ===== *)
(** * Arithmetic instructions against a reference

    What the arithmetic, comparison and bit instructions leave on the stack, against
    plain definitions on 256-bit words in two's complement.  The code works on
    unbounded integers that it masks, mirrors and shifts. *)

From S2P Require Import Prelude Assets Interfaces AssetInfo StateTypes StateDB Votes DelegateState.
From S2P Require Import VmData VmGas Evm Instructions.
From Stdlib Require Import Zpow_facts.

(** ** The reference *)

Module Ref.
Definition W : Z := 2 ^ 256.
Definition unsigned (z : Z) : Z := z mod W.
Definition signed (x : Z) : Z := if x <? 2 ^ 255 then x else x - W.

Definition add x y := unsigned (x + y).
Definition sub x y := unsigned (x - y).
Definition mul x y := unsigned (x * y).
Definition div x y := if y =? 0 then 0 else x / y.
Definition sdiv x y := if y =? 0 then 0 else unsigned (Z.quot (signed x) (signed y)).
Definition modulo x y := if y =? 0 then 0 else x mod y.
Definition smod x y := if y =? 0 then 0 else unsigned (Z.rem (signed x) (signed y)).
Definition exp x y := unsigned (x ^ y).
Definition signextend b x :=
  if b <? 31 then
    let n := 8 * (b + 1) in
    let v := x mod 2 ^ n in
    unsigned (if v <? 2 ^ (n - 1) then v else v - 2 ^ n)
  else x.
Definition truth (b : bool) : Z := if b then 1 else 0.
Definition lt x y := truth (x <? y).
Definition gt x y := truth (y <? x).
Definition slt x y := truth (signed x <? signed y).
Definition sgt x y := truth (signed y <? signed x).
Definition eq x y := truth (x =? y).
Definition iszero x := truth (x =? 0).
Definition not x := W - 1 - x.
(** A connective applied to each of [n] bits, from the lowest. *)
Fixpoint bitwise (f : bool → bool → bool) (n : nat) (x y : Z) : Z :=
  match n with
  | O => 0
  | S n => 2 * bitwise f n (x / 2) (y / 2) + Z.b2z (f (Z.odd x) (Z.odd y))
  end.
Definition and := bitwise andb 256.
Definition or := bitwise orb 256.
Definition xor := bitwise xorb 256.
Definition byte i x := if i <? 32 then x / 2 ^ (8 * (31 - i)) mod 256 else 0.
Definition addmod x y z := if z =? 0 then 0 else (x + y) mod z.
Definition mulmod x y z := if z =? 0 then 0 else (x * y) mod z.
Definition shl s x := unsigned (x * 2 ^ s).
Definition shr s x := x / 2 ^ s.
Definition sar s x := unsigned (signed x / 2 ^ s).
End Ref.

Definition is_word (x : Z) : Prop := 0 ≤ x < 2 ^ 256.

(** ** Masks and words *)

Lemma U256_mod x : U256 x = x mod 2 ^ 256.
Proof.
  unfold U256, tt256m1, tt256. rewrite <- Z.land_ones by lia. f_equal.
Qed.

Lemma U256_word x : is_word x → U256 x = x.
Proof. intros H. rewrite U256_mod. by apply Z.mod_small. Qed.

Lemma signed_range x : is_word x → - 2 ^ 255 ≤ Ref.signed x < 2 ^ 255.
Proof. unfold is_word, Ref.signed, Ref.W. intros. destruct (Z.ltb_spec x (2 ^ 255)); lia. Qed.

Lemma signed_zero x : is_word x → Ref.signed x = 0 ↔ x = 0.
Proof. unfold is_word, Ref.signed, Ref.W. intros. destruct (Z.ltb_spec x (2 ^ 255)); lia. Qed.

Lemma Bits_length x : 0 ≤ x → x < 2 ^ (64 * Z.of_nat (length (Bits x))).
Proof.
  intros Hx. unfold Bits. rewrite length_fmap, length_seq. pose proof (BitLen_nonneg x).
  rewrite Z2Nat.id by (apply Z.div_pos; lia).
  eapply Z.lt_le_trans; [by apply BitLen_spec|]. apply Z.pow_le_mono_r; [done|].
  pose proof (Z.div_mod (BitLen x + 63) 64 ltac:(done)).
  pose proof (Z.mod_pos_bound (BitLen x + 63) 64 ltac:(done)). lia.
Qed.

(** The number a list of words stands for. *)
Fixpoint words_val (ws : list Z) : Z :=
  match ws with [] => 0 | w :: ws => w + 2 ^ 64 * words_val ws end.

Lemma words_val_from x k n :
  0 ≤ x →
  words_val ((λ i, u64 (x / 2 ^ (64 * Z.of_nat i))) <$> seq k n) =
  x / 2 ^ (64 * Z.of_nat k) mod 2 ^ (64 * Z.of_nat n).
Proof.
  intros Hx. revert k. induction n as [|n IH]; intros k; cbn [seq fmap list_fmap words_val].
  { by rewrite Z.mod_1_r. }
  rewrite IH. unfold u64. set (y := x / 2 ^ (64 * Z.of_nat k)).
  replace (x / 2 ^ (64 * Z.of_nat (S k))) with (y / 2 ^ 64).
  2: { unfold y. rewrite Z.div_div by lia. f_equal. rewrite <- Z.pow_add_r by lia. f_equal. lia. }
  replace (2 ^ (64 * Z.of_nat (S n))) with (2 ^ 64 * 2 ^ (64 * Z.of_nat n)).
  2: { rewrite <- Z.pow_add_r by lia. f_equal. lia. }
  rewrite Z.rem_mul_r by lia. done.
Qed.

Lemma words_val_Bits x : 0 ≤ x → words_val (Bits x) = x.
Proof.
  intros Hx. pose proof (Bits_length x Hx) as Hb. unfold Bits in *. rewrite length_fmap, length_seq in Hb.
  rewrite Z.abs_eq in * by done. rewrite words_val_from by done. rewrite Z.div_1_r. by apply Z.mod_small.
Qed.

Lemma Bits_word x w : w ∈ Bits x → 0 ≤ w < 2 ^ 64.
Proof. unfold Bits. intros (i & -> & _)%list_elem_of_fmap. unfold u64. by apply Z.mod_pos_bound. Qed.

(** ** Exponentiation *)

Lemma Exp_word_spec n word result base r b :
  0 ≤ word → Exp_word n word result base = (r, b) →
  r mod 2 ^ 256 = (result * base ^ (word mod 2 ^ Z.of_nat n)) mod 2 ^ 256 ∧
  b mod 2 ^ 256 = base ^ (2 ^ Z.of_nat n) mod 2 ^ 256 ∧
  (is_word result → is_word r).
Proof.
  revert word result base. induction n as [|n IH]; intros word result base Hw; cbn [Exp_word].
  { intros [= <- <-]. rewrite Z.mod_1_r, Z.pow_0_r, Z.mul_1_r, Z.pow_1_r. done. }
  intros E. rewrite Z.shiftr_div_pow2 in E by lia. rewrite Z.pow_1_r in E.
  apply IH in E as (Er & Eb & Hr); [|apply Z.div_pos; lia]. rewrite !U256_mod in *.
  assert (Hodd : (Z.land word 1 =? 1) = (word mod 2 =? 1)).
  { change 1 with (Z.ones 1) at 1. rewrite Z.land_ones by lia. done. }
  assert (Hm : word mod 2 ^ Z.of_nat (S n) = word mod 2 + 2 * (word / 2 mod 2 ^ Z.of_nat n)).
  { rewrite Nat2Z.inj_succ, Z.pow_succ_r by lia. apply Z.rem_mul_r; lia. }
  assert (Hp : ∀ k, 0 ≤ k → ((base * base) mod 2 ^ 256) ^ k mod 2 ^ 256 = base ^ (2 * k) mod 2 ^ 256).
  { intros k Hk. rewrite <- Zpower_mod by lia. rewrite <- Z.pow_2_r, <- Z.pow_mul_r by lia. done. }
  pose proof (Z.mod_pos_bound (word / 2) (2 ^ Z.of_nat n) ltac:(lia)) as Hk.
  pose proof (Z.mod_pos_bound word 2 ltac:(lia)).
  split_and!.
  - rewrite Er, Hm, Hodd. rewrite Z.pow_add_r by lia.
    destruct (Z.eqb_spec (word mod 2) 1) as [E1|E1].
    + rewrite E1, Z.pow_1_r. rewrite Z.mul_mod by lia. rewrite Hp by lia. rewrite Z.mod_mod by lia.
      rewrite <- Z.mul_mod by lia. f_equal. ring.
    + replace (word mod 2) with 0 by lia. rewrite Z.pow_0_r, Z.mul_1_l.
      rewrite Z.mul_mod, Hp, <- Z.mul_mod by lia. done.
  - rewrite Eb, Hp by lia. f_equal. f_equal. rewrite Nat2Z.inj_succ, Z.pow_succ_r by lia. done.
  - intros Hres. apply Hr. destruct (_ =? 1); [|done]. unfold is_word. by apply Z.mod_pos_bound.
Qed.

Lemma Exp_words_spec ws result base :
  Forall (λ w, 0 ≤ w < 2 ^ 64) ws → is_word result →
  Exp_words ws result base = (result * base ^ words_val ws) mod 2 ^ 256.
Proof.
  intros Hws. revert result base. induction Hws as [|w ws Hw Hws IH]; intros result base Hr.
  { cbn [Exp_words words_val]. rewrite Z.pow_0_r, Z.mul_1_r. symmetry. by apply Z.mod_small. }
  cbn [Exp_words words_val]. destruct (Exp_word 64 w result base) as [r b] eqn:E.
  apply Exp_word_spec in E as (Er & Eb & Hword); [|lia].
  rewrite IH by auto. rewrite (Z.mod_small w) in Er by exact Hw. change (2 ^ Z.of_nat 64) with (2 ^ 64) in *.
  assert (Hv : 0 ≤ words_val ws) by (clear -Hws; induction Hws; cbn [words_val]; lia).
  assert (HM : 0 < 2 ^ 256) by done. clear Hword IH. revert Er Eb HM. generalize (2 ^ 256). intros M Er Eb HM.
  rewrite Z.mul_mod, Zpower_mod, Eb, <- Zpower_mod, Er, <- Z.mul_mod by (clear -HM; lia).
  rewrite Z.pow_add_r, Z.pow_mul_r by (clear -Hv Hw; lia). f_equal. ring.
Qed.

Lemma Exp_spec x y : 0 ≤ y → Exp x y = Ref.exp x y.
Proof.
  intros Hy. unfold Exp, Ref.exp, Ref.unsigned, Ref.W. rewrite Exp_words_spec.
  - by rewrite words_val_Bits, Z.mul_1_l.
  - apply Forall_forall. apply Bits_word.
  - unfold is_word. lia.
Qed.

(** ** The other values *)

Lemma bigDiv_abs x y : y ≠ 0 → bigDiv (Z.abs x) (Z.abs y) = Z.abs x / Z.abs y.
Proof. intros Hy. unfold bigDiv. rewrite Z.abs_idemp. destruct y; simpl Z.sgn; lia. Qed.

Lemma sdiv_spec x y : is_word x → is_word y → sdiv (S256 x) (S256 y) = Ref.sdiv x y.
Proof.
  intros Hx Hy. change S256 with Ref.signed. unfold sdiv, Ref.sdiv, Ref.unsigned, Ref.W.
  pose proof (signed_zero x Hx) as Zx. pose proof (signed_zero y Hy) as Zy.
  set (a := Ref.signed x) in *. set (b := Ref.signed y) in *.
  destruct (Z.eqb_spec y 0) as [E|E]; [by rewrite (proj2 Zy E)|].
  assert (b ≠ 0) by tauto. rewrite Z.quot_div by done. rewrite bigDiv_abs, !U256_mod by done.
  destruct (Z.sgn_spec a) as [[Ha ->]|[[Ha ->]|[Ha ->]]], (Z.sgn_spec b) as [[Hb ->]|[[Hb ->]|[Hb ->]]];
    try lia; cbn [Z.eqb orb negb]; f_equal; lia.
Qed.

Lemma smod_spec x y : is_word x → is_word y → smod (S256 x) (S256 y) = Ref.smod x y.
Proof.
  intros Hx Hy. change S256 with Ref.signed. unfold smod, Ref.smod, Ref.unsigned, Ref.W.
  pose proof (signed_zero y Hy) as Zy. set (a := Ref.signed x) in *. set (b := Ref.signed y) in *.
  destruct (Z.eqb_spec y 0) as [E|E]; [by rewrite (proj2 Zy E)|].
  assert (b ≠ 0) by tauto. rewrite Z.rem_mod by done. unfold bigMod. rewrite Z.abs_idemp, !U256_mod.
  replace (Z.sgn b =? 0) with false by (destruct b; done || lia).
  destruct (Z.sgn_spec a) as [[Ha ->]|[[Ha ->]|[Ha ->]]]; cbn [Z.ltb Z.compare]; [f_equal; lia| |f_equal; lia].
  rewrite <- Ha. cbn [Z.abs]. by rewrite Zmod_0_l.
Qed.

Lemma lor_lnot_ones a n : 0 ≤ n → Z.lor a (Z.lnot (2 ^ n - 1)) = a mod 2 ^ n - 2 ^ n.
Proof.
  intros Hn. assert (0 < 2 ^ n) by lia. replace (2 ^ n - 1) with (Z.ones n) by (rewrite Z.ones_equiv; lia).
  rewrite <- (Z.lnot_involutive (Z.lor _ _)), Z.lnot_lor, Z.lnot_involutive, Z.land_ones by done.
  unfold Z.lnot. rewrite <- !Z.sub_1_r. replace (- a - 1) with (2 ^ n - 1 - a mod 2 ^ n + (- (a / 2 ^ n) - 1) * 2 ^ n).
  2: { pose proof (Z.div_mod a (2 ^ n)). lia. }
  pose proof (Z.mod_pos_bound a (2 ^ n)). rewrite Z.mod_add, Z.mod_small by lia. lia.
Qed.

Lemma signextend_spec b x : is_word b → is_word x → b < 31 → signextend b x = Ref.signextend b x.
Proof.
  intros Hb Hx Hlt. unfold signextend, Ref.signextend, Uint64, is_word in *.
  rewrite (proj2 (Z.ltb_lt b 31) Hlt). rewrite !u64_small by (unfold is_u64; rewrite ?u64_small; unfold is_u64; lia).
  rewrite Z.abs_eq, U256_mod by lia. unfold Ref.unsigned, Ref.W. set (n := b * 8 + 7).
  replace (8 * (b + 1)) with (n + 1) by lia. replace (n + 1 - 1) with n by lia.
  rewrite Z.shiftl_mul_pow2, Z.mul_1_l by lia. rewrite lor_lnot_ones by lia.
  replace (2 ^ n - 1) with (Z.ones n) by (rewrite Z.ones_equiv; lia). rewrite Z.land_ones by lia.
  assert (H2 : 2 ^ (n + 1) = 2 ^ n * 2) by (rewrite Z.pow_add_r; lia). assert (0 < 2 ^ n) by lia.
  pose proof (Z.mod_pos_bound x (2 ^ n)). pose proof (Z.mod_pos_bound (x / 2 ^ n) 2).
  assert (Hv : x mod 2 ^ (n + 1) = x mod 2 ^ n + 2 ^ n * (x / 2 ^ n mod 2)).
  { rewrite H2. apply Z.rem_mul_r; lia. }
  rewrite Hv, H2, Z.testbit_eqb by lia. destruct (Z.eqb_spec (x / 2 ^ n mod 2) 1) as [E|E].
  - rewrite E. destruct (Z.ltb_spec (x mod 2 ^ n + 2 ^ n * 1) (2 ^ n)); [lia|]. f_equal. lia.
  - replace (x / 2 ^ n mod 2) with 0 by lia. rewrite Z.mul_0_r, Z.add_0_r.
    destruct (Z.ltb_spec (x mod 2 ^ n) (2 ^ n)); [done|lia].
Qed.

Lemma bigEndianByteAt_spec x n : 0 ≤ x → 0 ≤ n → bigEndianByteAt x n = x / 2 ^ (8 * n) mod 256.
Proof.
  intros Hx Hn. unfold bigEndianByteAt. pose proof (Z.div_mod n 8 ltac:(done)) as Hd.
  pose proof (Z.mod_pos_bound n 8 ltac:(done)). assert (0 ≤ n / 8) by (apply Z.div_pos; lia).
  pose proof (Bits_length x Hx) as Hlen. destruct (Bits x !! Z.to_nat (n / 8)) as [w|] eqn:E.
  - unfold Bits in E. rewrite list_lookup_fmap in E. apply fmap_Some in E as (i & Hi & ->).
    apply lookup_seq in Hi as [-> _]. rewrite Z.abs_eq by done. cbn [Nat.add]. rewrite Z2Nat.id by done.
    rewrite Z.shiftr_div_pow2 by lia. unfold u64. set (k := n / 8) in *. set (j := n mod 8) in *.
    set (y := x / 2 ^ (64 * k)). replace (x / 2 ^ (8 * n)) with (y / 2 ^ (8 * j)).
    2: { unfold y. rewrite Z.div_div, <- Z.pow_add_r by lia. do 2 f_equal. lia. }
    replace (2 ^ 64) with (2 ^ (8 * j) * 2 ^ (64 - 8 * j)) by (rewrite <- Z.pow_add_r by lia; f_equal; lia).
    rewrite Z.rem_mul_r by lia.
    rewrite (Z.mul_comm (2 ^ (8 * j))), Z.div_add, Z.div_small, Z.add_0_l by (try apply Z.mod_pos_bound; lia).
    replace (2 ^ (64 - 8 * j)) with (256 * 2 ^ (56 - 8 * j)).
    2: { change 256 with (2 ^ 8). rewrite <- Z.pow_add_r by lia. f_equal. lia. }
    rewrite Z.rem_mul_r by lia. rewrite (Z.mul_comm 256), Z.mod_add, Z.mod_mod by lia. done.
  - apply lookup_ge_None in E. rewrite Z.div_small; [done|]. split; [done|].
    eapply Z.lt_le_trans; [exact Hlen|]. apply Z.pow_le_mono_r; [done|]. lia.
Qed.

Lemma shifts_spec s x : is_word s → is_word x →
  shl s x = Ref.shl s x ∧ shr s x = Ref.shr s x.
Proof.
  unfold is_word, shl, shr, Ref.shl, Ref.shr, Ref.unsigned, Ref.W, Uint64. intros Hs Hx.
  destruct (Z.geb_spec s 256) as [H|H].
  - assert (Hp : 2 ^ 256 ≤ 2 ^ s) by (apply Z.pow_le_mono_r; lia). split.
    + replace s with (256 + (s - 256)) by lia. rewrite Z.pow_add_r by lia.
      rewrite (Z.mul_comm (2 ^ 256)), Z.mul_assoc. symmetry. by apply Z_mod_mult.
    + symmetry. apply Z.div_small. lia.
  - rewrite u64_small by (unfold is_u64; lia). rewrite Z.abs_eq, !U256_mod by lia.
    rewrite Z.shiftl_mul_pow2, Z.shiftr_div_pow2 by lia. split; [done|].
    apply Z.mod_small. split; [apply Z.div_pos; lia|].
    apply Z.div_lt_upper_bound; [lia|]. nia.
Qed.

Lemma sar_spec s x : is_word s → is_word x → s < 256 ∨ x ≠ 0 → sar s (S256 x) = Ref.sar s x.
Proof.
  intros Hs Hx Hc. change S256 with Ref.signed. unfold sar, Ref.sar, Ref.unsigned, Ref.W, Uint64.
  pose proof (signed_range x Hx) as Hr. pose proof (signed_zero x Hx) as Hz. set (v := Ref.signed x) in *.
  unfold is_word in *. destruct (Z.geb_spec s 256) as [H|H].
  - assert (Hp : 2 ^ 256 ≤ 2 ^ s) by (apply Z.pow_le_mono_r; lia). rewrite U256_mod. f_equal.
    destruct (Z.sgn_spec v) as [[Ha ->]|[[Ha ->]|[Ha ->]]]; cbn [Z.gtb Z.compare].
    + symmetry. apply Z.div_small. lia.
    + lia.
    + apply (Z.div_unique v (2 ^ s) (-1) (v + 2 ^ s)); lia.
  - rewrite u64_small by (unfold is_u64; lia). rewrite Z.abs_eq, U256_mod, Z.shiftr_div_pow2 by lia. done.
Qed.

Lemma sar_zero_spec s : 256 ≤ s → sar s (S256 0) = 2 ^ 256 - 1.
Proof. intros Hs. unfold sar. rewrite Z.geb_leb, (proj2 (Z.leb_le 256 s)) by done. by vm_compute. Qed.

Lemma compare_spec x y : is_word x → is_word y → slt x y = Ref.slt x y ∧ sgt x y = Ref.sgt x y.
Proof.
  unfold is_word, slt, sgt, Ref.slt, Ref.sgt, Ref.signed, Ref.truth, Ref.W, flag, tt255. intros Hx Hy.
  destruct (Z.geb_spec x (2 ^ 255)), (Z.geb_spec y (2 ^ 255)), (Z.ltb_spec x (2 ^ 255)),
    (Z.ltb_spec y (2 ^ 255)); try lia; cbn [andb]; split;
    repeat match goal with |- context [?a <? ?b] => destruct (Z.ltb_spec a b) end;
    repeat match goal with |- context [?a >? ?b] => destruct (Z.gtb_spec a b) end; lia.
Qed.

(** ** The instructions *)

Section Computes.
Context {AT ST : Type}.
#[local] Abbreviation op := (executionFunc (AT := AT) (ST := ST)).

(** [o] replaces its operands on top of the stack by [f] of them, and does nothing
    else. *)
Definition computes1 (o : op) (f : Z → Z) : Prop :=
  ∀ e c m st pc x, is_word x →
  o (e, mkFrame c m (x :: st) pc) = Ret (([], None), (e, mkFrame c m (f x :: st) pc)).
Definition computes2 (o : op) (f : Z → Z → Z) : Prop :=
  ∀ e c m st pc x y, is_word x → is_word y →
  o (e, mkFrame c m (x :: y :: st) pc) = Ret (([], None), (e, mkFrame c m (f x y :: st) pc)).
Definition computes3 (o : op) (f : Z → Z → Z → Z) : Prop :=
  ∀ e c m st pc x y z, is_word x → is_word y → is_word z →
  o (e, mkFrame c m (x :: y :: z :: st) pc) = Ret (([], None), (e, mkFrame c m (f x y z :: st) pc)).

(** Reduce to the number on top. *)
Lemma top_eq (e : EVM AT ST) c m st pc (x y : Z) :
  x = y →
  Ret (([] : bytes, None : option vmerr), (e, mkFrame c m (x :: st) pc)) =
  Ret (([], None), (e, mkFrame c m (y :: st) pc)).
Proof. by intros ->. Qed.

Lemma bigDiv_pos x y : 0 ≤ x → 0 < y → bigDiv x y = x / y.
Proof. intros. unfold bigDiv. rewrite Z.sgn_pos, Z.abs_eq; lia. Qed.

Lemma sgn_eqb x : (Z.sgn x =? 0) = (x =? 0).
Proof. by destruct x. Qed.

Lemma word_div x y : is_word x → is_word y → y ≠ 0 → U256 (bigDiv x y) = x / y.
Proof.
  unfold is_word. intros. rewrite bigDiv_pos, U256_mod by lia. apply Z.mod_small.
  split; [apply Z.div_pos; lia|]. apply Z.div_lt_upper_bound; [lia|]. nia.
Qed.

Lemma word_mod x y : 0 ≤ x → is_word y → y ≠ 0 → U256 (bigMod x y) = x mod y.
Proof.
  unfold is_word. intros. unfold bigMod. rewrite Z.abs_eq, U256_mod by lia. apply Z.mod_small.
  pose proof (Z.mod_pos_bound x y). lia.
Qed.

Lemma opDiv_computes : computes2 opDiv Ref.div.
Proof.
  intros e c m st pc x y Hx Hy. apply top_eq. rewrite sgn_eqb. unfold Ref.div.
  destruct (Z.eqb_spec y 0); [done|]. by apply word_div.
Qed.
Lemma opMod_computes : computes2 opMod Ref.modulo.
Proof.
  intros e c m st pc x y Hx Hy. apply top_eq. rewrite sgn_eqb. unfold Ref.modulo.
  destruct (Z.eqb_spec y 0); [done|]. apply word_mod; [apply Hx|done|done].
Qed.
Lemma opAddmod_computes : computes3 opAddmod Ref.addmod.
Proof.
  intros e c m st pc x y z Hx Hy Hz. apply top_eq. unfold Ref.addmod, is_word in *.
  destruct (Z.eqb_spec z 0) as [->|]; [done|]. destruct (Z.gtb_spec z 0); [|lia].
  apply word_mod; unfold is_word; lia.
Qed.
Lemma opMulmod_computes : computes3 opMulmod Ref.mulmod.
Proof.
  intros e c m st pc x y z Hx Hy Hz. apply top_eq. unfold Ref.mulmod, is_word in *.
  destruct (Z.eqb_spec z 0) as [->|]; [done|]. destruct (Z.gtb_spec z 0); [|lia].
  apply word_mod; unfold is_word; lia.
Qed.

Lemma opSignExtend_computes : computes2 opSignExtend Ref.signextend.
Proof.
  intros e c m st pc b x Hb Hx. unfold opSignExtend. erewrite GM_bind_run by reflexivity.
  destruct (Z.ltb_spec b 31) as [H|H].
  - apply top_eq. by apply signextend_spec.
  - apply top_eq. unfold Ref.signextend. destruct (Z.ltb_spec b 31); [lia|done].
Qed.

Lemma opByte_computes : computes2 opByte Ref.byte.
Proof.
  intros e c m st pc i x Hi Hx. apply top_eq. unfold Ref.byte. destruct (Z.ltb_spec i 32) as [H|H]; [|done].
  unfold is_word in *. unfold Byte, Int64. destruct (Z.ltb_spec i 0); [lia|]. rewrite i64_small by lia.
  destruct (Z.geb_spec i 32); [lia|]. by rewrite bigEndianByteAt_spec by lia.
Qed.

Lemma opSHL_computes : computes2 opSHL Ref.shl.
Proof. intros e c m st pc s x Hs Hx. apply top_eq. rewrite !U256_word by done. by apply shifts_spec. Qed.
Lemma opSHR_computes : computes2 opSHR Ref.shr.
Proof. intros e c m st pc s x Hs Hx. apply top_eq. rewrite !U256_word by done. by apply shifts_spec. Qed.
Lemma opNot_computes : computes1 opNot Ref.not.
Proof.
  intros e c m st pc x Hx. apply top_eq. rewrite U256_mod. unfold Ref.not, Ref.W, Z.lnot, is_word in *.
  replace (Z.pred (- x)) with (2 ^ 256 - 1 - x + (-1) * 2 ^ 256) by lia. rewrite Z.mod_add by done.
  apply Z.mod_small. lia.
Qed.
Lemma opIszero_computes : computes1 opIszero Ref.iszero.
Proof.
  intros e c m st pc x Hx. apply top_eq. unfold Ref.iszero, is_word in *.
  destruct (Z.eqb_spec x 0) as [->|]; [done|]. by rewrite Z.sgn_pos by lia.
Qed.
End Computes.

Lemma bitwise_testbit f n x y i :
  f false false = false → 0 ≤ i → 0 ≤ x < 2 ^ Z.of_nat n → 0 ≤ y < 2 ^ Z.of_nat n →
  Z.testbit (Ref.bitwise f n x y) i = f (Z.testbit x i) (Z.testbit y i).
Proof.
  intros Hf. revert x y i. induction n as [|n IH]; intros x y i Hi Hx Hy.
  { assert (x = 0) as -> by lia. assert (y = 0) as -> by lia. cbn [Ref.bitwise]. by rewrite Z.testbit_0_l. }
  cbn [Ref.bitwise]. rewrite Nat2Z.inj_succ, Z.pow_succ_r in Hx, Hy by lia. destruct (decide (i = 0)) as [->|Hne].
  - by rewrite Z.testbit_0_r, !Z.bit0_odd.
  - replace i with (Z.succ (Z.pred i)) by lia. rewrite Z.testbit_succ_r by lia.
    rewrite <- (Z.div2_bits x), <- (Z.div2_bits y) by lia. apply IH; [lia|..]; Z.div_mod_to_equations; lia.
Qed.

Lemma bitwise_eq f op x y :
  f false false = false → (∀ a b i, Z.testbit (op a b) i = f (Z.testbit a i) (Z.testbit b i)) → is_word x → is_word y →
  op x y = Ref.bitwise f 256 x y.
Proof. intros Hf Hop Hx Hy. apply Z.bits_inj'. intros i Hi. by rewrite Hop, bitwise_testbit. Qed.

(** C24: Every arithmetic, comparison, bit and shift instruction computes what the
    two's-complement reference says, on all 256-bit operands: the masked, mirrored
    and signed-magnitude computations of the code, square-and-multiply over the
    64-bit words of the exponent and byte selection by words included.  The one
    exception is [SAR] of the value zero shifted by 256 or more, which gives minus one
    instead of zero. *)
Theorem arithmetic_correct (AT ST : Type) :
  (computes2 (AT := AT) (ST := ST) opAdd Ref.add ∧ computes2 (AT := AT) (ST := ST) opSub Ref.sub ∧
   computes2 (AT := AT) (ST := ST) opMul Ref.mul ∧ computes2 (AT := AT) (ST := ST) opDiv Ref.div ∧
   computes2 (AT := AT) (ST := ST) opSdiv Ref.sdiv ∧ computes2 (AT := AT) (ST := ST) opMod Ref.modulo ∧
   computes2 (AT := AT) (ST := ST) opSmod Ref.smod ∧ computes3 (AT := AT) (ST := ST) opAddmod Ref.addmod ∧
   computes3 (AT := AT) (ST := ST) opMulmod Ref.mulmod ∧ computes2 (AT := AT) (ST := ST) opExp Ref.exp ∧
   computes2 (AT := AT) (ST := ST) opSignExtend Ref.signextend) ∧
  (computes2 (AT := AT) (ST := ST) opLt Ref.lt ∧ computes2 (AT := AT) (ST := ST) opGt Ref.gt ∧
   computes2 (AT := AT) (ST := ST) opSlt Ref.slt ∧ computes2 (AT := AT) (ST := ST) opSgt Ref.sgt ∧
   computes2 (AT := AT) (ST := ST) opEq Ref.eq ∧ computes1 (AT := AT) (ST := ST) opIszero Ref.iszero) ∧
  (computes2 (AT := AT) (ST := ST) opAnd Ref.and ∧ computes2 (AT := AT) (ST := ST) opOr Ref.or ∧
   computes2 (AT := AT) (ST := ST) opXor Ref.xor ∧
   computes1 (AT := AT) (ST := ST) opNot Ref.not ∧ computes2 (AT := AT) (ST := ST) opByte Ref.byte ∧
   computes2 (AT := AT) (ST := ST) opSHL Ref.shl ∧ computes2 (AT := AT) (ST := ST) opSHR Ref.shr) ∧
  (∀ (e : EVM AT ST) c m st pc s x, is_word s → is_word x →
   opSAR (e, mkFrame c m (s :: x :: st) pc) =
     Ret (([], None), (e, mkFrame c m ((if (256 <=? s) && (x =? 0) then 2 ^ 256 - 1 else Ref.sar s x) :: st) pc))).
Proof.
  split_and!.
  - intros e c m st pc x y _ _. apply top_eq. apply U256_mod.
  - intros e c m st pc x y _ _. apply top_eq. apply U256_mod.
  - intros e c m st pc x y _ _. apply top_eq. apply U256_mod.
  - apply opDiv_computes.
  - intros e c m st pc x y Hx Hy. apply top_eq. by apply sdiv_spec.
  - apply opMod_computes.
  - intros e c m st pc x y Hx Hy. apply top_eq. by apply smod_spec.
  - apply opAddmod_computes.
  - apply opMulmod_computes.
  - intros e c m st pc x y _ Hy. apply top_eq. apply Exp_spec. apply Hy.
  - apply opSignExtend_computes.
  - done.
  - intros e c m st pc x y _ _. apply top_eq. unfold Ref.gt. by rewrite Z.gtb_ltb.
  - intros e c m st pc x y Hx Hy. apply top_eq. by apply compare_spec.
  - intros e c m st pc x y Hx Hy. apply top_eq. by apply compare_spec.
  - done.
  - apply opIszero_computes.
  - intros e c m st pc x y Hx Hy. apply top_eq. apply bitwise_eq; [done|apply Z.land_spec|done..].
  - intros e c m st pc x y Hx Hy. apply top_eq. apply bitwise_eq; [done|apply Z.lor_spec|done..].
  - intros e c m st pc x y Hx Hy. apply top_eq. apply bitwise_eq; [done|apply Z.lxor_spec|done..].
  - apply opNot_computes.
  - apply opByte_computes.
  - apply opSHL_computes.
  - apply opSHR_computes.
  - intros e c m st pc s x Hs Hx. apply top_eq. rewrite U256_word by done. destruct (Z.leb_spec 256 s), (Z.eqb_spec x 0); cbn [andb].
    + subst x. by apply sar_zero_spec.
    + apply sar_spec; auto.
    + apply sar_spec; auto.
    + apply sar_spec; auto.
Qed.

(** Zero shifted right arithmetically by 256 or more becomes minus one. *)
Theorem sar_zero (AT ST : Type) (e : EVM AT ST) c m st pc :
  opSAR (e, mkFrame c m (256 :: 0 :: st) pc) =
    Ret (([], None), (e, mkFrame c m (2 ^ 256 - 1 :: st) pc)) ∧ Ref.sar 256 0 = 0.
Proof. split; [|done]. apply top_eq. by vm_compute. Qed.

Definition blank_machine : EVM unit unit :=
  mkEVM (mkHeap ∅ 0) (mkStateDB tt ∅ ∅ None 0 hash0 hash0 0 ∅ 0 ∅ [] [] 0) 0 0 [] false [] ∅.
Definition blank_contract : Contract := mkContract address0 address0 [] hash0 None [] 100 0 None false.

(** Minus two shifted right arithmetically by one is minus one. *)
Lemma arithmetic_correct_witness :
  opSAR (blank_machine, mkFrame blank_contract NewMemory [1; 2 ^ 256 - 2] 0) =
    Ret (([], None), (blank_machine, mkFrame blank_contract NewMemory [Ref.sar 1 (2 ^ 256 - 2)] 0)).
Proof.
  destruct (arithmetic_correct unit unit) as (_ & _ & _ & H).
  apply (H blank_machine blank_contract NewMemory [] 0 1 (2 ^ 256 - 2)); unfold is_word; lia.
Defined.
