(* ===== verification/VmJump.v ===== *)
(** * Jump destinations are the JUMPDESTs of the code

    [codeBitmap] marks the bytes that belong to the operand of a push, eight at a
    time, in a bit vector a little longer than the code; [destinations.has] looks a
    destination up in it and keeps the vector per code hash.  Both against a plain
    walk through the code. *)

From S2P Require Import Prelude Assets Interfaces AssetInfo StateTypes StateDB Votes DelegateState.
From S2P Require Import VmData VmGas Evm Instructions VmArith.

(** ** The reference

    Which bytes are operands: [skip] bytes are left of the push before. *)
Definition operand_bytes (op : Z) : nat :=
  if (PUSH1 <=? op) && (op <=? PUSH32) then Z.to_nat (op - PUSH1 + 1) else 0.
Fixpoint operands (skip : nat) (code : bytes) : list bool :=
  match code with
  | [] => []
  | b :: code =>
    match skip with
    | O => false :: operands (operand_bytes (byte_val b)) code
    | S skip => true :: operands skip code
    end
  end.

(** A destination code may jump to. *)
Definition jumpdest (code : bytes) (dest : Z) : Prop :=
  0 ≤ dest < blen code ∧
  (byte_val <$> code !! Z.to_nat dest) = Some JUMPDEST ∧
  operands 0 code !! Z.to_nat dest = Some false.

Lemma operands_skip n code i :
  operands n code !! i =
  if (i <? n)%nat then (if (i <? length code)%nat then Some true else None)
  else operands 0 (drop n code) !! (i - n)%nat.
Proof.
  revert n i. induction code as [|b code IH]; intros n i.
  { rewrite drop_nil. cbn [operands length]. rewrite !lookup_nil. by destruct (i <? n)%nat. }
  destruct n as [|n]; [by rewrite Nat.sub_0_r|]. cbn [operands drop length].
  destruct i as [|i]; [done|]. cbn [lookup list_lookup]. fold (operands n code !! i). rewrite IH.
  replace (S i <? S n)%nat with (i <? n)%nat by done. by replace (S i <? S (length code))%nat with (i <? length code)%nat.
Qed.

(** ** Bits *)

Definition bit (bits : bitvec) (p : Z) : bool :=
  match bits !! Z.to_nat (p / 8) with
  | Some x => Z.testbit x (7 - p mod 8)
  | None => false
  end.

Lemma or_at_bit i v bits :
  0 ≤ i < Z.of_nat (length bits) → ∃ bits', or_at i v bits = Ret bits' ∧ length bits' = length bits ∧
  ∀ p, 0 ≤ p → bit bits' p = bit bits p || ((p / 8 =? i) && Z.testbit v (7 - p mod 8)).
Proof.
  intros Hi. unfold or_at, bit, bitvec in *. destruct (lookup_lt_is_Some_2 bits (Z.to_nat i) ltac:(lia)) as [x Hx]. rewrite Hx.
  eexists. split_and!; [done|apply length_insert|]. intros p Hp.
  assert (0 ≤ p / 8) by (apply Z.div_pos; lia). destruct (Z.eqb_spec (p / 8) i) as [<-|Hne].
  - rewrite list_lookup_insert_eq by (by eapply lookup_lt_Some). rewrite Hx, Z.lor_spec. done.
  - rewrite list_lookup_insert_ne by lia. by rewrite orb_false_r.
Qed.

(** Facts about the masks, on the eight offsets. *)
Definition offsets : list Z := [0; 1; 2; 3; 4; 5; 6; 7].

Lemma offset_cases p : 0 ≤ p mod 8 < 8 → p mod 8 ∈ offsets.
Proof. intros H. unfold offsets. rewrite !elem_of_cons. lia. Qed.

Lemma mask_facts :
  Forall (λ j, Forall (λ k,
    Z.testbit (Z.shiftr 0x80 j) (7 - k) = (k =? j) ∧
    Z.testbit (Z.shiftr 0xFF j) (7 - k) = (j <=? k) ∧
    Z.testbit (Z.lxor 0xFF (Z.shiftr 0xFF j)) (7 - k) = (k <? j)) offsets) offsets.
Proof. repeat constructor. Qed.

Lemma mask_fact p q :
  Z.testbit (Z.shiftr 0x80 (p mod 8)) (7 - q mod 8) = (q mod 8 =? p mod 8) ∧
  Z.testbit (Z.shiftr 0xFF (p mod 8)) (7 - q mod 8) = (p mod 8 <=? q mod 8) ∧
  Z.testbit (Z.lxor 0xFF (Z.shiftr 0xFF (p mod 8))) (7 - q mod 8) = (q mod 8 <? p mod 8).
Proof.
  pose proof (offset_cases p (Z.mod_pos_bound p 8 ltac:(done))) as Hp.
  pose proof (offset_cases q (Z.mod_pos_bound q 8 ltac:(done))) as Hq.
  pose proof mask_facts as F. rewrite Forall_forall in F. specialize (F _ Hp). by rewrite Forall_forall in F; apply F.
Qed.

(** The range an operation on the vector marks. *)
Definition marked (lo hi p : Z) : bool := (lo <=? p) && (p <? hi).

Definition marks (bits : bitvec) (lo hi : Z) (bits' : bitvec) : Prop :=
  length bits' = length bits ∧ ∀ p, 0 ≤ p → bit bits' p = bit bits p || marked lo hi p.

Lemma marks_refl bits lo : marks bits lo lo bits.
Proof. split; [done|]. intros p _. unfold marked. destruct (Z.leb_spec lo p), (Z.ltb_spec p lo); try lia; by rewrite orb_false_r. Qed.

Lemma marks_trans b1 b2 b3 lo mid hi : lo ≤ mid ≤ hi → marks b1 lo mid b2 → marks b2 mid hi b3 → marks b1 lo hi b3.
Proof.
  intros H [L1 M1] [L2 M2]. split; [congruence|]. intros p Hp. rewrite M2, M1, <- orb_assoc by done. f_equal.
  unfold marked. destruct (Z.leb_spec lo p), (Z.ltb_spec p mid), (Z.leb_spec mid p), (Z.ltb_spec p hi); lia || done.
Qed.

Lemma bv_set_marks pos bits :
  0 ≤ pos → pos / 8 < Z.of_nat (length bits) → ∃ bits', bv_set pos bits = Ret bits' ∧ marks bits pos (pos + 1) bits'.
Proof.
  intros Hp Hl. assert (0 ≤ pos / 8) by (apply Z.div_pos; lia).
  destruct (or_at_bit (pos / 8) (Z.shiftr 0x80 (pos mod 8)) bits) as (b & E & L & B); [lia|].
  exists b. split; [done|]. split; [done|]. intros p Hq. rewrite B by done. f_equal.
  rewrite (proj1 (mask_fact pos p)). unfold marked. pose proof (Z.div_mod pos 8 ltac:(done)). pose proof (Z.div_mod p 8 ltac:(done)).
  pose proof (Z.mod_pos_bound p 8 ltac:(done)). pose proof (Z.mod_pos_bound pos 8 ltac:(done)).
  destruct (Z.eqb_spec (p / 8) (pos / 8)), (Z.eqb_spec (p mod 8) (pos mod 8)), (Z.leb_spec pos p), (Z.ltb_spec p (pos + 1));
    lia || done.
Qed.

Lemma bv_set8_marks pos bits :
  0 ≤ pos → pos / 8 + 1 < Z.of_nat (length bits) →
  ∃ bits', bv_set8 pos bits = Ret bits' ∧ marks bits pos (pos + 8) bits'.
Proof.
  intros Hp Hl. assert (0 ≤ pos / 8) by (apply Z.div_pos; lia). unfold bv_set8.
  destruct (or_at_bit (pos / 8) (Z.shiftr 0xFF (pos mod 8)) bits) as (b & E & L & B); [lia|]. rewrite E.
  destruct (or_at_bit (pos / 8 + 1) (Z.lxor 0xFF (Z.shiftr 0xFF (pos mod 8))) b) as (b' & E' & L' & B'); [lia|].
  exists b'. split; [done|]. split; [congruence|]. intros p Hq. rewrite B', B, <- orb_assoc by done. f_equal.
  rewrite (proj1 (proj2 (mask_fact pos p))), (proj2 (proj2 (mask_fact pos p))). unfold marked.
  pose proof (Z.div_mod pos 8 ltac:(done)). pose proof (Z.div_mod p 8 ltac:(done)). pose proof (Z.mod_pos_bound p 8 ltac:(done)). pose proof (Z.mod_pos_bound pos 8 ltac:(done)).
  destruct (Z.eqb_spec (p / 8) (pos / 8)), (Z.leb_spec (pos mod 8) (p mod 8)), (Z.eqb_spec (p / 8) (pos / 8 + 1)),
    (Z.ltb_spec (p mod 8) (pos mod 8)), (Z.leb_spec pos p), (Z.ltb_spec p (pos + 8)); lia || done.
Qed.

Lemma push_set_marks n pc bits :
  0 ≤ pc → (pc + Z.of_nat n) / 8 < Z.of_nat (length bits) →
  ∃ bits', push_set n pc bits = Ret (pc + Z.of_nat n, bits') ∧ marks bits pc (pc + Z.of_nat n) bits'.
Proof.
  revert pc bits. induction n as [|n IH]; intros pc bits Hp Hl; cbn [push_set].
  { exists bits. rewrite Z.add_0_r. split; [done|apply marks_refl]. }
  assert (Hd : pc / 8 ≤ (pc + Z.of_nat (S n)) / 8) by (apply Z.div_le_mono; lia).
  destruct (bv_set_marks pc bits Hp ltac:(lia)) as (b & E & M). rewrite E. cbn [mbind outcome_bind].
  destruct (IH (pc + 1) b ltac:(lia)) as (b' & E' & M').
  { rewrite (proj1 M). by replace (pc + 1 + Z.of_nat n) with (pc + Z.of_nat (S n)) by lia. }
  replace (pc + 1 + Z.of_nat n) with (pc + Z.of_nat (S n)) in * by lia.
  exists b'. split; [done|]. eapply marks_trans; [|exact M|exact M']. lia.
Qed.

Lemma push_set8_marks n pc bits :
  0 ≤ pc → (pc + 8 * Z.of_nat n) / 8 < Z.of_nat (length bits) →
  ∃ bits', push_set8 n pc bits = Ret (pc + 8 * Z.of_nat n, bits') ∧ marks bits pc (pc + 8 * Z.of_nat n) bits'.
Proof.
  revert pc bits. induction n as [|n IH]; intros pc bits Hp Hl; cbn [push_set8].
  { exists bits. rewrite Z.mul_0_r, Z.add_0_r. split; [done|apply marks_refl]. }
  assert (Hd : (pc + 1 * 8) / 8 ≤ (pc + 8 * Z.of_nat (S n)) / 8) by (apply Z.div_le_mono; lia).
  rewrite Z.div_add in Hd by done.
  destruct (bv_set8_marks pc bits Hp ltac:(lia)) as (b & E & M). rewrite E. cbn [mbind outcome_bind].
  destruct (IH (pc + 8) b ltac:(lia)) as (b' & E' & M').
  { rewrite (proj1 M). by replace (pc + 8 + 8 * Z.of_nat n) with (pc + 8 * Z.of_nat (S n)) by lia. }
  replace (pc + 8 + 8 * Z.of_nat n) with (pc + 8 * Z.of_nat (S n)) in * by lia.
  exists b'. split; [done|]. eapply marks_trans; [|exact M|exact M']. lia.
Qed.

Lemma push_bits_marks n pc bits :
  0 ≤ n → 0 ≤ pc → (pc + n) / 8 < Z.of_nat (length bits) →
  ∃ bits', push_bits n pc bits = Ret (pc + n, bits') ∧ marks bits pc (pc + n) bits'.
Proof.
  intros Hn Hp Hl. unfold push_bits. pose proof (Z.div_mod n 8 ltac:(done)). pose proof (Z.mod_pos_bound n 8 ltac:(done)).
  assert (0 ≤ n / 8) by (apply Z.div_pos; lia).
  assert ((pc + 8 * (n / 8)) / 8 ≤ (pc + n) / 8) by (apply Z.div_le_mono; lia).
  destruct (push_set8_marks (Z.to_nat (n / 8)) pc bits Hp) as (b & E & M); [rewrite Z2Nat.id by done; lia|].
  rewrite E. rewrite Z2Nat.id in M |- * by done. cbn [mbind outcome_bind].
  destruct (push_set_marks (Z.to_nat (n mod 8)) (pc + 8 * (n / 8)) b) as (b' & E' & M').
  { lia. }
  { rewrite Z2Nat.id by lia. rewrite (proj1 M). by replace (pc + 8 * (n / 8) + n mod 8) with (pc + n) by lia. }
  rewrite E', Z2Nat.id in * by lia. replace (pc + 8 * (n / 8) + n mod 8) with (pc + n) in * by lia.
  exists b'. split; [done|]. eapply marks_trans; [|exact M|exact M']. lia.
Qed.

(** ** The walk *)

Lemma bit_zero n p : bit (replicate n 0) p = false.
Proof.
  unfold bit, bitvec. destruct (replicate n 0 !! Z.to_nat (p / 8)) as [x|] eqn:E; [|done].
  apply lookup_replicate in E as [-> _]. apply Z.testbit_0_l.
Qed.

(** The bit of a byte [p] of the code, when the walk is at [pc]. *)
Definition walked (code : bytes) (pc : Z) (bits : bitvec) (p : Z) : bool :=
  if p <? pc then bit bits p
  else default false (operands 0 (drop (Z.to_nat pc) code) !! Z.to_nat (p - pc)).

Lemma walked_marks code pc op bits n bits' p :
  (0 ≤ pc)%Z → code !! Z.to_nat pc = Some op → operand_bytes (byte_val op) = n →
  (∀ q, pc ≤ q → bit bits q = false) → marks bits (pc + 1) (pc + 1 + Z.of_nat n) bits' →
  0 ≤ p < blen code → walked code (pc + 1 + Z.of_nat n) bits' p = walked code pc bits p.
Proof.
  intros Hpc Hop Hn Hfree [_ M] Hp. unfold walked, blen in *. rewrite (drop_S _ _ _ Hop).
  cbn [operands]. rewrite Hn. destruct (Z.ltb_spec p pc) as [Hlt|Hge].
  { rewrite (proj2 (Z.ltb_lt p _)) by lia. rewrite M by lia. unfold marked.
    rewrite (proj2 (Z.leb_gt _ p)) by lia. by rewrite orb_false_r. }
  destruct (decide (p = pc)) as [->|Hne].
  { rewrite (proj2 (Z.ltb_lt pc _)), M, Hfree, Z.sub_diag by lia. unfold marked.
    rewrite (proj2 (Z.leb_gt _ pc)) by lia. done. }
  replace (Z.to_nat (p - pc)) with (S (Z.to_nat (p - (pc + 1)))) by lia.
  cbn [lookup list_lookup]. rewrite (operands_skip n), length_drop, drop_drop.
  destruct (Z.ltb_spec p (pc + 1 + Z.of_nat n)).
  - rewrite M, Hfree by lia. unfold marked. rewrite (proj2 (Z.leb_le _ p)), (proj2 (Z.ltb_lt p _)) by lia.
    rewrite (proj2 (Nat.ltb_lt _ _)), (proj2 (Nat.ltb_lt _ _)) by lia. done.
  - rewrite (proj2 (Nat.ltb_ge _ _)) by lia.
    replace (Z.to_nat (p - (pc + 1 + Z.of_nat n))) with (Z.to_nat (p - (pc + 1)) - n)%nat by lia.
    by replace (Z.to_nat (pc + 1 + Z.of_nat n)) with (S (Z.to_nat pc) + n)%nat by lia.
Qed.

Lemma walked_end code pc bits p : p < blen code → blen code ≤ pc → walked code pc bits p = bit bits p.
Proof. intros. unfold walked. by rewrite (proj2 (Z.ltb_lt p pc)) by lia. Qed.

Lemma codeBitmap_loop_run code fuel pc bits :
  0 ≤ pc → blen code - pc ≤ Z.of_nat fuel → Z.of_nat (length bits) = blen code / 8 + 5 →
  (∀ q, pc ≤ q → bit bits q = false) →
  ∃ bits', codeBitmap_loop fuel code pc bits = Ret bits' ∧ length bits' = length bits ∧
    ∀ p, 0 ≤ p < blen code → bit bits' p = walked code pc bits p.
Proof.
  revert pc bits. induction fuel as [|fuel IH]; intros pc bits Hpc Hf Hl Hfree; cbn [codeBitmap_loop].
  { exists bits. split_and!; [done..|]. intros p Hp. symmetry. apply walked_end; lia. }
  destruct (code !! Z.to_nat pc) as [op|] eqn:Hop.
  2:{ apply lookup_ge_None in Hop. exists bits. split_and!; [done..|].
      intros p Hp. symmetry. apply walked_end; unfold blen in *; lia. }
  pose proof (lookup_lt_Some _ _ _ Hop) as Hlt. set (n := operand_bytes (byte_val op)).
  assert (Step : ∀ bits1, marks bits (pc + 1) (pc + 1 + Z.of_nat n) bits1 →
    ∃ bits', codeBitmap_loop fuel code (pc + 1 + Z.of_nat n) bits1 = Ret bits' ∧ length bits' = length bits ∧
      ∀ p, 0 ≤ p < blen code → bit bits' p = walked code pc bits p).
  { intros bits1 M. destruct (IH (pc + 1 + Z.of_nat n) bits1) as (bits' & E & L & B).
    - lia.
    - lia.
    - by rewrite (proj1 M).
    - intros q Hq. rewrite (proj2 M), Hfree by lia. unfold marked. by rewrite (proj2 (Z.ltb_ge q _)), andb_false_r by lia.
    - exists bits'. rewrite L, (proj1 M). split_and!; [done..|]. intros p Hp. rewrite B by done. by eapply walked_marks. }
  unfold n, operand_bytes in *. destruct ((PUSH1 <=? byte_val op) && (byte_val op <=? PUSH32)) eqn:Hpush.
  - apply andb_true_iff in Hpush as [H1 H2]. apply Z.leb_le in H1, H2. unfold PUSH1, PUSH32 in *.
    rewrite Z2Nat.id in Step by lia.
    destruct (push_bits_marks (byte_val op - 0x60 + 1) (pc + 1) bits) as (b & E & M); [lia..| |].
    { rewrite Hl. apply Z.div_lt_upper_bound; [done|]. pose proof (Z.div_mod (blen code) 8 ltac:(done)).
      pose proof (Z.mod_pos_bound (blen code) 8 ltac:(done)). unfold blen in *. lia. }
    rewrite E. cbn [mbind outcome_bind]. by apply Step.
  - cbn in Step. rewrite Z.add_0_r in Step. apply Step, marks_refl.
Qed.

Lemma codeBitmap_run code :
  ∃ bits, codeBitmap code = Ret bits ∧ Z.of_nat (length bits) = blen code / 8 + 5 ∧
    ∀ p, 0 ≤ p < blen code → bit bits p = default false (operands 0 code !! Z.to_nat p).
Proof.
  assert (Hl : Z.of_nat (length (replicate (length code / 8 + 1 + 4) 0)) = blen code / 8 + 5).
  { rewrite length_replicate. unfold blen. rewrite !Nat2Z.inj_add, Nat2Z.inj_div. lia. }
  destruct (codeBitmap_loop_run code (length code) 0 (replicate (length code / 8 + 1 + 4) 0)) as (bits & E & L & B);
    [lia|unfold blen; lia|done|intros; apply bit_zero|].
  exists bits. split_and!; [done|by rewrite L|]. intros p Hp. rewrite B by done. unfold walked.
  rewrite (proj2 (Z.ltb_ge p 0)) by lia. by rewrite Z.sub_0_r.
Qed.

Lemma codeSegment_bit pos bits :
  0 ≤ pos → pos / 8 < Z.of_nat (length bits) → codeSegment pos bits = Ret (negb (bit bits pos)).
Proof.
  intros Hp Hl. unfold codeSegment, bit, bitvec in *. assert (0 ≤ pos / 8) by (apply Z.div_pos; lia).
  destruct (lookup_lt_is_Some_2 bits (Z.to_nat (pos / 8)) ltac:(lia)) as [x ->]. f_equal.
  pose proof (offset_cases pos (Z.mod_pos_bound pos 8 ltac:(done))) as Hj. revert Hj. generalize (pos mod 8).
  intros j Hj. assert (Hm : Z.shiftr 0x80 j = 2 ^ (7 - j) ∧ 0 ≤ 7 - j).
  { unfold offsets in Hj. by repeat (apply elem_of_cons in Hj as [->|Hj]; [done|]); apply elem_of_nil in Hj. }
  destruct Hm as [-> Hj']. destruct (Z.eqb_spec (Z.land x (2 ^ (7 - j))) 0) as [E|E].
  - apply (f_equal (λ z, Z.testbit z (7 - j))) in E. rewrite Z.land_spec, Z.pow2_bits_true, Z.bits_0, andb_true_r in E by done.
    by rewrite E.
  - destruct (Z.testbit x (7 - j)) eqn:T; [done|]. exfalso. apply E. apply Z.bits_inj'. intros k Hk.
    rewrite Z.land_spec, Z.bits_0, Z.pow2_bits_eqb by done. destruct (Z.eqb_spec (7 - j) k) as [<-|]; [by rewrite T|apply andb_false_r].
Qed.

(** ** The cache of [destinations]

    Every vector it keeps is that of the code the hash names. *)
Definition cached (code_of : hash → bytes) (d : destinations) : Prop :=
  ∀ h m, d !! h = Some m → codeBitmap (code_of h) = Ret m.

Lemma dest_vector code_of d h :
  cached code_of d → ∃ m d', (match d !! h with
    | Some m => Ret (m, d)
    | None => m ← codeBitmap (code_of h); Ret (m, <[h := m]> d)
    end) = Ret (m, d') ∧ codeBitmap (code_of h) = Ret m ∧ cached code_of d'.
Proof.
  intros Hc. destruct (d !! h) as [m|] eqn:E; [exists m, d; split_and!; [done|by apply Hc|done]|].
  destruct (codeBitmap_run (code_of h)) as (m & Em & _ & _). rewrite Em. exists m, (<[h := m]> d).
  split_and!; [done..|]. intros h' m' H. apply lookup_insert_Some in H as [[<- <-]|[_ H]]; [done|by apply Hc].
Qed.

Lemma dest_has_run code_of d h dest :
  cached code_of d → 0 ≤ dest → blen (code_of h) ≤ 2 ^ 62 →
  ∃ b d', dest_has h (code_of h) dest d = Ret (b, d') ∧ cached code_of d' ∧
    (b = true ↔ jumpdest (code_of h) dest).
Proof.
  intros Hc H0 Hlen. unfold dest_has.
  destruct ((BitLen dest >=? 63) || (Uint64 dest >=? blen (code_of h))) eqn:Hout.
  { exists false, d. split_and!; [done..|]. split; [done|]. intros [Hd _]. exfalso.
    apply orb_true_iff in Hout as [Hb|Hb]; apply Z.geb_le in Hb.
    - pose proof (BitLen_bound dest 62 ltac:(lia)). lia.
    - unfold Uint64 in Hb. rewrite Z.abs_eq, u64_small in Hb by (unfold is_u64, MaxUint64; lia). lia. }
  apply orb_false_iff in Hout as [Hb Hu]. rewrite Z.geb_leb in Hb, Hu. apply Z.leb_gt in Hb, Hu.
  assert (Hd : Uint64 dest = dest).
  { unfold Uint64. rewrite Z.abs_eq by done. apply u64_small. pose proof (BitLen_spec dest H0).
    assert (2 ^ BitLen dest ≤ 2 ^ 62) by (apply Z.pow_le_mono_r; lia). unfold is_u64, MaxUint64. lia. }
  rewrite Hd in *. destruct (dest_vector code_of d h Hc) as (m & d' & -> & Em & Hc'). cbn [mbind outcome_bind].
  destruct (code_of h !! Z.to_nat dest) as [c|] eqn:Ec; [|apply lookup_ge_None in Ec; unfold blen in *; lia].
  destruct (codeBitmap_run (code_of h)) as (m' & Em' & Lm & Bm). rewrite Em in Em'. injection Em' as <-.
  unfold jumpdest. rewrite Ec. cbn [fmap option_fmap option_map]. destruct (Z.eqb_spec (byte_val c) JUMPDEST) as [Hj|Hj].
  2:{ exists false, d'. split_and!; [done..|]. split; [done|]. intros (_ & [= ?] & _). done. }
  rewrite codeSegment_bit by (done || (pose proof (Z.div_le_mono dest (blen (code_of h)) 8); lia)).
  rewrite Bm by lia.
  eexists _, d'. split_and!; [done..|].
  assert (Hs : is_Some (operands 0 (code_of h) !! Z.to_nat dest)).
  { apply lookup_lt_is_Some. assert (Hl : ∀ n code, length (operands n code) = length code); [|rewrite Hl; unfold blen in *; lia].
    intros n code. revert n. induction code as [|b code IH]; intros [|n]; cbn; by rewrite ?IH. }
  destruct Hs as [b ->]. cbn. rewrite Hj. destruct b; cbn; split; try done; by intros (_ & _ & [=]).
Qed.

Section Jump.
Context {AT ST : Type} `{ENV : StateEnv AT ST slice}.

(** C27: [JUMP] follows the definition of a jump destination: with the cache of bit
    vectors kept by [destinations] holding vectors of the right code, the
    instruction goes to the popped number exactly when it is the position of a
    [JUMPDEST] of the code that is not part of the operand of a push, and fails with
    [errInvalidJump] otherwise; the eight-at-a-time bit marking of [codeBitmap] never
    leaves its vector, and the cache stays right. *)
Theorem jump_correct code_of (e : EVM AT ST) (f : Frame) dest rest :
  cached code_of (e_jumpdests e) →
  ct_Code (f_contract f) = code_of (ct_CodeHash (f_contract f)) → blen (ct_Code (f_contract f)) ≤ 2 ^ 62 →
  f_stack f = dest :: rest → 0 ≤ dest →
  ∃ d, cached code_of d ∧
    (jumpdest (ct_Code (f_contract f)) dest →
     opJump (e, f) = Ret (([], None), (e <| e_jumpdests := d |>, f <| f_stack := rest |> <| f_pc := dest |>))) ∧
    (¬ jumpdest (ct_Code (f_contract f)) dest →
     opJump (e, f) = Ret (([], Some errInvalidJump), (e <| e_jumpdests := d |>, f <| f_stack := rest |>))).
Proof.
  intros Hc Hcode Hlen Hst H0. rewrite Hcode in *.
  destruct (dest_has_run code_of _ (ct_CodeHash (f_contract f)) dest Hc H0 Hlen) as (b & d & E & Hd & Hb).
  exists d. split; [done|].
  assert (R : opJump (e, f) = match b with
    | true => Ret (([], None), (e <| e_jumpdests := d |>, f <| f_stack := rest |> <| f_pc := Uint64 dest |>))
    | false => Ret (([], Some errInvalidJump), (e <| e_jumpdests := d |>, f <| f_stack := rest |>))
    end).
  { destruct f as [ct m st pc]. cbn in Hst, Hcode, E |- *. subst st.
    unfold opJump, jump_to, jump_ok, pop, frame, contract, on_evm, pure_out, set_frame, GM_bind, mbind, mret. cbn.
    rewrite Hcode, E. by destruct b. }
  rewrite R. split; intros Hj.
  - rewrite (proj2 Hb Hj). destruct Hj as [Hr _]. unfold Uint64. rewrite Z.abs_eq by done.
    rewrite u64_small by (unfold is_u64, MaxUint64; lia). done.
  - destruct b; [exfalso; by apply Hj, Hb|done].
Qed.
End Jump.

(** ** A sample: the byte 0x5b after a push is not a destination, the one after it is *)
Definition sample_code : bytes := byte_of <$> [0x60; 0x5b; 0x5b; 0x00].
Definition sample_contract : Contract := mkContract address0 address0 sample_code hash0 None [] 100 0 None false.

Lemma sample_jumpdest : jumpdest sample_code 2.
Proof. split_and!; [done|done|reflexivity|reflexivity]. Qed.

Lemma sample_not_jumpdest : ¬ jumpdest sample_code 1.
Proof. intros (_ & _ & H). vm_compute in H. discriminate H. Qed.

Lemma jump_correct_witness :
  (∃ d, opJump (blank_machine, mkFrame sample_contract NewMemory [2] 7)
        = Ret (([], None), (blank_machine <| e_jumpdests := d |>, mkFrame sample_contract NewMemory [] 2))) ∧
  (∃ d, opJump (blank_machine, mkFrame sample_contract NewMemory [1] 7)
        = Ret (([], Some errInvalidJump), (blank_machine <| e_jumpdests := d |>, mkFrame sample_contract NewMemory [] 7))).
Proof.
  split.
  - destruct (jump_correct (λ _, sample_code) blank_machine (mkFrame sample_contract NewMemory [2] 7) 2 [])
      as (d & _ & H & _); [intros h m H; discriminate H|reflexivity|discriminate|reflexivity|lia|].
    exists d. exact (H sample_jumpdest).
  - destruct (jump_correct (λ _, sample_code) blank_machine (mkFrame sample_contract NewMemory [1] 7) 1 [])
      as (d & _ & _ & H); [intros h m H; discriminate H|reflexivity|discriminate|reflexivity|lia|].
    exists d. exact (H sample_not_jumpdest).
Defined.
