(* ===== verification/VmWp.v ===== *)
(** * Reasoning about the virtual machine

    What a run of code may do to the machine, what a frame looks like between two
    instructions, and rules for the commands instructions are made of.  The rules
    are for a set of tolerated panics; it has the two no frame can rule out: a jump
    in code whose hash belongs to the cached bit vector of other code, and the
    precompiled exponentiation run with lengths whose sum wraps around. *)

From S2P Require Import Prelude Assets Interfaces AssetInfo StateTypes StateDB StateRevert StateSnapshot.
From S2P Require Import Votes DelegateState Accounts Transfer VmData StateSound VmGas Evm.
From S2P Require Import Instructions Interpreter Hex.

Class Tolerance : Type := {
  tolerated : string → Prop;
  tolerates_bitvec : tolerated bitvec_panic;
  tolerates_getData : tolerated getData_panic
}.

(** ** Programs that return with a property *)

Definition wp `{TOL : Tolerance} {S A} (m : GM S A) (Q : A → S → Prop) (s : S) : Prop :=
  match m s with
  | Ret (a, s') => Q a s'
  | Panic w => tolerated w
  end.

Section Rules.
Context `{TOL : Tolerance} {S : Type}.

Lemma wp_bind {A B} (m : GM S A) (k : A → GM S B) Q s : wp m (λ a, wp (k a) Q) s → wp (m ≫= k) Q s.
Proof. unfold wp, mbind, GM_bind. by destruct (m s) as [[a s']|w]. Qed.

Lemma wp_mono {A} (m : GM S A) (Q Q' : A → S → Prop) s : wp m Q s → (∀ a s', Q a s' → Q' a s') → wp m Q' s.
Proof. unfold wp. destruct (m s) as [[a s']|w]; auto. Qed.

Lemma wp_run {A} (m : GM S A) (Q : A → S → Prop) s a s' : m s = Ret (a, s') → Q a s' → wp m Q s.
Proof. unfold wp. by intros ->. Qed.

Lemma wp_seq {A B} (m : GM S A) (k : A → GM S B) Q s a s' : m s = Ret (a, s') → wp (k a) Q s' → wp (m ≫= k) Q s.
Proof. intros E H. apply wp_bind. by eapply wp_run. Qed.

Lemma wp_ret {A} (a : A) (Q : A → S → Prop) s : Q a s → wp (mret a) Q s.
Proof. done. Qed.
End Rules.

(** ** Machines *)

Section Machine.
Context `{TOL : Tolerance} {AT ST : Type} `{ENV : StateEnv AT ST slice} `{CRYPTO : CryptoOps}.

#[local] Abbreviation SDB := (StateDB AT ST slice).
#[local] Abbreviation EM := (GM (EVM AT ST)).
#[local] Abbreviation FM := (GM (EVM AT ST * Frame)).
#[local] Infix "≈" := sdb_equiv (at level 70).

Record good (e : EVM AT ST) : Prop := mkGood {
  gd_Inv : Inv (e_db e);
  gd_sound : sound (e_db e);
  gd_temp : is_u64 (e_callGasTemp e)
}.

Lemma good_wf e : good e → wf (e_db e).
Proof. intros [I _ _]. apply I. Qed.

(** What running code does to the machine: snapshots taken before stay valid and
    lead back to the same state, depth, mode, vote lists and what is written back are
    as before, and there is no more of the currency or of any asset. *)
Record later (e e' : EVM AT ST) : Prop := mkLater {
  lt_good : good e';
  lt_depth : e_depth e' = e_depth e;
  lt_readOnly : e_readOnly e' = e_readOnly e;
  lt_heap : e_heap e' = e_heap e;
  lt_since s0 id : since s0 id (e_db e) → since s0 id (e_db e');
  lt_flow : flow (e_db e) (e_db e');
  lt_base : base_of (e_db e') = base_of (e_db e)
}.

Lemma later_refl e : good e → later e e.
Proof. constructor; [done..|apply flow_refl|done]. Qed.

Lemma later_trans e1 e2 e3 : later e1 e2 → later e2 e3 → later e1 e3.
Proof. intros [G1 D1 R1 H1 S1 F1 B1] [G2 D2 R2 H2 S2 F2 B2]. constructor; [done|congruence..|auto|by eapply flow_trans|congruence]. Qed.

Lemma later_db e s : good e → advances true (e_db e) s → later e (e <| e_db := s |>).
Proof.
  intros [I S T] A. constructor; [|done..| |by apply A|apply undoable_base, A]; simpl.
  - constructor; [by eapply advances_Inv|apply A|done].
  - intros s0 id Hs. by eapply since_plain; [|apply A].
Qed.

(** A change of the fields code may change freely. *)
Lemma later_fields e e' :
  good e → e_db e' = e_db e → e_depth e' = e_depth e → e_readOnly e' = e_readOnly e → e_heap e' = e_heap e →
  is_u64 (e_callGasTemp e') → later e e'.
Proof. intros [I S T] D H1 H2 H3 H4. constructor; [constructor|..|rewrite D; apply flow_refl|]; by rewrite ?D. Qed.

(** ** Frames *)

Record contract_ok (c : Contract) : Prop := mkContractOk {
  co_value : 0 ≤ ct_value c;
  co_Gas : is_u64 (ct_Gas c);
  co_Code : blen (ct_Code c) ≤ code_limit;
  co_Input : blen (ct_Input c) ≤ code_limit
}.

Definition mem_limit : Z := 0xffffffffe0.

Record frame_ok (f : Frame) : Prop := mkFrameOk {
  fo_contract : contract_ok (f_contract f);
  fo_stack : Forall (λ x, 0 ≤ x) (f_stack f);
  fo_mem : mem_Len (f_mem f) ≤ mem_limit;
  fo_pc : 0 ≤ f_pc f
}.

(** What an instruction that starts in [(e, f)] and leaves [n] items on the stack
    ends in; only an instruction that runs other code changes the contract. *)
Record stepped (calls : bool) (n : nat) (e : EVM AT ST) (f : Frame) (ef : EVM AT ST * Frame) : Prop := mkStepped {
  sp_later : later e ef.1;
  sp_frame : frame_ok ef.2;
  sp_stack : length (f_stack ef.2) = n;
  sp_pc : f_pc ef.2 ≤ Z.max (f_pc f + 32) code_limit;
  sp_contract : calls = false → f_contract ef.2 = f_contract f;
  sp_code : ct_Code (f_contract ef.2) = ct_Code (f_contract f)
}.

(** ** Commands on the database *)

Lemma wp_on_db {A} (m : GM SDB A) Q1 (Q : A → EVM AT ST → Prop) e :
  works true m (e_db e) Q1 → (∀ r s, advances true (e_db e) s → Q1 r s → Q r (e <| e_db := s |>)) → wp (on_db m) Q e.
Proof. intros (r & s & E & A1 & H) K. unfold wp, on_db. rewrite E. auto. Qed.

Lemma wp_db {A} (m : GM SDB A) Q1 (Q : A → EVM AT ST * Frame → Prop) e f :
  good e → works true m (e_db e) Q1 → (∀ r e', later e e' → Q1 r (e_db e') → Q r (e', f)) → wp (db m) Q (e, f).
Proof.
  intros G (r & s & E & A1 & H) K. unfold wp, db, on_evm, on_db. simpl. rewrite E. eapply K; [by apply later_db|exact H].
Qed.

(** Two operations in a row, by what they promise together. *)
Lemma wp_db2 {A B C} (m1 : GM SDB A) (m2 : GM SDB B) Q1 (k : B → FM C) (Q : C → EVM AT ST * Frame → Prop) e f :
  good e → works true (m1;; m2) (e_db e) Q1 → (∀ r e', later e e' → wp (k r) Q (e', f)) →
  wp (db m1;; (r ← db m2; k r)) Q (e, f).
Proof.
  intros G (r & s & E & A1 & H) K. apply GM_bind_Ret in E as (a & s1 & E1 & E2).
  eapply (wp_seq _ _ _ _ a (e <| e_db := s1 |>, f)); [unfold db, on_evm, on_db; simpl; by rewrite E1|].
  eapply (wp_seq _ _ _ _ r (e <| e_db := s |>, f)); [unfold db, on_evm, on_db; simpl; by rewrite E2|].
  apply K. by apply later_db.
Qed.

Lemma wp_on_evm {A} (m : EM A) (Q : A → EVM AT ST * Frame → Prop) e f :
  wp m (λ a e', Q a (e', f)) e → wp (on_evm m) Q (e, f).
Proof. unfold wp, on_evm. simpl. by destruct (m e) as [[a e']|w]. Qed.

(** ** Memory *)

Lemma calcMemSize_fits off size len :
  0 ≤ off → 0 ≤ size → calcMemSize off size ≤ len → size = 0 ∨ (0 < size ∧ off + size ≤ len).
Proof.
  intros Ho Hs. unfold calcMemSize. destruct (Z.eqb_spec (Z.sgn size) 0); [left; lia|right; lia].
Qed.

Lemma Int64_small x : 0 ≤ x ≤ mem_limit → Int64 x = x.
Proof.
  unfold mem_limit. intros H. unfold Int64. rewrite (proj2 (Z.ltb_ge x 0)) by lia. apply i64_small. lia.
Qed.

Lemma Uint64_small x : 0 ≤ x ≤ mem_limit → Uint64 x = x.
Proof.
  unfold mem_limit. intros H. unfold Uint64. rewrite Z.abs_eq by lia. apply u64_small. unfold is_u64, MaxUint64. lia.
Qed.

Lemma mem_Get_runs off size m :
  0 ≤ off → 0 ≤ size → mem_Len m ≤ mem_limit → calcMemSize off size ≤ mem_Len m →
  ∃ b, mem_Get (Int64 off) (Int64 size) m = Ret b ∧ blen b ≤ code_limit.
Proof.
  intros Ho Hs Hl Hf. destruct (calcMemSize_fits _ _ _ Ho Hs Hf) as [->|[Hp Hle]]; [by exists []|].
  rewrite !Int64_small by lia. unfold mem_Get. rewrite (proj2 (Z.eqb_neq size 0)) by lia.
  rewrite (proj2 (Z.gtb_gt _ _)) by lia. rewrite i64_small by (unfold mem_limit in *; lia).
  unfold slice_bytes. fold (mem_Len m).
  rewrite (proj2 (Z.leb_le 0 off)), (proj2 (Z.leb_le off _)), (proj2 (Z.leb_le _ (mem_Len m))) by lia.
  eexists. split; [reflexivity|]. unfold blen, mem_Len, blen in *. rewrite length_take, length_drop.
  unfold code_limit, mem_limit in *. lia.
Qed.

Lemma splice_length store off size value :
  (off + size ≤ length store)%nat → length (splice store off size value) = length store.
Proof.
  intros H. unfold splice. rewrite !length_app, length_take, length_drop.
  assert (length (take size value) ≤ size)%nat by (rewrite length_take; lia). lia.
Qed.

Lemma mem_Set_runs off size value m :
  0 ≤ off → 0 ≤ size → mem_Len m ≤ mem_limit → calcMemSize off size ≤ mem_Len m →
  ∃ m', mem_Set (Uint64 off) (Uint64 size) value m = Ret m' ∧ mem_Len m' = mem_Len m.
Proof.
  intros Ho Hs Hl Hf. unfold mem_Set. assert (0 ≤ mem_Len m) by (unfold mem_Len, blen; lia).
  destruct (calcMemSize_fits _ _ _ Ho Hs Hf) as [->|[Hp Hle]].
  { rewrite (Uint64_small 0) by (unfold mem_limit; lia). rewrite Z.gtb_ltb, (proj2 (Z.ltb_ge _ 0)) by lia. by exists m. }
  rewrite !Uint64_small by lia. rewrite u64_small by (unfold is_u64, MaxUint64, mem_limit in *; lia).
  rewrite !Z.gtb_ltb, (proj2 (Z.ltb_ge _ size)), (proj2 (Z.ltb_lt 0 size)), (proj2 (Z.ltb_ge _ off)), (proj2 (Z.ltb_ge _ _)) by lia.
  eexists. split; [reflexivity|]. unfold mem_Len, blen in *. simpl. rewrite splice_length; [done|lia].
Qed.

Lemma wp_mem_get {B} off size (k : bytes → FM B) Q e c m st pc :
  0 ≤ off → 0 ≤ size → mem_Len m ≤ mem_limit → calcMemSize off size ≤ mem_Len m →
  (∀ b, blen b ≤ code_limit → wp (k b) Q (e, mkFrame c m st pc)) → wp (mem_get off size ≫= k) Q (e, mkFrame c m st pc).
Proof.
  intros Ho Hs Hl Hf K. destruct (mem_Get_runs off size m Ho Hs Hl Hf) as (b & E & Hb). apply (wp_seq _ _ _ _ b (e, mkFrame c m st pc)); [|auto].
  unfold mem_get. erewrite GM_bind_run by reflexivity. unfold pure_out. simpl f_mem. by rewrite E.
Qed.

Lemma wp_mem_set {B} off size value (k : unit → FM B) Q e c m st pc :
  0 ≤ off → 0 ≤ size → mem_Len m ≤ mem_limit → calcMemSize off size ≤ mem_Len m →
  (∀ m', mem_Len m' = mem_Len m → wp (k tt) Q (e, mkFrame c m' st pc)) →
  wp (mem_set off size value ≫= k) Q (e, mkFrame c m st pc).
Proof.
  intros Ho Hs Hl Hf K. destruct (mem_Set_runs off size value m Ho Hs Hl Hf) as (m' & E & L).
  apply (wp_seq _ _ _ _ tt (e, mkFrame c m' st pc)); [|auto].
  unfold mem_set. erewrite GM_bind_run by reflexivity. unfold mbind, GM_bind, pure_out. simpl f_mem. by rewrite E.
Qed.

(** A slice of bytes that are there. *)
Lemma slice_runs b lo hi : 0 ≤ lo ≤ hi → hi ≤ blen b → ∃ r, slice_bytes b lo hi = Ret r.
Proof.
  intros H1 H2. unfold slice_bytes.
  rewrite (proj2 (Z.leb_le 0 lo)), (proj2 (Z.leb_le lo hi)), (proj2 (Z.leb_le hi _)) by lia. by eexists.
Qed.

Lemma getDataBig_runs data start size :
  0 ≤ start → 0 ≤ size → blen data ≤ code_limit → ∃ r, getDataBig data start size = Ret r.
Proof.
  intros H1 H2 H3. unfold getDataBig. assert (0 ≤ blen data) by (unfold blen; lia). unfold code_limit in H3.
  set (s := BigMin start (blen data)). set (t := BigMin (s + size) (blen data)).
  assert (Hs : 0 ≤ s ≤ blen data) by (unfold s, BigMin; rewrite Z.gtb_ltb; destruct (Z.ltb_spec (blen data) start); lia).
  assert (Ht : s ≤ t ≤ blen data) by (unfold t, BigMin; rewrite Z.gtb_ltb; destruct (Z.ltb_spec (blen data) (s + size)); lia).
  assert (U : ∀ x, 0 ≤ x ≤ blen data → Uint64 x = x).
  { intros x Hx. unfold Uint64. rewrite Z.abs_eq by lia. apply u64_small. unfold is_u64, MaxUint64. lia. }
  rewrite (U s), (U t) by lia. destruct (slice_runs data s t) as [r ->]; [lia..|]. by eexists.
Qed.

Lemma mem_store8_runs off v m :
  0 ≤ off → mem_Len m ≤ mem_limit → off + 1 ≤ mem_Len m →
  ∃ m', mem_store8 (Int64 off) v m = Ret m' ∧ mem_Len m' = mem_Len m.
Proof.
  intros H1 H2 H3. unfold mem_store8. rewrite Int64_small by lia.
  rewrite (proj2 (Z.leb_le 0 off)), (proj2 (Z.ltb_lt off _)) by lia. eexists. split; [reflexivity|].
  unfold mem_Len, blen. simpl. f_equal. apply length_insert.
Qed.

(** ** Commands on the frame *)

Section Commands.
Context {B : Type} (Q : B → EVM AT ST * Frame → Prop) (e : EVM AT ST) (c : Contract) (m : Memory) (st : Stack) (pc : Z).

Lemma wp_pop x (k : Z → FM B) :
  wp (k x) Q (e, mkFrame c m st pc) → wp (pop ≫= k) Q (e, mkFrame c m (x :: st) pc).
Proof. done. Qed.
Lemma wp_peek x (k : Z → FM B) :
  wp (k x) Q (e, mkFrame c m (x :: st) pc) → wp (peek ≫= k) Q (e, mkFrame c m (x :: st) pc).
Proof. done. Qed.
Lemma wp_set_top x y (k : unit → FM B) :
  wp (k tt) Q (e, mkFrame c m (y :: st) pc) → wp (set_top y ≫= k) Q (e, mkFrame c m (x :: st) pc).
Proof. done. Qed.
Lemma wp_push y (k : unit → FM B) :
  wp (k tt) Q (e, mkFrame c m (y :: st) pc) → wp (push y ≫= k) Q (e, mkFrame c m st pc).
Proof. done. Qed.
Lemma wp_contract (k : Contract → FM B) :
  wp (k c) Q (e, mkFrame c m st pc) → wp (contract ≫= k) Q (e, mkFrame c m st pc).
Proof. done. Qed.
Lemma wp_frame (k : Frame → FM B) :
  wp (k (mkFrame c m st pc)) Q (e, mkFrame c m st pc) → wp (frame ≫= k) Q (e, mkFrame c m st pc).
Proof. done. Qed.
Lemma wp_set_frame g (k : unit → FM B) :
  wp (k tt) Q (e, g (mkFrame c m st pc)) → wp (set_frame g ≫= k) Q (e, mkFrame c m st pc).
Proof. done. Qed.
Lemma wp_set_contract g (k : unit → FM B) :
  wp (k tt) Q (e, mkFrame (g c) m st pc) → wp (set_contract g ≫= k) Q (e, mkFrame c m st pc).
Proof. done. Qed.
Lemma wp_greads {A} (g : EVM AT ST → A) (k : A → FM B) :
  wp (k (g e)) Q (e, mkFrame c m st pc) → wp (on_evm (greads g) ≫= k) Q (e, mkFrame c m st pc).
Proof. done. Qed.
Lemma wp_gmodify g (k : unit → FM B) :
  wp (k tt) Q (g e, mkFrame c m st pc) → wp (on_evm (gmodify g) ≫= k) Q (e, mkFrame c m st pc).
Proof. done. Qed.
Lemma wp_pure {A} (o : outcome A) a (k : A → FM B) :
  o = Ret a → wp (k a) Q (e, mkFrame c m st pc) → wp (pure_out o ≫= k) Q (e, mkFrame c m st pc).
Proof. by intros ->. Qed.
Lemma wp_Back n x (k : Z → FM B) :
  st !! n = Some x → wp (k x) Q (e, mkFrame c m st pc) → wp (Back n ≫= k) Q (e, mkFrame c m st pc).
Proof.
  intros H K. apply (wp_seq _ _ _ _ x (e, mkFrame c m st pc)); [|done].
  unfold Back, st_Back. erewrite GM_bind_run by reflexivity. simpl f_stack. unfold Stack in *. by rewrite H.
Qed.
End Commands.

(** ** Numbers on the stack *)

Lemma U256_nonneg x : 0 ≤ U256 x.
Proof. unfold U256. apply Z.land_nonneg. by right. Qed.

Lemma flag_nonneg b : 0 ≤ flag b.
Proof. by destruct b. Qed.

Lemma be_val_nonneg l : 0 ≤ be_val l.
Proof.
  induction l as [|x l IH] using rev_ind; [done|]. rewrite be_val_snoc. pose proof (byte_val_range x). lia.
Qed.

Lemma word_nonneg {w} (x : word w) : 0 ≤ (x : Z).
Proof. apply (word_bounds x). Qed.

Lemma Exp_word_nonneg n w r b : 0 ≤ r → 0 ≤ (Exp_word n w r b).1.
Proof.
  revert w r b. induction n as [|n IH]; intros w r b Hr; [done|]. cbn [Exp_word]. apply IH.
  destruct (_ =? 1); [apply U256_nonneg|done].
Qed.

Lemma Exp_nonneg b x : 0 ≤ Exp b x.
Proof.
  unfold Exp. assert (H : 0 ≤ 1) by done. revert H. generalize 1 as r. revert b. induction (Bits x) as [|w ws IH]; [done|].
  intros b r Hr. cbn [Exp_words]. pose proof (Exp_word_nonneg 64 w r b Hr) as Hn.
  destruct (Exp_word 64 w r b) as [r' b']. by apply IH.
Qed.

Lemma Byte_nonneg x p n : 0 ≤ Byte x p n.
Proof.
  unfold Byte. destruct (_ >=? _); [done|]. unfold bigEndianByteAt. destruct (Bits x !! _); [|done].
  by apply Z.mod_pos_bound.
Qed.

Lemma u64_nonneg x : 0 ≤ u64 x.
Proof. apply u64_range. Qed.


Lemma signed_op_nonneg x y : 0 ≤ sdiv x y ∧ 0 ≤ smod x y ∧ 0 ≤ slt x y ∧ 0 ≤ sgt x y.
Proof.
  unfold sdiv, smod, slt, sgt, flag. split_and!;
    repeat lazymatch goal with |- 0 <= (if ?b then _ else _) => destruct b end; apply U256_nonneg || done.
Qed.
Lemma sdiv_nonneg x y : 0 ≤ sdiv x y. Proof. apply signed_op_nonneg. Qed.
Lemma smod_nonneg x y : 0 ≤ smod x y. Proof. apply signed_op_nonneg. Qed.
Lemma slt_nonneg x y : 0 ≤ slt x y. Proof. apply signed_op_nonneg. Qed.
Lemma sgt_nonneg x y : 0 ≤ sgt x y. Proof. apply signed_op_nonneg. Qed.
Lemma signextend_nonneg x y : 0 ≤ signextend x y. Proof. apply U256_nonneg. Qed.
Lemma shl_nonneg x y : 0 ≤ shl x y. Proof. unfold shl. destruct (_ >=? _); [done|apply U256_nonneg]. Qed.
Lemma shr_nonneg x y : 0 ≤ shr x y. Proof. unfold shr. destruct (_ >=? _); [done|apply U256_nonneg]. Qed.
Lemma sar_nonneg x y : 0 ≤ sar x y. Proof. unfold sar. destruct (_ >=? _); apply U256_nonneg. Qed.
Lemma land_nonneg x y : 0 ≤ x → 0 ≤ Z.land x y. Proof. intros. apply Z.land_nonneg. by left. Qed.
Lemma lor_nonneg x y : 0 ≤ x → 0 ≤ y → 0 ≤ Z.lor x y. Proof. intros. by apply Z.lor_nonneg. Qed.
Lemma lxor_nonneg x y : 0 ≤ x → 0 ≤ y → 0 ≤ Z.lxor x y. Proof. intros. by apply Z.lxor_nonneg. Qed.
Lemma mem_Len_nonneg m : 0 ≤ mem_Len m. Proof. apply blen_nonneg. Qed.
End Machine.

Create HintDb nonneg.
#[export] Hint Resolve sdiv_nonneg smod_nonneg slt_nonneg sgt_nonneg signextend_nonneg shl_nonneg shr_nonneg : nonneg.
#[export] Hint Resolve sar_nonneg land_nonneg lor_nonneg lxor_nonneg blen_nonneg mem_Len_nonneg : nonneg.
#[export] Hint Resolve U256_nonneg flag_nonneg be_val_nonneg word_nonneg Exp_nonneg Byte_nonneg u64_nonneg : nonneg.

(** The memory an instruction needs, by the places of offset and length. *)
Definition no_need : Stack → Z := λ _, 0.
Definition need_at (off len : nat) : Stack → Z := λ st, calcMemSize (default 0 (st !! off)) (default 0 (st !! len)).
Definition need_const (off : nat) (l : Z) : Stack → Z := λ st, calcMemSize (default 0 (st !! off)) l.
Definition need_max (a b : Stack → Z) : Stack → Z := λ st, BigMax (a st) (b st).

(** ** Tactics *)

Ltac head_of m := lazymatch m with ?f _ => head_of f | _ => m end.


(** Open the frame with the items the instruction pops in view. *)
Ltac open_frame :=
  intros e f G F Hn Hpc Hneed; destruct f as [c mem st pc];
  destruct F as [[Hv Hg Hc Hi] Fs Hm Hp]; cbn [f_contract f_mem f_stack f_pc] in *;
  repeat (lazymatch type of Hn with
          | (S _ <= _)%nat =>
            destruct st as [|? st]; [by apply Nat.nle_succ_0 in Hn|rewrite length_cons in Hn; apply le_S_n in Hn]
          end);
  rewrite ?Forall_cons in Fs; destruct_and?; rewrite ?length_cons.

(** One command that only looks at the frame. *)
Ltac wstep :=
  lazymatch goal with
  | |- wp (mret _) _ _ => apply wp_ret
  | |- wp (pop ≫= _) _ _ => apply wp_pop
  | |- wp (peek ≫= _) _ _ => apply wp_peek
  | |- wp (set_top _ ≫= _) _ _ => apply wp_set_top
  | |- wp (push _ ≫= _) _ _ => apply wp_push
  | |- wp (contract ≫= _) _ _ => apply wp_contract
  | |- wp (frame ≫= _) _ _ => apply wp_frame
  | |- wp (set_frame _ ≫= _) _ _ => apply wp_set_frame
  | |- wp (set_contract _ ≫= _) _ _ => apply wp_set_contract
  | |- wp (on_evm (greads _) ≫= _) _ _ => apply wp_greads
  | |- wp (on_evm (gmodify _) ≫= _) _ _ => apply wp_gmodify
  | |- wp (if ?b then _ else _) _ _ => destruct b
  | |- wp ?m _ _ => let h := head_of m in unfold h
  end; cbn beta iota.

Ltac nonneg :=
  repeat lazymatch goal with
  | |- 0 <= (if ?b then _ else _) => destruct b
  | |- 0 <= (match ?o with Some _ => _ | None => _ end) => destruct o
  end;
  first [assumption | match goal with H : is_u64 ?x |- 0 <= ?x => apply H end | solve [eauto with nonneg] | lia].

(** The frame the instruction ends in. *)
Ltac close_frame :=
  constructor; simpl;
  [ first [assumption | by apply later_refl | by eauto using later_trans]
  | constructor; simpl; [by constructor|rewrite ?Forall_cons; split_and?; nonneg|lia|lia]
  | lia
  | lia
  | done
  | done ].

Ltac pure_op := open_frame; repeat wstep; close_frame.

(** An operation of the database, by what it promises. *)
Ltac wdb lem :=
  apply wp_bind; eapply wp_db; [eassumption|apply lem; first [solve [eauto using good_wf, gd_sound with nonneg] | done]|]; cbn beta;
  let r := fresh "r" in let e := fresh "e" in let L := fresh "L" in let R := fresh "R" in
  intros r e L R; pose proof (lt_good _ _ L).

Ltac open_memory :=
  open_frame; unfold need_at, need_const, need_max in *; cbn [lookup list_lookup default from_option id] in *.
Ltac wget := apply wp_mem_get; [assumption || lia..|]; intros.
Ltac wset := apply wp_mem_set; [assumption || lia..|]; intros.

