(* ===== verification/VmOps.v ===== *)
(** * Every instruction is safe

    An instruction that finds the items it pops on the stack, and the memory it
    needs, returns; it leaves a frame that is as it should be and as many items as
    the table says, and whatever it did to accounts is journaled. *)

From S2P Require Import Prelude Assets Interfaces AssetInfo StateTypes StateDB StateRevert StateSnapshot.
From S2P Require Import Votes DelegateState Accounts Transfer VmData StateSound VmGas Evm.
From S2P Require Import Instructions Interpreter Hex VmJump VmWp.

Section Safety.
Context `{TOL : Tolerance} {AT ST : Type} `{ENV : StateEnv AT ST slice} `{CRYPTO : CryptoOps}.
Variable ctx : Context.

#[local] Abbreviation EM := (GM (EVM AT ST)).
#[local] Abbreviation FM := (GM (EVM AT ST * Frame)).
#[local] Abbreviation ran := (bytes * option vmerr * Contract)%type.

(** The context of a block after the fork: the delegates' votes are not negative, nor
    is the gas price.  Without the delegates, the panic of the instructions that ask
    for them has to be tolerated. *)
Record ctx_ok : Prop := mkCtxOk {
  cx_fork : x_IsEpiphron ctx = true;
  cx_list : match x_DelegateList ctx with
            | Some l => ∀ a c, l !! a = Some c → 0 ≤ c_Vote c
            | None => tolerated nil_list_panic
            end;
  cx_price : 0 ≤ x_GasPrice ctx;
  cx_tries : empty_trie_opens (AT := AT) (ST := ST) (VL := slice)
}.

Definition exec_ok (calls : bool) (pops pushes : nat) (need : Stack → Z) (m : FM (bytes * option vmerr)) : Prop :=
  ∀ e f, good e → frame_ok f → (pops ≤ length (f_stack f))%nat → f_pc f ≤ code_limit + 64 →
  need (f_stack f) ≤ mem_Len (f_mem f) →
  wp m (λ _ ef, stepped calls (length (f_stack f) - pops + pushes) e f ef) (e, f).

(** ** Instructions that only look at the frame and at the block *)

Lemma opAdd_ok : exec_ok false 2 1 no_need opAdd.
Proof. pure_op. Qed.
Lemma opSub_ok : exec_ok false 2 1 no_need opSub.
Proof. pure_op. Qed.
Lemma opMul_ok : exec_ok false 2 1 no_need opMul.
Proof. pure_op. Qed.
Lemma opDiv_ok : exec_ok false 2 1 no_need opDiv.
Proof. pure_op. Qed.
Lemma opSdiv_ok : exec_ok false 2 1 no_need opSdiv.
Proof. pure_op. Qed.
Lemma opMod_ok : exec_ok false 2 1 no_need opMod.
Proof. pure_op. Qed.
Lemma opSmod_ok : exec_ok false 2 1 no_need opSmod.
Proof. pure_op. Qed.
Lemma opExp_ok : exec_ok false 2 1 no_need opExp.
Proof. pure_op. Qed.
Lemma opNot_ok : exec_ok false 1 1 no_need opNot.
Proof. pure_op. Qed.
Lemma opLt_ok : exec_ok false 2 1 no_need opLt.
Proof. pure_op. Qed.
Lemma opGt_ok : exec_ok false 2 1 no_need opGt.
Proof. pure_op. Qed.
Lemma opSlt_ok : exec_ok false 2 1 no_need opSlt.
Proof. pure_op. Qed.
Lemma opSgt_ok : exec_ok false 2 1 no_need opSgt.
Proof. pure_op. Qed.
Lemma opEq_ok : exec_ok false 2 1 no_need opEq.
Proof. pure_op. Qed.
Lemma opIszero_ok : exec_ok false 1 1 no_need opIszero.
Proof. pure_op. Qed.
Lemma opAnd_ok : exec_ok false 2 1 no_need opAnd.
Proof. pure_op. Qed.
Lemma opOr_ok : exec_ok false 2 1 no_need opOr.
Proof. pure_op. Qed.
Lemma opXor_ok : exec_ok false 2 1 no_need opXor.
Proof. pure_op. Qed.
Lemma opByte_ok : exec_ok false 2 1 no_need opByte.
Proof. pure_op. Qed.
Lemma opAddmod_ok : exec_ok false 3 1 no_need opAddmod.
Proof. pure_op. Qed.
Lemma opMulmod_ok : exec_ok false 3 1 no_need opMulmod.
Proof. pure_op. Qed.
Lemma opSHL_ok : exec_ok false 2 1 no_need opSHL.
Proof. pure_op. Qed.
Lemma opSHR_ok : exec_ok false 2 1 no_need opSHR.
Proof. pure_op. Qed.
Lemma opSAR_ok : exec_ok false 2 1 no_need opSAR.
Proof. pure_op. Qed.
Lemma opAddress_ok : exec_ok false 0 1 no_need opAddress.
Proof. pure_op. Qed.
Lemma opCaller_ok : exec_ok false 0 1 no_need opCaller.
Proof. pure_op. Qed.
Lemma opCallValue_ok : exec_ok false 0 1 no_need opCallValue.
Proof. pure_op. Qed.
Lemma opCallDataSize_ok : exec_ok false 0 1 no_need opCallDataSize.
Proof. pure_op. Qed.
Lemma opReturnDataSize_ok : exec_ok false 0 1 no_need opReturnDataSize.
Proof. pure_op. Qed.
Lemma opCodeSize_ok : exec_ok false 0 1 no_need opCodeSize.
Proof. pure_op. Qed.
Lemma opPop_ok : exec_ok false 1 0 no_need opPop.
Proof. pure_op. Qed.
Lemma opJumpdest_ok : exec_ok false 0 0 no_need opJumpdest.
Proof. pure_op. Qed.
Lemma opPc_ok : exec_ok false 0 1 no_need opPc.
Proof. pure_op. Qed.
Lemma opMsize_ok : exec_ok false 0 1 no_need opMsize.
Proof. pure_op. Qed.
Lemma opGas_ok : exec_ok false 0 1 no_need opGas.
Proof. pure_op. Qed.
Lemma opStop_ok : exec_ok false 0 0 no_need opStop.
Proof. pure_op. Qed.
Lemma opAsset_ok : exec_ok false 0 1 no_need opAsset.
Proof. pure_op. Qed.
Lemma opAssetValue_ok : exec_ok false 0 1 no_need opAssetValue.
Proof. pure_op. Qed.

Section Block.
Context (CX : ctx_ok).

Lemma opOrigin_ok : exec_ok false 0 1 no_need (opOrigin ctx).
Proof using CX. pose proof (cx_price CX). pure_op. Qed.
Lemma opGasprice_ok : exec_ok false 0 1 no_need (opGasprice ctx).
Proof using CX. pose proof (cx_price CX). pure_op. Qed.
Lemma opBlockhash_ok : exec_ok false 1 1 no_need (opBlockhash ctx).
Proof using CX. pose proof (cx_price CX). pure_op. Qed.
Lemma opCoinbase_ok : exec_ok false 0 1 no_need (opCoinbase ctx).
Proof using CX. pose proof (cx_price CX). pure_op. Qed.
Lemma opTimestamp_ok : exec_ok false 0 1 no_need (opTimestamp ctx).
Proof using CX. pose proof (cx_price CX). pure_op. Qed.
Lemma opNumber_ok : exec_ok false 0 1 no_need (opNumber ctx).
Proof using CX. pose proof (cx_price CX). pure_op. Qed.
Lemma opDifficulty_ok : exec_ok false 0 1 no_need (opDifficulty ctx).
Proof using CX. pose proof (cx_price CX). pure_op. Qed.
Lemma opGasLimit_ok : exec_ok false 0 1 no_need (opGasLimit ctx).
Proof using CX. pose proof (cx_price CX). pure_op. Qed.
End Block.

(** ** Instructions that read or write accounts *)

Lemma opSignExtend_ok : exec_ok false 2 1 no_need opSignExtend.
Proof. pure_op. Qed.

Lemma opBalance_ok : exec_ok false 1 1 no_need opBalance.
Proof. open_frame. do 2 wstep. wdb GetBalance_works. repeat wstep. close_frame. Qed.

Lemma opExtCodeSize_ok : exec_ok false 1 1 no_need opExtCodeSize.
Proof. open_frame. do 2 wstep. wdb GetCodeSize_works. repeat wstep. close_frame. Qed.

Lemma opBalanceOf_ok : exec_ok false 2 1 no_need opBalanceOf.
Proof. open_frame. do 3 wstep. wdb GetAssetBalance_works. repeat wstep. close_frame. Qed.

Lemma opSuicide_ok : exec_ok false 1 0 no_need opSuicide.
Proof.
  open_frame. do 2 wstep. wdb GetBalance_works. wstep.
  eapply wp_db2; [done|apply pay_out_works; [by apply good_wf|by apply gd_sound|apply R]|]. intros r' e' L'.
  assert (later e e') by (by eapply later_trans). pose proof (lt_good _ _ L'). repeat wstep. close_frame.
Qed.

(** ** Memory *)

Lemma opSha3_ok : exec_ok false 2 1 (need_at 0 1) (opSha3 ctx).
Proof.
  open_memory. do 3 wstep. wget. destruct (x_EnablePreimageRecording ctx).
  - wdb AddPreimage_works. repeat wstep. close_frame.
  - apply wp_bind. repeat wstep. close_frame.
Qed.

Lemma opMload_ok : exec_ok false 1 1 (need_const 0 32) opMload.
Proof. open_memory. do 2 wstep. wget. repeat wstep. close_frame. Qed.

Lemma opMstore_ok : exec_ok false 2 0 (need_const 0 32) opMstore.
Proof. open_memory. do 3 wstep. wset. repeat wstep. close_frame. Qed.

Lemma opMstore8_ok : exec_ok false 2 0 (need_const 0 1) opMstore8.
Proof.
  open_memory. do 4 wstep. cbn [f_mem].
  destruct (mem_store8_runs z (byte_of (Int64 z0)) mem) as (m' & E & Hm'); [done|done| |].
  { destruct (calcMemSize_fits z 1 _ H ltac:(done) Hneed); lia. }
  eapply wp_pure; [exact E|]. repeat wstep. close_frame.
Qed.

Lemma opReturn_ok : exec_ok false 2 0 (need_at 0 1) opReturn.
Proof. open_memory. do 3 wstep. wget. repeat wstep. close_frame. Qed.
Lemma opRevert_ok : exec_ok false 2 0 (need_at 0 1) opRevert.
Proof. open_memory. do 3 wstep. wget. repeat wstep. close_frame. Qed.

Lemma opCallDataLoad_ok : exec_ok false 1 1 no_need opCallDataLoad.
Proof.
  open_frame. do 3 wstep. destruct (getDataBig_runs (ct_Input c) z 32) as [b E]; [done..|].
  eapply wp_pure; [exact E|]. repeat wstep. close_frame.
Qed.

Lemma copy_ok (e0 e : EVM AT ST) c mem st pc data off doff len :
  later e0 e → contract_ok c → Forall (λ x, 0 ≤ x) st → mem_Len mem ≤ mem_limit → 0 ≤ pc →
  0 ≤ off → 0 ≤ doff → 0 ≤ len → calcMemSize off len ≤ mem_Len mem → blen data ≤ code_limit →
  wp ((b ← pure_out (getDataBig data doff len); mem_set off len b;; mret ([], None)) : FM (bytes * option vmerr))
    (λ _ ef, stepped false (length st) e0 (mkFrame c mem st pc) ef) (e, mkFrame c mem st pc).
Proof.
  intros L [Hv Hg Hc Hi] Fs Hm Hp H1 H2 H3 H4 Hd. destruct (getDataBig_runs data doff len) as [b E]; [done..|].
  eapply wp_pure; [exact E|]. wset. repeat wstep. close_frame.
Qed.

Lemma opCallDataCopy_ok : exec_ok false 3 0 (need_at 0 2) opCallDataCopy.
Proof.
  open_memory. unfold opCallDataCopy, copy_data. do 3 wstep. apply wp_bind. do 2 wstep.
  eapply wp_mono; [eapply (copy_ok e e); try eassumption; [by apply later_refl|by constructor]|].
  intros _ ef [? ? ? ? ? ?]. constructor; [done|done|simpl; lia|done..].
Qed.

Lemma opCodeCopy_ok : exec_ok false 3 0 (need_at 0 2) opCodeCopy.
Proof.
  open_memory. unfold opCodeCopy, copy_data. do 3 wstep. apply wp_bind. do 2 wstep.
  eapply wp_mono; [eapply (copy_ok e e); try eassumption; [by apply later_refl|by constructor]|].
  intros _ ef [? ? ? ? ? ?]. constructor; [done|done|simpl; lia|done..].
Qed.

Lemma opExtCodeCopy_ok : exec_ok false 4 0 (need_at 1 3) opExtCodeCopy.
Proof.
  open_memory. unfold opExtCodeCopy, copy_data. do 4 wstep. apply wp_bind. wdb GetCode_works. apply wp_ret.
  eapply wp_mono; [eapply (copy_ok e e0); try eassumption; [by constructor|]|].
  - destruct r as [code|]; [by apply R|done].
  - intros _ ef [? ? ? ? ? ?]. constructor; [done|done|simpl; lia|done..].
Qed.

Lemma opReturnDataCopy_ok : exec_ok false 3 0 (need_at 0 2) opReturnDataCopy.
Proof.
  open_memory. do 5 wstep. destruct ((BitLen (z0 + z1) >? 64) || _) eqn:Hb; [repeat wstep; close_frame|].
  apply orb_false_iff in Hb as [Hb Hl]. rewrite Z.gtb_ltb in Hb. apply Z.ltb_ge in Hb, Hl.
  pose proof (BitLen_spec (z0 + z1) ltac:(lia)). assert (2 ^ BitLen (z0 + z1) ≤ 2 ^ 64) by (apply Z.pow_le_mono_r; lia).
  assert (U : ∀ x, 0 ≤ x ≤ z0 + z1 → Uint64 x = x).
  { intros x Hx. unfold Uint64. rewrite Z.abs_eq by lia. apply u64_small. unfold is_u64, MaxUint64. lia. }
  rewrite (U z0), (U (z0 + z1)) in * by lia.
  destruct (slice_runs (e_returnData e) z0 (z0 + z1)) as [b E]; [lia..|]. eapply wp_pure; [exact E|].
  wset. repeat wstep. close_frame.
Qed.

(** ** Jumps *)

Lemma dest_has_safe h code dest d :
  0 ≤ dest → match dest_has h code dest d with
             | Ret (b, _) => b = true → Uint64 dest < blen code
             | Panic w => w = bitvec_panic
             end.
Proof.
  intros H0. unfold dest_has. destruct ((BitLen dest >=? 63) || _) eqn:Ho; [done|].
  apply orb_false_iff in Ho as [_ Hu]. rewrite Z.geb_leb in Hu. apply Z.leb_gt in Hu.
  assert (V : ∃ m d', (match d !! h with
    | Some m => Ret (m, d)
    | None => m ← codeBitmap code; Ret (m, <[h := m]> d)
    end) = Ret (m, d')).
  { destruct (d !! h); [by eexists _, _|]. destruct (codeBitmap_run code) as (m & -> & _). by eexists _, _. }
  destruct V as (m & d' & ->). cbn [mbind outcome_bind]. destruct (code !! Z.to_nat (Uint64 dest)) as [b|] eqn:Eb.
  2:{ apply lookup_ge_None in Eb. pose proof (u64_nonneg (Z.abs dest)). unfold Uint64, blen in *. lia. }
  destruct (byte_val b =? JUMPDEST); [|done]. unfold codeSegment. destruct (m !! Z.to_nat (Uint64 dest / 8)); cbn; auto.
Qed.

Lemma jump_to_ok e c m st pc0 pc pos :
  good e → contract_ok c → Forall (λ x, 0 ≤ x) st → mem_Len m ≤ mem_limit → 0 ≤ pc → 0 ≤ pos → pc ≤ pc0 + 32 →
  wp (jump_to pos) (λ _ ef, stepped false (length st) e (mkFrame c m st pc0) ef) (e, mkFrame c m st pc).
Proof.
  intros G [Hv Hg Hc Hi] Fs Hm Hp Hpos Hpc. unfold jump_to. apply wp_bind. unfold jump_ok. do 2 wstep.
  pose proof (dest_has_safe (ct_CodeHash c) (ct_Code c) pos (e_jumpdests e) Hpos) as Hd.
  apply wp_bind. unfold wp at 1, pure_out. destruct (dest_has _ _ _ _) as [[b d]|w]; [|subst w; apply tolerates_bitvec].
  do 2 wstep. assert (L : later e (e <| e_jumpdests := d |>)) by (apply later_fields; [done..|apply G]).
  assert (0 ≤ Uint64 pos) by apply u64_nonneg.
  destruct b; [specialize (Hd eq_refl)|]; repeat wstep; close_frame.
Qed.

Lemma opJump_ok : exec_ok false 1 0 no_need opJump.
Proof.
  open_frame. do 2 wstep. eapply wp_mono; [eapply (jump_to_ok e c mem st pc); try done; lia|].
  intros _ ef [? ? ? ? ? ?]. constructor; [done|done|simpl; lia|done..].
Qed.

Lemma opJumpi_ok : exec_ok false 2 0 no_need opJumpi.
Proof.
  open_frame. do 3 wstep. destruct (Z.sgn z0 =? 0).
  - repeat wstep. assert (u64 (pc + 1) = pc + 1) by (apply u64_small; unfold is_u64, MaxUint64, code_limit in *; lia). close_frame.
  - eapply wp_mono; [eapply (jump_to_ok e c mem st pc); try done; lia|].
    intros _ ef [? ? ? ? ? ?]. constructor; [done|done|simpl; lia|done..].
Qed.

(** ** Families *)

Lemma pop_topics_ok n : ∀ e c m st pc (Q : list hash → EVM AT ST * Frame → Prop),
  (n ≤ length st)%nat → (∀ l, Q l (e, mkFrame c m (drop n st) pc)) → wp (pop_topics n) Q (e, mkFrame c m st pc).
Proof.
  induction n as [|n IH]; intros e c m st pc Q Hn K; cbn [pop_topics]; [apply wp_ret, K|].
  destruct st as [|x st]; [simpl in Hn; lia|]. wstep. apply wp_bind, IH; [simpl in Hn; lia|]. intros l. apply wp_ret, K.
Qed.

Lemma makeLog_ok n : exec_ok false (n + 2) 0 (need_at 0 1) (makeLog ctx n).
Proof.
  intros e f G F Hn Hpc Hneed; destruct f as [c mem st pc]; destruct F as [[Hv Hg Hc Hi] Fs Hm Hp];
    cbn [f_contract f_mem f_stack f_pc] in *.
  destruct st as [|x [|y st]]; [simpl in Hn; lia..|]. rewrite !Forall_cons in Fs. destruct_and?. simpl in Hn.
  unfold need_at in Hneed. cbn [lookup list_lookup default from_option id] in Hneed. do 3 wstep. apply wp_bind.
  apply pop_topics_ok; [lia|]. intros l. wget. wstep. wdb AddLog_works. repeat wstep.
  assert (Forall (λ x, 0 ≤ x) (drop n st)) by (by apply Forall_drop).
  pose proof (length_drop st n). close_frame.
Qed.

Lemma makePush_ok n : 1 ≤ n ≤ 32 → exec_ok false 0 1 no_need (makePush n n).
Proof.
  intros Hr. open_frame. do 2 wstep. cbn [f_contract f_pc].
  rewrite (u64_small (pc + 1)) by (unfold is_u64, MaxUint64, code_limit in *; lia).
  rewrite (i64_small (pc + 1)) by (unfold code_limit in *; lia).
  pose proof (blen_nonneg (ct_Code c)). set (lo := if pc + 1 <? _ then _ else _). set (hi := if lo + n <? _ then _ else _).
  assert (Hlo : 0 ≤ lo ≤ blen (ct_Code c)) by (unfold lo; destruct (Z.ltb_spec (pc + 1) (blen (ct_Code c))); lia).
  assert (Hhi : lo ≤ hi ≤ blen (ct_Code c)) by (unfold hi; destruct (Z.ltb_spec (lo + n) (blen (ct_Code c))); lia).
  destruct (slice_runs (ct_Code c) lo hi) as [b E]; [lia..|]. eapply wp_pure; [exact E|]. repeat wstep.
  assert (u64 (pc + n) = pc + n) by (apply u64_small; unfold is_u64, MaxUint64, code_limit in *; lia). close_frame.
Qed.

Lemma stack_at (st : Stack) n : (n < length st)%nat → ∃ x, st !! n = Some x.
Proof. intros H. apply lookup_lt_is_Some. done. Qed.

Lemma makeDup_ok n : (0 < n)%nat → exec_ok false n (S n) no_need (makeDup n).
Proof.
  intros Hr. destruct n as [|n]; [lia|]. intros e f G F Hn Hpc Hneed; destruct f as [c mem st pc];
    destruct F as [[Hv Hg Hc Hi] Fs Hm Hp]; cbn [f_contract f_mem f_stack f_pc] in *.
  destruct (stack_at st n) as [x Hx]; [lia|]. assert (0 ≤ x) by (by rewrite Forall_lookup in Fs; eapply Fs). do 2 wstep.
  eapply wp_pure. { cbn [f_stack st_dup]. unfold st_Back. rewrite Hx. reflexivity. }
  repeat wstep. close_frame.
Qed.

Lemma makeSwap_ok n : (0 < n)%nat → exec_ok false (S n) (S n) no_need (makeSwap n).
Proof.
  intros Hr e f G F Hn Hpc Hneed; destruct f as [c mem st pc];
    destruct F as [[Hv Hg Hc Hi] Fs Hm Hp]; cbn [f_contract f_mem f_stack f_pc] in *.
  destruct (stack_at st n) as [x Hx]; [lia|]. destruct (stack_at st 0) as [y Hy]; [lia|].
  pose proof (proj1 (Forall_lookup _ _) Fs) as Fl. pose proof (Fl _ _ Hx). pose proof (Fl _ _ Hy). do 2 wstep.
  eapply wp_pure. { cbn [f_stack st_swap]. unfold st_Back. rewrite Hx. cbn [mbind outcome_bind]. rewrite Hy. reflexivity. }
  repeat wstep. assert (Forall (λ x, 0 ≤ x) (<[0%nat := x]> (<[n := y]> st))) by (by apply Forall_insert; [apply Forall_insert|]).
  assert (length (<[0%nat := x]> (<[n := y]> st)) = length st) by (etrans; apply length_insert). close_frame.
Qed.

(** ** Storage, assets and delegates *)

Lemma opSload_ok : ctx_ok → exec_ok false 1 1 no_need opSload.
Proof. intros CX. pose proof (cx_tries CX). open_frame. do 3 wstep. wdb GetState_works. repeat wstep. close_frame. Qed.

Lemma opSstore_ok : ctx_ok → exec_ok false 2 0 no_need opSstore.
Proof. intros CX. pose proof (cx_tries CX). open_frame. do 4 wstep. wdb SetState_works. repeat wstep. close_frame. Qed.

Lemma watch_later from to asset value (e : EVM AT ST) :
  good e → wp (watchInnerTx ctx from to asset value) (λ _ e', later e e') e.
Proof.
  intros G. unfold watchInnerTx. destruct (_ && _); [|by apply wp_ret, later_refl].
  eapply wp_run; [reflexivity|]. apply later_fields; [done..|apply G].
Qed.

Lemma opTransferAsset_ok : exec_ok false 3 1 no_need (opTransferAsset ctx).
Proof.
  open_frame. do 5 wstep. wdb CanTransfer_works. destruct r.
  - wdb Transfer_works. apply wp_bind, wp_on_evm. eapply wp_mono; [by apply watch_later|].
    intros ? e' L'. repeat wstep. close_frame.
  - repeat wstep. close_frame.
Qed.

Lemma foldl_nonneg {A} (f : A → Z) l : ∀ t, 0 ≤ t → 0 ≤ foldl (λ t p, u64 (t + f p)) t l.
Proof. induction l as [|x l IH]; intros t Ht; [done|]. apply IH, u64_nonneg. Qed.

Section Delegates.
Context (CX : ctx_ok).

Lemma wp_delegate_list {B} (k : gmap address DelegateState.Candidate → FM B) Q ef :
  (∀ l, (∀ x, 0 ≤ vote_of l x) → wp (k l) Q ef) → wp (delegate_list (AT := AT) (ST := ST) ctx ≫= k) Q ef.
Proof using CX.
  intros K. pose proof (cx_list CX) as H. apply wp_bind. unfold delegate_list. destruct (x_DelegateList ctx) as [l|]; [|exact H].
  apply K. intros x. unfold vote_of. destruct (l !! BigToAddress x) eqn:E; [by eapply H|done].
Qed.

Lemma opIsDelegate_ok : exec_ok false 1 1 no_need (opIsDelegate ctx).
Proof using CX. open_frame. do 2 wstep. apply wp_delegate_list. intros l _. repeat wstep. close_frame. Qed.
Lemma opGetCandidateVoteInfo_ok : exec_ok false 1 1 no_need (opGetCandidateVoteInfo ctx).
Proof using CX. open_frame. do 2 wstep. apply wp_delegate_list. intros l Hl. repeat wstep. pose proof (Hl z). close_frame. Qed.
Lemma opGetCandidateVoteInfoFors_ok : exec_ok false 5 1 no_need (opGetCandidateVoteInfoFors ctx).
Proof using CX. open_frame. do 6 wstep. apply wp_delegate_list. intros l _. repeat wstep. close_frame. Qed.
Lemma opGetCandidateTotalVote_ok : exec_ok false 1 1 no_need (opGetCandidateTotalVote ctx).
Proof using CX.
  open_frame. do 3 wstep. apply wp_delegate_list. intros l _. repeat wstep.
  pose proof (foldl_nonneg (λ p : address * DelegateState.Candidate, c_Vote p.2) (map_to_list l) 0 ltac:(done)). close_frame.
Qed.
End Delegates.
End Safety.
