(* ===== verification/VmCosts.v ===== *)
(** * Every cost is safe

    The functions of the gas table and of the memory table return on a frame with
    the items the instruction pops, do not change what the frame holds, and give a
    cost only for a memory that can be allocated. *)

From S2P Require Import Prelude Assets Interfaces AssetInfo StateTypes StateDB StateRevert StateSnapshot.
From S2P Require Import Votes DelegateState Accounts Transfer VmData StateSound VmGas Evm.
From S2P Require Import Instructions Interpreter VmWp.

Section Costs.
Context `{TOL : Tolerance} {AT ST : Type} `{ENV : StateEnv AT ST slice} `{CRYPTO : CryptoOps}.

#[local] Abbreviation FM := (GM (EVM AT ST * Frame)).

(** ** The memory table *)

(** [size] answers [need] and changes nothing. *)
Definition size_ok (pops : nat) (need : Stack → Z) (size : FM Z) : Prop := ∀ e f,
  (pops ≤ length (f_stack f))%nat → size (e, f) = Ret (need (f_stack f), (e, f)).

Lemma Back_run n (e : EVM AT ST) f : (n < length (f_stack f))%nat → Back n (e, f) = Ret (default 0 (f_stack f !! n), (e, f)).
Proof.
  intros H. unfold Back. erewrite GM_bind_run by reflexivity. unfold st_Back, Stack in *. cbn [snd].
  destruct (lookup_lt_is_Some_2 _ _ H) as [x ->]. done.
Qed.

Lemma size_at_ok p off len : (off < p)%nat → (len < p)%nat → size_ok p (need_at off len) (size_at off len).
Proof.
  intros H1 H2 e f Hn. unfold size_at. rewrite (GM_bind_run _ _ _ _ _ (Back_run off e f ltac:(lia))).
  by rewrite (GM_bind_run _ _ _ _ _ (Back_run len e f ltac:(lia))).
Qed.

Lemma size_const_ok p off l : (off < p)%nat → size_ok p (need_const off l) (size_const off l).
Proof. intros H1 e f Hn. unfold size_const. by rewrite (GM_bind_run _ _ _ _ _ (Back_run off e f ltac:(lia))). Qed.

Lemma size_max_ok p na nb a b : size_ok p na a → size_ok p nb b → size_ok p (need_max na nb) (size_max a b).
Proof.
  intros Ha Hb e f Hn. unfold size_max. rewrite (GM_bind_run _ _ _ _ _ (Ha e f Hn)).
  by rewrite (GM_bind_run _ _ _ _ _ (Hb e f Hn)).
Qed.

(** ** The gas table *)

(** The frame of a cost: only the price of the memory so far may change. *)
Record same_frame (f f' : Frame) : Prop := mkSameFrame {
  sf_contract : f_contract f' = f_contract f;
  sf_stack : f_stack f' = f_stack f;
  sf_pc : f_pc f' = f_pc f;
  sf_store : m_store (f_mem f') = m_store (f_mem f)
}.

Lemma same_frame_refl f : same_frame f f.
Proof. by constructor. Qed.

(** A cost that is at least [low]; [lim]: it includes that of the memory, which is
    then within its limit. *)
Definition priced (lim : bool) (low ms : Z) (e : EVM AT ST) (f : Frame) (r : Z + vmerr) (ef : EVM AT ST * Frame) : Prop :=
  later e ef.1 ∧ same_frame f ef.2 ∧
  match r with inl c => is_u64 c ∧ low ≤ c ∧ (lim = true → ms ≤ mem_limit) | inr _ => True end.

(** The costs after the fork. *)
Definition gas_ok (pops : nat) (lim : bool) (low : Z) (g : gasFunc) : Prop := ∀ ms e f,
  good e → (pops ≤ length (f_stack f))%nat → wp (g GasTableEpiphron ms) (priced lim low ms e f) (e, f).

Lemma gas_weaken p p' lim low low' g : gas_ok p lim low g → (p ≤ p')%nat → low' ≤ low → gas_ok p' lim low' g.
Proof.
  intros H Hp Hl ms e f G Hn. eapply wp_mono; [apply H; [done|lia]|]. intros [c|err] ef (L & S & R); [|by split_and!].
  destruct R as (? & ? & ?). split_and!; [done..|lia|done].
Qed.

(** Steps of a computation of a cost that may overflow. *)
Section Steps.
Context {B : Type} (k : Z → FM (B + vmerr)) (Q : B + vmerr → EVM AT ST * Frame → Prop) (s : EVM AT ST * Frame).

Lemma wp_bind_err m : wp m (λ r s', match r with inl a => wp (k a) Q s' | inr err => Q (inr err) s' end) s → wp (bind_err m k) Q s.
Proof. intros H. unfold bind_err. apply wp_bind. eapply wp_mono; [exact H|]. by intros [a|err] s'. Qed.

Lemma SafeAdd_exact a b : is_u64 a → is_u64 b → (SafeAdd a b).2 = false → (SafeAdd a b).1 = a + b ∧ is_u64 (a + b).
Proof.
  unfold SafeAdd, is_u64, MaxUint64. cbn [fst snd]. rewrite Z.gtb_ltb. intros Ha Hb H%Z.ltb_ge.
  assert (is_u64 (a + b)) by (unfold is_u64, MaxUint64; lia). by rewrite u64_small.
Qed.

Lemma wp_add a b :
  is_u64 a → is_u64 b → (∀ err, Q (inr err) s) → (is_u64 (a + b) → wp (k (a + b)) Q s) →
  wp (bind_err (checked (SafeAdd a b)) k) Q s.
Proof.
  intros Ha Hb He K. apply wp_bind_err. unfold checked. apply wp_ret. destruct (SafeAdd a b).2 eqn:E; [apply He|].
  destruct (SafeAdd_exact a b Ha Hb E) as [-> Hu]. auto.
Qed.

Lemma wp_big x : (∀ err, Q (inr err) s) → (∀ g, is_u64 g → wp (k g) Q s) → wp (bind_err (checked (bigUint64 x)) k) Q s.
Proof.
  intros He K. apply wp_bind_err. unfold checked. apply wp_ret. destruct (bigUint64 x).2; [apply He|]. apply K, u64_range.
Qed.

Lemma wp_mul a b : (∀ err, Q (inr err) s) → (∀ g, is_u64 g → wp (k g) Q s) → wp (bind_err (checked (SafeMul a b)) k) Q s.
Proof.
  intros He K. apply wp_bind_err. unfold checked. apply wp_ret. destruct (SafeMul a b).2; [apply He|]. apply K.
  unfold SafeMul. destruct (_ || _); [|apply u64_range]. unfold is_u64, MaxUint64; cbn; lia.
Qed.
End Steps.

Lemma last_add lim low ms e f a b ef :
  later e ef.1 → same_frame f ef.2 → is_u64 a → is_u64 b → low ≤ a + b → (lim = true → ms ≤ mem_limit) →
  wp (checked (SafeAdd a b)) (priced lim low ms e f) ef.
Proof.
  intros L S Ha Hb Hl Hm. unfold checked. apply wp_ret. split_and!; [done..|]. destruct (SafeAdd a b).2 eqn:E; [done|].
  destruct (SafeAdd_exact a b Ha Hb E) as [-> Hu]. by split_and!.
Qed.

Lemma failed_cost lim low ms e f ef : later e ef.1 → same_frame f ef.2 → ∀ err, priced lim low ms e f (inr err) ef.
Proof. intros L S err. by split_and!. Qed.

Lemma memoryGasCost_ok ms e f : good e → wp (memoryGasCost ms) (priced true 0 ms e f) (e, f).
Proof.
  intros G. unfold memoryGasCost. assert (Z0 : is_u64 0) by (split; unfold MaxUint64; lia).
  destruct (Z.eqb_spec ms 0) as [->|Hn].
  { apply wp_ret. split_and!; [by apply later_refl|apply same_frame_refl|done..]. }
  rewrite Z.gtb_ltb. destruct (Z.ltb_spec 0xffffffffe0 ms) as [Hl|Hl].
  { apply wp_ret. apply failed_cost; [by apply later_refl|apply same_frame_refl]. }
  apply wp_bind. eapply wp_run; [reflexivity|]. destruct (_ >? _).
  - apply wp_bind. eapply wp_run; [reflexivity|]. apply wp_ret.
    split_and!; [by apply later_refl|by constructor|apply u64_range|apply u64_nonneg|done].
  - apply wp_ret. split_and!; [by apply later_refl|apply same_frame_refl|done..].
Qed.

Ltac open_cost :=
  intros ms e f G Hn; destruct f as [c mem st pc]; cbn [f_stack] in Hn;
  repeat (lazymatch type of Hn with
          | (S _ <= _)%nat =>
            destruct st as [|? st]; [by apply Nat.nle_succ_0 in Hn|rewrite length_cons in Hn; apply le_S_n in Hn]
          end).

Ltac is_u64_const := first [assumption | apply u64_range | solve [split; vm_compute; first [reflexivity | discriminate]]].

(** The cost of the memory, first in a computation. *)
Ltac gmem :=
  apply wp_bind_err; eapply wp_mono; [by apply memoryGasCost_ok|];
  let L := fresh "L" in let Hs := fresh "Hs" in let Hr := fresh "Hr" in
  intros [gas|err] [e' f'] (L & Hs & Hr); cbn [fst snd] in *;
  [destruct Hr as (? & ? & ?)|by apply failed_cost; [eauto using later_trans|]];
  destruct f' as [c' mem' st' pc'], Hs as [Ec Es Ep Em]; cbn [f_contract f_stack f_pc f_mem] in *; subst c' st' pc'.
Ltac gerr := apply failed_cost; [first [assumption | by apply later_refl | by eauto using later_trans]|by constructor].
Ltac gchk :=
  first [ apply wp_add; [is_u64_const|is_u64_const|gerr|intros ?]
        | apply wp_big; [gerr|intros ? ?]
        | apply wp_mul; [gerr|intros ? ?] ].
Ltac gback := eapply wp_Back; [reflexivity|]; cbn beta zeta.
Ltac gend :=
  apply last_add; cbn [fst snd];
  [first [assumption | by apply later_refl | by eauto using later_trans]|by constructor|is_u64_const|is_u64_const| |done].
Ltac u64_lia := repeat match goal with H : is_u64 _ |- _ => destruct H end; cbn in *; lia.

Lemma const_ok gas : is_u64 gas → gas_ok 0 false gas (constGasFunc gas).
Proof. intros H ms e f G _. apply wp_ret. by split_and!; [apply later_refl|apply same_frame_refl|..]. Qed.

Lemma gasCopy_ok base n ms e f :
  good e → is_u64 base → (n < length (f_stack f))%nat → wp (gasCopy base n ms) (priced true base ms e f) (e, f).
Proof.
  intros G Hb Hn. destruct f as [c mem st pc]. unfold gasCopy. gmem. gchk.
  destruct (lookup_lt_is_Some_2 st n Hn) as [x Hx]. eapply wp_Back; [exact Hx|]. cbn beta. gchk. gchk. gend. u64_lia.
Qed.

Lemma gasExp_ok : gas_ok 2 false 4 gasExp.
Proof. open_cost. unfold gasExp. gback. gend. pose proof (u64_nonneg ((BitLen z0 + 7) / 8 * gt_ExpByte GasTableEpiphron)). unfold GasSlowStep. lia. Qed.
Lemma gasSha3_ok : gas_ok 2 true 2 gasSha3.
Proof. open_cost. unfold gasSha3. gmem. gchk. gback. gchk. gchk. gend. unfold Sha3Gas in *. u64_lia. Qed.
Lemma gasMem_ok base ms e f : good e → is_u64 base → wp (gasMem base ms) (priced true base ms e f) (e, f).
Proof. intros G Hb. destruct f as [c mem st pc]. unfold gasMem. gmem. gend. lia. Qed.
Lemma makeGasLog_ok n : gas_ok 2 true 24 (makeGasLog n).
Proof.
  open_cost. unfold makeGasLog. gback. gchk. gmem. gchk. gchk. gchk. gend. pose proof (u64_nonneg (n * LogTopicGas)).
  unfold LogGas in *. u64_lia.
Qed.

Lemma gasSStore_ok : empty_trie_opens (AT := AT) (ST := ST) (VL := slice) → gas_ok 2 false 310 gasSStore.
Proof.
  intros Open. open_cost. unfold gasSStore. gback. gback. apply wp_contract. wdb GetState_works.
  assert (U : ∀ x, x = 310 ∨ x = 1250 → is_u64 x ∧ 310 ≤ x) by (intros x [-> | ->]; split; is_u64_const || lia).
  destruct (_ && _); [apply wp_ret; split_and!; [done|by constructor|apply U; by right..|done]|].
  destruct (_ && _); [|apply wp_ret; split_and!; [done|by constructor|apply U; by left..|done]].
  wdb AddRefund_works. apply wp_ret. split_and!; [by eapply later_trans|by constructor|apply U; by left..|done].
Qed.

Lemma gasSuicide_ok : gas_ok 0 false 0 gasSuicide.
Proof.
  open_cost. unfold gasSuicide. apply wp_contract. wdb HasSuicided_works. destruct r.
  - apply wp_bind, wp_ret, wp_ret. by split_and!; [|constructor|is_u64_const|..].
  - wdb AddRefund_works. apply wp_ret. split_and!; [by eapply later_trans|by constructor|is_u64_const|done|done].
Qed.

Lemma callGas_u64 gt avail base top g : callGas gt avail base top = inl g → is_u64 g.
Proof.
  unfold callGas. pose proof (u64_range (avail - base)) as [H1 H2]. set (a := u64 (avail - base)) in *.
  assert (Ha : is_u64 (a - a / 64)).
  { assert (0 ≤ a / 64 ≤ a) by (split; [apply Z.div_pos; lia|apply Z.div_le_upper_bound; lia]). unfold is_u64. lia. }
  repeat case_match; intros [= <-]; done || apply u64_range.
Qed.

Lemma callCosts_ok gt gas ms e0 e c mem mem0 top st pc :
  later e0 e → m_store mem = m_store mem0 → ms ≤ mem_limit → is_u64 gas → 1 ≤ gas →
  wp (callCosts gt gas) (priced true 1 ms e0 (mkFrame c mem0 (top :: st) pc)) (e, mkFrame c mem (top :: st) pc).
Proof.
  intros L Hm Hms Hu H1. unfold callCosts. apply wp_contract. gback.
  assert (LL : ∀ g, is_u64 g → later e0 (e <| e_callGasTemp := g |>)).
  { intros g Hg. eapply later_trans; [exact L|]. by apply later_fields; [apply L|..]. }
  destruct (callGas gt (ct_Gas c) gas top) as [g|err] eqn:E; apply wp_gmodify.
  - apply callGas_u64 in E. apply last_add; [by apply LL|by constructor|done|done|u64_lia|done].
  - apply wp_ret. apply failed_cost; [apply LL; is_u64_const|by constructor].
Qed.

Lemma gasCall_ok : gas_ok 7 true 1 gasCall.
Proof.
  open_cost. unfold gasCall. gback. gback. wdb Exist_works. cbv zeta.
  set (base := if Z.sgn z1 =? 0 then _ else _).
  assert (Hb : is_u64 base ∧ 45 ≤ base).
  { unfold base. destruct r, (Z.sgn z1 =? 0); (split; [is_u64_const|by vm_compute]). }
  destruct Hb as [Hu Hb]. gmem. gchk. apply callCosts_ok; [by eapply later_trans|done|auto|done|lia].
Qed.
Lemma gasCallCode_ok : gas_ok 7 true 1 gasCallCode.
Proof.
  open_cost. unfold gasCallCode. gback. set (base := if Z.sgn z1 =? 0 then _ else _).
  assert (Hb : is_u64 base ∧ 45 ≤ base) by (unfold base; destruct (Z.sgn z1 =? 0); (split; [is_u64_const|by vm_compute])).
  destruct Hb as [Hu Hb]. gmem. gchk. apply callCosts_ok; [done|done|auto|done|lia].
Qed.
Lemma gasDelegateCall_ok : gas_ok 6 true 1 gasDelegateCall.
Proof.
  open_cost. unfold gasDelegateCall. gmem. gchk. apply callCosts_ok; [done|done|auto|done|].
  change (gt_Calls GasTableEpiphron) with 45. lia.
Qed.

Lemma gasCallDataCopy_ok : gas_ok 3 true 1 gasCallDataCopy.
Proof. intros ms e f G Hn. apply gasCopy_ok; [done|is_u64_const|lia]. Qed.
Lemma gasReturnDataCopy_ok : gas_ok 3 true 1 gasReturnDataCopy.
Proof. intros ms e f G Hn. apply gasCopy_ok; [done|is_u64_const|lia]. Qed.
Lemma gasCodeCopy_ok : gas_ok 3 true 1 gasCodeCopy.
Proof. intros ms e f G Hn. apply gasCopy_ok; [done|is_u64_const|lia]. Qed.
Lemma gasExtCodeCopy_ok : gas_ok 4 true 45 gasExtCodeCopy.
Proof. intros ms e f G Hn. apply gasCopy_ok; [done|is_u64_const|lia]. Qed.
Lemma gasMLoad_ok : gas_ok 0 true 1 gasMLoad.
Proof. intros ms e f G Hn. apply gasMem_ok; [done|is_u64_const]. Qed.
Lemma gasMStore_ok : gas_ok 0 true 1 gasMStore.
Proof. intros ms e f G Hn. apply gasMem_ok; [done|is_u64_const]. Qed.
Lemma gasMStore8_ok : gas_ok 0 true 1 gasMStore8.
Proof. intros ms e f G Hn. apply gasMem_ok; [done|is_u64_const]. Qed.
Lemma gasCreate_ok : gas_ok 0 true 2000 gasCreate.
Proof. intros ms e f G Hn. apply gasMem_ok; [done|is_u64_const]. Qed.
Lemma gasReturn_ok : gas_ok 0 true 0 gasReturn.
Proof. intros ms e f G Hn. by apply memoryGasCost_ok. Qed.
Lemma gasRevert_ok : gas_ok 0 true 0 gasRevert.
Proof. intros ms e f G Hn. by apply memoryGasCost_ok. Qed.

(** Costs that are a number of the table. *)
Lemma gasBalance_ok : gas_ok 0 false 25 gasBalance.
Proof. apply (const_ok 25). is_u64_const. Qed.
Lemma gasExtCodeSize_ok : gas_ok 0 false 45 gasExtCodeSize.
Proof. apply (const_ok 45). is_u64_const. Qed.
Lemma gasSLoad_ok : gas_ok 0 false 20 gasSLoad.
Proof. apply (const_ok 20). is_u64_const. Qed.
Lemma gasPush_ok : gas_ok 0 false 1 gasPush.
Proof. apply (const_ok 1). is_u64_const. Qed.
Lemma gasDup_ok : gas_ok 0 false 1 gasDup.
Proof. apply (const_ok 1). is_u64_const. Qed.
Lemma gasSwap_ok : gas_ok 0 false 1 gasSwap.
Proof. apply (const_ok 1). is_u64_const. Qed.
Lemma gasBalanceOf_ok : gas_ok 0 false 50 gasBalanceOf.
Proof. apply (const_ok 50). is_u64_const. Qed.
Lemma gasTransferAsset_ok : gas_ok 0 false 595 gasTransferAsset.
Proof. intros ms e f G Hn. unfold gasTransferAsset. gend. by vm_compute. Qed.
End Costs.

Create HintDb vmgas.
#[export] Hint Resolve gasExp_ok gasSha3_ok gasBalance_ok gasCallDataCopy_ok gasCodeCopy_ok gasExtCodeSize_ok : vmgas.
#[export] Hint Resolve gasExtCodeCopy_ok gasReturnDataCopy_ok gasMLoad_ok gasMStore_ok gasMStore8_ok gasSLoad_ok : vmgas.
#[export] Hint Resolve gasSStore_ok gasPush_ok gasDup_ok gasSwap_ok makeGasLog_ok gasCreate_ok gasCall_ok : vmgas.
#[export] Hint Resolve gasCallCode_ok gasDelegateCall_ok gasReturn_ok gasRevert_ok gasSuicide_ok gasBalanceOf_ok : vmgas.
#[export] Hint Resolve gasTransferAsset_ok : vmgas.
