(* ===== verification/VmCalls.v ===== *)
(** * Calls are safe, and a failed call leaves no trace

    The five ways code is entered, given an interpreter that is safe: they return,
    snapshots taken before stay valid, and when a message call fails every account
    answers as before it. *)

From S2P Require Import Prelude Assets Interfaces AssetInfo StateTypes StateDB StateRevert StateSnapshot.
From S2P Require Import Votes DelegateState Accounts Transfer VmData StateSound VmGas Evm.
From S2P Require Import Instructions Interpreter VmWp VmOps VoteCount.

Section Calls.
Context `{TOL : Tolerance} {AT ST : Type} `{ENV : StateEnv AT ST slice} `{CRYPTO : CryptoOps}.
Variable ctx : Context.
Context (CX : ctx_ok (AT := AT) (ST := ST) ctx).

#[local] Abbreviation SDB := (StateDB AT ST slice).
#[local] Abbreviation EM := (GM (EVM AT ST)).
#[local] Abbreviation ran := (bytes * option vmerr * Contract)%type.
#[local] Infix "≈" := sdb_equiv (at level 70).

(** ** Snapshots *)

Lemma reads_equiv s s' : reads s s' → s' ≈ s.
Proof. intros [_ E L H]. constructor; [done|by intros; rewrite L|]. intros a. by rewrite H. Qed.

Lemma snapshot_taken e :
  good e → ∃ s1, Snapshot (e_db e) = Ret (s_nextRevisionId (e_db e), s1) ∧
    later e (e <| e_db := s1 |>) ∧ since (e_db e) (s_nextRevisionId (e_db e)) s1 ∧ ∀ x, live s1 x = live (e_db e) x.
Proof.
  intros G. pose proof G as [I S T]. assert (E := Snapshot_run (e_db e)). eexists. split; [exact E|].
  assert (L : ∀ x, live _ x = live (e_db e) x) by (intros x; reflexivity). split_and!; [|by eapply since_Snapshot|exact L].
  constructor; [|done..| |by apply flow_reads|done]; simpl.
  - constructor; [by eapply Snapshot_Inv|by eapply sound_live|done].
  - intros s0 id Hs. by eapply since_nested.
Qed.

(** Reverting to the snapshot [e0] was taken with. *)
Lemma revert_later e0 e :
  good e0 → later e0 e → since (e_db e0) (s_nextRevisionId (e_db e0)) (e_db e) →
  ∃ s, RevertToSnapshot (s_nextRevisionId (e_db e0)) true (e_db e) = Ret (tt, s) ∧ s ≈ e_db e0 ∧ later e0 (e <| e_db := s |>).
Proof.
  intros G0 [G D R H S F B] N. destruct (since_restore _ _ _ N) as (s & E & Q & _). exists s. split_and!; [done..|].
  constructor; [|done..| |apply equiv_flow; by symmetry|by apply equiv_base]; simpl.
  - constructor; [eapply revert_Inv; [apply G|exact E]|eapply sound_equiv; [symmetry; exact Q|apply G0]|apply G].
  - intros s0 id Hs. eapply since_revert; [by apply S| |exact E].
    destruct Hs as [I (rs & Hr) _]. pose proof (ro_next _ (inv_revs _ (gd_Inv _ G0))) as Fr.
    rewrite Hr, Forall_app, Forall_cons in Fr. apply Fr.
Qed.

(** ** Precompiled contracts *)

Lemma UseGas_u64 g c : 0 ≤ g → is_u64 (ct_Gas c) → is_u64 (ct_Gas (UseGas g c).2).
Proof.
  unfold UseGas, is_u64. intros H1 H2. destruct (Z.ltb_spec (ct_Gas c) g); simpl; [done|]. lia.
Qed.

Lemma getData_cases data start size : (∃ b, getData data start size = Ret b) ∨ getData data start size = Panic getData_panic.
Proof. unfold getData. destruct (slice_bytes _ _ _); eauto. Qed.

Lemma modexp_head_cases input :
  (∃ r, modexp_head input = Ret r) ∨ modexp_head input = Panic getData_panic.
Proof.
  unfold modexp_head. destruct (getData_cases input 0 32) as [[b ->]| ->]; [|by right].
  destruct (getData_cases input 32 32) as [[b' ->]| ->]; [|by right].
  destruct (getData_cases input 64 32) as [[b'' ->]| ->]; [|by right]. left. by eexists.
Qed.

Lemma RequiredGas_cases p input :
  (∃ g, RequiredGas p input = Ret g ∧ 0 ≤ g) ∨ RequiredGas p input = Panic getData_panic.
Proof.
  destruct p; try (left; eexists; split; [reflexivity|]; first [apply u64_nonneg|done]).
  cbn [RequiredGas]. unfold bigModExp_RequiredGas. destruct (modexp_head_cases input) as [[[[[b x] m] rest] ->]| ->]; [|by right].
  cbn [mbind outcome_bind].
  assert (H : (∃ z, (if blen rest <=? b then Ret 0 else if x >? 32 then h ← getData rest (Uint64 b) 32; Ret (be_val h)
             else h ← getData rest (Uint64 b) (Uint64 x); Ret (be_val h)) = Ret z) ∨
           (if blen rest <=? b then Ret 0 else if x >? 32 then h ← getData rest (Uint64 b) 32; Ret (be_val h)
             else h ← getData rest (Uint64 b) (Uint64 x); Ret (be_val h)) = Panic getData_panic).
  { destruct (_ <=? _); [by left; eexists|]. destruct (x >? 32).
    - destruct (getData_cases rest (Uint64 b) 32) as [[y ->]| ->]; [by left; eexists|by right].
    - destruct (getData_cases rest (Uint64 b) (Uint64 x)) as [[y ->]| ->]; [by left; eexists|by right]. }
  destruct H as [[z ->]| ->]; [|by right]. left. eexists. split; [reflexivity|].
  destruct (_ >? 64); [done|apply u64_nonneg].
Qed.

Lemma precompiled_Run_cases p input :
  (∃ r, precompiled_Run p input = Ret r) ∨ precompiled_Run p input = Panic getData_panic.
Proof.
  destruct p; try (left; by eexists). cbn [precompiled_Run]. unfold bigModExp_Run.
  destruct (modexp_head_cases input) as [[[[[b x] m] rest] ->]| ->]; [|by right]. cbn [mbind outcome_bind].
  destruct (_ && _); [by left; eexists|].
  destruct (getData_cases rest 0 (Uint64 b)) as [[y ->]| ->]; [|by right].
  destruct (getData_cases rest (Uint64 b) (Uint64 x)) as [[y' ->]| ->]; [|by right].
  destruct (getData_cases rest (u64 (Uint64 b + Uint64 x)) (Uint64 m)) as [[y'' ->]| ->]; [|by right].
  cbn [mbind outcome_bind]. left. by destruct (_ =? 0); eexists.
Qed.

Lemma RunPrecompiled_safe p input c :
  is_u64 (ct_Gas c) → match RunPrecompiledContract p input c with
                      | Ret (_, c') => is_u64 (ct_Gas c')
                      | Panic w => w = getData_panic
                      end.
Proof.
  intros Hc. unfold RunPrecompiledContract. destruct (RequiredGas_cases p input) as [(g & -> & Hg)| ->]; [|done].
  cbn [mbind outcome_bind]. pose proof (UseGas_u64 g c Hg Hc) as Hu. destruct (UseGas g c) as [[] c']; [|done].
  by destruct (precompiled_Run_cases p input) as [[r ->]| ->].
Qed.

(** ** Running a contract *)

(** What an interpreter promises its callers. *)
Definition run_ok (Run : Contract → bytes → EM ran) : Prop := ∀ c input e,
  good e → contract_ok c → blen input ≤ code_limit →
  wp (Run c input) (λ r e', later e e' ∧ is_u64 (ct_Gas r.2)) e.

Variable Run : Contract → bytes → EM ran.
Context (RUN : run_ok Run).

Lemma run_safe c input e :
  good e → contract_ok c → blen input ≤ code_limit →
  wp (run Run c input) (λ r e', later e e' ∧ is_u64 (ct_Gas r.2)) e.
Proof using RUN.
  intros G C Hi. unfold run. destruct (ct_CodeAddr c ≫= PrecompiledContracts) as [p|]; [|by apply RUN].
  pose proof (RunPrecompiled_safe p input c (co_Gas _ C)) as H. unfold wp, pure_out.
  destruct (RunPrecompiledContract p input c) as [[[r err] c']|w]; [split; [by apply later_refl|done]|subst w; apply tolerates_getData].
Qed.

(** What a message call ends in, when it started in [e0]. *)
Definition called (e0 : EVM AT ST) (r : bytes * Z * option vmerr) (e : EVM AT ST) : Prop :=
  later e0 e ∧ is_u64 r.1.2 ∧ (r.2 ≠ None → e_db e ≈ e_db e0).

(** [e] was reached from [e0] after a snapshot of it. *)
Definition within (e0 e : EVM AT ST) : Prop :=
  good e0 ∧ later e0 e ∧ since (e_db e0) (s_nextRevisionId (e_db e0)) (e_db e).

Lemma within_later e0 e e' : within e0 e → later e e' → within e0 e'.
Proof. intros (G & L & S) L'. split_and!; [done|by eapply later_trans|by apply L']. Qed.

Lemma spent_u64 c err : is_u64 (ct_Gas c) →
  is_u64 (ct_Gas (if decide (err = errExecutionReverted) then c else (UseGas (ct_Gas c) c).2)).
Proof. intros H. destruct (decide _); [done|]. apply UseGas_u64; [apply H|done]. Qed.

Lemma after_run_ok e0 e r :
  within e0 e → is_u64 (ct_Gas r.2) → wp (after_run ctx (s_nextRevisionId (e_db e0)) r) (called e0) e.
Proof using CX.
  intros (G0 & L & S) Hg. unfold after_run. destruct r as [[ret [err|]] c]; [|by apply wp_ret].
  destruct (revert_later e0 e G0 L S) as (s & E & Q & L'). rewrite (cx_fork _ CX).
  apply (wp_seq _ _ _ _ tt (e <| e_db := s |>)); [unfold on_db; by rewrite E|].
  apply wp_ret. split_and!; [done|by apply spent_u64|done].
Qed.

Lemma wp_on_db_later {A B} (m : GM SDB A) Q1 (k : A → EM B) Q e :
  good e → works true m (e_db e) Q1 → (∀ r s, advances true (e_db e) s → later e (e <| e_db := s |>) → Q1 r s → wp (k r) Q (e <| e_db := s |>)) →
  wp (on_db m ≫= k) Q e.
Proof.
  intros G Hm K. apply wp_bind. eapply wp_on_db; [exact Hm|]. intros r s A1 H. apply (K r s A1); [by apply later_db|done].
Qed.

(** The database operations of a call. *)
Ltac cdb lem :=
  eapply wp_on_db_later; [assumption|apply lem; solve [eauto using good_wf, gd_sound]|]; cbn beta;
  let r := fresh "r" in let s := fresh "s" in let A := fresh "A" in let L := fresh "L" in let R := fresh "R" in
  intros r s A L R; pose proof (lt_good _ _ L).

Lemma call_code_ok e0 e addr input c :
  within e0 e → blen input ≤ code_limit → 0 ≤ ct_value c → is_u64 (ct_Gas c) → ct_Input c = [] →
  wp (call_code ctx Run (s_nextRevisionId (e_db e0)) addr input c) (called e0) e.
Proof using CX RUN.
  intros W Hi Hv Hg He. assert (G : good e) by apply W. unfold call_code. cdb GetCodeHash_works. cdb GetCode_works.
  apply wp_bind. eapply wp_mono; [apply run_safe; [done| |done]|].
  - constructor; simpl; [done|done| |by rewrite He]. destruct r0 as [code|]; [by apply R0|done].
  - intros r1 e1 [L1 Hg1]. apply after_run_ok; [|done]. by do 3 (eapply within_later; [|eassumption]).
Qed.

Lemma wp_Snapshot {B} (k : Z → EM B) Q e :
  good e → (∀ s, within e (e <| e_db := s |>) → (∀ x, live s x = live (e_db e) x) →
            wp (k (s_nextRevisionId (e_db e))) Q (e <| e_db := s |>)) →
  wp (on_db Snapshot ≫= k) Q e.
Proof.
  intros G K. destruct (snapshot_taken e G) as (s & E & L & S & X). eapply wp_seq; [unfold on_db; rewrite E; reflexivity|].
  apply K; [by split_and!|done].
Qed.

Lemma wp_gget {B} (k : EVM AT ST → EM B) Q e : wp (k e) Q e → wp (gget ≫= k) Q e.
Proof. done. Qed.

(** Calls that touch nothing before the code runs. *)
Lemma CallCode_ok e caller addr input gas value :
  good e → is_u64 gas → 0 ≤ value → blen input ≤ code_limit →
  wp (CallCode ctx Run caller addr input gas value) (called e) e.
Proof using CX RUN.
  intros G Hg Hv Hi. unfold CallCode. apply wp_gget.
  destruct (_ && _); [by apply wp_ret; split_and!; [apply later_refl|..]|].
  destruct (_ >? _); [by apply wp_ret; split_and!; [apply later_refl|..]|].
  cdb CanTransfer_works. destruct r.
  - apply wp_Snapshot; [done|]. intros s0 W _. eapply wp_mono; [by apply call_code_ok|].
    intros r1 e1 (L1 & Hg1 & Q1). split_and!; [by eapply later_trans|done|]. intros Hn. etrans; [by apply Q1|]. apply reads_equiv, R.
  - apply wp_ret. split_and!; [done..|]. intros _. apply reads_equiv, R.
Qed.

Lemma DelegateCall_ok e caller addr input gas :
  good e → is_u64 gas → 0 ≤ ct_value caller → blen input ≤ code_limit →
  wp (DelegateCall ctx Run caller addr input gas) (called e) e.
Proof using CX RUN.
  intros G Hg Hv Hi. unfold DelegateCall. apply wp_gget.
  destruct (_ && _); [by apply wp_ret; split_and!; [apply later_refl|..]|].
  destruct (_ >? _); [by apply wp_ret; split_and!; [apply later_refl|..]|].
  apply wp_Snapshot; [done|]. intros s0 W _. by apply call_code_ok.
Qed.

Lemma set_mode e b : good e → good (e <| e_readOnly := b |>).
Proof. by intros [I S T]. Qed.

(** Code run in the other mode, and the mode set back. *)
Lemma later_mode e e1 b :
  later (e <| e_readOnly := b |>) e1 → later e (e1 <| e_readOnly := e_readOnly e |>).
Proof. intros [G D R H S F B]. constructor; [by apply set_mode|done..]. Qed.

Lemma StaticCall_ok e caller addr input gas :
  good e → is_u64 gas → blen input ≤ code_limit →
  wp (StaticCall ctx Run caller addr input gas) (called e) e.
Proof using CX RUN.
  intros G Hg Hi. unfold StaticCall. apply wp_gget.
  destruct (_ && _); [by apply wp_ret; split_and!; [apply later_refl|..]|].
  destruct (_ >? _); [by apply wp_ret; split_and!; [apply later_refl|..]|].
  destruct (e_readOnly e) eqn:Hr.
  - apply wp_bind, wp_ret. apply wp_Snapshot; [done|]. intros s0 W _. apply wp_bind.
    eapply wp_mono; [by apply call_code_ok|]. intros r1 e1 C1. by apply wp_bind, wp_ret.
  - eapply wp_seq; [reflexivity|]. apply wp_Snapshot; [by apply set_mode|]. intros s0 W _. apply wp_bind.
    eapply wp_mono; [by apply call_code_ok|]. intros r1 e1 (L1 & Hg1 & Q1). eapply wp_seq; [reflexivity|]. apply wp_ret.
    split_and!; [|done|done]. rewrite <- Hr. by eapply later_mode.
Qed.

(** A call that moves value: not a vote and not a registration. *)
Definition moves_value (action : Z) : Prop :=
  action ≠ ActionAddVote ∧ action ≠ ActionSubVote ∧ action ≠ ActionRegister.

Lemma call_effect_ok e0 e caller addr input gas action value votes asset :
  within e0 e → is_u64 gas → 0 ≤ value → blen input ≤ code_limit → moves_value action →
  (asset = None → value ≤ balance (e_db e) caller) →
  wp (err ← call_effect ctx (s_nextRevisionId (e_db e0)) caller addr action value votes asset;
      match err with
      | Some err => mret ([], gas, Some err)
      | None => call_code ctx Run (s_nextRevisionId (e_db e0)) addr input (NewContract caller addr asset value gas)
      end) (called e0) e.
Proof using CX RUN.
  intros W Hg Hv Hi (H1 & H2 & H3) Hb. assert (good e) by apply W. unfold call_effect.
  rewrite !(proj2 (Z.eqb_neq action _)) by done. cbn [orb].
  apply wp_bind. cdb Transfer_works. apply wp_ret. apply call_code_ok; [by eapply within_later|done..].
Qed.

(** A call of a caller that can pay. *)
Lemma call_paid e caller addr input gas action value votes asset :
  good e → is_u64 gas → 0 ≤ value → blen input ≤ code_limit → moves_value action →
  (asset = None → value ≤ balance (e_db e) caller) →
  wp (snapshot ← on_db Snapshot;
      exist ← on_db (Exist addr);
      if negb exist && negb (bool_decide (is_Some (PrecompiledContracts addr))) && (Z.sgn value =? 0) then
        mret ([], gas, None)
      else
        (if (exist : bool) then mret tt else on_db (CreateAccount addr));;
        err ← call_effect ctx snapshot caller addr action value votes asset;
        match err with
        | Some err => mret ([], gas, Some err)
        | None => call_code ctx Run snapshot addr input (NewContract caller addr asset value gas)
        end) (called e) e.
Proof using CX RUN.
  intros G Hg Hv Hi Ha Hb. apply wp_Snapshot; [done|]. intros s1 W X1. assert (G1 : good (e <| e_db := s1 |>)) by apply W.
  cdb Exist_works. destruct R as [-> R]. assert (W0 := within_later _ _ _ W L).
  destruct (negb _ && _ && _); [apply wp_ret; split_and!; [apply W0|done|done]|].
  assert (Hb' : asset = None → value ≤ balance s caller).
  { intros Hn. assert (Xl : live s caller = live (e_db e) caller) by (rewrite (rd_live _ _ R); apply X1).
    unfold balance, acct in *. rewrite Xl. auto. }
  destruct (bool_decide _).
  - apply wp_bind, wp_ret. by apply call_effect_ok.
  - cdb CreateAccount_works. apply call_effect_ok; [by eapply within_later|done..|]. intros Hn. simpl. rewrite R0. auto.
Qed.

Lemma Call_ok e caller addr input gas action value votes asset :
  good e → is_u64 gas → 0 ≤ value → blen input ≤ code_limit → moves_value action →
  wp (Call ctx Run caller addr input gas action value votes asset) (called e) e.
Proof using CX RUN.
  intros G Hg Hv Hi Ha. unfold Call. apply wp_gget.
  destruct (_ && _); [by apply wp_ret; split_and!; [apply later_refl|..]|].
  destruct (_ >? _); [by apply wp_ret; split_and!; [apply later_refl|..]|].
  unfold cannot_pay. apply wp_bind. pose proof Ha as (H1 & H2 & H3). rewrite !(proj2 (Z.eqb_neq action _)) by done.
  cdb CanTransfer_works. destruct R as [-> R].
  destruct (Z.geb_spec (holding (e_db e) asset caller) value) as [Hle|Hlt]; apply wp_ret; cbn beta iota.
  - eapply wp_mono; [apply call_paid; try done|].
    + intros ->. simpl in Hle. unfold balance in *. by rewrite (reads_acct _ _ _ R).
    + intros r e' (L' & Hg' & Q'). split_and!; [by eapply later_trans|done|]. intros Hn. etrans; [by apply Q'|]. by apply reads_equiv.
  - apply wp_ret. split_and!; [done..|]. intros _. by apply reads_equiv.
Qed.

(** ** Creating a contract *)

Definition created (e0 : EVM AT ST) (r : bytes * address * Z * option vmerr) (e : EVM AT ST) : Prop :=
  later e0 e ∧ is_u64 r.1.2.

Lemma store_code_ok e addr abi r :
  good e → is_u64 (ct_Gas r.2) → wp (store_code addr abi r) (λ r' e', later e e' ∧ is_u64 (ct_Gas r'.2)) e.
Proof.
  intros G Hg. unfold store_code. destruct r as [[ret err] c]. simpl in Hg.
  destruct (_ || (blen ret >? MaxCodeSize)) eqn:Hb; [apply wp_ret; split; [by apply later_refl|done]|].
  apply orb_false_iff in Hb as [_ Hb]. rewrite Z.gtb_ltb in Hb. apply Z.ltb_ge in Hb.
  pose proof (UseGas_u64 (u64 (u64 (blen ret * CreateDataGas) + u64 (Z.of_nat (String.length abi) * TxABIGas))) c (u64_nonneg _) Hg) as Hu.
  destruct (UseGas _ c) as [[] c']; [|apply wp_ret; split; [by apply later_refl|done]].
  eapply wp_on_db_later; [done|apply SetCode_works; [by apply good_wf|apply G|]|].
  - intros b Hb'. assert (b = ret) as -> by (by destruct ret; simplify_eq). unfold code_limit, MaxCodeSize in *. lia.
  - cbn beta. intros r s A L _. pose proof (lt_good _ _ L). cdb SetAbi_works. apply wp_ret. split; [by eapply later_trans|done].
Qed.

Lemma after_create_ok e0 e addr r :
  within e0 e → is_u64 (ct_Gas r.2) → wp (after_create ctx (s_nextRevisionId (e_db e0)) addr r) (created e0) e.
Proof using CX.
  intros (G0 & L & S) Hg. unfold after_create. destruct r as [[ret err] c]. simpl in Hg.
  destruct (_ || _); [|apply wp_ret; by split].
  destruct (revert_later e0 e G0 L S) as (s & E & Q & L'). rewrite (cx_fork _ CX).
  apply (wp_seq _ _ _ _ tt (e <| e_db := s |>)); [unfold on_db; by rewrite E|].
  apply wp_ret. split; [done|]. simpl. destruct (decide _); [done|]. apply UseGas_u64; [apply Hg|done].
Qed.

(** From the snapshot of [Create] on. *)
Lemma create_paid e caller addr code gas asset value abi stop :
  good e → is_u64 gas → 0 ≤ value → blen code ≤ code_limit → (asset = None → value ≤ balance (e_db e) caller) →
  wp (snapshot ← on_db Snapshot;
      on_db (CreateAccount addr);;
      on_db (Transfer caller addr asset value);;
      let c := SetCallCode (Some addr) (Keccak256Hash code) code (NewContract caller addr asset value gas) in
      if (stop : bool) then mret ([], addr, gas, None)
      else
        r ← run Run c [];
        r ← store_code addr abi r;
        after_create ctx snapshot addr r) (created e) e.
Proof using CX RUN.
  intros G Hg Hv Hc Hb. apply wp_Snapshot; [done|]. intros s1 W X1. assert (G1 : good (e <| e_db := s1 |>)) by apply W.
  assert (Hb1 : asset = None → value ≤ balance s1 caller).
  { intros Hn. unfold balance, acct. rewrite X1. auto. }
  cdb CreateAccount_works. assert (Hb2 : asset = None → value ≤ balance s caller) by (intros; rewrite R; auto).
  cdb Transfer_works. assert (W2 := within_later _ _ _ (within_later _ _ _ W L) L0). cbv zeta.
  destruct stop; [apply wp_ret; split; [apply W2|done]|].
  apply wp_bind. eapply wp_mono; [apply run_safe; [done|by constructor|done]|]. intros r1 e1 [L1 Hg1].
  apply wp_bind. eapply wp_mono; [apply store_code_ok; [apply L1|done]|]. intros r2 e2 [L2 Hg2].
  apply after_create_ok; [|done]. by do 2 (eapply within_later; [|eassumption]).
Qed.

Lemma Create_ok e caller code gas asset value abi :
  good e → is_u64 gas → 0 ≤ value → blen code ≤ code_limit →
  wp (Create ctx Run caller code gas asset value abi) (created e) e.
Proof using CX RUN.
  intros G Hg Hv Hc. unfold Create. apply wp_gget.
  destruct (_ >? _); [by apply wp_ret; split; [apply later_refl|]|].
  cdb CanTransfer_works. destruct R as [-> R].
  destruct (Z.geb_spec (holding (e_db e) asset caller) value) as [Hle|Hlt]; [|by apply wp_ret].
  assert (Hb : asset = None → value ≤ balance s caller).
  { intros ->. simpl in Hle. unfold balance in *. by rewrite (reads_acct _ _ _ R). }
  cdb GetNonce_works. assert (Hb1 : asset = None → value ≤ balance s0 caller).
  { intros Hn. unfold balance in *. rewrite (reads_acct _ _ _ R0). auto. }
  cdb SetNonce_works. assert (Hb2 : asset = None → value ≤ balance s1 caller) by (intros; rewrite R1; auto).
  cbv zeta. cdb GetCodeHash_works. assert (Hb3 : asset = None → value ≤ balance s2 caller).
  { intros Hn. unfold balance in *. rewrite (reads_acct _ _ _ R2). auto. }
  cdb GetNonce_works. assert (Hb4 : asset = None → value ≤ balance s3 caller).
  { intros Hn. unfold balance in *. rewrite (reads_acct _ _ _ R3). auto. }
  assert (LL : later e (e <| e_db := s |> <| e_db := s0 |> <| e_db := s1 |> <| e_db := s2 |> <| e_db := s3 |>)).
  { repeat (eapply later_trans; [eassumption|]). by apply later_refl. }
  destruct (_ || _); [by apply wp_ret|].
  eapply wp_mono; [by apply create_paid|]. intros r' e' [L' Hg']. split; [by eapply later_trans|done].
Qed.
End Calls.
