(* ===== verification/VmSafe.v ===== *)
(** * Code cannot stop the node

    Every entry of the jump table is safe for the stack it is admitted with and the
    memory it paid for; so a turn of the loop keeps the frame as it should be, and
    running any code on any sound state returns without a panic and leaves a state
    from which every earlier snapshot is still reached. *)

From S2P Require Import Prelude Assets Interfaces AssetInfo StateTypes StateDB StateRevert StateSnapshot.
From S2P Require Import Votes DelegateState Accounts Transfer VmData StateSound VmGas Evm.
From S2P Require Import Instructions Interpreter Hex VmJump VmWp VmOps VmCosts VmCalls VoteCount.

Create HintDb vmops.

Section Table.
Context `{TOL : Tolerance} {AT ST : Type} `{ENV : StateEnv AT ST slice} `{CRYPTO : CryptoOps}.
Variable ctx : Context.
Context (CX : ctx_ok (AT := AT) (ST := ST) ctx).

#[local] Abbreviation EM := (GM (EVM AT ST)).
#[local] Abbreviation FM := (GM (EVM AT ST * Frame)).
#[local] Abbreviation ran := (bytes * option vmerr * Contract)%type.

Variable Run : Contract → bytes → EM ran.
Context (RUN : run_ok Run).

(** ** The instructions that run code *)

Lemma BigMax_fits x y z : BigMax x y ≤ z → x ≤ z ∧ y ≤ z.
Proof. unfold BigMax. destruct (Z.ltb_spec x y); lia. Qed.

Definition quiet (watch : FM unit) : Prop := ∀ e f, good e → wp watch (λ _ ef, later e ef.1 ∧ ef.2 = f) (e, f).

Lemma quiet_ret : quiet (mret tt).
Proof. intros e f G. apply wp_ret. split; [by apply later_refl|done]. Qed.

Lemma quiet_watch from to asset value : quiet (on_evm (watchInnerTx ctx from to asset value)).
Proof. intros e f G. apply wp_on_evm. eapply wp_mono; [by apply watch_later|]. by intros ? e' L. Qed.

Lemma finish_call (e0 e : EVM AT ST) c mem st pc off size (ret : bytes) g (err : option vmerr) x :
  later e0 e → contract_ok c → Forall (λ x, 0 ≤ x) st → mem_Len mem ≤ mem_limit → 0 ≤ pc → 0 ≤ x →
  0 ≤ off → 0 ≤ size → calcMemSize off size ≤ mem_Len mem →
  wp ((if bool_decide (err = None) || bool_decide (err = Some errExecutionReverted) then mem_set off size ret else mret tt);;
      add_gas g;; mret (ret, None)) (λ (_ : bytes * option vmerr) ef, stepped true (S (length st)) e0 (mkFrame c mem st pc) ef)
    (e, mkFrame c mem (x :: st) pc).
Proof.
  intros L [Hv Hg Hc Hi] Fs Hm Hp Hx Ho Hs Hf.
  assert (Fin : ∀ m', mem_Len m' = mem_Len mem → wp (add_gas g;; mret (ret, None))
    (λ (_ : bytes * option vmerr) ef, stepped true (S (length st)) e0 (mkFrame c mem st pc) ef) (e, mkFrame c m' (x :: st) pc)).
  { intros m' Hm'. apply wp_set_contract. apply wp_ret. constructor; simpl; [done| |done|lia|done|done].
    constructor; simpl; [|by constructor|lia|lia]. constructor; simpl; [done|apply u64_range|done|done]. }
  destruct (_ || _).
  - apply wp_mem_set; [done..|]. auto.
  - apply wp_bind, wp_ret. by apply Fin.
Qed.

Lemma after_call_ok e0 e c mem st pc off size r watch :
  called e0 r e → contract_ok c → Forall (λ x, 0 ≤ x) st → mem_Len mem ≤ mem_limit → 0 ≤ pc →
  0 ≤ off → 0 ≤ size → calcMemSize off size ≤ mem_Len mem → quiet watch →
  wp (after_call off size r watch) (λ _ ef, stepped true (S (length st)) e0 (mkFrame c mem st pc) ef) (e, mkFrame c mem st pc).
Proof.
  intros (L & _ & _) C Fs Hm Hp Ho Hs Hf W. destruct r as [[ret g] [err|]]; unfold after_call.
  - apply wp_push. by apply finish_call.
  - apply wp_bind, wp_push. eapply wp_mono; [apply W, L|]. intros _ [e1 f1] [L1 E1]. cbn [snd] in E1. subst f1. apply finish_call; try done.
    by eapply later_trans.
Qed.

Lemma with_stipend_u64 gas value : is_u64 gas → is_u64 (with_stipend gas value).
Proof. intros H. unfold with_stipend. destruct (_ =? 0); [done|apply u64_range]. Qed.

(** The end of an instruction that calls: the call by its lemma, then [after_call]. *)
Ltac calls lem :=
  apply wp_bind, wp_on_evm; eapply wp_mono; [eapply lem; first [eassumption | solve [eauto using with_stipend_u64, gd_temp, U256_nonneg] | by split_and!]|];
  intros r e' C'; eapply wp_mono; [eapply after_call_ok; try done; first [apply quiet_ret | apply quiet_watch]|];
  intros ? ? [? ? ? ? ? ?]; constructor; [done|done|simpl in *; lia|done..].

Lemma opCall_ok : exec_ok true 7 1 (need_max (need_at 5 6) (need_at 3 4)) (opCall ctx Run).
Proof using CX RUN.
  open_memory. apply BigMax_fits in Hneed as [Hn1 Hn2]. unfold opCall, callGasTemp. do 8 wstep. wget. wstep. calls Call_ok.
Qed.
Lemma opCallCode_ok : exec_ok true 7 1 (need_max (need_at 5 6) (need_at 3 4)) (opCallCode ctx Run).
Proof using CX RUN.
  open_memory. apply BigMax_fits in Hneed as [Hn1 Hn2]. unfold opCallCode, callGasTemp. do 8 wstep. wget. wstep. calls CallCode_ok.
Qed.

Lemma opDelegateCall_ok : exec_ok true 6 1 (need_max (need_at 4 5) (need_at 2 3)) (opDelegateCall ctx Run).
Proof using CX RUN.
  open_memory. apply BigMax_fits in Hneed as [Hn1 Hn2]. unfold opDelegateCall, callGasTemp. do 7 wstep. wget. wstep. calls DelegateCall_ok.
Qed.

Lemma opStaticCall_ok : exec_ok true 6 1 (need_max (need_at 4 5) (need_at 2 3)) (opStaticCall ctx Run).
Proof using CX RUN.
  open_memory. apply BigMax_fits in Hneed as [Hn1 Hn2]. unfold opStaticCall, callGasTemp. do 7 wstep. wget. wstep. calls StaticCall_ok.
Qed.

Lemma opCreate_ok : exec_ok true 3 1 (need_at 1 2) (opCreate ctx Run).
Proof using CX RUN.
  open_memory. unfold opCreate. do 3 wstep. wget. do 2 wstep. apply wp_bind, wp_on_evm.
  eapply wp_mono; [by eapply Create_ok|]. intros [[[res addr] g] err] e' [L' Hg']. do 2 wstep. apply wp_ret.
  assert (Cu : ct_value (UseGas (ct_Gas c) c).2 = ct_value c ∧ ct_Code (UseGas (ct_Gas c) c).2 = ct_Code c ∧
               ct_Input (UseGas (ct_Gas c) c).2 = ct_Input c) by (unfold UseGas; by destruct (_ <? _)).
  destruct Cu as (Cv & Cc & Ci). constructor; simpl; [done| |lia|lia|done|done].
  constructor; simpl; [|constructor; [by destruct err; [|apply word_nonneg]|done]|lia|lia].
  constructor; simpl; [by rewrite Cv|apply u64_range|by rewrite Cc|by rewrite Ci].
Qed.

(** ** The table *)

(** The instructions that run other code: the creation and the four calls. *)
Definition calling_ops : list Z := [0xf0; 0xf1; 0xf2; 0xf4; 0xfa].

Definition op_ok (k : Z) (o : operation (AT := AT) (ST := ST)) : Prop := ∃ calls pops pushes need lim low,
  exec_ok calls pops pushes need (execute o) ∧
  gas_ok pops lim low (gasCost o) ∧
  (∀ len, validateStack o len = makeStackFunc (Z.of_nat pops) (Z.of_nat pushes) len) ∧
  match memorySize o with
  | None => ∀ st, need st = 0
  | Some size => size_ok pops need size ∧ lim = true
  end ∧
  (∀ st, Forall (λ x, 0 ≤ x) st → 0 ≤ need st) ∧
  (k = CALL → (3 ≤ pops)%nat) ∧ (k = 0 → halts o = true) ∧
  (calls = true → In k calling_ops) ∧ 0 ≤ low ∧ (halts o = false → reverts o = false → 1 ≤ low).

Lemma calcMemSize_nonneg x y : 0 ≤ x → 0 ≤ y → 0 ≤ calcMemSize x y.
Proof. unfold calcMemSize. destruct (_ =? 0); lia. Qed.

Lemma lookup_nonneg st n : Forall (λ x, 0 ≤ x) st → 0 ≤ default 0 (st !! n).
Proof. intros F. destruct (st !! n) as [x|] eqn:E; [|done]. rewrite Forall_lookup in F. by eapply F. Qed.

Lemma need_at_nonneg a b st : Forall (λ x, 0 ≤ x) st → 0 ≤ need_at a b st.
Proof. intros F. by apply calcMemSize_nonneg; apply lookup_nonneg. Qed.
Lemma need_const_nonneg a l st : 0 ≤ l → Forall (λ x, 0 ≤ x) st → 0 ≤ need_const a l st.
Proof. intros Hl F. apply calcMemSize_nonneg; [by apply lookup_nonneg|done]. Qed.
Lemma need_max_nonneg a b st :
  (Forall (λ x, 0 ≤ x) st → 0 ≤ a st) → (Forall (λ x, 0 ≤ x) st → 0 ≤ b st) → Forall (λ x, 0 ≤ x) st → 0 ≤ need_max a b st.
Proof. intros Ha Hb F. unfold need_max, BigMax. destruct (_ <? _); auto. Qed.

(** One entry of the table, by the lemma of its instruction. *)
Ltac entry :=
  cbv [simple halting writing jumping returning reverting with_mem upd op_ok execute gasCost validateStack memorySize
       halts jumps writes reverts returns];
  eexists _, _, _, _, _, _; split; [solve [eauto with vmops]|];
  split; [first [solve [eapply gas_weaken; [eauto with vmgas|lia|reflexivity]]
                | eapply gas_weaken; [apply const_ok; split; vm_compute; first [reflexivity | discriminate]|lia|reflexivity]]|];
  split; [by intros|];
  split; [first [by intros | split; [first [apply size_at_ok; lia | apply size_const_ok; lia | apply size_max_ok; apply size_at_ok; lia]|done]]|];
  split; [first [done | intros; apply need_at_nonneg; done | intros; apply need_const_nonneg; done
                | intros; apply need_max_nonneg; [intros; by apply need_at_nonneg..|done]]|];
  split; [first [intros _; lia | intros Hk; vm_compute in Hk; discriminate Hk]|];
  split; [intros Hk; first [reflexivity | discriminate Hk]|];
  split; [first [discriminate | intros _; cbn; tauto]|];
  split; [by vm_compute|intros Hh Hr; first [discriminate Hh | discriminate Hr | by vm_compute]].

Ltac entries :=
  repeat (apply Forall_cons; split; [cbn [fst snd]|]); [..|by constructor]; entry.

#[local] Hint Resolve opAdd_ok opMul_ok opSub_ok opDiv_ok opSdiv_ok opMod_ok opSmod_ok opAddmod_ok opMulmod_ok opExp_ok
  opSignExtend_ok opLt_ok opGt_ok opSlt_ok opSgt_ok opEq_ok opIszero_ok opAnd_ok opOr_ok opXor_ok opNot_ok opByte_ok
  opSha3_ok opStop_ok : vmops.

Lemma arithmeticOps_ok : Forall (λ p, op_ok p.1 p.2) (arithmeticOps ctx).
Proof. unfold arithmeticOps. entries. Qed.

#[local] Hint Resolve opAddress_ok opBalance_ok opOrigin_ok opCaller_ok opCallValue_ok opCallDataLoad_ok opCallDataSize_ok
  opCallDataCopy_ok opCodeSize_ok opCodeCopy_ok opGasprice_ok opExtCodeSize_ok opExtCodeCopy_ok opBlockhash_ok opCoinbase_ok
  opTimestamp_ok opNumber_ok opDifficulty_ok opGasLimit_ok : vmops.

Lemma environmentOps_ok : Forall (λ p, op_ok p.1 p.2) (environmentOps ctx).
Proof using CX. unfold environmentOps. entries. Qed.

#[local] Hint Resolve opPop_ok opMload_ok opMstore_ok opMstore8_ok opSload_ok opSstore_ok opJump_ok opJumpi_ok opPc_ok opMsize_ok
  opGas_ok opJumpdest_ok cx_tries : vmops.
#[local] Hint Resolve cx_tries : vmgas.

Lemma storageOps_ok : Forall (λ p, op_ok p.1 p.2) (storageOps (AT := AT) (ST := ST)).
Proof using CX. unfold storageOps. entries. Qed.

#[local] Hint Resolve opCreate_ok opCall_ok opCallCode_ok opReturn_ok opSuicide_ok : vmops.

Lemma closureOps_ok : Forall (λ p, op_ok p.1 p.2) (closureOps ctx Run).
Proof using CX RUN. unfold closureOps. entries. Qed.

#[local] Hint Resolve opBalanceOf_ok opTransferAsset_ok opAsset_ok opAssetValue_ok opIsDelegate_ok opGetCandidateVoteInfo_ok
  opGetCandidateVoteInfoFors_ok opGetCandidateTotalVote_ok : vmops.

Lemma assetOps_ok : Forall (λ p, op_ok p.1 p.2) (assetOps ctx).
Proof using CX. unfold assetOps. entries. Qed.

(** The families: an entry made from the lemma of the instruction. *)
Lemma family_entry k pops pushes (a b : Z) need (m : FM (bytes * option vmerr)) gas :
  exec_ok false pops pushes need m → gas_ok pops false 1 gas → a = Z.of_nat pops → b = Z.of_nat pushes →
  (∀ st, need st = 0) → k ≠ CALL → k ≠ 0 → op_ok k (simple m gas (makeStackFunc a b)).
Proof.
  intros X G -> -> Hn H1 H2. exists false, pops, pushes, need, false, 1. split_and!; try done.
  intros st _. by rewrite Hn.
Qed.

Lemma pushOps_ok : Forall (λ p, op_ok p.1 p.2) (pushOps (AT := AT) (ST := ST)).
Proof.
  unfold pushOps. apply Forall_fmap, Forall_forall. intros n Hn%elem_of_seqZ. unfold compose; cbn [fst snd].
  eapply family_entry; [apply makePush_ok; lia|apply gasPush_ok|done|done|done|unfold CALL; lia|lia].
Qed.

Lemma dupOps_ok : Forall (λ p, op_ok p.1 p.2) (dupOps (AT := AT) (ST := ST)).
Proof.
  unfold dupOps. apply Forall_fmap, Forall_forall. intros n Hn%elem_of_seqZ. unfold compose; cbn [fst snd].
  unfold makeDupStackFunc. eapply family_entry; [apply makeDup_ok; lia| |lia|lia|done|unfold CALL; lia|lia].
  by eapply gas_weaken; [apply gasDup_ok|lia|].
Qed.

Lemma swapOps_ok : Forall (λ p, op_ok p.1 p.2) (swapOps (AT := AT) (ST := ST)).
Proof.
  unfold swapOps. apply Forall_fmap, Forall_forall. intros n Hn%elem_of_seqZ. unfold compose; cbn [fst snd].
  unfold makeSwapStackFunc. eapply family_entry; [apply makeSwap_ok; lia| |lia|lia|done|unfold CALL; lia|lia].
  by eapply gas_weaken; [apply gasSwap_ok|lia|].
Qed.

Lemma logOps_ok : Forall (λ p, op_ok p.1 p.2) (logOps ctx).
Proof.
  unfold logOps. apply Forall_fmap, Forall_forall. intros n Hn%elem_of_seqZ. unfold compose; cbn [fst snd].
  cbv [simple writing with_mem upd op_ok execute gasCost validateStack memorySize halts jumps writes reverts returns].
  eexists _, _, _, _, _, _. split; [apply makeLog_ok|]. split; [eapply gas_weaken; [apply makeGasLog_ok|lia|reflexivity]|].
  split; [intros len; by replace (Z.of_nat (Z.to_nat n + 2)) with (n + 2) by lia|].
  split; [split; [apply size_at_ok; lia|done]|]. split; [intros; by apply need_at_nonneg|].
  unfold CALL. split_and!; intros; done || lia.
Qed.

#[local] Hint Resolve opDelegateCall_ok opStaticCall_ok opReturnDataSize_ok opReturnDataCopy_ok opRevert_ok
  opSHL_ok opSHR_ok opSAR_ok : vmops.

Lemma table_ok : Forall (λ p, op_ok p.1 p.2) (NewConstantinopleInstructionSet ctx Run).
Proof using CX RUN.
  apply Forall_app; split; [entries|]. apply Forall_app; split; [unfold gasStaticCall; entries|].
  apply Forall_cons; split; [cbn [fst snd]; entry|]. unfold NewFrontierInstructionSet. rewrite !Forall_app.
  eauto 12 using arithmeticOps_ok, environmentOps_ok, storageOps_ok, pushOps_ok, dupOps_ok, swapOps_ok, logOps_ok,
    closureOps_ok, assetOps_ok.
Qed.

Lemma lookup_op_Forall (P : Z → operation (AT := AT) (ST := ST) → Prop) l op o :
  Forall (λ p, P p.1 p.2) l → lookup_op op l = Some o → P op o.
Proof.
  induction 1 as [|[k x] l Hx Hl IH]; [done|]. simpl. destruct (Z.eqb_spec k op) as [->|]; [by intros [= <-]|done].
Qed.

Lemma JumpTable_ok op o : JumpTable ctx Run op = Some o → op_ok op o.
Proof using CX RUN. apply (lookup_op_Forall op_ok), table_ok. Qed.

(** ** One turn *)

Lemma makeStackFunc_None pops pushes len :
  makeStackFunc (Z.of_nat pops) (Z.of_nat pushes) (Z.of_nat len) = None →
  (pops ≤ len)%nat ∧ (len - pops + pushes ≤ 1024)%nat.
Proof.
  unfold makeStackFunc, StackLimit. destruct (Z.ltb_spec (Z.of_nat len) (Z.of_nat pops)); [done|].
  rewrite Z.gtb_ltb. destruct (Z.ltb_spec 1024 (Z.of_nat len + Z.of_nat pushes - Z.of_nat pops)); [done|]. lia.
Qed.

Lemma enforce_ok op o (e : EVM AT ST) f pops :
  (op = CALL → (3 ≤ pops)%nat) → (pops ≤ length (f_stack f))%nat →
  ∃ r, enforceRestrictions ctx op o (e, f) = Ret (r, (e, f)).
Proof.
  intros Hc Hn. unfold enforceRestrictions. erewrite GM_bind_run by reflexivity. cbn [fst].
  destruct (_ && _); [|by eexists]. destruct (writes o); [by eexists|].
  destruct (Z.eqb_spec op CALL) as [E|E]; [|by eexists].
  rewrite (GM_bind_run _ _ _ _ _ (Back_run 2 e f ltac:(specialize (Hc E); lia))). by eexists.
Qed.

(** Memory sizes are rounded up, or the sum overflows. *)
Lemma words_fit n m :
  0 ≤ n → (bigUint64 n).2 = false → SafeMul (toWordSize (bigUint64 n).1) 32 = (m, false) → n ≤ m.
Proof.
  unfold bigUint64. cbn [fst snd]. intros H0 Hb. rewrite Z.gtb_ltb in Hb. apply Z.ltb_ge in Hb.
  pose proof (BitLen_spec n H0) as Hn. assert (2 ^ BitLen n ≤ 2 ^ 64) by (apply Z.pow_le_mono_r; lia).
  assert (Hu : Uint64 n = n) by (unfold Uint64; rewrite Z.abs_eq by done; apply u64_small; unfold is_u64, MaxUint64; lia).
  rewrite Hu. unfold toWordSize. rewrite Z.gtb_ltb. destruct (Z.ltb_spec (MaxUint64 - 31) n) as [Hl|Hl].
  { vm_compute. intros [=]. }
  pose proof (Z.div_mod (n + 31) 32 ltac:(done)). pose proof (Z.mod_pos_bound (n + 31) 32 ltac:(done)).
  unfold SafeMul, MaxUint64 in *. destruct (Z.eqb_spec ((n + 31) / 32) 0); cbn [orb]; [intros [= <-]; lia|].
  intros [= <- _]. rewrite u64_small; [lia|]. unfold is_u64, MaxUint64. lia.
Qed.

Lemma needed_ok (o : operation (AT := AT) (ST := ST)) pops need lim (e : EVM AT ST) f :
  (pops ≤ length (f_stack f))%nat → Forall (λ x, 0 ≤ x) (f_stack f) →
  match memorySize o with None => ∀ st, need st = 0 | Some size => size_ok pops need size ∧ lim = true end →
  (∀ st, Forall (λ x, 0 ≤ x) st → 0 ≤ need st) →
  ∃ r, neededMemory o (e, f) = Ret (r, (e, f)) ∧
    match r with inl m => need (f_stack f) ≤ m ∧ (lim = false → m = 0) | inr _ => True end.
Proof.
  intros Hn Fs Hs Hp. unfold neededMemory. destruct (memorySize o) as [size|].
  - destruct Hs as [Hs ->]. rewrite (GM_bind_run _ _ _ _ _ (Hs e f Hn)).
    destruct (bigUint64 (need (f_stack f))) as [ms ov] eqn:Eb. destruct ov; [by eexists|].
    destruct (SafeMul (toWordSize ms) 32) as [m ov] eqn:Em. eexists. split; [reflexivity|]. destruct ov; [done|].
    split; [|done]. apply (words_fit (need (f_stack f)) m); [by apply Hp|by rewrite Eb|by rewrite Eb].
  - eexists. split; [reflexivity|]. rewrite Hs. done.
Qed.

(** A frame that paid at least [low] for its instruction and for [m] bytes of memory. *)
Record paid (m low : Z) (f f' : Frame) : Prop := mkPaid {
  pd_frame : frame_ok f';
  pd_stack : f_stack f' = f_stack f;
  pd_pc : f_pc f' = f_pc f;
  pd_code : ct_Code (f_contract f') = ct_Code (f_contract f);
  pd_mem : m ≤ mem_Len (f_mem f');
  pd_gas : ct_Gas (f_contract f') + low ≤ ct_Gas (f_contract f)
}.

Lemma mem_Resize_fits m mem :
  m ≤ mem_limit → mem_Len mem ≤ mem_limit → m ≤ mem_Len (mem_Resize m mem) ≤ mem_limit.
Proof.
  intros H1 H2. unfold mem_Resize. destruct (Z.ltb_spec (mem_Len mem) m); [|lia].
  assert (E : mem_Len (mem <| m_store ::= λ s, s ++ replicate (Z.to_nat (m - mem_Len mem)) Byte.x00 |>) = m); [|rewrite E; lia].
  unfold mem_Len, blen in *. simpl. rewrite length_app, length_replicate. lia.
Qed.

Lemma pay_ok o pops lim low m e f :
  good e → frame_ok f → (pops ≤ length (f_stack f))%nat → gas_ok pops lim low (gasCost o) → 0 ≤ low → (lim = false → m = 0) →
  wp (payAndResize ctx o m) (λ r ef, later e ef.1 ∧ is_u64 (ct_Gas (f_contract ef.2)) ∧
    match r with None => paid m low f ef.2 | Some _ => True end) (e, f).
Proof using CX.
  intros G F Hn HG Hlow Hl. unfold payAndResize. rewrite (cx_fork _ CX). apply wp_bind.
  eapply wp_mono; [by apply HG|].
  intros r [e1 f1] (L & [Sc Ss Sp Sm] & R). cbn [fst snd] in *. pose proof F as [[Hv Hg Hc Hi] Fs Hm Hp].
  destruct r as [cost|err]; [|apply wp_ret; split_and!; [done|cbn [snd]; by rewrite Sc|done]]. destruct R as (Ru & Rc & Rm).
  assert (Hlim : m ≤ mem_limit) by (destruct lim; [by apply Rm|rewrite Hl by done; done]).
  destruct f1 as [c1 mem1 st1 pc1]. cbn [f_contract f_stack f_pc f_mem] in *. subst c1 st1 pc1. apply wp_contract.
  assert (Hu := UseGas_u64 cost (f_contract f) (proj1 Ru) Hg).
  assert (Hsame : ct_value (UseGas cost (f_contract f)).2 = ct_value (f_contract f) ∧
    ct_Code (UseGas cost (f_contract f)).2 = ct_Code (f_contract f) ∧ ct_Input (UseGas cost (f_contract f)).2 = ct_Input (f_contract f) ∧
    ((UseGas cost (f_contract f)).1 = true → ct_Gas (UseGas cost (f_contract f)).2 + low ≤ ct_Gas (f_contract f))).
  { unfold UseGas. destruct (_ <? _); split_and!; try done. intros _. simpl. lia. }
  destruct (UseGas cost (f_contract f)) as [ok c]. cbn [fst snd] in *. destruct Hsame as (Cv & Cc & Ci & Cg). apply wp_set_contract.
  destruct ok; [|apply wp_ret; by split_and!].
  assert (Hm1 : mem_Len mem1 ≤ mem_limit) by (unfold mem_Len in *; by rewrite Sm).
  assert (Co : contract_ok c) by (constructor; [by rewrite Cv|done|by rewrite Cc|by rewrite Ci]).
  rewrite Z.gtb_ltb. destruct (Z.ltb_spec 0 m).
  - apply wp_set_frame, wp_ret. pose proof (mem_Resize_fits m mem1 Hlim Hm1). split_and!; [done..|].
    constructor; simpl; [constructor; simpl; [done..|lia|done]|done|done|done|lia|auto].
  - apply wp_bind, wp_ret, wp_ret. split_and!; [done..|]. pose proof (mem_Len_nonneg mem1).
    constructor; simpl; [constructor; simpl; done|done|done|done|lia|auto].
Qed.

(** What the loop keeps from turn to turn. *)
Record running (e : EVM AT ST) (f : Frame) : Prop := mkRunning {
  rn_good : good e;
  rn_frame : frame_ok f;
  rn_stack : (length (f_stack f) ≤ 1024)%nat;
  rn_pc : f_pc f ≤ code_limit + 64
}.

Lemma GetOp_end pc c : blen (ct_Code c) ≤ pc → GetOp pc c = 0.
Proof. intros H. unfold GetOp, GetByte. by rewrite (proj2 (Z.ltb_ge pc _)) by lia. Qed.

(** The frame has the code it had, and less gas unless the instruction ran other code. *)
Definition cheaper (f f' : Frame) : Prop :=
  ct_Code (f_contract f') = ct_Code (f_contract f) ∧
  (¬ In (GetOp (f_pc f) (f_contract f)) calling_ops → ct_Gas (f_contract f') < ct_Gas (f_contract f)).

Lemma turn_ok e f :
  running e f →
  wp (turn ctx Run) (λ r ef, later e ef.1 ∧ is_u64 (ct_Gas (f_contract ef.2)) ∧
    match r with None => running ef.1 ef.2 ∧ cheaper f ef.2 | Some _ => True end) (e, f).
Proof using CX RUN.
  intros [G F Hlen Hpc]. pose proof F as [[Hv Hg Hc Hi] Fs Hm Hp]. unfold turn.
  assert (Stop : ∀ r : bytes * option vmerr, wp (mret (Some r)) (λ r (ef : EVM AT ST * Frame), later e ef.1 ∧ is_u64 (ct_Gas (f_contract ef.2)) ∧
    match r with None => running ef.1 ef.2 ∧ cheaper f ef.2 | Some _ => True end) (e, f)).
  { intros r. apply wp_ret. split_and!; [by apply later_refl|done|done]. }
  eapply wp_seq; [reflexivity|]. cbn [snd]. set (op := GetOp (f_pc f) (f_contract f)).
  destruct (JumpTable ctx Run op) as [o|] eqn:Ej; [|apply Stop].
  destruct (JumpTable_ok _ _ Ej) as (calls & pops & pushes & need & lim & low & HX & HG & HV & HS & HN & H3 & H0 & HC & HL & HH).
  destruct (validateStack o _) as [err|] eqn:Ev; [apply Stop|]. rewrite HV in Ev.
  apply makeStackFunc_None in Ev as [Hpops Hpush].
  destruct (enforce_ok op o e f pops H3 Hpops) as [r Er]. eapply wp_seq; [exact Er|]. destruct r as [err|]; [apply Stop|].
  destruct (needed_ok o pops need lim e f Hpops Fs HS HN) as (r & En & Rn). eapply wp_seq; [exact En|].
  destruct r as [m|err]; [|apply Stop]. destruct Rn as [Rn Rl]. apply wp_bind.
  eapply wp_mono; [by apply (pay_ok o pops lim low)|]. intros r [e1 f1] (L1 & U1 & P). cbn [fst snd] in *.
  destruct r as [err|]; [apply wp_ret; by split_and!|]. destruct P as [PF PS PP PC PM PG].
  apply wp_bind. eapply wp_mono; [apply HX; [apply L1|done|by rewrite PS|by rewrite PP|by rewrite PS; lia]|].
  intros [res err] [e2 f2] [L2 F2 S2 C2 K2 D2]. cbn [fst snd] in *. rewrite PS in S2. rewrite PP in C2.
  assert (L12 : later e e2) by (by eapply later_trans). assert (U2 := co_Gas _ (fo_contract _ F2)).
  apply wp_bind. eapply (wp_mono _ (λ _ ef, later e ef.1 ∧ ef.2 = f2)).
  { destruct (returns o); [|by apply wp_ret]. eapply wp_run; [reflexivity|]. split; [|done].
    eapply later_trans; [exact L12|]. apply later_fields; [apply L2|done..|]. by apply L2. }
  intros _ [e3 f3] [L3 E3]. cbn [fst snd] in *. subst f3.
  destruct err as [err|]; [apply wp_ret; by split_and!|]. destruct (reverts o) eqn:Er'; [apply wp_ret; by split_and!|].
  destruct (halts o) eqn:Eh; [apply wp_ret; by split_and!|].
  assert (Hin : f_pc f < blen (ct_Code (f_contract f))).
  { destruct (Z.lt_ge_cases (f_pc f) (blen (ct_Code (f_contract f)))) as [|Hge]; [done|].
    apply GetOp_end in Hge. specialize (H0 Hge). congruence. }
  assert (Ch : cheaper f f2).
  { split; [congruence|]. intros Hn. assert (calls = false) as Hf by (destruct calls; [by destruct Hn; apply HC|done]).
    rewrite (K2 Hf). specialize (HH eq_refl eq_refl). lia. }
  assert (Hb : f_pc f2 ≤ code_limit + 32) by lia. destruct (jumps o).
  - apply wp_bind, wp_ret, wp_ret. split_and!; [done..| |done]. constructor; cbn [fst snd]; [apply L3|done|lia|lia].
  - destruct f2 as [c2 m2 st2 pc2]. apply wp_set_frame, wp_ret. cbn [f_contract f_stack f_pc] in *. split_and!; [done..| |done].
    destruct F2 as [? ? ? ?]. cbn [f_contract f_stack f_pc f_mem] in *.
    assert (u64 (pc2 + 1) = pc2 + 1) by (apply u64_small; unfold is_u64, MaxUint64, code_limit in *; lia).
    constructor; simpl; [apply L3|constructor; simpl; done || lia|lia|lia].
Qed.
End Table.

(** ** The loop *)

Section Loop.
Context `{TOL : Tolerance} {AT ST : Type} `{ENV : StateEnv AT ST slice} `{CRYPTO : CryptoOps}.
Variable ctx : Context.
Context (CX : ctx_ok (AT := AT) (ST := ST) ctx).

#[local] Abbreviation FM := (GM (EVM AT ST * Frame)).
#[local] Infix "≈" := sdb_equiv (at level 70).

Definition loop_ok (l : FM (bytes * option vmerr)) : Prop := ∀ e f,
  running e f → wp l (λ _ ef, later e ef.1 ∧ is_u64 (ct_Gas (f_contract ef.2))) (e, f).

Lemma set_depth e d r : good e → good (e <| e_depth := d |> <| e_returnData := r |>).
Proof. by intros [I S T]. Qed.

Lemma Run_with_ok l : loop_ok l → run_ok (Run_with l).
Proof.
  intros Hl c input e G C Hi. unfold Run_with, wp. set (e1 := e <| e_depth ::= λ d, d + 1 |> <| e_returnData := [] |>).
  assert (G1 : good e1) by (by apply (set_depth e (e_depth e + 1) [])).
  assert (Back : ∀ e2, later e1 e2 → later e (e2 <| e_depth ::= λ d, d - 1 |>)).
  { intros e2 [G2 D2 R2 H2 S2 F2]. constructor; simpl; [by destruct G2|rewrite D2; simpl; lia|done..]. }
  destruct (length (ct_Code c) =? 0)%nat; [split; [by apply Back, later_refl|apply C]|].
  specialize (Hl e1 (mkFrame (c <| ct_Input := input |>) NewMemory [] 0)). unfold wp in Hl.
  destruct (l _) as [[[ret err] [e2 f2]]|w].
  - destruct Hl as [L2 U2]; [|split; [by apply Back|done]]. destruct C. constructor; simpl; [done| |lia|unfold code_limit; lia].
    constructor; simpl; [by constructor|constructor|done|done].
  - apply Hl. destruct C. constructor; simpl; [done| |lia|unfold code_limit; lia].
    constructor; simpl; [by constructor|constructor|done|done].
Qed.

Lemma loop_safe fuel : tolerated out_of_turns → loop_ok (loop ctx fuel).
Proof using CX.
  intros Ht. induction fuel as [|fuel IH]; intros e f R; cbn [loop]; [exact Ht|].
  apply wp_bind. eapply wp_mono; [apply turn_ok; [done|by apply Run_with_ok|done]|].
  intros r [e1 f1] (L1 & U1 & H1). cbn [fst snd] in *. destruct r as [res|]; [by apply wp_ret|].
  eapply wp_mono; [by apply IH, H1|]. intros _ [e2 f2] [L2 U2]. split; [by eapply later_trans|done].
Qed.

Lemma Run_safe fuel : tolerated out_of_turns → run_ok (Run ctx fuel).
Proof using CX. intros Ht. by apply Run_with_ok, loop_safe. Qed.
End Loop.

(** The panics of a loop that may run out of turns. *)
#[export] Instance with_turns : Tolerance := {|
  tolerated w := w = out_of_turns ∨ w = bitvec_panic ∨ w = getData_panic;
  tolerates_bitvec := or_intror (or_introl eq_refl);
  tolerates_getData := or_intror (or_intror eq_refl)
|}.

Lemma turns_tolerated : tolerated out_of_turns.
Proof. by left. Qed.

(** The same, with code that asks for the delegates where the context has no list. *)
Definition code_panic (ctx : Context) (w : string) : Prop :=
  w = out_of_turns ∨ w = bitvec_panic ∨ w = getData_panic ∨ (x_DelegateList ctx = None ∧ w = nil_list_panic).
Definition without_list (ctx : Context) : Tolerance := {|
  tolerated := code_panic ctx;
  tolerates_bitvec := or_intror (or_introl eq_refl);
  tolerates_getData := or_intror (or_intror (or_introl eq_refl))
|}.

Lemma turns_tolerated_list ctx : tolerated (Tolerance := without_list ctx) out_of_turns.
Proof. by left. Qed.

(** ** Claims *)

(** C3: Code cannot stop the node.  Under the rules after the Epiphron fork, from any
    sound state (no negative balance, code of a length a slice can have): running any code with any input and any number of turns
    returns and does not panic - no stack or memory access out of range, no failing
    revert, no missing object - except for four causes no frame can rule out: the
    turns run out, a bit vector of other code is cached under the code's hash, lengths
    of the exponentiation contract whose sum wraps around, and an instruction that asks
    for the delegates where the context has no list of them (the context of a contract
    creation, see [creation_panics]).  What it returns keeps the invariant of the
    account state, the depth, the mode and the vote lists, and every snapshot taken
    before still leads back to the state it was taken in. *)
Theorem code_cannot_panic {AT ST} `{ENV : StateEnv AT ST slice} `{CRYPTO : CryptoOps}
    (ctx : Context) (fuel : nat) (c : Contract) (input : bytes) (e : EVM AT ST) :
  ctx_ok (TOL := without_list ctx) (AT := AT) (ST := ST) ctx → Inv (e_db e) → sound (e_db e) → is_u64 (e_callGasTemp e) →
  contract_ok c → blen input ≤ code_limit →
  match Run ctx fuel c input e with
  | Ret ((ret, err, c'), e') =>
    is_u64 (ct_Gas c') ∧ Inv (e_db e') ∧ sound (e_db e') ∧ e_depth e' = e_depth e ∧
    e_readOnly e' = e_readOnly e ∧ e_heap e' = e_heap e ∧
    ∀ s0 id, since s0 id (e_db e) → since s0 id (e_db e')
  | Panic w => w = out_of_turns ∨ w = bitvec_panic ∨ w = getData_panic ∨ (x_DelegateList ctx = None ∧ w = nil_list_panic)
  end.
Proof.
  intros CX I S T C Hi.
  pose proof (Run_safe (TOL := without_list ctx) ctx CX fuel (turns_tolerated_list ctx) c input e (mkGood e I S T) C Hi) as H. unfold wp in H.
  destruct (Run ctx fuel c input e) as [[[[ret err] c'] e']|w]; [|exact H].
  destruct H as [[[I' S' T'] D R Hh Si] U]. by split_and!.
Qed.

(** C8: A failed message call leaves no trace.  Under the rules after the Epiphron
    fork: when [Call] with a value transfer or a contract call - no vote and no
    registration of a delegate - returns an error - the code ran out of
    gas, reverted, jumped to a bad place, the caller could not pay, the depth was
    exceeded - then for every account existence, balances, nonce, code, storage, assets
    held and votes, and the refund counter, the logs and the preimages, are what they
    were before the call. *)
Theorem failed_call_no_trace {AT ST} `{ENV : StateEnv AT ST slice} `{CRYPTO : CryptoOps} `{RL : !ReadLaws (ENV := ENV)}
    (ctx : Context) (fuel : nat) (e e' : EVM AT ST) (caller addr : address) (input ret : bytes)
    (gas gas' action value : Z) (votes : list VoteItem) (asset : option address) (err : vmerr) :
  ctx_ok (TOL := without_list ctx) (AT := AT) (ST := ST) ctx → Inv (e_db e) → sound (e_db e) → is_u64 (e_callGasTemp e) →
  is_u64 gas → 0 ≤ value → blen input ≤ code_limit → moves_value action →
  Call ctx (Run ctx fuel) caller addr input gas action value votes asset e = Ret ((ret, gas', Some err), e') →
  (∀ q, answer (ask q) (e_db e') = answer (ask q) (e_db e)) ∧
  s_refund (e_db e') = s_refund (e_db e) ∧ (∀ h, default [] (s_logs (e_db e') !! h) = default [] (s_logs (e_db e) !! h)).
Proof.
  intros CX I S T Hg Hv Hi Ha E.
  pose proof (Call_ok (TOL := without_list ctx) ctx CX (Run ctx fuel) (Run_safe (TOL := without_list ctx) ctx CX fuel (turns_tolerated_list ctx))
    e caller addr input gas action value votes asset (mkGood e I S T) Hg Hv Hi Ha) as H. unfold wp in H. rewrite E in H.
  destruct H as ([[I' _ _] _ _ _ _ _ _] & _ & Q). specialize (Q ltac:(done)).
  split_and!; [intros q; apply equiv_answers; [apply I'|apply I|done]| |by apply Q].
  pose proof (se_env _ _ Q) as V. unfold env_of in V. by injection V.
Qed.

(** C33: The frame stays well formed.  A turn of the loop that goes on leaves a
    stack of at most 1024 numbers none of which is negative, a memory within the
    size the gas schedule can price, gas that fits its 64 bits and a program
    counter in range - whichever instruction ran, calls and creations included. *)
Theorem turn_keeps_frame {AT ST} `{ENV : StateEnv AT ST slice} `{CRYPTO : CryptoOps}
    (ctx : Context) (fuel : nat) (e e' : EVM AT ST) (f f' : Frame) :
  ctx_ok (AT := AT) (ST := ST) ctx → running e f →
  turn ctx (Run ctx fuel) (e, f) = Ret (None, (e', f')) →
  (length (f_stack f') ≤ 1024)%nat ∧ Forall (λ x, 0 ≤ x) (f_stack f') ∧ mem_Len (f_mem f') ≤ 0xffffffffe0 ∧
  is_u64 (ct_Gas (f_contract f')) ∧ 0 ≤ f_pc f' ≤ code_limit + 64 ∧ running e' f'.
Proof.
  intros CX R E. pose proof (turn_ok ctx CX (Run ctx fuel) (Run_safe ctx CX fuel turns_tolerated) e f R) as H. unfold wp in H. rewrite E in H.
  destruct H as (_ & U & [G F Hs Hp] & _). cbn [fst snd] in *. pose proof F as [C Fs Fm Fp]. by split_and!.
Qed.

(** C15: Code creates no money.  Under the rules after the Epiphron fork: whatever code
    a message call runs that moves value or calls a contract - no vote and no
    registration of a delegate; withdrawing a vote unlocks money - in
    whatever nested calls, creations and self-destructions, and however it ends, there
    is afterwards at most as much of the currency as before, and at most as much of
    every published asset: over the accounts the call can have touched and any others,
    the total has not grown. *)
Theorem call_creates_nothing {AT ST} `{ENV : StateEnv AT ST slice} `{CRYPTO : CryptoOps}
    (ctx : Context) (fuel : nat) (e e' : EVM AT ST) (caller addr : address) (input : bytes)
    (gas action value : Z) (votes : list VoteItem) (asset : option address) r :
  ctx_ok (TOL := without_list ctx) (AT := AT) (ST := ST) ctx → Inv (e_db e) → sound (e_db e) → is_u64 (e_callGasTemp e) →
  is_u64 gas → 0 ≤ value → blen input ≤ code_limit → moves_value action →
  Call ctx (Run ctx fuel) caller addr input gas action value votes asset e = Ret (r, e') →
  ∀ coin, ∃ known, ∀ l, NoDup l → known ⊆ l → total (holding (e_db e') coin) l ≤ total (holding (e_db e) coin) l.
Proof.
  intros CX I S T Hg Hv Hi Ha E.
  pose proof (Call_ok (TOL := without_list ctx) ctx CX (Run ctx fuel) (Run_safe (TOL := without_list ctx) ctx CX fuel (turns_tolerated_list ctx))
    e caller addr input gas action value votes asset (mkGood e I S T) Hg Hv Hi Ha) as H. unfold wp in H. rewrite E in H.
  destruct H as ([_ _ _ _ _ F] & _). exact F.
Qed.

(** ** A sample machine *)

Module SampleVM.
Import SampleVotes.

#[export] Instance sample_crypto : CryptoOps := {|
  Ecrecover _ _ := inr "invalid signature"%string;
  Keccak256 b := hash_bytes (to_word 256 (be_val b + 7));
  sha256_Sum256 b := hash_bytes (to_word 256 (be_val b + 9));
  ripemd160_Sum b := address_bytes (to_word 160 (be_val b + 9));
  bn256Add_Run _ := inr "malformed point"%string;
  bn256ScalarMul_Run _ := inr "malformed point"%string;
  bn256Pairing_Run _ := inr "malformed point"%string
|}.

Definition sample_ctx : Context :=
  mkContext voter 1 voter 1000 5 5 5 (Some ∅) (λ _, hash0) false false false true true 101 double.
Definition sample_machine (b : Z) : EVM (gmap address bytes) (gmap hash bytes) :=
  mkEVM sample_heap (sample_state b) 0 0 [] false [] ∅.

Lemma zero_u64 : is_u64 0.
Proof. split; unfold MaxUint64; lia. Qed.

Lemma sample_ctx_ok `{TOL : Tolerance} : ctx_ok (AT := gmap address bytes) (ST := gmap hash bytes) sample_ctx.
Proof.
  constructor; [done| |done|].
  - intros a c H. by rewrite lookup_empty in H.
  - intros ah. exists ∅. reflexivity.
Qed.

Lemma sample_machine_Inv b : Inv (sample_state b).
Proof. constructor; [apply sample_state_wf|by repeat constructor|constructor]. Qed.

Lemma sample_sound b : 0 ≤ b → sound (sample_state b).
Proof.
  intros Hb a o. unfold live. cbn [s_stateObjects sample_state]. rewrite lookup_singleton. case_decide; [|done].
  intros [= <-]. constructor; [done|]. intros c Hc. vm_compute in Hc. discriminate Hc.
Qed.

(** The code [PUSH1 1; PUSH1 2; MSTORE; REVERT]: the last instruction finds an empty
    stack. *)
Definition sample_code : bytes := byte_of <$> [0x60; 0x01; 0x60; 0x02; 0x52; 0xfd].
Definition sample_contract : Contract := mkContract voter voter sample_code hash0 None [] 5000 0 None false.

Lemma sample_contract_ok : contract_ok sample_contract.
Proof. constructor; [done|split; done|done|done]. Qed.

(** A contract that stores a value and then executes an invalid instruction. *)
Definition target : address := to_word 160 77.
Definition bad_code : bytes := byte_of <$> [0x60; 0x01; 0x60; 0x02; 0x55; 0xfe].
Definition target_object : stateObject (gmap hash bytes) slice :=
  (newObject target (lit_of (mkAccount 0 5 hash0 (to_word 256 9) (Some 0) (mkSlice 0 0) NewAssets None)) true)
    <| o_code := Some bad_code |>.
Definition target_state : StateDB (gmap address bytes) (gmap hash bytes) slice :=
  mkStateDB ∅ {[ voter := newObject voter (lit_of (voter_account 7)) true; target := target_object ]}
    ∅ None 0 hash0 hash0 0 ∅ 0 ∅ [] [] 0.
Definition target_machine : EVM (gmap address bytes) (gmap hash bytes) :=
  mkEVM sample_heap target_state 0 0 [] false [] ∅.

Lemma target_lookup a o :
  s_stateObjects target_state !! a = Some o →
  (a = voter ∧ o = newObject voter (lit_of (voter_account 7)) true) ∨ (a = target ∧ o = target_object).
Proof.
  cbn [s_stateObjects target_state]. rewrite lookup_insert, lookup_singleton. case_decide; [intros [= <-]; by left|].
  case_decide; [intros [= <-]; by right|done].
Qed.

Lemma target_Inv : Inv target_state.
Proof.
  constructor; [|by repeat constructor|constructor]. constructor; try done.
  - intros a o [[-> ->]|[-> ->]]%target_lookup; reflexivity.
  - intros a o [[-> ->]|[-> ->]]%target_lookup; discriminate.
  - intros a o [[-> ->]|[-> ->]]%target_lookup; (split_and!; [apply SSorted_nil|apply Forall_nil_2|done|done]).
Qed.

Lemma target_sound : sound target_state.
Proof.
  intros a o. unfold live. destruct (s_stateObjects target_state !! a) as [x|] eqn:E; [|done].
  apply target_lookup in E as [[-> ->]|[-> ->]]; intros [= <-]; constructor; try done; intros c Hc; vm_compute in Hc.
  injection Hc as <-. done.
Qed.

Definition failing_call := Call sample_ctx (Run sample_ctx 10) voter target [] 5000 0 3 [] None target_machine.

#[export] Instance vm_read_laws : ReadLaws (ENV := slice_env).
Proof. split; [by intros ???? [= <- _]|done|by intros ???? [= <- _]]. Qed.

Lemma failing_call_fails :
  (match failing_call with Ret ((_, _, Some (errInvalidOpcode 0xfe)), _) => true | _ => false end) = true.
Proof. vm_compute. reflexivity. Qed.

Lemma failing_call_eq : ∃ ret gas' e', failing_call = Ret ((ret, gas', Some (errInvalidOpcode 0xfe)), e').
Proof.
  pose proof failing_call_fails as H. destruct failing_call as [[[[ret gas'] [[]|]] e']|w]; try discriminate H.
  destruct (decide (op = 0xfe)) as [->|Hn]; [by eexists _, _, _|]. exfalso. revert H.
  repeat (case_match; try discriminate). intros _. lia.
Qed.
End SampleVM.
Import SampleVotes SampleVM.

Lemma code_cannot_panic_witness :
  match Run sample_ctx 10 sample_contract [] (sample_machine 7) with
  | Ret ((ret, err, c'), e') => Inv (e_db e') ∧ e_depth e' = 0
  | Panic w => code_panic sample_ctx w
  end.
Proof.
  pose proof (code_cannot_panic sample_ctx 10 sample_contract [] (sample_machine 7) sample_ctx_ok (sample_machine_Inv 7)
    (sample_sound 7 ltac:(lia)) zero_u64 sample_contract_ok ltac:(done)) as H.
  destruct (Run sample_ctx 10 sample_contract [] (sample_machine 7)) as [[[[ret err] c'] e']|w]; [|exact H].
  split; apply H.
Defined.

Lemma failed_call_no_trace_witness :
  ∃ ret gas' e', failing_call = Ret ((ret, gas', Some (errInvalidOpcode 0xfe)), e') ∧
    ∀ q, answer (ask q) (e_db e') = answer (ask q) target_state.
Proof.
  destruct failing_call_eq as (ret & gas' & e' & E). exists ret, gas', e'. split; [exact E|].
  apply (failed_call_no_trace sample_ctx 10 target_machine e' voter target [] ret 5000 gas' 0 3 [] None (errInvalidOpcode 0xfe)).
  - exact sample_ctx_ok.
  - exact target_Inv.
  - exact target_sound.
  - exact zero_u64.
  - split; unfold MaxUint64; lia.
  - lia.
  - done.
  - by split_and!.
  - exact E.
Defined.

(** The voter sends 3 to an account that does not exist. *)
Definition paying_call := Call sample_ctx (Run sample_ctx 10) voter ca [] 5000 0 3 [] None target_machine.

Lemma paying_call_returns : (match paying_call with Ret ((_, _, None), _) => true | _ => false end) = true.
Proof. vm_compute. reflexivity. Qed.

Lemma call_creates_nothing_witness :
  ∃ r e', paying_call = Ret (r, e') ∧
    ∀ coin, ∃ known, ∀ l, NoDup l → known ⊆ l → total (holding (e_db e') coin) l ≤ total (holding target_state coin) l.
Proof.
  pose proof paying_call_returns as H. destruct paying_call as [[r e']|w] eqn:E; [|discriminate H]. exists r, e'. split; [reflexivity|].
  apply (call_creates_nothing sample_ctx 10 target_machine e' voter ca [] 5000 0 3 [] None r).
  - exact sample_ctx_ok.
  - exact target_Inv.
  - exact target_sound.
  - exact zero_u64.
  - split; unfold MaxUint64; lia.
  - lia.
  - done.
  - by split_and!.
  - exact E.
Defined.

Definition sample_frame : Frame := mkFrame sample_contract NewMemory [] 0.
Definition sample_turn := turn sample_ctx (Run sample_ctx 1) (sample_machine 7, sample_frame).

Lemma sample_turn_eq : sample_turn = Ret (None, (sample_machine 7,
  mkFrame (sample_contract <| ct_Gas := 4999 |>) NewMemory [1] 2)).
Proof. reflexivity. Qed.

Lemma turn_keeps_frame_witness : (length [1] ≤ 1024)%nat ∧ Forall (λ x, 0 ≤ x) [1].
Proof.
  assert (R : running (sample_machine 7) sample_frame).
  { constructor; simpl; [|constructor; simpl|lia|unfold code_limit; lia].
    - constructor; [apply sample_machine_Inv|apply sample_sound; lia|exact zero_u64].
    - exact sample_contract_ok.
    - constructor.
    - done.
    - lia. }
  pose proof (turn_keeps_frame sample_ctx 1 (sample_machine 7) (sample_machine 7) sample_frame
    (mkFrame (sample_contract <| ct_Gas := 4999 |>) NewMemory [1] 2) sample_ctx_ok R sample_turn_eq) as (H1 & H2 & _).
  exact (conj H1 H2).
Defined.
