(* ===== verification/VmFindings.v ===== *)
(** * Where the virtual machine does not do what it means to

    Concrete runs of the model on small contracts. *)

From S2P Require Import Prelude Assets Interfaces AssetInfo StateTypes StateDB Votes DelegateState.
From S2P Require Import Accounts Transfer VmData VmGas Evm Instructions Interpreter VmSafe.
Import SampleVotes SampleVM.

(** The gas a run ends with. *)
Definition gas_left (c : Contract) (e : EVM (gmap address bytes) (gmap hash bytes)) : option Z :=
  match Run sample_ctx 30 c [] e with
  | Ret ((_, None, c'), _) => Some (ct_Gas c')
  | _ => None
  end.

(** Seven pushes, [CALL] of account 11 with value 1, [POP], [STOP]. *)
Definition pump_code : bytes :=
  byte_of <$> [0x60; 0; 0x60; 0; 0x60; 0; 0x60; 0; 0x60; 1; 0x60; 11; 0x60; 0; 0xf1; 0x50; 0x00].

(** Sending value earns gas.  A call with value costs 550 more
    ([CallValueTransferGas]) and hands the callee 1000 ([CallStipend]), which come
    back unspent when the callee has no code: a contract that starts with 5000 gas
    and sends one unit to an account without code stops with 5397. *)
Theorem value_call_gains_gas :
  gas_left (mkContract voter voter pump_code hash0 None [] 5000 0 None false)
    (mkEVM sample_heap ((sample_state 7) <| s_stateObjects ::= <[ca := newObject ca (lit_of (voter_account 1)) true]> |>)
       0 0 [] false [] ∅) = Some 5397.
Proof. vm_compute. reflexivity. Qed.

(** Three pushes, [TRANSFERASSET] of asset 5 to account 11, [STOP]. *)
Definition asset_id : address := to_word 160 5.
Definition send_asset_code : bytes := byte_of <$> [0x60; 11; 0x60; 5; 0x60; 4; 0xe1; 0x00].
Definition holder_object : stateObject (gmap hash bytes) slice :=
  (newObject target (lit_of (mkAccount 0 5 hash0 (to_word 256 9) (Some 0) (mkSlice 0 0) [mkAsset asset_id 10] None)) true)
    <| o_code := Some send_asset_code |>.
Definition holder_machine : EVM (gmap address bytes) (gmap hash bytes) :=
  mkEVM sample_heap
    (mkStateDB ∅ {[ voter := newObject voter (lit_of (voter_account 7)) true; target := holder_object ]}
       ∅ None 0 hash0 hash0 0 ∅ 0 ∅ [] [] 0) 0 0 [] false [] ∅.

(** A static call can move assets.  [TRANSFERASSET] is not marked as writing in
    the jump table, so the interpreter lets it through in read-only mode: after
    [StaticCall] of a contract that holds 10 units of an asset, 4 of them belong
    to account 11. *)
Theorem static_call_moves_asset :
  asset_balance (e_db holder_machine) target asset_id = 10 ∧
  match StaticCall sample_ctx (Run sample_ctx 30) voter target [] 5000 holder_machine with
  | Ret ((_, _, None), e') =>
    asset_balance (e_db e') target asset_id = 6 ∧ asset_balance (e_db e') ca asset_id = 4
  | _ => False
  end.
Proof. vm_compute. done. Qed.

(** The context [NewEVMContext] makes for a plain transfer or a contract creation:
    the list of delegates is nil. *)
Definition no_delegates (ctx : Context) : Context :=
  mkContext (x_Origin ctx) (x_GasPrice ctx) (x_Coinbase ctx) (x_GasLimit ctx) (x_BlockNumber ctx) (x_Time ctx)
    (x_Difficulty ctx) None (x_GetHash ctx) (x_NoRecursion ctx) (x_EnablePreimageRecording ctx) (x_WatchInnerTx ctx)
    (x_IsByzantium ctx) (x_IsEpiphron ctx) (x_maxElectDelegate ctx) (x_grow ctx).

(** Creating a contract can stop the node.  For a contract creation the list of
    delegates is not loaded; constructor code that asks [ISDELEGATE] dereferences
    the nil pointer. *)
Theorem creation_panics :
  match Create (no_delegates sample_ctx) (Run (no_delegates sample_ctx) 30) voter (byte_of <$> [0x60; 11; 0xe5]) 5000
          None 0 EmptyString (sample_machine 7) with
  | Panic w => w = "nil delegate list"%string
  | Ret _ => False
  end.
Proof. vm_compute. reflexivity. Qed.

(** Code that returns what [CALLVALUE] answers. *)
Definition value_code : bytes := byte_of <$> [0x34; 0x60; 0; 0x52; 0x60; 32; 0x60; 0; 0xf3].
Definition library_object : stateObject (gmap hash bytes) slice := holder_object <| o_code := Some value_code |>.
Definition library_machine : EVM (gmap address bytes) (gmap hash bytes) :=
  mkEVM sample_heap
    (mkStateDB ∅ {[ voter := newObject voter (lit_of (voter_account 7)) true; target := library_object ]}
       ∅ None 0 hash0 hash0 0 ∅ 0 ∅ [] [] 0) 0 0 [] false [] ∅.

(** Delegated code takes an amount of an asset for currency.  A contract that was
    sent 9 units of an asset sees [CALLVALUE] zero; code it runs with [DelegateCall]
    keeps the amount but not the asset and sees 9. *)
Theorem delegated_value_confused :
  let c := mkContract voter ca value_code hash0 None [] 5000 9 (Some asset_id) false in
  match Run sample_ctx 30 c [] library_machine with
  | Ret ((ret, None, _), _) => be_val ret = 0
  | _ => False
  end ∧
  match DelegateCall sample_ctx (Run sample_ctx 30) c target [] 5000 library_machine with
  | Ret ((ret, _, None), _) => be_val ret = 9
  | _ => False
  end.
Proof. vm_compute. done. Qed.
