(* ===== verification/VmTerm.v ===== *)
(** * Turns

    The loop of the interpreter is given a number of turns; the code has no such
    number.  More turns never change an answer, so an answer is that of the code;
    and code without calls, which pays for every turn, gets an answer within as
    many turns as it has gas. *)

From S2P Require Import Prelude Assets Interfaces AssetInfo StateTypes StateDB StateRevert StateSnapshot.
From S2P Require Import Votes DelegateState Accounts Transfer VmData StateSound VmGas Evm.
From S2P Require Import Instructions Interpreter Hex VmJump VmWp VmOps VmCosts VmCalls VmSafe.

(** ** Answers that do not depend on the turns left *)

(** [m'] answers as [m] does unless [m] is out of turns. *)
Definition below {S A} (m m' : GM S A) : Prop := ∀ s, m s = m' s ∨ m s = Panic out_of_turns.

Section Below.
Context {S : Type}.

Lemma below_refl {A} (m : GM S A) : below m m.
Proof. intros s. by left. Qed.

Lemma below_bind {A B} (m m' : GM S A) (k k' : A → GM S B) :
  below m m' → (∀ a, below (k a) (k' a)) → below (m ≫= k) (m' ≫= k').
Proof.
  intros Hm Hk s. unfold mbind, GM_bind. destruct (Hm s) as [->| ->]; [|by right].
  destruct (m' s) as [[a s']|w]; [apply Hk|by left].
Qed.
End Below.

Section More.
Context {AT ST : Type} `{ENV : StateEnv AT ST slice} `{CRYPTO : CryptoOps}.
Variable ctx : Context.

#[local] Abbreviation EM := (GM (EVM AT ST)).
#[local] Abbreviation FM := (GM (EVM AT ST * Frame)).
#[local] Abbreviation ran := (bytes * option vmerr * Contract)%type.

Lemma below_on_evm {A} (m m' : EM A) : below m m' → below (on_evm m) (on_evm m').
Proof. intros H ef. unfold on_evm. destruct (H ef.1) as [->| ->]; [by left|by right]. Qed.

Variable R R' : Contract → bytes → EM ran.
Context (HR : ∀ c i, below (R c i) (R' c i)).

Ltac bl :=
  lazymatch goal with
  | |- below ?m ?m => apply below_refl
  | |- below (_ ≫= _) (_ ≫= _) => apply below_bind; [bl|intros; bl]
  | |- below (on_evm _) (on_evm _) => apply below_on_evm; bl
  | |- below (if ?b then _ else _) _ => destruct b; bl
  | |- below (match ?x with _ => _ end) _ => destruct x; bl
  | |- below (let _ := _ in _) _ => cbv zeta; bl
  | |- _ => first [solve [auto] | idtac]
  end.

Lemma run_below c i : below (run R c i) (run R' c i).
Proof using HR. unfold run. bl. Qed.
#[local] Hint Resolve run_below : core.
Lemma call_code_below sn a i c : below (call_code ctx R sn a i c) (call_code ctx R' sn a i c).
Proof using HR. unfold call_code. bl. Qed.
#[local] Hint Resolve call_code_below : core.
Lemma Call_below caller addr i gas action value votes asset :
  below (Call ctx R caller addr i gas action value votes asset) (Call ctx R' caller addr i gas action value votes asset).
Proof using HR. unfold Call. bl. Qed.
Lemma CallCode_below caller addr i gas value : below (CallCode ctx R caller addr i gas value) (CallCode ctx R' caller addr i gas value).
Proof using HR. unfold CallCode. bl. Qed.
Lemma DelegateCall_below caller addr i gas : below (DelegateCall ctx R caller addr i gas) (DelegateCall ctx R' caller addr i gas).
Proof using HR. unfold DelegateCall. bl. Qed.
Lemma StaticCall_below caller addr i gas : below (StaticCall ctx R caller addr i gas) (StaticCall ctx R' caller addr i gas).
Proof using HR. unfold StaticCall. bl. Qed.
Lemma Create_below caller code gas asset value abi :
  below (Create ctx R caller code gas asset value abi) (Create ctx R' caller code gas asset value abi).
Proof using HR. unfold Create. bl. Qed.
#[local] Hint Resolve Call_below CallCode_below DelegateCall_below StaticCall_below Create_below : core.

(** ** The table *)

Record op_below (o o' : operation (AT := AT) (ST := ST)) : Prop := mkOpBelow {
  ob_execute : below (execute o) (execute o');
  ob_gas : gasCost o = gasCost o';
  ob_stack : validateStack o = validateStack o';
  ob_memory : memorySize o = memorySize o';
  ob_flags : (halts o, jumps o, writes o, reverts o, returns o) = (halts o', jumps o', writes o', reverts o', returns o')
}.

Lemma op_below_refl o : op_below o o.
Proof. constructor; try done. apply below_refl. Qed.

Definition entry_below (p p' : Z * operation (AT := AT) (ST := ST)) : Prop := p.1 = p'.1 ∧ op_below p.2 p'.2.

Lemma same_entries l : Forall2 entry_below l l.
Proof. apply Forall_Forall2_diag, Forall_true. intros p. split; [done|apply op_below_refl]. Qed.

Lemma simple_below a b g st : below a b → op_below (simple a g st) (simple b g st).
Proof. by constructor. Qed.
Lemma mem_below m o o' : op_below o o' → op_below (with_mem m o) (with_mem m o').
Proof. intros [He Hg Hs Hm Hf]. destruct o, o'. constructor; simpl in *; congruence || done. Qed.
Lemma returning_below o o' : op_below o o' → op_below (returning o) (returning o').
Proof. intros [He Hg Hs Hm Hf]. destruct o, o'. constructor; simpl in *; congruence || done. Qed.
Lemma writing_below o o' : op_below o o' → op_below (writing o) (writing o').
Proof. intros [He Hg Hs Hm Hf]. destruct o, o'. constructor; simpl in *; congruence || done. Qed.

Lemma opCall_below : below (opCall ctx R) (opCall ctx R').
Proof using HR. unfold opCall. bl. Qed.
Lemma opCallCode_below : below (opCallCode ctx R) (opCallCode ctx R').
Proof using HR. unfold opCallCode. bl. Qed.
Lemma opDelegateCall_below : below (opDelegateCall ctx R) (opDelegateCall ctx R').
Proof using HR. unfold opDelegateCall. bl. Qed.
Lemma opStaticCall_below : below (opStaticCall ctx R) (opStaticCall ctx R').
Proof using HR. unfold opStaticCall. bl. Qed.
Lemma opCreate_below : below (opCreate ctx R) (opCreate ctx R').
Proof using HR. unfold opCreate. bl. Qed.

Ltac op_bl :=
  lazymatch goal with
  | |- op_below (returning _) _ => apply returning_below; op_bl
  | |- op_below (writing _) _ => apply writing_below; op_bl
  | |- op_below (with_mem _ _) _ => apply mem_below; op_bl
  | |- op_below (simple (opCreate _ _) _ _) _ => apply simple_below, opCreate_below
  | |- op_below (simple (opCall _ _) _ _) _ => apply simple_below, opCall_below
  | |- op_below (simple (opCallCode _ _) _ _) _ => apply simple_below, opCallCode_below
  | |- op_below (simple (opDelegateCall _ _) _ _) _ => apply simple_below, opDelegateCall_below
  | |- op_below (simple (opStaticCall _ _) _ _) _ => apply simple_below, opStaticCall_below
  | |- _ => apply op_below_refl
  end.
Ltac entries_bl :=
  lazymatch goal with
  | |- Forall2 _ [] _ => constructor
  | |- Forall2 _ (_ :: _) _ => apply Forall2_cons; split; [split; cbn [fst snd]; [reflexivity|op_bl]|entries_bl]
  end.

Lemma closureOps_below : Forall2 entry_below (closureOps ctx R) (closureOps ctx R').
Proof using HR. unfold closureOps. entries_bl. Qed.

Lemma table_below : Forall2 entry_below (NewConstantinopleInstructionSet ctx R) (NewConstantinopleInstructionSet ctx R').
Proof using HR.
  unfold NewConstantinopleInstructionSet, NewByzantiumInstructionSet, NewHomesteadInstructionSet, NewFrontierInstructionSet.
  apply Forall2_app; [apply same_entries|]. apply Forall2_app; [entries_bl|].
  apply Forall2_cons; split; [split; cbn [fst snd]; [reflexivity|op_bl]|].
  repeat (apply Forall2_app; [first [apply closureOps_below | apply same_entries]|]). apply same_entries.
Qed.

Lemma lookup_below op l l' :
  Forall2 entry_below l l' → option_Forall2 op_below (lookup_op op l) (lookup_op op l').
Proof.
  induction 1 as [|[k o] [k' o'] l l' [Hk Ho] _ IH]; simpl in *; [constructor|]. subst k'. destruct (k =? op); [by constructor|done].
Qed.

Lemma turn_below : below (turn ctx R) (turn ctx R').
Proof using HR.
  unfold turn. apply below_bind; [apply below_refl|]. intros f.
  pose proof (lookup_below (GetOp (f_pc f) (f_contract f)) _ _ table_below) as HT. fold (JumpTable ctx R (GetOp (f_pc f) (f_contract f))) in HT.
  fold (JumpTable ctx R' (GetOp (f_pc f) (f_contract f))) in HT. destruct HT as [o o' [He Hg Hs Hm Hf]|]; [|apply below_refl].
  injection Hf as Hh Hj Hw Hr Ht. unfold enforceRestrictions, neededMemory, payAndResize. rewrite Hg, Hs, Hm, Hh, Hj, Hw, Hr, Ht. bl.
Qed.
End More.

Section Loop.
Context {AT ST : Type} `{ENV : StateEnv AT ST slice} `{CRYPTO : CryptoOps}.
Variable ctx : Context.

#[local] Abbreviation FM := (GM (EVM AT ST * Frame)).

Lemma Run_with_below (l l' : FM (bytes * option vmerr)) c i : below l l' → below (Run_with l c i) (Run_with l' c i).
Proof.
  intros H e. unfold Run_with. destruct (length (ct_Code c) =? 0)%nat; [by left|]. cbv zeta.
  match goal with |- context[l ?x] => destruct (H x) as [->| ->] end; [by left|by right].
Qed.

Lemma loop_below n : below (loop ctx n : FM _) (loop ctx (S n)).
Proof.
  induction n as [|n IH]; [intros ef; by right|]. cbn [loop]. apply below_bind; [apply turn_below; intros; by apply Run_with_below|].
  intros [res|]; [apply below_refl|exact IH].
Qed.

Lemma loop_more n k ef r : loop ctx n ef = Ret r → loop (AT := AT) (ST := ST) ctx (n + k) ef = Ret r.
Proof.
  intros H. induction k as [|k IH]; [by rewrite Nat.add_0_r|]. rewrite Nat.add_succ_r.
  destruct (loop_below (n + k) ef) as [E|E]; rewrite IH in E; [by rewrite <- E|discriminate].
Qed.
End Loop.

(** ** Code that calls no code *)

Section Quiet.
Context {AT ST : Type} `{ENV : StateEnv AT ST slice} `{CRYPTO : CryptoOps}.
Variable ctx : Context.

#[local] Abbreviation EM := (GM (EVM AT ST)).
#[local] Abbreviation FM := (GM (EVM AT ST * Frame)).
#[local] Abbreviation ran := (bytes * option vmerr * Contract)%type.

(** Two tables differ only in the instructions that run code. *)
Definition entry_same (p p' : Z * operation (AT := AT) (ST := ST)) : Prop :=
  p.1 = p'.1 ∧ (¬ In p.1 calling_ops → p.2 = p'.2).

Lemma entries_same l : Forall2 entry_same l l.
Proof. apply Forall_Forall2_diag, Forall_true. intros p. by split. Qed.

Ltac entries_eq :=
  lazymatch goal with
  | |- Forall2 _ [] _ => constructor
  | |- Forall2 _ (_ :: _) _ =>
    apply Forall2_cons; split; [split; cbn [fst snd];
      [reflexivity|let H := fresh in intros H; first [solve [destruct H; repeat (first [left; reflexivity | right])] | reflexivity]]|entries_eq]
  end.

Variable R R' : Contract → bytes → EM ran.

Lemma table_same : Forall2 entry_same (NewConstantinopleInstructionSet ctx R) (NewConstantinopleInstructionSet ctx R').
Proof.
  unfold NewConstantinopleInstructionSet, NewByzantiumInstructionSet, NewHomesteadInstructionSet, NewFrontierInstructionSet.
  apply Forall2_app; [apply entries_same|]. apply Forall2_app; [entries_eq|].
  apply Forall2_cons; split; [split; cbn [fst snd]; [reflexivity|intros H; destruct H; do 3 right; by left]|].
  do 7 (apply Forall2_app; [apply entries_same|]). apply Forall2_app; [unfold closureOps; entries_eq|apply entries_same].
Qed.

Lemma lookup_same op l l' : Forall2 entry_same l l' → ¬ In op calling_ops → lookup_op op l = lookup_op op l'.
Proof.
  intros H Hop. induction H as [|[k o] [k' o'] l l' [Hk Ho] _ IH]; simpl in *; [done|]. subst k'.
  destruct (Z.eqb_spec k op) as [->|]; [by rewrite Ho|done].
Qed.

Lemma turn_same e f : ¬ In (GetOp (f_pc f) (f_contract f)) calling_ops → turn ctx R (e, f) = turn ctx R' (e, f).
Proof.
  intros H. unfold turn. erewrite !GM_bind_run by reflexivity. cbn [snd]. unfold JumpTable. by rewrite (lookup_same _ _ _ table_same H).
Qed.
End Quiet.

(** No byte of the code is an instruction that runs code. *)
Definition call_free (code : bytes) : bool := forallb (λ b, negb (existsb (Z.eqb (byte_val b)) calling_ops)) code.

Lemma call_free_op pc c : call_free (ct_Code c) = true → ¬ In (GetOp pc c) calling_ops.
Proof.
  intros H Hin. unfold GetOp, GetByte in Hin.
  assert (Z : ¬ In 0 calling_ops) by (by intros [|[|[|[|[|[]]]]]]).
  destruct (_ <? _); [|done].
  destruct (ct_Code c !! Z.to_nat pc) as [b|] eqn:E; cbn in Hin; [|done].
  unfold call_free in H. rewrite forallb_forall in H. specialize (H b (proj1 (list_elem_of_In _ _) (list_elem_of_lookup_2 _ _ _ E))).
  apply negb_true_iff in H. enough (existsb (Z.eqb (byte_val b)) calling_ops = true) by congruence.
  apply existsb_exists. exists (byte_val b). split; [exact Hin|apply Z.eqb_refl].
Qed.

(** The panics of a loop that may not run out of turns. *)
Definition within_turns : Tolerance := {|
  tolerated w := w = bitvec_panic ∨ w = getData_panic;
  tolerates_bitvec := or_introl eq_refl;
  tolerates_getData := or_intror eq_refl
|}.

Section Terminates.
Context {AT ST : Type} `{ENV : StateEnv AT ST slice} `{CRYPTO : CryptoOps}.
Variable ctx : Context.
#[local] Existing Instance within_turns | 0.
Context (CX : ctx_ok (AT := AT) (ST := ST) ctx).

Lemma idle_ok : run_ok (λ c _, mret ([], None, c) : GM (EVM AT ST) _).
Proof. intros c i e G C Hi. split; [by apply later_refl|apply C]. Qed.

Lemma loop_terminates fuel e f :
  running e f → call_free (ct_Code (f_contract f)) = true → ct_Gas (f_contract f) < Z.of_nat fuel →
  wp (loop ctx fuel) (λ _ ef, later e ef.1 ∧ is_u64 (ct_Gas (f_contract ef.2))) (e, f).
Proof using CX.
  revert e f. induction fuel as [|fuel IH]; intros e f R Hc Hg.
  { pose proof (co_Gas _ (fo_contract _ (rn_frame _ _ R))) as [? ?]. lia. }
  pose proof (call_free_op (f_pc f) _ Hc) as Hop. cbn [loop]. apply wp_bind.
  unfold wp at 1. rewrite (turn_same ctx _ (λ c _, mret ([], None, c)) e f Hop).
  pose proof (turn_ok ctx CX _ idle_ok e f R) as H. unfold wp in H at 1. destruct (turn _ _ _) as [[r [e1 f1]]|w]; [|exact H].
  cbn [fst snd] in H. destruct H as (L & U & H). destruct r as [res|]; [by apply wp_ret|]. destruct H as [R1 [Ec Hlt]].
  eapply wp_mono; [apply IH; [done|by rewrite Ec|specialize (Hlt Hop); lia]|].
  intros _ [e2 f2] [L2 U2]. split; [by eapply later_trans|done].
Qed.

Lemma starts_running c input (e : EVM AT ST) :
  good e → contract_ok c → blen input ≤ code_limit →
  running (e <| e_depth ::= λ d, d + 1 |> <| e_returnData := [] |>) (mkFrame (c <| ct_Input := input |>) NewMemory [] 0).
Proof.
  intros G [] Hi. constructor; simpl; [by apply (set_depth e)| |lia|unfold code_limit; lia].
  constructor; simpl; [by constructor|constructor|done|done].
Qed.
End Terminates.

(** ** Claims *)

(** More turns never change an answer.  If running code returns within some
    number of turns, it returns the same result and the same state within any
    larger number: the number of turns is not part of what the code computes. *)
Theorem more_turns_same_answer {AT ST} `{ENV : StateEnv AT ST slice} `{CRYPTO : CryptoOps}
    (ctx : Context) (fuel more : nat) (c : Contract) (input : bytes) (e : EVM AT ST) r :
  Run ctx fuel c input e = Ret r → Run ctx (fuel + more) c input e = Ret r.
Proof.
  unfold Run, Run_with. destruct (length (ct_Code c) =? 0)%nat; [done|]. cbv zeta.
  destruct (loop ctx fuel _) as [x|w] eqn:E; [|done]. by rewrite (loop_more _ _ _ _ _ E).
Qed.

(** C34: Code without calls ends.  Under the rules after the Epiphron fork, before which
    reading the state is free, and with the list of delegates given: every instruction
    that neither stops the code nor runs other code costs gas, so code without the five
    calling instructions takes at most one turn more than it has gas: with that many
    turns it never runs out of them.  From a sound state it returns, except for the
    panics named for running code, as where the jump analysis finds the bit vector of
    other code under its hash. *)
Theorem call_free_terminates {AT ST} `{ENV : StateEnv AT ST slice} `{CRYPTO : CryptoOps}
    (ctx : Context) (fuel : nat) (c : Contract) (input : bytes) (e : EVM AT ST) :
  ctx_ok (TOL := within_turns) (AT := AT) (ST := ST) ctx → Inv (e_db e) → sound (e_db e) → is_u64 (e_callGasTemp e) →
  contract_ok c → blen input ≤ code_limit → call_free (ct_Code c) = true → ct_Gas c < Z.of_nat fuel →
  match Run ctx fuel c input e with
  | Ret ((ret, err, c'), e') => is_u64 (ct_Gas c') ∧ Inv (e_db e') ∧ sound (e_db e')
  | Panic w => w = bitvec_panic ∨ w = getData_panic
  end.
Proof.
  intros CX I S T C Hi Hf Hg. pose proof (starts_running c input e (mkGood e I S T) C Hi) as R.
  unfold Run, Run_with. destruct (length (ct_Code c) =? 0)%nat; [by split_and!; [apply C|..]|]. cbv zeta.
  pose proof (loop_terminates ctx CX fuel _ _ R Hf Hg) as H. unfold wp in H.
  destruct (loop ctx fuel _) as [[[ret err] [e' f']]|w]; [|exact H]. destruct H as [[[I' S' T'] D Rd Hh Si] U]. by split_and!.
Qed.

Import SampleVotes SampleVM.

(** The code [PUSH1 1; PUSH1 2; ADD; STOP]. *)
Definition adding : Contract :=
  mkContract voter voter (byte_of <$> [0x60; 0x01; 0x60; 0x02; 0x01; 0x00]) hash0 None [] 50 0 None false.

Lemma adding_ok : contract_ok adding.
Proof. constructor; [done|split; done|done|done]. Qed.

Lemma adding_ends : (match Run sample_ctx 4 adding [] (sample_machine 7) with Ret ((_, None, c'), _) => ct_Gas c' | _ => -1 end) = 47.
Proof. vm_compute. reflexivity. Qed.

Lemma more_turns_same_answer_witness : ∃ r, Run sample_ctx (4 + 10) adding [] (sample_machine 7) = Ret r.
Proof.
  pose proof adding_ends as H. destruct (Run sample_ctx 4 adding [] (sample_machine 7)) as [r|w] eqn:E; [|discriminate H].
  exists r. exact (more_turns_same_answer sample_ctx 4 10 adding [] (sample_machine 7) r E).
Defined.

Lemma call_free_terminates_witness :
  match Run sample_ctx 51 adding [] (sample_machine 7) with
  | Ret ((ret, err, c'), e') => is_u64 (ct_Gas c')
  | Panic w => w = bitvec_panic ∨ w = getData_panic
  end.
Proof.
  pose proof (call_free_terminates sample_ctx 51 adding [] (sample_machine 7) sample_ctx_ok (sample_machine_Inv 7)
    (sample_sound 7 ltac:(lia)) zero_u64 adding_ok ltac:(done) eq_refl eq_refl) as H.
  destruct (Run sample_ctx 51 adding [] (sample_machine 7)) as [[[[ret err] c'] e']|w]; [apply H|exact H].
Defined.
