(* ===== verification/VmLoop.v ===== *)
(** * Code that never ends

    Sending value earns gas, even when the send fails.  A loop around such a call
    has more gas after each round than before. *)

From S2P Require Import Prelude Assets Interfaces AssetInfo StateTypes StateDB StateRevert StateSnapshot.
From S2P Require Import Votes DelegateState Accounts Transfer VmData VmGas Evm.
From S2P Require Import Instructions Interpreter VmArith VmJump VmWp VmSafe.

(** A frame that has paid. *)
Definition pay (cost : Z) (f : Frame) : Frame := f <| f_contract ::= λ c, c <| ct_Gas ::= λ g, g - cost |> |>.

Section Turn.
Context {AT ST : Type} `{ENV : StateEnv AT ST slice} `{CRYPTO : CryptoOps}.
Variable ctx : Context.
Variable R : Contract → bytes → GM (EVM AT ST) (bytes * option vmerr * Contract).

(** A turn, from what its parts do. *)
Lemma turn_run (o : operation) cost (e e1 e2 : EVM AT ST) (f f1 f2 : Frame) (res : bytes) :
  let op := GetOp (f_pc f) (f_contract f) in
  JumpTable ctx R op = Some o →
  validateStack o (Z.of_nat (length (f_stack f))) = None →
  enforceRestrictions ctx op o (e, f) = Ret (None, (e, f)) →
  neededMemory o (e, f) = Ret (inl 0, (e, f)) →
  gasCost o (gasTable_of (x_IsEpiphron ctx)) 0 (e, f) = Ret (inl cost, (e1, f1)) →
  cost ≤ ct_Gas (f_contract f1) →
  execute o (e1, pay cost f1) = Ret ((res, None), (e2, f2)) →
  reverts o = false → halts o = false →
  turn ctx R (e, f) = Ret (None, (if returns o then e2 <| e_returnData := res |> else e2,
    if jumps o then f2 else f2 <| f_pc ::= λ pc, u64 (pc + 1) |>)).
Proof.
  intros op Ho Hv He Hm Hg Hc Hx Hr Hh. unfold turn. erewrite GM_bind_run by reflexivity. cbn [snd]. fold op.
  rewrite Ho, Hv, (GM_bind_run _ _ _ _ _ He), (GM_bind_run _ _ _ _ _ Hm).
  assert (Hp : payAndResize ctx o 0 (e, f) = Ret (None, (e1, pay cost f1))).
  { unfold payAndResize. rewrite (GM_bind_run _ _ _ _ _ Hg). erewrite GM_bind_run by reflexivity. cbn [snd]. unfold UseGas.
    rewrite (proj2 (Z.ltb_ge _ _)) by done. reflexivity. }
  rewrite (GM_bind_run _ _ _ _ _ Hp), (GM_bind_run _ _ _ _ _ Hx). rewrite Hr, Hh. by destruct (returns o), (jumps o).
Qed.
End Turn.

(** ** The loop

    Send one unit from the contract to itself with no gas, drop the answer, start
    again:
    [JUMPDEST; PUSH1 0 (4 times); PUSH1 1; ADDRESS; PUSH1 0; CALL; POP; PUSH1 0; JUMP]. *)
Definition endless_code : bytes :=
  byte_of <$> [0x5b; 0x60; 0; 0x60; 0; 0x60; 0; 0x60; 0; 0x60; 1; 0x30; 0x60; 0; 0xf1; 0x50; 0x60; 0; 0x56].

Section Endless.
Context {AT ST : Type} `{ENV : StateEnv AT ST slice} `{CRYPTO : CryptoOps}.
Variable ctx : Context.
Variable code_of : hash → bytes.
Variables (caller self : address) (h : hash) (ca : option address) (input : bytes) (v : Z) (asset : option address) (dc : bool).
Variable M : Memory.
Hypothesis nested : x_NoRecursion ctx = false.
Hypothesis code_known : code_of h = endless_code.

(** What stays true of the machine: the contract has an account with nothing in it. *)
Record penniless (e : EVM AT ST) : Prop := {
  pn_write : x_IsByzantium ctx && e_readOnly e = false;
  pn_depth : e_depth e ≤ CallCreateDepth;
  pn_dests : cached code_of (e_jumpdests e);
  pn_account : ∃ o, s_stateObjects (e_db e) !! self = Some o ∧ o_deleted o = false ∧ a_Balance (o_data o) < 1
}.

Definition at_pc (g : Z) (st : list Z) (pc : Z) : Frame :=
  mkFrame (mkContract caller self endless_code h ca input g v asset dc) M st pc.

Section Turns.
Variable R : Contract → bytes → GM (EVM AT ST) (bytes * option vmerr * Contract).
Variable e : EVM AT ST.
Hypothesis P : penniless e.

Lemma no_restriction o op f : enforceRestrictions ctx op o (e, f) = Ret (None, (e, f)).
Proof. unfold enforceRestrictions. erewrite GM_bind_run by reflexivity. cbn [fst snd]. by rewrite (pn_write e P). Qed.

(** The turns that only use the frame. *)
Lemma plain_turn ex cost pops pushes g st pc st2 pc2 :
  JumpTable ctx R (GetOp pc (f_contract (at_pc g st pc))) = Some (simple ex (constGasFunc cost) (makeStackFunc pops pushes)) →
  makeStackFunc pops pushes (Z.of_nat (length st)) = None →
  ex (e, at_pc (g - cost) st pc) = Ret (([], None), (e, at_pc (g - cost) st2 pc2)) →
  cost ≤ g →
  turn ctx R (e, at_pc g st pc) = Ret (None, (e, at_pc (g - cost) st2 (u64 (pc2 + 1)))).
Proof.
  intros Ho Hs Hx Hc.
  rewrite (turn_run ctx R _ cost e e e (at_pc g st pc) (at_pc g st pc) (at_pc (g - cost) st2 pc2) [] Ho);
    [reflexivity|exact Hs|apply no_restriction|reflexivity|reflexivity|exact Hc|exact Hx|reflexivity..].
Qed.

Lemma jumpdest_turn g : 1 ≤ g → turn ctx R (e, at_pc g [] 0) = Ret (None, (e, at_pc (g - 1) [] 1)).
Proof. apply (plain_turn opJumpdest 1 0 0 g [] 0 [] 0); reflexivity. Qed.

Lemma push_turn b g st pc pc' :
  In (pc, b, pc') [(1, 0, 3); (3, 0, 5); (5, 0, 7); (7, 0, 9); (9, 1, 11); (12, 0, 14); (16, 0, 18)] →
  Z.of_nat (length st) < StackLimit → 1 ≤ g →
  turn ctx R (e, at_pc g st pc) = Ret (None, (e, at_pc (g - 1) (b :: st) pc')).
Proof.
  intros Hin Hl. assert (Hs : makeStackFunc 0 1 (Z.of_nat (length st)) = None).
  { unfold makeStackFunc. rewrite (proj2 (Z.ltb_ge _ _)), Z.gtb_ltb, (proj2 (Z.ltb_ge _ _)) by lia. done. }
  repeat (destruct Hin as [E|Hin]; [injection E as <- <- <-;
    match goal with |- _ → turn _ _ (_, at_pc _ _ ?pc) = Ret (_, (_, at_pc _ (?b :: _) _)) =>
      exact (plain_turn (makePush 1 1) 1 0 1 g st pc (b :: st) (pc + 1) eq_refl Hs eq_refl)
    end|]).
  destruct Hin.
Qed.

Lemma address_turn g st :
  1 ≤ g → Z.of_nat (length st) < StackLimit →
  turn ctx R (e, at_pc g st 11) = Ret (None, (e, at_pc (g - 1) ((self : Z) :: st) 12)).
Proof.
  intros Hg Hl. apply (plain_turn opAddress 1 0 1 g st 11 ((self : Z) :: st) 11); [reflexivity| |reflexivity|done].
  unfold makeStackFunc. rewrite (proj2 (Z.ltb_ge _ _)), Z.gtb_ltb, (proj2 (Z.ltb_ge _ _)) by lia. done.
Qed.

Lemma pop_turn g x : 1 ≤ g → turn ctx R (e, at_pc g [x] 15) = Ret (None, (e, at_pc (g - 1) [] 16)).
Proof. apply (plain_turn opPop 1 1 0 g [x] 15 [] 15); reflexivity. Qed.

(** ** The call *)

(** Reading the contract's own account changes nothing. *)
Lemma read_self {A} (d : A) (get : stateObject ST slice → A) :
  ∃ o, read_object d get self (e_db e) = Ret (get o, e_db e) ∧ a_Balance (o_data o) < 1.
Proof.
  destruct (pn_account e P) as (o & Ho & Hd & Hb). exists o. split; [|done].
  unfold read_object, getStateObject, mbind, GM_bind, gget. rewrite Ho, Hd. done.
Qed.

Lemma on_db_read {A} (m : GM (StateDB AT ST slice) A) a : m (e_db e) = Ret (a, e_db e) → on_db m e = Ret (a, e).
Proof. intros H. unfold on_db. rewrite H. by destruct e. Qed.

Definition call_cost : Z := gt_Calls (gasTable_of (x_IsEpiphron ctx)) + CallValueTransferGas.
Definition call_stack : list Z := [0; self : Z; 1; 0; 0; 0; 0].

Lemma call_cost_range : 550 ≤ call_cost ≤ 595.
Proof. unfold call_cost. destruct (x_IsEpiphron ctx); done. Qed.

Lemma callGas_none gt available base : callGas gt available base 0 = inl 0.
Proof.
  unfold callGas. destruct (gt_CreateBySuicide gt >? 0); [|done].
  pose proof (u64_range (available - base)) as [Hu _].
  assert (u64 (available - base) / 64 ≤ u64 (available - base)) by (apply Z.div_le_upper_bound; lia).
  change (Uint64 0) with 0. rewrite (proj2 (Z.ltb_ge _ 0)) by lia. done.
Qed.

Lemma call_gas g :
  gasCall (gasTable_of (x_IsEpiphron ctx)) 0 (e, at_pc g call_stack 14)
  = Ret (inl call_cost, (e <| e_callGasTemp := 0 |>, at_pc g call_stack 14)).
Proof.
  unfold gasCall. do 2 erewrite GM_bind_run by reflexivity.
  destruct (read_self false (λ _, true)) as (o & Ho & _).
  assert (Hx : db (Exist (BigToAddress (self : Z))) (e, at_pc g call_stack 14) = Ret (true, (e, at_pc g call_stack 14))).
  { unfold BigToAddress. rewrite Z.abs_eq, to_word_id by apply word_bounds. unfold db, on_evm. cbn [fst].
    unfold Exist. by rewrite (on_db_read _ _ Ho). }
  rewrite (GM_bind_run _ _ _ _ _ Hx).
  transitivity (callCosts (gasTable_of (x_IsEpiphron ctx)) call_cost (e, at_pc g call_stack 14)).
  { unfold call_cost. destruct (x_IsEpiphron ctx); reflexivity. }
  unfold callCosts. do 2 erewrite GM_bind_run by reflexivity. rewrite callGas_none.
  unfold call_cost. destruct (x_IsEpiphron ctx); reflexivity.
Qed.

(** The contract has less than the one unit the call sends. *)
Lemma call_refused args gas : Call ctx R self self args gas 0 1 [] None (e <| e_callGasTemp := 0 |>)
  = Ret (([], gas, Some ErrInsufficientBalance), e <| e_callGasTemp := 0 |>).
Proof.
  unfold Call. erewrite GM_bind_run by reflexivity. rewrite nested. cbn [andb].
  rewrite Z.gtb_ltb, (proj2 (Z.ltb_ge _ _)) by apply (pn_depth e P).
  destruct (read_self 0 (λ o, a_Balance (o_data o))) as (o & Ho & Hb).
  assert (Hc : cannot_pay self 0 1 None (e <| e_callGasTemp := 0 |>) = Ret (true, e <| e_callGasTemp := 0 |>)).
  { unfold cannot_pay, CanTransfer, on_db, GetBalance, mbind, GM_bind. cbn -[Z.geb].
    rewrite Ho. cbn -[Z.geb]. by rewrite Z.geb_leb, (proj2 (Z.leb_gt _ _)) by lia. }
  by rewrite (GM_bind_run _ _ _ _ _ Hc).
Qed.

Lemma call_turn g : call_cost ≤ g → g + CallStipend ≤ MaxUint64 →
  turn ctx R (e, at_pc g call_stack 14)
  = Ret (None, (e <| e_callGasTemp := 0 |> <| e_returnData := [] |>, at_pc (g - call_cost + CallStipend) [0] 15)).
Proof.
  intros Hc Hg.
  rewrite (turn_run ctx R _ call_cost e (e <| e_callGasTemp := 0 |>) (e <| e_callGasTemp := 0 |>) (at_pc g call_stack 14)
    (at_pc g call_stack 14) (at_pc (g - call_cost + CallStipend) [0] 14) [] eq_refl);
    [reflexivity|reflexivity|apply no_restriction|reflexivity|apply call_gas|exact Hc| |reflexivity..].
  change (opCall ctx R (e <| e_callGasTemp := 0 |>, at_pc (g - call_cost) call_stack 14)
    = Ret (([], None), (e <| e_callGasTemp := 0 |>, at_pc (g - call_cost + CallStipend) [0] 14))).
  unfold opCall. do 10 erewrite GM_bind_run by reflexivity.
  unfold BigToAddress. rewrite Z.abs_eq, to_word_id by apply word_bounds.
  assert (Hr : ∀ f args, on_evm (Call ctx R self self args CallStipend 0 1 [] None) (e <| e_callGasTemp := 0 |>, f)
    = Ret (([], CallStipend, Some ErrInsufficientBalance), (e <| e_callGasTemp := 0 |>, f))).
  { intros f args. unfold on_evm. cbn [fst]. by rewrite call_refused. }
  rewrite (GM_bind_run _ _ _ _ _ (Hr _ _)).
  transitivity (Ret (([] : bytes, None : option vmerr),
    (e <| e_callGasTemp := 0 |>, at_pc (u64 (g - call_cost + CallStipend)) [0] 14))); [reflexivity|].
  pose proof call_cost_range. rewrite u64_small by (unfold is_u64, MaxUint64, CallStipend in *; lia). done.
Qed.

Lemma start_jumpdest : jumpdest endless_code 0.
Proof. split_and!; [discriminate|reflexivity..]. Qed.

Lemma jump_turn g : 3 ≤ g →
  ∃ d, cached code_of d ∧ turn ctx R (e, at_pc g [0] 18) = Ret (None, (e <| e_jumpdests := d |>, at_pc (g - 3) [] 0)).
Proof.
  intros Hg. destruct (dest_has_run code_of (e_jumpdests e) h 0 (pn_dests e P)) as (b & d & E & Hd & Hb); [done|by rewrite code_known|].
  exists d. split; [done|]. rewrite code_known in E, Hb. rewrite (proj2 Hb start_jumpdest) in E.
  rewrite (turn_run ctx R _ 3 e e (e <| e_jumpdests := d |>) (at_pc g [0] 18) (at_pc g [0] 18) (at_pc (g - 3) [] 0) [] eq_refl);
    [reflexivity|reflexivity|apply no_restriction|reflexivity|reflexivity|exact Hg| |reflexivity..].
  change (opJump (e, at_pc (g - 3) [0] 18) = Ret (([], None), (e <| e_jumpdests := d |>, at_pc (g - 3) [] 0))).
  unfold opJump. erewrite GM_bind_run by reflexivity.
  unfold jump_to, jump_ok, frame, contract, on_evm, pure_out, mbind, GM_bind. cbn -[dest_has endless_code]. by rewrite E.
Qed.
End Turns.

(** ** The theorem *)

Lemma loop_turn fuel (e e' : EVM AT ST) f f' :
  turn ctx (Run_with (loop ctx fuel)) (e, f) = Ret (None, (e', f')) → loop ctx (S fuel) (e, f) = loop ctx fuel (e', f').
Proof.
  intros H. change (loop ctx (S fuel)) with
    (r ← turn ctx (Run_with (loop ctx fuel)); match r with Some res => mret res | None => loop ctx fuel end).
  by rewrite (GM_bind_run _ _ _ _ _ H).
Qed.

(** One turn, unless there is none left. *)
Ltac tick := match goal with |- loop _ ?n _ = _ => destruct n as [|n]; [reflexivity|] end.
Ltac turn_by lem :=
  tick;
  erewrite loop_turn by (eapply lem; [eassumption|(simpl; unfold StackLimit, CallStipend; lia)..]).
Ltac push_by :=
  tick;
  erewrite loop_turn by (eapply push_turn; [eassumption|simpl; eauto 10|simpl; unfold StackLimit, CallStipend; lia..]).

Lemma endless_loop fuel : ∀ (e : EVM AT ST) g, penniless e → 700 ≤ g → g + 500 * Z.of_nat fuel ≤ 2 ^ 63 →
  loop ctx fuel (e, at_pc g [] 0) = Panic out_of_turns.
Proof.
  induction (lt_wf fuel) as [fuel _ IH]. intros e g P Hg Hf. pose proof call_cost_range.
  turn_by jumpdest_turn. do 5 push_by. turn_by address_turn. push_by.
  tick.
  erewrite loop_turn by (eapply call_turn; [eassumption|unfold MaxUint64, CallStipend; lia..]).
  assert (P1 : penniless (e <| e_callGasTemp := 0 |> <| e_returnData := [] |>)) by (destruct P; by constructor).
  turn_by pop_turn. push_by.
  tick.
  match goal with |- loop _ (S ?n) (?e1, at_pc ?g1 _ _) = _ =>
    destruct (jump_turn (Run_with (loop ctx n)) e1 P1 g1) as (d & Hd & Hj); [unfold CallStipend; lia|]; rewrite (loop_turn _ _ _ _ _ Hj)
  end.
  apply IH; [lia|destruct P1; by constructor|unfold CallStipend; lia..].
Qed.
End Endless.

(** C39: failing to send value is free and pays: code that sends a unit it does not
    have, in a loop, has more gas after every round than before.  From 700 gas it is
    still running after any number of turns below 2^63/500, which is longer than
    any block; the loop of the interpreter has no other bound. *)
Theorem failing_sends_never_end {AT ST : Type} `{ENV : StateEnv AT ST slice} `{CRYPTO : CryptoOps}
    (ctx : Context) (code_of : hash → bytes) (fuel : nat) (c : Contract) (input : bytes) (e : EVM AT ST) o :
  x_NoRecursion ctx = false → x_IsByzantium ctx && e_readOnly e = false → e_depth e < CallCreateDepth →
  ct_Code c = endless_code → code_of (ct_CodeHash c) = endless_code → cached code_of (e_jumpdests e) →
  s_stateObjects (e_db e) !! ct_self c = Some o → o_deleted o = false → a_Balance (o_data o) < 1 →
  700 ≤ ct_Gas c → ct_Gas c + 500 * Z.of_nat fuel ≤ 2 ^ 63 →
  Run ctx fuel c input e = Panic out_of_turns.
Proof.
  intros Hn Hr Hd Hc Hk Hj Ho Hl Hb Hg Hf. destruct c as [caller self code h ca i g v asset dc]. simpl in *. subst code.
  pose proof (endless_loop ctx code_of caller self h ca input v asset dc NewMemory Hn Hk fuel
    (e <| e_depth ::= λ d, d + 1 |> <| e_returnData := [] |>) g) as L.
  unfold Run, Run_with. cbn -[endless_code loop]. unfold at_pc in L. cbn -[endless_code loop] in L.
  rewrite L; [done| |done..]. constructor; [done|simpl; lia|done|by exists o].
Qed.

Import SampleVotes SampleVM.

Definition endless_machine : EVM (gmap address bytes) (gmap hash bytes) := mkEVM sample_heap (sample_state 0) 0 0 [] false [] ∅.
Definition endless_contract : Contract := mkContract voter voter endless_code hash0 None [] 700 0 None false.

(** 700 gas last for a million billion turns. *)
Lemma failing_sends_never_end_witness :
  Run sample_ctx (Z.to_nat (10 ^ 15)) endless_contract [] endless_machine = Panic out_of_turns.
Proof.
  apply (failing_sends_never_end sample_ctx (λ _, endless_code) (Z.to_nat (10 ^ 15)) endless_contract [] endless_machine
    (newObject voter (lit_of (voter_account 0)) true));
    [reflexivity|reflexivity|reflexivity|reflexivity|reflexivity|intros k m H; discriminate H|reflexivity|reflexivity|reflexivity|done|].
  rewrite Z2Nat.id by lia. done.
Defined.
