(* ===== verification/Config.v ===== *)
(** * Chain configuration ([params/config.go])

    The blocks at which rules change, and the comparison of the configuration a
    database was made with against the one the node starts with: [CheckCompatible]
    looks for the lowest block the chain has to be rewound to. *)

From S2P Require Import Prelude.

Record ChainConfig : Type := mkChainConfig {
  cc_ChainId : option Z;
  cc_ByzantiumBlock : option Z;
  cc_FrontierBlockReward : Z;
  cc_ByzantiumBlockReward : Z;
  cc_MaxElectDelegate : Z;
  cc_BlockInterval : Z;
  cc_AresBlock : option Z;
  cc_EpiphronBlock : option Z
}.

Definition MainnetChainConfig : ChainConfig :=
  mkChainConfig (Some 1) (Some 4370000) (5 * 10 ^ 18) (1 * 10 ^ 18) 101 10 (Some 373300) (Some 485000).
Definition TestnetChainConfig : ChainConfig :=
  mkChainConfig (Some 11) (Some 1700000) (5 * 10 ^ 18) (2 * 10 ^ 18) 101 10 (Some 0) (Some 20000).

(** [isForked(s, head)] for a head that is there. *)
Definition isForked (s : option Z) (head : Z) : bool :=
  match s with None => false | Some s => s <=? head end.

Definition configNumEqual (x y : option Z) : bool :=
  match x, y with
  | None, None => true
  | Some x, Some y => x =? y
  | _, _ => false
  end.

Definition isForkIncompatible (s1 s2 : option Z) (head : Z) : bool :=
  (isForked s1 head || isForked s2 head) && negb (configNumEqual s1 s2).

Record ConfigCompatError : Type := mkConfigCompatError {
  ce_What : string;
  ce_StoredConfig : option Z;
  ce_NewConfig : option Z;
  ce_RewindTo : Z
}.

Definition newCompatError (what : string) (storedblock newblock : option Z) : ConfigCompatError :=
  let rew :=
    match storedblock, newblock with
    | None, _ => newblock
    | Some _, None => storedblock
    | Some s, Some n => if s <? n then storedblock else newblock
    end in
  mkConfigCompatError what storedblock newblock
    match rew with Some r => if Z.sgn r >? 0 then u64 (u64 r - 1) else 0 | None => 0 end.

Definition checkCompatible (c newcfg : ChainConfig) (head : Z) : option ConfigCompatError :=
  if isForkIncompatible (cc_ByzantiumBlock c) (cc_ByzantiumBlock newcfg) head then
    Some (newCompatError "Byzantium fork block" (cc_ByzantiumBlock c) (cc_ByzantiumBlock newcfg))
  else if isForkIncompatible (cc_EpiphronBlock c) (cc_EpiphronBlock newcfg) head then
    Some (newCompatError "Epiphron fork block" (cc_EpiphronBlock c) (cc_EpiphronBlock newcfg))
  else None.

(** The loop of [CheckCompatible], for as many rounds as [fuel]; [None] is a loop
    that has not ended. *)
Fixpoint CheckCompatible_loop (fuel : nat) (c newcfg : ChainConfig) (bhead : Z) (lasterr : option ConfigCompatError)
  : option (option ConfigCompatError) :=
  match fuel with
  | O => None
  | S fuel =>
    match checkCompatible c newcfg bhead with
    | None => Some lasterr
    | Some err =>
      if match lasterr with Some l => ce_RewindTo err =? ce_RewindTo l | None => false end then Some lasterr
      else CheckCompatible_loop fuel c newcfg (ce_RewindTo err) (Some err)
    end
  end.

(** Each round moves the head below a fork block; there are two. *)
Definition CheckCompatible (c newcfg : ChainConfig) (height : Z) : option (option ConfigCompatError) :=
  CheckCompatible_loop 4 c newcfg height None.

Definition IsByzantium (c : ChainConfig) (num : Z) : bool := isForked (cc_ByzantiumBlock c) num.
Definition IsAres (c : ChainConfig) (num : Z) : bool := isForked (cc_AresBlock c) num.
Definition IsEpiphron (c : ChainConfig) (num : Z) : bool := isForked (cc_EpiphronBlock c) num.

(** ** The block to rewind to *)

(** A block number of the configuration fits 64 bits. *)
Definition fork_ok (s : option Z) : Prop := match s with Some n => is_u64 n | None => True end.

(** The first block at which two settings of a fork differ. *)
Definition first_diff (s1 s2 : option Z) : option Z :=
  if configNumEqual s1 s2 then None
  else match s1, s2 with Some a, Some b => Some (Z.min a b) | Some a, None => Some a | None, s => s end.

Definition reached (first : option Z) (h : Z) : bool := match first with Some f => f <=? h | None => false end.

Lemma incompatible_reached s1 s2 h : isForkIncompatible s1 s2 h = reached (first_diff s1 s2) h.
Proof.
  unfold isForkIncompatible, first_diff, configNumEqual, isForked. destruct s1 as [a|], s2 as [b|]; simpl; try by rewrite ?orb_false_r, ?andb_true_r.
  destruct (Z.eqb_spec a b); simpl; rewrite ?andb_false_r, ?andb_true_r; [done|].
  destruct (Z.leb_spec a h), (Z.leb_spec b h), (Z.leb_spec (Z.min a b) h); simpl; lia || done.
Qed.

Lemma rewind_first w s1 s2 f :
  fork_ok s1 → fork_ok s2 → first_diff s1 s2 = Some f →
  0 ≤ f ∧ ce_RewindTo (newCompatError w s1 s2) = Z.max 0 (f - 1).
Proof.
  intros F1 F2. unfold first_diff, configNumEqual, newCompatError, fork_ok in *. cbn [ce_RewindTo].
  assert (U : ∀ n, is_u64 n → 0 ≤ n ∧ (if Z.sgn n >? 0 then u64 (u64 n - 1) else 0) = Z.max 0 (n - 1)).
  { intros n [H1 H2]. split; [done|]. rewrite (u64_small n) by done. rewrite Z.gtb_ltb. destruct (Z.ltb_spec 0 (Z.sgn n)); [|lia].
    rewrite u64_small; [lia|]. split; lia. }
  destruct s1 as [a|], s2 as [b|]; [|intros [= <-]; by apply U..|done].
  destruct (Z.eqb_spec a b); [done|]. intros [= <-].
  destruct (Z.ltb_spec a b); [rewrite Z.min_l by lia|rewrite Z.min_r by lia]; by apply U.
Qed.

Lemma forked_same s1 s2 h : reached (first_diff s1 s2) h = false → isForked s1 h = isForked s2 h.
Proof.
  unfold first_diff, configNumEqual, isForked, reached. destruct s1 as [a|], s2 as [b|]; try done.
  destruct (Z.eqb_spec a b) as [->|]; [done|]. rewrite Z.leb_gt. intros. rewrite !(proj2 (Z.leb_gt _ _)) by lia. done.
Qed.

Lemma forked_differ s1 s2 f : first_diff s1 s2 = Some f → isForked s1 f ≠ isForked s2 f.
Proof.
  unfold first_diff, configNumEqual, isForked. destruct s1 as [a|], s2 as [b|]; [|intros [= <-]; by rewrite Z.leb_refl..|done].
  destruct (Z.eqb_spec a b); [done|]. intros [= <-]. destruct (Z.leb_spec a (Z.min a b)), (Z.leb_spec b (Z.min a b)); lia || done.
Qed.

(** Blocks up to which the two configurations have the same rules. *)
Definition same_rules (c c' : ChainConfig) (h : Z) : Prop :=
  IsByzantium c h = IsByzantium c' h ∧ IsEpiphron c h = IsEpiphron c' h.

Section Rewind.
Context (c c' : ChainConfig).
Context (B : fork_ok (cc_ByzantiumBlock c)) (B' : fork_ok (cc_ByzantiumBlock c')).
Context (E : fork_ok (cc_EpiphronBlock c)) (E' : fork_ok (cc_EpiphronBlock c')).

Let fb := first_diff (cc_ByzantiumBlock c) (cc_ByzantiumBlock c').
Let fe := first_diff (cc_EpiphronBlock c) (cc_EpiphronBlock c').

Lemma same_unreached h : reached fb h = false → reached fe h = false → same_rules c c' h.
Proof. intros H1 H2. split; by apply forked_same. Qed.

Lemma reached_le first h h' : reached first h = false → h' ≤ h → reached first h' = false.
Proof. destruct first; simpl; [rewrite !Z.leb_gt; lia|done]. Qed.

(** The error of a round, by the first differences. *)
Lemma checkCompatible_cases h :
  match checkCompatible c c' h with
  | None => reached fb h = false ∧ reached fe h = false
  | Some err => ∃ f, 0 ≤ f ≤ h ∧ ce_RewindTo err = Z.max 0 (f - 1) ∧
      (fb = Some f ∨ (fe = Some f ∧ reached fb h = false))
  end.
Proof using B B' E E'.
  unfold checkCompatible. rewrite !incompatible_reached. fold fb fe.
  destruct (reached fb h) eqn:Hb.
  - unfold reached in Hb. destruct fb as [f|] eqn:Ef; [|done]. apply Z.leb_le in Hb.
    destruct (rewind_first "Byzantium fork block" _ _ f B B' Ef) as [H0 ->]. exists f. split_and!; [lia..|by left].
  - destruct (reached fe h) eqn:He; [|done]. unfold reached in He. destruct fe as [f|] eqn:Ef; [|done].
    apply Z.leb_le in He. destruct (rewind_first "Epiphron fork block" _ _ f E E' Ef) as [H0 ->].
    exists f. split_and!; [lia..|by right].
Qed.

Lemma unreached_negative h : h < 0 → reached fb h = false ∧ reached fe h = false.
Proof using B B' E E'.
  intros Hh. pose proof (rewind_first "" (cc_ByzantiumBlock c) (cc_ByzantiumBlock c')) as Hb.
  pose proof (rewind_first "" (cc_EpiphronBlock c) (cc_EpiphronBlock c')) as He. fold fb in Hb. fold fe in He.
  split; [destruct fb as [f|]|destruct fe as [f|]]; simpl; try done; apply Z.leb_gt;
    [destruct (Hb f B B' eq_refl)|destruct (He f E E' eq_refl)]; lia.
Qed.

(** [err] names the block before the first at which the rules differ. *)
Definition first_conflict (height : Z) (err : ConfigCompatError) : Prop := ∃ first,
  0 ≤ first ≤ height ∧ ¬ same_rules c c' first ∧ (∀ h, h < first → same_rules c c' h) ∧
  ce_RewindTo err = Z.max 0 (first - 1).

Lemma conflict_at height err f :
  0 ≤ f ≤ height → fb = Some f ∨ fe = Some f → reached fb (f - 1) = false → reached fe (f - 1) = false →
  ce_RewindTo err = Z.max 0 (f - 1) → first_conflict height err.
Proof using.
  intros Hf Hd Hb He Hr. exists f. split_and!; [lia|lia| | |done].
  - intros [S1 S2]. destruct Hd as [Hd|Hd]; apply forked_differ in Hd; done.
  - intros h Hh. apply same_unreached; (eapply reached_le; [eassumption|lia]).
Qed.

(** A round that finds a conflict below the last one it found. *)
Lemma last_round height err f fuel :
  0 ≤ f ≤ height → ce_RewindTo err = Z.max 0 (f - 1) → (fb = Some f ∧ reached fe (f - 1) = false) ∨ (fe = Some f ∧ reached fb f = false) →
  ∃ r, CheckCompatible_loop (S fuel) c c' (Z.max 0 (f - 1)) (Some err) = Some (Some r) ∧ first_conflict height r.
Proof using B B' E E'.
  intros Hf Hr Hd. exists err. cbn [CheckCompatible_loop]. pose proof (checkCompatible_cases (Z.max 0 (f - 1))) as Hc.
  assert (Ub : reached fb (f - 1) = false ∧ reached fe (f - 1) = false).
  { destruct Hd as [[-> H]|[Hs H]]; [split; [apply Z.leb_gt; lia|done]|split; [eapply reached_le; [exact H|lia]|rewrite Hs; apply Z.leb_gt; lia]]. }
  assert (G : first_conflict height err) by (eapply conflict_at; [exact Hf|tauto|apply Ub|apply Ub|done]).
  destruct (checkCompatible c c' (Z.max 0 (f - 1))) as [err2|]; [|done]. destruct Hc as (f2 & H2 & Hr2 & Hd2).
  assert (f = 0 ∨ f = 1 ∨ 1 < f) as [->|[->|Hlt]] by lia.
  - replace f2 with 0 in Hr2 by lia. rewrite Hr, Hr2. done.
  - replace f2 with 0 in Hr2 by lia. rewrite Hr, Hr2. done.
  - exfalso. destruct Hd2 as [Hx|[Hx _]]; rewrite Hx in Ub; destruct Ub as [H1' H2']; simpl in *; rewrite ?Z.leb_gt in *; lia.
Qed.

(** After a conflict of the first fork there may be a lower one of the second. *)
Lemma second_round height err f fuel :
  0 ≤ f ≤ height → ce_RewindTo err = Z.max 0 (f - 1) → fb = Some f →
  ∃ r, CheckCompatible_loop (S (S fuel)) c c' (Z.max 0 (f - 1)) (Some err) = Some (Some r) ∧ first_conflict height r.
Proof using B B' E E'.
  intros Hf Hr Hb. destruct (reached fe (f - 1)) eqn:Hre; [|apply last_round; [done|done|by left]].
  unfold reached in Hre. destruct fe as [f2|] eqn:Hf2; [|done]. apply Z.leb_le in Hre.
  remember (S fuel) as g eqn:Eg. cbn [CheckCompatible_loop]. pose proof (checkCompatible_cases (Z.max 0 (f - 1))) as Hc.
  assert (Hu : reached fb (f - 1) = false) by (rewrite Hb; apply Z.leb_gt; lia).
  pose proof (rewind_first "" _ _ f2 E E' Hf2) as [H2 _].
  destruct (checkCompatible c c' (Z.max 0 (f - 1))) as [err2|]; [|destruct Hc as [_ Hc]; rewrite Hf2 in Hc; simpl in Hc; apply Z.leb_gt in Hc; lia].
  destruct Hc as (f3 & H3 & Hr3 & Hd3). assert (f3 = f2) as -> by (destruct Hd3 as [Hx|[Hx _]]; [rewrite Hb in Hx; injection Hx as <-; lia|congruence]).
  rewrite Hr, Hr3. destruct (Z.eqb_spec (Z.max 0 (f2 - 1)) (Z.max 0 (f - 1))) as [Heq|Hne].
  - exists err. split; [done|]. pose proof (unreached_negative (-1) ltac:(lia)) as [U1 U2].
    assert (f2 = 0) as -> by lia. eapply (conflict_at height err 0); [lia|by right|done|done|lia].
  - subst g. apply last_round; [lia|done|right]. split; [done|]. eapply reached_le; [exact Hu|lia].
Qed.
End Rewind.

(** [CheckCompatible] finds the first difference.  For configurations whose fork
    blocks fit 64 bits the loop ends; it reports nothing exactly when both
    configurations have the same rules in every block up to the head, and otherwise
    an error whose [RewindTo] is the block before the first one in which the rules
    differ (zero if that is the genesis block). *)
Theorem config_rewind (c c' : ChainConfig) (height : Z) :
  fork_ok (cc_ByzantiumBlock c) → fork_ok (cc_ByzantiumBlock c') →
  fork_ok (cc_EpiphronBlock c) → fork_ok (cc_EpiphronBlock c') → 0 ≤ height →
  ∃ r, CheckCompatible c c' height = Some r ∧
    match r with
    | None => ∀ h, h ≤ height → same_rules c c' h
    | Some err => ∃ first, 0 ≤ first ≤ height ∧ ¬ same_rules c c' first ∧ (∀ h, h < first → same_rules c c' h) ∧
        ce_RewindTo err = Z.max 0 (first - 1)
    end.
Proof.
  intros B B' E E' Hh. unfold CheckCompatible. change (CheckCompatible_loop 4 c c' height None) with
    (match checkCompatible c c' height with
     | None => Some None
     | Some err => CheckCompatible_loop 3 c c' (ce_RewindTo err) (Some err)
     end).
  pose proof (checkCompatible_cases c c' B B' E E' height) as Hc. destruct (checkCompatible c c' height) as [err1|].
  2:{ exists None. split; [done|]. intros h Hle. apply same_unreached; (eapply reached_le; [apply Hc|done]). }
  destruct Hc as (f1 & H1 & Hr1 & [Hb|[He Hb]]); rewrite Hr1.
  - destruct (second_round c c' B B' E E' height err1 f1 1 H1 Hr1 Hb) as (r & Er & G). exists (Some r). by split.
  - destruct (last_round c c' B B' E E' height err1 f1 2 H1 Hr1) as (r & Er & G); [right; split; [done|]|exists (Some r); by split].
    eapply reached_le; [exact Hb|lia].
Qed.

(** The mainnet configuration with Byzantium moved to block 100 and Epiphron to 90. *)
Definition moved_config : ChainConfig := mkChainConfig (Some 1) (Some 100) (5 * 10 ^ 18) (1 * 10 ^ 18) 101 10 (Some 373300) (Some 90).

Lemma config_rewind_witness :
  CheckCompatible MainnetChainConfig moved_config 500000 =
    Some (Some (mkConfigCompatError "Epiphron fork block" (Some 485000) (Some 90) 89)) ∧
  ∃ first, ¬ same_rules MainnetChainConfig moved_config first ∧ 89 = Z.max 0 (first - 1).
Proof.
  split; [reflexivity|]. destruct (config_rewind MainnetChainConfig moved_config 500000) as (r & Er & H);
    try (split; unfold MaxUint64; simpl; lia); [lia|].
  change (CheckCompatible MainnetChainConfig moved_config 500000) with
    (Some (Some (mkConfigCompatError "Epiphron fork block" (Some 485000) (Some 90) 89))) in Er.
  injection Er as <-. destruct H as (first & _ & Hs & _ & Hr). exists first. split; [exact Hs|exact Hr].
Defined.
