(* ===== verification/Transition.v ===== *)
(** * Executing a transaction ([core/state_transition.go], [core/gaspool.go])

    The gas pool of a block, the intrinsic gas of a message, and [TransitionDb]:
    checking the nonce, buying gas, running the action, refunding and paying the
    block's producer. *)

From S2P Require Import Prelude Assets Interfaces AssetInfo StateTypes StateDB StateRevert StateSnapshot.
From S2P Require Import Votes DelegateState Accounts Transfer VoteCount VmData VmGas Evm.
From S2P Require Import Instructions Interpreter.

(** ** Messages *)

(** [types.Message] *)
Record Message : Type := mkMessage {
  m_From : address;
  m_To : option address;
  m_Nonce : Z;
  m_Value : Z;
  m_Gas : Z;
  m_GasPrice : Z;
  m_Data : bytes;
  m_CheckNonce : bool;
  m_Action : Z;
  m_Vote : list VoteItem;
  m_Asset : option address;
  m_assetInfo : option AssetInfo;
  m_Abi : string
}.

Definition m_AssetInfo (m : Message) : AssetInfo :=
  match m_assetInfo m with Some ai => ai | None => mkAssetInfo None EmptyString EmptyString None EmptyString end.

(** ** Prices ([params/protocol_params.go]) *)

Definition TxGas : Z := 25000.
Definition TxGasContractCreation : Z := 20000.
Definition TxGasAssetPublish : Z := 100000.
Definition TxDataZeroGas : Z := 1.
Definition TxDataNonZeroGas : Z := 4.

Definition action_gas (action : Z) : Z :=
  if action =? ActionTrans then TxGas
  else if action =? ActionRegister then TxGas
  else if (action =? ActionAddVote) || (action =? ActionSubVote) then TxGas
  else if action =? ActionPublishAsset then TxGasAssetPublish
  else if action =? ActionCreateContract then TxGasContractCreation
  else if action =? ActionCallContract then TxGas
  else 0.

Definition nonzero_bytes (data : bytes) : Z :=
  foldl (λ nz b, if byte_val b =? 0 then nz else u64 (nz + 1)) 0 data.

Definition IntrinsicGas (data : bytes) (action : Z) : Z + vmerr :=
  let gas := action_gas action in
  if blen data >? 0 then
    let nz := nonzero_bytes data in
    if (MaxUint64 - gas) / TxDataNonZeroGas <? nz then inr ErrOutOfGas
    else
      let gas := u64 (gas + u64 (nz * TxDataNonZeroGas)) in
      let z := u64 (blen data - nz) in
      if (MaxUint64 - gas) / TxDataZeroGas <? z then inr ErrOutOfGas
      else inl (u64 (gas + u64 (z * TxDataZeroGas)))
  else inl gas.

(** ** Errors *)

Inductive txerr : Type :=
| errIllegalAction (action : Z)
| ErrNonceTooHigh
| ErrNonceTooLow
| errInsufficientBalanceForGas
| ErrGasLimitReached
| errNoCreationData
| errPublish (e : gerror)
| errVm (e : vmerr).

(** ** State transitions *)

(** The fields of [StateTransition] that change: the block's gas pool it points to,
    the gas left and the gas bought. *)
Record Transition : Type := mkTransition {
  t_gp : Z;
  t_gas : Z;
  t_initialGas : Z
}.
#[export] Instance eta_Transition : Eta Transition := λ r, mkTransition (t_gp r) (t_gas r) (t_initialGas r).

Section Transition.
Context {AT ST : Type} `{ENV : StateEnv AT ST slice} `{CRYPTO : CryptoOps}.
Variable ctx : Context.
Variable Run : Contract → bytes → GM (EVM AT ST) (bytes * option vmerr * Contract).
Variable msg : Message.

#[local] Abbreviation SDB := (StateDB AT ST slice).
#[local] Abbreviation EM := (GM (EVM AT ST)).
#[local] Abbreviation TM := (GM (EVM AT ST * Transition)).

Definition evm {A} (m : EM A) : TM A := λ et,
  match m et.1 with Ret (a, e) => Ret (a, (e, et.2)) | Panic w => Panic w end.
Definition state {A} (m : GM SDB A) : TM A := evm (on_db m).
Definition st : TM Transition := λ et, Ret (et.2, et).
Definition set_st (f : Transition → Transition) : TM unit := λ et, Ret (tt, (et.1, f et.2)).

(** [GasPool.SubGas] and [GasPool.AddGas] *)
Definition SubGas (amount : Z) : TM (option txerr) :=
  t ← st;
  if t_gp t <? amount then mret (Some ErrGasLimitReached)
  else set_st (λ t, t <| t_gp ::= λ gp, gp - amount |>);; mret None.
Definition AddGas (amount : Z) : TM unit :=
  t ← st;
  if t_gp t >? MaxUint64 - amount then gpanic "gas pool pushed above uint64"
  else set_st (λ t, t <| t_gp ::= λ gp, gp + amount |>).

(** [from] and [to]: the accounts are made if they do not exist. *)
Definition make_account (a : address) : TM unit :=
  exist ← state (Exist a);
  match exist with true => mret tt | false => state (CreateAccount a) end.
Definition from : TM address := make_account (m_From msg);; mret (m_From msg).
Definition to : TM address :=
  match m_To msg with
  | None => mret address0
  | Some a => make_account a;; mret a
  end.

Definition useGas (amount : Z) : TM (option txerr) :=
  t ← st;
  if t_gas t <? amount then mret (Some (errVm ErrOutOfGas))
  else set_st (λ t, t <| t_gas ::= λ g, g - amount |>);; mret None.

Definition buyGas : TM (option txerr) :=
  sender ← from;
  let mgval := m_Gas msg * m_GasPrice msg in
  b ← state (GetBalance sender);
  if b <? mgval then mret (Some errInsufficientBalanceForGas)
  else
    err ← SubGas (m_Gas msg);
    match err with
    | Some err => mret (Some err)
    | None =>
      set_st (λ t, t <| t_gas ::= λ g, u64 (g + m_Gas msg) |> <| t_initialGas := m_Gas msg |>);;
      state (SubBalance sender mgval);;
      mret None
    end.

Definition check_nonce (nonce : Z) : option txerr :=
  if m_CheckNonce msg then
    if nonce <? m_Nonce msg then Some ErrNonceTooHigh
    else if nonce >? m_Nonce msg then Some ErrNonceTooLow
    else None
  else None.

Definition preCheck : TM (option txerr) :=
  if m_Action msg >? ActionCallContract then mret (Some (errIllegalAction (m_Action msg)))
  else
    sender ← from;
    bad ← (if m_CheckNonce msg then nonce ← state (GetNonce sender); mret (check_nonce nonce) else mret None);
    match bad with
    | Some err => mret (Some err)
    | None => buyGas
    end.

Definition gasUsed : TM Z := t ← st; mret (u64 (t_initialGas t - t_gas t)).

Definition refundGas : TM unit :=
  used ← gasUsed;
  counter ← state GetRefund;
  let refund := if used / 2 >? counter then counter else used / 2 in
  set_st (λ t, t <| t_gas ::= λ g, u64 (g + refund) |>);;
  sender ← from;
  t ← st;
  state (AddBalance sender (t_gas t * m_GasPrice msg));;
  AddGas (t_gas t).

Definition publishAsset : TM (option gerror) :=
  sender ← from;
  state (PublishAsset sender (m_AssetInfo msg)).

(** What running the action gives: an error that ends the transition at once (with
    the [failed] result), or the data and error of the virtual machine. *)
Definition run_action (sender : address) : TM (bytes * option vmerr + bool * txerr) :=
  if m_Action msg =? ActionCreateContract then
    if (length (m_Data msg) =? 0)%nat then mret (inr (true, errNoCreationData))
    else
      t ← st;
      '(ret, _, gas, vmerr) ← evm (Create ctx Run sender (m_Data msg) (t_gas t) (m_Asset msg) (m_Value msg) (m_Abi msg));
      set_st (λ t, t <| t_gas := gas |>);;
      mret (inl (ret, vmerr))
  else if m_Action msg =? ActionPublishAsset then
    snapshot ← state Snapshot;
    err ← publishAsset;
    match err with
    | Some err => state (RevertToSnapshot snapshot (x_IsEpiphron ctx));; _ ← from; mret (inr (true, errPublish err))
    | None => mret (inl ([], None))
    end
  else
    nonce ← state (GetNonce sender);
    state (SetNonce sender (u64 (nonce + 1)));;
    a ← to;
    t ← st;
    '(ret, gas, vmerr) ← evm (Call ctx Run sender a (m_Data msg) (t_gas t) (m_Action msg) (m_Value msg) (m_Vote msg) (m_Asset msg));
    set_st (λ t, t <| t_gas := gas |>);;
    mret (inl (ret, vmerr)).

(** [(ret, usedGas, failed, err)] *)
Definition result : Type := bytes * Z * bool * option txerr.

Definition finish (ret : bytes) (vmerr : option vmerr) : TM result :=
  refundGas;;
  used ← gasUsed;
  state (AddBalance (x_Coinbase ctx) (used * m_GasPrice msg));;
  used ← gasUsed;
  mret (ret, used, bool_decide (is_Some vmerr), None).

Definition TransitionDb : TM result :=
  err ← preCheck;
  match err with
  | Some err => mret ([], 0, false, Some err)
  | None =>
    sender ← from;
    err ← useGas (match IntrinsicGas (m_Data msg) (m_Action msg) with inl gas => gas | inr _ => 0 end);
    match err with
    | Some err => mret ([], 0, false, Some err)
    | None =>
      r ← run_action sender;
      match r with
      | inr (failed, err) => mret ([], 0, failed, Some err)
      | inl (_, Some ErrInsufficientBalance) => mret ([], 0, false, Some (errVm ErrInsufficientBalance))
      | inl (_, Some ErrVoteFailed) => mret ([], 0, false, Some (errVm ErrVoteFailed))
      | inl (ret, vmerr) => finish ret vmerr
      end
    end
  end.
End Transition.

(** [ApplyMessage] with a pool of [gp]: the result and the pool afterwards. *)
Definition ApplyMessage {AT ST} `{ENV : StateEnv AT ST slice} `{CRYPTO : CryptoOps} (ctx : Context) (fuel : nat)
    (msg : Message) (gp : Z) : GM (EVM AT ST) (result * Z) := λ e,
  match TransitionDb ctx (Run ctx fuel) msg (e, mkTransition gp 0 0) with
  | Ret (r, (e, t)) => Ret ((r, t_gp t), e)
  | Panic w => Panic w
  end.
