(* ===== verification/TransitionSafe.v ===== *)
(** * Transactions keep the books

    Around the virtual machine, [TransitionDb] takes the price of the gas from the
    sender, gives back what is left and pays the producer.  Through every step the
    account state stays sound, snapshots stay valid, and the books say how much of
    the currency can have come in. *)

From S2P Require Import Prelude Assets Interfaces AssetInfo StateTypes StateDB StateRevert StateSnapshot.
From S2P Require Import Votes DelegateState Accounts Transfer VoteCount VmData StateSound VmGas Evm.
From S2P Require Import Instructions Interpreter Hex VmWp VmOps VmCosts VmCalls VmSafe.
From S2P Require Import Transition.

(** ** Books *)

Section Books.
Context {AT ST : Type} `{ENV : StateEnv AT ST slice}.

#[local] Abbreviation SDB := (StateDB AT ST slice).

(** At most [d] more of the currency, and no more of any asset. *)
Definition flow_by (d : Z) (s s' : SDB) : Prop := ∀ asset, ∃ known : list address, ∀ l,
  NoDup l → known ⊆ l → total (holding s' asset) l ≤ total (holding s asset) l + (if decide (asset = None) then d else 0).

Lemma flow_by_0 s s' : flow s s' → flow_by 0 s s'.
Proof. intros F asset. destruct (F asset) as [k H]. exists k. intros l Hn Hk. specialize (H l Hn Hk). case_decide; lia. Qed.

Lemma flow_by_flow d s s' : d ≤ 0 → flow_by d s s' → flow s s'.
Proof. intros Hd F asset. destruct (F asset) as [k H]. exists k. intros l Hn Hk. specialize (H l Hn Hk). case_decide; lia. Qed.

Lemma flow_by_trans d1 d2 s1 s2 s3 : flow_by d1 s1 s2 → flow_by d2 s2 s3 → flow_by (d1 + d2) s1 s3.
Proof.
  intros F1 F2 asset. destruct (F1 asset) as [k1 H1], (F2 asset) as [k2 H2]. exists (k1 ++ k2). intros l Hn Hk.
  apply list_subseteq_app_iff_l in Hk as [Hk1 Hk2]. specialize (H1 l Hn Hk1). specialize (H2 l Hn Hk2). case_decide; lia.
Qed.

Lemma flow_by_moved s a v s' : moved s None a v s' → flow_by v s s'.
Proof.
  intros M asset. exists [a]. intros l Hn Hk. rewrite (moved_total _ _ _ _ _ asset l M Hn); [|apply Hk; set_solver].
  destruct (decide _), (decide _); done || lia.
Qed.

(** What a part of a transition does to the machine. *)
Record tx_later (d : Z) (e e' : EVM AT ST) : Prop := mkTxLater {
  tl_good : good e';
  tl_depth : e_depth e' = e_depth e;
  tl_heap : e_heap e' = e_heap e;
  tl_since s0 id : since s0 id (e_db e) → since s0 id (e_db e');
  tl_flow : flow_by d (e_db e) (e_db e');
  tl_base : base_of (e_db e') = base_of (e_db e)
}.

Lemma later_tx e e' : later e e' → tx_later 0 e e'.
Proof. intros [G D R H S F B]. constructor; [done..|by apply flow_by_0|done]. Qed.

Lemma tx_later_trans d1 d2 e1 e2 e3 : tx_later d1 e1 e2 → tx_later d2 e2 e3 → tx_later (d1 + d2) e1 e3.
Proof. intros [G1 D1 H1 S1 F1 B1] [G2 D2 H2 S2 F2 B2]. constructor; [done|congruence..|auto|by eapply flow_by_trans|congruence]. Qed.

Lemma tx_later_0 d e1 e2 e3 : tx_later d e1 e2 → later e2 e3 → tx_later d e1 e3.
Proof. intros L1 L2. rewrite <- (Z.add_0_r d). eapply tx_later_trans; [done|by apply later_tx]. Qed.

(** A payment into an account, or out of one that covers it. *)
Lemma paid_in e a v s' :
  good e → AddBalance a v (e_db e) = Ret (tt, s') → 0 ≤ v → tx_later v e (e <| e_db := s' |>).
Proof.
  intros G E Hv. pose proof G as [I S T]. assert (W := good_wf _ G).
  destruct (AddBalance_works (e_db e) W S a v Hv) as ([] & s1 & E1 & A & _). rewrite E in E1. injection E1 as <-.
  destruct (AddBalance_moved (e_db e) a v W) as (s1 & E1 & M). rewrite E in E1. injection E1 as <-.
  constructor; simpl; [constructor; [by eapply advances_Inv|apply A|done]|done|done| |by eapply flow_by_moved|apply undoable_base, A].
  intros s0 id Hs. by eapply since_plain; [|apply A].
Qed.

Lemma paid_out e a v s' :
  good e → SubBalance a v (e_db e) = Ret (tt, s') → v ≤ balance (e_db e) a → tx_later (- v) e (e <| e_db := s' |>).
Proof.
  intros G E Hv. pose proof G as [I S T]. assert (W := good_wf _ G).
  destruct (SubBalance_works (e_db e) W S a v Hv) as ([] & s1 & E1 & A & _). rewrite E in E1. injection E1 as <-.
  destruct (SubBalance_moved (e_db e) a v W) as (s1 & E1 & M). rewrite E in E1. injection E1 as <-.
  constructor; simpl; [constructor; [by eapply advances_Inv|apply A|done]|done|done| |by eapply flow_by_moved|apply undoable_base, A].
  intros s0 id Hs. by eapply since_plain; [|apply A].
Qed.
End Books.

(** ** The steps of a transition *)

Definition pool_panic : string := "gas pool pushed above uint64".

(** The panics of a transition: those of running code, the gas pool, and code that asks
    for the delegates when the block's context does not have them. *)
Definition tx_panic (ctx : Context) (w : string) : Prop :=
  w = pool_panic ∨ w = out_of_turns ∨ w = bitvec_panic ∨ w = getData_panic ∨ (x_DelegateList ctx = None ∧ w = nil_list_panic).
Definition with_pool (ctx : Context) : Tolerance := {|
  tolerated := tx_panic ctx;
  tolerates_bitvec := or_intror (or_intror (or_introl eq_refl));
  tolerates_getData := or_intror (or_intror (or_intror (or_introl eq_refl)))
|}.

Section Steps.
Context {AT ST : Type} `{ENV : StateEnv AT ST slice} `{CRYPTO : CryptoOps}.
Variable ctx : Context.
#[local] Instance pool_tolerance : Tolerance | 0 := with_pool ctx.
Context (CX : ctx_ok (AT := AT) (ST := ST) ctx).
Variable msg : Message.

#[local] Abbreviation SDB := (StateDB AT ST slice).
#[local] Abbreviation EM := (GM (EVM AT ST)).
#[local] Abbreviation TM := (GM (EVM AT ST * Transition)).

Lemma wp_evm {A B} (m : EM A) (k : A → TM B) Q1 (Q : B → EVM AT ST * Transition → Prop) e t :
  wp m Q1 e → (∀ a e', Q1 a e' → wp (k a) Q (e', t)) → wp (evm m ≫= k) Q (e, t).
Proof.
  intros Hm K. apply wp_bind. unfold wp, evm in *. cbn [fst snd]. destruct (m e) as [[a e']|w]; [|done]. by apply K.
Qed.

Lemma wp_state {A B} (m : GM SDB A) (k : A → TM B) Q1 (Q : B → EVM AT ST * Transition → Prop) e t :
  good e → works true m (e_db e) Q1 → (∀ r e', later e e' → Q1 r (e_db e') → wp (k r) Q (e', t)) →
  wp (state m ≫= k) Q (e, t).
Proof.
  intros G Hm K. eapply (wp_evm _ _ (λ r e', later e e' ∧ Q1 r (e_db e'))); [|by intros r e' []; apply K].
  eapply wp_on_db; [exact Hm|]. intros r s A1 H1. split; [by apply later_db|done].
Qed.

Lemma wp_pay_in {B} a v (k : unit → TM B) (Q : B → EVM AT ST * Transition → Prop) e t :
  good e → 0 ≤ v → (∀ e', tx_later v e e' → wp (k tt) Q (e', t)) → wp (state (AddBalance a v) ≫= k) Q (e, t).
Proof.
  intros G Hv K. destruct (AddBalance_moved (e_db e) a v (good_wf _ G)) as (s & E & _).
  eapply (wp_seq _ _ _ _ tt (e <| e_db := s |>, t)); [unfold state, evm, on_db; cbn [fst snd]; by rewrite E|].
  apply K. by eapply paid_in.
Qed.

Lemma wp_pay_out {B} a v (k : unit → TM B) (Q : B → EVM AT ST * Transition → Prop) e t :
  good e → v ≤ balance (e_db e) a → (∀ e', tx_later (- v) e e' → wp (k tt) Q (e', t)) →
  wp (state (SubBalance a v) ≫= k) Q (e, t).
Proof.
  intros G Hv K. destruct (SubBalance_moved (e_db e) a v (good_wf _ G)) as (s & E & _).
  eapply (wp_seq _ _ _ _ tt (e <| e_db := s |>, t)); [unfold state, evm, on_db; cbn [fst snd]; by rewrite E|].
  apply K. by eapply paid_out.
Qed.

Lemma wp_make_account {B} a (k : unit → TM B) (Q : B → EVM AT ST * Transition → Prop) e t :
  good e → (∀ e', later e e' → wp (k tt) Q (e', t)) → wp (make_account a ≫= k) Q (e, t).
Proof.
  intros G K. apply wp_bind. unfold make_account.
  eapply wp_state; [done|apply Exist_works; [by apply good_wf|by apply gd_sound]|]. cbn beta. intros r e1 L1 _.
  pose proof (lt_good _ _ L1) as G1. destruct r; [apply wp_ret; by apply K|].
  destruct (CreateAccount_works (e_db e1) (good_wf _ G1) (gd_sound _ G1) a) as ([] & s & E & A & _).
  eapply (wp_run _ _ _ tt (e1 <| e_db := s |>, t)); [unfold state, evm, on_db; cbn [fst snd]; by rewrite E|].
  apply K. eapply later_trans; [exact L1|]. by apply later_db.
Qed.

Lemma wp_from {B} (k : address → TM B) (Q : B → EVM AT ST * Transition → Prop) e t :
  good e → (∀ e', later e e' → wp (k (m_From msg)) Q (e', t)) → wp (from msg ≫= k) Q (e, t).
Proof. intros G K. apply wp_bind. unfold from. apply wp_make_account; [done|]. intros e' L. apply wp_ret. by apply K. Qed.

Lemma wp_to {B} (k : address → TM B) (Q : B → EVM AT ST * Transition → Prop) e t :
  good e → (∀ a e', later e e' → wp (k a) Q (e', t)) → wp (to msg ≫= k) Q (e, t).
Proof.
  intros G K. apply wp_bind. unfold to. destruct (m_To msg) as [a|]; [|apply wp_ret; apply K; by apply later_refl].
  apply wp_make_account; [done|]. intros e' L. apply wp_ret. by apply K.
Qed.

Lemma wp_st {B} (k : Transition → TM B) (Q : B → EVM AT ST * Transition → Prop) e t :
  wp (k t) Q (e, t) → wp (st ≫= k) Q (e, t).
Proof. done. Qed.
Lemma wp_set_st {B} f (k : unit → TM B) (Q : B → EVM AT ST * Transition → Prop) e t :
  wp (k tt) Q (e, f t) → wp (set_st f ≫= k) Q (e, t).
Proof. done. Qed.

(** Gas is bought, or nothing happened to the gas and the money. *)
Definition bought (e : EVM AT ST) (t : Transition) (err : option txerr) (et : EVM AT ST * Transition) : Prop :=
  match err with
  | Some _ => et.2 = t ∧ later e et.1
  | None => m_Gas msg ≤ t_gp t ∧ et.2 = mkTransition (t_gp t - m_Gas msg) (u64 (t_gas t + m_Gas msg)) (m_Gas msg) ∧
            tx_later (- (m_Gas msg * m_GasPrice msg)) e et.1
  end.

Lemma buyGas_ok e t : good e → wp (buyGas msg) (bought e t) (e, t).
Proof.
  intros G. unfold buyGas. apply wp_from; [done|]. intros e1 L1. pose proof (lt_good _ _ L1) as G1. cbv zeta.
  eapply wp_state; [done|apply GetBalance_works; [by apply good_wf|by apply gd_sound]|]. cbn beta. intros b e2 L2 [_ ->].
  pose proof (lt_good _ _ L2) as G2. assert (L : later e e2) by (by eapply later_trans).
  destruct (Z.ltb_spec (balance (e_db e2) (m_From msg)) (m_Gas msg * m_GasPrice msg)); [by apply wp_ret|].
  apply wp_bind. unfold SubGas. apply wp_st. destruct (Z.ltb_spec (t_gp t) (m_Gas msg)); [by apply wp_ret, wp_ret|].
  apply wp_set_st, wp_ret, wp_set_st. apply wp_pay_out; [done..|]. intros e3 L3. apply wp_ret.
  split_and!; [lia|by destruct t|]. rewrite <- (Z.add_0_l (- _)). eapply tx_later_trans; [by apply later_tx|done].
Qed.

Lemma preCheck_ok e t : good e → wp (preCheck msg) (bought e t) (e, t).
Proof.
  intros G. unfold preCheck. destruct (_ >? _); [apply wp_ret; split; [done|by apply later_refl]|].
  apply wp_from; [done|]. intros e1 L1. pose proof (lt_good _ _ L1) as G1. apply wp_bind.
  assert (B : ∀ e2, later e e2 → wp (buyGas msg) (bought e t) (e2, t)).
  { intros e2 L2. eapply wp_mono; [apply buyGas_ok, L2|]. intros [err|] [e3 t3]; simpl.
    - intros [-> L3]. split; [done|by eapply later_trans].
    - intros (H1 & H2 & L3). split_and!; [done..|]. rewrite <- (Z.add_0_l (- _)). eapply tx_later_trans; [by apply later_tx|done]. }
  destruct (m_CheckNonce msg); [|by apply wp_ret, B].
  eapply wp_state; [done|apply GetNonce_works; [by apply good_wf|by apply gd_sound]|]. cbn beta. intros n e2 L2 _.
  assert (L : later e e2) by (by eapply later_trans). apply wp_ret. destruct (check_nonce msg n); [by apply wp_ret|by apply B].
Qed.

Lemma action_gas_small action : 0 ≤ action_gas action ≤ 100000.
Proof. unfold action_gas. repeat destruct (_ =? _); simpl; unfold TxGas, TxGasAssetPublish, TxGasContractCreation; lia. Qed.

Lemma IntrinsicGas_nonneg data action gas : IntrinsicGas data action = inl gas → 0 ≤ gas.
Proof.
  unfold IntrinsicGas. pose proof (action_gas_small action). destruct (_ >? _); [|by intros [= <-]; lia].
  destruct (_ <? _); [done|]. destruct (_ <? _); [done|]. intros [= <-]. apply u64_range.
Qed.

(** ** The action *)

Variable fuel : nat.
#[local] Abbreviation R := (Run ctx fuel).

Lemma R_ok : run_ok (AT := AT) (ST := ST) R.
Proof using CX. apply Run_safe; [done|]. right. by left. Qed.

(** A message that moves value or creates a contract. *)
Record msg_ok : Prop := mkMsgOk {
  mo_Value : 0 ≤ m_Value msg;
  mo_GasPrice : 0 ≤ m_GasPrice msg;
  mo_Gas : is_u64 (m_Gas msg);
  mo_Data : blen (m_Data msg) ≤ code_limit;
  mo_Action : moves_value (m_Action msg);
  mo_Publish : m_Action msg ≠ ActionPublishAsset
}.
Context (MO : msg_ok).

Lemma run_action_ok e t :
  good e → is_u64 (t_gas t) →
  wp (run_action ctx R msg (m_From msg)) (λ r et, later e et.1 ∧
    match r with inl _ => ∃ g, is_u64 g ∧ et.2 = t <| t_gas := g |> | inr _ => True end) (e, t).
Proof using CX MO.
  intros G Ht. unfold run_action. destruct MO as [Hv Hp Hg Hd Ha Hn]. rewrite (proj2 (Z.eqb_neq _ ActionPublishAsset)) by done.
  destruct (m_Action msg =? ActionCreateContract).
  - destruct (length _ =? 0)%nat; [apply wp_ret; split; [by apply later_refl|done]|]. apply wp_st.
    eapply wp_evm; [apply Create_ok; [done|apply R_ok|done..]|].
    intros [[[ret a] g] err] e1 [L1 Hg1]. apply wp_set_st, wp_ret. split; [done|]. by exists g.
  - eapply wp_state; [done|apply GetNonce_works; [by apply good_wf|by apply gd_sound]|]. cbn beta. intros n e1 L1 _.
    pose proof (lt_good _ _ L1) as G1.
    eapply wp_state; [done|apply SetNonce_works; [by apply good_wf|by apply gd_sound]|]. cbn beta. intros _ e2 L2 _.
    pose proof (lt_good _ _ L2) as G2. apply wp_to; [done|]. intros a e3 L3. apply wp_st.
    eapply wp_evm; [apply Call_ok; [done|apply R_ok|apply L3|done..]|]. intros [[ret g] err] e4 (L4 & Hg4 & _).
    apply wp_set_st, wp_ret. split; [|by exists g]. by do 3 (eapply later_trans; [eassumption|]).
Qed.

(** What is left is given back and what was used is paid. *)
Lemma finish_ok e t ret err :
  good e → is_u64 (t_gas t) →
  wp (finish ctx msg ret err) (λ r et, ∃ left, is_u64 left ∧ t_gp et.2 = t_gp t + left ∧
    r = (ret, u64 (t_initialGas t - left), bool_decide (is_Some err), None) ∧
    tx_later ((left + u64 (t_initialGas t - left)) * m_GasPrice msg) e et.1) (e, t).
Proof using MO.
  intros G Ht. destruct MO as [Hv Hp Hg Hd Ha Hn]. unfold finish. apply wp_bind. unfold refundGas, gasUsed. apply wp_bind, wp_st, wp_ret.
  assert (Er : state GetRefund (e, t) = Ret (s_refund (e_db e), (e, t))) by (by destruct e).
  eapply wp_seq; [exact Er|]. cbv zeta. generalize (if u64 (t_initialGas t - t_gas t) / 2 >? s_refund (e_db e)
    then s_refund (e_db e) else u64 (t_initialGas t - t_gas t) / 2). intros refund.
  apply wp_set_st. apply wp_from; [done|]. intros e1 L1. pose proof (lt_good _ _ L1) as G1. apply wp_st. cbn [t_gas].
  set (left := t_gas _). assert (Hl : is_u64 left) by (apply u64_range).
  apply wp_pay_in; [done|apply Z.mul_nonneg_nonneg; [apply Hl|done]|]. intros e2 L2. pose proof (tl_good _ _ _ L2) as G2.
  unfold AddGas. apply wp_st. cbn [t_gp]. destruct (_ >? _); [exact (or_introl eq_refl)|].
  eapply (wp_run _ _ _ tt); [reflexivity|]. apply wp_bind, wp_st, wp_ret. cbn [t_gas t_initialGas]. fold left.
  set (used := u64 _). assert (Hu : 0 ≤ used) by apply u64_range.
  apply wp_pay_in; [done|by apply Z.mul_nonneg_nonneg|]. intros e3 L3. apply wp_bind, wp_st, wp_ret, wp_ret.
  exists left. split_and!; [done|done|done|]. cbn [fst].
  rewrite Z.mul_add_distr_r, <- (Z.add_0_l (left * _)). eapply tx_later_trans; [|exact L3].
  eapply tx_later_trans; [by apply later_tx|done].
Qed.

(** The whole transition: with an error the gas bought stays bought; without one the
    pool gets back what is left. *)
Definition settled (e : EVM AT ST) (t : Transition) (r : result) (et : EVM AT ST * Transition) : Prop :=
  let '(ret, used, failed, err) := r in
  match err with
  | Some _ => tx_later 0 e et.1
  | None => ∃ left, is_u64 left ∧ t_gp et.2 = t_gp t - m_Gas msg + left ∧ used = u64 (m_Gas msg - left) ∧
      tx_later ((left + used - m_Gas msg) * m_GasPrice msg) e et.1
  end.

Lemma TransitionDb_ok e gp : good e → wp (TransitionDb ctx R msg) (settled e (mkTransition gp 0 0)) (e, mkTransition gp 0 0).
Proof using CX MO.
  intros G. unfold TransitionDb. apply wp_bind. eapply wp_mono; [by apply preCheck_ok|].
  intros [err|] [e1 t1]; simpl; [intros [-> L1]; apply wp_ret; by apply later_tx|].
  rewrite Z.add_0_l, (u64_small (m_Gas msg)) by apply MO. intros (Hgp & -> & L1). pose proof (tl_good _ _ _ L1) as G1.
  assert (Le : ∀ d e', tx_later d e e' → d ≤ 0 → tx_later 0 e e').
  { intros d e' [A B C D F X] Hd. constructor; [done..| |done]. apply flow_by_0. by eapply flow_by_flow. }
  pose proof (Z.mul_nonneg_nonneg _ _ (proj1 (mo_Gas MO)) (mo_GasPrice MO)) as Hm.
  apply wp_from; [done|]. intros e2 L2. pose proof (lt_good _ _ L2) as G2. apply wp_bind. unfold useGas. apply wp_st. cbn [t_gas].
  assert (L12 : tx_later (- (m_Gas msg * m_GasPrice msg)) e e2) by (by eapply tx_later_0).
  set (gas := match IntrinsicGas _ _ with inl g => g | inr _ => 0 end).
  assert (Hgas : 0 ≤ gas) by (unfold gas; destruct (IntrinsicGas _ _) eqn:Ei; [by eapply IntrinsicGas_nonneg|done]).
  destruct (Z.ltb_spec (m_Gas msg) gas); [apply wp_ret, wp_ret; eapply Le; [exact L12|lia]|].
  apply wp_set_st, wp_ret. apply wp_bind. eapply wp_mono; [apply run_action_ok; [done|]|].
  { simpl. pose proof (mo_Gas MO) as [? ?]. split; lia. }
  intros r [e3 t3] [L3 H3]. cbn [fst snd] in *. pose proof (lt_good _ _ L3) as G3.
  assert (L13 : tx_later (- (m_Gas msg * m_GasPrice msg)) e e3) by (by eapply tx_later_0).
  destruct r as [[ret err]|[failed err]]; [|apply wp_ret; eapply Le; [exact L13|lia]]. destruct H3 as (g & Hg & ->).
  assert (F : wp (finish ctx msg ret err) (settled e (mkTransition gp 0 0)) (e3, mkTransition (gp - m_Gas msg) g (m_Gas msg))).
  { eapply wp_mono; [by apply finish_ok|]. intros r [e4 t4] (left & Hl & Hgp' & -> & L4). cbn [t_gp t_initialGas fst snd] in *. exists left. split_and!; [done|done|done|].
    replace ((left + u64 (m_Gas msg - left) - m_Gas msg) * m_GasPrice msg) with
      (- (m_Gas msg * m_GasPrice msg) + (left + u64 (m_Gas msg - left)) * m_GasPrice msg) by lia.
    by eapply tx_later_trans. }
  destruct err as [[]|]; try exact F; apply wp_ret; (eapply Le; [exact L13|lia]).
Qed.
End Steps.

(** The outcome of a message. *)
Lemma ApplyMessage_books {AT ST} `{ENV : StateEnv AT ST slice} `{CRYPTO : CryptoOps}
    (ctx : Context) (fuel : nat) (msg : Message) (gp : Z) (e : EVM AT ST) :
  ctx_ok (TOL := with_pool ctx) (AT := AT) (ST := ST) ctx → good e → msg_ok msg →
  match ApplyMessage ctx fuel msg gp e with
  | Ret ((_, used, _, err, gp'), e') =>
    Inv (e_db e') ∧ sound (e_db e') ∧ base_of (e_db e') = base_of (e_db e) ∧ e_heap e' = e_heap e ∧
    match err with
    | Some _ => flow (e_db e) (e_db e')
    | None => used ≤ m_Gas msg → gp' = gp - used ∧ flow (e_db e) (e_db e')
    end
  | Panic w => tx_panic ctx w
  end.
Proof.
  intros CX G MO. pose proof (TransitionDb_ok ctx CX msg fuel MO e gp G) as H. unfold wp in H. unfold ApplyMessage.
  destruct (TransitionDb ctx (Run ctx fuel) msg _) as [[[[[ret used] failed] err] [e' t']]|w]; [|exact H]. cbn [settled fst snd] in H.
  destruct err as [err|].
  - destruct H as [[I' S' _] _ Hh _ F B]. split_and!; [done..|]. by eapply flow_by_flow.
  - destruct H as (left & [Hl Hl'] & Hgp & -> & [[I' S' _] _ Hh _ F B]). cbn [t_gp] in Hgp. split_and!; [done..|]. intros Hu.
    pose proof (mo_Gas _ MO) as [Hg Hg'].
    assert (left ≤ m_Gas msg).
    { destruct (Z.le_gt_cases left (m_Gas msg)) as [|Hgt]; [done|exfalso].
      assert (E : u64 (m_Gas msg - left) = m_Gas msg - left + 2 ^ 64).
      { symmetry. unfold u64. apply (Z.mod_unique_pos _ _ (-1)); unfold MaxUint64 in *; lia. }
      unfold MaxUint64 in *. lia. }
    rewrite u64_small in F |- * by (split; lia). split; [lia|]. eapply flow_by_flow; [|exact F]. lia.
Qed.

(** ** Claims *)

(** C16: A transaction keeps the books.  Under the rules after the Epiphron fork, for
    every message that moves value, calls or creates a contract - no vote, which locks
    and unlocks money, no registration of a delegate, and no publication of an asset,
    which creates it - from a sound state: the transition does not panic (apart from
    the causes named for running code, the block's gas pool, and code that asks for the
    delegates where the block's context has none), leaves a sound state, and

    - if it is refused with an error, nothing has been created;
    - if it is carried out and the gas it reports as used is within the gas it
      bought, then exactly that gas is gone from the block's pool, and with the
      price of the gas moved from the sender to the producer, whatever the code did,
      there is no more of the currency and no more of any asset than before. *)
Theorem transaction_books {AT ST} `{ENV : StateEnv AT ST slice} `{CRYPTO : CryptoOps}
    (ctx : Context) (fuel : nat) (msg : Message) (gp : Z) (e : EVM AT ST) :
  ctx_ok (TOL := with_pool ctx) (AT := AT) (ST := ST) ctx → Inv (e_db e) → sound (e_db e) → is_u64 (e_callGasTemp e) → msg_ok msg →
  match ApplyMessage ctx fuel msg gp e with
  | Ret ((_, used, _, err, gp'), e') =>
    Inv (e_db e') ∧ sound (e_db e') ∧
    match err with
    | Some _ => flow (e_db e) (e_db e')
    | None => used ≤ m_Gas msg → gp' = gp - used ∧ flow (e_db e) (e_db e')
    end
  | Panic w => tx_panic ctx w
  end.
Proof.
  intros CX I S T MO. pose proof (ApplyMessage_books ctx fuel msg gp e CX (mkGood e I S T) MO) as H.
  destruct (ApplyMessage ctx fuel msg gp e) as [[[[[[ret used] failed] err] gp'] e']|w]; [|exact H]. by destruct H as (? & ? & _ & _ & ?).
Qed.

Import SampleVotes SampleVM.

(** The voter sends 3 to an account that does not exist, at a gas price of one. *)
Definition sample_message : Message :=
  mkMessage voter (Some ca) 0 3 30000 1 [] true ActionTrans [] None None EmptyString.

Lemma sample_message_ok : msg_ok sample_message.
Proof. by constructor; unfold is_u64, MaxUint64, code_limit, moves_value. Qed.

Lemma sample_message_runs :
  (match ApplyMessage sample_ctx 10 sample_message 250000000 (sample_machine 1000000) with
   | Ret ((_, used, false, None, gp'), e') => Some (used, gp', balance (e_db e') ca)
   | _ => None
   end) = Some (25000, 249975000, 3).
Proof. vm_compute. reflexivity. Qed.

Lemma transaction_books_witness :
  match ApplyMessage sample_ctx 10 sample_message 250000000 (sample_machine 1000000) with
  | Ret ((_, used, _, None, gp'), e') => gp' = 249975000 ∧ flow (sample_state 1000000) (e_db e')
  | _ => False
  end.
Proof.
  pose proof sample_message_runs as H.
  pose proof (transaction_books sample_ctx 10 sample_message 250000000 (sample_machine 1000000) sample_ctx_ok
    (sample_machine_Inv 1000000) (sample_sound 1000000 ltac:(lia)) zero_u64 sample_message_ok) as B.
  destruct (ApplyMessage sample_ctx 10 sample_message 250000000 (sample_machine 1000000))
    as [[[[[[ret used] failed] [err|]] gp'] e']|w]; [destruct failed; discriminate H| |discriminate H].
  destruct failed; [discriminate H|]. injection H as -> -> _. split; [reflexivity|]. apply B. simpl. lia.
Defined.
