(* ===== verification/TransitionFindings.v ===== *)
(** * Where executing a transaction does not do what it means to

    Concrete runs of the model on small states. *)

From S2P Require Import Prelude Assets Interfaces AssetInfo StateTypes StateDB Votes DelegateState.
From S2P Require Import Accounts Transfer VoteCount VmData VmGas Evm Instructions Interpreter.
From S2P Require Import VmSafe Transition TransitionSafe.
Import SampleVotes SampleVM.

(** ** A transaction that earns more gas than it bought *)

(** Seven pushes, [CALL] of account 11 with value 1, [POP]; seventy times, then
    [STOP]. *)
Definition pump : bytes :=
  byte_of <$> concat (replicate 70 [0x60; 0; 0x60; 0; 0x60; 0; 0x60; 0; 0x60; 1; 0x60; 11; 0x60; 0; 0xf1; 0x50]) ++ [0x00].
Definition pump_object : stateObject (gmap hash bytes) slice :=
  (newObject target (lit_of (mkAccount 0 100 hash0 (to_word 256 9) (Some 0) (mkSlice 0 0) NewAssets None)) true)
    <| o_code := Some pump |>.
Definition pump_state : StateDB (gmap address bytes) (gmap hash bytes) slice :=
  mkStateDB ∅ {[ voter := newObject voter (lit_of (voter_account 40000)) true; target := pump_object;
                 ca := newObject ca (lit_of (voter_account 1)) true ]}
    ∅ None 0 hash0 hash0 0 ∅ 0 ∅ [] [] 0.
Definition pump_machine : EVM (gmap address bytes) (gmap hash bytes) :=
  mkEVM sample_heap pump_state 0 0 [] false [] ∅.
Definition producer : address := to_word 160 99.
Definition pump_ctx : Context :=
  mkContext voter 1 producer 1000 5 5 5 (Some ∅) (λ _, hash0) false false false true true 101 double.
Definition pump_message : Message :=
  mkMessage voter (Some target) 0 0 40000 1 [] true ActionCallContract [] None None EmptyString.

(** A transaction can create money.  The voter has 40000, buys 40000 gas at a
    price of one and calls a contract that sends one unit to account 11 seventy
    times.  Each of these calls earns gas, so more is left than was bought: the
    voter is paid 42790 for it, the block's pool grows by 2790, and the gas used,
    the difference of 40000 and 42790 in 64 bits, is 18446744073709548826, for
    which the producer is paid from nothing. *)
Theorem transaction_mints :
  match ApplyMessage pump_ctx 700 pump_message 250000000 pump_machine with
  | Ret ((_, used, false, None, gp'), e') =>
    balance pump_state voter = 40000 ∧ balance (e_db e') voter = 42790 ∧ gp' = 250002790 ∧
    used = 18446744073709548826 ∧ balance pump_state producer = 0 ∧ balance (e_db e') producer = 18446744073709548826
  | _ => False
  end.
Proof. vm_compute. done. Qed.
