(* ===== verification/Rlp.v ===== *)
(** * RLP, writing ([rlp/encode.go], [rlp/typecache.go])

    The encoder works on Go types: [cachedTypeInfo] builds a writer for each type
    from the writers of its parts.  Here the types are data, and the writer of a type
    is a function of it.  A writer appends to a buffer that keeps the headers of lists
    apart from the rest, because the size of a list is only known at its end;
    [toBytes] and [toWriter] put the headers in. *)

From S2P Require Import Prelude Interfaces StateTypes Hex VmData.

(** ** Types and values

    A struct has its exported fields that are not tagged [-], with the tags [nil] and
    [tail] of each.  [TBig] is [*big.Int]; strings, byte slices and byte arrays all
    have bytes for values, and slices, arrays and structs have lists.  Types with
    methods of their own ([Encoder], [Decoder]) are not among them. *)
Record tags : Type := mkTags { nilOK : bool; tail : bool }.
Definition no_tags : tags := mkTags false false.

Inductive gtype : Type :=
| TRaw
| TBig
| TUint (bits : Z)
| TBool
| TString
| TBytes
| TByteArray (n : nat)
| TSlice (e : gtype)
| TArray (n : nat) (e : gtype)
| TStruct (fields : list (tags * gtype))
| TPtr (e : gtype)
| TInterface.

(** An interface value carries its type. *)
Inductive gval : Type :=
| VRaw (b : bytes)
| VBig (i : option Z)
| VUint (i : Z)
| VBool (b : bool)
| VBytes (b : bytes)
| VList (vs : list gval)
| VPtr (v : option gval)
| VIface (v : option (gtype * gval)).

Inductive rlperr : Type :=
| EOL
| EOF
| ErrUnexpectedEOF
| ErrExpectedString
| ErrExpectedList
| ErrCanonInt
| ErrCanonSize
| ErrElemTooLarge
| ErrValueTooLarge
| ErrMoreThanOneValue
| errNotInList
| errNotAtEOL
| errUintOverflow
| errNegative
| decodeError (msg : string)
| ill_typed
| no_fuel.

(** ** Sizes and headers *)

(** The loop of [intsize]: shift until nothing is left. *)
Fixpoint intsize_loop (fuel : nat) (i : Z) (size : Z) : Z :=
  match fuel with
  | O => size
  | S fuel => let i := Z.shiftr i 8 in if i =? 0 then size else intsize_loop fuel i (size + 1)
  end.
Definition intsize (i : Z) : Z := intsize_loop 8 i 1.

Definition headsize (size : Z) : Z := if size <? 56 then 1 else 1 + intsize size.
Definition ListSize (contentSize : Z) : Z := u64 (headsize contentSize + contentSize).

(** [putint]: the bytes it writes. *)
Definition putint (i : Z) : bytes :=
  let b n := byte_of (Z.shiftr i n) in
  if i <? 2 ^ 8 then [byte_of i]
  else if i <? 2 ^ 16 then [b 8; byte_of i]
  else if i <? 2 ^ 24 then [b 16; b 8; byte_of i]
  else if i <? 2 ^ 32 then [b 24; b 16; b 8; byte_of i]
  else if i <? 2 ^ 40 then [b 32; b 24; b 16; b 8; byte_of i]
  else if i <? 2 ^ 48 then [b 40; b 32; b 24; b 16; b 8; byte_of i]
  else if i <? 2 ^ 56 then [b 48; b 40; b 32; b 24; b 16; b 8; byte_of i]
  else [b 56; b 48; b 40; b 32; b 24; b 16; b 8; byte_of i].

Definition puthead (smalltag largetag size : Z) : bytes :=
  if size <? 56 then [byte_of (smalltag + size)]
  else let s := putint size in byte_of (largetag + blen s) :: s.

(** ** The buffer *)

Record listhead : Type := mkHead { offset : Z; size : Z }.
Record encbuf : Type := mkEncbuf { str : bytes; lheads : list listhead; lhsize : Z }.
#[export] Instance eta_listhead : Eta listhead := λ r, mkHead (offset r) (size r).
#[export] Instance eta_encbuf : Eta encbuf := λ r, mkEncbuf (str r) (lheads r) (lhsize r).

Definition empty_encbuf : encbuf := mkEncbuf [] [] 0.
Definition buf_size (w : encbuf) : Z := blen (str w) + lhsize w.

Definition listhead_encode (h : listhead) : bytes := puthead 0xC0 0xF7 (u64 (size h)).

Definition put (b : bytes) (w : encbuf) : encbuf := w <| str ::= λ s, s ++ b |>.

Definition encodeStringHeader (n : Z) (w : encbuf) : encbuf :=
  if n <? 56 then put [byte_of (0x80 + n)] w
  else let s := putint (u64 n) in put (byte_of (0xB7 + blen s) :: s) w.

Definition encodeString (b : bytes) (w : encbuf) : encbuf :=
  match b with
  | [x] => if byte_val x <=? 0x7F then put [x] w else put b (encodeStringHeader (blen b) w)
  | _ => put b (encodeStringHeader (blen b) w)
  end.

(** [list] gives the new header, here its place among the headers; [listEnd] sets its
    size. *)
Definition start_list (w : encbuf) : nat * encbuf :=
  (length (lheads w), w <| lheads ::= λ l, l ++ [mkHead (blen (str w)) (lhsize w)] |>).
Definition listEnd (lh : nat) (w : encbuf) : encbuf :=
  match lheads w !! lh with
  | None => w
  | Some h =>
    let n := buf_size w - offset h - size h in
    w <| lheads ::= <[lh := h <| size := n |>]> |>
      <| lhsize ::= λ s, if n <? 56 then s + 1 else s + (1 + intsize (u64 n)) |>
  end.

(** ** Writers *)

Definition writeUint (i : Z) (w : encbuf) : encbuf :=
  if i =? 0 then put [byte_of 0x80] w
  else if i <? 128 then put [byte_of i] w
  else let s := putint i in put (byte_of (0x80 + blen s) :: s) w.
Definition writeBool (b : bool) (w : encbuf) : encbuf :=
  if b then put [byte_of 0x01] w else put [byte_of 0x80] w.
Definition writeBigInt (i : Z) (w : encbuf) : encbuf + rlperr :=
  if i <? 0 then inr errNegative
  else if i =? 0 then inl (put [byte_of 0x80] w)
  else inl (encodeString (big_Bytes i) w).

(** What the writer of a pointer to [e] does with nil: an empty string or list for
    arrays and structs, the zero value of [e] otherwise. *)
Fixpoint write_nil (e : gtype) (w : encbuf) : encbuf :=
  match e with
  | TByteArray _ | TBig | TUint _ | TBool | TString | TBytes => put [byte_of 0x80] w
  | TStruct _ | TArray _ _ | TSlice _ => let '(lh, w) := start_list w in listEnd lh w
  | TPtr e => write_nil e w
  | TInterface => put [byte_of 0xC0] w
  | TRaw => w
  end.

(** The elements of a slice, one after the other. *)
Definition write_all (write : gval → encbuf → encbuf + rlperr) : list gval → encbuf → encbuf + rlperr :=
  fix go vs w :=
    match vs with
    | [] => inl w
    | v :: vs => match write v w with inr err => inr err | inl w => go vs w end
    end.

(** The fields of a struct, each with the writer of its type. *)
Definition write_fields (write : tags → gtype → gval → encbuf → encbuf + rlperr) :
    list (tags * gtype) → list gval → encbuf → encbuf + rlperr :=
  fix go fields vs w {struct vs} :=
    match vs, fields with
    | [], [] => inl w
    | v :: vs, (ts, t) :: fields =>
      match write ts t v w with inr err => inr err | inl w => go fields vs w end
    | _, _ => inr ill_typed
    end.

(** The writer [makeWriter] makes for a type. *)
Fixpoint write (ts : tags) (t : gtype) (v : gval) (w : encbuf) {struct v} : encbuf + rlperr :=
  match t, v with
  | TRaw, VRaw b => inl (put b w)
  | TInterface, VIface None => inl (put [byte_of 0xC0] w)
  | TInterface, VIface (Some (t, v)) => write no_tags t v w
  | TBig, VBig None => inl (put [byte_of 0x80] w)
  | TBig, VBig (Some i) => writeBigInt i w
  | TUint _, VUint i => inl (writeUint i w)
  | TBool, VBool b => inl (writeBool b w)
  | (TString | TBytes | TByteArray _), VBytes b => inl (encodeString b w)
  | (TSlice e | TArray _ e), VList vs =>
    let '(lh, w) := if tail ts then (0%nat, w) else start_list w in
    match write_all (write no_tags e) vs w with
    | inr err => inr err
    | inl w => inl (if tail ts then w else listEnd lh w)
    end
  | TStruct fields, VList vs =>
    let '(lh, w) := start_list w in
    match write_fields write fields vs w with
    | inr err => inr err
    | inl w => inl (listEnd lh w)
    end
  | TPtr e, VPtr None => inl (write_nil e w)
  | TPtr e, VPtr (Some v) => write no_tags e v w
  | _, _ => inr ill_typed
  end.

(** ** Putting the headers in *)

(** [copy(out[pos:], b)], and writing [b] at [pos] byte by byte. *)
Definition copy_at (out : bytes) (pos : Z) (b : bytes) : outcome (bytes * Z) :=
  if (0 <=? pos) && (pos <=? blen out) then
    let b := take (Z.to_nat (blen out - pos)) b in
    Ret (take (Z.to_nat pos) out ++ b ++ drop (Z.to_nat (pos + blen b)) out, blen b)
  else Panic "slice bounds out of range".
Definition put_at (out : bytes) (pos : Z) (b : bytes) : outcome bytes :=
  if (0 <=? pos) && (pos + blen b <=? blen out) then
    Ret (take (Z.to_nat pos) out ++ b ++ drop (Z.to_nat (pos + blen b)) out)
  else Panic "index out of range".

(** One header: the string data before it, and itself. *)
Definition toBytes_head (s : bytes) (h : listhead) (st : bytes * Z * Z) : outcome (bytes * Z * Z) :=
  let '(out, strpos, pos) := st in
  piece ← slice_bytes s strpos (offset h);
  '(out, n) ← copy_at out pos piece;
  let enc := listhead_encode h in
  out ← put_at out (pos + n) enc;
  Ret (out, strpos + n, pos + n + blen enc).

Fixpoint toBytes_loop (s : bytes) (hs : list listhead) (st : bytes * Z * Z) : outcome (bytes * Z * Z) :=
  match hs with
  | [] => Ret st
  | h :: hs => st ← toBytes_head s h st; toBytes_loop s hs st
  end.

Definition toBytes (w : encbuf) : outcome bytes :=
  let out := replicate (Z.to_nat (buf_size w)) (byte_of 0) in
  '(out, strpos, pos) ← toBytes_loop (str w) (lheads w) (out, 0, 0);
  rest ← slice_bytes (str w) strpos (blen (str w));
  '(out, _) ← copy_at out pos rest;
  Ret out.

(** [toWriter] on a writer that never fails: what it has written. *)
Fixpoint toWriter_loop (s : bytes) (hs : list listhead) (out : bytes) (strpos : Z) : outcome (bytes * Z) :=
  match hs with
  | [] => Ret (out, strpos)
  | h :: hs =>
    '(out, strpos) ← (if offset h - strpos >? 0
                      then piece ← slice_bytes s strpos (offset h); Ret (out ++ piece, strpos + blen piece)
                      else Ret (out, strpos));
    toWriter_loop s hs (out ++ listhead_encode h) strpos
  end.
Definition toWriter (w : encbuf) : outcome bytes :=
  '(out, strpos) ← toWriter_loop (str w) (lheads w) [] 0;
  if strpos <? blen (str w) then rest ← slice_bytes (str w) strpos (blen (str w)); Ret (out ++ rest)
  else Ret out.

Definition EncodeToBytes (t : gtype) (v : gval) : outcome (bytes + rlperr) :=
  match write no_tags t v empty_encbuf with
  | inr err => Ret (inr err)
  | inl w => b ← toBytes w; Ret (inl b)
  end.
Definition Encode (t : gtype) (v : gval) : outcome (bytes + rlperr) :=
  match write no_tags t v empty_encbuf with
  | inr err => Ret (inr err)
  | inl w => b ← toWriter w; Ret (inl b)
  end.
