(* ===== verification/RlpLayout.v ===== *)
(** * The encoding, and that the buffer produces it

    [rlp_string] and [rlp_list] are the two rules of RLP.  [ref] is the encoding of a
    value by plain recursion, a list being written after its elements are known.  The
    encoder, which writes elements first and headers last, gives the same bytes. *)

From S2P Require Import Prelude Interfaces StateTypes Hex VmData Rlp.

(** ** The rules *)

Definition rlp_string (b : bytes) : bytes :=
  match b with
  | [x] => if byte_val x <=? 0x7F then [x] else puthead 0x80 0xB7 (blen b) ++ b
  | _ => puthead 0x80 0xB7 (blen b) ++ b
  end.
Definition rlp_list (content : bytes) : bytes := puthead 0xC0 0xF7 (blen content) ++ content.

Fixpoint ref_nil (e : gtype) : bytes :=
  match e with
  | TByteArray _ | TBig | TUint _ | TBool | TString | TBytes => rlp_string []
  | TStruct _ | TArray _ _ | TSlice _ | TInterface => rlp_list []
  | TPtr e => ref_nil e
  | TRaw => []
  end.

Definition app_res (a b : bytes + rlperr) : bytes + rlperr :=
  match a with inr err => inr err | inl x => match b with inr err => inr err | inl y => inl (x ++ y) end end.
Definition map_res (f : bytes → bytes) (a : bytes + rlperr) : bytes + rlperr :=
  match a with inr err => inr err | inl x => inl (f x) end.

Definition ref_all (ref : gval → bytes + rlperr) : list gval → bytes + rlperr :=
  fix go vs := match vs with [] => inl [] | v :: vs => app_res (ref v) (go vs) end.
Definition ref_fields (ref : tags → gtype → gval → bytes + rlperr) : list (tags * gtype) → list gval → bytes + rlperr :=
  fix go fields vs {struct vs} :=
    match vs, fields with
    | [], [] => inl []
    | v :: vs, (ts, t) :: fields => app_res (ref ts t v) (go fields vs)
    | _, _ => inr ill_typed
    end.

Fixpoint ref (ts : tags) (t : gtype) (v : gval) {struct v} : bytes + rlperr :=
  match t, v with
  | TRaw, VRaw b => inl b
  | TInterface, VIface None => inl (rlp_list [])
  | TInterface, VIface (Some (t, v)) => ref no_tags t v
  | TBig, VBig None => inl (rlp_string [])
  | TBig, VBig (Some i) => if i <? 0 then inr errNegative else inl (rlp_string (big_Bytes i))
  | TUint _, VUint i => inl (rlp_string (big_Bytes i))
  | TBool, VBool b => inl (rlp_string (if b then [byte_of 1] else []))
  | (TString | TBytes | TByteArray _), VBytes b => inl (rlp_string b)
  | (TSlice e | TArray _ e), VList vs =>
    map_res (if tail ts then λ c, c else rlp_list) (ref_all (ref no_tags e) vs)
  | TStruct fields, VList vs => map_res rlp_list (ref_fields ref fields vs)
  | TPtr e, VPtr None => inl (ref_nil e)
  | TPtr e, VPtr (Some v) => ref no_tags e v
  | _, _ => inr ill_typed
  end.

(** ** Induction on values *)

Section ValInd.
Variable P : gval → Prop.
Hypothesis HRaw : ∀ b, P (VRaw b).
Hypothesis HBig : ∀ i, P (VBig i).
Hypothesis HUint : ∀ i, P (VUint i).
Hypothesis HBool : ∀ b, P (VBool b).
Hypothesis HBytes : ∀ b, P (VBytes b).
Hypothesis HList : ∀ vs, Forall P vs → P (VList vs).
Hypothesis HNil : P (VPtr None).
Hypothesis HPtr : ∀ v, P v → P (VPtr (Some v)).
Hypothesis HNone : P (VIface None).
Hypothesis HIface : ∀ t v, P v → P (VIface (Some (t, v))).

Fixpoint gval_nested_ind (v : gval) : P v :=
  match v with
  | VRaw b => HRaw b
  | VBig i => HBig i
  | VUint i => HUint i
  | VBool b => HBool b
  | VBytes b => HBytes b
  | VList vs => HList vs ((fix go vs : Forall P vs :=
      match vs with [] => Forall_nil_2 P | v :: vs => Forall_cons_2 P v vs (gval_nested_ind v) (go vs) end) vs)
  | VPtr None => HNil
  | VPtr (Some v) => HPtr v (gval_nested_ind v)
  | VIface None => HNone
  | VIface (Some (t, v)) => HIface t v (gval_nested_ind v)
  end.
End ValInd.

(** ** Numbers *)

(** The number has [k] bytes. *)
Definition has_bytes (k : nat) (i : Z) : Prop := 256 ^ (Z.of_nat k - 1) ≤ i < 256 ^ Z.of_nat k.

Lemma has_bytes_log i : 0 < i → has_bytes (S (Z.to_nat (Z.log2 i / 8))) i.
Proof.
  intros Hi. unfold has_bytes. assert (0 ≤ Z.log2 i / 8) by (apply Z.div_pos; [apply Z.log2_nonneg|lia]).
  rewrite Nat2Z.inj_succ, Z2Nat.id by lia. replace (Z.succ (Z.log2 i / 8) - 1) with (Z.log2 i / 8) by lia.
  change 256 with (2 ^ 8). rewrite <- !Z.pow_mul_r by lia. destruct (Z.log2_spec i) as [H1 H2]; [lia|].
  pose proof (Z.div_mod (Z.log2 i) 8 ltac:(lia)). pose proof (Z.mod_pos_bound (Z.log2 i) 8 ltac:(lia)). split.
  - etrans; [|exact H1]. apply Z.pow_le_mono_r; lia.
  - eapply Z.lt_le_trans; [exact H2|]. apply Z.pow_le_mono_r; lia.
Qed.

Lemma has_bytes_ex i : 0 < i < 2 ^ 64 → ∃ k, (1 ≤ k ≤ 8)%nat ∧ has_bytes k i.
Proof.
  intros Hi. eexists. split; [|apply has_bytes_log; lia].
  assert (0 ≤ Z.log2 i < 64) by (split; [apply Z.log2_nonneg|apply Z.log2_lt_pow2; lia]).
  assert (0 ≤ Z.log2 i / 8 < 8) by (split; [apply Z.div_pos; lia|apply Z.div_lt_upper_bound; lia]). lia.
Qed.

Lemma intsize_loop_bytes k : ∀ fuel i n, (1 ≤ k ≤ fuel)%nat → has_bytes k i → intsize_loop fuel i n = n + Z.of_nat k - 1.
Proof.
  induction k as [|k IH]; intros fuel i n Hk Hi; [lia|]. destruct fuel as [|fuel]; [lia|]. cbn [intsize_loop].
  rewrite Z.shiftr_div_pow2 by done. change (2 ^ 8) with 256. unfold has_bytes in Hi.
  replace (Z.of_nat (S k) - 1) with (Z.of_nat k) in Hi by lia. destruct k as [|k].
  - rewrite Z.div_small by (simpl in Hi; lia). simpl. lia.
  - rewrite Nat2Z.inj_succ, Z.pow_succ_r in Hi by lia.
    assert (Hp : 0 < 256 ^ Z.of_nat k) by (apply Z.pow_pos_nonneg; lia).
    rewrite (proj2 (Z.eqb_neq _ _)).
    + rewrite (IH fuel (i / 256) (n + 1)); [lia|lia|]. unfold has_bytes.
      replace (Z.of_nat (S k) - 1) with (Z.of_nat k) by lia. rewrite Nat2Z.inj_succ, Z.pow_succ_r by lia.
      rewrite !Nat2Z.inj_succ, !Z.pow_succ_r in Hi by lia.
      split; [apply Z.div_le_lower_bound; lia|apply Z.div_lt_upper_bound; lia].
    + intros E. pose proof (Z.div_le_lower_bound i 256 (256 ^ Z.of_nat k) ltac:(lia) ltac:(lia)). lia.
Qed.

Lemma intsize_bytes k i : (1 ≤ k ≤ 8)%nat → has_bytes k i → intsize i = Z.of_nat k.
Proof. intros Hk Hi. unfold intsize. rewrite (intsize_loop_bytes k) by done. lia. Qed.

Lemma big_Bytes_bytes k i : (1 ≤ k)%nat → has_bytes k i → big_Bytes i = be_bytes k i.
Proof.
  intros Hk [H1 H2]. assert (Hp : 0 < 256 ^ (Z.of_nat k - 1)) by (apply Z.pow_pos_nonneg; lia).
  unfold big_Bytes, BitLen. rewrite (proj2 (Z.eqb_neq _ _)), Z.abs_eq by lia. f_equal.
  change 256 with (2 ^ 8) in H1, H2. rewrite <- Z.pow_mul_r in H1, H2 by lia.
  assert (Hl : 8 * (Z.of_nat k - 1) ≤ Z.log2 i < 8 * Z.of_nat k).
  { split; [apply Z.log2_le_pow2; lia|apply Z.log2_lt_pow2; lia]. }
  assert ((Z.log2 i + 1 + 7) / 8 = Z.of_nat k) as -> by (symmetry; apply Z.div_unique with (r := Z.log2 i + 8 - 8 * Z.of_nat k); lia).
  lia.
Qed.

Lemma putint_bytes k i : (1 ≤ k ≤ 8)%nat → has_bytes k i → putint i = be_bytes k i.
Proof.
  intros Hk [H1 H2].
  assert (D : ∀ n, 0 ≤ n → Z.shiftr i (8 + n) = Z.shiftr i n / 256).
  { intros n Hn. rewrite !Z.shiftr_div_pow2 by lia. rewrite Z.add_comm, Z.pow_add_r, Z.div_div by lia. done. }
  unfold putint. change 256 with (2 ^ 8) in H1, H2. rewrite <- Z.pow_mul_r in H1, H2 by lia.
  assert (S8 : Z.shiftr i 8 = i / 256) by (rewrite Z.shiftr_div_pow2 by done; done).
  pose proof (D 8 ltac:(lia)) as S16. pose proof (D 16 ltac:(lia)) as S24. pose proof (D 24 ltac:(lia)) as S32.
  pose proof (D 32 ltac:(lia)) as S40. pose proof (D 40 ltac:(lia)) as S48. pose proof (D 48 ltac:(lia)) as S56.
  simpl Z.add in S16, S24, S32, S40, S48, S56.
  destruct (decide (k = 1%nat)) as [->|]; [|destruct (decide (k = 2%nat)) as [->|]; [|destruct (decide (k = 3%nat)) as [->|];
    [|destruct (decide (k = 4%nat)) as [->|]; [|destruct (decide (k = 5%nat)) as [->|]; [|destruct (decide (k = 6%nat)) as [->|];
    [|destruct (decide (k = 7%nat)) as [->|]; [|assert (k = 8%nat) as -> by lia]]]]]]];
    simpl Z.mul in H1, H2; simpl Z.sub in H1;
    repeat first [rewrite (proj2 (Z.ltb_ge i _)) by lia | rewrite (proj2 (Z.ltb_lt i _)) by lia];
    cbn [be_bytes app]; change (8 + 8) with 16 in *; change (8 + 16) with 24 in *; change (8 + 24) with 32 in *;
    change (8 + 32) with 40 in *; change (8 + 40) with 48 in *; change (8 + 48) with 56 in *;
    rewrite ?S56, ?S48, ?S40, ?S32, ?S24, ?S16, ?S8; reflexivity.
Qed.

(** ** What the writers of strings and numbers put *)

Lemma blen_app a b : blen (a ++ b) = blen a + blen b.
Proof. unfold blen. rewrite length_app. lia. Qed.
Lemma blen_cons x b : blen (x :: b) = blen b + 1.
Proof. unfold blen. simpl. lia. Qed.
Lemma blen_be_bytes k i : blen (be_bytes k i) = Z.of_nat k.
Proof. unfold blen. by rewrite length_be_bytes. Qed.
#[export] Hint Rewrite blen_app blen_cons blen_be_bytes : blen.

Lemma put_app a b w : put b (put a w) = put (a ++ b) w.
Proof. destruct w. unfold put. simpl. by rewrite <- app_assoc. Qed.

Lemma encodeStringHeader_put n w : 0 ≤ n < 2 ^ 64 → encodeStringHeader n w = put (puthead 0x80 0xB7 n) w.
Proof. intros Hn. unfold encodeStringHeader, puthead. rewrite u64_small by done. by destruct (n <? 56). Qed.

Lemma encodeString_put b w : blen b < 2 ^ 64 → encodeString b w = put (rlp_string b) w.
Proof.
  intros Hb. pose proof (blen_nonneg b).
  assert (E : put b (encodeStringHeader (blen b) w) = put (puthead 0x80 0xB7 (blen b) ++ b) w)
    by (rewrite encodeStringHeader_put by done; apply put_app).
  unfold encodeString, rlp_string. destruct b as [|x [|y b]]; [exact E| |exact E].
  destruct (byte_val x <=? 0x7F); [done|exact E].
Qed.

Lemma big_Bytes_0 : big_Bytes 0 = [].
Proof. done. Qed.

Lemma length_big_Bytes n x : 0 ≤ x < 256 ^ Z.of_nat n → (length (big_Bytes x) ≤ n)%nat.
Proof.
  intros Hx. unfold big_Bytes. rewrite length_be_bytes. pose proof (BitLen_nonneg x).
  assert (BitLen x ≤ 8 * Z.of_nat n) by (apply BitLen_bound; [lia|]; rewrite Z.pow_mul_r, Z.abs_eq by lia; apply Hx).
  assert ((BitLen x + 7) / 8 < Z.of_nat n + 1) by (apply Z.div_lt_upper_bound; lia). lia.
Qed.

Lemma rlp_string_number k i :
  (1 ≤ k ≤ 8)%nat → has_bytes k i →
  rlp_string (be_bytes k i) = if i <? 128 then [byte_of i] else byte_of (0x80 + Z.of_nat k) :: be_bytes k i.
Proof.
  intros Hk Hi. destruct (decide (k = 1%nat)) as [->|Hn].
  - unfold has_bytes in Hi. cbn [be_bytes app rlp_string]. rewrite byte_val_of, Z.mod_small by (simpl in Hi; lia).
    destruct (Z.leb_spec i 127), (Z.ltb_spec i 128); try lia; done.
  - assert (256 ≤ i). { destruct Hi as [Hi _]. etrans; [|exact Hi].
      change 256 with (256 ^ 1) at 1. apply Z.pow_le_mono_r; lia. }
    rewrite (proj2 (Z.ltb_ge _ _)) by lia. pose proof (length_be_bytes k i) as Hl. unfold rlp_string, puthead.
    destruct (be_bytes k i) as [|x [|y l]] eqn:E; [simpl in Hl; lia..|]. rewrite <- E, blen_be_bytes.
    rewrite (proj2 (Z.ltb_lt _ 56)) by lia. done.
Qed.

Lemma writeUint_put i w : is_u64 i → writeUint i w = put (rlp_string (big_Bytes i)) w.
Proof.
  intros Hi. unfold writeUint. destruct (Z.eqb_spec i 0) as [->|Hn]; [done|].
  destruct (has_bytes_ex i) as (k & Hk & Hb); [unfold is_u64 in Hi; lia|].
  rewrite (big_Bytes_bytes k), (putint_bytes k), (rlp_string_number k) by (done || lia).
  destruct (i <? 128); [done|]. by rewrite blen_be_bytes.
Qed.

Lemma writeBool_put b w : writeBool b w = put (rlp_string (if b then [byte_of 1] else [])) w.
Proof. by destruct b. Qed.

(** ** Typing *)

Inductive wt : gtype → gval → Prop :=
| wt_raw b : wt TRaw (VRaw b)
| wt_big i : wt TBig (VBig i)
| wt_uint bits i : In bits [8; 16; 32; 64] → 0 ≤ i < 2 ^ bits → wt (TUint bits) (VUint i)
| wt_bool b : wt TBool (VBool b)
| wt_string b : wt TString (VBytes b)
| wt_bytes b : wt TBytes (VBytes b)
| wt_byte_array n b : length b = n → wt (TByteArray n) (VBytes b)
| wt_slice e vs : Forall (wt e) vs → wt (TSlice e) (VList vs)
| wt_array n e vs : length vs = n → Forall (wt e) vs → wt (TArray n e) (VList vs)
| wt_struct fields vs : Forall2 (λ f v, wt f.2 v) fields vs → wt (TStruct fields) (VList vs)
| wt_nil e : wt (TPtr e) (VPtr None)
| wt_ptr e v : wt e v → wt (TPtr e) (VPtr (Some v))
| wt_no_iface : wt TInterface (VIface None)
| wt_iface t v : wt t v → wt TInterface (VIface (Some (t, v))).

(** ** Layout

    [lays p s hs out]: the string data [s], which starts at offset [p], with the
    headers [hs] put in, is [out]. *)
Inductive lays : Z → bytes → list listhead → bytes → Prop :=
| lays_end p s : lays p s [] s
| lays_head p s1 s2 h hs out :
    offset h = p + blen s1 → lays (p + blen s1) s2 hs out →
    lays p (s1 ++ s2) (h :: hs) (s1 ++ listhead_encode h ++ out).

Lemma lays_prefix p a s hs out : lays (p + blen a) s hs out → lays p (a ++ s) hs (a ++ out).
Proof.
  inversion 1 as [|? s1 s2 h hs' out' Ho Hl]; subst; [constructor|]. rewrite !(assoc_L (++) a). constructor.
  - rewrite Ho. autorewrite with blen. lia.
  - autorewrite with blen. by rewrite Z.add_assoc.
Qed.

Lemma lays_app p s hs out s' hs' out' :
  lays p s hs out → lays (p + blen s) s' hs' out' → lays p (s ++ s') (hs ++ hs') (out ++ out').
Proof.
  induction 1 as [p s|p s1 s2 h hs out Ho Hl IH]; intros H'; [by apply lays_prefix|].
  rewrite <- !app_assoc. cbn [app]. constructor; [done|]. apply IH. rewrite blen_app, Z.add_assoc in H'. done.
Qed.

Lemma blen_puthead a b n : 0 ≤ n < 2 ^ 64 → blen (puthead a b n) = headsize n.
Proof.
  intros Hn. unfold puthead, headsize. destruct (Z.ltb_spec n 56); [done|].
  destruct (has_bytes_ex n) as (k & Hk & Hb); [lia|].
  rewrite (putint_bytes k), (intsize_bytes k) by done. autorewrite with blen. lia.
Qed.

(** [w'] is [w] with [out] written: its data and its headers are those of [w] with
    some that lay out to [out]. *)
Definition emits (w w' : encbuf) (out : bytes) : Prop :=
  ∃ s hs, w' = mkEncbuf (str w ++ s) (lheads w ++ hs) (lhsize w + (blen out - blen s)) ∧ lays (blen (str w)) s hs out.

Lemma emits_nil w : emits w w [].
Proof. exists [], []. split; [|constructor]. destruct w. simpl. rewrite !app_nil_r. f_equal. lia. Qed.

Lemma emits_put b w : emits w (put b w) b.
Proof. exists b, []. split; [|constructor]. destruct w. unfold put. simpl. rewrite app_nil_r. f_equal. lia. Qed.

Lemma emits_app w w1 w2 o1 o2 : emits w w1 o1 → emits w1 w2 o2 → emits w w2 (o1 ++ o2).
Proof.
  intros (s1 & h1 & -> & L1) (s2 & h2 & -> & L2). exists (s1 ++ s2), (h1 ++ h2). simpl in *.
  rewrite blen_app in L2. split; [|by apply lays_app]. rewrite !app_assoc. f_equal. autorewrite with blen. lia.
Qed.

Lemma emits_list w w2 c : blen c < 2 ^ 63 →
  emits (start_list w).2 w2 c → emits w (listEnd (start_list w).1 w2) (rlp_list c).
Proof.
  intros Hc (s & hs & -> & L). pose proof (blen_nonneg c).
  exists s, (mkHead (blen (str w)) (blen c) :: hs). unfold start_list in *. simpl in *.
  unfold listEnd. simpl. rewrite lookup_app_l by (rewrite length_app; simpl; lia).
  rewrite lookup_app_r, Nat.sub_diag by done. simpl.
  unfold buf_size. simpl. rewrite blen_app.
  replace (blen (str w) + blen s + (lhsize w + (blen c - blen s)) - blen (str w) - lhsize w) with (blen c) by lia.
  rewrite insert_app_l by (rewrite length_app; simpl; lia).
  rewrite insert_app_r_alt, Nat.sub_diag by done. simpl. rewrite <- app_assoc. simpl. split.
  - f_equal. unfold rlp_list. rewrite blen_app, blen_puthead, u64_small by (unfold is_u64; lia).
    unfold headsize. destruct (blen c <? 56); lia.
  - unfold rlp_list. rewrite <- (u64_small (blen c)) at 2 by (unfold is_u64; lia).
    change (puthead 0xC0 0xF7 (u64 (blen c))) with (listhead_encode (mkHead (blen (str w)) (blen c))).
    apply (lays_head _ [] s); [simpl; change (blen []) with 0; lia|]. change (blen []) with 0. by rewrite Z.add_0_r.
Qed.

(** ** Writers lay out the encoding *)

Lemma write_nil_emits e w : emits w (write_nil e w) (ref_nil e).
Proof.
  induction e; simpl; try apply (emits_put [byte_of 0x80]); try apply (emits_put [byte_of 0xC0]);
    try apply emits_nil; try done; apply (emits_list w _ []); (done || apply emits_nil).
Qed.

(** What a writer must do with a value whose encoding is [r]. *)
Definition agrees (r : bytes + rlperr) (run : encbuf → encbuf + rlperr) : Prop :=
  ∀ w, match r with
  | inl out => ∃ w', run w = inl w' ∧ (blen out < 2 ^ 63 → emits w w' out)
  | inr err => run w = inr err
  end.

Lemma agrees_put b run : (∀ w, blen b < 2 ^ 63 → run w = inl (put b w)) → (∀ w, ∃ w', run w = inl w') → agrees (inl b) run.
Proof.
  intros H Ht w. destruct (Ht w) as [w' E]. exists w'. split; [done|]. intros Hb.
  rewrite (H w Hb) in E. injection E as <-. apply emits_put.
Qed.

Lemma agrees_step r1 r2 run1 run2 :
  agrees r1 run1 → agrees r2 run2 →
  agrees (app_res r1 r2) (λ w, match run1 w with inr err => inr err | inl w => run2 w end).
Proof.
  intros H1 H2 w. specialize (H1 w). destruct r1 as [o1|err]; simpl; [|by rewrite H1].
  destruct H1 as (w1 & -> & E1). specialize (H2 w1). destruct r2 as [o2|err]; simpl; [|done].
  destruct H2 as (w2 & -> & E2). exists w2. split; [done|]. rewrite blen_app. pose proof (blen_nonneg o1). pose proof (blen_nonneg o2).
  intros Hb. eapply emits_app; [apply E1|apply E2]; lia.
Qed.

Lemma agrees_list r run :
  agrees r run →
  agrees (map_res rlp_list r) (λ w, match run (start_list w).2 with inr err => inr err | inl w' => inl (listEnd (start_list w).1 w') end).
Proof.
  intros H w. specialize (H (start_list w).2). destruct r as [c|err]; cbn [map_res]; [|by rewrite H].
  destruct H as (w' & -> & E). eexists. split; [done|]. intros Hb.
  assert (blen c < 2 ^ 63) by (unfold rlp_list in Hb; rewrite blen_app in Hb; pose proof (blen_nonneg (puthead 192 247 (blen c))); lia).
  apply emits_list; auto.
Qed.

Lemma agrees_all (r : gval → bytes + rlperr) run vs :
  Forall (λ v, agrees (r v) (run v)) vs → agrees (ref_all r vs) (write_all run vs).
Proof.
  induction 1 as [|v vs Hv Hvs IH]; [intros w; exists w; split; [done|intros _; apply emits_nil]|].
  exact (agrees_step _ _ _ _ Hv IH).
Qed.

Lemma agrees_fields (r : tags → gtype → gval → bytes + rlperr) run fields vs :
  Forall2 (λ f v, agrees (r f.1 f.2 v) (run f.1 f.2 v)) fields vs → agrees (ref_fields r fields vs) (write_fields run fields vs).
Proof.
  induction 1 as [|[ts t] v fields vs Hv Hvs IH]; [intros w; exists w; split; [done|intros _; apply emits_nil]|].
  exact (agrees_step _ _ _ _ Hv IH).
Qed.

Lemma agrees_slice ts vs r run :
  agrees r (write_all run vs) →
  agrees (map_res (if tail ts then λ c, c else rlp_list) r)
    (λ w, let '(lh, w) := if tail ts then (0%nat, w) else start_list w in
          match write_all run vs w with inr err => inr err | inl w => inl (if tail ts then w else listEnd lh w) end).
Proof.
  intros H. destruct (tail ts); [|exact (agrees_list _ _ H)].
  intros w. specialize (H w). destruct r; simpl; [destruct H as (w' & -> & ?); eauto|by rewrite H].
Qed.

Lemma blen_rlp_string b : blen b ≤ blen (rlp_string b).
Proof.
  assert (H : blen b ≤ blen (puthead 128 183 (blen b) ++ b)) by (rewrite blen_app; pose proof (blen_nonneg (puthead 128 183 (blen b))); lia).
  unfold rlp_string. destruct b as [|x [|y b]]; [exact H| |exact H]. by destruct (byte_val x <=? 127).
Qed.

Lemma agrees_string b run : (∀ w, run w = inl (encodeString b w)) → agrees (inl (rlp_string b)) run.
Proof.
  intros H. apply agrees_put; [|eauto]. intros w Hb. rewrite H, encodeString_put; [done|].
  pose proof (blen_rlp_string b). lia.
Qed.

Lemma uint_bits bits i : In bits [8; 16; 32; 64] → 0 ≤ i < 2 ^ bits → is_u64 i.
Proof. unfold is_u64. simpl. intros [<-|[<-|[<-|[<-|[]]]]]; simpl; lia. Qed.

Lemma write_agrees v : ∀ ts t, wt t v → agrees (ref ts t v) (write ts t v).
Proof.
  induction v as [b|i|i|b|b|vs IH| |v IH| |t' v IH] using gval_nested_ind; intros ts t Hw; inversion Hw; subst.
  - apply agrees_put; eauto.
  - destruct i as [i|]; simpl; [|apply agrees_put; eauto]. unfold writeBigInt. destruct (i <? 0) eqn:Hi; [by intros w|].
    destruct (Z.eqb_spec i 0) as [->|]; [apply agrees_put; eauto|by apply agrees_string].
  - apply agrees_put; [|eauto]. intros w _. simpl. by erewrite writeUint_put by (by eapply uint_bits).
  - apply agrees_put; [|eauto]. intros w _. simpl. by rewrite writeBool_put.
  - by apply agrees_string.
  - by apply agrees_string.
  - by apply agrees_string.
  - apply agrees_slice, agrees_all. rewrite Forall_forall in *. eauto.
  - apply agrees_slice, agrees_all. rewrite Forall_forall in *. eauto.
  - apply agrees_list, agrees_fields. match goal with H : Forall2 _ _ _ |- _ => revert H end. clear Hw.
    induction 1 as [|f v fields vs Hv Hvs IHf]; constructor; inversion IH; subst; auto.
  - intros w. eexists. split; [done|]. intros _. apply write_nil_emits.
  - apply IH. done.
  - apply agrees_put; eauto.
  - apply IH. done.
Qed.

(** ** Putting the headers in *)

Lemma slice_bytes_mid a b c n : n = blen a + blen b → slice_bytes (a ++ b ++ c) (blen a) n = Ret b.
Proof.
  intros ->. unfold slice_bytes. pose proof (blen_nonneg a). pose proof (blen_nonneg b). pose proof (blen_nonneg c).
  autorewrite with blen. rewrite !(proj2 (Z.leb_le _ _)) by lia. simpl.
  replace (Z.to_nat (blen a + blen b - blen a)) with (length b) by (unfold blen; lia).
  replace (Z.to_nat (blen a)) with (length a) by (unfold blen; lia). by rewrite drop_app_length, take_app_length.
Qed.

Lemma slice_bytes_end a b : slice_bytes (a ++ b) (blen a) (blen (a ++ b)) = Ret b.
Proof. pose proof (slice_bytes_mid a b [] (blen (a ++ b)) (blen_app a b)) as H. by rewrite app_nil_r in H. Qed.

Lemma write_mid done_ b zs : (length b ≤ length zs)%nat →
  take (Z.to_nat (blen done_)) (done_ ++ zs) ++ b ++ drop (Z.to_nat (blen done_ + blen b)) (done_ ++ zs) = (done_ ++ b) ++ drop (length b) zs.
Proof.
  intros Hb. replace (Z.to_nat (blen done_)) with (length done_) by (unfold blen; lia).
  replace (Z.to_nat (blen done_ + blen b)) with (length done_ + length b)%nat by (unfold blen; lia).
  rewrite take_app_length, <- drop_drop, drop_app_length. by rewrite app_assoc.
Qed.

Lemma copy_at_mid done_ b zs : (length b ≤ length zs)%nat →
  copy_at (done_ ++ zs) (blen done_) b = Ret ((done_ ++ b) ++ drop (length b) zs, blen b).
Proof.
  intros Hb. unfold copy_at. pose proof (blen_nonneg done_). rewrite (proj2 (Z.leb_le _ _)), (proj2 (Z.leb_le _ _)) by (autorewrite with blen; unfold blen; lia).
  simpl. rewrite (take_ge b) by (autorewrite with blen; unfold blen; lia). by rewrite write_mid.
Qed.

Lemma put_at_mid done_ b zs : (length b ≤ length zs)%nat →
  put_at (done_ ++ zs) (blen done_) b = Ret ((done_ ++ b) ++ drop (length b) zs).
Proof.
  intros Hb. unfold put_at. pose proof (blen_nonneg done_). rewrite (proj2 (Z.leb_le _ _)), (proj2 (Z.leb_le _ _)) by (autorewrite with blen; unfold blen; lia).
  simpl. by rewrite write_mid.
Qed.

(** The end of [toBytes], after its loop. *)
Definition toBytes_end (s : bytes) (st : bytes * Z * Z) : outcome bytes :=
  let '(out, strpos, pos) := st in
  rest ← slice_bytes s strpos (blen s); '(out, _) ← copy_at out pos rest; Ret out.

Lemma toBytes_lays p s hs out : lays p s hs out → ∀ pre done_ zs,
  p = blen pre → length zs = length out →
  (st ← toBytes_loop (pre ++ s) hs (done_ ++ zs, p, blen done_); toBytes_end (pre ++ s) st) = Ret (done_ ++ out).
Proof.
  induction 1 as [p s|p s1 s2 h hs out Ho Hl IH]; intros pre dn zs -> Hz; cbn [toBytes_loop toBytes_end mbind outcome_bind].
  - rewrite slice_bytes_end. simpl.
    rewrite copy_at_mid by lia. simpl. rewrite drop_ge, app_nil_r by lia. done.
  - rewrite !length_app in Hz. unfold toBytes_head. rewrite (slice_bytes_mid pre s1 s2) by done. cbn [mbind outcome_bind].
    rewrite copy_at_mid by lia. cbn [mbind outcome_bind]. rewrite <- (blen_app dn s1).
    rewrite put_at_mid by (rewrite length_drop; lia). cbn [mbind outcome_bind]. rewrite <- !blen_app.
    rewrite (blen_app pre s1), (app_assoc pre). rewrite (IH (pre ++ s1)); [by rewrite <- !app_assoc|by rewrite blen_app|].
    rewrite !length_drop. lia.
Qed.

Lemma toWriter_lays p s hs out : lays p s hs out → ∀ pre done_,
  p = blen pre →
  ('(o, strpos) ← toWriter_loop (pre ++ s) hs done_ p;
   if strpos <? blen (pre ++ s) then rest ← slice_bytes (pre ++ s) strpos (blen (pre ++ s)); Ret (o ++ rest) else Ret o)
  = Ret (done_ ++ out).
Proof.
  induction 1 as [p s|p s1 s2 h hs out Ho Hl IH]; intros pre dn ->; cbn [toWriter_loop mbind outcome_bind].
  - destruct (Z.ltb_spec (blen pre) (blen (pre ++ s))) as [Hlt|Hge].
    + rewrite slice_bytes_end. done.
    + rewrite blen_app in Hge. destruct s; [by rewrite app_nil_r|]. rewrite blen_cons in Hge. pose proof (blen_nonneg s). lia.
  - rewrite Ho. rewrite Z.gtb_ltb. destruct (Z.ltb_spec 0 (blen pre + blen s1 - blen pre)) as [Hlt|Hge].
    + rewrite (slice_bytes_mid pre s1 s2) by done. cbn [mbind outcome_bind]. rewrite (app_assoc pre).
      rewrite (IH (pre ++ s1)); [|by rewrite blen_app]. by rewrite <- !app_assoc.
    + destruct s1; [|rewrite blen_cons in Hge; pose proof (blen_nonneg s1); lia]. simpl.
      change (blen []) with 0 in IH. rewrite Z.add_0_r in IH. rewrite IH by done. by rewrite <- app_assoc.
Qed.

Lemma toBytes_emits w out : emits empty_encbuf w out → toBytes w = Ret out ∧ toWriter w = Ret out.
Proof.
  intros (s & hs & -> & L). unfold toBytes, toWriter, buf_size. simpl. split.
  - pose proof (toBytes_lays _ _ _ _ L [] [] (replicate (Z.to_nat (blen s + (0 + (blen out - blen s)))) (byte_of 0))) as H.
    apply H; [done|]. rewrite length_replicate. unfold blen. lia.
  - by apply (toWriter_lays _ _ _ _ L []).
Qed.

Lemma Encode_ref t v out : wt t v → ref no_tags t v = inl out → blen out < 2 ^ 63 → EncodeToBytes t v = Ret (inl out) ∧ Encode t v = Ret (inl out).
Proof.
  intros Hw Hr Hb. pose proof (write_agrees v no_tags t Hw empty_encbuf) as H. unfold EncodeToBytes, Encode. rewrite Hr in H.
  destruct H as (w & -> & E). by destruct (toBytes_emits w out (E Hb)) as [-> ->].
Qed.

(** C23: the encoder writes RLP.  For every Go value of every encodable type,
    [EncodeToBytes] and [Encode] give the recursive encoding [ref] in which a list is
    its header and its elements, although the buffer records the headers apart and
    fixes their sizes later; they fail exactly on negative integers, and never index
    out of the output they allocated.  The bound is the largest length of a Go
    slice. *)
Theorem encoder_correct t v :
  wt t v →
  match ref no_tags t v with
  | inl out => blen out < 2 ^ 63 → EncodeToBytes t v = Ret (inl out) ∧ Encode t v = Ret (inl out)
  | inr err => EncodeToBytes t v = Ret (inr err) ∧ Encode t v = Ret (inr err)
  end.
Proof.
  intros Hw. destruct (ref no_tags t v) as [out|err] eqn:E; [intros Hb; by apply Encode_ref|].
  pose proof (write_agrees v no_tags t Hw empty_encbuf) as H. rewrite E in H. unfold EncodeToBytes, Encode. by rewrite H.
Qed.

(** A transfer of the form (nonce, amount, recipient or nil, list of words). *)
Definition sample_type : gtype :=
  TStruct [(no_tags, TUint 64); (no_tags, TBig); (mkTags true false, TPtr (TByteArray 2)); (no_tags, TSlice TString)].
Definition sample_value : gval :=
  VList [VUint 1024; VBig (Some 7); VPtr None; VList [VBytes (byte_of <$> [100; 111; 103]); VBytes (byte_of <$> [200])]].

Lemma sample_value_wt : wt sample_type sample_value.
Proof.
  apply wt_struct. constructor; [apply wt_uint; [by do 3 right; left|done]|repeat constructor].
Qed.

Lemma encoder_correct_witness :
  EncodeToBytes sample_type sample_value
  = Ret (inl (byte_of <$> [0xCC; 0x82; 4; 0; 7; 0x80; 0xC6; 0x83; 100; 111; 103; 0x81; 200])).
Proof. exact (proj1 (encoder_correct sample_type sample_value sample_value_wt eq_refl)). Defined.
