(* ===== verification/RlpStream.v ===== *)
(** * RLP, reading ([rlp/decode.go], [rlp/raw.go])

    [Stream] reads one value after the other from its input; a decoder for a type is
    made from the decoders of its parts. *)

From S2P Require Import Prelude Interfaces StateTypes Hex VmData Rlp.

(** ** Streams *)

Inductive Kind : Type := Byte | String | List.
#[export] Instance Kind_eq_dec : EqDecision Kind.
Proof. solve_decision. Defined.

Record listpos : Type := mkListpos { lp_pos : Z; lp_size : Z }.
#[export] Instance eta_listpos : Eta listpos := λ r, mkListpos (lp_pos r) (lp_size r).

(** [r] is what is left of the input, a [bytes.Reader]; [kind] is [None] for the -1
    that asks for the next value to be read; the last of [stack] is its first
    element here. *)
Record Stream : Type := mkStream {
  r : bytes;
  remaining : Z;
  limited : bool;
  kind : option Kind;
  s_size : Z;
  byteval : Z;
  kinderr : option rlperr;
  stack : list listpos
}.
#[export] Instance eta_Stream : Eta Stream := λ x,
  mkStream (r x) (remaining x) (limited x) (kind x) (s_size x) (byteval x) (kinderr x) (stack x).

(** Reading a value or failing; the stream has moved in both cases. *)
Definition RM (A : Type) : Type := Stream → (A + rlperr) * Stream.
#[export] Instance RM_ret : MRet RM := λ A a s, (inl a, s).
#[export] Instance RM_bind : MBind RM := λ A B f m s,
  match m s with
  | (inl a, s) => f a s
  | (inr err, s) => (inr err, s)
  end.
Definition fail {A} (err : rlperr) : RM A := λ s, (inr err, s).
Definition get_s : RM Stream := λ s, (inl s, s).
Definition mod_s (f : Stream → Stream) : RM unit := λ s, (inl tt, f s).

(** [NewStream] of a [bytes.Reader]: without a limit, the limit is its length. *)
Definition NewStream (b : bytes) (inputLimit : Z) : Stream :=
  mkStream b (if inputLimit >? 0 then inputLimit else blen b) true None 0 0 None [].
(** Over another reader there is no limit. *)
Definition NewStream_unlimited (b : bytes) : Stream := mkStream b 0 false None 0 0 None [].

Definition rearm : RM unit := mod_s (λ s, s <| kind := None |>).

(** The list overflow check and the limit. *)
Definition willRead (n : Z) : RM unit :=
  rearm;;
  s ← get_s;
  (match stack s with
   | [] => mret tt
   | tos :: rest =>
     if n >? u64 (lp_size tos - lp_pos tos) then fail ErrElemTooLarge
     else mod_s (λ s, s <| stack := tos <| lp_pos ::= λ p, u64 (p + n) |> :: rest |>)
   end);;
  s ← get_s;
  if limited s then
    if n >? remaining s then fail ErrValueTooLarge
    else mod_s (λ s, s <| remaining ::= λ m, m - n |>)
  else mret tt.

Definition readByte : RM Z :=
  willRead 1;;
  s ← get_s;
  match r s with
  | [] => fail ErrUnexpectedEOF
  | b :: rest => mod_s (λ s, s <| r := rest |>);; mret (byte_val b)
  end.

(** The reads go on until the buffer is full or the input ends. *)
Definition readFull (n : Z) : RM bytes :=
  willRead n;;
  s ← get_s;
  mod_s (λ s, s <| r ::= drop (Z.to_nat n) |>);;
  if n <=? blen (r s) then mret (take (Z.to_nat n) (r s)) else fail ErrUnexpectedEOF.

Definition readUint (size : Z) : RM Z :=
  if size =? 0 then rearm;; mret 0
  else if size =? 1 then readByte
  else
    b ← readFull size;
    match b with
    | x :: _ => if byte_val x =? 0 then fail ErrCanonSize else mret (be_val b)
    | [] => mret 0
    end.

(** [readKind] also returns a kind and a size with its errors. *)
Definition sized (k : Kind) (n : Z) : Stream → (Kind * Z * option rlperr) * Stream := λ s,
  match readUint n s with
  | (inl size, s) => ((k, size, if size <? 56 then Some ErrCanonSize else None), s)
  | (inr err, s) => ((k, 0, Some err), s)
  end.
Definition stream_readKind : Stream → (Kind * Z * option rlperr) * Stream := λ s,
  match readByte s with
  | (inr err, s) =>
    let err := match stack s, err with
               | [], (ErrUnexpectedEOF | ErrValueTooLarge) => EOF
               | _, _ => err
               end in
    ((Byte, 0, Some err), s)
  | (inl b, s) =>
    let s := s <| byteval := 0 |> in
    if b <? 0x80 then ((Byte, 0, None), s <| byteval := b |>)
    else if b <? 0xB8 then ((String, b - 0x80, None), s)
    else if b <? 0xC0 then sized String (b - 0xB7) s
    else if b <? 0xF8 then ((List, b - 0xC0, None), s)
    else sized List (b - 0xF7) s
  end.

Definition Kind_of : RM (Kind * Z) := λ s,
  let tos := head (stack s) in
  match kind s with
  | Some k => (match kinderr s with Some err => inr err | None => inl (k, s_size s) end, s)
  | None =>
    let s := s <| kinderr := None |> in
    if match tos with Some tos => lp_pos tos =? lp_size tos | None => false end then (inr EOL, s)
    else
      let '((k, n, err), s) := stream_readKind s in
      let err := match err with
        | Some err => Some err
        | None =>
          match head (stack s) with
          | None => if limited s && (n >? remaining s) then Some ErrValueTooLarge else None
          | Some tos => if n >? u64 (lp_size tos - lp_pos tos) then Some ErrElemTooLarge else None
          end
        end in
      let s := s <| kind := Some k |> <| s_size := n |> <| kinderr := err |> in
      (match err with Some err => inr err | None => inl (k, n) end, s)
  end.

Definition NewListStream (b : bytes) (len : Z) : Stream :=
  (NewStream b len) <| kind := Some List |> <| s_size := len |>.

(** ** Reading values *)

Definition Bytes : RM bytes :=
  '(k, n) ← Kind_of;
  match k with
  | Byte => s ← get_s; rearm;; mret [byte_of (byteval s)]
  | String =>
    b ← readFull n;
    if (n =? 1) && match b with x :: _ => byte_val x <? 128 | [] => false end then fail ErrCanonSize else mret b
  | List => fail ErrExpectedString
  end.

(** The header has been read already, and is written again. *)
Definition Raw : RM bytes :=
  '(k, n) ← Kind_of;
  match k with
  | Byte => s ← get_s; rearm;; mret [byte_of (byteval s)]
  | String => b ← readFull n; mret (puthead 0x80 0xB7 n ++ b)
  | List => b ← readFull n; mret (puthead 0xC0 0xF7 n ++ b)
  end.

Definition stream_uint (maxbits : Z) : RM Z :=
  '(k, n) ← Kind_of;
  match k with
  | Byte => s ← get_s; if byteval s =? 0 then fail ErrCanonInt else rearm;; mret (byteval s)
  | String =>
    if n >? maxbits / 8 then fail errUintOverflow
    else λ s,
      match readUint n s with
      | (inr ErrCanonSize, s) => (inr ErrCanonInt, s)
      | (inr err, s) => (inr err, s)
      | (inl v, s) => if (n >? 0) && (v <? 128) then (inr ErrCanonSize, s) else (inl v, s)
      end
  | List => fail ErrExpectedString
  end.

Definition stream_Bool : RM bool :=
  num ← stream_uint 8;
  if num =? 0 then mret false else if num =? 1 then mret true else fail (decodeError "invalid boolean value").

Definition stream_List : RM Z :=
  '(k, n) ← Kind_of;
  match k with
  | List => mod_s (λ s, s <| stack ::= cons (mkListpos 0 n) |> <| kind := None |> <| s_size := 0 |>);; mret n
  | _ => fail ErrExpectedList
  end.

Definition ListEnd : RM unit :=
  s ← get_s;
  match stack s with
  | [] => fail errNotInList
  | tos :: rest =>
    if negb (lp_pos tos =? lp_size tos) then fail errNotAtEOL
    else
      mod_s (λ s, s <| stack := match rest with
                                | [] => []
                                | up :: rest => up <| lp_pos ::= λ p, u64 (p + lp_size tos) |> :: rest
                                end |>
                    <| kind := None |> <| s_size := 0 |>)
  end.

(** ** Decoders *)

(** The messages of [wrapStreamError]; the type and the path in the message are left
    out. *)
Definition wrapStreamError (err : rlperr) : rlperr :=
  match err with
  | ErrCanonInt => decodeError "non-canonical integer (leading zero bytes)"
  | ErrCanonSize => decodeError "non-canonical size information"
  | ErrExpectedList => decodeError "expected input list"
  | ErrExpectedString => decodeError "expected input string or byte"
  | errUintOverflow => decodeError "input string too long"
  | errNotAtEOL => decodeError "input list has too many elements"
  | err => err
  end.
Definition wrapped {A} (m : RM A) : RM A := λ s,
  match m s with (inr err, s) => (inr (wrapStreamError err), s) | ok => ok end.

Definition decodeBigInt : RM gval :=
  b ← wrapped Bytes;
  match b with
  | x :: _ => if byte_val x =? 0 then fail (wrapStreamError ErrCanonInt) else mret (VBig (Some (be_val b)))
  | [] => mret (VBig (Some 0))
  end.

Definition decodeByteArray (vlen : nat) : RM gval :=
  '(k, n) ← Kind_of;
  match k with
  | Byte =>
    if (vlen =? 0)%nat then fail (decodeError "input string too long")
    else if (1 <? vlen)%nat then fail (decodeError "input string too short")
    else λ s,
      let '(bv, s) := stream_uint 64 s in
      (inl (VBytes [byte_of (match bv with inl v => v | inr _ => 0 end)]), s)
  | String =>
    if Z.of_nat vlen <? n then fail (decodeError "input string too long")
    else if Z.of_nat vlen >? n then fail (decodeError "input string too short")
    else
      b ← readFull (Z.of_nat vlen);
      if (n =? 1) && match b with x :: _ => byte_val x <? 128 | [] => false end
      then fail (wrapStreamError ErrCanonSize) else mret (VBytes b)
  | List => fail (wrapStreamError ErrExpectedString)
  end.

(** The elements of a slice, until the list ends. *)
Fixpoint decodeSliceElems (elem : RM gval) (fuel : nat) (acc : list gval) : RM (list gval) := λ s,
  match fuel with
  | O => (inr no_fuel, s)
  | S fuel =>
    match elem s with
    | (inl v, s) => decodeSliceElems elem fuel (acc ++ [v]) s
    | (inr EOL, s) => (inl acc, s)
    | (inr err, s) => (inr err, s)
    end
  end.

(** As many turns as there are bytes, and one more for the end of the list. *)
Definition slice_elems (elem : RM gval) : RM (list gval) := λ s,
  decodeSliceElems elem (S (length (r s))) [] s.

Definition decodeListSlice (elem : RM gval) : RM gval :=
  n ← wrapped stream_List;
  if n =? 0 then ListEnd;; mret (VList [])
  else vs ← slice_elems elem; ListEnd;; mret (VList vs).

(** The elements of an array; fewer are an error. *)
Fixpoint decode_array_elems (elem : RM gval) (n : nat) : RM (list gval) := λ s,
  match n with
  | O => (inl [], s)
  | S n =>
    match elem s with
    | (inl v, s) =>
      match decode_array_elems elem n s with
      | (inl vs, s) => (inl (v :: vs), s)
      | bad => bad
      end
    | (inr EOL, s) => (inr (decodeError "input list has too few elements"), s)
    | (inr err, s) => (inr err, s)
    end
  end.
Definition decodeListArray (n : nat) (elem : RM gval) : RM gval :=
  wrapped stream_List;;
  vs ← decode_array_elems elem n;
  wrapped ListEnd;;
  mret (VList vs).

Definition decode_fields (dec : tags → gtype → RM gval) : list (tags * gtype) → RM (list gval) :=
  fix go fields s :=
    match fields with
    | [] => (inl [], s)
    | (ts, t) :: fields =>
      match dec ts t s with
      | (inl v, s) =>
        match go fields s with
        | (inl vs, s) => (inl (v :: vs), s)
        | bad => bad
        end
      | (inr EOL, s) => (inr (decodeError "too few elements"), s)
      | (inr err, s) => (inr err, s)
      end
    end.

(** Lists become slices of interfaces, anything else byte slices.  Nesting is bounded
    by the bytes of the input and of a header read before, which has at most nine. *)
Fixpoint decodeInterface (fuel : nat) : RM gval := λ s,
  match fuel with
  | O => (inr no_fuel, s)
  | S fuel =>
    ('(k, _) ← Kind_of;
     match k with
     | List => v ← decodeListSlice (decodeInterface fuel); mret (VIface (Some (TSlice TInterface, v)))
     | _ => b ← Bytes; mret (VIface (Some (TBytes, VBytes b)))
     end) s
  end.

(** A pointer with the tag [nil]: an empty value is nil. *)
Definition optional_ptr (dec : RM gval) : RM gval := λ s,
  match Kind_of s with
  | (inr err, s) => (inr err, s <| kind := None |>)
  | (inl (k, n), s) =>
    if (n =? 0) && negb (bool_decide (k = Byte)) then (inl (VPtr None), s <| kind := None |>)
    else (v ← dec; mret (VPtr (Some v))) s
  end.

(** The decoder [makeDecoder] makes for a type, into a fresh value. *)
Fixpoint decode (ts : tags) (t : gtype) {struct t} : RM gval :=
  match t with
  | TRaw => b ← Raw; mret (VRaw b)
  | TBig => decodeBigInt
  | TUint bits => i ← wrapped (stream_uint bits); mret (VUint i)
  | TBool => b ← wrapped stream_Bool; mret (VBool b)
  | TString | TBytes => b ← wrapped Bytes; mret (VBytes b)
  | TByteArray n => decodeByteArray n
  | TSlice e =>
    if tail ts then vs ← slice_elems (decode no_tags e); mret (VList vs)
    else decodeListSlice (decode no_tags e)
  | TArray n e => decodeListArray n (decode no_tags e)
  | TStruct fields =>
    wrapped stream_List;;
    vs ← decode_fields decode fields;
    wrapped ListEnd;;
    mret (VList vs)
  | TPtr e =>
    if nilOK ts then optional_ptr (decode no_tags e)
    else v ← decode no_tags e; mret (VPtr (Some v))
  | TInterface => λ s, decodeInterface (9 + S (length (r s))) s
  end.

Definition DecodeBytes (t : gtype) (b : bytes) : gval + rlperr :=
  match decode no_tags t (NewStream b (blen b)) with
  | (inr err, _) => inr err
  | (inl v, s) => if blen (r s) >? 0 then inr ErrMoreThanOneValue else inl v
  end.

(** ** Encoded bytes without a stream ([raw.go]) *)

Definition readSize (b : bytes) (slen : Z) : Z + rlperr :=
  if slen >? blen b then inr ErrUnexpectedEOF
  else
    let s := be_val (take (Z.to_nat slen) b) in
    if (s <? 56) || match b with x :: _ => byte_val x =? 0 | [] => false end then inr ErrCanonSize else inl s.

Definition readKind (buf : bytes) : Kind * Z * Z + rlperr :=
  match buf with
  | [] => inr ErrUnexpectedEOF
  | x :: rest =>
    let b := byte_val x in
    let res :=
      if b <? 0x80 then inl (Byte, 0, 1)
      else if b <? 0xB8 then
        let contentsize := b - 0x80 in
        if (contentsize =? 1) && match rest with y :: _ => byte_val y <? 128 | [] => false end
        then inr ErrCanonSize else inl (String, 1, contentsize)
      else if b <? 0xC0 then
        match readSize rest (b - 0xB7) with inl n => inl (String, b - 0xB7 + 1, n) | inr err => inr err end
      else if b <? 0xF8 then inl (List, 1, b - 0xC0)
      else
        match readSize rest (b - 0xF7) with inl n => inl (List, b - 0xF7 + 1, n) | inr err => inr err end in
    match res with
    | inr err => inr err
    | inl (k, tagsize, contentsize) =>
      if contentsize >? u64 (blen buf - tagsize) then inr ErrValueTooLarge else inl (k, tagsize, contentsize)
    end
  end.

Definition Split (b : bytes) : outcome (Kind * bytes * bytes + rlperr) :=
  match readKind b with
  | inr err => Ret (inr err)
  | inl (k, ts, cs) =>
    content ← slice_bytes b ts (u64 (ts + cs));
    rest ← slice_bytes b (u64 (ts + cs)) (blen b);
    Ret (inl (k, content, rest))
  end.
Definition SplitString (b : bytes) : outcome (bytes * bytes + rlperr) :=
  res ← Split b;
  Ret match res with
      | inr err => inr err
      | inl (List, _, _) => inr ErrExpectedString
      | inl (_, content, rest) => inl (content, rest)
      end.
Definition SplitList (b : bytes) : outcome (bytes * bytes + rlperr) :=
  res ← Split b;
  Ret match res with
      | inr err => inr err
      | inl (List, content, rest) => inl (content, rest)
      | inl _ => inr ErrExpectedList
      end.

(** Every value takes at least a byte, so there are at most [length b] turns. *)
Fixpoint CountValues_loop (fuel : nat) (b : bytes) (i : Z) : outcome (Z + rlperr) :=
  match b, fuel with
  | [], _ => Ret (inl i)
  | _, O => Ret (inr no_fuel)
  | _, S fuel =>
    match readKind b with
    | inr err => Ret (inr err)
    | inl (_, tagsize, n) =>
      rest ← slice_bytes b (u64 (tagsize + n)) (blen b);
      CountValues_loop fuel rest (i + 1)
    end
  end.
Definition CountValues (b : bytes) : outcome (Z + rlperr) := CountValues_loop (length b) b 0.
