(* ===== verification/RlpRead.v ===== *)
(** * Positions of a stream

    A stream over [rr] inside the lists [st]; what reading a header does, in both
    directions: the header of an encoding is read as what it says, and a header that
    is accepted is the one the encoder writes. *)

From S2P Require Import Prelude Interfaces StateTypes Hex VmData Rlp RlpLayout RlpStream.

(** ** Big-endian numbers *)

Lemma be_val_app a b : be_val (a ++ b) = be_val a * 256 ^ blen b + be_val b.
Proof.
  induction b as [|x b IH] using rev_ind; [rewrite app_nil_r; change (blen []) with 0; change (be_val []) with 0; lia|].
  rewrite app_assoc, !be_val_snoc, IH, blen_app. change (blen [x]) with 1. rewrite Z.pow_add_r by (pose proof (blen_nonneg b); lia). lia.
Qed.

Lemma be_val_bound b : 0 ≤ be_val b < 256 ^ blen b.
Proof.
  induction b as [|x b IH] using rev_ind; [done|]. rewrite be_val_snoc, blen_app. change (blen [x]) with 1.
  rewrite Z.pow_add_r by (pose proof (blen_nonneg b); lia). pose proof (byte_val_range x). lia.
Qed.

Lemma be_bytes_be_val b : be_bytes (length b) (be_val b) = b.
Proof.
  induction b as [|x b IH] using rev_ind; [done|]. rewrite length_app, Nat.add_comm. cbn [length Nat.add be_bytes].
  pose proof (byte_val_range x). rewrite be_val_snoc. f_equal.
  - rewrite Z.div_add_l, Z.div_small, Z.add_0_r by lia. done.
  - f_equal. rewrite <- (byte_of_val x) at 2. unfold byte_of. by rewrite Z.add_comm, Z.mod_add.
Qed.

Lemma has_bytes_be_val x b : byte_val x ≠ 0 → has_bytes (length (x :: b)) (be_val (x :: b)).
Proof.
  intros Hx. split; [|apply be_val_bound]. change (x :: b) with ([x] ++ b). rewrite be_val_app.
  pose proof (be_val_bound b). pose proof (byte_val_range x).
  replace (Z.of_nat (length ([x] ++ b)) - 1) with (blen b) by (unfold blen; simpl; lia).
  assert (0 < 256 ^ blen b) by (apply Z.pow_pos_nonneg; [lia|apply blen_nonneg]).
  change (be_val [x]) with (byte_val x). nia.
Qed.

(** Bytes without a leading zero are those of the number. *)
Lemma putint_be_val x b : (length b < 8)%nat → byte_val x ≠ 0 → putint (be_val (x :: b)) = x :: b.
Proof.
  intros Hl Hx. rewrite (putint_bytes (length (x :: b))); [apply be_bytes_be_val|simpl; lia|by apply has_bytes_be_val].
Qed.
Lemma big_Bytes_be_val x b : byte_val x ≠ 0 → big_Bytes (be_val (x :: b)) = x :: b.
Proof.
  intros Hx. rewrite (big_Bytes_bytes (length (x :: b))); [apply be_bytes_be_val|simpl; lia|by apply has_bytes_be_val].
Qed.

(** The first byte of a number is not zero. *)
Lemma be_bytes_head k i : (1 ≤ k)%nat → has_bytes k i → ∃ x b, be_bytes k i = x :: b ∧ byte_val x ≠ 0.
Proof.
  intros Hk [H1 H2]. pose proof (be_val_be_bytes k i) as E. assert (0 < 256 ^ (Z.of_nat k - 1)) by (apply Z.pow_pos_nonneg; lia).
  rewrite Z.mod_small in E by lia. pose proof (length_be_bytes k i) as Hl.
  destruct (be_bytes k i) as [|x b]; [simpl in Hl; lia|]. exists x, b. split; [done|]. intros Hx.
  change (x :: b) with ([x] ++ b) in E. rewrite be_val_app in E. change (be_val [x]) with (byte_val x) in E. rewrite Hx in E.
  pose proof (be_val_bound b) as [_ Hb]. simpl in Hl. replace (blen b) with (Z.of_nat k - 1) in * by (unfold blen; lia). lia.
Qed.

(** ** Positions *)

Definition consume (n : Z) (st : list listpos) : list listpos :=
  match st with
  | [] => []
  | tos :: rest => tos <| lp_pos ::= Z.add n |> :: rest
  end.
(** [n] bytes fit in the innermost list. *)
Definition fits (n : Z) (st : list listpos) : Prop :=
  match st with
  | [] => True
  | tos :: _ => 0 ≤ lp_pos tos ∧ lp_pos tos + n ≤ lp_size tos < 2 ^ 64
  end.

Record at_input (s : Stream) (rr : bytes) (st : list listpos) : Prop := mkAt {
  at_r : r s = rr;
  at_limited : limited s = true;
  at_remaining : remaining s = blen rr;
  at_stack : stack s = st
}.
Record ready (s : Stream) (rr : bytes) (st : list listpos) : Prop := mkReady {
  rd_at : at_input s rr st;
  rd_kind : kind s = None
}.
Record opened (s : Stream) (k : Kind) (n bv : Z) (rr : bytes) (st : list listpos) : Prop := mkOpened {
  op_at : at_input s rr st;
  op_kind : kind s = Some k;
  op_size : s_size s = n;
  op_byteval : k = Byte → byteval s = bv;
  op_err : kinderr s = None
}.

Lemma consume_consume n m st : consume m (consume n st) = consume (n + m) st.
Proof. destruct st as [|[p z] st]; [done|]. unfold consume. simpl. do 2 f_equal. lia. Qed.
Lemma consume_0 st : consume 0 st = st.
Proof. by destruct st as [|[p z] st]. Qed.

Lemma fits_le n m st : m ≤ n → fits n st → fits m st.
Proof. destruct st; [done|]. simpl. lia. Qed.
Lemma fits_consume n m st : 0 ≤ n → fits (n + m) st → fits m (consume n st).
Proof. destruct st as [|[p z] st]; [done|]. simpl. lia. Qed.

Lemma gtb_le n m : n ≤ m → (n >? m) = false.
Proof. intros. rewrite Z.gtb_ltb. by apply Z.ltb_ge. Qed.

Lemma willRead_run n s rr st :
  at_input s rr st → fits n st → 0 ≤ n ≤ blen rr →
  ∃ s', willRead n s = (inl tt, s') ∧ r s' = rr ∧ limited s' = true ∧ remaining s' = blen rr - n ∧
    stack s' = consume n st ∧ kind s' = None ∧ byteval s' = byteval s.
Proof.
  intros [Hr Hl Hm Hs] Hf Hn. destruct s as [rr' m l k z bv e st']. simpl in *. subst.
  unfold willRead, rearm, mod_s, get_s, mbind, RM_bind, mret, RM_ret. simpl.
  destruct st as [|[p q] st]; simpl in *.
  - rewrite gtb_le by lia. eexists. split; [reflexivity|]. done.
  - rewrite (u64_small (q - p)) by (unfold is_u64; lia). rewrite gtb_le by lia. simpl. rewrite gtb_le by lia.
    eexists. split; [reflexivity|]. simpl. rewrite (u64_small (p + n)) by (unfold is_u64; lia). by rewrite Z.add_comm.
Qed.

Lemma willRead_inv n s rr st s' :
  at_input s rr st → fits 0 st → willRead n s = (inl tt, s') → fits n st ∧ n ≤ blen rr.
Proof.
  intros [Hr Hl Hm Hs] Hf. destruct s as [rr' m l k z bv e st']. simpl in *. subst.
  unfold willRead, rearm, mod_s, get_s, fail, mbind, RM_bind, mret, RM_ret. simpl.
  destruct st as [|[p q] st]; simpl in *.
  - destruct (Z.gtb_spec n (blen rr)); [done|]. intros _. split; [done|lia].
  - rewrite (u64_small (q - p)) by (unfold is_u64; lia). destruct (Z.gtb_spec n (q - p)); [done|]. simpl.
    destruct (Z.gtb_spec n (blen rr)); [done|]. intros _. lia.
Qed.

Lemma readByte_run s x rr st :
  at_input s (x :: rr) st → fits 1 st →
  ∃ s', readByte s = (inl (byte_val x), s') ∧ ready s' rr (consume 1 st).
Proof.
  intros Ha Hf. destruct (willRead_run 1 s (x :: rr) st Ha Hf) as (s' & E & H1 & H2 & H3 & H4 & H5 & _).
  { rewrite blen_cons. pose proof (blen_nonneg rr). lia. }
  unfold readByte. unfold mbind, RM_bind. rewrite E. unfold get_s. rewrite H1. eexists. split; [reflexivity|].
  rewrite blen_cons in H3. repeat constructor; simpl; (done || lia).
Qed.

Lemma readByte_inv s rr st v s' :
  at_input s rr st → fits 0 st → readByte s = (inl v, s') →
  ∃ x rr', rr = x :: rr' ∧ v = byte_val x ∧ fits 1 st ∧ ready s' rr' (consume 1 st).
Proof.
  intros Ha Hf E. assert (fits 1 st ∧ 1 ≤ blen rr) as [Hf1 Hn].
  { unfold readByte, mbind, RM_bind in E. destruct (willRead 1 s) as [[[]|err] s1] eqn:Ew; [|done]. by eapply willRead_inv. }
  destruct rr as [|x rr]; [done|]. destruct (readByte_run s x rr st Ha Hf1) as (s2 & E2 & H2).
  rewrite E2 in E. injection E as <- <-. eauto 10.
Qed.

Lemma readFull_run s b rr st :
  at_input s (b ++ rr) st → fits (blen b) st →
  ∃ s', readFull (blen b) s = (inl b, s') ∧ ready s' rr (consume (blen b) st).
Proof.
  intros Ha Hf. pose proof (blen_nonneg b). pose proof (blen_nonneg rr).
  destruct (willRead_run (blen b) s (b ++ rr) st Ha Hf) as (s' & E & H1 & H2 & H3 & H4 & H5 & _); [rewrite blen_app; lia|].
  unfold readFull, mbind, RM_bind. rewrite E. unfold get_s, mod_s. rewrite H1.
  rewrite (proj2 (Z.leb_le _ _)) by (rewrite blen_app; lia).
  replace (Z.to_nat (blen b)) with (length b) by (unfold blen; lia). rewrite take_app_length.
  eexists. split; [reflexivity|]. rewrite blen_app in H3.
  repeat constructor; simpl; rewrite ?H1, ?drop_app_length; (done || lia).
Qed.

Lemma readFull_inv n s rr st b s' :
  at_input s rr st → fits 0 st → 0 ≤ n → readFull n s = (inl b, s') →
  ∃ rr', rr = b ++ rr' ∧ n = blen b ∧ fits n st ∧ ready s' rr' (consume n st).
Proof.
  intros Ha Hf H0 E. assert (fits n st ∧ n ≤ blen rr) as [Hfn Hn].
  { unfold readFull, mbind, RM_bind in E. destruct (willRead n s) as [[[]|err] s1] eqn:Ew; [|done]. by eapply willRead_inv. }
  assert (Hb : n = blen (take (Z.to_nat n) rr)) by (unfold blen in *; rewrite length_take; lia).
  destruct (readFull_run s (take (Z.to_nat n) rr) (drop (Z.to_nat n) rr) st) as (s2 & E2 & H2);
    [by rewrite take_drop|by rewrite <- Hb|].
  rewrite <- Hb in E2, H2. rewrite E2 in E. injection E as <- <-. exists (drop (Z.to_nat n) rr). by rewrite take_drop.
Qed.

(** ** Numbers of a known length *)

Lemma readUint_run s x b rr st :
  at_input s ((x :: b) ++ rr) st → fits (blen (x :: b)) st → byte_val x ≠ 0 →
  ∃ s', readUint (blen (x :: b)) s = (inl (be_val (x :: b)), s') ∧ ready s' rr (consume (blen (x :: b)) st).
Proof.
  intros Ha Hf Hx. unfold readUint. rewrite (proj2 (Z.eqb_neq _ 0)) by (rewrite blen_cons; pose proof (blen_nonneg b); lia).
  destruct (Z.eqb_spec (blen (x :: b)) 1) as [E|E].
  - destruct b; [|rewrite !blen_cons in E; pose proof (blen_nonneg b0); lia]. by apply readByte_run.
  - destruct (readFull_run s (x :: b) rr st Ha Hf) as (s' & E' & H). unfold mbind, RM_bind. rewrite E'.
    rewrite (proj2 (Z.eqb_neq _ 0)) by done. by eexists.
Qed.

Lemma readUint_inv n s rr st v s' :
  at_input s rr st → fits 0 st → 1 ≤ n → readUint n s = (inl v, s') →
  ∃ x b rr', rr = (x :: b) ++ rr' ∧ n = blen (x :: b) ∧ v = be_val (x :: b) ∧ (n = 1 ∨ byte_val x ≠ 0) ∧ fits n st ∧
    ready s' rr' (consume n st).
Proof.
  intros Ha Hf Hn E. unfold readUint in E. rewrite (proj2 (Z.eqb_neq _ 0)) in E by lia.
  destruct (Z.eqb_spec n 1) as [->|E1].
  - destruct (readByte_inv _ _ _ _ _ Ha Hf E) as (x & rr' & -> & -> & Hf1 & H). exists x, [], rr'. split_and!; auto.
  - unfold mbind, RM_bind in E. destruct (readFull n s) as [[b|err] s1] eqn:Ef; [|done].
    destruct (readFull_inv n s rr st b s1) as (rr' & -> & -> & Hfn & H); [done..|lia|done|].
    destruct b as [|x b]; [done|]. destruct (Z.eqb_spec (byte_val x) 0); [done|]. injection E as <- <-. exists x, b, rr'. split_and!; auto.
Qed.

(** ** Headers *)

Definition header (k : Kind) (n : Z) : bytes :=
  match k with
  | Byte => []
  | String => puthead 0x80 0xB7 n
  | List => puthead 0xC0 0xF7 n
  end.
Definition small_tag (k : Kind) : Z := match k with List => 0xC0 | _ => 0x80 end.
Definition large_tag (k : Kind) : Z := match k with List => 0xF7 | _ => 0xB7 end.

Lemma header_small k n : k ≠ Byte → 0 ≤ n < 56 → header k n = [byte_of (small_tag k + n)].
Proof. intros Hk Hn. destruct k; [done|..]; unfold header, puthead; by rewrite (proj2 (Z.ltb_lt _ _)) by lia. Qed.
Lemma header_large k n m : k ≠ Byte → 56 ≤ n → has_bytes m n → (1 ≤ m ≤ 8)%nat →
  header k n = byte_of (large_tag k + Z.of_nat m) :: be_bytes m n.
Proof.
  intros Hk Hn Hm Hl. destruct k; [done|..]; unfold header, puthead; rewrite (proj2 (Z.ltb_ge _ _)) by lia;
    by rewrite (putint_bytes m), blen_be_bytes by done.
Qed.

Lemma blen_header k n : k ≠ Byte → 0 ≤ n < 2 ^ 64 → blen (header k n) = headsize n.
Proof. intros Hk Hn. destruct k; [done|..]; by apply blen_puthead. Qed.

(** What [stream_readKind] returns for the first byte of a value. *)
Lemma readKind_small s x rr st k n :
  at_input s (x :: rr) st → fits 1 st → k ≠ Byte → 0 ≤ n < 56 → byte_val x = small_tag k + n →
  ∃ s', stream_readKind s = ((k, n, None), s') ∧ ready s' rr (consume 1 st).
Proof.
  intros Ha Hf Hk Hn Hx. destruct (readByte_run s x rr st Ha Hf) as (s1 & E & [[] ?]).
  unfold stream_readKind. rewrite E, Hx.
  destruct k; [done|..]; simpl small_tag;
    repeat first [rewrite (proj2 (Z.ltb_ge _ _)) by lia | rewrite (proj2 (Z.ltb_lt _ _)) by lia];
    (eexists; split; [do 3 f_equal; lia|by repeat constructor]).
Qed.

Lemma readKind_large s x y b rr st k :
  at_input s (x :: (y :: b) ++ rr) st → fits (1 + blen (y :: b)) st → k ≠ Byte → blen (y :: b) ≤ 8 →
  byte_val x = large_tag k + blen (y :: b) → byte_val y ≠ 0 → 56 ≤ be_val (y :: b) →
  ∃ s', stream_readKind s = ((k, be_val (y :: b), None), s') ∧ ready s' rr (consume (1 + blen (y :: b)) st).
Proof.
  intros Ha Hf Hk Hb Hx Hy Hv. destruct (readByte_run s x ((y :: b) ++ rr) st Ha) as (s1 & E & [[] ?]);
    [eapply fits_le; [|exact Hf]; pose proof (blen_nonneg (y :: b)); lia|].
  unfold stream_readKind. rewrite E, Hx. assert (1 ≤ blen (y :: b)) by (rewrite blen_cons; pose proof (blen_nonneg b); lia).
  destruct (readUint_run (s1 <| byteval := 0 |>) y b rr (consume 1 st)) as (s2 & E2 & H2); [by constructor|by apply fits_consume|done|].
  rewrite consume_consume in H2. assert (Hs : sized k (blen (y :: b)) (s1 <| byteval := 0 |>) = ((k, be_val (y :: b), None), s2)).
  { unfold sized. rewrite E2. by rewrite (proj2 (Z.ltb_ge _ _)) by lia. }
  exists s2. split; [|done]. destruct k; [done|..]; unfold large_tag; rewrite !(proj2 (Z.ltb_ge _ _)) by lia;
    rewrite ?(proj2 (Z.ltb_lt _ _)) by lia; rewrite <- Hs; do 2 f_equal; lia.
Qed.

(** ** The kind of the value ahead *)

Lemma Kind_opened s k n bv rr st : opened s k n bv rr st → Kind_of s = (inl (k, n), s).
Proof. intros [_ Hk Hn _ He]. unfold Kind_of. by rewrite Hk, He, Hn. Qed.

Lemma Kind_eol s rr tos st : ready s rr (tos :: st) → lp_pos tos = lp_size tos →
  ∃ s', Kind_of s = (inr EOL, s') ∧ ready s' rr (tos :: st).
Proof.
  intros [[] Hk] He. unfold Kind_of. rewrite Hk, at_stack0. cbn [head]. rewrite He, Z.eqb_refl.
  eexists. split; [done|]. by repeat constructor.
Qed.

(** Opening a value once [stream_readKind] knows what it is. *)
Lemma Kind_read s rr st k n bv rr' m s' :
  ready s rr st → 0 < m → 0 ≤ n → fits (m + n) st → n ≤ blen rr' →
  stream_readKind (s <| kinderr := None |>) = ((k, n, None), s') → ready s' rr' (consume m st) → (k = Byte → byteval s' = bv) →
  ∃ s'', Kind_of s = (inl (k, n), s'') ∧ opened s'' k n bv rr' (consume m st).
Proof.
  intros [[] Hk] Hm H0 Hf Hn E [[Hr' Hl' Hm' Hs'] _] Hb. unfold Kind_of. rewrite Hk, at_stack0.
  assert ((match head st with Some tos => lp_pos tos =? lp_size tos | None => false end) = false) as ->.
  { destruct st as [|tos st]; [done|]. simpl in *. apply Z.eqb_neq. lia. }
  rewrite E, Hs'. assert ((match head (consume m st) with
    | None => if limited s' && (n >? remaining s') then Some ErrValueTooLarge else None
    | Some tos => if n >? u64 (lp_size tos - lp_pos tos) then Some ErrElemTooLarge else None end) = None) as ->.
  { destruct st as [|[p q] st]; simpl in *; [by rewrite Hm', gtb_le, andb_false_r by lia|].
    rewrite u64_small by (unfold is_u64; lia). by rewrite gtb_le by lia. }
  eexists. split; [reflexivity|]. by repeat constructor.
Qed.

Lemma Kind_byte s x rr st : ready s (x :: rr) st → byte_val x < 0x80 → fits 1 st →
  ∃ s', Kind_of s = (inl (Byte, 0), s') ∧ opened s' Byte 0 (byte_val x) rr (consume 1 st).
Proof.
  intros Hr Hx Hf. destruct (readByte_run (s <| kinderr := None |>) x rr st) as (s1 & E & [[] ?]);
    [destruct Hr as [[] _]; by constructor|done|].
  eapply (Kind_read s (x :: rr) st Byte 0 (byte_val x) rr 1); [done|lia|lia|done|apply blen_nonneg| | |].
  - unfold stream_readKind. rewrite E. by rewrite (proj2 (Z.ltb_lt _ _)).
  - by repeat constructor.
  - done.
Qed.

Lemma tag_range k n : k ≠ Byte → 0 ≤ n < 56 → (small_tag k + n) mod 256 = small_tag k + n.
Proof. intros Hk Hn. apply Z.mod_small. destruct k; simpl; [done|lia..]. Qed.
Lemma large_tag_range k n : k ≠ Byte → 1 ≤ n ≤ 8 → (large_tag k + n) mod 256 = large_tag k + n.
Proof. intros Hk Hn. apply Z.mod_small. destruct k; simpl; [done|lia..]. Qed.

Lemma headsize_le n : 0 ≤ n < 2 ^ 64 → headsize n ≤ 9.
Proof.
  intros Hn. unfold headsize. destruct (Z.ltb_spec n 56); [lia|].
  destruct (has_bytes_ex n) as (m & Hm & Hb); [lia|]. rewrite (intsize_bytes m) by done. lia.
Qed.
Lemma headsize_pos n : 0 ≤ n < 2 ^ 64 → 1 ≤ headsize n.
Proof.
  intros Hn. unfold headsize. destruct (Z.ltb_spec n 56); [done|].
  destruct (has_bytes_ex n) as (m & Hm & Hb); [lia|]. rewrite (intsize_bytes m) by done. lia.
Qed.

Lemma Kind_head s k n rr st :
  ready s (header k n ++ rr) st → k ≠ Byte → 0 ≤ n < 2 ^ 64 → n ≤ blen rr → fits (headsize n + n) st →
  ∃ s', Kind_of s = (inl (k, n), s') ∧ opened s' k n 0 rr (consume (headsize n) st).
Proof.
  intros Hr Hk Hn Hl Hf. pose proof (headsize_pos n Hn) as Hp.
  assert (Ha : at_input (s <| kinderr := None |>) (header k n ++ rr) st) by (destruct Hr as [[] _]; by constructor).
  assert (∃ s1, stream_readKind (s <| kinderr := None |>) = ((k, n, None), s1) ∧ ready s1 rr (consume (headsize n) st)) as (s1 & E & H1).
  { unfold headsize in *. destruct (Z.ltb_spec n 56) as [Hs|Hs].
    - rewrite header_small in Ha by (done || lia). eapply readKind_small; [exact Ha| |done|lia|].
      + eapply fits_le; [|exact Hf]. lia.
      + by rewrite byte_val_of, tag_range by (done || lia).
    - destruct (has_bytes_ex n) as (m & Hm & Hb); [lia|]. rewrite (intsize_bytes m) in * by done.
      rewrite (header_large k n m) in Ha by (done || lia). destruct (be_bytes_head m n) as (y & b & Eb & Hy); [lia|done|].
      pose proof (blen_be_bytes m n) as Hbl. assert (be_val (be_bytes m n) = n) as Ev.
      { rewrite be_val_be_bytes. destruct Hb. apply Z.mod_small. lia. }
      rewrite Eb in *. rewrite <- Hbl. rewrite <- Ev. eapply readKind_large; [exact Ha| |done|lia| |done|lia].
      + eapply fits_le; [|exact Hf]. lia.
      + by rewrite byte_val_of, large_tag_range, Hbl by (done || lia). }
  eapply Kind_read; [exact Hr|lia|lia|exact Hf|done|exact E|done|done].
Qed.

(** ** What an accepted header says *)

(** The header of the value read, and the stream behind it. *)
Definition opens (k : Kind) (n : Z) (rr : bytes) (st : list listpos) (s' : Stream) : Prop :=
  ∃ rr', rr = header k n ++ rr' ∧ 0 ≤ n < 2 ^ 64 ∧ fits (headsize n) st ∧ ready s' rr' (consume (headsize n) st).

Lemma small_opens k x rr st s' :
  ready s' rr (consume 1 st) → fits 1 st → k ≠ Byte → 0 ≤ byte_val x - small_tag k < 56 →
  opens k (byte_val x - small_tag k) (x :: rr) st s'.
Proof.
  intros Hr Hf Hk Hx. exists rr. rewrite header_small by done. unfold headsize. rewrite (proj2 (Z.ltb_lt _ _)) by lia.
  split_and!; [|lia|lia|done|done]. simpl. f_equal. rewrite <- (byte_of_val x) at 1. f_equal. lia.
Qed.

Lemma large_opens k x y b rr st s' :
  k ≠ Byte → byte_val x = large_tag k + blen (y :: b) → blen (y :: b) ≤ 8 → byte_val y ≠ 0 → 56 ≤ be_val (y :: b) →
  fits (1 + blen (y :: b)) st → ready s' rr (consume (1 + blen (y :: b)) st) →
  opens k (be_val (y :: b)) (x :: (y :: b) ++ rr) st s'.
Proof.
  intros Hk Hx Hl Hy Hge Hf Hr. pose proof (has_bytes_be_val y b Hy) as Hb.
  assert (Hm : (1 ≤ length (y :: b) ≤ 8)%nat) by (unfold blen in Hl; simpl in *; lia).
  pose proof (be_val_bound (y :: b)) as Hv. assert (256 ^ blen (y :: b) ≤ 256 ^ 8) by (apply Z.pow_le_mono_r; lia).
  exists rr. rewrite (header_large _ _ _ Hk Hge Hb Hm), be_bytes_be_val. unfold headsize.
  rewrite (proj2 (Z.ltb_ge _ _)), (intsize_bytes _ _ Hm Hb) by done.
  split_and!; [|lia|change (2 ^ 64) with (256 ^ 8); lia|done|done].
  simpl. f_equal. rewrite <- (byte_of_val x) at 1. f_equal. exact Hx.
Qed.

Lemma sized_inv k s x rr st n s' k' :
  ready s rr (consume 1 st) → fits 1 st → k ≠ Byte → 1 ≤ byte_val x - large_tag k ≤ 8 →
  sized k (byte_val x - large_tag k) s = ((k', n, None), s') → k' = k ∧ opens k n (x :: rr) st s'.
Proof.
  intros [Ha _] Hf Hk Hx Es. unfold sized in Es. destruct (readUint _ _) as [[v|err] s2] eqn:Eu; [|done].
  apply (readUint_inv _ s rr (consume 1 st) v s2 Ha) in Eu as (y & b & rr' & -> & Hn & -> & Hy & Hf2 & H2);
    [|apply fits_consume; [lia|eapply fits_le; [|exact Hf]; lia]|lia].
  destruct (Z.ltb_spec (be_val (y :: b)) 56) as [|Hge]; [done|]. injection Es as <- <- <-. split; [done|].
  rewrite consume_consume, Hn in H2. rewrite Hn in Hf2. apply large_opens; [done|lia|lia| |lia| |done].
  - destruct Hy as [Hy|Hy]; [|done]. rewrite Hn, blen_cons in Hy. destruct b; [|rewrite blen_cons in Hy; pose proof (blen_nonneg b0); lia].
    change (be_val [y]) with (byte_val y) in Hge. lia.
  - destruct st as [|[p q] st]; simpl in *; [done|]. lia.
Qed.

Lemma stream_readKind_inv s rr st k n s' :
  at_input s rr st → fits 0 st → stream_readKind s = ((k, n, None), s') →
  match k with
  | Byte => ∃ x rr', rr = x :: rr' ∧ byte_val x < 0x80 ∧ n = 0 ∧ fits 1 st ∧ ready s' rr' (consume 1 st) ∧ byteval s' = byte_val x
  | _ => opens k n rr st s'
  end.
Proof.
  intros Ha Hf E. unfold stream_readKind in E. destruct (readByte s) as [[v|err] s1] eqn:Eb; [|done].
  destruct (readByte_inv _ _ _ _ _ Ha Hf Eb) as (x & rr1 & -> & -> & Hf1 & [[] Hk]). pose proof (byte_val_range x) as Hx.
  assert (Hr : ready (s1 <| byteval := 0 |>) rr1 (consume 1 st)) by by repeat constructor.
  destruct (Z.ltb_spec (byte_val x) 128).
  { injection E as <- <- <-. exists x, rr1. split_and!; done. }
  destruct (Z.ltb_spec (byte_val x) 184).
  { injection E as <- <- <-. apply (small_opens String); [done|done|done|simpl; lia]. }
  destruct (Z.ltb_spec (byte_val x) 192).
  { destruct (sized_inv String _ x rr1 st n s' k Hr Hf1) as [-> ?]; [done|simpl; lia|exact E|done]. }
  destruct (Z.ltb_spec (byte_val x) 248).
  { injection E as <- <- <-. apply (small_opens List); [done|done|done|simpl; lia]. }
  destruct (sized_inv List _ x rr1 st n s' k Hr Hf1) as [-> ?]; [done|simpl; lia|exact E|done].
Qed.

Lemma Kind_inv s rr st k n s' :
  ready s rr st → fits 0 st → Kind_of s = (inl (k, n), s') →
  match k with
  | Byte => ∃ x rr', rr = x :: rr' ∧ byte_val x < 0x80 ∧ n = 0 ∧ fits 1 st ∧ opened s' Byte 0 (byte_val x) rr' (consume 1 st)
  | _ => ∃ rr', rr = header k n ++ rr' ∧ 0 ≤ n < 2 ^ 64 ∧ fits (headsize n + n) st ∧ opened s' k n 0 rr' (consume (headsize n) st)
  end.
Proof.
  intros [[] Hk] Hf E. unfold Kind_of in E. rewrite Hk, at_stack0 in E. destruct (match head st with Some _ => _ | None => _ end); [done|].
  destruct (stream_readKind _) as [[[k' n'] err] s1] eqn:Er. destruct err as [err|]; [done|].
  apply stream_readKind_inv with (rr := rr) (st := st) in Er; [|by constructor|done].
  assert (Hfin : ∀ m rr', fits m st → ready s1 rr' (consume m st) → 0 ≤ m → 0 ≤ n' →
    k' = k ∧ n' = n ∧ fits (m + n') st ∧ (∀ bv, (k' = Byte → byteval s1 = bv) → opened s' k' n' bv rr' (consume m st))).
  { intros m rr' Hm [[] _] H0 Hn'. rewrite at_stack1 in E. destruct st as [|[p q] st]; simpl in *.
    - rewrite at_limited1, at_remaining1 in E. simpl in E. destruct (Z.gtb_spec n' (blen rr')); [done|].
      injection E as <- <- <-. split_and!; [done..|]. intros bv Hb. by repeat constructor.
    - rewrite u64_small in E by (unfold is_u64; lia). destruct (Z.gtb_spec n' (q - (m + p))); [done|].
      injection E as <- <- <-. split_and!; [done|done|lia|lia|lia|]. intros bv Hb. by repeat constructor. }
  destruct k'.
  - destruct Er as (x & rr' & -> & Hx & -> & Hf1 & Hr & Hb). destruct (Hfin 1 rr') as (<- & <- & ? & Ho); [done..|].
    exists x, rr'. split_and!; auto.
  - destruct Er as (rr' & -> & Hn & Hfn & Hr). pose proof (headsize_pos n' Hn). destruct (Hfin (headsize n') rr') as (<- & <- & ? & Ho); [done|done|lia|lia|].
    exists rr'. split_and!; auto; try lia. by apply Ho.
  - destruct Er as (rr' & -> & Hn & Hfn & Hr). pose proof (headsize_pos n' Hn). destruct (Hfin (headsize n') rr') as (<- & <- & ? & Ho); [done|done|lia|lia|].
    exists rr'. split_and!; auto; try lia. by apply Ho.
Qed.
