(* ===== verification/RlpRoundtrip.v ===== *)
(** * Reading back what was written

    Decoding the encoding of a value gives the value. *)

From S2P Require Import Prelude Interfaces StateTypes Hex VmData Rlp RlpLayout RlpStream.
From S2P Require Import RlpRead.

(** ** In front of a value

    The stream is before the value, or its header has been read already. *)
Definition front (s : Stream) (rr : bytes) (st : list listpos) : Prop :=
  ∃ s0, ready s0 rr st ∧ (s = s0 ∨ ∃ kn, Kind_of s0 = (inl kn, s)).

Lemma ready_front s rr st : ready s rr st → front s rr st.
Proof. intros H. exists s. auto. Qed.

Lemma front_byte s x rr st : front s (x :: rr) st → byte_val x < 0x80 → fits 1 st →
  ∃ s', Kind_of s = (inl (Byte, 0), s') ∧ opened s' Byte 0 (byte_val x) rr (consume 1 st).
Proof.
  intros (s0 & Hr & Hs) Hx Hf. destruct (Kind_byte s0 x rr st Hr Hx Hf) as (s1 & E & Ho).
  destruct Hs as [->|[kn Hk]]; [by exists s1|]. rewrite E in Hk. injection Hk as _ <-. exists s1. split; [|done]. by eapply Kind_opened.
Qed.

Lemma front_head s k n rr st :
  front s (header k n ++ rr) st → k ≠ Byte → 0 ≤ n < 2 ^ 64 → n ≤ blen rr → fits (headsize n + n) st →
  ∃ s', Kind_of s = (inl (k, n), s') ∧ opened s' k n 0 rr (consume (headsize n) st).
Proof.
  intros (s0 & Hr & Hs) Hk Hn Hl Hf. destruct (Kind_head s0 k n rr st Hr Hk Hn Hl Hf) as (s1 & E & Ho).
  destruct Hs as [->|[kn Hk']]; [by exists s1|]. rewrite E in Hk'. injection Hk' as _ <-. exists s1. split; [|done]. by eapply Kind_opened.
Qed.

(** ** Strings *)

(** An encoded string is a byte or has a header. *)
Lemma rlp_string_cases b :
  (∃ x, b = [x] ∧ byte_val x < 0x80 ∧ rlp_string b = [x]) ∨
  (rlp_string b = header String (blen b) ++ b ∧ (blen b = 1 → ∀ x, head b = Some x → 128 ≤ byte_val x)).
Proof.
  unfold rlp_string. destruct b as [|x [|y b]]; [by right| |].
  - destruct (Z.leb_spec (byte_val x) 127); [left; exists x; split_and!; [done|lia|done]|right]. split; [done|]. intros _ z [= <-]. lia.
  - right. split; [done|]. rewrite !blen_cons. pose proof (blen_nonneg b). lia.
Qed.

Lemma Bytes_run s b rr st :
  front s (rlp_string b ++ rr) st → blen b < 2 ^ 64 → fits (blen (rlp_string b)) st →
  ∃ s', Bytes s = (inl b, s') ∧ ready s' rr (consume (blen (rlp_string b)) st).
Proof.
  intros Hs Hb Hf. pose proof (blen_nonneg b). unfold Bytes, mbind, RM_bind.
  destruct (rlp_string_cases b) as [(x & -> & Hx & E)|[E H1]]; rewrite E in *.
  - destruct (front_byte s x rr st) as (s1 & -> & [[] ? ? Hbv ?]); [done..|]. unfold get_s, rearm, mod_s, mret, RM_ret.
    rewrite Hbv, byte_of_val by done. eexists. split; [reflexivity|]. by repeat constructor.
  - rewrite blen_app, blen_header in * by done. rewrite <- app_assoc in Hs.
    destruct (front_head s String (blen b) (b ++ rr) st) as (s1 & -> & [Ha ? ? ? ?]); [done..|rewrite blen_app; pose proof (blen_nonneg rr); lia|done|].
    destruct (readFull_run s1 b rr (consume (headsize (blen b)) st) Ha) as (s2 & -> & H2).
    { apply fits_consume; [|done]. pose proof (headsize_pos (blen b)). lia. }
    exists s2. rewrite consume_consume in H2. split; [|done].
    destruct (Z.eqb_spec (blen b) 1) as [E1|]; [|done]. simpl. destruct b as [|x b]; [done|].
    rewrite (proj2 (Z.ltb_ge _ _)); [done|]. by apply (H1 E1).
Qed.

Lemma wrapped_ok {A} (m : RM A) s a s' : m s = (inl a, s') → wrapped m s = (inl a, s').
Proof. intros H. unfold wrapped. by rewrite H. Qed.

(** ** Numbers *)

Lemma big_Bytes_head i : 0 < i → ∃ x b, big_Bytes i = x :: b ∧ byte_val x ≠ 0 ∧ be_val (x :: b) = i.
Proof.
  intros Hi. pose proof (has_bytes_log i Hi) as Hk. set (k := S (Z.to_nat (Z.log2 i / 8))) in *.
  rewrite (big_Bytes_bytes k) by (done || (unfold k; lia)). destruct (be_bytes_head k i) as (x & b & E & Hx); [unfold k; lia|done|].
  exists x, b. split_and!; [done..|]. rewrite <- E, be_val_be_bytes. destruct Hk as [H1 H2].
  apply Z.mod_small. lia.
Qed.

Lemma be_val_big_Bytes i : 0 ≤ i → be_val (big_Bytes i) = i.
Proof.
  intros Hi. destruct (decide (i = 0)) as [->|Hne]; [by rewrite big_Bytes_0|]. destruct (big_Bytes_head i) as (x & b & -> & _ & ->); [lia|done].
Qed.

Lemma decodeBigInt_run s i rr st :
  front s (rlp_string (big_Bytes i) ++ rr) st → 0 ≤ i → blen (big_Bytes i) < 2 ^ 64 → fits (blen (rlp_string (big_Bytes i))) st →
  ∃ s', decodeBigInt s = (inl (VBig (Some i)), s') ∧ ready s' rr (consume (blen (rlp_string (big_Bytes i))) st).
Proof.
  intros Hs Hi Hb Hf. destruct (Bytes_run s (big_Bytes i) rr st Hs Hb Hf) as (s1 & E & H1).
  exists s1. split; [|done]. unfold decodeBigInt, mbind, RM_bind. rewrite (wrapped_ok _ _ _ _ E).
  destruct (decide (i = 0)) as [->|Hn]; [done|]. destruct (big_Bytes_head i) as (x & b & -> & Hx & <-); [lia|].
  by rewrite (proj2 (Z.eqb_neq _ _)).
Qed.

Lemma has_bytes_le k i m : has_bytes k i → i < 256 ^ m → 0 ≤ m → Z.of_nat k ≤ m.
Proof.
  intros [H1 _] H2 Hm. destruct (Z.le_gt_cases (Z.of_nat k) m) as [|Hgt]; [done|exfalso].
  assert (256 ^ m ≤ 256 ^ (Z.of_nat k - 1)) by (apply Z.pow_le_mono_r; lia). lia.
Qed.

Lemma uint_run bits s i rr st :
  In bits [8; 16; 32; 64] → front s (rlp_string (big_Bytes i) ++ rr) st → 0 ≤ i < 2 ^ bits → fits (blen (rlp_string (big_Bytes i))) st →
  ∃ s', stream_uint bits s = (inl i, s') ∧ ready s' rr (consume (blen (rlp_string (big_Bytes i))) st).
Proof.
  intros Hb Hs Hi Hf. unfold stream_uint, mbind, RM_bind. pose proof (uint_bits bits i Hb Hi) as Hu.
  destruct (decide (i = 0)) as [->|Hn].
  { destruct (front_head s String 0 rr st) as (s1 & -> & [[] ? ? ? ?]); [done..|apply blen_nonneg|done|].
    rewrite gtb_le by (destruct Hb as [<-|[<-|[<-|[<-|[]]]]]; done). eexists. split; [reflexivity|]. by repeat constructor. }
  destruct (has_bytes_ex i) as (k & Hk & Hk'); [unfold is_u64 in Hu; lia|].
  rewrite (big_Bytes_bytes k), (rlp_string_number k) in * by (done || lia).
  destruct (Z.ltb_spec i 128) as [Hlt|Hge].
  - destruct (front_byte s (byte_of i) rr st) as (s1 & -> & [[] ? ? Hbv ?]); [done|rewrite byte_val_of, Z.mod_small; lia|done|].
    unfold get_s, rearm, mod_s, mret, RM_ret. rewrite byte_val_of, Z.mod_small in Hbv by lia. rewrite Hbv by done.
    rewrite (proj2 (Z.eqb_neq _ _)) by done. eexists. split; [reflexivity|]. by repeat constructor.
  - assert (Hkb : Z.of_nat k ≤ bits / 8).
    { apply (has_bytes_le k i); [done| |]; destruct Hb as [<-|[<-|[<-|[<-|[]]]]]; (exact (proj2 Hi) || done). }
    rewrite blen_cons, blen_be_bytes in Hf. destruct (be_bytes_head k i) as (x & b & Eb & Hx); [lia|done|].
    assert (Ev : be_val (x :: b) = i) by (rewrite <- Eb, be_val_be_bytes; apply Z.mod_small; destruct Hk'; lia).
    pose proof (blen_be_bytes k i) as Hl. rewrite Eb in *.
    destruct (front_head s String (Z.of_nat k) ((x :: b) ++ rr) st) as (s1 & -> & [Ha ? ? ? ?]).
    { unfold header, puthead. rewrite (proj2 (Z.ltb_lt _ _)) by lia. exact Hs. }
    { done. } { lia. } { rewrite blen_app, Hl. pose proof (blen_nonneg rr). lia. }
    { unfold headsize. rewrite (proj2 (Z.ltb_lt _ _)) by lia. by rewrite Z.add_comm. }
    unfold headsize in Ha. rewrite (proj2 (Z.ltb_lt _ _)) in Ha by lia. rewrite gtb_le by done.
    destruct (readUint_run s1 x b rr (consume 1 st) Ha) as (s2 & E2 & H2); [rewrite Hl; apply fits_consume; [lia|by rewrite Z.add_comm]|done|].
    rewrite Hl, Ev in E2. rewrite E2. rewrite (proj2 (Z.ltb_ge _ 128)), andb_false_r by lia. exists s2. split; [done|].
    rewrite consume_consume in H2. by rewrite blen_cons, (Z.add_comm (blen _) 1).
Qed.

(** ** Lists *)

(** A list is entered with its content ahead, and left at its end. *)
Lemma List_run s c rr st :
  front s (rlp_list c ++ rr) st → blen c < 2 ^ 64 → fits (blen (rlp_list c)) st →
  ∃ s', stream_List s = (inl (blen c), s') ∧ ready s' (c ++ rr) (mkListpos 0 (blen c) :: consume (headsize (blen c)) st).
Proof.
  intros Hs Hc Hf. pose proof (blen_nonneg c). unfold rlp_list in *. rewrite <- app_assoc in Hs. rewrite blen_app, blen_puthead in Hf by lia.
  destruct (front_head s List (blen c) (c ++ rr) st) as (s1 & E & [[H1 H2 H3 H4] ? ? ? ?]); [done..|rewrite blen_app; pose proof (blen_nonneg rr); lia|done|].
  unfold stream_List, mbind, RM_bind. rewrite E. unfold mod_s. eexists. split; [reflexivity|].
  repeat constructor; simpl; try done. by rewrite H4.
Qed.

Lemma ListEnd_run s rr n m st :
  ready s rr (mkListpos n n :: consume m st) → 0 ≤ m → 0 ≤ n → fits (m + n) st →
  ∃ s', ListEnd s = (inl tt, s') ∧ ready s' rr (consume (m + n) st).
Proof.
  intros [[H1 H2 H3 H4] Hk] Hm Hn Hf. unfold ListEnd, mbind, RM_bind, get_s. rewrite H4. simpl. rewrite Z.eqb_refl. simpl.
  unfold mod_s. eexists. split; [reflexivity|]. repeat constructor; simpl; try done.
  destruct st as [|[p q] st]; [done|]. simpl in *. rewrite u64_small by (unfold is_u64; lia). do 2 f_equal. lia.
Qed.

(** What a decoder must do in front of the encoding [out] of [v]. *)
Definition reads_back (dec : RM gval) (out : bytes) (v : gval) : Prop := ∀ s rr st,
  front s (out ++ rr) st → fits (blen out) st →
  ∃ s', dec s = (inl v, s') ∧ ready s' rr (consume (blen out) st).

Lemma elems_run dec outs vs :
  Forall2 (λ out v, out ≠ [] ∧ reads_back dec out v) outs vs →
  (∀ s rr p st, ready s rr (mkListpos p p :: st) → ∃ s', dec s = (inr EOL, s') ∧ ready s' rr (mkListpos p p :: st)) →
  ∀ fuel acc s rr p n st, (length vs < fuel)%nat → ready s (mjoin outs ++ rr) (mkListpos p n :: st) →
  0 ≤ p → p + blen (mjoin outs) = n → n < 2 ^ 64 →
  ∃ s', decodeSliceElems dec fuel acc s = (inl (acc ++ vs), s') ∧ ready s' rr (mkListpos n n :: st).
Proof.
  intros Hall Heol. induction Hall as [|out v outs vs [Hne Hv] Hall IH]; intros fuel acc s rr p n st Hfuel Hr Hp Hn Hlt;
    (destruct fuel as [|fuel]; [simpl in Hfuel; lia|]); cbn [decodeSliceElems].
  - change (mjoin []) with ([] : bytes) in *. change (blen []) with 0 in Hn. assert (p = n) as -> by lia.
    destruct (Heol s rr n st Hr) as (s' & -> & H'). exists s'. by rewrite app_nil_r.
  - change (mjoin (out :: outs)) with (out ++ mjoin outs) in *. rewrite <- app_assoc in Hr. rewrite blen_app in Hn.
    pose proof (blen_nonneg out). pose proof (blen_nonneg (mjoin outs)).
    destruct (Hv s (mjoin outs ++ rr) (mkListpos p n :: st)) as (s1 & -> & H1); [by apply ready_front|simpl; lia|].
    unfold consume in H1. simpl in H1. destruct (IH fuel (acc ++ [v]) s1 rr (blen out + p) n st) as (s2 & E & H2); [simpl in Hfuel; lia|done|lia..|].
    exists s2. rewrite E, <- app_assoc. done.
Qed.

Lemma length_mjoin_ge (outs : list bytes) : Forall (λ out, out ≠ []) outs → (length outs ≤ length (mjoin outs))%nat.
Proof.
  induction 1 as [|out outs Ho _ IH]; [done|]. change (mjoin (out :: outs)) with (out ++ mjoin outs).
  rewrite length_app. destruct out; [done|]. simpl. lia.
Qed.

Lemma slice_elems_run dec outs vs :
  Forall2 (λ out v, out ≠ [] ∧ reads_back dec out v) outs vs →
  (∀ s rr p st, ready s rr (mkListpos p p :: st) → ∃ s', dec s = (inr EOL, s') ∧ ready s' rr (mkListpos p p :: st)) →
  ∀ s rr p n st, ready s (mjoin outs ++ rr) (mkListpos p n :: st) → 0 ≤ p → p + blen (mjoin outs) = n → n < 2 ^ 64 →
  ∃ s', slice_elems dec s = (inl vs, s') ∧ ready s' rr (mkListpos n n :: st).
Proof.
  intros Hall Heol s rr p n st Hr Hp Hn Hlt. unfold slice_elems. rewrite (at_r _ _ _ (rd_at _ _ _ Hr)).
  apply (elems_run dec outs vs Hall Heol _ [] s rr p n st); [|done..]. rewrite length_app.
  assert (length outs ≤ length (mjoin outs))%nat.
  { apply length_mjoin_ge. eapply Forall2_Forall_l; [exact Hall|]. by apply Forall_forall; intros ? _ ? [? _]. }
  rewrite <- (Forall2_length _ _ _ Hall). lia.
Qed.

(** ** Values that are read back

    Not all are: a nil [*big.Int] is read as zero, a pointer to an empty value as nil
    where the tag allows it, and an interface always holds byte slices and slices of
    interfaces. *)
Inductive keeps : bool → gtype → gval → Prop :=
| kp_raw_string n c : keeps n TRaw (VRaw (rlp_string c))
| kp_raw_list n c : keeps n TRaw (VRaw (rlp_list c))
| kp_big n i : 0 ≤ i → keeps n TBig (VBig (Some i))
| kp_uint n bits i : In bits [8; 16; 32; 64] → 0 ≤ i < 2 ^ bits → keeps n (TUint bits) (VUint i)
| kp_bool n b : keeps n TBool (VBool b)
| kp_string n b : keeps n TString (VBytes b)
| kp_bytes n b : keeps n TBytes (VBytes b)
| kp_byte_array n k b : length b = k → k ≠ 1%nat → keeps n (TByteArray k) (VBytes b)
| kp_slice n e vs : Forall (keeps false e) vs → keeps n (TSlice e) (VList vs)
| kp_array n k e vs : length vs = k → Forall (keeps false e) vs → keeps n (TArray k e) (VList vs)
| kp_struct n fields vs : Forall2 (λ f v, tail f.1 = false ∧ keeps (nilOK f.1) f.2 v) fields vs → keeps n (TStruct fields) (VList vs)
| kp_struct_tail n fields vs ts e es :
    Forall2 (λ f v, tail f.1 = false ∧ keeps (nilOK f.1) f.2 v) fields vs → tail ts = true → Forall (keeps false e) es →
    keeps n (TStruct (fields ++ [(ts, TSlice e)])) (VList (vs ++ [VList es]))
| kp_ptr e v : keeps false e v → keeps false (TPtr e) (VPtr (Some v))
| kp_nil e : ref_nil e ≠ [] → keeps true (TPtr e) (VPtr None)
| kp_some e v : keeps false e v → ref no_tags e v ≠ inl (rlp_string []) → ref no_tags e v ≠ inl (rlp_list []) → keeps true (TPtr e) (VPtr (Some v))
| kp_iface_bytes n b : keeps n TInterface (VIface (Some (TBytes, VBytes b)))
| kp_iface_list n vs : Forall (keeps false TInterface) vs → keeps n TInterface (VIface (Some (TSlice TInterface, VList vs))).

(** At the end of a list every decoder says so. *)
Definition ends (dec : RM gval) : Prop := ∀ s rr p st,
  ready s rr (mkListpos p p :: st) → ∃ s', dec s = (inr EOL, s') ∧ ready s' rr (mkListpos p p :: st).

Lemma bind_fails {A B} (m : RM A) (k : A → RM B) s err s' : m s = (inr err, s') → (m ≫= k) s = (inr err, s').
Proof. intros H. unfold mbind, RM_bind. by rewrite H. Qed.
Lemma bind_ok {A B} (m : RM A) (k : A → RM B) s a s' : m s = (inl a, s') → (m ≫= k) s = k a s'.
Proof. intros H. unfold mbind, RM_bind. by rewrite H. Qed.

Lemma decode_ends t : ends (decode no_tags t).
Proof.
  intros s rr p st Hr. destruct (Kind_eol s rr (mkListpos p p) st Hr eq_refl) as (s1 & E & H1).
  assert (HB : Bytes s = (inr EOL, s1)) by by apply bind_fails.
  assert (HL : wrapped stream_List s = (inr EOL, s1)) by (unfold wrapped, stream_List; by rewrite (bind_fails _ _ _ _ _ E)).
  assert (HU : ∀ bits, stream_uint bits s = (inr EOL, s1)) by (intros; by apply bind_fails).
  exists s1. split; [|done]. induction t; cbn [decode no_tags tail nilOK].
  - apply bind_fails. by apply bind_fails.
  - apply bind_fails. unfold wrapped. by rewrite HB.
  - apply bind_fails. unfold wrapped. by rewrite HU.
  - apply bind_fails. unfold wrapped, stream_Bool. by rewrite (bind_fails _ _ _ _ _ (HU 8)).
  - apply bind_fails. unfold wrapped. by rewrite HB.
  - apply bind_fails. unfold wrapped. by rewrite HB.
  - by apply bind_fails.
  - by apply bind_fails.
  - by apply bind_fails.
  - by apply bind_fails.
  - by apply bind_fails.
  - by apply bind_fails.
Qed.

(** ** Decoders of plain values *)

Lemma reads_back_map (m : RM bytes) b f out v :
  (∀ s rr st, front s (out ++ rr) st → fits (blen out) st → ∃ s', m s = (inl b, s') ∧ ready s' rr (consume (blen out) st)) →
  v = f b → reads_back (x ← m; mret (f x)) out v.
Proof.
  intros H -> s rr st Hs Hf. destruct (H s rr st Hs Hf) as (s' & E & H'). exists s'. by rewrite (bind_ok _ _ _ _ _ E).
Qed.

Lemma Bytes_back b : blen (rlp_string b) < 2 ^ 63 → reads_back (x ← wrapped Bytes; mret (VBytes x)) (rlp_string b) (VBytes b).
Proof.
  intros Hb. eapply reads_back_map; [|done]. intros s rr st Hs Hf. pose proof (blen_rlp_string b).
  destruct (Bytes_run s b rr st) as (s' & E & H'); [done|lia|done|]. exists s'. by rewrite (wrapped_ok _ _ _ _ E).
Qed.

Lemma big_back i : 0 ≤ i → blen (rlp_string (big_Bytes i)) < 2 ^ 63 → reads_back decodeBigInt (rlp_string (big_Bytes i)) (VBig (Some i)).
Proof.
  intros Hi Hb s rr st Hs Hf. pose proof (blen_rlp_string (big_Bytes i)). apply decodeBigInt_run; (done || lia).
Qed.

Lemma uint_back bits i : In bits [8; 16; 32; 64] → 0 ≤ i < 2 ^ bits →
  reads_back (x ← wrapped (stream_uint bits); mret (VUint x)) (rlp_string (big_Bytes i)) (VUint i).
Proof.
  intros Hb Hi s rr st Hs Hf. destruct (uint_run bits s i rr st Hb Hs Hi Hf) as (s' & E & H').
  exists s'. by rewrite (bind_ok _ _ _ _ _ (wrapped_ok _ _ _ _ E)).
Qed.

Lemma bool_back (b : bool) : reads_back (x ← wrapped stream_Bool; mret (VBool x)) (rlp_string (if b then [byte_of 1] else [])) (VBool b).
Proof.
  intros s rr st Hs Hf. destruct (uint_run 8 s (if b then 1 else 0) rr st) as (s' & E & H').
  { by left. } { by destruct b. } { by destruct b. } { by destruct b. }
  assert (Hb : stream_Bool s = (inl b, s')) by (unfold stream_Bool; rewrite (bind_ok _ _ _ _ _ E); by destruct b).
  exists s'. split; [|by destruct b]. by rewrite (bind_ok _ _ _ _ _ (wrapped_ok _ _ _ _ Hb)).
Qed.

(** The content of a string with a header, after the header. *)
Lemma string_content s b rr st :
  rlp_string b = header String (blen b) ++ b → front s (rlp_string b ++ rr) st → blen b < 2 ^ 64 → fits (blen (rlp_string b)) st →
  ∃ s1 s2, Kind_of s = (inl (String, blen b), s1) ∧ readFull (blen b) s1 = (inl b, s2) ∧ ready s2 rr (consume (blen (rlp_string b)) st).
Proof.
  intros E Hs Hb Hf. pose proof (blen_nonneg b). rewrite E in *. rewrite blen_app, blen_header in * by done. rewrite <- app_assoc in Hs.
  destruct (front_head s String (blen b) (b ++ rr) st) as (s1 & Ek & [Ha ? ? ? ?]); [done..|rewrite blen_app; pose proof (blen_nonneg rr); lia|done|].
  destruct (readFull_run s1 b rr (consume (headsize (blen b)) st) Ha) as (s2 & Er & H2).
  { apply fits_consume; [|done]. pose proof (headsize_pos (blen b)). lia. }
  exists s1, s2. by rewrite consume_consume in H2.
Qed.

Lemma byte_array_back b : length b ≠ 1%nat → blen (rlp_string b) < 2 ^ 63 → reads_back (decodeByteArray (length b)) (rlp_string b) (VBytes b).
Proof.
  intros Hn Hb s rr st Hs Hf. pose proof (blen_rlp_string b).
  destruct (string_content s b rr st) as (s1 & s2 & Ek & Er & H2); [|done|lia|done|].
  { destruct b as [|x [|y b]]; [done|done|done]. }
  exists s2. split; [|done]. unfold decodeByteArray. rewrite (bind_ok _ _ _ _ _ Ek). fold (blen b).
  rewrite Z.ltb_irrefl, gtb_le, (bind_ok _ _ _ _ _ Er) by lia.
  rewrite (proj2 (Z.eqb_neq _ _)) by (unfold blen; lia). done.
Qed.

Lemma raw_string_back c : blen (rlp_string c) < 2 ^ 63 → reads_back (x ← Raw; mret (VRaw x)) (rlp_string c) (VRaw (rlp_string c)).
Proof.
  intros Hb. eapply reads_back_map; [|done]. intros s rr st Hs Hf. pose proof (blen_rlp_string c).
  destruct (rlp_string_cases c) as [(x & -> & Hx & E)|[E _]].
  - rewrite E in *. destruct (front_byte s x rr st) as (s1 & Ek & [[] ? ? Hbv ?]); [done..|]. unfold Raw. rewrite (bind_ok _ _ _ _ _ Ek).
    unfold mbind, RM_bind, get_s, rearm, mod_s, mret, RM_ret. rewrite Hbv, byte_of_val by done.
    eexists. split; [reflexivity|]. by repeat constructor.
  - destruct (string_content s c rr st E) as (s1 & s2 & Ek & Er & H2); [done|lia|done|]. exists s2. split; [|done].
    unfold Raw. rewrite (bind_ok _ _ _ _ _ Ek), (bind_ok _ _ _ _ _ Er). by rewrite E.
Qed.

Lemma raw_list_back c : blen (rlp_list c) < 2 ^ 63 → reads_back (x ← Raw; mret (VRaw x)) (rlp_list c) (VRaw (rlp_list c)).
Proof.
  intros Hb. eapply reads_back_map; [|done]. intros s rr st Hs Hf. pose proof (blen_nonneg c).
  assert (Hc : blen c < 2 ^ 63) by (unfold rlp_list in Hb; rewrite blen_app in Hb; pose proof (blen_nonneg (puthead 192 247 (blen c))); lia).
  unfold rlp_list in *. rewrite <- app_assoc in Hs. rewrite blen_app, blen_puthead in * by lia.
  destruct (front_head s List (blen c) (c ++ rr) st) as (s1 & Ek & [Ha ? ? ? ?]); [done|done|lia|rewrite blen_app; pose proof (blen_nonneg rr); lia|done|].
  destruct (readFull_run s1 c rr (consume (headsize (blen c)) st) Ha) as (s2 & Er & H2).
  { apply fits_consume; [|done]. pose proof (headsize_pos (blen c)). lia. }
  exists s2. rewrite consume_consume in H2. split; [|done]. unfold Raw. by rewrite (bind_ok _ _ _ _ _ Ek), (bind_ok _ _ _ _ _ Er).
Qed.

(** ** Decoders of lists *)

Lemma blen_rlp_list c : blen c < blen (rlp_list c).
Proof.
  unfold rlp_list. rewrite blen_app. enough (0 < blen (puthead 192 247 (blen c))) by lia.
  unfold puthead. destruct (blen c <? 56); [done|]. rewrite blen_cons. pose proof (blen_nonneg (putint (blen c))). lia.
Qed.

(** Entering a list, reading its content with [body] and leaving it. *)
Lemma frame_back {A} (body : RM A) c (a : A) :
  blen (rlp_list c) < 2 ^ 63 →
  (∀ s rr st, ready s (c ++ rr) (mkListpos 0 (blen c) :: st) → ∃ s', body s = (inl a, s') ∧ ready s' rr (mkListpos (blen c) (blen c) :: st)) →
  ∀ s rr st, front s (rlp_list c ++ rr) st → fits (blen (rlp_list c)) st →
  ∃ s1 s2 s3, stream_List s = (inl (blen c), s1) ∧ body s1 = (inl a, s2) ∧ ListEnd s2 = (inl tt, s3) ∧
    ready s3 rr (consume (blen (rlp_list c)) st).
Proof.
  intros Hb Hbody s rr st Hs Hf. pose proof (blen_rlp_list c) as Hc. pose proof (blen_nonneg c) as H0. assert (Hlt : 0 ≤ blen c < 2 ^ 64) by lia.
  assert (Hh : 1 ≤ headsize (blen c)) by by apply headsize_pos.
  destruct (List_run s c rr st) as (s1 & E1 & H1); [done|lia|done|].
  destruct (Hbody s1 rr _ H1) as (s2 & E2 & H2). clear Hc. unfold rlp_list in *. rewrite blen_app, blen_puthead in * by done.
  destruct (ListEnd_run s2 rr (blen c) (headsize (blen c)) st H2) as (s3 & E3 & H3); [lia|lia|done|].
  exists s1, s2, s3. done.
Qed.

Lemma mjoin_nil (outs : list bytes) : Forall (λ out, out ≠ []) outs → mjoin outs = [] → outs = [].
Proof. destruct 1 as [|o os Ho _]; [done|]. change (mjoin (o :: os)) with (o ++ mjoin os). by intros [-> _]%app_nil. Qed.

Section Elems.
Variables (dec : RM gval) (outs : list bytes) (vs : list gval).
Hypothesis Hall : Forall2 (λ out v, out ≠ [] ∧ reads_back dec out v) outs vs.

Lemma outs_nonempty : Forall (λ out, out ≠ []) outs.
Proof. eapply Forall2_Forall_l; [exact Hall|]. by apply Forall_forall; intros ? _ ? [? _]. Qed.

Lemma slice_back : ends dec → blen (rlp_list (mjoin outs)) < 2 ^ 63 → reads_back (decodeListSlice dec) (rlp_list (mjoin outs)) (VList vs).
Proof.
  intros He Hb s rr st Hs Hf. pose proof (blen_rlp_list (mjoin outs)) as Hl. pose proof (blen_nonneg (mjoin outs)) as H0.
  destruct (Z.eqb_spec (blen (mjoin outs)) 0) as [E0|En].
  - assert (mjoin outs = []) as Ej by (destruct (mjoin outs) as [|x b]; [done|rewrite blen_cons in E0; pose proof (blen_nonneg b); lia]).
    destruct (frame_back (mret (M := RM) tt) (mjoin outs) tt Hb) with (s := s) (rr := rr) (st := st) as (s1 & s2 & s3 & E1 & E2 & E3 & H3);
      [|done|done|]. { intros s' rr' st' Hr. exists s'. split; [done|]. rewrite E0 in *. by rewrite Ej in Hr. }
    exists s3. split; [|done]. unfold decodeListSlice. rewrite (bind_ok _ _ _ _ _ (wrapped_ok _ _ _ _ E1)).
    rewrite E0, Z.eqb_refl. injection E2 as ->. rewrite (bind_ok _ _ _ _ _ E3).
    pose proof (mjoin_nil outs outs_nonempty Ej) as Eo. rewrite Eo in Hall. by inversion Hall.
  - destruct (frame_back (slice_elems dec) (mjoin outs) vs Hb) with (s := s) (rr := rr) (st := st) as (s1 & s2 & s3 & E1 & E2 & E3 & H3); [|done|done|].
    { intros s' rr' st' Hr. apply (slice_elems_run dec outs vs Hall He s' rr' 0 _ st'); (done || lia). }
    exists s3. split; [|done]. unfold decodeListSlice. rewrite (bind_ok _ _ _ _ _ (wrapped_ok _ _ _ _ E1)).
    rewrite (proj2 (Z.eqb_neq _ _)) by done. by rewrite (bind_ok _ _ _ _ _ E2), (bind_ok _ _ _ _ _ E3).
Qed.

Lemma array_elems_run s rr p n st :
  ready s (mjoin outs ++ rr) (mkListpos p n :: st) → 0 ≤ p → p + blen (mjoin outs) ≤ n → n < 2 ^ 64 →
  ∃ s', decode_array_elems dec (length vs) s = (inl vs, s') ∧ ready s' rr (mkListpos (p + blen (mjoin outs)) n :: st).
Proof.
  revert s p. induction Hall as [|out v outs' vs' [Hne Hv] Hall' IH]; intros s p Hr Hp Hn Hlt.
  - exists s. change (mjoin []) with ([] : bytes) in *. change (blen []) with 0. by rewrite Z.add_0_r.
  - change (mjoin (out :: outs')) with (out ++ mjoin outs') in *. rewrite <- app_assoc in Hr. rewrite blen_app in *.
    pose proof (blen_nonneg out). pose proof (blen_nonneg (mjoin outs')). cbn [length decode_array_elems].
    destruct (Hv s (mjoin outs' ++ rr) (mkListpos p n :: st)) as (s1 & -> & H1); [by apply ready_front|simpl; lia|].
    unfold consume in H1. simpl in H1. destruct (IH Hall' s1 (blen out + p)) as (s2 & -> & H2); [done|lia|lia|done|].
    exists s2. split; [done|]. by replace (p + (blen out + blen (mjoin outs'))) with (blen out + p + blen (mjoin outs')) by lia.
Qed.

Lemma array_back : blen (rlp_list (mjoin outs)) < 2 ^ 63 → reads_back (decodeListArray (length vs) dec) (rlp_list (mjoin outs)) (VList vs).
Proof.
  intros Hb s rr st Hs Hf. pose proof (blen_rlp_list (mjoin outs)) as Hl. pose proof (blen_nonneg (mjoin outs)) as H0.
  destruct (frame_back (decode_array_elems dec (length vs)) (mjoin outs) vs Hb) with (s := s) (rr := rr) (st := st) as (s1 & s2 & s3 & E1 & E2 & E3 & H3); [|done|done|].
  { intros s' rr' st' Hr. destruct (array_elems_run s' rr' 0 (blen (mjoin outs)) st') as (s'' & E & H); [done|lia..|]. by exists s''. }
  exists s3. split; [|done]. unfold decodeListArray. rewrite (bind_ok _ _ _ _ _ (wrapped_ok _ _ _ _ E1)), (bind_ok _ _ _ _ _ E2).
  by rewrite (bind_ok _ _ _ _ _ (wrapped_ok _ _ _ _ E3)).
Qed.
End Elems.

Section Fields.
Variable dec : tags → gtype → RM gval.

Lemma decode_fields_cons ts t fields s :
  decode_fields dec ((ts, t) :: fields) s =
  match dec ts t s with
  | (inl v, s) => match decode_fields dec fields s with (inl vs, s) => (inl (v :: vs), s) | bad => bad end
  | (inr EOL, s) => (inr (decodeError "too few elements"), s)
  | (inr err, s) => (inr err, s)
  end.
Proof. done. Qed.

Lemma fields_run fields outs vs :
  Forall3 (λ f out v, reads_back (dec f.1 f.2) out v) fields outs vs → ∀ s rr p n st,
  ready s (mjoin outs ++ rr) (mkListpos p n :: st) → 0 ≤ p → p + blen (mjoin outs) ≤ n → n < 2 ^ 64 →
  ∃ s', decode_fields dec fields s = (inl vs, s') ∧ ready s' rr (mkListpos (p + blen (mjoin outs)) n :: st).
Proof.
  induction 1 as [|[ts t] out v fields outs vs Hv Hall IH]; intros s rr p n st Hr Hp Hn Hlt.
  - exists s. change (mjoin []) with ([] : bytes) in *. change (blen []) with 0. by rewrite Z.add_0_r.
  - change (mjoin (out :: outs)) with (out ++ mjoin outs) in *. rewrite <- app_assoc in Hr. rewrite blen_app in *.
    pose proof (blen_nonneg out). pose proof (blen_nonneg (mjoin outs)). rewrite decode_fields_cons.
    destruct (Hv s (mjoin outs ++ rr) (mkListpos p n :: st)) as (s1 & E1 & H1); [by apply ready_front|simpl; lia|].
    simpl in E1. rewrite E1. unfold consume in H1. simpl in H1.
    destruct (IH s1 rr (blen out + p) n st) as (s2 & E2 & H2); [done|lia|lia|done|]. rewrite E2.
    exists s2. split; [done|]. by replace (p + (blen out + blen (mjoin outs))) with (blen out + p + blen (mjoin outs)) by lia.
Qed.

Lemma decode_fields_snoc fields ts t vs v s s1 s2 :
  decode_fields dec fields s = (inl vs, s1) → dec ts t s1 = (inl v, s2) →
  decode_fields dec (fields ++ [(ts, t)]) s = (inl (vs ++ [v]), s2).
Proof.
  revert vs s. induction fields as [|[ts' t'] fields IH]; intros vs s E1 E2.
  - injection E1 as <- <-. simpl. by rewrite E2.
  - cbn [app]. rewrite decode_fields_cons in *. destruct (dec ts' t' s) as [[v'|err] s'] eqn:E; [|by destruct err].
    destruct (decode_fields dec fields s') as [[vs'|err] s''] eqn:Ef; [|done].
    injection E1 as <- <-. by rewrite (IH vs' s' Ef E2).
Qed.
End Fields.

(** The parts of the encoding of a list. *)
Lemma ref_all_outs f vs c : ref_all f vs = inl c → ∃ outs, c = mjoin outs ∧ Forall2 (λ out v, f v = inl out) outs vs.
Proof.
  revert c. induction vs as [|v vs IH]; intros c E; [injection E as <-; by exists []|].
  change (app_res (f v) (ref_all f vs) = inl c) in E. destruct (f v) as [out|] eqn:Ev; [|done]. destruct (ref_all f vs) as [c'|]; [|done].
  injection E as <-. destruct (IH c' eq_refl) as (outs & -> & H). exists (out :: outs). split; [done|by constructor].
Qed.

Lemma ref_fields_outs f fields vs c : ref_fields f fields vs = inl c →
  ∃ outs, c = mjoin outs ∧ Forall3 (λ fd out v, f fd.1 fd.2 v = inl out) fields outs vs.
Proof.
  revert fields c. induction vs as [|v vs IH]; intros [|[ts t] fields] c E; try done; [injection E as <-; exists []; split; [done|constructor]|].
  change (app_res (f ts t v) (ref_fields f fields vs) = inl c) in E. destruct (f ts t v) as [out|] eqn:Ev; [|done].
  destruct (ref_fields f fields vs) as [c'|] eqn:Ec; [|done].
  injection E as <-. destruct (IH fields c' Ec) as (outs & -> & H). exists (out :: outs). split; [done|by constructor].
Qed.

Lemma blen_mjoin_le (outs : list bytes) out : out ∈ outs → blen out ≤ blen (mjoin outs).
Proof.
  induction 1 as [out outs|out o outs _ IH]; [change (mjoin (out :: outs)) with (out ++ mjoin outs)|change (mjoin (o :: outs)) with (o ++ mjoin outs)];
    rewrite blen_app; [pose proof (blen_nonneg (mjoin outs))|pose proof (blen_nonneg o)]; lia.
Qed.

(** ** The header may have been read *)

Lemma Kind_again s kn s1 : Kind_of s = (inl kn, s1) → Kind_of s1 = (inl kn, s1).
Proof.
  unfold Kind_of at 1. destruct (kind s) as [k|] eqn:Ek.
  - destruct (kinderr s) eqn:Ee; [done|]. intros [= <- <-]. unfold Kind_of. by rewrite Ek, Ee.
  - destruct (match head _ with Some _ => _ | None => _ end); [done|]. destruct (stream_readKind _) as [[[k n] err] s2].
    destruct err as [err|]; [done|]. destruct (match head _ with Some _ => _ | None => _ end); [done|].
    by intros [= <- <-].
Qed.

Lemma front_kind s rr st kn s1 : front s rr st → Kind_of s = (inl kn, s1) → front s1 rr st.
Proof.
  intros (s0 & Hr & [->|[kn0 E0]]) E; exists s0; (split; [done|right]); [by exists kn|].
  rewrite (Kind_again _ _ _ E0) in E. injection E as <- <-. by exists kn0.
Qed.

(** An encoding is that of a string or of a list. *)
Definition shape (out : bytes) : Prop := (∃ b, out = rlp_string b) ∨ (∃ c, out = rlp_list c).

Lemma shape_nonempty out : shape out → out ≠ [].
Proof.
  intros [[b ->]|[c ->]] E.
  - destruct (rlp_string_cases b) as [(x & _ & _ & E')|[E' _]]; rewrite E' in E; [done|].
    apply app_nil in E as [E _]. unfold header, puthead in E. by destruct (blen b <? 56).
  - pose proof (blen_rlp_list c) as H. rewrite E in H. change (blen []) with 0 in H. pose proof (blen_nonneg c). lia.
Qed.

Lemma string_kind s b rr st :
  front s (rlp_string b ++ rr) st → blen b < 2 ^ 64 → fits (blen (rlp_string b)) st →
  ∃ k n s1, Kind_of s = (inl (k, n), s1) ∧ (k = Byte ∨ (k = String ∧ n = blen b)) ∧ front s1 (rlp_string b ++ rr) st.
Proof.
  intros Hs Hb Hf. destruct (rlp_string_cases b) as [(x & -> & Hx & E)|[E _]].
  - destruct (front_byte s x rr st) as (s1 & Ek & _); [by rewrite E in Hs|done|by rewrite E in Hf|].
    exists Byte, 0, s1. split_and!; [done|by left|by eapply front_kind].
  - destruct (string_content s b rr st E Hs Hb Hf) as (s1 & _ & Ek & _). exists String, (blen b), s1. split_and!; [done|by right|by eapply front_kind].
Qed.

Lemma list_kind s c rr st :
  front s (rlp_list c ++ rr) st → blen c < 2 ^ 64 → fits (blen (rlp_list c)) st →
  ∃ s1, Kind_of s = (inl (List, blen c), s1) ∧ front s1 (rlp_list c ++ rr) st.
Proof.
  intros Hs Hc Hf. pose proof (blen_nonneg c). unfold rlp_list in *. rewrite <- app_assoc in Hs. rewrite blen_app, blen_puthead in Hf by lia.
  destruct (front_head s List (blen c) (c ++ rr) st) as (s1 & Ek & _); [done..|rewrite blen_app; pose proof (blen_nonneg rr); lia|done|].
  exists s1. split; [done|]. rewrite <- app_assoc. by eapply front_kind.
Qed.

Lemma front_length s rr st : front s rr st → fits 0 st → (length rr ≤ length (r s) + 9)%nat.
Proof.
  intros (s0 & Hr & [->|[[k n] E]]) Hf; [rewrite (at_r _ _ _ (rd_at _ _ _ Hr)); lia|].
  apply Kind_inv with (rr := rr) (st := st) in E; [|done..].
  assert (H : k ≠ Byte → ∀ rr', 0 ≤ n < 2 ^ 64 → (length (header k n ++ rr') ≤ length rr' + 9)%nat).
  { intros Hk rr' Hn. rewrite length_app. pose proof (blen_header k n Hk Hn) as Hb. pose proof (headsize_le n Hn). unfold blen in Hb. lia. }
  destruct k.
  - destruct E as (x & rr' & -> & _ & _ & _ & [[Hr' _ _ _] _ _ _ _]). rewrite Hr'. simpl. lia.
  - destruct E as (rr' & -> & Hn & _ & [[Hr' _ _ _] _ _ _ _]). rewrite Hr'. by apply H.
  - destruct E as (rr' & -> & Hn & _ & [[Hr' _ _ _] _ _ _ _]). rewrite Hr'. by apply H.
Qed.

(** ** Pointers and interfaces *)

Lemma optional_nil e : ref_nil e ≠ [] → reads_back (optional_ptr (decode no_tags e)) (ref_nil e) (VPtr None).
Proof.
  intros Hne s rr st Hs Hf.
  assert (∃ k, k ≠ Byte ∧ ref_nil e = header k 0) as (k & Hk & E).
  { clear Hs Hf. induction e; simpl in *; try done; first [by apply IHe | by exists String | by exists List]. }
  rewrite E in *. destruct (front_head s k 0 rr st) as (s1 & Ek & [[H1 H2 H3 H4] ? ? ? ?]);
    [done|done|done|apply blen_nonneg|by rewrite blen_header in Hf by done|].
  unfold optional_ptr. rewrite Ek, bool_decide_eq_false_2 by done. simpl. eexists. split; [reflexivity|].
  rewrite blen_header by done. by repeat constructor.
Qed.

Lemma optional_some dec out v :
  shape out → out ≠ rlp_string [] → out ≠ rlp_list [] → blen out < 2 ^ 63 → reads_back dec out v →
  reads_back (optional_ptr dec) out (VPtr (Some v)).
Proof.
  intros Hsh Hs0 Hl0 Hb Hv s rr st Hs Hf.
  assert (∃ k n s1, Kind_of s = (inl (k, n), s1) ∧ (n =? 0) && negb (bool_decide (k = Byte)) = false ∧ front s1 (out ++ rr) st) as (k & n & s1 & Ek & Hkn & H1).
  { destruct Hsh as [[b ->]|[c ->]].
    - pose proof (blen_rlp_string b). destruct (string_kind s b rr st) as (k & n & s1 & Ek & Hk & H1); [done|lia|done|].
      exists k, n, s1. split_and!; [done| |done]. destruct Hk as [->|[-> ->]]; [by rewrite andb_false_r|].
      rewrite (proj2 (Z.eqb_neq _ _)); [done|]. intros E. destruct b; [done|]. rewrite blen_cons in E. pose proof (blen_nonneg b0). lia.
    - pose proof (blen_rlp_list c). destruct (list_kind s c rr st) as (s1 & Ek & H1); [done|lia|done|].
      exists List, (blen c), s1. split_and!; [done| |done].
      rewrite (proj2 (Z.eqb_neq _ _)); [done|]. intros E. destruct c; [done|]. rewrite blen_cons in E. pose proof (blen_nonneg c). lia. }
  destruct (Hv s1 rr st H1 Hf) as (s2 & E2 & H2). exists s2. split; [|done].
  unfold optional_ptr. rewrite Ek, Hkn. by rewrite (bind_ok _ _ _ _ _ E2).
Qed.

Lemma iface_bytes_back b fuel : blen (rlp_string b) < 2 ^ 63 →
  reads_back (decodeInterface (S fuel)) (rlp_string b) (VIface (Some (TBytes, VBytes b))).
Proof.
  intros Hb s rr st Hs Hf. pose proof (blen_rlp_string b).
  destruct (string_kind s b rr st) as (k & n & s1 & Ek & Hk & H1); [done|lia|done|].
  destruct (Bytes_run s1 b rr st) as (s2 & E2 & H2); [done|lia|done|]. exists s2. split; [|done].
  cbn [decodeInterface]. rewrite (bind_ok _ _ _ _ _ Ek).
  destruct Hk as [->|[-> _]]; by rewrite (bind_ok _ _ _ _ _ E2).
Qed.

Lemma iface_list_back outs vs fuel :
  Forall2 (λ out v, out ≠ [] ∧ reads_back (decodeInterface fuel) out v) outs vs → ends (decodeInterface fuel) →
  blen (rlp_list (mjoin outs)) < 2 ^ 63 →
  reads_back (decodeInterface (S fuel)) (rlp_list (mjoin outs)) (VIface (Some (TSlice TInterface, VList vs))).
Proof.
  intros Hall He Hb s rr st Hs Hf. pose proof (blen_rlp_list (mjoin outs)).
  destruct (list_kind s (mjoin outs) rr st) as (s1 & Ek & H1); [done|lia|done|].
  destruct (slice_back _ outs vs Hall He Hb s1 rr st H1 Hf) as (s2 & E2 & H2). exists s2. split; [|done].
  cbn [decodeInterface]. by rewrite (bind_ok _ _ _ _ _ Ek), (bind_ok _ _ _ _ _ E2).
Qed.

Lemma iface_ends fuel : ends (decodeInterface (S fuel)).
Proof.
  intros s rr p st Hr. destruct (Kind_eol s rr (mkListpos p p) st Hr eq_refl) as (s1 & E & H1).
  exists s1. split; [|done]. by apply bind_fails.
Qed.

(** ** Every value is read back *)

Lemma elems_outs (e : gtype) (dec : RM gval) (vs : list gval) c :
  Forall (λ v, ∀ out, ref no_tags e v = inl out → blen out < 2 ^ 63 → (length out ≤ length c)%nat → shape out ∧ reads_back dec out v) vs →
  ref_all (ref no_tags e) vs = inl c → blen c < 2 ^ 63 →
  ∃ outs, c = mjoin outs ∧ Forall2 (λ out v, out ≠ [] ∧ reads_back dec out v) outs vs.
Proof.
  intros Hv E Hb. destruct (ref_all_outs _ _ _ E) as (outs & -> & Ho). exists outs. split; [done|].
  assert (Hle : Forall (λ out, blen out ≤ blen (mjoin outs)) outs) by (apply Forall_forall; intros; by apply blen_mjoin_le).
  revert Hle Hv Hb. clear E. generalize (mjoin outs). intros c. induction Ho as [|out v outs vs E Ho IH]; intros Hle Hv Hb; constructor.
  - apply Forall_cons in Hle as [Hle _], Hv as [Hv _]. destruct (Hv out) as [Hs Hr]; [done|lia|unfold blen in *; lia|].
    split; [by apply shape_nonempty|done].
  - apply Forall_cons in Hle as [_ Hle], Hv as [_ Hv]. by apply IH.
Qed.

Definition iface_ok (v : gval) : Prop := ∀ n out fuel,
  keeps n TInterface v → ref no_tags TInterface v = inl out → blen out < 2 ^ 63 → (length out < fuel)%nat →
  shape out ∧ reads_back (decodeInterface fuel) out v.

Lemma iface_back v : iface_ok v ∧ ∀ vs, v = VList vs → Forall iface_ok vs.
Proof.
  induction v as [b|i|i|b|b|vs IH| |v IH| |t' v IH] using gval_nested_ind; (split; [intros n out fuel Hk; inversion Hk; subst|try done]).
  - intros vs' [= <-]. eapply Forall_impl; [exact IH|]. by intros ? [? _].
  - intros E Hb Hf. injection E as <-. destruct fuel as [|fuel]; [lia|]. split; [by left; eexists|by apply iface_bytes_back].
  - intros E Hb Hf. destruct fuel as [|fuel]; [lia|]. cbn [ref map_res no_tags tail] in E.
    change (map_res rlp_list (ref_all (ref no_tags TInterface) vs) = inl out) in E.
    destruct (ref_all _ vs) as [c|] eqn:Ec; [|done]. injection E as <-. pose proof (blen_rlp_list c) as Hl.
    assert (length c < fuel)%nat by (unfold blen in Hl; lia).
    destruct (elems_outs TInterface (decodeInterface fuel) vs c) as (outs & -> & Ho); [|done|lia|].
    { pose proof (proj2 IH vs eq_refl) as IH'. rewrite Forall_forall in *. intros v Hv out Ev Hbo Hlo. apply (IH' v Hv false); auto. lia. }
    split; [right; by eexists|]. destruct fuel as [|fuel]; [lia|]. by apply iface_list_back; [|apply iface_ends|].
Qed.

Definition decodes (v : gval) : Prop := ∀ ts t out,
  keeps (nilOK ts) t v → tail ts = false → ref ts t v = inl out → blen out < 2 ^ 63 → shape out ∧ reads_back (decode ts t) out v.

Lemma fields_outs fields vs c :
  Forall decodes vs → Forall2 (λ f v, tail f.1 = false ∧ keeps (nilOK f.1) f.2 v) fields vs →
  ref_fields ref fields vs = inl c → blen c < 2 ^ 63 →
  ∃ outs, c = mjoin outs ∧ Forall3 (λ f out v, reads_back (decode f.1 f.2) out v) fields outs vs.
Proof.
  intros Hd Hk E Hb. destruct (ref_fields_outs _ _ _ _ E) as (outs & -> & Ho). exists outs. split; [done|].
  assert (Hle : Forall (λ out, blen out ≤ blen (mjoin outs)) outs) by (apply Forall_forall; intros; by apply blen_mjoin_le).
  revert Hle Hd Hk Hb. clear E. generalize (mjoin outs). intros c.
  induction Ho as [|[ts t] out v fields outs vs E Ho IH]; intros Hle Hd Hk Hb; constructor.
  - apply Forall_cons in Hle as [Hle _], Hd as [Hd _]. apply Forall2_cons in Hk as [[Ht Hk] _].
    simpl in *. eapply Hd; eauto. lia.
  - apply Forall_cons in Hle as [_ Hle], Hd as [_ Hd]. apply Forall2_cons in Hk as [_ Hk]. by apply IH.
Qed.

Lemma elems_decode e vs c :
  Forall decodes vs → Forall (keeps false e) vs → ref_all (ref no_tags e) vs = inl c → blen c < 2 ^ 63 →
  ∃ outs, c = mjoin outs ∧ Forall2 (λ out v, out ≠ [] ∧ reads_back (decode no_tags e) out v) outs vs.
Proof.
  intros Hd Hk E Hb. apply (elems_outs e _ _ _); [|done..]. rewrite Forall_forall in *. intros v Hv out Ev Hbo _. by apply (Hd v Hv); auto.
Qed.

Lemma struct_back (fields : list (tags * gtype)) (vs : list gval) c ts :
  blen (rlp_list c) < 2 ^ 63 →
  (∀ s rr st, ready s (c ++ rr) (mkListpos 0 (blen c) :: st) →
     ∃ s', decode_fields decode fields s = (inl vs, s') ∧ ready s' rr (mkListpos (blen c) (blen c) :: st)) →
  reads_back (decode ts (TStruct fields)) (rlp_list c) (VList vs).
Proof.
  intros Hb Hf s rr st Hs Hfit.
  destruct (frame_back (decode_fields decode fields) c vs Hb Hf s rr st Hs Hfit) as (s1 & s2 & s3 & E1 & E2 & E3 & H3).
  exists s3. split; [|done]. cbn [decode]. rewrite (bind_ok _ _ _ _ _ (wrapped_ok _ _ _ _ E1)), (bind_ok _ _ _ _ _ E2).
  by rewrite (bind_ok _ _ _ _ _ (wrapped_ok _ _ _ _ E3)).
Qed.

Lemma ref_fields_snoc f fields vs ts t v c :
  length fields = length vs → ref_fields f (fields ++ [(ts, t)]) (vs ++ [v]) = inl c →
  ∃ c1 c2, ref_fields f fields vs = inl c1 ∧ f ts t v = inl c2 ∧ c = c1 ++ c2.
Proof.
  revert fields c. induction vs as [|v' vs IH]; intros [|[ts' t'] fields] c Hl E; try done.
  - simpl in E. destruct (f ts t v) as [c2|]; [|done]. injection E as <-. exists [], c2. by rewrite app_nil_r.
  - change (app_res (f ts' t' v') (ref_fields f (fields ++ [(ts, t)]) (vs ++ [v])) = inl c) in E.
    destruct (f ts' t' v') as [c0|] eqn:E0; [|done]. destruct (ref_fields f (fields ++ _) _) as [c'|] eqn:Ec; [|done].
    destruct (IH fields c') as (c1 & c2 & E1 & E2 & ->); [simpl in Hl; lia|done|]. injection E as <-. exists (c0 ++ c1), c2.
    split_and!; [|done|by rewrite app_assoc]. change (app_res (f ts' t' v') (ref_fields f fields vs) = inl (c0 ++ c1)). by rewrite E0, E1.
Qed.

Lemma ref_fields_snoc_ok f fields vs ts t v c1 c2 :
  ref_fields f fields vs = inl c1 → f ts t v = inl c2 → ref_fields f (fields ++ [(ts, t)]) (vs ++ [v]) = inl (c1 ++ c2).
Proof.
  revert fields c1. induction vs as [|v' vs IH]; intros [|[ts' t'] fields] c1 E1 E2; try done.
  - injection E1 as <-. simpl. rewrite E2. simpl. by rewrite app_nil_r.
  - change (app_res (f ts' t' v') (ref_fields f fields vs) = inl c1) in E1.
    change (app_res (f ts' t' v') (ref_fields f (fields ++ [(ts, t)]) (vs ++ [v])) = inl (c1 ++ c2)).
    destruct (f ts' t' v') as [c0|]; [|done]. destruct (ref_fields f fields vs) as [c'|] eqn:Ec; [|done].
    injection E1 as <-. rewrite (IH _ _ Ec E2). simpl. by rewrite app_assoc.
Qed.

Lemma decode_struct ts (fields : list (tags * gtype)) vs out :
  Forall decodes vs → keeps (nilOK ts) (TStruct fields) (VList vs) → (∀ es, last vs = Some (VList es) → Forall decodes es) →
  ref ts (TStruct fields) (VList vs) = inl out → blen out < 2 ^ 63 → shape out ∧ reads_back (decode ts (TStruct fields)) out (VList vs).
Proof.
  intros Hd Hk Hlast E Hb. change (map_res rlp_list (ref_fields ref fields vs) = inl out) in E.
  destruct (ref_fields ref fields vs) as [c|] eqn:Ec; [|done]. injection E as <-. split; [by right; eexists|].
  pose proof (blen_rlp_list c) as Hl. pose proof (blen_nonneg c) as H0. apply struct_back; [done|].
  inversion Hk as [| | | | | | | | | |? ? ? Hall|? fs us ts' e es Hall Ht He| | | | |]; subst.
  - destruct (fields_outs _ _ _ Hd Hall Ec) as (outs & -> & Ho); [lia|]. intros s rr st Hr.
    destruct (fields_run decode _ _ _ Ho s rr 0 (blen (mjoin outs)) st) as (s' & E' & H'); [done|lia..|]. by exists s'.
  - destruct (ref_fields_snoc _ _ _ _ _ _ _ (Forall2_length _ _ _ Hall) Ec) as (c1 & c2 & E1 & E2 & ->).
    rewrite blen_app in *. pose proof (blen_nonneg c1) as Hc1. pose proof (blen_nonneg c2) as Hc2.
    apply Forall_app in Hd as [Hd _]. destruct (fields_outs _ _ _ Hd Hall E1) as (outs & -> & Ho); [lia|].
    cbn [ref] in E2. rewrite Ht in E2. destruct (ref_all _ es) as [c|] eqn:Er; [|done]. injection E2 as <-.
    destruct (elems_decode e es c) as (os & -> & Hos); [apply Hlast; by rewrite last_snoc|done..|lia|].
    intros s rr st Hr. rewrite <- app_assoc in Hr.
    destruct (fields_run decode _ _ _ Ho s (mjoin os ++ rr) 0 (blen (mjoin outs) + blen (mjoin os)) st) as (s1 & Ef & R1); [done|lia..|].
    destruct (slice_elems_run _ os es Hos (decode_ends e) s1 rr (0 + blen (mjoin outs)) (blen (mjoin outs) + blen (mjoin os)) st) as (s2 & Es & R2); [done|lia..|].
    exists s2. split; [|done]. apply (decode_fields_snoc decode fs ts' (TSlice e) us (VList es) s s1 s2 Ef).
    cbn [decode]. rewrite Ht. by rewrite (bind_ok _ _ _ _ _ Es).
Qed.

Lemma iface_decode v n ts out : keeps n TInterface v → ref ts TInterface v = inl out → blen out < 2 ^ 63 →
  shape out ∧ reads_back (decode ts TInterface) out v.
Proof.
  intros Hk E Hb. assert (E' : ref no_tags TInterface v = inl out) by by destruct v as [| | | | | | |[[]|]].
  destruct (proj1 (iface_back v) n out (S (length out))) as [Hs _]; [done|done|done|lia|]. split; [done|].
  intros s rr st Hfr Hf. assert (Hf0 : fits 0 st) by (eapply fits_le; [|exact Hf]; apply blen_nonneg).
  pose proof (front_length _ _ _ Hfr Hf0) as Hlen. rewrite length_app in Hlen.
  destruct (proj1 (iface_back v) n out (9 + S (length (r s)))%nat) as [_ Hr]; [done|done|done|lia|]. by apply Hr.
Qed.

Lemma decode_back v : decodes v ∧ ∀ vs, v = VList vs → Forall decodes vs.
Proof.
  induction v as [b|i|i|b|b|vs IH| |v IH| |t' v IH] using gval_nested_ind;
    try (assert (Hd : Forall decodes vs) by (eapply Forall_impl; [exact IH|]; by intros ? [? _]));
    (split; [intros ts t out Hk Ht E Hb; inversion Hk; subst; cbn [ref] in E|try done; intros ? [= <-]; exact Hd]).
  - injection E as <-. split; [by left; eexists|by apply raw_string_back].
  - injection E as <-. split; [by right; eexists|by apply raw_list_back].
  - rewrite (proj2 (Z.ltb_ge _ _)) in E by done. injection E as <-. split; [by left; eexists|by apply big_back].
  - injection E as <-. split; [by left; eexists|by apply uint_back].
  - injection E as <-. split; [by left; eexists|by apply bool_back].
  - injection E as <-. split; [by left; eexists|by apply Bytes_back].
  - injection E as <-. split; [by left; eexists|by apply Bytes_back].
  - injection E as <-. split; [by left; eexists|by apply byte_array_back].
  - rewrite Ht in E. destruct (ref_all _ vs) as [c|] eqn:Ec; [|done]. injection E as <-. pose proof (blen_rlp_list c).
    destruct (elems_decode e vs c) as (outs & -> & Ho); [done..|lia|]. split; [by right; eexists|].
    cbn [decode]. rewrite Ht. by apply slice_back; [|apply decode_ends|].
  - rewrite Ht in E. destruct (ref_all _ vs) as [c|] eqn:Ec; [|done]. injection E as <-. pose proof (blen_rlp_list c).
    destruct (elems_decode e vs c) as (outs & -> & Ho); [done..|lia|]. split; [by right; eexists|]. by apply array_back.
  - eapply decode_struct; [exact Hd|exact Hk| |exact E|done].
    intros es Hl. rewrite Forall_forall in IH. by apply (IH _ (last_Some_elem_of _ _ Hl)).
  - eapply decode_struct; [exact Hd|exact Hk| |exact E|done].
    intros es' Hl. rewrite Forall_forall in IH. by apply (IH _ (last_Some_elem_of _ _ Hl)).
  - injection E as <-. cbn [decode]. replace (nilOK ts) with true. split; [|by apply optional_nil].
    match goal with H : ref_nil e ≠ [] |- _ => revert H end. clear. intros Hn.
    induction e; simpl in *; first [done | by apply IHe | by left; exists [] | by right; exists []].
  - cbn [decode]. destruct (proj1 IH no_tags e out) as [Hs Hr]; [done..|]. split; [done|]. replace (nilOK ts) with false.
    intros s rr st Hfr Hf. destruct (Hr s rr st Hfr Hf) as (s' & E' & H'). exists s'. by rewrite (bind_ok _ _ _ _ _ E').
  - cbn [decode]. destruct (proj1 IH no_tags e out) as [Hs Hr]; [done..|]. split; [done|]. replace (nilOK ts) with true.
    apply optional_some; try done; intros ->; done.
  - by apply (iface_decode _ (nilOK ts)).
  - by apply (iface_decode _ (nilOK ts)).
Qed.

(** What is read back is well typed, and has an encoding. *)
Definition storable (v : gval) : Prop := ∀ n t, keeps n t v → wt t v ∧ ∀ ts, is_Some (match ref ts t v with inl out => Some out | inr _ => None end).

Lemma storable_all e vs : Forall storable vs → Forall (keeps false e) vs → Forall (wt e) vs ∧ ∃ c, ref_all (ref no_tags e) vs = inl c.
Proof.
  intros Hs Hk. induction Hk as [|v vs Hv Hk IH]; [split; [done|by eexists]|].
  apply Forall_cons in Hs as [Hs Hss]. destruct (IH Hss) as [Hw [c Ec]]. destruct (Hs false e Hv) as [Hwv Hr]. split; [by constructor|].
  specialize (Hr no_tags). destruct (ref no_tags e v) as [out|] eqn:Ev; [|by destruct Hr].
  exists (out ++ c). change (app_res (ref no_tags e v) (ref_all (ref no_tags e) vs) = inl (out ++ c)). by rewrite Ev, Ec.
Qed.

Lemma storable_fields fields vs : Forall storable vs → Forall2 (λ f v, tail f.1 = false ∧ keeps (nilOK f.1) f.2 v) fields vs →
  Forall2 (λ f v, wt f.2 v) fields vs ∧ ∃ c, ref_fields ref fields vs = inl c.
Proof.
  intros Hs Hk. induction Hk as [|[ts t] v fields vs [Ht Hv] Hk IH]; [split; [done|by eexists]|].
  apply Forall_cons in Hs as [Hs Hss]. destruct (IH Hss) as [Hw [c Ec]]. destruct (Hs _ t Hv) as [Hwv Hr]. split; [by constructor|].
  specialize (Hr ts). destruct (ref ts t v) as [out|] eqn:Ev; [|by destruct Hr].
  exists (out ++ c). change (app_res (ref ts t v) (ref_fields ref fields vs) = inl (out ++ c)). by rewrite Ev, Ec.
Qed.

Lemma keeps_storable v : storable v ∧ ∀ vs, v = VList vs → Forall storable vs.
Proof.
  induction v as [b|i|i|b|b|vs IH| |v IH| |t' v IH] using gval_nested_ind;
    try (assert (Hd : Forall storable vs) by (eapply Forall_impl; [exact IH|]; by intros ? [? _]));
    (split; [intros n t Hk; inversion Hk; subst|try done; intros ? [= <-]; exact Hd]).
  all: try (split; [by constructor|intros ts; simpl; by eexists]).
  - split; [constructor|]. intros ts. simpl. rewrite (proj2 (Z.ltb_ge _ _)) by done. by eexists.
  - destruct (storable_all e vs Hd) as [Hw [c Ec]]; [done|]. split; [by constructor|]. intros ts. cbn [ref]. rewrite Ec. by destruct (tail ts); eexists.
  - destruct (storable_all e vs Hd) as [Hw [c Ec]]; [done|]. split; [by constructor|]. intros ts. cbn [ref]. rewrite Ec. by destruct (tail ts); eexists.
  - destruct (storable_fields fields vs Hd) as [Hw [c Ec]]; [done|]. split; [by constructor|]. intros ts. cbn [ref]. rewrite Ec. by eexists.
  - apply Forall_app in Hd as [Hd _]. rewrite Forall_app, Forall_singleton in IH. destruct IH as [_ [_ Hes]].
    destruct (storable_fields fields vs0 Hd) as [Hw [c Ec]]; [done|]. destruct (storable_all e es) as [Hwe [ce Ece]]; [by apply Hes|done|].
    split; [constructor; apply Forall2_app; [done|by repeat constructor]|]. intros ts'. cbn [ref].
    rewrite (ref_fields_snoc_ok _ _ _ _ _ _ c ce Ec); [by eexists|]. cbn [ref]. rewrite Ece. by replace (tail ts) with true.
  - split; [constructor; by eapply (proj1 IH)|]. intros ts. by eapply (proj1 IH).
  - split; [constructor; by eapply (proj1 IH)|]. intros ts. by eapply (proj1 IH).
  - split; [constructor; constructor|]. intros ts. by eexists.
  - destruct (storable_all TInterface vs) as [Hw [c Ec]]; [by apply (proj2 IH)|done|]. split; [by repeat constructor|].
    intros ts. change (is_Some (match map_res rlp_list (ref_all (ref no_tags TInterface) vs) with inl out => Some out | inr _ => None end)).
    rewrite Ec. by eexists.
Qed.

Lemma keeps_ref t v : keeps false t v → wt t v ∧ ∃ out, ref no_tags t v = inl out.
Proof.
  intros Hk. destruct (proj1 (keeps_storable v) false t Hk) as [Hw Hr]. specialize (Hr no_tags). split; [done|].
  destruct (ref no_tags t v) as [out|]; [by exists out|by destruct Hr].
Qed.

Lemma DecodeBytes_ref t v out : keeps false t v → ref no_tags t v = inl out → blen out < 2 ^ 63 → DecodeBytes t out = inl v.
Proof.
  intros Hk E Hb. destruct (proj1 (decode_back v) no_tags t out) as [Hs Hd]; [done..|].
  destruct (Hd (NewStream out (blen out)) [] []) as (s & Es & [[Hs' _ _ _] _]); [|done|].
  { apply ready_front. rewrite app_nil_r. repeat constructor. simpl. by destruct (blen out >? 0). }
  unfold DecodeBytes. by rewrite Es, Hs'.
Qed.

(** Different values have different encodings. *)
Lemma ref_inj t v v' out : keeps false t v → keeps false t v' → blen out < 2 ^ 63 → ref no_tags t v = inl out → ref no_tags t v' = inl out → v = v'.
Proof.
  intros Hk Hk' Hb E E'. pose proof (DecodeBytes_ref t v out Hk E Hb) as H. rewrite (DecodeBytes_ref t v' out Hk' E' Hb) in H. by injection H.
Qed.

(** C21: decoding the encoding of a value gives the value back.  This holds for every
    encodable Go type, nested at will, and every value that RLP represents ([keeps]):
    the encoder succeeds on it, and the decoder, run on its output, returns it and
    leaves nothing over. *)
Theorem rlp_roundtrip t v :
  keeps false t v →
  ∃ out, ref no_tags t v = inl out ∧
    (blen out < 2 ^ 63 → EncodeToBytes t v = Ret (inl out) ∧ DecodeBytes t out = inl v).
Proof.
  intros Hk. destruct (keeps_ref t v Hk) as (Hw & out & E). exists out. split; [done|]. intros Hb.
  split; [by apply Encode_ref|by apply DecodeBytes_ref].
Qed.

Lemma sample_value_keeps : keeps false sample_type sample_value.
Proof.
  apply kp_struct. constructor; [split; [done|apply kp_uint; [by do 3 right; left|done]]|repeat constructor; done].
Qed.

Lemma rlp_roundtrip_witness :
  DecodeBytes sample_type (byte_of <$> [0xCC; 0x82; 4; 0; 7; 0x80; 0xC6; 0x83; 100; 111; 103; 0x81; 200]) = inl sample_value.
Proof.
  destruct (rlp_roundtrip sample_type sample_value sample_value_keeps) as (out & E & H).
  injection E as <-. exact (proj2 (H eq_refl)).
Defined.
