(* ===== verification/RlpCanon.v ===== *)
(** * One encoding per value

    What the decoder accepts is what the encoder writes. *)

From S2P Require Import Prelude Interfaces StateTypes Hex VmData Rlp RlpLayout RlpStream.
From S2P Require Import RlpRead RlpRoundtrip.

(** ** The end of a list is only noticed before a value *)

Definition never_eol {A} (m : RM A) : Prop := ∀ s s', m s ≠ (inr EOL, s').
Definition eol_first {A} (m : RM A) : Prop := ∀ s s', m s = (inr EOL, s') → Kind_of s = (inr EOL, s').

Lemma never_fail {A} err : err ≠ EOL → never_eol (fail (A := A) err).
Proof. intros Hne s s' [= E _]. done. Qed.
Lemma never_ret {A} (a : A) : never_eol (mret a).
Proof. by intros s s'. Qed.
Lemma never_get : never_eol get_s.
Proof. by intros s s'. Qed.
Lemma never_mod f : never_eol (mod_s f).
Proof. by intros s s'. Qed.
Lemma never_bind {A B} (m : RM A) (k : A → RM B) : never_eol m → (∀ a, never_eol (k a)) → never_eol (m ≫= k).
Proof.
  intros Hm Hk s s' E. unfold mbind, RM_bind in E. destruct (m s) as [[a|err] s1] eqn:Em; [by eapply Hk|].
  injection E as -> ->. by eapply Hm.
Qed.
Create HintDb eol.
#[export] Hint Resolve never_fail never_ret never_get never_mod never_bind : eol.

Ltac never := repeat first
  [ progress intros | apply never_bind | apply never_ret | apply never_get | apply never_mod
  | (apply never_fail; discriminate) | case_match | assumption ].

Lemma never_willRead n : never_eol (willRead n).
Proof. unfold willRead, rearm. never. Qed.
Lemma never_readFull n : never_eol (readFull n).
Proof. unfold readFull. apply never_bind; [apply never_willRead|]. never. Qed.
Lemma never_readByte : never_eol readByte.
Proof. unfold readByte. apply never_bind; [apply never_willRead|]. never. Qed.
Lemma never_readUint n : never_eol (readUint n).
Proof.
  unfold readUint, rearm. destruct (n =? 0); [never|]. destruct (n =? 1); [apply never_readByte|].
  apply never_bind; [apply never_readFull|]. never.
Qed.
Lemma never_ListEnd : never_eol ListEnd.
Proof. unfold ListEnd. never. Qed.
Lemma never_wrapped {A} (m : RM A) : never_eol m → never_eol (wrapped m).
Proof.
  intros H s s' E. unfold wrapped in E. destruct (m s) as [[a|err] s1] eqn:Em; [done|]. injection E as E ->.
  destruct err; try done. by eapply H.
Qed.

Lemma first_bind {A B} (m : RM A) (k : A → RM B) : eol_first m → (∀ a, never_eol (k a)) → eol_first (m ≫= k).
Proof.
  intros Hm Hk s s' E. unfold mbind, RM_bind in E. destruct (m s) as [[a|err] s1] eqn:Em; [by apply Hk in E|].
  injection E as -> ->. by apply Hm.
Qed.
Lemma first_kind : eol_first Kind_of.
Proof. by intros s s'. Qed.
Lemma first_wrapped {A} (m : RM A) : eol_first m → eol_first (wrapped m).
Proof.
  intros H s s' E. unfold wrapped in E. destruct (m s) as [[a|err] s1] eqn:Em; [done|]. injection E as E ->.
  destruct err; try done. by apply H.
Qed.

Lemma first_Bytes : eol_first Bytes.
Proof.
  apply first_bind; [apply first_kind|]. intros [[] n]; unfold rearm; never.
Qed.
Lemma first_Raw : eol_first Raw.
Proof. apply first_bind; [apply first_kind|]. intros [[] n]; unfold rearm; never. Qed.
Lemma first_uint bits : eol_first (stream_uint bits).
Proof.
  apply first_bind; [apply first_kind|]. intros [[] n]; unfold rearm; never.
  intros s s' E. destruct (readUint n s) as [[v|err] s1] eqn:Er; [by destruct (_ && _)|].
  pose proof (never_readUint n s s1) as Hn. destruct err; simplify_eq/=.
Qed.
Lemma first_List : eol_first stream_List.
Proof. apply first_bind; [apply first_kind|]. intros [[] n]; never. Qed.

Lemma never_elems dec fuel acc : never_eol (decodeSliceElems dec fuel acc).
Proof.
  revert acc. induction fuel as [|fuel IH]; intros acc s s'; simpl; [done|].
  destruct (dec s) as [[v|err] s1]; [apply IH|]. by destruct err.
Qed.
Lemma never_array dec n : never_eol (decode_array_elems dec n).
Proof.
  induction n as [|n IH]; intros s s'; simpl; [done|]. destruct (dec s) as [[v|err] s1]; [|by destruct err].
  destruct (decode_array_elems dec n s1) as [[vs|err] s2] eqn:E; [done|]. intros [= -> ->]. by eapply IH.
Qed.
Lemma never_fields dec fields : never_eol (decode_fields dec fields).
Proof.
  induction fields as [|[ts t] fields IH]; intros s s'; [done|]. rewrite decode_fields_cons.
  destruct (dec ts t s) as [[v|err] s1]; [|by destruct err].
  destruct (decode_fields dec fields s1) as [[vs|err] s2] eqn:E; [done|]. intros [= -> ->]. by eapply IH.
Qed.

Lemma first_slice dec : eol_first (decodeListSlice dec).
Proof.
  apply first_bind; [apply first_wrapped, first_List|]. intros k. destruct (k =? 0); never. intros s s'. apply never_elems.
Qed.

Lemma first_iface fuel : eol_first (decodeInterface fuel).
Proof.
  destruct fuel as [|fuel]; intros s s' E; [done|]. cbn [decodeInterface] in E.
  destruct (Kind_of s) as [[[k n]|err] s1] eqn:Ek; [|by rewrite (bind_fails _ _ _ _ _ Ek) in E; injection E as -> ->].
  rewrite (bind_ok _ _ _ _ _ Ek) in E. apply Kind_again in Ek. exfalso.
  assert (H : ∀ A B (m : RM A) (f : A → B), eol_first m → (x ← m; mret (f x)) s1 ≠ (inr EOL, s')).
  { intros A B m f Hm E'. unfold mbind, RM_bind in E'. destruct (m s1) as [[a|err] s2] eqn:Em; [done|]. injection E' as -> ->.
    apply Hm in Em. congruence. }
  destruct k; eapply H in E; (done || apply first_Bytes || apply first_slice).
Qed.

Lemma decode_eol_first t : eol_first (decode no_tags t).
Proof.
  induction t; cbn [decode no_tags tail nilOK].
  - apply first_bind; [apply first_Raw|]. never.
  - apply first_bind; [apply first_wrapped, first_Bytes|]. never.
  - apply first_bind; [apply first_wrapped, first_uint|]. never.
  - apply first_bind; [apply first_wrapped, first_bind; [apply first_uint|]|]; never.
  - apply first_bind; [apply first_wrapped, first_Bytes|]. never.
  - apply first_bind; [apply first_wrapped, first_Bytes|]. never.
  - apply first_bind; [apply first_kind|]. intros [[] k]; never. intros s s'. by destruct (stream_uint 64 s).
  - apply first_slice.
  - apply first_bind; [apply first_wrapped, first_List|]. never; [apply never_array|apply never_wrapped, never_ListEnd].
  - apply first_bind; [apply first_wrapped, first_List|]. never; [apply never_fields|apply never_wrapped, never_ListEnd].
  - apply first_bind; [done|]. never.
  - intros s s'. apply first_iface.
Qed.

Lemma sized_eol k n s k' n' s' : sized k n s ≠ ((k', n', Some EOL), s').
Proof.
  unfold sized. destruct (readUint n s) as [[v|err] s1] eqn:E; [by destruct (v <? 56)|].
  intros [= _ _ -> ->]. by apply never_readUint in E.
Qed.

Lemma readKind_eol s k n s' : stream_readKind s ≠ ((k, n, Some EOL), s').
Proof.
  unfold stream_readKind. destruct (readByte s) as [[b|err] s1] eqn:E.
  - repeat (destruct (_ <? _); [by try apply sized_eol|]). apply sized_eol.
  - pose proof (never_readByte s s1) as Hn. destruct err; destruct (stack s1); simplify_eq/=; congruence.
Qed.

Lemma Kind_eol_inv s rr st s' : ready s rr st → Kind_of s = (inr EOL, s') → ready s' rr st.
Proof.
  intros [[H1 H2 H3 H4] Hk] E. unfold Kind_of in E. rewrite Hk, H4 in E.
  destruct (match head st with Some _ => _ | None => _ end); [injection E as <-; by repeat constructor|].
  destruct (stream_readKind _) as [[[k n] err] s1] eqn:Er. exfalso.
  destruct err as [err|]; [injection E as -> _; by apply readKind_eol in Er|].
  destruct (head (stack s1)) as [tos|]; [destruct (_ >? _)|destruct (_ && _)]; done.
Qed.

(** ** What an accepted value looks like *)

(** A successful read of [a] from [rr], which the encoding [enc a] starts. *)
Definition takes {A} (m : RM A) (enc : A → bytes → Prop) : Prop := ∀ s rr st a s',
  ready s rr st → fits 0 st → m s = (inl a, s') →
  ∃ out rr', rr = out ++ rr' ∧ enc a out ∧ fits (blen out) st ∧ ready s' rr' (consume (blen out) st).

Lemma takes_map {A B} (m : RM A) (f : A → B) (enc : A → bytes → Prop) (enc' : B → bytes → Prop) :
  takes m enc → (∀ a out, enc a out → enc' (f a) out) → takes (x ← m; mret (f x)) enc'.
Proof.
  intros Hm Hf s rr st b s' Hr Hfit E. unfold mbind, RM_bind in E. destruct (m s) as [[a|err] s1] eqn:Em; [|done].
  injection E as <- <-. destruct (Hm _ _ _ _ _ Hr Hfit Em) as (out & rr' & ? & ? & ? & ?). exists out, rr'. auto.
Qed.

Lemma takes_wrapped {A} (m : RM A) enc : takes m enc → takes (wrapped m) enc.
Proof.
  intros Hm s rr st a s' Hr Hf E. unfold wrapped in E. destruct (m s) as [[x|err] s1] eqn:Em; [|done].
  injection E as <- <-. by eapply Hm.
Qed.

Lemma bind_inv {A B} (m : RM A) (k : A → RM B) s b s' : (m ≫= k) s = (inl b, s') → ∃ a s1, m s = (inl a, s1) ∧ k a s1 = (inl b, s').
Proof. unfold mbind, RM_bind. destruct (m s) as [[a|err] s1]; [eauto|done]. Qed.

Lemma wrapped_inv {A} (m : RM A) s a s' : wrapped m s = (inl a, s') → m s = (inl a, s').
Proof. unfold wrapped. by destruct (m s) as [[]]. Qed.

(** The parts of [Kind_inv]. *)
Lemma Kind_byte_inv s rr st n s' : ready s rr st → fits 0 st → Kind_of s = (inl (Byte, n), s') →
  ∃ x rr', rr = x :: rr' ∧ byte_val x < 0x80 ∧ fits 1 st ∧ opened s' Byte 0 (byte_val x) rr' (consume 1 st).
Proof. intros Hr Hf E. destruct (Kind_inv _ _ _ _ _ _ Hr Hf E) as (x & rr' & ? & ? & ? & ? & ?). eauto 10. Qed.
Lemma Kind_head_inv s rr st k n s' : ready s rr st → fits 0 st → k ≠ Byte → Kind_of s = (inl (k, n), s') →
  ∃ rr', rr = header k n ++ rr' ∧ 0 ≤ n < 2 ^ 64 ∧ fits (headsize n + n) st ∧ opened s' k n 0 rr' (consume (headsize n) st).
Proof. intros Hr Hf Hk E. pose proof (Kind_inv _ _ _ _ _ _ Hr Hf E) as H. destruct k; [done|exact H|exact H]. Qed.

(** The content behind a header. *)
Lemma content_inv s k n rr st b s' :
  opened s k n 0 rr (consume (headsize n) st) → k ≠ Byte → 0 ≤ n < 2 ^ 64 → fits (headsize n + n) st → readFull n s = (inl b, s') →
  ∃ rr', rr = b ++ rr' ∧ n = blen b ∧ ready s' rr' (consume (blen (header k n ++ b)) st).
Proof.
  intros Ho Hk Hn Hf E. pose proof (headsize_pos n Hn).
  destruct (readFull_inv n s rr (consume (headsize n) st) b s') as (rr' & -> & Hb & _ & Hr); [apply Ho| |lia|done|].
  { apply fits_consume; [lia|]. eapply fits_le; [|exact Hf]. lia. }
  exists rr'. split_and!; [done..|]. rewrite consume_consume in Hr. by rewrite blen_app, blen_header, <- Hb.
Qed.

Lemma Bytes_takes : takes Bytes (λ b out, out = rlp_string b).
Proof.
  intros s rr st b s' Hr Hf E. unfold Bytes in E. apply bind_inv in E as ([k n] & s1 & Ek & E). destruct k; [| |done].
  - destruct (Kind_byte_inv _ _ _ _ _ Hr Hf Ek) as (x & rr' & -> & Hx & Hf1 & [[H1 H2 H3 H4] ? ? Hb ?]).
    injection E as <- <-. rewrite Hb, byte_of_val by done. exists [x], rr'. split_and!; [done| |done|by repeat constructor].
    unfold rlp_string. by rewrite (proj2 (Z.leb_le _ _)) by lia.
  - destruct (Kind_head_inv s _ st String n s1 Hr Hf ltac:(done) Ek) as (rr1 & -> & Hn & Hfn & Ho).
    apply bind_inv in E as (b1 & s2 & Er & E).
    destruct (content_inv s1 String n rr1 st b1 s2) as (rr2 & -> & -> & Hr2); [done..|].
    destruct ((blen b1 =? 1) && _) eqn:Ec; [done|]. injection E as <- <-.
    assert (rlp_string b1 = header String (blen b1) ++ b1) as Es.
    { unfold rlp_string. destruct b1 as [|x [|y b1]]; [done| |done]. destruct (Z.leb_spec (byte_val x) 127); [|done].
      change (blen [x] =? 1) with true in Ec. simpl in Ec. apply Z.ltb_ge in Ec. lia. }
    exists (rlp_string b1), rr2. rewrite Es. split_and!; [by rewrite app_assoc|done| |done].
    by rewrite blen_app, blen_header.
Qed.

Lemma Raw_takes : takes Raw (λ b out, out = b).
Proof.
  intros s rr st b s' Hr Hf E. unfold Raw in E. apply bind_inv in E as ([k n] & s1 & Ek & E).
  assert (Hc : k ≠ Byte → (b1 ← readFull n; mret (header k n ++ b1)) s1 = (inl b, s') →
    ∃ out rr', rr = out ++ rr' ∧ out = b ∧ fits (blen out) st ∧ ready s' rr' (consume (blen out) st)).
  { intros Hk E'. destruct (Kind_head_inv _ _ _ _ _ _ Hr Hf Hk Ek) as (rr1 & -> & Hn & Hfn & Ho).
    apply bind_inv in E' as (b1 & s2 & Er & E').
    destruct (content_inv s1 k n rr1 st b1 s2) as (rr2 & -> & -> & Hr2); [done..|]. injection E' as <- <-.
    exists (header k (blen b1) ++ b1), rr2. split_and!; [by rewrite app_assoc|done| |done]. by rewrite blen_app, blen_header. }
  destruct k; [|by apply Hc|by apply Hc].
  destruct (Kind_byte_inv _ _ _ _ _ Hr Hf Ek) as (x & rr' & -> & Hx & Hf1 & [[H1 H2 H3 H4] ? ? Hb ?]).
  injection E as <- <-. rewrite Hb, byte_of_val by done. exists [x], rr'. split_and!; [done|done|done|by repeat constructor].
Qed.

(** The encoding of a number that fits in [bits]. *)
Definition uint_enc (bits i : Z) (out : bytes) : Prop := 0 ≤ i < 2 ^ bits ∧ out = rlp_string (big_Bytes i).

Lemma bits_bound bits n : In bits [8; 16; 32; 64] → n ≤ bits / 8 → 256 ^ n ≤ 2 ^ bits.
Proof.
  intros Hb Hn. assert (2 ^ bits = 256 ^ (bits / 8)) as -> by (by destruct Hb as [<-|[<-|[<-|[<-|[]]]]]).
  apply Z.pow_le_mono_r; lia.
Qed.

Lemma rlp_string_be_val x b : byte_val x ≠ 0 → 128 ≤ be_val (x :: b) →
  rlp_string (big_Bytes (be_val (x :: b))) = header String (blen (x :: b)) ++ x :: b.
Proof.
  intros Hx Hv. rewrite big_Bytes_be_val by done. unfold rlp_string. destruct b as [|y b]; [|done].
  change (be_val [x]) with (byte_val x) in Hv. by rewrite (proj2 (Z.leb_gt _ _)) by lia.
Qed.

Lemma uint_takes bits : In bits [8; 16; 32; 64] → takes (stream_uint bits) (uint_enc bits).
Proof.
  intros Hbits s rr st i s' Hr Hf E. unfold stream_uint in E.
  apply bind_inv in E as ([k n] & s1 & Ek & E).
  destruct k; [| |done].
  - destruct (Kind_byte_inv _ _ _ _ _ Hr Hf Ek) as (x & rr' & -> & Hx & Hf1 & [[H1 H2 H3 H4] ? ? Hb ?]). pose proof (byte_val_range x).
    unfold mbind, RM_bind, get_s in E. rewrite Hb in E by done. destruct (Z.eqb_spec (byte_val x) 0); [done|]. injection E as <- <-.
    exists [x], rr'. split_and!; [done| |done|by repeat constructor]. split.
    + pose proof (bits_bound bits 1 Hbits) as Hbb. assert (1 ≤ bits / 8) by (by destruct Hbits as [<-|[<-|[<-|[<-|[]]]]]). lia.
    + change (byte_val x) with (be_val [x]). rewrite big_Bytes_be_val by done. unfold rlp_string. by rewrite (proj2 (Z.leb_le _ _)) by lia.
  - destruct (Kind_head_inv s _ st String n s1 Hr Hf ltac:(done) Ek) as (rr1 & -> & Hn & Hfn & Ho).
    destruct (Z.gtb_spec n (bits / 8)) as [|Hnb]; [done|]. destruct (readUint n s1) as [[v|err] s2] eqn:Er; [|by destruct err].
    destruct ((n >? 0) && (v <? 128)) eqn:Ec; [done|]. injection E as <- <-.
    destruct (Z.eq_dec n 0) as [->|Hn0].
    { cbn in Er. injection Er as <- <-. exists (header String 0), rr1. destruct Ho as [[H1 H2 H3 H4] ? ? ? ?].
      split_and!; [done| |done|by repeat constructor]. split; [|done]. split; [done|apply Z.pow_pos_nonneg; [lia|]].
      by destruct Hbits as [<-|[<-|[<-|[<-|[]]]]]. }
    assert (headsize n = 1) as Hh by (unfold headsize; rewrite (proj2 (Z.ltb_lt _ _)); [done|]; destruct Hbits as [<-|[<-|[<-|[<-|[]]]]]; change (8 / 8) with 1 in *; change (16 / 8) with 2 in *; change (32 / 8) with 4 in *; change (64 / 8) with 8 in *; lia).
    destruct (readUint_inv n s1 rr1 (consume (headsize n) st) v s2) as (x & b & rr2 & -> & Hnl & -> & Hx & _ & Hr2);
      [apply Ho|apply fits_consume; [lia|eapply fits_le; [|exact Hfn]; lia]|lia|done|].
    rewrite Z.gtb_ltb, (proj2 (Z.ltb_lt 0 n)) in Ec by lia. simpl in Ec. apply Z.ltb_ge in Ec.
    assert (Hx0 : byte_val x ≠ 0). { destruct Hx as [Hx|]; [|done]. rewrite Hnl, blen_cons in Hx. destruct b as [|y b]; [|rewrite blen_cons in Hx; pose proof (blen_nonneg b); lia].
      change (be_val [x]) with (byte_val x) in Ec. lia. }
    exists (header String n ++ x :: b), rr2. rewrite consume_consume in Hr2. rewrite blen_app, blen_header, <- Hnl by done.
    split_and!; [by rewrite <- app_assoc| |done|done]. split; [|by rewrite rlp_string_be_val, <- Hnl].
    pose proof (be_val_bound (x :: b)) as Hv. rewrite <- Hnl in Hv. pose proof (bits_bound bits n Hbits Hnb). lia.
Qed.

Lemma bool_takes : takes stream_Bool (λ (b : bool) out, out = rlp_string (if b then [byte_of 1] else [])).
Proof.
  intros s rr st b s' Hr Hf E. unfold stream_Bool in E. apply bind_inv in E as (i & s1 & Eu & E). destruct (uint_takes 8 ltac:(by left) _ _ _ _ _ Hr Hf Eu) as (out & rr' & -> & [Hi ->] & Hfo & Hr').
  destruct (Z.eqb_spec i 0) as [->|]; [injection E as <- <-; by exists (rlp_string []), rr'|].
  destruct (Z.eqb_spec i 1) as [->|]; [|done]. injection E as <- <-. by exists (rlp_string (big_Bytes 1)), rr'.
Qed.

Lemma big_takes : takes decodeBigInt (λ v out, ∃ i, v = VBig (Some i) ∧ 0 ≤ i ∧ out = rlp_string (big_Bytes i)).
Proof.
  intros s rr st v s' Hr Hf E. unfold decodeBigInt in E. apply bind_inv in E as (b & s1 & Eb & E). destruct (takes_wrapped _ _ Bytes_takes _ _ _ _ _ Hr Hf Eb) as (out & rr' & -> & -> & Hfo & Hr').
  destruct b as [|x b]; [injection E as <- <-; exists (rlp_string []), rr'; split_and!; [done| |done..]; by exists 0|].
  destruct (Z.eqb_spec (byte_val x) 0) as [|Hx]; [done|]. injection E as <- <-. exists (rlp_string (x :: b)), rr'. split_and!; [done| |done..].
  exists (be_val (x :: b)). rewrite big_Bytes_be_val by done. split_and!; [done|apply be_val_bound|done].
Qed.

Lemma byte_array_takes n : n ≠ 1%nat → takes (decodeByteArray n) (λ v out, ∃ b, v = VBytes b ∧ length b = n ∧ out = rlp_string b).
Proof.
  intros Hn1 s rr st v s' Hr Hf E. unfold decodeByteArray in E.
  apply bind_inv in E as ([k m] & s1 & Ek & E).
  destruct k; [| |done].
  - destruct (Nat.eqb_spec n 0); [done|]. destruct (Nat.ltb_spec 1 n); [done|lia].
  - destruct (Z.ltb_spec (Z.of_nat n) m); [done|]. destruct (Z.gtb_spec (Z.of_nat n) m); [done|].
    destruct (Kind_head_inv s _ st String m s1 Hr Hf ltac:(done) Ek) as (rr1 & -> & Hm & Hfm & Ho).
    assert (Z.of_nat n = m) as Hnm by lia. rewrite Hnm in E.
    apply bind_inv in E as (b & s2 & Er & E).
    destruct (content_inv s1 String m rr1 st b s2) as (rr2 & -> & Hb & Hr2); [done..|].
    rewrite (proj2 (Z.eqb_neq _ _)) in E by lia. injection E as <- <-.
    assert (Hl : length b = n) by (unfold blen in Hb; lia).
    assert (rlp_string b = header String m ++ b) as Es by (rewrite Hb; destruct b as [|x [|y b]]; [done|simpl in Hl; lia|done]).
    exists (rlp_string b), rr2. rewrite Es. split_and!; [by rewrite app_assoc|by exists b|by rewrite blen_app, blen_header, <- Hb|done].
Qed.

(** ** Lists *)

Lemma List_inv s rr st n s1 : ready s rr st → fits 0 st → wrapped stream_List s = (inl n, s1) →
  ∃ rr', rr = header List n ++ rr' ∧ 0 ≤ n < 2 ^ 64 ∧ fits (headsize n + n) st ∧ ready s1 rr' (mkListpos 0 n :: consume (headsize n) st).
Proof.
  intros Hr Hf E. apply wrapped_inv in E. apply bind_inv in E as ([k m] & s2 & Ek & E). destruct k; [done|done|].
  destruct (Kind_head_inv s _ st List m s2 Hr Hf ltac:(done) Ek) as (rr1 & -> & Hm & Hfm & [[H1 H2 H3 H4] ? ? ? ?]).
  injection E as <- <-. exists rr1. split_and!; [done|lia|lia|done|]. repeat constructor; simpl; try done. by rewrite H4.
Qed.

Lemma ListEnd_inv s rr p n m st s' u :
  ready s rr (mkListpos p n :: consume m st) → 0 ≤ m → 0 ≤ n → fits (m + n) st → ListEnd s = (inl u, s') →
  p = n ∧ ready s' rr (consume (m + n) st).
Proof.
  intros Hr Hm Hn Hf E. assert (p = n) as ->.
  { destruct Hr as [[_ _ _ H4] _]. unfold ListEnd, mbind, RM_bind, get_s in E. rewrite H4 in E. simpl in E.
    by destruct (Z.eqb_spec p n). }
  destruct (ListEnd_run s rr n m st Hr Hm Hn Hf) as (s2 & E2 & H2). rewrite E2 in E. injection E as _ <-. done.
Qed.

(** A list whose content [body] reads. *)
Definition within {A} (body : RM A) (enc : A → bytes → Prop) : Prop := ∀ s rr p n st a s',
  ready s rr (mkListpos p n :: st) → 0 ≤ p ≤ n → n < 2 ^ 64 → body s = (inl a, s') →
  ∃ out rr', rr = out ++ rr' ∧ enc a out ∧ p + blen out ≤ n ∧ ready s' rr' (mkListpos (p + blen out) n :: st).

Lemma frame_takes {A} (body : RM A) enc s rr st n s1 a s2 u s3 :
  within body enc → ready s rr st → fits 0 st → wrapped stream_List s = (inl n, s1) → body s1 = (inl a, s2) → ListEnd s2 = (inl u, s3) →
  ∃ c rr', rr = rlp_list c ++ rr' ∧ n = blen c ∧ enc a c ∧ fits (blen (rlp_list c)) st ∧ ready s3 rr' (consume (blen (rlp_list c)) st).
Proof.
  intros Hb Hr Hf E1 E2 E3. destruct (List_inv _ _ _ _ _ Hr Hf E1) as (rr1 & -> & Hn & Hfn & H1). pose proof (headsize_pos n Hn).
  destruct (Hb s1 rr1 0 n _ a s2 H1 ltac:(lia) ltac:(lia) E2) as (c & rr2 & -> & Hc & Hle & H2).
  destruct (ListEnd_inv _ _ _ _ (headsize n) st _ _ H2 ltac:(lia) ltac:(lia) Hfn E3) as [Hcn H3].
  assert (Hl : rlp_list c = header List n ++ c) by (unfold rlp_list; by rewrite <- Hcn, Z.add_0_l).
  exists c, rr2. rewrite Hl, blen_app, blen_header, <- (Z.add_0_l (blen c)), Hcn by done. split_and!; [by rewrite <- app_assoc|done..].
Qed.

Lemma takes_within {A} (m : RM A) enc : takes m enc → within m enc.
Proof.
  intros Hm s rr p n st a s' Hr Hp Hn E. destruct (Hm s rr (mkListpos p n :: st) a s' Hr) as (out & rr' & -> & Ha & Hf & Hr'); [simpl; lia|done|].
  exists out, rr'. simpl in Hf. split_and!; [done|done|lia|]. unfold consume in Hr'. simpl in Hr'. by rewrite Z.add_comm.
Qed.

(** The elements of a list, each encoded by one of [outs]. *)
Definition enc_all (enc : gval → bytes → Prop) (vs : list gval) (out : bytes) : Prop :=
  ∃ outs, out = mjoin outs ∧ Forall2 enc vs outs.

Lemma enc_all_nil enc : enc_all enc [] [].
Proof. by exists []. Qed.
Lemma enc_all_cons enc v vs o out : enc v o → enc_all enc vs out → enc_all enc (v :: vs) (o ++ out).
Proof. intros Hv (outs & -> & Ho). exists (o :: outs). split; [done|by constructor]. Qed.

Lemma within_nil {A} (a : A) (enc : A → bytes → Prop) : enc a [] → within (mret (M := RM) a) enc.
Proof.
  intros Ha s rr p n st a' s' Hr Hp Hn [= <- <-]. exists [], rr. change (blen []) with 0. rewrite Z.add_0_r. split_and!; [done..|lia|done].
Qed.

Section Lists.
Variables (dec : RM gval) (enc : gval → bytes → Prop).
Hypothesis Hdec : takes dec enc.

Lemma elems_within fuel acc : eol_first dec →
  within (decodeSliceElems dec fuel acc) (λ vs out, ∃ vs', vs = acc ++ vs' ∧ enc_all enc vs' out).
Proof.
  intros He. revert acc. induction fuel as [|fuel IH]; intros acc s rr p n st vs s' Hr Hp Hn E; [done|]. cbn [decodeSliceElems] in E.
  destruct (dec s) as [[v|err] s1] eqn:Ed.
  - destruct (takes_within _ _ Hdec _ _ _ _ _ _ _ Hr Hp Hn Ed) as (o & rr1 & -> & Hv & Hle & H1). pose proof (blen_nonneg o).
    destruct (IH (acc ++ [v]) s1 rr1 (p + blen o) n st vs s' H1 ltac:(lia) Hn E) as (out & rr2 & -> & (vs' & -> & Ho) & Hle2 & H2).
    exists (o ++ out), rr2. rewrite blen_app, Z.add_assoc. split_and!; [by rewrite app_assoc| |lia|done].
    exists (v :: vs'). split; [by rewrite <- app_assoc|by apply enc_all_cons].
  - destruct err; try done. injection E as <- <-. apply He, (Kind_eol_inv _ _ _ _ Hr) in Ed.
    exists [], rr. change (blen []) with 0. rewrite Z.add_0_r. split_and!; [done| |lia|done]. exists []. rewrite app_nil_r. split; [done|apply enc_all_nil].
Qed.

Lemma slice_elems_within : eol_first dec → within (slice_elems dec) (enc_all enc).
Proof.
  intros He s rr p n st vs s' Hr Hp Hn E. destruct (elems_within _ [] He s rr p n st vs s' Hr Hp Hn E) as (out & rr' & ? & (vs' & -> & ?) & ? & ?).
  exists out, rr'. done.
Qed.

Lemma array_within k : within (decode_array_elems dec k) (λ vs out, length vs = k ∧ enc_all enc vs out).
Proof.
  induction k as [|k IH]; intros s rr p n st vs s' Hr Hp Hn E; cbn [decode_array_elems] in E.
  { apply (within_nil [] (λ vs out, length vs = 0%nat ∧ enc_all enc vs out)) with (s := s) (st := st); try done. split; [done|apply enc_all_nil]. }
  destruct (dec s) as [[v|err] s1] eqn:Ed; [|by destruct err].
  destruct (takes_within _ _ Hdec _ _ _ _ _ _ _ Hr Hp Hn Ed) as (o & rr1 & -> & Hv & Hle & H1). pose proof (blen_nonneg o).
  destruct (decode_array_elems dec k s1) as [[vs'|err] s2] eqn:Ea; [|done]. injection E as <- <-.
  destruct (IH s1 rr1 (p + blen o) n st vs' s2 H1 ltac:(lia) Hn Ea) as (out & rr2 & -> & [Hl Ho] & Hle2 & H2).
  exists (o ++ out), rr2. rewrite blen_app, Z.add_assoc. split_and!; [by rewrite app_assoc|simpl; lia|by apply enc_all_cons|lia|done].
Qed.

Lemma slice_takes : eol_first dec → takes (decodeListSlice dec) (λ v out, ∃ vs c, v = VList vs ∧ out = rlp_list c ∧ enc_all enc vs c).
Proof.
  intros He s rr st v s' Hr Hf E. unfold decodeListSlice in E.
  apply bind_inv in E as (n & s1 & El & E).
  assert (Hfin : ∀ body : RM (list gval), within body (enc_all enc) → (vs ← body; ListEnd;; mret (VList vs)) s1 = (inl v, s') →
    ∃ out rr', rr = out ++ rr' ∧ (∃ vs c, v = VList vs ∧ out = rlp_list c ∧ enc_all enc vs c) ∧ fits (blen out) st ∧ ready s' rr' (consume (blen out) st)).
  { intros body Hb E'. apply bind_inv in E' as (vs & s2 & Eb & E').
    apply bind_inv in E' as (u & s3 & Ee & E'). injection E' as <- <-.
    destruct (frame_takes body (enc_all enc) s rr st n s1 vs s2 u s3) as (c & rr' & -> & _ & Hc & Hfc & Hr'); [done..|].
    exists (rlp_list c), rr'. split_and!; [done| |done|done]. by exists vs, c. }
  destruct (n =? 0); [|by apply (Hfin (slice_elems dec)); [apply slice_elems_within|]].
  apply (Hfin (mret [])); [apply within_nil, enc_all_nil|exact E].
Qed.

Lemma array_takes k : takes (decodeListArray k dec) (λ v out, ∃ vs c, v = VList vs ∧ length vs = k ∧ out = rlp_list c ∧ enc_all enc vs c).
Proof.
  intros s rr st v s' Hr Hf E. unfold decodeListArray in E.
  apply bind_inv in E as (n & s1 & El & E).
  apply bind_inv in E as (vs & s2 & Ea & E).
  apply bind_inv in E as (u & s3 & Ee & E). injection E as <- <-.
  assert (Ee' : ListEnd s2 = (inl u, s3)) by (unfold wrapped in Ee; by destruct (ListEnd s2) as [[]]).
  destruct (frame_takes _ _ s rr st n s1 vs s2 u s3 (array_within k)) as (c & rr' & -> & _ & [Hl Hc] & Hfc & Hr'); [done..|].
  exists (rlp_list c), rr'. split_and!; [done| |done|done]. by exists vs, c.
Qed.
End Lists.

(** The fields of a struct, each with its own encoding. *)
Fixpoint enc_fields (enc : tags → gtype → gval → bytes → Prop) (fields : list (tags * gtype)) (vs : list gval) (out : bytes) : Prop :=
  match fields, vs with
  | [], [] => out = []
  | (ts, t) :: fields, v :: vs => ∃ o out', out = o ++ out' ∧ enc ts t v o ∧ enc_fields enc fields vs out'
  | _, _ => False
  end.

Lemma fields_within (dec : tags → gtype → RM gval) enc fields :
  Forall (λ f, within (dec f.1 f.2) (enc f.1 f.2)) fields → within (decode_fields dec fields) (enc_fields enc fields).
Proof.
  induction 1 as [|[ts t] fields Hd _ IH]; [by apply (within_nil []) |].
  intros s rr p n st vs s' Hr Hp Hn E. rewrite decode_fields_cons in E. simpl in Hd.
  destruct (dec ts t s) as [[v|err] s1] eqn:Ed; [|by destruct err].
  destruct (decode_fields dec fields s1) as [[vs'|err] s2] eqn:Ef; [|done]. injection E as <- <-.
  destruct (Hd _ _ _ _ _ _ _ Hr Hp Hn Ed) as (o & rr1 & -> & Hv & Hle & H1). pose proof (blen_nonneg o).
  destruct (IH s1 rr1 (p + blen o) n st vs' s2 H1 ltac:(lia) Hn Ef) as (out & rr2 & -> & Ho & Hle2 & H2).
  exists (o ++ out), rr2. rewrite blen_app, Z.add_assoc. split_and!; [by rewrite app_assoc|by exists o, out|lia|done].
Qed.

(** ** Types with one encoding per value

    Not those with a pointer tagged [nil], which accepts both the empty string and
    the empty list for nil, and not arrays of one byte. *)
Inductive plain : gtype → Prop :=
| pl_raw : plain TRaw
| pl_big : plain TBig
| pl_uint bits : In bits [8; 16; 32; 64] → plain (TUint bits)
| pl_bool : plain TBool
| pl_string : plain TString
| pl_bytes : plain TBytes
| pl_byte_array n : n ≠ 1%nat → plain (TByteArray n)
| pl_slice e : plain e → plain (TSlice e)
| pl_array n e : plain e → plain (TArray n e)
| pl_struct fields :
    Forall (λ f, nilOK f.1 = false ∧ (tail f.1 = true → ∃ e, f.2 = TSlice e) ∧ plain f.2) fields → plain (TStruct fields)
| pl_ptr e : plain e → plain (TPtr e)
| pl_interface : plain TInterface.

Section TypeInd.
Variable P : gtype → Prop.
Hypothesis Hleaf : ∀ t, match t with TSlice _ | TArray _ _ | TStruct _ | TPtr _ => True | _ => P t end.
Hypothesis Hslice : ∀ e, P e → P (TSlice e).
Hypothesis Harray : ∀ n e, P e → P (TArray n e).
Hypothesis Hstruct : ∀ fields, Forall (λ f, P f.2) fields → P (TStruct fields).
Hypothesis Hptr : ∀ e, P e → P (TPtr e).

Fixpoint gtype_nested_ind (t : gtype) : P t :=
  match t with
  | TSlice e => Hslice e (gtype_nested_ind e)
  | TArray n e => Harray n e (gtype_nested_ind e)
  | TStruct fields => Hstruct fields ((fix go fs : Forall (λ f, P f.2) fs :=
      match fs with [] => Forall_nil_2 _ | f :: fs => Forall_cons_2 _ f fs (gtype_nested_ind f.2) (go fs) end) fields)
  | TPtr e => Hptr e (gtype_nested_ind e)
  | t => Hleaf t
  end.
End TypeInd.

(** The encoding of a typed value. *)
Definition encodes (ts : tags) (t : gtype) (v : gval) (out : bytes) : Prop := ref ts t v = inl out ∧ wt t v.

Lemma enc_all_ref e vs c : enc_all (encodes no_tags e) vs c → ref_all (ref no_tags e) vs = inl c ∧ Forall (wt e) vs.
Proof.
  intros (outs & -> & Ho). induction Ho as [|v o vs outs [Hv Hw] Ho [IH1 IH2]]; [done|]. split; [|by constructor].
  change (app_res (ref no_tags e v) (ref_all (ref no_tags e) vs) = inl (o ++ mjoin outs)). by rewrite Hv, IH1.
Qed.

Lemma enc_fields_ref fields vs c : enc_fields encodes fields vs c → ref_fields ref fields vs = inl c ∧ Forall2 (λ f v, wt f.2 v) fields vs.
Proof.
  revert vs c. induction fields as [|[ts t] fields IH]; intros [|v vs] c H; try done; [simpl in H; by subst|].
  destruct H as (o & out' & -> & [Hv Hw] & H). destruct (IH _ _ H) as [E1 E2]. split; [|by constructor].
  change (app_res (ref ts t v) (ref_fields ref fields vs) = inl (o ++ out')). by rewrite Hv, E1.
Qed.

(** Reading the kind first changes nothing. *)
Lemma bind_kind_again {B} (k : Kind * Z → RM B) s kn s1 : Kind_of s = (inl kn, s1) → (Kind_of ≫= k) s1 = (Kind_of ≫= k) s.
Proof. intros E. by rewrite (bind_ok _ _ _ _ _ E), (bind_ok _ _ _ _ _ (Kind_again _ _ _ E)). Qed.

Lemma slice_again dec s kn s1 : Kind_of s = (inl kn, s1) → decodeListSlice dec s1 = decodeListSlice dec s.
Proof.
  intros E. assert (H : wrapped stream_List s1 = wrapped stream_List s) by (unfold wrapped, stream_List; by rewrite (bind_kind_again _ _ _ _ E)).
  unfold decodeListSlice. unfold mbind at 1 4. unfold RM_bind. by rewrite H.
Qed.

Lemma iface_takes fuel : takes (decodeInterface fuel) (encodes no_tags TInterface).
Proof.
  induction fuel as [|fuel IH]; intros s rr st v s' Hr Hf E; [done|]. cbn [decodeInterface] in E.
  apply bind_inv in E as ([k n] & s1 & Ek & E).
  assert (HB : (b ← Bytes; mret (VIface (Some (TBytes, VBytes b)))) s1 = (inl v, s') →
    ∃ out rr', rr = out ++ rr' ∧ encodes no_tags TInterface v out ∧ fits (blen out) st ∧ ready s' rr' (consume (blen out) st)).
  { intros E'. apply bind_inv in E' as (b & s2 & Eb & E'). injection E' as <- <-. unfold Bytes in Eb. rewrite (bind_kind_again _ _ _ _ Ek) in Eb.
    destruct (Bytes_takes _ _ _ _ _ Hr Hf Eb) as (out & rr' & -> & -> & Hfo & Hr'). exists (rlp_string b), rr'.
    split_and!; [done| |done|done]. split; [done|by repeat constructor]. }
  destruct k; [by apply HB|by apply HB|]. clear HB. apply bind_inv in E as (w & s2 & Es & E). injection E as <- <-.
  rewrite (slice_again _ _ _ _ Ek) in Es.
  destruct (slice_takes _ _ IH (first_iface fuel) _ _ _ _ _ Hr Hf Es) as (out & rr' & -> & (vs & c & -> & -> & Hc) & Hfo & Hr').
  destruct (enc_all_ref _ _ _ Hc) as [Ec Hw]. exists (rlp_list c), rr'. split_and!; [done| |done|done].
  split; [|by repeat constructor]. change (map_res rlp_list (ref_all (ref no_tags TInterface) vs) = inl (rlp_list c)). by rewrite Ec.
Qed.

Lemma takes_wt {A} (m : RM A) (f : A → gval) enc ts t :
  takes m enc → (∀ a out, enc a out → encodes ts t (f a) out) → takes (x ← m; mret (f x)) (encodes ts t).
Proof. intros Hm Hf. by eapply takes_map. Qed.

Lemma struct_takes ts fields :
  Forall (λ f, within (decode f.1 f.2) (encodes f.1 f.2)) fields → takes (decode ts (TStruct fields)) (encodes ts (TStruct fields)).
Proof.
  intros Hw s rr st v s' Hr Hf E. cbn [decode] in E. apply bind_inv in E as (n & s1 & El & E). apply bind_inv in E as (vs & s2 & Ef & E).
  apply bind_inv in E as (u & s3 & Ee & E). apply wrapped_inv in Ee. injection E as <- <-.
  destruct (frame_takes _ _ s rr st n s1 vs s2 u s3 (fields_within _ _ _ Hw)) as (c & rr' & -> & _ & Hc & Hfc & Hr'); [done..|].
  destruct (enc_fields_ref _ _ _ Hc) as [Ec Hwt]. exists (rlp_list c), rr'. split_and!; [done| |done|done].
  split; [|by constructor]. change (map_res rlp_list (ref_fields ref fields vs) = inl (rlp_list c)). by rewrite Ec.
Qed.

Section Elements.
Variable e : gtype.
Hypothesis He : takes (decode no_tags e) (encodes no_tags e).

Lemma slice_encodes ts : tail ts = false → takes (decode ts (TSlice e)) (encodes ts (TSlice e)).
Proof.
  intros Ht s rr st v s' Hr Hf E. cbn [decode] in E. rewrite Ht in E.
  destruct (slice_takes _ _ He (decode_eol_first e) _ _ _ _ _ Hr Hf E) as (out & rr' & -> & (vs & c & -> & -> & Hc) & Hfo & Hr').
  destruct (enc_all_ref _ _ _ Hc) as [Ec Hw]. exists (rlp_list c), rr'. split_and!; [done| |done|done].
  split; [|by constructor]. cbn [ref]. by rewrite Ht, Ec.
Qed.

Lemma tail_encodes ts : tail ts = true → within (decode ts (TSlice e)) (encodes ts (TSlice e)).
Proof.
  intros Ht s rr p n st v s' Hr Hp Hn E. cbn [decode] in E. rewrite Ht in E. apply bind_inv in E as (vs & s1 & Es & E). injection E as <- <-.
  destruct (slice_elems_within _ _ He (decode_eol_first e) _ _ _ _ _ _ _ Hr Hp Hn Es) as (out & rr' & -> & Hc & Hle & Hr').
  destruct (enc_all_ref _ _ _ Hc) as [Ec Hw]. exists out, rr'. split_and!; [done| |done|done].
  split; [|by constructor]. cbn [ref]. by rewrite Ht, Ec.
Qed.

Lemma array_encodes ts n : tail ts = false → takes (decode ts (TArray n e)) (encodes ts (TArray n e)).
Proof.
  intros Ht s rr st v s' Hr Hf E. cbn [decode] in E.
  destruct (array_takes _ _ He n _ _ _ _ _ Hr Hf E) as (out & rr' & -> & (vs & c & -> & Hl & -> & Hc) & Hfo & Hr').
  destruct (enc_all_ref _ _ _ Hc) as [Ec Hw]. exists (rlp_list c), rr'. split_and!; [done| |done|done].
  split; [|by constructor]. cbn [ref]. by rewrite Ht, Ec.
Qed.
End Elements.

Lemma leaf_encodes ts t :
  match t with TSlice _ | TArray _ _ | TStruct _ | TPtr _ => True | _ => plain t → takes (decode ts t) (encodes ts t) end.
Proof.
  destruct t as [| |bits| | | |k|e|k e|fields|e|]; try done; intros Hp; inversion Hp; subst; cbn [decode].
  - eapply takes_wt; [apply Raw_takes|]. intros b out ->. split; [done|constructor].
  - intros s rr st v s' Hr Hf E. destruct (big_takes _ _ _ _ _ Hr Hf E) as (out & rr' & -> & (i & -> & Hi & ->) & Hfo & Hr').
    exists (rlp_string (big_Bytes i)), rr'. split_and!; [done| |done|done]. split; [|constructor]. simpl. by rewrite (proj2 (Z.ltb_ge _ _)).
  - eapply takes_wt; [by apply takes_wrapped, uint_takes|]. intros i out [Hi ->]. split; [done|by constructor].
  - eapply takes_wt; [apply takes_wrapped, bool_takes|]. intros b out ->. split; [done|constructor].
  - eapply takes_wt; [apply takes_wrapped, Bytes_takes|]. intros b out ->. split; [done|constructor].
  - eapply takes_wt; [apply takes_wrapped, Bytes_takes|]. intros b out ->. split; [done|constructor].
  - intros s rr st v s' Hr Hf E. destruct (byte_array_takes k ltac:(done) _ _ _ _ _ Hr Hf E) as (out & rr' & -> & (b & -> & Hl & ->) & Hfo & Hr').
    exists (rlp_string b), rr'. split_and!; [done| |done|done]. split; [done|by constructor].
  - intros s rr st v s' Hr Hf E. destruct (iface_takes _ _ _ _ _ _ Hr Hf E) as (out & rr' & -> & [Ho Hw] & Hfo & Hr').
    exists out, rr'. split_and!; [done| |done|done]. split; [|done]. by inversion Hw; subst.
Qed.

Lemma decode_canonical t : plain t →
  (∀ ts, nilOK ts = false → tail ts = false → takes (decode ts t) (encodes ts t)) ∧
  (∀ e, t = TSlice e → takes (decode no_tags e) (encodes no_tags e)).
Proof.
  revert t. refine (gtype_nested_ind _ _ _ _ _ _).
  - intros t. pose proof (λ ts, leaf_encodes ts t) as H. destruct t; try done; intros Hp; (split; [|done]); intros ts _ _; by apply H.
  - intros e IH Hp. inversion Hp; subst. destruct IH as [He _]; [done|]. specialize (He no_tags eq_refl eq_refl).
    split; [intros ts _; by apply slice_encodes|]. by intros ? [= <-].
  - intros n e IH Hp. inversion Hp; subst. destruct IH as [He _]; [done|]. specialize (He no_tags eq_refl eq_refl).
    split; [intros ts _; by apply array_encodes|done].
  - intros fields IH Hp. inversion Hp as [| | | | | | | | |? Hall| |]; subst. split; [|done]. intros ts _ _. apply struct_takes.
    rewrite Forall_forall in *. intros [ts' t'] Hin. specialize (IH _ Hin). destruct (Hall _ Hin) as (Hn & Ht & Hpt). simpl in *.
    destruct (IH Hpt) as [H1 H2]. destruct (tail ts') eqn:Et; [|by apply takes_within, H1].
    destruct (Ht eq_refl) as [e ->]. by apply tail_encodes; [apply H2|].
  - intros e IH Hp. inversion Hp; subst. destruct IH as [He _]; [done|]. split; [|done]. intros ts Hn _. cbn [decode]. rewrite Hn.
    eapply takes_wt; [by apply He|]. intros v out [Ho Hw]. split; [done|by constructor].
Qed.

(** C22: encodings are canonical.  Whatever bytes [DecodeBytes] accepts for a type
    without optional pointers and without arrays of a single byte, both of which break
    this (see below), are exactly the bytes [EncodeToBytes] produces for the
    value it returns: no two inputs decode to the same value, and nothing is accepted
    that the encoder would not write. *)
Theorem rlp_canonical t b v :
  plain t → blen b < 2 ^ 63 → DecodeBytes t b = inl v → wt t v ∧ EncodeToBytes t v = Ret (inl b).
Proof.
  intros Hp Hb E. unfold DecodeBytes in E. destruct (decode no_tags t (NewStream b (blen b))) as [[w|err] s] eqn:Ed; [|done].
  destruct (Z.gtb_spec (blen (r s)) 0) as [|Hle]; [done|]. injection E as ->.
  assert (Hr : ready (NewStream b (blen b)) b []) by (repeat constructor; simpl; by destruct (blen b >? 0)).
  destruct (proj1 (decode_canonical t Hp) no_tags eq_refl eq_refl _ _ _ _ _ Hr I Ed) as (out & rr' & -> & [Ho Hw] & _ & [[Hs _ _ _] _]).
  rewrite Hs in Hle. destruct rr' as [|x rr']; [|rewrite blen_cons in Hle; pose proof (blen_nonneg rr'); lia]. rewrite app_nil_r in *.
  split; [done|]. pose proof (write_agrees v no_tags t Hw empty_encbuf) as Ha. rewrite Ho in Ha. destruct Ha as (w & Ew & Hem).
  unfold EncodeToBytes. rewrite Ew. by rewrite (proj1 (toBytes_emits w out (Hem Hb))).
Qed.

(** The same type without the optional pointer. *)
Definition plain_type : gtype := TStruct [(no_tags, TUint 64); (no_tags, TSlice TString)].

Lemma plain_type_plain : plain plain_type.
Proof.
  apply pl_struct. constructor; [split_and!; [done|done|apply pl_uint; by do 3 right; left]|repeat constructor; done].
Qed.

Lemma rlp_canonical_witness :
  EncodeToBytes plain_type (VList [VUint 1024; VList [VBytes [byte_of 200]]]) = Ret (inl (byte_of <$> [0xC6; 0x82; 4; 0; 0xC2; 0x81; 200])).
Proof. exact (proj2 (rlp_canonical plain_type (byte_of <$> [0xC6; 0x82; 4; 0; 0xC2; 0x81; 200]) _ plain_type_plain eq_refl eq_refl)). Defined.

(** The tag [nil] breaks this.  The optional recipient of a transaction may be
    encoded as an empty string or as an empty list: two different encodings decode to
    the same value, and only one of them is what the encoder writes. *)
Theorem optional_pointer_two_encodings :
  let t := TStruct [(mkTags true false, TPtr (TByteArray 20))] in
  DecodeBytes t (byte_of <$> [0xC1; 0x80]) = inl (VList [VPtr None]) ∧
  DecodeBytes t (byte_of <$> [0xC1; 0xC0]) = inl (VList [VPtr None]) ∧
  EncodeToBytes t (VList [VPtr None]) = Ret (inl (byte_of <$> [0xC1; 0x80])).
Proof. by vm_compute. Qed.

(** An array of one zero byte inside a struct is written but not read back: after
    it the stream is still before the same byte, so the next field reads it again and
    the decoder fails at the end of the list. *)
Theorem one_byte_array_misread :
  let t := TStruct [(no_tags, TByteArray 1); (no_tags, TBytes)] in
  let v := VList [VBytes [byte_of 0]; VBytes [byte_of 5]] in
  wt t v ∧ EncodeToBytes t v = Ret (inl (byte_of <$> [0xC2; 0; 5])) ∧
  DecodeBytes t (byte_of <$> [0xC2; 0; 5]) = inr (decodeError "input list has too many elements").
Proof. split; [by repeat constructor|by vm_compute]. Qed.
