(* ===== verification/RlpRaw.v ===== *)
(** * Splitting encoded values

    What [Split] and [CountValues] of [rlp/raw.go] do on what the encoder writes. *)

From S2P Require Import Prelude Interfaces StateTypes Hex VmData Rlp RlpLayout RlpStream.
From S2P Require Import RlpRead.

(** One encoded value with its kind and content. *)
Definition string_kind (b : bytes) : Kind :=
  match b with [x] => if byte_val x <=? 0x7F then Byte else String | _ => String end.

Lemma readSize_be m n r : 56 ≤ n → has_bytes m n → (1 ≤ m)%nat → readSize (be_bytes m n ++ r) (Z.of_nat m) = inl n.
Proof.
  intros Hn Hm Hl. unfold readSize. rewrite blen_app, blen_be_bytes, gtb_le by (pose proof (blen_nonneg r); lia).
  rewrite Nat2Z.id, take_app_length' by (by rewrite length_be_bytes).
  assert (be_val (be_bytes m n) = n) as ->.
  { rewrite be_val_be_bytes. apply Z.mod_small. destruct Hm. assert (0 < 256 ^ (Z.of_nat m - 1)) by (apply Z.pow_pos_nonneg; lia). lia. }
  rewrite (proj2 (Z.ltb_ge n 56)) by lia. destruct (be_bytes_head m n Hl Hm) as (x & b & -> & Hx). cbn [app orb].
  by rewrite (proj2 (Z.eqb_neq _ _)).
Qed.

(** The last check of [readKind]: the content is there. *)
Definition fits_in (total : Z) (res : Kind * Z * Z + rlperr) : Kind * Z * Z + rlperr :=
  match res with
  | inr err => inr err
  | inl (k, tagsize, contentsize) =>
    if contentsize >? u64 (total - tagsize) then inr ErrValueTooLarge else inl (k, tagsize, contentsize)
  end.
Lemma fits_in_ok total k ts n : ts + n ≤ total → 0 ≤ ts → 0 ≤ n → total < 2 ^ 64 → fits_in total (inl (k, ts, n)) = inl (k, ts, n).
Proof. intros. unfold fits_in. by rewrite u64_small, gtb_le by (unfold is_u64; lia). Qed.

(** The header of a value, with at least its content behind it. *)
Lemma readKind_header k n r :
  k ≠ Byte → 0 ≤ n ≤ blen r → blen r < 2 ^ 63 →
  (k = String → n = 1 → match r with y :: _ => 128 ≤ byte_val y | [] => True end) →
  readKind (header k n ++ r) = inl (k, headsize n, n).
Proof.
  intros Hk Hn Hr H1. unfold headsize. destruct (Z.ltb_spec n 56) as [Hs|Hs].
  - assert (Hf : fits_in (blen r + 1) (inl (k, 1, n)) = inl (k, 1, n)) by (apply fits_in_ok; lia).
    rewrite <- Hf. rewrite header_small by (done || lia). cbn [app readKind]. rewrite byte_val_of, tag_range, blen_cons by (done || lia).
    unfold fits_in. destruct k; [done|..]; unfold small_tag.
    + rewrite (proj2 (Z.ltb_ge _ _)), (proj2 (Z.ltb_lt _ _)) by lia. replace (0x80 + n - 0x80) with n by lia.
      assert ((n =? 1) && match r with y :: _ => byte_val y <? 128 | [] => false end = false) as ->; [|done].
      destruct (Z.eqb_spec n 1) as [->|]; [|done]. destruct r as [|y r]; [done|]. by apply Z.ltb_ge, H1.
    + rewrite !(proj2 (Z.ltb_ge _ _)), (proj2 (Z.ltb_lt _ _)) by lia. by replace (0xC0 + n - 0xC0) with n by lia.
  - destruct (has_bytes_ex n) as (m & Hm & Hb); [lia|].
    assert (Hf : fits_in (Z.of_nat m + blen r + 1) (inl (k, 1 + Z.of_nat m, n)) = inl (k, 1 + Z.of_nat m, n)) by (apply fits_in_ok; lia).
    rewrite (header_large k n m), (intsize_bytes m) by done. rewrite <- Hf.
    cbn [app readKind]. rewrite byte_val_of, large_tag_range, blen_cons, blen_app, blen_be_bytes by (done || lia).
    unfold fits_in. destruct k; [done|..]; unfold large_tag.
    + rewrite !(proj2 (Z.ltb_ge _ _)), (proj2 (Z.ltb_lt _ _)) by lia. replace (0xB7 + Z.of_nat m - 0xB7) with (Z.of_nat m) by lia.
      rewrite readSize_be by (done || lia). by rewrite (Z.add_comm 1).
    + rewrite !(proj2 (Z.ltb_ge _ _)) by lia. replace (0xF7 + Z.of_nat m - 0xF7) with (Z.of_nat m) by lia.
      rewrite readSize_be by (done || lia). by rewrite (Z.add_comm 1).
Qed.

(** ** One value *)

(** [reads e k c]: the bytes [e] are a value of kind [k] with content [c], whatever
    follows. *)
Definition reads (e : bytes) (k : Kind) (c : bytes) : Prop :=
  ∃ h, e = h ++ c ∧ ∀ r, blen (e ++ r) < 2 ^ 63 → readKind (e ++ r) = inl (k, blen h, blen c).

Lemma reads_head k c :
  k ≠ Byte → (k = String → blen c = 1 → match c with y :: _ => 128 ≤ byte_val y | [] => True end) → reads (header k (blen c) ++ c) k c.
Proof.
  intros Hk H1. exists (header k (blen c)). split; [done|]. intros r Hr. rewrite <- app_assoc in *. rewrite !blen_app in Hr.
  pose proof (blen_nonneg c). pose proof (blen_nonneg r). pose proof (blen_nonneg (header k (blen c))).
  rewrite readKind_header; [by rewrite blen_header by (done || lia)|done|rewrite blen_app; lia|rewrite blen_app; lia|].
  intros -> E. specialize (H1 eq_refl E). destruct c as [|y c]; [done|exact H1].
Qed.

Lemma reads_list c : reads (rlp_list c) List c.
Proof. by apply (reads_head List). Qed.

Lemma reads_string c : reads (rlp_string c) (string_kind c) c.
Proof.
  assert (Hb : ∀ x, byte_val x ≤ 0x7F → reads [x] Byte [x]).
  { intros x Hx. exists []. split; [done|]. intros r Hr. cbn [app readKind]. rewrite (proj2 (Z.ltb_lt _ _)) by lia.
    rewrite blen_app in Hr. pose proof (blen_nonneg r). apply (fits_in_ok (blen (x :: r)) Byte 0 1); rewrite ?blen_cons in *; change (blen []) with 0 in *; lia. }
  unfold rlp_string, string_kind. destruct c as [|x [|y c]].
  - by apply (reads_head String).
  - destruct (Z.leb_spec (byte_val x) 0x7F) as [Hx|Hx]; [by apply Hb|]. apply (reads_head String); [done|]. intros _ _. lia.
  - apply (reads_head String); [done|]. intros _ H. rewrite !blen_cons in H. pose proof (blen_nonneg c). lia.
Qed.

Lemma reads_not_nil e k c : reads e k c → e ≠ [].
Proof. intros (h & _ & H) ->. specialize (H [] eq_refl). done. Qed.

Lemma Split_reads e k c r : reads e k c → blen (e ++ r) < 2 ^ 63 → Split (e ++ r) = Ret (inl (k, c, r)).
Proof.
  intros (h & He & H) Hr. unfold Split. rewrite (H r Hr). subst e. rewrite !blen_app in Hr.
  pose proof (blen_nonneg h). pose proof (blen_nonneg c). pose proof (blen_nonneg r).
  rewrite u64_small by (unfold is_u64; lia). rewrite <- app_assoc. rewrite slice_bytes_mid by done. cbn [mbind outcome_bind].
  rewrite app_assoc, <- blen_app, slice_bytes_end. done.
Qed.

Lemma SplitString_reads c r : blen (rlp_string c ++ r) < 2 ^ 63 → SplitString (rlp_string c ++ r) = Ret (inl (c, r)).
Proof.
  intros H. unfold SplitString. rewrite (Split_reads _ _ _ _ (reads_string c) H). cbn [mbind outcome_bind].
  unfold string_kind. destruct c as [|x [|y c]]; try done. by destruct (byte_val x <=? 127).
Qed.
Lemma SplitList_reads c r : blen (rlp_list c ++ r) < 2 ^ 63 → SplitList (rlp_list c ++ r) = Ret (inl (c, r)).
Proof. intros H. unfold SplitList. by rewrite (Split_reads _ _ _ _ (reads_list c) H). Qed.

(** ** Several values *)

Definition is_item (e : bytes) : Prop := ∃ k c, reads e k c.

Lemma item_string c : is_item (rlp_string c).
Proof. do 2 eexists. apply reads_string. Qed.
Lemma item_list c : is_item (rlp_list c).
Proof. do 2 eexists. apply reads_list. Qed.

Lemma CountValues_items_loop es : ∀ fuel i,
  Forall is_item es → blen (concat es) < 2 ^ 63 → (length (concat es) ≤ fuel)%nat →
  CountValues_loop fuel (concat es) i = Ret (inl (i + Z.of_nat (length es))).
Proof.
  induction es as [|e es IH]; intros fuel i Hi Hb Hf; [cbn; destruct fuel; cbn; do 2 f_equal; lia|].
  inversion Hi as [|? ? (k & c & Hr) Hi']; subst. cbn [concat] in *. pose proof (reads_not_nil _ _ _ Hr) as Hne.
  destruct Hr as (h & He & H). specialize (H (concat es) Hb).
  destruct e as [|x e]; [done|]. destruct fuel as [|fuel]; [simpl in Hf; lia|].
  change (CountValues_loop (S fuel) ((x :: e) ++ concat es) i) with
    (match readKind ((x :: e) ++ concat es) with
     | inr err => Ret (inr err)
     | inl (_, tagsize, n) => rest ← slice_bytes ((x :: e) ++ concat es) (u64 (tagsize + n)) (blen ((x :: e) ++ concat es)); CountValues_loop fuel rest (i + 1)
     end).
  rewrite H, <- blen_app, <- He. rewrite !blen_app in Hb. pose proof (blen_nonneg (x :: e)). pose proof (blen_nonneg (concat es)).
  rewrite u64_small by (unfold is_u64; lia). rewrite slice_bytes_end. cbn [mbind outcome_bind].
  rewrite IH; [do 2 f_equal; cbn [length]; lia|done|lia|]. rewrite length_app in Hf. simpl in Hf. lia.
Qed.

Lemma CountValues_items es :
  Forall is_item es → blen (concat es) < 2 ^ 63 → CountValues (concat es) = Ret (inl (Z.of_nat (length es))).
Proof. intros Hi Hb. by apply (CountValues_items_loop es _ 0). Qed.

(** ** Lengths *)

Lemma blen_rlp_list_bounds c : blen c < 2 ^ 64 → blen c < blen (rlp_list c) ≤ blen c + 9.
Proof.
  intros Hc. unfold rlp_list. pose proof (blen_nonneg c). rewrite blen_app, blen_puthead by lia.
  pose proof (headsize_le (blen c)). pose proof (headsize_pos (blen c)). lia.
Qed.
Lemma blen_rlp_string_le c : blen c < 2 ^ 64 → blen (rlp_string c) ≤ blen c + 9.
Proof.
  intros Hc. pose proof (blen_nonneg c). pose proof (headsize_le (blen c)).
  assert (blen (puthead 0x80 0xB7 (blen c) ++ c) ≤ blen c + 9) as H' by (rewrite blen_app, blen_puthead; lia).
  unfold rlp_string. destruct c as [|x [|y c]]; [exact H'| |exact H']. destruct (byte_val x <=? 127); [change (blen [x]) with 1; lia|exact H'].
Qed.
