(* ===== verification/TrieCodec.v ===== *)
(** * Keys of the trie ([trie/encoding.go])

    The three encodings of a key: its bytes, its nibbles with a terminator, and the
    compact form in which nodes store it.  The round trips between them. *)

From S2P Require Import Prelude Interfaces StateTypes Hex VmData.

(** ** Definitions *)

Definition terminator : Byte.byte := byte_of 16.

Definition hasTerm (s : bytes) : bool :=
  match last s with Some b => byte_val b =? 16 | None => false end.

Definition keybytesToHex (str : bytes) : bytes :=
  concat (map (λ b, [byte_of (byte_val b / 16); byte_of (byte_val b mod 16)]) str) ++ [terminator].

(** Writes pairs of nibbles over the start of [buf]; both indices are checked. *)
Fixpoint decodeNibbles (nibbles buf : bytes) : outcome bytes :=
  match nibbles with
  | [] => Ret buf
  | hi :: nibbles =>
    match buf, nibbles with
    | _ :: buf, lo :: nibbles =>
      rest ← decodeNibbles nibbles buf;
      Ret (byte_of (Z.lor (Z.shiftl (byte_val hi) 4) (byte_val lo)) :: rest)
    | _, _ => Panic "index out of range"
    end
  end.

(** The terminator as a flag, and the nibbles without it. *)
Definition cut_term (hex : bytes) : Z * bytes := if hasTerm hex then (1, removelast hex) else (0, hex).

Definition hexToCompact (hex : bytes) : outcome bytes :=
  let '(term, hex) := cut_term hex in
  let flag := Z.shiftl term 5 in
  let buf := replicate (length hex / 2) (byte_of 0) in
  match hex with
  | x :: hex' =>
    if Nat.odd (length hex) then
      rest ← decodeNibbles hex' buf;
      Ret (byte_of (Z.lor (Z.lor flag (Z.shiftl 1 4)) (byte_val x)) :: rest)
    else rest ← decodeNibbles hex buf; Ret (byte_of flag :: rest)
  | [] => Ret [byte_of flag]
  end.

Definition compactToHex (compact : bytes) : outcome bytes :=
  let base := removelast (keybytesToHex compact) in
  match base with
  | [] => Panic "index out of range"
  | b :: _ =>
    let base := if 2 <=? byte_val b then base ++ [byte_of 16] else base in
    Ret (drop (Z.to_nat (2 - Z.land (byte_val b) 1)) base)
  end.

Definition hexToKeybytes (hex : bytes) : outcome bytes :=
  let hex := if hasTerm hex then removelast hex else hex in
  if Nat.odd (length hex) then Panic "can't convert hex key of odd length"
  else decodeNibbles hex (replicate ((length hex + 1) / 2) (byte_of 0)).

Fixpoint prefixLen (a b : bytes) : nat :=
  match a, b with
  | x :: a, y :: b => if decide (x = y) then S (prefixLen a b) else O
  | _, _ => O
  end.

(** ** Nibbles and hex keys *)

Definition nibble (b : Byte.byte) : Prop := byte_val b < 16.
Definition hexkey (k : bytes) : Prop := ∃ ns, Forall nibble ns ∧ k = ns ++ [terminator].

Lemma terminator_val : byte_val terminator = 16.
Proof. done. Qed.

Lemma nibble_not_term b : nibble b → b ≠ terminator.
Proof. intros H ->. by apply Z.lt_irrefl in H. Qed.

Lemma nibbles_no_term ns : Forall nibble ns → hasTerm ns = false.
Proof.
  unfold hasTerm. destruct (last ns) as [b|] eqn:E; [|done]. intros H. apply last_Some in E as [l ->].
  apply Forall_app in H as [_ H]. inversion H as [|? ? Hb]; subst. apply Z.eqb_neq. unfold nibble in Hb. lia.
Qed.

Lemma hasTerm_snoc ns : hasTerm (ns ++ [terminator]) = true.
Proof. unfold hasTerm. by rewrite last_snoc. Qed.

Lemma removelast_snoc {A} (l : list A) x : removelast (l ++ [x]) = l.
Proof. apply removelast_last. Qed.

Lemma keybytesToHex_cons b k : keybytesToHex (b :: k) = byte_of (byte_val b / 16) :: byte_of (byte_val b mod 16) :: keybytesToHex k.
Proof. done. Qed.

Lemma nibble_of z : 0 ≤ z < 16 → nibble (byte_of z).
Proof. intros. unfold nibble. rewrite byte_val_of, Z.mod_small; lia. Qed.

Lemma halves b : 0 ≤ byte_val b / 16 < 16 ∧ 0 ≤ byte_val b mod 16 < 16.
Proof.
  pose proof (byte_val_range b). split; [|by apply Z.mod_pos_bound].
  split; [apply Z.div_pos; lia|]. apply Z.div_lt_upper_bound; lia.
Qed.

Lemma keybytesToHex_hexkey k : hexkey (keybytesToHex k).
Proof.
  exists (concat (map (λ b, [byte_of (byte_val b / 16); byte_of (byte_val b mod 16)]) k)). split; [|done].
  induction k as [|b k IH]; [constructor|]. cbn [map concat app].
  destruct (halves b). apply Forall_cons_2; [by apply nibble_of|]. apply Forall_cons_2; [by apply nibble_of|done].
Qed.

Lemma length_keybytesToHex k : length (keybytesToHex k) = (2 * length k + 1)%nat.
Proof. induction k as [|b k IH]; [done|]. rewrite keybytesToHex_cons. simpl. rewrite IH. lia. Qed.

Lemma byte_of_inj x y : 0 ≤ x < 256 → 0 ≤ y < 256 → byte_of x = byte_of y → x = y.
Proof. intros Hx Hy H. rewrite <- (Z.mod_small x 256), <- (Z.mod_small y 256), <- !byte_val_of by lia. by rewrite H. Qed.

Lemma join_nibbles b :
  byte_of (Z.lor (Z.shiftl (byte_val (byte_of (byte_val b / 16))) 4) (byte_val (byte_of (byte_val b mod 16)))) = b.
Proof. by destruct b. Qed.

(** ** Key bytes and back *)

Lemma decodeNibbles_back k buf :
  length buf = length k → decodeNibbles (removelast (keybytesToHex k)) buf = Ret k.
Proof.
  unfold keybytesToHex. rewrite removelast_snoc. revert buf.
  induction k as [|b k IH]; intros [|y buf] Hl; simplify_eq/=; [done|].
  rewrite IH by done. cbn [mbind outcome_bind]. by rewrite join_nibbles.
Qed.

Lemma length_hex k : length (removelast (keybytesToHex k)) = (2 * length k)%nat.
Proof.
  pose proof (length_keybytesToHex k). unfold keybytesToHex in *. rewrite removelast_snoc. rewrite length_app in H. simpl in H. lia.
Qed.

Lemma hexToKeybytes_back k : hexToKeybytes (keybytesToHex k) = Ret k.
Proof.
  unfold hexToKeybytes. assert (hasTerm (keybytesToHex k) = true) as -> by apply hasTerm_snoc.
  rewrite length_hex. rewrite Nat.odd_mul. cbn [Nat.odd Nat.even negb andb].
  apply decodeNibbles_back. rewrite length_replicate.
  rewrite (Nat.mul_comm 2), Nat.div_add_l by lia. simpl. lia.
Qed.

#[export] Instance keybytesToHex_inj : Inj (=) (=) keybytesToHex.
Proof.
  intros k k' H. assert (Ret k = Ret k') as [= ->] by by rewrite <- !hexToKeybytes_back, H. done.
Qed.

(** ** Compact keys and back *)

Definition pair_of (hi lo : Byte.byte) : Byte.byte := byte_of (Z.lor (Z.shiftl (byte_val hi) 4) (byte_val lo)).

Lemma pair_val hi lo : nibble hi → nibble lo → byte_val (pair_of hi lo) = 16 * byte_val hi + byte_val lo.
Proof.
  unfold nibble, pair_of. intros Hh Hl. pose proof (byte_val_range hi). pose proof (byte_val_range lo).
  assert (H16 : Forall (λ a, Forall (λ b, Z.lor (Z.shiftl a 4) b = 16 * a + b) (seqZ 0 16)) (seqZ 0 16)).
  { apply Forall_forall. intros a Ha. apply Forall_forall. intros b Hb. revert a b Ha Hb. vm_compute. intros a b Ha Hb.
    repeat (apply elem_of_cons in Ha as [->|Ha]; [repeat (apply elem_of_cons in Hb as [->|Hb]; [reflexivity|]); by apply elem_of_nil in Hb|]). by apply elem_of_nil in Ha. }
  rewrite Forall_forall in H16. specialize (H16 (byte_val hi) ltac:(apply elem_of_seqZ; lia)). rewrite Forall_forall in H16.
  rewrite byte_val_of, H16 by (apply elem_of_seqZ; lia). apply Z.mod_small. lia.
Qed.

Lemma split_pair hi lo k :
  nibble hi → nibble lo → keybytesToHex (pair_of hi lo :: k) = hi :: lo :: keybytesToHex k.
Proof.
  intros Hh Hl. rewrite keybytesToHex_cons, pair_val by done. unfold nibble in *.
  pose proof (byte_val_range hi). pose proof (byte_val_range lo).
  rewrite (Z.mul_comm 16), Z.div_add_l, Z.div_small, Z.add_0_r by lia.
  rewrite Z.add_comm, Z.mod_add, Z.mod_small by lia. by rewrite !byte_of_val.
Qed.

(** An even number of nibbles fits the buffer, and the bytes have them as their hex
    form. *)
Lemma decodeNibbles_hex n : ∀ ns,
  (length ns = 2 * n)%nat → Forall nibble ns →
  ∃ k, decodeNibbles ns (replicate n (byte_of 0)) = Ret k ∧ keybytesToHex k = ns ++ [terminator] ∧ length k = n.
Proof.
  induction n as [|n IH]; intros ns Hl Hn.
  { apply nil_length_inv in Hl as ->. by exists []. }
  destruct ns as [|hi [|lo ns]]; simpl in Hl; [lia..|].
  inversion Hn as [|? ? Hh Hn']; subst. inversion Hn' as [|? ? Hlo Hns]; subst.
  destruct (IH ns) as (k & Ek & Hk & Hlk); [lia|done|].
  exists (pair_of hi lo :: k). cbn [decodeNibbles replicate]. rewrite Ek. split_and!; [done| |by simpl; lia].
  rewrite split_pair by done. by rewrite Hk.
Qed.

(** The flag byte: the terminator in bit 5, oddness in bit 4. *)
Lemma flag_even_val (term : bool) : byte_val (byte_of (Z.shiftl (if term then 1 else 0) 5)) = if term then 32 else 0.
Proof. by destruct term. Qed.
Lemma flag_odd_hex (term : bool) x k : nibble x →
  keybytesToHex (byte_of (Z.lor (Z.lor (Z.shiftl (if term then 1 else 0) 5) (Z.shiftl 1 4)) (byte_val x)) :: k)
  = byte_of (if term then 3 else 1) :: x :: keybytesToHex k.
Proof.
  intros Hx. assert (byte_of (Z.lor (Z.lor (Z.shiftl (if term then 1 else 0) 5) (Z.shiftl 1 4)) (byte_val x))
    = pair_of (byte_of (if term then 3 else 1)) x) as ->.
  { unfold nibble in Hx. destruct term, x; try done. }
  apply split_pair; [by destruct term|done].
Qed.
Lemma flag_even_hex (term : bool) k :
  keybytesToHex (byte_of (Z.shiftl (if term then 1 else 0) 5) :: k)
  = byte_of (if term then 2 else 0) :: byte_of 0 :: keybytesToHex k.
Proof. by destruct term. Qed.

(** A path: nibbles, with the terminator at the end if it leads to a value. *)
Definition path (term : bool) (k : bytes) : Prop :=
  ∃ ns, Forall nibble ns ∧ k = if term then ns ++ [terminator] else ns.

Lemma compactToHex_flag (f : Byte.byte) (rest tl : bytes) (term : bool) :
  byte_val f = (if term then 2 else 0) + Z.land (byte_val f) 1 → byte_val f < 4 →
  ∀ compact, keybytesToHex compact = f :: rest ++ [terminator] →
  drop (Z.to_nat (2 - Z.land (byte_val f) 1)) (f :: rest) = tl →
  compactToHex compact = Ret (if term then tl ++ [terminator] else tl).
Proof.
  intros Hf H4 compact Hc Hd. unfold compactToHex. rewrite Hc.
  change (f :: rest ++ [terminator]) with ((f :: rest) ++ [terminator]). rewrite removelast_snoc.
  assert (0 ≤ Z.land (byte_val f) 1 < 2).
  { change 1 with (Z.ones 1) at 1 2. rewrite Z.land_ones by lia. by apply Z.mod_pos_bound. }
  destruct term; cbv iota in Hf |- *.
  - rewrite (proj2 (Z.leb_le _ _)) by lia. rewrite drop_app_le; [by rewrite Hd|].
    destruct rest; [|cbn [length]; lia]. exfalso. revert Hc. clear. intros Hc. pose proof (length_keybytesToHex compact) as Hl.
    rewrite Hc in Hl. simpl in Hl. lia.
  - rewrite (proj2 (Z.leb_gt _ _)) by lia. by rewrite Hd.
Qed.

(** What a node stores for its key is the key. *)
Lemma compact_back term k : path term k →
  ∃ c, hexToCompact k = Ret c ∧ compactToHex c = Ret k ∧ (length c ≤ S (length k))%nat.
Proof.
  intros (ns & Hn & ->). unfold hexToCompact.
  assert (cut_term (if term then ns ++ [terminator] else ns) = (if term then 1 else 0, ns)) as ->.
  { unfold cut_term. destruct term; [by rewrite hasTerm_snoc, removelast_snoc|by rewrite nibbles_no_term]. }
  assert (Hlen : (length ns ≤ length (if term then ns ++ [terminator] else ns))%nat) by (destruct term; rewrite ?length_app; lia).
  destruct ns as [|x ns]; [destruct term; eexists; (split_and!; [done..|simpl; lia])|].
  destruct (Nat.odd (length (x :: ns))) eqn:Eo.
  - inversion Hn as [|? ? Hx Hns]; subst. apply Nat.odd_spec in Eo as [n En]. simpl in En.
    assert (length (x :: ns) / 2 = n)%nat as -> by (symmetry; apply (Nat.div_unique _ _ _ 1); cbn [length]; lia).
    destruct (decodeNibbles_hex n ns) as (k & Ek & Hk & Hl); [lia|done|]. rewrite Ek. eexists. split; [done|]. split; [|cbn [length]; rewrite Hl; etrans; [|apply le_n_S, Hlen]; cbn [length] in En |- *; lia].
    eapply (compactToHex_flag (byte_of (if term then 3 else 1)) (x :: ns)); [by destruct term..| |by destruct term].
    by rewrite flag_odd_hex, Hk.
  - assert (Nat.even (length (x :: ns)) = true) as Ee by (rewrite <- Nat.negb_odd, Eo; done).
    apply Nat.even_spec in Ee as [n En].
    assert (length (x :: ns) / 2 = n)%nat as -> by (rewrite En, (Nat.mul_comm 2); by apply Nat.div_mul).
    destruct (decodeNibbles_hex n (x :: ns)) as (k & Ek & Hk & Hl); [lia|done|]. rewrite Ek. eexists. split; [done|]. split; [|cbn [length]; rewrite Hl; etrans; [|apply le_n_S, Hlen]; cbn [length] in En |- *; lia].
    eapply (compactToHex_flag (byte_of (if term then 2 else 0)) (byte_of 0 :: x :: ns)); [by destruct term..| |by destruct term].
    by rewrite flag_even_hex, Hk.
Qed.

(** ** Common prefixes *)

Lemma prefixLen_le a b : (prefixLen a b ≤ length a ∧ prefixLen a b ≤ length b)%nat.
Proof.
  revert b. induction a as [|x a IH]; intros [|y b]; simpl; [lia..|]. destruct (decide (x = y)); [|lia].
  specialize (IH b). lia.
Qed.

Lemma prefixLen_take a b : take (prefixLen a b) a = take (prefixLen a b) b.
Proof.
  revert b. induction a as [|x a IH]; intros [|y b]; simpl; [done..|]. destruct (decide (x = y)) as [->|]; [|done].
  simpl. by rewrite IH.
Qed.

Lemma prefixLen_diff a b x y :
  a !! prefixLen a b = Some x → b !! prefixLen a b = Some y → x ≠ y.
Proof.
  revert b. induction a as [|z a IH]; intros [|w b]; simpl; try done.
  destruct (decide (z = w)) as [->|]; simpl; [apply IH|]. intros. by simplify_eq.
Qed.

(** How two keys lie to each other: they go on with different symbols, or one of
    them ends. *)
Lemma prefixLen_split a b :
  ∃ c ra rb, a = c ++ ra ∧ b = c ++ rb ∧ prefixLen a b = length c ∧
    match ra, rb with x :: _, y :: _ => x ≠ y | _, _ => True end.
Proof.
  revert b. induction a as [|x a IH]; intros b.
  { exists [], [], b. by destruct b. }
  destruct b as [|y b]; [by exists [], (x :: a), []|]. simpl. destruct (decide (x = y)) as [->|Hne].
  - destruct (IH b) as (c & ra & rb & -> & -> & -> & H). by exists (y :: c), ra, rb.
  - by exists [], (x :: a), (y :: b).
Qed.
