(* ===== verification/TrieNode.v ===== *)
(** * Nodes and operations of the trie ([trie/node.go], [trie/trie.go], [trie/errors.go])

    A node is in memory, or named by its hash and read from the database when an
    operation comes to it. *)

From S2P Require Import Prelude Interfaces StateTypes Hex VmData Rlp RlpStream TrieCodec.

(** ** Nodes *)

(** Cached hash, generation and whether the node is still to be written. *)
Record nodeFlag : Type := mkFlag { nf_hash : option bytes; nf_gen : Z; nf_dirty : bool }.
#[export] Instance eta_nodeFlag : Eta nodeFlag := λ r, mkFlag (nf_hash r) (nf_gen r) (nf_dirty r).

(** [nilNode] is the nil interface; [Children] has 17 elements. *)
Inductive node : Type :=
| nilNode
| fullNode (Children : list node) (flags : nodeFlag)
| shortNode (Key : bytes) (Val : node) (flags : nodeFlag)
| hashNode (h : bytes)
| valueNode (v : bytes).

(** [n.Children[key]]: both arrays check the index. *)
Definition index_panic : string := "index out of range".
Definition child (cs : list node) (i : Byte.byte) : outcome node :=
  match cs !! Z.to_nat (byte_val i) with Some c => Ret c | None => Panic index_panic end.
Definition key_at (key : bytes) (pos : nat) : outcome Byte.byte :=
  match key !! pos with Some b => Ret b | None => Panic index_panic end.
Definition set_child (cs : list node) (i : Byte.byte) (n : node) : list node := <[Z.to_nat (byte_val i) := n]> cs.

(** ** Decoding *)

Inductive nodeError : Type :=
| unexpected_EOF
| rlp_error (e : rlperr)
| decode_error (e : rlperr)
| invalid_value_node (e : rlperr)
| invalid_elements (n : Z)
| oversized_embedded (size : Z)
| invalid_string_size (n : Z)
| wrapped_error (what : nodeError) (stack : list string).

Definition wrapError (err : nodeError) (ctx : string) : nodeError :=
  match err with
  | wrapped_error what stack => wrapped_error what (stack ++ [ctx])
  | _ => wrapped_error err [ctx]
  end.

(** Results with an error that is not a panic. *)
Definition res (E A : Type) : Type := outcome (A + E).
Definition rok {E A} (a : A) : res E A := Ret (inl a).
Definition rfail {E A} (e : E) : res E A := Ret (inr e).
Definition rbind {E A B} (m : res E A) (f : A → res E B) : res E B :=
  match m with Ret (inl a) => f a | Ret (inr e) => Ret (inr e) | Panic w => Panic w end.
Notation "'let!' p ':=' m 'in' k" := (rbind m (λ x, match x with p => k end))
  (at level 100, p pattern, m at level 100, right associativity) : go_scope.
Definition on_err {E F A} (f : E → F) (m : res E A) : res F A :=
  match m with Ret (inl a) => Ret (inl a) | Ret (inr e) => Ret (inr (f e)) | Panic w => Panic w end.
Definition lift {E A} (m : outcome A) : res E A :=
  match m with Ret a => Ret (inl a) | Panic w => Panic w end.

(** Evaluate the results in the goal. *)
Ltac rstep := cbn [rok rfail on_err rbind lift].

Definition hashLen : Z := 32.

Section Decode.
(** [decodeNode] of embedded nodes. *)
Variable decode_node : option bytes → bytes → res nodeError node.

Definition decodeRef (buf : bytes) : res nodeError (node * bytes) :=
  let! (kind, val, rest) := on_err rlp_error (Split buf) in
  match kind with
  | List =>
    let size := blen buf - blen rest in
    if size >? hashLen then rfail (oversized_embedded size)
    else let! n := decode_node None buf in rok (n, rest)
  | String =>
    if blen val =? 0 then rok (nilNode, rest)
    else if blen val =? 32 then rok (hashNode val, rest)
    else rfail (invalid_string_size (blen val))
  | Byte => rfail (invalid_string_size (blen val))
  end.

Definition decodeShort (hash : option bytes) (elems : bytes) (cachegen : Z) : res nodeError node :=
  let! (kbuf, rest) := on_err rlp_error (SplitString elems) in
  let flag := mkFlag hash cachegen false in
  let! key := lift (compactToHex kbuf) in
  if hasTerm key then
    let! (val, _) := on_err invalid_value_node (SplitString rest) in
    rok (shortNode key (valueNode val) flag)
  else
    let! (r, _) := on_err (λ e, wrapError e "val") (decodeRef rest) in
    rok (shortNode key r flag).

(** The first sixteen children, then the value. *)
Definition digits : list string :=
  ["[0]"; "[1]"; "[2]"; "[3]"; "[4]"; "[5]"; "[6]"; "[7]"; "[8]"; "[9]"; "[10]"; "[11]"; "[12]"; "[13]"; "[14]"; "[15]"]%string.
Fixpoint decodeChildren (places : list string) (elems : bytes) : res nodeError (list node * bytes) :=
  match places with
  | [] => rok ([], elems)
  | i :: places =>
    let! (cld, rest) := on_err (λ e, wrapError e i) (decodeRef elems) in
    let! (cs, rest) := decodeChildren places rest in
    rok (cld :: cs, rest)
  end.
Definition decodeFull (hash : option bytes) (elems : bytes) (cachegen : Z) : res nodeError node :=
  let! (cs, elems) := decodeChildren digits elems in
  let! (val, _) := on_err rlp_error (SplitString elems) in
  rok (fullNode (cs ++ [if blen val >? 0 then valueNode val else nilNode]) (mkFlag hash cachegen false)).

Definition decodeElems (hash : option bytes) (buf : bytes) (cachegen : Z) : res nodeError node :=
  if blen buf =? 0 then rfail unexpected_EOF
  else
    let! (elems, _) := on_err decode_error (SplitList buf) in
    let! c := lift (CountValues elems) in
    let c := match c with inl c => c | inr _ => 0 end in
    if c =? 2 then on_err (λ e, wrapError e "short") (decodeShort hash elems cachegen)
    else if c =? 17 then on_err (λ e, wrapError e "full") (decodeFull hash elems cachegen)
    else rfail (invalid_elements c).
End Decode.

(** An embedded node is a part of the elements of its parent, which are shorter than
    the parent, so the length of the input bounds the nesting. *)
Fixpoint decodeNode_fuel (fuel : nat) (cachegen : Z) (hash : option bytes) (buf : bytes) : res nodeError node :=
  match fuel with
  | O => Panic "decodeNode: no fuel"
  | S fuel => decodeElems (decodeNode_fuel fuel cachegen) hash buf cachegen
  end.
Definition decodeNode (hash : option bytes) (buf : bytes) (cachegen : Z) : res nodeError node :=
  decodeNode_fuel (S (length buf)) cachegen hash buf.

Definition mustDecodeNode (hash : option bytes) (buf : bytes) (cachegen : Z) : outcome node :=
  match decodeNode hash buf cachegen with
  | Ret (inl n) => Ret n
  | Ret (inr _) => Panic "node: decode error"
  | Panic w => Panic w
  end.

(** ** The trie *)

(** What the database has under each key; [None] stands for the nil interface of a
    trie without a database. *)
Abbreviation kvstore := (gmap bytes bytes).

Record MissingNodeError : Type := mkMissing { NodeHash : hash; Path : bytes }.
Definition TR (A : Type) : Type := res MissingNodeError A.

Record Trie : Type := mkTrie { t_root : node; t_originalRoot : hash; t_cachegen : Z; t_cachelimit : Z }.
#[export] Instance eta_Trie : Eta Trie := λ r, mkTrie (t_root r) (t_originalRoot r) (t_cachegen r) (t_cachelimit r).

Definition SetCacheLimit (l : Z) (t : Trie) : Trie := t <| t_cachelimit := l |>.

Section Operations.
Variables (db : option kvstore) (cachegen : Z).

Definition newFlag : nodeFlag := mkFlag None cachegen true.

(** A database that fails or has nothing under the key gives the error. *)
Definition resolveHash (n : bytes) (prefix : bytes) : TR node :=
  match db with
  | None => Panic "nil pointer dereference"
  | Some db =>
    match db !! n with
    | None => rfail (mkMissing (BytesToHash n) prefix)
    | Some enc => lift (mustDecodeNode (Some n) enc cachegen)
    end
  end.
Definition resolve (n : node) (prefix : bytes) : TR node :=
  match n with hashNode h => resolveHash h prefix | _ => rok n end.

(** Every call but the one after a hash node has moved on in the key, so twice the
    length of the key bounds the depth. *)
Definition trie_no_fuel : string := "trie: no fuel".
Definition invalid_node : string := "invalid node".

Fixpoint tryGet (fuel : nat) (origNode : node) (key : bytes) (pos : nat) : TR (bytes * node * bool) :=
  match fuel with
  | O => Panic trie_no_fuel
  | S fuel =>
    match origNode with
    | nilNode => rok ([], nilNode, false)
    | valueNode v => rok (v, origNode, false)
    | shortNode k val f =>
      if decide (take (length k) (drop pos key) = k) then
        let! (value, newnode, didResolve) := tryGet fuel val key (pos + length k) in
        rok (value, if didResolve : bool then shortNode k newnode (f <| nf_gen := cachegen |>) else origNode, didResolve)
      else rok ([], origNode, false)
    | fullNode cs f =>
      let! i := lift (key_at key pos) in
      let! c := lift (child cs i) in
      let! (value, newnode, didResolve) := tryGet fuel c key (S pos) in
      rok (value, if didResolve : bool then fullNode (set_child cs i newnode) (f <| nf_gen := cachegen |>) else origNode, didResolve)
    | hashNode h =>
      let! c := resolveHash h (take pos key) in
      let! (value, newnode, _) := tryGet fuel c key pos in
      rok (value, newnode, true)
    end
  end.

Fixpoint insert_node (fuel : nat) (n : node) (prefix key : bytes) (value : node) : TR (bool * node) :=
  match fuel with
  | O => Panic trie_no_fuel
  | S fuel =>
    match key with
    | [] =>
      match n, value with
      | valueNode v, valueNode v' => rok (negb (bool_decide (v = v')), value)
      | valueNode _, _ => Panic "interface conversion"
      | _, _ => rok (true, value)
      end
    | k0 :: krest =>
      match n with
      | shortNode nkey val f =>
        let matchlen := prefixLen key nkey in
        if decide (matchlen = length nkey) then
          let! (dirty, nn) := insert_node fuel val (prefix ++ take matchlen key) (drop matchlen key) value in
          if negb dirty then rok (false, n) else rok (true, shortNode nkey nn newFlag)
        else
          let! i := lift (key_at nkey matchlen) in
          let! (_, c1) := insert_node fuel nilNode (prefix ++ take (S matchlen) nkey) (drop (S matchlen) nkey) val in
          let! j := lift (key_at key matchlen) in
          let! (_, c2) := insert_node fuel nilNode (prefix ++ take (S matchlen) key) (drop (S matchlen) key) value in
          let branch := fullNode (set_child (set_child (replicate 17 nilNode) i c1) j c2) newFlag in
          if decide (matchlen = O) then rok (true, branch)
          else rok (true, shortNode (take matchlen key) branch newFlag)
      | fullNode cs f =>
        let! c := lift (child cs k0) in
        let! (dirty, nn) := insert_node fuel c (prefix ++ [k0]) krest value in
        if negb dirty then rok (false, n) else rok (true, fullNode (set_child cs k0 nn) newFlag)
      | nilNode => rok (true, shortNode key value newFlag)
      | hashNode h =>
        let! rn := resolveHash h prefix in
        let! (dirty, nn) := insert_node fuel rn prefix key value in
        if negb dirty then rok (false, rn) else rok (true, nn)
      | valueNode _ => Panic invalid_node
      end
    end
  end.

(** The index of the only child that is left, if there is only one. *)
Fixpoint only_child (cs : list node) (i pos : Z) : Z :=
  match cs with
  | [] => pos
  | nilNode :: cs => only_child cs (i + 1) pos
  | _ :: cs => if pos =? -1 then only_child cs (i + 1) i else -2
  end.

Fixpoint delete_node (fuel : nat) (n : node) (prefix key : bytes) : TR (bool * node) :=
  match fuel with
  | O => Panic trie_no_fuel
  | S fuel =>
    match n with
    | shortNode nkey val f =>
      let matchlen := prefixLen key nkey in
      if (matchlen <? length nkey)%nat then rok (false, n)
      else if decide (matchlen = length key) then rok (true, nilNode)
      else
        let! (dirty, c) := delete_node fuel val (prefix ++ take (length nkey) key) (drop (length nkey) key) in
        if negb dirty then rok (false, n)
        else
          match c with
          | shortNode ckey cval _ => rok (true, shortNode (nkey ++ ckey) cval newFlag)
          | _ => rok (true, shortNode nkey c newFlag)
          end
    | fullNode cs f =>
      let! k0 := lift (key_at key 0) in
      let! c := lift (child cs k0) in
      let! (dirty, nn) := delete_node fuel c (prefix ++ [k0]) (drop 1 key) in
      if negb dirty then rok (false, n)
      else
        let cs := set_child cs k0 nn in
        let pos := only_child cs 0 (-1) in
        if pos >=? 0 then
          let! c := lift (child cs (byte_of pos)) in
          if pos =? 16 then rok (true, shortNode [byte_of pos] c newFlag)
          else
            let! cnode := resolve c prefix in
            match cnode with
            | shortNode ckey cval _ => rok (true, shortNode (byte_of pos :: ckey) cval newFlag)
            | _ => rok (true, shortNode [byte_of pos] c newFlag)
            end
        else rok (true, fullNode cs newFlag)
    | valueNode _ => rok (true, nilNode)
    | nilNode => rok (false, nilNode)
    | hashNode h =>
      let! rn := resolveHash h prefix in
      let! (dirty, nn) := delete_node fuel rn prefix key in
      if negb dirty then rok (false, rn) else rok (true, nn)
    end
  end.
End Operations.

Definition key_fuel (k : bytes) : nat := (2 * length k + 3)%nat.

Definition Trie_TryGet (db : option kvstore) (t : Trie) (key : bytes) : outcome (bytes * option MissingNodeError * Trie) :=
  let k := keybytesToHex key in
  match tryGet db (t_cachegen t) (key_fuel k) (t_root t) k 0 with
  | Panic w => Panic w
  | Ret (inl (value, newroot, didResolve)) => Ret (value, None, if didResolve : bool then t <| t_root := newroot |> else t)
  | Ret (inr err) => Ret ([], Some err, t)
  end.

Definition set_root (t : Trie) (r : TR (bool * node)) : outcome (option MissingNodeError * Trie) :=
  match r with
  | Panic w => Panic w
  | Ret (inl (_, n)) => Ret (None, t <| t_root := n |>)
  | Ret (inr err) => Ret (Some err, t)
  end.
Definition Trie_TryDelete (db : option kvstore) (t : Trie) (key : bytes) : outcome (option MissingNodeError * Trie) :=
  let k := keybytesToHex key in
  set_root t (delete_node db (t_cachegen t) (key_fuel k) (t_root t) [] k).
Definition Trie_TryUpdate (db : option kvstore) (t : Trie) (key value : bytes) : outcome (option MissingNodeError * Trie) :=
  let k := keybytesToHex key in
  if blen value =? 0 then set_root t (delete_node db (t_cachegen t) (key_fuel k) (t_root t) [] k)
  else set_root t (insert_node db (t_cachegen t) (key_fuel k) (t_root t) [] k (valueNode value)).

Definition emptyRoot : hash := to_word 256 0x56e81f171bcc55a6ff8345e692c0f86e5b48e01b996cadc001622fb5e363b421.

Definition New (root : hash) (db : option kvstore) : outcome (Trie + MissingNodeError) :=
  let trie := mkTrie nilNode root 0 0 in
  if decide (root = hash0) then Ret (inl trie)
  else if decide (root = emptyRoot) then Ret (inl trie)
  else
    match db with
    | None => Panic "trie.New: cannot use existing root without a database"
    | Some _ => let! rootnode := resolveHash db 0 (hash_bytes root) [] in Ret (inl (trie <| t_root := rootnode |>))
    end.
