(* ===== verification/TrieHash.v ===== *)
(** * Hashing and committing a trie ([trie/hasher.go], [Hash] and [CommitTo] of [trie/trie.go])

    The hasher goes through the nodes that have no usable cached hash.  With a writer
    it also stores them, and drops nodes that have not been used for some commits. *)

From S2P Require Import Prelude Interfaces StateTypes Hex VmData Rlp RlpStream TrieCodec.
From S2P Require Import TrieNode.

(** ** Encoding a collapsed node

    [shortNode] is a struct with two exported fields.  [fullNode.EncodeRLP] encodes
    the array of its children into the same buffer. *)
Definition shortNode_type : gtype := TPtr (TStruct [(no_tags, TBytes); (no_tags, TInterface)]).
Definition fullNode_type : gtype := TArray 17 TInterface.
Fixpoint node_value (n : node) : option (gtype * gval) :=
  match n with
  | nilNode => None
  | valueNode b | hashNode b => Some (TBytes, VBytes b)
  | shortNode k v _ => Some (shortNode_type, VPtr (Some (VList [VBytes k; VIface (node_value v)])))
  | fullNode cs _ => Some (fullNode_type, VList (map (λ c, VIface (node_value c)) cs))
  end.
Definition node_rlp (n : node) : outcome bytes :=
  match Encode TInterface (VIface (node_value n)) with
  | Ret (inl b) => Ret b
  | Ret (inr _) => Panic "encode error"
  | Panic w => Panic w
  end.

Definition cache (n : node) : outcome (option bytes * bool) :=
  match n with
  | fullNode _ f | shortNode _ _ f => Ret (nf_hash f, nf_dirty f)
  | hashNode _ | valueNode _ => Ret (None, true)
  | nilNode => Panic "nil pointer dereference"
  end.

(** The generations are 16-bit. *)
Definition u16 (z : Z) : Z := z mod 2 ^ 16.
Definition flag_canUnload (f : nodeFlag) (cachegen cachelimit : Z) : bool :=
  negb (nf_dirty f) && (u16 (cachegen - nf_gen f) >=? cachelimit).
Definition canUnload (n : node) (cachegen cachelimit : Z) : bool :=
  match n with
  | fullNode _ f | shortNode _ _ f => flag_canUnload f cachegen cachelimit
  | _ => false
  end.

Definition set_flags (n : node) (g : nodeFlag → nodeFlag) : node :=
  match n with
  | fullNode cs f => fullNode cs (g f)
  | shortNode k v f => shortNode k v (g f)
  | _ => n
  end.

Section Hasher.
Context {W : Type} `{WriterOps W}.
Variable keccak : bytes → hash.
Variables (cachegen cachelimit : Z).
(** Whether there is a writer; without one [w] is not used. *)
Variable writes : bool.

Definition store (n : node) (force : bool) (w : W) : outcome ((node * option gerror) * W) :=
  match n with
  | hashNode _ | nilNode => Ret ((n, None), w)
  | _ =>
    enc ← node_rlp n;
    if (blen enc <? 32) && negb force then Ret ((n, None), w)
    else
      c ← cache n;
      let hash := match c.1 with Some h => h | None => hash_bytes (keccak enc) end in
      if writes then let '(w, err) := Put hash enc w in Ret ((hashNode hash, err), w)
      else Ret ((hashNode hash, None), w)
  end.

(** The answer from the cache, if it can be used. *)
Definition from_cache (n : node) : outcome (option (node * node)) :=
  c ← cache n;
  Ret match c with
      | (Some h, dirty) =>
        if negb writes then Some (hashNode h, n)
        else if canUnload n cachegen cachelimit then Some (hashNode h, hashNode h)
        else if negb dirty then Some (hashNode h, n)
        else None
      | (None, _) => None
      end.

Section Children.
Variable hash : node → W → outcome ((node * node * option gerror) * W).

(** The children from the [i]-th on: sixteen are hashed, the value is kept. *)
Definition hash_all : list node → nat → W → outcome ((list node * list node * option gerror) * W) :=
  fix go cs i w :=
    match cs with
    | [] => Ret (([], [], None), w)
    | c :: cs =>
      if (i <? 16)%nat then
        '((collapsed, cached, err), w) ← match c with
                                         | nilNode => Ret ((valueNode [], nilNode, None), w)
                                         | _ => hash c w
                                         end;
        match err with
        | Some e => Ret (([], [], Some e), w)
        | None => '((cols, cachs, err), w) ← go cs (S i) w; Ret ((collapsed :: cols, cached :: cachs, err), w)
        end
      else
        '((cols, cachs, err), w) ← go cs (S i) w;
        Ret ((match c with nilNode => valueNode [] | _ => c end :: cols, c :: cachs, err), w)
    end.

Definition hashChildren (original : node) (w : W) : outcome ((node * node * option gerror) * W) :=
  match original with
  | shortNode k val f =>
    ck ← hexToCompact k;
    match val with
    | valueNode _ => Ret ((shortNode ck val f, shortNode k val f, None), w)
    | _ =>
      '((collapsed, cached, err), w) ← hash val w;
      match err with
      | Some e => Ret ((original, original, Some e), w)
      | None => Ret ((shortNode ck (match collapsed with nilNode => valueNode [] | _ => collapsed end) f, shortNode k cached f, None), w)
      end
    end
  | fullNode cs f =>
    '((collapsed, cached, err), w) ← hash_all cs 0 w;
    match err with
    | Some e => Ret ((original, original, Some e), w)
    | None => Ret ((fullNode collapsed f, fullNode cached f, None), w)
    end
  | _ => Ret ((original, original, None), w)
  end.
End Children.

Fixpoint hasher_hash (n : node) (force : bool) (w : W) {struct n} : outcome ((node * node * option gerror) * W) :=
  c ← from_cache n;
  match c with
  | Some (hash, n') => Ret ((hash, n', None), w)
  | None =>
    '((collapsed, cached, err), w) ← hashChildren (λ c w, hasher_hash c false w) n w;
    match err with
    | Some e => Ret ((hashNode [], n, Some e), w)
    | None =>
      '((hashed, err), w) ← store collapsed force w;
      match err with
      | Some e => Ret ((hashNode [], n, Some e), w)
      | None =>
        let cachedHash := match hashed with hashNode h => Some h | _ => None end in
        Ret ((hashed, set_flags cached (λ f, mkFlag cachedHash (nf_gen f) (if writes then false else nf_dirty f)), None), w)
      end
    end
  end.

Definition hashRoot (t : Trie) (w : W) : outcome ((node * node * option gerror) * W) :=
  match t_root t with
  | nilNode => Ret ((hashNode (hash_bytes emptyRoot), nilNode, None), w)
  | root => hasher_hash root true w
  end.
End Hasher.

(** The writer that is not there. *)
#[export] Instance no_writer : WriterOps unit := { Put _ _ w := (w, None) }.

(** [hash.(hashNode)] *)
Definition as_hash (n : node) : outcome hash :=
  match n with hashNode h => Ret (BytesToHash h) | _ => Panic "interface conversion" end.

Definition Trie_Hash (keccak : bytes → hash) (t : Trie) : outcome (hash * Trie) :=
  '((h, cached, _), _) ← hashRoot keccak (t_cachegen t) (t_cachelimit t) false t tt;
  r ← as_hash h;
  Ret (r, t <| t_root := cached |>).

Definition Trie_CommitTo {W} `{WriterOps W} (keccak : bytes → hash) (t : Trie) (w : W) : outcome ((hash * option gerror * Trie) * W) :=
  '((h, cached, err), w) ← hashRoot keccak (t_cachegen t) (t_cachelimit t) true t w;
  match err with
  | Some e => Ret ((hash0, Some e, t), w)
  | None =>
    r ← as_hash h;
    Ret ((r, None, (t <| t_root := cached |>) <| t_cachegen := u16 (t_cachegen t + 1) |>), w)
  end.

(** A store that never fails. *)
#[export] Instance kvstore_writer : WriterOps kvstore := { Put k v w := (<[k := v]> w, None) }.
