(* ===== verification/TrieTree.v ===== *)
(** * Tries as mathematical trees

    The tree a trie stands for: no hashes, no caches, everything in it.  A well-formed
    tree is in the minimal form the operations keep, and then its shape is determined
    by the values it has. *)

From S2P Require Import Prelude Interfaces StateTypes Hex VmData TrieCodec.

Inductive tree : Type :=
| TNil
| TValue (v : bytes)
| TShort (k : bytes) (t : tree)
| TFull (cs : list tree).

#[export] Instance tree_nil_dec (t : tree) : Decision (t = TNil).
Proof. destruct t; [by left|right; done..]. Defined.

Section TreeInd.
Variable P : tree → Prop.
Hypothesis HNil : P TNil.
Hypothesis HValue : ∀ v, P (TValue v).
Hypothesis HShort : ∀ k t, P t → P (TShort k t).
Hypothesis HFull : ∀ cs, Forall P cs → P (TFull cs).

Fixpoint tree_nested_ind (t : tree) : P t :=
  match t with
  | TNil => HNil
  | TValue v => HValue v
  | TShort k t => HShort k t (tree_nested_ind t)
  | TFull cs => HFull cs ((fix go cs : Forall P cs :=
      match cs with [] => Forall_nil_2 P | t :: cs => Forall_cons_2 P t cs (tree_nested_ind t) (go cs) end) cs)
  end.
End TreeInd.

Definition idx (x : Byte.byte) : nat := Z.to_nat (byte_val x).

(** The value under a hex key, empty if there is none. *)
Fixpoint tget (t : tree) (key : bytes) {struct t} : bytes :=
  match t with
  | TNil => []
  | TValue v => v
  | TShort k c => if decide (take (length k) key = k) then tget c (drop (length k) key) else []
  | TFull cs =>
    match key with
    | [] => []
    | x :: key =>
      (fix go cs i := match cs, i with c :: _, O => tget c key | _ :: cs, S i => go cs i | [], _ => [] end) cs (idx x)
    end
  end.

Lemma tget_full cs x key : tget (TFull cs) (x :: key) = match cs !! idx x with Some c => tget c key | None => [] end.
Proof. cbn [tget]. generalize (idx x). induction cs as [|c cs IH]; intros [|i]; [done..|]. apply IH. Qed.

Lemma tget_short k c key : tget (TShort k c) (k ++ key) = tget c key.
Proof. cbn [tget]. rewrite decide_True by apply take_app_length. by rewrite drop_app_length. Qed.

Lemma tget_short_inv k c key : tget (TShort k c) key ≠ [] → ∃ rest, key = k ++ rest ∧ tget c rest ≠ [].
Proof.
  cbn [tget]. destruct (decide _) as [E|]; [|done]. intros H. exists (drop (length k) key). split; [|done].
  by rewrite <- E at 1; rewrite take_drop.
Qed.

Lemma tget_short_other k c key : (∀ rest, key ≠ k ++ rest) → tget (TShort k c) key = [].
Proof.
  intros H. destruct (decide (tget (TShort k c) key = [])) as [|Hne]; [done|].
  apply tget_short_inv in Hne as (rest & -> & _). by destruct (H rest).
Qed.
Opaque tget.

Lemma tget_nil key : tget TNil key = [].
Proof. done. Qed.
Lemma tget_value v key : tget (TValue v) key = v.
Proof. done. Qed.

(** ** Well-formed trees

    A position in a tree is at a value if the terminator has been passed.  [wf d L t]:
    [t] is a tree for a position of kind [d] whose keys have at most [L] more symbols.
    A short node is followed by a value or a full node, a full node has two children. *)
Definition value_ok (v : bytes) : Prop := v ≠ [] ∧ blen v < 2 ^ 32.
Definition is_short (t : tree) : bool := match t with TShort _ _ => true | _ => false end.

Inductive wf : bool → nat → tree → Prop :=
| wf_value L v : value_ok v → wf true L (TValue v)
| wf_short d L k t :
    k ≠ [] → path d k → (length k ≤ L)%nat → is_short t = false → wf d (L - length k) t → wf false L (TShort k t)
| wf_full L cs :
    length cs = 17%nat → (1 ≤ L)%nat →
    (∀ i c, cs !! i = Some c → c ≠ TNil → wf (bool_decide (i = 16%nat)) (L - 1) c) →
    (∃ i j c c', i ≠ j ∧ cs !! i = Some c ∧ cs !! j = Some c' ∧ c ≠ TNil ∧ c' ≠ TNil) →
    wf false L (TFull cs).

Definition wf0 (d : bool) (L : nat) (t : tree) : Prop := t = TNil ∨ wf d L t.

(** The keys of a position. *)
Definition keyat (d : bool) (key : bytes) : Prop := if d then key = [] else hexkey key.

Lemma keyat_cons x key : keyat false (x :: key) ↔ (idx x ≤ 16)%nat ∧ keyat (bool_decide (idx x = 16%nat)) key.
Proof.
  unfold keyat, idx. pose proof (byte_val_range x). split.
  - intros (ns & Hn & E). destruct ns as [|y ns]; simplify_eq/=; [by split|].
    inversion Hn as [|? ? Hy Hn']; subst. unfold nibble in Hy. split; [lia|].
    rewrite bool_decide_false by lia. by exists ns.
  - intros [Hx Hk]. destruct (decide (Z.to_nat (byte_val x) = 16%nat)) as [E|E].
    + rewrite bool_decide_true in Hk by done. subst key. exists []. split; [constructor|].
      assert (x = terminator) as ->; [|done]. apply byte_val_inj. rewrite terminator_val. lia.
    + rewrite bool_decide_false in Hk by done. destruct Hk as (ns & Hn & ->). exists (x :: ns). split; [|done].
      constructor; [|done]. unfold nibble. lia.
Qed.

Lemma keyat_false_cons rest : keyat false rest → ∃ x r, rest = x :: r.
Proof. intros (ns & _ & ->). destruct ns; by do 2 eexists. Qed.

Lemma keyat_path d k rest : path d k → keyat d rest → keyat false (k ++ rest).
Proof.
  intros (ns & Hn & ->) Hr. destruct d; unfold keyat in *.
  - subst rest. exists ns. by rewrite app_nil_r.
  - destruct Hr as (ms & Hm & ->). exists (ns ++ ms). split; [by apply Forall_app|]. by rewrite app_assoc.
Qed.

Lemma path_cons d x k : path d (x :: k) → (idx x = 16%nat ∧ d = true ∧ k = []) ∨ ((idx x < 16)%nat ∧ path d k).
Proof.
  pose proof (byte_val_range x). intros (ns & Hn & E). destruct ns as [|y ns].
  { destruct d; [|done]. simplify_eq/=. by left. }
  inversion Hn as [|? ? Hy Hn']; subst. unfold nibble in Hy.
  right. destruct d; simplify_eq/=; (split; [unfold idx; lia|]); by exists ns.
Qed.

Lemma path_app d p k : k ≠ [] → path d (p ++ k) → path false p ∧ path d k.
Proof.
  intros Hk. induction p as [|x p IH]; [intros H; split; [by exists []|done]|].
  intros [(_ & _ & E)|[Hx Hp]]%path_cons; [by destruct p, k|]. destruct (IH Hp) as [(ns & Hn & ->) ?]. split; [|done].
  exists (x :: ns). split; [|done]. constructor; [|done]. unfold nibble, idx in *. pose proof (byte_val_range x). lia.
Qed.

Lemma path_cat d p k : path false p → path d k → path d (p ++ k).
Proof.
  intros (ns & Hn & ->) (ms & Hm & ->). exists (ns ++ ms). split; [by apply Forall_app|].
  destruct d; [by rewrite app_assoc|done].
Qed.

Lemma keyat_path_inv d k rest : path d k → keyat false (k ++ rest) → keyat d rest.
Proof.
  revert d. induction k as [|x k IH]; intros d Hp Hk.
  { destruct Hp as (ns & _ & E). destruct d; [by destruct ns|done]. }
  apply keyat_cons in Hk as [Hx Hk]. apply path_cons in Hp as [(E & -> & ->)|[Hlt Hp]].
  - by rewrite bool_decide_true in Hk.
  - rewrite bool_decide_false in Hk by lia. by apply IH.
Qed.

Lemma idx_byte_of i : (i < 256)%nat → idx (byte_of (Z.of_nat i)) = i.
Proof. intros. unfold idx. rewrite byte_val_of, Z.mod_small by lia. lia. Qed.
Lemma byte_of_idx x : byte_of (Z.of_nat (idx x)) = x.
Proof. unfold idx. pose proof (byte_val_range x). rewrite Z2Nat.id by lia. apply byte_of_val. Qed.
#[export] Instance idx_inj : Inj (=) (=) idx.
Proof. intros x y H. by rewrite <- (byte_of_idx x), <- (byte_of_idx y), H. Qed.

Lemma wf_true L t : wf true L t → ∃ v, t = TValue v ∧ value_ok v.
Proof. inversion 1; subst; by eexists. Qed.

Lemma wf_not_nil d L t : wf d L t → t ≠ TNil.
Proof. by inversion 1. Qed.

(** ** Keys of a tree *)

Lemma wf_has_key d L t : wf d L t → ∃ key, keyat d key ∧ (length key ≤ L)%nat ∧ tget t key ≠ [].
Proof.
  induction 1 as [L v [Hv _]|d L k t Hne Hp Hl Hs Hw (key & Hk & Hlen & Hg)|L cs Hlen HL Hcs IH (i & j & c & c' & Hij & Hi & Hj & Hc & Hc')].
  - exists []. split; [done|]. split; [simpl; lia|by rewrite tget_value].
  - exists (k ++ key). split; [by eapply keyat_path|]. rewrite length_app, tget_short. split; [lia|done].
  - pose proof (lookup_lt_Some _ _ _ Hi). destruct (IH i c Hi Hc) as (key & Hk & Hl & Hg).
    exists (byte_of (Z.of_nat i) :: key). rewrite keyat_cons, tget_full, idx_byte_of, Hi by lia. split_and!; [lia|done|simpl; lia|done].
Qed.

Lemma wf_full_other L cs x : wf false L (TFull cs) → ∃ y key, y ≠ x ∧ keyat false (y :: key) ∧ (length (y :: key) ≤ L)%nat ∧ tget (TFull cs) (y :: key) ≠ [].
Proof.
  inversion 1 as [| |? ? Hlen HL Hcs (i & j & c & c' & Hij & Hi & Hj & Hc & Hc')]; subst.
  assert (∃ n cn, cs !! n = Some cn ∧ cn ≠ TNil ∧ n ≠ idx x) as (n & cn & Hn & Hcn & Hne).
  { destruct (decide (i = idx x)) as [->|]; [by exists j, c'|by exists i, c]. }
  pose proof (lookup_lt_Some _ _ _ Hn). destruct (wf_has_key _ _ _ (Hcs n cn Hn Hcn)) as (key & Hk & Hl & Hg). exists (byte_of (Z.of_nat n)), key.
  rewrite keyat_cons, tget_full, idx_byte_of, Hn by lia. split_and!; [|lia|done|simpl; lia|done].
  intros <-. by rewrite idx_byte_of in Hne by lia.
Qed.

(** ** The tree is determined by its values *)

Definition same_values (d : bool) (t t' : tree) : Prop := ∀ key, keyat d key → tget t key = tget t' key.

Lemma same_values_sym d t t' : same_values d t t' → same_values d t' t.
Proof. intros H key Hk. by rewrite H. Qed.

(** A short node and a full node never have the same keys. *)
Lemma short_full_differ L L' k c cs : wf false L (TShort k c) → wf false L' (TFull cs) → ¬ same_values false (TShort k c) (TFull cs).
Proof.
  intros H1 H2 Hs. inversion H1 as [|? ? ? ? Hne|]; subst. destruct k as [|x k]; [done|].
  destruct (wf_full_other _ _ x H2) as (y & key & Hy & Hk & _ & Hg). rewrite <- Hs in Hg by done.
  apply tget_short_inv in Hg as (rest & E & _). by simplify_eq/=.
Qed.

(** Neither key of two short nodes with the same values goes on after the other. *)
Lemma short_keys_same L L' k x r c c' p :
  wf false L (TShort (p ++ x :: r) c) → wf false L' (TShort k c') → k = p →
  ¬ same_values false (TShort (p ++ x :: r) c) (TShort k c').
Proof.
  intros H1 H2 -> Hs. inversion H1 as [|d ? ? ? Hne Hp Hl Hsh Hw|]; subst. inversion H2 as [|d' ? ? ? Hne' Hp' Hl' Hsh' Hw'|]; subst.
  apply path_app in Hp as [Hp Hx]; [|done]. assert (d' = false) as ->.
  { destruct d'; [|done]. destruct Hp' as (ns & Hn & ->). destruct Hp as (ms & Hm & E). cbn in E. subst ms.
    apply Forall_app in Hm as [_ Hm]. by inversion Hm. }
  destruct c' as [|v|k' c'|cs]; [by inversion Hw'|by inversion Hw'|done|].
  destruct (wf_full_other _ _ x Hw') as (y & key & Hy & Hk & _ & Hg).
  assert (tget (TShort (p ++ x :: r) c) (p ++ y :: key) ≠ []) as Hg'.
  { rewrite Hs by by eapply keyat_path. by rewrite tget_short. }
  apply tget_short_inv in Hg' as (rest & E & _). rewrite <- app_assoc in E. apply app_inv_head in E. by simplify_eq/=.
Qed.

Lemma short_same_key L L' k k' c c' :
  wf false L (TShort k c) → wf false L' (TShort k' c') → same_values false (TShort k c) (TShort k' c') → k = k'.
Proof.
  intros H1 H2 Hs. destruct (prefixLen_split k k') as (p & r & r' & -> & -> & _ & Hd). destruct r as [|x r], r' as [|y r']; [done|..].
  - destruct (short_keys_same L' L (p ++ []) y r' c' c p H2 H1); [by rewrite app_nil_r|by apply same_values_sym].
  - destruct (short_keys_same L L' (p ++ []) x r c c' p H1 H2); [by rewrite app_nil_r|done].
  - exfalso. destruct (wf_has_key _ _ _ H1) as (key & Hk & _ & Hg). assert (Hg' := Hg). rewrite Hs in Hg' by done.
    apply tget_short_inv in Hg as (rest & -> & _). apply tget_short_inv in Hg' as (rest' & E & _).
    rewrite <- !app_assoc in E. apply app_inv_head in E. by simplify_eq/=.
Qed.

Lemma wf_unique d L t : wf d L t → ∀ L' t', wf d L' t' → same_values d t t' → t = t'.
Proof.
  induction 1 as [L v Hv|d L k t Hne Hp Hl Hs Hw IH|L cs Hlen HL Hcs IH Htwo]; intros L' t' Hw' Hv'.
  - apply wf_true in Hw' as (v' & -> & _). specialize (Hv' [] eq_refl). by rewrite !tget_value in Hv'; subst.
  - assert (H : wf false L (TShort k t)) by by econstructor. destruct t' as [|v'|k' t'|cs']; [by inversion Hw'|by inversion Hw'| |].
    + assert (k = k') as <- by by eapply short_same_key. f_equal. inversion Hw' as [|d' ? ? ? Hne' Hp' Hl' Hs' Hw2|]; subst.
      assert (d' = d) as ->.
      { destruct Hp as (ns & Hn & ->), Hp' as (ms & Hm & E). destruct d, d'; try done; cbn in E.
        - subst ms. apply Forall_app in Hm as [_ Hm]. by inversion Hm.
        - subst ns. apply Forall_app in Hn as [_ Hn]. by inversion Hn. }
      apply (IH _ _ Hw2). intros key Hk. specialize (Hv' (k ++ key)). rewrite !tget_short in Hv'.
      apply Hv'. by eapply keyat_path.
    + by destruct (short_full_differ L L' k t cs').
  - assert (H : wf false L (TFull cs)) by by constructor. destruct t' as [|v'|k' t'|cs']; [by inversion Hw'|by inversion Hw'| |].
    { destruct (short_full_differ L' L k' t' cs); [done..|by apply same_values_sym]. }
    f_equal. inversion Hw' as [| |? ? Hlen' HL' Hcs' Htwo']; subst.
    apply list_eq_same_length with 17%nat; [done..|]. intros i c c' Hi Hc Hc'.
    assert (Hs : same_values (bool_decide (i = 16%nat)) c c').
    { intros key Hk. specialize (Hv' (byte_of (Z.of_nat i) :: key)). rewrite !tget_full, idx_byte_of, Hc, Hc' in Hv' by lia.
      apply Hv'. rewrite keyat_cons, idx_byte_of by lia. split; [lia|done]. }
    destruct (decide (c = TNil)) as [->|Hn], (decide (c' = TNil)) as [->|Hn']; [done|..].
    + destruct (wf_has_key _ _ _ (Hcs' i c' Hc' Hn')) as (key & Hk & _ & Hg). by rewrite <- Hs, tget_nil in Hg.
    + destruct (wf_has_key _ _ _ (Hcs i c Hc Hn)) as (key & Hk & _ & Hg). by rewrite Hs, tget_nil in Hg.
    + by eapply IH, Hs; [..|by apply Hcs'].
Qed.

Lemma wf0_unique d L t L' t' : wf0 d L t → wf0 d L' t' → same_values d t t' → t = t'.
Proof.
  intros [->|Hw] [->|Hw'] Hs; [done|..|by eapply wf_unique].
  - destruct (wf_has_key _ _ _ Hw') as (key & Hk & _ & Hg). by rewrite <- Hs, tget_nil in Hg.
  - destruct (wf_has_key _ _ _ Hw) as (key & Hk & _ & Hg). by rewrite Hs, tget_nil in Hg.
Qed.
