(* ===== verification/TrieEdit.v ===== *)
(** * Editing trees

    What the local changes of [insert] and [delete] do to the values of a tree, and
    that they keep it well-formed. *)

From S2P Require Import Prelude Interfaces StateTypes Hex VmData TrieCodec TrieTree.

(** [t'] is [t] with the value under [key] replaced by [v]; no value is the empty
    one. *)
Definition updated (d : bool) (key v : bytes) (t t' : tree) : Prop :=
  ∀ key', keyat d key' → tget t' key' = if decide (key' = key) then v else tget t key'.

(** A short node, or none if its key is empty. *)
Definition attach (k : bytes) (t : tree) : tree := match k with [] => t | _ => TShort k t end.

Lemma tget_attach k t r : tget (attach k t) (k ++ r) = tget t r.
Proof. destruct k as [|x k]; [done|]. apply (tget_short (x :: k)). Qed.

Lemma wf_mono d L t : wf d L t → ∀ L', (L ≤ L')%nat → wf d L' t.
Proof.
  induction 1 as [L v Hv|d L k t Hne Hp Hl Hs Hw IH|L cs Hlen HL Hcs IH Htwo]; intros L' HL'; [by constructor|..].
  - econstructor; [done..|lia|done|]. apply IH. lia.
  - constructor; [done|lia| |done]. intros i c Hi Hc. apply (IH i c Hi Hc). lia.
Qed.

Lemma updated_short d k key v t t' : path d k → updated d key v t t' → updated false (k ++ key) v (TShort k t) (TShort k t').
Proof.
  intros Hp Hu key' Hk. destruct (decide (take (length k) key' = k)) as [E|E].
  - assert (∃ r, key' = k ++ r) as [r ->] by (exists (drop (length k) key'); by rewrite <- E at 1; rewrite take_drop).
    rewrite !tget_short, Hu by (by eapply keyat_path_inv). destruct (decide (r = key)) as [->|Hne]; [by rewrite !decide_True by done|].
    rewrite !decide_False; [done|by intros ?%app_inv_head|done].
  - assert (∀ r, key' ≠ k ++ r) by (intros r ->; by rewrite take_app_length in E).
    rewrite !tget_short_other by done. by rewrite decide_False by done.
Qed.

Lemma updated_full cs x c c' key v :
  cs !! idx x = Some c → updated (bool_decide (idx x = 16%nat)) key v c c' →
  updated false (x :: key) v (TFull cs) (TFull (<[idx x := c']> cs)).
Proof.
  intros Hc Hu key' Hk. destruct (keyat_false_cons key' Hk) as (y & r & ->). apply keyat_cons in Hk as [Hy Hr].
  rewrite !tget_full. pose proof (lookup_lt_Some _ _ _ Hc). destruct (decide (y = x)) as [->|Hne].
  - rewrite list_lookup_insert_eq, Hc, Hu by done. destruct (decide (r = key)) as [->|Hn]; [by rewrite !decide_True by done|].
    rewrite !decide_False; [done|by intros [= ->]|done].
  - rewrite list_lookup_insert_ne by (intros E; by apply (inj idx) in E). rewrite decide_False; [done|]. by intros [= ->].
Qed.

Lemma wf_full_set L cs x c :
  wf false L (TFull cs) → wf (bool_decide (idx x = 16%nat)) (L - 1) c → (idx x ≤ 16)%nat → wf false L (TFull (<[idx x := c]> cs)).
Proof.
  intros Hw Hc Hx. inversion Hw as [| |? ? Hlen HL Hcs (i & j & ci & cj & Hij & Hi & Hj & Hni & Hnj)]; subst.
  constructor; [by rewrite length_insert|done|..].
  - intros n cn Hn Hnn. apply list_lookup_insert_Some in Hn as [(<- & <- & _)|[_ Hn]]; [done|]. by apply Hcs.
  - assert (∃ n cn, n ≠ idx x ∧ cs !! n = Some cn ∧ cn ≠ TNil) as (n & cn & Hne & Hn & Hnn).
    { destruct (decide (i = idx x)) as [->|]; [by exists j, cj|by exists i, ci]. }
    exists (idx x), n, c, cn. rewrite list_lookup_insert_eq, list_lookup_insert_ne by (done || lia).
    split_and!; [done..|by eapply wf_not_nil|done].
Qed.

(** ** A leaf *)

Lemma hexkey_path key : keyat false key ↔ path true key.
Proof. done. Qed.

Lemma updated_leaf key v : keyat false key → updated false key v TNil (TShort key (TValue v)).
Proof.
  intros Hk key' Hk'. rewrite tget_nil. destruct (decide (key' = key)) as [->|Hne].
  - rewrite <- (app_nil_r key) at 2. by rewrite tget_short, tget_value.
  - apply tget_short_other. intros r ->. pose proof (keyat_path_inv true key r Hk Hk') as E. simpl in E. subst r.
    by rewrite app_nil_r in Hne.
Qed.

Lemma wf_leaf L key v : keyat false key → (length key ≤ L)%nat → value_ok v → wf false L (TShort key (TValue v)).
Proof.
  intros Hk Hl Hv. apply (wf_short true); [|done|done|done|by constructor]. by destruct (keyat_false_cons key Hk) as (x & r & ->).
Qed.

(** ** A short node is split *)

Lemma wf_attach_child d y r t M N :
  path d (y :: r) → wf d M t → is_short t = false → (length r + M ≤ N)%nat → wf (bool_decide (idx y = 16%nat)) N (attach r t).
Proof.
  intros Hp Hw Hs Hl. apply path_cons in Hp as [(Hy & -> & ->)|[Hy Hp]].
  - rewrite bool_decide_true by done. eapply wf_mono; [exact Hw|]. simpl in Hl. lia.
  - rewrite bool_decide_false by lia. destruct r as [|z r].
    + destruct Hp as (ns & _ & E). destruct d; [by destruct ns|]. eapply wf_mono; [exact Hw|]. simpl in Hl. lia.
    + cbn [attach]. eapply wf_short; [done|done|lia|done|]. eapply wf_mono; [exact Hw|]. lia.
Qed.

Definition branch (x y : Byte.byte) (a b : tree) : list tree := <[idx x := a]> (<[idx y := b]> (replicate 17 TNil)).

Lemma branch_lookup x y a b i c : x ≠ y → (idx x ≤ 16)%nat → (idx y ≤ 16)%nat →
  branch x y a b !! i = Some c ↔ (i = idx x ∧ c = a) ∨ (i = idx y ∧ c = b) ∨ (i ≠ idx x ∧ i ≠ idx y ∧ (i < 17)%nat ∧ c = TNil).
Proof.
  intros Hne Hx Hy. assert (idx x ≠ idx y) by (intros E; by apply (inj idx) in E). unfold branch.
  rewrite list_lookup_insert_Some, list_lookup_insert_Some, lookup_replicate, length_insert, length_replicate. naive_solver lia.
Qed.

Lemma wf_branch L x y a b :
  x ≠ y → (idx x ≤ 16)%nat → (idx y ≤ 16)%nat → (1 ≤ L)%nat →
  wf (bool_decide (idx x = 16%nat)) (L - 1) a → wf (bool_decide (idx y = 16%nat)) (L - 1) b → wf false L (TFull (branch x y a b)).
Proof.
  intros Hne Hx Hy HL Ha Hb. constructor; [unfold branch; by rewrite !length_insert, length_replicate|done|..].
  - intros i c Hi Hc. apply branch_lookup in Hi as [[-> ->]|[[-> ->]|(_ & _ & _ & ->)]]; done.
  - exists (idx x), (idx y), a, b. rewrite !branch_lookup by done.
    split_and!; [intros E; by apply (inj idx) in E|by left|by right; left|by eapply wf_not_nil..].
Qed.

Lemma tget_branch x y a b z r : x ≠ y → (idx x ≤ 16)%nat → (idx y ≤ 16)%nat →
  tget (TFull (branch x y a b)) (z :: r) = if decide (z = x) then tget a r else if decide (z = y) then tget b r else [].
Proof.
  intros Hne Hx Hy. rewrite tget_full. destruct (branch x y a b !! idx z) as [c|] eqn:E.
  - apply branch_lookup in E as [[Ez ->]|[[Ez ->]|(Hzx & Hzy & _ & ->)]]; [..|done|done|done].
    + apply (inj idx) in Ez as ->. by rewrite !decide_True by done.
    + apply (inj idx) in Ez as ->. rewrite decide_False, decide_True by done. done.
    + rewrite !decide_False by (by intros ->). done.
  - rewrite !decide_False; [done|..]; intros ->; apply lookup_ge_None in E; unfold branch in E; rewrite !length_insert, length_replicate in E; lia.
Qed.

Lemma updated_split d c x ra y rb t v :
  x ≠ y → path d (c ++ y :: rb) → keyat false (c ++ x :: ra) →
  updated false (c ++ x :: ra) v (TShort (c ++ y :: rb) t)
    (attach c (TFull (branch x y (attach ra (TValue v)) (attach rb t)))).
Proof.
  intros Hne Hp Hk. assert (Hc : path false c ∧ path d (y :: rb)) by (by apply path_app in Hp). destruct Hc as [Hc Hy].
  assert (Hkx := keyat_path_inv false c (x :: ra) Hc Hk). apply keyat_cons in Hkx as [Hx Hra].
  assert ((idx y ≤ 16)%nat) by (apply path_cons in Hy as [(?&_)|[? _]]; lia).
  intros key' Hk'. destruct (decide (take (length c) key' = c)) as [E|E].
  - assert (∃ r, key' = c ++ r) as [r ->] by (exists (drop (length c) key'); by rewrite <- E at 1; rewrite take_drop).
    rewrite tget_attach. assert (Hr := keyat_path_inv false c r Hc Hk'). destruct (keyat_false_cons r Hr) as (z & r' & ->).
    apply keyat_cons in Hr as [Hz Hr']. rewrite tget_branch by done. destruct (decide (z = x)) as [->|Hzx].
    + destruct (decide (r' = ra)) as [->|Hn].
      * rewrite (decide_True _ _ (eq_refl (c ++ x :: ra))). rewrite <- (app_nil_r ra) at 2. by rewrite tget_attach.
      * rewrite (decide_False (P := c ++ x :: r' = _)) by (by intros [= ->]%app_inv_head).
        rewrite (tget_short_other (c ++ y :: rb)) by (intros q Eq; rewrite <- app_assoc in Eq; apply app_inv_head in Eq; by simplify_eq/=).
        destruct ra as [|z ra].
        { destruct (decide (idx x = 16%nat)) as [E16|]; [rewrite bool_decide_true in Hr', Hra by done; by simpl in *|].
          rewrite bool_decide_false in Hra by done. by destruct (keyat_false_cons [] Hra) as (? & ? & ?). }
        cbn [attach]. assert (idx x ≠ 16%nat) as H16 by (intros ?; rewrite bool_decide_true in Hra by done; by simpl in Hra).
        rewrite bool_decide_false in Hra, Hr' by done. apply tget_short_other. intros q ->.
        pose proof (keyat_path_inv true _ q Hra Hr') as Eq. simpl in Eq. subst q. by rewrite app_nil_r in Hn.
    + rewrite (decide_False (P := c ++ z :: r' = _)) by (by intros [= -> ?]%app_inv_head). destruct (decide (z = y)) as [->|Hzy].
      * destruct (decide (take (length rb) r' = rb)) as [E'|E'].
        -- assert (∃ q, r' = rb ++ q) as [q ->] by (exists (drop (length rb) r'); by rewrite <- E' at 1; rewrite take_drop).
           rewrite tget_attach. change (c ++ y :: rb ++ q) with (c ++ (y :: rb) ++ q). by rewrite app_assoc, tget_short.
        -- destruct rb as [|z rb]; [by destruct r'|]. cbn [attach]. rewrite !tget_short_other; [done|..].
           ++ intros q Eq. rewrite <- app_assoc in Eq. apply app_inv_head in Eq. simplify_eq/=. by rewrite take_app_length in E'.
           ++ intros q ->. by rewrite take_app_length in E'.
      * rewrite tget_short_other; [done|]. intros q Eq. rewrite <- app_assoc in Eq. apply app_inv_head in Eq. by simplify_eq/=.
  - assert (Ho : ∀ r, key' ≠ c ++ r) by (intros r ->; by rewrite take_app_length in E).
    rewrite decide_False by apply Ho. destruct c as [|z c]; [by destruct (Ho key')|]. cbn [attach].
    rewrite !tget_short_other; [done|intros q Eq; by rewrite <- app_assoc in Eq; apply Ho in Eq|apply Ho].
Qed.

(** ** A node is removed *)

Lemma tget_nested k k' t key : tget (TShort (k ++ k') t) key = tget (TShort k (TShort k' t)) key.
Proof.
  destruct (decide (take (length k) key = k)) as [E|E].
  - assert (∃ r, key = k ++ r) as [r ->] by (exists (drop (length k) key); by rewrite <- E at 1; rewrite take_drop).
    rewrite tget_short. destruct (decide (take (length k') r = k')) as [E'|E'].
    + assert (∃ q, r = k' ++ q) as [q ->] by (exists (drop (length k') r); by rewrite <- E' at 1; rewrite take_drop).
      by rewrite app_assoc, !tget_short.
    + rewrite !tget_short_other; [done|..].
      * intros q ->. by rewrite take_app_length in E'.
      * intros q Eq. rewrite <- app_assoc in Eq. apply app_inv_head in Eq as ->. by rewrite take_app_length in E'.
  - rewrite !tget_short_other; [done|..].
    + intros q ->. by rewrite take_app_length in E.
    + intros q ->. by rewrite <- app_assoc, take_app_length in E.
Qed.

(** A short node in front of a tree, merged with it if that is short too. *)
Definition prepend (k : bytes) (t : tree) : tree :=
  match t with TShort k' c => TShort (k ++ k') c | _ => TShort k t end.

Lemma tget_prepend k t key : tget (prepend k t) key = tget (TShort k t) key.
Proof. destruct t; [done..| |done]. apply tget_nested. Qed.

Lemma wf_prepend d L k t : k ≠ [] → path d k → (length k ≤ L)%nat → wf d (L - length k) t → wf false L (prepend k t).
Proof.
  intros Hne Hp Hl Hw. destruct t as [|v|k' c|cs]; [by inversion Hw|by eapply wf_short| |by eapply wf_short].
  inversion Hw as [|d' ? ? ? Hne' Hp' Hl' Hs Hc|]; subst. apply (wf_short d'); [by destruct k|by apply path_cat|rewrite length_app; lia|done|].
  rewrite length_app. by replace (L - (length k + length k'))%nat with (L - length k - length k')%nat by lia.
Qed.

(** Full nodes left with one child. *)
Lemma only_one_get ts j c : ts !! j = Some c → (j < 17)%nat →
  (∀ i c', ts !! i = Some c' → c' ≠ TNil → i = j) →
  ∀ key, keyat false key → tget (prepend [byte_of (Z.of_nat j)] c) key = tget (TFull ts) key.
Proof.
  intros Hj Hlt Ho key Hk. destruct (keyat_false_cons key Hk) as (x & r & ->). rewrite tget_prepend, tget_full.
  destruct (decide (idx x = j)) as [<-|Hne].
  - rewrite byte_of_idx, Hj. apply (tget_short [x]).
  - rewrite tget_short_other.
    + destruct (ts !! idx x) as [c'|] eqn:E; [|done]. destruct (decide (c' = TNil)) as [->|Hn]; [done|]. by destruct Hne, (Ho _ _ E Hn).
    + intros q Eq. simplify_eq/=. by rewrite idx_byte_of in Hne by lia.
Qed.

Lemma wf_only_one L j c : (j ≤ 16)%nat → (1 ≤ L)%nat → wf (bool_decide (j = 16%nat)) (L - 1) c → wf false L (prepend [byte_of (Z.of_nat j)] c).
Proof.
  intros Hj HL Hw. eapply wf_prepend; [done| |simpl; lia|exact Hw]. destruct (decide (j = 16%nat)) as [->|Hne].
  - rewrite bool_decide_true by done. by exists [].
  - rewrite bool_decide_false by done. exists [byte_of (Z.of_nat j)]. split; [|done]. constructor; [|done]. apply nibble_of. lia.
Qed.

(** After a deletion a full node has two children left or one. *)
Definition one_left (ts : list tree) (j : nat) (c : tree) : Prop :=
  ts !! j = Some c ∧ c ≠ TNil ∧ ∀ i c', ts !! i = Some c' → c' ≠ TNil → i = j.
Definition two_left (ts : list tree) : Prop :=
  ∃ i j c c', i ≠ j ∧ ts !! i = Some c ∧ ts !! j = Some c' ∧ c ≠ TNil ∧ c' ≠ TNil.

Lemma wf_full_set0 L ts x c :
  wf false L (TFull ts) → wf0 (bool_decide (idx x = 16%nat)) (L - 1) c → (idx x ≤ 16)%nat →
  two_left (<[idx x := c]> ts) → wf false L (TFull (<[idx x := c]> ts)).
Proof.
  intros Hw Hc Hx Ht. destruct Hc as [->|Hc]; [|by apply wf_full_set]. inversion Hw as [| |? ? Hlen HL Hcs _]; subst.
  constructor; [by rewrite length_insert|done| |done]. intros i ci Hi Hn.
  apply list_lookup_insert_Some in Hi as [(_ & <- & _)|[_ Hi]]; [done|]. by apply Hcs.
Qed.

(** The only child left is one the node had before, or the changed one. *)
Lemma one_left_wf L ts x c j cj :
  wf false L (TFull ts) → wf0 (bool_decide (idx x = 16%nat)) (L - 1) c → one_left (<[idx x := c]> ts) j cj →
  wf (bool_decide (j = 16%nat)) (L - 1) cj ∧ (j ≤ 16)%nat.
Proof.
  intros Hw Hc (Hj & Hn & _). inversion Hw as [| |? ? Hlen HL Hcs _]; subst. assert (j < 17)%nat by (apply lookup_lt_Some in Hj; by rewrite length_insert, Hlen in Hj).
  split; [|lia]. apply list_lookup_insert_Some in Hj as [(<- & <- & _)|[_ Hj]]; [by destruct Hc|by apply Hcs].
Qed.

Lemma none_left L ts x c : wf false L (TFull ts) → ¬ (∀ i c', <[idx x := c]> ts !! i = Some c' → c' = TNil).
Proof.
  inversion 1 as [| |? ? Hlen HL Hcs (i & j & ci & cj & Hij & Hi & Hj & Hni & Hnj)]; subst. intros Hall.
  destruct (decide (i = idx x)) as [->|Hne].
  - apply Hnj, (Hall j). by rewrite list_lookup_insert_ne.
  - apply Hni, (Hall i). by rewrite list_lookup_insert_ne.
Qed.
