(* ===== verification/TrieEnc.v ===== *)
(** * Stored nodes

    The bytes a tree has in the database and how it is named in its parent: a short
    encoding stands there itself, a longer one is replaced by its hash.  Decoding the
    bytes gives the top of the tree back. *)

From S2P Require Import Prelude Interfaces StateTypes Hex VmData Rlp RlpLayout RlpStream.
From S2P Require Import RlpRead RlpRaw TrieCodec TrieNode TrieTree.

Definition compact (k : bytes) : bytes := match hexToCompact k with Ret c => c | Panic _ => [] end.

Lemma compact_path d k : path d k → hexToCompact k = Ret (compact k) ∧ compactToHex (compact k) = Ret k ∧ blen (compact k) ≤ Z.of_nat (length k) + 1.
Proof. intros H. destruct (compact_back d k H) as (c & Hc & Hb & Hl). unfold compact. rewrite Hc. split_and!; [done..|]. unfold blen. lia. Qed.

Section Enc.
Variable keccak : bytes → hash.

Definition is_node (t : tree) : bool := match t with TShort _ _ | TFull _ => true | _ => false end.

(** The encoding, and the reference to it. *)
Definition reference (t : tree) (e : bytes) : bytes :=
  if is_node t && (32 <=? blen e) then rlp_string (hash_bytes (keccak e)) else e.
Fixpoint enc (t : tree) : bytes :=
  match t with
  | TNil => rlp_string []
  | TValue v => rlp_string v
  | TShort k c => rlp_list (rlp_string (compact k) ++ reference c (enc c))
  | TFull cs => rlp_list (concat (map (λ c, reference c (enc c)) cs))
  end.
Definition cref (t : tree) : bytes := reference t (enc t).

Definition node_hash (t : tree) : bytes := hash_bytes (keccak (enc t)).
Definition big (t : tree) : bool := is_node t && (32 <=? blen (enc t)).

Lemma cref_eq t : cref t = if big t then rlp_string (node_hash t) else enc t.
Proof. done. Qed.
Lemma enc_short k c : enc (TShort k c) = rlp_list (rlp_string (compact k) ++ cref c).
Proof. done. Qed.
Lemma enc_full cs : enc (TFull cs) = rlp_list (concat (map cref cs)).
Proof. done. Qed.

(** The node that decoding gives: the children that are embedded are decoded with
    their parent. *)
Fixpoint shallow (oh : option bytes) (gen : Z) (t : tree) : node :=
  let sref c := if big c then hashNode (node_hash c) else shallow None gen c in
  match t with
  | TNil => nilNode
  | TValue v => valueNode v
  | TShort k c => shortNode k (sref c) (mkFlag oh gen false)
  | TFull cs => fullNode (map sref cs) (mkFlag oh gen false)
  end.
Definition sref (gen : Z) (c : tree) : node := if big c then hashNode (node_hash c) else shallow None gen c.

(** ** Sizes *)

Lemma length_hash_bytes h : length (hash_bytes h) = 32%nat.
Proof. apply length_be_bytes. Qed.

Lemma enc_item t : is_item (enc t).
Proof. destruct t; [apply item_string|apply item_string|apply item_list|apply item_list]. Qed.
Lemma cref_item t : is_item (cref t).
Proof. rewrite cref_eq. destruct (big t); [apply item_string|apply enc_item]. Qed.

Lemma enc_nil : enc TNil = rlp_string [].
Proof. done. Qed.
Lemma cref_value v : cref (TValue v) = rlp_string v.
Proof. done. Qed.
Opaque enc.

Lemma blen_string_hash h : blen (rlp_string (hash_bytes h)) = 33.
Proof.
  pose proof (length_hash_bytes h) as E. unfold rlp_string. destruct (hash_bytes h) as [|x [|y b]] eqn:Eh; [done..|].
  rewrite blen_app, blen_puthead by (unfold blen; lia). unfold blen. rewrite E. done.
Qed.

Lemma cref_size d L t : wf0 d L t → blen (cref t) ≤ 2 ^ 32 + 9.
Proof.
  assert (Hn : ∀ t, is_node t = true → blen (cref t) ≤ 33).
  { intros t' Ht. rewrite cref_eq. unfold big. rewrite Ht. cbn [andb]. destruct (Z.leb_spec 32 (blen (enc t'))); [unfold node_hash; by rewrite blen_string_hash|lia]. }
  intros [->|H]; [done|]. inversion H as [? v [_ Hv]| |]; subst; [|specialize (Hn (TShort k t0) eq_refl); lia|specialize (Hn (TFull cs) eq_refl); lia].
  rewrite cref_value. pose proof (blen_rlp_string_le v). lia.
Qed.

Lemma blen_concat (es : list bytes) m : Forall (λ e, blen e ≤ m) es → blen (concat es) ≤ m * Z.of_nat (length es).
Proof. induction 1 as [|e es He _ IH]; [change (0 ≤ m * 0); lia|]. cbn [concat length]. rewrite blen_app. lia. Qed.

Lemma wf_child L cs i c : wf false L (TFull cs) → cs !! i = Some c → wf0 (bool_decide (i = 16%nat)) (L - 1) c.
Proof.
  inversion 1 as [| |? ? Hlen HL Hcs _]; subst. intros Hi. destruct (decide (c = TNil)) as [->|Hn]; [by left|right; by apply Hcs].
Qed.

Lemma full_refs_size L cs : wf false L (TFull cs) → blen (concat (map cref cs)) < 2 ^ 40.
Proof.
  intros Hw. assert (Forall (λ e, blen e ≤ 2 ^ 32 + 9) (map cref cs)) as Hs.
  { apply Forall_fmap, Forall_lookup. intros i c Hi. by eapply cref_size, wf_child. }
  apply blen_concat in Hs. rewrite length_map in Hs. inversion Hw as [| |? ? Hlen]; subst. rewrite Hlen in Hs. lia.
Qed.

Lemma short_refs_size L k c : wf false L (TShort k c) → Z.of_nat L ≤ 2 ^ 32 → blen (rlp_string (compact k) ++ cref c) < 2 ^ 40.
Proof.
  intros Hw HL. inversion Hw as [|d ? ? ? Hne Hp Hl Hs Hc|]; subst. destruct (compact_path d k Hp) as (_ & _ & Hk).
  pose proof (cref_size _ _ _ (or_intror Hc)). assert (Z.of_nat (length k) ≤ 2 ^ 32) by lia.
  rewrite blen_app. pose proof (blen_rlp_string_le (compact k)). lia.
Qed.

Lemma enc_size L t : wf false L t → Z.of_nat L ≤ 2 ^ 32 → blen (enc t) < 2 ^ 41.
Proof.
  intros Hw HL. inversion Hw; subst.
  - pose proof (short_refs_size _ _ _ Hw HL). rewrite enc_short. pose proof (blen_rlp_list_bounds (rlp_string (compact k) ++ cref t0)). lia.
  - pose proof (full_refs_size _ _ Hw). rewrite enc_full. pose proof (blen_rlp_list_bounds (concat (map cref cs))). lia.
Qed.

(** ** Decoding *)

(** Decoding embedded children of [t]. *)
Definition decodes (dn : option bytes → bytes → res nodeError node) (gen : Z) (t : tree) : Prop :=
  is_node t = true → big t = false → ∀ r, blen r < 2 ^ 62 → dn None (enc t ++ r) = rok (shallow None gen t).

Lemma enc_is_list t : is_node t = true → ∃ c, enc t = rlp_list c.
Proof. destruct t; [done..| |]; intros _; eexists; [apply enc_short|apply enc_full]. Qed.

Lemma decodeRef_ref dn gen L t r :
  wf0 false L t → decodes dn gen t → blen r < 2 ^ 62 → decodeRef dn (cref t ++ r) = rok (sref gen t, r).
Proof.
  intros Hw Hd Hr. unfold decodeRef, sref. rewrite cref_eq. destruct (big t) eqn:Eb.
  - assert (blen (rlp_string (node_hash t) ++ r) < 2 ^ 63) as Hb.
    { rewrite blen_app. unfold node_hash. rewrite blen_string_hash. lia. }
    rewrite (Split_reads _ _ _ _ (reads_string (node_hash t)) Hb). rstep.
    pose proof (length_hash_bytes (keccak (enc t))) as E. unfold string_kind, node_hash in *.
    destruct (hash_bytes (keccak (enc t))) as [|x [|y b]] eqn:Eh; [done..|]. unfold blen. by rewrite E.
  - destruct Hw as [->|Hw].
    { rewrite enc_nil. rewrite (Split_reads _ _ _ _ (reads_string [])); [done|]. rewrite blen_app. change (blen (rlp_string [])) with 1. lia. }
    assert (is_node t = true) as Ht by by inversion Hw. unfold big in Eb. rewrite Ht in Eb. cbn [andb] in Eb. apply Z.leb_gt in Eb.
    destruct (enc_is_list t Ht) as [c Hc]. rewrite Hc at 1. rewrite (Split_reads _ _ _ _ (reads_list c)) by (rewrite <- Hc, blen_app; lia).
    rstep. rewrite blen_app, Z.add_simpl_r. unfold hashLen. rewrite gtb_le by lia.
    rewrite Hd; [done..| |done]. unfold big. rewrite Ht. cbn [andb]. by apply Z.leb_gt.
Qed.

Lemma decodeChildren_refs dn gen L places cs r :
  length places = length cs → Forall (wf0 false L) cs → Forall (decodes dn gen) cs → blen (concat (map cref cs) ++ r) < 2 ^ 62 →
  decodeChildren dn places (concat (map cref cs) ++ r) = rok (map (sref gen) cs, r).
Proof.
  revert cs. induction places as [|i places IH]; intros [|c cs] Hl Hw Hd Hb; [done|done|done|].
  injection Hl as Hl. cbn [map concat decodeChildren] in *.
  inversion Hw; inversion Hd; subst. rewrite <- app_assoc in *. rewrite blen_app in Hb. pose proof (blen_nonneg (cref c)).
  erewrite decodeRef_ref by (done || lia). rstep. rewrite IH by (done || lia). done.
Qed.

Lemma shallow_short oh gen k c : shallow oh gen (TShort k c) = shortNode k (sref gen c) (mkFlag oh gen false).
Proof. done. Qed.
Lemma shallow_full oh gen cs : shallow oh gen (TFull cs) = fullNode (map (sref gen) cs) (mkFlag oh gen false).
Proof. done. Qed.

Lemma path_hasTerm d k : path d k → hasTerm k = d.
Proof. intros (ns & Hn & ->). destruct d; [apply hasTerm_snoc|by apply nibbles_no_term]. Qed.

Lemma decodeShort_enc dn gen oh L k c :
  wf false L (TShort k c) → Z.of_nat L ≤ 2 ^ 32 → decodes dn gen c →
  decodeShort dn oh (rlp_string (compact k) ++ cref c) gen = rok (shallow oh gen (TShort k c)).
Proof.
  intros Hw HL Hd. pose proof (short_refs_size _ _ _ Hw HL) as Hb. rewrite shallow_short.
  inversion Hw as [|d ? ? ? Hne Hp Hl Hs Hc|]; subst. destruct (compact_path d k Hp) as (_ & Hk & _).
  unfold decodeShort. rewrite SplitString_reads by lia. rstep. rewrite Hk. rstep.
  rewrite (path_hasTerm d k Hp). rewrite <- (app_nil_r (cref c)). rewrite blen_app in Hb. pose proof (blen_nonneg (rlp_string (compact k))). destruct d.
  - apply wf_true in Hc as (v & -> & _). rewrite cref_value in *. rewrite SplitString_reads by (rewrite app_nil_r; lia). done.
  - erewrite decodeRef_ref; [done|by right|done|done].
Qed.

Lemma decodeFull_enc dn gen oh L cs :
  wf false L (TFull cs) → Forall (decodes dn gen) cs →
  decodeFull dn oh (concat (map cref cs)) gen = rok (shallow oh gen (TFull cs)).
Proof.
  intros Hw Hd. pose proof (full_refs_size _ _ Hw) as Hb. rewrite shallow_full. inversion Hw as [| |? ? Hlen HL Hcs _]; subst.
  destruct (lookup_lt_is_Some_2 cs 16) as [c Hc]; [lia|]. rewrite <- (take_drop_middle cs 16 c Hc) in Hd, Hb |- *.
  assert (drop 17 cs = []) as E by (apply drop_ge; lia). rewrite E in *. rewrite map_app, concat_app in *. cbn [map concat] in *. rewrite app_nil_r in *.
  unfold decodeFull. apply Forall_app in Hd as [Hd _]. rewrite (decodeChildren_refs dn gen (L - 1)); [|rewrite length_take; by rewrite Hlen| |done|lia].
  2:{ apply Forall_lookup. intros i c' Hi. apply lookup_take_Some in Hi as [Hi Hlt]. pose proof (wf_child _ _ _ _ Hw Hi) as H.
      by rewrite bool_decide_false in H by lia. }
  rstep. pose proof (wf_child _ _ _ _ Hw Hc) as Hc'. rewrite bool_decide_true in Hc' by done. rewrite blen_app in Hb.
  pose proof (blen_nonneg (concat (map cref (take 16 cs)))). rewrite <- (app_nil_r (cref c)). destruct Hc' as [->|(v & -> & [Hv _])%wf_true].
  - rewrite cref_eq. cbn [big is_node andb]. by rewrite map_app.
  - rewrite cref_value in *. rewrite SplitString_reads by (rewrite app_nil_r; lia). rstep.
    rewrite map_app. destruct v as [|x v]; [done|]. rewrite blen_cons. pose proof (blen_nonneg v).
    by rewrite (proj2 (Z.gtb_lt _ _)) by lia.
Qed.

Definition children (t : tree) : list tree :=
  match t with TShort _ c => [c] | TFull cs => cs | _ => [] end.

Lemma decodeElems_enc dn gen oh L t r :
  wf false L t → Z.of_nat L ≤ 2 ^ 32 → Forall (decodes dn gen) (children t) → blen r < 2 ^ 62 →
  decodeElems dn oh (enc t ++ r) gen = rok (shallow oh gen t).
Proof.
  intros Hw HL Hd Hr. pose proof (enc_size _ _ Hw HL) as Hb. unfold decodeElems.
  assert (∃ c, enc t = rlp_list c) as [c Hc] by (apply enc_is_list; by inversion Hw).
  pose proof (reads_not_nil _ _ _ (reads_list c)) as Hne. rewrite <- Hc in Hne.
  rewrite (proj2 (Z.eqb_neq _ _)) by (rewrite blen_app; pose proof (blen_nonneg r); destruct (enc t) as [|b0 b]; [done|]; rewrite blen_cons; pose proof (blen_nonneg b); lia).
  destruct t as [|v|k c0|cs]; [by inversion Hw|by inversion Hw|..].
  - rewrite enc_short. rewrite SplitList_reads by (rewrite blen_app, <- enc_short; lia). rstep.
    pose proof (short_refs_size _ _ _ Hw HL) as Hs. assert (CountValues (rlp_string (compact k) ++ cref c0) = Ret (inl 2)) as ->.
    { pose proof (CountValues_items [rlp_string (compact k); cref c0]) as H. cbn [concat length] in H. rewrite app_nil_r in H. apply H; [|lia].
      by repeat constructor; [apply item_string|apply cref_item]. }
    rstep. inversion Hd; subst. by erewrite decodeShort_enc.
  - rewrite enc_full. rewrite SplitList_reads by (rewrite blen_app, <- enc_full; lia). rstep.
    pose proof (full_refs_size _ _ Hw) as Hs. inversion Hw as [| |? ? Hlen _ _ _]; subst.
    rewrite CountValues_items; [|apply Forall_fmap, Forall_true; intros; apply cref_item|lia]. rewrite length_map, Hlen.
    rstep. by erewrite decodeFull_enc.
Qed.

Lemma small_child_shorter L t c : wf false L t → Z.of_nat L ≤ 2 ^ 32 → In c (children t) → is_node c = true → big c = false → (length (enc c) < length (enc t))%nat.
Proof.
  intros Hw HL Hc Hn Hb. assert (enc c = cref c) as E by (rewrite cref_eq; by rewrite Hb). rewrite E.
  cut (blen (cref c) < blen (enc t)); [unfold blen; lia|]. destruct t as [|v|k c0|cs]; [done|done|..].
  - destruct Hc as [->|[]]. rewrite enc_short. pose proof (short_refs_size _ _ _ Hw HL).
    pose proof (blen_rlp_list_bounds (rlp_string (compact k) ++ cref c)). rewrite blen_app in *. pose proof (blen_nonneg (rlp_string (compact k))). lia.
  - cbn [children] in Hc. apply list_elem_of_In, list_elem_of_split in Hc as (l1 & l2 & ->). pose proof (full_refs_size _ _ Hw). rewrite enc_full.
    pose proof (blen_rlp_list_bounds (concat (map cref (l1 ++ c :: l2)))). rewrite map_app, concat_app in *. cbn [map concat] in *. rewrite !blen_app in *.
    pose proof (blen_nonneg (concat (map cref l1))). pose proof (blen_nonneg (concat (map cref l2))). lia.
Qed.

Lemma node_child_wf L t c : wf false L t → In c (children t) → is_node c = true → ∃ L', wf false L' c ∧ (L' ≤ L)%nat.
Proof.
  intros Hw Hc Hn. destruct t as [|v|k c0|cs]; [done|done|..].
  - destruct Hc as [->|[]]. inversion Hw as [|d ? ? ? ? ? ? ? H|]; subst. exists (L - length k)%nat. split; [|lia].
    destruct d; [apply wf_true in H as (v & -> & _); done|done].
  - cbn [children] in Hc. apply list_elem_of_In, list_elem_of_lookup in Hc as [i Hi]. exists (L - 1)%nat. split; [|lia].
    destruct (wf_child _ _ _ _ Hw Hi) as [->|H]; [done|]. destruct (bool_decide (i = 16%nat)); [apply wf_true in H as (v & -> & _); done|done].
Qed.

Lemma decodeNode_enc_fuel gen fuel : ∀ oh L t r,
  wf false L t → Z.of_nat L ≤ 2 ^ 32 → blen r < 2 ^ 62 → (length (enc t) < fuel)%nat →
  decodeNode_fuel fuel gen oh (enc t ++ r) = rok (shallow oh gen t).
Proof.
  induction fuel as [|fuel IH]; intros oh L t r Hw HL Hr Hf; [lia|]. cbn [decodeNode_fuel].
  eapply decodeElems_enc; [done..| |done]. apply Forall_forall. intros c Hc%list_elem_of_In Hn Hb r' Hr'.
  destruct (node_child_wf _ _ _ Hw Hc Hn) as (L' & Hw' & HL'). pose proof (small_child_shorter _ _ _ Hw HL Hc Hn Hb).
  apply (IH None L'); [done|lia|done|lia].
Qed.

(** Decoding what is stored for a tree gives its top. *)
Lemma decodeNode_enc oh gen L t : wf false L t → Z.of_nat L ≤ 2 ^ 32 → decodeNode oh (enc t) gen = rok (shallow oh gen t).
Proof.
  intros Hw HL. unfold decodeNode. pose proof (decodeNode_enc_fuel gen (S (length (enc t))) oh L t [] Hw HL) as H.
  rewrite app_nil_r in H. apply H; [done|lia].
Qed.
End Enc.
