(* ===== verification/TrieRep.v ===== *)
(** * What a node in memory stands for

    [rep top n t]: the node [n] stands for the tree [t].  Parts of [n] may be hashes;
    then the database has them, and everything below them.  A hash that a node
    caches is the hash of its tree.  The root is hashed even if it is short, hence
    [top]. *)

From S2P Require Import Prelude Interfaces StateTypes Hex VmData Rlp RlpLayout RlpStream.
From S2P Require Import RlpRead RlpRaw TrieCodec TrieNode TrieTree TrieEnc.

Section Rep.
Variable keccak : bytes → hash.
Variable db : kvstore.
#[local] Abbreviation enc := (enc keccak).
#[local] Abbreviation big := (big keccak).
#[local] Abbreviation node_hash := (node_hash keccak).
#[local] Abbreviation shallow := (shallow keccak).
#[local] Abbreviation sref := (sref keccak).

(** The node is named by its hash. *)
Definition hashed (top : bool) (t : tree) : Prop := top = true ∨ big t = true.

(** Everything of the tree is in the database. *)
Inductive stored : bool → tree → Prop :=
| stored_nil top : stored top TNil
| stored_value top v : stored top (TValue v)
| stored_short top k c :
    (hashed top (TShort k c) → db !! node_hash (TShort k c) = Some (enc (TShort k c))) →
    stored false c → stored top (TShort k c)
| stored_full top cs :
    (hashed top (TFull cs) → db !! node_hash (TFull cs) = Some (enc (TFull cs))) →
    (∀ i c, cs !! i = Some c → stored false c) → stored top (TFull cs).

(** A cached hash is right, and a node that is not dirty has been written. *)
Definition flag_ok (top : bool) (f : nodeFlag) (t : tree) : Prop :=
  match nf_hash f with None => True | Some h => h = node_hash t ∧ hashed top t end ∧ (nf_dirty f = false → stored top t).

Inductive rep : bool → node → tree → Prop :=
| rep_nil top : rep top nilNode TNil
| rep_value top v : rep top (valueNode v) (TValue v)
| rep_short top k n f t : rep false n t → flag_ok top f (TShort k t) → rep top (shortNode k n f) (TShort k t)
| rep_full top cs f ts :
    length cs = length ts → (∀ i n t, cs !! i = Some n → ts !! i = Some t → rep false n t) →
    flag_ok top f (TFull ts) → rep top (fullNode cs f) (TFull ts)
| rep_hash top t : is_node t = true → hashed top t → stored top t → rep top (hashNode (node_hash t)) t.

Definition is_hash (n : node) : bool := match n with hashNode _ => true | _ => false end.

Lemma flag_ok_new top t gen : flag_ok top (newFlag gen) t.
Proof. done. Qed.
Lemma flag_ok_gen top f t gen : flag_ok top f t → flag_ok top (f <| nf_gen := gen |>) t.
Proof. done. Qed.

Lemma stored_here top t : stored top t → is_node t = true → hashed top t → db !! node_hash t = Some (enc t).
Proof. by destruct 1. Qed.

Lemma stored_top top t : stored top t → hashed top t → stored false t.
Proof.
  intros H Hh. destruct H; constructor; try done; intros _; auto.
Qed.

Lemma rep_sref gen t : stored false t → rep false (shallow None gen t) t → rep false (sref gen t) t.
Proof.
  intros Hs Hr. unfold TrieEnc.sref. destruct (big t) eqn:Eb; [|done]. constructor; [|by right|done]. by destruct t.
Qed.

(** What is read from the database stands for the tree. *)
Lemma rep_shallow gen t : ∀ top oh, stored top t → flag_ok top (mkFlag oh gen false) t → rep top (shallow oh gen t) t.
Proof.
  induction t as [|v|k c IH|cs IH] using tree_nested_ind; intros top oh Hs Hf; [constructor|constructor|..].
  - rewrite shallow_short. inversion Hs; subst. constructor; [|done]. apply rep_sref; [done|]. by apply IH.
  - rewrite shallow_full. inversion Hs as [| | |? ? ? Hcs]; subst. constructor; [by rewrite length_map| |done].
    intros i n t Hn Ht. change (map (sref gen) cs) with (sref gen <$> cs) in Hn. rewrite list_lookup_fmap, Ht in Hn. simplify_eq/=.
    specialize (Hcs i t Ht). rewrite Forall_lookup in IH. apply rep_sref; [done|]. by apply (IH i t Ht).
Qed.

Lemma rep_hash_inv top h t : rep top (hashNode h) t → is_node t = true ∧ h = node_hash t ∧ hashed top t ∧ stored top t.
Proof. by inversion 1. Qed.

(** A node that is not a hash has the shape of its tree. *)
Definition loaded (n : node) (t : tree) : Prop :=
  match n, t with
  | nilNode, TNil | valueNode _, TValue _ | shortNode _ _ _, TShort _ _ | fullNode _ _, TFull _ => True
  | _, _ => False
  end.
Lemma rep_loaded top n t : rep top n t → is_hash n = false → loaded n t.
Proof. by destruct 1. Qed.

(** A child is replaced. *)
Lemma rep_full_set top cs f ts x n t :
  rep top (fullNode cs f) (TFull ts) → rep false n t → ∀ f', flag_ok top f' (TFull (<[idx x := t]> ts)) →
  rep top (fullNode (set_child cs x n) f') (TFull (<[idx x := t]> ts)).
Proof.
  inversion 1 as [| | |? ? ? ? Hlen Hcs|]; subst. intros Hn f' Hf'. unfold set_child. change (Z.to_nat (byte_val x)) with (idx x).
  apply rep_full; [by rewrite !length_insert| |done]. intros i n' t' Hn' Ht'.
  apply list_lookup_insert_Some in Hn' as [(<- & <- & Hlt)|[Hne Hn']].
  - rewrite list_lookup_insert_eq in Ht' by lia. by simplify_eq.
  - rewrite list_lookup_insert_ne in Ht' by done. by eapply Hcs.
Qed.

End Rep.

(** ** Reading *)

Section Reading.
Variable keccak : bytes → hash.
(** The database; a trie without one has nothing to resolve. *)
Variable odb : option kvstore.
#[local] Abbreviation db := (default ∅ odb).
#[local] Abbreviation node_hash := (node_hash keccak).
#[local] Abbreviation hashed := (hashed keccak).
#[local] Abbreviation stored := (stored keccak db).
#[local] Abbreviation rep := (rep keccak db).

Lemma resolveHash_rep gen top L t prefix :
  is_node t = true → hashed top t → stored top t → wf false L t → Z.of_nat L ≤ 2 ^ 32 →
  ∃ n, resolveHash odb gen (node_hash t) prefix = rok n ∧ rep top n t ∧ is_hash n = false.
Proof.
  intros Hn Hh Hs Hw HL. exists (shallow keccak (Some (node_hash t)) gen t). unfold resolveHash, mustDecodeNode.
  pose proof (stored_here _ _ _ _ Hs Hn Hh) as Hd. destruct odb as [db|]; [|done]. simpl in *.
  rewrite Hd, (decodeNode_enc keccak _ _ _ _ Hw HL). split_and!; [done| |by destruct t].
  apply rep_shallow; [done|]. by split_and!.
Qed.

Lemma key_at_mid pre x rest : key_at (pre ++ x :: rest) (length pre) = Ret x.
Proof. unfold key_at, bytes. by rewrite (list_lookup_middle pre rest x (length pre)). Qed.
Lemma child_at cs x c : cs !! idx x = Some c → child cs x = Ret c.
Proof. unfold child, idx. by intros ->. Qed.

Definition steps (n : node) (rest : bytes) : nat := (2 * length rest + if is_hash n then 2 else 1)%nat.

Lemma wf0_node_false d L t : wf0 d L t → is_node t = true → d = false ∧ wf false L t.
Proof. intros [->|H] Hn; [done|]. by inversion H; subst. Qed.

(** The child of a full node for the next symbol of a key. *)
Lemma rep_full_child top cs f ts L x r :
  rep top (fullNode cs f) (TFull ts) → wf false L (TFull ts) → keyat false (x :: r) →
  ∃ c t, cs !! idx x = Some c ∧ ts !! idx x = Some t ∧ rep false c t ∧ wf0 (bool_decide (idx x = 16%nat)) (L - 1) t ∧
    (idx x ≤ 16)%nat ∧ keyat (bool_decide (idx x = 16%nat)) r.
Proof.
  inversion 1 as [| | |? ? ? ? Hlen Hcs Hfl|]; subst. intros Hw Hk. apply keyat_cons in Hk as [Hx Hr].
  assert (length ts = 17%nat) by by inversion Hw. destruct (lookup_lt_is_Some_2 ts (idx x)) as [t Ht]; [lia|].
  destruct (lookup_lt_is_Some_2 cs (idx x)) as [c Hc]; [lia|]. exists c, t. split_and!; [done..|by eapply Hcs|by eapply wf_child|done|done].
Qed.

Lemma tryGet_rep gen fuel : ∀ top n t d L pre rest,
  rep top n t → wf0 d L t → Z.of_nat L ≤ 2 ^ 32 → keyat d rest → (steps n rest ≤ fuel)%nat →
  ∃ n' b, tryGet odb gen fuel n (pre ++ rest) (length pre) = rok (tget t rest, n', b) ∧ rep top n' t.
Proof.
  induction fuel as [|fuel IH]; intros top n t d L pre rest Hr Hw HL Hk Hf; [unfold steps in Hf; destruct (is_hash n); lia|].
  assert (Hr' := Hr). destruct Hr as [top|top v|top k n f t Hn Hfl|top cs f ts Hlen Hcs Hfl|top t Hn Hh Hs].
  - by do 2 eexists.
  - by do 2 eexists.
  - apply wf0_node_false in Hw as [-> Hw]; [|done]. inversion Hw as [|d ? ? ? Hne Hp Hl Hsh Hc|]; subst. cbn [tryGet].
    rewrite drop_app_length. destruct (decide _) as [E|E].
    + assert (∃ r, rest = k ++ r) as [r ->] by (exists (drop (length k) rest); by rewrite <- E at 1; rewrite take_drop).
      rewrite tget_short.
      destruct (IH false n t d (L - length k)%nat (pre ++ k) r) as (n' & b & E' & Hr2);
        [done|by right|lia|by eapply keyat_path_inv| |].
      { unfold steps in *. cbn [is_hash] in Hf. rewrite length_app in Hf. destruct k; [done|]. cbn [length] in Hf. destruct (is_hash n); lia. }
      rewrite <- app_assoc, length_app in E'. rewrite E'. rstep. do 2 eexists. split; [done|]. destruct b; [|done]. by constructor.
    + rewrite tget_short_other; [by do 2 eexists|]. intros r ->. by rewrite take_app_length in E.
  - apply wf0_node_false in Hw as [-> Hw]; [|done]. destruct (keyat_false_cons _ Hk) as (x & r & ->).
    destruct (rep_full_child _ _ _ _ _ _ _ Hr' Hw Hk) as (c & t & Hc & Ht & Hct & Hwt & Hx & Hr2).
    cbn [tryGet]. rewrite key_at_mid. rstep. rewrite (child_at _ _ _ Hc). rstep.
    destruct (IH false c t _ (L - 1)%nat (pre ++ [x]) r Hct Hwt) as (n' & b & E' & Hr3); [lia|done| |].
    { unfold steps in *. cbn [is_hash length] in Hf. destruct (is_hash c); lia. }
    rewrite <- app_assoc, length_app, Nat.add_1_r in E'. cbn [app] in E'. rewrite E'. rstep. rewrite tget_full, Ht. do 2 eexists. split; [done|].
    destruct b; [|done]. rewrite <- (list_insert_id ts (idx x) t Ht). eapply rep_full_set; [done..|by rewrite list_insert_id].
  - apply wf0_node_false in Hw as [-> Hw]; [|done]. cbn [tryGet]. destruct (resolveHash_rep gen top L t (take (length pre) (pre ++ rest)) Hn Hh Hs Hw HL) as (n & E & Hrn & Hnh).
    rewrite E. rstep. destruct (IH top n t false L pre rest) as (n' & b & E' & Hr3); [done|by right|done|done|unfold steps in *; rewrite Hnh; cbn [is_hash] in Hf; lia|].
    rewrite E'. rstep. by do 2 eexists.
Qed.
End Reading.
