(* ===== verification/TrieUpdate.v ===== *)
(** * Inserting and deleting

    On a node that stands for a well-formed tree, [insert] and [delete] succeed and
    return a node for a well-formed tree with the one value changed. *)

From S2P Require Import Prelude Interfaces StateTypes Hex VmData Rlp RlpLayout RlpStream.
From S2P Require Import RlpRead RlpRaw TrieCodec TrieNode TrieTree TrieEdit TrieEnc TrieRep.

Section Update.
Variable keccak : bytes → hash.
Variable odb : option kvstore.
Variable gen : Z.
#[local] Abbreviation rep := (rep keccak (default ∅ odb)).
#[local] Abbreviation insert_node := (insert_node odb gen).
#[local] Abbreviation delete_node := (delete_node odb gen).

#[local] Instance nil_node_dec (n : node) : Decision (n = nilNode).
Proof. destruct n; [by left|right; done..]. Defined.

(** ** Insertion *)

Definition attach_node (k : bytes) (n : node) : node := match k with [] => n | _ => shortNode k n (newFlag gen) end.

Lemma insert_nil fuel prefix key value : insert_node (S fuel) nilNode prefix key value = rok (true, attach_node key value).
Proof. by destruct key, value. Qed.

Lemma rep_attach k n t : rep false n t → rep false (attach_node k n) (attach k t).
Proof. intros H. destruct k; [done|]. by constructor. Qed.

Lemma rep_branch top x y a b ta tb :
  x ≠ y → (idx x ≤ 16)%nat → (idx y ≤ 16)%nat → rep false a ta → rep false b tb →
  rep top (fullNode (set_child (set_child (replicate 17 nilNode) y b) x a) (newFlag gen)) (TFull (branch x y ta tb)).
Proof.
  intros Hne Hx Hy Ha Hb. assert (H0 : rep top (fullNode (replicate 17 nilNode) (newFlag gen)) (TFull (replicate 17 TNil))).
  { constructor; [done| |done]. intros i n t Hn Ht. apply lookup_replicate in Hn as [-> _], Ht as [-> _]. constructor. }
  unfold branch. eapply (rep_full_set _ _ _ _ (newFlag gen)); [|done|done]. eapply rep_full_set; done.
Qed.

(** The result of an insertion at a position of kind [d]. *)
Record inserted (top d : bool) (L : nat) (key v : bytes) (t : tree) (dirty : bool) (n' : node) (t' : tree) : Prop := {
  ins_rep : rep top n' t';
  ins_wf : wf d L t';
  ins_get : updated d key v t t';
  ins_same : dirty = false → t' = t;
  ins_shape : t ≠ TNil → is_short t = false → is_short t' = false
}.

(** Nothing changed: the old node is returned. *)
Lemma inserted_same top d L key v t n n' t' :
  rep top n t → inserted top d L key v t false n' t' → inserted top d L key v t false n t.
Proof. intros Hr [H1 H2 H3 H4 H5]. specialize (H4 eq_refl). subst. by constructor. Qed.

Lemma split_wf L c x ra y rb t v :
  x ≠ y → wf false L (TShort (c ++ y :: rb) t) → keyat false (c ++ x :: ra) → (length (c ++ x :: ra) ≤ L)%nat → value_ok v →
  (idx x ≤ 16)%nat ∧ (idx y ≤ 16)%nat ∧ path false c ∧
  wf false (L - length c) (TFull (branch x y (attach ra (TValue v)) (attach rb t))).
Proof.
  intros Hne Hw Hk Hl Hv. inversion Hw as [|d' ? ? ? Hnn Hp Hlk Hs Ht|]; subst. apply path_app in Hp as [Hc Hy]; [|done].
  assert (Hkx := keyat_path_inv false c (x :: ra) Hc Hk). assert (Hx := Hkx). apply keyat_cons in Hx as [Hx _].
  assert ((idx y ≤ 16)%nat) by (apply path_cons in Hy as [(?&_)|[? _]]; lia). rewrite !length_app in *. cbn [length] in *.
  split_and!; [done..|]. apply wf_branch; [done..|lia| |].
  - apply (wf_attach_child true x ra (TValue v) 0); [done|by constructor|done|lia].
  - eapply wf_attach_child; [done..|lia].
Qed.

Lemma wf_attach_full c L cs : path false c → wf false (L - length c) (TFull cs) → (length c ≤ L)%nat → wf false L (attach c (TFull cs)).
Proof.
  intros Hc Hw Hl. destruct c as [|z c]; [by rewrite Nat.sub_0_r in Hw|]. by eapply (wf_short false).
Qed.

(** Calls with [fuel] insert correctly. *)
Definition inserts (fuel : nat) : Prop := ∀ top n t d L prefix key v,
  rep top n t → wf0 d L t → Z.of_nat L ≤ 2 ^ 32 → keyat d key → (length key ≤ L)%nat → value_ok v → (steps n key ≤ fuel)%nat →
  ∃ dirty n' t', insert_node fuel n prefix key (valueNode v) = rok (dirty, n') ∧ inserted top d L key v t dirty n' t'.

Lemma insert_at_value fuel top n t L prefix v :
  rep top n t → wf0 true L t → value_ok v →
  ∃ dirty n' t', insert_node (S fuel) n prefix [] (valueNode v) = rok (dirty, n') ∧ inserted top true L [] v t dirty n' t'.
Proof.
  intros Hr Hw Hv. assert (Hu : ∀ t, updated true [] v t (TValue v)) by (intros t' key' ->; by rewrite decide_True by done).
  destruct Hw as [->|(v' & -> & Hv')%wf_true]; inversion Hr; subst; try done.
  - do 3 eexists. split; [done|]. constructor; [constructor|by constructor|apply Hu|done|done].
  - cbn [TrieNode.insert_node]. do 3 eexists. split; [done|]. constructor; [constructor|by constructor|apply Hu| |done].
    intros E. apply negb_false_iff, bool_decide_eq_true in E. by subst.
Qed.

Lemma drop_mid (c : bytes) z r : drop (S (length c)) (c ++ z :: r) = r.
Proof. rewrite drop_app_ge by lia. by replace (S (length c) - length c)%nat with 1%nat by lia. Qed.

(** The keys part: a branch is put in. *)
Lemma insert_split fuel top k0 krest n f t L prefix v c x ra y rb :
  k0 :: krest = c ++ x :: ra → x ≠ y → prefixLen (k0 :: krest) (c ++ y :: rb) = length c →
  rep false n t → wf false L (TShort (c ++ y :: rb) t) → keyat false (c ++ x :: ra) → (length (c ++ x :: ra) ≤ L)%nat → value_ok v →
  ∃ n' t', insert_node (S (S fuel)) (shortNode (c ++ y :: rb) n f) prefix (k0 :: krest) (valueNode v) = rok (true, n') ∧
    inserted top false L (c ++ x :: ra) v (TShort (c ++ y :: rb) t) true n' t'.
Proof.
  intros Ea Hd El Hr Hw Hk Hl Hv. destruct (split_wf L c x ra y rb t v Hd Hw Hk Hl Hv) as (Hx & Hy & Hpc & Hwb).
  inversion Hw as [|d ? ? ? _ Hp _ _ _|]; subst. remember (S fuel) as fuel' eqn:Ef. cbn [TrieNode.insert_node]. subst fuel'. rewrite El, Ea, (length_app c (y :: rb)).
  rewrite decide_False by (cbn [length]; lia). rewrite key_at_mid. rstep. rewrite !insert_nil. rstep. rewrite key_at_mid. rstep.
  rewrite !drop_mid, take_app_length.
  assert (Hb : ∀ top', rep top' (fullNode (set_child (set_child (replicate 17 nilNode) y (attach_node rb n)) x (attach_node ra (valueNode v))) (newFlag gen))
    (TFull (branch x y (attach ra (TValue v)) (attach rb t)))).
  { intros top'. apply rep_branch; [done..|apply rep_attach; constructor|by apply rep_attach]. }
  rewrite length_app in Hl. exists (if decide (length c = 0%nat) then fullNode (set_child (set_child (replicate 17 nilNode) y (attach_node rb n)) x (attach_node ra (valueNode v))) (newFlag gen)
    else shortNode c (fullNode (set_child (set_child (replicate 17 nilNode) y (attach_node rb n)) x (attach_node ra (valueNode v))) (newFlag gen)) (newFlag gen)).
  exists (attach c (TFull (branch x y (attach ra (TValue v)) (attach rb t)))). split; [by destruct c|].
  constructor; [|by apply wf_attach_full; [| |lia]|by eapply updated_split|done|done].
  destruct c as [|z c]; [apply Hb|]. by constructor.
Qed.

Lemma insert_short fuel top k0 krest k n f t L prefix v :
  inserts fuel → rep top (shortNode k n f) (TShort k t) → rep false n t → wf false L (TShort k t) → Z.of_nat L ≤ 2 ^ 32 →
  keyat false (k0 :: krest) → (length (k0 :: krest) ≤ L)%nat → value_ok v → (steps (shortNode k n f) (k0 :: krest) ≤ S fuel)%nat →
  ∃ dirty n' t', insert_node (S fuel) (shortNode k n f) prefix (k0 :: krest) (valueNode v) = rok (dirty, n') ∧
    inserted top false L (k0 :: krest) v (TShort k t) dirty n' t'.
Proof.
  intros IH Hr Hn Hw HL Hk Hl Hv Hf. assert (Hw2 := Hw). inversion Hw2 as [|d ? ? ? Hne Hp Hlk Hsh Hc|]; subst.
  destruct (prefixLen_split (k0 :: krest) k) as (c & ra & rb & Ea & Eb & El & Hd). subst k. destruct rb as [|y rb].
  - cbn [TrieNode.insert_node]. rewrite El. rewrite Ea in *. rewrite app_nil_r in *. rewrite decide_True by done.
    rewrite drop_app_length, take_app_length. rewrite length_app in Hl.
    destruct (IH false n t d (L - length c)%nat (prefix ++ c) ra v) as (dirty & n' & t' & E & Hi);
      [done|by right|lia|by eapply keyat_path_inv|lia|done| |].
    { unfold steps in *. cbn [is_hash] in Hf. rewrite length_app in Hf. destruct c; [done|]. cbn [length] in Hf. destruct (is_hash n); lia. }
    rewrite E. rstep. pose proof Hi as [I1 I2 I3 I4 I5]. destruct dirty; cbn [negb].
    + do 3 eexists. split; [done|]. constructor; [by constructor| |by apply (updated_short d)|done|done].
      eapply wf_short; [done..| |done]. apply I5; [by eapply wf_not_nil|done].
    + rewrite (I4 eq_refl) in I3. do 3 eexists. split; [done|]. by constructor; [|..|by apply (updated_short d)| |].
  - destruct ra as [|x ra].
    { exfalso. rewrite Ea, app_nil_r in Hk. destruct Hk as (ns & Hns & ->). apply path_app in Hp as [(ms & Hms & E) _]; [|done].
      subst ms. apply Forall_app in Hms as [_ Hms]. by inversion Hms. }
    destruct fuel as [|fuel]; [unfold steps in Hf; cbn [length is_hash] in Hf; lia|].
    rewrite Ea in Hk, Hl. destruct (insert_split fuel top k0 krest n f t L prefix v c x ra y rb) as (n' & t' & E & Hi); [done..|].
    exists true, n', t'. split; [exact E|]. by rewrite Ea.
Qed.

Lemma insert_full fuel top k0 krest cs f ts L prefix v :
  inserts fuel → rep top (fullNode cs f) (TFull ts) → wf false L (TFull ts) → Z.of_nat L ≤ 2 ^ 32 →
  keyat false (k0 :: krest) → (length (k0 :: krest) ≤ L)%nat → value_ok v → (steps (fullNode cs f) (k0 :: krest) ≤ S fuel)%nat →
  ∃ dirty n' t', insert_node (S fuel) (fullNode cs f) prefix (k0 :: krest) (valueNode v) = rok (dirty, n') ∧
    inserted top false L (k0 :: krest) v (TFull ts) dirty n' t'.
Proof.
  intros IH Hr Hw HL Hk Hl Hv Hf. destruct (rep_full_child _ _ _ _ _ _ _ _ _ Hr Hw Hk) as (c & t & Hc & Ht & Hct & Hwt & Hx & Hr2).
  cbn [TrieNode.insert_node]. rewrite (child_at _ _ _ Hc). rstep. cbn [length] in Hl.
  destruct (IH false c t _ (L - 1)%nat (prefix ++ [k0]) krest v Hct Hwt) as (dirty & n' & t' & E & Hi); [lia|done|lia|done| |].
  { unfold steps in *. cbn [is_hash length] in Hf. destruct (is_hash c); lia. }
  rewrite E. rstep. pose proof Hi as [I1 I2 I3 I4 I5]. destruct dirty; cbn [negb]; do 3 eexists; (split; [done|]).
  - constructor; [by eapply rep_full_set|by apply wf_full_set|by eapply updated_full|done|done].
  - rewrite (I4 eq_refl) in I3. constructor; [done|done| |done|done].
    rewrite <- (list_insert_id ts (idx k0) t Ht) at 2. by eapply updated_full.
Qed.

Lemma insert_rep fuel : inserts fuel.
Proof.
  induction fuel as [|fuel IH]; intros top n t d L prefix key v Hr Hw HL Hk Hl Hv Hf; [unfold steps in Hf; destruct (is_hash n); lia|].
  destruct key as [|k0 krest].
  { destruct d; [|by destruct (keyat_false_cons [] Hk) as (? & ? & ?)]. by apply insert_at_value. }
  assert (d = false) as -> by (by destruct d). assert (Hr' := Hr).
  destruct Hr as [top|top v'|top k n f t Hn Hfl|top cs f ts Hlen Hcs Hfl|top t Hn Hh Hs].
  - do 3 eexists. split; [done|]. constructor; [by apply rep_short; [constructor|]|by apply wf_leaf|by apply updated_leaf|done|done].
  - destruct Hw as [?|Hw]; [done|by inversion Hw].
  - apply wf0_node_false in Hw as [_ Hw]; [|done]. by apply insert_short.
  - apply wf0_node_false in Hw as [_ Hw]; [|done]. by apply insert_full.
  - apply wf0_node_false in Hw as [_ Hw]; [|done]. cbn [TrieNode.insert_node].
    destruct (resolveHash_rep keccak odb gen top L t prefix Hn Hh Hs Hw HL) as (n & E & Hrn & Hnh). rewrite E. rstep.
    destruct (IH top n t false L prefix (k0 :: krest) v) as (dirty & n' & t' & E' & Hi); [done|by right|done..|unfold steps in *; rewrite Hnh; cbn [is_hash] in Hf; lia|].
    rewrite E'. rstep. destruct dirty; cbn [negb]; do 3 eexists; (split; [done|]); [done|]. by eapply inserted_same.
Qed.

(** ** Deletion *)

Record deleted (top d : bool) (L : nat) (key : bytes) (t : tree) (dirty : bool) (n' : node) (t' : tree) : Prop := {
  del_rep : rep top n' t';
  del_wf : wf0 d L t';
  del_get : updated d key [] t t';
  del_same : dirty = false → t' = t;
  del_loaded : dirty = true → is_hash n' = false
}.

Lemma deleted_same top d L key t n n' t' :
  rep top n t → deleted top d L key t false n' t' → deleted top d L key t false n t.
Proof. intros Hr [H1 H2 H3 H4 H5]. specialize (H4 eq_refl). subst. by constructor. Qed.

Definition deletes (fuel : nat) : Prop := ∀ top n t d L prefix key,
  rep top n t → wf0 d L t → Z.of_nat L ≤ 2 ^ 32 → keyat d key → (steps n key ≤ fuel)%nat →
  ∃ dirty n' t', delete_node fuel n prefix key = rok (dirty, n') ∧ deleted top d L key t dirty n' t'.

(** Nothing to delete. *)
Lemma deleted_none top d L key t n : rep top n t → wf0 d L t → tget t key = [] → deleted top d L key t false n t.
Proof.
  intros Hr Hw Hg. constructor; [done|done| |done|done]. intros key' Hk. by destruct (decide (key' = key)) as [->|].
Qed.

(** A full node has something left after a deletion. *)
Lemma full_not_emptied L ts key t' : wf false L (TFull ts) → updated false key [] (TFull ts) t' → keyat false key → t' ≠ TNil.
Proof.
  intros Hw Hu Hk ->. destruct (keyat_false_cons key Hk) as (x & r & ->).
  destruct (wf_full_other _ _ x Hw) as (y & q & Hy & Hkq & _ & Hg). specialize (Hu _ Hkq).
  rewrite tget_nil, decide_False in Hu by (by intros [= ->]). by rewrite <- Hu in Hg.
Qed.

Lemma rep_prepend top k n t :
  rep false n t → is_hash n = false →
  rep top (match n with shortNode k' c _ => shortNode (k ++ k') c (newFlag gen) | _ => shortNode k n (newFlag gen) end) (prepend k t).
Proof.
  intros Hr Hn. inversion Hr; subst; cbn [prepend]; try done; by constructor.
Qed.

Lemma delete_short fuel top k n f t L prefix key :
  deletes fuel → rep top (shortNode k n f) (TShort k t) → rep false n t → wf false L (TShort k t) → Z.of_nat L ≤ 2 ^ 32 →
  keyat false key → (steps (shortNode k n f) key ≤ S fuel)%nat →
  ∃ dirty n' t', delete_node (S fuel) (shortNode k n f) prefix key = rok (dirty, n') ∧ deleted top false L key (TShort k t) dirty n' t'.
Proof.
  intros IH Hr Hn Hw HL Hk Hf. assert (Hw2 := Hw). inversion Hw2 as [|d ? ? ? Hne Hp Hlk Hsh Hc|]; subst.
  destruct (prefixLen_split key k) as (c & ra & rb & -> & -> & El & Hd). cbn [TrieNode.delete_node]. rewrite El, (length_app c rb). destruct rb as [|y rb].
  - rewrite app_nil_r in *. rewrite (proj2 (Nat.ltb_ge _ _)) by (cbn [length]; lia). rewrite Nat.add_0_r.
    assert (Hkr := keyat_path_inv _ _ _ Hp Hk). destruct ra as [|x ra].
    + rewrite decide_True by (by rewrite app_nil_r). do 3 eexists. split; [done|]. constructor; [constructor|by left| |done|done].
      assert (d = true) as -> by (destruct d; [done|]; by destruct (keyat_false_cons [] Hkr) as (? & ? & ?)).
      intros key' Hk'. rewrite tget_nil. destruct (decide (key' = c ++ [])) as [|Hn']; [done|]. symmetry. apply tget_short_other. intros r ->.
      assert (Er := keyat_path_inv _ _ _ Hp Hk'). simpl in Er. by subst.
    + rewrite decide_False by (rewrite length_app; cbn [length]; lia). rewrite drop_app_length, take_app_length.
      assert (d = false) as -> by (by destruct d). assert (∃ ts, t = TFull ts) as [ts ->] by (inversion Hc; subst; [done|by eexists]).
      destruct (IH false n (TFull ts) false (L - length c)%nat (prefix ++ c) (x :: ra)) as (dirty & n' & t' & E & Hi); [done|by right|lia|done| |].
      { unfold steps in *. cbn [is_hash] in Hf. rewrite length_app in Hf. destruct c; [done|]. cbn [length] in *. destruct (is_hash n); lia. }
      rewrite E. rstep. pose proof Hi as [I1 I2 I3 I4 I5]. pose proof (full_not_emptied _ _ _ _ Hc I3 Hkr) as Hne'. destruct I2 as [|I2]; [done|].
      destruct dirty; cbn [negb].
      * exists true, (match n' with shortNode k' c0 _ => shortNode (c ++ k') c0 (newFlag gen) | _ => shortNode c n' (newFlag gen) end), (prepend c t').
        split; [by destruct n'|]. constructor; [by apply rep_prepend; [|apply I5]|right; by eapply wf_prepend| |done|by intros _; destruct n'].
        intros key' Hk'. rewrite tget_prepend. by apply (updated_short false).
      * rewrite (I4 eq_refl) in I3. do 3 eexists. split; [done|]. constructor; [done|by right|by apply (updated_short false)|done|done].
  - rewrite (proj2 (Nat.ltb_lt _ _)) by (cbn [length]; lia). do 3 eexists. split; [done|]. apply deleted_none; [done|by right|].
    apply tget_short_other. intros r E. rewrite <- app_assoc in E. apply app_inv_head in E. destruct ra; by simplify_eq/=.
Qed.

Lemma only_child_more cs : ∀ i pos, 0 ≤ pos →
  (Forall (λ c, c = nilNode) cs ∧ only_child cs i pos = pos) ∨ (∃ j c, cs !! j = Some c ∧ c ≠ nilNode) ∧ only_child cs i pos = -2.
Proof.
  induction cs as [|c cs IH]; intros i pos Hp; [by left|]. destruct (decide (c = nilNode)) as [->|Hc].
  - destruct (IH (i + 1) pos Hp) as [[H1 H2]|[(j & c & H1 & H2) H3]]; [left; by split; [constructor|]|right]. split; [by exists (S j), c|done].
  - right. split; [by exists 0%nat, c|]. assert (E : pos =? -1 = false) by (apply Z.eqb_neq; lia). destruct c; [done|..]; cbn [only_child]; by rewrite E.
Qed.

(** What the loop over the children finds. *)
Lemma only_child_cases cs : ∀ i, 0 ≤ i →
  (Forall (λ c, c = nilNode) cs) ∨
  (∃ j c, cs !! j = Some c ∧ c ≠ nilNode ∧ (∀ j' c', cs !! j' = Some c' → c' ≠ nilNode → j' = j) ∧ only_child cs i (-1) = i + Z.of_nat j) ∨
  (∃ j j' c c', j ≠ j' ∧ cs !! j = Some c ∧ cs !! j' = Some c' ∧ c ≠ nilNode ∧ c' ≠ nilNode) ∧ only_child cs i (-1) = -2.
Proof.
  induction cs as [|c cs IH]; intros i Hi; [by left|]. destruct (decide (c = nilNode)) as [->|Hc].
  - destruct (IH (i + 1)) as [H1|[(j & c & H1 & H2 & H3 & H4)|[(j & j' & c & c' & H1 & H2 & H3 & H4 & H5) H6]]]; [lia|by left; constructor|..].
    + right. left. exists (S j), c. split_and!; [done|done| |cbn [only_child]; rewrite H4; lia]. intros [|j'] c' Hj Hn; [by simplify_eq/=|]. f_equal. by eapply H3.
    + right. right. split; [|done]. exists (S j), (S j'), c, c'. split_and!; [congruence|done..].
  - assert (E : only_child (c :: cs) i (-1) = only_child cs (i + 1) i) by by destruct c.
    destruct (only_child_more cs (i + 1) i Hi) as [[H1 H2]|[(j & c' & H1 & H2) H3]].
    + right. left. exists 0%nat, c. split_and!; [done|done| |rewrite E, H2; simpl; lia]. intros [|j'] c' Hj Hn; [done|].
      rewrite Forall_lookup in H1. by destruct Hn, (H1 j' c').
    + right. right. split; [|by rewrite E]. by exists 0%nat, (S j), c, c'.
Qed.

Lemma rep_nil_iff top n t : rep top n t → n = nilNode ↔ t = TNil.
Proof. destruct 1; try done. split; [done|]. by intros ->. Qed.

(** The same on the trees. *)
Lemma only_child_trees cs ts : length cs = length ts → (∀ i n t, cs !! i = Some n → ts !! i = Some t → rep false n t) →
  (∀ i c, ts !! i = Some c → c = TNil) ∨
  (∃ j n c, cs !! j = Some n ∧ one_left ts j c ∧ only_child cs 0 (-1) = Z.of_nat j) ∨
  (two_left ts ∧ only_child cs 0 (-1) = -2).
Proof.
  intros Hlen Hcs. assert (Hl : ∀ i n, cs !! i = Some n → ∃ t, ts !! i = Some t ∧ (n = nilNode ↔ t = TNil)).
  { intros i n Hn. destruct (lookup_lt_is_Some_2 ts i) as [t Ht]; [rewrite <- Hlen; by eapply lookup_lt_Some|]. exists t. split; [done|]. by eapply rep_nil_iff, Hcs. }
  assert (Hl' : ∀ i t, ts !! i = Some t → ∃ n, cs !! i = Some n ∧ (n = nilNode ↔ t = TNil)).
  { intros i t Ht. destruct (lookup_lt_is_Some_2 cs i) as [n Hn]; [rewrite Hlen; by eapply lookup_lt_Some|]. exists n. split; [done|]. by eapply rep_nil_iff, Hcs. }
  destruct (only_child_cases cs 0) as [H|[(j & n & Hj & Hn & Ho & E)|[(j & j' & n & n' & Hne & Hj & Hj' & Hn & Hn') E]]]; [lia|..].
  - left. intros i t Ht. destruct (Hl' i t Ht) as (n & Hn & <-). rewrite Forall_lookup in H. by eapply H.
  - right. left. destruct (Hl j n Hj) as (t & Ht & Hnt). exists j, n, t. split_and!; [done| |done]. split_and!; [done|by rewrite <- Hnt|].
    intros i c' Hi Hc'. destruct (Hl' i c' Hi) as (n' & Hn' & Hnn). apply (Ho i n' Hn'). by rewrite Hnn.
  - right. right. split; [|done]. destruct (Hl j n Hj) as (t & Ht & Hnt), (Hl j' n' Hj') as (t' & Ht' & Hnt').
    exists j, j', t, t'. split_and!; [done..|by rewrite <- Hnt|by rewrite <- Hnt'].
Qed.

(** What [delete] makes of a full node after a child was changed. *)
Definition collapse (cs : list node) (prefix : bytes) : TR (bool * node) :=
  let pos := only_child cs 0 (-1) in
  if pos >=? 0 then
    let! c := lift (child cs (byte_of pos)) in
    if pos =? 16 then rok (true, shortNode [byte_of pos] c (newFlag gen))
    else
      let! cnode := resolve odb gen c prefix in
      match cnode with
      | shortNode ckey cval _ => rok (true, shortNode (byte_of pos :: ckey) cval (newFlag gen))
      | _ => rok (true, shortNode [byte_of pos] c (newFlag gen))
      end
  else rok (true, fullNode cs (newFlag gen)).

Lemma resolve_rep top n t L prefix : rep top n t → wf false L t → Z.of_nat L ≤ 2 ^ 32 →
  ∃ n', resolve odb gen n prefix = rok n' ∧ rep top n' t ∧ is_hash n' = false.
Proof.
  intros Hr Hw HL. destruct n; try by eexists. apply rep_hash_inv in Hr as (Hn & -> & Hh & Hs). by eapply resolveHash_rep.
Qed.

(** The only child becomes a short node, merged with it if it is short. *)
Lemma collapse_one top L n c j prefix :
  rep false n c → wf (bool_decide (j = 16%nat)) (L - 1) c → (j ≤ 16)%nat → Z.of_nat L ≤ 2 ^ 32 →
  ∃ n', (if Z.of_nat j =? 16 then rok (true, shortNode [byte_of (Z.of_nat j)] n (newFlag gen))
         else let! cnode := resolve odb gen n prefix in
              match cnode with
              | shortNode ckey cval _ => rok (true, shortNode (byte_of (Z.of_nat j) :: ckey) cval (newFlag gen))
              | _ => rok (true, shortNode [byte_of (Z.of_nat j)] n (newFlag gen))
              end) = rok (true, n') ∧
    rep top n' (prepend [byte_of (Z.of_nat j)] c) ∧ is_hash n' = false.
Proof.
  intros Hr Hw Hj HL. destruct (Z.eqb_spec (Z.of_nat j) 16) as [E|E].
  - rewrite bool_decide_true in Hw by lia. apply wf_true in Hw as (v & -> & _). eexists. split_and!; [done| |done]. by constructor.
  - rewrite bool_decide_false in Hw by lia. destruct (resolve_rep false n c (L - 1) prefix Hr Hw) as (n' & E' & Hr' & Hl); [lia|].
    rewrite E'. rstep. destruct c as [|v|k c|cs]; [by inversion Hw|by inversion Hw|..].
    + inversion Hr'; subst; [|done]. eexists. split_and!; [done| |done]. by constructor.
    + inversion Hr'; subst; [|done]. eexists. split_and!; [done| |done]. by constructor.
Qed.

Lemma collapse_rep top L ts k0 c cs prefix :
  rep top (fullNode cs (newFlag gen)) (TFull (<[idx k0 := c]> ts)) → wf false L (TFull ts) → wf0 (bool_decide (idx k0 = 16%nat)) (L - 1) c →
  (idx k0 ≤ 16)%nat → Z.of_nat L ≤ 2 ^ 32 →
  ∃ n' t', collapse cs prefix = rok (true, n') ∧ rep top n' t' ∧ wf false L t' ∧ is_hash n' = false ∧
    ∀ key, keyat false key → tget t' key = tget (TFull (<[idx k0 := c]> ts)) key.
Proof.
  intros Hr Hw Hc Hk HL. inversion Hr as [| | |? ? ? ? Hlen Hcs _|]; subst. assert (HL1 : (1 ≤ L)%nat) by by inversion Hw.
  unfold collapse. destruct (only_child_trees cs _ Hlen Hcs) as [H|[(j & n & cj & Hj & Ho & E)|[Ht E]]].
  - by destruct (none_left L ts k0 c Hw).
  - destruct (one_left_wf _ _ _ _ _ _ Hw Hc Ho) as [Hwj Hj16]. destruct Ho as (Hcj & Hne & Ho). rewrite E, (proj2 (Z.geb_le _ _)) by lia.
    rewrite (child_at cs (byte_of (Z.of_nat j)) n) by (by rewrite idx_byte_of by lia). rstep.
    destruct (collapse_one top L n cj j prefix) as (n' & E' & Hr' & Hh); [by eapply Hcs|done..|].
    exists n', (prepend [byte_of (Z.of_nat j)] cj). split_and!; [exact E'|done|by apply wf_only_one|done|].
    apply only_one_get; [done|lia|done].
  - rewrite E. do 2 eexists. split_and!; [done|exact Hr|by apply wf_full_set0|done|done].
Qed.

Lemma delete_full fuel top cs f ts L prefix key :
  deletes fuel → rep top (fullNode cs f) (TFull ts) → wf false L (TFull ts) → Z.of_nat L ≤ 2 ^ 32 →
  keyat false key → (steps (fullNode cs f) key ≤ S fuel)%nat →
  ∃ dirty n' t', delete_node (S fuel) (fullNode cs f) prefix key = rok (dirty, n') ∧ deleted top false L key (TFull ts) dirty n' t'.
Proof.
  intros IH Hr Hw HL Hk Hf. destruct (keyat_false_cons key Hk) as (k0 & krest & ->).
  destruct (rep_full_child _ _ _ _ _ _ _ _ _ Hr Hw Hk) as (c & t & Hc & Ht & Hct & Hwt & Hx & Hr2).
  cbn [TrieNode.delete_node]. change (key_at (k0 :: krest) 0) with (Ret k0). rstep. rewrite (child_at _ _ _ Hc). rstep. change (drop 1 (k0 :: krest)) with krest.
  destruct (IH false c t _ (L - 1)%nat (prefix ++ [k0]) krest Hct Hwt) as (dirty & n' & t' & E & Hi); [lia|done| |].
  { unfold steps in *. cbn [is_hash length] in Hf. destruct (is_hash c); lia. }
  rewrite E. rstep. pose proof Hi as [I1 I2 I3 I4 I5]. destruct dirty; cbn [negb].
  - assert (Hr' : rep top (fullNode (set_child cs k0 n') (newFlag gen)) (TFull (<[idx k0 := t']> ts))) by (by eapply rep_full_set).
    destruct (collapse_rep _ _ _ _ _ _ prefix Hr' Hw I2 Hx HL) as (n2 & t2 & E2 & R2 & W2 & L2 & G2).
    exists true, n2, t2. split; [exact E2|]. constructor; [done|by right| |done|done].
    intros key' Hk'. rewrite G2 by done. by eapply updated_full.
  - rewrite (I4 eq_refl) in I3. do 3 eexists. split; [done|]. constructor; [done|by right| |done|done].
    rewrite <- (list_insert_id ts (idx k0) t Ht) at 2. by eapply updated_full.
Qed.

Lemma delete_rep fuel : deletes fuel.
Proof.
  induction fuel as [|fuel IH]; intros top n t d L prefix key Hr Hw HL Hk Hf; [unfold steps in Hf; destruct (is_hash n); lia|].
  assert (Hr' := Hr). destruct Hr as [top|top v'|top k n f t Hn Hfl|top cs f ts Hlen Hcs Hfl|top t Hn Hh Hs].
  - do 3 eexists. split; [done|]. by apply deleted_none.
  - do 3 eexists. split; [done|]. destruct Hw as [?|Hw]; [done|]. inversion Hw; subst. rewrite Hk in *.
    constructor; [constructor|by left| |done|done]. intros key' ->. by rewrite decide_True by done.
  - apply wf0_node_false in Hw as [-> Hw]; [|done]. by apply delete_short.
  - apply wf0_node_false in Hw as [-> Hw]; [|done]. by apply delete_full.
  - apply wf0_node_false in Hw as [-> Hw]; [|done]. cbn [TrieNode.delete_node].
    destruct (resolveHash_rep keccak odb gen top L t prefix Hn Hh Hs Hw HL) as (n & E & Hrn & Hnh). rewrite E. rstep.
    destruct (IH top n t false L prefix key) as (dirty & n' & t' & E' & Hi); [done|by right|done..|unfold steps in *; rewrite Hnh; cbn [is_hash] in Hf; lia|].
    rewrite E'. rstep. destruct dirty; cbn [negb]; do 3 eexists; (split; [done|]); [done|]. by eapply deleted_same.
Qed.
End Update.
