(* ===== verification/TrieCommit.v ===== *)
(** * Hashing is right, with and without caches

    For every node that stands for a well-formed tree the hasher returns the hash of
    the tree, and a node that stands for the same tree; with a writer everything of
    the tree is in the database afterwards. *)

From S2P Require Import Prelude Interfaces StateTypes Hex VmData Rlp RlpLayout RlpStream.
From S2P Require Import RlpRead RlpRaw TrieCodec TrieNode TrieHash TrieTree TrieEnc.
From S2P Require Import TrieEdit TrieRep.

(** ** More of the database *)

Section Mono.
Variable keccak : bytes → hash.

(** Only the entries under hashes matter. *)
Definition sub_nodes (db db' : kvstore) : Prop := ∀ k v : bytes, length k = 32%nat → db !! k = Some v → db' !! k = Some v.

Lemma sub_nodes_subseteq db db' : db ⊆ db' → sub_nodes db db'.
Proof. intros Hs k v _ Hk. by eapply lookup_weaken. Qed.

Lemma stored_sub db db' top t : sub_nodes db db' → stored keccak db top t → stored keccak db' top t.
Proof.
  intros Hs H. induction H as [| |top k c Hh _ IH|top cs Hh _ IH]; constructor; try done.
  - intros Hx. apply Hs; [apply length_hash_bytes|by apply Hh].
  - intros Hx. apply Hs; [apply length_hash_bytes|by apply Hh].
Qed.

Lemma flag_ok_sub db db' top f t : sub_nodes db db' → flag_ok keccak db top f t → flag_ok keccak db' top f t.
Proof. intros Hs [H1 H2]. split; [done|]. intros Hd. by eapply stored_sub, H2. Qed.

Lemma rep_sub db db' top n t : sub_nodes db db' → rep keccak db top n t → rep keccak db' top n t.
Proof.
  intros Hs H. induction H; constructor; try done; [by eapply flag_ok_sub..|by eapply stored_sub].
Qed.

Lemma stored_mono db db' top t : db ⊆ db' → stored keccak db top t → stored keccak db' top t.
Proof. intros Hs. by apply stored_sub, sub_nodes_subseteq. Qed.
Lemma rep_mono db db' top n t : db ⊆ db' → rep keccak db top n t → rep keccak db' top n t.
Proof. intros Hs. by apply rep_sub, sub_nodes_subseteq. Qed.

(** ** The encoding of a collapsed node *)

Definition nref (n : node) : bytes + rlperr := ref no_tags TInterface (VIface (node_value n)).

Lemma nref_value b : nref (valueNode b) = inl (rlp_string b).
Proof. done. Qed.
Lemma nref_hash b : nref (hashNode b) = inl (rlp_string b).
Proof. done. Qed.
Lemma nref_short k v f x : nref v = inl x → nref (shortNode k v f) = inl (rlp_list (rlp_string k ++ x)).
Proof.
  unfold nref. intros Hv. cbn [node_value].
  change (map_res rlp_list (app_res (inl (rlp_string k)) (app_res (ref no_tags TInterface (VIface (node_value v))) (inl []))) = inl (rlp_list (rlp_string k ++ x))).
  rewrite Hv. cbn. by rewrite app_nil_r.
Qed.
Lemma nref_full cs f xs : Forall2 (λ c x, nref c = inl x) cs xs → nref (fullNode cs f) = inl (rlp_list (concat xs)).
Proof.
  intros H. unfold nref. cbn [node_value].
  change (map_res rlp_list (ref_all (ref no_tags TInterface) (map (λ c, VIface (node_value c)) cs)) = inl (rlp_list (concat xs))).
  assert (ref_all (ref no_tags TInterface) (map (λ c, VIface (node_value c)) cs) = inl (concat xs)) as ->; [|done].
  induction H as [|c x cs xs Hc _ IH]; [done|]. 
  change (app_res (nref c) (ref_all (ref no_tags TInterface) (map (λ c, VIface (node_value c)) cs)) = inl (x ++ concat xs)). by rewrite IH, Hc.
Qed.

(** Nodes whose full nodes have seventeen children are values of their types. *)
Inductive encodable : node → Prop :=
| en_nil : encodable nilNode
| en_value b : encodable (valueNode b)
| en_hash b : encodable (hashNode b)
| en_short k v f : encodable v → encodable (shortNode k v f)
| en_full cs f : length cs = 17%nat → (∀ i c, cs !! i = Some c → encodable c) → encodable (fullNode cs f).

Lemma encodable_wt n : encodable n → wt TInterface (VIface (node_value n)).
Proof.
  induction 1 as [|b|b|k v f _ IH|cs f Hl _ IH]; cbn [node_value]; [constructor|by repeat constructor..| |].
  - constructor. constructor. constructor. constructor; [constructor|]. constructor; [done|constructor].
  - constructor. constructor; [by rewrite length_map|]. apply Forall_fmap, Forall_lookup. intros i c Hi. by eapply IH.
Qed.

Lemma node_rlp_ok n out : encodable n → nref n = inl out → blen out < 2 ^ 63 → node_rlp n = Ret out.
Proof. intros He Hr Hb. unfold node_rlp. destruct (Encode_ref _ _ _ (encodable_wt n He) Hr Hb) as [_ ->]. done. Qed.
End Mono.

Section NodeInd.
Variable P : node → Prop.
Hypothesis HNil : P nilNode.
Hypothesis HFull : ∀ cs f, Forall P cs → P (fullNode cs f).
Hypothesis HShort : ∀ k v f, P v → P (shortNode k v f).
Hypothesis HHash : ∀ h, P (hashNode h).
Hypothesis HValue : ∀ v, P (valueNode v).

Fixpoint node_nested_ind (n : node) : P n :=
  match n with
  | nilNode => HNil
  | fullNode cs f => HFull cs f ((fix go cs : Forall P cs :=
      match cs with [] => Forall_nil_2 P | n :: cs => Forall_cons_2 P n cs (node_nested_ind n) (go cs) end) cs)
  | shortNode k v f => HShort k v f (node_nested_ind v)
  | hashNode h => HHash h
  | valueNode v => HValue v
  end.
End NodeInd.

Section Hashing.
Context {W : Type} `{WriterOps W}.
Variable keccak : bytes → hash.
Variables (gen lim : Z) (writes : bool).
(** What the database has when the writer has been given its entries. *)
Variable view : W → kvstore.
Hypothesis Put_ok : writes = true → ∀ k v w, (Put k v w).2 = None ∧ view (Put k v w).1 = <[k := v]> (view w).
(** A database with everything, in which no two nodes have the same key. *)
Variable full : kvstore.

#[local] Abbreviation enc := (enc keccak).
#[local] Abbreviation big := (big keccak).
#[local] Abbreviation cref := (cref keccak).
#[local] Abbreviation node_hash := (node_hash keccak).
#[local] Abbreviation stored := (stored keccak).
#[local] Abbreviation rep := (rep keccak).
#[local] Abbreviation hashed := (hashed keccak).
#[local] Abbreviation hasher_hash := (hasher_hash keccak gen lim writes).

Record hash_result (top : bool) (t : tree) (w : W) (hn cached : node) (w' : W) : Prop := {
  hr_hash : ∀ h, hn = hashNode h → h = node_hash t ∧ hashed top t;
  hr_named : hashed top t → hn = hashNode (node_hash t);
  hr_ref : top = false → nref hn = inl (cref t);
  hr_enc : encodable hn;
  hr_some : hn ≠ nilNode;
  hr_rep : rep (view w') top cached t;
  hr_sub : view w ⊆ view w' ∧ (writes = true → view w' ⊆ full);
  hr_stored : writes = true → stored (view w') top t;
  hr_quiet : writes = false → w' = w
}.

Definition hashes (n : node) : Prop := ∀ top t L w,
  rep (view w) top n t → is_node t = true → wf false L t → Z.of_nat L ≤ 2 ^ 32 →
  (writes = true → stored full top t) → (writes = true → view w ⊆ full) →
  ∃ hn cached w', hasher_hash n top w = Ret ((hn, cached, None), w') ∧ hash_result top t w hn cached w'.

(** ** Storing *)

Lemma hashed_dec top t : hashed top t ∨ top = false ∧ big t = false.
Proof. unfold TrieRep.hashed. destruct top; [by left; left|]. destruct (big t); [by left; right|by right]. Qed.

Lemma hashed_size top t : is_node t = true → hashed top t → (blen (enc t) <? 32) && negb top = false.
Proof.
  intros Hn [->|Hb]; [by rewrite andb_false_r|]. unfold TrieEnc.big in Hb. rewrite Hn in Hb. apply Z.leb_le in Hb.
  by rewrite (proj2 (Z.ltb_ge _ _)).
Qed.
Lemma small_size t : is_node t = true → big t = false → (blen (enc t) <? 32) && negb false = true.
Proof. intros Hn Hb. unfold TrieEnc.big in Hb. rewrite Hn in Hb. apply Z.leb_gt in Hb. by rewrite (proj2 (Z.ltb_lt _ _)). Qed.

Lemma put_sub w k v : view w ⊆ full → full !! k = Some v → view w ⊆ <[k := v]> (view w) ∧ <[k := v]> (view w) ⊆ full.
Proof.
  intros Hs Hk. split; apply map_subseteq_spec.
  - intros i x Hi. destruct (decide (i = k)) as [->|Hne]; [|by rewrite lookup_insert_ne by done].
    rewrite lookup_insert_eq. pose proof (lookup_weaken _ _ _ _ Hi Hs). congruence.
  - intros i x Hi. apply lookup_insert_Some in Hi as [[<- <-]|[_ Hi]]; [done|by eapply lookup_weaken].
Qed.

Lemma store_ok top t L c f w :
  nref c = inl (enc t) → encodable c → (∃ k v, c = shortNode k v f) ∨ (∃ cs, c = fullNode cs f) →
  match nf_hash f with None => True | Some h => h = node_hash t end →
  is_node t = true → wf false L t → Z.of_nat L ≤ 2 ^ 32 → (writes = true → stored full top t) → (writes = true → view w ⊆ full) →
  ∃ hn w', store keccak writes c top w = Ret ((hn, None), w') ∧ view w ⊆ view w' ∧ (writes = true → view w' ⊆ full) ∧ (writes = false → w' = w) ∧
    ((hashed top t ∧ hn = hashNode (node_hash t) ∧ (writes = true → view w' !! node_hash t = Some (enc t))) ∨
     (top = false ∧ big t = false ∧ hn = c)).
Proof.
  intros Hr He Hc Hf Hn Hw HL Hst Hsub. pose proof (enc_size keccak _ _ Hw HL) as Hb.
  assert (Hs : ∀ w, store keccak writes c top w = if (blen (enc t) <? 32) && negb top then Ret ((c, None), w) else
    (if writes then let '(w, err) := Put (node_hash t) (enc t) w in Ret ((hashNode (node_hash t), err), w) else Ret ((hashNode (node_hash t), None), w))).
  { intros w0. assert (E : node_rlp c = Ret (enc t)) by (apply node_rlp_ok; [done|done|lia]).
    destruct Hc as [(k & v & ->)|(cs & ->)]; unfold store; rewrite E; cbn [mbind outcome_bind cache fst];
      (destruct (_ && _); [done|]); destruct (nf_hash f) as [h|]; subst; done. }
  rewrite Hs. destruct (hashed_dec top t) as [Hh|[-> Hb']].
  - rewrite hashed_size by done. destruct writes eqn:Ew.
    + specialize (Hst eq_refl). specialize (Hsub eq_refl). pose proof (stored_here _ _ _ _ Hst Hn Hh) as Hfull. destruct (Put_ok eq_refl (node_hash t) (enc t) w) as [E1 E2]. destruct (Put _ _ w) as [w1 err]. cbn [fst snd] in *. subst err.
      destruct (put_sub w _ _ Hsub Hfull). exists (hashNode (node_hash t)), w1. rewrite E2. split_and!; [done..|].
      left. split_and!; [done..|]. intros _. by rewrite lookup_insert_eq.
    + exists (hashNode (node_hash t)), w. split_and!; [done..|]. by left.
  - rewrite small_size by done. exists c, w. split_and!; [done..|]. by right.
Qed.

(** ** Children *)

Record all_result (ts : list tree) (w : W) (cols cachs : list node) (w' : W) : Prop := {
  ar_ref : Forall2 (λ c x, nref c = inl x) cols (map cref ts);
  ar_enc : Forall encodable cols;
  ar_rep : Forall2 (rep (view w') false) cachs ts;
  ar_sub : view w ⊆ view w' ∧ (writes = true → view w' ⊆ full);
  ar_stored : writes = true → Forall (stored (view w') false) ts;
  ar_quiet : writes = false → w' = w
}.

(** The children of a full node from the [i]-th on. *)
Definition tail_ok (i L : nat) (ts : list tree) : Prop :=
  (i + length ts = 17)%nat ∧ (∀ j c, ts !! j = Some c → wf0 (bool_decide (i + j = 16)%nat) L c) ∧ (writes = true → Forall (stored full false) ts).

Lemma tail_ok_cons i L t ts : tail_ok i L (t :: ts) → wf0 (bool_decide (i = 16%nat)) L t ∧ (writes = true → stored full false t) ∧ tail_ok (S i) L ts.
Proof.
  intros (H1 & H2 & H3). split_and!; [|intros Hwr; specialize (H3 Hwr); by inversion H3|].
  - specialize (H2 0%nat t eq_refl). by rewrite Nat.add_0_r in H2.
  - split_and!; [simpl in *; lia| |intros Hwr; specialize (H3 Hwr); by inversion H3]. intros j c Hj. specialize (H2 (S j) c Hj). by replace (S i + j)%nat with (i + S j)%nat by lia.
Qed.

(** One child: nil and values are kept, nodes are hashed. *)
Definition hash_child (c : node) (i : nat) (w : W) : outcome ((node * node * option gerror) * W) :=
  if (i <? 16)%nat then match c with nilNode => Ret ((valueNode [], nilNode, None), w) | _ => hasher_hash c false w end
  else Ret ((match c with nilNode => valueNode [] | _ => c end, c, None), w).

Lemma hash_all_cons c cs i w :
  hash_all (λ c w, hasher_hash c false w) (c :: cs) i w =
  '((collapsed, cached, err), w) ← hash_child c i w;
  match err with
  | Some e => Ret (([], [], Some e), w)
  | None => '((cols, cachs, err), w) ← hash_all (λ c w, hasher_hash c false w) cs (S i) w; Ret ((collapsed :: cols, cached :: cachs, err), w)
  end.
Proof. unfold hash_child, hash_all. destruct (i <? 16)%nat; [done|]. cbn. by destruct (_ cs (S i) w). Qed.

Lemma hash_child_ok c t i L w :
  hashes c → rep (view w) false c t → wf0 (bool_decide (i = 16%nat)) L t → Z.of_nat L ≤ 2 ^ 32 → (i ≤ 16)%nat → (writes = true → stored full false t) → (writes = true → view w ⊆ full) →
  ∃ col cach w', hash_child c i w = Ret ((col, cach, None), w') ∧ nref col = inl (cref t) ∧ encodable col ∧ rep (view w') false cach t ∧
    view w ⊆ view w' ∧ (writes = true → view w' ⊆ full) ∧ (writes = true → stored (view w') false t) ∧ (writes = false → w' = w).
Proof.
  intros IH Hr Hw HL Hi Hs Hsub. unfold hash_child. destruct Hw as [->|Hw].
  { inversion Hr; subst; [|done]. exists (valueNode []), nilNode, w. destruct (i <? 16)%nat; split_and!; try done; constructor. }
  destruct (Nat.ltb_spec i 16) as [Hlt|Hge].
  - rewrite bool_decide_false in Hw by lia. assert (is_node t = true) as Hn by by inversion Hw.
    destruct (IH false t L w Hr Hn Hw HL Hs Hsub) as (hn & cached & w' & E & [R1 R2 R3 R4 R5 R6 [R7 R8] R9 R10]).
    exists hn, cached, w'. assert (c ≠ nilNode) as Hc by (intros ->; inversion Hr; by subst).
    split_and!; [by destruct c|by apply R3|done..].
  - rewrite bool_decide_true in Hw by lia. apply wf_true in Hw as (v & -> & _). inversion Hr; subst; [|done].
    exists (valueNode v), (valueNode v), w. split_and!; try done; constructor.
Qed.

Lemma hash_all_ok cs : Forall hashes cs → ∀ ts i L w,
  Forall2 (rep (view w) false) cs ts → tail_ok i L ts → Z.of_nat L ≤ 2 ^ 32 → (writes = true → view w ⊆ full) →
  ∃ cols cachs w', hash_all (λ c w, hasher_hash c false w) cs i w = Ret ((cols, cachs, None), w') ∧ all_result ts w cols cachs w'.
Proof.
  induction 1 as [|c cs IHc _ IH]; intros ts i L w Hr Ht HL Hsub.
  { apply Forall2_nil_inv_l in Hr as ->. exists [], [], w. split; [done|]. by split. }
  apply Forall2_cons_inv_l in Hr as (t & ts' & Hc & Hr & ->). assert (Hi : (i ≤ 16)%nat) by (destruct Ht as [Hl _]; simpl in Hl; lia).
  apply tail_ok_cons in Ht as (Hwt & Hst & Ht). rewrite hash_all_cons.
  destruct (hash_child_ok c t i L w IHc Hc Hwt HL Hi Hst Hsub) as (col & cach & w1 & E & C1 & C2 & C3 & C4 & C5 & C6 & C7).
  rewrite E. cbn [mbind outcome_bind].
  destruct (IH ts' (S i) L w1) as (cols & cachs & w2 & E2 & [A1 A2 A3 [A4 A5] A6 A7]); [|done|done|done|].
  { eapply Forall2_impl; [exact Hr|]. intros n' t'. by apply rep_mono. }
  rewrite E2. cbn [mbind outcome_bind]. do 3 eexists. split; [done|]. split.
  - by constructor.
  - by constructor.
  - constructor; [|done]. by eapply rep_mono.
  - split; [by etrans|done].
  - intros Hwr. constructor; [|by apply A6]. eapply stored_mono; [done|]. by apply C6.
  - intros Hwr. by rewrite A7, C7.
Qed.

(** ** Nodes *)

(** The answer from the cache. *)
Lemma cached_ok top n t w hn n' :
  rep (view w) top n t → is_node t = true → (writes = true → view w ⊆ full) → from_cache gen lim writes n = Ret (Some (hn, n')) → hash_result top t w hn n' w.
Proof.
  intros Hr Hn Hsub E. assert (Hf : ∃ f, cache n = Ret (nf_hash f, nf_dirty f) ∧ flag_ok keccak (view w) top f t ∧ canUnload n gen lim = flag_canUnload f gen lim).
  { inversion Hr; subst; try done; by eexists. }
  destruct Hf as (f & Ec & [Hf1 Hf2] & Eu). unfold from_cache in E. rewrite Ec in E. cbn [mbind outcome_bind] in E.
  destruct (nf_hash f) as [h|]; [|done]. destruct Hf1 as [-> Hh].
  assert (hn = hashNode (node_hash t) ∧ rep (view w) top n' t ∧ (writes = true → stored (view w) top t)) as (-> & Hr' & Hst).
  { rewrite Eu in E. unfold flag_canUnload in E. destruct writes; cbn [negb] in E; [|by simplify_eq].
    destruct (nf_dirty f); cbn [negb andb] in E; [done|]. specialize (Hf2 eq_refl).
    destruct (_ >=? _); simplify_eq; (split_and!; [done| |done]); [|done]. by apply rep_hash. }
  split; try done; [by intros h [= <-]|intros ->; rewrite nref_hash; destruct Hh as [|Hb]; [done|by rewrite cref_eq, Hb]|constructor].
Qed.

(** The last steps of [hash]: store the collapsed node and note its hash. *)
Definition finish (c cached : node) (n : node) (top : bool) (w : W) : outcome ((node * node * option gerror) * W) :=
  '((hashed, err), w) ← store keccak writes c top w;
  match err with
  | Some e => Ret ((hashNode [], n, Some e), w)
  | None =>
    let cachedHash := match hashed with hashNode h => Some h | _ => None end in
    Ret ((hashed, set_flags cached (λ f, mkFlag cachedHash (nf_gen f) (if writes then false else nf_dirty f)), None), w)
  end.

Lemma store_finish top t L w0 w c f (mk : nodeFlag → node) n :
  nref c = inl (enc t) → encodable c → (∃ k v, c = shortNode k v f) ∨ (∃ cs, c = fullNode cs f) → (∀ g, set_flags (mk f) g = mk (g f)) →
  (∀ db f', view w ⊆ db → flag_ok keccak db top f' t → rep db top (mk f') t) →
  (∀ db, view w ⊆ db → writes = true → (hashed top t → db !! node_hash t = Some (enc t)) → stored db top t) →
  flag_ok keccak (view w0) top f t → is_node t = true → wf false L t → Z.of_nat L ≤ 2 ^ 32 → (writes = true → stored full top t) →
  view w0 ⊆ view w → (writes = true → view w ⊆ full) → (writes = false → w = w0) →
  ∃ hn cached w', finish c (mk f) n top w = Ret ((hn, cached, None), w') ∧ hash_result top t w0 hn cached w'.
Proof.
  intros Hr He Hc Hset Hrep Hkids [Hf1 Hf2] Hn Hw HL Hst H0 Hsub Hq.
  destruct (store_ok top t L c f w Hr He Hc) as (hn & w' & E & S1 & S2 & S3 & S4); [destruct (nf_hash f); [by destruct Hf1|done]|done..|].
  unfold finish. rewrite E. cbn [mbind outcome_bind]. rewrite Hset. do 3 eexists. split; [done|].
  assert (Hst' : writes = true → stored (view w') top t).
  { intros Hwr. apply Hkids; [done|done|]. intros Hh. destruct S4 as [(_ & _ & H')|(-> & Hb & _)]; [by apply H'|].
    destruct Hh as [?|Hb']; [done|congruence]. }
  assert (Hclean : writes = false → nf_dirty f = false → stored (view w') top t).
  { intros Hwr Hd. rewrite (S3 Hwr), (Hq Hwr). by apply Hf2. }
  assert (Hflag : ∀ oh, match oh with None => True | Some h => h = node_hash t ∧ hashed top t end →
    rep (view w') top (mk (mkFlag oh (nf_gen f) (if writes then false else nf_dirty f))) t).
  { intros oh Hoh. apply Hrep; [done|]. split; [done|]. cbn [nf_dirty]. destruct writes; auto. }
  destruct S4 as [(Hh & -> & _)|(-> & Hb & ->)].
  - split; try done; [by intros h [= <-]|intros ->; rewrite nref_hash; destruct Hh as [|Hb]; [done|by rewrite cref_eq, Hb]|constructor|by apply Hflag|by split; [etrans|]|by intros Hwr; rewrite S3, Hq].
  - assert (Hcn : ∀ h, c ≠ hashNode h) by (intros h ->; by destruct Hc as [(? & ? & ?)|(? & ?)]).
    assert (match c with hashNode h => Some h | _ => None end = None) as -> by (destruct c as [| | |h|]; try done; by destruct (Hcn h)).
    split; try done; [by intros h ->; destruct (Hcn h)|intros [?|?]; [done|congruence]|by rewrite cref_eq, Hb| |by apply Hflag|by split; [etrans|]|by intros Hwr; rewrite S3, Hq].
    intros ->. by destruct Hc as [(? & ? & ?)|(? & ?)].
Qed.

Lemma hasher_hash_none n top w : from_cache gen lim writes n = Ret None →
  hasher_hash n top w =
  '((collapsed, cached, err), w) ← hashChildren (λ c w, hasher_hash c false w) n w;
  match err with
  | Some e => Ret ((hashNode [], n, Some e), w)
  | None => finish collapsed cached n top w
  end.
Proof. intros E. destruct n; cbn [TrieHash.hasher_hash]; rewrite E; reflexivity. Qed.

Lemma from_cache_ret n : n ≠ nilNode → ∃ c, from_cache gen lim writes n = Ret c.
Proof. intros Hn. unfold from_cache. destruct n; [done|..]; by eexists. Qed.

(** Collapsing a short node, its child being hashed. *)
Lemma short_children k v f c L w :
  hashes v → rep (view w) false v c → wf false L (TShort k c) → Z.of_nat L ≤ 2 ^ 32 →
  (writes = true → stored full false c) → (writes = true → view w ⊆ full) →
  ∃ col cach w', hashChildren (λ c w, hasher_hash c false w) (shortNode k v f) w = Ret ((shortNode (compact k) col f, shortNode k cach f, None), w') ∧
    nref (shortNode (compact k) col f) = inl (enc (TShort k c)) ∧ encodable col ∧ rep (view w') false cach c ∧ view w ⊆ view w' ∧ (writes = true → view w' ⊆ full) ∧
    (writes = true → stored (view w') false c) ∧ (writes = false → w' = w).
Proof.
  intros IH Hv Hw HL Hst Hsub. inversion Hw as [|d ? ? ? Hne Hp Hl Hs Hwc|]; subst. destruct (compact_path d k Hp) as (Ek & _ & _).
  cbn [hashChildren]. rewrite Ek. cbn [mbind outcome_bind]. rewrite enc_short. destruct d.
  - apply wf_true in Hwc as (x & -> & _). inversion Hv; subst; [|done]. exists (valueNode x), (valueNode x), w.
    split_and!; try done; [by apply nref_short|constructor|constructor].
  - assert (is_node c = true) as Hnc by by inversion Hwc. assert (Hnv : ∀ x, v ≠ valueNode x) by (intros x ->; by inversion Hv; subst).
    destruct (IH false c (L - length k)%nat w Hv Hnc Hwc) as (hn & cach & w' & E & [R1 R2 R3 R4 R5 R6 [R7 R8] R9 R10]); [lia|done|done|].
    exists hn, cach, w'. split_and!; [|by apply nref_short, R3|done..]. destruct v; [..|by destruct (Hnv v)]; rewrite E; cbn [mbind outcome_bind]; by destruct hn.
Qed.

Lemma hash_short k v f : hashes v → hashes (shortNode k v f).
Proof.
  intros IH top t L w Hr Hn Hw HL Hst Hsub. destruct (from_cache_ret (shortNode k v f)) as [[[hn n']|] Ec]; [done|..].
  { exists hn, n', w. split; [by cbn [TrieHash.hasher_hash]; rewrite Ec|]. by eapply cached_ok. }
  rewrite hasher_hash_none by done. inversion Hr as [| |? ? ? ? c Hv Hf| |]; subst. assert (Hstc : writes = true → stored full false c) by (intros Hwr; specialize (Hst Hwr); by inversion Hst).
  destruct (short_children k v f c L w IH Hv Hw HL Hstc Hsub) as (col & cach & w' & E & C1 & C2 & C3 & C4 & C5 & C6 & C7).
  rewrite E. cbn [mbind outcome_bind]. apply (store_finish top (TShort k c) L w w' _ f (shortNode k cach)); try done.
  - by constructor.
  - left. by do 2 eexists.
  - intros db f' Hdb Hf'. constructor; [|done]. by eapply rep_mono.
  - intros db Hdb Hwr Hx. constructor; [done|]. eapply stored_mono; [done|]. by apply C6.
Qed.

Lemma full_children cs f ts L w :
  Forall hashes cs → Forall2 (rep (view w) false) cs ts → wf false L (TFull ts) → Z.of_nat L ≤ 2 ^ 32 →
  (writes = true → Forall (stored full false) ts) → (writes = true → view w ⊆ full) →
  ∃ cols cachs w', hashChildren (λ c w, hasher_hash c false w) (fullNode cs f) w = Ret ((fullNode cols f, fullNode cachs f, None), w') ∧
    nref (fullNode cols f) = inl (enc (TFull ts)) ∧ encodable (fullNode cols f) ∧ all_result ts w cols cachs w'.
Proof.
  intros IH Hr Hw HL Hst Hsub. assert (Hl17 : length ts = 17%nat) by by inversion Hw.
  destruct (hash_all_ok cs IH ts 0 (L - 1) w Hr) as (cols & cachs & w' & E & Ha); [|lia|done|].
  { split_and!; [done| |done]. intros j c Hj. by eapply wf_child. }
  cbn [hashChildren]. rewrite E. cbn [mbind outcome_bind]. exists cols, cachs, w'. split; [done|]. pose proof Ha as [A1 A2 _ _ _ _].
  split_and!; [rewrite enc_full; by apply nref_full| |done].
  constructor; [apply Forall2_length in A1; rewrite length_map in A1; by rewrite A1|by apply Forall_lookup].
Qed.

Lemma hash_full cs f : Forall hashes cs → hashes (fullNode cs f).
Proof.
  intros IH top t L w Hr Hn Hw HL Hst Hsub. destruct (from_cache_ret (fullNode cs f)) as [[[hn n']|] Ec]; [done|..].
  { exists hn, n', w. split; [by cbn [TrieHash.hasher_hash]; rewrite Ec|]. by eapply cached_ok. }
  rewrite hasher_hash_none by done. inversion Hr as [| | |? ? ? ts Hlen Hcs Hf|]; subst. assert (Hsts : writes = true → Forall (stored full false) ts) by (intros Hwr; specialize (Hst Hwr); inversion Hst; by apply Forall_lookup).
  destruct (full_children cs f ts L w IH) as (cols & cachs & w' & E & C1 & C2 & [A1 A2 A3 [A4 A5] A6 A7]); [by apply Forall2_same_length_lookup|done..|].
  rewrite E. cbn [mbind outcome_bind]. apply (store_finish top (TFull ts) L w w' _ f (fullNode cachs)); try done.
  - right. by eexists.
  - intros db f' Hdb Hf'. constructor; [by eapply Forall2_length|..|done]. intros i n t Hi Ht. eapply rep_mono; [exact Hdb|]. by eapply Forall2_lookup_lr.
  - intros db Hdb Hwr Hx. constructor; [done|]. intros i c Hi. eapply stored_mono; [exact Hdb|]. specialize (A6 Hwr). rewrite Forall_lookup in A6. by eapply A6.
Qed.

Lemma hash_rep n : hashes n.
Proof.
  induction n as [|cs f IH|k v f IH|h|v] using node_nested_ind; [| by apply hash_full|by apply hash_short|..];
    intros top t L w Hr Hn Hw HL Hst Hsub.
  - inversion Hr; by subst.
  - exists (hashNode h), (hashNode h), w. split; [done|]. assert (Hr' := Hr). apply rep_hash_inv in Hr' as (_ & -> & Hh & Hs).
    split; try done; [by intros h [= <-]|intros ->; rewrite nref_hash; destruct Hh as [|Hb]; [done|by rewrite cref_eq, Hb]|constructor].
  - inversion Hr; by subst.
Qed.
End Hashing.
