(* ===== verification/TrieMap.v ===== *)
(** * A trie is a map, and its root commits to the map

    The operations of [trie/trie.go] on a whole trie: what they return, what the root
    hash depends on, and that a committed trie can be opened again. *)

From S2P Require Import Prelude Interfaces StateTypes Hex VmData Rlp RlpLayout RlpStream.
From S2P Require Import RlpRead RlpRaw TrieCodec TrieNode TrieHash TrieTree TrieEnc.
From S2P Require Import TrieEdit TrieRep TrieUpdate TrieCommit.

Section Map.
Variable keccak : bytes → hash.
(** The keys in use, of at most [K] bytes. *)
Variable P : bytes → Prop.
Variable K : nat.
Definition depth : nat := (2 * K + 1)%nat.

Definition keys_in (t : tree) : Prop := ∀ key, keyat false key → tget t key ≠ [] → ∃ k, P k ∧ key = keybytesToHex k.

Record holds (odb : option kvstore) (root : node) (t : tree) : Prop := {
  h_rep : rep keccak (default ∅ odb) true root t;
  h_wf : wf0 false depth t;
  h_keys : keys_in t;
  h_bound : Z.of_nat depth ≤ 2 ^ 32
}.

Definition values (t : tree) (k : bytes) : bytes := tget t (keybytesToHex k).

(** The trie has the values [m], the empty value meaning none. *)
Definition stands_for (odb : option kvstore) (t : Trie) (m : bytes → bytes) : Prop :=
  ∃ tr, holds odb (t_root t) tr ∧ ∀ k, values tr k = m k.

Lemma values_unique tr tr' L L' :
  wf0 false L tr → wf0 false L' tr' → keys_in tr → keys_in tr' → (∀ k, values tr k = values tr' k) → tr = tr'.
Proof.
  intros Hw Hw' Hk Hk' Hv. eapply wf0_unique; [done..|]. intros key Hkey.
  destruct (decide (tget tr key = [])) as [E|E].
  - rewrite E. destruct (decide (tget tr' key = [])) as [E'|E']; [done|]. destruct (Hk' key Hkey E') as (k & _ & ->).
    specialize (Hv k). unfold values in Hv. congruence.
  - destruct (Hk key Hkey E) as (k & _ & ->). apply Hv.
Qed.

(** ** Operations *)

Lemma key_steps n k : (length k ≤ K)%nat →
  (steps n (keybytesToHex k) ≤ key_fuel (keybytesToHex k))%nat ∧ (length (keybytesToHex k) ≤ depth)%nat.
Proof. intros Hl. unfold steps, key_fuel, depth. rewrite length_keybytesToHex. destruct (is_hash n); lia. Qed.

Lemma updated_keys t t' k v : P k ∨ v = [] → updated false (keybytesToHex k) v t t' → keys_in t → keys_in t'.
Proof.
  intros Hp Hu Hk key Hkey Hg. rewrite (Hu key Hkey) in Hg. destruct (decide (key = keybytesToHex k)) as [->|Hne].
  - exists k. by destruct Hp.
  - by apply Hk.
Qed.

Lemma updated_values t t' k v : updated false (keybytesToHex k) v t t' → ∀ k', values t' k' = if decide (k' = k) then v else values t k'.
Proof.
  intros Hu k'. unfold values. rewrite (Hu _ (keybytesToHex_hexkey k')). destruct (decide (k' = k)) as [->|Hne].
  - by rewrite decide_True by done.
  - rewrite decide_False; [done|]. by intros ?%(inj keybytesToHex).
Qed.

Lemma TryGet_holds odb t tr key : holds odb (t_root t) tr → (length key ≤ K)%nat →
  ∃ t', Trie_TryGet odb t key = Ret (values tr key, None, t') ∧ holds odb (t_root t') tr ∧ t_cachegen t' = t_cachegen t ∧ t_cachelimit t' = t_cachelimit t.
Proof.
  intros Hh Hl. pose proof Hh as [Hr Hw Hk Hb]. destruct (key_steps (t_root t) key Hl) as [Hs _].
  destruct (tryGet_rep keccak odb (t_cachegen t) _ true _ tr false depth [] (keybytesToHex key) Hr Hw Hb (keybytesToHex_hexkey key) Hs) as (n' & b & E & Hr').
  unfold Trie_TryGet. cbn [app length] in E. rewrite E. cbn [rok]. eexists. split; [done|]. destruct b; [|done]. by split_and!.
Qed.

Lemma insert_holds odb t tr key v : holds odb (t_root t) tr → (length key ≤ K)%nat → P key → value_ok v →
  ∃ t' tr', Trie_TryUpdate odb t key v = Ret (None, t') ∧ holds odb (t_root t') tr' ∧ ∀ k, values tr' k = if decide (k = key) then v else values tr k.
Proof.
  intros Hh Hl Hp Hv. pose proof Hh as [Hr Hw Hk Hb]. destruct (key_steps (t_root t) key Hl) as [Hs Hd].
  destruct (insert_rep keccak odb (t_cachegen t) _ true _ tr false depth [] _ v Hr Hw Hb (keybytesToHex_hexkey key) Hd Hv Hs) as (dirty & n' & tr' & E & [I1 I2 I3 _ _]).
  unfold Trie_TryUpdate. assert (blen v =? 0 = false) as ->. { destruct Hv as [Hv _]. destruct v; [done|]. apply Z.eqb_neq. unfold blen. simpl. lia. }
  rewrite E. eexists _, tr'. split; [done|]. split; [|by apply updated_values]. split; [done|by right| |done]. eapply updated_keys; [by left|done..].
Qed.

Lemma delete_holds odb t tr key : holds odb (t_root t) tr → (length key ≤ K)%nat →
  ∃ t' tr', Trie_TryDelete odb t key = Ret (None, t') ∧ holds odb (t_root t') tr' ∧ ∀ k, values tr' k = if decide (k = key) then [] else values tr k.
Proof.
  intros Hh Hl. pose proof Hh as [Hr Hw Hk Hb]. destruct (key_steps (t_root t) key Hl) as [Hs _].
  destruct (delete_rep keccak odb (t_cachegen t) _ true _ tr false depth [] _ Hr Hw Hb (keybytesToHex_hexkey key) Hs) as (dirty & n' & tr' & E & [I1 I2 I3 _ _]).
  unfold Trie_TryDelete. rewrite E. eexists _, tr'. split; [done|]. split; [|by apply updated_values]. split; [done|done| |done]. eapply updated_keys; [by right|done..].
Qed.

(** An update with an empty value deletes. *)
Lemma update_holds odb t tr key v : holds odb (t_root t) tr → (length key ≤ K)%nat → P key → blen v < 2 ^ 32 →
  ∃ t' tr', Trie_TryUpdate odb t key v = Ret (None, t') ∧ holds odb (t_root t') tr' ∧ ∀ k, values tr' k = if decide (k = key) then v else values tr k.
Proof.
  intros Hh Hl Hp Hv. destruct v as [|x v]; [by apply delete_holds|]. by apply insert_holds.
Qed.

(** ** The root hash *)

Definition root_hash (t : tree) : hash := match t with TNil => emptyRoot | _ => keccak (enc keccak t) end.

Lemma hashRoot_holds {W} `{WriterOps W} (writes : bool) (view : W → kvstore) (full : kvstore) (odb : option kvstore) (t : Trie) (tr : tree) (w : W) :
  (writes = true → ∀ k v w, (Put k v w).2 = None ∧ view (Put k v w).1 = <[k := v]> (view w)) →
  holds odb (t_root t) tr → view w = default ∅ odb → (writes = true → stored keccak full true tr ∧ view w ⊆ full) →
  ∃ cached w', hashRoot keccak (t_cachegen t) (t_cachelimit t) writes t w = Ret ((hashNode (hash_bytes (root_hash tr)), cached, None), w') ∧
    rep keccak (view w') true cached tr ∧ view w ⊆ view w' ∧ (writes = true → view w' ⊆ full ∧ stored keccak (view w') true tr) ∧ (writes = false → w' = w).
Proof.
  intros HP [Hr Hw Hk Hb] Hv Hfull. unfold hashRoot. destruct Hw as [->|Hw].
  - inversion Hr as [| | | |? ? Hn]; [|done]. exists nilNode, w. split_and!; try done; [constructor|]. intros Hwr. destruct (Hfull Hwr). by split; [|constructor].
  - assert (is_node tr = true) as Hn by by inversion Hw. rewrite <- Hv in Hr.
    destruct (hash_rep keccak (t_cachegen t) (t_cachelimit t) writes view HP full (t_root t) true tr depth w Hr Hn Hw Hb) as (hn & cached & w' & E & [_ R2 _ _ _ R6 [R7 R8] R9 R10]);
      [intros Hwr; by destruct (Hfull Hwr)..|].
    exists cached, w'. assert (t_root t ≠ nilNode) as Hne by (intros E0; rewrite E0 in Hr; inversion Hr; by subst).
    assert (root_hash tr = keccak (enc keccak tr)) as -> by by destruct tr. rewrite (R2 ltac:(by left)) in E.
    split_and!; [by destruct (t_root t)|done|done|by intros Hwr; split; auto|done].
Qed.

Lemma Hash_holds odb t tr : holds odb (t_root t) tr →
  ∃ t', Trie_Hash keccak t = Ret (root_hash tr, t') ∧ holds odb (t_root t') tr.
Proof.
  intros Hh. pose proof Hh as [Hr Hw Hk Hb].
  destruct (hashRoot_holds false (λ _ : unit, default ∅ odb) ∅ odb t tr tt) as (cached & [] & E & Hr' & _); [done..|].
  unfold Trie_Hash. rewrite E. cbn. rewrite BytesToHash_hash_bytes. eexists. split; [done|]. by split.
Qed.

(** ** Tries without clashes

    [full] has every node of the tree under its hash, so no two different nodes of it
    have the same hash; the zero hash is nobody's, and the empty root is the hash of
    the empty string. *)
Record clash_free (full : kvstore) (tr : tree) : Prop := {
  cf_nodes : stored keccak full true tr;
  cf_zero : full !! hash_bytes hash0 = None;
  cf_empty : full !! hash_bytes emptyRoot = Some (rlp_string [])
}.
Definition stands_within (full : kvstore) (odb : option kvstore) (t : Trie) (m : bytes → bytes) : Prop :=
  ∃ tr, holds odb (t_root t) tr ∧ (∀ k, values tr k = m k) ∧ clash_free full tr.

Lemma root_lookup full tr L : clash_free full tr → wf0 false L tr → full !! hash_bytes (root_hash tr) = Some (enc keccak tr).
Proof.
  intros [Hs _ He] [->|Hw]; [done|]. assert (is_node tr = true) as Hn by by inversion Hw.
  rewrite <- (stored_here keccak full true tr Hs Hn ltac:(by left)). by destruct tr.
Qed.

Lemma enc_not_empty tr L : wf false L tr → Z.of_nat L ≤ 2 ^ 32 → enc keccak tr ≠ rlp_string [].
Proof.
  intros Hw HL E. pose proof (enc_size keccak _ _ Hw HL) as Hb. destruct (enc_is_list keccak tr) as [c Hc]; [by inversion Hw|].
  destruct (reads_list c) as (h & _ & H1). destruct (reads_string []) as (h' & _ & H2). specialize (H1 []). specialize (H2 []).
  rewrite <- Hc in H1. rewrite <- E in H2. rewrite app_nil_r in H1, H2. rewrite H1 in H2 by lia. specialize (H2 ltac:(lia)). done.
Qed.

(** In one database a node stands for one tree. *)
Lemma rep_unique db top n tr tr' L L' :
  rep keccak db top n tr → rep keccak db top n tr' → wf0 false L tr → wf0 false L' tr' → Z.of_nat L ≤ 2 ^ 32 → Z.of_nat L' ≤ 2 ^ 32 → tr = tr'.
Proof.
  intros Hr Hr' Hw Hw' HL HL'. eapply wf0_unique; [done..|]. intros key Hk.
  destruct (tryGet_rep keccak (Some db) 0 (steps n key) top n tr false L [] key) as (n1 & b1 & E1 & _); [done..|].
  destruct (tryGet_rep keccak (Some db) 0 (steps n key) top n tr' false L' [] key) as (n2 & b2 & E2 & _); [done..|].
  rewrite E1 in E2. by injection E2.
Qed.

Lemma root_hash_inj full tr tr' L L' :
  clash_free full tr → clash_free full tr' → wf0 false L tr → wf0 false L' tr' → Z.of_nat L ≤ 2 ^ 32 → Z.of_nat L' ≤ 2 ^ 32 →
  root_hash tr = root_hash tr' → tr = tr'.
Proof.
  intros Hc Hc' Hw Hw' HL HL' E. pose proof (root_lookup _ _ _ Hc Hw) as H1. pose proof (root_lookup _ _ _ Hc' Hw') as H2.
  rewrite E, H2 in H1. injection H1 as H1.
  destruct Hw as [->|Hw], Hw' as [->|Hw']; [done|by destruct (enc_not_empty _ _ Hw' HL')|by destruct (enc_not_empty _ _ Hw HL)|].
  apply (rep_unique full true (hashNode (node_hash keccak tr)) tr tr' L L'); [| |by right|by right|done|done].
  - constructor; [by inversion Hw|by left|by destruct Hc].
  - assert (node_hash keccak tr = node_hash keccak tr') as -> by (unfold node_hash; by rewrite H1).
    constructor; [by inversion Hw'|by left|by destruct Hc'].
Qed.

(** ** Committing and opening *)

Lemma New_holds db tr full : db ⊆ full → clash_free full tr → wf0 false depth tr → keys_in tr → Z.of_nat depth ≤ 2 ^ 32 → stored keccak db true tr →
  ∃ t, New (root_hash tr) (Some db) = Ret (inl t) ∧ holds (Some db) (t_root t) tr.
Proof.
  intros Hsub Hc Hw Hk Hb Hs. pose proof (root_lookup _ _ _ Hc Hw) as Hl. unfold New. destruct Hw as [->|Hw].
  { rewrite decide_False by (intros E; apply (f_equal word_val) in E; by vm_compute in E). rewrite decide_True by done. eexists. split; [done|]. split; [constructor|by left|done|done]. }
  assert (is_node tr = true) as Hn by by inversion Hw. destruct Hc as [_ H0 He].
  rewrite decide_False by (intros E; rewrite E in Hl; congruence). rewrite decide_False.
  2:{ intros E. rewrite E, He in Hl. injection Hl as Hl. by destruct (enc_not_empty _ _ Hw Hb). }
  assert (hash_bytes (root_hash tr) = node_hash keccak tr) as -> by by destruct tr.
  destruct (resolveHash_rep keccak (Some db) 0 true depth tr [] Hn ltac:(by left) Hs Hw Hb) as (n & -> & Hr & _).
  cbn. eexists. split; [done|]. split; [done|by right|done|done].
Qed.

Lemma CommitTo_holds base batch full t tr :
  holds (Some (batch ∪ base)) (t_root t) tr → clash_free full tr → batch ∪ base ⊆ full →
  ∃ t' batch', Trie_CommitTo keccak t batch = Ret ((root_hash tr, None, t'), batch') ∧ batch ∪ base ⊆ batch' ∪ base ∧ batch' ∪ base ⊆ full ∧
    stored keccak (batch' ∪ base) true tr ∧ holds (Some (batch' ∪ base)) (t_root t') tr.
Proof.
  intros Hh Hc Hsub. pose proof Hh as [Hr Hw Hk Hb].
  destruct (hashRoot_holds true (λ w : kvstore, w ∪ base) full (Some (batch ∪ base)) t tr batch) as (cached & batch' & E & Hr' & Hs & Hst & _); [|done|done|by destruct Hc|].
  { intros _ k v w. split; [done|]. cbn. by rewrite insert_union_l. }
  destruct (Hst eq_refl) as [Hf Hst']. unfold Trie_CommitTo. rewrite E. cbn. rewrite BytesToHash_hash_bytes.
  eexists _, batch'. split; [done|]. split_and!; [done..|]. by split.
Qed.
End Map.
