(* ===== verification/TrieClaims.v ===== *)
(** * What the trie promises

    The map, the root hash, committing and opening again, for the whole trie. *)

From S2P Require Import Prelude Interfaces StateTypes Hex VmData Rlp RlpLayout RlpStream.
From S2P Require Import RlpRead RlpRaw TrieCodec TrieNode TrieHash TrieTree TrieEnc.
From S2P Require Import TrieEdit TrieRep TrieUpdate TrieCommit TrieMap.

(** A hash function for examples: the bytes as a number, cut to 256 bits. *)
Definition toy_keccak (b : bytes) : hash := to_word 256 (be_val b).
Definition any_key (_ : bytes) : Prop := True.
Definition empty_trie : Trie := mkTrie nilNode hash0 0 0.

Lemma empty_stands keccak odb : stands_for keccak any_key 32 odb empty_trie (λ _, []).
Proof. exists TNil. split; [|done]. split; [constructor|by left|by intros key _|done]. Qed.

(** A trie with one entry. *)
Definition leaf_tree (key v : bytes) : tree := TShort (keybytesToHex key) (TValue v).
Definition leaf_trie (key v : bytes) : Trie := mkTrie (shortNode (keybytesToHex key) (valueNode v) (newFlag 0)) hash0 0 0.
Definition leaf_full (keccak : bytes → hash) (key v : bytes) : kvstore :=
  <[node_hash keccak (leaf_tree key v) := enc keccak (leaf_tree key v)]> (<[hash_bytes emptyRoot := rlp_string []]> ∅).
Definition leaf_map (key v k : bytes) : bytes := if decide (k = key) then v else [].

Lemma leaf_holds keccak K odb key v : (length key ≤ K)%nat → Z.of_nat (2 * K + 1) ≤ 2 ^ 32 → value_ok v →
  holds keccak any_key K odb (t_root (leaf_trie key v)) (leaf_tree key v) ∧ ∀ k, values (leaf_tree key v) k = leaf_map key v k.
Proof.
  intros Hl HK Hv. assert (Hk : keyat false (keybytesToHex key)) by apply keybytesToHex_hexkey.
  pose proof (updated_leaf (keybytesToHex key) v Hk) as Hu. split.
  - split; [by apply rep_short; [constructor|]|right; apply wf_leaf; [done|rewrite length_keybytesToHex; unfold depth; lia|done]| |done].
    eapply updated_keys; [by left|exact Hu|]. by intros q _.
  - intros k. by rewrite (updated_values _ _ _ _ Hu).
Qed.

Lemma leaf_clash keccak full key v :
  full !! node_hash keccak (leaf_tree key v) = Some (enc keccak (leaf_tree key v)) →
  full !! hash_bytes hash0 = None → full !! hash_bytes emptyRoot = Some (rlp_string []) → clash_free keccak full (leaf_tree key v).
Proof. intros Hl H0 He. split; [|done..]. constructor; [by intros _|constructor]. Qed.

Lemma leaf_within keccak K full odb key v : (length key ≤ K)%nat → Z.of_nat (2 * K + 1) ≤ 2 ^ 32 → value_ok v →
  full !! node_hash keccak (leaf_tree key v) = Some (enc keccak (leaf_tree key v)) →
  full !! hash_bytes hash0 = None → full !! hash_bytes emptyRoot = Some (rlp_string []) →
  stands_within keccak any_key K full odb (leaf_trie key v) (leaf_map key v).
Proof.
  intros Hl HK Hv H1 H2 H3. exists (leaf_tree key v). destruct (leaf_holds keccak K odb key v Hl HK Hv).
  split_and!; [done..|by apply leaf_clash].
Qed.

Definition one_key : bytes := [byte_of 0x12; byte_of 0x34].
Definition one_value : bytes := [byte_of 7].
Definition one_tree : tree := leaf_tree one_key one_value.
Definition one_trie : Trie := leaf_trie one_key one_value.
Definition one_full : kvstore := leaf_full toy_keccak one_key one_value.
Definition one_map : bytes → bytes := leaf_map one_key one_value.

Lemma one_holds odb : holds toy_keccak any_key 32 odb (t_root one_trie) one_tree ∧ ∀ k, values one_tree k = one_map k.
Proof. apply leaf_holds; [cbn; lia|cbn; lia|by split]. Qed.
Lemma one_within odb : stands_within toy_keccak any_key 32 one_full odb one_trie one_map.
Proof. apply leaf_within; [cbn; lia|cbn; lia|by split|by vm_compute..]. Qed.

(** Two tries that differ in one value, and all their nodes. *)
Definition other_value : bytes := [byte_of 8].
Definition other_trie : Trie := leaf_trie one_key other_value.
Definition other_map : bytes → bytes := leaf_map one_key other_value.
Definition two_leaves (key v v' : bytes) : kvstore :=
  <[node_hash toy_keccak (leaf_tree key v') := enc toy_keccak (leaf_tree key v')]> (leaf_full toy_keccak key v).
Definition pair_full : kvstore := two_leaves one_key one_value other_value.
Lemma pair_one : stands_within toy_keccak any_key 32 pair_full None one_trie one_map.
Proof. apply leaf_within; [cbn; lia|cbn; lia|by split|by vm_compute..]. Qed.
Lemma pair_other : stands_within toy_keccak any_key 32 pair_full None other_trie other_map.
Proof. apply leaf_within; [cbn; lia|cbn; lia|by split|by vm_compute..]. Qed.

(** C2: a trie is a map.  Whatever of it is in memory and whatever is only in the
    database, [TryGet] returns the value of the key, [TryUpdate] changes that value
    only (an empty value removes the key), [TryDelete] removes it; none of them
    fails, panics or goes on for ever, and reading changes nothing. *)
Theorem trie_is_map (keccak : bytes → hash) (P : bytes → Prop) (K : nat) (odb : option kvstore) (t : Trie) (m : bytes → bytes) (key : bytes) :
  stands_for keccak P K odb t m → (length key ≤ K)%nat →
  (∃ t', Trie_TryGet odb t key = Ret (m key, None, t') ∧ stands_for keccak P K odb t' m) ∧
  (∀ v, P key → blen v < 2 ^ 32 →
     ∃ t', Trie_TryUpdate odb t key v = Ret (None, t') ∧ stands_for keccak P K odb t' (λ k, if decide (k = key) then v else m k)) ∧
  (∃ t', Trie_TryDelete odb t key = Ret (None, t') ∧ stands_for keccak P K odb t' (λ k, if decide (k = key) then [] else m k)).
Proof.
  intros (tr & Hh & Hm) Hl. split_and!.
  - destruct (TryGet_holds _ _ _ _ _ _ key Hh Hl) as (t' & E & Hh' & _). exists t'. rewrite E, Hm. split; [done|]. by exists tr.
  - intros v Hp Hv. destruct (update_holds _ _ _ _ _ _ key v Hh Hl Hp Hv) as (t' & tr' & E & Hh' & Hm'). exists t'. split; [done|].
    exists tr'. split; [done|]. intros k. by rewrite Hm', Hm.
  - destruct (delete_holds _ _ _ _ _ _ key Hh Hl) as (t' & tr' & E & Hh' & Hm'). exists t'. split; [done|].
    exists tr'. split; [done|]. intros k. by rewrite Hm', Hm.
Qed.

Lemma trie_is_map_witness :
  (∃ t', Trie_TryGet None one_trie one_key = Ret (one_value, None, t')) ∧
  (∃ t', Trie_TryDelete None one_trie one_key = Ret (None, t') ∧ stands_for toy_keccak any_key 32 None t' (λ k, if decide (k = one_key) then [] else one_map k)).
Proof.
  destruct (trie_is_map toy_keccak any_key 32 None one_trie one_map one_key) as ((t' & E & _) & _ & H);
    [exists one_tree; exact (one_holds None)|cbn; lia|]. split; [by exists t'|exact H].
Defined.

(** C9: the root hash depends on the values only.  Two tries with the same values have
    the same root, whatever the order of the operations that made them, the hashes
    they have cached and the databases they lie in. *)
Theorem trie_root_canonical (keccak : bytes → hash) (P : bytes → Prop) (K : nat) (odb odb' : option kvstore) (t t' : Trie) (m : bytes → bytes) :
  stands_for keccak P K odb t m → stands_for keccak P K odb' t' m →
  ∃ root u u', Trie_Hash keccak t = Ret (root, u) ∧ Trie_Hash keccak t' = Ret (root, u') ∧
    stands_for keccak P K odb u m ∧ stands_for keccak P K odb' u' m.
Proof.
  intros (tr & Hh & Hm) (tr' & Hh' & Hm'). pose proof Hh as [_ Hw Hk _]. pose proof Hh' as [_ Hw' Hk' _].
  assert (tr' = tr) as ->. { eapply values_unique; [exact Hw'|exact Hw|exact Hk'|exact Hk|]. intros k. by rewrite Hm, Hm'. }
  destruct (Hash_holds _ _ _ _ _ _ Hh) as (u & E & Hu). destruct (Hash_holds _ _ _ _ _ _ Hh') as (u' & E' & Hu').
  exists (root_hash keccak tr), u, u'. split_and!; [done..|by exists tr|by exists tr].
Qed.

(** The trie with another key entered and deleted again. *)
Definition passing_key : bytes := [byte_of 0x12; byte_of 0x35].
Lemma detour :
  ∃ t1 t2, Trie_TryUpdate None one_trie passing_key [byte_of 5] = Ret (None, t1) ∧ Trie_TryDelete None t1 passing_key = Ret (None, t2) ∧
    stands_for toy_keccak any_key 32 None t2 one_map.
Proof.
  destruct (update_holds _ _ _ _ _ _ passing_key [byte_of 5] (proj1 (one_holds None))) as (t1 & tr1 & E1 & H1 & M1); [cbn; lia|by split|done|].
  destruct (delete_holds _ _ _ _ _ _ passing_key H1) as (t2 & tr2 & E2 & H2 & M2); [cbn; lia|].
  exists t1, t2. split_and!; [done..|]. exists tr2. split; [done|]. intros k. rewrite M2, M1.
  case_decide as Hk; [subst k; by vm_compute|]. apply (one_holds None).
Qed.

Lemma trie_root_canonical_witness :
  ∃ t1 t2 root u u', Trie_TryUpdate None one_trie passing_key [byte_of 5] = Ret (None, t1) ∧ Trie_TryDelete None t1 passing_key = Ret (None, t2) ∧
    Trie_Hash toy_keccak one_trie = Ret (root, u) ∧ Trie_Hash toy_keccak t2 = Ret (root, u').
Proof.
  destruct detour as (t1 & t2 & E1 & E2 & H2).
  destruct (trie_root_canonical toy_keccak any_key 32 (Some ∅) None one_trie t2 one_map) as (root & u & u' & H & H' & _);
    [exists one_tree; exact (one_holds (Some ∅))|exact H2|]. by exists t1, t2, root, u, u'.
Defined.

(** C10: the root commits to the values.  If no two nodes of two tries have the same
    hash without being the same, and the tries have the same root, they have the
    same values. *)
Theorem trie_root_binding (keccak : bytes → hash) (P : bytes → Prop) (K : nat) (full : kvstore) (odb odb' : option kvstore) (t t' u u' : Trie) (m m' : bytes → bytes) (root : hash) :
  stands_within keccak P K full odb t m → stands_within keccak P K full odb' t' m' →
  Trie_Hash keccak t = Ret (root, u) → Trie_Hash keccak t' = Ret (root, u') → ∀ k, m k = m' k.
Proof.
  intros (tr & Hh & Hm & Hc) (tr' & Hh' & Hm' & Hc') E E' k. pose proof Hh as [_ Hw _ Hb]. pose proof Hh' as [_ Hw' _ _].
  destruct (Hash_holds _ _ _ _ _ _ Hh) as (v & H1 & _). destruct (Hash_holds _ _ _ _ _ _ Hh') as (v' & H2 & _).
  rewrite H1 in E. rewrite H2 in E'. injection E as E _. injection E' as E' _.
  assert (tr = tr') as <- by (eapply root_hash_inj; [exact Hc|exact Hc'|exact Hw|exact Hw'|exact Hb|exact Hb|congruence]).
  by rewrite <- Hm, <- Hm'.
Qed.

Lemma trie_root_binding_witness : ∃ r u r' u', Trie_Hash toy_keccak one_trie = Ret (r, u) ∧ Trie_Hash toy_keccak other_trie = Ret (r', u') ∧ r ≠ r'.
Proof.
  destruct (Trie_Hash toy_keccak one_trie) as [[r u]|] eqn:E; [|by vm_compute in E].
  destruct (Trie_Hash toy_keccak other_trie) as [[r' u']|] eqn:E'; [|by vm_compute in E'].
  exists r, u, r', u'. split_and!; [done..|]. intros <-.
  pose proof (trie_root_binding toy_keccak any_key 32 pair_full None None one_trie other_trie u u' one_map other_map r pair_one pair_other E E' one_key) as H.
  by vm_compute in H.
Defined.

(** C12: what is committed can be opened again.  [CommitTo] into a batch over a
    database returns the root hash; with the batch written, the trie goes on with the
    same values, although nodes may have been dropped from memory, and [New] with the
    root gives a trie with the same values. *)
Theorem trie_commit_reload (keccak : bytes → hash) (P : bytes → Prop) (K : nat) (full batch base : kvstore) (t : Trie) (m : bytes → bytes) :
  stands_within keccak P K full (Some (batch ∪ base)) t m → batch ∪ base ⊆ full →
  ∃ root t' batch' u t2, Trie_CommitTo keccak t batch = Ret ((root, None, t'), batch') ∧ Trie_Hash keccak t = Ret (root, u) ∧
    batch ∪ base ⊆ batch' ∪ base ∧ stands_within keccak P K full (Some (batch' ∪ base)) t' m ∧
    New root (Some (batch' ∪ base)) = Ret (inl t2) ∧ stands_within keccak P K full (Some (batch' ∪ base)) t2 m.
Proof.
  intros (tr & Hh & Hm & Hc) Hsub. pose proof Hh as [_ Hw Hk Hb].
  destruct (CommitTo_holds _ _ _ _ _ _ _ _ Hh Hc Hsub) as (t' & batch' & E & Hs & Hf & Hst & Hh').
  destruct (New_holds _ _ _ _ _ _ Hf Hc Hw Hk Hb Hst) as (t2 & E2 & Hh2). destruct (Hash_holds _ _ _ _ _ _ Hh) as (u & E1 & _).
  exists (root_hash keccak tr), t', batch', u, t2. split_and!; [done..|by exists tr|done|by exists tr].
Qed.

Lemma trie_commit_reload_witness :
  ∃ root t' db' t2, Trie_CommitTo toy_keccak one_trie ∅ = Ret ((root, None, t'), db') ∧
    New root (Some (db' ∪ ∅)) = Ret (inl t2) ∧ stands_within toy_keccak any_key 32 one_full (Some (db' ∪ ∅)) t2 one_map.
Proof.
  destruct (trie_commit_reload toy_keccak any_key 32 one_full ∅ ∅ one_trie one_map) as (root & t' & db' & u & t2 & H1 & _ & _ & _ & H2 & H3);
    [exact (one_within _)|rewrite (left_id_L ∅ (∪)); apply map_empty_subseteq|]. by exists root, t', db', t2.
Defined.
