(* ===== verification/TrieProof.v ===== *)
(** * Merkle proofs ([trie/proof.go])

    [Prove] writes the nodes on the path of a key under their hashes; [VerifyProof]
    follows them from a root hash.  What it accepts is what the trie with that root
    has, and it accepts what [Prove] wrote. *)

From S2P Require Import Prelude Interfaces StateTypes Hex VmData Rlp RlpLayout RlpStream.
From S2P Require Import RlpRead RlpRaw TrieCodec TrieNode TrieHash TrieTree TrieEnc.
From S2P Require Import TrieEdit TrieRep TrieUpdate TrieCommit TrieMap TrieClaims.

(** ** Definitions *)

Section Prove.
Variable keccak : bytes → hash.

(** The first loop of [Prove]: the nodes on the path. *)
Fixpoint prove_path (odb : option kvstore) (gen : Z) (fuel : nat) (tn : node) (key : bytes) : TR (list node) :=
  match fuel with
  | O => Panic trie_no_fuel
  | S fuel =>
    match key, tn with
    | [], _ | _, nilNode => rok []
    | k0 :: krest, shortNode k v f =>
      if decide (take (length k) key = k) then
        let! rest := prove_path odb gen fuel v (drop (length k) key) in rok (tn :: rest)
      else rok [tn]
    | k0 :: krest, fullNode cs f =>
      let! c := lift (child cs k0) in
      let! rest := prove_path odb gen fuel c krest in rok (tn :: rest)
    | _, hashNode h => let! n := resolveHash odb gen h [] in prove_path odb gen fuel n key
    | _, valueNode _ => Panic invalid_node
    end
  end.

(** The second loop: the nodes with a hash of their own, and the root. *)
Fixpoint prove_nodes (nodes : list node) (first : bool) (fromLevel : Z) (proofDb : kvstore) : outcome kvstore :=
  match nodes with
  | [] => Ret proofDb
  | n :: nodes =>
    '((n, _, _), _) ← hashChildren (λ c w, hasher_hash keccak 0 0 false c false w) n tt;
    '((hn, _), _) ← store keccak false n false tt;
    let is_hash := match hn with hashNode h => Some h | _ => None end in
    if bool_decide (is_hash ≠ None) || first then
      if fromLevel >? 0 then prove_nodes nodes false (fromLevel - 1) proofDb
      else
        enc ← node_rlp n;
        let hash := match is_hash with Some h => h | None => hash_bytes (keccak enc) end in
        prove_nodes nodes false fromLevel (<[hash := enc]> proofDb)
    else prove_nodes nodes false fromLevel proofDb
  end.

Definition Prove (odb : option kvstore) (t : Trie) (key : bytes) (fromLevel : Z) (proofDb : kvstore) : outcome (option MissingNodeError * kvstore) :=
  let key := keybytesToHex key in
  match prove_path odb (t_cachegen t) (key_fuel key) (t_root t) key with
  | Panic w => Panic w
  | Ret (inr err) => Ret (Some err, proofDb)
  | Ret (inl nodes) => db ← prove_nodes nodes true fromLevel proofDb; Ret (None, db)
  end.
End Prove.

(** [get]: down to the first hash, value or missing child. *)
Fixpoint get_node (tn : node) (key : bytes) {struct tn} : outcome (bytes * node) :=
  match tn with
  | shortNode k v _ =>
    if decide (take (length k) key = k) then get_node v (drop (length k) key) else Ret ([], nilNode)
  | fullNode cs _ =>
    match key with
    | [] => Panic index_panic
    | x :: key =>
      (fix go cs i := match cs, i with c :: _, O => get_node c key | _ :: cs, S i => go cs i | [], _ => Panic index_panic end) cs (Z.to_nat (byte_val x))
    end
  | hashNode _ | nilNode => Ret (key, tn)
  | valueNode _ => Ret ([], tn)
  end.

Inductive proofError : Type :=
| proof_node_missing (i : Z) (hash : bytes)
| bad_proof_node (i : Z) (err : nodeError).

(** The loop has no bound of its own: a store in which a node names itself keeps it
    going. *)
Definition verify_no_fuel : string := "VerifyProof: no fuel".
Fixpoint VerifyProof_loop (fuel : nat) (wantHash key : bytes) (proofDb : kvstore) (i : Z) : outcome (bytes * option proofError * Z) :=
  match fuel with
  | O => Panic verify_no_fuel
  | S fuel =>
    match proofDb !! wantHash with
    | None => Ret ([], Some (proof_node_missing i wantHash), i)
    | Some buf =>
      match decodeNode (Some wantHash) buf 0 with
      | Panic w => Panic w
      | Ret (inr err) => Ret ([], Some (bad_proof_node i err), i)
      | Ret (inl n) =>
        '(keyrest, cld) ← get_node n key;
        match cld with
        | nilNode => Ret ([], None, i)
        | hashNode h => VerifyProof_loop fuel h keyrest proofDb (i + 1)
        | valueNode v => Ret (v, None, i + 1)
        | _ => VerifyProof_loop fuel wantHash key proofDb (i + 1)
        end
      end
    end
  end.
Definition VerifyProof (fuel : nat) (rootHash : hash) (key : bytes) (proofDb : kvstore) : outcome (bytes * option proofError * Z) :=
  VerifyProof_loop fuel (hash_bytes rootHash) (keybytesToHex key) proofDb 0.

(** ** Following a proof *)

Lemma get_node_full cs f x key : get_node (fullNode cs f) (x :: key) = match cs !! idx x with Some c => get_node c key | None => Panic index_panic end.
Proof. cbn [get_node]. change (Z.to_nat (byte_val x)) with (idx x). generalize (idx x). induction cs as [|c cs IH]; intros [|i]; [done..|]. apply IH. Qed.

Section Verify.
Variable keccak : bytes → hash.
#[local] Abbreviation enc := (enc keccak).
#[local] Abbreviation big := (big keccak).
#[local] Abbreviation node_hash := (node_hash keccak).
#[local] Abbreviation shallow := (shallow keccak).
#[local] Abbreviation sref := (sref keccak).

(** The nodes of the path of [key] that have a hash of their own are in [p]. *)
Inductive on_path (p : kvstore) : bool → tree → bytes → Prop :=
| op_nil top key : on_path p top TNil key
| op_value top v key : on_path p top (TValue v) key
| op_miss top k c key :
    (hashed keccak top (TShort k c) → p !! node_hash (TShort k c) = Some (enc (TShort k c))) →
    (∀ r, key ≠ k ++ r) → on_path p top (TShort k c) key
| op_hit top k c key :
    (hashed keccak top (TShort k c) → p !! node_hash (TShort k c) = Some (enc (TShort k c))) →
    on_path p false c key → on_path p top (TShort k c) (k ++ key)
| op_full top ts x c key :
    (hashed keccak top (TFull ts) → p !! node_hash (TFull ts) = Some (enc (TFull ts))) →
    ts !! idx x = Some c → on_path p false c key → on_path p top (TFull ts) (x :: key).

Lemma on_path_here p top t key : on_path p top t key → is_node t = true → hashed keccak top t → p !! node_hash t = Some (enc t).
Proof. by destruct 1. Qed.

Lemma on_path_weaken p top t key : on_path p top t key → on_path p false t key.
Proof.
  assert (Hh : ∀ t, hashed keccak false t → hashed keccak top t) by (intros t' [?|?]; [done|by right]).
  destruct 1; [constructor|constructor|apply op_miss|apply op_hit|eapply op_full]; eauto.
Qed.
Lemma stored_weaken full top t : stored keccak full top t → stored keccak full false t.
Proof.
  assert (Hh : ∀ t, hashed keccak false t → hashed keccak top t) by (intros t' [?|?]; [done|by right]).
  destruct 1; constructor; eauto.
Qed.

(** Where [get] stops, at least [n] symbols on, and what remains to be looked up
    there. *)
Definition stops (n : nat) (t : tree) (key keyrest : bytes) (cld : node) : Prop :=
  (cld = nilNode ∧ tget t key = []) ∨
  (∃ v, cld = valueNode v ∧ tget t key = v ∧ v ≠ []) ∨
  (∃ t' L', cld = hashNode (node_hash t') ∧ big t' = true ∧ wf false L' t' ∧ Z.of_nat L' ≤ 2 ^ 32 ∧ keyat false keyrest ∧
     (length keyrest + n ≤ length key)%nat ∧ tget t key = tget t' keyrest ∧
     (∀ full top, stored keccak full top t → stored keccak full false t') ∧ (∀ p top, on_path p top t key → on_path p false t' keyrest)).

Lemma stops_less n t key keyrest cld : stops n t key keyrest cld → stops 0 t key keyrest cld.
Proof.
  intros [?|[?|(t' & L' & H1 & H2 & H3 & H4 & H5 & H6 & H7)]]; [by left|by right; left|]. right. right. exists t', L'. split_and!; try done; [lia|naive_solver..].
Qed.

(** A child stored in its parent, or its hash. *)
Lemma get_sref d L t key :
  wf0 d L t → Z.of_nat L ≤ 2 ^ 32 → keyat d key →
  (t ≠ TNil → ∃ keyrest cld, get_node (shallow None 0 t) key = Ret (keyrest, cld) ∧ stops 0 t key keyrest cld) →
  ∃ keyrest cld, get_node (sref 0 t) key = Ret (keyrest, cld) ∧ stops 0 t key keyrest cld.
Proof.
  intros Hw HL Hk IH. unfold TrieEnc.sref. destruct (big t) eqn:Eb.
  - exists key, (hashNode (node_hash t)). split; [done|]. right. right.
    assert (is_node t = true) as Hn by by destruct t. apply wf0_node_false in Hw as [-> Hw]; [|done]. exists t, L.
    split_and!; [done..|lia|done|by intros; eapply stored_weaken|by intros; eapply on_path_weaken].
  - destruct (decide (t = TNil)) as [->|Hn]; [|by apply IH]. exists key, nilNode. split; [done|]. by left.
Qed.

(** One step down: what holds below holds above. *)
Lemma stops_up n m t key keyrest cld c ckey :
  stops n c ckey keyrest cld → tget t key = tget c ckey → (length ckey + m ≤ length key)%nat →
  (∀ full top, stored keccak full top t → stored keccak full false c) → (∀ p top, on_path p top t key → on_path p false c ckey) →
  stops (n + m) t key keyrest cld.
Proof.
  intros [[-> Hg]|[(v & -> & Hg & Hv)|(t' & L' & -> & Hb & Hw & HL & Hk & Hl & Hg & Hs & Ho)]] E Hlen Hs' Ho'.
  - left. by rewrite E.
  - right. left. exists v. by rewrite E.
  - right. right. exists t', L'. rewrite E. split_and!; [done..|lia|done|eauto|eauto].
Qed.

Lemma get_shallow d L t : wf d L t → Z.of_nat L ≤ 2 ^ 32 → ∀ oh key, keyat d key →
  ∃ keyrest cld, get_node (shallow oh 0 t) key = Ret (keyrest, cld) ∧ stops (if is_node t then 1 else 0) t key keyrest cld.
Proof.
  induction 1 as [L v [Hv _]|d L k c Hne Hp Hl Hs Hw IH|L cs Hlen HL Hcs IH Htwo]; intros Hb oh key Hk.
  - exists [], (valueNode v). split; [done|]. right. left. by exists v.
  - rewrite shallow_short. cbn [get_node]. destruct (decide _) as [E|E].
    + assert (∃ r, key = k ++ r) as [r ->] by (exists (drop (length k) key); by rewrite <- E at 1; rewrite take_drop).
      rewrite drop_app_length. assert (Hr := keyat_path_inv _ _ _ Hp Hk).
      destruct (get_sref d (L - length k) c r) as (keyrest & cld & Eg & Hst); [by right|lia|done| |].
      { intros _. destruct (IH ltac:(lia) None r Hr) as (kr & cl & Eg & Hst). exists kr, cl. split; [done|].
        by eapply stops_less. }
      exists keyrest, cld. split; [done|]. eapply (stops_up 0 1); [exact Hst|apply tget_short| | |].
      * rewrite length_app. destruct k; [done|]. simpl. lia.
      * intros full top Hst'. inversion Hst'; by subst.
      * intros p top Ho. inversion Ho as [| |? ? ? ? _ Hm|? ? ? ? _ Hc|]; subst; [by destruct (Hm r)|]. match goal with E : k ++ _ = k ++ _ |- _ => apply app_inv_head in E; by subst end.
    + exists [], nilNode. split; [done|]. left. split; [done|]. apply tget_short_other. intros r ->. by rewrite take_app_length in E.
  - destruct (keyat_false_cons key Hk) as (x & r & ->). apply keyat_cons in Hk as [Hx Hr].
    destruct (lookup_lt_is_Some_2 cs (idx x)) as [c Hc]; [lia|]. rewrite shallow_full, get_node_full.
    change (map (sref 0) cs) with (sref 0 <$> cs). rewrite list_lookup_fmap, Hc. cbn [fmap option_fmap option_map].
    destruct (get_sref (bool_decide (idx x = 16%nat)) (L - 1) c r) as (keyrest & cld & Eg & Hst); [|lia|done| |].
    { destruct (decide (c = TNil)) as [->|Hn]; [by left|right; by apply Hcs]. }
    { intros Hn. destruct (IH _ _ Hc Hn ltac:(lia) None r Hr) as (kr & cl & Eg & Hst). exists kr, cl. split; [done|]. by eapply stops_less. }
    exists keyrest, cld. split; [done|]. eapply (stops_up 0 1); [exact Hst|by rewrite tget_full, Hc|simpl; lia| |].
    + intros full top Hst'. inversion Hst' as [| | |? ? ? Hall]; subst. by eapply Hall.
    + intros p top Ho. inversion Ho; subst. congruence.
Qed.

(** ** Verification *)

Lemma verify_loop_ok p full : p ⊆ full → ∀ fuel top t L key i,
  wf false L t → Z.of_nat L ≤ 2 ^ 32 → hashed keccak top t → stored keccak full top t → keyat false key → (length key ≤ fuel)%nat →
  ∃ v err j, VerifyProof_loop fuel (node_hash t) key p i = Ret (v, err, j) ∧
    (err = None → v = tget t key) ∧ (on_path p top t key → err = None).
Proof.
  intros Hsub. induction fuel as [|fuel IH]; intros top t L key i Hw HL Hh Hs Hk Hf; [destruct (keyat_false_cons key Hk) as (? & ? & ->); simpl in Hf; lia|].
  assert (is_node t = true) as Hn by by inversion Hw. pose proof (stored_here _ _ _ _ Hs Hn Hh) as Hfull. cbn [VerifyProof_loop].
  destruct (p !! node_hash t) as [e|] eqn:Ep.
  2:{ do 3 eexists. split; [done|]. split; [done|]. intros Ho. pose proof (on_path_here _ _ _ _ Ho Hn Hh). congruence. }
  assert (e = enc t) as -> by (pose proof (lookup_weaken _ _ _ _ Ep Hsub); congruence).
  rewrite (decodeNode_enc keccak _ _ _ _ Hw HL). cbn [rok].
  destruct (get_shallow false L t Hw HL (Some (node_hash t)) key Hk) as (keyrest & cld & Eg & Hst). rewrite Eg. cbn [mbind outcome_bind]. rewrite Hn in Hst.
  destruct Hst as [[-> Hg]|[(v & -> & Hg & _)|(t' & L' & -> & Hb & Hw' & HL' & Hk' & Hl & Hg & Hs' & Ho')]].
  - do 3 eexists. split; [done|]. by rewrite Hg.
  - do 3 eexists. split; [done|]. by rewrite Hg.
  - destruct (IH false t' L' keyrest (i + 1) Hw' HL') as (v & err & j & E & H1 & H2); [by right|by eapply Hs'|done|lia|].
    exists v, err, j. split; [done|]. rewrite Hg. split; [done|]. intros Ho. by eapply H2, Ho'.
Qed.

(** ** Construction *)

(** The nodes [Prove] visits, with their trees. *)
Inductive visits (db : kvstore) : bool → list node → tree → bytes → Prop :=
| vs_nil top key : visits db top [] TNil key
| vs_value top v key : visits db top [] (TValue v) key
| vs_miss top n k c key :
    rep keccak db top n (TShort k c) → is_hash n = false → (∀ r, key ≠ k ++ r) → visits db top [n] (TShort k c) key
| vs_hit top n k c key ns :
    rep keccak db top n (TShort k c) → is_hash n = false → visits db false ns c key → visits db top (n :: ns) (TShort k c) (k ++ key)
| vs_full top n ts x c key ns :
    rep keccak db top n (TFull ts) → is_hash n = false → ts !! idx x = Some c → visits db false ns c key → visits db top (n :: ns) (TFull ts) (x :: key).

Lemma prove_path_ok odb gen fuel : ∀ top n t d L key,
  rep keccak (default ∅ odb) top n t → wf0 d L t → Z.of_nat L ≤ 2 ^ 32 → keyat d key → (steps n key ≤ fuel)%nat →
  ∃ ns, prove_path odb gen fuel n key = rok ns ∧ visits (default ∅ odb) top ns t key.
Proof.
  induction fuel as [|fuel IH]; intros top n t d L key Hr Hw HL Hk Hf; [unfold steps in Hf; destruct (is_hash n); lia|].
  destruct d; [simpl in Hk; subst key; exists []; split; [done|]; destruct Hw as [->|(v & -> & _)%wf_true]; constructor|].
  destruct (keyat_false_cons key Hk) as (x & r & ->). assert (Hr' := Hr).
  destruct Hr as [top|top v|top k n f t Hn Hfl|top cs f ts Hlen Hcs Hfl|top t Hn Hh Hs].
  - exists []. split; [done|constructor].
  - destruct Hw as [?|Hw]; [done|by inversion Hw].
  - apply wf0_node_false in Hw as [_ Hw]; [|done]. inversion Hw as [|d ? ? ? Hne Hp Hl Hsh Hc|]; subst. cbn [prove_path]. destruct (decide _) as [E|E].
    + assert (∃ q, x :: r = k ++ q) as [q Eq] by (exists (drop (length k) (x :: r)); by rewrite <- E at 1; rewrite take_drop). rewrite Eq in *.
      rewrite drop_app_length. destruct (IH false n t d (L - length k)%nat q) as (ns & -> & Hv); [done|by right|lia|by eapply keyat_path_inv| |].
      { unfold steps in *. cbn [is_hash] in Hf. rewrite length_app in Hf. destruct k; [done|]. cbn [length] in Hf. destruct (is_hash n); lia. }
      rstep. eexists. split; [done|]. by apply vs_hit.
    + eexists. split; [done|]. apply vs_miss; [done..|]. intros q Eq. rewrite Eq in E. by rewrite take_app_length in E.
  - apply wf0_node_false in Hw as [_ Hw]; [|done]. destruct (rep_full_child _ _ _ _ _ _ _ _ _ Hr' Hw Hk) as (c & t & Hc & Ht & Hct & Hwt & Hx & Hr2).
    cbn [prove_path]. rewrite (child_at _ _ _ Hc). rstep. destruct (IH false c t _ (L - 1)%nat r Hct Hwt) as (ns & -> & Hv); [lia|done| |].
    { unfold steps in *. cbn [is_hash length] in Hf. destruct (is_hash c); lia. }
    rstep. eexists. split; [done|]. by eapply vs_full.
  - apply wf0_node_false in Hw as [_ Hw]; [|done]. cbn [prove_path].
    destruct (resolveHash_rep keccak odb gen top L t [] Hn Hh Hs Hw HL) as (n & E & Hrn & Hnh). rewrite E. rstep.
    destruct (IH top n t false L (x :: r)) as (ns & E' & Hv); [done|by right|done|done|unfold steps in *; rewrite Hnh; cbn [is_hash] in Hf; lia|].
    rewrite E'. by eexists.
Qed.

(** A visited node, collapsed as for hashing, encodes to the bytes of its tree. *)
Lemma collapsed_ok db top n t L : rep keccak db top n t → is_hash n = false → wf false L t → Z.of_nat L ≤ 2 ^ 32 →
  ∃ c cached f, hashChildren (λ c w, hasher_hash keccak 0 0 false c false w) n tt = Ret ((c, cached, None), tt) ∧
    nref c = inl (enc t) ∧ encodable c ∧ (c ≠ nilNode ∧ (∀ h, c ≠ hashNode h) ∧ cache c = Ret (nf_hash f, nf_dirty f)) ∧
    match nf_hash f with None => True | Some h => h = node_hash t end.
Proof.
  intros Hr Hh Hw HL. assert (Hall : ∀ n, hashes keccak 0 0 false (λ _ : unit, db) ∅ n) by (intros n'; by apply hash_rep).
  inversion Hr as [| |? k v f c Hv Hf|? cs f ts Hlen Hcs Hf|]; subst; [by inversion Hw|by inversion Hw| | |done].
  - destruct (short_children keccak 0 0 false (λ _ : unit, db) ∅ k v f c L tt (Hall v) Hv Hw HL) as (col & cach & [] & E & C1 & C2 & _); [done..|].
    do 3 eexists. split; [exact E|]. split_and!; [done|by constructor|done|done|done|]. destruct Hf as [Hf _]. by destruct (nf_hash f); [destruct Hf|].
  - destruct (full_children keccak 0 0 false (λ _ : unit, db) ∅ cs f ts L tt) as (cols & cachs & [] & E & C1 & C2 & _);
      [by apply Forall_true|by apply Forall2_same_length_lookup|done..|].
    do 3 eexists. split; [exact E|]. split_and!; [done..|]. destruct Hf as [Hf _]. by destruct (nf_hash f); [destruct Hf|].
Qed.

(** One turn of the second loop. *)
Lemma prove_nodes_cons db top n t L ns p : rep keccak db top n t → is_hash n = false → wf false L t → Z.of_nat L ≤ 2 ^ 32 →
  prove_nodes keccak (n :: ns) top 0 p = prove_nodes keccak ns false 0 (if top || big t then <[node_hash t := enc t]> p else p).
Proof.
  intros Hr Hh Hw HL. destruct (collapsed_ok _ _ _ _ _ Hr Hh Hw HL) as (c & cached & f & E & Hc & He & (Hn1 & Hn2 & Hca) & Hf).
  pose proof (enc_size keccak _ _ Hw HL) as Hb. assert (Er : node_rlp c = Ret (enc t)) by (apply node_rlp_ok; [done|done|lia]).
  assert (is_node t = true) as Hn by by inversion Hw. cbn [prove_nodes]. rewrite E. cbn [mbind outcome_bind].
  assert (Es : store keccak false c false tt = Ret ((if big t then hashNode (node_hash t) else c, None), tt)).
  { assert (store keccak false c false tt = (enc ← node_rlp c; if (blen enc <? 32) && negb false then Ret ((c, None), tt) else
      x ← cache c; Ret ((hashNode (match x.1 with Some h => h | None => hash_bytes (keccak enc) end), None), tt))) as -> by (by destruct c; try done; destruct (Hn2 h)).
    rewrite Er, Hca. cbn [mbind outcome_bind fst]. unfold TrieEnc.big. rewrite Hn. cbn [andb negb]. rewrite andb_true_r.
    destruct (Z.ltb_spec (blen (enc t)) 32), (Z.leb_spec 32 (blen (enc t))); try lia; [done|]. destruct (nf_hash f); subst; done. }
  rewrite Es. cbn [mbind outcome_bind]. destruct (big t) eqn:Eb; cbn [negb orb].
  - rewrite bool_decide_true by done. rewrite orb_true_r. cbn [orb]. rewrite (Z.gtb_ltb 0 0). cbn. by rewrite Er.
  - assert (match c with hashNode h => Some h | _ => None end = None) as -> by (destruct c; try done; by destruct (Hn2 h)).
    rewrite bool_decide_false by (intros ?; done). rewrite orb_false_r. destruct top; cbn [orb]; [|done]. cbn. by rewrite Er.
Qed.

Lemma on_path_mono p p' top t key : p ⊆ p' → on_path p top t key → on_path p' top t key.
Proof.
  intros Hs H. induction H; [constructor|constructor|apply op_miss|apply op_hit|eapply op_full]; try done; intros Hh; eapply lookup_weaken; eauto.
Qed.

Lemma put_node full top t p : p ⊆ full → is_node t = true → stored keccak full top t → 
  let p' := if top || big t then <[node_hash t := enc t]> p else p in
  p ⊆ p' ∧ p' ⊆ full ∧ (hashed keccak top t → p' !! node_hash t = Some (enc t)).
Proof.
  intros Hs Hn Hst. simpl. destruct (top || big t) eqn:E.
  - assert (hashed keccak top t) as Hh by (by apply orb_true_iff in E as [->|?]; [left|right]).
    destruct (put_sub (λ p, p) full p _ _ Hs (stored_here _ _ _ _ Hst Hn Hh)). split_and!; [done..|]. intros _. by rewrite lookup_insert_eq.
  - apply orb_false_iff in E as [-> Eb]. split_and!; [done..|]. intros [?|?]; [done|congruence].
Qed.

Lemma prove_nodes_ok db full top ns t key : visits db top ns t key → ∀ d L p,
  wf0 d L t → Z.of_nat L ≤ 2 ^ 32 → stored keccak full top t → p ⊆ full →
  ∃ p', prove_nodes keccak ns top 0 p = Ret p' ∧ p ⊆ p' ∧ p' ⊆ full ∧ on_path p' top t key.
Proof.
  induction 1 as [top key|top v key|top n k c key Hr Hh Hm|top n k c key ns Hr Hh Hv IH|top n ts x c key ns Hr Hh Hx Hv IH]; intros d L p Hw HL Hst Hs.
  - exists p. split_and!; [done..|constructor].
  - exists p. split_and!; [done..|constructor].
  - apply wf0_node_false in Hw as [_ Hw]; [|done]. erewrite prove_nodes_cons by done. destruct (put_node full top (TShort k c) p) as (H1 & H2 & H3); [done..|].
    eexists. split_and!; [done..|]. by apply op_miss.
  - apply wf0_node_false in Hw as [_ Hw]; [|done]. erewrite prove_nodes_cons by done. destruct (put_node full top (TShort k c) p) as (H1 & H2 & H3); [done..|].
    inversion Hw as [|d' ? ? ? _ _ _ _ Hc|]; subst. destruct (IH d' (L - length k)%nat _ ltac:(by right) ltac:(lia) ltac:(by inversion Hst) H2) as (p' & E & H4 & H5 & H6).
    exists p'. split_and!; [done|by etrans|done|]. apply op_hit; [|done]. intros Hx. by eapply lookup_weaken; [apply H3|].
  - apply wf0_node_false in Hw as [_ Hw]; [|done]. erewrite prove_nodes_cons by done. destruct (put_node full top (TFull ts) p) as (H1 & H2 & H3); [done..|].
    assert (Hc : stored keccak full false c) by (inversion Hst as [| | |? ? ? Hall]; by eapply Hall).
    destruct (IH _ (L - 1)%nat _ (wf_child _ _ _ _ Hw Hx) ltac:(lia) Hc H2) as (p' & E & H4 & H5 & H6).
    exists p'. split_and!; [done|by etrans|done|]. eapply op_full; [|done..]. intros Hy. by eapply lookup_weaken; [apply H3|].
Qed.
End Verify.

(** ** Claims *)

Lemma verify_empty_root fuel key full p : p ⊆ full → full !! hash_bytes emptyRoot = Some (rlp_string []) →
  ∃ v err n, VerifyProof (S fuel) emptyRoot key p = Ret (v, Some err, n).
Proof.
  intros Hs Hf. unfold VerifyProof. cbn [VerifyProof_loop]. destruct (p !! hash_bytes emptyRoot) as [e|] eqn:E; [|by do 3 eexists].
  assert (e = rlp_string []) as -> by (pose proof (lookup_weaken _ _ _ _ E Hs); congruence).
  assert (∀ h, decodeNode (Some h) (rlp_string []) 0 = Ret (inr (decode_error ErrExpectedList))) as -> by done. by do 3 eexists.
Qed.

Lemma verify_ok keccak P K full odb t tr p key fuel :
  holds keccak P K odb (t_root t) tr → clash_free keccak full tr → p ⊆ full → (2 * length key + 1 ≤ fuel)%nat →
  ∃ v err n, VerifyProof fuel (root_hash keccak tr) key p = Ret (v, err, n) ∧ (err = None → v = values tr key) ∧
    (tr ≠ TNil → on_path keccak p true tr (keybytesToHex key) → err = None).
Proof.
  intros [_ Hw _ Hb] Hc Hs Hf. destruct Hw as [->|Hw].
  - destruct fuel as [|fuel]; [lia|]. destruct (verify_empty_root fuel key full p Hs) as (v & err & n & E); [by destruct Hc|].
    exists v, (Some err), n. by split_and!.
  - unfold VerifyProof. assert (hash_bytes (root_hash keccak tr) = node_hash keccak tr) as -> by (by destruct tr; inversion Hw).
    destruct (verify_loop_ok keccak p full Hs fuel true tr (depth K) (keybytesToHex key) 0 Hw Hb) as (v & err & n & E & H1 & H2);
      [by left|by destruct Hc|apply keybytesToHex_hexkey|rewrite length_keybytesToHex; lia|]. exists v, err, n. by split_and!.
Qed.

(** C25: proofs are sound.  Whatever store of nodes [VerifyProof] is given, as long as
    they are filed under their hashes and no two nodes clash, it ends; and if it
    returns without an error, the value is the one the trie with that root has under
    the key (the empty value: the key is not in the trie). *)
Theorem merkle_sound (keccak : bytes → hash) (P : bytes → Prop) (K : nat) (full proofDb : kvstore) (odb : option kvstore) (t u : Trie) (m : bytes → bytes)
    (root : hash) (key : bytes) (fuel : nat) :
  stands_within keccak P K full odb t m → Trie_Hash keccak t = Ret (root, u) → proofDb ⊆ full → (2 * length key + 1 ≤ fuel)%nat →
  ∃ v err n, VerifyProof fuel root key proofDb = Ret (v, err, n) ∧ (err = None → v = m key).
Proof.
  intros (tr & Hh & Hm & Hc) E Hs Hf. destruct (Hash_holds _ _ _ _ _ _ Hh) as (u' & E' & _). rewrite E in E'. injection E' as -> _.
  destruct (verify_ok _ _ _ _ _ _ _ _ key fuel Hh Hc Hs Hf) as (v & err & n & Ev & H1 & _). exists v, err, n. split; [done|]. by rewrite <- Hm.
Qed.

Lemma merkle_sound_witness :
  ∃ root u v err n, Trie_Hash toy_keccak one_trie = Ret (root, u) ∧ VerifyProof 5 root one_key one_full = Ret (v, err, n) ∧ (err = None → v = one_value).
Proof.
  destruct (Trie_Hash toy_keccak one_trie) as [[root u]|] eqn:E; [|by vm_compute in E].
  destruct (merkle_sound toy_keccak any_key 32 one_full one_full None one_trie u one_map root one_key 5 (one_within None) E) as (v & err & n & H1 & H2);
    [done|cbn; lia|]. exists root, u, v, err, n. split; [reflexivity|exact (conj H1 H2)].
Defined.

(** C26: proofs are complete.  For a trie with something in it, [Prove] from the root
    ([fromLevel] zero) succeeds, and [VerifyProof] accepts what it wrote, with the value of the key: the proof shows
    that the key has that value or that it is missing. *)
Theorem merkle_complete (keccak : bytes → hash) (P : bytes → Prop) (K : nat) (full proofDb : kvstore) (odb : option kvstore) (t u : Trie) (m : bytes → bytes)
    (root : hash) (key k0 : bytes) (fuel : nat) :
  stands_within keccak P K full odb t m → Trie_Hash keccak t = Ret (root, u) → m k0 ≠ [] → proofDb ⊆ full → (length key ≤ K)%nat → (2 * length key + 1 ≤ fuel)%nat →
  ∃ proof n, Prove keccak odb t key 0 proofDb = Ret (None, proof) ∧ proof ⊆ full ∧ VerifyProof fuel root key proof = Ret (m key, None, n).
Proof.
  intros (tr & Hh & Hm & Hc) E H0 Hs Hl Hf. destruct (Hash_holds _ _ _ _ _ _ Hh) as (u' & E' & _). rewrite E in E'. injection E' as -> _.
  pose proof Hh as [Hr Hw _ Hb]. destruct (key_steps K (t_root t) key Hl) as [Hst _].
  destruct (prove_path_ok keccak odb (t_cachegen t) _ true _ tr false _ (keybytesToHex key) Hr Hw Hb (keybytesToHex_hexkey key) Hst) as (ns & En & Hv).
  destruct (prove_nodes_ok keccak _ full _ _ _ _ Hv false (depth K) proofDb Hw Hb) as (p' & Ep & _ & Hp' & Ho); [by destruct Hc|done|].
  destruct (verify_ok _ _ _ _ _ _ _ p' key fuel Hh Hc Hp' Hf) as (v & err & n & Ev & H1 & H2).
  assert (err = None) as -> by (apply H2; [|done]; intros ->; by rewrite <- Hm in H0). exists p', n.
  unfold Prove. rewrite En. cbn [rok]. rewrite Ep. split_and!; [done|done|]. by rewrite Ev, H1, Hm.
Qed.

Lemma merkle_complete_witness :
  ∃ root u proof n, Trie_Hash toy_keccak one_trie = Ret (root, u) ∧ Prove toy_keccak None one_trie one_key 0 ∅ = Ret (None, proof) ∧
    VerifyProof 5 root one_key proof = Ret (one_value, None, n).
Proof.
  destruct (Trie_Hash toy_keccak one_trie) as [[root u]|] eqn:E; [|by vm_compute in E].
  destruct (merkle_complete toy_keccak any_key 32 one_full ∅ None one_trie u one_map root one_key one_key 5 (one_within None) E) as (proof & n & H1 & _ & H2);
    [by vm_compute|apply map_empty_subseteq|cbn; lia|cbn; lia|]. exists root, u, proof, n. split; [reflexivity|exact (conj H1 H2)].
Defined.

(** A node with an empty key is not an error but a panic: [compactToHex] reads the
    flag nibble of an empty string. *)
Lemma decode_empty_key_panics h gen : decodeNode h (byte_of <$> [0xC2; 0x80; 0x80]) gen = Panic "index out of range".
Proof. done. Qed.
