(* ===== verification/SecureTrie.v ===== *)
(** * The secure trie ([trie/secure_trie.go]) keeps the promise of [TrieLaws]

    The account state and the delegate state work on tries through [TrieOps] and
    rely on [TrieLaws].  Here are the operations of the trie they are given, which
    hashes its keys and remembers them, and the proof that it has these laws. *)

From S2P Require Import Prelude Interfaces StateTypes Hex VmData Rlp RlpLayout RlpStream.
From S2P Require Import RlpRead RlpRaw TrieCodec TrieNode TrieHash TrieTree TrieEnc.
From S2P Require Import TrieEdit TrieRep TrieUpdate TrieCommit TrieMap TrieClaims.

(** ** Definitions *)

(** [st_owned] tells whether [secKeyCacheOwner] is the trie itself; a copy is not the
    owner of the cache it starts with. *)
Record SecureTrie : Type := mkSecure { st_trie : Trie; st_secKeyCache : kvstore; st_owned : bool }.
#[export] Instance eta_SecureTrie : Eta SecureTrie := λ r, mkSecure (st_trie r) (st_secKeyCache r) (st_owned r).

Definition secureKeyPrefix : bytes := byte_of <$> [115; 101; 99; 117; 114; 101; 45; 107; 101; 121; 45].
Definition secKey (key : bytes) : bytes := secureKeyPrefix ++ key.

Definition getSecKeyCache (t : SecureTrie) : SecureTrie :=
  if st_owned t then t else (t <| st_owned := true |>) <| st_secKeyCache := ∅ |>.

Definition SecureTrie_Copy (t : SecureTrie) : SecureTrie := t <| st_owned := false |>.

Section Secure.
Variable keccak : bytes → hash.

Definition hashKey (key : bytes) : bytes := hash_bytes (keccak key).

Definition NewSecure (root : hash) (db : option kvstore) (cachelimit : Z) : outcome (SecureTrie + MissingNodeError) :=
  match db with
  | None => Panic "NewSecure called with nil database"
  | Some _ => let! trie := New root db in Ret (inl (mkSecure (SetCacheLimit cachelimit trie) ∅ false))
  end.

Definition Secure_TryGet (db : option kvstore) (t : SecureTrie) (key : bytes) : outcome (bytes * option MissingNodeError * SecureTrie) :=
  '(v, err, trie) ← Trie_TryGet db (st_trie t) (hashKey key);
  Ret (v, err, t <| st_trie := trie |>).

Definition Secure_TryUpdate (db : option kvstore) (t : SecureTrie) (key value : bytes) : outcome (option MissingNodeError * SecureTrie) :=
  let hk := hashKey key in
  '(err, trie) ← Trie_TryUpdate db (st_trie t) hk value;
  let t := t <| st_trie := trie |> in
  match err with
  | Some _ => Ret (err, t)
  | None => let t := getSecKeyCache t in Ret (None, t <| st_secKeyCache ::= λ c, <[hk := key]> c |>)
  end.

Definition Secure_TryDelete (db : option kvstore) (t : SecureTrie) (key : bytes) : outcome (option MissingNodeError * SecureTrie) :=
  let hk := hashKey key in
  let t := (getSecKeyCache t) <| st_secKeyCache ::= λ c, delete hk c |> in
  '(err, trie) ← Trie_TryDelete db (st_trie t) hk;
  Ret (err, t <| st_trie := trie |>).

(** [GetKey]: from the cache, else from the database. *)
Definition GetKey (db : kvstore) (t : SecureTrie) (shaKey : bytes) : bytes * SecureTrie :=
  let t := getSecKeyCache t in
  (match st_secKeyCache t !! shaKey with Some key => key | None => default [] (db !! secKey shaKey) end, t).

Definition Secure_Hash (t : SecureTrie) : outcome (hash * SecureTrie) :=
  '(h, trie) ← Trie_Hash keccak (st_trie t); Ret (h, t <| st_trie := trie |>).

(** The keys go to the writer first, in the order of the map. *)
Fixpoint put_keys {W} `{WriterOps W} (kvs : list (bytes * bytes)) (w : W) : option gerror * W :=
  match kvs with
  | [] => (None, w)
  | (hk, key) :: kvs =>
    let '(w, err) := Put (secKey hk) key w in
    match err with Some e => (Some e, w) | None => put_keys kvs w end
  end.

Definition Secure_CommitTo {W} `{WriterOps W} (t : SecureTrie) (w : W) : outcome ((hash * option gerror * SecureTrie) * W) :=
  let t := getSecKeyCache t in
  let '(err, w) := put_keys (map_to_list (st_secKeyCache t)) w in
  match err with
  | Some e => Ret ((hash0, Some e, t), w)
  | None =>
    let t := t <| st_secKeyCache := ∅ |> in
    '((h, err, trie), w) ← Trie_CommitTo keccak (st_trie t) w;
    Ret ((h, err, t <| st_trie := trie |>), w)
  end.
End Secure.

(** ** The interface

    Keys of type [A] with their bytes; a trie with its database. *)
Record opened : Type := mkOpened { op_trie : SecureTrie; op_db : kvstore }.

Definition missing_error (e : option MissingNodeError) : option gerror :=
  match e with Some _ => Some "missing trie node"%string | None => None end.

Section Interface.
Variable keccak : bytes → hash.
Context {A : Type} `{EqDecision A} (key_bytes : A → bytes).

Definition secure_ops : TrieOps A opened := {|
  TryGet o k :=
    match Secure_TryGet keccak (Some (op_db o)) (op_trie o) (key_bytes k) with
    | Ret (v, err, _) => (v, missing_error err)
    | Panic w => ([], Some w)
    end;
  TryUpdate o k v :=
    match Secure_TryUpdate keccak (Some (op_db o)) (op_trie o) (key_bytes k) v with
    | Ret (err, t) => (mkOpened t (op_db o), missing_error err)
    | Panic w => (o, Some w)
    end;
  TryDelete o k :=
    match Secure_TryDelete keccak (Some (op_db o)) (op_trie o) (key_bytes k) with
    | Ret (err, t) => (mkOpened t (op_db o), missing_error err)
    | Panic w => (o, Some w)
    end;
  trie_Hash o := match Secure_Hash keccak (op_trie o) with Ret (h, _) => h | Panic _ => hash0 end
|}.
#[local] Existing Instance secure_ops.

(** The keys of the trie are hashes of keys. *)
Definition hashed_key (k : bytes) : Prop := ∃ a, k = hashKey keccak (key_bytes a).
Definition opened_ok (o : opened) : Prop := ∃ tr, holds keccak hashed_key 32 (Some (op_db o)) (t_root (st_trie (op_trie o))) tr.

Hypothesis keys_differ : ∀ a b, keccak (key_bytes a) = keccak (key_bytes b) → a = b.

Lemma length_hashKey k : (length (hashKey keccak k) ≤ 32)%nat.
Proof. unfold hashKey. by rewrite length_hash_bytes. Qed.

Lemma getSecKeyCache_trie t : st_trie (getSecKeyCache t) = st_trie t.
Proof. unfold getSecKeyCache. by destruct (st_owned t). Qed.

Lemma hashKey_same a b : hashKey keccak (key_bytes a) = hashKey keccak (key_bytes b) → a = b.
Proof. intros E. by apply keys_differ, (inj hash_bytes). Qed.

Lemma secure_get o tr k : holds keccak hashed_key 32 (Some (op_db o)) (t_root (st_trie (op_trie o))) tr →
  TryGet o k = (values tr (hashKey keccak (key_bytes k)), None).
Proof.
  intros Hh. destruct (TryGet_holds _ _ _ _ _ _ _ Hh (length_hashKey (key_bytes k))) as (t' & E & _).
  cbn [TryGet secure_ops]. unfold Secure_TryGet. by rewrite E.
Qed.

Lemma secure_update o tr k v : holds keccak hashed_key 32 (Some (op_db o)) (t_root (st_trie (op_trie o))) tr → storable_value v →
  ∃ tr', holds keccak hashed_key 32 (Some (op_db (TryUpdate o k v).1)) (t_root (st_trie (op_trie (TryUpdate o k v).1))) tr' ∧ (TryUpdate o k v).2 = None ∧
    ∀ q, values tr' q = if decide (q = hashKey keccak (key_bytes k)) then v else values tr q.
Proof.
  intros Hh [_ Hv]. destruct (update_holds _ _ _ _ _ _ _ v Hh (length_hashKey (key_bytes k))) as (t' & tr' & E & Hh' & Hg); [by exists k|done|].
  exists tr'. cbn [TryUpdate secure_ops]. unfold Secure_TryUpdate. rewrite E. cbn. by rewrite getSecKeyCache_trie.
Qed.

Lemma secure_delete o tr k : holds keccak hashed_key 32 (Some (op_db o)) (t_root (st_trie (op_trie o))) tr →
  ∃ tr', holds keccak hashed_key 32 (Some (op_db (TryDelete o k).1)) (t_root (st_trie (op_trie (TryDelete o k).1))) tr' ∧ (TryDelete o k).2 = None ∧
    ∀ q, values tr' q = if decide (q = hashKey keccak (key_bytes k)) then [] else values tr q.
Proof.
  intros Hh. rewrite <- getSecKeyCache_trie in Hh.
  destruct (delete_holds _ _ _ _ _ _ _ Hh (length_hashKey (key_bytes k))) as (t' & tr' & E & Hh' & Hg).
  exists tr'. cbn [TryDelete secure_ops]. unfold Secure_TryDelete. cbn. rewrite E. by cbn.
Qed.

Lemma secure_values o tr k tr' v k' :
  holds keccak hashed_key 32 (Some (op_db o)) (t_root (st_trie (op_trie o))) tr →
  (∀ q, values tr' q = if decide (q = hashKey keccak (key_bytes k)) then v else values tr q) →
  values tr' (hashKey keccak (key_bytes k')) = if decide (k' = k) then v else (TryGet o k').1.
Proof.
  intros Hh Hg. rewrite (secure_get _ _ _ Hh), Hg. cbn [fst]. destruct (decide (k' = k)) as [->|Hne]; [by rewrite decide_True by done|].
  rewrite decide_False; [done|]. by intros ?%hashKey_same.
Qed.

(** What the state packages rely on. *)
Definition secure_laws : TrieLaws A opened.
Proof.
  refine {| trie_ok := opened_ok |}.
  - intros o k [tr Hh]. by rewrite (secure_get _ _ _ Hh).
  - intros o k v [tr Hh] Hv. destruct (secure_update o tr k v Hh Hv) as (tr' & Hh' & E & _). split; [by exists tr'|done].
  - intros o k v k' [tr Hh] Hv. destruct (secure_update o tr k v Hh Hv) as (tr' & Hh' & E & Hg).
    rewrite (secure_get _ _ _ Hh'). by eapply secure_values.
  - intros o k [tr Hh]. destruct (secure_delete o tr k Hh) as (tr' & Hh' & E & _). split; [by exists tr'|done].
  - intros o k k' [tr Hh]. destruct (secure_delete o tr k Hh) as (tr' & Hh' & E & Hg).
    rewrite (secure_get _ _ _ Hh'). by eapply secure_values.
  - intros o o' [tr Hh] [tr' Hh'] Hg.
    assert (tr = tr') as <-.
    { pose proof Hh as [_ Hw Hk _]. pose proof Hh' as [_ Hw' Hk' _]. eapply values_unique; [done..|]. intros q.
      destruct (decide (values tr q = [])) as [E1|E1], (decide (values tr' q = [])) as [E2|E2]; [congruence|..].
      - destruct (Hk' _ (keybytesToHex_hexkey q) E2) as (? & [a ->] & Eq%(inj keybytesToHex)). subst q.
        specialize (Hg a). by rewrite (secure_get _ _ _ Hh), (secure_get _ _ _ Hh') in Hg.
      - destruct (Hk _ (keybytesToHex_hexkey q) E1) as (? & [a ->] & Eq%(inj keybytesToHex)). subst q.
        specialize (Hg a). by rewrite (secure_get _ _ _ Hh), (secure_get _ _ _ Hh') in Hg.
      - destruct (Hk _ (keybytesToHex_hexkey q) E1) as (? & [a ->] & Eq%(inj keybytesToHex)). subst q.
        specialize (Hg a). by rewrite (secure_get _ _ _ Hh), (secure_get _ _ _ Hh') in Hg. }
    destruct (Hash_holds _ _ _ _ _ _ Hh) as (t & E & _), (Hash_holds _ _ _ _ _ _ Hh') as (t' & E' & _).
    cbn [trie_Hash secure_ops]. unfold Secure_Hash. by rewrite E, E'.
Defined.

(** ** Committing *)

(** The cache has keys under their hashes. *)
Definition cache_ok (t : SecureTrie) : Prop := ∀ hk key, st_secKeyCache t !! hk = Some key → hk = hashKey keccak key.

Lemma put_keys_kv (kvs : list (bytes * bytes)) (w : kvstore) :
  Forall (λ kv, length kv.1 = 32%nat) kvs → NoDup kvs.*1 →
  ∃ w', put_keys kvs w = (None, w') ∧ (∀ k : bytes, length k = 32%nat → w' !! k = w !! k) ∧
    (∀ hk key, (hk, key) ∈ kvs → w' !! secKey hk = Some key) ∧ (∀ hk, hk ∉ kvs.*1 → w' !! secKey hk = w !! secKey hk).
Proof.
  intros Hl Hnd. revert w. induction kvs as [|[hk key] kvs IH]; intros w.
  { exists w. split_and!; try done. intros hk key H. by apply elem_of_nil in H. }
  inversion Hl as [|? ? Hk Hl']; subst. inversion Hnd as [|? ? Hn Hnd']; subst. cbn [fst] in *.
  destruct (IH Hl' Hnd' (<[secKey hk := key]> w)) as (w' & E & H1 & H2 & H3). exists w'. split_and!; [exact E|..].
  - intros k Hlk. rewrite H1 by done. apply lookup_insert_ne. intros <-. unfold secKey in Hlk. rewrite length_app, Hk in Hlk. cbn in Hlk. lia.
  - intros hk' key' [[= -> ->]|Hin]%elem_of_cons; [|by apply H2]. rewrite H3 by done. by rewrite lookup_insert_eq.
  - intros hk' Hn'. cbn [fmap list_fmap fst] in Hn'. apply not_elem_of_cons in Hn' as [Hne Hn']. rewrite H3 by done.
    apply lookup_insert_ne. unfold secKey. intros E'. by apply app_inv_head in E'.
Qed.

(** [CommitTo] writes the keys and the trie; opening the root gives the same
    entries. *)
Lemma Secure_CommitTo_ok full db t tr :
  holds keccak hashed_key 32 (Some db) (t_root (st_trie t)) tr → cache_ok t → clash_free keccak full tr → sub_nodes db full →
  ∃ t' db', Secure_CommitTo keccak t db = Ret ((root_hash keccak tr, None, t'), db') ∧
    holds keccak hashed_key 32 (Some db') (t_root (st_trie t')) tr ∧
    (∀ hk key, st_owned t = true → st_secKeyCache t !! hk = Some key → (GetKey db' t' hk).1 = key) ∧
    ∀ limit, ∃ t2, NewSecure (root_hash keccak tr) (Some db') limit = Ret (inl t2) ∧ holds keccak hashed_key 32 (Some db') (t_root (st_trie t2)) tr.
Proof.
  intros Hh Hca Hc Hsub. unfold Secure_CommitTo. set (u := getSecKeyCache t).
  assert (Hcu : cache_ok u) by (unfold u, getSecKeyCache; destruct (st_owned t); [done|]; intros hk key Hx; cbn in Hx; by apply lookup_empty_Some in Hx).
  destruct (put_keys_kv (map_to_list (st_secKeyCache u)) db) as (w & E & H1 & H2 & H3).
  { apply Forall_forall. intros [hk key] Hin%elem_of_map_to_list. cbn [fst]. rewrite (Hcu _ _ Hin). apply length_hash_bytes. }
  { apply NoDup_fst_map_to_list. }
  rewrite E. cbn [fst snd]. set (full' := w ∪ full).
  assert (Hw : ∀ (k v : bytes), length k = 32%nat → full !! k = Some v → full' !! k = Some v).
  { intros k v Hk Hf. unfold full'. apply lookup_union_Some_raw. destruct (w !! k) as [v'|] eqn:Ew; [left|by right].
    rewrite H1 in Ew by done. specialize (Hsub _ _ Hk Ew). congruence. }
  assert (Hc' : clash_free keccak full' tr).
  { destruct Hc as [C1 C2 C3]. split; [by eapply stored_sub| |apply Hw; [apply length_hash_bytes|done]].
    apply lookup_union_None. split; [|done]. rewrite H1 by apply length_hash_bytes. destruct (db !! hash_bytes hash0) as [v|] eqn:Ed; [|done].
    pose proof (Hsub _ _ (length_hash_bytes _) Ed). congruence. }
  assert (Hh' : holds keccak hashed_key 32 (Some (w ∪ ∅)) (t_root (st_trie (u <| st_secKeyCache := ∅ |>))) tr).
  { destruct Hh as [R1 R2 R3 R4]. split; try done. rewrite (right_id_L ∅ (∪)). cbn. unfold u. rewrite getSecKeyCache_trie. eapply rep_sub; [|exact R1].
    intros k v Hk Hv. by rewrite H1. }
  destruct (CommitTo_holds _ _ _ ∅ w full' _ _ Hh' Hc') as (t' & w' & Ec & S1 & S2 & S3 & S4); [rewrite (right_id_L ∅ (∪)); apply map_union_subseteq_l|].
  rewrite Ec. cbn. rewrite !(right_id_L ∅ (∪)) in *. eexists _, w'. split; [done|]. split_and!; [done|..].
  - intros hk key Ho Hk. assert (u = t) as Eu by (unfold u, getSecKeyCache; by rewrite Ho). rewrite Eu in *.
    unfold GetKey, getSecKeyCache. cbn. rewrite Ho. cbn. rewrite lookup_empty.
    erewrite lookup_weaken; [|apply H2, elem_of_map_to_list, Hk|done]. done.
  - intros limit. pose proof Hh as [_ R2 R3 R4]. destruct (New_holds _ _ _ _ _ _ S2 Hc' R2 R3 R4 S3) as (t2 & E2 & Hh2).
    unfold NewSecure. rewrite E2. cbn. eexists. split; [done|]. done.
Qed.
End Interface.

(** C13: the trie the state packages are given keeps the promise they rely on.  If
    different keys have different hashes, the operations of the secure trie have the
    laws [TrieLaws]: entries behave as a map, no operation fails, and the root hash
    depends on the entries only.  A new trie satisfies them; and after [CommitTo] the
    same entries are found when the root is opened again, and [GetKey] finds the keys
    that were written. *)
Theorem secure_trie_lawful {A : Type} `{EqDecision A} (keccak : bytes → hash) (key_bytes : A → bytes) :
  (∀ a b, keccak (key_bytes a) = keccak (key_bytes b) → a = b) →
  ∃ laws : @TrieLaws A opened _ (secure_ops keccak key_bytes),
    (∀ db limit, ∃ t, NewSecure hash0 (Some db) limit = Ret (inl t) ∧ @trie_ok A opened _ (secure_ops keccak key_bytes) laws (mkOpened t db)) ∧
    (∀ full db t tr, holds keccak (hashed_key keccak key_bytes) 32 (Some db) (t_root (st_trie t)) tr → cache_ok keccak t →
       clash_free keccak full tr → sub_nodes db full →
       ∃ root t' db', Secure_CommitTo keccak t db = Ret ((root, None, t'), db') ∧ trie_ok (TrieLaws := laws) (mkOpened t' db') ∧
         (∀ hk key, st_owned t = true → st_secKeyCache t !! hk = Some key → (GetKey db' t' hk).1 = key) ∧
         ∀ limit, ∃ t2, NewSecure root (Some db') limit = Ret (inl t2) ∧ trie_ok (TrieLaws := laws) (mkOpened t2 db') ∧
           ∀ k, TryGet (TrieOps := secure_ops keccak key_bytes) (mkOpened t2 db') k = TryGet (TrieOps := secure_ops keccak key_bytes) (mkOpened t db) k).
Proof.
  intros Hd. exists (secure_laws keccak key_bytes Hd). split.
  - intros db limit. eexists. split; [done|]. exists TNil. split; [constructor|by left|by intros key _|done].
  - intros full db t tr Hh Hca Hc Hs. destruct (Secure_CommitTo_ok keccak key_bytes full db t tr Hh Hca Hc Hs) as (t' & db' & E & Hh' & Hg & Hn).
    exists (root_hash keccak tr), t', db'. split_and!; [done|by exists tr|done|]. intros limit. destruct (Hn limit) as (t2 & E2 & Hh2).
    exists t2. split_and!; [done|by exists tr|]. intros k. by rewrite (secure_get keccak key_bytes (mkOpened t2 db') tr k Hh2), (secure_get keccak key_bytes (mkOpened t db) tr k Hh).
Qed.

Lemma secure_trie_lawful_witness :
  ∃ laws : @TrieLaws address opened _ (secure_ops toy_keccak address_bytes),
    ∀ db limit, ∃ t, NewSecure hash0 (Some db) limit = Ret (inl t) ∧ @trie_ok address opened _ (secure_ops toy_keccak address_bytes) laws (mkOpened t db).
Proof.
  destruct (secure_trie_lawful toy_keccak address_bytes) as (laws & H & _).
  - intros a b E. apply (f_equal word_val) in E. unfold toy_keccak, address_bytes in E. rewrite !to_word_val, !be_val_be_bytes in E.
    pose proof (word_bounds a) as Ha. pose proof (word_bounds b) as Hb. apply word_eq.
    change (256 ^ Z.of_nat 20) with (2 ^ Z.of_N 160) in E. rewrite !(Z.mod_small _ (2 ^ Z.of_N 160)) in E by done.
    assert (2 ^ Z.of_N 160 < 2 ^ Z.of_N 256) by done. rewrite !Z.mod_small in E by lia. exact E.
  - exists laws. exact H.
Defined.
