(* ===== verification/DeriveSha.v ===== *)
(** * Root hashes of lists ([core/types/derive_sha.go])

    The transactions and the receipts of a block are entered into a trie under their
    encoded positions; its root stands for the list in the header. *)

From S2P Require Import Prelude Interfaces StateTypes Hex VmData Rlp RlpLayout RlpStream.
From S2P Require Import RlpRead RlpRoundtrip RlpRaw TrieCodec TrieNode TrieHash TrieTree.
From S2P Require Import TrieEnc TrieEdit TrieRep TrieUpdate TrieCommit TrieMap TrieClaims.

Section Derive.
Variable keccak : bytes → hash.

(** [Update] only logs an error; the key buffer is reset before each key. *)
Definition Trie_Update (t : Trie) (key value : bytes) : outcome Trie :=
  '(_, t) ← Trie_TryUpdate None t key value; Ret t.

Fixpoint DeriveTrie_loop (list : list bytes) (i : Z) (t : Trie) : outcome Trie :=
  match list with
  | [] => Ret t
  | item :: list =>
    match Encode (TUint 64) (VUint i) with
    | Panic w => Panic w
    | Ret key => t ← Trie_Update t (match key with inl k => k | inr _ => [] end) item; DeriveTrie_loop list (i + 1) t
    end
  end.
Definition DeriveTrie (list : list bytes) : outcome Trie := DeriveTrie_loop list 0 empty_trie.
Definition DeriveSha (list : list bytes) : outcome hash :=
  t ← DeriveTrie list; '(h, _) ← Trie_Hash keccak t; Ret h.

(** ** Proofs *)

Definition index_key (i : Z) : bytes := rlp_string (big_Bytes i).

Lemma index_key_encode i : is_u64 i → Encode (TUint 64) (VUint i) = Ret (inl (index_key i)) ∧ (length (index_key i) ≤ 17)%nat.
Proof.
  intros Hi. assert (Hb : blen (big_Bytes i) ≤ 8).
  { destruct (decide (i = 0)) as [->|Hne]; [rewrite big_Bytes_0; done|]. unfold is_u64 in Hi.
    destruct (has_bytes_ex i) as (k & Hk & Hh); [lia|]. rewrite (big_Bytes_bytes k) by (done || lia). rewrite blen_be_bytes. lia. }
  pose proof (blen_rlp_string_le (big_Bytes i)). unfold index_key. split; [|unfold blen in *; lia].
  apply Encode_ref; [constructor; [do 3 right; by left|done]|done|lia].
Qed.

Lemma index_key_inj i j : is_u64 i → is_u64 j → index_key i = index_key j → i = j.
Proof.
  intros Hi Hj E. assert (Hl : ∀ x, is_u64 x → blen (index_key x ++ []) < 2 ^ 63).
  { intros x Hx. destruct (index_key_encode x Hx) as [_ Hl]. rewrite app_nil_r. unfold blen. lia. }
  pose proof (SplitString_reads (big_Bytes i) [] (Hl i Hi)) as H1. pose proof (SplitString_reads (big_Bytes j) [] (Hl j Hj)) as H2.
  unfold index_key in E. rewrite E, H2 in H1. injection H1 as H1. rewrite <- (be_val_big_Bytes i), <- (be_val_big_Bytes j) by (unfold is_u64 in *; lia). by rewrite H1.
Qed.

(** The entries after the items [list], from position [i] on, are entered into [m]. *)
Fixpoint entries (list : list bytes) (i : Z) (m : bytes → bytes) : bytes → bytes :=
  match list with
  | [] => m
  | item :: list => entries list (i + 1) (λ k, if decide (k = index_key i) then item else m k)
  end.

Lemma DeriveTrie_loop_ok list : ∀ i t m,
  stands_for keccak any_key 17 None t m → 0 ≤ i → i + Z.of_nat (length list) ≤ 2 ^ 64 → Forall (λ v, blen v < 2 ^ 32) list →
  ∃ t', DeriveTrie_loop list i t = Ret t' ∧ stands_for keccak any_key 17 None t' (entries list i m).
Proof.
  induction list as [|item list IH]; intros i t m Hs Hi Hl Hv; [by exists t|]. inversion Hv; subst. cbn [length] in Hl.
  destruct (index_key_encode i) as [E Hk]; [unfold is_u64; lia|]. destruct Hs as (tr & Hh & Hm).
  destruct (update_holds _ _ _ _ _ _ (index_key i) item Hh Hk I) as (t' & tr' & E' & Hh' & Hm'); [done|].
  cbn [DeriveTrie_loop entries]. rewrite E. unfold Trie_Update. rewrite E'. cbn [mbind outcome_bind].
  apply IH; [|lia|lia|done]. exists tr'. split; [done|]. intros k. by rewrite Hm', Hm.
Qed.

Lemma entries_other list : ∀ i m j, 0 ≤ i → i + Z.of_nat (length list) ≤ 2 ^ 64 → 0 ≤ j < i → entries list i m (index_key j) = m (index_key j).
Proof.
  induction list as [|item list IH]; intros i m j Hi Hl Hj; [done|]. cbn [length entries] in *. rewrite IH by lia.
  rewrite decide_False; [done|]. intros E. apply index_key_inj in E; unfold is_u64; lia.
Qed.

Lemma entries_at list : ∀ i m n, 0 ≤ i → i + Z.of_nat (length list) ≤ 2 ^ 64 → (∀ j, i ≤ j → is_u64 j → m (index_key j) = []) → is_u64 (i + Z.of_nat n) →
  entries list i m (index_key (i + Z.of_nat n)) = default [] (list !! n).
Proof.
  induction list as [|item list IH]; intros i m n Hi Hl Hm Hn; [apply Hm; [lia|done]|]. cbn [length entries] in *. destruct n as [|n].
  - rewrite Z.add_0_r in *. rewrite entries_other by lia. by rewrite decide_True by done.
  - replace (i + Z.of_nat (S n)) with (i + 1 + Z.of_nat n) in * by lia. rewrite IH; [done|lia|lia| |done].
    intros j Hj Hj'. rewrite decide_False; [apply Hm; [lia|done]|]. intros E. apply index_key_inj in E; unfold is_u64 in *; lia.
Qed.

Definition items_ok (list : list bytes) : Prop := Forall storable_value list ∧ Z.of_nat (length list) < 2 ^ 63.

Lemma DeriveTrie_ok list : items_ok list → ∃ t, DeriveTrie list = Ret t ∧ stands_for keccak any_key 17 None t (entries list 0 (λ _, [])).
Proof.
  intros [Hv Hl]. apply DeriveTrie_loop_ok; [|lia|lia|].
  - exists TNil. split; [|done]. split; [constructor|by left|by intros key _|done].
  - eapply Forall_impl; [exact Hv|]. by intros v [_ ?].
Qed.

(** The entries determine the list. *)
Lemma entries_inj l l' : items_ok l → items_ok l' → (∀ k, entries l 0 (λ _, []) k = entries l' 0 (λ _, []) k) → l = l'.
Proof.
  intros [Hv Hl] [Hv' Hl'] He. apply list_eq. intros n.
  destruct (decide (Z.of_nat n < 2 ^ 63)) as [Hn|Hn].
  - specialize (He (index_key (0 + Z.of_nat n))). rewrite !entries_at in He by (done || unfold is_u64; lia). rewrite Forall_lookup in Hv, Hv'.
    destruct (l !! n) as [x|] eqn:E, (l' !! n) as [y|] eqn:E'; cbn in He; [congruence|..|done].
    + destruct (Hv n x E) as [Hx _]. congruence.
    + destruct (Hv' n y E') as [Hy _]. congruence.
  - rewrite !lookup_ge_None_2 by lia. done.
Qed.
End Derive.

(** The nodes of the trie of a list are among those of [full]. *)
Definition list_within (keccak : bytes → hash) (full : kvstore) (l : list bytes) : Prop :=
  ∀ t, DeriveTrie l = Ret t → ∃ m, stands_within keccak any_key 17 full None t m.

Lemma DeriveSha_ok keccak l : items_ok l → ∃ h, DeriveSha keccak l = Ret h.
Proof.
  intros Hi. destruct (DeriveTrie_ok keccak l Hi) as (t & E & tr & Hh & _), (Hash_holds _ _ _ _ _ _ Hh) as (u & H1 & _).
  eexists. unfold DeriveSha. rewrite E. cbn. by rewrite H1.
Qed.

Lemma DeriveSha_inj keccak full l l' root : items_ok l → items_ok l' → list_within keccak full l → list_within keccak full l' →
  DeriveSha keccak l = Ret root → DeriveSha keccak l' = Ret root → l = l'.
Proof.
  intros Hi Hi' Hc Hc'. destruct (DeriveTrie_ok keccak l Hi) as (t & E & tr & Hh & Hm), (DeriveTrie_ok keccak l' Hi') as (t' & E' & tr' & Hh' & Hm').
  destruct (Hc t E) as (m & tr0 & Hh0 & _ & Hcf), (Hc' t' E') as (m' & tr0' & Hh0' & _ & Hcf').
  pose proof Hh as [R W _ B]. pose proof Hh' as [R' W' _ _]. pose proof Hh0 as [R0 W0 _ _]. pose proof Hh0' as [R0' W0' _ _].
  assert (tr0 = tr) as -> by (eapply rep_unique; [exact R0|exact R|exact W0|exact W|exact B|exact B]).
  assert (tr0' = tr') as -> by (eapply rep_unique; [exact R0'|exact R'|exact W0'|exact W'|exact B|exact B]).
  destruct (Hash_holds _ _ _ _ _ _ Hh) as (u & H1 & _), (Hash_holds _ _ _ _ _ _ Hh') as (u' & H2 & _).
  unfold DeriveSha. rewrite E, E'. cbn [mbind outcome_bind]. rewrite H1, H2. intros [= Er] [= Er'].
  assert (tr = tr') as <- by (eapply root_hash_inj; [exact Hcf|exact Hcf'|exact W|exact W'|exact B|exact B|congruence]).
  apply (entries_inj l l' Hi Hi'). intros k. by rewrite <- Hm, <- Hm'.
Qed.

(** The root hash of a list stands for the list.  [DeriveSha] succeeds on every
    list of encoded items; and if no two nodes of the two tries clash, two lists with
    the same root are the same: no item can be left out, added, changed or moved. *)
Theorem derive_sha_commits (keccak : bytes → hash) (full : kvstore) (l l' : list bytes) (root : hash) :
  items_ok l → items_ok l' → list_within keccak full l → list_within keccak full l' →
  (∃ h, DeriveSha keccak l = Ret h) ∧ (DeriveSha keccak l = Ret root → DeriveSha keccak l' = Ret root → l = l').
Proof. intros Hi Hi' Hc Hc'. split; [by apply DeriveSha_ok|by apply (DeriveSha_inj keccak full)]. Qed.

(** Two lists of one item each: the trie has the item under the encoding of 0. *)
Definition item_seven : list bytes := [[byte_of 7]].
Definition item_eight : list bytes := [[byte_of 8]].
Definition items_full : kvstore := two_leaves [byte_of 0x80] [byte_of 7] [byte_of 8].

Lemma derive_sha_commits_witness : ∃ h h', DeriveSha toy_keccak item_seven = Ret h ∧ DeriveSha toy_keccak item_eight = Ret h' ∧ h ≠ h'.
Proof.
  assert (H7 : list_within toy_keccak items_full item_seven).
  { intros t E. assert (t = leaf_trie [byte_of 0x80] [byte_of 7]) as -> by (vm_compute in E; by injection E as <-).
    eexists. apply leaf_within; [cbn; lia|cbn; lia|by split|by vm_compute..]. }
  assert (H8 : list_within toy_keccak items_full item_eight).
  { intros t E. assert (t = leaf_trie [byte_of 0x80] [byte_of 8]) as -> by (vm_compute in E; by injection E as <-).
    eexists. apply leaf_within; [cbn; lia|cbn; lia|by split|by vm_compute..]. }
  assert (I7 : items_ok item_seven) by (split; [by repeat constructor|done]).
  assert (I8 : items_ok item_eight) by (split; [by repeat constructor|done]).
  destruct (derive_sha_commits toy_keccak items_full item_seven item_eight hash0 I7 I8 H7 H8) as [[h E] _].
  destruct (derive_sha_commits toy_keccak items_full item_eight item_seven hash0 I8 I7 H8 H7) as [[h' E'] _].
  exists h, h'. split_and!; [done..|]. intros <-.
  by pose proof (proj2 (derive_sha_commits toy_keccak items_full item_seven item_eight h I7 I8 H7 H8) E E').
Defined.
