(* ===== verification/Secp.v ===== *)
(** * Keys and signatures ([crypto/crypto.go], [crypto/signature_cgo.go],
    [crypto/secp256k1/secp256.go], [util/crypto_signature.go])

    Signing, recovering the public key, and the addresses of keys.  The elliptic
    curve itself is libsecp256k1: its four functions that the Go code calls are the
    class [Secp256k1], and what its documentation says of them is [SecpLaws]. *)

From S2P Require Import Prelude Interfaces StateTypes Hex VmData Evm RlpLayout RlpRead.
From S2P Require Import RlpRoundtrip.

(** ** The curve ([crypto/secp256k1/curve.go]) *)

Definition curve_P : Z := 0xFFFFFFFFFFFFFFFFFFFFFFFFFFFFFFFFFFFFFFFFFFFFFFFFFFFFFFFEFFFFFC2F.
Definition curve_B : Z := 7.
Definition curve_Gx : Z := 0x79BE667EF9DCBBAC55A06295CE870B07029BFCDB2DCE28D959F2815B16F81798.
Definition curve_Gy : Z := 0x483ADA7726A3C4655DA4FBFC0E1108A8FD17B448A68554199C47D08FFB10D4B8.

Definition IsOnCurve (x y : Z) : bool := (x * x * x + curve_B) mod curve_P =? (y * y) mod curve_P.

(** ** libsecp256k1

    [ec_seckey_verify]: is this a secret key; [ecdsa_sign_recoverable]: the 64 bytes
    of a signature and its recovery id; [ext_ecdsa_recover]: the uncompressed public
    key of a signature with its recovery id at the end; [ScalarBaseMult]: the point of
    a secret key. *)
Class Secp256k1 : Type := {
  ec_seckey_verify : bytes → bool;
  ecdsa_sign_recoverable : bytes → bytes → option (bytes * Z);
  ext_ecdsa_recover : bytes → bytes → option bytes;
  ScalarBaseMult : bytes → option (Z * Z)
}.

Inductive secperr : Type :=
| ErrInvalidMsgLen
| ErrInvalidSignatureLen
| ErrInvalidRecoveryID
| ErrInvalidKey
| ErrSignFailed
| ErrRecoverFailed
| errHashLen (n : Z)
| errKeyBits
| errKeyRange
| errKeyPoint.

(** ** Public keys ([elliptic.Marshal] and [elliptic.Unmarshal])

    A key whose coordinates are nil is [None]. *)
Definition PublicKey : Type := option (Z * Z).

(** [ret[1+byteLen-len(xBytes):]] is out of range for a number of more than 32
    bytes. *)
Definition Marshal (x y : Z) : outcome bytes :=
  let xBytes := big_Bytes x in
  let yBytes := big_Bytes y in
  if (33 <? length xBytes)%nat || (65 <? length yBytes)%nat then Panic "slice bounds out of range"
  else
    let ret := byte_of 4 :: replicate 64 (byte_of 0) in
    let ret := take (33 - length xBytes) ret ++ xBytes ++ drop 33 ret in
    Ret (take (65 - length yBytes) ret ++ yBytes).

Definition Unmarshal (data : bytes) : PublicKey :=
  if negb (length data =? 65)%nat then None
  else if negb (byte_val (nth 0 data (byte_of 0)) =? 4) then None
  else
    let x := be_val (take 32 (drop 1 data)) in
    let y := be_val (drop 33 data) in
    if (x >=? curve_P) || (y >=? curve_P) then None
    else if negb (IsOnCurve x y) then None
    else Some (x, y).

(** [ToECDSAPub] of no bytes is a nil pointer: [None]. *)
Definition ToECDSAPub (pub : bytes) : option PublicKey :=
  if (length pub =? 0)%nat then None else Some (Unmarshal pub).
Definition FromECDSAPub (pub : PublicKey) : outcome bytes :=
  match pub with None => Ret [] | Some (x, y) => Marshal x y end.

(** [*p] of a pointer that may be nil. *)
Definition deref {A} (p : option A) : outcome A :=
  match p with Some a => Ret a | None => Panic "nil pointer dereference" end.

Section Crypto.
Context (keccak : bytes → hash) `{SECP : Secp256k1}.

(** [Keccak256(b)[12:]] as an address. *)
Definition pub_address (b : bytes) : address := BytesToAddress (drop 12 (hash_bytes (keccak b))).

Definition PubkeyToAddress (p : PublicKey) : outcome address :=
  pubBytes ← FromECDSAPub p;
  rest ← slice_bytes pubBytes 1 (blen pubBytes);
  Ret (pub_address rest).

(** ** Private keys *)

Record PrivateKey : Type := mkPrivateKey { prv_D : Z; prv_PublicKey : PublicKey }.

Definition toECDSA (d : bytes) (strict : bool) : outcome (PrivateKey + secperr) :=
  if strict && negb (8 * blen d =? 256) then Ret (inr errKeyBits)
  else
    let D := be_val d in
    if D >=? secp256k1_N then Ret (inr errKeyRange)
    else if D <=? 0 then Ret (inr errKeyRange)
    else if (32 <? length d)%nat then Panic "can't handle scalars > 256 bits"
    else match ScalarBaseMult (LeftPadBytes d 32) with
         | None => Ret (inr errKeyPoint)
         | Some xy => Ret (inl (mkPrivateKey D (Some xy)))
         end.
Definition ToECDSA (d : bytes) : outcome (PrivateKey + secperr) := toECDSA d true.
Definition FromECDSA (priv : PrivateKey) : bytes := PaddedBigBytes (prv_D priv) 32.

(** ** Signing and recovering *)

Definition secp_Sign (msg seckey : bytes) : bytes + secperr :=
  if negb (length msg =? 32)%nat then inr ErrInvalidMsgLen
  else if negb (length seckey =? 32)%nat then inr ErrInvalidKey
  else if negb (ec_seckey_verify seckey) then inr ErrInvalidKey
  else match ecdsa_sign_recoverable msg seckey with
       | None => inr ErrSignFailed
       | Some (sig, recid) => inl (take 64 sig ++ [byte_of recid])
       end.

Definition checkSignature (sig : bytes) : option secperr :=
  if negb (length sig =? 65)%nat then Some ErrInvalidSignatureLen
  else if byte_val (nth 64 sig (byte_of 0)) >=? 4 then Some ErrInvalidRecoveryID
  else None.

(** On an error the key is nil, the empty slice. *)
Definition RecoverPubkey (msg sig : bytes) : bytes * option secperr :=
  if negb (length msg =? 32)%nat then ([], Some ErrInvalidMsgLen)
  else match checkSignature sig with
       | Some err => ([], Some err)
       | None => match ext_ecdsa_recover sig msg with
                 | None => ([], Some ErrRecoverFailed)
                 | Some pubkey => (pubkey, None)
                 end
       end.
Definition secp_Ecrecover (hash sig : bytes) : bytes * option secperr := RecoverPubkey hash sig.

Definition Sign (hash : bytes) (prv : PrivateKey) : bytes + secperr :=
  if negb (length hash =? 32)%nat then inr (errHashLen (blen hash))
  else secp_Sign hash (PaddedBigBytes (prv_D prv) 32).

(** The address a recovered key stands for, as the consensus code computes it:
    [PubkeyToAddress] of what [ToECDSAPub(pubkey)] points to. *)
Definition signer_address (pubkey : bytes) : outcome address :=
  p ← deref (ToECDSAPub pubkey); PubkeyToAddress p.

(** ** What libsecp256k1 promises

    A secret key is a number between 1 and the order of the curve, its point is on
    the curve; signing with one succeeds and gives a signature in the lower half, with
    a recovery id of 0 or 1, from which the uncompressed public key is recovered;
    recovering gives a key of 65 bytes that starts with 4 and is on the curve. *)
Definition uncompressed (x y : Z) : bytes := byte_of 4 :: be_bytes 32 x ++ be_bytes 32 y.
Definition point_ok (x y : Z) : Prop := 0 ≤ x < curve_P ∧ 0 ≤ y < curve_P ∧ IsOnCurve x y = true.

Class SecpLaws : Prop := {
  secp_seckey sk : length sk = 32%nat → 0 < be_val sk < secp256k1_N →
    ec_seckey_verify sk = true ∧ ∃ x y, ScalarBaseMult sk = Some (x, y) ∧ point_ok x y;
  secp_sign msg sk : length msg = 32%nat → length sk = 32%nat → ec_seckey_verify sk = true →
    ∃ sig recid x y, ecdsa_sign_recoverable msg sk = Some (sig, recid) ∧ length sig = 64%nat ∧ 0 ≤ recid ≤ 1 ∧
      1 ≤ be_val (take 32 sig) < secp256k1_N ∧ 1 ≤ be_val (drop 32 sig) ≤ secp256k1_halfN ∧
      ScalarBaseMult sk = Some (x, y) ∧ ext_ecdsa_recover (sig ++ [byte_of recid]) msg = Some (uncompressed x y);
  secp_recover sig msg pub : ext_ecdsa_recover sig msg = Some pub → ∃ x y, pub = uncompressed x y ∧ point_ok x y
}.
End Crypto.

(** ** Padding *)

Lemma be_val_zeros n : be_val (replicate n (byte_of 0)) = 0.
Proof. induction n as [|n IH]; [done|]. rewrite replicate_S_end, be_val_snoc, IH. done. Qed.

Lemma be_bytes_pad n b : (length b ≤ n)%nat → replicate (n - length b) (byte_of 0) ++ b = be_bytes n (be_val b).
Proof.
  intros Hb. set (l := replicate (n - length b) (byte_of 0) ++ b).
  assert (length l = n) as Hl by (unfold l; rewrite length_app, length_replicate; lia).
  rewrite <- (be_bytes_be_val l), Hl. unfold l. by rewrite be_val_app, be_val_zeros.
Qed.

Lemma big_pad n x : 0 ≤ x < 256 ^ Z.of_nat n → replicate (n - length (big_Bytes x)) (byte_of 0) ++ big_Bytes x = be_bytes n x.
Proof. intros Hx. rewrite be_bytes_pad by by apply length_big_Bytes. by rewrite be_val_big_Bytes by lia. Qed.

Lemma be_val_be_bytes_id n x : 0 ≤ x < 256 ^ Z.of_nat n → be_val (be_bytes n x) = x.
Proof. intros Hx. by rewrite be_val_be_bytes, Z.mod_small. Qed.

Lemma PaddedBigBytes_id n x : 0 ≤ x < 256 ^ Z.of_nat n → PaddedBigBytes x n = be_bytes n x.
Proof.
  intros Hx. unfold PaddedBigBytes. rewrite Z.abs_eq by lia. rewrite Z.geb_leb. destruct (Z.leb_spec (Z.of_nat n) (BitLen x / 8)) as [H|]; [|done].
  pose proof (length_big_Bytes n x Hx) as Hl. unfold big_Bytes in *. rewrite length_be_bytes in Hl. rewrite Z.abs_eq by lia. f_equal.
  pose proof (Z.div_le_mono (BitLen x) (BitLen x + 7) 8 ltac:(lia) ltac:(lia)). lia.
Qed.

(** ** Public keys *)

Lemma curve_P_fits x : 0 ≤ x < curve_P → 0 ≤ x < 256 ^ Z.of_nat 32.
Proof. intros [? H]. split; [done|]. etrans; [exact H|done]. Qed.

Lemma length_uncompressed x y : length (uncompressed x y) = 65%nat.
Proof. unfold uncompressed. cbn [length]. by rewrite length_app, !length_be_bytes. Qed.

Lemma Marshal_uncompressed x y : 0 ≤ x < 256 ^ Z.of_nat 32 → 0 ≤ y < 256 ^ Z.of_nat 32 → Marshal x y = Ret (uncompressed x y).
Proof.
  intros Hx Hy. pose proof (length_big_Bytes 32 x Hx) as Lx. pose proof (length_big_Bytes 32 y Hy) as Ly.
  unfold Marshal. rewrite (proj2 (Nat.ltb_ge 33 _)), (proj2 (Nat.ltb_ge 65 _)) by lia. cbn [orb]. f_equal. unfold uncompressed.
  rewrite <- (big_pad 32 x Hx), <- (big_pad 32 y Hy).
  replace (33 - length (big_Bytes x))%nat with (S (32 - length (big_Bytes x))) by lia.
  change (drop 33 (byte_of 4 :: replicate 64 (byte_of 0))) with (replicate 32 (byte_of 0)).
  cbn [firstn]. rewrite take_replicate, Nat.min_l by lia. cbn [app].
  replace (65 - length (big_Bytes y))%nat with (S (64 - length (big_Bytes y))) by lia. cbn [firstn app]. f_equal.
  rewrite <- app_assoc, app_assoc, take_app.
  rewrite take_ge by (rewrite length_app, length_replicate; lia). rewrite length_app, length_replicate, take_replicate, Nat.min_l by lia.
  rewrite <- !app_assoc. do 4 f_equal. lia.
Qed.

Lemma Unmarshal_uncompressed x y : point_ok x y → Unmarshal (uncompressed x y) = Some (x, y).
Proof.
  intros (Hx & Hy & Hc). unfold Unmarshal. rewrite length_uncompressed. cbn [Nat.eqb negb].
  change (byte_val (nth 0 (uncompressed x y) (byte_of 0))) with 4. cbn [Z.eqb Pos.eqb negb].
  assert (take 32 (drop 1 (uncompressed x y)) = be_bytes 32 x) as ->.
  { change (take 32 (be_bytes 32 x ++ be_bytes 32 y) = be_bytes 32 x). apply take_app_length'. by rewrite length_be_bytes. }
  assert (drop 33 (uncompressed x y) = be_bytes 32 y) as ->.
  { change (drop 32 (be_bytes 32 x ++ be_bytes 32 y) = be_bytes 32 y). apply drop_app_length'. by rewrite length_be_bytes. }
  rewrite !be_val_be_bytes_id by by apply curve_P_fits.
  rewrite !Z.geb_leb, !(proj2 (Z.leb_gt _ _)) by lia. by rewrite Hc.
Qed.

Section Keys.
Context (keccak : bytes → hash) `{SECP : Secp256k1}.

(** The address of a point. *)
Definition point_address (x y : Z) : address := pub_address keccak (be_bytes 32 x ++ be_bytes 32 y).

Lemma PubkeyToAddress_point x y : 0 ≤ x < 256 ^ Z.of_nat 32 → 0 ≤ y < 256 ^ Z.of_nat 32 → PubkeyToAddress keccak (Some (x, y)) = Ret (point_address x y).
Proof.
  intros Hx Hy. unfold PubkeyToAddress, FromECDSAPub. rewrite Marshal_uncompressed by done. cbn [mbind outcome_bind].
  unfold slice_bytes, blen. rewrite length_uncompressed. cbn [Z.of_nat]. unfold point_address, uncompressed. do 2 f_equal.
Qed.

Lemma signer_address_point x y : point_ok x y → signer_address keccak (uncompressed x y) = Ret (point_address x y).
Proof.
  intros H. unfold signer_address, ToECDSAPub. rewrite length_uncompressed. cbn [Nat.eqb deref mbind outcome_bind].
  rewrite Unmarshal_uncompressed by done. destruct H as (Hx & Hy & _). apply PubkeyToAddress_point; by apply curve_P_fits.
Qed.

(** ** A key signs for its address *)

Definition key_ok (prv : PrivateKey) : Prop := 0 < prv_D prv < secp256k1_N ∧ prv_PublicKey prv = ScalarBaseMult (be_bytes 32 (prv_D prv)).

Lemma order_fits x : x < secp256k1_N → x < 256 ^ Z.of_nat 32.
Proof. intros H. etrans; [exact H|done]. Qed.

Lemma toECDSA_ok d strict prv : toECDSA d strict = Ret (inl prv) → key_ok prv.
Proof.
  unfold toECDSA. destruct (strict && _); [done|]. destruct (be_val d >=? secp256k1_N) eqn:E1; [done|]. destruct (be_val d <=? 0) eqn:E2; [done|].
  rewrite Z.geb_leb in E1. apply Z.leb_gt in E1, E2. destruct (Nat.ltb_spec 32 (length d)) as [|Hl]; [done|].
  assert (LeftPadBytes d 32 = be_bytes 32 (be_val d)) as ->.
  { rewrite <- be_bytes_pad by done. unfold LeftPadBytes. destruct (Z.leb_spec 32 (Z.of_nat (length d))); [|done].
    by replace (32 - length d)%nat with 0%nat by lia. }
  destruct (ScalarBaseMult _) as [xy|] eqn:E; [|done]. intros [= <-]. split; [done|]. cbn [prv_D prv_PublicKey]. by rewrite E.
Qed.

Context `{LAWS : !SecpLaws}.

Lemma Sign_recovers h prv : key_ok prv → length h = 32%nat →
  ∃ r s v x y, prv_PublicKey prv = Some (x, y) ∧ point_ok x y ∧ Sign h prv = inl (be_bytes 32 r ++ be_bytes 32 s ++ [byte_of v]) ∧
    1 ≤ r < secp256k1_N ∧ 1 ≤ s ≤ secp256k1_halfN ∧ 0 ≤ v ≤ 1 ∧
    RecoverPubkey h (be_bytes 32 r ++ be_bytes 32 s ++ [byte_of v]) = (uncompressed x y, None).
Proof.
  intros [HD HP] Hh. set (sk := be_bytes 32 (prv_D prv)) in *. assert (length sk = 32%nat) as Hl by apply length_be_bytes.
  pose proof (order_fits _ (proj2 HD)) as HD'. assert (be_val sk = prv_D prv) as Hv by (apply be_val_be_bytes_id; split; [lia|exact HD']).
  destruct (secp_seckey sk) as [Hk (x & y & Hxy & Hp)]; [done|by rewrite Hv|].
  destruct (secp_sign h sk) as (sig & v & x' & y' & Es & Hs & Hr & H1 & H2 & Hxy' & Erec); [done..|].
  rewrite Hxy in Hxy'. injection Hxy' as <- <-.
  assert (be_bytes 32 (be_val (take 32 sig)) ++ be_bytes 32 (be_val (drop 32 sig)) = sig) as Esig.
  { rewrite <- (take_drop 32 sig) at 3. f_equal.
    - rewrite <- (be_bytes_be_val (take 32 sig)) at 2. by rewrite length_take, Hs.
    - rewrite <- (be_bytes_be_val (drop 32 sig)) at 2. by rewrite length_drop, Hs. }
  exists (be_val (take 32 sig)), (be_val (drop 32 sig)), v, x, y. rewrite app_assoc, Esig. split_and!; try (done || lia); [by rewrite HP| |].
  - unfold Sign, secp_Sign. rewrite Hh. cbn [Nat.eqb negb]. rewrite PaddedBigBytes_id by (split; [lia|exact HD']). fold sk. rewrite Hl, Hk, Es. cbn [Nat.eqb negb].
    by rewrite take_ge by lia.
  - unfold RecoverPubkey, checkSignature. rewrite Hh, length_app, Hs. cbn [Nat.eqb Nat.add length negb].
    rewrite app_nth2, Hs by lia. cbn [Nat.sub nth]. rewrite byte_val_of, (Z.mod_small v) by lia. rewrite Z.geb_leb, (proj2 (Z.leb_gt _ _)) by lia. by rewrite Erec.
Qed.
End Keys.

(** ** An instance for examples

    Every key has the base point for its public key, and signs with the same bytes. *)
Definition toy_secp : Secp256k1 := {|
  ec_seckey_verify sk := (0 <? be_val sk) && (be_val sk <? secp256k1_N);
  ecdsa_sign_recoverable _ _ := Some (be_bytes 32 1 ++ be_bytes 32 1, 0);
  ext_ecdsa_recover _ _ := Some (uncompressed curve_Gx curve_Gy);
  ScalarBaseMult _ := Some (curve_Gx, curve_Gy)
|}.

Lemma base_point_ok : point_ok curve_Gx curve_Gy.
Proof. by vm_compute. Qed.

Lemma toy_secp_laws : @SecpLaws toy_secp.
Proof.
  split; cbn [toy_secp ec_seckey_verify ecdsa_sign_recoverable ext_ecdsa_recover ScalarBaseMult].
  - intros sk _ [H1 H2]. apply Z.ltb_lt in H1, H2. rewrite H1, H2. split; [done|]. by exists curve_Gx, curve_Gy; split; [|apply base_point_ok].
  - intros msg sk _ _ _. exists (be_bytes 32 1 ++ be_bytes 32 1), 0, curve_Gx, curve_Gy. by vm_compute.
  - intros sig msg pub [= <-]. by exists curve_Gx, curve_Gy; split; [|apply base_point_ok].
Qed.

Definition toy_key : PrivateKey := mkPrivateKey 1 (Some (curve_Gx, curve_Gy)).
Lemma toy_key_ok : @key_ok toy_secp toy_key.
Proof. by vm_compute. Qed.
