(* ===== verification/TxData.v ===== *)
(** * Transactions ([core/types/transaction.go])

    The content of a transaction, its encoding, its hash, and what it costs.  A
    transaction keeps its hash, its size and its sender once they are computed; the
    methods that fill these caches are functions of the transaction to a result and
    the transaction after.  The integers behind the pointers are set once and only
    read; [new(big.Int)] stands behind each. *)

From S2P Require Import Prelude Interfaces AssetInfo StateTypes Hex VmData VmGas Votes.
From S2P Require Import VoteCount Evm Transition Rlp RlpLayout RlpStream RlpRead RlpRoundtrip.
From S2P Require Import Secp.

(** ** Data *)

Record txdata : Type := mkTxdata {
  AccountNonce : Z;
  Price : Z;
  GasLimit : Z;
  Recipient : option address;
  Amount : Z;
  Payload : bytes;
  Action : Z;
  Vote : bytes;
  Nickname : bytes;
  Asset : option address;
  tx_AssetInfo : bytes;
  SubAddress : string;
  Abi : string;
  tx_V : Z;
  tx_R : Z;
  tx_S : Z
}.
#[export] Instance txdata_eta : Eta txdata := λ d,
  mkTxdata (AccountNonce d) (Price d) (GasLimit d) (Recipient d) (Amount d) (Payload d) (Action d) (Vote d) (Nickname d)
    (Asset d) (tx_AssetInfo d) (SubAddress d) (Abi d) (tx_V d) (tx_R d) (tx_S d).

(** [AuroraSigner], here because a transaction remembers the one it was read with. *)
Record AuroraSigner : Type := mkSigner { chainId : Z; chainIdMul : Z }.

Record Transaction : Type := mkTx {
  data : txdata;
  tx_hash : option hash;
  tx_size : option Z;
  tx_from : option (AuroraSigner * address)
}.
#[export] Instance Transaction_eta : Eta Transaction := λ t, mkTx (data t) (tx_hash t) (tx_size t) (tx_from t).

Definition newTransaction (nonce : Z) (to : option address) (amount : option Z) (gasLimit : Z) (gasPrice : option Z) (payload : bytes)
    (action : Z) (vote nickname : bytes) (asset : option address) (assetInfo : bytes) (subAddress abi : string) : Transaction :=
  let d := mkTxdata nonce 0 gasLimit to 0 payload action vote nickname asset assetInfo subAddress abi 0 0 0 in
  let d := match amount with Some a => d <| Amount := a |> | None => d end in
  let d := match gasPrice with Some p => d <| Price := p |> | None => d end in
  mkTx d None None None.

Definition NewTransaction (nonce : Z) (to : address) (amount : option Z) (gasLimit : Z) (gasPrice : option Z) (payload : bytes)
    (action : Z) (vote nickname : bytes) (asset : option address) (assetInfo : bytes) (subAddress : string) : Transaction :=
  newTransaction nonce (Some to) amount gasLimit gasPrice payload action vote nickname asset assetInfo subAddress EmptyString.

Definition NewContractCreation (nonce : Z) (amount : option Z) (gasLimit : Z) (gasPrice : option Z) (payload : bytes) (abi : string)
    (asset : option address) : Transaction :=
  newTransaction nonce None amount gasLimit gasPrice payload ActionCreateContract [] [] asset [] EmptyString abi.

(** ** Encoding *)

Definition nil_tag : tags := mkTags true false.

Definition tx_fields : list (tags * gtype) :=
  [(no_tags, TUint 64); (no_tags, TBig); (no_tags, TUint 64); (nil_tag, TPtr (TByteArray 20)); (no_tags, TBig); (no_tags, TBytes);
   (no_tags, TUint 64); (nil_tag, TBytes); (nil_tag, TBytes); (nil_tag, TPtr (TByteArray 20)); (nil_tag, TBytes); (nil_tag, TString); (nil_tag, TString);
   (no_tags, TBig); (no_tags, TBig); (no_tags, TBig)].
Definition tx_type : gtype := TStruct tx_fields.

Definition address_val (a : option address) : gval := VPtr ((λ a, VBytes (address_bytes a)) <$> a).
Definition tx_vals (d : txdata) : list gval :=
  [VUint (AccountNonce d); VBig (Some (Price d)); VUint (GasLimit d); address_val (Recipient d); VBig (Some (Amount d)); VBytes (Payload d);
   VUint (Action d); VBytes (Vote d); VBytes (Nickname d); address_val (Asset d); VBytes (tx_AssetInfo d); VBytes (Hex.str (SubAddress d)); VBytes (Hex.str (Abi d));
   VBig (Some (tx_V d)); VBig (Some (tx_R d)); VBig (Some (tx_S d))].
Definition tx_val (d : txdata) : gval := VList (tx_vals d).

(** [tx.EncodeRLP], through [rlp.EncodeToBytes]. *)
Definition Transaction_EncodeRLP (tx : Transaction) : outcome (bytes + rlperr) :=
  EncodeToBytes (TPtr tx_type) (VPtr (Some (tx_val (data tx)))).

(** A decoded value as the struct it was decoded into. *)
Definition val_address (v : gval) : option address :=
  match v with VPtr (Some (VBytes b)) => Some (BytesToAddress b) | _ => None end.
Definition val_txdata (v : gval) : option txdata :=
  match v with
  | VList [VUint nonce; VBig (Some price); VUint gas; to; VBig (Some amount); VBytes payload; VUint action; VBytes vote; VBytes nick; asset;
           VBytes info; VBytes sub; VBytes abi; VBig (Some v); VBig (Some r); VBig (Some s)] =>
    Some (mkTxdata nonce price gas (val_address to) amount payload action vote nick (val_address asset) info
            (String.string_of_list_byte sub) (String.string_of_list_byte abi) v r s)
  | _ => None
  end.

(** [tx.DecodeRLP] into a fresh transaction. *)
Definition Transaction_DecodeRLP : RM Transaction := λ s,
  let '(kn, s) := Kind_of s in
  let size := match kn with inl (_, n) => n | inr _ => 0 end in
  (v ← decode no_tags tx_type;
   match val_txdata v with
   | Some d => mret (mkTx d None (Some (ListSize size)) None)
   | None => fail ill_typed
   end) s.

Section Hashing.
Context (keccak : bytes → hash).

(** [rlpHash]: the error of [rlp.Encode] is dropped, with nothing written. *)
Definition rlpHash (t : gtype) (v : gval) : outcome hash :=
  enc ← Encode t v; Ret (keccak (match enc with inl b => b | inr _ => [] end)).

Definition Transaction_Hash : GM Transaction hash := λ tx,
  match tx_hash tx with
  | Some h => Ret (h, tx)
  | None => v ← rlpHash (TPtr tx_type) (VPtr (Some (tx_val (data tx)))); Ret (v, tx <| tx_hash := Some v |>)
  end.

(** The bytes [rlp.Encode] writes are counted. *)
Definition Transaction_Size : GM Transaction Z := λ tx,
  match tx_size tx with
  | Some n => Ret (n, tx)
  | None =>
    enc ← Encode (TPtr tx_type) (VPtr (Some (tx_val (data tx))));
    let c := match enc with inl b => blen b | inr _ => 0 end in
    Ret (c, tx <| tx_size := Some c |>)
  end.
End Hashing.

(** ** Cost and kind *)

Definition AoaCost (tx : Transaction) : Z :=
  let d := data tx in
  let total := Price d * GasLimit d in
  if Action d =? ActionRegister then total + registerCost
  else if match Asset d with None => true | Some a => bool_decide (a = address0) end && (Amount d >? 0) then total + Amount d
  else total.

Definition StringToAddress (s : string) : address := BytesToAddress (Hex.str s).

Definition GetTransactionType (tx : Transaction) : outcome address :=
  let d := data tx in
  if Action d =? ActionTrans then Ret (match Asset d with None => StringToAddress "aoa" | Some a => a end)
  else if Action d =? ActionRegister then Ret (StringToAddress "Register Agent")
  else if (Action d =? ActionAddVote) || (Action d =? ActionSubVote) then Ret (StringToAddress "Vote Agent")
  else if Action d =? ActionCreateContract then Ret (StringToAddress "Create Contract")
  else if Action d =? ActionCallContract then deref (Recipient d)
  else Ret (StringToAddress "Publish Asset").

(** [TxDifference]: the transactions of [a] whose hash no transaction of [b] has. *)
Fixpoint tx_hashes (keccak : bytes → hash) (l : list Transaction) : outcome (list hash) :=
  match l with
  | [] => Ret []
  | tx :: l => '(h, _) ← Transaction_Hash keccak tx; hs ← tx_hashes keccak l; Ret (h :: hs)
  end.
Fixpoint keep_unless (keccak : bytes → hash) (remove : gset hash) (a : list Transaction) : outcome (list Transaction) :=
  match a with
  | [] => Ret []
  | tx :: a =>
    '(h, tx) ← Transaction_Hash keccak tx;
    keep ← keep_unless keccak remove a;
    Ret (if bool_decide (h ∈ remove) then keep else tx :: keep)
  end.
Definition TxDifference (keccak : bytes → hash) (a b : list Transaction) : outcome (list Transaction) :=
  hs ← tx_hashes keccak b; keep_unless keccak (list_to_set hs) a.

(** ** The encoding is read back *)

(** The integers a Go program can hold in the fields: unsigned 64-bit ones, and big
    ones that are not negative, as everything decoded or signed is; and an encoding
    no longer than a slice can be. *)
Definition tx_rlp (d : txdata) : bytes := match ref no_tags tx_type (tx_val d) with inl b => b | inr _ => [] end.
Record tx_ok (d : txdata) : Prop := {
  ok_nonce : is_u64 (AccountNonce d);
  ok_gas : is_u64 (GasLimit d);
  ok_action : is_u64 (Action d);
  ok_price : 0 ≤ Price d;
  ok_amount : 0 ≤ Amount d;
  ok_V : 0 ≤ tx_V d;
  ok_R : 0 ≤ tx_R d;
  ok_S : 0 ≤ tx_S d;
  ok_size : blen (tx_rlp d) < 2 ^ 63
}.

Lemma keeps_u64 n i : is_u64 i → keeps n (TUint 64) (VUint i).
Proof. intros Hi. apply kp_uint; [by do 3 right; left|exact Hi]. Qed.

Lemma keeps_address a : keeps true (TPtr (TByteArray 20)) (address_val a).
Proof.
  destruct a as [a|]; cbn [address_val fmap option_fmap option_map]; [|by apply kp_nil].
  assert (Hl : length (address_bytes a) = 20%nat) by apply length_be_bytes. apply kp_some; [by apply kp_byte_array| |]; cbn [ref]; intros [= E].
  all: destruct (rlp_string_cases (address_bytes a)) as [(x & H & _)|[H _]]; [by rewrite H in Hl|]; rewrite H in E.
  all: apply (f_equal length) in E; rewrite length_app, Hl in E; unfold header, puthead in E.
  all: destruct (blen (address_bytes a) <? 56); vm_compute in E; lia.
Qed.

Lemma keeps_tx d : tx_ok d → keeps false tx_type (tx_val d).
Proof.
  intros []. apply kp_struct. repeat (constructor; [split; [done|]|]); try apply keeps_address; try (by apply keeps_u64); try (by apply kp_big); try constructor.
Qed.

Lemma str_back s : String.string_of_list_byte (Hex.str s) = s.
Proof. apply String.string_of_list_byte_of_string. Qed.

Lemma val_address_back a : val_address (address_val a) = a.
Proof.
  destruct a as [a|]; [|done]. cbn [val_address address_val fmap option_fmap option_map]. f_equal. apply BytesToAddress_bytes.
Qed.

Lemma val_txdata_back d : val_txdata (tx_val d) = Some d.
Proof. unfold tx_val, tx_vals. cbn [val_txdata]. rewrite !val_address_back, !str_back. by destruct d. Qed.

Lemma tx_ref d : tx_ok d → wt tx_type (tx_val d) ∧ ref no_tags tx_type (tx_val d) = inl (tx_rlp d) ∧ ∃ c, tx_rlp d = rlp_list c.
Proof.
  intros Hd. destruct (keeps_ref _ _ (keeps_tx d Hd)) as (Hw & out & E). split_and!; [done|unfold tx_rlp; by rewrite E|].
  unfold tx_rlp. rewrite E. unfold tx_type, tx_val in E. cbn [ref] in E. destruct (ref_fields _ _ _) as [c|]; [|done]. injection E as <-. by exists c.
Qed.

Lemma tx_encodes d : tx_ok d →
  EncodeToBytes (TPtr tx_type) (VPtr (Some (tx_val d))) = Ret (inl (tx_rlp d)) ∧ Encode (TPtr tx_type) (VPtr (Some (tx_val d))) = Ret (inl (tx_rlp d)).
Proof. intros Hd. destruct (tx_ref d Hd) as (Hw & E & _). apply Encode_ref; [by constructor|exact E|by destruct Hd]. Qed.

Lemma tx_rlp_inj d d' : tx_ok d → tx_ok d' → tx_rlp d = tx_rlp d' → d = d'.
Proof.
  intros Hd Hd' E. destruct (tx_ref d Hd) as (_ & R1 & _), (tx_ref d' Hd') as (_ & R2 & _). rewrite <- E in R2.
  assert (Ev : tx_val d = tx_val d') by (eapply (ref_inj tx_type _ _ (tx_rlp d)); [by apply keeps_tx|by apply keeps_tx|by apply ok_size|exact R1|exact R2]).
  pose proof (val_txdata_back d) as H. rewrite Ev, val_txdata_back in H. by injection H.
Qed.

Lemma ListSize_list c : blen c < 2 ^ 63 → ListSize (blen c) = blen (rlp_list c).
Proof.
  intros Hc. pose proof (blen_nonneg c). unfold ListSize, rlp_list. rewrite blen_app, blen_puthead by lia.
  pose proof (headsize_le (blen c) ltac:(lia)). pose proof (headsize_pos (blen c) ltac:(lia)). apply u64_small. unfold is_u64. lia.
Qed.

Lemma DecodeRLP_run d rr st s : tx_ok d → front s (tx_rlp d ++ rr) st → fits (blen (tx_rlp d)) st →
  ∃ s', Transaction_DecodeRLP s = (inl (mkTx d None (Some (blen (tx_rlp d))) None), s') ∧ ready s' rr (consume (blen (tx_rlp d)) st).
Proof.
  intros Hd Hs Hf. destruct (tx_ref d Hd) as (_ & E & c & Ec). pose proof (ok_size d Hd) as Hb. rewrite Ec in *. pose proof (blen_rlp_list c).
  destruct (list_kind s c rr st) as (s1 & Ek & H1); [done|lia|done|].
  destruct (proj1 (decode_back (tx_val d)) no_tags tx_type (rlp_list c)) as [_ Hdec]; [by apply keeps_tx|done|done|done|].
  destruct (Hdec s1 rr st H1 Hf) as (s2 & E2 & H2). exists s2. split; [|done].
  unfold Transaction_DecodeRLP. rewrite Ek, (bind_ok _ _ _ _ _ E2), val_txdata_back, ListSize_list by lia. done.
Qed.

(** A transaction survives its encoding.  [EncodeRLP] succeeds, and [DecodeRLP] of
    what it wrote reads all of it and gives a transaction with the same content: the
    same nonce, price, recipient, amount, payload, action, votes, asset and signature,
    and so the same hash; the size it remembers is the one [Size] computes. *)
Theorem transaction_roundtrip (tx : Transaction) :
  tx_ok (data tx) →
  ∃ out s, Transaction_EncodeRLP tx = Ret (inl out) ∧
    Transaction_DecodeRLP (NewStream out (blen out)) = (inl (mkTx (data tx) None (Some (blen out)) None), s) ∧ r s = [] ∧
    Transaction_Size (mkTx (data tx) None None None) = Ret (blen out, mkTx (data tx) None (Some (blen out)) None).
Proof.
  intros Hd. destruct (tx_encodes _ Hd) as [E1 E2].
  destruct (DecodeRLP_run (data tx) [] [] (NewStream (tx_rlp (data tx)) (blen (tx_rlp (data tx))))) as (s & E & [[Hr _ _ _] _]); [done| |done|].
  { apply ready_front. rewrite app_nil_r. repeat constructor. simpl. by destruct (blen _ >? 0). }
  exists (tx_rlp (data tx)), s. split_and!; [done|done|done|]. unfold Transaction_Size. cbn [tx_size data]. by rewrite E2.
Qed.

Definition sample_tx : Transaction :=
  NewTransaction 3 (to_word 160 77) (Some 5) 30000 (Some 9) [byte_of 1; byte_of 200] ActionTrans [] [] None [] EmptyString.
Lemma sample_tx_ok : tx_ok (data sample_tx).
Proof. split; by vm_compute. Qed.

Lemma transaction_roundtrip_witness : ∃ out, Transaction_EncodeRLP sample_tx = Ret (inl out) ∧
  Transaction_Size (mkTx (data sample_tx) None None None) = Ret (blen out, mkTx (data sample_tx) None (Some (blen out)) None).
Proof. destruct (transaction_roundtrip sample_tx sample_tx_ok) as (out & s & H1 & _ & _ & H2). by exists out. Defined.
