(* ===== verification/Signing.v ===== *)
(** * Signing transactions ([core/types/transaction_signing.go])

    A signer of a chain hashes a transaction with the chain's number, puts the
    number into the signature's [V], and recovers the sender from a signature made
    for its chain.  [AsMessage] makes a message of a transaction. *)

From S2P Require Import Prelude Interfaces AssetInfo StateTypes Hex VmData Votes VoteCount.
From S2P Require Import Evm Transition Rlp RlpLayout RlpStream RlpRead RlpRoundtrip.
From S2P Require Import Secp TxData TrieClaims.

Inductive sigerr : Type :=
| ErrInvalidChainId
| ErrInvalidSig
| errInvalidPublicKey
| errSecp (e : secperr)
| errDecode (e : gerror).

(** What [encoding/json] makes of the votes and of the description of an asset that
    a transaction carries. *)
Class TxJson : Type := {
  BytesToVote : bytes → list VoteItem + gerror;
  BytesToAssetInfo : bytes → AssetInfo + gerror
}.

(** ** Signers *)

Definition NewAuroraSigner (chainId : option Z) : outcome AuroraSigner :=
  match chainId with
  | None => Panic "new Aurora Signer can not without chainId"
  | Some c => Ret (mkSigner c (c * 2))
  end.

Definition signer_Equal (s s2 : AuroraSigner) : bool := chainId s2 =? chainId s.

Definition deriveChainId (v : Z) : Z :=
  if BitLen v <=? 64 then u64 (Uint64 v - 35) / 2 else bigDiv (v - 35) 2.

Definition ChainId (tx : Transaction) : Z := deriveChainId (tx_V (data tx)).

(** [deriveSigner] *)
Definition deriveSigner (v : Z) : outcome AuroraSigner :=
  if negb (v =? 0) then NewAuroraSigner (Some (deriveChainId v)) else NewAuroraSigner (Some 1).

Section Signing.
Context (keccak : bytes → hash) `{SECP : Secp256k1}.

(** What is hashed for signing: a list of interface values. *)
Definition iface (t : gtype) (v : gval) : gval := VIface (Some (t, v)).
Definition signing_vals (s : AuroraSigner) (d : txdata) : list gval :=
  [iface (TUint 64) (VUint (AccountNonce d)); iface TBig (VBig (Some (Price d))); iface (TUint 64) (VUint (GasLimit d));
   iface (TPtr (TByteArray 20)) (address_val (Recipient d)); iface TBig (VBig (Some (Amount d))); iface TBytes (VBytes (Payload d));
   iface (TUint 64) (VUint (Action d)); iface TBytes (VBytes (Vote d)); iface TBytes (VBytes (Nickname d));
   iface (TPtr (TByteArray 20)) (address_val (Asset d)); iface TBytes (VBytes (tx_AssetInfo d));
   iface TString (VBytes (Hex.str (SubAddress d))); iface TString (VBytes (Hex.str (Abi d)));
   iface TBig (VBig (Some (chainId s))); iface (TUint 64) (VUint 0); iface (TUint 64) (VUint 0)].
Definition signer_Hash (s : AuroraSigner) (tx : Transaction) : outcome hash :=
  rlpHash keccak (TSlice TInterface) (VList (signing_vals s (data tx))).

(** [copy(sig[hi-len(b):hi], b)] *)
Definition copy_up_to (sig : bytes) (hi : nat) (b : bytes) : outcome bytes :=
  if (hi <? length b)%nat then Panic "slice bounds out of range"
  else Ret (take (hi - length b) sig ++ b ++ drop hi sig).

Definition recoverPlain (sighash : hash) (R S Vb : Z) (homestead : bool) : outcome (address + sigerr) :=
  if BitLen Vb >? 8 then Ret (inr ErrInvalidSig)
  else
    let V := u64 (Uint64 Vb - 27) mod 256 in
    if negb (ValidateSignatureValues V R S homestead) then Ret (inr ErrInvalidSig)
    else
      sig ← copy_up_to (replicate 65 (byte_of 0)) 32 (big_Bytes R);
      sig ← copy_up_to sig 64 (big_Bytes S);
      let sig := take 64 sig ++ [byte_of V] in
      match secp_Ecrecover (hash_bytes sighash) sig with
      | (_, Some err) => Ret (inr (errSecp err))
      | (pub, None) =>
        match pub with
        | [] => Ret (inr errInvalidPublicKey)
        | x :: rest => if negb (byte_val x =? 4) then Ret (inr errInvalidPublicKey) else Ret (inl (pub_address keccak rest))
        end
      end.

(** The method [Sender] of a signer. *)
Definition signer_Sender (s : AuroraSigner) (tx : Transaction) : outcome (address + sigerr) :=
  if negb (ChainId tx =? chainId s) then Ret (inr ErrInvalidChainId)
  else
    let V := tx_V (data tx) - chainIdMul s - 8 in
    h ← signer_Hash s tx;
    recoverPlain h (tx_R (data tx)) (tx_S (data tx)) V true.

(** The function [Sender]: through the cache of the transaction. *)
Definition Sender (signer : AuroraSigner) : GM Transaction (address + sigerr) := λ tx,
  let recover :=
    res ← signer_Sender signer tx;
    match res with
    | inr err => Ret (inr err, tx)
    | inl addr => Ret (inl addr, tx <| tx_from := Some (signer, addr) |>)
    end in
  match tx_from tx with
  | Some (cached, from) => if signer_Equal cached signer then Ret (inl from, tx) else recover
  | None => recover
  end.

(** ** Signatures *)

(** [sig[64]+27] is arithmetic on bytes. *)
Definition signatureValues (sig : bytes) : outcome (Z * Z * Z) :=
  if negb (length sig =? 65)%nat then Panic "wrong size for signature"
  else Ret (be_val (take 32 sig), be_val (take 32 (drop 32 sig)), (byte_val (nth 64 sig (byte_of 0)) + 27) mod 256).
Definition SignatureValues (s : AuroraSigner) (sig : bytes) : outcome (Z * Z * Z) :=
  '(r, sv, v) ← signatureValues sig;
  let v := if negb (chainId s =? 0) then (byte_val (nth 64 sig (byte_of 0)) + 27 + 8) mod 256 + chainIdMul s else v in
  Ret (r, sv, v).

Definition WithSignature (signer : AuroraSigner) (sig : bytes) (tx : Transaction) : outcome Transaction :=
  '(r, s, v) ← SignatureValues signer sig;
  Ret (mkTx ((data tx) <| tx_R := r |> <| tx_S := s |> <| tx_V := v |>) None None None).

Definition SignTx (tx : Transaction) (s : AuroraSigner) (prv : PrivateKey) : outcome (Transaction + secperr) :=
  h ← signer_Hash s tx;
  match Sign (hash_bytes h) prv with
  | inr err => Ret (inr err)
  | inl sig => tx ← WithSignature s sig tx; Ret (inl tx)
  end.

(** [MakeSigner] of the configuration's chain. *)
Definition MakeSigner (ChainId : option Z) : outcome AuroraSigner := NewAuroraSigner ChainId.

(** ** Messages *)

(** The message with an error is not used by any caller. *)
Definition AsMessage `{JSON : TxJson} (s : AuroraSigner) : GM Transaction (Message + sigerr) := λ tx,
  let d := data tx in
  match (if (Action d =? ActionAddVote) || (Action d =? ActionSubVote) then BytesToVote (Vote d) else inl []) with
  | inr err => Ret (inr (errDecode err), tx)
  | inl vote =>
    match (if blen (tx_AssetInfo d) >? 0 then match BytesToAssetInfo (tx_AssetInfo d) with inl ai => inl (Some ai) | inr err => inr err end else inl None) with
    | inr err => Ret (inr (errDecode err), tx)
    | inl assetInfo =>
      '(from, tx) ← Sender s tx;
      match from with
      | inr err => Ret (inr err, tx)
      | inl from =>
        Ret (inl (mkMessage from (Recipient d) (AccountNonce d) (Amount d) (GasLimit d) (Price d) (Payload d) true (Action d) vote (Asset d) assetInfo (Abi d)), tx)
      end
    end
  end.
End Signing.

(** ** What is signed *)

(** The list of interface values has the encoding of a struct, from which the values
    can be read back. *)
Definition sig_type : gtype :=
  TStruct [(no_tags, TUint 64); (no_tags, TBig); (no_tags, TUint 64); (nil_tag, TPtr (TByteArray 20)); (no_tags, TBig); (no_tags, TBytes);
    (no_tags, TUint 64); (no_tags, TBytes); (no_tags, TBytes); (nil_tag, TPtr (TByteArray 20)); (no_tags, TBytes); (no_tags, TString); (no_tags, TString);
    (no_tags, TBig); (no_tags, TUint 64); (no_tags, TUint 64)].
Definition sig_val (c : Z) (d : txdata) : gval :=
  VList [VUint (AccountNonce d); VBig (Some (Price d)); VUint (GasLimit d); address_val (Recipient d); VBig (Some (Amount d)); VBytes (Payload d);
    VUint (Action d); VBytes (Vote d); VBytes (Nickname d); address_val (Asset d); VBytes (tx_AssetInfo d); VBytes (Hex.str (SubAddress d)); VBytes (Hex.str (Abi d));
    VBig (Some c); VUint 0; VUint 0].
Definition sig_rlp (c : Z) (d : txdata) : bytes := match ref no_tags sig_type (sig_val c d) with inl b => b | inr _ => [] end.

(** A transaction that can be signed for chain [c]. *)
Record sig_ok (c : Z) (d : txdata) : Prop := {
  sg_nonce : is_u64 (AccountNonce d);
  sg_gas : is_u64 (GasLimit d);
  sg_action : is_u64 (Action d);
  sg_price : 0 ≤ Price d;
  sg_amount : 0 ≤ Amount d;
  sg_chain : 0 ≤ c;
  sg_size : blen (sig_rlp c d) < 2 ^ 63
}.

(** The content without the signature. *)
Definition unsigned (d : txdata) : txdata := d <| tx_V := 0 |> <| tx_R := 0 |> <| tx_S := 0 |>.

Lemma keeps_sig c d : sig_ok c d → keeps false sig_type (sig_val c d).
Proof.
  intros []. apply kp_struct. repeat (constructor; [split; [done|]|]); try apply keeps_address; try (by apply keeps_u64); try (by apply kp_big); try constructor.
Qed.

Lemma sig_ref s d : ref no_tags (TSlice TInterface) (VList (signing_vals s d)) = ref no_tags sig_type (sig_val (chainId s) d).
Proof. unfold signing_vals, sig_type, sig_val, iface. by destruct (Recipient d), (Asset d). Qed.

Lemma wt_signing s d : sig_ok (chainId s) d → wt (TSlice TInterface) (VList (signing_vals s d)).
Proof.
  intros []. apply wt_slice. unfold signing_vals, iface.
  assert (Hu : ∀ i, is_u64 i → wt (TUint 64) (VUint i)) by (intros i Hi; constructor; [by do 3 right; left|exact Hi]).
  assert (Ha : ∀ a, wt (TPtr (TByteArray 20)) (address_val a)) by (intros [a|]; repeat constructor; apply length_be_bytes).
  repeat (constructor; [constructor; first [by apply Ha | by apply Hu | by constructor]|]). constructor.
Qed.

Lemma signer_Hash_rlp keccak s tx : sig_ok (chainId s) (data tx) → signer_Hash keccak s tx = Ret (keccak (sig_rlp (chainId s) (data tx))).
Proof.
  intros Hd. destruct (keeps_ref _ _ (keeps_sig _ _ Hd)) as (_ & out & E).
  assert (sig_rlp (chainId s) (data tx) = out) as Eo by (unfold sig_rlp; by rewrite E).
  unfold signer_Hash, rlpHash. destruct (Encode_ref (TSlice TInterface) (VList (signing_vals s (data tx))) out) as [_ ->].
  - by apply wt_signing.
  - by rewrite sig_ref.
  - rewrite <- Eo. by destruct Hd.
  - cbn. by rewrite Eo.
Qed.

Lemma sig_rlp_inj c c' d d' : sig_ok c d → sig_ok c' d' → sig_rlp c d = sig_rlp c' d' → c = c' ∧ unsigned d = unsigned d'.
Proof.
  intros Hd Hd' E. destruct (keeps_ref _ _ (keeps_sig _ _ Hd)) as (_ & out & R1), (keeps_ref _ _ (keeps_sig _ _ Hd')) as (_ & out' & R2).
  assert (sig_rlp c d = out) as E1 by (unfold sig_rlp; by rewrite R1). assert (sig_rlp c' d' = out') as E2 by (unfold sig_rlp; by rewrite R2).
  assert (out' = out) as -> by congruence. pose proof (sg_size _ _ Hd) as Hb. rewrite E1 in Hb.
  assert (Ev : sig_val c d = sig_val c' d') by (eapply (ref_inj sig_type _ _ out); [by apply keeps_sig|by apply keeps_sig|exact Hb|exact R1|exact R2]).
  clear - Ev. unfold sig_val in Ev. injection Ev as En Ep Eg Er Ea El Eact Ev Enick Eas Ei Es Eabi Ec. split; [done|].
  assert (Recipient d = Recipient d') as Er' by (rewrite <- (val_address_back (Recipient d)), <- (val_address_back (Recipient d')); unfold address_val; by rewrite Er).
  assert (Asset d = Asset d') as Eas' by (rewrite <- (val_address_back (Asset d)), <- (val_address_back (Asset d')); unfold address_val; by rewrite Eas).
  clear Er Eas.
  apply (f_equal String.string_of_list_byte) in Es, Eabi. rewrite !str_back in Es, Eabi.
  destruct d, d'. cbn in *. by subst.
Qed.

(** C20: the hash that is signed commits to the transaction and to the chain.  Unless
    the hash function collides on the two encodings, two transactions with the same
    signing hash have the same nonce, price, gas, recipient, amount, payload, action,
    votes, nickname, asset, sub-address and abi, and are signed for the same chain: a
    signature cannot be moved to another transaction or another chain. *)
Theorem signing_hash_binds (keccak : bytes → hash) (s s' : AuroraSigner) (tx tx' : Transaction) (h : hash) :
  sig_ok (chainId s) (data tx) → sig_ok (chainId s') (data tx') →
  (keccak (sig_rlp (chainId s) (data tx)) = keccak (sig_rlp (chainId s') (data tx')) → sig_rlp (chainId s) (data tx) = sig_rlp (chainId s') (data tx')) →
  signer_Hash keccak s tx = Ret h → signer_Hash keccak s' tx' = Ret h →
  chainId s = chainId s' ∧ unsigned (data tx) = unsigned (data tx').
Proof.
  intros Hd Hd' Hc E E'. rewrite signer_Hash_rlp in E, E' by done. injection E as E. injection E' as E'. apply sig_rlp_inj; [done..|].
  apply Hc. congruence.
Qed.

(** ** What a recovered signature satisfies *)

Definition signer_ok (s : AuroraSigner) : Prop := chainIdMul s = 2 * chainId s.

Lemma Validate_bounds v r s : ValidateSignatureValues v r s true = true → 0 ≤ v ≤ 1 ∧ 1 ≤ r < secp256k1_N ∧ 1 ≤ s ≤ secp256k1_halfN.
Proof.
  unfold ValidateSignatureValues. intros H. destruct (r <? 1) eqn:E1; [done|]. destruct (s <? 1) eqn:E2; [done|]. cbn [orb andb] in H.
  destruct (s >? secp256k1_halfN) eqn:E3; [done|]. apply andb_true_iff in H as [H H3]. apply andb_true_iff in H as [H1 H2].
  apply orb_true_iff in H3. rewrite Z.gtb_ltb in E3. apply Z.ltb_ge in E1, E2, E3. apply Z.ltb_lt in H1. rewrite !Z.eqb_eq in H3. lia.
Qed.

Lemma Validate_accepts v r s : 0 ≤ v ≤ 1 → 1 ≤ r < secp256k1_N → 1 ≤ s ≤ secp256k1_halfN → ValidateSignatureValues v r s true = true.
Proof.
  intros Hv Hr Hs. assert (secp256k1_halfN < secp256k1_N) by done. unfold ValidateSignatureValues.
  rewrite !(proj2 (Z.ltb_ge _ 1)), Z.gtb_ltb, (proj2 (Z.ltb_ge _ s)), !(proj2 (Z.ltb_lt _ secp256k1_N)) by lia. cbn [orb andb].
  apply orb_true_iff. rewrite !Z.eqb_eq. lia.
Qed.

Lemma copy_r r : 0 ≤ r < 256 ^ Z.of_nat 32 → copy_up_to (replicate 65 (byte_of 0)) 32 (big_Bytes r) = Ret (be_bytes 32 r ++ replicate 33 (byte_of 0)).
Proof.
  intros Hr. pose proof (length_big_Bytes 32 r Hr). unfold copy_up_to. rewrite (proj2 (Nat.ltb_ge 32 _)) by done. f_equal.
  rewrite <- (big_pad 32 r Hr), take_replicate, Nat.min_l by lia. by rewrite <- app_assoc.
Qed.
Lemma copy_s r s : 0 ≤ s < 256 ^ Z.of_nat 32 →
  copy_up_to (be_bytes 32 r ++ replicate 33 (byte_of 0)) 64 (big_Bytes s) = Ret (be_bytes 32 r ++ be_bytes 32 s ++ [byte_of 0]).
Proof.
  intros Hs. pose proof (length_big_Bytes 32 s Hs). unfold copy_up_to. rewrite (proj2 (Nat.ltb_ge 64 _)) by lia. f_equal.
  rewrite take_app, take_ge by (rewrite length_be_bytes; lia). rewrite length_be_bytes, take_replicate, Nat.min_l by lia.
  rewrite drop_app_ge by (rewrite length_be_bytes; lia). rewrite length_be_bytes. change (drop (64 - 32) (replicate 33 (byte_of 0))) with [byte_of 0].
  rewrite <- (big_pad 32 s Hs), <- !app_assoc. do 3 f_equal. lia.
Qed.

Section Recover.
Context (keccak : bytes → hash) `{SECP : Secp256k1}.

(** With valid values, the key is recovered from their 65 bytes. *)
Lemma recoverPlain_valid h r s vb : 0 ≤ vb - 27 ≤ 1 → 1 ≤ r < secp256k1_N → 1 ≤ s ≤ secp256k1_halfN →
  recoverPlain keccak h r s vb true =
  match RecoverPubkey (hash_bytes h) (be_bytes 32 r ++ be_bytes 32 s ++ [byte_of (vb - 27)]) with
  | (_, Some err) => Ret (inr (errSecp err))
  | ([], None) => Ret (inr errInvalidPublicKey)
  | (x :: rest, None) => if negb (byte_val x =? 4) then Ret (inr errInvalidPublicKey) else Ret (inl (pub_address keccak rest))
  end.
Proof.
  intros Hv Hr Hs. assert (secp256k1_halfN < secp256k1_N) as Hh by done. unfold recoverPlain.
  assert (BitLen vb ≤ 8) as Hb by (apply BitLen_bound; [done|]; rewrite Z.abs_eq by lia; change (2 ^ 8) with 256; lia).
  rewrite Z.gtb_ltb, (proj2 (Z.ltb_ge 8 _)) by done.
  assert (u64 (Uint64 vb - 27) mod 256 = vb - 27) as ->.
  { unfold Uint64. rewrite Z.abs_eq, (u64_small vb), u64_small, Z.mod_small by (unfold is_u64; lia). done. }
  rewrite Validate_accepts by done. cbn [negb].
  rewrite copy_r by (split; [lia|apply order_fits; lia]). cbn [mbind outcome_bind].
  rewrite copy_s by (split; [lia|apply order_fits; lia]). cbn [mbind outcome_bind].
  unfold secp_Ecrecover. rewrite app_assoc, take_app_length' by (by rewrite length_app, !length_be_bytes). rewrite <- app_assoc.
  destruct (RecoverPubkey _ _) as [[|x pub] [e|]]; done.
Qed.

(** Whatever the values are, nothing goes out of range; an address comes out only
    for valid ones. *)
Lemma recoverPlain_sound h r s vb : ∃ res, recoverPlain keccak h r s vb true = Ret res ∧
  ∀ a, res = inl a → (Z.abs vb = 27 ∨ Z.abs vb = 28) ∧ 1 ≤ r < secp256k1_N ∧ 1 ≤ s ≤ secp256k1_halfN.
Proof.
  unfold recoverPlain. destruct (BitLen vb >? 8) eqn:Eb; [by exists (inr ErrInvalidSig)|]. rewrite Z.gtb_ltb in Eb. apply Z.ltb_ge in Eb.
  set (v := u64 (Uint64 vb - 27) mod 256). destruct (ValidateSignatureValues v r s true) eqn:Ev; cbn [negb]; [|by exists (inr ErrInvalidSig)].
  apply Validate_bounds in Ev as (Hv & Hr & Hs). assert (secp256k1_halfN < secp256k1_N) as Hh by done.
  rewrite copy_r by (split; [lia|apply order_fits; lia]). cbn [mbind outcome_bind].
  rewrite copy_s by (split; [lia|apply order_fits; lia]). cbn [mbind outcome_bind].
  assert (Hvb : Z.abs vb = 27 ∨ Z.abs vb = 28).
  { pose proof (BitLen_spec (Z.abs vb) ltac:(lia)) as Hb. assert (BitLen (Z.abs vb) = BitLen vb) as El.
    { unfold BitLen. rewrite Z.abs_involutive. by destruct (Z.eqb_spec (Z.abs vb) 0), (Z.eqb_spec vb 0); try lia. }
    rewrite El in Hb. assert (2 ^ BitLen vb ≤ 2 ^ 8) by (apply Z.pow_le_mono_r; lia). change (2 ^ 8) with 256 in *.
    unfold v, Uint64 in Hv. rewrite (u64_small (Z.abs vb)) in Hv by (unfold is_u64; lia). unfold u64 in Hv.
    change (2 ^ 64) with 18446744073709551616 in Hv. Z.div_mod_to_equations. lia. }
  destruct (secp_Ecrecover _ _) as [[|x pub] [e|]]; [| | |destruct (negb _)].
  all: eexists; (split; [reflexivity|]); intros a Ha; first [discriminate Ha|exact (conj Hvb (conj Hr Hs))].
Qed.
End Recover.

(** ** The sender *)

Lemma derived_V v c : 0 ≤ v → deriveChainId v = c → Z.abs (v - 2 * c - 8) = 27 ∨ Z.abs (v - 2 * c - 8) = 28 → v = 35 + 2 * c ∨ v = 36 + 2 * c.
Proof.
  intros Hv. unfold deriveChainId, bigDiv, Uint64. change (Z.abs 2) with 2. change (Z.sgn 2) with 1. rewrite (Z.abs_eq v) by done.
  pose proof (BitLen_spec v Hv) as Hb. destruct (Z.leb_spec (BitLen v) 64) as [Hl|Hl]; intros <- Ha; [|Z.div_mod_to_equations; lia].
  assert (2 ^ BitLen v ≤ 2 ^ 64) by (apply Z.pow_le_mono_r; lia). rewrite (u64_small v) in * by (unfold is_u64; lia).
  unfold u64 in *. change (2 ^ 64) with 18446744073709551616 in *. Z.div_mod_to_equations. lia.
Qed.

Lemma chain_of_V v c e : v = 35 + 2 * c + e → 0 ≤ c → 0 ≤ e ≤ 1 → deriveChainId v = c.
Proof.
  intros -> Hc He. unfold deriveChainId, bigDiv, Uint64. change (Z.abs 2) with 2. change (Z.sgn 2) with 1. rewrite Z.abs_eq by lia.
  pose proof (BitLen_spec (35 + 2 * c + e) ltac:(lia)) as Hb.
  destruct (Z.leb_spec (BitLen (35 + 2 * c + e)) 64) as [Hl|Hl]; [|Z.div_mod_to_equations; lia].
  assert (2 ^ BitLen (35 + 2 * c + e) ≤ 2 ^ 64) by (apply Z.pow_le_mono_r; lia). rewrite (u64_small (35 + 2 * c + e)) by (unfold is_u64; lia).
  rewrite u64_small by (unfold is_u64; lia). Z.div_mod_to_equations. lia.
Qed.

Section Senders.
Context (keccak : bytes → hash) `{SECP : Secp256k1}.

(** A transaction remembers a sender only as its signer found it. *)
Definition cache_ok (tx : Transaction) : Prop :=
  ∀ s a, tx_from tx = Some (s, a) → signer_ok s ∧ signer_Sender keccak s tx = Ret (inl a).

(** The values of a signature that is accepted for chain [c]. *)
Definition valid_signature (c : Z) (d : txdata) : Prop :=
  (tx_V d = 35 + 2 * c ∨ tx_V d = 36 + 2 * c) ∧ 1 ≤ tx_R d < secp256k1_N ∧ 1 ≤ tx_S d ≤ secp256k1_halfN.

Lemma signer_Sender_sound s tx : signer_ok s → sig_ok (chainId s) (data tx) → 0 ≤ tx_V (data tx) →
  ∃ res, signer_Sender keccak s tx = Ret res ∧ ∀ a, res = inl a → valid_signature (chainId s) (data tx).
Proof.
  intros Hs Hd HV. unfold signer_Sender. destruct (Z.eqb_spec (ChainId tx) (chainId s)) as [Hc|Hc]; cbn [negb]; [|by exists (inr ErrInvalidChainId)].
  rewrite signer_Hash_rlp by done. cbn [mbind outcome_bind].
  destruct (recoverPlain_sound keccak (keccak (sig_rlp (chainId s) (data tx))) (tx_R (data tx)) (tx_S (data tx)) (tx_V (data tx) - chainIdMul s - 8)) as (res & E & H).
  exists res. split; [exact E|]. intros a Ha. destruct (H a Ha) as (Hv & Hr). split; [|exact Hr]. rewrite Hs in Hv. by apply derived_V.
Qed.

Lemma signer_Sender_same s s' tx : signer_ok s → signer_ok s' → chainId s = chainId s' → signer_Sender keccak s tx = signer_Sender keccak s' tx.
Proof. unfold signer_ok. destruct s, s'. simpl. intros -> -> ->. done. Qed.

Lemma signer_Sender_data s tx tx' : data tx = data tx' → signer_Sender keccak s tx = signer_Sender keccak s tx'.
Proof. intros E. unfold signer_Sender, ChainId, signer_Hash. by rewrite E. Qed.

Lemma Sender_cached s tx : signer_ok s → cache_ok tx →
  Sender keccak s tx = res ← signer_Sender keccak s tx;
    Ret (res, match res, tx_from tx with inl a, Some (s', _) => if signer_Equal s' s then tx else tx <| tx_from := Some (s, a) |> | inl a, None => tx <| tx_from := Some (s, a) |> | inr _, _ => tx end).
Proof.
  intros Hs Hc. unfold Sender. destruct (tx_from tx) as [[s' a]|] eqn:Ef; [|by destruct (signer_Sender keccak s tx) as [[a|e]|]].
  destruct (signer_Equal s' s) eqn:Eq; [|by destruct (signer_Sender keccak s tx) as [[a'|e]|]].
  destruct (Hc s' a Ef) as [Hs' E]. apply Z.eqb_eq in Eq. by rewrite (signer_Sender_same s s' tx Hs Hs' Eq), E.
Qed.

(** A message comes from the sender of its transaction and carries its content. *)
Lemma AsMessage_from `{JSON : TxJson} s tx msg tx' : AsMessage keccak s tx = Ret (inl msg, tx') →
  Sender keccak s tx = Ret (inl (m_From msg), tx') ∧ m_To msg = Recipient (data tx) ∧ m_Nonce msg = AccountNonce (data tx) ∧ m_Value msg = Amount (data tx) ∧
  m_Gas msg = GasLimit (data tx) ∧ m_GasPrice msg = Price (data tx) ∧ m_Data msg = Payload (data tx) ∧ m_Action msg = Action (data tx) ∧ m_CheckNonce msg = true.
Proof.
  unfold AsMessage. intros E.
  do 2 match type of E with (match ?x with inl _ => _ | inr _ => _ end) = _ => destruct x; [|discriminate E] end.
  destruct (Sender keccak s tx) as [[[a|e] tx1]|]; [|discriminate E..]. cbn [mbind outcome_bind] in E. by injection E as <- <-.
Qed.

(** The address whose key the 65 bytes of the signature belong to, if there is one. *)
Definition recovered (c : Z) (d : txdata) : option address :=
  match RecoverPubkey (hash_bytes (keccak (sig_rlp c d))) (be_bytes 32 (tx_R d) ++ be_bytes 32 (tx_S d) ++ [byte_of (tx_V d - 35 - 2 * c)]) with
  | (x :: rest, None) => if byte_val x =? 4 then Some (pub_address keccak rest) else None
  | _ => None
  end.

Lemma signer_Sender_valid s tx : signer_ok s → sig_ok (chainId s) (data tx) → valid_signature (chainId s) (data tx) →
  ∃ res, signer_Sender keccak s tx = Ret res ∧ ∀ a, res = inl a ↔ recovered (chainId s) (data tx) = Some a.
Proof.
  intros Hs Hd (HV & Hr & Hsv). unfold signer_Sender.
  assert (ChainId tx = chainId s) as ->.
  { destruct HV as [HV|HV]; [apply (chain_of_V _ _ 0)|apply (chain_of_V _ _ 1)]; try lia; apply Hd. }
  rewrite Z.eqb_refl. cbn [negb]. rewrite signer_Hash_rlp by done. cbn [mbind outcome_bind]. rewrite Hs, recoverPlain_valid by lia. unfold recovered.
  replace (tx_V (data tx) - 2 * chainId s - 8 - 27) with (tx_V (data tx) - 35 - 2 * chainId s) by lia.
  destruct (RecoverPubkey _ _) as [[|x rest] [err|]]; [| | |destruct (byte_val x =? 4)]; cbn [negb]; eexists; (split; [reflexivity|]); intros a; split; congruence.
Qed.

(** C19: the sender is what the signature says.  For every transaction that can be
    encoded for the signer's chain and whose cache was filled by [Sender], [Sender]
    returns - it never goes out of range.  It gives an address exactly when [V] is one
    of the two values of the signer's chain, [R] is positive and below the order of the
    curve, [S] positive and in its lower half - a second signature made by negating [S]
    is refused - and recovery of the key from these values gives that address.  Then
    the transaction remembers the address for the chain; otherwise it is as before.  Its
    content stays, and what it remembers stays right. *)
Theorem sender_correct (s : AuroraSigner) (tx : Transaction) :
  signer_ok s → sig_ok (chainId s) (data tx) → 0 ≤ tx_V (data tx) → cache_ok tx →
  ∃ res tx', Sender keccak s tx = Ret (res, tx') ∧ data tx' = data tx ∧ cache_ok tx' ∧
    (∀ a, res = inl a ↔ valid_signature (chainId s) (data tx) ∧ recovered (chainId s) (data tx) = Some a) ∧
    (∀ a, res = inl a → ∃ s', tx_from tx' = Some (s', a) ∧ chainId s' = chainId s) ∧ (∀ err, res = inr err → tx' = tx).
Proof.
  intros Hs Hd HV Hc. rewrite Sender_cached by done. destruct (signer_Sender_sound s tx Hs Hd HV) as (res & E & Hres). rewrite E.
  cbn [mbind outcome_bind]. eexists res, _. split; [reflexivity|].
  assert (Hiff : ∀ a, res = inl a ↔ valid_signature (chainId s) (data tx) ∧ recovered (chainId s) (data tx) = Some a).
  { intros a. split.
    - intros Ha. pose proof (Hres a Ha) as Hv. split; [done|]. destruct (signer_Sender_valid s tx Hs Hd Hv) as (res' & E' & H').
      apply H'. congruence.
    - intros [Hv Ha]. destruct (signer_Sender_valid s tx Hs Hd Hv) as (res' & E' & H'). apply H' in Ha. congruence. }
  assert (Hnew : ∀ a, res = inl a → cache_ok (tx <| tx_from := Some (s, a) |>)).
  { intros a -> s0 a0 [= <- <-]. split; [done|]. by rewrite <- E. }
  destruct res as [a|e]; [|by split_and!].
  assert (Hset : ∃ s', tx_from (tx <| tx_from := Some (s, a) |>) = Some (s', a) ∧ chainId s' = chainId s) by (by exists s).
  destruct (tx_from tx) as [[s' a']|] eqn:Ef; [destruct (signer_Equal s' s) eqn:Eq|]; (split_and!; [done|by auto|done| |done]);
    intros a0 [= <-]; try exact Hset.
  exists s'. apply Z.eqb_eq in Eq. destruct (Hc s' a' Ef) as [Hs' E']. rewrite (signer_Sender_same s s' tx Hs Hs' Eq), E' in E.
  rewrite Ef. split; congruence.
Qed.
End Senders.

Section Signed.
Context (keccak : bytes → hash) `{SECP : Secp256k1} `{LAWS : !SecpLaws}.

(** A transaction signed with the values [r], [s], [v] for the signer's chain. *)
Definition signed (tx : Transaction) (c r s v : Z) : Transaction :=
  mkTx ((data tx) <| tx_R := r |> <| tx_S := s |> <| tx_V := v + 35 + 2 * c |>) None None None.

Lemma WithSignature_signed s tx r sv v : signer_ok s → chainId s ≠ 0 → 0 ≤ r < 256 ^ Z.of_nat 32 → 0 ≤ sv < 256 ^ Z.of_nat 32 → 0 ≤ v ≤ 1 →
  WithSignature s (be_bytes 32 r ++ be_bytes 32 sv ++ [byte_of v]) tx = Ret (signed tx (chainId s) r sv v).
Proof.
  intros Hs Hc Hr Hsv Hv. unfold WithSignature, SignatureValues, signatureValues. rewrite !length_app, !length_be_bytes. cbn [Nat.add length Nat.eqb negb].
  rewrite take_app_length' by (by rewrite length_be_bytes). rewrite drop_app_length' by (by rewrite length_be_bytes).
  rewrite take_app_length' by (by rewrite length_be_bytes). rewrite !be_val_be_bytes_id by done.
  rewrite app_assoc, app_nth2 by (rewrite length_app, !length_be_bytes; lia). rewrite length_app, !length_be_bytes. cbn [Nat.add Nat.sub nth mbind outcome_bind].
  rewrite (proj2 (Z.eqb_neq _ 0)) by done. cbn [negb]. rewrite byte_val_of, (Z.mod_small v), Z.mod_small, Hs by lia.
  by replace (v + 27 + 8 + 2 * chainId s) with (v + 35 + 2 * chainId s) by lia.
Qed.

Lemma signed_unsigned tx c r s v : unsigned (data (signed tx c r s v)) = unsigned (data tx).
Proof. by destruct tx as [[]]. Qed.

Lemma sig_rlp_unsigned c d d' : unsigned d = unsigned d' → sig_rlp c d = sig_rlp c d'.
Proof. intros E. unfold sig_rlp, sig_val. destruct d, d'. cbn in *. by injection E as -> -> -> -> -> -> -> -> -> -> -> -> ->. Qed.

Lemma sig_ok_unsigned c d d' : unsigned d = unsigned d' → sig_ok c d → sig_ok c d'.
Proof.
  intros E [H1 H2 H3 H4 H5 H6 H7]. rewrite (sig_rlp_unsigned c d d' E) in H7. destruct d, d'. cbn in *.
  injection E as -> -> -> -> -> -> -> -> -> -> -> -> ->. by split.
Qed.

(** C18: signing and recovering agree.  A transaction signed with a key for a chain
    with a positive id keeps its content; every signer of that chain recovers from it the address of the
    key, the first time and again from the cache, and so does the message made of it;
    and a signer of any other chain refuses it. *)
Theorem signed_sender `{JSON : TxJson} (s : AuroraSigner) (tx : Transaction) (prv : PrivateKey) :
  signer_ok s → 0 < chainId s → sig_ok (chainId s) (data tx) → key_ok prv →
  ∃ tx' tx'' a, SignTx keccak tx s prv = Ret (inl tx') ∧ unsigned (data tx') = unsigned (data tx) ∧
    PubkeyToAddress keccak (prv_PublicKey prv) = Ret a ∧ Sender keccak s tx' = Ret (inl a, tx'') ∧ data tx'' = data tx' ∧
    (∀ s2, signer_ok s2 → chainId s2 = chainId s → Sender keccak s2 tx'' = Ret (inl a, tx'')) ∧
    (∀ msg tx3, AsMessage keccak s tx' = Ret (inl msg, tx3) → m_From msg = a) ∧
    (∀ s2, chainId s2 ≠ chainId s → Sender keccak s2 tx'' = Ret (inr ErrInvalidChainId, tx'')).
Proof.
  intros Hs Hc Hd Hk. set (h := keccak (sig_rlp (chainId s) (data tx))).
  destruct (Sign_recovers (hash_bytes h) prv Hk) as (r & sv & v & x & y & Hp & Hpt & ES & Hr & Hsv & Hv & ER); [apply length_be_bytes|].
  assert (secp256k1_halfN < secp256k1_N) as Hh by done. set (tx' := signed tx (chainId s) r sv v).
  assert (E1 : SignTx keccak tx s prv = Ret (inl tx')).
  { unfold SignTx. rewrite signer_Hash_rlp by done. cbn [mbind outcome_bind]. fold h. rewrite ES.
    rewrite WithSignature_signed; [done|done|lia|split; [lia|apply order_fits; lia]|split; [lia|apply order_fits; lia]|done]. }
  assert (Hch : ChainId tx' = chainId s) by (apply (chain_of_V _ _ v); [cbn; lia|lia|lia]).
  assert (Ea : signer_Sender keccak s tx' = Ret (inl (point_address keccak x y))).
  { unfold signer_Sender. rewrite Hch, Z.eqb_refl. cbn [negb].
    rewrite signer_Hash_rlp by (apply (sig_ok_unsigned _ (data tx)); [by rewrite <- (signed_unsigned tx (chainId s) r sv v)|done]). cbn [mbind outcome_bind].
    rewrite (sig_rlp_unsigned _ _ (data tx)) by apply signed_unsigned. fold h. cbn [tx' signed data tx_R tx_S tx_V upd]. rewrite Hs.
    replace (v + 35 + 2 * chainId s - 2 * chainId s - 8) with (v + 27) by lia. rewrite recoverPlain_valid by lia. by rewrite Z.add_simpl_r, ER. }
  assert (E2 : Sender keccak s tx' = Ret (inl (point_address keccak x y), tx' <| tx_from := Some (s, point_address keccak x y) |>)) by (unfold Sender; cbn [tx_from tx' signed]; fold tx'; by rewrite Ea).
  exists tx', (tx' <| tx_from := Some (s, point_address keccak x y) |>), (point_address keccak x y). destruct Hpt as (Hx & Hy & _). split_and!; [done|apply signed_unsigned| |done|done| | |].
  - rewrite Hp. by apply PubkeyToAddress_point; apply curve_P_fits.
  - intros s2 _ E. unfold Sender. cbn [tx_from upd]. unfold signer_Equal. by rewrite E, Z.eqb_refl.
  - intros msg tx3 E. apply AsMessage_from in E as [E _]. rewrite E2 in E. by injection E.
  - intros s2 Hne. unfold Sender. cbn [tx_from upd]. unfold signer_Equal. rewrite (proj2 (Z.eqb_neq _ _)) by done.
    unfold signer_Sender. match goal with |- context [ChainId ?t =? _] => change (ChainId t) with (ChainId tx') end. rewrite Hch. by rewrite (proj2 (Z.eqb_neq (chainId s) (chainId s2))) by congruence.
Qed.
End Signed.

(** ** Examples *)

Definition sample_signer : AuroraSigner := mkSigner 60 120.
Definition sample_json : TxJson := {| BytesToVote _ := inl []; BytesToAssetInfo _ := inr EmptyString |}.
Lemma sample_sig_ok : sig_ok (chainId sample_signer) (data sample_tx).
Proof. split; by vm_compute. Qed.

Lemma signing_hash_binds_witness :
  chainId sample_signer = chainId sample_signer ∧ unsigned (data sample_tx) = unsigned (data (signed sample_tx 60 5 6 1)).
Proof.
  destruct (signer_Hash toy_keccak sample_signer sample_tx) as [h|] eqn:E; [|by vm_compute in E].
  apply (signing_hash_binds toy_keccak sample_signer sample_signer sample_tx (signed sample_tx 60 5 6 1) h);
    [exact sample_sig_ok|split; by vm_compute|by vm_compute|exact E|exact E].
Defined.

Lemma sender_correct_witness :
  ∃ a tx', @Sender toy_keccak toy_secp sample_signer (signed sample_tx 60 1 1 0) = Ret (inl a, tx') ∧ valid_signature 60 (data (signed sample_tx 60 1 1 0)) ∧
    ∃ s', tx_from tx' = Some (s', a) ∧ chainId s' = 60.
Proof.
  destruct (@sender_correct toy_keccak toy_secp sample_signer (signed sample_tx 60 1 1 0)) as (res & tx' & E & _ & _ & H & Hc & _);
    [done|split; by vm_compute|done|done|].
  destruct res as [a|e]; [exists a, tx'; split; [done|]; split; [by apply (H a)|by apply Hc]|]. by vm_compute in E.
Defined.

Lemma signed_sender_witness : ∃ tx' tx'' a, @SignTx toy_keccak toy_secp sample_tx sample_signer toy_key = Ret (inl tx') ∧
  @Sender toy_keccak toy_secp sample_signer tx' = Ret (inl a, tx'').
Proof.
  destruct (@signed_sender toy_keccak toy_secp toy_secp_laws sample_json sample_signer sample_tx toy_key) as (tx' & tx'' & a & H1 & _ & _ & H2 & _);
    [done|done|exact sample_sig_ok|exact toy_key_ok|]. by exists tx', tx'', a.
Defined.
