(* ===== verification/Bloom.v ===== *)
(** * Logs, receipts and bloom filters ([core/types/log.go], [receipt.go],
    [bloom9.go], [aoa/filters/filter.go])

    The filter of a block's logs, and the search for logs that skips blocks by it. *)

From S2P Require Import Prelude Interfaces StateTypes Hex VmData RlpRead RlpLayout Secp.
From S2P Require Import RlpRoundtrip.

(** ** Receipts *)

Definition ReceiptStatusFailed : Z := 0.
Definition ReceiptStatusSuccessful : Z := 1.

Record Receipt : Type := mkReceipt {
  PostState : bytes;
  Status : Z;
  CumulativeGasUsed : Z;
  rc_Bloom : bytes;
  rc_Logs : list Log;
  rc_TxHash : hash;
  ContractAddress : address;
  rc_GasUsed : Z;
  rc_Action : Z
}.
#[export] Instance Receipt_eta : Eta Receipt := λ r,
  mkReceipt (PostState r) (Status r) (CumulativeGasUsed r) (rc_Bloom r) (rc_Logs r) (rc_TxHash r) (ContractAddress r) (rc_GasUsed r) (rc_Action r).

(** ** Filters *)

(** [Bloom] is an array of 256 bytes. *)
Definition BloomByteLength : nat := 256.
Definition zero_bloom : bytes := replicate BloomByteLength (byte_of 0).

Definition NewReceipt (root : bytes) (failed : bool) (cumulativeGasUsed : Z) : Receipt :=
  mkReceipt root (if failed then ReceiptStatusFailed else ReceiptStatusSuccessful) cumulativeGasUsed zero_bloom [] hash0 address0 0 0.

Definition Bloom_SetBytes (b d : bytes) : outcome bytes :=
  if (BloomByteLength <? length d)%nat then Panic "bloom bytes too big"
  else Ret (take (BloomByteLength - length d) b ++ d).
Definition BytesToBloom (d : bytes) : outcome bytes := Bloom_SetBytes zero_bloom d.
Definition Big (b : bytes) : Z := be_val b.

Section Bloom.
Context (keccak : bytes → hash).

Definition bloom9_bit (h : bytes) (i : nat) : Z :=
  Z.land (byte_val (nth (i + 1) h (byte_of 0)) + Z.shiftl (byte_val (nth i h (byte_of 0))) 8) 2047.
Definition bloom9 (b : bytes) : Z :=
  let h := hash_bytes (keccak b) in
  foldl (λ r i, Z.lor r (Z.shiftl 1 (bloom9_bit h i))) 0 [0; 2; 4]%nat.

Definition Bloom_Add (b : bytes) (d : Z) : outcome bytes := Bloom_SetBytes b (big_Bytes (Z.lor (be_val b) (bloom9 (big_Bytes d)))).

Definition log_bloom (bin : Z) (log : Log) : Z :=
  foldl (λ bin t, Z.lor bin (bloom9 (hash_bytes t))) (Z.lor bin (bloom9 (address_bytes (log_Address log)))) (log_Topics log).
Definition LogsBloom (logs : list Log) : Z := foldl log_bloom 0 logs.
Definition CreateBloom (receipts : list Receipt) : outcome bytes :=
  BytesToBloom (big_Bytes (foldl (λ bin receipt, Z.lor bin (LogsBloom (rc_Logs receipt))) 0 receipts)).

(** The topic by its bytes. *)
Definition BloomLookup (bin : bytes) (topic : bytes) : bool :=
  let cmp := bloom9 topic in Z.land (Big bin) cmp =? cmp.
Definition Bloom_Test (b : bytes) (test : Z) : bool := BloomLookup b (big_Bytes test).
Definition Bloom_TestBytes (b test : bytes) : bool := Bloom_Test b (be_val test).

(** ** Searching ([filter.go]) *)

Definition includes (addresses : list address) (a : address) : bool := existsb (λ addr, bool_decide (addr = a)) addresses.

(** One criterion per position; an empty one admits everything.  The caller has
    compared the lengths. *)
Fixpoint topics_match (topics : list (list hash)) (logged : list hash) : bool :=
  match topics, logged with
  | [], _ => true
  | rule :: topics, t :: logged => ((length rule =? 0)%nat || existsb (λ topic, bool_decide (t = topic)) rule) && topics_match topics logged
  | _ :: _, [] => false
  end.

Definition log_matches (fromBlock toBlock : option Z) (addresses : list address) (topics : list (list hash)) (log : Log) : bool :=
  if match fromBlock with Some n => (Int64 n >=? 0) && (Uint64 n >? log_BlockNumber log) | None => false end then false
  else if match toBlock with Some n => (Int64 n >=? 0) && (Uint64 n <? log_BlockNumber log) | None => false end then false
  else if (0 <? length addresses)%nat && negb (includes addresses (log_Address log)) then false
  else if (length (log_Topics log) <? length topics)%nat then false
  else topics_match topics (log_Topics log).
Definition filterLogs (logs : list Log) (fromBlock toBlock : option Z) (addresses : list address) (topics : list (list hash)) : list Log :=
  List.filter (log_matches fromBlock toBlock addresses topics) logs.

Definition bloomFilter (bloom : bytes) (addresses : list address) (topics : list (list hash)) : bool :=
  if (0 <? length addresses)%nat && negb (existsb (λ addr, BloomLookup bloom (address_bytes addr)) addresses) then false
  else forallb (λ sub, (length sub =? 0)%nat || existsb (λ topic, BloomLookup bloom (hash_bytes topic)) sub) topics.

(** The chain behind the search: a header is its hash and its filter. *)
Record Backend : Type := mkBackend {
  HeaderByNumber : Z → option (hash * bytes) * option gerror;
  GetReceipts : hash → list Receipt + gerror
}.

Definition checkMatches (bk : Backend) (addresses : list address) (topics : list (list hash)) (header : hash) : list Log + gerror :=
  match GetReceipts bk header with
  | inr err => inr err
  | inl receipts => inl (filterLogs (concat (rc_Logs <$> receipts)) None None addresses topics)
  end.

(** The loop from [f.begin] on; the logs, the error and the new beginning. *)
Fixpoint unindexed_loop (bk : Backend) (addresses : list address) (topics : list (list hash)) (fuel : nat) (begin end_ : Z) (logs : list Log)
    : list Log * option gerror * Z :=
  match fuel with
  | O => (logs, None, begin)
  | S fuel =>
    if begin >? end_ then (logs, None, begin)
    else match HeaderByNumber bk begin with
         | (None, err) | (Some _, Some _ as err) => (logs, err, begin)
         | (Some (h, bloom), None) =>
           if bloomFilter bloom addresses topics then
             match checkMatches bk addresses topics h with
             | inr err => (logs, Some err, begin)
             | inl found => unindexed_loop bk addresses topics fuel (i64 (begin + 1)) end_ (logs ++ found)
             end
           else unindexed_loop bk addresses topics fuel (i64 (begin + 1)) end_ logs
         end
  end.
Definition unindexedLogs (bk : Backend) (addresses : list address) (topics : list (list hash)) (begin end_ : Z) : list Log * option gerror * Z :=
  unindexed_loop bk addresses topics (Z.to_nat (i64 end_ - begin + 1)) begin (i64 end_) [].
End Bloom.

(** ** What a filter holds *)

Section Holds.
Context (keccak : bytes → hash).

(** All bits of [y] are set in [x]. *)
Definition covers (x y : Z) : Prop := Z.land x y = y.

Lemma covers_refl x : covers x x.
Proof. apply Z.land_diag. Qed.
Lemma covers_bits x y : covers x y ↔ ∀ n, 0 ≤ n → Z.testbit y n = true → Z.testbit x n = true.
Proof.
  split.
  - intros H n Hn Hy. rewrite <- H, Z.land_spec in Hy. by apply andb_true_iff in Hy as [? _].
  - intros H. apply Z.bits_inj'. intros n Hn. rewrite Z.land_spec. specialize (H n Hn). destruct (Z.testbit y n); [by rewrite H|by rewrite andb_false_r].
Qed.
Lemma covers_lor_l x y z : covers x z → covers (Z.lor x y) z.
Proof. rewrite !covers_bits. intros H n Hn Hz. rewrite Z.lor_spec, (H n Hn Hz). done. Qed.
Lemma covers_lor_r x y z : covers y z → covers (Z.lor x y) z.
Proof. rewrite !covers_bits. intros H n Hn Hz. rewrite Z.lor_spec, (H n Hn Hz). by rewrite orb_true_r. Qed.

(** A loop that ors into its accumulator keeps what it has, and covers every part. *)
Lemma foldl_covers {A} (f : Z → A → Z) l x z : (∀ x a, covers x z → covers (f x a) z) → covers x z → covers (foldl f x l) z.
Proof. intros Hf. revert x. induction l as [|a l IH]; intros x Hx; [done|]. apply IH. by apply Hf. Qed.
Lemma foldl_covers_elem {A} (f : Z → A → Z) l x z a : (∀ x a, covers x z → covers (f x a) z) → (∀ x, covers (f x a) z) → a ∈ l → covers (foldl f x l) z.
Proof.
  intros Hf Ha Hin. revert x. induction Hin as [a l|a b l _ IH]; intros x; [|by apply IH]. cbn [foldl]. apply foldl_covers; [exact Hf|apply Ha].
Qed.

Lemma log_bloom_keeps log x z : covers x z → covers (log_bloom keccak x log) z.
Proof. intros H. unfold log_bloom. apply foldl_covers; intros; by apply covers_lor_l. Qed.
Lemma log_bloom_address log x : covers (log_bloom keccak x log) (bloom9 keccak (address_bytes (log_Address log))).
Proof. unfold log_bloom. apply foldl_covers; [intros; by apply covers_lor_l|]. apply covers_lor_r, covers_refl. Qed.
Lemma log_bloom_topic log x t : t ∈ log_Topics log → covers (log_bloom keccak x log) (bloom9 keccak (hash_bytes t)).
Proof. intros Ht. unfold log_bloom. eapply foldl_covers_elem; [intros; by apply covers_lor_l| |exact Ht]. intros y. apply covers_lor_r, covers_refl. Qed.

(** What a log is found by. *)
Definition log_keys (log : Log) : list bytes := address_bytes (log_Address log) :: (hash_bytes <$> log_Topics log).

Lemma log_bloom_key log x k : k ∈ log_keys log → covers (log_bloom keccak x log) (bloom9 keccak k).
Proof.
  intros [->|Hk]%elem_of_cons; [apply log_bloom_address|]. apply list_elem_of_fmap in Hk as (t & -> & Ht). by apply log_bloom_topic.
Qed.
Lemma LogsBloom_key logs log k : log ∈ logs → k ∈ log_keys log → covers (LogsBloom keccak logs) (bloom9 keccak k).
Proof. intros Hl Hk. unfold LogsBloom. eapply foldl_covers_elem; [intros; by apply log_bloom_keeps| |exact Hl]. intros x. by apply log_bloom_key. Qed.

(** ** Sizes *)

Lemma land_2047 x : 0 ≤ Z.land x 2047 < 2048.
Proof. change 2047 with (Z.ones 11). rewrite Z.land_ones by done. by apply Z.mod_pos_bound. Qed.

Lemma lor_bound n x y : 0 ≤ n → 0 ≤ x < 2 ^ n → 0 ≤ y < 2 ^ n → 0 ≤ Z.lor x y < 2 ^ n.
Proof.
  intros Hn Hx Hy. split; [apply Z.lor_nonneg; lia|].
  destruct (Z.eq_dec (Z.lor x y) 0) as [->|H0]; [by apply Z.pow_pos_nonneg|]. assert (0 ≤ Z.lor x y) by (apply Z.lor_nonneg; lia).
  apply Z.log2_lt_pow2; [lia|]. rewrite Z.log2_lor by lia.
  assert (∀ z, 0 ≤ z < 2 ^ n → Z.log2 z < n ∨ z = 0) as L.
  { intros z Hz. destruct (Z.eq_dec z 0); [by right|left]. apply Z.log2_lt_pow2; lia. }
  assert (n ≠ 0) as Hn0 by (intros ->; change (2 ^ 0) with 1 in *; assert (x = 0) as -> by lia; assert (y = 0) as -> by lia; done).
  destruct (L x Hx) as [?| ->], (L y Hy) as [?| ->]; change (Z.log2 0) with 0; lia || by destruct H0.
Qed.

Lemma bloom9_bound b : 0 ≤ bloom9 keccak b < 2 ^ 2048.
Proof.
  unfold bloom9. cbn [foldl]. assert (∀ h i, 0 ≤ Z.shiftl 1 (bloom9_bit h i) < 2 ^ 2048) as B.
  { intros h i. pose proof (land_2047 (byte_val (nth (i + 1) h (byte_of 0)) + Z.shiftl (byte_val (nth i h (byte_of 0))) 8)) as H. fold (bloom9_bit h i) in H.
    rewrite Z.shiftl_1_l. split; [apply Z.pow_nonneg; lia|apply Z.pow_lt_mono_r; lia]. }
  repeat apply lor_bound; try done; apply B.
Qed.

Lemma foldl_bound {A} (f : Z → A → Z) l x : (∀ x a, 0 ≤ x < 2 ^ 2048 → 0 ≤ f x a < 2 ^ 2048) → 0 ≤ x < 2 ^ 2048 → 0 ≤ foldl f x l < 2 ^ 2048.
Proof. intros Hf. revert x. induction l as [|a l IH]; intros x Hx; [done|]. by apply IH, Hf. Qed.

Lemma LogsBloom_bound logs : 0 ≤ LogsBloom keccak logs < 2 ^ 2048.
Proof.
  apply foldl_bound; [|done]. intros x log Hx. unfold log_bloom. apply foldl_bound; [intros; apply lor_bound; [done|done|apply bloom9_bound]|].
  apply lor_bound; [done|done|apply bloom9_bound].
Qed.

(** ** Filters of blocks *)

Lemma BytesToBloom_big x : 0 ≤ x < 2 ^ 2048 → BytesToBloom (big_Bytes x) = Ret (be_bytes 256 x).
Proof.
  intros Hx. change (2 ^ 2048) with (256 ^ Z.of_nat 256) in Hx. pose proof (length_big_Bytes 256 x Hx). unfold BytesToBloom, Bloom_SetBytes, zero_bloom, BloomByteLength.
  rewrite (proj2 (Nat.ltb_ge _ _)) by done. by rewrite take_replicate, Nat.min_l, big_pad by lia.
Qed.

Definition receipts_bloom (receipts : list Receipt) : Z := foldl (λ bin receipt, Z.lor bin (LogsBloom keccak (rc_Logs receipt))) 0 receipts.

Lemma receipts_bloom_bound receipts : 0 ≤ receipts_bloom receipts < 2 ^ 2048.
Proof. apply foldl_bound; [|done]. intros. apply lor_bound; [done|done|apply LogsBloom_bound]. Qed.

Lemma CreateBloom_big receipts : CreateBloom keccak receipts = Ret (be_bytes 256 (receipts_bloom receipts)).
Proof. apply BytesToBloom_big, receipts_bloom_bound. Qed.

Lemma Big_bloom x : 0 ≤ x < 2 ^ 2048 → Big (be_bytes 256 x) = x.
Proof. intros Hx. by apply be_val_be_bytes_id. Qed.

(** Every log of every receipt is found in the filter. *)
Lemma CreateBloom_lookup receipts bloom log k : CreateBloom keccak receipts = Ret bloom → log ∈ concat (rc_Logs <$> receipts) → k ∈ log_keys log →
  BloomLookup keccak bloom k = true.
Proof.
  rewrite CreateBloom_big. intros E Hl Hk. assert (bloom = be_bytes 256 (receipts_bloom receipts)) as -> by congruence. unfold BloomLookup. rewrite Big_bloom by apply receipts_bloom_bound. apply Z.eqb_eq.
  apply list_elem_of_In, in_concat in Hl as (logs & Hr & Hl). apply list_elem_of_In, list_elem_of_fmap in Hr as (receipt & -> & Hr). apply list_elem_of_In in Hl.
  change (covers (receipts_bloom receipts) (bloom9 keccak k)). eapply foldl_covers_elem; [intros; by apply covers_lor_l| |exact Hr].
  intros x. apply covers_lor_r. by eapply LogsBloom_key.
Qed.

Lemma topics_match_lookup bloom topics : ∀ logged, (∀ t, t ∈ logged → BloomLookup keccak bloom (hash_bytes t) = true) →
  topics_match topics logged = true → forallb (λ sub, (length sub =? 0)%nat || existsb (λ topic, BloomLookup keccak bloom (hash_bytes topic)) sub) topics = true.
Proof.
  induction topics as [|rule topics IH]; intros [|t logged] Hl H; try done. cbn [topics_match forallb] in *.
  apply andb_true_iff in H as [H1 H2]. rewrite (IH logged), andb_true_r; [|intros t' Ht'; apply Hl; by right|done].
  apply orb_true_iff in H1. apply orb_true_iff. destruct H1 as [H1|H1]; [by left|right].
  apply existsb_exists in H1 as (topic & Hin & E). apply bool_decide_eq_true in E as ->. apply existsb_exists. exists topic. split; [done|]. apply Hl. by left.
Qed.

(** A block the filter rules out has no log that matches. *)
Lemma bloomFilter_complete receipts bloom addresses topics :
  CreateBloom keccak receipts = Ret bloom → bloomFilter keccak bloom addresses topics = false →
  filterLogs (concat (rc_Logs <$> receipts)) None None addresses topics = [].
Proof.
  intros Hb Hf. unfold filterLogs. set (logs := concat _) in *. assert (Hl : ∀ log, log ∈ logs → log_matches None None addresses topics log = false).
  2:{ clearbody logs. induction logs as [|log logs IH]; [done|]. cbn [List.filter]. rewrite (Hl log) by by left. apply IH. intros l Hin. apply Hl. by right. }
  intros log Hin. assert (Hk : ∀ k, k ∈ log_keys log → BloomLookup keccak bloom k = true) by (intros k; by apply (CreateBloom_lookup receipts)).
  unfold log_matches. unfold bloomFilter in Hf. cbn match. destruct (0 <? length addresses)%nat eqn:Ea; cbn [andb negb] in *.
  - destruct (includes addresses (log_Address log)) eqn:Ei; cbn [negb]; [|done].
    apply existsb_exists in Ei as (a & Ha & E). apply bool_decide_eq_true in E as ->.
    rewrite (proj2 (existsb_exists _ _)) in Hf by (exists (log_Address log); split; [done|apply Hk; by left]). cbn [negb] in Hf.
    destruct (length (log_Topics log) <? length topics)%nat; [reflexivity|]. destruct (topics_match topics (log_Topics log)) eqn:Et; [|reflexivity].
    rewrite (topics_match_lookup bloom topics (log_Topics log)) in Hf; [done| |done]. intros t Ht. apply Hk. right. by apply list_elem_of_fmap_2.
  - destruct (length (log_Topics log) <? length topics)%nat; [reflexivity|]. destruct (topics_match topics (log_Topics log)) eqn:Et; [|reflexivity].
    rewrite (topics_match_lookup bloom topics (log_Topics log)) in Hf; [done| |done]. intros t Ht. apply Hk. right. by apply list_elem_of_fmap_2.
Qed.
End Holds.

(** ** Searching by filter and searching everything *)

(** All logs of a block that match, found without its filter. *)
Definition matching_logs (bk : Backend) (addresses : list address) (topics : list (list hash)) (n : Z) : list Log :=
  match HeaderByNumber bk n with
  | (Some (h, _), None) => match GetReceipts bk h with inl rs => filterLogs (concat (rc_Logs <$> rs)) None None addresses topics | inr _ => [] end
  | _ => []
  end.

(** The chain has block [n], its receipts, and their filter in its header. *)
Definition block_served (keccak : bytes → hash) (bk : Backend) (n : Z) : Prop :=
  ∃ h bloom rs, HeaderByNumber bk n = (Some (h, bloom), None) ∧ GetReceipts bk h = inl rs ∧ CreateBloom keccak rs = Ret bloom.

Lemma unindexed_loop_all keccak bk addresses topics end_ : 0 ≤ end_ < 2 ^ 63 - 1 →
  ∀ fuel begin logs, 0 ≤ begin → Z.of_nat fuel = end_ - begin + 1 → (∀ n, begin ≤ n ≤ end_ → block_served keccak bk n) →
  unindexed_loop keccak bk addresses topics fuel begin end_ logs = (logs ++ concat (matching_logs bk addresses topics <$> seqZ begin (Z.of_nat fuel)), None, end_ + 1).
Proof.
  intros He. induction fuel as [|fuel IH]; intros begin logs Hb Hf Hs.
  { cbn [unindexed_loop]. rewrite (eq_refl : seqZ begin (Z.of_nat 0) = []), app_nil_r. f_equal. lia. }
  cbn [unindexed_loop]. rewrite Z.gtb_ltb, (proj2 (Z.ltb_ge end_ begin)) by lia.
  destruct (Hs begin) as (h & bloom & rs & Eh & Er & Ec); [lia|]. rewrite Eh. rewrite (i64_small (begin + 1)) by lia.
  rewrite seqZ_cons by lia. rewrite fmap_cons. cbn [concat]. replace (Z.pred (Z.of_nat (S fuel))) with (Z.of_nat fuel) by lia.
  assert (IHn : ∀ logs, unindexed_loop keccak bk addresses topics fuel (begin + 1) end_ logs = (logs ++ concat (matching_logs bk addresses topics <$> seqZ (Z.succ begin) (Z.of_nat fuel)), None, end_ + 1)).
  { intros l. apply IH; [lia|lia|]. intros n Hn. apply Hs. lia. }
  assert (matching_logs bk addresses topics begin = filterLogs (concat (rc_Logs <$> rs)) None None addresses topics) as Em by (unfold matching_logs; by rewrite Eh, Er).
  destruct (bloomFilter keccak bloom addresses topics) eqn:Ef.
  - unfold checkMatches. rewrite Er, IHn, Em. by rewrite <- app_assoc.
  - rewrite IHn, Em, (bloomFilter_complete keccak rs bloom) by done. done.
Qed.

(** C36: the filters lose nothing.  Searching blocks for the logs of some addresses
    with some topics, skipping every block whose filter rules it out, returns exactly
    the logs that searching all receipts would return, in order, and no error; the
    search ends one past the last block. *)
Theorem log_search_complete (keccak : bytes → hash) (bk : Backend) (addresses : list address) (topics : list (list hash)) (begin end_ : Z) :
  0 ≤ begin ≤ end_ + 1 → 0 ≤ end_ < 2 ^ 63 - 1 → (∀ n, begin ≤ n ≤ end_ → block_served keccak bk n) →
  unindexedLogs keccak bk addresses topics begin end_ =
  (concat (matching_logs bk addresses topics <$> seqZ begin (end_ - begin + 1)), None, end_ + 1).
Proof.
  intros Hb He Hs. unfold unindexedLogs. rewrite i64_small by lia. rewrite (unindexed_loop_all keccak bk addresses topics end_) by (done || lia).
  by rewrite Z2Nat.id by lia.
Qed.

Definition sample_log : Log := mkLog (to_word 160 5) [to_word 256 9; to_word 256 11] [] 0 hash0 0 hash0 0.
Definition other_log : Log := mkLog (to_word 160 6) [] [] 0 hash0 0 hash0 0.
Definition sample_receipt : Receipt := (NewReceipt [] false 100) <| rc_Logs := [sample_log; other_log] |>.
Definition sample_keccak (b : bytes) : hash := to_word 256 (be_val b).
Definition sample_backend : Backend :=
  mkBackend (λ n, (Some (hash0, match CreateBloom sample_keccak [sample_receipt] with Ret b => b | Panic _ => [] end), None)) (λ _, inl [sample_receipt]).

Lemma log_search_complete_witness :
  unindexedLogs sample_keccak sample_backend [to_word 160 5] [[]; [to_word 256 11]] 3 4 = ([sample_log; sample_log], None, 5).
Proof.
  rewrite (log_search_complete sample_keccak sample_backend [to_word 160 5] [[]; [to_word 256 11]] 3 4); [by vm_compute|lia|lia|].
  intros n _. eexists hash0, _, [sample_receipt]. split_and!; [reflexivity|reflexivity|by vm_compute].
Defined.
