(* ===== verification/Blocks.v ===== *)
(** * Headers, blocks and receipts ([core/types/block.go], [receipt.go], [log.go])

    Headers and their hashes, blocks and how they are put together, and the encodings
    of logs and receipts.  A block keeps its hash once it is computed.  A nil
    [*big.Int] is encoded like zero and counts as zero here. *)

From S2P Require Import Prelude Interfaces StateTypes Hex VmData Rlp RlpLayout RlpStream.
From S2P Require Import RlpRead RlpRoundtrip Secp TxData Bloom TrieNode TrieMap TrieClaims.
From S2P Require Import DeriveSha.

(** ** Headers *)

Record Header : Type := mkHeader {
  ParentHash : hash;
  Coinbase : address;
  Root : hash;
  TxHash : hash;
  ReceiptHash : hash;
  h_Bloom : bytes;
  Number : Z;
  h_GasLimit : Z;
  h_GasUsed : Z;
  Time : Z;
  Extra : bytes;
  AgentName : bytes;
  DelegateRoot : hash;
  ShuffleHash : hash;
  ShuffleBlockNumber : Z
}.
#[export] Instance Header_eta : Eta Header := λ h,
  mkHeader (ParentHash h) (Coinbase h) (Root h) (TxHash h) (ReceiptHash h) (h_Bloom h) (Number h) (h_GasLimit h) (h_GasUsed h) (Time h)
    (Extra h) (AgentName h) (DelegateRoot h) (ShuffleHash h) (ShuffleBlockNumber h).

Definition hash_type : gtype := TByteArray 32.
Definition header_fields : list (tags * gtype) := pair no_tags <$>
  [hash_type; TByteArray 20; hash_type; hash_type; hash_type; TByteArray 256; TBig; TUint 64; TUint 64; TBig; TBytes; TBytes; hash_type; hash_type; TBig].
Definition header_type : gtype := TStruct header_fields.
Definition hash_val (h : hash) : gval := VBytes (hash_bytes h).
Definition header_val (h : Header) : gval :=
  VList [hash_val (ParentHash h); VBytes (address_bytes (Coinbase h)); hash_val (Root h); hash_val (TxHash h); hash_val (ReceiptHash h);
    VBytes (h_Bloom h); VBig (Some (Number h)); VUint (h_GasLimit h); VUint (h_GasUsed h); VBig (Some (Time h)); VBytes (Extra h); VBytes (AgentName h);
    hash_val (DelegateRoot h); hash_val (ShuffleHash h); VBig (Some (ShuffleBlockNumber h))].

(** A decoded value as the struct it was decoded into. *)
Definition val_header (v : gval) : option Header :=
  match v with
  | VList [VBytes parent; VBytes coinbase; VBytes root; VBytes txs; VBytes receipts; VBytes bloom; VBig (Some number); VUint limit; VUint used; VBig (Some time);
           VBytes extra; VBytes agent; VBytes droot; VBytes shuffle; VBig (Some snumber)] =>
    Some (mkHeader (BytesToHash parent) (BytesToAddress coinbase) (BytesToHash root) (BytesToHash txs) (BytesToHash receipts) bloom number limit used time
            extra agent (BytesToHash droot) (BytesToHash shuffle) snumber)
  | _ => None
  end.

(** [CopyHeader] copies the integers and the extra data; here values have no
    identity. *)
Definition CopyHeader (h : Header) : Header := h.

Section Headers.
Context (keccak : bytes → hash).

Definition Header_Hash (h : Header) : outcome hash := rlpHash keccak (TPtr header_type) (VPtr (Some (header_val h))).

Definition HashNoNonce (h : Header) : outcome hash :=
  let iface t v := VIface (Some (t, v)) in
  rlpHash keccak (TSlice TInterface) (VList
    [iface hash_type (hash_val (ParentHash h)); iface (TByteArray 20) (VBytes (address_bytes (Coinbase h))); iface hash_type (hash_val (Root h));
     iface hash_type (hash_val (TxHash h)); iface hash_type (hash_val (ReceiptHash h)); iface (TByteArray 256) (VBytes (h_Bloom h)); iface TBig (VBig (Some (Number h)));
     iface (TUint 64) (VUint (h_GasLimit h)); iface (TUint 64) (VUint (h_GasUsed h)); iface TBig (VBig (Some (Time h))); iface TBytes (VBytes (Extra h));
     iface hash_type (hash_val (ShuffleHash h)); iface hash_type (hash_val (DelegateRoot h)); iface TBytes (VBytes (AgentName h));
     iface TBig (VBig (Some (ShuffleBlockNumber h)))]).

(** ** Logs and receipts *)

Definition log_type : gtype := TStruct [(no_tags, TByteArray 20); (no_tags, TSlice hash_type); (no_tags, TBytes)].
Definition log_val (l : Log) : gval := VList [VBytes (address_bytes (log_Address l)); VList (hash_val <$> log_Topics l); VBytes (log_Data l)].
Definition val_hash (v : gval) : hash := match v with VBytes b => BytesToHash b | _ => hash0 end.
Definition val_log (v : gval) : option Log :=
  match v with
  | VList [VBytes a; VList ts; VBytes d] => Some (mkLog (BytesToAddress a) (val_hash <$> ts) d 0 hash0 0 hash0 0)
  | _ => None
  end.

Definition storage_log_type : gtype :=
  TStruct [(no_tags, TByteArray 20); (no_tags, TSlice hash_type); (no_tags, TBytes); (no_tags, TUint 64); (no_tags, hash_type); (no_tags, TUint 64);
           (no_tags, hash_type); (no_tags, TUint 64)].
Definition storage_log_val (l : Log) : gval :=
  VList [VBytes (address_bytes (log_Address l)); VList (hash_val <$> log_Topics l); VBytes (log_Data l); VUint (log_BlockNumber l); hash_val (log_TxHash l);
         VUint (log_TxIndex l); hash_val (log_BlockHash l); VUint (log_Index l)].
Definition val_storage_log (v : gval) : option Log :=
  match v with
  | VList [VBytes a; VList ts; VBytes d; VUint bn; VBytes th; VUint ti; VBytes bh; VUint i] =>
    Some (mkLog (BytesToAddress a) (val_hash <$> ts) d bn (BytesToHash th) ti (BytesToHash bh) i)
  | _ => None
  end.

Definition receiptStatusFailedRLP : bytes := [].
Definition receiptStatusSuccessfulRLP : bytes := [byte_of 1].
Definition statusEncoding (r : Receipt) : bytes :=
  if (length (PostState r) =? 0)%nat then
    if Status r =? ReceiptStatusFailed then receiptStatusFailedRLP else receiptStatusSuccessfulRLP
  else PostState r.
Definition setStatus (postStateOrStatus : bytes) (r : Receipt) : option Receipt :=
  if bool_decide (postStateOrStatus = receiptStatusSuccessfulRLP) then Some (r <| Status := ReceiptStatusSuccessful |>)
  else if bool_decide (postStateOrStatus = receiptStatusFailedRLP) then Some (r <| Status := ReceiptStatusFailed |>)
  else if (length postStateOrStatus =? 32)%nat then Some (r <| PostState := postStateOrStatus |>)
  else None.

Definition receipt_type : gtype := TStruct [(no_tags, TBytes); (no_tags, TUint 64); (no_tags, TByteArray 256); (no_tags, TSlice (TPtr log_type))].
Definition receipt_val (r : Receipt) : gval :=
  VList [VBytes (statusEncoding r); VUint (CumulativeGasUsed r); VBytes (rc_Bloom r); VList ((λ l, VPtr (Some (log_val l))) <$> rc_Logs r)].
Definition Receipt_EncodeRLP (r : Receipt) : outcome (bytes + rlperr) := EncodeToBytes (TPtr receipt_type) (VPtr (Some (receipt_val r))).

Definition empty_receipt : Receipt := mkReceipt [] 0 0 zero_bloom [] hash0 address0 0 0.
Definition val_ptr {A} (f : gval → option A) (v : gval) : option A := match v with VPtr (Some v) => f v | _ => None end.
(** [DecodeRLP] into a fresh receipt, on all of the input. *)
Definition Receipt_DecodeRLP (b : bytes) : Receipt + rlperr :=
  match DecodeBytes receipt_type b with
  | inr err => inr err
  | inl v =>
    match v with
    | VList [VBytes status; VUint gas; VBytes bloom; VList logs] =>
      match setStatus status empty_receipt, mapM (val_ptr val_log) logs with
      | Some r, Some logs => inl (r <| CumulativeGasUsed := gas |> <| rc_Bloom := bloom |> <| rc_Logs := logs |>)
      | None, _ => inr (decodeError "invalid receipt status")
      | _, None => inr ill_typed
      end
    | _ => inr ill_typed
    end
  end.

Definition storage_receipt_type : gtype :=
  TStruct [(no_tags, TBytes); (no_tags, TUint 64); (no_tags, TByteArray 256); (no_tags, hash_type); (no_tags, TByteArray 20);
           (no_tags, TSlice (TPtr storage_log_type)); (no_tags, TUint 64); (no_tags, TUint 64)].
Definition storage_receipt_val (r : Receipt) : gval :=
  VList [VBytes (statusEncoding r); VUint (CumulativeGasUsed r); VBytes (rc_Bloom r); hash_val (rc_TxHash r); VBytes (address_bytes (ContractAddress r));
         VList ((λ l, VPtr (Some (storage_log_val l))) <$> rc_Logs r); VUint (rc_GasUsed r); VUint (rc_Action r)].
Definition ReceiptForStorage_EncodeRLP (r : Receipt) : outcome (bytes + rlperr) :=
  EncodeToBytes (TPtr storage_receipt_type) (VPtr (Some (storage_receipt_val r))).
Definition ReceiptForStorage_DecodeRLP (b : bytes) : Receipt + rlperr :=
  match DecodeBytes storage_receipt_type b with
  | inr err => inr err
  | inl v =>
    match v with
    | VList [VBytes status; VUint gas; VBytes bloom; VBytes th; VBytes ca; VList logs; VUint used; VUint action] =>
      match setStatus status empty_receipt, mapM (val_ptr val_storage_log) logs with
      | Some r, Some logs =>
        inl (r <| CumulativeGasUsed := gas |> <| rc_Bloom := bloom |> <| rc_Logs := logs |>
               <| rc_TxHash := BytesToHash th |> <| ContractAddress := BytesToAddress ca |> <| rc_GasUsed := used |> <| rc_Action := action |>)
      | None, _ => inr (decodeError "invalid receipt status")
      | _, None => inr ill_typed
      end
    | _ => inr ill_typed
    end
  end.

(** ** Blocks *)

Record Block : Type := mkBlock {
  header : Header;
  transactions : list Transaction;
  b_hash : option hash;
  b_size : option Z;
  td : Z;
  Signature : bytes;
  RlpEncodeSigns : bytes
}.
#[export] Instance Block_eta : Eta Block := λ b, mkBlock (header b) (transactions b) (b_hash b) (b_size b) (td b) (Signature b) (RlpEncodeSigns b).

(** [Transactions.GetRlp] and [Receipts.GetRlp] *)
Definition tx_GetRlp (tx : Transaction) : outcome bytes :=
  enc ← Transaction_EncodeRLP tx; Ret (match enc with inl b => b | inr _ => [] end).
Definition receipt_GetRlp (r : Receipt) : outcome bytes :=
  enc ← Receipt_EncodeRLP r; match enc with inl b => Ret b | inr _ => Panic "rlp" end.

Fixpoint all_rlp {A} (get : A → outcome bytes) (l : list A) : outcome (list bytes) :=
  match l with [] => Ret [] | a :: l => b ← get a; bs ← all_rlp get l; Ret (b :: bs) end.
Definition DeriveSha_txs (txs : list Transaction) : outcome hash := items ← all_rlp tx_GetRlp txs; DeriveSha keccak items.
Definition DeriveSha_receipts (rs : list Receipt) : outcome hash := items ← all_rlp receipt_GetRlp rs; DeriveSha keccak items.

Definition NewBlock (h : Header) (txs : list Transaction) (receipts : list Receipt) : outcome Block :=
  let h := CopyHeader h in
  txHash ← DeriveSha_txs txs;
  let h := h <| TxHash := txHash |> in
  receiptHash ← DeriveSha_receipts receipts;
  let h := h <| ReceiptHash := receiptHash |> in
  h ← (if (length receipts =? 0)%nat then Ret h else bloom ← CreateBloom keccak receipts; Ret (h <| h_Bloom := bloom |>));
  Ret (mkBlock h txs None None 0 [] []).
Definition NewBlockWithHeader (h : Header) : Block := mkBlock (CopyHeader h) [] None None 0 [] [].
Definition WithBody (b : Block) (txs : list Transaction) : Block := mkBlock (CopyHeader (header b)) txs None None 0 [] [].
Definition WithSeal (b : Block) (h : Header) : Block := mkBlock h (transactions b) None None 0 [] [].

Definition Block_Hash : GM Block hash := λ b,
  match b_hash b with
  | Some h => Ret (h, b)
  | None => v ← Header_Hash (header b); Ret (v, b <| b_hash := Some v |>)
  end.

(** [extblock] *)
Definition block_type : gtype := TStruct [(no_tags, TPtr header_type); (no_tags, TSlice (TPtr tx_type)); (no_tags, TBytes)].
Definition block_val (b : Block) : gval :=
  VList [VPtr (Some (header_val (header b))); VList ((λ tx, VPtr (Some (tx_val (data tx)))) <$> transactions b); VBytes (Signature b)].
Definition Block_EncodeRLP (b : Block) : outcome (bytes + rlperr) := EncodeToBytes block_type (block_val b).

(** [Block.DecodeRLP] into a fresh block, on all of the input; the size is that of the
    list it read. *)
Definition Block_DecodeRLP (b : bytes) : Block + rlperr :=
  match DecodeBytes block_type b with
  | inr err => inr err
  | inl v =>
    match v with
    | VList [h; VList txs; VBytes sig] =>
      match val_ptr val_header h, mapM (val_ptr val_txdata) txs with
      | Some h, Some ds => inl (mkBlock h ((λ d, mkTx d None (Some (blen (tx_rlp d))) None) <$> ds) None (Some (blen b)) 0 sig [])
      | _, _ => inr ill_typed
      end
    | _ => inr ill_typed
    end
  end.

(** ** Checking a body ([core/block_validator.go]) *)

Inductive body_error : Type := ErrKnownBlock | ErrUnknownAncestor | errTxRoot.

(** [known] is the chain's [HasBlockAndState]. *)
Definition ValidateBody (known : hash → bool) (b : Block) : outcome (option body_error) :=
  '(h, b) ← Block_Hash b;
  if known h then Ret (Some ErrKnownBlock)
  else if negb (known (ParentHash (header b))) then Ret (Some ErrUnknownAncestor)
  else
    root ← DeriveSha_txs (transactions b);
    Ret (if bool_decide (root = TxHash (header b)) then None else Some errTxRoot).
End Headers.

(** ** Encodings of headers *)

Definition header_rlp (h : Header) : bytes := match ref no_tags header_type (header_val h) with inl b => b | inr _ => [] end.
Record header_ok (h : Header) : Prop := {
  ho_bloom : length (h_Bloom h) = 256%nat;
  ho_number : 0 ≤ Number h;
  ho_limit : is_u64 (h_GasLimit h);
  ho_used : is_u64 (h_GasUsed h);
  ho_time : 0 ≤ Time h;
  ho_shuffle : 0 ≤ ShuffleBlockNumber h;
  ho_size : blen (header_rlp h) < 2 ^ 63
}.

Lemma keeps_hash n h : keeps n hash_type (hash_val h).
Proof. apply kp_byte_array; [apply length_be_bytes|done]. Qed.
Lemma keeps_addr n a : keeps n (TByteArray 20) (VBytes (address_bytes a)).
Proof. apply kp_byte_array; [apply length_be_bytes|done]. Qed.

Lemma keeps_header h : header_ok h → keeps false header_type (header_val h).
Proof.
  intros []. apply kp_struct. unfold header_fields.
  repeat (constructor; [split; [done|]|]); try (by apply keeps_u64); try (by apply kp_big); try apply keeps_hash; try apply keeps_addr; try constructor; done.
Qed.

Lemma val_header_back h : val_header (header_val h) = Some h.
Proof. unfold header_val, hash_val. cbn [val_header]. rewrite !BytesToHash_hash_bytes, BytesToAddress_bytes. by destruct h. Qed.

Lemma header_ref h : header_ok h → wt header_type (header_val h) ∧ ref no_tags header_type (header_val h) = inl (header_rlp h).
Proof. intros Hh. destruct (keeps_ref _ _ (keeps_header h Hh)) as (Hw & out & E). split; [done|]. unfold header_rlp. by rewrite E. Qed.

Lemma Header_Hash_rlp keccak h : header_ok h → Header_Hash keccak h = Ret (keccak (header_rlp h)).
Proof.
  intros Hh. destruct (header_ref h Hh) as [Hw E]. unfold Header_Hash, rlpHash.
  destruct (Encode_ref (TPtr header_type) (VPtr (Some (header_val h))) (header_rlp h)) as [_ ->]; [by constructor|exact E|by destruct Hh|done].
Qed.

Lemma header_rlp_inj h h' : header_ok h → header_ok h' → header_rlp h = header_rlp h' → h = h'.
Proof.
  intros Hh Hh' E. destruct (header_ref h Hh) as (_ & R1), (header_ref h' Hh') as (_ & R2). rewrite <- E in R2.
  assert (Ev : header_val h = header_val h') by (eapply (ref_inj header_type _ _ (header_rlp h)); [by apply keeps_header|by apply keeps_header|by apply ho_size|exact R1|exact R2]).
  pose proof (val_header_back h) as H. rewrite Ev, val_header_back in H. by injection H.
Qed.

(** ** Encodings of transaction lists *)

Lemma tx_GetRlp_ok tx : tx_ok (data tx) → tx_GetRlp tx = Ret (tx_rlp (data tx)).
Proof. intros Htx. unfold tx_GetRlp, Transaction_EncodeRLP. by rewrite (proj1 (tx_encodes _ Htx)). Qed.

Lemma all_rlp_txs txs : Forall (λ tx, tx_ok (data tx)) txs → all_rlp tx_GetRlp txs = Ret ((λ tx, tx_rlp (data tx)) <$> txs).
Proof.
  induction 1 as [|tx txs Htx _ IH]; [done|]. cbn [all_rlp]. rewrite tx_GetRlp_ok by done. cbn [mbind outcome_bind]. by rewrite IH.
Qed.

(** A body that a trie can hold. *)
Record body_ok (txs : list Transaction) : Prop := {
  bo_txs : Forall (λ tx, tx_ok (data tx)) txs;
  bo_items : items_ok ((λ tx, tx_rlp (data tx)) <$> txs)
}.

Lemma body_inj txs txs' : body_ok txs → body_ok txs' → (λ tx, tx_rlp (data tx)) <$> txs = (λ tx, tx_rlp (data tx)) <$> txs' → data <$> txs = data <$> txs'.
Proof.
  intros [H _] [H' _]. revert txs' H'. induction H as [|tx txs Htx _ IH]; intros [|tx' txs'] H' E; try done. apply Forall_cons in H' as [Htx' H'].
  rewrite !fmap_cons in *. injection E as E1 E2. f_equal; [by apply tx_rlp_inj|by apply IH].
Qed.

(** C11: the hash of a block stands for the block.  If two blocks pass the check of
    their transactions' root and have the same hash - and the hash function does not
    collide on the headers or on the nodes of the two tries - then their headers are
    the same in every field and their transactions are the same, one by one and in
    order. *)
Theorem block_hash_commits (keccak : bytes → hash) (known : hash → bool) (full : kvstore) (b b' : Block) (h : hash) :
  b_hash b = None → b_hash b' = None → header_ok (header b) → header_ok (header b') → body_ok (transactions b) → body_ok (transactions b') →
  list_within keccak full ((λ tx, tx_rlp (data tx)) <$> transactions b) → list_within keccak full ((λ tx, tx_rlp (data tx)) <$> transactions b') →
  (keccak (header_rlp (header b)) = keccak (header_rlp (header b')) → header_rlp (header b) = header_rlp (header b')) →
  (∃ b1, Block_Hash keccak b = Ret (h, b1)) → (∃ b1, Block_Hash keccak b' = Ret (h, b1)) →
  ValidateBody keccak known b = Ret None → ValidateBody keccak known b' = Ret None →
  header b = header b' ∧ data <$> transactions b = data <$> transactions b'.
Proof.
  intros Hb Hb' Hh Hh' Ho Ho' Hw Hw' Hc [b1 E1] [b2 E2] V1 V2.
  assert (Hr : ∀ b, b_hash b = None → header_ok (header b) → body_ok (transactions b) → ValidateBody keccak known b = Ret None →
    DeriveSha keccak ((λ tx, tx_rlp (data tx)) <$> transactions b) = Ret (TxHash (header b))).
  { intros b0 N H O. unfold ValidateBody, Block_Hash. rewrite N, Header_Hash_rlp by done. cbn [mbind outcome_bind]. destruct (known _); [done|].
    cbn [header upd]. destruct (negb _); [done|]. unfold DeriveSha_txs. rewrite all_rlp_txs by apply O. cbn [mbind outcome_bind transactions].
    destruct (DeriveSha keccak _) as [root|]; [|done]. cbn [mbind outcome_bind]. destruct (bool_decide (root = TxHash (header b0))) eqn:B; [|done].
    apply bool_decide_eq_true in B. by rewrite B. }
  assert (header b = header b') as E.
  { unfold Block_Hash in E1, E2. rewrite Hb, Header_Hash_rlp in E1 by done. rewrite Hb', Header_Hash_rlp in E2 by done.
    injection E1 as E1 _. injection E2 as E2 _. apply header_rlp_inj; [done..|]. apply Hc. congruence. }
  split; [done|]. apply body_inj; [done..|]. apply (DeriveSha_inj keccak full _ _ (TxHash (header b))); [apply Ho|apply Ho'|done|done|by apply Hr|].
  rewrite E. by apply Hr.
Qed.

(** ** Receipts in the database *)

Definition log_ok (l : Log) : Prop := is_u64 (log_BlockNumber l) ∧ is_u64 (log_TxIndex l) ∧ is_u64 (log_Index l).
(** A receipt has a status, or it has a root for its state and no status. *)
Record receipt_ok (r : Receipt) : Prop := {
  ro_status : PostState r = [] ∧ (Status r = ReceiptStatusFailed ∨ Status r = ReceiptStatusSuccessful) ∨ length (PostState r) = 32%nat ∧ Status r = ReceiptStatusFailed;
  ro_gas : is_u64 (CumulativeGasUsed r) ∧ is_u64 (rc_GasUsed r) ∧ is_u64 (rc_Action r);
  ro_bloom : length (rc_Bloom r) = 256%nat;
  ro_logs : Forall log_ok (rc_Logs r)
}.

Lemma setStatus_back r : receipt_ok r → setStatus (statusEncoding r) empty_receipt = Some (empty_receipt <| Status := Status r |> <| PostState := PostState r |>).
Proof.
  intros [[[Hp [Hs|Hs]]|[Hp Hs]] _ _ _]; unfold statusEncoding, setStatus.
  - by rewrite Hp, Hs.
  - by rewrite Hp, Hs.
  - rewrite Hp, Hs. cbn [Nat.eqb]. assert (length (PostState r) ≠ 1%nat ∧ length (PostState r) ≠ 0%nat) as [H1 H0] by lia.
    rewrite !bool_decide_eq_false_2 by (intros E; rewrite E in *; done). by rewrite Hp.
Qed.

Lemma keeps_storage_log l : log_ok l → keeps false storage_log_type (storage_log_val l).
Proof.
  intros (H1 & H2 & H3). apply kp_struct. constructor; [split; [done|apply keeps_addr]|].
  constructor; [split; [done|]; apply kp_slice, Forall_fmap, Forall_forall; intros; apply keeps_hash|].
  repeat (constructor; [split; [done|]|]); try (by apply keeps_u64); try apply keeps_hash; try constructor.
Qed.

Lemma val_topics_back (ts : list hash) : val_hash <$> (hash_val <$> ts) = ts.
Proof. rewrite <- list_fmap_compose. rewrite <- (list_fmap_id ts) at 2. apply list_fmap_ext. intros i t _. apply BytesToHash_hash_bytes. Qed.

Lemma val_storage_log_back l : val_storage_log (storage_log_val l) = Some l.
Proof.
  unfold storage_log_val. unfold hash_val at 2 3. cbn [val_storage_log]. rewrite val_topics_back, !BytesToHash_hash_bytes, BytesToAddress_bytes. by destruct l.
Qed.

Lemma mapM_back {A} (f : gval → option A) (g : A → gval) l : (∀ a, f (g a) = Some a) → mapM (val_ptr f) ((λ a, VPtr (Some (g a))) <$> l) = Some l.
Proof. intros H. induction l as [|a l IH]; [done|]. rewrite fmap_cons. cbn [mapM]. cbn [val_ptr]. rewrite H. cbn [mbind option_bind]. by rewrite IH. Qed.

(** Receipts read from the database are those written to it. *)
Theorem receipt_roundtrip (r : Receipt) : receipt_ok r →
  ∃ out, ref no_tags storage_receipt_type (storage_receipt_val r) = inl out ∧
    (blen out < 2 ^ 63 → ReceiptForStorage_EncodeRLP r = Ret (inl out) ∧ ReceiptForStorage_DecodeRLP out = inl r).
Proof.
  intros Hr. destruct Hr as [Hst (Hg1 & Hg2 & Hg3) Hb Hl] eqn:EHr. clear EHr.
  assert (Hk : keeps false storage_receipt_type (storage_receipt_val r)).
  { apply kp_struct. constructor; [split; [done|constructor]|]. constructor; [split; [done|by apply keeps_u64]|]. constructor; [split; [done|by apply kp_byte_array]|].
    constructor; [split; [done|apply keeps_hash]|]. constructor; [split; [done|apply keeps_addr]|].
    constructor; [split; [done|]; apply kp_slice, Forall_fmap; eapply Forall_impl; [exact Hl|]; intros l Hll; by apply kp_ptr, keeps_storage_log|].
    repeat (constructor; [split; [done|by apply keeps_u64]|]). constructor. }
  destruct (keeps_ref _ _ Hk) as (Hw & out & E). exists out. split; [done|]. intros Hsz. split.
  - unfold ReceiptForStorage_EncodeRLP. apply Encode_ref; [by constructor|exact E|done].
  - unfold ReceiptForStorage_DecodeRLP. rewrite (DecodeBytes_ref _ _ _ Hk E Hsz). unfold storage_receipt_val, hash_val.
    rewrite (mapM_back val_storage_log storage_log_val) by apply val_storage_log_back. rewrite setStatus_back by done.
    rewrite BytesToHash_hash_bytes, BytesToAddress_bytes. by destruct r.
Qed.

(** C37: a block survives being sent.  Encoding a block and decoding the bytes gives a
    block with the same header, the same transactions in the same order, each with its
    size, and the same signature. *)
Theorem block_roundtrip (b : Block) : header_ok (header b) → Forall (λ tx, tx_ok (data tx)) (transactions b) →
  ∃ out, ref no_tags block_type (block_val b) = inl out ∧
    (blen out < 2 ^ 63 → Block_EncodeRLP b = Ret (inl out) ∧
      Block_DecodeRLP out = inl (mkBlock (header b) ((λ tx, mkTx (data tx) None (Some (blen (tx_rlp (data tx)))) None) <$> transactions b) None (Some (blen out)) 0 (Signature b) [])).
Proof.
  intros Hh Ht. assert (Hk : keeps false block_type (block_val b)).
  { apply kp_struct. constructor; [split; [done|by apply kp_ptr, keeps_header]|].
    constructor; [split; [done|]; apply kp_slice, Forall_fmap; eapply Forall_impl; [exact Ht|]; intros tx Htx; by apply kp_ptr, keeps_tx|].
    constructor; [split; [done|constructor]|constructor]. }
  destruct (keeps_ref _ _ Hk) as (Hw & out & E). exists out. split; [done|]. intros Hsz. split; [by apply Encode_ref|].
  unfold Block_DecodeRLP. rewrite (DecodeBytes_ref _ _ _ Hk E Hsz). unfold block_val. cbn [val_ptr]. rewrite val_header_back.
  pose proof (mapM_back val_txdata tx_val (data <$> transactions b) val_txdata_back) as Hm. rewrite <- list_fmap_compose in Hm.
  unfold compose in Hm. rewrite Hm, <- list_fmap_compose. done.
Qed.

(** ** An example *)

Definition sample_root : hash := match DeriveSha_txs toy_keccak [sample_tx] with Ret r => r | Panic _ => hash0 end.
Definition sample_header : Header :=
  mkHeader hash0 (to_word 160 1) hash0 sample_root hash0 zero_bloom 1 5000 0 10 [] [] hash0 hash0 0.
Definition sample_block : Block := mkBlock sample_header [sample_tx] None None 0 [] [].
Definition signed_block : Block := mkBlock sample_header [sample_tx] None None 0 [byte_of 1] [].
Definition sample_full : kvstore := leaf_full toy_keccak [byte_of 0x80] (tx_rlp (data sample_tx)).

Lemma sample_header_ok : header_ok sample_header.
Proof. split; by vm_compute. Qed.
Lemma sample_body_ok : body_ok [sample_tx].
Proof. split; [by repeat constructor; apply sample_tx_ok|]. split; [|done]. by repeat constructor. Qed.
Lemma sample_within : list_within toy_keccak sample_full ((λ tx, tx_rlp (data tx)) <$> [sample_tx]).
Proof.
  intros t E. assert (t = leaf_trie [byte_of 0x80] (tx_rlp (data sample_tx))) as -> by (vm_compute in E; by injection E as <-).
  eexists. apply leaf_within; [cbn; lia|cbn; lia|by split|by vm_compute..].
Qed.

Lemma block_hash_commits_witness : header sample_block = header signed_block ∧ data <$> transactions sample_block = data <$> transactions signed_block.
Proof.
  destruct (Block_Hash toy_keccak sample_block) as [[h b1]|] eqn:E1; [|by vm_compute in E1].
  destruct (Block_Hash toy_keccak signed_block) as [[h' b2]|] eqn:E2; [|by vm_compute in E2].
  assert (h' = h) as -> by (vm_compute in E1, E2; congruence).
  apply (block_hash_commits toy_keccak (λ x, bool_decide (x = hash0)) sample_full sample_block signed_block h);
    [done|done|exact sample_header_ok|exact sample_header_ok|exact sample_body_ok|exact sample_body_ok|exact sample_within|exact sample_within|done|
     by exists b1|by exists b2|by vm_compute|by vm_compute].
Defined.

Lemma block_roundtrip_witness : ∃ out b', Block_EncodeRLP signed_block = Ret (inl out) ∧ Block_DecodeRLP out = inl b' ∧ header b' = sample_header.
Proof.
  destruct (block_roundtrip signed_block) as (out & E & H); [exact sample_header_ok|by repeat constructor; apply sample_tx_ok|].
  assert (Hb : blen out < 2 ^ 63) by (vm_compute in E; injection E as <-; by vm_compute).
  destruct (H Hb) as [H1 H2]. exists out. eexists. split; [exact H1|]. split; [exact H2|reflexivity].
Defined.
