(* ===== verification/StateFinal.v ===== *)
(** * Writing the state back ([Finalise], [IntermediateRoot])

    At the end of a transaction and of a block the dirty objects go to the account
    trie.  Go visits the maps of dirty addresses and of changed storage in an
    arbitrary order, which differs from node to node; the root hash must not. *)

From S2P Require Import Prelude Assets Interfaces AssetInfo StateTypes StateSample StateDB StateRevert.
From S2P Require Import StateSnapshot Accounts Transfer StateSound Hex.

(** [range] visits every entry of a map once, and encodings have the size of trie
    values. *)
Class WriteLaws (ST VL : Type) `{WENV : WriteEnv ST VL} : Prop := {
  range_storage_all m : range_storage m ≡ₚ map_to_list m;
  range_dirty_all d : range_dirty d ≡ₚ elements d;
  range_objects_all m : range_objects m ≡ₚ map_to_list m;
  account_storable d b : rlp_EncodeAccount d = Some b → storable_value b
}.

(** What the database and the serializer of values promise. *)
Class StorageLaws (AT ST VL : Type) `{ENV : StateEnv AT ST VL} `{!TrieLaws hash ST} : Prop := {
  open_ok ah root t : db_OpenStorageTrie ah root = inl t → trie_ok t;
  open_empty ah : ∃ t, db_OpenStorageTrie ah hash0 = inl t;
  value_storable v : v ≠ hash0 → storable_value (rlp_EncodeValue v);
  value_back v : v ≠ hash0 → BytesToHash (rlp_SplitValue (rlp_EncodeValue v)).1 = v
}.

Section Storage.
Context {AT ST VL : Type} `{ENV : StateEnv AT ST VL} `{TLS : !TrieLaws hash ST} `{SL : !StorageLaws AT ST VL}.
Context `{WENV : WriteEnv ST VL} `{WL : !WriteLaws ST VL}.

#[local] Abbreviation SDB := (StateDB AT ST VL).
#[local] Abbreviation OBJ := (stateObject ST VL).
#[local] Abbreviation SM := (GM SDB).
#[local] Abbreviation OM := (GM (SDB * OBJ)).

(** ** The storage of an object *)

Definition value_bytes (v : hash) : bytes := if decide (v = hash0) then [] else rlp_EncodeValue v.

Definition overwrite (m : Storage) (get : hash → bytes) (k : hash) : bytes :=
  match m !! k with Some v => value_bytes v | None => get k end.

Lemma updateTrie_step_run key value tr (s : SDB) (o : OBJ) :
  trie_ok tr → ∃ tr', updateTrie_step key value tr (s, o) = Ret (tr', (s, o <| o_dirtyStorage ::= delete key |>)) ∧
    trie_ok tr' ∧ (made tr → made tr') ∧ ∀ k, (TryGet tr' k).1 = if decide (k = key) then value_bytes value else (TryGet tr k).1.
Proof.
  intros Ht. unfold updateTrie_step, value_bytes. erewrite GM_bind_run by reflexivity. cbn [fst snd].
  assert (Hn : ∀ (x : ST), (obj_setError None;; mret x) (s, o <| o_dirtyStorage ::= delete key |>) =
               Ret (x, (s, o <| o_dirtyStorage ::= delete key |>))).
  { intros x. unfold obj_setError. erewrite GM_bind_run by reflexivity. cbn. by destruct o as [? ? [] ? ? ? ? ? ? ? ? ? ? ? ?]. }
  case_decide as Hv.
  - pose proof (TryDelete_ok tr key Ht) as [H1 H2]. pose proof (λ k, TryDelete_get tr key k Ht) as H3.
    destruct (TryDelete tr key) as [tr' err] eqn:E. cbn in *. subst err. exists tr'. rewrite Hn. split_and!; [done..| |done]. intros Hm. by apply (made_deleted _ key) in Hm; rewrite E in Hm.
  - pose proof (value_storable value Hv) as Hs. pose proof (TryUpdate_ok tr key _ Ht Hs) as [H1 H2].
    pose proof (λ k, TryUpdate_get tr key _ k Ht Hs) as H3.
    destruct (TryUpdate tr key (rlp_EncodeValue value)) as [tr' err] eqn:E. cbn in *. subst err. exists tr'. rewrite Hn. split_and!; [done..| |done]. intros Hm. by apply (made_updated _ key value) in Hm; rewrite ?E in Hm.
Qed.

Lemma updateTrie_loop_run (entries : list (hash * hash)) tr (s : SDB) (o : OBJ) :
  trie_ok tr → NoDup entries.*1 → ∃ tr',
    updateTrie_loop entries tr (s, o) = Ret (tr', (s, o <| o_dirtyStorage := foldl (λ m kv, delete kv.1 m) (o_dirtyStorage o) entries |>)) ∧
    trie_ok tr' ∧ (made tr → made tr') ∧ ∀ k, (TryGet tr' k).1 = overwrite (list_to_map entries) (λ k, (TryGet tr k).1) k.
Proof.
  revert tr o. induction entries as [|[key value] entries IH]; intros tr o Ht Hnd.
  { exists tr. split_and!; [by destruct o|done|done|done]. }
  inversion Hnd as [|? ? Hn Hnd']; subst. cbn [updateTrie_loop].
  destruct (updateTrie_step_run key value tr s o Ht) as (tr1 & E1 & H1 & M1 & G1). rewrite (GM_bind_run _ _ _ _ _ E1).
  destruct (IH tr1 (o <| o_dirtyStorage ::= delete key |>) H1 Hnd') as (tr' & E & H & M & G).
  exists tr'. rewrite E. split_and!; [by destruct o|done|auto|]. intros k. rewrite G. unfold overwrite. cbn.
  rewrite lookup_insert. destruct (decide (key = k)) as [<-|Hne].
  - rewrite (not_elem_of_list_to_map_1 _ _ Hn), G1. by rewrite decide_True.
  - destruct (_ !! k); [done|]. rewrite G1. by rewrite decide_False.
Qed.

Lemma delete_all_keys (m : Storage) (entries : list (hash * hash)) :
  (∀ k, is_Some (m !! k) → k ∈ entries.*1) → foldl (λ m kv, delete kv.1 m) m entries = ∅.
Proof.
  revert m. induction entries as [|[key value] entries IH]; intros m Hm; cbn.
  - apply map_empty. intros k. destruct (m !! k) eqn:E; [|done]. destruct (not_elem_of_nil k). apply Hm. by rewrite E.
  - apply IH. intros k [v [Hne Hk]%lookup_delete_Some]. destruct (elem_of_cons entries.*1 k key) as [Hc _].
    destruct Hc as [->|]; [apply Hm; eauto|done|done].
Qed.

Lemma range_storage_map m : list_to_map (range_storage m) = m.
Proof.
  rewrite <- (list_to_map_to_list m) at 2. apply list_to_map_proper; [|by rewrite range_storage_all].
  rewrite range_storage_all. apply NoDup_fst_map_to_list.
Qed.

(** The trie an object's storage is read from, with the values still to be written. *)
Definition storage_base (o : OBJ) : option ST := trie_of (o_address o) (a_Root (o_data o)) (o_trie o).
Definition storage_entries (o : OBJ) (t : ST) : hash → bytes := overwrite (o_dirtyStorage o) (λ k, (TryGet t k).1).

Lemma made_ok t : made t → trie_ok t.
Proof.
  induction 1 as [ah root t E|t key v _ IH Hv|t key _ IH]; [by eapply open_ok|..].
  - by apply TryUpdate_ok, value_storable.
  - by apply TryDelete_ok.
Qed.

Lemma storage_base_ok o : object_ok o → ∃ t, storage_base o = Some t ∧ made t.
Proof.
  intros (_ & _ & _ & Hm). assert (H : is_Some (storage_base o)).
  { unfold storage_base, trie_of. destruct (o_trie o); [done|]. destruct (db_OpenStorageTrie _ (a_Root (o_data o))); [done|].
    by destruct (open_empty (Keccak256Hash (address_bytes (o_address o)))) as [t ->]. }
  destruct H as [t H]. exists t. split; [done|]. by eapply trie_of_made.
Qed.

Lemma getTrie_ok (s : SDB) (o : OBJ) t :
  storage_base o = Some t → ∃ e, getTrie (s, o) = Ret (t, (s, o <| o_trie := Some t |> <| o_dbErr := e |>)).
Proof.
  unfold storage_base, trie_of, getTrie. erewrite GM_bind_run by reflexivity. cbn [fst snd]. fold (addrHash o).
  destruct (o_trie o) as [t'|] eqn:Et.
  { intros [= ->]. exists (o_dbErr o). destruct o; cbn in *. by subst. }
  destruct (db_OpenStorageTrie _ _) as [t'|err].
  { intros [= ->]. exists (o_dbErr o). by destruct o. }
  destruct (db_OpenStorageTrie _ hash0) as [t'|err']; [|done]. intros [= ->].
  erewrite GM_bind_run by reflexivity. cbn [fst snd].
  destruct (obj_setError_run (Some (String.append "can't create storage trie: " err)) s (o <| o_trie := Some t |>)) as [e E].
  rewrite (GM_bind_run _ _ _ _ _ E). eexists. reflexivity.
Qed.

(** An object whose storage has been written: [t] is its trie now. *)
Definition written (o : OBJ) (t : ST) (e : option gerror) : OBJ :=
  o <| o_trie := Some t |> <| o_dbErr := e |> <| o_dirtyStorage := ∅ |> <| o_data ::= λ d, d <| a_Root := trie_Hash t |> |>.

Lemma updateTrie_run (s : SDB) (o : OBJ) t :
  storage_base o = Some t → made t →
  ∃ t' e, updateTrie (s, o) = Ret (t', (s, o <| o_trie := Some t' |> <| o_dbErr := e |> <| o_dirtyStorage := ∅ |>)) ∧
    made t' ∧ ∀ k, (TryGet t' k).1 = storage_entries o t k.
Proof.
  intros Hb Ht. destruct (getTrie_ok s o t Hb) as [e E]. unfold updateTrie. rewrite (GM_bind_run _ _ _ _ _ E).
  erewrite GM_bind_run by reflexivity. cbn [fst snd].
  set (o1 := o <| o_trie := Some t |> <| o_dbErr := e |>).
  destruct (updateTrie_loop_run (range_storage (o_dirtyStorage o1)) t s o1 (made_ok _ Ht)) as (t' & E1 & Ht' & M & G).
  { rewrite range_storage_all. apply NoDup_fst_map_to_list. }
  rewrite (GM_bind_run _ _ _ _ _ E1). rewrite range_storage_map in G. rewrite delete_all_keys.
  - exists t', e. split_and!; [by destruct o|auto|done].
  - intros k [v Hk]. rewrite range_storage_all. apply list_elem_of_fmap. exists (k, v). split; [done|]. by apply elem_of_map_to_list.
Qed.

Lemma updateRoot_run (s : SDB) (o : OBJ) t :
  storage_base o = Some t → made t →
  ∃ t' e, updateRoot (s, o) = Ret (tt, (s, written o t' e)) ∧ made t' ∧ ∀ k, (TryGet t' k).1 = storage_entries o t k.
Proof.
  intros Hb Ht. destruct (updateTrie_run s o t Hb Ht) as (t' & e & E & H & G). exists t', e.
  unfold updateRoot. rewrite (GM_bind_run _ _ _ _ _ E). by split_and!.
Qed.
End Storage.

Section Accounts.
Context {AT ST VL : Type} `{ENV : StateEnv AT ST VL} `{TLA : !TrieLaws address AT} `{TLS : !TrieLaws hash ST} `{SL : !StorageLaws AT ST VL}.
Context `{WENV : WriteEnv ST VL} `{WL : !WriteLaws ST VL}.

#[local] Abbreviation SDB := (StateDB AT ST VL).
#[local] Abbreviation OBJ := (stateObject ST VL).

(** ** One object *)

Definition encode_panic : string := "can't encode object".

(** An object that is taken out of the trie, and the entry of one that is not. *)
Definition removed (del : bool) (o : OBJ) : bool := o_suicided o || (del && empty o).
Definition entry_of (del : bool) (o : OBJ) : option bytes := if removed del o then None else rlp_EncodeAccount (o_data o).

Definition final_object (del : bool) (o o' : OBJ) : Prop :=
  if removed del o then o' = o <| o_deleted := true |>
  else ∃ t t' e, storage_base o = Some t ∧ made t' ∧ (∀ k, (TryGet t' k).1 = storage_entries o t k) ∧ o' = written o t' e.

Definition unwritable (del : bool) (o : OBJ) : Prop :=
  removed del o = false ∧ ∃ o', final_object del o o' ∧ rlp_EncodeAccount (o_data o') = None.

Lemma final_removed del o o' : final_object del o o' → removed del o' = removed del o.
Proof. unfold final_object. destruct (removed del o) eqn:E; [by intros ->|]. intros (t & t' & e & _ & _ & _ & ->). exact E. Qed.

Lemma setError_None (s : SDB) : setError None s = Ret (tt, s).
Proof. unfold setError, gmodify. by destruct s as [? ? ? [] ? ? ? ? ? ? ? ? ? ?]. Qed.

Lemma delete_run (s : SDB) o :
  trie_ok (s_trie s) → ∃ tr, deleteStateObject o s =
      Ret (tt, s <| s_stateObjects ::= <[o_address o := o <| o_deleted := true |>]> |> <| s_trie := tr |>) ∧ trie_ok tr ∧
    ∀ x, (TryGet tr x).1 = if decide (x = o_address o) then [] else (TryGet (s_trie s) x).1.
Proof.
  intros Ht. unfold deleteStateObject, setStateObject. do 2 (erewrite GM_bind_run by reflexivity). cbn [s_trie s_stateObjects].
  pose proof (TryDelete_ok (s_trie s) (o_address o) Ht) as [H1 H2]. pose proof (λ x, TryDelete_get (s_trie s) (o_address o) x Ht) as H3.
  cbn. destruct (TryDelete (s_trie s) (o_address o)) as [tr err]. cbn in *. subst err. exists tr.
  unfold mbind, GM_bind, gmodify. rewrite setError_None. by destruct s.
Qed.

Lemma update_run (s : SDB) o b :
  trie_ok (s_trie s) → rlp_EncodeAccount (o_data o) = Some b →
  ∃ tr, updateStateObject o s = Ret (tt, s <| s_trie := tr |>) ∧ trie_ok tr ∧
    ∀ x, (TryGet tr x).1 = if decide (x = o_address o) then b else (TryGet (s_trie s) x).1.
Proof.
  intros Ht Hb. pose proof (account_storable _ _ Hb) as Hs. unfold updateStateObject. rewrite Hb. erewrite GM_bind_run by reflexivity.
  pose proof (TryUpdate_ok (s_trie s) (o_address o) b Ht Hs) as [H1 H2]. pose proof (λ x, TryUpdate_get (s_trie s) (o_address o) b x Ht Hs) as H3.
  destruct (TryUpdate (s_trie s) (o_address o) b) as [tr err]. cbn in *. subst err. exists tr.
  unfold mbind, GM_bind, gmodify. by rewrite setError_None.
Qed.

Lemma current_run (s : SDB) a o : s_stateObjects s !! a = Some o → current a s = Ret (o, s).
Proof. intros H. unfold current. erewrite GM_bind_run by reflexivity. by rewrite H. Qed.

(** What finalising the object of [a] makes of the database. *)
Definition settles (del : bool) (a : address) (o : OBJ) (s s' : SDB) : Prop := ∃ o' tr,
  s' = s <| s_stateObjects ::= <[a := o']> |> <| s_trie := tr |> ∧ final_object del o o' ∧ trie_ok tr ∧
  (removed del o = false → is_Some (rlp_EncodeAccount (o_data o'))) ∧
  ∀ x, (TryGet tr x).1 = if decide (x = a) then default [] (entry_of del o') else (TryGet (s_trie s) x).1.

Lemma finalise_object_run del a (s : SDB) o :
  s_stateObjects s !! a = Some o → o_address o = a → object_ok o → trie_ok (s_trie s) →
  match finalise_object del a s with
  | Ret (_, s') => settles del a o s s'
  | Panic w => w = encode_panic ∧ unwritable del o
  end.
Proof.
  intros Ho Ha Hok Ht. unfold finalise_object. rewrite (GM_bind_run _ _ _ _ _ (current_run s a o Ho)).
  fold (removed del o). destruct (removed del o) eqn:Hr.
  { destruct (delete_run s o Ht) as (tr & E & Htr & G). rewrite E. rewrite Ha in *.
    exists (o <| o_deleted := true |>), tr. unfold final_object, entry_of. change (removed del (o <| o_deleted := true |>)) with (removed del o).
    by rewrite Hr. }
  destruct (storage_base_ok o Hok) as (t & Hb & Hm). destruct (updateRoot_run s o t Hb Hm) as (t' & e & E & Hm' & G).
  assert (Hf : final_object del o (written o t' e)) by (unfold final_object; rewrite Hr; by exists t, t', e).
  assert (E1 : on_object o updateRoot s = Ret (tt, s <| s_stateObjects ::= <[a := written o t' e]> |>)).
  { unfold on_object. rewrite E. cbn. by rewrite Ha. }
  rewrite (GM_bind_run _ _ _ _ _ E1). set (s1 := s <| s_stateObjects ::= <[a := written o t' e]> |>).
  rewrite (GM_bind_run _ _ _ _ _ (current_run s1 a (written o t' e) (lookup_insert_eq (s_stateObjects s) _ _))).
  destruct (rlp_EncodeAccount (o_data (written o t' e))) as [b|] eqn:Eb.
  - destruct (update_run s1 (written o t' e) b Ht Eb) as (tr & E2 & Htr & G2).
    rewrite E2. exists (written o t' e), tr. split_and!; [done|done|done|done|]. intros x. rewrite G2. cbn [o_address written].
    change (o_address (written o t' e)) with (o_address o). rewrite Ha. case_decide; [|done].
    unfold entry_of. rewrite (final_removed _ _ _ Hf), Hr, Eb. done.
  - unfold updateStateObject. rewrite Eb. split; [done|]. split; [done|]. by eexists.
Qed.

(** ** All of them *)

Record finalised (del : bool) (l : list address) (s s' : SDB) : Prop := mkFinalised {
  fi_shape : s' = s <| s_stateObjects := s_stateObjects s' |> <| s_trie := s_trie s' |>;
  fi_trie : trie_ok (s_trie s');
  fi_else a : a ∉ l → s_stateObjects s' !! a = s_stateObjects s !! a ∧ (TryGet (s_trie s') a).1 = (TryGet (s_trie s) a).1;
  fi_done a o : a ∈ l → s_stateObjects s !! a = Some o → ∃ o',
    s_stateObjects s' !! a = Some o' ∧ final_object del o o' ∧ (TryGet (s_trie s') a).1 = default [] (entry_of del o') ∧
    (removed del o = false → is_Some (rlp_EncodeAccount (o_data o')))
}.

(** The objects of the addresses are in order. *)
Definition all_ready (l : list address) (s : SDB) : Prop :=
  ∀ a, a ∈ l → ∃ o, s_stateObjects s !! a = Some o ∧ o_address o = a ∧ object_ok o.

Lemma finalise_loop_run del l (s : SDB) :
  NoDup l → trie_ok (s_trie s) → all_ready l s →
  match finalise_loop del l s with
  | Ret (_, s') => finalised del l s s'
  | Panic w => w = encode_panic ∧ ∃ a o, a ∈ l ∧ s_stateObjects s !! a = Some o ∧ unwritable del o
  end.
Proof.
  intros Hnd. revert s. induction Hnd as [|a l Ha Hnd IH]; intros s Ht Hr; cbn [finalise_loop].
  { split; [by destruct s|done|done|]. intros a o Ha. by apply elem_of_nil in Ha. }
  destruct (Hr a) as (o & Ho & Hoa & Hok); [by left|]. pose proof (finalise_object_run del a s o Ho Hoa Hok Ht) as H1.
  unfold mbind, GM_bind. destruct (finalise_object del a s) as [[[] s1]|w].
  2: { destruct H1 as [-> Hu]. split; [done|]. exists a, o. split_and!; [by left|done|done]. }
  destruct H1 as (o' & tr & -> & Hf & Htr & He & G).
  assert (Hne : ∀ x, x ∈ l → (<[a := o']> (s_stateObjects s)) !! x = s_stateObjects s !! x).
  { intros x Hx. apply lookup_insert_ne. by intros <-. }
  specialize (IH (s <| s_stateObjects ::= <[a := o']> |> <| s_trie := tr |>) Htr).
  assert (Hr' : all_ready l (s <| s_stateObjects ::= <[a := o']> |> <| s_trie := tr |>)).
  { intros x Hx. destruct (Hr x) as (ox & ? & ? & ?); [by right|]. exists ox. split; [|done]. cbn. by rewrite Hne. }
  specialize (IH Hr'). destruct (finalise_loop del l _) as [[[] s']|w].
  2: { destruct IH as [-> (x & ox & Hx & Hox & Hu)]. split; [done|]. exists x, ox. cbn in Hox. rewrite Hne in Hox by done. split_and!; [by right|done|done]. }
  destruct IH as [I1 I2 I3 I4]. split; [|done|..].
  - rewrite I1. by destruct s.
  - intros x Hx. apply not_elem_of_cons in Hx as [Hxa Hx]. destruct (I3 x Hx) as [J1 J2]. cbn in J1, J2. rewrite J1, J2, G.
    rewrite lookup_insert_ne by done. by rewrite decide_False.
  - intros x ox Hx Hox. apply elem_of_cons in Hx as [->|Hx].
    + assert (ox = o) as -> by congruence. destruct (I3 a Ha) as [J1 J2]. cbn in J1, J2. exists o'. rewrite J1, J2, G, lookup_insert_eq.
      rewrite decide_True by done. done.
    + apply (I4 x ox Hx). cbn. by rewrite Hne.
Qed.

Lemma dirty_ready (s : SDB) : wf s → NoDup (range_dirty (s_stateObjectsDirty s)) ∧ all_ready (range_dirty (s_stateObjectsDirty s)) s ∧
  ∀ a, a ∈ range_dirty (s_stateObjectsDirty s) ↔ a ∈ s_stateObjectsDirty s.
Proof.
  intros W. assert (Hin : ∀ a, a ∈ range_dirty (s_stateObjectsDirty s) ↔ a ∈ s_stateObjectsDirty s).
  { intros a. rewrite range_dirty_all. apply elem_of_elements. }
  split_and!; [rewrite range_dirty_all; apply NoDup_elements| |done].
  intros a Ha%Hin. apply (wf_dirty _ W) in Ha. apply elem_of_dom in Ha as [o Ho]. exists o. split_and!; [done|by eapply wf_address|by eapply wf_assets].
Qed.

Lemma Finalise_run del (s : SDB) :
  wf s → trie_ok (s_trie s) →
  match Finalise del s with
  | Ret (_, s') => ∃ s1, finalised del (elements (s_stateObjectsDirty s)) s s1 ∧
      s' = s1 <| s_journal := [] |> <| s_validRevisions := [] |> <| s_refund := 0 |>
  | Panic w => w = encode_panic ∧ ∃ a o, a ∈ s_stateObjectsDirty s ∧ s_stateObjects s !! a = Some o ∧ unwritable del o
  end.
Proof.
  intros W Ht. destruct (dirty_ready s W) as (Hnd & Hr & Hin). pose proof (finalise_loop_run del _ s Hnd Ht Hr) as H.
  unfold Finalise. erewrite GM_bind_run by reflexivity. unfold mbind, GM_bind. destruct (finalise_loop _ _ _) as [[[] s1]|w].
  - exists s1. split; [|done]. destruct H as [H1 H2 H3 H4]. split; [done|done|..].
    + intros a Ha. apply H3. rewrite Hin. by rewrite elem_of_elements in Ha.
    + intros a o Ha. apply H4. rewrite Hin. by rewrite elem_of_elements in Ha.
  - destruct H as [-> (a & o & Ha & Ho & Hu)]. split; [done|]. exists a, o. by rewrite <- Hin.
Qed.
End Accounts.

(** ** The root does not depend on the orders *)

Section Determinism.
Context {AT ST VL : Type} `{ENV : StateEnv AT ST VL} `{TLA : !TrieLaws address AT} `{TLS : !TrieLaws hash ST} `{SL : !StorageLaws AT ST VL}.

#[local] Abbreviation SDB := (StateDB AT ST VL).
#[local] Abbreviation OBJ := (stateObject ST VL).

(** Objects that write the same; their caches may differ. *)
Record same_writes (o o' : OBJ) : Prop := mkSameWrites {
  sw_suicided : o_suicided o = o_suicided o';
  sw_deleted : o_deleted o = o_deleted o';
  sw_data : o_data o = o_data o';
  sw_dirty : o_dirtyStorage o = o_dirtyStorage o';
  sw_storage t t' k : storage_base o = Some t → storage_base o' = Some t' → (TryGet t k).1 = (TryGet t' k).1
}.

(** Databases that write the same. *)
Record same_state (s s' : SDB) : Prop := mkSameState {
  ss_trie a : (TryGet (s_trie s) a).1 = (TryGet (s_trie s') a).1;
  ss_dirty : s_stateObjectsDirty s = s_stateObjectsDirty s';
  ss_objects a o o' : a ∈ s_stateObjectsDirty s → s_stateObjects s !! a = Some o → s_stateObjects s' !! a = Some o' → same_writes o o'
}.

Lemma same_removed del o o' : same_writes o o' → removed del o = removed del o'.
Proof. intros [H1 _ H2 _ _]. unfold removed, empty. by rewrite H1, H2. Qed.

Lemma final_same del o o' f f' :
  same_writes o o' → final_object del o f → final_object del o' f' → same_writes f f'.
Proof.
  intros S. pose proof (same_removed del _ _ S) as Hr. destruct S as [S1 S2 S3 S4 S5]. unfold final_object. rewrite <- Hr.
  destruct (removed del o); [intros -> ->; by split|].
  intros (t & t1 & e & Hb & Hm & G & ->) (t' & t1' & e' & Hb' & Hm' & G' & ->).
  assert (Hg : ∀ k, (TryGet t1 k).1 = (TryGet t1' k).1).
  { intros k. rewrite G, G'. unfold storage_entries, overwrite. rewrite S4. destruct (_ !! k); [done|]. by apply S5. }
  split; [done|done| |done|].
  - unfold written. cbn. rewrite S3. f_equal. apply trie_Hash_ext; auto using made_ok.
  - intros x x' k. unfold storage_base, trie_of. cbn. intros [= <-] [= <-]. apply Hg.
Qed.
End Determinism.

(** Two nodes that write the same, with their own orders of visiting maps. *)
Section Nodes.
Context {AT ST VL : Type} `{ENV : StateEnv AT ST VL} `{TLA : !TrieLaws address AT} `{TLS : !TrieLaws hash ST} `{SL : !StorageLaws AT ST VL}.
Variables (W W' : WriteEnv ST VL).
Context (WL : WriteLaws ST VL (WENV := W)) (WL' : WriteLaws ST VL (WENV := W')).
Hypothesis same_encoder : ∀ d, rlp_EncodeAccount (WriteEnv := W) d = rlp_EncodeAccount (WriteEnv := W') d.

#[local] Abbreviation SDB := (StateDB AT ST VL).

Lemma finalised_same del (s s' f f' : SDB) :
  wf s → wf s' → same_state s s' →
  finalised (WENV := W) del (elements (s_stateObjectsDirty s)) s f →
  finalised (WENV := W') del (elements (s_stateObjectsDirty s')) s' f' →
  same_state f f'.
Proof.
  intros Wf Wf' [S1 S2 S3] [I1 I2 I3 I4] [J1 J2 J3 J4]. rewrite <- S2 in *.
  assert (Hd : s_stateObjectsDirty f = s_stateObjectsDirty s) by (by rewrite I1).
  assert (Hd' : s_stateObjectsDirty f' = s_stateObjectsDirty s') by (by rewrite J1).
  assert (Hin : ∀ a, a ∈ s_stateObjectsDirty s → ∃ o o', s_stateObjects s !! a = Some o ∧ s_stateObjects s' !! a = Some o').
  { intros a Ha. destruct (proj1 (elem_of_dom _ _) (wf_dirty _ Wf a Ha)) as [o Ho]. rewrite S2 in Ha.
    destruct (proj1 (elem_of_dom _ _) (wf_dirty _ Wf' a Ha)) as [o' Ho']. eauto. }
  split.
  - intros a. destruct (decide (a ∈ s_stateObjectsDirty s)) as [Ha|Ha].
    + destruct (Hin a Ha) as (o & o' & Ho & Ho'). pose proof (S3 a o o' Ha Ho Ho') as Hs. apply elem_of_elements in Ha.
      destruct (I4 a o Ha Ho) as (x & _ & Fx & -> & _), (J4 a o' Ha Ho') as (x' & _ & Fx' & -> & _).
      unfold entry_of. rewrite (final_removed _ _ _ Fx), (final_removed _ _ _ Fx'), (same_removed _ _ _ Hs).
      pose proof (final_same del _ _ _ _ Hs Fx Fx') as [_ _ E _ _]. by rewrite E, same_encoder.
    + rewrite <- elem_of_elements in Ha. rewrite (proj2 (I3 a Ha)), (proj2 (J3 a Ha)). apply S1.
  - congruence.
  - intros a x x' Ha Hx Hx'. rewrite Hd in Ha. destruct (Hin a Ha) as (o & o' & Ho & Ho'). pose proof (S3 a o o' Ha Ho Ho') as Hs.
    apply elem_of_elements in Ha. destruct (I4 a o Ha Ho) as (y & Hy & Fy & _), (J4 a o' Ha Ho') as (y' & Hy' & Fy' & _).
    assert (x = y) as -> by congruence. assert (x' = y') as -> by congruence. by eapply final_same.
Qed.

Lemma unwritable_same del (s s' f' : SDB) a o :
  wf s → wf s' → same_state s s' → finalised (WENV := W') del (elements (s_stateObjectsDirty s')) s' f' →
  a ∈ s_stateObjectsDirty s → s_stateObjects s !! a = Some o → ¬ unwritable (WENV := W) del o.
Proof.
  intros Wf Wf' [S1 S2 S3] [J1 J2 J3 J4] Ha Ho (Hr & x & Fx & Ex). pose proof Ha as Ha'. rewrite S2 in Ha'.
  destruct (proj1 (elem_of_dom _ _) (wf_dirty _ Wf' a Ha')) as [o' Ho']. pose proof (S3 a o o' Ha Ho Ho') as Hs.
  apply elem_of_elements in Ha'. destruct (J4 a o' Ha' Ho') as (y & _ & Fy & _ & He).
  rewrite <- (same_removed _ _ _ Hs) in He. destruct (He Hr) as [b Eb].
  pose proof (final_same del _ _ _ _ Hs Fx Fy) as [_ _ E _ _]. rewrite <- same_encoder, <- E in Eb. congruence.
Qed.
End Nodes.

Lemma same_state_sym {AT ST VL : Type} `{ENV : StateEnv AT ST VL} (s s' : StateDB AT ST VL) : same_state s s' → same_state s' s.
Proof.
  intros [S1 S2 S3]. split; [done|done|]. intros a o o' Ha Ho Ho'. rewrite <- S2 in Ha. destruct (S3 a o' o Ha Ho' Ho) as [H1 H2 H3 H4 H5].
  split; [done..|]. intros t t' k E E'. symmetry. by eapply H5.
Qed.

(** C14: The state root is the same on every node.  Take two well-formed databases whose
    tries have the same entries, in which the same accounts are dirty, and whose dirty
    objects agree in their data, their marks and their storage with what is still to be
    written to it; accounts that are not dirty may be cached in one and not in the
    other, and so may storage that was only read.  Visiting their maps of dirty accounts
    and changed storage in whatever order, either both stop because they have an account
    that cannot be encoded, or both compute the same root, and agree as before
    afterwards.  Databases that only give the same answers can differ in what is dirty,
    and then in their roots, see [emptied_account_returns]. *)
Theorem state_root_deterministic {AT ST VL : Type} `{ENV : StateEnv AT ST VL} `{TLA : !TrieLaws address AT} `{TLS : !TrieLaws hash ST}
    `{SL : !StorageLaws AT ST VL} (W W' : WriteEnv ST VL) (WL : WriteLaws ST VL (WENV := W)) (WL' : WriteLaws ST VL (WENV := W'))
    (del : bool) (s s' : StateDB AT ST VL) :
  (∀ d, rlp_EncodeAccount (WriteEnv := W) d = rlp_EncodeAccount (WriteEnv := W') d) →
  wf s → wf s' → trie_ok (s_trie s) → trie_ok (s_trie s') → same_state s s' →
  match IntermediateRoot (WENV := W) del s, IntermediateRoot (WENV := W') del s' with
  | Ret (root, f), Ret (root', f') => root = root' ∧ same_state f f' ∧ trie_ok (s_trie f) ∧ trie_ok (s_trie f')
  | Panic w, Panic w' => w = encode_panic ∧ w' = encode_panic
  | _, _ => False
  end.
Proof.
  intros He Wf Wf' Ht Ht' S. pose proof (Finalise_run (WENV := W) del s Wf Ht) as R. pose proof (Finalise_run (WENV := W') del s' Wf' Ht') as R'.
  unfold IntermediateRoot. unfold mbind, GM_bind.
  destruct (Finalise (WENV := W) del s) as [[[] f]|w], (Finalise (WENV := W') del s') as [[[] f']|w'].
  - destruct R as (x & Fx & ->), R' as (x' & Fx' & ->). pose proof (finalised_same W W' He del s s' x x' Wf Wf' S Fx Fx') as [S1 S2 S3].
    destruct Fx as [_ T _ _], Fx' as [_ T' _ _]. cbn. split_and!; [by apply trie_Hash_ext|by split|done|done].
  - destruct R as (x & Fx & ->), R' as (_ & a & o & Ha & Ho & Hu). revert Hu.
    apply (unwritable_same W' W (λ d, eq_sym (He d)) del s' s x a o Wf' Wf (same_state_sym _ _ S) Fx Ha Ho).
  - destruct R' as (x & Fx & ->), R as (_ & a & o & Ha & Ho & Hu). revert Hu.
    apply (unwritable_same W W' He del s s' x a o Wf Wf' S Fx Ha Ho).
  - by destruct R as [-> _], R' as [-> _].
Qed.

(** ** What remains of the answers *)

(** An account reads back from its encoding; the vote list gets an array of its own. *)
Class AccountLaws (AT ST VL : Type) `{ENV : StateEnv AT ST VL} `{WENV : WriteEnv ST VL} : Prop := {
  account_back a d b : rlp_EncodeAccount d = Some b → ∃ d', rlp_DecodeAccount a b = Some d' ∧
    a_Nonce d' = a_Nonce d ∧ a_Balance d' = a_Balance d ∧ a_Root d' = a_Root d ∧ a_CodeHash d' = a_CodeHash d ∧
    default 0 (a_LockBalance d') = default 0 (a_LockBalance d) ∧ a_AssetList d' = a_AssetList d ∧ a_AssetHash d' = a_AssetHash d
}.

Section Answers.
Context {AT ST VL : Type} `{ENV : StateEnv AT ST VL} `{TLA : !TrieLaws address AT} `{TLS : !TrieLaws hash ST} `{SL : !StorageLaws AT ST VL}.
Context `{WENV : WriteEnv ST VL} `{WL : !WriteLaws ST VL} `{AL : !AccountLaws AT ST VL}.

#[local] Abbreviation SDB := (StateDB AT ST VL).
#[local] Abbreviation OBJ := (stateObject ST VL).

(** The same answers but for the root of the storage. *)
Record alike (o o' : OBJ) : Prop := mkAlike {
  al_address : o_address o' = o_address o;
  al_deleted : o_deleted o' = o_deleted o;
  al_suicided : o_suicided o' = o_suicided o;
  al_data : o_data o' = (o_data o) <| a_Root := a_Root (o_data o') |>;
  al_code : code_view o' = code_view o;
  al_asset : assetData_view o' = assetData_view o;
  al_storage k : storage_view o' k = storage_view o k
}.

Lemma trie_value_ext (t t' : ST) k : made t → made t' → (TryGet t k).1 = (TryGet t' k).1 → trie_value t k = trie_value t' k.
Proof.
  intros Hm Hm' E. unfold trie_value. pose proof (TryGet_ok t k (made_ok _ Hm)) as N. pose proof (TryGet_ok t' k (made_ok _ Hm')) as N'.
  destruct (TryGet t k), (TryGet t' k). cbn in *. by subst.
Qed.

Lemma written_alike o t t' e :
  object_ok o → storage_base o = Some t → made t' → (∀ k, (TryGet t' k).1 = storage_entries o t k) → alike o (written o t' e).
Proof.
  intros Hok Hb Hm' G. split; try done. intros k. unfold storage_view, storage_of. cbn.
  destruct (o_cachedStorage o !! k) as [v|] eqn:Ec; [done|]. fold (storage_base o). rewrite Hb. cbn. f_equal.
  destruct (storage_base_ok o Hok) as (t2 & Hb2 & Hm). assert (t2 = t) as -> by congruence.
  apply trie_value_ext; [done..|]. rewrite G. unfold storage_entries, overwrite.
  destruct Hok as (_ & _ & Hs & _). destruct (o_dirtyStorage o !! k) as [v|] eqn:Ed; [|done].
  pose proof (lookup_weaken _ _ _ _ Ed Hs). congruence.
Qed.

Lemma written_ok o t' e : object_ok o → made t' → object_ok (written o t' e).
Proof. intros (H1 & H2 & H3 & H4) Hm. split_and!; [done|done|apply map_empty_subseteq|done]. Qed.

Lemma load_ext (t t' : AT) a : (TryGet t a).1 = (TryGet t' a).1 → load t a = load t' a.
Proof. intros E. unfold load. by rewrite E. Qed.

(** What an account answers after [Finalise]: nothing if it was dirty and removed, the
    same otherwise. *)
Lemma finalised_live del (s f : SDB) a :
  wf s → finalised del (elements (s_stateObjectsDirty s)) s f →
  match live s a with
  | None => live f a = None
  | Some o => (a ∈ s_stateObjectsDirty s ∧ removed del o = true ∧ live f a = None) ∨ ∃ o', live f a = Some o' ∧ alike o o'
  end.
Proof.
  intros W [I1 I2 I3 I4]. destruct (decide (a ∈ s_stateObjectsDirty s)) as [Ha|Ha].
  - destruct (proj1 (elem_of_dom _ _) (wf_dirty _ W a Ha)) as [o Ho]. pose proof Ha as Ha'. apply elem_of_elements in Ha.
    destruct (I4 a o Ha Ho) as (o' & Ho' & F & _). unfold live. rewrite Ho, Ho'. unfold final_object in F.
    destruct (removed del o) eqn:Hr; [subst o'; cbn; destruct (o_deleted o); [done|by left]|].
    destruct F as (t & t' & e & Hb & Hm & G & ->). pose proof (written_alike o t t' e (wf_assets _ W _ _ Ho) Hb Hm G) as A.
    change (o_deleted (written o t' e)) with (o_deleted o). destruct (o_deleted o); [done|]. right. eauto.
  - rewrite <- elem_of_elements in Ha. destruct (I3 a Ha) as [E1 E2]. assert (live f a = live s a) as ->.
    { unfold live. rewrite E1. destruct (s_stateObjects s !! a); [done|]. by apply load_ext. }
    destruct (live s a) as [o|]; [right|done]. exists o. split; [done|]. split; try done. by destruct o as [? [] ? ? ? ? ? ? ? ? ? ? ? ? ?].
Qed.

(** No object is marked as deleted that would be written again. *)
Definition stays_deleted (del : bool) (s : SDB) : Prop :=
  ∀ a o, a ∈ s_stateObjectsDirty s → s_stateObjects s !! a = Some o → o_deleted o = true → removed del o = true.

Lemma wf_stays_deleted (s : SDB) : wf s → stays_deleted true s.
Proof. intros W a o _ Ho Hd. unfold removed. destruct (wf_gone _ W a o Ho Hd) as [->| ->]; [done|]. by rewrite orb_true_r. Qed.

Lemma finalised_cases del (s f : SDB) a x :
  wf s → finalised del (elements (s_stateObjectsDirty s)) s f → s_stateObjects f !! a = Some x →
  (s_stateObjects s !! a = Some x ∧ a ∉ s_stateObjectsDirty s ∧ (TryGet (s_trie f) a).1 = (TryGet (s_trie s) a).1) ∨
  ∃ o, s_stateObjects s !! a = Some o ∧ a ∈ s_stateObjectsDirty s ∧ final_object del o x ∧ (TryGet (s_trie f) a).1 = default [] (entry_of del x).
Proof.
  intros W [I1 I2 I3 I4] Hx. destruct (decide (a ∈ s_stateObjectsDirty s)) as [Ha|Ha].
  - destruct (proj1 (elem_of_dom _ _) (wf_dirty _ W a Ha)) as [o Ho]. right. exists o. split_and!; [done|done|..];
    apply elem_of_elements in Ha; destruct (I4 a o Ha Ho) as (o' & Ho' & F & E & _); assert (x = o') as -> by congruence; done.
  - left. pose proof Ha as Ha'. rewrite <- elem_of_elements in Ha. destruct (I3 a Ha) as [E1 E2]. split_and!; [congruence|done|done].
Qed.

Lemma final_object_ok del o x : object_ok o → final_object del o x → object_ok x ∧ o_address x = o_address o.
Proof.
  intros Hok. unfold final_object. destruct (removed del o); [by intros ->|]. intros (t & t' & e & _ & Hm & _ & ->). split; [by apply written_ok|done].
Qed.

Lemma finalised_wf del (s f : SDB) :
  wf s → stays_deleted del s → finalised del (elements (s_stateObjectsDirty s)) s f → wf f.
Proof.
  intros W Hs F. pose proof F as [I1 I2 I3 I4]. split.
  - intros a x Hx. destruct (finalised_cases _ _ _ _ _ W F Hx) as [(Ho & _)|(o & Ho & _ & Fx & _)]; [by eapply wf_address|].
    destruct (final_object_ok _ _ _ (wf_assets _ W _ _ Ho) Fx) as [_ ->]. by eapply wf_address.
  - intros a x Hx Hd. destruct (finalised_cases _ _ _ _ _ W F Hx) as [(Ho & _ & E)|(o & Ho & Ha & Fx & E)].
    + rewrite (load_ext _ (s_trie s)) by done. by eapply wf_deleted.
    + assert (Hr : removed del o = true).
      { destruct (removed del o) eqn:Hr; [done|]. unfold final_object in Fx. rewrite Hr in Fx. destruct Fx as (t & t' & e & _ & _ & _ & ->).
        rewrite (Hs a o Ha Ho Hd) in Hr. done. }
      unfold entry_of in E. rewrite (final_removed _ _ _ Fx), Hr in E. unfold load. by rewrite E.
  - intros a x Hx Hd. destruct (finalised_cases _ _ _ _ _ W F Hx) as [(Ho & _)|(o & Ho & Ha & Fx & _)]; [by eapply wf_gone|].
    unfold final_object in Fx. destruct (removed del o) eqn:Hr.
    + subst x. unfold removed in Hr. apply orb_true_iff in Hr as [?|[_ ?]%andb_true_iff]; [by left|by right].
    + destruct Fx as (t & t' & e & _ & _ & _ & ->). rewrite (Hs a o Ha Ho Hd) in Hr. done.
  - intros a x Hx. destruct (finalised_cases _ _ _ _ _ W F Hx) as [(Ho & _)|(o & Ho & _ & Fx & _)]; [by eapply wf_assets|].
    by apply (final_object_ok _ _ _ (wf_assets _ W _ _ Ho) Fx).
  - intros a x. destruct (decide (a ∈ s_stateObjectsDirty s)) as [Ha|Ha].
    + destruct (proj1 (elem_of_dom _ _) (wf_dirty _ W a Ha)) as [o Ho]. apply elem_of_elements in Ha.
      destruct (I4 a o Ha Ho) as (o' & _ & Fo & E & _). unfold load. rewrite E. case_decide as Hn; [done|]. unfold entry_of in Hn |- *.
      destruct (removed del o'); [done|]. destruct (rlp_EncodeAccount (o_data o')) as [b|] eqn:Eb; [|done]. cbn.
      destruct (account_back a _ _ Eb) as (d' & -> & _ & _ & _ & _ & _ & Ea & _). cbn. intros [= <-].
      destruct (final_object_ok _ _ _ (wf_assets _ W _ _ Ho) Fo) as [(H1 & H2 & _) _]. split_and!; cbn; by rewrite ?Ea.
    + rewrite <- elem_of_elements in Ha. destruct (I3 a Ha) as [_ E]. rewrite (load_ext _ (s_trie s)) by done. apply (wf_load _ W).
  - rewrite I1. apply W.
  - rewrite I1 at 1. cbn. intros a Ha. destruct (proj1 (elem_of_dom _ _) (wf_dirty _ W a Ha)) as [o Ho]. apply elem_of_dom.
    apply elem_of_elements in Ha. destruct (I4 a o Ha Ho) as (o' & -> & _). done.
Qed.

Lemma finalised_sound del (s f : SDB) : wf s → sound s → finalised del (elements (s_stateObjectsDirty s)) s f → sound f.
Proof.
  intros W S F a x Hx. pose proof (finalised_live del s f a W F) as H. destruct (live s a) as [o|] eqn:Ho; [|congruence].
  destruct H as [(_ & _ & H)|(o' & H & [_ _ _ Hd Hc _ _])]; [congruence|]. assert (x = o') as -> by congruence.
  destruct (S a o Ho) as [B C]. split; [by rewrite Hd|by rewrite Hc].
Qed.

Lemma finalised_flow del (s f : SDB) : wf s → sound s → finalised del (elements (s_stateObjectsDirty s)) s f → flow s f.
Proof.
  intros W S F. apply flow_le. intros asset a. pose proof (finalised_live del s f a W F) as H. pose proof (holding_nonneg s asset a W S) as Hn.
  assert (Hz : live f a = None → holding f asset a = 0).
  { intros E. unfold holding, balance, asset_balance, acct. rewrite E. by destruct asset. }
  destruct (live s a) as [o|] eqn:Ho; [|rewrite Hz by done; lia].
  destruct H as [(_ & _ & H)|(o' & H & [_ _ _ Hd _ _ _])]; [rewrite Hz by done; lia|].
  assert (holding f asset a = holding s asset a) as ->; [|done].
  unfold holding, balance, asset_balance, acct. rewrite H, Ho. rewrite Hd. by destruct asset.
Qed.

(** ** The invariant through everything *)

(** The operations of a database between two blocks: those of [op], reverts under the
    rules before and after the fork, the start and the end of a transaction, and a
    fresh start from another root. *)
Inductive db_op : Type :=
| dbOp (o : op (VL := VL))
| dbRevert (id : Z) (isEpiphron : bool)
| dbPrepare (thash bhash : hash) (ti : Z)
| dbFinalise
| dbIntermediateRoot
| dbReset (root : hash).

Definition db_exec (o : db_op) : GM SDB unit :=
  match o with
  | dbOp o => exec o
  | dbRevert id fork => RevertToSnapshot id fork
  | dbPrepare thash bhash ti => Prepare thash bhash ti
  | dbFinalise => Finalise true
  | dbIntermediateRoot => discard (IntermediateRoot true)
  | dbReset root => discard (Reset root)
  end.

Fixpoint db_run (os : list db_op) : GM SDB unit :=
  match os with [] => mret tt | o :: os => db_exec o;; db_run os end.

(** Amounts of assets are not negative, and a root that is opened is one of well-formed
    accounts. *)
Definition db_op_ok (o : db_op) : Prop :=
  match o with
  | dbOp o => amounts_ok o
  | dbReset root => ∀ t, db_OpenTrie root = inl t → trie_ok t ∧ ∀ a o, load t a = Some o → object_ok o
  | _ => True
  end.

Lemma Finalise_Inv (s s1 : SDB) :
  wf s → trie_ok (s_trie s) → Finalise true s = Ret (tt, s1) → Inv s1 ∧ trie_ok (s_trie s1).
Proof.
  intros W Ht E. pose proof (Finalise_run true s W Ht) as H. rewrite E in H. destruct H as (f & F & ->).
  pose proof (finalised_wf _ _ _ W (wf_stays_deleted s W) F) as Wf. destruct F as [_ T _ _].
  split; [|done]. split; [by destruct Wf|by repeat constructor|constructor].
Qed.

Lemma Reset_Inv root (s s1 : SDB) r :
  db_op_ok (dbReset root) → Inv s → trie_ok (s_trie s) → Reset root s = Ret (r, s1) → Inv s1 ∧ trie_ok (s_trie s1).
Proof.
  intros Hok I Ht. unfold Reset. destruct (db_OpenTrie root) as [t|] eqn:Eo; [|by intros [= <- <-]].
  destruct (Hok t Eo) as [Tt Hl]. intros [= <- <-]. split; [|done]. split; [split|by repeat constructor|constructor]; cbn; try done.
Qed.

Lemma db_exec_Inv o (s s1 : SDB) :
  db_op_ok o → Inv s → trie_ok (s_trie s) → db_exec o s = Ret (tt, s1) → Inv s1 ∧ trie_ok (s_trie s1).
Proof.
  intros Hok I Ht. destruct o; cbn [db_exec]; intros E.
  - split; [by eapply exec_Inv|]. by rewrite (exec_trie _ _ _ Hok I E).
  - split; [by eapply revert_Inv|]. by rewrite (revert_trie _ _ _ _ (inv_revs _ I) E).
  - injection E as <-. split; [|done]. destruct I as [W R J]. split; [|by destruct R|done]. by apply (wf_frame s); try apply W.
  - eapply Finalise_Inv; [apply I|done..].
  - apply discard_Ret in E as (r & ([] & s2 & E1 & E2)%GM_bind_Ret). injection E2 as _ <-. eapply Finalise_Inv; [apply I|done..].
  - apply discard_Ret in E as [r E]. by eapply Reset_Inv.
Qed.

(** [Finalise] keeps a sound state. *)
Lemma Finalise_keeps del (s : SDB) :
  wf s → trie_ok (s_trie s) → sound s → stays_deleted del s →
  match Finalise del s with
  | Ret (_, s') => Inv s' ∧ sound s' ∧ flow s s' ∧ trie_ok (s_trie s') ∧ s_logs s' = s_logs s ∧ s_stateObjectsDirty s' = s_stateObjectsDirty s
  | Panic w => w = encode_panic
  end.
Proof.
  intros W Ht S Hs. pose proof (Finalise_run del s W Ht) as H. destruct (Finalise del s) as [[[] s']|w]; [|by destruct H].
  destruct H as (f & F & ->). pose proof (finalised_wf _ _ _ W Hs F) as Wf. pose proof (finalised_sound _ _ _ W S F) as Sf.
  pose proof (finalised_flow _ _ _ W S F) as Ff. destruct F as [E T _ _]. split_and!; [|done|done|done|by rewrite E|by rewrite E].
  split; [by destruct Wf|by repeat constructor|constructor].
Qed.
End Answers.

(** C32: The invariant of the account state.  Whatever setters and getters, snapshots
    and reverts (before and after the fork), starts and ends of transactions
    ([Finalise(true)], [IntermediateRoot(true)]) and resets run, as long as they return:
    no account object is stored under a foreign address, an object marked deleted has
    no entry in the trie, every account's asset list stays strictly ordered by id with
    no negative balance, what is still to be written to an account's storage is what is
    read from it, revision ids grow and stay below the next id, and journal indices of
    the revisions grow and stay within the journal.  Amounts of assets are not negative
    and a reset opens a root of well-formed accounts.  [Finalise(false)] is not among
    the operations: after [Finalise(true)] it breaks the invariant, see
    [emptied_account_returns]. *)
Theorem state_invariant {AT ST VL : Type} `{ENV : StateEnv AT ST VL} `{TLA : !TrieLaws address AT} `{TLS : !TrieLaws hash ST}
    `{SL : !StorageLaws AT ST VL} `{WENV : WriteEnv ST VL} `{WL : !WriteLaws ST VL} `{AL : !AccountLaws AT ST VL}
    (os : list (db_op (VL := VL))) (s s' : StateDB AT ST VL) :
  Inv s → trie_ok (s_trie s) → Forall db_op_ok os → db_run os s = Ret (tt, s') → Inv s' ∧ trie_ok (s_trie s').
Proof.
  intros I Ht Ho. revert s I Ht. induction Ho as [|o os Ho _ IH]; intros s I Ht E; [by injection E as <-|].
  apply GM_bind_Ret in E as ([] & s1 & E1 & E2). destruct (db_exec_Inv o s s1 Ho I Ht E1). by eapply IH.
Qed.

(** ** On the sample environment *)

Import Sample.

Section SampleLaws.
Context `{Countable VL} (nil : VL).

Lemma sample_storage_laws_of : StorageLaws (gmap address bytes) (gmap hash bytes) VL (ENV := sample_env_of nil).
Proof.
  split.
  - intros ah root t. cbn. case_decide; [|done]. intros [= <-] k. by rewrite lookup_empty.
  - intros ah. by exists ∅.
  - intros v _. cbn. split; [|unfold hash_bytes; by rewrite length_be_bytes]. intros E. apply (f_equal length) in E.
    unfold hash_bytes in E. by rewrite length_be_bytes in E.
  - intros v _. cbn. apply BytesToHash_hash_bytes.
Qed.

Lemma sample_account_storable (d : Account VL) b : rlp_EncodeAccount (WriteEnv := sample_write_env) d = Some b → storable_value b.
Proof.
  cbn. destruct (_ || _) eqn:E; [done|]. intros [= <-]. apply orb_false_iff in E as [_ E%Z.leb_gt]. split; [apply bits_of_nonempty|done].
Qed.

Lemma sample_write_laws : WriteLaws (gmap hash bytes) VL (WENV := sample_write_env).
Proof. split; [done..|]. apply sample_account_storable. Qed.

Lemma sample_account_laws : AccountLaws (gmap address bytes) (gmap hash bytes) VL (ENV := sample_env_of nil) (WENV := sample_write_env).
Proof.
  split. intros a d b. cbn. destruct (_ || _); [done|]. intros [= <-]. exists d. by rewrite deserialize_serialize.
Qed.
End SampleLaws.

#[export] Instance sample_storage_laws : StorageLaws (gmap address bytes) (gmap hash bytes) (list address) := sample_storage_laws_of [].

(** A node that visits its maps the other way around. *)
Definition backward_write_env : WriteEnv (gmap hash bytes) (list address) := {|
  range_storage m := reverse (map_to_list m);
  range_dirty d := reverse (elements d);
  range_objects m := reverse (map_to_list m);
  rlp_EncodeAccount := rlp_EncodeAccount (WriteEnv := sample_write_env)
|}.

Lemma backward_write_laws : WriteLaws (gmap hash bytes) (list address) (WENV := backward_write_env).
Proof. split; [intros; apply reverse_Permutation..|]. apply sample_account_storable. Qed.

(** Two accounts, one of them with two values in its storage. *)
Definition touching : list (op (VL := list address)) :=
  [opAddBalance (to_word 160 1) 5; opSetState (to_word 160 2) (to_word 256 1) (to_word 256 7);
   opSetState (to_word 160 2) (to_word 256 2) (to_word 256 8); opSetNonce (to_word 160 2) 3].
Definition touched_accounts : StateDB (gmap address bytes) (gmap hash bytes) (list address) := final (run touching) empty_state.

Lemma touched_accounts_wf : wf touched_accounts.
Proof.
  eapply (inv_wf touched_accounts). apply (run_Inv touching empty_state touched_accounts); [exact sample_Inv|by repeat constructor|]. unfold touched_accounts. apply final_unit. vm_compute. reflexivity.
Qed.

Lemma touched_accounts_trie : trie_ok (s_trie touched_accounts).
Proof.
  assert (E : base.size (s_trie touched_accounts) = 0%nat) by (vm_compute; reflexivity). apply map_size_empty_inv in E.
  refine (eq_ind_r trie_ok _ E). intros k. by rewrite lookup_empty.
Qed.

Lemma same_state_refl {AT ST VL : Type} `{ENV : StateEnv AT ST VL} (s : StateDB AT ST VL) : same_state s s.
Proof. split; [done|done|]. intros a o o' _ Ho Ho'. assert (o' = o) as -> by congruence. split; [done..|]. congruence. Qed.

Lemma both_return {A : Type} (P : A → A → Prop) (m m' : outcome (hash * A)) :
  match m with Ret _ => true | Panic _ => false end = true →
  match m, m' with
  | Ret (root, f), Ret (root', f') => root = root' ∧ P f f'
  | Panic w, Panic w' => w = encode_panic ∧ w' = encode_panic
  | _, _ => False
  end → match m, m' with Ret (root, _), Ret (root', _) => root = root' | _, _ => False end.
Proof. destruct m as [[]|]; [|done]. destruct m' as [[]|]; [|done]. by intros _ [? _]. Qed.

Lemma state_root_deterministic_witness :
  match IntermediateRoot (WENV := sample_write_env) true touched_accounts, IntermediateRoot (WENV := backward_write_env) true touched_accounts with
  | Ret (root, _), Ret (root', _) => root = root'
  | _, _ => False
  end.
Proof.
  pose proof (state_root_deterministic sample_write_env backward_write_env sample_write_laws backward_write_laws true touched_accounts
    touched_accounts (λ d, eq_refl) touched_accounts_wf touched_accounts_wf touched_accounts_trie touched_accounts_trie (same_state_refl _)) as H.
  assert (R : match IntermediateRoot (WENV := sample_write_env) true touched_accounts with Ret _ => true | Panic _ => false end = true)
    by (vm_compute; reflexivity).
  revert R H. generalize (IntermediateRoot (WENV := sample_write_env) true touched_accounts).
  generalize (IntermediateRoot (WENV := backward_write_env) true touched_accounts). intros m m' R H. exact (both_return _ m' m R H).
Defined.

(** An account that [Finalise(true)] removes because it is empty comes back when the
    block is finished: [IntermediateRoot(false)] visits the same dirty addresses, does
    not look at the mark, and writes the account to the trie again, although the
    database answers that it does not exist. *)
Theorem emptied_account_returns :
  match ((AddBalance (to_word 160 9) 0;; Finalise (WENV := sample_write_env) true;; Exist (to_word 160 9)) : GM _ bool) empty_state with
  | Ret (there, s) =>
    there = false ∧ (TryGet (s_trie s) (to_word 160 9)).1 = [] ∧
    match ((_ ← IntermediateRoot (WENV := sample_write_env) false; Exist (to_word 160 9)) : GM _ bool) s with
    | Ret (there', s') => there' = false ∧ (TryGet (s_trie s') (to_word 160 9)).1 ≠ []
    | Panic _ => False
    end
  | Panic _ => False
  end.
Proof. vm_compute. split_and!; [reflexivity..|discriminate]. Qed.

Lemma no_entries : trie_ok (∅ : gmap address bytes).
Proof. intros k. by rewrite lookup_empty. Qed.

(** A transaction that is taken back before the fork, its end, and another. *)
Definition sample_history : list (db_op (VL := list address)) :=
  [dbPrepare hash0 hash0 0; dbOp opSnapshot; dbOp (opAddBalance (to_word 160 1) 5); dbOp (opAddAssetBalance (to_word 160 1) (to_word 160 77) 3);
   dbRevert 0 false; dbOp (opAddBalance (to_word 160 2) 0); dbFinalise; dbOp (opSetAbi (to_word 160 2) "abi"); dbOp (opSetNonce (to_word 160 2) 4);
   dbIntermediateRoot; dbReset hash0].
Definition after_history : StateDB (gmap address bytes) (gmap hash bytes) (list address) :=
  final (db_run (WENV := sample_write_env) sample_history) empty_state.

Lemma state_invariant_witness : Inv after_history ∧ trie_ok (s_trie after_history).
Proof.
  apply (state_invariant (WENV := sample_write_env) (WL := sample_write_laws) (AL := sample_account_laws []) sample_history empty_state after_history).
  - exact sample_Inv.
  - exact no_entries.
  - unfold sample_history. rewrite !Forall_cons, Forall_nil. split_and!; try exact I; [cbn; lia|]. intros t [= <-]. split; [exact no_entries|].
    intros a o. unfold load. cbn. by rewrite lookup_empty.
  - unfold after_history. apply final_unit. by vm_compute.
Defined.
