(* ===== verification/StateRlp.v ===== *)
(** * The serializer of the account state ([core/state], [core/types/asset.go], over [rlp])

    The state packages take their serializer from the classes [StateEnv] and [WriteEnv].
    Here are the encodings the code uses - of accounts, of values of the storage and of
    descriptions of assets, through the encoder and the decoder of [rlp] - and the proof
    that they have the laws the theorems about the state rely on. *)

From S2P Require Import Prelude Assets Interfaces AssetInfo StateTypes StateSample StateDB StateRevert.
From S2P Require Import StateSnapshot Hex VmData Votes StateFinal Rlp RlpLayout RlpStream.
From S2P Require Import RlpRead RlpRoundtrip RlpRaw.

(** ** Values of the storage *)

(** [bytes.TrimLeft(value[:], "\x00")] *)
Fixpoint trim_zeros (b : bytes) : bytes :=
  match b with
  | [] => []
  | x :: rest => if byte_val x =? 0 then trim_zeros rest else b
  end.

Definition EncodeValue (v : hash) : bytes :=
  match EncodeToBytes TBytes (VBytes (trim_zeros (hash_bytes v))) with Ret (inl b) => b | _ => [] end.

Definition SplitValue (enc : bytes) : bytes * option gerror :=
  match Split enc with
  | Ret (inl (_, content, _)) => (content, None)
  | _ => ([], Some "rlp: bad value"%string)
  end.

Lemma trim_zeros_val b : be_val (trim_zeros b) = be_val b.
Proof.
  induction b as [|x b IH]; [done|]. cbn [trim_zeros]. destruct (Z.eqb_spec (byte_val x) 0) as [Hx|]; [|done].
  rewrite IH. unfold be_val. cbn [foldl]. by rewrite Hx.
Qed.

Lemma trim_zeros_length b : (length (trim_zeros b) ≤ length b)%nat.
Proof. induction b as [|x b IH]; [done|]. cbn [trim_zeros]. destruct (_ =? _); cbn; lia. Qed.

Lemma EncodeValue_string v : EncodeValue v = rlp_string (trim_zeros (hash_bytes v)) ∧ blen (EncodeValue v) < 100.
Proof.
  pose proof (trim_zeros_length (hash_bytes v)) as Hl. unfold hash_bytes in Hl at 2. rewrite length_be_bytes in Hl.
  set (c := trim_zeros (hash_bytes v)) in *. assert (Hc : blen c ≤ 32) by (unfold blen; lia).
  pose proof (blen_rlp_string_le c ltac:(lia)) as Hb.
  assert (E : EncodeValue v = rlp_string c).
  { unfold EncodeValue. fold c. destruct (Encode_ref TBytes (VBytes c) (rlp_string c)) as [-> _]; [constructor|done|lia|done]. }
  rewrite E. split; [done|]. lia.
Qed.

Lemma value_roundtrip v : BytesToHash (SplitValue (EncodeValue v)).1 = v.
Proof.
  destruct (EncodeValue_string v) as [E Hb]. unfold SplitValue. rewrite E in *. rewrite <- (app_nil_r (rlp_string _)).
  rewrite (Split_reads _ _ _ [] (reads_string _)) by (rewrite app_nil_r; lia). cbn.
  unfold BytesToHash. rewrite trim_zeros_val. apply BytesToHash_hash_bytes.
Qed.

(** ** Accounts *)

(** [*types.Assets] is written as the list it holds. *)
Definition asset_type : gtype := TStruct [(no_tags, TByteArray 20); (no_tags, TBig)].
Definition account_type : gtype :=
  TStruct [(no_tags, TUint 64); (no_tags, TBig); (no_tags, TByteArray 32); (no_tags, TBytes); (no_tags, TBig);
           (no_tags, TSlice (TByteArray 20)); (no_tags, TSlice asset_type); (no_tags, TBytes)].

Definition asset_val (a : Asset) : gval := VList [VBytes (address_bytes (ID a)); VBig (Some (Balance a))].
Definition account_val (votes : list address) (d : Account slice) : gval :=
  VList [VUint (a_Nonce d); VBig (Some (a_Balance d)); VBytes (hash_bytes (a_Root d)); VBytes (hash_bytes (a_CodeHash d)); VBig (a_LockBalance d);
         VList ((λ a, VBytes (address_bytes a)) <$> votes); VList (asset_val <$> a_AssetList d);
         VBytes (from_option hash_bytes [] (a_AssetHash d))].

(** [rlp.EncodeToBytes(stateObject)] *)
Definition EncodeAccount (h : heap) (d : Account slice) : option bytes :=
  match EncodeToBytes account_type (account_val (contents h (a_VoteList d)) d) with Ret (inl b) => Some b | _ => None end.

Definition val_asset (v : gval) : option Asset :=
  match v with VList [VBytes id; VBig (Some b)] => Some (mkAsset (BytesToAddress id) b) | _ => None end.
Definition val_vote (v : gval) : option address :=
  match v with VBytes b => Some (BytesToAddress b) | _ => None end.

(** [rlp.DecodeBytes(enc, &data)]; [place] is where the vote list of an account goes. *)
Definition DecodeAccount (place : address → list address → slice) (addr : address) (enc : bytes) : option (Account slice) :=
  match DecodeBytes account_type enc with
  | inl (VList [VUint nonce; VBig (Some balance); VBytes root; VBytes code; VBig lock; VList votes; VList assets; VBytes asset]) =>
    votes ← mapM val_vote votes;
    assets ← mapM val_asset assets;
    Some (mkAccount nonce balance (BytesToHash root) (BytesToHash code) lock (place addr votes) assets
            (match asset with [] => None | _ => Some (BytesToHash asset) end))
  | _ => None
  end.

Lemma account_wt votes d : 0 ≤ a_Nonce d < 2 ^ 64 → wt account_type (account_val votes d).
Proof.
  intros Hn. apply wt_struct. constructor; [apply wt_uint; [by do 3 right; left|done]|].
  repeat (constructor; [cbn|]); try constructor; try done; try apply length_be_bytes.
  - apply Forall_fmap, Forall_true. intros a. constructor. apply length_be_bytes.
  - apply Forall_fmap, Forall_true. intros a. apply wt_struct. by repeat constructor.
Qed.

Lemma app_res_inl a b c : app_res a b = inl c → ∃ x y, a = inl x ∧ b = inl y ∧ c = x ++ y.
Proof. destruct a, b; simpl; try done. intros [= <-]. eauto. Qed.

Lemma ref_assets_nonneg (al : list Asset) b : ref_all (ref no_tags asset_type) (asset_val <$> al) = inl b → Forall (λ a, 0 ≤ Balance a) al.
Proof.
  revert b. induction al as [|a al IH]; intros b; [constructor|]. cbn [fmap list_fmap ref_all].
  intros (x & y & Ha & Hl & _)%app_res_inl. constructor; [|by eapply IH]. cbn in Ha. destruct (Z.ltb_spec (Balance a) 0); [done|lia].
Qed.

Lemma account_nonneg votes d b :
  ref no_tags account_type (account_val votes d) = inl b →
  0 ≤ a_Balance d ∧ 0 ≤ default 0 (a_LockBalance d) ∧ Forall (λ a, 0 ≤ Balance a) (a_AssetList d) ∧ ∃ c, b = rlp_list c.
Proof.
  unfold account_type, account_val. cbn [ref]. destruct (ref_fields _ _ _) as [c|] eqn:E; [|done]. intros [= <-].
  cbn [ref_fields] in E. repeat (apply app_res_inl in E as (? & ? & ? & E & _)).
  repeat match goal with H : ref _ _ _ = inl _ |- _ => cbn [ref] in H end.
  split_and!; [by destruct (Z.ltb_spec (a_Balance d) 0)| |..].
  - destruct (a_LockBalance d) as [z|]; [|done]. cbn. by destruct (Z.ltb_spec z 0).
  - match goal with H : map_res _ (ref_all (ref no_tags asset_type) _) = _ |- _ => destruct (ref_all (ref no_tags asset_type) _) eqn:Ea; [|done] end.
    by eapply ref_assets_nonneg.
  - by eexists.
Qed.

Definition nonneg (d : Account slice) : Prop :=
  0 ≤ a_Balance d ∧ 0 ≤ default 0 (a_LockBalance d) ∧ Forall (λ a, 0 ≤ Balance a) (a_AssetList d).

(** What was encoded, with a nil lock read back as zero. *)
Definition unlocked (d : Account slice) : Account slice := d <| a_LockBalance := Some (default 0 (a_LockBalance d)) |>.

Lemma unlocked_ref votes d : ref no_tags account_type (account_val votes (unlocked d)) = ref no_tags account_type (account_val votes d).
Proof.
  unfold account_val, unlocked. cbn [a_LockBalance a_Nonce a_Balance a_Root a_CodeHash a_AssetList a_AssetHash upd]. by destruct (a_LockBalance d).
Qed.

Lemma account_keeps votes d : is_u64 (a_Nonce d) → nonneg d → keeps false account_type (account_val votes (unlocked d)).
Proof.
  intros Hn (Hb & Hl & Ha). apply kp_struct.
  constructor; [split; [done|apply kp_uint; [by do 3 right; left|unfold is_u64, MaxUint64 in Hn; cbn; lia]]|].
  repeat (constructor; [split; [done|cbn]|]); try constructor; try done; try apply length_be_bytes.
  - apply Forall_fmap, Forall_true. intros a. constructor; [apply length_be_bytes|done].
  - apply Forall_fmap. eapply Forall_impl; [exact Ha|]. intros a Hx. apply kp_struct.
    repeat (constructor; [split; [done|cbn]|]); try constructor; try done.
Qed.

Lemma mapM_val_back {A} (f : A → gval) (g : gval → option A) (l : list A) : (∀ a, g (f a) = Some a) → mapM g (f <$> l) = Some l.
Proof. intros H. induction l as [|a l IH]; [done|]. cbn. by rewrite H, IH. Qed.

(** The layout of an account, nothing if it has none. *)
Definition account_rlp (h : heap) (d : Account slice) : bytes :=
  match ref no_tags account_type (account_val (contents h (a_VoteList d)) d) with inl b => b | inr _ => [] end.

(** Nonces of the code are 64 bits wide; the trie takes values below four gigabytes. *)
Definition in_width (h : heap) (d : Account slice) : Prop := is_u64 (a_Nonce d) ∧ blen (account_rlp h d) < 2 ^ 32.
#[export] Instance in_width_dec h d : Decision (in_width h d).
Proof. unfold in_width, is_u64. apply _. Defined.

Lemma EncodeAccount_Some h d b :
  in_width h d → EncodeAccount h d = Some b → ref no_tags account_type (account_val (contents h (a_VoteList d)) d) = inl b ∧ blen b < 2 ^ 32.
Proof.
  unfold in_width, account_rlp, EncodeAccount, is_u64, MaxUint64. intros [Hn G]. set (v := account_val _ d) in *.
  pose proof (account_wt (contents h (a_VoteList d)) d ltac:(lia)) as W. fold v in W. destruct (ref no_tags account_type v) as [out|err] eqn:E.
  - destruct (Encode_ref _ _ _ W E) as [-> _]; [lia|]. by intros [= <-].
  - pose proof (write_agrees v no_tags account_type W empty_encbuf) as H. rewrite E in H. unfold EncodeToBytes. by rewrite H.
Qed.

Lemma EncodeAccount_nonneg h d : in_width h d → is_Some (EncodeAccount h d) ↔ nonneg d.
Proof.
  intros W. split.
  - intros [b (E & _)%EncodeAccount_Some]; [|done]. by destruct (account_nonneg _ _ _ E) as (? & ? & ? & _).
  - intros P. destruct W as [Hn G]. unfold account_rlp in G. destruct (keeps_ref _ _ (account_keeps (contents h (a_VoteList d)) d Hn P)) as (_ & out & E).
    rewrite unlocked_ref in E. rewrite E in G. unfold EncodeAccount, is_u64, MaxUint64 in *.
    destruct (Encode_ref _ _ _ (account_wt _ d ltac:(lia)) E) as [-> _]; [lia|]. by eexists.
Qed.

Lemma account_roundtrip place addr h d b :
  in_width h d → EncodeAccount h d = Some b →
  DecodeAccount place addr b = Some (unlocked d <| a_VoteList := place addr (contents h (a_VoteList d)) |>).
Proof.
  intros W Hd. pose proof (proj1 (EncodeAccount_nonneg h d W) ltac:(by eexists)) as P. apply EncodeAccount_Some in Hd as [E Hb]; [|done].
  pose proof (account_keeps (contents h (a_VoteList d)) d (proj1 W) P) as K. unfold DecodeAccount. rewrite <- unlocked_ref in E.
  rewrite (DecodeBytes_ref _ _ _ K E) by lia. unfold account_val.
  rewrite (mapM_val_back _ val_vote) by (intros a; cbn; by rewrite BytesToAddress_bytes). cbn [mbind option_bind].
  rewrite (mapM_val_back _ val_asset) by (intros [i v]; cbn; by rewrite BytesToAddress_bytes). cbn [mbind option_bind].
  rewrite !BytesToHash_hash_bytes. clear. destruct d as [? ? ? ? ? ? ? [x|]]; cbn; [|done].
  destruct (hash_bytes x) as [|y l] eqn:Ex; [by apply (f_equal length) in Ex; unfold hash_bytes in Ex; rewrite length_be_bytes in Ex|].
  by rewrite <- Ex, BytesToHash_hash_bytes.
Qed.

Lemma account_encoded h d b : in_width h d → EncodeAccount h d = Some b → storable_value b.
Proof.
  intros W (E & Hb)%EncodeAccount_Some; [|done]. destruct (account_nonneg _ _ _ E) as (_ & _ & _ & c & ->). split; [|exact Hb].
  exact (reads_not_nil _ _ _ (reads_list c)).
Qed.

Lemma value_encoded v : storable_value (EncodeValue v).
Proof.
  destruct (EncodeValue_string v) as [E Hb]. split; [|unfold blen in Hb; lia]. rewrite E. exact (reads_not_nil _ _ _ (reads_string _)).
Qed.

(** ** Descriptions of assets *)

Definition info_type : gtype :=
  TStruct [(mkTags true false, TPtr (TByteArray 20)); (no_tags, TString); (no_tags, TString); (no_tags, TBig); (no_tags, TString)].
Definition info_val (i : AssetInfo) : gval :=
  VList [VPtr ((λ a, VBytes (address_bytes a)) <$> Issuer i); VBytes (Hex.str (Name i)); VBytes (Hex.str (Symbol i)); VBig (Supply i); VBytes (Hex.str (Desc i))].
Definition info_rlp (i : AssetInfo) : bytes := match ref no_tags info_type (info_val i) with inl b => b | inr _ => [] end.

Definition EncodeAssetInfo (i : AssetInfo) : bytes + gerror :=
  match EncodeToBytes info_type (info_val i) with
  | Ret (inl b) => inl b
  | _ => inr "rlp: cannot encode negative *big.Int"%string
  end.

(** What an error leaves in the description is not looked at. *)
Definition DecodeAssetInfo (b : bytes) : AssetInfo * option gerror :=
  match DecodeBytes info_type b with
  | inl (VList [VPtr issuer; VBytes name; VBytes symbol; VBig supply; VBytes desc]) =>
    (mkAssetInfo (match issuer with Some (VBytes a) => Some (BytesToAddress a) | _ => None end)
       (String.string_of_list_byte name) (String.string_of_list_byte symbol) supply (String.string_of_list_byte desc), None)
  | _ => (mkAssetInfo None EmptyString EmptyString None EmptyString, Some "rlp: bad description"%string)
  end.

Lemma info_roundtrip i :
  0 ≤ default 0 (Supply i) → is_Some (Supply i) → blen (info_rlp i) < 2 ^ 63 →
  ∃ b, EncodeAssetInfo i = inl b ∧ DecodeAssetInfo b = (i, None).
Proof.
  intros Hs [v Ev] Hb. assert (K : keeps false info_type (info_val i)).
  { apply kp_struct. constructor; [split; [done|]|].
    - cbn. destruct (Issuer i) as [a|]; cbn; [|by apply kp_nil]. apply kp_some; [constructor; [apply length_be_bytes|done]|..];
        cbn; intros [= E]; apply (f_equal length) in E; revert E; unfold rlp_string, rlp_list; pose proof (length_be_bytes 20 a) as Hl; unfold address_bytes;
        (destruct (be_bytes 20 a) as [|x [|y l]] eqn:El; [done..|]); rewrite <- El, length_app, length_be_bytes; cbn; lia.
    - rewrite Ev in Hs |- *. cbn in Hs. repeat (constructor; [split; [done|cbn]|]); by constructor. }
  destruct (keeps_ref _ _ K) as (W & out & E). unfold info_rlp in Hb. rewrite E in Hb. exists out. unfold EncodeAssetInfo, DecodeAssetInfo.
  destruct (Encode_ref _ _ _ W E Hb) as [-> _]. split; [done|]. rewrite (DecodeBytes_ref _ _ _ K E Hb). unfold info_val.
  assert (Hstr : ∀ s, String.string_of_list_byte (Hex.str s) = s) by (intros s; apply String.string_of_list_byte_of_string). rewrite !Hstr.
  destruct i as [[a|] n s p d]; cbn [Issuer fmap option_fmap option_map]; by rewrite ?BytesToAddress_bytes.
Qed.

Lemma info_negative i v : Supply i = Some v → v < 0 → ∃ err, EncodeAssetInfo i = inr err.
Proof.
  intros Ev Hv. assert (W : wt info_type (info_val i)).
  { apply wt_struct. destruct i as [[a|] n s p d]; by repeat constructor. }
  unfold EncodeAssetInfo. destruct (EncodeToBytes info_type (info_val i)) as [[b|err]|w] eqn:E; [|by eexists..].
  pose proof (write_agrees _ no_tags info_type W empty_encbuf) as H. destruct (ref no_tags info_type (info_val i)) as [out|err] eqn:Er.
  - exfalso. unfold info_type, info_val in Er. rewrite Ev in Er. cbn [ref] in Er. destruct (ref_fields _ _ _) as [c|] eqn:Ef; [|done].
    cbn [ref_fields] in Ef. repeat (apply app_res_inl in Ef as (? & ? & ? & Ef & _)).
    repeat match goal with H : ref _ _ _ = inl _ |- _ => cbn [ref] in H end.
    destruct (Z.ltb_spec v 0); [done|lia].
  - unfold EncodeToBytes in E. by rewrite H in E.
Qed.

(** ** The serializer in place *)

(** A database and tries with the serializer of the code, and orders of maps with it. *)
Definition with_rlp {AT ST} (place : address → list address → slice) (E : StateEnv AT ST slice) : StateEnv AT ST slice := {|
  se_atrie := se_atrie (StateEnv := E);
  se_strie := se_strie (StateEnv := E);
  db_OpenTrie := db_OpenTrie (StateEnv := E);
  db_OpenStorageTrie := db_OpenStorageTrie (StateEnv := E);
  db_ContractCode := db_ContractCode (StateEnv := E);
  db_ContractCodeSize := db_ContractCodeSize (StateEnv := E);
  db_ContractAbi := db_ContractAbi (StateEnv := E);
  db_AssetData := db_AssetData (StateEnv := E);
  Keccak256Hash := Keccak256Hash (StateEnv := E);
  CreateAddress := CreateAddress (StateEnv := E);
  nil_VoteList := nil_VoteList (StateEnv := E);
  rlp_DecodeAccount := DecodeAccount place;
  rlp_EncodeValue := EncodeValue;
  rlp_SplitValue := SplitValue;
  rlp_EncodeAssetInfo := EncodeAssetInfo;
  rlp_DecodeAssetInfo := DecodeAssetInfo
|}.

(** The class asks for laws of every account of the model, so those of the code's width
    are the ones it is given. *)
Definition write_rlp {ST} (h : heap) (W : WriteEnv ST slice) : WriteEnv ST slice := {|
  range_storage := range_storage (WriteEnv := W);
  range_dirty := range_dirty (WriteEnv := W);
  range_objects := range_objects (WriteEnv := W);
  rlp_EncodeAccount d := if decide (in_width h d) then EncodeAccount h d else None
|}.

Lemma account_lawful {AT ST} (place : address → list address → slice) (h : heap) (E : StateEnv AT ST slice) (W : WriteEnv ST slice) :
  AccountLaws AT ST slice (ENV := with_rlp place E) (WENV := write_rlp h W).
Proof.
  split. intros a d b Hb. cbn in *. case_decide as Hw; [|done]. rewrite (account_roundtrip place a h d b Hw Hb). eexists. split; [reflexivity|]. by destruct d.
Qed.

(** C38: The encodings of the account state.  An account with a 64-bit nonce, of less than
    four gigabytes, can be encoded exactly if its balance, locked balance and balances
    of assets are not negative; the encoding can be put into the trie, and decoding it
    gives the account back in every field, a nil locked balance as zero and the votes
    in an array of their own.  A value of the storage without its leading zeros reads
    back as the value.  A description of an asset reads back if it has a supply that is
    not negative, and cannot be encoded if the supply is negative.  So the serializer of
    the code has the laws that the theorems about the state ask for, over any database
    and any orders of maps. *)
Theorem state_serializer_lawful {AT ST : Type} (place : address → list address → slice) (h : heap) (E : StateEnv AT ST slice) (W : WriteEnv ST slice) :
  (∀ addr d, is_u64 (a_Nonce d) → blen (account_rlp h d) < 2 ^ 32 →
     match EncodeAccount h d with
     | Some b => nonneg d ∧ storable_value b ∧
       DecodeAccount place addr b =
         Some (d <| a_LockBalance := Some (default 0 (a_LockBalance d)) |> <| a_VoteList := place addr (contents h (a_VoteList d)) |>)
     | None => ¬ nonneg d
     end) ∧
  (∀ v, storable_value (EncodeValue v) ∧ BytesToHash (SplitValue (EncodeValue v)).1 = v) ∧
  (∀ i v, Supply i = Some v → 0 ≤ v → blen (info_rlp i) < 2 ^ 63 → ∃ b, EncodeAssetInfo i = inl b ∧ DecodeAssetInfo b = (i, None)) ∧
  (∀ i v, Supply i = Some v → v < 0 → ∃ err, EncodeAssetInfo i = inr err) ∧
  AccountLaws AT ST slice (ENV := with_rlp place E) (WENV := write_rlp h W).
Proof.
  split_and!; [..|apply account_lawful].
  - intros addr d Hn Hl. assert (Hw : in_width h d) by done. pose proof (EncodeAccount_nonneg h d Hw) as P. destruct (EncodeAccount h d) as [b|] eqn:Hb.
    + split_and!; [by apply P|by eapply account_encoded|exact (account_roundtrip place addr h d b Hw Hb)].
    + by intros [? ?]%P.
  - intros v. split; [apply value_encoded|apply value_roundtrip].
  - intros i v Ei Hv Hb. apply info_roundtrip; rewrite ?Ei; [done|by eexists|done].
  - apply info_negative.
Qed.

(** An account with a vote and an asset. *)
Definition some_account : Account slice :=
  mkAccount 7 1000 hash0 (to_word 256 5) None (mkSlice 1 1) [mkAsset (to_word 160 9) 300] (Some (to_word 256 6)).
Definition some_heap : heap := mkHeap {[ 1%nat := [to_word 160 4] ]} 2.
Definition some_encoding : bytes := default [] (EncodeAccount some_heap some_account).

Lemma state_serializer_lawful_witness :
  EncodeAccount some_heap some_account = Some some_encoding ∧
  DecodeAccount (λ _ l, mkSlice 2 (length l)) (to_word 160 1) some_encoding =
    Some (some_account <| a_LockBalance := Some 0 |> <| a_VoteList := mkSlice 2 1 |>).
Proof.
  assert (E : EncodeAccount some_heap some_account = Some some_encoding) by (vm_compute; reflexivity).
  split; [exact E|].
  assert (Hn : is_u64 (a_Nonce some_account)) by (unfold is_u64, MaxUint64; cbn; lia).
  assert (Hl : blen (account_rlp some_heap some_account) < 2 ^ 32) by (vm_compute; reflexivity).
  pose proof (proj1 (state_serializer_lawful (λ _ l, mkSlice 2 (length l)) some_heap SampleVotes.slice_env Sample.sample_write_env)
    (to_word 160 1) some_account Hn Hl) as H.
  rewrite E in H. exact (proj2 (proj2 H)).
Defined.
