(* ===== verification/Processor.v ===== *)
(** * Processing a block ([core/state_processor.go], [core/evm.go],
    [core/block_validator.go], [consensus/dpos/dpos_consensus.go])

    The context a transaction runs in, with the hashes of earlier blocks; applying a
    transaction and making its receipt; the loop over the transactions of a block, the
    producer's reward and the roots; and the comparison of the outcome with the
    header.  [monitorUpgrade], which only looks at receipts and recovers from its own
    panics, is left out, and so is the empty context that follows an error of
    [GetDelegatePoll]. *)

From S2P Require Import Prelude Assets Interfaces AssetInfo StateTypes StateDB StateRevert StateSnapshot.
From S2P Require Import Votes DelegateState Candidates Accounts Transfer VoteCount VmData StateSound.
From S2P Require Import VmGas Evm Instructions Interpreter Hex VmWp VmOps VmCalls.
From S2P Require Import VmSafe Config Transition TransitionSafe Rlp RlpLayout RlpRead Secp.
From S2P Require Import TxData Signing Bloom Blocks StateFinal StateSample VoteLedger TrieClaims.

(** ** Hashes of earlier blocks *)

Section Hashes.
Variable GetHeader : hash → Z → option Header.
Variable ref : Header.

(** The loop of [GetHashFn], for as many headers as [fuel]; [None] is a loop that has
    not ended. *)
Fixpoint hash_loop (fuel : nat) (n : Z) (header : option Header) (cache : gmap Z hash) : option (hash * gmap Z hash) :=
  match fuel with
  | O => None
  | S fuel =>
    match header with
    | None => Some (hash0, cache)
    | Some h =>
      let below := u64 (Uint64 (Number h) - 1) in
      let cache := <[below := ParentHash h]> cache in
      if n =? below then Some (ParentHash h, cache)
      else hash_loop fuel n (GetHeader (ParentHash h) below) cache
    end
  end.

(** The function [GetHashFn] makes, with the cache it keeps between calls.  A header is
    stored under its number, so each turn looks one block further down. *)
Definition GetHashFn (n : Z) (cache : option (gmap Z hash)) : option (hash * option (gmap Z hash)) :=
  let above := u64 (Uint64 (Number ref) - 1) in
  let cache := default {[above := ParentHash ref]} cache in
  match cache !! n with
  | Some h => Some (h, Some cache)
  | None =>
    match hash_loop (S (S (Z.to_nat above))) n (GetHeader (ParentHash ref) above) cache with
    | Some (h, cache) => Some (h, Some cache)
    | None => None
    end
  end.

(** Calls one after the other. *)
Fixpoint get_hashes (ns : list Z) (cache : option (gmap Z hash)) : option (list hash) :=
  match ns with
  | [] => Some []
  | n :: ns =>
    match GetHashFn n cache with
    | Some (h, cache) => hs ← get_hashes ns cache; Some (h :: hs)
    | None => None
    end
  end.

(** What a first call answers. *)
Definition GetHash (n : Z) : hash := match GetHashFn n None with Some (h, _) => h | None => hash0 end.
End Hashes.

(** ** The outcome of a block *)

(** What processing changes: the arrays of the vote lists, the two states, the gas
    left in the block's pool and used so far, and the stored inner transactions. *)
Record Exec (AT ST DT DS : Type) : Type := mkExec {
  p_heap : heap;
  p_state : StateDB AT ST slice;
  p_delegates : DelegateDB DT DS;
  p_gp : Z;
  p_usedGas : Z;
  p_innerTxs : gmap hash (list InnerTx)
}.
Arguments mkExec {AT ST DT DS} _ _ _ _ _ _.
Arguments p_heap {AT ST DT DS} _.
Arguments p_state {AT ST DT DS} _.
Arguments p_delegates {AT ST DT DS} _.
Arguments p_gp {AT ST DT DS} _.
Arguments p_usedGas {AT ST DT DS} _.
Arguments p_innerTxs {AT ST DT DS} _.
#[export] Instance eta_Exec {AT ST DT DS} : Eta (Exec AT ST DT DS) := λ r,
  mkExec (p_heap r) (p_state r) (p_delegates r) (p_gp r) (p_usedGas r) (p_innerTxs r).

Inductive process_error : Type :=
| errSign (e : sigerr)
| errTransition (e : txerr)
| errVotes (e : core_error).

Inductive state_error : Type := errGasUsed | errBloom | errReceiptRoot | errStateRoot | errDelegateRoot.

(** [vm.Config] *)
Record VmConfig : Type := mkVmConfig { NoRecursion : bool; EnablePreimageRecording : bool }.

(** [types.BlockDifficult] *)
Definition BlockDifficult : Z := 1.

Section Processor.
Context {AT ST DT DS : Type} `{ENV : StateEnv AT ST slice} `{DENV : DelegateEnv DT DS}.
Context `{CRYPTO : CryptoOps} `{SECP : Secp256k1} `{JSON : TxJson}.
(** Encoding an account reads the array its vote list points into. *)
Variable WENV : heap → WriteEnv ST slice.
(** The order in which the map of a transaction's votes is visited. *)
Variable iterate : gmap bytes Z → list (bytes * Z).
(** The capacity [append] gives, and a bound on the turns of the interpreter. *)
Variable grow : nat → nat.
Variable fuel : nat.

Variable config : ChainConfig.
Variable cfg : VmConfig.
(** The chain: its headers, and the delegates of its head. *)
Variable GetHeader : hash → Z → option Header.
Variable GetDelegatePoll : gmap address DelegateState.Candidate.

#[local] Abbreviation SDB := (StateDB AT ST slice).
#[local] Abbreviation DDB := (DelegateDB DT DS).
#[local] Abbreviation EXEC := (Exec AT ST DT DS).
#[local] Abbreviation PM := (GM EXEC).

Definition on_state {A} (m : heap → GM SDB A) : PM A := λ x,
  match m (p_heap x) (p_state x) with Ret (a, s) => Ret (a, x <| p_state := s |>) | Panic w => Panic w end.
Definition on_delegates {A} (m : GM DDB A) : PM A := λ x,
  match m (p_delegates x) with Ret (a, d) => Ret (a, x <| p_delegates := d |>) | Panic w => Panic w end.
Definition on_states {A} (m : GM (SDB * DDB) A) : PM A := λ x,
  match m (p_state x, p_delegates x) with
  | Ret (a, (s, d)) => Ret (a, x <| p_state := s |> <| p_delegates := d |>)
  | Panic w => Panic w
  end.

Definition asks_delegates (action : Z) : bool :=
  (action =? ActionRegister) || (action =? ActionAddVote) || (action =? ActionSubVote) || (action =? ActionCallContract).

(** [NewEVMContext], with what [NewEVM] adds to it. *)
Definition NewEVMContext (msg : Message) (header : Header) (watchInnerTx : bool) : Context :=
  mkContext (m_From msg) (m_GasPrice msg) (Coinbase header) (h_GasLimit header) (Number header) (Time header) BlockDifficult
    (if asks_delegates (m_Action msg) then Some GetDelegatePoll else None) (GetHash GetHeader header)
    (NoRecursion cfg) (EnablePreimageRecording cfg) watchInnerTx
    (IsByzantium config (Number header)) (IsEpiphron config (Number header)) (Int64 (cc_MaxElectDelegate config)) grow.

(** [ApplyMessage] on a machine made for it: the result and the inner transactions. *)
Definition apply_message (ctx : Context) (msg : Message) : PM (result * list InnerTx) := λ x,
  match ApplyMessage ctx fuel msg (p_gp x) (mkEVM (p_heap x) (p_state x) 0 0 [] false [] ∅) with
  | Ret ((r, gp), e) => Ret ((r, e_InnerTxs e), x <| p_heap := e_heap e |> <| p_state := e_db e |> <| p_gp := gp |>)
  | Panic w => Panic w
  end.

Definition vote_tx (d : txdata) : VoteTx := mkVoteTx (Action d) (BytesToVote (Vote d)) (Nickname d).

Definition address_keccak (b : bytes) : bytes := hash_bytes (Keccak256Hash b).

(** The receipt, once the logs of the transaction are known. *)
Definition makeReceipt (root : bytes) (failed : bool) (msg : Message) (tx : Transaction) (txHash : hash) (gas usedGas : Z) (logs : list Log)
    : outcome Receipt :=
  let receipt := (NewReceipt root failed usedGas) <| rc_Action := Action (data tx) |> <| rc_TxHash := txHash |> <| rc_GasUsed := gas |> in
  let receipt := if (m_Action msg =? ActionCreateContract) || (m_Action msg =? ActionPublishAsset)
                 then receipt <| ContractAddress := CreateAddress (m_From msg) (AccountNonce (data tx)) |> else receipt in
  let receipt := receipt <| rc_Logs := logs |> in
  bloom ← CreateBloom Keccak256Hash [receipt];
  Ret (receipt <| rc_Bloom := bloom |>).

(** Updating the state with pending changes: the root is only taken before the fork. *)
Definition update_state (header : Header) : PM bytes :=
  if IsAres config (Number header) then on_state (λ h, Finalise (WENV := WENV h) true);; mret []
  else root ← on_state (λ h, IntermediateRoot (WENV := WENV h) false); mret (hash_bytes root).

Definition ApplyTransaction (header : Header) (tx : Transaction) (blockTime : Z) (watchInnerTx : bool) : PM (Receipt * Z + process_error) :=
  signer ← lift_outcome (MakeSigner (cc_ChainId config));
  '(msg, tx) ← lift_outcome (AsMessage Keccak256Hash signer tx);
  match msg with
  | inr err => mret (inr (errSign err))
  | inl msg =>
    '((_, gas, failed, err), innerTxs) ← apply_message (NewEVMContext msg header watchInnerTx) msg;
    match err with
    | Some err => mret (inr (errTransition err))
    | None =>
      err ← on_states (voteChangeToDelegateState address_keccak iterate (m_From msg) (vote_tx (data tx)) blockTime);
      match err with
      | Some err => mret (inr (errVotes err))
      | None =>
        root ← update_state header;
        gmodify (λ x, x <| p_usedGas ::= λ used, u64 (used + gas) |>);;
        '(txHash, tx) ← lift_outcome (Transaction_Hash Keccak256Hash tx);
        logs ← on_state (λ _, GetLogs txHash);
        usedGas ← greads p_usedGas;
        receipt ← lift_outcome (makeReceipt root failed msg tx txHash gas usedGas logs);
        (if (0 <? length innerTxs)%nat then gmodify (λ x, x <| p_innerTxs ::= <[txHash := innerTxs]> |>) else mret tt);;
        mret (inl (receipt, gas))
      end
    end
  end.

(** The loop of [Process], from transaction [i] on. *)
Fixpoint process_loop (header : Header) (blockHash : hash) (blockTime : Z) (i : Z) (txs : list Transaction)
    : PM (list Receipt * list Log + process_error) :=
  match txs with
  | [] => mret (inl ([], []))
  | tx :: txs =>
    '(txHash, tx) ← lift_outcome (Transaction_Hash Keccak256Hash tx);
    on_state (λ _, StateDB.Prepare txHash blockHash i);;
    on_delegates (d_Prepare txHash blockHash i);;
    r ← ApplyTransaction header tx blockTime true;
    match r with
    | inr err => mret (inr err)
    | inl (receipt, _) =>
      rest ← process_loop header blockHash blockTime (i + 1) txs;
      mret (match rest with
            | inr err => inr err
            | inl (receipts, allLogs) => inl (receipt :: receipts, rc_Logs receipt ++ allLogs)
            end)
    end
  end.

Definition accumulateRewards (header : Header) : PM unit :=
  let blockReward := if IsByzantium config (Number header) then cc_ByzantiumBlockReward config else cc_FrontierBlockReward config in
  on_state (λ _, AddBalance (Coinbase header) blockReward).

(** [Finalize] of the engine. *)
Definition Finalize (header : Header) (txs : list Transaction) (receipts : list Receipt) : PM Block :=
  accumulateRewards header;;
  root ← on_state (λ h, IntermediateRoot (WENV := WENV h) false);
  delegateRoot ← on_delegates d_IntermediateRoot;
  lift_outcome (NewBlock Keccak256Hash (header <| Root := root |> <| DelegateRoot := delegateRoot |>) txs receipts).

Definition Process (block : Block) : PM (list Receipt * list Log * Z + process_error) :=
  let h := CopyHeader (header block) in
  gmodify (λ x, x <| p_gp := h_GasLimit (header block) |> <| p_usedGas := 0 |>);;
  '(blockHash, block) ← lift_outcome (Block_Hash Keccak256Hash block);
  r ← process_loop h blockHash (Uint64 (Time (header block))) 0 (transactions block);
  match r with
  | inr err => mret (inr err)
  | inl (receipts, allLogs) =>
    _ ← Finalize h (transactions block) receipts;
    usedGas ← greads p_usedGas;
    mret (inl (receipts, allLogs, usedGas))
  end.

Definition ValidateState (block : Block) (receipts : list Receipt) (usedGas : Z) : PM (option state_error) :=
  let h := CopyHeader (header block) in
  if negb (h_GasUsed (header block) =? usedGas) then mret (Some errGasUsed)
  else
    rbloom ← lift_outcome (CreateBloom Keccak256Hash receipts);
    if negb (bool_decide (rbloom = h_Bloom h)) then mret (Some errBloom)
    else
      receiptSha ← lift_outcome (DeriveSha_receipts Keccak256Hash receipts);
      if negb (bool_decide (receiptSha = ReceiptHash h)) then mret (Some errReceiptRoot)
      else
        root ← on_state (λ h, IntermediateRoot (WENV := WENV h) false);
        if negb (bool_decide (Root h = root)) then mret (Some errStateRoot)
        else
          delegateRoot ← on_delegates d_IntermediateRoot;
          mret (if negb (bool_decide (DelegateRoot h = delegateRoot)) then Some errDelegateRoot else None).
End Processor.

(** [GetDelegatePoll], from the delegates of the head's state. *)
Fixpoint delegate_poll (l : list DelegateState.Candidate) (res : gmap address DelegateState.Candidate)
    : outcome (gmap address DelegateState.Candidate) :=
  match l with
  | [] => Ret res
  | c :: l => a ← HexToAddress (c_Address c); delegate_poll l (<[a := c]> res)
  end.

(** ** The hashes a context answers *)

Section Ancestors.
Variable GetHeader : hash → Z → option Header.
Variable ref : Header.

(** The hash of the block [k] below the parent, read through the headers in between. *)
Fixpoint ancestor (k : nat) : option hash :=
  match k with
  | O => Some (ParentHash ref)
  | S k => h ← ancestor k; header ← GetHeader h (Number ref - 1 - Z.of_nat k); Some (ParentHash header)
  end.

Definition ancestor_hash (n : Z) : hash := default hash0 (ancestor (Z.to_nat (Number ref - 1 - n))).

(** A database that keeps headers under their numbers, and a block above the first. *)
Record chain_ok : Prop := mkChainOk {
  ch_number h n header : GetHeader h n = Some header → Number header = n;
  ch_ref : 1 ≤ Number ref ≤ MaxUint64
}.
Context (CH : chain_ok).

(** A cache in use: it has the parent, and what it says of the blocks below is right. *)
Definition cache_right (cache : gmap Z hash) : Prop :=
  is_Some (cache !! (Number ref - 1)) ∧
  ∀ n h, 0 ≤ n < Number ref → cache !! n = Some h → ancestor (Z.to_nat (Number ref - 1 - n)) = Some h.

Lemma below_u64 z : 1 ≤ z ≤ MaxUint64 → u64 (Uint64 z - 1) = z - 1.
Proof. unfold Uint64, MaxUint64. intros H. rewrite Z.abs_eq by lia. rewrite (u64_small z) by (unfold is_u64, MaxUint64; lia). apply u64_small. unfold is_u64, MaxUint64. lia. Qed.

Lemma cache_right_insert cache k h : ancestor k = Some h → 0 ≤ Number ref - 1 - Z.of_nat k →
  cache_right cache → cache_right (<[Number ref - 1 - Z.of_nat k := h]> cache).
Proof.
  intros Hk Hp [Hi Hc]. split; [rewrite lookup_insert; by case_decide|]. intros n h' Hn. rewrite lookup_insert. case_decide as E; [|by apply Hc].
  intros [= <-]. replace (Z.to_nat (Number ref - 1 - n)) with k by lia. done.
Qed.

(** The loop looks for [n] below the block [k] below the parent. *)
Lemma hash_loop_right fuel n k h cache :
  ancestor k = Some h → 0 ≤ n < Number ref - 1 - Z.of_nat k → Number ref - 1 - Z.of_nat k < Z.of_nat fuel → cache_right cache →
  ∃ cache', hash_loop GetHeader fuel n (GetHeader h (Number ref - 1 - Z.of_nat k)) cache = Some (ancestor_hash n, cache') ∧ cache_right cache'.
Proof using CH.
  revert k h cache. induction fuel as [|fuel IH]; intros k h cache Hk Hn Hf Hc; [lia|]. cbn [hash_loop]. pose proof (ch_ref CH).
  destruct (GetHeader h _) as [header|] eqn:Eh.
  - rewrite (ch_number CH _ _ _ Eh), below_u64 by lia.
    assert (Hs : ancestor (S k) = Some (ParentHash header)) by (cbn [ancestor]; rewrite Hk; cbn; by rewrite Eh).
    replace (Number ref - 1 - Z.of_nat k - 1) with (Number ref - 1 - Z.of_nat (S k)) by lia.
    assert (Hc' : cache_right (<[Number ref - 1 - Z.of_nat (S k) := ParentHash header]> cache)) by (apply cache_right_insert; [done|lia|done]).
    destruct (Z.eqb_spec n (Number ref - 1 - Z.of_nat (S k))) as [->|Hne].
    + eexists. split; [|exact Hc']. unfold ancestor_hash.
      replace (Z.to_nat (Number ref - 1 - (Number ref - 1 - Z.of_nat (S k)))) with (S k) by lia. by rewrite Hs.
    + apply IH; [done|lia|lia|done].
  - exists cache. split; [|done]. unfold ancestor_hash.
    assert (Hn' : ∀ j, ancestor (S k + j) = None).
    { induction j as [|j IHj]; [rewrite Nat.add_0_r; cbn [ancestor]; rewrite Hk; cbn; by rewrite Eh|].
      rewrite Nat.add_succ_r. cbn [ancestor]. by rewrite IHj. }
    replace (Z.to_nat (Number ref - 1 - n)) with (S k + (Z.to_nat (Number ref - 1 - n) - S k))%nat by lia. by rewrite Hn'.
Qed.

Lemma GetHashFn_right n cache :
  0 ≤ n < Number ref → from_option cache_right True cache →
  ∃ cache', GetHashFn GetHeader ref n cache = Some (ancestor_hash n, Some cache') ∧ cache_right cache'.
Proof using CH.
  intros Hn Hc. pose proof (ch_ref CH). unfold GetHashFn. rewrite below_u64 by lia.
  set (c0 := default {[Number ref - 1 := ParentHash ref]} cache).
  assert (Hc0 : cache_right c0).
  { destruct cache as [c|]; [exact Hc|]. unfold c0. cbn. split; [rewrite lookup_singleton; by case_decide|].
    intros m h Hm. rewrite lookup_singleton. case_decide; [|done]. intros [= <-]. by replace (Z.to_nat (Number ref - 1 - m)) with 0%nat by lia. }
  pose proof Hc0 as [[top Ht] Hr]. destruct (c0 !! n) as [h|] eqn:E.
  - exists c0. split; [|done]. unfold ancestor_hash. by rewrite (Hr n h Hn E).
  - assert (n ≠ Number ref - 1) by (intros ->; congruence).
    destruct (hash_loop_right (S (S (Z.to_nat (Number ref - 1)))) n 0 (ParentHash ref) c0) as (c' & El & Hc'); [done|lia|lia|done|].
    rewrite Z.sub_0_r in El. rewrite El. by exists c'.
Qed.

Lemma get_hashes_right ns cache :
  Forall (λ n, 0 ≤ n < Number ref) ns → from_option cache_right True cache → get_hashes GetHeader ref ns cache = Some (ancestor_hash <$> ns).
Proof using CH.
  intros H. revert cache. induction H as [|n ns Hn _ IH]; intros cache Hc; [done|]. cbn [get_hashes].
  destruct (GetHashFn_right n cache Hn Hc) as (c' & -> & Hc'). by rewrite (IH (Some c') Hc').
Qed.

(** The blocks below [ref], from the first on: each is the parent of the next, and is
    stored under its hash. *)
Record chain_below (keccak : bytes → hash) (blocks : list Header) : Prop := mkChainBelow {
  cb_length : Z.of_nat (length blocks) = Number ref;
  cb_linked i h : (blocks ++ [ref]) !! S i = Some h → ∃ p, blocks !! i = Some p ∧ Header_Hash keccak p = Ret (ParentHash h);
  cb_stored i p h : blocks !! i = Some p → Header_Hash keccak p = Ret h → GetHeader h (Z.of_nat i) = Some p
}.

Lemma ancestor_below keccak blocks k :
  chain_below keccak blocks → (k < length blocks)%nat →
  ∃ p h, blocks !! (length blocks - 1 - k)%nat = Some p ∧ Header_Hash keccak p = Ret h ∧ ancestor k = Some h.
Proof.
  intros [Hl Hk Hs]. induction k as [|k IH]; intros Hlt.
  - destruct (Hk (length blocks - 1)%nat ref) as (p & Hp & E); [|by exists p, (ParentHash ref); rewrite Nat.sub_0_r].
    rewrite lookup_app_r by lia. by replace (S (length blocks - 1) - length blocks)%nat with 0%nat by lia.
  - destruct IH as (p & h & Hp & E & Ha); [lia|]. destruct (Hk (length blocks - 1 - S k)%nat p) as (q & Hq & Eq).
    { rewrite lookup_app_l by lia. by replace (S (length blocks - 1 - S k)) with (length blocks - 1 - k)%nat by lia. }
    exists q, (ParentHash p). split_and!; [done|done|]. cbn [ancestor]. rewrite Ha. cbn.
    pose proof (Hs _ _ _ Hp E) as G. replace (Z.of_nat (length blocks - 1 - k)) with (Number ref - 1 - Z.of_nat k) in G by lia. by rewrite G.
Qed.

Lemma ancestor_hash_below keccak blocks n :
  chain_below keccak blocks → 0 ≤ n < Number ref → ∃ p, blocks !! Z.to_nat n = Some p ∧ Header_Hash keccak p = Ret (ancestor_hash n).
Proof.
  intros C Hn. pose proof (cb_length _ _ C). destruct (ancestor_below keccak blocks (Z.to_nat (Number ref - 1 - n)) C) as (p & h & Hp & E & Ha); [lia|].
  exists p. unfold ancestor_hash. rewrite Ha. split; [|done]. by replace (Z.to_nat n) with (length blocks - 1 - Z.to_nat (Number ref - 1 - n))%nat by lia.
Qed.
End Ancestors.

(** C28: code that asks for the hash of an earlier block gets it.  The function the
    context of a block is given walks down from the block's parent and remembers what
    it has seen; on a chain whose headers are stored under their hashes and numbers,
    it ends on every question about a block below, in any order and however often it
    is asked, with the hash of exactly that block's header - so it answers as if it
    remembered nothing. *)
Theorem block_hashes_right (keccak : bytes → hash) (GetHeader : hash → Z → option Header) (ref : Header) (blocks : list Header) (ns : list Z) :
  chain_ok GetHeader ref → chain_below GetHeader ref keccak blocks → Forall (λ n, 0 ≤ n < Number ref) ns →
  get_hashes GetHeader ref ns None = Some (GetHash GetHeader ref <$> ns) ∧
  Forall (λ n, ∃ p, blocks !! Z.to_nat n = Some p ∧ Header_Hash keccak p = Ret (GetHash GetHeader ref n)) ns.
Proof.
  intros CH CB Hns.
  assert (G : ∀ n, 0 ≤ n < Number ref → GetHash GetHeader ref n = ancestor_hash GetHeader ref n).
  { intros n Hn. unfold GetHash. by destruct (GetHashFn_right GetHeader ref CH n None Hn I) as (c & -> & _). }
  split.
  - rewrite (get_hashes_right GetHeader ref CH ns None Hns I). f_equal. apply list_fmap_ext. intros i n Hi. symmetry. apply G.
    by apply (Forall_lookup_1 _ _ _ _ Hns Hi).
  - eapply Forall_impl; [exact Hns|]. intros n Hn. rewrite G by done. by apply ancestor_hash_below.
Qed.

(** ** The books of a block *)

(** What can stop the processing of transfers and calls: the causes named for
    transactions, and an account that cannot be encoded. *)
Inductive block_panic : string → Prop :=
| bp_pool : block_panic pool_panic
| bp_turns : block_panic out_of_turns
| bp_bitvec : block_panic bitvec_panic
| bp_getData : block_panic getData_panic
| bp_delegates : block_panic nil_list_panic
| bp_encode : block_panic encode_panic.

Definition in_block : Tolerance := {|
  tolerated := block_panic;
  tolerates_bitvec := bp_bitvec;
  tolerates_getData := bp_getData
|}.

Lemma tx_block_panic ctx w : tx_panic ctx w → block_panic w.
Proof. intros [->|[->|[->|[->|[_ ->]]]]]; constructor. Qed.

(** A transaction that moves value, calls or creates a contract on chain [c]. *)
Record plain_tx (c : Z) (d : txdata) : Prop := mkPlainTx {
  pl_tx : tx_ok d;
  pl_sig : sig_ok c d;
  pl_data : blen (Payload d) ≤ code_limit;
  pl_action : moves_value (Action d);
  pl_publish : Action d ≠ ActionPublishAsset
}.

Section Messages.
Context (keccak : bytes → hash) `{SECP : Secp256k1} `{JSON : TxJson}.

Lemma Transaction_Hash_runs tx : tx_ok (data tx) →
  ∃ h, Transaction_Hash keccak tx = Ret (h, tx <| tx_hash := Some h |>).
Proof.
  intros Ht. unfold Transaction_Hash. destruct tx as [d [h|] sz fr]; cbn [tx_hash]; [by exists h|].
  unfold rlpHash. cbn [data] in *. rewrite (proj2 (tx_encodes _ Ht)). cbn. by eexists.
Qed.

Lemma AsMessage_runs s tx : signer_ok s → plain_tx (chainId s) (data tx) →
  ∃ r tx', AsMessage keccak s tx = Ret (r, tx') ∧ data tx' = data tx ∧ tx_hash tx' = tx_hash tx ∧
    ∀ msg, r = inl msg → msg_ok msg ∧ m_Gas msg = GasLimit (data tx) ∧ m_Action msg = Action (data tx).
Proof.
  intros Hs [Ht Hg Hd Ha Hp].
  assert (S : ∃ r tx', Sender keccak s tx = Ret (r, tx') ∧ data tx' = data tx ∧ tx_hash tx' = tx_hash tx).
  { destruct (signer_Sender_sound keccak s tx Hs Hg (ok_V _ Ht)) as (res & E & _). unfold Sender. rewrite E. cbn [mbind outcome_bind].
    destruct (tx_from tx) as [[s' a]|]; [destruct (signer_Equal s' s)|]; destruct res; by eexists _, _. }
  assert (R : ∃ r tx', AsMessage keccak s tx = Ret (r, tx') ∧ data tx' = data tx ∧ tx_hash tx' = tx_hash tx).
  { destruct S as (r & tx' & E & Hd' & Hh). unfold AsMessage. rewrite E. cbn [mbind outcome_bind].
    do 2 match goal with |- context [match ?x with inl _ => _ | inr _ => _ end] => destruct x; [|by eexists _, _] end. destruct r; by eexists _, _. }
  destruct R as (r & tx' & E & Hd' & Hh). exists r, tx'. split_and!; [done..|]. intros msg ->.
  destruct (AsMessage_from keccak s tx msg tx' E) as (_ & _ & _ & Ev & Eg & Ep & Ed & Ea & _). split_and!; [|done..].
  constructor; rewrite ?Ev, ?Eg, ?Ep, ?Ed, ?Ea; try done; [apply Hg|apply Hg|apply Ht].
Qed.
End Messages.

Section Step.
Context {AT ST DT DS : Type} `{ENV : StateEnv AT ST slice} `{DENV : DelegateEnv DT DS}.

#[local] Abbreviation SDB := (StateDB AT ST slice).
#[local] Abbreviation DDB := (DelegateDB DT DS).

Lemma d_GetStateObject_runs a (d : DDB) : ∃ r d', d_GetStateObject a d = Ret (r, d').
Proof.
  unfold d_GetStateObject, mbind, GM_bind, gget. destruct (dd_objects d !! a) as [o|]; [destruct (_ || _); by eexists _, _|].
  unfold d_load, mbind, GM_bind, gget. destruct (TryGet _ a) as [enc err]. case_decide; [by eexists _, _|].
  destruct (rlp_DecodeDelegate enc); by eexists _, _.
Qed.

Lemma d_Exist_runs a (d : DDB) : ∃ r d', d_Exist a d = Ret (r, d').
Proof. unfold d_Exist. destruct (d_GetStateObject_runs a d) as (r & d' & E). rewrite (GM_bind_run _ _ _ _ _ E). by eexists _, _. Qed.

Lemma d_Suicide_runs a (d : DDB) : ∃ r d', d_Suicide a d = Ret (r, d').
Proof.
  unfold d_Suicide. destruct (d_GetStateObject_runs a d) as ([o|] & d' & E); rewrite (GM_bind_run _ _ _ _ _ E); by eexists _, _.
Qed.

(** A candidate is cancelled. *)
Lemma voteCount_cancel_runs keccak from time (d : DDB) :
  ∃ r d', voteCount_all [mkVoteCandidate (ToLower (Hex keccak from)) 0 [] cancel] time d = Ret (r, d').
Proof.
  unfold voteCount_all, voteCount. cbn [vc_Address vc_Action].
  destruct (d_Exist_runs from d) as (b & d1 & E). destruct (d_Suicide_runs from d1) as (r & d2 & E2).
  unfold lift_outcome, mbind, GM_bind. rewrite HexToAddress_lower. cbn. rewrite E. destruct b; [|by eexists _, _]. rewrite E2. by eexists _, _.
Qed.

Lemma add_cancel_runs keccak from (s : SDB) (d : DDB) :
  wf s → sound s → ∃ l s' d', add_cancel (ToLower (Hex keccak from)) [] (s, d) = Ret (l, (s', d')) ∧ advances true s s' ∧
    (l = [] ∨ l = [mkVoteCandidate (ToLower (Hex keccak from)) 0 [] cancel]).
Proof.
  intros W S. unfold add_cancel. destruct (d_Exist_runs from d) as (b & d1 & E). destruct (GetBalance_works s W S from) as (v & s1 & Ev & A & _).
  unfold lift_outcome, on_ddb, on_sdb, mbind, GM_bind. rewrite HexToAddress_lower. cbn [fst snd]. rewrite E.
  assert (A0 : advances true s s) by (split; [by apply undoable_unchanged|done|intros; apply flow_refl]).
  destruct b; cbn [fst snd]; [|eexists _, _, _; split_and!; [done..|by left]]. rewrite Ev. cbn [fst snd mret GM_ret app].
  destruct (v <? registerCost); eexists _, _, _; (split_and!; [done..|by auto]).
Qed.

(** Counting the votes of a transaction that has none. *)
Lemma votes_step keccak iterate from tx time (s : SDB) (d : DDB) :
  wf s → sound s → moves_value (tx_Action tx) →
  ∃ r s' d', voteChangeToDelegateState keccak iterate from tx time (s, d) = Ret (r, (s', d')) ∧ advances true s s'.
Proof.
  intros W S (H2 & H3 & H1). unfold voteChangeToDelegateState, CountTrxVote.
  rewrite (proj2 (Z.eqb_neq _ _) H1), (proj2 (Z.eqb_neq _ _) H2), (proj2 (Z.eqb_neq _ _) H3). cbn [orb].
  destruct (add_cancel_runs keccak from s d W S) as (l & s1 & d1 & E & A & Hl).
  rewrite (GM_bind_run _ _ _ (inl l) (s1, d1)) by (by rewrite (GM_bind_run _ _ _ _ _ E)).
  assert (V : ∃ r d2, voteCount_all l time d1 = Ret (r, d2)) by (destruct Hl as [-> | ->]; [by eexists _, _|apply voteCount_cancel_runs]).
  destruct V as (r & d2 & Ev). exists r, s1, d2. split; [|done]. unfold on_ddb. cbn [fst snd]. by rewrite Ev.
Qed.
End Step.

(** The gas used after each transaction. *)
Fixpoint running_gas (used : Z) (gas : list Z) : list Z :=
  match gas with
  | [] => []
  | g :: gas => let used := u64 (used + g) in used :: running_gas used gas
  end.

(** All of it. *)
Definition gas_of (rs : list Receipt) : Z := foldr (λ r n, rc_GasUsed r + n) 0 rs.

Section Books.
Context {AT ST DT DS : Type} `{ENV : StateEnv AT ST slice} `{DENV : DelegateEnv DT DS}.
Context `{CRYPTO : CryptoOps} `{SECP : Secp256k1} `{JSON : TxJson}.
Context `{TLA : !TrieLaws address AT} `{TLS : !TrieLaws hash ST} `{SL : !StorageLaws AT ST slice}.
Variable WENV : heap → WriteEnv ST slice.
Context {WL : ∀ h, WriteLaws ST slice (WENV := WENV h)} {AL : ∀ h, AccountLaws AT ST slice (WENV := WENV h)}.
Variable iterate : gmap bytes Z → list (bytes * Z).
Variable grow : nat → nat.
Variable fuel : nat.
Variable config : ChainConfig.
Variable cfg : VmConfig.
Variable GetHeader : hash → Z → option Header.
Variable poll : gmap address DelegateState.Candidate.
Variable header : Header.
Variable c : Z.

#[local] Abbreviation SDB := (StateDB AT ST slice).
#[local] Abbreviation EXEC := (Exec AT ST DT DS).
#[local] Abbreviation PM := (GM EXEC).
#[local] Abbreviation apply := (ApplyTransaction WENV iterate grow fuel config cfg GetHeader poll).
#[local] Existing Instance in_block | 0.

(** A block after the forks, of a chain with a number, whose delegates' votes are not
    negative. *)
Record block_ok : Prop := mkBlockOk {
  bk_ares : IsAres config (Number header) = true;
  bk_epiphron : IsEpiphron config (Number header) = true;
  bk_chain : cc_ChainId config = Some c;
  bk_poll a d : poll !! a = Some d → 0 ≤ c_Vote d;
  bk_tries : empty_trie_opens (AT := AT) (ST := ST) (VL := slice)
}.
Context (BK : block_ok).

(** A state to apply a transaction to. *)
Record ready (x : EXEC) : Prop := mkReady {
  rd_Inv : Inv (p_state x);
  rd_sound : sound (p_state x);
  rd_trie : trie_ok (s_trie (p_state x))
}.

Lemma context_ok msg watch : 0 ≤ m_GasPrice msg →
  ctx_ok (TOL := with_pool (NewEVMContext grow config cfg GetHeader poll msg header watch)) (AT := AT) (ST := ST)
    (NewEVMContext grow config cfg GetHeader poll msg header watch).
Proof using BK.
  intros Hp. constructor; [apply BK| |done|apply BK]. unfold NewEVMContext. cbn [x_DelegateList].
  destruct (asks_delegates _); [apply BK|]. by do 4 right.
Qed.

Lemma apply_message_ok msg watch x : ready x → msg_ok msg →
  wp (apply_message fuel (NewEVMContext grow config cfg GetHeader poll msg header watch) msg)
    (λ r x', ready x' ∧ p_usedGas x' = p_usedGas x ∧
      match r.1.2 with
      | Some _ => True
      | None => r.1.1.1.2 ≤ m_Gas msg → p_gp x' = p_gp x - r.1.1.1.2 ∧ flow (p_state x) (p_state x')
      end) x.
Proof using BK.
  intros [I S T] MO. set (ctx := NewEVMContext _ _ _ _ _ _ _ _).
  pose proof (ApplyMessage_books ctx fuel msg (p_gp x) (mkEVM (p_heap x) (p_state x) 0 0 [] false [] ∅)
    (context_ok msg watch (mo_GasPrice _ MO)) (mkGood (mkEVM (p_heap x) (p_state x) 0 0 [] false [] ∅) I S ltac:(split; done)) MO) as H.
  unfold wp, apply_message. destruct (ApplyMessage _ _ _ _ _) as [[[[[[ret used] failed] err] gp'] e']|w]; [|by eapply tx_block_panic].
  cbn [fst snd] in *. destruct H as (I' & S' & B & _ & H). split_and!; [|done|by destruct err].
  constructor; [done|done|]. cbn. unfold base_of in B. cbn in B. injection B as -> _ _ _. exact T.
Qed.

Lemma update_state_ok x : ready x →
  wp (update_state WENV config header) (λ _ x', ready x' ∧ p_usedGas x' = p_usedGas x ∧ p_gp x' = p_gp x ∧ flow (p_state x) (p_state x')) x.
Proof using BK WL AL TLA TLS SL.
  intros [I S T]. unfold update_state. rewrite (bk_ares BK). apply wp_bind. unfold wp, on_state.
  pose proof (Finalise_keeps (WENV := WENV (p_heap x)) true (p_state x) (inv_wf _ I) T S (wf_stays_deleted _ (inv_wf _ I))) as H.
  destruct (Finalise true (p_state x)) as [[[] s']|w]; [|subst w; constructor]. destruct H as (I' & S' & F & T' & _).
  unfold wp. cbn. by split_and!.
Qed.

Lemma votes_ok from tx time x : ready x → moves_value (tx_Action tx) →
  wp (on_states (voteChangeToDelegateState address_keccak iterate from tx time))
    (λ _ x', ready x' ∧ p_usedGas x' = p_usedGas x ∧ p_gp x' = p_gp x ∧ flow (p_state x) (p_state x')) x.
Proof.
  intros [I S T] Ha. unfold wp, on_states.
  destruct (votes_step address_keccak iterate from tx time (p_state x) (p_delegates x) (inv_wf _ I) S Ha) as (r & s' & d' & -> & A).
  split_and!; [|done|done|by apply A]. constructor; [by eapply advances_Inv|apply A|]. cbn.
  pose proof (undoable_base _ _ (ad_undo _ _ _ A)) as B. unfold base_of in B. injection B as -> _ _ _. exact T.
Qed.

Lemma makeReceipt_runs root failed msg tx h gas used logs :
  ∃ r, makeReceipt root failed msg tx h gas used logs = Ret r ∧ rc_TxHash r = h ∧ rc_GasUsed r = gas ∧ CumulativeGasUsed r = used.
Proof.
  unfold makeReceipt. rewrite CreateBloom_big. cbn [mbind outcome_bind]. eexists. split; [reflexivity|]. by destruct (_ || _).
Qed.

(** What a transaction that was applied leaves. *)
Definition tx_applied (tx : Transaction) (x : EXEC) (r : Receipt) (x' : EXEC) : Prop :=
  (∃ tx', Transaction_Hash Keccak256Hash tx = Ret (rc_TxHash r, tx')) ∧
  CumulativeGasUsed r = p_usedGas x' ∧ p_usedGas x' = u64 (p_usedGas x + rc_GasUsed r) ∧
  (rc_GasUsed r ≤ GasLimit (data tx) → p_gp x' = p_gp x - rc_GasUsed r ∧ flow (p_state x) (p_state x')).

Lemma ApplyTransaction_ok tx time watch x : ready x → plain_tx c (data tx) →
  wp (apply header tx time watch) (λ r x', ready x' ∧ match r with inl (receipt, _) => tx_applied tx x receipt x' | inr _ => True end) x.
Proof using BK WL AL TLA TLS SL.
  intros R P. unfold ApplyTransaction. eapply wp_seq; [unfold lift_outcome, MakeSigner; by rewrite (bk_chain BK)|].
  destruct (AsMessage_runs Keccak256Hash (mkSigner c (c * 2)) tx) as (m & tx1 & E & Hd & Hh & Hm); [unfold signer_ok; cbn; lia|exact P|].
  eapply wp_seq; [unfold lift_outcome; by rewrite E|]. destruct m as [msg|err]; [|by apply wp_ret].
  destruct (Hm msg eq_refl) as (MO & Hg & Ha). apply wp_bind. eapply wp_mono; [by apply apply_message_ok|].
  intros [[[[ret gas] failed] err] inner] x1 (R1 & U1 & H1). cbn [fst snd] in H1. destruct err as [err|]; [by apply wp_ret|].
  apply wp_bind. eapply wp_mono; [apply votes_ok; [done|cbn; rewrite Hd; apply P]|].
  intros [err|] x2 (R2 & U2 & G2 & F2); [by apply wp_ret|]. apply wp_bind. eapply wp_mono; [by apply update_state_ok|].
  intros root x3 (R3 & U3 & G3 & F3). eapply wp_seq; [reflexivity|].
  assert (Ht : tx_ok (data tx1)) by (rewrite Hd; apply P). destruct (Transaction_Hash_runs Keccak256Hash tx1 Ht) as [h Eh].
  eapply wp_seq; [unfold lift_outcome; by rewrite Eh|]. eapply wp_seq; [reflexivity|]. eapply wp_seq; [reflexivity|]. cbn [p_usedGas p_state].
  match goal with |- context [makeReceipt ?a ?b ?c ?d ?e ?f ?g ?l] => destruct (makeReceipt_runs a b c d e f g l) as (r & Er & Hr1 & Hr2 & Hr3) end.
  eapply wp_seq; [unfold lift_outcome; by rewrite Er|].
  assert (A : tx_applied tx x r (x3 <| p_usedGas ::= λ used, u64 (used + gas) |>)).
  { unfold tx_applied. rewrite Hr1, Hr2, Hr3. cbn. split_and!; [|by rewrite U3|congruence|].
    - unfold Transaction_Hash in *. rewrite <- Hh. destruct (tx_hash tx1) as [h1|] eqn:E1; [injection Eh as -> _; by eexists|].
      rewrite <- Hd. revert Eh. unfold mbind, outcome_bind. destruct (rlpHash _ _ _); [|done]. intros [= -> _]. by eexists.
    - intros Hle. destruct H1 as [Hgp F1]; [by rewrite Hg|]. split; [congruence|]. eapply flow_trans; [exact F1|]. by eapply flow_trans. }
  destruct R3. destruct (0 <? length inner)%nat; (eapply wp_seq; [reflexivity|]; apply wp_ret; split; [by constructor|exact A]).
Qed.

Lemma ready_Prepare h bh i x : ready x →
  ∃ x', on_state (λ _, StateDB.Prepare h bh i) x = Ret (tt, x') ∧ ready x' ∧ p_usedGas x' = p_usedGas x ∧ p_gp x' = p_gp x ∧ flow (p_state x) (p_state x').
Proof.
  intros [[W V J] S T]. eexists. split; [reflexivity|]. split_and!; [|done|done|by apply flow_reads].
  constructor; [|exact S|exact T]. constructor; [by destruct W|by destruct V|exact J].
Qed.

(** The outcome of the transactions of a block. *)
Record loop_applied (txs : list Transaction) (x : EXEC) (rs : list Receipt) (logs : list Log) (x' : EXEC) : Prop := mkLoopApplied {
  la_hashes : Forall2 (λ tx r, ∃ tx', Transaction_Hash Keccak256Hash tx = Ret (rc_TxHash r, tx')) txs rs;
  la_gas : CumulativeGasUsed <$> rs = running_gas (p_usedGas x) (rc_GasUsed <$> rs);
  la_used : p_usedGas x' = foldl (λ used r, u64 (used + rc_GasUsed r)) (p_usedGas x) rs;
  la_logs : logs = concat (rc_Logs <$> rs);
  la_books : Forall2 (λ tx r, rc_GasUsed r ≤ GasLimit (data tx)) txs rs →
    p_gp x' = p_gp x - gas_of rs ∧ flow (p_state x) (p_state x')
}.

Lemma process_loop_ok bh time txs : ∀ i x, ready x → Forall (λ tx, plain_tx c (data tx)) txs →
  wp (process_loop WENV iterate grow fuel config cfg GetHeader poll header bh time i txs)
    (λ r x', ready x' ∧ match r with inl (rs, logs) => loop_applied txs x rs logs x' | inr _ => True end) x.
Proof using BK WL AL TLA TLS SL.
  induction txs as [|tx txs IH]; intros i x R H; cbn [process_loop].
  { apply wp_ret. split; [done|]. constructor; cbn; [constructor|done..|]. intros _. split; [lia|apply flow_refl]. }
  apply Forall_cons in H as [P H]. destruct (Transaction_Hash_runs Keccak256Hash tx (pl_tx _ _ P)) as [h Eh].
  eapply wp_seq; [unfold lift_outcome; by rewrite Eh|]. destruct (ready_Prepare h bh i x R) as (x1 & E1 & R1 & U1 & G1 & F1).
  eapply wp_seq; [exact E1|]. eapply wp_seq; [reflexivity|]. set (x2 := x1 <| p_delegates := _ |>).
  assert (R2 : ready x2) by (by destruct R1). apply wp_bind. eapply wp_mono; [by apply ApplyTransaction_ok|].
  intros [[r gas]|err] x3 [R3 A3]; [|by apply wp_ret]. apply wp_bind. eapply wp_mono; [by apply IH|].
  intros [[rs logs]|err] x4 [R4 A4]; [|by apply wp_ret]. apply wp_ret. split; [done|].
  destruct A3 as ((tx' & Ht) & C3 & U3 & B3), A4 as [L1 L2 L3 L4 L5]. cbn in U3, B3.
  constructor; cbn.
  - constructor; [|done]. unfold Transaction_Hash in Eh, Ht. cbn in Ht. injection Ht as Hh _. rewrite <- Hh. eexists. exact Eh.
  - rewrite C3, L2, U3. unfold x2. cbn. by rewrite U1.
  - rewrite L3, U3. unfold x2. cbn. by rewrite U1.
  - by rewrite L4.
  - intros [Hle Hall]%Forall2_cons. destruct (B3 Hle) as [G3 F3], (L5 Hall) as [G4 F4]. split; [unfold x2 in G3; cbn in G3; rewrite G4, G3, G1; unfold gas_of; cbn; lia|].
    eapply flow_trans; [exact F1|]. by eapply flow_trans.
Qed.
End Books.

(** C7: a block keeps the books.  Take a block after the forks, of transactions that
    move value, call or create contracts, and a sound state.  Applying the transactions
    one after the other does not panic, except for the causes named for transactions
    and for an account that cannot be encoded.  If one of them is refused, the block
    is.  Otherwise there is one receipt for each transaction, in order and under its
    hash; the gas each receipt counts up to is the running sum of the gas of the
    transactions, the last of which is the gas of the block; the logs are those of the
    receipts; the state is sound.  And if no transaction used more gas than it bought,
    the gas used is exactly what is missing from the block's pool, and there is no more
    of the currency, and no more of any asset, than before the block. *)
Theorem block_books {AT ST DT DS : Type} `{ENV : StateEnv AT ST slice} `{DENV : DelegateEnv DT DS}
    `{CRYPTO : CryptoOps} `{SECP : Secp256k1} `{JSON : TxJson} `{TLA : !TrieLaws address AT} `{TLS : !TrieLaws hash ST} `{SL : !StorageLaws AT ST slice}
    (WENV : heap → WriteEnv ST slice) (WL : ∀ h, WriteLaws ST slice (WENV := WENV h)) (AL : ∀ h, AccountLaws AT ST slice (WENV := WENV h))
    (iterate : gmap bytes Z → list (bytes * Z)) (grow : nat → nat) (fuel : nat) (config : ChainConfig) (cfg : VmConfig)
    (GetHeader : hash → Z → option Header) (poll : gmap address DelegateState.Candidate) (header : Header) (c : Z)
    (blockHash : hash) (time i : Z) (txs : list Transaction) (x : Exec AT ST DT DS) :
  block_ok (AT := AT) (ST := ST) config poll header c → Forall (λ tx, plain_tx c (data tx)) txs →
  Inv (p_state x) → sound (p_state x) → trie_ok (s_trie (p_state x)) →
  match process_loop WENV iterate grow fuel config cfg GetHeader poll header blockHash time i txs x with
  | Ret (inl (receipts, logs), x') =>
    Inv (p_state x') ∧ sound (p_state x') ∧
    Forall2 (λ tx r, ∃ tx', Transaction_Hash Keccak256Hash tx = Ret (rc_TxHash r, tx')) txs receipts ∧
    CumulativeGasUsed <$> receipts = running_gas (p_usedGas x) (rc_GasUsed <$> receipts) ∧
    p_usedGas x' = foldl (λ used r, u64 (used + rc_GasUsed r)) (p_usedGas x) receipts ∧
    logs = concat (rc_Logs <$> receipts) ∧
    (Forall2 (λ tx r, rc_GasUsed r ≤ GasLimit (data tx)) txs receipts →
     p_gp x' = p_gp x - gas_of receipts ∧ flow (p_state x) (p_state x'))
  | Ret (inr _, x') => Inv (p_state x') ∧ sound (p_state x')
  | Panic w => block_panic w
  end.
Proof.
  intros BK P I S T. pose proof (process_loop_ok WENV iterate grow fuel config cfg GetHeader poll header c BK blockHash time txs i x (mkReady x I S T) P) as H.
  unfold wp in H. destruct (process_loop _ _ _ _ _ _ _ _ _ _ _ _ _ x) as [[[[rs logs]|err] x']|w]; [|by destruct H as [[]]|exact H].
  destruct H as [[I' S' _] []]. by split_and!.
Qed.

(** ** On the sample environments *)

Module SampleBlock.
Import Sample SampleVotes SampleVM SampleLedger.

#[export] Instance block_json : TxJson := sample_json.
#[export] Instance block_secp : Secp256k1 := toy_secp.
#[export] Instance slice_storage_laws : StorageLaws (gmap address bytes) (gmap hash bytes) slice := sample_storage_laws_of (mkSlice 0 0).

Definition block_write_env (_ : heap) : WriteEnv (gmap hash bytes) slice := sample_write_env.
Lemma block_write_laws h : WriteLaws (gmap hash bytes) slice (WENV := block_write_env h).
Proof. unfold block_write_env. exact (sample_write_laws (VL := slice)). Qed.
Lemma block_account_laws h : AccountLaws (gmap address bytes) (gmap hash bytes) slice (ENV := slice_env) (WENV := block_write_env h).
Proof. unfold block_write_env. exact (sample_account_laws (mkSlice 0 0)). Qed.

Definition block_config : ChainConfig := mkChainConfig (Some 60) (Some 0) 5 1 101 10 (Some 0) (Some 0).
Definition block_header : Header :=
  mkHeader hash0 cb hash0 hash0 hash0 zero_bloom 7 250000 0 1000 [] [] hash0 hash0 0.

(** The voter sends 3 to an account that does not exist. *)
Definition block_tx : Transaction :=
  mkTx (mkTxdata 0 1 30000 (Some ca) 3 [] ActionTrans [] [] None [] EmptyString EmptyString 155 1 1) None None (Some (sample_signer, voter)).
Definition block_start : Exec (gmap address bytes) (gmap hash bytes) (gmap address bytes) (gmap hash bytes) :=
  mkExec sample_heap (sample_state 1000000) sample_ddb 250000 0 ∅.
Abbreviation block_loop := (process_loop (ENV := slice_env) block_write_env map_to_list double 10 block_config (mkVmConfig false false)
  (λ _ _, None) ∅ block_header hash0 1000 0 [block_tx]).

Lemma block_tx_plain : plain_tx 60 (data block_tx).
Proof. split; [split; by vm_compute|split; by vm_compute|by vm_compute|done|done]. Qed.

Lemma sample_block_ok : block_ok (AT := gmap address bytes) (ST := gmap hash bytes) block_config ∅ block_header 60.
Proof. split; [done..| |]; [intros a d E; by rewrite lookup_empty in E|intros ah; by exists ∅]. Qed.

Lemma block_runs :
  match block_loop block_start with
  | Ret (inl (receipts, logs), x') => Some (rc_GasUsed <$> receipts, p_gp x')
  | _ => None
  end = Some ([25000], 225000).
Proof. vm_compute. reflexivity. Qed.

Lemma block_start_trie : trie_ok (s_trie (p_state block_start)).
Proof. intros k. cbn. by rewrite lookup_empty. Qed.

Lemma block_start_Inv : Inv (p_state block_start).
Proof. exact (sample_machine_Inv 1000000). Qed.
Lemma block_start_sound : sound (p_state block_start).
Proof. exact (sample_sound 1000000 ltac:(lia)). Qed.

(** A block with one receipt. *)
Lemma one_receipt {AT ST DT DS} `{ENV : StateEnv AT ST slice} (m : outcome ((list Receipt * list Log + process_error) * Exec AT ST DT DS))
    (tx : Transaction) (x : Exec AT ST DT DS) (g pool : Z) :
  match m with Ret (inl (receipts, _), x') => Some (rc_GasUsed <$> receipts, p_gp x') | _ => None end = Some ([g], pool) → g ≤ GasLimit (data tx) →
  match m with
  | Ret (inl (receipts, logs), x') =>
    Inv (p_state x') ∧ sound (p_state x') ∧
    Forall2 (λ tx r, ∃ tx', Transaction_Hash Keccak256Hash tx = Ret (rc_TxHash r, tx')) [tx] receipts ∧
    CumulativeGasUsed <$> receipts = running_gas (p_usedGas x) (rc_GasUsed <$> receipts) ∧
    p_usedGas x' = foldl (λ used r, u64 (used + rc_GasUsed r)) (p_usedGas x) receipts ∧
    logs = concat (rc_Logs <$> receipts) ∧
    (Forall2 (λ tx r, rc_GasUsed r ≤ GasLimit (data tx)) [tx] receipts →
     p_gp x' = p_gp x - gas_of receipts ∧ flow (p_state x) (p_state x'))
  | Ret (inr _, x') => Inv (p_state x') ∧ sound (p_state x')
  | Panic w => block_panic w
  end →
  match m with
  | Ret (inl (receipts, _), x') => p_gp x' = pool ∧ CumulativeGasUsed <$> receipts = [u64 (p_usedGas x + g)] ∧ flow (p_state x) (p_state x')
  | _ => False
  end.
Proof.
  destruct m as [[[[rs logs]|err] x']|w]; [|done..]. intros E Hle (_ & _ & _ & Hc & _ & _ & Hb). injection E as Eg Hgp.
  destruct rs as [|r [|]]; try discriminate Eg. injection Eg as Eg. rewrite Hc. cbn. rewrite Eg. split_and!; [done..|].
  apply Hb. repeat constructor. by rewrite Eg.
Qed.
End SampleBlock.
Import Sample SampleVotes SampleVM SampleLedger SampleBlock.

Lemma block_books_witness :
  match block_loop block_start with
  | Ret (inl (receipts, _), x') => p_gp x' = 225000 ∧ CumulativeGasUsed <$> receipts = [25000] ∧ flow (p_state block_start) (p_state x')
  | _ => False
  end.
Proof.
  pose proof block_runs as E.
  pose proof (block_books (ENV := slice_env) block_write_env block_write_laws block_account_laws map_to_list double 10 block_config
    (mkVmConfig false false) (λ _ _, None) ∅ block_header 60 hash0 1000 0 [block_tx] block_start sample_block_ok
    (proj2 (Forall_singleton _ _) block_tx_plain) block_start_Inv block_start_sound block_start_trie) as B.
  revert E B. generalize (block_loop block_start). intros m E B. exact (one_receipt m block_tx block_start 25000 225000 E ltac:(done) B).
Defined.

Module SampleChain.
Definition header_hash (h : Header) : hash := match Header_Hash toy_keccak h with Ret x => x | Panic _ => hash0 end.
Definition first_block : Header := block_header <| Number := 0 |>.
Definition second_block : Header := block_header <| Number := 1 |> <| ParentHash := header_hash first_block |>.
Definition third_block : Header := block_header <| Number := 2 |> <| ParentHash := header_hash second_block |>.
Definition stored (h : hash) (n : Z) : option Header :=
  if decide (n = 0 ∧ h = header_hash first_block) then Some first_block
  else if decide (n = 1 ∧ h = header_hash second_block) then Some second_block else None.

Lemma header_hash_ok h : header_ok h → Header_Hash toy_keccak h = Ret (header_hash h).
Proof. intros H. unfold header_hash. by rewrite Header_Hash_rlp. Qed.
Lemma first_ok : header_ok first_block.
Proof. split; by vm_compute. Qed.
Lemma second_ok : header_ok second_block.
Proof. split; by vm_compute. Qed.

Lemma stored_ok : chain_ok stored third_block.
Proof.
  split; [|by vm_compute]. intros h n header. unfold stored. case_decide as E1; [intros [= <-]; by destruct E1 as [-> _]|].
  case_decide as E2; [|done]. intros [= <-]. by destruct E2 as [-> _].
Qed.

Lemma stored_below : chain_below stored third_block toy_keccak [first_block; second_block].
Proof.
  split; [done|..].
  - intros [|[|i]] h; [intros [= <-]; exists first_block|intros [= <-]; exists second_block|done];
      (split; [done|apply header_hash_ok; apply first_ok || apply second_ok]).
  - intros [|[|i]] p h; [intros [= <-]|intros [= <-]|done].
    + rewrite (header_hash_ok _ first_ok). intros [= <-]. unfold stored. by rewrite decide_True.
    + rewrite (header_hash_ok _ second_ok). intros [= <-]. unfold stored. rewrite decide_False by (by intros [? _]). by rewrite decide_True.
Qed.
End SampleChain.

Lemma block_hashes_right_witness :
  get_hashes SampleChain.stored SampleChain.third_block [0; 1; 0] None = Some (GetHash SampleChain.stored SampleChain.third_block <$> [0; 1; 0]).
Proof.
  apply (block_hashes_right toy_keccak SampleChain.stored SampleChain.third_block [SampleChain.first_block; SampleChain.second_block] [0; 1; 0]
    SampleChain.stored_ok SampleChain.stored_below). repeat constructor; done.
Defined.

(** ** Votes without the money

    Voting does not compare the balance with what it locks.  An account that can pay for
    the gas of one vote and has nothing else ends up with less than nothing, which the
    transaction gets away with; but such an account cannot be encoded, and writing it
    back after the transaction stops the node. *)

Module SampleOverdraft.
#[export] Instance one_vote : TxJson := {| BytesToVote _ := inl [addv ca]; BytesToAssetInfo _ := inr EmptyString |}.

Definition poor : address := to_word 160 14.
Definition poor_state : StateDB (gmap address bytes) (gmap hash bytes) slice :=
  (sample_state 0) <| s_stateObjects ::= <[poor := newObject poor (lit_of (mkAccount 0 30000 hash0 emptyCodeHash (Some 0) (mkSlice 0 0) NewAssets None)) true]> |>.
Definition vote_for_ca : Transaction :=
  mkTx (mkTxdata 0 1 30000 (Some poor) 0 [] ActionAddVote [] [] None [] EmptyString EmptyString 155 1 1) None None (Some (sample_signer, poor)).
Definition candidates : gmap address DelegateState.Candidate := {[ ca := mkCandidate (Hex address_keccak ca) 1 [] 0 ]}.
Definition overdraft : Exec (gmap address bytes) (gmap hash bytes) (gmap address bytes) (gmap hash bytes) :=
  mkExec sample_heap poor_state sample_ddb 250000 0 ∅.
End SampleOverdraft.
Import SampleOverdraft.

Theorem overdrawn_vote_panics :
  match process_loop (JSON := one_vote) (ENV := slice_env) block_write_env map_to_list double 10 block_config (mkVmConfig false false)
    (λ _ _, None) candidates block_header hash0 1000 0 [vote_for_ca] overdraft with
  | Panic w => w = encode_panic
  | Ret _ => False
  end.
Proof. vm_compute. reflexivity. Qed.
