(* ===== verification/ManagedState.v ===== *)
(** * Virtual nonces ([core/state/managed_state.go])

    The transaction pool counts the nonces of its pending transactions on top of a copy
    of the chain's state.  Of the state only the nonces of the accounts matter here. *)

From S2P Require Import Prelude Interfaces StateTypes.

(** [account]: where the virtual nonces start, and those handed out since. *)
Record account : Type := mkAccount { nstart : Z; acc_nonces : list bool }.
(** [ms_state] is the nonce in the copied state. *)
Record ManagedState : Type := mkManaged { ms_state : address → Z; ms_accounts : gmap address account }.
#[export] Instance eta_ManagedState : Eta ManagedState := λ r, mkManaged (ms_state r) (ms_accounts r).
#[local] Abbreviation MM := (GM ManagedState).

Definition ManageState (nonce : address → Z) : ManagedState := mkManaged nonce ∅.
Definition ms_SetState (nonce : address → Z) : MM unit := gmodify (λ ms, ms <| ms_state := nonce |>).

(** [uint64(len(account.nonces)) + account.nstart] *)
Definition acc_next (a : account) : Z := u64 (Z.of_nat (length (acc_nonces a)) + nstart a).
Definition newAccount (nonce : Z) : account := mkAccount nonce [].

Definition hasAccount (addr : address) (ms : ManagedState) : bool := bool_decide (is_Some (ms_accounts ms !! addr)).

Definition getAccount (addr : address) : MM account :=
  ms ← gget;
  let a :=
    match ms_accounts ms !! addr with
    | None => newAccount (ms_state ms addr)
    | Some a => if acc_next a <? ms_state ms addr then newAccount (ms_state ms addr) else a
    end in
  gmodify (λ ms, ms <| ms_accounts ::= <[addr := a]> |>);; mret a.

(** [n-account.nstart] is arithmetic on 64 bits: a nonce below the start is far above
    every length. *)
Definition RemoveNonce (addr : address) (n : Z) : MM unit :=
  ms ← gget;
  if hasAccount addr ms then
    a ← getAccount addr;
    let k := u64 (n - nstart a) in
    if k <=? Z.of_nat (length (acc_nonces a)) then
      gmodify (λ ms, ms <| ms_accounts ::= <[addr := mkAccount (nstart a) (take (Z.to_nat k) (acc_nonces a))]> |>)
    else mret tt
  else mret tt.

(** The first virtual nonce that is free. *)
Fixpoint first_free (nonces : list bool) : option nat :=
  match nonces with
  | [] => None
  | nonce :: nonces => if negb nonce then Some O else S <$> first_free nonces
  end.
Definition NewNonce (addr : address) : MM Z :=
  a ← getAccount addr;
  match first_free (acc_nonces a) with
  | Some i => mret (u64 (nstart a + Z.of_nat i))
  | None =>
    let nonces := acc_nonces a ++ [true] in
    gmodify (λ ms, ms <| ms_accounts ::= <[addr := mkAccount (nstart a) nonces]> |>);;
    mret (u64 (Z.of_nat (length nonces - 1) + nstart a))
  end.

Definition ms_GetNonce (addr : address) : MM Z :=
  ms ← gget;
  if hasAccount addr ms then a ← getAccount addr; mret (acc_next a)
  else mret (ms_state ms addr).

Definition ms_SetNonce (addr : address) (nonce : Z) : MM unit := gmodify (λ ms,
  ms <| ms_state ::= λ f a, if decide (a = addr) then nonce else f a |> <| ms_accounts ::= <[addr := newAccount nonce]> |>).

(** ** Correctness *)

(** Nonces are 64-bit numbers, the virtual ones do not overflow, and all that were
    handed out are taken. *)
Record acc_ok (a : account) : Prop := mkAccOk {
  ak_start : 0 ≤ nstart a;
  ak_end : Z.of_nat (length (acc_nonces a)) + nstart a < 2 ^ 64;
  ak_taken : Forall (λ b, b = true) (acc_nonces a)
}.
Record ms_ok (ms : ManagedState) : Prop := mkMsOk {
  mk_state : ∀ a, is_u64 (ms_state ms a);
  mk_accounts : map_Forall (λ _, acc_ok) (ms_accounts ms)
}.

(** The nonce [GetNonce] answers with. *)
Definition virtual_nonce (ms : ManagedState) (addr : address) : Z :=
  match ms_accounts ms !! addr with
  | None => ms_state ms addr
  | Some a => Z.max (Z.of_nat (length (acc_nonces a)) + nstart a) (ms_state ms addr)
  end.

Lemma acc_next_ok a : acc_ok a → acc_next a = Z.of_nat (length (acc_nonces a)) + nstart a.
Proof. intros [? ? _]. unfold acc_next, u64. rewrite Z.mod_small; lia. Qed.
Lemma newAccount_ok n : is_u64 n → acc_ok (newAccount n) ∧ acc_next (newAccount n) = n.
Proof.
  intros [? ?]. assert (acc_ok (newAccount n)) by (constructor; cbn; [done|lia|constructor]). split; [done|]. by rewrite acc_next_ok.
Qed.

Lemma ms_ok_insert ms addr a : ms_ok ms → acc_ok a → ms_ok (ms <| ms_accounts ::= <[addr := a]> |>).
Proof. intros [? ?] ?. constructor; cbn; [done|]. by apply map_Forall_insert_2. Qed.

Lemma getAccount_ok addr ms : ms_ok ms →
  ∃ a, getAccount addr ms = Ret (a, ms <| ms_accounts ::= <[addr := a]> |>) ∧ acc_ok a ∧ acc_next a = virtual_nonce ms addr ∧
    (∀ x, virtual_nonce (ms <| ms_accounts ::= <[addr := a]> |>) x = virtual_nonce ms x) ∧
    (∀ b, ms_accounts ms !! addr = Some b → ms_state ms addr ≤ acc_next b → a = b).
Proof.
  intros [Hs Ha]. unfold getAccount. erewrite GM_bind_run by reflexivity. cbv zeta.
  set (a := match ms_accounts ms !! addr with Some _ => _ | None => _ end).
  assert (K : acc_ok a ∧ acc_next a = virtual_nonce ms addr ∧ ms_state ms addr ≤ acc_next a).
  { unfold a, virtual_nonce. destruct (newAccount_ok _ (Hs addr)) as [K1 K2]. destruct (ms_accounts ms !! addr) as [b|] eqn:E; [|by rewrite K2].
    pose proof (Ha _ _ E) as K. rewrite (acc_next_ok _ K). destruct (Z.ltb_spec (Z.of_nat (length (acc_nonces b)) + nstart b) (ms_state ms addr)).
    - rewrite K2. split_and!; [done|lia|done].
    - rewrite acc_next_ok by done. split_and!; [done|lia|done]. }
  assert (U : ∀ b, ms_accounts ms !! addr = Some b → ms_state ms addr ≤ acc_next b → a = b).
  { intros b Hb Hle. unfold a. rewrite Hb. destruct (Z.ltb_spec (acc_next b) (ms_state ms addr)); [lia|done]. }
  clearbody a. destruct K as (K1 & K2 & K3). exists a. erewrite GM_bind_run by reflexivity. split_and!; [done|done|done| |done].
  intros x. unfold virtual_nonce at 1. cbn. rewrite lookup_insert. case_decide as E; [subst x|done].
  rewrite <- K2. rewrite acc_next_ok in * by done. lia.
Qed.

(** Shared by the readers below. *)
Lemma ms_GetNonce_ok addr ms : ms_ok ms →
  ∃ ms', ms_GetNonce addr ms = Ret (virtual_nonce ms addr, ms') ∧ ms_ok ms' ∧ ∀ x, virtual_nonce ms' x = virtual_nonce ms x.
Proof.
  intros K. unfold ms_GetNonce. erewrite GM_bind_run by reflexivity. unfold hasAccount. case_bool_decide as E.
  - destruct (getAccount_ok addr ms K) as (a & Ea & Ka & Na & V & _). eexists. erewrite GM_bind_run by exact Ea. rewrite Na.
    split_and!; [reflexivity|by apply ms_ok_insert|done].
  - exists ms. rewrite <- eq_None_not_Some in E. unfold virtual_nonce at 1. by rewrite E.
Qed.

Lemma ms_SetNonce_ok addr n ms : ms_ok ms → is_u64 n →
  ∃ ms', ms_SetNonce addr n ms = Ret (tt, ms') ∧ ms_ok ms' ∧ ∀ x, virtual_nonce ms' x = if decide (x = addr) then n else virtual_nonce ms x.
Proof.
  intros [Hs Ha] Hn. eexists. split; [reflexivity|]. split.
  - constructor; cbn; [intros x; by case_decide|]. apply map_Forall_insert_2; [by apply newAccount_ok|done].
  - intros x. unfold virtual_nonce. cbn. rewrite lookup_insert. destruct (decide (x = addr)) as [->|E].
    + rewrite decide_True by done. cbn. lia.
    + by rewrite decide_False by congruence.
Qed.

Lemma first_free_taken l : Forall (λ b, b = true) l → first_free l = None.
Proof. induction 1 as [|b l -> _ IH]; cbn; [done|]. by rewrite IH. Qed.

(** Virtual nonces are handed out in order.  [NewNonce] gives the nonce that [GetNonce]
    would answer with, which is then one higher for that account and the same for the
    others, as long as 64 bits hold it; [RemoveNonce] of that nonce gives it back. *)
Theorem virtual_nonces (addr : address) (ms : ManagedState) : ms_ok ms → virtual_nonce ms addr < 2 ^ 64 - 1 →
  ∃ ms', NewNonce addr ms = Ret (virtual_nonce ms addr, ms') ∧ ms_ok ms' ∧
    (∀ x, virtual_nonce ms' x = virtual_nonce ms x + (if decide (x = addr) then 1 else 0)) ∧
    ∃ ms'', RemoveNonce addr (virtual_nonce ms addr) ms' = Ret (tt, ms'') ∧ ms_ok ms'' ∧ ∀ x, virtual_nonce ms'' x = virtual_nonce ms x.
Proof.
  intros K B. destruct (getAccount_ok addr ms K) as (a & Ea & Ka & Na & V & _). unfold NewNonce. erewrite GM_bind_run by exact Ea.
  rewrite first_free_taken by apply Ka. rewrite acc_next_ok in Na by done. pose proof Ka as [A1 A2 A3].
  set (b := mkAccount (nstart a) (acc_nonces a ++ [true])).
  assert (Lb : Z.of_nat (length (acc_nonces b)) = Z.of_nat (length (acc_nonces a)) + 1) by (cbn; rewrite length_app; cbn; lia).
  assert (Kb : acc_ok b) by (constructor; [done|rewrite Lb; cbn; lia|apply Forall_app; by repeat constructor]).
  set (ms1 := ms <| ms_accounts ::= <[addr := a]> |>) in *. set (ms2 := ms1 <| ms_accounts ::= <[addr := b]> |>).
  assert (K2 : ms_ok ms2) by (by apply ms_ok_insert, Kb; apply ms_ok_insert).
  assert (Vb : ∀ x, virtual_nonce ms2 x = virtual_nonce ms x + (if decide (x = addr) then 1 else 0)).
  { intros x. rewrite <- V. unfold virtual_nonce, ms2, ms1. cbn -[b]. rewrite !lookup_insert. destruct (decide (x = addr)) as [->|E].
    - rewrite !decide_True by done. rewrite Lb. cbn [nstart b]. unfold virtual_nonce in Na. destruct (ms_accounts ms !! addr); lia.
    - rewrite !decide_False by congruence. lia. }
  exists ms2. split_and!; [|done|done|].
  - erewrite GM_bind_run by reflexivity. unfold mret, GM_ret. do 2 f_equal. rewrite length_app. cbn [length]. unfold u64. rewrite Z.mod_small; lia.
  - unfold RemoveNonce. erewrite GM_bind_run by reflexivity. unfold hasAccount.
    assert (L2 : ms_accounts ms2 !! addr = Some b) by (unfold ms2; cbn; by rewrite lookup_insert_eq).
    rewrite bool_decide_true by (by rewrite L2). destruct (getAccount_ok addr ms2 K2) as (c & Ec & _ & _ & Vc & U).
    erewrite GM_bind_run by exact Ec. assert (c = b) as ->.
    { apply U; [done|]. rewrite acc_next_ok, Lb by done. change (ms_state ms2 addr) with (ms_state ms addr). cbn [nstart b].
      unfold virtual_nonce in Na. destruct (ms_accounts ms !! addr); lia. }
    cbv zeta. assert (Ek : u64 (virtual_nonce ms addr - nstart b) = Z.of_nat (length (acc_nonces a))).
    { rewrite <- Na. cbn [nstart b]. unfold u64. rewrite Z.mod_small; lia. }
    rewrite Ek. destruct (Z.leb_spec (Z.of_nat (length (acc_nonces a))) (Z.of_nat (length (acc_nonces b)))); [|lia].
    eexists. split; [reflexivity|]. rewrite Nat2Z.id. cbn [acc_nonces b nstart]. rewrite take_app_length. destruct a as [n0 l0]. cbn [nstart acc_nonces].
    split; [by apply ms_ok_insert, Ka; apply ms_ok_insert|]. intros x. rewrite <- V. unfold virtual_nonce. cbn. rewrite !lookup_insert.
    destruct (decide (addr = x)); done.
Qed.

Lemma virtual_nonces_witness : ∃ ms', NewNonce address0 (ManageState (λ _, 7)) = Ret (7, ms') ∧ virtual_nonce ms' address0 = 8.
Proof.
  destruct (virtual_nonces address0 (ManageState (λ _, 7))) as (ms' & E & _ & V & _).
  - constructor; [intros ?; cbn; unfold is_u64; lia|apply map_Forall_empty].
  - vm_compute. reflexivity.
  - exists ms'. split; [exact E|]. rewrite V, decide_True by reflexivity. reflexivity.
Defined.
