(* ===== verification/Heap.v ===== *)
(** * Heaps ([container/heap])

    The heap operations of Go's library, on a slice whose elements are compared by a
    number: an element never has a smaller number than its parent, at position
    [(i - 1) / 2].  They permute the slice, and the first element of a heap has the
    smallest number. *)

From S2P Require Import Prelude.

Section Heap.
Context {A : Type} (key : A → Z).

(** [Less(i, j)] and [Swap(i, j)]; positions are always in range. *)
Definition key_at (l : list A) (i : nat) : Z := from_option key 0 (l !! i).
Definition heap_Less (l : list A) (i j : nat) : bool := key_at l i <? key_at l j.
Definition heap_Swap (i j : nat) (l : list A) : list A :=
  match l !! i, l !! j with
  | Some x, Some y => <[i := y]> (<[j := x]> l)
  | _, _ => l
  end.

Definition parent (j : nat) : nat := ((j - 1) / 2)%nat.

(** The loops of [up] and [down]: an element moves at most as many times as the slice
    is long. *)
Fixpoint heap_up (fuel : nat) (j : nat) (l : list A) : list A :=
  match fuel with
  | O => l
  | S fuel =>
    let i := parent j in
    if (i =? j)%nat || negb (heap_Less l j i) then l
    else heap_up fuel i (heap_Swap i j l)
  end.

Fixpoint heap_down (fuel : nat) (i n : nat) (l : list A) : nat * list A :=
  match fuel with
  | O => (i, l)
  | S fuel =>
    let j1 := (2 * i + 1)%nat in
    if (n <=? j1)%nat then (i, l)
    else
      let j2 := (j1 + 1)%nat in
      let j := if (j2 <? n)%nat && heap_Less l j2 j1 then j2 else j1 in
      if negb (heap_Less l j i) then (i, l)
      else heap_down fuel j n (heap_Swap i j l)
  end.

Definition up (j : nat) (l : list A) : list A := heap_up (S j) j l.
(** The slice, and whether the element moved. *)
Definition down (i0 n : nat) (l : list A) : bool * list A :=
  let '(i, l) := heap_down n i0 n l in ((i0 <? i)%nat, l).

Fixpoint heap_Init_loop (i n : nat) (l : list A) : list A :=
  match i with
  | O => l
  | S i => heap_Init_loop i n (down i n l).2
  end.
Definition heap_Init (l : list A) : list A := heap_Init_loop (length l / 2) (length l) l.

Definition heap_Push (x : A) (l : list A) : list A := up (length l) (l ++ [x]).

(** The method [Pop] of the slice takes its last element. *)
Definition pop_last (l : list A) : option (A * list A) :=
  match last l with Some x => Some (x, take (length l - 1) l) | None => None end.

Definition heap_Pop (l : list A) : option (A * list A) :=
  let n := (length l - 1)%nat in pop_last (down 0 n (heap_Swap 0 n l)).2.

Definition heap_Remove (i : nat) (l : list A) : option (A * list A) :=
  let n := (length l - 1)%nat in
  if (n =? i)%nat then pop_last l
  else
    let '(moved, l') := down i n (heap_Swap i n l) in
    pop_last (if moved then l' else up i l').
End Heap.

(** ** Swapping *)

Section Correct.
Context {A : Type} (key : A → Z).

#[local] Abbreviation kat := (key_at key).

Lemma parent_spec j : (0 < j)%nat → (parent j < j)%nat ∧ (j = 2 * parent j + 1 ∨ j = 2 * parent j + 2)%nat.
Proof. unfold parent. intros H. pose proof (Nat.div_mod_eq (j - 1) 2). pose proof (Nat.mod_upper_bound (j - 1) 2). lia. Qed.
Lemma parent_left i : parent (2 * i + 1) = i.
Proof. destruct (parent_spec (2 * i + 1)); lia. Qed.
Lemma parent_right i : parent (2 * i + 2) = i.
Proof. destruct (parent_spec (2 * i + 2)); lia. Qed.

Lemma length_heap_Swap i j (l : list A) : length (heap_Swap i j l) = length l.
Proof. unfold heap_Swap. destruct (l !! i), (l !! j); by rewrite ?length_insert. Qed.

Lemma heap_Swap_perm i j (l : list A) : heap_Swap i j l ≡ₚ l.
Proof.
  unfold heap_Swap. destruct (l !! i) as [x|] eqn:Ei, (l !! j) as [y|] eqn:Ej; try done.
  destruct (decide (i = j)) as [->|Hne].
  { assert (x = y) as -> by congruence. by rewrite list_insert_insert_eq, list_insert_id. }
  by apply Permutation_insert_swap.
Qed.

Lemma heap_Swap_lookup i j m (l : list A) : (i < length l)%nat → (j < length l)%nat →
  heap_Swap i j l !! m = if decide (m = i) then l !! j else if decide (m = j) then l !! i else l !! m.
Proof.
  intros [x Hi]%lookup_lt_is_Some_2 [y Hj]%lookup_lt_is_Some_2. unfold heap_Swap. rewrite Hi, Hj.
  assert (i < length (<[j:=x]> l))%nat by (rewrite length_insert; by eapply lookup_lt_Some).
  assert (j < length l)%nat by (by eapply lookup_lt_Some).
  destruct (decide (m = i)) as [->|Hmi]; [by rewrite list_lookup_insert_eq|]. rewrite list_lookup_insert_ne by done.
  destruct (decide (m = j)) as [->|Hmj]; [by rewrite list_lookup_insert_eq|]. by rewrite list_lookup_insert_ne.
Qed.

Lemma kat_Swap i j m l : (i < length l)%nat → (j < length l)%nat →
  kat (heap_Swap i j l) m = if decide (m = i) then kat l j else if decide (m = j) then kat l i else kat l m.
Proof. intros Hi Hj. unfold key_at. rewrite heap_Swap_lookup by done. by repeat case_decide. Qed.

Lemma heap_Swap_drop i j n (l : list A) : (i < n)%nat → (j < n)%nat → drop n (heap_Swap i j l) = drop n l.
Proof. intros Hi Hj. unfold heap_Swap. destruct (l !! i), (l !! j); try done. rewrite !drop_insert_lt by lia. done. Qed.

(** ** Order *)

(** The first [n] elements are in order below position [lo]. *)
Definition ordered_at (n lo : nat) (l : list A) (j : nat) : Prop :=
  (0 < j < n)%nat → (lo ≤ parent j)%nat → kat l (parent j) ≤ kat l j.
Definition heap_from (n lo : nat) (l : list A) : Prop := ∀ j, ordered_at n lo l j.
Definition is_heap (l : list A) : Prop := heap_from (length l) 0 l.

(** In order but for the element at [i], whose children are in order with its parent. *)
Record heap_but (n lo i : nat) (l : list A) : Prop := mkHeapBut {
  hb_others j : parent j ≠ i → j ≠ i → ordered_at n lo l j;
  hb_bridge j : (0 < i)%nat → (lo ≤ parent i)%nat → (0 < j < n)%nat → parent j = i → kat l (parent i) ≤ kat l j
}.

(** [l'] is [l] with its first [n] elements in another order. *)
Definition reordered (n : nat) (l l' : list A) : Prop := l' ≡ₚ l ∧ drop n l' = drop n l.

Lemma reordered_refl n l : reordered n l l.
Proof. done. Qed.
Lemma reordered_trans n l1 l2 l3 : reordered n l1 l2 → reordered n l2 l3 → reordered n l1 l3.
Proof. intros [P1 D1] [P2 D2]. split; [by rewrite P2|congruence]. Qed.
Lemma reordered_Swap n i j l : (i < n)%nat → (j < n)%nat → reordered n l (heap_Swap i j l).
Proof. intros Hi Hj. split; [apply heap_Swap_perm|by apply heap_Swap_drop]. Qed.
Lemma reordered_length n l l' : reordered n l l' → length l' = length l.
Proof. intros [P _]. by rewrite P. Qed.

(** What [down] does with the element at [i], which ends at [i']. *)
Definition sifted (n lo i : nat) (l : list A) (i' : nat) (l' : list A) : Prop :=
  reordered n l l' ∧ (i ≤ i')%nat ∧ (i' = i → l' = l) ∧ (∀ j, j ≠ i → ordered_at n lo l' j) ∧
  ((i < i')%nat ∨ ordered_at n lo l i → heap_from n lo l').

Lemma sifted_stays n lo i l : heap_but n lo i l → (∀ j, parent j = i → j ≠ i → ordered_at n lo l j) → sifted n lo i l i l.
Proof.
  intros [Ho _] C. assert (D : ∀ j, j ≠ i → ordered_at n lo l j) by (intros j Hj; destruct (decide (parent j = i)); auto).
  split_and!; [apply reordered_refl|done|done|done|]. intros [?|Hi] j; [lia|]. destruct (decide (j = i)) as [->|]; auto.
Qed.

(** The smaller child. *)
Lemma smaller_child n i l : (2 * i + 1 < n)%nat →
  let c := (if (2 * i + 1 + 1 <? n)%nat && heap_Less key l (2 * i + 1 + 1) (2 * i + 1) then 2 * i + 1 + 1 else 2 * i + 1)%nat in
  (i < c < n)%nat ∧ parent c = i ∧ ∀ j, (0 < j < n)%nat → parent j = i → kat l c ≤ kat l j.
Proof.
  intros Hn. cbv zeta. replace (2 * i + 1 + 1)%nat with (2 * i + 2)%nat by lia.
  assert (K : ∀ j, (0 < j < n)%nat → parent j = i → j = (2 * i + 1)%nat ∨ j = (2 * i + 2)%nat ∧ (2 * i + 2 < n)%nat).
  { intros j Hj <-. destruct (parent_spec j); lia. }
  unfold heap_Less. destruct (Nat.ltb_spec (2 * i + 2) n), (Z.ltb_spec (kat l (2 * i + 2)) (kat l (2 * i + 1))); cbn [andb];
    (split_and!; [lia|lia|apply parent_left || apply parent_right|intros j Hj Ej; destruct (K j Hj Ej) as [->|[-> ?]]; lia]).
Qed.

(** Swapping an element with its smaller, smaller child. *)
Lemma swap_down n lo i c l :
  (n ≤ length l)%nat → (lo ≤ i)%nat → heap_but n lo i l → (i < c < n)%nat → parent c = i →
  (∀ j, (0 < j < n)%nat → parent j = i → kat l c ≤ kat l j) → kat l c < kat l i →
  heap_but n lo c (heap_Swap i c l) ∧ ordered_at n lo (heap_Swap i c l) c ∧ ordered_at n lo (heap_Swap i c l) i.
Proof.
  intros Hn Hlo [Ho Hb] Hc Pc Mc Hlt.
  assert (K : ∀ m, kat (heap_Swap i c l) m = if decide (m = i) then kat l c else if decide (m = c) then kat l i else kat l m)
    by (intros m; apply kat_Swap; lia).
  split_and!.
  - split.
    + intros j Hpj Hj H0 H1. rewrite !K. rewrite (decide_False (P := j = c)) by done. destruct (decide (parent j = c)); [done|].
      destruct (decide (j = i)) as [->|Hji].
      * destruct (parent_spec i) as [? _]; [lia|]. rewrite decide_False by lia. apply Hb; [lia|done|lia|done].
      * destruct (decide (parent j = i)) as [Ej|Ej]; [by apply Mc|]. by apply Ho.
    + intros j _ _ Hj Ej. rewrite Pc, !K. rewrite decide_True by done. destruct (parent_spec j) as [? _]; [lia|].
      rewrite !decide_False by lia. rewrite <- Ej. apply Ho; [lia|lia|done|lia].
  - intros _ _. rewrite Pc, !K. rewrite decide_True by done. rewrite decide_False, decide_True by lia || done. lia.
  - intros Hi Hp. rewrite !K. destruct (parent_spec i) as [? _]; [lia|]. rewrite decide_False, decide_False, decide_True by lia || done.
    apply Hb; [lia|done|lia|done].
Qed.

(** The element at [i] is put in its place among those below it. *)
Lemma heap_down_ok fuel n lo : ∀ i l, (n ≤ length l)%nat → (lo ≤ i)%nat → (n ≤ i + fuel)%nat → heap_but n lo i l →
  sifted n lo i l (heap_down key fuel i n l).1 (heap_down key fuel i n l).2.
Proof.
  induction fuel as [|fuel IH]; intros i l Hn Hlo Hf B; cbn [heap_down].
  { cbn [fst snd]. apply sifted_stays; [done|]. intros j E _ Hj _. destruct (parent_spec j); lia. }
  destruct (Nat.leb_spec n (2 * i + 1)) as [Hle|Hlt].
  { cbn [fst snd]. apply sifted_stays; [done|]. intros j E _ Hj _. destruct (parent_spec j); lia. }
  pose proof (smaller_child n i l Hlt) as H. cbv zeta in H |- *.
  set (c := (if _ && _ then (2 * i + 1 + 1)%nat else (2 * i + 1)%nat)) in *. clearbody c. destruct H as (Hc & Pc & Mc). unfold heap_Less. destruct (Z.ltb_spec (kat l c) (kat l i)) as [Hlt2|Hge]; cbn [negb].
  - destruct (swap_down n lo i c l Hn Hlo B Hc Pc Mc Hlt2) as (B' & Oc & Oi).
    destruct (IH c (heap_Swap i c l)) as (R & Hi' & _ & O & H); [by rewrite length_heap_Swap|lia|lia|done|].
    split_and!; [eapply reordered_trans; [|exact R]; apply reordered_Swap; lia|lia|lia|intros j _; apply H; by right|intros _; apply H; by right].
  - cbn [fst snd]. apply sifted_stays; [done|]. intros j Ej _ Hj Hl. rewrite Ej. specialize (Mc j Hj Ej). lia.
Qed.

Lemma down_ok n lo i l : (n ≤ length l)%nat → (lo ≤ i)%nat → heap_but n lo i l →
  let '(moved, l') := down key i n l in
  reordered n l l' ∧ (∀ j, j ≠ i → ordered_at n lo l' j) ∧ (moved = false → l' = l) ∧ (moved = true ∨ ordered_at n lo l i → heap_from n lo l').
Proof.
  intros Hn Hlo B. pose proof (heap_down_ok n n lo i l Hn Hlo ltac:(lia) B) as (R & Hi & Hs & O & H). unfold down.
  destruct (heap_down key n i n l) as [i' l']. cbn [fst snd] in *. destruct (Nat.ltb_spec i i').
  - split_and!; [done|done|done|]. intros _. by apply H; left.
  - split_and!; [done|done|intros _; apply Hs; lia|]. intros [?|?]; [done|]. by apply H; right.
Qed.

(** The element at [j] is put in its place among those above it. *)
Lemma heap_up_ok fuel n : ∀ j l, (n ≤ length l)%nat → (j < n)%nat → (j < fuel)%nat → heap_but n 0 j l → (∀ m, m ≠ j → ordered_at n 0 l m) →
  reordered n l (heap_up key fuel j l) ∧ heap_from n 0 (heap_up key fuel j l).
Proof.
  induction fuel as [|fuel IH]; intros j l Hn Hj Hf B O; [lia|]. cbn [heap_up].
  assert (S : ordered_at n 0 l j → reordered n l l ∧ heap_from n 0 l).
  { intros Oj. split; [done|]. intros m. destruct (decide (m = j)) as [->|]; auto. }
  destruct (Nat.eqb_spec (parent j) j) as [E|Hne]; cbn [orb].
  { apply S. intros ? ?. destruct (parent_spec j); lia. }
  assert (0 < j)%nat by (destruct j; [exfalso; by apply Hne|lia]). destruct (parent_spec j) as [Hp _]; [done|].
  unfold heap_Less. destruct (Z.ltb_spec (kat l j) (kat l (parent j))) as [Hlt|Hge]; cbn [negb]; [|apply S; intros _ _; exact Hge].
  assert (K : ∀ m, kat (heap_Swap (parent j) j l) m =
    if decide (m = parent j) then kat l j else if decide (m = j) then kat l (parent j) else kat l m) by (intros m; apply kat_Swap; lia).
  assert (O' : ∀ m, m ≠ parent j → ordered_at n 0 (heap_Swap (parent j) j l) m).
  { intros m Hm H0 H1. destruct (parent_spec m) as [? _]; [lia|]. rewrite !K. rewrite (decide_False (P := m = parent j)) by done.
    destruct (decide (m = j)) as [->|Hmj]; [rewrite decide_True by done; lia|].
    pose proof (O m Hmj H0 H1) as Om. destruct (decide (parent m = parent j)) as [E|]; [rewrite E in Om; lia|].
    destruct (decide (parent m = j)) as [E|]; [|done]. apply (hb_bridge _ _ _ _ B); [done|lia|done|done]. }
  destruct (IH (parent j) (heap_Swap (parent j) j l)) as [R H']; [by rewrite length_heap_Swap|lia|lia| |done|].
  - split; [intros m _ Hm; by apply O'|]. intros m H0 H1 Hm Em. destruct (parent_spec (parent j)) as [? _]; [done|]. rewrite !K.
    rewrite !decide_False by lia. pose proof (O (parent j) ltac:(lia) ltac:(lia) ltac:(lia)) as Op.
    destruct (parent_spec m) as [? _]; [lia|]. destruct (decide (m = parent j)); [lia|]. destruct (decide (m = j)) as [->|Hmj]; [done|].
    pose proof (O m Hmj Hm ltac:(lia)) as Om. rewrite Em in Om. lia.
  - split; [|done]. eapply reordered_trans; [|exact R]. apply reordered_Swap; lia.
Qed.

Lemma up_ok n j l : (n ≤ length l)%nat → (j < n)%nat → heap_but n 0 j l → (∀ m, m ≠ j → ordered_at n 0 l m) →
  reordered n l (up key j l) ∧ heap_from n 0 (up key j l).
Proof. intros. apply heap_up_ok; auto. Qed.

(** ** The operations *)

Lemma heap_Init_ok l : heap_Init key l ≡ₚ l ∧ is_heap (heap_Init key l).
Proof.
  assert (G : ∀ i l', l' ≡ₚ l → heap_from (length l) i l' → heap_Init_loop key i (length l) l' ≡ₚ l ∧ heap_from (length l) 0 (heap_Init_loop key i (length l) l')).
  { induction i as [|i IH]; intros l' P H; cbn [heap_Init_loop]; [done|].
    pose proof (down_ok (length l) i i l' ltac:(by rewrite P) ltac:(done)) as D. destruct (down key i (length l) l') as [moved l2].
    destruct D as ([P2 _] & _ & _ & D).
    - split; [|intros j Hi Hp; destruct (parent_spec i); lia]. intros j Hp Hj Hn Hl. apply H; [done|lia].
    - cbn [snd]. apply IH; [by rewrite P2|]. apply D. right. intros Hn Hl. destruct (parent_spec i); lia. }
  unfold heap_Init, is_heap. destruct (G (length l / 2)%nat l) as [P H]; [done| |].
  - intros j Hn Hl. destruct (parent_spec j) as [_ Hp]; [lia|]. pose proof (Nat.div_mod_eq (length l) 2). pose proof (Nat.mod_upper_bound (length l) 2). lia.
  - split; [done|]. by rewrite (Permutation_length P).
Qed.

Lemma kat_app_l l l' i : (i < length l)%nat → kat (l ++ l') i = kat l i.
Proof. intros H. unfold key_at. by rewrite lookup_app_l. Qed.

Lemma heap_Push_ok x l : is_heap l → heap_Push key x l ≡ₚ x :: l ∧ is_heap (heap_Push key x l).
Proof.
  intros H. unfold heap_Push, is_heap. assert (Hl : length (l ++ [x]) = S (length l)) by (rewrite length_app; cbn; lia).
  assert (O : ∀ m, m ≠ length l → ordered_at (S (length l)) 0 (l ++ [x]) m).
  { intros m Hm H0 H1. destruct (parent_spec m) as [? _]; [lia|]. rewrite !kat_app_l by lia. apply H; lia. }
  destruct (up_ok (S (length l)) (length l) (l ++ [x])) as [[P _] U]; [lia|lia| |done|].
  - split; [intros m _ Hm; by apply O|]. intros m _ _ Hm E. destruct (parent_spec m); lia.
  - assert (E : length (up key (length l) (l ++ [x])) = S (length l)) by (by rewrite P). rewrite E. split; [|done]. by rewrite P, Permutation_app_comm.
Qed.

(** The first element is the smallest. *)
Lemma heap_min l i : is_heap l → (i < length l)%nat → kat l 0 ≤ kat l i.
Proof.
  intros H. induction i as [i IH] using lt_wf_ind. intros Hi. destruct (decide (i = 0%nat)) as [->|Hne]; [done|].
  destruct (parent_spec i) as [Hp _]; [lia|]. etrans; [apply (IH (parent i)); lia|]. apply H; lia.
Qed.

Lemma heap_min_elem l x y : is_heap l → l !! 0%nat = Some x → y ∈ l → key x ≤ key y.
Proof.
  intros H Hx [i Hi]%list_elem_of_lookup. pose proof (heap_min l i H ltac:(by eapply lookup_lt_Some)) as M. unfold key_at in M. by rewrite Hx, Hi in M.
Qed.

Lemma pop_last_split (l : list A) n : length l = S n → ∃ x, l !! n = Some x ∧ pop_last l = Some (x, take n l) ∧ drop n l = [x].
Proof.
  intros Hl. destruct (lookup_lt_is_Some_2 l n) as [x Hx]; [lia|]. exists x. unfold pop_last. rewrite last_lookup, Hl. cbn [pred]. rewrite Hx.
  split_and!; [done|by replace (S n - 1)%nat with n by lia|]. rewrite (drop_S _ x) by done. by rewrite drop_ge by lia.
Qed.

Lemma heap_from_take n l : (n ≤ length l)%nat → heap_from n 0 l → is_heap (take n l).
Proof.
  intros Hn H j Hj Hl. rewrite length_take, Nat.min_l in Hj by done. destruct (parent_spec j) as [? _]; [lia|].
  unfold key_at. rewrite !lookup_take_lt by lia. by apply H.
Qed.

(** The last element of a slice [reordered] before it is taken off. *)
Lemma pop_reordered n l l' x : length l = S n → reordered n l l' → l !! n = Some x →
  pop_last l' = Some (x, take n l') ∧ l ≡ₚ x :: take n l'.
Proof.
  intros Hl [P D] Hx. assert (Hl' : length l' = S n) by (by rewrite P). destruct (pop_last_split l' n Hl') as (y & Hy & E & Dy).
  destruct (pop_last_split l n Hl) as (x' & Hx' & _ & Dx). assert (x' = x) as -> by congruence. rewrite D, Dx in Dy. injection Dy as <-. split; [done|].
  rewrite <- P, <- (take_drop n l') at 1. rewrite D, Dx. by rewrite Permutation_app_comm.
Qed.

Lemma heap_Pop_ok x l : is_heap l → l !! 0%nat = Some x →
  ∃ l', heap_Pop key l = Some (x, l') ∧ l ≡ₚ x :: l' ∧ is_heap l'.
Proof.
  intros H Hx. pose proof (lookup_lt_Some _ _ _ Hx) as Hl. unfold heap_Pop. set (n := (length l - 1)%nat). set (l1 := heap_Swap 0 n l).
  assert (Hl1 : length l1 = S n) by (unfold l1; rewrite length_heap_Swap; lia).
  assert (K : ∀ m, (0 < m < n)%nat → kat l1 m = kat l m) by (intros m Hm; unfold l1; rewrite kat_Swap, !decide_False by lia; done).
  pose proof (down_ok n 0 0 l1 ltac:(lia) ltac:(lia)) as D. destruct (down key 0 n l1) as [moved l2]. destruct D as (R & _ & _ & D).
  { split; [|lia]. intros m Hp Hm H0 H1. rewrite !K by (destruct (parent_spec m); lia). apply H; lia. }
  assert (Hn : l1 !! n = Some x).
  { unfold l1. rewrite heap_Swap_lookup by lia. rewrite (decide_True (P := n = n)) by done. case_decide as E; [by rewrite E|done]. }
  destruct (pop_reordered n l1 l2 x Hl1 R Hn) as [E P]. cbn [snd]. rewrite E. eexists. split_and!; [done| |].
  - by rewrite <- (heap_Swap_perm 0 n l).
  - apply heap_from_take; [rewrite (reordered_length _ _ _ R); lia|]. apply D. right. intros ? ?. lia.
Qed.

Lemma heap_Remove_ok i x l : is_heap l → l !! i = Some x →
  ∃ l', heap_Remove key i l = Some (x, l') ∧ l ≡ₚ x :: l' ∧ is_heap l'.
Proof.
  intros H Hx. pose proof (lookup_lt_Some _ _ _ Hx) as Hl. unfold heap_Remove. set (n := (length l - 1)%nat).
  destruct (Nat.eqb_spec n i) as [<-|Hne].
  { destruct (pop_reordered n l l x ltac:(lia) (reordered_refl n l) Hx) as [E P]. rewrite E. eexists. split_and!; [done|done|].
    apply heap_from_take; [lia|]. intros m Hm Hl'. apply H; lia. }
  set (l1 := heap_Swap i n l). assert (Hl1 : length l1 = S n) by (unfold l1; rewrite length_heap_Swap; lia).
  assert (K : ∀ m, m ≠ i → (m < n)%nat → kat l1 m = kat l m) by (intros m ? ?; unfold l1; rewrite kat_Swap, !decide_False by lia; done).
  assert (B : heap_but n 0 i l1).
  { split.
    - intros m Hp Hm H0 H1. destruct (parent_spec m); [lia|]. rewrite !K by lia. apply H; lia.
    - intros m Hi _ Hm E. destruct (parent_spec m), (parent_spec i); try lia. rewrite !K by lia. etrans; [apply H|rewrite <- E; apply H]; lia. }
  assert (Hn : l1 !! n = Some x).
  { unfold l1. rewrite heap_Swap_lookup by lia. rewrite decide_False, decide_True by done. done. }
  pose proof (down_ok n 0 i l1 ltac:(lia) ltac:(lia) B) as D. destruct (down key i n l1) as [moved l2]. destruct D as (R & O & Hs & D).
  assert (G : ∃ l3, (if moved then l2 else up key i l2) = l3 ∧ reordered n l1 l3 ∧ heap_from n 0 l3).
  { destruct moved; [exists l2; split_and!; [done|done|by apply D; left]|]. specialize (Hs eq_refl). subst l2. eexists. split; [done|].
    by apply up_ok; [lia|lia|..]. }
  destruct G as (l3 & -> & R3 & H3). destruct (pop_reordered n l1 l3 x Hl1 R3 Hn) as [E P]. rewrite E. eexists. split_and!; [done| |].
  - by rewrite <- (heap_Swap_perm i n l).
  - apply heap_from_take; [rewrite (reordered_length _ _ _ R3); lia|done].
Qed.
(** ** Slices that are not heaps

    The operations permute any slice. *)

Lemma heap_up_perm fuel : ∀ j (l : list A), heap_up key fuel j l ≡ₚ l.
Proof.
  induction fuel as [|fuel IH]; intros j l; cbn [heap_up]; [done|]. destruct (_ || _); [done|]. by rewrite IH, heap_Swap_perm.
Qed.
Lemma heap_Push_perm x l : heap_Push key x l ≡ₚ x :: l.
Proof. unfold heap_Push, up. by rewrite heap_up_perm, Permutation_app_comm. Qed.

Lemma heap_down_reordered fuel n : ∀ i l, (i < n)%nat → reordered n l (heap_down key fuel i n l).2.
Proof.
  induction fuel as [|fuel IH]; intros i l Hi; cbn [heap_down]; [apply reordered_refl|].
  destruct (Nat.leb_spec n (2 * i + 1)); [apply reordered_refl|].
  set (j := if _ && _ then _ else _). assert (Hj : (j < n)%nat).
  { unfold j. destruct (Nat.ltb_spec (2 * i + 1 + 1) n); cbn [andb]; [destruct (heap_Less key l _ _)|]; lia. }
  destruct (negb _); [apply reordered_refl|]. eapply reordered_trans; [|by apply IH]; by apply reordered_Swap.
Qed.
Lemma heap_up_reordered fuel n : ∀ j l, (j < n)%nat → reordered n l (heap_up key fuel j l).
Proof.
  induction fuel as [|fuel IH]; intros j l Hj; cbn [heap_up]; [apply reordered_refl|].
  assert (parent j < n)%nat by (destruct (decide (j = 0%nat)) as [->|]; [done|destruct (parent_spec j); lia]).
  destruct (_ || _); [apply reordered_refl|]. eapply reordered_trans; [|by apply IH]; by apply reordered_Swap.
Qed.

Lemma heap_Remove_perm i x l : l !! i = Some x → ∃ l', heap_Remove key i l = Some (x, l') ∧ l ≡ₚ x :: l'.
Proof.
  intros Hx. pose proof (lookup_lt_Some _ _ _ Hx) as Hl. unfold heap_Remove. set (n := (length l - 1)%nat).
  destruct (Nat.eqb_spec n i) as [<-|Hne].
  { destruct (pop_reordered n l l x ltac:(lia) (reordered_refl n l) Hx) as [E P]. rewrite E. eauto. }
  set (l1 := heap_Swap i n l). assert (Hl1 : length l1 = S n) by (unfold l1; rewrite length_heap_Swap; lia).
  assert (Hn : l1 !! n = Some x).
  { unfold l1. rewrite heap_Swap_lookup by lia. rewrite decide_False, decide_True by done. done. }
  unfold down. pose proof (heap_down_reordered n n i l1 ltac:(lia)) as R. destruct (heap_down key n i n l1) as [i' l2]. cbn [snd] in R.
  assert (R' : reordered n l1 (if (i <? i')%nat then l2 else up key i l2)).
  { destruct (_ <? _)%nat; [done|]. eapply reordered_trans; [done|]. apply heap_up_reordered. lia. }
  destruct (pop_reordered n l1 _ x Hl1 R' Hn) as [E P]. rewrite E. eexists. split; [done|]. rewrite <- P. symmetry. apply heap_Swap_perm.
Qed.
End Correct.
