(* ===== verification/TxList.v ===== *)
(** * Transactions of an account in the pool ([core/tx_list.go])

    [txSortedMap] keeps the transactions of an account by their nonces, with a heap of
    the nonces and, at times, the sorted list; [txList] adds the highest cost and gas
    limit seen and, if it is strict, drops everything above a gap.  A nonce of the heap
    without a transaction would put a nil into a list that every caller dereferences;
    here it panics at once. *)

From S2P Require Import Prelude Interfaces StateTypes StateSample VmData TxData Heap.

Definition Nonce (tx : Transaction) : Z := AccountNonce (data tx).
Definition GasPrice (tx : Transaction) : Z := Price (data tx).
Definition Gas (tx : Transaction) : Z := GasLimit (data tx).

Record txSortedMap : Type := mkSortedMap {
  tm_items : gmap Z Transaction;
  tm_index : list Z;
  tm_cache : option (list Transaction)
}.
#[export] Instance eta_txSortedMap : Eta txSortedMap := λ r, mkSortedMap (tm_items r) (tm_index r) (tm_cache r).

Definition newTxSortedMap : txSortedMap := mkSortedMap ∅ [] None.

(** [nonceHeap]: a heap of the nonces themselves. *)
#[local] Abbreviation nonce_Push := (heap_Push (λ n : Z, n)).
#[local] Abbreviation nonce_Pop := (heap_Pop (λ n : Z, n)).
#[local] Abbreviation nonce_Remove := (heap_Remove (λ n : Z, n)).
#[local] Abbreviation nonce_Init := (heap_Init (λ n : Z, n)).

#[local] Abbreviation TM := (GM txSortedMap).

Definition by_nonce (a b : Transaction) : Prop := Nonce a ≤ Nonce b.
#[export] Instance by_nonce_dec a b : Decision (by_nonce a b) := decide (Nonce a ≤ Nonce b).

Definition tm_Get (nonce : Z) (m : txSortedMap) : option Transaction := tm_items m !! nonce.

Definition tm_Put (tx : Transaction) : TM unit := gmodify (λ m,
  let nonce := Nonce tx in
  let m := match tm_items m !! nonce with
           | None => m <| tm_index ::= nonce_Push nonce |>
           | Some _ => m
           end in
  m <| tm_items ::= <[nonce := tx]> |> <| tm_cache := None |>).

(** Take the transaction of a nonce out of the map. *)
Definition take_item (nonce : Z) : TM Transaction :=
  m ← gget;
  match tm_items m !! nonce with
  | Some tx => gmodify (λ m, m <| tm_items ::= delete nonce |>);; mret tx
  | None => gpanic "nil transaction"
  end.

(** The loop of [Forward]: each turn takes a nonce off the heap. *)
Fixpoint forward_loop (fuel : nat) (threshold : Z) (removed : list Transaction) : TM (list Transaction) :=
  match fuel with
  | O => mret removed
  | S fuel =>
    m ← gget;
    match tm_index m, nonce_Pop (tm_index m) with
    | lowest :: _, Some (nonce, index) =>
      if lowest <? threshold then
        gmodify (λ m, m <| tm_index := index |>);;
        tx ← take_item nonce;
        forward_loop fuel threshold (removed ++ [tx])
      else mret removed
    | _, _ => mret removed
    end
  end.

(** [m.cache[len(removed):]] *)
Definition shift_front (n : nat) : TM unit :=
  m ← gget;
  match tm_cache m with
  | None => mret tt
  | Some c => if (length c <? n)%nat then gpanic "slice bounds out of range" else gmodify (λ m, m <| tm_cache := Some (drop n c) |>)
  end.
(** [m.cache[:len(m.cache)-len(drops)]] *)
Definition shift_back (n : nat) : TM unit :=
  m ← gget;
  match tm_cache m with
  | None => mret tt
  | Some c => if (length c <? n)%nat then gpanic "slice bounds out of range" else gmodify (λ m, m <| tm_cache := Some (take (length c - n) c) |>)
  end.

Definition tm_Forward (threshold : Z) : TM (list Transaction) :=
  m ← gget;
  removed ← forward_loop (length (tm_index m)) threshold [];
  shift_front (length removed);;
  mret removed.

Section Ranges.
(** The order in which a [range] loop visits the transactions. *)
Variable range : gmap Z Transaction → list (Z * Transaction).

Definition tm_Filter (f : Transaction → bool) : TM (list Transaction) :=
  m ← gget;
  let removed := List.filter f (range (tm_items m)).*2 in
  gmodify (λ m, m <| tm_items ::= base.filter (λ p : Z * Transaction, f p.2 = false) |>);;
  (if (0 <? length removed)%nat then
     gmodify (λ m, m <| tm_index := nonce_Init (range (tm_items m)).*1 |> <| tm_cache := None |>)
   else mret tt);;
  mret removed.

(** The loop of [Cap], from [size] items down to the threshold, on the sorted index. *)
Fixpoint cap_loop (size : nat) (threshold : Z) (index : list Z) (drops : list Transaction) : TM (list Transaction) :=
  if Z.of_nat size <=? threshold then mret drops
  else
    match size with
    | O => gpanic "index out of range"
    | S below =>
      match index !! below with
      | None => gpanic "index out of range"
      | Some nonce => tx ← take_item nonce; cap_loop below threshold index (drops ++ [tx])
      end
    end.

(** [sort.Sort] has only one result on the nonces, which are all different. *)
Definition tm_Cap (threshold : Z) : TM (list Transaction) :=
  m ← gget;
  if Z.of_nat (base.size (tm_items m)) <=? threshold then mret []
  else
    let index := merge_sort Z.le (tm_index m) in
    drops ← cap_loop (base.size (tm_items m)) threshold index [];
    gmodify (λ m, m <| tm_index := nonce_Init (take (Z.to_nat threshold) index) |>);;
    shift_back (length drops);;
    mret drops.

(** The position of a nonce in the heap. *)
Fixpoint nonce_position (nonce : Z) (index : list Z) : option nat :=
  match index with
  | [] => None
  | n :: index => if n =? nonce then Some O else S <$> nonce_position nonce index
  end.

Definition tm_Remove (nonce : Z) : TM bool :=
  m ← gget;
  match tm_items m !! nonce with
  | None => mret false
  | Some _ =>
    let index := match nonce_position nonce (tm_index m) with
                 | Some i => match nonce_Remove i (tm_index m) with Some (_, index) => index | None => tm_index m end
                 | None => tm_index m
                 end in
    gmodify (λ m, m <| tm_index := index |> <| tm_items ::= delete nonce |> <| tm_cache := None |>);;
    mret true
  end.

Fixpoint ready_loop (fuel : nat) (next : Z) (ready : list Transaction) : TM (list Transaction) :=
  match fuel with
  | O => mret ready
  | S fuel =>
    m ← gget;
    match tm_index m, nonce_Pop (tm_index m) with
    | lowest :: _, Some (_, index) =>
      if lowest =? next then
        tx ← take_item next;
        gmodify (λ m, m <| tm_index := index |>);;
        ready_loop fuel (u64 (next + 1)) (ready ++ [tx])
      else mret ready
    | _, _ => mret ready
    end
  end.

Definition tm_Ready (start : Z) : TM (list Transaction) :=
  m ← gget;
  match tm_index m with
  | [] => mret []
  | lowest :: _ =>
    if lowest >? start then mret []
    else
      ready ← ready_loop (length (tm_index m)) lowest [];
      gmodify (λ m, m <| tm_cache := None |>);;
      mret ready
  end.

Definition tm_Len (m : txSortedMap) : nat := base.size (tm_items m).

Definition tm_Flatten : TM (list Transaction) :=
  m ← gget;
  match tm_cache m with
  | Some c => mret c
  | None =>
    let c := merge_sort by_nonce (range (tm_items m)).*2 in
    gmodify (λ m, m <| tm_cache := Some c |>);; mret c
  end.

(** ** [txList] *)

Record txList : Type := mkTxList {
  tl_strict : bool;
  tl_txs : txSortedMap;
  tl_costcap : Z;
  tl_gascap : Z
}.
#[export] Instance eta_txList : Eta txList := λ r, mkTxList (tl_strict r) (tl_txs r) (tl_costcap r) (tl_gascap r).

Definition newTxList (strict : bool) : txList := mkTxList strict newTxSortedMap 0 0.

#[local] Abbreviation LM := (GM txList).
Definition on_txs {A} (m : TM A) : LM A := λ l,
  match m (tl_txs l) with Ret (a, t) => Ret (a, l <| tl_txs := t |>) | Panic w => Panic w end.

Definition tl_Overlaps (tx : Transaction) (l : txList) : bool := bool_decide (is_Some (tm_Get (Nonce tx) (tl_txs l))).

(** [Div] of positive numbers. *)
Definition bump_threshold (old : Transaction) (priceBump : Z) : Z := bigDiv (GasPrice old * (i64 (100 + i64 priceBump))) 100.

Definition tl_Add (tx : Transaction) (priceBump : Z) : LM (bool * option Transaction) :=
  l ← gget;
  let old := tm_Get (Nonce tx) (tl_txs l) in
  if match old with
     | Some old => (GasPrice tx <=? GasPrice old) || (GasPrice tx <? bump_threshold old priceBump)
     | None => false
     end then mret (false, None)
  else
    on_txs (tm_Put tx);;
    gmodify (λ l, l <| tl_costcap ::= λ c, if c <? AoaCost tx then AoaCost tx else c |>
                    <| tl_gascap ::= λ g, if g <? Gas tx then Gas tx else g |>);;
    mret (true, old).

Definition tl_Forward (threshold : Z) : LM (list Transaction) := on_txs (tm_Forward threshold).

Definition lowest_nonce (removed : list Transaction) : Z :=
  foldl (λ lowest tx, if lowest >? Nonce tx then Nonce tx else lowest) MaxUint64 removed.

Definition tl_Filter (costLimit gasLimit : Z) : LM (list Transaction * list Transaction) :=
  l ← gget;
  if (tl_costcap l <=? costLimit) && (tl_gascap l <=? gasLimit) then mret ([], [])
  else
    gmodify (λ l, l <| tl_costcap := costLimit |> <| tl_gascap := gasLimit |>);;
    removed ← on_txs (tm_Filter (λ tx, (AoaCost tx >? costLimit) || (Gas tx >? gasLimit)));
    if tl_strict l && (0 <? length removed)%nat then
      let lowest := lowest_nonce removed in
      invalids ← on_txs (tm_Filter (λ tx, Nonce tx >? lowest));
      mret (removed, invalids)
    else mret (removed, []).

Definition tl_Cap (threshold : Z) : LM (list Transaction) := on_txs (tm_Cap threshold).

Definition tl_Remove (tx : Transaction) : LM (bool * list Transaction) :=
  let nonce := Nonce tx in
  removed ← on_txs (tm_Remove nonce);
  match removed with
  | false => mret (false, [])
  | true =>
    l ← gget;
    match tl_strict l with
    | true => invalids ← on_txs (tm_Filter (λ tx, Nonce tx >? nonce)); mret (true, invalids)
    | false => mret (true, [])
    end
  end.

Definition tl_Ready (start : Z) : LM (list Transaction) := on_txs (tm_Ready start).
Definition tl_Len (l : txList) : nat := tm_Len (tl_txs l).
Definition tl_Empty (l : txList) : bool := (tl_Len l =? 0)%nat.
Definition tl_Flatten : LM (list Transaction) := on_txs tm_Flatten.
End Ranges.

(** ** Sorted maps *)

(** The nonces in order, and the transactions in the order of their nonces. *)
Definition nonces (m : gmap Z Transaction) : list Z := merge_sort Z.le (map_to_list m).*1.
Definition txs_at (m : gmap Z Transaction) (ns : list Z) : list Transaction := omap (m !!.) ns.
Definition sorted_txs (m : gmap Z Transaction) : list Transaction := txs_at m (nonces m).

(** Transactions are kept under their nonces. *)
Definition items_ok (m : gmap Z Transaction) : Prop := ∀ n tx, m !! n = Some tx → Nonce tx = n ∧ is_u64 n.

Record tm_ok (m : txSortedMap) : Prop := mkTmOk {
  to_items : items_ok (tm_items m);
  to_index : tm_index m ≡ₚ (map_to_list (tm_items m)).*1;
  to_heap : is_heap (λ n : Z, n) (tm_index m);
  to_cache c : tm_cache m = Some c → c = sorted_txs (tm_items m)
}.

Section Sorted.
Implicit Types (m : gmap Z Transaction) (ns : list Z).

Lemma nonces_perm m : nonces m ≡ₚ (map_to_list m).*1.
Proof. apply merge_sort_Permutation. Qed.
Lemma nonces_sorted m : StronglySorted Z.le (nonces m).
Proof. apply (StronglySorted_merge_sort Z.le). Qed.
Lemma nonces_NoDup m : NoDup (nonces m).
Proof. rewrite nonces_perm. apply NoDup_fst_map_to_list. Qed.
Lemma elem_of_nonces m n : n ∈ nonces m ↔ is_Some (m !! n).
Proof.
  rewrite nonces_perm, list_elem_of_fmap. split.
  - intros ((n' & tx) & -> & H%elem_of_map_to_list). by exists tx.
  - intros [tx H]. exists (n, tx). split; [done|]. by apply elem_of_map_to_list.
Qed.
Lemma length_nonces m : length (nonces m) = base.size m.
Proof. rewrite nonces_perm, length_fmap. apply length_map_to_list. Qed.

(** A sorted list of all the nonces is the list of nonces. *)
Lemma nonces_unique m ns : ns ≡ₚ (map_to_list m).*1 → StronglySorted Z.le ns → ns = nonces m.
Proof. intros P S. apply (StronglySorted_unique Z.le); [done|apply nonces_sorted|]. by rewrite nonces_perm. Qed.

Lemma nonces_ext m ns : NoDup ns → StronglySorted Z.le ns → (∀ n, n ∈ ns ↔ is_Some (m !! n)) → ns = nonces m.
Proof.
  intros Hn Hs He. apply nonces_unique; [|done]. rewrite <- nonces_perm. apply NoDup_Permutation; [done|apply nonces_NoDup|].
  intros n. by rewrite elem_of_nonces, He.
Qed.

Lemma StronglySorted_sublist (ns ns' : list Z) : sublist ns ns' → StronglySorted Z.le ns' → StronglySorted Z.le ns.
Proof.
  induction 1 as [|x l1 l2 H IH|x l1 l2 H IH]; [done|..]; intros [Hs Hf]%StronglySorted_inv.
  - constructor; [auto|]. apply Forall_forall. intros y Hy. rewrite Forall_forall in Hf. apply Hf. by eapply sublist_subseteq.
  - auto.
Qed.

(** The map without some of its nonces. *)
Lemma nonces_filter m (P : Z → Prop) `{∀ n, Decision (P n)} m' :
  (∀ n tx, m' !! n = Some tx ↔ m !! n = Some tx ∧ P n) → nonces m' = base.filter P (nonces m).
Proof.
  intros Hm. symmetry. apply nonces_ext.
  - apply NoDup_filter, nonces_NoDup.
  - eapply StronglySorted_sublist; [apply sublist_filter|apply nonces_sorted].
  - intros n. rewrite list_elem_of_filter, elem_of_nonces. split.
    + intros [Hp [tx Ht]]. exists tx. by apply Hm.
    + intros [tx [Ht Hp]%Hm]. split; [done|by exists tx].
Qed.

Lemma txs_at_filter m (P : Z → Prop) `{∀ n, Decision (P n)} m' ns :
  (∀ n tx, m' !! n = Some tx ↔ m !! n = Some tx ∧ P n) → txs_at m' (base.filter P ns) = txs_at m (base.filter P ns).
Proof.
  intros Hm. unfold txs_at. induction ns as [|n ns IH]; [done|]. rewrite filter_cons. destruct (decide (P n)) as [Hp|Hp]; [|done].
  cbn. rewrite IH. assert (m' !! n = m !! n) as ->; [|done]. destruct (m !! n) as [tx|] eqn:E; [by apply Hm|].
  destruct (m' !! n) as [tx|] eqn:E'; [|done]. apply Hm in E' as [E' _]. congruence.
Qed.

Lemma txs_at_app m ns ns' : txs_at m (ns ++ ns') = txs_at m ns ++ txs_at m ns'.
Proof. apply omap_app. Qed.

Lemma length_txs_at m ns : (∀ n, n ∈ ns → is_Some (m !! n)) → length (txs_at m ns) = length ns.
Proof.
  unfold txs_at. induction ns as [|n ns IH]; intros H; [done|]. cbn. destruct (H n) as [tx ->]; [by left|]. cbn. rewrite IH; [done|].
  intros n' Hn'. apply H. by right.
Qed.
End Sorted.

(** ** The heap and the map *)

Record core_ok (m : txSortedMap) : Prop := mkCoreOk {
  ko_items : items_ok (tm_items m);
  ko_index : tm_index m ≡ₚ (map_to_list (tm_items m)).*1;
  ko_heap : is_heap (λ n : Z, n) (tm_index m)
}.

Lemma tm_core m : tm_ok m → core_ok m.
Proof. by intros []. Qed.

Lemma items_ok_sub (m m' : gmap Z Transaction) : items_ok m → m' ⊆ m → items_ok m'.
Proof. intros H Hs n tx Hn. apply H. by eapply lookup_weaken. Qed.

Lemma elem_of_index m n : core_ok m → n ∈ tm_index m ↔ is_Some (tm_items m !! n).
Proof. intros [_ P _]. rewrite P, <- nonces_perm. apply elem_of_nonces. Qed.

Lemma NoDup_index m : core_ok m → NoDup (tm_index m).
Proof. intros [_ P _]. rewrite P. apply NoDup_fst_map_to_list. Qed.

Lemma keys_delete (m : gmap Z Transaction) n tx : m !! n = Some tx → (map_to_list m).*1 ≡ₚ n :: (map_to_list (delete n m)).*1.
Proof. intros H. by rewrite <- (map_to_list_delete m n tx H). Qed.

(** What is first in the heap is the lowest nonce. *)
Lemma lowest_first m lowest rest : core_ok m → tm_index m = lowest :: rest →
  ∃ tx index, tm_items m !! lowest = Some tx ∧ nonce_Pop (tm_index m) = Some (lowest, index) ∧
    core_ok (m <| tm_index := index |> <| tm_items ::= delete lowest |>) ∧ nonces (tm_items m) = lowest :: nonces (delete lowest (tm_items m)).
Proof.
  intros K E. assert (He : is_Some (tm_items m !! lowest)) by (apply (elem_of_index m lowest K); rewrite E; by left). destruct He as [tx Ht].
  destruct (heap_Pop_ok _ lowest (tm_index m) (ko_heap _ K)) as (index & Ep & P & H); [by rewrite E|]. exists tx, index. split_and!; [done|done|..].
  - constructor; cbn; [eapply items_ok_sub; [apply K|apply delete_subseteq]| |done].
    apply (Permutation_cons_inv (a := lowest)). rewrite <- P, (ko_index _ K). by eapply keys_delete.
  - symmetry. apply nonces_unique; [by rewrite nonces_perm, <- (keys_delete _ _ tx)|]. constructor; [apply nonces_sorted|].
    apply Forall_forall. intros n Hn. apply (heap_min_elem _ (tm_index m) lowest n (ko_heap _ K)); [by rewrite E|].
    apply elem_of_nonces in Hn as [t Hn]. apply (elem_of_index m n K). apply lookup_delete_Some in Hn as [_ Hn]. by exists t.
Qed.

Lemma txs_at_delete m lowest tx ns : m !! lowest = Some tx → lowest ∉ ns → txs_at m (lowest :: ns) = tx :: txs_at (delete lowest m) ns.
Proof.
  intros Ht Hn. unfold txs_at. cbn. rewrite Ht. f_equal. induction ns as [|n ns IH]; [done|]. apply not_elem_of_cons in Hn as [H1 H2]. cbn.
  rewrite lookup_delete_ne by done. by rewrite IH.
Qed.

Lemma nonces_head_notin m lowest : nonces m = lowest :: nonces (delete lowest m) → lowest ∉ nonces (delete lowest m).
Proof. intros E. pose proof (nonces_NoDup m) as H. rewrite E in H. by apply NoDup_cons in H as [? _]. Qed.

Lemma empty_index m : core_ok m → tm_index m = [] → tm_items m = ∅ ∧ nonces (tm_items m) = [].
Proof.
  intros K E. pose proof (ko_index _ K) as P. rewrite E in P. apply Permutation_nil_l in P. symmetry in P. apply fmap_nil_inv in P. apply map_to_list_empty_iff in P.
  split; [done|]. rewrite P. unfold nonces. by rewrite map_to_list_empty.
Qed.

Lemma forward_loop_runs t fuel : ∀ removed m, core_ok m → (length (tm_index m) ≤ fuel)%nat →
  ∃ m', forward_loop fuel t removed m = Ret (removed ++ txs_at (tm_items m) (base.filter (λ n, n < t) (nonces (tm_items m))), m') ∧ core_ok m' ∧
    tm_items m' = base.filter (λ p, ¬ p.1 < t) (tm_items m) ∧ tm_cache m' = tm_cache m.
Proof.
  induction fuel as [|fuel IH]; intros removed m K Hf.
  { destruct (tm_index m) as [|] eqn:E; [|cbn in Hf; lia]. destruct (empty_index m K E) as [Em En]. exists m. cbn. rewrite En. cbn. rewrite app_nil_r.
    split_and!; [done|done|by rewrite Em, map_filter_empty|done]. }
  cbn [forward_loop]. erewrite GM_bind_run by reflexivity. destruct (tm_index m) as [|lowest rest] eqn:E.
  { destruct (empty_index m K E) as [Em En]. exists m. rewrite En. cbn. rewrite app_nil_r. split_and!; [done|done|by rewrite Em, map_filter_empty|done]. }
  rewrite <- E. destruct (lowest_first m lowest rest K E) as (tx & index & Ht & Ep & K' & En). rewrite Ep.
  destruct (Z.ltb_spec lowest t) as [Hlt|Hge].
  - erewrite GM_bind_run by reflexivity. unfold take_item. erewrite GM_bind_run; [|erewrite GM_bind_run by reflexivity; cbn; rewrite Ht; reflexivity].
    destruct (IH (removed ++ [tx]) _ K') as (m' & Er & K2 & Ei & Ec).
    { cbn. assert (length index = length rest); [|cbn in Hf; lia].
      destruct (heap_Pop_ok _ lowest (tm_index m) (ko_heap _ K)) as (index' & Ep' & P & _); [by rewrite E|]. rewrite Ep in Ep'. injection Ep' as <-.
      apply Permutation_length in P. rewrite E in P. cbn in P. lia. }
    exists m'. split_and!; [|done| |done].
    + cbn in Er |- *. rewrite Er. rewrite En, filter_cons_True by done. rewrite (txs_at_delete _ _ tx), <- app_assoc; [done|done|].
      intros [_ Hin]%list_elem_of_filter. by apply (nonces_head_notin _ _ En).
    + rewrite Ei. cbn. rewrite map_filter_delete, delete_id; [done|]. apply map_lookup_filter_None. right. intros x _. cbn. lia.
  - exists m. assert (Hn : base.filter (λ n, n < t) (nonces (tm_items m)) = []).
    { destruct (base.filter _ _) as [|n ns] eqn:Ef; [done|exfalso]. assert (Hin : n ∈ n :: ns) by (by left).
      rewrite <- Ef in Hin. apply list_elem_of_filter in Hin as [Hn Hin]. pose proof (nonces_sorted (tm_items m)) as Hs. rewrite En in Hs, Hin. apply StronglySorted_inv in Hs as [_ Hs].
      apply elem_of_cons in Hin as [->|Hin]; [lia|]. rewrite Forall_forall in Hs. specialize (Hs n Hin). lia. }
    rewrite Hn. cbn. rewrite app_nil_r. split_and!; [done|done| |done]. symmetry. apply map_filter_id. intros n x Hx. cbn. intros Hlt.
    apply (not_elem_of_nil n). rewrite <- Hn. apply list_elem_of_filter. split; [done|]. apply elem_of_nonces. by exists x.
Qed.

#[export] Instance by_nonce_total : Total by_nonce.
Proof. intros a b. unfold by_nonce. lia. Qed.
#[export] Instance by_nonce_trans : Transitive by_nonce.
Proof. intros a b c. unfold by_nonce. lia. Qed.

Lemma sorted_nonces l : StronglySorted by_nonce l → StronglySorted Z.le (Nonce <$> l).
Proof. induction 1 as [|tx l _ IH Hf]; [constructor|]. constructor; [done|]. by apply Forall_fmap. Qed.

(** ** The operations *)

Lemma sorted_split (ns : list Z) t : StronglySorted Z.le ns → ns = base.filter (λ n, n < t) ns ++ base.filter (λ n, ¬ n < t) ns.
Proof.
  induction 1 as [|n ns Hs IH Hf]; [done|]. rewrite !filter_cons. destruct (decide (n < t)) as [Hn|Hn].
  - rewrite (decide_False (P := ¬ n < t)) by lia. cbn. by f_equal.
  - rewrite decide_True by done. assert (E : base.filter (λ n, n < t) ns = []).
    { destruct (base.filter _ ns) as [|x xs] eqn:Ef; [done|exfalso]. assert (Hin : x ∈ x :: xs) by (by left). rewrite <- Ef in Hin.
      apply list_elem_of_filter in Hin as [Hx Hin]. rewrite Forall_forall in Hf. specialize (Hf x Hin). lia. }
    rewrite E in IH |- *. cbn in *. by f_equal.
Qed.

Lemma filter_lookup (m : gmap Z Transaction) (P : Z → Prop) `{∀ n, Decision (P n)} n tx :
  base.filter (λ p : Z * Transaction, P p.1) m !! n = Some tx ↔ m !! n = Some tx ∧ P n.
Proof. by rewrite map_lookup_filter_Some. Qed.

Definition spec_Forward (t : Z) (m : gmap Z Transaction) : list Transaction * gmap Z Transaction :=
  (txs_at m (base.filter (λ n, n < t) (nonces m)), base.filter (λ p : Z * Transaction, ¬ p.1 < t) m).

Lemma sorted_forward t m : sorted_txs m = (spec_Forward t m).1 ++ sorted_txs (spec_Forward t m).2.
Proof.
  unfold sorted_txs, spec_Forward. cbn [fst snd]. rewrite (sorted_split (nonces m) t (nonces_sorted m)) at 1. rewrite txs_at_app. f_equal.
  pose proof (filter_lookup m (λ n, ¬ n < t)) as Hf. rewrite (nonces_filter m _ _ Hf). symmetry. exact (txs_at_filter m _ _ _ Hf).
Qed.

Lemma tm_Forward_ok t m : tm_ok m →
  ∃ m', tm_Forward t m = Ret ((spec_Forward t (tm_items m)).1, m') ∧ tm_ok m' ∧ tm_items m' = (spec_Forward t (tm_items m)).2.
Proof.
  intros K. destruct (forward_loop_runs t (length (tm_index m)) [] m (tm_core m K) ltac:(done)) as (m1 & E & K1 & Ei & Ec).
  pose proof (sorted_forward t (tm_items m)) as S. change (tm_items m1 = (spec_Forward t (tm_items m)).2) in Ei.
  change (txs_at (tm_items m) _) with ((spec_Forward t (tm_items m)).1) in E. set (removed := (spec_Forward t (tm_items m)).1) in *.
  unfold tm_Forward. erewrite GM_bind_run by reflexivity. erewrite GM_bind_run by exact E. cbn [app]. destruct K1 as [I1 P1 H1].
  destruct (tm_cache m) as [c|] eqn:Hc.
  - exists (m1 <| tm_cache := Some (sorted_txs (tm_items m1)) |>). erewrite GM_bind_run.
    2: { unfold shift_front. erewrite GM_bind_run by reflexivity. rewrite Ec, (to_cache _ K c Hc), S, <- Ei.
         rewrite (proj2 (Nat.ltb_ge _ _)) by (rewrite length_app; lia). by rewrite drop_app_length. }
    split_and!; [done| |done]. constructor; cbn; [done..|]. by intros c' [= <-].
  - exists m1. erewrite GM_bind_run by (unfold shift_front; erewrite GM_bind_run by reflexivity; rewrite Ec; reflexivity).
    split_and!; [done| |done]. constructor; [done..|]. congruence.
Qed.

Section RangeOps.
Variable range : gmap Z Transaction → list (Z * Transaction).
Hypothesis range_all : ∀ m, range m ≡ₚ map_to_list m.

Definition spec_Filter (f : Transaction → bool) (m : gmap Z Transaction) : list Transaction * gmap Z Transaction :=
  (List.filter f (range m).*2, base.filter (λ p : Z * Transaction, f p.2 = false) m).

Lemma tm_Filter_ok f m : tm_ok m →
  ∃ m', tm_Filter range f m = Ret ((spec_Filter f (tm_items m)).1, m') ∧ tm_ok m' ∧ tm_items m' = (spec_Filter f (tm_items m)).2.
Proof using range_all.
  intros K. unfold tm_Filter. erewrite GM_bind_run by reflexivity. erewrite GM_bind_run by reflexivity. cbn [spec_Filter fst snd].
  set (removed := List.filter f (range (tm_items m)).*2). destruct (Nat.ltb_spec 0 (length removed)) as [Hl|Hl].
  - erewrite GM_bind_run by reflexivity. eexists. split_and!; [reflexivity| |done]. cbn.
    destruct (heap_Init_ok (λ n : Z, n) (range (base.filter (λ p : Z * Transaction, f p.2 = false) (tm_items m))).*1) as [P H].
    constructor; cbn; [eapply items_ok_sub; [apply K|apply map_filter_subseteq]|by rewrite P, range_all|done|done].
  - erewrite GM_bind_run by reflexivity. assert (E : base.filter (λ p : Z * Transaction, f p.2 = false) (tm_items m) = tm_items m).
    { apply map_filter_id. intros n tx Ht. cbn. destruct (f tx) eqn:Ef; [exfalso|done].
      assert (Hin : tx ∈ removed); [|destruct removed; [by apply not_elem_of_nil in Hin|cbn in Hl; lia]].
      apply list_elem_of_In, filter_In. split; [|done]. apply list_elem_of_In, list_elem_of_fmap. exists (n, tx). split; [done|].
      rewrite range_all. by apply elem_of_map_to_list. }
    eexists. split_and!; [reflexivity| |done]. cbn. rewrite E. by destruct m, K.
Qed.

End RangeOps.

Lemma merge_index m : tm_ok m → merge_sort Z.le (tm_index m) = nonces (tm_items m).
Proof. intros K. apply nonces_unique; [by rewrite merge_sort_Permutation, (to_index _ K)|apply (StronglySorted_merge_sort Z.le)]. Qed.

(** [Cap] keeps the lowest nonces. *)
Definition kept (T : nat) (m : gmap Z Transaction) : gmap Z Transaction := base.filter (λ p : Z * Transaction, p.1 ∈ take T (nonces m)) m.
Definition spec_Cap (t : Z) (m : gmap Z Transaction) : list Transaction * gmap Z Transaction :=
  if Z.of_nat (base.size m) <=? t then ([], m)
  else (reverse (txs_at m (drop (Z.to_nat t) (nonces m))), kept (Z.to_nat t) m).

Lemma kept_lookup T m n tx : kept T m !! n = Some tx ↔ m !! n = Some tx ∧ n ∈ take T (nonces m).
Proof. unfold kept. by rewrite map_lookup_filter_Some. Qed.

Lemma kept_nonces T m : take T (nonces m) = nonces (kept T m).
Proof.
  apply nonces_ext; [eapply sublist_NoDup; [apply nonces_NoDup|apply sublist_take]|eapply StronglySorted_sublist; [apply sublist_take|apply nonces_sorted]|].
  intros n. split; [intros Hn|by intros [tx [_ ?]%kept_lookup]]. assert (is_Some (m !! n)) as [tx Htx]; [|exists tx; by apply kept_lookup].
  apply elem_of_nonces. eapply sublist_subseteq; [apply sublist_take|exact Hn].
Qed.

Lemma kept_all T m : (base.size m ≤ T)%nat → kept T m = m.
Proof.
  intros H. apply map_filter_id. intros n tx Hn. cbn. rewrite take_ge by (by rewrite length_nonces). apply elem_of_nonces. by exists tx.
Qed.

Lemma kept_sorted T m : sorted_txs m = sorted_txs (kept T m) ++ txs_at m (drop T (nonces m)).
Proof.
  unfold sorted_txs. rewrite <- (take_drop T (nonces m)) at 1. rewrite txs_at_app, <- kept_nonces. f_equal. unfold txs_at.
  assert (G : ∀ l, l ⊆ take T (nonces m) → omap (m !!.) l = omap (kept T m !!.) l); [|by apply G].
  induction l as [|n l IH]; intros Hsub; [done|]. cbn. rewrite IH by (intros x Hx; apply Hsub; by right). assert (n ∈ take T (nonces m)) as Hn by (apply Hsub; by left).
  assert (kept T m !! n = m !! n) as ->; [|done]. destruct (m !! n) as [tx|] eqn:En; [by apply kept_lookup|].
  destruct (kept T m !! n) as [tx|] eqn:En2; [|done]. apply kept_lookup in En2 as [En2 _]. congruence.
Qed.

Lemma txs_at_cons m n ns : txs_at m (n :: ns) = match m !! n with Some tx => tx :: txs_at m ns | None => txs_at m ns end.
Proof. done. Qed.

Lemma txs_at_reverse m ns : txs_at m (reverse ns) = reverse (txs_at m ns).
Proof.
  induction ns as [|n ns IH]; [done|]. rewrite reverse_cons, txs_at_app, IH, !txs_at_cons.
  destruct (m !! n); [by rewrite reverse_cons|apply app_nil_r].
Qed.

Lemma cap_loop_runs (m0 : gmap Z Transaction) t s : ∀ drops m, 0 ≤ t → (s ≤ length (nonces m0))%nat → (t ≤ Z.of_nat s) →
  tm_items m = kept s m0 →
  ∃ m', cap_loop s t (nonces m0) drops m = Ret (drops ++ txs_at m0 (reverse (drop (Z.to_nat t) (take s (nonces m0)))), m') ∧
    tm_items m' = kept (Z.to_nat t) m0 ∧ tm_cache m' = tm_cache m.
Proof.
  induction s as [|s IH]; intros drops m Ht Hs Hts Ei; cbn [cap_loop].
  { rewrite (proj2 (Z.leb_le _ _)) by lia. exists m. assert (t = 0) as -> by lia. cbn. rewrite app_nil_r. by split_and!. }
  destruct (Z.leb_spec (Z.of_nat (S s)) t) as [Hle|Hgt].
  { exists m. assert (Z.to_nat t = S s) as E by lia. rewrite E, drop_ge by (rewrite length_take; lia). cbn. rewrite app_nil_r. by split_and!. }
  destruct (lookup_lt_is_Some_2 (nonces m0) s) as [n Hn]; [lia|]. rewrite Hn.
  assert (Hin : is_Some (m0 !! n)) by (apply elem_of_nonces; by eapply list_elem_of_lookup_2). destruct Hin as [tx Htx].
  assert (Hts2 : take (S s) (nonces m0) = take s (nonces m0) ++ [n]) by (by apply take_S_r).
  assert (Hmtx : tm_items m !! n = Some tx) by (rewrite Ei; apply kept_lookup; rewrite Hts2; set_solver).
  unfold take_item. erewrite GM_bind_run; [|erewrite GM_bind_run by reflexivity; rewrite Hmtx; reflexivity].
  destruct (IH (drops ++ [tx]) (m <| tm_items ::= delete n |>) Ht) as (m' & E & E1 & E2); [lia|lia| |].
  - cbn. rewrite Ei. apply map_eq. intros k. apply option_eq. intros x. rewrite lookup_delete_Some, !kept_lookup, Hts2, elem_of_app, list_elem_of_singleton.
    split; [intros (H1 & H2 & [H3|H3]); [done|congruence]|]. intros [H1 H2]. split_and!; [|done|by left]. intros ->.
    assert (Nd : NoDup (take (S s) (nonces m0))) by (eapply sublist_NoDup; [apply nonces_NoDup|apply sublist_take]).
    rewrite Hts2 in Nd. apply NoDup_app in Nd as (_ & Nd & _). apply (Nd k H2). by left.
  - exists m'. rewrite E. split_and!; [|done|done]. rewrite Hts2, drop_app_le by (rewrite length_take; lia). rewrite reverse_app, reverse_singleton, txs_at_app, txs_at_cons, Htx. by rewrite <- app_assoc.
Qed.

Lemma tm_Cap_ok t m : tm_ok m → 0 ≤ t →
  ∃ m', tm_Cap t m = Ret ((spec_Cap t (tm_items m)).1, m') ∧ tm_ok m' ∧ tm_items m' = (spec_Cap t (tm_items m)).2.
Proof.
  intros K Ht. unfold tm_Cap, spec_Cap. erewrite GM_bind_run by reflexivity. destruct (Z.leb_spec (Z.of_nat (base.size (tm_items m))) t) as [Hle|Hgt].
  { exists m. by split_and!. }
  rewrite (merge_index m K). pose proof (length_nonces (tm_items m)) as Hl. set (T := Z.to_nat t).
  destruct (cap_loop_runs (tm_items m) t (base.size (tm_items m)) [] m Ht) as (m1 & E & Ei & Ec); [lia|lia|by rewrite kept_all|].
  erewrite GM_bind_run by exact E. erewrite GM_bind_run by reflexivity. rewrite take_ge, txs_at_reverse by lia. cbn [app]. fold T in Ei |- *.
  set (m2 := m1 <| tm_index := _ |>). pose proof (kept_sorted T (tm_items m)) as Hsort. pose proof (kept_nonces T (tm_items m)) as Hns.
  destruct (heap_Init_ok (λ n : Z, n) (take T (nonces (tm_items m)))) as [P H].
  assert (C2 : core_ok m2).
  { constructor; cbn; [eapply items_ok_sub; [apply K|rewrite Ei; apply map_filter_subseteq]| |done]. by rewrite P, Hns, Ei, nonces_perm. }
  destruct C2 as [C1 C2 C3]. rewrite length_reverse. set (dropped := txs_at _ (drop T _)) in *. destruct (tm_cache m) as [c|] eqn:Hc.
  - exists (m2 <| tm_cache := Some (sorted_txs (kept T (tm_items m))) |>). erewrite GM_bind_run.
    2: { unfold shift_back. erewrite GM_bind_run by reflexivity. change (tm_cache m2) with (tm_cache m1). rewrite Ec, (to_cache _ K c Hc), Hsort.
         rewrite (proj2 (Nat.ltb_ge _ _)) by (rewrite length_app; lia). rewrite length_app, Nat.add_sub, take_app_length. done. }
    split_and!; [done| |done]. constructor; cbn; [done..|]. intros c' [= <-]. by rewrite Ei.
  - exists m2. erewrite GM_bind_run by (unfold shift_back; erewrite GM_bind_run by reflexivity; change (tm_cache m2) with (tm_cache m1); rewrite Ec; reflexivity).
    split_and!; [done| |done]. constructor; [done..|]. unfold m2. cbn. congruence.
Qed.

Lemma tm_Put_ok tx m : tm_ok m → is_u64 (Nonce tx) →
  ∃ m', tm_Put tx m = Ret (tt, m') ∧ tm_ok m' ∧ tm_items m' = <[Nonce tx := tx]> (tm_items m).
Proof.
  intros K Hn. eexists. split; [reflexivity|]. cbv zeta.
  assert (I : items_ok (<[Nonce tx := tx]> (tm_items m))).
  { intros n x. rewrite lookup_insert. case_decide as E; [|apply K]. intros [= <-]. by subst n. }
  destruct (tm_items m !! Nonce tx) as [old|] eqn:E.
  - split; [|done]. constructor; cbn; [done| |apply K|done].
    rewrite (to_index _ K), (keys_delete _ _ _ E), (keys_delete _ _ tx (lookup_insert_eq _ _ _)). by rewrite delete_insert_eq.
  - split; [|done]. destruct (heap_Push_ok (λ n : Z, n) (Nonce tx) (tm_index m) (to_heap _ K)) as [P H]. constructor; cbn; [done| |done|done].
    rewrite P, (to_index _ K), (keys_delete _ _ tx (lookup_insert_eq _ _ _)). by rewrite delete_insert_id.
Qed.

Lemma nonce_position_spec nonce index : nonce ∈ index → ∃ i, nonce_position nonce index = Some i ∧ index !! i = Some nonce.
Proof.
  induction index as [|n index IH]; [by intros ?%not_elem_of_nil|]. intros Hin. cbn. destruct (Z.eqb_spec n nonce) as [->|Hne]; [by exists 0%nat|].
  apply elem_of_cons in Hin as [?|Hin]; [congruence|]. destruct (IH Hin) as (i & -> & Hi). by exists (S i).
Qed.

Definition spec_Remove (nonce : Z) (m : gmap Z Transaction) : bool * gmap Z Transaction := (bool_decide (is_Some (m !! nonce)), delete nonce m).

Lemma tm_Remove_ok nonce m : tm_ok m →
  ∃ m', tm_Remove nonce m = Ret ((spec_Remove nonce (tm_items m)).1, m') ∧ tm_ok m' ∧ tm_items m' = (spec_Remove nonce (tm_items m)).2.
Proof.
  intros K. unfold tm_Remove, spec_Remove. erewrite GM_bind_run by reflexivity. cbn [fst snd]. destruct (tm_items m !! nonce) as [tx|] eqn:E.
  - assert (Hin : nonce ∈ tm_index m) by (apply (elem_of_index m nonce (tm_core m K)); by exists tx).
    destruct (nonce_position_spec nonce (tm_index m) Hin) as (i & -> & Hi).
    destruct (heap_Remove_ok _ i nonce (tm_index m) (to_heap _ K) Hi) as (index & -> & P & H).
    erewrite GM_bind_run by reflexivity. rewrite bool_decide_eq_true_2 by (by exists tx). eexists. split_and!; [reflexivity| |done].
    constructor; cbn; [eapply items_ok_sub; [apply K|apply delete_subseteq]| |done|done].
    apply (Permutation_cons_inv (a := nonce)). rewrite <- P, (to_index _ K). by eapply keys_delete.
  - exists m. rewrite bool_decide_eq_false_2 by (by intros [? ?]). rewrite delete_id by done. by split_and!.
Qed.

(** [Ready] takes the nonces that follow on one another, from the lowest on. *)
Fixpoint consecutive (next : Z) (ns : list Z) : list Z :=
  match ns with
  | [] => []
  | n :: ns => if n =? next then n :: consecutive (next + 1) ns else []
  end.
Definition ready_nonces (start : Z) (m : gmap Z Transaction) : list Z :=
  match nonces m with [] => [] | lowest :: _ => if lowest >? start then [] else consecutive lowest (nonces m) end.
Definition spec_Ready (start : Z) (m : gmap Z Transaction) : list Transaction * gmap Z Transaction :=
  (txs_at m (ready_nonces start m), base.filter (λ p : Z * Transaction, p.1 ∉ ready_nonces start m) m).

Lemma consecutive_sub next ns : consecutive next ns ⊆ ns.
Proof.
  revert next. induction ns as [|n ns IH]; intros next; cbn; [done|]. destruct (n =? next); [|apply list_subseteq_nil]. intros x [->|Hx]%elem_of_cons; [by left|right; by apply (IH (next + 1))].
Qed.

Lemma ready_loop_runs fuel : ∀ next ready m, core_ok m → (length (tm_index m) ≤ fuel)%nat → (∀ n, n ∈ nonces (tm_items m) → next ≤ n) → 0 ≤ next →
  ∃ m', ready_loop fuel (u64 next) ready m = Ret (ready ++ txs_at (tm_items m) (consecutive next (nonces (tm_items m))), m') ∧ core_ok m' ∧
    tm_items m' = base.filter (λ p : Z * Transaction, p.1 ∉ consecutive next (nonces (tm_items m))) (tm_items m) ∧ tm_cache m' = tm_cache m.
Proof.
  induction fuel as [|fuel IH]; intros next ready m K Hf Hle H0.
  { destruct (tm_index m) as [|] eqn:E; [|cbn in Hf; lia]. destruct (empty_index m K E) as [Em En]. exists m. cbn. rewrite En. cbn. rewrite app_nil_r.
    split_and!; [done|done|by rewrite Em, map_filter_empty|done]. }
  cbn [ready_loop]. erewrite GM_bind_run by reflexivity. destruct (tm_index m) as [|lowest rest] eqn:E.
  { destruct (empty_index m K E) as [Em En]. exists m. rewrite En. cbn. rewrite app_nil_r. split_and!; [done|done|by rewrite Em, map_filter_empty|done]. }
  rewrite <- E. destruct (lowest_first m lowest rest K E) as (tx & index & Ht & Ep & K' & En). rewrite Ep, En in *. cbn [consecutive].
  assert (Hu : is_u64 lowest) by (by apply (ko_items _ K lowest tx)). assert (next ≤ lowest) by (apply Hle; by left).
  rewrite (u64_small next) by (destruct Hu; split; lia). destruct (Z.eqb_spec lowest next) as [<-|Hne].
  - unfold take_item. erewrite GM_bind_run; [|erewrite GM_bind_run by reflexivity; rewrite Ht; reflexivity]. erewrite GM_bind_run by reflexivity.
    destruct (IH (lowest + 1) (ready ++ [tx]) _ K') as (m' & Er & K2 & Ei & Ec).
    { cbn. assert (length index = length rest); [|cbn in Hf; lia].
      destruct (heap_Pop_ok _ lowest (tm_index m) (ko_heap _ K)) as (index' & Ep' & P & _); [by rewrite E|]. rewrite Ep in Ep'. injection Ep' as <-.
      apply Permutation_length in P. rewrite E in P. cbn in P. lia. }
    { cbn. intros n Hn. assert (lowest ≤ n) by (apply Hle; by right). assert (n ≠ lowest); [|lia]. intros ->. by apply (nonces_head_notin _ _ En). }
    { lia. }
    exists m'. split_and!; [|done| |done].
    + refine (eq_trans _ (eq_trans Er _)); [reflexivity|]. cbn [tm_items upd]. rewrite (txs_at_delete _ _ tx), <- app_assoc; [done|done|]. intros Hin%consecutive_sub. by apply (nonces_head_notin _ _ En).
    + rewrite Ei. cbn. apply map_eq. intros k. apply option_eq. intros x. rewrite !map_lookup_filter_Some, lookup_delete_Some. cbn. rewrite not_elem_of_cons.
      split; [intros [[? ?] ?]; split_and!; congruence || done|intros (? & ? & ?); split_and!; congruence || done].
  - exists m. rewrite app_nil_r. split_and!; [done|done| |done]. symmetry. apply map_filter_id. intros n x _. apply not_elem_of_nil.
Qed.

Lemma tm_Ready_ok start m : tm_ok m →
  ∃ m', tm_Ready start m = Ret ((spec_Ready start (tm_items m)).1, m') ∧ tm_ok m' ∧ tm_items m' = (spec_Ready start (tm_items m)).2.
Proof.
  intros K. unfold tm_Ready, spec_Ready. erewrite GM_bind_run by reflexivity. cbn [fst snd].
  assert (N : ∀ m : txSortedMap, tm_ok m → ∃ m', (mret [] : TM _) m = Ret (txs_at (tm_items m) [], m') ∧ tm_ok m' ∧ tm_items m' = base.filter (λ p : Z * Transaction, p.1 ∉ []) (tm_items m)).
  { intros m0 K0. exists m0. split_and!; [done|done|]. symmetry. apply map_filter_id. intros n x _. apply not_elem_of_nil. }
  destruct (tm_index m) as [|lowest rest] eqn:E; [unfold ready_nonces; destruct (empty_index m (tm_core m K) E) as [_ ->]; by apply N|].
  destruct (lowest_first m lowest rest (tm_core m K) E) as (tx & index & Ht & Ep & K' & En).
  assert (Hr : ready_nonces start (tm_items m) = if lowest >? start then [] else consecutive lowest (nonces (tm_items m))) by (unfold ready_nonces; by rewrite !En).
  rewrite Hr. clear Hr.
  destruct (lowest >? start); [by apply N|]. destruct (to_items _ K lowest tx Ht) as [_ Hu].
  destruct (ready_loop_runs (length (tm_index m)) lowest [] m (tm_core m K) ltac:(done)) as (m1 & Er & [I1 P1 H1] & Ei & Ec); [|apply Hu|].
  { intros n Hn. pose proof (nonces_sorted (tm_items m)) as Hs. rewrite En in Hn, Hs. apply StronglySorted_inv in Hs as [_ Hs]. rewrite Forall_forall in Hs.
    apply elem_of_cons in Hn as [->|Hn]; [done|by apply Hs]. }
  rewrite (u64_small lowest) in Er by done. rewrite <- E. erewrite GM_bind_run by exact Er. erewrite GM_bind_run by reflexivity.
  eexists. split_and!; [reflexivity| |done]. by constructor.
Qed.

Lemma tm_Flatten_ok (range : gmap Z Transaction → list (Z * Transaction)) m : (∀ m, range m ≡ₚ map_to_list m) → tm_ok m →
  ∃ m', tm_Flatten range m = Ret (sorted_txs (tm_items m), m') ∧ tm_ok m' ∧ tm_items m' = tm_items m.
Proof.
  intros range_all K. unfold tm_Flatten. erewrite GM_bind_run by reflexivity. destruct (tm_cache m) as [c|] eqn:Hc.
  { exists m. rewrite (to_cache _ K c Hc). by split_and!. }
  set (l := merge_sort by_nonce _). assert (P : l ≡ₚ (map_to_list (tm_items m)).*2) by (unfold l; by rewrite merge_sort_Permutation, range_all).
  assert (Hat : ∀ tx, tx ∈ l → tm_items m !! Nonce tx = Some tx).
  { intros tx. rewrite P, list_elem_of_fmap. intros ((n & x) & -> & Hx%elem_of_map_to_list). cbn. by destruct (to_items _ K n x Hx) as [-> _]. }
  assert (Hns : Nonce <$> l = nonces (tm_items m)).
  { apply nonces_unique.
    - rewrite P, <- list_fmap_compose. rewrite (list_fmap_ext _ fst); [done|]. intros i [n x] Hx%list_elem_of_lookup_2%elem_of_map_to_list.
      by destruct (to_items _ K n x Hx).
    - apply sorted_nonces, (StronglySorted_merge_sort by_nonce). }
  assert (E : l = sorted_txs (tm_items m)).
  { unfold sorted_txs. rewrite <- Hns. clear Hns P. induction l as [|tx l IH]; [done|]. rewrite fmap_cons, txs_at_cons, (Hat tx) by (by left). f_equal.
    apply IH. intros x Hx. apply Hat. by right. }
  rewrite E. erewrite GM_bind_run by reflexivity. eexists. split_and!; [reflexivity| |done]. destruct K. constructor; cbn; [done..|]. by intros c [= <-].
Qed.

(** ** Sequences of operations *)

Inductive tm_op : Type :=
| opPut (tx : Transaction)
| opForward (threshold : Z)
| opFilter (f : Transaction → bool)
| opCap (threshold : Z)
| opRemove (nonce : Z)
| opReady (start : Z)
| opFlatten.

Inductive tm_answer : Type := aDone | aFound (found : bool) | aTxs (txs : list Transaction).

Definition op_ok (o : tm_op) : Prop :=
  match o with opPut tx => is_u64 (Nonce tx) | opCap t => 0 ≤ t | _ => True end.

Section Sequences.
Variable range : gmap Z Transaction → list (Z * Transaction).

Definition tm_exec (o : tm_op) : TM tm_answer :=
  match o with
  | opPut tx => tm_Put tx;; mret aDone
  | opForward t => r ← tm_Forward t; mret (aTxs r)
  | opFilter f => r ← tm_Filter range f; mret (aTxs r)
  | opCap t => r ← tm_Cap t; mret (aTxs r)
  | opRemove n => r ← tm_Remove n; mret (aFound r)
  | opReady s => r ← tm_Ready s; mret (aTxs r)
  | opFlatten => r ← tm_Flatten range; mret (aTxs r)
  end.

(** The same on a map from nonces to transactions. *)
Definition map_exec (o : tm_op) (m : gmap Z Transaction) : tm_answer * gmap Z Transaction :=
  match o with
  | opPut tx => (aDone, <[Nonce tx := tx]> m)
  | opForward t => let '(r, m') := spec_Forward t m in (aTxs r, m')
  | opFilter f => let '(r, m') := spec_Filter range f m in (aTxs r, m')
  | opCap t => let '(r, m') := spec_Cap t m in (aTxs r, m')
  | opRemove n => let '(r, m') := spec_Remove n m in (aFound r, m')
  | opReady s => let '(r, m') := spec_Ready s m in (aTxs r, m')
  | opFlatten => (aTxs (sorted_txs m), m)
  end.

Fixpoint tm_run (os : list tm_op) : TM (list tm_answer) :=
  match os with
  | [] => mret []
  | o :: os => a ← tm_exec o; l ← tm_run os; mret (a :: l)
  end.
Fixpoint map_run (os : list tm_op) (m : gmap Z Transaction) : list tm_answer * gmap Z Transaction :=
  match os with
  | [] => ([], m)
  | o :: os => let '(a, m) := map_exec o m in let '(l, m) := map_run os m in (a :: l, m)
  end.

Hypothesis range_all : ∀ m, range m ≡ₚ map_to_list m.

Lemma tm_exec_refines o m : tm_ok m → op_ok o →
  ∃ m', tm_exec o m = Ret ((map_exec o (tm_items m)).1, m') ∧ tm_ok m' ∧ tm_items m' = (map_exec o (tm_items m)).2.
Proof using range_all.
  intros K Ho. destruct o; cbn [tm_exec map_exec op_ok] in *;
    [destruct (tm_Put_ok tx m K Ho) as (m' & E & K' & Ei)|destruct (tm_Forward_ok threshold m K) as (m' & E & K' & Ei)
    |destruct (tm_Filter_ok range range_all f m K) as (m' & E & K' & Ei)|destruct (tm_Cap_ok threshold m K Ho) as (m' & E & K' & Ei)
    |destruct (tm_Remove_ok nonce m K) as (m' & E & K' & Ei)|destruct (tm_Ready_ok start m K) as (m' & E & K' & Ei)
    |destruct (tm_Flatten_ok range m range_all K) as (m' & E & K' & Ei)];
    exists m'; (erewrite GM_bind_run by exact E); try (destruct (_ : list Transaction * gmap Z Transaction)); by split_and!.
Qed.

Lemma tm_run_refines os m : tm_ok m → Forall op_ok os →
  ∃ m', tm_run os m = Ret ((map_run os (tm_items m)).1, m') ∧ tm_ok m' ∧ tm_items m' = (map_run os (tm_items m)).2.
Proof using range_all.
  intros K H. revert m K. induction H as [|o os Ho _ IH]; intros m K; [by exists m|]. cbn [tm_run map_run].
  destruct (tm_exec_refines o m K Ho) as (m1 & E1 & K1 & Ei1). destruct (IH m1 K1) as (m2 & E2 & K2 & Ei2). exists m2.
  erewrite GM_bind_run by exact E1. erewrite GM_bind_run by exact E2. rewrite Ei1 in *.
  destruct (map_exec o (tm_items m)) as [a mm]. cbn [fst snd] in *. destruct (map_run os mm) as [l m3]. by split_and!.
Qed.
End Sequences.

Lemma newTxSortedMap_ok : tm_ok newTxSortedMap.
Proof. constructor; [by intros n tx|done|intros j [? ?]; cbn in *; lia|done]. Qed.

(** C29: the transactions of an account are a sorted map.  Whatever sequence of
    insertions, forwardings, filterings, cappings (to a number that is not negative),
    removals, ready runs and listings is carried out on the heap-indexed map with its cached order, none of them panics
    and every answer is that of a plain map from nonces to transactions: forwarding
    takes the nonces below the threshold in order, capping drops the highest ones from
    the top, the ready transactions are the run of consecutive nonces that starts at
    the lowest if that is not above the start - not all below the start, as the comment
    on [Ready] has it - and a listing has all transactions in the order of their nonces,
    cached or not. *)
Theorem tx_map_refines (range : gmap Z Transaction → list (Z * Transaction)) (os : list tm_op) :
  (∀ m, range m ≡ₚ map_to_list m) → Forall op_ok os →
  ∃ m, tm_run range os newTxSortedMap = Ret ((map_run range os ∅).1, m) ∧ tm_ok m ∧ tm_items m = (map_run range os ∅).2.
Proof. intros Hr Ho. exact (tm_run_refines range Hr os newTxSortedMap newTxSortedMap_ok Ho). Qed.

(** ** Lists with caps *)

(** No transaction costs more, or may use more gas, than the list remembers. *)
Record tl_ok (l : txList) : Prop := mkTlOk {
  lo_txs : tm_ok (tl_txs l);
  lo_caps n tx : tm_items (tl_txs l) !! n = Some tx → AoaCost tx ≤ tl_costcap l ∧ Gas tx ≤ tl_gascap l
}.

(** Below every nonce but the lowest there is the one before. *)
Definition gapless (m : gmap Z Transaction) : Prop :=
  ∀ n n', is_Some (m !! n) → is_Some (m !! n') → n ≤ n' → ∀ k, n ≤ k ≤ n' → is_Some (m !! k).

Lemma gapless_below m t : gapless m → gapless (base.filter (λ p : Z * Transaction, p.1 < t) m).
Proof.
  intros G n n' [tx [Hn Hl]%map_lookup_filter_Some] [tx' [Hn' Hl']%map_lookup_filter_Some] Hle k Hk.
  destruct (G n n' ltac:(by exists tx) ltac:(by exists tx') Hle k Hk) as [x Hx]. exists x. apply map_lookup_filter_Some. split; [done|]. cbn in *. lia.
Qed.

Lemma on_txs_run {A} (m : GM txSortedMap A) l a t : m (tl_txs l) = Ret (a, t) → on_txs m l = Ret (a, l <| tl_txs := t |>).
Proof. intros E. unfold on_txs. by rewrite E. Qed.

Lemma lowest_nonce_spec removed : Forall (λ tx, Nonce tx ≤ MaxUint64) removed → removed ≠ [] →
  (∃ tx, tx ∈ removed ∧ lowest_nonce removed = Nonce tx) ∧ ∀ tx, tx ∈ removed → lowest_nonce removed ≤ Nonce tx.
Proof.
  intros H Hne. unfold lowest_nonce.
  assert (G : ∀ l b, b ≤ MaxUint64 → let r := foldl (λ lowest tx, if lowest >? Nonce tx then Nonce tx else lowest) b l in
    (r = b ∨ ∃ tx, tx ∈ l ∧ r = Nonce tx) ∧ r ≤ b ∧ ∀ tx, tx ∈ l → r ≤ Nonce tx).
  { induction l as [|tx l IH]; intros b Hb; cbn; [split_and!; [by left|done|by intros ? ?%not_elem_of_nil]|].
    destruct (Z.gtb_spec b (Nonce tx)) as [Hgt|Hle].
    - destruct (IH (Nonce tx) ltac:(lia)) as ([E|(x & Hx & E)] & H1 & H2); (split_and!; [right|lia|intros y [->|Hy]%elem_of_cons; [done|by apply H2]]).
      + exists tx. split; [by left|done].
      + exists x. split; [by right|done].
    - destruct (IH b Hb) as ([E|(x & Hx & E)] & H1 & H2); (split_and!; [|lia|intros y [->|Hy]%elem_of_cons; [lia|by apply H2]]).
      + by left.
      + right. exists x. split; [by right|done]. }
  destruct (G removed MaxUint64 ltac:(done)) as ([E|E] & H1 & H2); [|by split]. destruct removed as [|tx removed]; [done|].
  apply Forall_cons in H as [Htx _]. split; [|done]. exists tx. split; [by left|]. specialize (H2 tx (list_elem_of_here _ _)). lia.
Qed.

Section Lists.
Variable range : gmap Z Transaction → list (Z * Transaction).
Hypothesis range_all : ∀ m, range m ≡ₚ map_to_list m.

Lemma elem_spec_Filter f m tx : tx ∈ (spec_Filter range f m).1 ↔ f tx = true ∧ ∃ n, m !! n = Some tx.
Proof using range_all.
  unfold spec_Filter. cbn [fst]. rewrite list_elem_of_In, filter_In, <- list_elem_of_In, list_elem_of_fmap. setoid_rewrite range_all.
  split; [intros [((n & x) & -> & Hx%elem_of_map_to_list) Hf]; by split; [|exists n]|].
  intros [Hf [n Hn]]. split; [|done]. exists (n, tx). split; [done|]. by apply elem_of_map_to_list.
Qed.

Lemma tl_Add_ok tx bump l : tl_ok l → is_u64 (Nonce tx) → ∃ r l', tl_Add tx bump l = Ret (r, l') ∧ tl_ok l' ∧ tl_strict l' = tl_strict l ∧
  match r with
  | (false, _) => l' = l ∧ ∃ old, tm_items (tl_txs l) !! Nonce tx = Some old ∧ (GasPrice tx ≤ GasPrice old ∨ GasPrice tx < bump_threshold old bump)
  | (true, old) => old = tm_items (tl_txs l) !! Nonce tx ∧ tm_items (tl_txs l') = <[Nonce tx := tx]> (tm_items (tl_txs l)) ∧
      ∀ o, old = Some o → GasPrice o < GasPrice tx ∧ bump_threshold o bump ≤ GasPrice tx
  end.
Proof.
  intros [K C] Hn. unfold tl_Add, tm_Get. erewrite GM_bind_run by reflexivity. destruct (tm_Put_ok tx (tl_txs l) K Hn) as (m' & E & K' & Ei).
  destruct (match tm_items (tl_txs l) !! Nonce tx with Some _ => _ | None => _ end) eqn:B.
  - exists (false, None), l. split_and!; [done|done|done|done|]. destruct (tm_items (tl_txs l) !! Nonce tx) as [old|]; [|done]. exists old. split; [done|].
    apply orb_true_iff in B as [?%Z.leb_le|?%Z.ltb_lt]; [by left|by right].
  - erewrite GM_bind_run by (by apply on_txs_run). erewrite GM_bind_run by reflexivity. eexists (true, _), _. split; [reflexivity|]. split; [|split; [done|split_and!]].
    + constructor; cbn; [done|]. rewrite Ei. intros n x Hx. apply lookup_insert_Some in Hx as [[_ ->]|[_ Hx]].
      * destruct (Z.ltb_spec (tl_costcap l) (AoaCost x)), (Z.ltb_spec (tl_gascap l) (Gas x)); lia.
      * pose proof (C n x Hx). destruct (Z.ltb_spec (tl_costcap l) (AoaCost tx)), (Z.ltb_spec (tl_gascap l) (Gas tx)); lia.
    + done.
    + cbn. done.
    + intros o Ho. rewrite Ho in B. apply orb_false_iff in B as [?%Z.leb_gt ?%Z.ltb_ge]. lia.
Qed.

(** What [Filter] does with a list. *)
Record filtered (costLimit gasLimit : Z) (l : txList) (removed invalids : list Transaction) (l' : txList) : Prop := mkFiltered {
  fd_ok : tl_ok l';
  fd_strict : tl_strict l' = tl_strict l;
  fd_removed tx : tx ∈ removed ↔ (costLimit < AoaCost tx ∨ gasLimit < Gas tx) ∧ ∃ n, tm_items (tl_txs l) !! n = Some tx;
  fd_invalids tx : tx ∈ invalids ↔ tl_strict l = true ∧ (tx ∉ removed) ∧ (∃ n, tm_items (tl_txs l) !! n = Some tx) ∧ ∃ r, r ∈ removed ∧ Nonce r < Nonce tx;
  fd_left n tx : tm_items (tl_txs l') !! n = Some tx ↔ tm_items (tl_txs l) !! n = Some tx ∧ (tx ∉ removed) ∧ (tx ∉ invalids)
}.

Lemma Filter_left f m n tx : (spec_Filter range f m).2 !! n = Some tx ↔ m !! n = Some tx ∧ tx ∉ (spec_Filter range f m).1.
Proof using range_all.
  rewrite elem_spec_Filter. unfold spec_Filter. cbn [snd]. rewrite map_lookup_filter_Some. cbn [snd]. split; intros [H1 H2]; (split; [done|]).
  - intros [? _]. congruence.
  - destruct (f tx) eqn:E; [|done]. exfalso. apply H2. split; [done|]. by exists n.
Qed.

Lemma tl_Filter_ok costLimit gasLimit l : tl_ok l →
  ∃ removed invalids l', tl_Filter range costLimit gasLimit l = Ret ((removed, invalids), l') ∧ filtered costLimit gasLimit l removed invalids l'.
Proof using range_all.
  intros [K C]. unfold tl_Filter. erewrite GM_bind_run by reflexivity. destruct ((tl_costcap l <=? costLimit) && (tl_gascap l <=? gasLimit)) eqn:B.
  { apply andb_true_iff in B as [H1%Z.leb_le H2%Z.leb_le]. exists [], [], l. split; [done|]. constructor; [done|done|..].
    - intros tx. split; [by intros ?%not_elem_of_nil|]. intros [He [n Hn]]. specialize (C n tx Hn). lia.
    - intros tx. split; [by intros ?%not_elem_of_nil|]. by intros (_ & _ & _ & r & ?%not_elem_of_nil & _).
    - intros n tx. split; [|by intros [? _]]. intros ?. split_and!; [done|apply not_elem_of_nil..]. }
  clear B. set (over := λ tx : Transaction, (AoaCost tx >? costLimit) || (Gas tx >? gasLimit)). erewrite GM_bind_run by reflexivity.
  destruct (tm_Filter_ok range range_all over (tl_txs l) K) as (m1 & E1 & K1 & Ei1). erewrite GM_bind_run by (by apply on_txs_run).
  set (removed := (spec_Filter range over (tm_items (tl_txs l))).1) in *.
  assert (Hr : ∀ tx, tx ∈ removed ↔ (costLimit < AoaCost tx ∨ gasLimit < Gas tx) ∧ ∃ n, tm_items (tl_txs l) !! n = Some tx).
  { intros tx. unfold removed. rewrite elem_spec_Filter. unfold over. by rewrite orb_true_iff, !Z.gtb_lt. }
  assert (H1 : ∀ n tx, tm_items m1 !! n = Some tx ↔ tm_items (tl_txs l) !! n = Some tx ∧ tx ∉ removed) by (intros n tx; rewrite Ei1; apply Filter_left).
  assert (C1 : ∀ n tx, tm_items m1 !! n = Some tx → AoaCost tx ≤ costLimit ∧ Gas tx ≤ gasLimit).
  { intros n tx [Hn Hx]%H1. rewrite Hr in Hx. destruct (Z.lt_ge_cases costLimit (AoaCost tx)), (Z.lt_ge_cases gasLimit (Gas tx)); try lia;
      exfalso; apply Hx; (split; [lia|by exists n]). }
  clearbody removed. destruct (tl_strict l && (0 <? length removed)%nat) eqn:Bs.
  - apply andb_true_iff in Bs as [Hs Hl%Nat.ltb_lt]. set (low := lowest_nonce removed).
    destruct (tm_Filter_ok range range_all (λ tx, Nonce tx >? low) m1 K1) as (m2 & E2 & K2 & Ei2). erewrite GM_bind_run by (by apply on_txs_run).
    set (invalids := (spec_Filter range _ (tm_items m1)).1) in *. exists removed, invalids. eexists. split; [reflexivity|].
    assert (H2 : ∀ n tx, tm_items m2 !! n = Some tx ↔ tm_items m1 !! n = Some tx ∧ (tx ∉ invalids)) by (intros n tx; rewrite Ei2; apply Filter_left).
    destruct (lowest_nonce_spec removed) as [(r & Hin & El) Hlow].
    { apply Forall_forall. intros tx [_ [n Hn]]%Hr. destruct (to_items _ K n tx Hn) as [En [_ U]]. unfold MaxUint64. lia. }
    { intros ->. cbn in Hl. lia. }
    assert (Hi : ∀ tx, tx ∈ invalids ↔ low < Nonce tx ∧ ∃ n, tm_items m1 !! n = Some tx)
      by (intros tx; unfold invalids; by rewrite elem_spec_Filter, Z.gtb_lt).
    clearbody invalids. constructor; cbn; [constructor; cbn; [done|]|done|exact Hr|..].
    + intros n tx [Hn _]%H2. by eapply C1.
    + intros tx. rewrite Hi. setoid_rewrite H1. split.
      * intros [Hgt [n [Hn Hx]]]. split_and!; [done|done|by exists n|]. exists r. split; [done|]. fold low in El. lia.
      * intros (_ & Hx & [n Hn] & x & Hx2 & Hlt). specialize (Hlow x Hx2). fold low in Hlow. split; [lia|by exists n].
    + intros n tx. rewrite H2, H1. tauto.
  - exists removed, []. eexists. split; [reflexivity|]. constructor; cbn; [constructor; cbn; [done|exact C1]|done|exact Hr|..].
    + intros tx. split; [by intros ?%not_elem_of_nil|]. intros (Hs & _ & _ & r & Hin & _). rewrite Hs in Bs. destruct removed; [by apply not_elem_of_nil in Hin|done].
    + intros n tx. rewrite H1. pose proof (not_elem_of_nil tx). tauto.
Qed.

Lemma filtered_gapless costLimit gasLimit l removed invalids l' :
  filtered costLimit gasLimit l removed invalids l' → tm_ok (tl_txs l) → tl_strict l = true → gapless (tm_items (tl_txs l)) → gapless (tm_items (tl_txs l')).
Proof using Type.
  intros [_ _ Hr Hi Hl] K Hs G. assert (N : ∀ n tx, tm_items (tl_txs l) !! n = Some tx → Nonce tx = n) by (intros n tx Hn; by apply (to_items _ K)).
  intros n n' [tx Hn] [tx' Hn'] Hle k Hk. apply Hl in Hn as (Hn & _ & _). pose proof Hn' as Hn2. apply Hl in Hn2 as (Hn2 & Hx & Hv).
  destruct (G n n' ltac:(by exists tx) ltac:(by exists tx') Hle k Hk) as [x Hx2]. exists x. apply Hl. split; [done|].
  assert (Hnr : ∀ r, r ∈ removed → Nonce r < n' → False).
  { intros r Hr' Hlt. apply Hv. apply Hi. split_and!; [done|done|by exists n'|]. exists r. split; [done|]. by rewrite (N _ _ Hn2). }
  pose proof (N _ _ Hx2) as Nx. split.
  - intros Hin. destruct (decide (k = n')) as [->|]; [assert (x = tx') as -> by congruence; done|]. apply (Hnr x Hin). lia.
  - intros Hin. apply Hi in Hin as (_ & _ & _ & r & Hr' & Hlt). apply (Hnr r Hr'). lia.
Qed.
End Lists.

(** C30: a list of pending transactions keeps what the account can pay for, without
    gaps.  Filtering by the balance and the block's gas limit - which the remembered
    caps may skip - removes exactly the transactions that cost more or may use more
    gas; of a strict list it also takes out exactly those above a removed one, so a
    list without gaps has none afterwards; the rest stays, and the caps still bound
    it. *)
Theorem pending_filter_right (range : gmap Z Transaction → list (Z * Transaction)) (costLimit gasLimit : Z) (l : txList) :
  (∀ m, range m ≡ₚ map_to_list m) → tl_ok l →
  ∃ removed invalids l', tl_Filter range costLimit gasLimit l = Ret ((removed, invalids), l') ∧ tl_ok l' ∧
    (∀ tx, tx ∈ removed ↔ (costLimit < AoaCost tx ∨ gasLimit < Gas tx) ∧ ∃ n, tm_items (tl_txs l) !! n = Some tx) ∧
    (∀ tx, tx ∈ invalids ↔ tl_strict l = true ∧ (tx ∉ removed) ∧ (∃ n, tm_items (tl_txs l) !! n = Some tx) ∧ ∃ r, r ∈ removed ∧ Nonce r < Nonce tx) ∧
    (∀ n tx, tm_items (tl_txs l') !! n = Some tx ↔ tm_items (tl_txs l) !! n = Some tx ∧ (tx ∉ removed) ∧ (tx ∉ invalids)) ∧
    (tl_strict l = true → gapless (tm_items (tl_txs l)) → gapless (tm_items (tl_txs l'))).
Proof.
  intros Hr K. destruct (tl_Filter_ok range Hr costLimit gasLimit l K) as (removed & invalids & l' & E & F).
  exists removed, invalids, l'. pose proof F as [F1 F2 F3 F4 F5]. split_and!; [done..|]. intros. by eapply filtered_gapless; [exact F|apply K|..].
Qed.

(** ** An example *)

Definition nonce_tx (n : Z) : Transaction := mkTx (mkTxdata n 1 30000 None n [] 0 [] [] None [] EmptyString EmptyString 0 0 0) None None None.
Definition three_txs : txList :=
  mkTxList true (Sample.final (tm_run map_to_list [opPut (nonce_tx 5); opPut (nonce_tx 3); opPut (nonce_tx 4)]) newTxSortedMap) 30005 30000.

Lemma tx_map_refines_witness :
  ∃ m, tm_run map_to_list [opPut (nonce_tx 5); opPut (nonce_tx 3); opPut (nonce_tx 4); opCap 2; opReady 3] newTxSortedMap =
    Ret ((map_run map_to_list [opPut (nonce_tx 5); opPut (nonce_tx 3); opPut (nonce_tx 4); opCap 2; opReady 3] ∅).1, m) ∧
    (map_run map_to_list [opPut (nonce_tx 5); opPut (nonce_tx 3); opPut (nonce_tx 4); opCap 2; opReady 3] ∅).1 =
      [aDone; aDone; aDone; aTxs [nonce_tx 5]; aTxs [nonce_tx 3; nonce_tx 4]].
Proof.
  destruct (tx_map_refines map_to_list [opPut (nonce_tx 5); opPut (nonce_tx 3); opPut (nonce_tx 4); opCap 2; opReady 3]) as (m & E & _).
  - done.
  - repeat constructor; cbn; lia.
  - exists m. split; [exact E|]. vm_compute. reflexivity.
Defined.

Lemma three_txs_ok : tl_ok three_txs.
Proof.
  destruct (tm_run_refines map_to_list (λ _, reflexivity _) [opPut (nonce_tx 5); opPut (nonce_tx 3); opPut (nonce_tx 4)] newTxSortedMap newTxSortedMap_ok)
    as (m & E & K & Ei); [repeat constructor; cbn; lia|].
  assert (F : tl_txs three_txs = m) by (unfold three_txs, Sample.final; cbn [tl_txs]; by rewrite E).
  split; rewrite F; [done|]. rewrite Ei. intros n tx Hn. cbn in Hn. rewrite !lookup_insert in Hn. repeat case_decide; try (injection Hn as <-; vm_compute; by split).
  by rewrite lookup_empty in Hn.
Qed.

Lemma pending_filter_right_witness : ∃ removed invalids l', tl_Filter map_to_list 30003 30000 three_txs = Ret ((removed, invalids), l') ∧ tl_ok l'.
Proof.
  destruct (pending_filter_right map_to_list 30003 30000 three_txs) as (removed & invalids & l' & E & K & _); [done|exact three_txs_ok|].
  by exists removed, invalids, l'.
Defined.
