(* ===== verification/TxPriced.v ===== *)
(** * Transactions of the pool by price ([core/tx_list.go])

    [txPricedList] is a heap of transactions by price, with a count of those that have
    left the pool in the meantime; [txTypeList], which the pool uses, keeps a heap of
    prices for each kind of transaction, the kinds in a heap by how many transactions
    they have.  The map of all transactions belongs to the pool and is an argument
    here, as are the hash of a transaction and whether its sender is local. *)

From S2P Require Import Prelude Interfaces StateTypes StateSample VmData VoteCount TxData Heap.
From S2P Require Import Secp TxList.

Section Priced.
Variable tx_Hash : Transaction → hash.
(** [local.containsTx] *)
Variable local : Transaction → bool.
Variable all : gmap hash Transaction.

(** Whether the map of all transactions has it. *)
Definition in_pool (tx : Transaction) : bool := bool_decide (is_Some (all !! tx_Hash tx)).

(** ** [txPricedList] *)

Record txPricedList : Type := mkPricedList { pl_items : list Transaction; pl_stales : Z }.

#[local] Abbreviation price_Push := (heap_Push GasPrice).
#[local] Abbreviation price_Pop := (heap_Pop GasPrice).

Definition newTxPricedList : txPricedList := mkPricedList [] 0.

Definition pl_Put (tx : Transaction) (l : txPricedList) : txPricedList := mkPricedList (price_Push tx (pl_items l)) (pl_stales l).

(** [range_all] is the order in which the map is visited. *)
Definition pl_Removed (range_all : gmap hash Transaction → list (hash * Transaction)) (l : txPricedList) : txPricedList :=
  let stales := pl_stales l + 1 in
  if stales <=? Z.of_nat (length (pl_items l)) / 4 then mkPricedList (pl_items l) stales
  else mkPricedList (heap_Init GasPrice (range_all all).*2) 0.

Fixpoint push_all (txs : list Transaction) (items : list Transaction) : list Transaction :=
  match txs with
  | [] => items
  | tx :: txs => push_all txs (price_Push tx items)
  end.

(** The loops of [Cap] and [Discard]: each turn takes a transaction off the heap.  They
    return what is dropped, what is saved, the stale ones that are left and the heap. *)
Fixpoint cap_price_loop (fuel : nat) (threshold : Z) (drop save : list Transaction) (stales : Z) (items : list Transaction)
    : list Transaction * list Transaction * Z * list Transaction :=
  match fuel with
  | O => (drop, save, stales, items)
  | S fuel =>
    match price_Pop items with
    | None => (drop, save, stales, items)
    | Some (tx, items) =>
      if negb (in_pool tx) then cap_price_loop fuel threshold drop save (stales - 1) items
      else if GasPrice tx >=? threshold then (drop, save ++ [tx], stales, items)
      else if local tx then cap_price_loop fuel threshold drop (save ++ [tx]) stales items
      else cap_price_loop fuel threshold (drop ++ [tx]) save stales items
    end
  end.
Definition pl_Cap (threshold : Z) (l : txPricedList) : list Transaction * txPricedList :=
  let '(drop, save, stales, items) := cap_price_loop (length (pl_items l)) threshold [] [] (pl_stales l) (pl_items l) in
  (drop, mkPricedList (push_all save items) stales).

Fixpoint discard_loop (fuel : nat) (count : Z) (drop save : list Transaction) (stales : Z) (items : list Transaction)
    : list Transaction * list Transaction * Z * list Transaction :=
  match fuel with
  | O => (drop, save, stales, items)
  | S fuel =>
    if count >? 0 then
      match price_Pop items with
      | None => (drop, save, stales, items)
      | Some (tx, items) =>
        if negb (in_pool tx) then discard_loop fuel count drop save (stales - 1) items
        else if local tx then discard_loop fuel count drop (save ++ [tx]) stales items
        else discard_loop fuel (count - 1) (drop ++ [tx]) save stales items
      end
    else (drop, save, stales, items)
  end.
(** A slice cannot be made with a negative capacity. *)
Definition pl_Discard (count : Z) (l : txPricedList) : outcome (list Transaction * txPricedList) :=
  if count <? 0 then Panic "makeslice: cap out of range"
  else
    let '(drop, save, stales, items) := discard_loop (length (pl_items l)) count [] [] (pl_stales l) (pl_items l) in
    Ret (drop, mkPricedList (push_all save items) stales).

Fixpoint drop_stale (fuel : nat) (l : txPricedList) : txPricedList :=
  match fuel with
  | O => l
  | S fuel =>
    match pl_items l with
    | [] => l
    | head :: _ =>
      if in_pool head then l
      else match price_Pop (pl_items l) with
           | Some (_, items) => drop_stale fuel (mkPricedList items (pl_stales l - 1))
           | None => l
           end
    end
  end.
Definition pl_Underpriced (tx : Transaction) (l : txPricedList) : bool * txPricedList :=
  if local tx then (false, l)
  else
    let l := drop_stale (length (pl_items l)) l in
    match pl_items l with
    | [] => (false, l)
    | cheapest :: _ => (GasPrice tx <=? GasPrice cheapest, l)
    end.

(** ** [txTypeList] *)

Record KV : Type := mkKV { kv_key : address; kv_value : list Transaction; kv_contract : bool }.
#[export] Instance eta_KV : Eta KV := λ r, mkKV (kv_key r) (kv_value r) (kv_contract r).

(** [TxByPrice] has the highest price first, [txPoolSorter] the longest list. *)
Definition dearest (tx : Transaction) : Z := - GasPrice tx.
Definition longest (kv : KV) : Z := - Z.of_nat (length (kv_value kv)).
#[local] Abbreviation txTypeList := (list KV).
#[local] Abbreviation YM := (GM (list KV)).

(** [db.GetCodeSize] *)
Variable GetCodeSize : address → Z.

Definition IsContractTransaction (tx : Transaction) : bool :=
  let a := Action (data tx) in
  if (a =? ActionRegister) || (a =? ActionAddVote) || (a =? ActionSubVote) || (a =? ActionPublishAsset) then false
  else if (a =? ActionCreateContract) || (a =? ActionCallContract) then true
  else match Recipient (data tx) with
       | None => (0 <? length (Payload (data tx)))%nat
       | Some to => GetCodeSize to >? 0
       end.

Definition TxNum (t : txTypeList) : nat := sum_list_with (λ kv, length (kv_value kv)) t.
Definition ContractNum (t : txTypeList) : nat := sum_list_with (λ kv, if kv_contract kv then length (kv_value kv) else 0%nat) t.
Definition GetTransactionList (t : txTypeList) : list Transaction :=
  foldl (λ res kv, foldl (λ res tx, heap_Push dearest tx res) res (kv_value kv)) [] t.

(** [txPoolSorter.Get]: the position of a kind. *)
Fixpoint sorter_Get (key : address) (t : txTypeList) : option nat :=
  match t with
  | [] => None
  | kv :: t => if decide (key = kv_key kv) then Some O else S <$> sorter_Get key t
  end.
(** [TxByPrice.Get] *)
Fixpoint price_Get (h : hash) (l : list Transaction) : option nat :=
  match l with
  | [] => None
  | tx :: l => if decide (h = tx_Hash tx) then Some O else S <$> price_Get h l
  end.

(** A kind that is there gets the transaction in its own list; the heap of kinds is left
    as it is. *)
Definition type_Put (tx : Transaction) : YM unit :=
  txType ← lift_outcome (GetTransactionType tx);
  gmodify (λ t,
    match sorter_Get txType t with
    | None => heap_Push longest (mkKV txType (heap_Push dearest tx []) (IsContractTransaction tx)) t
    | Some i => alter (λ kv, kv <| kv_value ::= heap_Push dearest tx |>) i t
    end).

Fixpoint put_all (txs : list Transaction) : YM unit :=
  match txs with
  | [] => mret tt
  | tx :: txs => type_Put tx;; put_all txs
  end.

Fixpoint type_cap_loop (fuel : nat) (threshold : Z) (drop save : list Transaction) (items : list Transaction) : list Transaction * list Transaction :=
  match fuel with
  | O => (drop, save)
  | S fuel =>
    match heap_Pop dearest items with
    | None => (drop, save)
    | Some (tx, items) =>
      if negb (in_pool tx) then type_cap_loop fuel threshold drop save items
      else if GasPrice tx >=? threshold then (drop, save ++ [tx])
      else if local tx then type_cap_loop fuel threshold drop (save ++ [tx]) items
      else type_cap_loop fuel threshold (drop ++ [tx]) save items
    end
  end.
Definition type_Cap (threshold : Z) : YM (list Transaction) :=
  t ← gget;
  let items := GetTransactionList t in
  let '(drop, save) := type_cap_loop (length items) threshold [] [] items in
  put_all save;; mret drop.

Definition RemoveByHash (txType : address) (h : hash) : YM unit :=
  t ← gget;
  match sorter_Get txType t ≫= (λ i, pair i <$> t !! i) with
  | None => gpanic "nil list of transactions"
  | Some (i, kv) =>
    match price_Get h (kv_value kv) with
    | None => gpanic "index out of range"
    | Some index =>
      match heap_Remove dearest index (kv_value kv) with
      | None => gpanic "index out of range"
      | Some (_, value) =>
        gmodify (λ t, <[i := kv <| kv_value := value |>]> t);;
        if (length value =? 0)%nat then
          t ← gget;
          match heap_Remove longest i t with
          | Some (_, t) => gmodify (λ _, t)
          | None => gpanic "index out of range"
          end
        else mret tt
      end
    end
  end.

(** [sort.Sort] of a [TxByPrice]: the dearest first.  Among equal prices the library's
    order is unspecified; the one here keeps them as they were. *)
Definition dearer (x y : Transaction) : Prop := GasPrice y ≤ GasPrice x.
#[export] Instance dearer_dec x y : Decision (dearer x y) := decide (GasPrice y ≤ GasPrice x).
#[local] Abbreviation sort_price := (merge_sort dearer).
(** The transactions at the end that are no longer in the pool leave. *)
Fixpoint trim_stale (fuel : nat) (l : list Transaction) : list Transaction :=
  match fuel, last l with
  | S fuel, Some head => if in_pool head then l else trim_stale fuel (take (length l - 1) l)
  | _, _ => l
  end.
(** An index of -1, when none is left. *)
Definition no_live_tx : string := "index out of range: every transaction of the kind has left the pool".
Definition type_Underpriced (tx : Transaction) : YM bool :=
  txType ← lift_outcome (GetTransactionType tx);
  t ← gget;
  match sorter_Get txType t ≫= (λ i, pair i <$> t !! i) with
  | None => gpanic "nil list of transactions"
  | Some (i, kv) =>
    let value := trim_stale (length (kv_value kv)) (sort_price (kv_value kv)) in
    gmodify (λ t, <[i := kv <| kv_value := value |>]> t);;
    match last value with
    | Some cheapest => mret (GasPrice tx <=? GasPrice cheapest)
    | None => gpanic no_live_tx
    end
  end.

(** [RemoveTx] names the transaction to remove: the cheapest of the kind in front. *)
Definition RemoveTx : YM hash :=
  t ← gget;
  match t with
  | [] => gpanic "index out of range"
  | kv :: t =>
    let value := sort_price (kv_value kv) in
    gmodify (λ _, kv <| kv_value := value |> :: t);;
    match last value with
    | Some removeTx => mret (tx_Hash removeTx)
    | None => gpanic "index out of range"
    end
  end.
End Priced.

(** ** Prices *)

(** Shared by the heaps below: everything pushed is there, and the heap stays one. *)
Lemma push_all_ok txs : ∀ items, is_heap GasPrice items → push_all txs items ≡ₚ txs ++ items ∧ is_heap GasPrice (push_all txs items).
Proof.
  induction txs as [|tx txs IH]; intros items H; cbn; [done|]. destruct (heap_Push_ok GasPrice tx items H) as [P H'].
  destruct (IH _ H') as [P' ?]. split; [|done]. rewrite P', P. by rewrite Permutation_middle.
Qed.

(** Taking from a heap: the first is the least, unless there is none. *)
Lemma heap_Pop_cases {A} (key : A → Z) l : is_heap key l →
  l = [] ∧ heap_Pop key l = None ∨
  ∃ x l', heap_Pop key l = Some (x, l') ∧ l ≡ₚ x :: l' ∧ is_heap key l' ∧ (∀ y, y ∈ l → key x ≤ key y) ∧ length l = S (length l').
Proof.
  intros H. destruct l as [|x l]; [by left|right]. destruct (heap_Pop_ok key x (x :: l) H) as (l' & E & P & H'); [done|].
  exists x, l'. split_and!; [done|done|done| |by rewrite P]. intros y Hy. eapply (heap_min_elem key (x :: l)); done.
Qed.

Section Theorems.
Variable tx_Hash : Transaction → hash.
Variable local : Transaction → bool.
Variable all : gmap hash Transaction.
#[local] Abbreviation live := (in_pool tx_Hash all).

(** [items] has been split into what is dropped, kept and stale, and what is left. *)
Record popped (items D S gone left : list Transaction) : Prop := mkPopped {
  pp_all : items ≡ₚ D ++ S ++ gone ++ left;
  pp_heap : is_heap GasPrice left;
  pp_drop : Forall (λ x, live x = true ∧ local x = false) D;
  pp_gone : Forall (λ x, live x = false) gone;
  pp_cheap : ∀ d x, d ∈ D → x ∈ left → GasPrice d ≤ GasPrice x
}.

Lemma popped_none items : is_heap GasPrice items → popped items [] [] [] items.
Proof. intros H. constructor; try done. intros d x ?%not_elem_of_nil. done. Qed.

Section step.
Context (items items' D S gone left : list Transaction) (tx : Transaction).
Hypothesis perm : items ≡ₚ tx :: items'.
Hypothesis least : ∀ y, y ∈ items → GasPrice tx ≤ GasPrice y.
Hypothesis rest : popped items' D S gone left.

Lemma popped_stale : live tx = false → popped items D S (tx :: gone) left.
Proof using perm rest. destruct rest as [P ? ? ? ?]. intros. constructor; try done; [rewrite perm, P; solve_Permutation|by constructor]. Qed.
Lemma popped_save : popped items D (tx :: S) gone left.
Proof using perm rest. destruct rest as [P ? ? ? ?]. constructor; try done. rewrite perm, P. solve_Permutation. Qed.
Lemma popped_drop : live tx = true → local tx = false → popped items (tx :: D) S gone left.
Proof using perm least rest.
  destruct rest as [P ? ? ? C]. intros. constructor; try done; [rewrite perm, P; solve_Permutation|by constructor|].
  intros d x [->|Hd]%elem_of_cons Hx; [|by apply C]. apply least. rewrite perm, P. set_solver.
Qed.
End step.

(** Both loops need as much fuel as the heap has transactions. *)
Lemma discard_loop_ok fuel : ∀ count drop save stales items, is_heap GasPrice items → (length items ≤ fuel)%nat → 0 ≤ count →
  ∃ D S gone left, discard_loop tx_Hash local all fuel count drop save stales items
      = (drop ++ D, save ++ S, stales - Z.of_nat (length gone), left) ∧
    popped items D S gone left ∧ Forall (λ x, local x = true) S ∧ Z.of_nat (length D) ≤ count ∧
    (Z.of_nat (length D) < count → left = []).
Proof using Type.
  assert (Z0 : ∀ fuel count drop save stales items, is_heap GasPrice items → 0 ≤ count → (count = 0 ∨ items = []) →
    discard_loop tx_Hash local all fuel count drop save stales items = (drop, save, stales, items) →
    ∃ D S gone left, discard_loop tx_Hash local all fuel count drop save stales items
      = (drop ++ D, save ++ S, stales - Z.of_nat (length gone), left) ∧
    popped items D S gone left ∧ Forall (λ x, local x = true) S ∧ Z.of_nat (length D) ≤ count ∧ (Z.of_nat (length D) < count → left = [])).
  { intros f c d sv st it H Hc Hi ->. exists [], [], [], it. rewrite !app_nil_r. cbn. rewrite Z.sub_0_r.
    split_and!; [done|by apply popped_none|done|done|]. destruct Hi as [Hi|Hi]; subst; [lia|done]. }
  induction fuel as [|fuel IH]; intros count drop save stales items H Hf Hc.
  { apply Z0; try done. right. destruct items; [done|cbn in Hf; lia]. }
  destruct (Z.gtb_spec count 0) as [Hpos|Hz]; [|apply Z0; try done; [left; lia|cbn; by destruct (Z.gtb_spec count 0); [lia|]]].
  destruct (heap_Pop_cases GasPrice items H) as [ [-> E] |(tx & items' & E & P & H' & L & Hlen)].
  { apply Z0; try done; [by right|]. cbn. by destruct (count >? 0). }
  cbn [discard_loop]. rewrite (proj2 (Z.gtb_lt _ _) Hpos), E. destruct (live tx) eqn:Hl; cbn [negb].
  - destruct (local tx) eqn:Hloc.
    + destruct (IH count drop (save ++ [tx]) stales items' H' ltac:(lia) Hc) as (D & S & gone & left & -> & Q & F & ? & ?).
      exists D, (tx :: S), gone, left. rewrite <- app_assoc. split_and!; [done|by eapply popped_save|by constructor|done|done].
    + destruct (IH (count - 1) (drop ++ [tx]) save stales items' H' ltac:(lia) ltac:(lia)) as (D & S & gone & left & -> & Q & F & ? & ?).
      exists (tx :: D), S, gone, left. rewrite <- app_assoc. cbn [length]. split_and!; [done|by eapply popped_drop|done|lia|].
      intros ?. match goal with H : _ → left = [] |- _ => apply H end. lia.
  - destruct (IH count drop save (stales - 1) items' H' ltac:(lia) Hc) as (D & S & gone & left & -> & Q & F & ? & ?).
    exists D, S, (tx :: gone), left. cbn [length]. split_and!; [do 2 f_equal; lia|by eapply popped_stale|done|done|done].
Qed.

Lemma cap_price_loop_ok fuel : ∀ threshold drop save stales items, is_heap GasPrice items → (length items ≤ fuel)%nat →
  ∃ D S gone left, cap_price_loop tx_Hash local all fuel threshold drop save stales items
      = (drop ++ D, save ++ S, stales - Z.of_nat (length gone), left) ∧
    popped items D S gone left ∧ Forall (λ x, local x = true ∨ threshold ≤ GasPrice x) S ∧
    Forall (λ x, GasPrice x < threshold) D ∧ Forall (λ x, threshold ≤ GasPrice x) left.
Proof using Type.
  induction fuel as [|fuel IH]; intros threshold drop save stales items H Hf.
  { destruct items; [|cbn in Hf; lia]. exists [], [], [], []. rewrite !app_nil_r. cbn. rewrite Z.sub_0_r. split_and!; [done|by apply popped_none|done|done|done]. }
  cbn [cap_price_loop]. destruct (heap_Pop_cases GasPrice items H) as [ [-> E] |(tx & items' & E & P & H' & L & Hlen)]; rewrite E.
  { exists [], [], [], []. rewrite !app_nil_r. cbn. rewrite Z.sub_0_r. split_and!; [done|by apply popped_none|done|done|done]. }
  destruct (live tx) eqn:Hl; cbn [negb].
  - destruct (Z.geb_spec (GasPrice tx) threshold) as [Hp|Hp].
    { exists [], [tx], [], items'. rewrite app_nil_r. cbn. rewrite Z.sub_0_r. split_and!; [done|by eapply popped_save, popped_none|constructor; [by right|done]|done|].
      apply Forall_forall. intros y Hy. etrans; [exact Hp|apply L]. rewrite P. by right. }
    destruct (local tx) eqn:Hloc.
    + destruct (IH threshold drop (save ++ [tx]) stales items' H' ltac:(lia)) as (D & S & gone & left & -> & Q & F & ? & ?).
      exists D, (tx :: S), gone, left. rewrite <- app_assoc. split_and!; [done|by eapply popped_save|by constructor; [left|]|done|done].
    + destruct (IH threshold (drop ++ [tx]) save stales items' H' ltac:(lia)) as (D & S & gone & left & -> & Q & F & ? & ?).
      exists (tx :: D), S, gone, left. rewrite <- app_assoc. split_and!; [done|by eapply popped_drop|done|by constructor|done].
  - destruct (IH threshold drop save (stales - 1) items' H' ltac:(lia)) as (D & S & gone & left & -> & Q & F & ? & ?).
    exists D, S, (tx :: gone), left. cbn [length]. split_and!; [do 2 f_equal; lia|by eapply popped_stale|done|done|done].
Qed.

(** What leaves the priced list: the remote transactions that are returned and the
    stale ones, which the counter no longer counts; the rest is a heap again. *)
Record evicted (l : txPricedList) (dropped : list Transaction) (l' : txPricedList) : Prop := mkEvicted {
  ev_heap : is_heap GasPrice (pl_items l');
  ev_all : ∃ gone, pl_items l ≡ₚ dropped ++ gone ++ pl_items l' ∧ Forall (λ x, live x = false) gone ∧ pl_stales l' = pl_stales l - Z.of_nat (length gone);
  ev_remote : Forall (λ x, live x = true ∧ local x = false) dropped
}.

Lemma popped_evicted l D S gone left : popped (pl_items l) D S gone left →
  evicted l D (mkPricedList (push_all S left) (pl_stales l - Z.of_nat (length gone))).
Proof using Type.
  intros [P H F G _]. destruct (push_all_ok S left H) as [Pa Ha]. constructor; cbn; [done| |done].
  exists gone. split_and!; [|done|done]. rewrite P, Pa. solve_Permutation.
Qed.

Lemma evicted_left S left x : is_heap GasPrice left → x ∈ push_all S left → x ∈ S ∨ x ∈ left.
Proof using Type. intros H. rewrite (proj1 (push_all_ok S left H)). apply elem_of_app. Qed.

(** [txPricedList.Discard] gives up the cheapest transactions.  With a count that is not
    negative it returns, what it drops is in the pool and not local, there are at most
    as many as asked for, and fewer only when no such transaction is left; none that
    stays is cheaper than one that is dropped. *)
Theorem priced_discard (count : Z) (l : txPricedList) : 0 ≤ count → is_heap GasPrice (pl_items l) →
  ∃ dropped l', pl_Discard tx_Hash local all count l = Ret (dropped, l') ∧ evicted l dropped l' ∧
    Z.of_nat (length dropped) ≤ count ∧
    ∀ x, x ∈ pl_items l' → local x = false →
      (∀ d, d ∈ dropped → GasPrice d ≤ GasPrice x) ∧ (live x = true → Z.of_nat (length dropped) = count).
Proof using Type.
  intros Hc H. unfold pl_Discard. destruct (Z.ltb_spec count 0); [lia|].
  destruct (discard_loop_ok (length (pl_items l)) count [] [] (pl_stales l) (pl_items l) H ltac:(done) Hc) as (D & S & gone & left & -> & Q & F & Hd & He).
  cbn [app]. eexists D, _. split; [reflexivity|]. split; [by apply popped_evicted|]. split; [done|]. intros x Hx Hloc.
  apply evicted_left in Hx as [Hx|Hx]; [..|by destruct Q].
  - rewrite Forall_forall in F. specialize (F x Hx). congruence.
  - split; [intros d Hin; by eapply pp_cheap|]. intros _. destruct (Z.lt_ge_cases (Z.of_nat (length D)) count) as [Hlt|]; [|lia].
    rewrite (He Hlt) in Hx. by apply not_elem_of_nil in Hx.
Qed.

(** [txPricedList.Cap] drops exactly the remote transactions below the threshold. *)
Theorem priced_cap (threshold : Z) (l : txPricedList) : is_heap GasPrice (pl_items l) →
  let (dropped, l') := pl_Cap tx_Hash local all threshold l in
  evicted l dropped l' ∧ Forall (λ x, GasPrice x < threshold) dropped ∧
  ∀ x, x ∈ pl_items l' → local x = false → threshold ≤ GasPrice x.
Proof using Type.
  intros H. unfold pl_Cap.
  destruct (cap_price_loop_ok (length (pl_items l)) threshold [] [] (pl_stales l) (pl_items l) H ltac:(done)) as (D & S & gone & left & -> & Q & F & Hd & He).
  cbn [app]. split; [by apply popped_evicted|]. split; [done|]. intros x Hx Hloc. cbn in Hx. rewrite Forall_forall in F, He.
  apply evicted_left in Hx as [Hx|Hx]; [destruct (F x Hx); [congruence|done]|by apply He|by destruct Q].
Qed.
End Theorems.

(** ** Kinds of transactions *)

Definition index_txs (t : list KV) : list Transaction := t ≫= kv_value.

Record kv_ok (kv : KV) : Prop := mkKvOk {
  ko_heap : is_heap dearest (kv_value kv);
  ko_some : kv_value kv ≠ [];
  ko_kind : Forall (λ tx, GetTransactionType tx = Ret (kv_key kv)) (kv_value kv)
}.
(** The kinds are distinct; nothing is known of their order. *)
Record types_ok (t : list KV) : Prop := mkTypesOk {
  tk_kinds : Forall kv_ok t;
  tk_keys : NoDup (kv_key <$> t)
}.

#[export] Instance contents_perm : Proper ((≡ₚ) ==> (≡ₚ)) index_txs.
Proof. intros t t' P. unfold index_txs. by rewrite P. Qed.
#[export] Instance types_ok_perm : Proper ((≡ₚ) ==> iff) types_ok.
Proof.
  assert (G : ∀ t t', t ≡ₚ t' → types_ok t → types_ok t').
  { intros t t' P [K N]. constructor; [by rewrite <- P|]. by rewrite <- P. }
  intros t t' P. split; apply G; [done|by symmetry].
Qed.

Lemma sorter_Get_Some key t i : sorter_Get key t = Some i → ∃ kv, t !! i = Some kv ∧ kv_key kv = key.
Proof.
  revert i. induction t as [|kv t IH]; intros i; cbn; [done|]. case_decide as E; [intros [= <-]; by exists kv|].
  destruct (sorter_Get key t) as [j|]; cbn; [|done]. intros [= <-]. destruct (IH j eq_refl) as (kv' & ? & ?). by exists kv'.
Qed.
Lemma sorter_Get_None key t : sorter_Get key t = None → key ∉ kv_key <$> t.
Proof.
  induction t as [|kv t IH]; cbn; [intros _; apply not_elem_of_nil|]. case_decide as E; [done|].
  destruct (sorter_Get key t) as [j|]; cbn; [done|]. intros _. apply not_elem_of_cons. auto.
Qed.
Lemma price_Get_elem tx_Hash (l : list Transaction) tx : tx ∈ l → ∃ i tx', price_Get tx_Hash (tx_Hash tx) l = Some i ∧ l !! i = Some tx' ∧ tx_Hash tx' = tx_Hash tx.
Proof.
  induction l as [|x l IH]; [by intros ?%not_elem_of_nil|]. intros H. cbn. case_decide as E; [by exists 0%nat, x|].
  apply elem_of_cons in H as [->|H]; [done|]. destruct (IH H) as (i & tx' & -> & ? & ?). by exists (S i), tx'.
Qed.

Lemma delete_insert_at (t : list KV) i kv : delete i (<[i := kv]> t) = delete i t.
Proof. revert i. induction t as [|x t IH]; intros [|i]; cbn; [done..|]. f_equal. apply IH. Qed.

Lemma alter_at (f : KV → KV) (t : list KV) i kv : t !! i = Some kv → alter f i t = <[i := f kv]> t.
Proof. revert i. induction t as [|x t IH]; intros [|i] H; cbn in *; [done|done|congruence|]. f_equal. by apply IH. Qed.

(** One kind in front of the others. *)
Lemma front (t : list KV) i kv : t !! i = Some kv → t ≡ₚ kv :: delete i t.
Proof. intros H. symmetry. rewrite <- (delete_Permutation t i kv H). done. Qed.
Lemma front_insert (t : list KV) i kv kv' : t !! i = Some kv → <[i := kv']> t ≡ₚ kv' :: delete i t.
Proof.
  intros H. assert (L : <[i := kv']> t !! i = Some kv') by (apply list_lookup_insert_eq; by eapply lookup_lt_Some).
  rewrite (front _ _ _ L). by rewrite delete_insert_at.
Qed.


Lemma types_ok_cons kv t : types_ok (kv :: t) ↔ kv_ok kv ∧ types_ok t ∧ kv_key kv ∉ kv_key <$> t.
Proof.
  split; [intros [K N]; apply Forall_cons in K as [? ?]; apply NoDup_cons in N as [? ?]; split_and!; [done|by constructor|done]|].
  intros (? & [K N] & ?). constructor; [by constructor|]. cbn. by constructor.
Qed.

Lemma heap_nil {A} (key : A → Z) : is_heap key [].
Proof. intros j H. cbn in H. lia. Qed.

(** Adding a transaction to the price index, and taking one off. *)
Section Bag.
Variable tx_Hash : Transaction → hash.
Variable GetCodeSize : address → Z.

Lemma type_Put_ok tx kind t : GetTransactionType tx = Ret kind → types_ok t →
  ∃ t', type_Put GetCodeSize tx t = Ret (tt, t') ∧ types_ok t' ∧ index_txs t' ≡ₚ tx :: index_txs t.
Proof using Type.
  intros Hk K. unfold type_Put. erewrite GM_bind_run by (unfold lift_outcome; by rewrite Hk). eexists. split; [reflexivity|].
  destruct (sorter_Get kind t) as [i|] eqn:Hg.
  - apply sorter_Get_Some in Hg as (kv & Hi & Hkey). rewrite (alter_at _ _ _ _ Hi). set (kv' := kv <| kv_value ::= _ |>).
    assert (Ev : kv_value kv' = heap_Push dearest tx (kv_value kv)) by reflexivity. assert (Ek : kv_key kv' = kv_key kv) by reflexivity. clearbody kv'.
    rewrite (front_insert t i kv kv' Hi). rewrite (front t i kv Hi) in K. pose proof (front t i kv Hi) as P.
    set (t0 := delete i t) in *. clearbody t0. apply types_ok_cons in K as ([H1 H2 H3] & K2 & N). destruct (heap_Push_ok dearest tx (kv_value kv) H1) as [Pp Hp]. split.
    + apply types_ok_cons. rewrite Ek. split_and!; [|done|done]. constructor; rewrite ?Ek, Ev; [done| |].
      * intros E. rewrite E in Pp. by apply Permutation_nil_cons in Pp.
      * rewrite Pp. constructor; [by rewrite Hk, Hkey|done].
    + rewrite P. unfold index_txs. cbn [mbind list_bind]. by rewrite Ev, Pp.
  - apply sorter_Get_None in Hg. set (kv := mkKV _ _ _). pose proof (heap_Push_perm longest kv t) as P. rewrite P. split; [|done].
    apply types_ok_cons. split_and!; [|done|done]. destruct (heap_Push_ok dearest tx [] (heap_nil _)) as [Pp Hp].
    constructor; [done|done|]. cbn. by repeat constructor.
Qed.

Lemma RemoveByHash_ok tx kind t : GetTransactionType tx = Ret kind → types_ok t → tx ∈ index_txs t →
  ∃ t' tx', RemoveByHash tx_Hash kind (tx_Hash tx) t = Ret (tt, t') ∧ types_ok t' ∧ tx_Hash tx' = tx_Hash tx ∧ index_txs t ≡ₚ tx' :: index_txs t' ∧
    GetTransactionType tx' = Ret kind.
Proof using Type.
  intros Hk K Hin. assert (G : ∃ i kv, sorter_Get kind t = Some i ∧ t !! i = Some kv ∧ tx ∈ kv_value kv ∧ kv_key kv = kind).
  { apply list_elem_of_bind in Hin as (kv & Hv & Hkv). assert (Hkey : kv_key kv = kind).
    { destruct K as [F _]. rewrite Forall_forall in F. destruct (F kv Hkv) as [_ _ F3]. rewrite Forall_forall in F3. specialize (F3 tx Hv). congruence. }
    destruct (sorter_Get kind t) as [i|] eqn:Hg; [|exfalso; apply sorter_Get_None in Hg; apply Hg; rewrite <- Hkey; by apply list_elem_of_fmap_2].
    apply sorter_Get_Some in Hg as (kv' & Hi & Hkey'). exists i, kv'. split_and!; [done|done| |done]. apply list_elem_of_lookup in Hkv as [i' Hi'].
    assert (i = i') as <- by (eapply (NoDup_lookup _ _ _ (kv_key kv)); [apply (tk_keys _ K)|rewrite list_lookup_fmap, Hi; cbn; congruence|by rewrite list_lookup_fmap, Hi']).
    congruence. }
  destruct G as (i & kv & Hg & Hi & Hv & Hkey). pose proof (front t i kv Hi) as P. rewrite P in K. apply types_ok_cons in K as ([H1 H2 H3] & K2 & N).
  destruct (price_Get_elem tx_Hash (kv_value kv) tx Hv) as (j & tx' & Hj & Hj' & Hh). destruct (heap_Remove_ok dearest j tx' _ H1 Hj') as (value & Er & Pv & Hp).
  assert (Hk' : GetTransactionType tx' = Ret kind) by (rewrite Forall_forall in H3; rewrite <- Hkey; by apply H3, (list_elem_of_lookup_2 _ j)).
  unfold RemoveByHash. erewrite GM_bind_run by reflexivity. rewrite Hg. cbn [mbind option_bind]. rewrite Hi. cbn [fmap option_fmap option_map]. rewrite Hj, Er.
  erewrite GM_bind_run by reflexivity. set (kv' := kv <| kv_value := value |>). pose proof (front_insert t i kv kv' Hi) as P'.
  set (t0 := delete i t) in *. clearbody t0. set (t1 := <[i := kv']> t) in *.
  assert (C : index_txs t ≡ₚ tx' :: index_txs t1) by (rewrite P, P'; unfold index_txs; cbn; by rewrite Pv).
  destruct (Nat.eqb_spec (length value) 0) as [E|E].
  - erewrite GM_bind_run by reflexivity. assert (L : t1 !! i = Some kv') by (apply list_lookup_insert_eq; by eapply lookup_lt_Some).
    destruct (heap_Remove_perm longest i kv' _ L) as (t' & -> & Pt). exists t', tx'. split; [reflexivity|]. rewrite P' in Pt. apply Permutation_cons_inv in Pt.
    rewrite <- Pt. split_and!; [done|done| |done]. rewrite C, P'. unfold index_txs. cbn. destruct value; [done|done].
  - exists t1, tx'. split; [reflexivity|]. rewrite P'. split_and!; [|done|by rewrite C, P'|done]. apply types_ok_cons. split_and!; [|done|done].
    constructor; cbn; [done|by destruct value|]. rewrite Pv in H3. by apply Forall_cons in H3 as [_ ?].
Qed.

Variable local : Transaction → bool.
Variable all : gmap hash Transaction.

Lemma GetTransactionList_ok t : GetTransactionList t ≡ₚ index_txs t ∧ is_heap dearest (GetTransactionList t).
Proof using Type.
  assert (G1 : ∀ l res, is_heap dearest res → foldl (λ res tx, heap_Push dearest tx res) res l ≡ₚ l ++ res ∧
    is_heap dearest (foldl (λ res tx, heap_Push dearest tx res) res l)).
  { induction l as [|tx l IH]; intros res H; cbn [foldl app]; [done|]. destruct (heap_Push_ok dearest tx res H) as [P H'].
    destruct (IH _ H') as [P' ?]. split; [|done]. rewrite P', P. by rewrite Permutation_middle. }
  assert (G2 : ∀ t res, is_heap dearest res → foldl (λ res kv, foldl (λ res tx, heap_Push dearest tx res) res (kv_value kv)) res t ≡ₚ index_txs t ++ res ∧
    is_heap dearest (foldl (λ res kv, foldl (λ res tx, heap_Push dearest tx res) res (kv_value kv)) res t)).
  { induction t0 as [|kv t0 IH]; intros res H; cbn [foldl]; [done|]. destruct (G1 (kv_value kv) res H) as [P H'].
    destruct (IH _ H') as [P' ?]. split; [|done]. rewrite P', P. unfold index_txs. cbn [mbind list_bind]. solve_Permutation. }
  destruct (G2 t [] (heap_nil _)) as [P H]. rewrite app_nil_r in P. done.
Qed.

(** The dearest transaction comes first: if it is not below the threshold, the loop
    ends there. *)
Lemma type_cap_stops fuel threshold : ∀ items, is_heap dearest items → (length items ≤ fuel)%nat →
  (∃ x, x ∈ items ∧ in_pool tx_Hash all x = true ∧ threshold ≤ GasPrice x) →
  ∃ tx, tx ∈ items ∧ type_cap_loop tx_Hash local all fuel threshold [] [] items = ([], [tx]).
Proof using Type.
  induction fuel as [|fuel IH]; intros items H Hf (x & Hx & Hl & Ht).
  { destruct items; [by apply not_elem_of_nil in Hx|cbn in Hf; lia]. }
  cbn [type_cap_loop]. destruct (heap_Pop_cases dearest items H) as [ [-> _] |(tx & items' & E & P & H' & L & Hlen)]; [by apply not_elem_of_nil in Hx|].
  rewrite E. destruct (in_pool tx_Hash all tx) eqn:Hp; cbn [negb].
  - specialize (L x Hx). unfold dearest in L. rewrite (proj2 (Z.geb_le _ _)) by lia. exists tx. split; [|done]. rewrite P. by left.
  - rewrite P in Hx. apply elem_of_cons in Hx as [->|Hx]; [congruence|]. destruct (IH items' H' ltac:(lia)) as (y & ? & ->); [by exists x|].
    exists y. split; [|done]. rewrite P. by right.
Qed.
End Bag.

Lemma put_all_ok GetCodeSize txs : ∀ t, Forall (λ tx, ∃ kind, GetTransactionType tx = Ret kind) txs → types_ok t →
  ∃ t', put_all GetCodeSize txs t = Ret (tt, t') ∧ types_ok t' ∧ index_txs t' ≡ₚ txs ++ index_txs t.
Proof.
  induction txs as [|tx txs IH]; intros t F K; [by exists t|]. apply Forall_cons in F as [[kind Hk] F].
  destruct (type_Put_ok GetCodeSize tx kind t Hk K) as (t1 & E1 & K1 & C1). destruct (IH t1 F K1) as (t2 & E2 & K2 & C2).
  exists t2. split; [cbn [put_all]; by erewrite GM_bind_run by exact E1|]. split; [done|]. rewrite C2, C1. symmetry. apply Permutation_middle.
Qed.

(** The pool's price index holds what was put into it.  [txTypeList.Put] adds the
    transaction under its kind and [RemoveByHash] takes off one with the given hash;
    the other transactions stay, every kind keeps its heap of prices and no kind is
    left empty - although the heap of kinds need not be one. *)
Theorem price_index_bag (tx_Hash : Transaction → hash) (GetCodeSize : address → Z) (tx : Transaction) (kind : address) (t : list KV) :
  GetTransactionType tx = Ret kind → types_ok t →
  (∃ t', type_Put GetCodeSize tx t = Ret (tt, t') ∧ types_ok t' ∧ index_txs t' ≡ₚ tx :: index_txs t) ∧
  (tx ∈ index_txs t → ∃ t' gone, RemoveByHash tx_Hash kind (tx_Hash tx) t = Ret (tt, t') ∧ types_ok t' ∧
    tx_Hash gone = tx_Hash tx ∧ index_txs t ≡ₚ gone :: index_txs t').
Proof.
  intros Hk K. split; [by eapply type_Put_ok|]. intros Hin.
  destruct (RemoveByHash_ok tx_Hash tx kind t Hk K Hin) as (t' & gone & ? & ? & ? & ? & _). by exists t', gone.
Qed.

(** [txTypeList.Cap] drops nothing while the pool has one transaction at or above the
    threshold, however many are below it: it starts with the dearest.  That one it puts
    into the index again, where it is then twice. *)
Theorem cap_drops_nothing (tx_Hash : Transaction → hash) (local : Transaction → bool) (all : gmap hash Transaction)
    (GetCodeSize : address → Z) (threshold : Z) (t : list KV) (x : Transaction) :
  types_ok t → x ∈ index_txs t → in_pool tx_Hash all x = true → threshold ≤ GasPrice x →
  ∃ t' tx, type_Cap tx_Hash local all GetCodeSize threshold t = Ret ([], t') ∧ tx ∈ index_txs t ∧ index_txs t' ≡ₚ tx :: index_txs t.
Proof.
  intros K Hx Hl Ht. destruct (GetTransactionList_ok t) as [P H].
  destruct (type_cap_stops tx_Hash local all (length (GetTransactionList t)) threshold (GetTransactionList t) H ltac:(done)) as (tx & Hin & E).
  { exists x. by rewrite P. }
  rewrite P in Hin. assert (Hk : ∃ kind, GetTransactionType tx = Ret kind).
  { apply list_elem_of_bind in Hin as (kv & Hv & Hkv). destruct K as [F _]. rewrite Forall_forall in F. destruct (F kv Hkv) as [_ _ F3].
    rewrite Forall_forall in F3. eexists. by apply F3. }
  destruct Hk as [kind Hk]. destruct (type_Put_ok GetCodeSize tx kind t Hk K) as (t' & Ep & _ & C). exists t', tx. split; [|done].
  unfold type_Cap. erewrite GM_bind_run by reflexivity. cbv zeta. rewrite E. cbn [put_all].
  erewrite GM_bind_run by (by erewrite GM_bind_run by exact Ep). done.
Qed.

(** ** An example *)

(** Transfers of AOA at some price, and votes. *)
Definition priced_tx (action price : Z) : Transaction :=
  mkTx (mkTxdata price price 30000 None 0 [] action [] [] None [] EmptyString EmptyString 0 0 0) None None None.
Definition price_hash (tx : Transaction) : hash := BigToHash (GasPrice tx).
Definition no_code (a : address) : Z := 0.
Definition index_of (txs : list Transaction) : list KV := Sample.final (put_all no_code txs) [].
Definition pool_of (txs : list Transaction) : gmap hash Transaction := list_to_map ((λ tx, (price_hash tx, tx)) <$> txs).

(** Two transfers at 1 and 10 and two votes at 20 and 30. *)
Definition four_txs : list Transaction := [priced_tx ActionTrans 1; priced_tx ActionTrans 10; priced_tx ActionAddVote 20; priced_tx ActionAddVote 30].

Lemma four_txs_ok : types_ok (index_of four_txs) ∧ index_txs (index_of four_txs) ≡ₚ four_txs.
Proof.
  destruct (put_all_ok no_code four_txs []) as (t & E & K & C).
  - repeat constructor; eexists; reflexivity.
  - constructor; constructor.
  - unfold index_of, Sample.final. rewrite E. split; [done|]. by rewrite C, app_nil_r.
Qed.

Definition four_priced : txPricedList := mkPricedList (push_all four_txs []) 1.
Lemma four_priced_heap : is_heap GasPrice (pl_items four_priced).
Proof. apply push_all_ok, heap_nil. Qed.

(** The dearest has left the pool and the cheapest is local. *)
Definition three_left : gmap hash Transaction := pool_of (take 3 four_txs).
Definition first_local (tx : Transaction) : bool := GasPrice tx =? 1.

Lemma priced_discard_witness :
  ∃ l', pl_Discard price_hash first_local three_left 2 four_priced = Ret ([priced_tx ActionTrans 10; priced_tx ActionAddVote 20], l') ∧
    is_heap GasPrice (pl_items l').
Proof.
  destruct (priced_discard price_hash first_local three_left 2 four_priced) as (dropped & l' & E & V & _); [lia|exact four_priced_heap|].
  exists l'. split; [|apply V]. assert (D : dropped = [priced_tx ActionTrans 10; priced_tx ActionAddVote 20]).
  { transitivity (from_option fst [] (match pl_Discard price_hash first_local three_left 2 four_priced with Ret r => Some r | Panic _ => None end));
      [by rewrite E|vm_compute; reflexivity]. }
  by rewrite E, D.
Defined.

Lemma priced_cap_witness : (pl_Cap price_hash first_local three_left 20 four_priced).1 = [priced_tx ActionTrans 10] ∧
  Forall (λ x, GasPrice x < 20) (pl_Cap price_hash first_local three_left 20 four_priced).1.
Proof.
  split; [vm_compute; reflexivity|]. pose proof (priced_cap price_hash first_local three_left 20 four_priced four_priced_heap) as W.
  destruct (pl_Cap price_hash first_local three_left 20 four_priced) as [dropped l']. apply W.
Defined.

Lemma price_index_bag_witness :
  ∃ t', RemoveByHash price_hash (StringToAddress "aoa") (price_hash (priced_tx ActionTrans 10)) (index_of four_txs) = Ret (tt, t') ∧ types_ok t'.
Proof.
  destruct (price_index_bag price_hash no_code (priced_tx ActionTrans 10) (StringToAddress "aoa") (index_of four_txs)) as [_ R];
    [reflexivity|apply four_txs_ok|]. destruct R as (t' & gone & E & K & _); [rewrite (proj2 four_txs_ok); right; left|].
  exists t'. split; [exact E|exact K].
Defined.

Lemma cap_drops_nothing_witness :
  ∃ t', type_Cap price_hash first_local three_left no_code 15 (index_of four_txs) = Ret ([], t') ∧ length (index_txs t') = 5%nat.
Proof.
  destruct (cap_drops_nothing price_hash first_local three_left no_code 15 (index_of four_txs) (priced_tx ActionAddVote 20)) as (t' & tx & E & _ & C);
    [apply four_txs_ok|rewrite (proj2 four_txs_ok); right; right; left|vm_compute; reflexivity|vm_compute; discriminate|].
  exists t'. split; [exact E|]. rewrite C, (proj2 four_txs_ok). reflexivity.
Defined.

(** The kind with the most transactions need not be in front: one that grows stays
    where it is, and [RemoveTx] names a transaction of a smaller kind. *)
Theorem longest_kind_behind :
  map (λ kv, length (kv_value kv)) (index_of [priced_tx ActionTrans 1; priced_tx ActionAddVote 20; priced_tx ActionAddVote 30]) = [1; 2]%nat.
Proof. vm_compute. reflexivity. Qed.
