(* ===== verification/TxPool.v ===== *)
(** * The transaction pool ([core/tx_pool.go])

    The pool keeps the transactions that could go into the next block ([pending]) and
    those that have to wait ([queue]) in a list per sender, all of them by hash
    ([all]), and an index of their prices ([priced]).  Handlers run under the pool's
    lock, so each is one step on the state.  Metrics and logging are left out, but for
    the arguments of the log calls, which are evaluated.  The journal of local
    transactions on the disk is left out too. *)

From S2P Require Import Prelude Interfaces AssetInfo StateTypes StateSample Hex VmData Votes.
From S2P Require Import VmGas VoteCount StateDB Evm Transition Secp TxData Signing.
From S2P Require Import Bloom Blocks Heap TxList TxPriced ManagedState.

(** ** Surroundings *)

(** What the pool asks of transactions and headers: [Transaction.Hash], [Sender] with
    the pool's signer (no address is an error), [Transaction.Size] and [Header.Hash].
    They keep what they compute in the object and their answers do not change. *)
Class PoolTx : Type := {
  tx_Hash : Transaction → hash;
  tx_Sender : Transaction → option address;
  tx_Size : Transaction → Z;
  head_Hash : Header → hash
}.

(** The answers of the code, for a hash function, a curve and the pool's signer. *)
Definition code_pool_tx (keccak : bytes → hash) `{SECP : Secp256k1} (signer : AuroraSigner) : PoolTx := {|
  tx_Hash tx := match Transaction_Hash keccak tx with Ret (h, _) => h | Panic _ => hash0 end;
  tx_Sender tx := match Sender keccak signer tx with Ret (inl from, _) => Some from | _ => None end;
  tx_Size tx := match Transaction_Size tx with Ret (n, _) => n | Panic _ => 0 end;
  head_Hash h := match Header_Hash keccak h with Ret x => x | Panic _ => hash0 end
|}.

(** The pool's view of the state at the head of the chain: what the getters of [StateDB]
    answer. The vote lists are slices, which the pool's check of a vote edits. *)
Record View : Type := mkView {
  v_nonce : address → Z;
  v_balance : address → Z;
  v_lock : address → Z;
  v_asset : address → address → Z;
  v_votes : address → slice;
  v_code : address → Z
}.

(** The interface [blockChain]. *)
Class PoolChain : Type := {
  GetBlock : hash → Z → option Block;
  StateAt : hash → (View * heap) + gerror;
  GetDelegatePoll : gset address + gerror
}.

(** What the Go runtime and the libraries decide: the orders in which maps are visited;
    the order in which a priority queue ([prque]) hands its entries out; [sort.Sort] of
    accounts by their heartbeats; the readings of the clock, in nanoseconds, and the zero
    of [time.Time]; the capacity [append] gives a slice.  [maxElectDelegate] is a global
    that [NewTxPool] sets from the chain's configuration. *)
Class PoolRuntime : Type := {
  range_txs : gmap Z Transaction → list (Z * Transaction);
  range_lists : gmap address txList → list address;
  range_set : gset address → list address;
  prque_order : list (address * Z) → list address;
  sort_beats : list (address * Z) → list (address * Z);
  clock : nat → Z;
  zero_time : Z;
  slice_grow : nat → nat;
  maxElectDelegate : Z
}.

(** [TxPoolConfig]; the fields on the journal are left out. *)
Record TxPoolConfig : Type := mkPoolConfig {
  NoLocals : bool;
  PriceLimit : Z;
  PriceBump : Z;
  AccountSlots : Z;
  GlobalSlots : Z;
  AccountQueue : Z;
  GlobalQueue : Z;
  Lifetime : Z
}.
#[export] Instance eta_TxPoolConfig : Eta TxPoolConfig := λ c,
  mkPoolConfig (NoLocals c) (PriceLimit c) (PriceBump c) (AccountSlots c) (GlobalSlots c) (AccountQueue c) (GlobalQueue c) (Lifetime c).

Definition DefaultTxPoolConfig : TxPoolConfig := mkPoolConfig false 1 10 256 20000 1024 10000 (30 * 60 * 10 ^ 9).
Definition sanitize (conf : TxPoolConfig) : TxPoolConfig :=
  let conf := if PriceLimit conf <? 1 then conf <| PriceLimit := PriceLimit DefaultTxPoolConfig |> else conf in
  if PriceBump conf <? 1 then conf <| PriceBump := PriceBump DefaultTxPoolConfig |> else conf.

Definition maxTrxType : Z := 1000.
Definition MaxOneContractGasLimit : Z := 1000000.

(** [announced] are the transactions sent to [txFeed]; [p_ticks] counts how often the
    clock was read. *)
Record TxPool : Type := mkPool {
  p_config : TxPoolConfig;
  p_gasPrice : Z;
  p_view : View;
  p_heap : heap;
  p_managed : ManagedState;
  p_maxGas : Z;
  p_locals : gset address;
  p_pending : gmap address txList;
  p_queue : gmap address txList;
  p_beats : gmap address Z;
  p_all : gmap hash Transaction;
  p_priced : list KV;
  p_announced : list Transaction;
  p_ticks : nat
}.
#[export] Instance eta_TxPool : Eta TxPool := λ p,
  mkPool (p_config p) (p_gasPrice p) (p_view p) (p_heap p) (p_managed p) (p_maxGas p) (p_locals p) (p_pending p) (p_queue p) (p_beats p)
    (p_all p) (p_priced p) (p_announced p) (p_ticks p).
#[global] Abbreviation PM := (GM TxPool).

Inductive poolerr : Type :=
| errKnown (h : hash)
| errAction (action : Z)
| ErrOversizedData
| ErrNegativeValue
| ErrGasLimit
| errGasOverLimit
| ErrInvalidSender
| ErrUnderpriced
| poolNonceTooLow
| errPoll (e : gerror)
| ErrNickName
| ErrRegister
| errVotes (e : gerror)
| errEmptyVotes
| errVote (e : vote_rejection)
| errTooManyVotes (max : Z)
| errAsset (e : gerror)
| errNoCode
| ErrInsufficientAssetFunds
| ErrInsufficientFunds
| errGas (e : vmerr)
| ErrIntrinsicGas
| ErrFullPending
| ErrReplaceUnderpriced.

Section Pool.
Context `{TX : PoolTx} `{CHAIN : PoolChain} `{JSON : TxJson} `{RT : PoolRuntime}.
(** ** Access *)

Definition nil_list : string := "nil list of transactions".
Definition on_pending {A} (addr : address) (m : GM txList A) : PM A := λ p,
  match p_pending p !! addr with
  | None => Panic nil_list
  | Some l => match m l with Ret (a, l') => Ret (a, p <| p_pending ::= <[addr := l']> |>) | Panic w => Panic w end
  end.
Definition on_queue {A} (addr : address) (m : GM txList A) : PM A := λ p,
  match p_queue p !! addr with
  | None => Panic nil_list
  | Some l => match m l with Ret (a, l') => Ret (a, p <| p_queue ::= <[addr := l']> |>) | Panic w => Panic w end
  end.
Definition on_managed {A} (m : GM ManagedState A) : PM A := λ p,
  match m (p_managed p) with Ret (a, s) => Ret (a, p <| p_managed := s |>) | Panic w => Panic w end.
Definition on_priced {A} (m : GM (list KV) A) : PM A := λ p,
  match m (p_priced p) with Ret (a, t) => Ret (a, p <| p_priced := t |>) | Panic w => Panic w end.
Definition on_votes {A} (m : GM heap A) : PM A := λ p,
  match m (p_heap p) with Ret (a, h) => Ret (a, p <| p_heap := h |>) | Panic w => Panic w end.

(** [from, _ := types.Sender(pool.signer, tx)] *)
Definition from_of (tx : Transaction) : address := default address0 (tx_Sender tx).

Definition now : PM Z := p ← gget; gmodify (λ p, p <| p_ticks ::= S |>);; mret (clock (p_ticks p)).

Fixpoint each {A} (f : A → PM unit) (l : list A) : PM unit :=
  match l with [] => mret tt | a :: l => f a;; each f l end.

(** [pool.locals.contains] and [containsTx] *)
Definition is_local (p : TxPool) (addr : address) : bool := bool_decide (addr ∈ p_locals p).
Definition local_tx (p : TxPool) (tx : Transaction) : bool :=
  match tx_Sender tx with Some addr => is_local p addr | None => false end.

(** [delete(pool.all, hash)] and [pool.priced.RemoveByHash(tx.GetTransactionType(), hash)] *)
Definition forget (tx : Transaction) : PM unit :=
  kind ← lift_outcome (GetTransactionType tx);
  gmodify (λ p, p <| p_all ::= delete (tx_Hash tx) |>);;
  on_priced (RemoveByHash tx_Hash kind (tx_Hash tx)).
Definition forget_all : list Transaction → PM unit := each forget.

(** [pool.priced.Put(tx, pool.currentState)] *)
Definition priced_Put (tx : Transaction) : PM unit :=
  p ← gget; on_priced (type_Put (v_code (p_view p)) tx).
Definition remember (h : hash) (tx : Transaction) : PM unit :=
  gmodify (λ p, p <| p_all ::= <[h := tx]> |>);; priced_Put tx.

(** ** Checks *)

(** [tx.AssetInfo()]: nothing for bytes that are no description; a description without
    a supply makes [big.Int.Set] dereference nil. *)
Definition AssetInfo_of (tx : Transaction) : outcome (option AssetInfo) :=
  if (length (tx_AssetInfo (data tx)) =? 0)%nat then Ret None
  else
    match BytesToAssetInfo (tx_AssetInfo (data tx)) with
    | inr _ => Ret None
    | inl ai => match Supply ai with None => Panic "nil supply" | Some _ => Ret (Some (ai <| Issuer := Some (default address0 (Issuer ai)) |>)) end
    end.

(** The part of [validateTx] that depends on the action. *)
Definition validate_action (tx : Transaction) (from : address) (delegateList : gset address) : PM (option poolerr) :=
  let d := data tx in
  p ← gget;
  if Action d =? ActionRegister then
    mret (if (length (Nickname d) =? 0)%nat then Some ErrNickName else if bool_decide (from ∈ delegateList) then Some ErrRegister else None)
  else if (Action d =? ActionAddVote) || (Action d =? ActionSubVote) then
    let voteCost := if Action d =? ActionAddVote then Amount d else i64 (- Int64 (Amount d)) in
    match BytesToVote (Vote d) with
    | inr err => mret (Some (errVotes err))
    | inl votes =>
      if (length votes =? 0)%nat then mret (Some errEmptyVotes)
      else
        err ← on_votes (validateVote slice_grow (v_votes (p_view p) from) votes delegateList);
        match err with
        | Some e => mret (Some (errVote e))
        | None => mret (if voteCost + v_lock (p_view p) from >? Aoa * maxElectDelegate then Some (errTooManyVotes maxElectDelegate) else None)
        end
    end
  else if Action d =? ActionPublishAsset then
    ai ← lift_outcome (AssetInfo_of tx);
    ai ← lift_outcome (deref ai);
    mret (errAsset <$> ValidateAsset ai)
  else if Action d =? ActionCreateContract then mret (if (length (Payload d) =? 0)%nat then Some errNoCode else None)
  else mret None.

Definition validateTx (tx : Transaction) (local : bool) : PM (option poolerr) :=
  let d := data tx in
  p ← gget;
  if Action d >? ActionCallContract then mret (Some (errAction (Action d)))
  else if tx_Size tx >? 32 * 1024 then mret (Some ErrOversizedData)
  else if Amount d <? 0 then mret (Some ErrNegativeValue)
  else if p_maxGas p <? Gas tx then mret (Some ErrGasLimit)
  else if MaxOneContractGasLimit <? Gas tx then mret (Some errGasOverLimit)
  else
    match tx_Sender tx with
    | None => mret (Some ErrInvalidSender)
    | Some from =>
      let local := local || is_local p from in
      if negb local && (p_gasPrice p >? GasPrice tx) then mret (Some ErrUnderpriced)
      else if v_nonce (p_view p) from >? Nonce tx then mret (Some poolNonceTooLow)
      else
        match GetDelegatePoll with
        | inr err => mret (Some (errPoll err))
        | inl delegateList =>
          err ← validate_action tx from delegateList;
          match err with
          | Some err => mret (Some err)
          | None =>
            let poor := match Asset d with Some a => bool_decide (a ≠ address0) && (v_asset (p_view p) from a <? Amount d) | None => false end in
            if poor then mret (Some ErrInsufficientAssetFunds)
            else if v_balance (p_view p) from <? AoaCost tx then mret (Some ErrInsufficientFunds)
            else
              match IntrinsicGas (Payload d) (Action d) with
              | inr err => mret (Some (errGas err))
              | inl intrGas => mret (if Gas tx <? intrGas then Some ErrIntrinsicGas else None)
              end
          end
        end
    end.

(** ** Moving transactions *)

(** A list of the queue may be new. *)
Definition ensure_queue (from : address) : PM unit := gmodify (λ p,
  match p_queue p !! from with None => p <| p_queue ::= <[from := newTxList false]> |> | Some _ => p end).
Definition ensure_pending (addr : address) : PM unit := gmodify (λ p,
  match p_pending p !! addr with None => p <| p_pending ::= <[addr := newTxList true]> |> | Some _ => p end).

Definition forget_old (old : option Transaction) : PM unit :=
  match old with Some old => forget old | None => mret tt end.

Definition enqueueTx (h : hash) (tx : Transaction) : PM (bool + poolerr) :=
  let from := from_of tx in
  ensure_queue from;;
  p ← gget;
  '(inserted, old) ← on_queue from (tl_Add tx (PriceBump (p_config p)));
  if negb inserted then mret (inr ErrReplaceUnderpriced)
  else
    forget_old old;;
    remember h tx;;
    mret (inl (bool_decide (is_Some old))).
Definition enqueue (tx : Transaction) : PM unit := enqueueTx (tx_Hash tx) tx;; mret tt.

Definition promoteTx (addr : address) (h : hash) (tx : Transaction) : PM unit :=
  ensure_pending addr;;
  p ← gget;
  '(inserted, old) ← on_pending addr (tl_Add tx (PriceBump (p_config p)));
  if negb inserted then
    kind ← lift_outcome (GetTransactionType tx);
    gmodify (λ p, p <| p_all ::= delete h |>);;
    on_priced (RemoveByHash tx_Hash kind h)
  else
    forget_old old;;
    p ← gget;
    (if bool_decide (is_Some (p_all p !! h)) then mret tt else remember h tx);;
    t ← now;
    gmodify (λ p, p <| p_beats ::= <[addr := t]> |>);;
    on_managed (ms_SetNonce addr (u64 (Nonce tx + 1)));;
    gmodify (λ p, p <| p_announced ::= (.++ [tx]) |>).

(** [if nonce := tx.Nonce(); pool.pendingState.GetNonce(addr) > nonce] *)
Definition lower_nonce (addr : address) (nonce : Z) : PM unit :=
  n ← on_managed (ms_GetNonce addr);
  if n >? nonce then on_managed (ms_SetNonce addr nonce) else mret tt.

Definition queue_done (addr : address) : PM unit := gmodify (λ p,
  match p_queue p !! addr with Some l => if tl_Empty l then p <| p_queue ::= delete addr |> else p | None => p end).
Definition pending_done (addr : address) : PM unit := gmodify (λ p,
  match p_pending p !! addr with
  | Some l => if tl_Empty l then p <| p_pending ::= delete addr |> <| p_beats ::= delete addr |> else p
  | None => p
  end).

(** The part of [removeTx] on the pending list; whether the transaction was there. *)
Definition remove_pending (addr : address) (tx : Transaction) : PM bool :=
  p ← gget;
  match p_pending p !! addr with
  | None => mret false
  | Some _ =>
    '(removed, invalids) ← on_pending addr (tl_Remove range_txs tx);
    if negb removed then mret false
    else
      p ← gget;
      (if from_option tl_Empty true (p_pending p !! addr) then pending_done addr else each enqueue invalids);;
      lower_nonce addr (Nonce tx);;
      mret true
  end.
Definition remove_queued (addr : address) (tx : Transaction) : PM unit :=
  p ← gget;
  match p_queue p !! addr with
  | None => mret tt
  | Some _ => on_queue addr (tl_Remove range_txs tx);; queue_done addr
  end.
Definition removeTx (h : hash) : PM unit :=
  p ← gget;
  match p_all p !! h with
  | None => mret tt
  | Some tx =>
    let addr := from_of tx in
    kind ← lift_outcome (GetTransactionType tx);
    gmodify (λ p, p <| p_all ::= delete h |>);;
    on_priced (RemoveByHash tx_Hash kind h);;
    removed ← remove_pending addr tx;
    if removed : bool then mret tt else remove_queued addr tx
  end.
Definition remove_listed (tx : Transaction) : PM unit := removeTx (tx_Hash tx).

(** ** Promotion *)

Definition promote_one (addr : address) (tx : Transaction) : PM unit := promoteTx addr (tx_Hash tx) tx.

(** One turn of the first loop of [promoteExecutables]. *)
Definition promote_account (addr : address) : PM unit :=
  p ← gget;
  match p_queue p !! addr with
  | None => mret tt
  | Some _ =>
    old ← on_queue addr (tl_Forward (v_nonce (p_view p) addr));
    forget_all old;;
    '(drops, _) ← on_queue addr (tl_Filter range_txs (v_balance (p_view p) addr) (p_maxGas p));
    forget_all drops;;
    next ← on_managed (ms_GetNonce addr);
    ready ← on_queue addr (tl_Ready next);
    each (promote_one addr) ready;;
    (if is_local p addr then mret tt
     else caps ← on_queue addr (tl_Cap (i64 (AccountQueue (p_config p)))); forget_all caps);;
    queue_done addr
  end.

(** (The 64-bit counters count transactions in memory and do not overflow.) *)
Definition count_lists (lists : gmap address txList) : Z := map_fold (λ _ l n, Z.of_nat (tl_Len l) + n) 0 lists.
Definition pending_len (addr : address) : PM Z :=
  p ← gget; match p_pending p !! addr with Some l => mret (Z.of_nat (tl_Len l)) | None => gpanic nil_list end.

(** An offender loses its last transaction. *)
Definition cap_offender (addr : address) : PM unit :=
  n ← pending_len addr;
  drops ← on_pending addr (tl_Cap (n - 1));
  each (λ tx, forget tx;; lower_nonce addr (Nonce tx)) drops.
(** All of them do. *)
Fixpoint cap_offenders (offenders : list address) (pending : Z) : PM Z :=
  match offenders with
  | [] => mret pending
  | addr :: offenders => cap_offender addr;; cap_offenders offenders (pending - 1)
  end.
(** Until there is room or the last of them is down to the threshold.  Each turn lowers
    [pending]. *)
Fixpoint equalize (fuel : nat) (offenders : list address) (threshold : Z) (pending : Z) : PM Z :=
  match fuel with
  | O => mret pending
  | S fuel =>
    p ← gget;
    if pending >? GlobalSlots (p_config p) then
      match last offenders with
      | None => gpanic "index out of range"
      | Some watched =>
        n ← pending_len watched;
        if n >? threshold then pending ← cap_offenders offenders pending; equalize fuel offenders threshold pending
        else mret pending
      end
    else mret pending
  end.
(** The offenders are taken one by one, the worst first. *)
Fixpoint penalize (spammers : list address) (offenders : list address) (pending : Z) : PM (list address * Z) :=
  match spammers with
  | [] => mret (offenders, pending)
  | offender :: spammers =>
    p ← gget;
    if pending >? GlobalSlots (p_config p) then
      pending ← (if (0 <? length offenders)%nat then
                   threshold ← pending_len offender;
                   equalize (Z.to_nat pending) offenders threshold pending
                 else mret pending);
      penalize spammers (offenders ++ [offender]) pending
    else mret (offenders, pending)
  end.
Definition truncate_pending : PM unit :=
  p ← gget;
  let pending := count_lists (p_pending p) in
  if pending >? GlobalSlots (p_config p) then
    let spammers := omap (λ addr,
      l ← p_pending p !! addr;
      if negb (is_local p addr) && (Z.of_nat (tl_Len l) >? AccountSlots (p_config p)) then Some (addr, Z.of_nat (tl_Len l)) else None)
      (range_lists (p_pending p)) in
    '(offenders, pending) ← penalize (prque_order spammers) [] pending;
    (if (pending >? GlobalSlots (p_config p)) && (0 <? length offenders)%nat
     then equalize (Z.to_nat pending) offenders (AccountSlots (p_config p)) pending;; mret tt
     else mret tt)
  else mret tt.

(** The accounts with the latest heartbeat lose their queues first. *)
Fixpoint drop_queued (addresses : list address) (drop : Z) : PM unit :=
  match addresses with
  | [] => mret tt
  | addr :: addresses =>
    if drop >? 0 then
      p ← gget;
      match p_queue p !! addr with
      | None => gpanic nil_list
      | Some l =>
        let size := Z.of_nat (tl_Len l) in
        txs ← on_queue addr (tl_Flatten range_txs);
        if size <=? drop then each remove_listed txs;; drop_queued addresses (drop - size)
        else each remove_listed (take (Z.to_nat drop) (rev txs))
      end
    else mret tt
  end.
Definition truncate_queue : PM unit :=
  p ← gget;
  let queued := count_lists (p_queue p) in
  if queued >? GlobalQueue (p_config p) then
    let addresses := omap (λ addr, if is_local p addr then None else Some (addr, default zero_time (p_beats p !! addr))) (range_lists (p_queue p)) in
    drop_queued (rev (sort_beats addresses).*1) (queued - GlobalQueue (p_config p))
  else mret tt.

Definition promoteExecutables (accounts : option (list address)) : PM unit :=
  p ← gget;
  each promote_account (default (range_lists (p_queue p)) accounts);;
  truncate_pending;;
  truncate_queue.

(** ** Demotion *)

Definition demote_account (addr : address) : PM unit :=
  p ← gget;
  let nonce := v_nonce (p_view p) addr in
  old ← on_pending addr (tl_Forward nonce);
  forget_all old;;
  '(drops, invalids) ← on_pending addr (tl_Filter range_txs (v_balance (p_view p) addr) (p_maxGas p));
  forget_all drops;;
  each enqueue invalids;;
  p ← gget;
  (if from_option (λ l, negb (tl_Empty l) && negb (bool_decide (is_Some (tm_Get nonce (tl_txs l))))) false (p_pending p !! addr)
   then gap ← on_pending addr (tl_Cap 0); each enqueue gap
   else mret tt);;
  pending_done addr.
Definition demoteUnexecutables : PM unit := p ← gget; each demote_account (range_lists (p_pending p)).

(** ** Adding *)

(** [sort.Sort(txList)] and the last of it. *)
Definition cheapest_of (kind : address) : GM (list KV) hash :=
  t ← gget;
  match sorter_Get kind t ≫= (λ i, pair i <$> t !! i) with
  | None => gpanic nil_list
  | Some (i, kv) =>
    let value := merge_sort dearer (kv_value kv) in
    gmodify (λ t, <[i := kv <| kv_value := value |>]> t);;
    match last value with Some tx => mret (tx_Hash tx) | None => gpanic "index out of range" end
  end.

(** The transaction that has to make room for [tx] in a full pool, by its hash. *)
Definition make_room (tx : Transaction) (kind : address) : PM (hash + poolerr) :=
  p ← gget;
  match sorter_Get kind (p_priced p) with
  | None =>
    if Z.of_nat (length (p_priced p)) >? maxTrxType then mret (inr ErrFullPending)
    else h ← on_priced (RemoveTx tx_Hash); mret (inl h)
  | Some _ =>
    under ← on_priced (type_Underpriced tx_Hash (p_all p) tx);
    if under : bool then mret (inr ErrUnderpriced)
    else h ← on_priced (cheapest_of kind); mret (inl h)
  end.

(** The rest of [add], once there is room. *)
Definition insert_tx (tx : Transaction) (local : bool) : PM (bool + poolerr) :=
  let from := from_of tx in
  p ← gget;
  if from_option (tl_Overlaps tx) false (p_pending p !! from) then
    '(inserted, old) ← on_pending from (tl_Add tx (PriceBump (p_config p)));
    if negb inserted then mret (inr ErrReplaceUnderpriced)
    else
      forget_old old;;
      remember (tx_Hash tx) tx;;
      gmodify (λ p, p <| p_announced ::= (.++ [tx]) |>);;
      mret (inl (bool_decide (is_Some old)))
  else
    r ← enqueueTx (tx_Hash tx) tx;
    match r with
    | inr err => mret (inr err)
    | inl replace =>
      (if local then gmodify (λ p, p <| p_locals ::= ({[from]} ∪.) |>) else mret tt);;
      mret (inl replace)
    end.

Definition pool_add (tx : Transaction) (local : bool) : PM (bool + poolerr) :=
  (* the log line asks for the address of the recipient *)
  _ ← lift_outcome (deref (Recipient (data tx)));
  kind ← lift_outcome (GetTransactionType tx);
  let h := tx_Hash tx in
  p ← gget;
  if bool_decide (is_Some (p_all p !! h)) then mret (inr (errKnown h))
  else
    err ← validateTx tx local;
    match err with
    | Some err => mret (inr err)
    | None =>
      p ← gget;
      if Z.of_nat (base.size (p_all p)) >=? u64 (GlobalQueue (p_config p) + GlobalSlots (p_config p)) then
        r ← make_room tx kind;
        match r with
        | inr err => mret (inr err)
        | inl victim => removeTx victim;; insert_tx tx local
        end
      else insert_tx tx local
    end.

Definition addTx (tx : Transaction) (local : bool) : PM (option poolerr) :=
  r ← pool_add tx local;
  match r with
  | inr err => mret (Some err)
  | inl replace => (if replace : bool then mret tt else promoteExecutables (Some [from_of tx]));; mret None
  end.

Fixpoint add_each (txs : list Transaction) (local : bool) (dirty : gset address) : PM (list (option poolerr) * gset address) :=
  match txs with
  | [] => mret ([], dirty)
  | tx :: txs =>
    r ← pool_add tx local;
    let dirty := match r with inl false => {[from_of tx]} ∪ dirty | _ => dirty end in
    '(errs, dirty) ← add_each txs local dirty;
    mret ((match r with inr err => Some err | inl _ => None end) :: errs, dirty)
  end.
Definition addTxsLocked (txs : list Transaction) (local : bool) : PM (list (option poolerr)) :=
  '(errs, dirty) ← add_each txs local ∅;
  (if bool_decide (dirty = ∅) then mret tt else promoteExecutables (Some (range_set dirty)));;
  mret errs.

Definition AddLocal (tx : Transaction) : PM (option poolerr) := p ← gget; addTx tx (negb (NoLocals (p_config p))).
Definition AddRemote (tx : Transaction) : PM (option poolerr) := addTx tx false.
Definition AddLocals (txs : list Transaction) : PM (list (option poolerr)) := p ← gget; addTxsLocked txs (negb (NoLocals (p_config p))).
Definition AddRemotes (txs : list Transaction) : PM (list (option poolerr)) := addTxsLocked txs false.

(** ** The price limit *)

Definition SetGasPrice (price : Z) : PM unit :=
  gmodify (λ p, p <| p_gasPrice := price |>);;
  p ← gget;
  drops ← on_priced (type_Cap tx_Hash (local_tx p) (p_all p) (v_code (p_view p)) price);
  each remove_listed drops.

(** ** A new head *)

(** What a walk back along a chain finds: the transactions on the way and where it ended,
    or a block that is missing. *)
Definition parent_of (b : Block) : option Block := GetBlock (ParentHash (header b)) (u64 (Uint64 (Number (header b)) - 1)).
Definition NumberU64 (b : Block) : Z := Uint64 (Number (header b)).
Definition diverges : string := "the walk does not end".

(** [for b.NumberU64() > other.NumberU64()] *)
Fixpoint walk_down (fuel : nat) (b : Block) (height : Z) (txs : list Transaction) : outcome (option (Block * list Transaction)) :=
  if NumberU64 b >? height then
    match fuel with
    | O => Panic diverges
    | S fuel =>
      match parent_of b with
      | None => Ret None
      | Some b' => walk_down fuel b' height (txs ++ transactions b)
      end
    end
  else Ret (Some (b, txs)).
(** [for rem.Hash() != add.Hash()] *)
Fixpoint walk_both (fuel : nat) (rem add : Block) (discarded included : list Transaction) : outcome (option (list Transaction * list Transaction)) :=
  if bool_decide (head_Hash (header rem) = head_Hash (header add)) then Ret (Some (discarded, included))
  else
    match fuel with
    | O => Panic diverges
    | S fuel =>
      match parent_of rem with
      | None => Ret None
      | Some rem' =>
        match parent_of add with
        | None => Ret None
        | Some add' => walk_both fuel rem' add' (discarded ++ transactions rem) (included ++ transactions add)
        end
      end
    end.

(** [types.TxDifference] *)
Definition tx_difference (a b : list Transaction) : list Transaction :=
  base.filter (λ tx, tx_Hash tx ∉ tx_Hash <$> b) a.

(** The transactions of the blocks that are no longer on the chain; nothing if a block
    is missing.  (The depth is a difference of floating point numbers, which is exact for
    numbers of blocks below 2^53.) *)
Definition reinjected (oldHead : option Header) (newHead : Header) : outcome (option (list Transaction)) :=
  match oldHead with
  | None => Ret (Some [])
  | Some oldHead =>
    if bool_decide (head_Hash oldHead = ParentHash newHead) then Ret (Some [])
    else
      let oldNum := Uint64 (Number oldHead) in
      let newNum := Uint64 (Number newHead) in
      if Z.abs (oldNum - newNum) >? 64 then Ret (Some [])
      else
        rem ← deref (GetBlock (head_Hash oldHead) oldNum);
        add ← deref (GetBlock (head_Hash newHead) newNum);
        r ← walk_down 64 rem (NumberU64 add) [];
        match r with
        | None => Ret None
        | Some (rem, discarded) =>
          r ← walk_down 64 add (NumberU64 rem) [];
          match r with
          | None => Ret None
          | Some (add, included) =>
            r ← walk_both (S (Z.to_nat (NumberU64 rem))) rem add discarded included;
            match r with
            | None => Ret None
            | Some (discarded, included) => Ret (Some (tx_difference discarded included))
            end
          end
        end
  end.

Definition set_pending_nonce (addr : address) : PM unit :=
  txs ← on_pending addr (tl_Flatten range_txs);
  match last txs with
  | Some tx => on_managed (ms_SetNonce addr (u64 (Nonce tx + 1)))
  | None => gpanic "index out of range"
  end.

Definition pool_reset (oldHead : option Header) (newHead : Header) : PM unit :=
  reinject ← lift_outcome (reinjected oldHead newHead);
  match reinject with
  | None => mret tt
  | Some reinject =>
    match StateAt (Root newHead) with
    | inr _ => mret tt
    | inl (view, h) =>
      gmodify (λ p, p <| p_view := view |> <| p_heap := h |> <| p_managed := ManageState (v_nonce view) |> <| p_maxGas := h_GasLimit newHead |>);;
      addTxsLocked reinject false;;
      demoteUnexecutables;;
      p ← gget;
      each set_pending_nonce (range_lists (p_pending p));;
      promoteExecutables None
    end
  end.

(** [NewTxPool], before the journal and the event loop.  A new pool has no state until it
    is reset; what is here in its place is not read. *)
Definition empty_pool (config : TxPoolConfig) : TxPool :=
  mkPool config (PriceLimit config) (mkView (λ _, 0) (λ _, 0) (λ _, 0) (λ _ _, 0) (λ _, mkSlice 0 0) (λ _, 0)) (mkHeap ∅ 1) (ManageState (λ _, 0)) 0 ∅ ∅ ∅ ∅ ∅ [] [] 0.
Definition NewTxPool (config : TxPoolConfig) (head : Header) : outcome TxPool :=
  '(_, p) ← pool_reset None head (empty_pool (sanitize config)); Ret p.

(** ** Eviction *)

(** [time.Since], which ends at the greatest duration. *)
Definition time_Since (t : Z) : PM Z := n ← now; mret (Z.min (n - t) (2 ^ 63 - 1)).

Definition evict_pending (addr : address) : PM unit :=
  p ← gget;
  age ← time_Since (default zero_time (p_beats p !! addr));
  if age >? Lifetime (p_config p) then txs ← on_pending addr (tl_Flatten range_txs); each remove_listed txs else mret tt.
Definition evict_queued (addr : address) : PM unit :=
  p ← gget;
  age ← time_Since (default zero_time (p_beats p !! addr));
  if age >? Lifetime (p_config p) then txs ← on_queue addr (tl_Flatten range_txs); each remove_listed txs else mret tt.
(** What the index has and the pool does not leaves the index. *)
Definition forget_stale (tx : Transaction) : PM unit :=
  p ← gget;
  if bool_decide (is_Some (p_all p !! tx_Hash tx)) then mret tt
  else kind ← lift_outcome (GetTransactionType tx); on_priced (RemoveByHash tx_Hash kind (tx_Hash tx)).

(** The case [<-evict.C] of [loop]. *)
Definition evict_tick : PM unit :=
  p ← gget;
  each evict_pending (range_lists (p_pending p));;
  p ← gget;
  each evict_queued (range_lists (p_queue p));;
  p ← gget;
  if (TxNum (p_priced p) =? base.size (p_all p))%nat then mret tt
  else each forget_stale (GetTransactionList (p_priced p)).

(** ** Reading *)

Definition pool_Get (h : hash) (p : TxPool) : option Transaction := p_all p !! h.
Definition stats (p : TxPool) : Z * Z :=
  (count_lists (p_pending p), count_lists (p_queue p)).
Inductive TxStatus : Type := TxStatusUnknown | TxStatusQueued | TxStatusPending.
Definition status_of (p : TxPool) (h : hash) : TxStatus :=
  match p_all p !! h with
  | None => TxStatusUnknown
  | Some tx =>
    if from_option (λ l, bool_decide (is_Some (tm_items (tl_txs l) !! Nonce tx))) false (p_pending p !! from_of tx)
    then TxStatusPending else TxStatusQueued
  end.
Definition Status (hashes : list hash) (p : TxPool) : list TxStatus := status_of p <$> hashes.
(** [Pending]; flattening a list caches its order. *)
Fixpoint flatten_each (addrs : list address) : PM (gmap address (list Transaction)) :=
  match addrs with
  | [] => mret ∅
  | addr :: addrs => txs ← on_pending addr (tl_Flatten range_txs); rest ← flatten_each addrs; mret (<[addr := txs]> rest)
  end.
Definition pool_Pending : PM (gmap address (list Transaction)) := p ← gget; flatten_each (range_lists (p_pending p)).
End Pool.
