(* ===== verification/TxPoolLists.v ===== *)
(** * The lists of the pool

    What each operation of a list of transactions takes out of it. *)

From S2P Require Import Prelude Interfaces StateTypes StateSample VmData Secp TxData Heap.
From S2P Require Import TxList.

#[global] Abbreviation items l := (tm_items (tl_txs l)).

(** [l'] is [l] without the transactions of [R]. *)
Record took (l : txList) (R : list Transaction) (l' : txList) : Prop := mkTook {
  tk_ok : tl_ok l';
  tk_strict : tl_strict l' = tl_strict l;
  tk_sub : items l' ⊆ items l;
  tk_gone tx : tx ∈ R ↔ items l !! Nonce tx = Some tx ∧ items l' !! Nonce tx = None;
  tk_once : NoDup (Nonce <$> R)
}.

Lemma items_nonce l n tx : tl_ok l → items l !! n = Some tx → Nonce tx = n ∧ is_u64 n.
Proof. intros [K _] H. by apply (to_items _ K). Qed.
Lemma items_at l n tx : tl_ok l → items l !! n = Some tx → items l !! Nonce tx = Some tx.
Proof. intros K H. by destruct (items_nonce l n tx K H) as [-> _]. Qed.

Lemma took_nil l : tl_ok l → took l [] l.
Proof.
  intros K. constructor; [done..| |constructor]. intros tx. split; [by intros ?%not_elem_of_nil|]. intros [? ?]. congruence.
Qed.

Lemma took_trans l1 R1 l2 R2 l3 : took l1 R1 l2 → took l2 R2 l3 → took l1 (R1 ++ R2) l3.
Proof.
  intros [K1 S1 U1 G1 N1] [K2 S2 U2 G2 N2]. constructor; [done|congruence|by etrans| |].
  - intros tx. rewrite elem_of_app, G1, G2. split.
    + intros [[? E]|[E ?]]; (split; [|try done]); [done| |by eapply lookup_weaken].
      apply eq_None_not_Some. intros [x Hx]. rewrite (lookup_weaken _ _ _ _ Hx U2) in E. done.
    + intros [H H']. destruct (items l2 !! Nonce tx) as [x|] eqn:E; [right|by left]. split; [|done].
      pose proof (lookup_weaken _ _ _ _ E U1). congruence.
  - rewrite fmap_app. apply NoDup_app. split_and!; [done| |done]. intros n (x & -> & Hx)%list_elem_of_fmap (y & E & Hy)%list_elem_of_fmap.
    apply G1 in Hx as [_ Hx]. apply G2 in Hy as [Hy _]. congruence.
Qed.

Lemma took_nil_items l l' : tl_ok l → took l [] l' → items l' = items l.
Proof.
  intros K [_ _ S G _]. apply map_eq. intros n. destruct (items l !! n) as [x|] eqn:E.
  - destruct (items l' !! n) as [y|] eqn:E'; [by rewrite <- E'; eapply lookup_weaken in E' as E''; [|exact S]; rewrite E', <- E''|].
    exfalso. apply (not_elem_of_nil x), G. destruct (items_nonce l n x K E) as [-> _]. done.
  - apply eq_None_not_Some. intros [y Hy]. pose proof (lookup_weaken _ _ _ _ Hy S). congruence.
Qed.

(** A map restricted to some of its keys, with the others in a list. *)
Lemma took_restrict l l' R (P : Z → Prop) `{∀ n, Decision (P n)} : tl_ok l → tl_ok l' → tl_strict l' = tl_strict l →
  items l' = base.filter (λ q : Z * Transaction, P q.1) (items l) →
  (∀ tx, tx ∈ R ↔ items l !! Nonce tx = Some tx ∧ ¬ P (Nonce tx)) → NoDup (Nonce <$> R) → took l R l'.
Proof.
  intros K K' S E G N. constructor; [done|done|rewrite E; apply map_filter_subseteq| |done].
  intros tx. rewrite G, E, map_lookup_filter_None. cbn. split; intros [Hx Hp]; (split; [done|]); [right; by intros ? _|].
  destruct Hp as [?|Hp]; [congruence|]. by apply (Hp tx).
Qed.

Lemma tl_ok_txs l t : tl_ok l → tm_ok t → tm_items t ⊆ items l → tl_ok (l <| tl_txs := t |>).
Proof. intros [K C] Kt S. constructor; cbn; [done|]. intros n tx Hn. apply (C n). by eapply lookup_weaken. Qed.

(** The transactions at some of the nonces. *)
Lemma elem_txs_at l ns tx : tl_ok l → tx ∈ txs_at (items l) ns ↔ Nonce tx ∈ ns ∧ items l !! Nonce tx = Some tx.
Proof.
  intros K. unfold txs_at. rewrite list_elem_of_omap. split.
  - intros (n & Hn & Hx). destruct (items_nonce l n tx K Hx) as [-> _]. done.
  - intros [? ?]. by exists (Nonce tx).
Qed.
Lemma NoDup_txs_at l ns : tl_ok l → NoDup ns → NoDup (Nonce <$> txs_at (items l) ns).
Proof.
  intros K. induction 1 as [|n ns Hn Hns IH]; [constructor|]. unfold txs_at. cbn. destruct (items l !! n) as [tx|] eqn:E; [|done].
  cbn. constructor; [|done]. destruct (items_nonce l n tx K E) as [-> _]. intros (y & -> & Hy)%list_elem_of_fmap.
  by apply elem_txs_at in Hy as [? _].
Qed.

Section Ops.
Variable range : gmap Z Transaction → list (Z * Transaction).
Hypothesis range_all : ∀ m, range m ≡ₚ map_to_list m.

Lemma tl_Forward_took t l : tl_ok l → ∃ R l', tl_Forward t l = Ret (R, l') ∧ took l R l' ∧ (∀ n, is_Some (items l' !! n) → t ≤ n).
Proof using Type.
  intros K. destruct (tm_Forward_ok t (tl_txs l) (lo_txs _ K)) as (m & E & Km & Ei). eexists _, _. split; [by apply on_txs_run|]. cbn [spec_Forward snd] in Ei.
  split; [apply (took_restrict _ _ _ (λ n, ¬ n < t)); [done| |done|done| |]|].
  - apply tl_ok_txs; [done|done|]. rewrite Ei. apply map_filter_subseteq.
  - intros tx. cbn [spec_Forward fst]. rewrite elem_txs_at by done. rewrite list_elem_of_filter, elem_of_nonces. split; [intros [[? _] ?]; by split; [|lia]|].
    intros [? ?]. split_and!; [lia|by exists tx|done].
  - apply NoDup_txs_at; [done|]. apply NoDup_filter, nonces_NoDup.
  - cbn. rewrite Ei. intros n [tx [_ ?]%map_lookup_filter_Some]. cbn in *. lia.
Qed.

Lemma spec_Filter_took f l t : tl_ok l → tm_ok t → tm_items t = (spec_Filter range f (items l)).2 →
  took l (spec_Filter range f (items l)).1 (l <| tl_txs := t |>).
Proof using range_all.
  intros K Kt Et. assert (S : tm_items t ⊆ items l) by (rewrite Et; apply map_filter_subseteq). constructor; [by apply tl_ok_txs|done|done| |].
  - intros tx. rewrite elem_spec_Filter by done. cbn. rewrite Et. cbn [spec_Filter snd]. rewrite map_lookup_filter_None. cbn. split.
    + intros [Hf [n Hn]]. destruct (items_nonce l n tx K Hn) as [<- _]. split; [done|]. right. intros x Hx ?. congruence.
    + intros [Hx Hp]. split; [|by eexists]. destruct Hp as [?|Hp]; [congruence|]. destruct (f tx) eqn:E; [done|]. exfalso. by apply (Hp tx).
  - cbn [spec_Filter fst]. assert (N : NoDup (Nonce <$> (range (items l)).*2)).
    { rewrite range_all, <- list_fmap_compose. rewrite (list_fmap_ext _ fst); [apply NoDup_fst_map_to_list|].
      intros i [n x] Hx%list_elem_of_lookup_2%elem_of_map_to_list. cbn. by apply (items_nonce l n x K). }
    revert N. induction (range (items l)).*2 as [|x xs IH]; [done|]. cbn. intros [Hn N]%NoDup_cons. destruct (f x); [|by apply IH].
    cbn. constructor; [|by apply IH]. intros (y & E & Hy)%list_elem_of_fmap. apply Hn. rewrite E. apply list_elem_of_fmap. exists y. split; [done|].
    apply list_elem_of_In in Hy. apply filter_In in Hy as [Hy _]. by apply list_elem_of_In.
Qed.

(** [Filter]: the ones that cost too much, then those above them. *)
Lemma tl_Filter_took costLimit gasLimit l : tl_ok l →
  ∃ R I l', tl_Filter range costLimit gasLimit l = Ret ((R, I), l') ∧ took l (R ++ I) l' ∧ (tl_strict l = false → I = []).
Proof using range_all.
  intros K. unfold tl_Filter. erewrite GM_bind_run by reflexivity. destruct (_ && _) eqn:B.
  { exists [], [], l. split_and!; [done|by apply took_nil|done]. }
  clear B. set (over := λ tx : Transaction, (AoaCost tx >? costLimit) || (Gas tx >? gasLimit)). erewrite GM_bind_run by reflexivity.
  set (l0 := l <| tl_costcap := costLimit |> <| tl_gascap := gasLimit |>).
  destruct (tm_Filter_ok range range_all over (tl_txs l) (lo_txs _ K)) as (m1 & E1 & K1 & Ei1). erewrite GM_bind_run by (by apply on_txs_run).
  pose proof (spec_Filter_took over l m1 K K1 Ei1) as T1. set (R := (spec_Filter range over (items l)).1) in *.
  assert (T : took l R (l0 <| tl_txs := m1 |>)).
  { destruct T1 as [_ _ S G N]. constructor; [|done|done|done|done]. constructor; cbn; [done|]. intros n tx Hn. rewrite Ei1 in Hn.
    cbn [spec_Filter snd] in Hn. apply map_lookup_filter_Some in Hn as [_ Ho]. cbn in Ho. unfold over in Ho. apply orb_false_iff in Ho as [? ?].
    destruct (Z.gtb_spec (AoaCost tx) costLimit), (Z.gtb_spec (Gas tx) gasLimit); done || lia. }
  clearbody R. destruct (tl_strict l && (0 <? length R)%nat) eqn:B.
  - destruct (tm_Filter_ok range range_all (λ tx, Nonce tx >? lowest_nonce R) m1 K1) as (m2 & E2 & K2 & Ei2). erewrite GM_bind_run by (by apply on_txs_run).
    eexists R, _, _. split; [reflexivity|]. split; [|intros S; by rewrite S in B]. eapply took_trans; [exact T|].
    exact (spec_Filter_took _ (l0 <| tl_txs := m1 |>) m2 (tk_ok _ _ _ T) K2 Ei2).
  - exists R, []. eexists. split; [reflexivity|]. split; [by rewrite app_nil_r|done].
Qed.

Lemma tl_Cap_took t l : tl_ok l → 0 ≤ t → ∃ R l', tl_Cap t l = Ret (R, l') ∧ took l R l' ∧
  Z.of_nat (tl_Len l') = Z.min t (Z.of_nat (tl_Len l)).
Proof using Type.
  intros K Ht. destruct (tm_Cap_ok t (tl_txs l) (lo_txs _ K) Ht) as (m & E & Km & Ei). eexists _, _. split; [by apply on_txs_run|].
  unfold spec_Cap in *. destruct (Z.leb_spec (Z.of_nat (base.size (items l))) t) as [Hle|Hgt]; cbn [fst snd] in *.
  { split; [|unfold tl_Len, tm_Len; cbn; rewrite Ei; lia]. constructor; [|done|cbn; by rewrite Ei| |constructor].
    - apply tl_ok_txs; [done|done|by rewrite Ei].
    - intros tx. cbn. rewrite Ei. split; [by intros ?%not_elem_of_nil|]. intros [? ?]. congruence. }
  split; [apply (took_restrict _ _ _ (λ n, n ∈ take (Z.to_nat t) (nonces (items l)))); [done| |done|done| |]|].
  - apply tl_ok_txs; [done|done|]. rewrite Ei. apply map_filter_subseteq.
  - intros tx. rewrite elem_of_reverse, elem_txs_at by done. pose proof (nonces_NoDup (items l)) as N.
    rewrite <- (take_drop (Z.to_nat t) (nonces (items l))) in N at 1. apply NoDup_app in N as (_ & D & _). split.
    + intros [Hn Hx]. split; [done|]. intros Hin. by apply (D _ Hin).
    + intros [Hx Hn]. split; [|done]. assert (Hin : Nonce tx ∈ nonces (items l)) by (apply elem_of_nonces; by exists tx).
      rewrite <- (take_drop (Z.to_nat t) (nonces (items l))) in Hin. apply elem_of_app in Hin as [?|?]; [done|done].
  - rewrite fmap_reverse, reverse_Permutation. apply NoDup_txs_at; [done|]. eapply sublist_NoDup; [apply nonces_NoDup|apply sublist_drop].
  - unfold tl_Len, tm_Len. cbn. rewrite Ei, <- length_nonces, <- kept_nonces, length_take, length_nonces. lia.
Qed.

Lemma tl_Ready_took start l : tl_ok l → ∃ R l', tl_Ready start l = Ret (R, l') ∧ took l R l'.
Proof using Type.
  intros K. destruct (tm_Ready_ok start (tl_txs l) (lo_txs _ K)) as (m & E & Km & Ei). eexists _, _. split; [by apply on_txs_run|]. cbn [spec_Ready snd] in Ei.
  apply (took_restrict _ _ _ (λ n, n ∉ ready_nonces start (items l))); [done| |done|done| |].
  - apply tl_ok_txs; [done|done|]. rewrite Ei. apply map_filter_subseteq.
  - intros tx. cbn [spec_Ready fst]. rewrite elem_txs_at by done. split; [intros [? ?]; by split; [|intros ?]|].
    intros [? Hn]. split; [|done]. destruct (decide (Nonce tx ∈ ready_nonces start (items l))); [done|by destruct Hn].
  - apply NoDup_txs_at; [done|]. unfold ready_nonces. pose proof (nonces_NoDup (items l)) as N. destruct (nonces (items l)) as [|n ns] eqn:En; [constructor|].
    destruct (n >? start); [constructor|]. clear En. revert N. generalize (n :: ns). intros xs. generalize n as k. clear. induction xs as [|x xs IH]; intros k N; [constructor|].
    cbn. apply NoDup_cons in N as [Hx N]. destruct (x =? k); [|constructor]. constructor; [|by apply IH]. intros Hin. apply Hx. by eapply consecutive_sub.
Qed.

(** One transaction out of a list. *)
Lemma remove_one l x : tl_ok l → items l !! Nonce x = Some x →
  ∃ t, tm_ok t ∧ tm_items t = delete (Nonce x) (items l) ∧ took l [x] (l <| tl_txs := t |>).
Proof using Type.
  intros K Ex. destruct (tm_Remove_ok (Nonce x) (tl_txs l) (lo_txs _ K)) as (m & E & Km & Ei). cbn [spec_Remove snd] in Ei. exists m. split_and!; [done|done|].
  constructor; [|done|cbn; rewrite Ei; apply delete_subseteq| |by apply NoDup_singleton].
  { apply tl_ok_txs; [done|done|rewrite Ei; apply delete_subseteq]. }
  intros y. cbn. rewrite Ei, list_elem_of_singleton. split.
  - intros ->. split; [done|apply lookup_delete_eq].
  - intros [Hy Hd]. destruct (decide (Nonce x = Nonce y)) as [D|D]; [rewrite <- D in Hy; congruence|]. rewrite lookup_delete_ne in Hd by done. congruence.
Qed.

(** [Remove]: what is at the nonce, then what is above it in a strict list. *)
Lemma tl_Remove_took tx l : tl_ok l →
  match items l !! Nonce tx with
  | None => ∃ l', tl_Remove range tx l = Ret ((false, []), l') ∧ took l [] l'
  | Some x => ∃ I l', tl_Remove range tx l = Ret ((true, I), l') ∧ took l (x :: I) l' ∧ (tl_strict l = false → I = []) ∧ items l' !! Nonce tx = None
  end.
Proof using range_all.
  intros K. unfold tl_Remove. destruct (tm_Remove_ok (Nonce tx) (tl_txs l) (lo_txs _ K)) as (m & E & Km & Ei).
  erewrite GM_bind_run by (by apply on_txs_run). unfold spec_Remove in *. cbn [fst snd] in *.
  assert (K1 : tl_ok (l <| tl_txs := m |>)) by (apply tl_ok_txs; [done|done|rewrite Ei; apply delete_subseteq]).
  destruct (items l !! Nonce tx) as [x|] eqn:Ex.
  - rewrite bool_decide_eq_true_2 by (by exists x). erewrite GM_bind_run by reflexivity. destruct (items_nonce l _ x K Ex) as [En _].
    assert (T : took l [x] (l <| tl_txs := m |>)).
    { constructor; [done|done|cbn; rewrite Ei; apply delete_subseteq| |by apply NoDup_singleton]. intros y. cbn. rewrite Ei, list_elem_of_singleton. split.
      - intros ->. rewrite En. split; [done|apply lookup_delete_eq].
      - intros [Hy Hd]. destruct (decide (Nonce tx = Nonce y)) as [D|D]; [rewrite <- D in Hy; congruence|]. rewrite lookup_delete_ne in Hd by done. congruence. }
    assert (Hnone : tm_items m !! Nonce tx = None) by (rewrite Ei; apply lookup_delete_eq).
    change (tl_strict (l <| tl_txs := m |>)) with (tl_strict l). destruct (tl_strict l).
    + destruct (tm_Filter_ok range range_all (λ y, Nonce y >? Nonce tx) m Km) as (m2 & E2 & K2 & Ei2). erewrite GM_bind_run by (by apply on_txs_run).
      eexists _, _. split; [reflexivity|]. split_and!; [|done|].
      * change (x :: ?I) with ([x] ++ I). eapply took_trans; [exact T|]. exact (spec_Filter_took _ (l <| tl_txs := m |>) m2 K1 K2 Ei2).
      * cbn. rewrite Ei2. cbn [spec_Filter snd]. apply map_lookup_filter_None. by left.
    + exists []. eexists. split; [reflexivity|]. by split_and!.
  - rewrite bool_decide_eq_false_2 by (by intros [? ?]). eexists. split; [reflexivity|]. rewrite delete_id in Ei by done.
    constructor; [done|done|cbn; by rewrite Ei| |constructor]. intros y. cbn. rewrite Ei. split; [by intros ?%not_elem_of_nil|]. intros [? ?]. congruence.
Qed.

Lemma tl_Flatten_same l : tl_ok l → ∃ l', tl_Flatten range l = Ret (sorted_txs (items l), l') ∧ took l [] l' ∧ items l' = items l.
Proof using range_all.
  intros K. destruct (tm_Flatten_ok range (tl_txs l) range_all (lo_txs _ K)) as (m & E & Km & Ei). eexists. split; [by apply on_txs_run|].
  assert (T : took l [] (l <| tl_txs := m |>)); [|done]. constructor; [apply tl_ok_txs; [done|done|by rewrite Ei]|done|cbn; by rewrite Ei| |constructor].
  intros y. cbn. rewrite Ei. split; [by intros ?%not_elem_of_nil|]. intros [? ?]. congruence.
Qed.
Lemma elem_sorted_txs l tx : tl_ok l → tx ∈ sorted_txs (items l) ↔ items l !! Nonce tx = Some tx.
Proof using Type.
  intros K. unfold sorted_txs. rewrite elem_txs_at by done. rewrite elem_of_nonces. split; [by intros [_ ?]|]. intros ?. split; [by eexists|done].
Qed.
End Ops.
