(* ===== verification/TxPoolBooks.v ===== *)
(** * The pool keeps its books

    Every transaction of a list is known by its hash and is in the price index, and the
    lists of an account hold it at most once.  The invariant allows for transactions
    that have been taken out of a list and not yet been put elsewhere. *)

From S2P Require Import Prelude Interfaces AssetInfo StateTypes StateSample Hex VmData Votes.
From S2P Require Import VmGas VoteCount StateDB Evm Transition Secp TxData Signing.
From S2P Require Import Bloom Blocks Heap TxList TxPriced ManagedState TxPool TxPoolLists.

Section Filed.
Context `{TX : PoolTx}.
Implicit Types (P Q : gmap address txList) (A : gmap hash Transaction) (L R : list Transaction) (a : address).

(** The transactions of an account in a map of lists. *)
Definition txs_of (P : gmap address txList) (a : address) : gmap Z Transaction := from_option (λ l, items l) ∅ (P !! a).
Definition place (tx : Transaction) : address * Z := (from_of tx, Nonce tx).

(** A list of an account. *)
Record list_of (strict : bool) (a : address) (l : txList) : Prop := mkListOf {
  lf_ok : tl_ok l;
  lf_strict : tl_strict l = strict;
  lf_from n tx : items l !! n = Some tx → from_of tx = a
}.

(** [L] are the transactions that are known but in no list. *)
Record filed_as (s1 s2 : bool) (L : list Transaction) (P Q : gmap address txList) (A : gmap hash Transaction) : Prop := mkFiled {
  fl_pending : map_Forall (list_of s1) P;
  fl_queue : map_Forall (list_of s2) Q;
  fl_apart a n : is_Some (txs_of P a !! n) → txs_of Q a !! n = None;
  fl_known a n tx : txs_of P a !! n = Some tx ∨ txs_of Q a !! n = Some tx → A !! tx_Hash tx = Some tx;
  fl_limbo tx : tx ∈ L → A !! tx_Hash tx = Some tx ∧ txs_of P (from_of tx) !! Nonce tx = None ∧ txs_of Q (from_of tx) !! Nonce tx = None;
  fl_once : NoDup (place <$> L)
}.

Context {s1 s2 : bool}.
#[local] Abbreviation filed := (filed_as s1 s2).

Lemma filed_swap L P Q A : filed L P Q A → filed_as s2 s1 L Q P A.
Proof.
  intros [F1 F2 F3 F4 F5 F6]. constructor; [done|done| | | |done].
  - intros a n [x Hx]. apply eq_None_not_Some. intros Hp. rewrite (F3 a n Hp) in Hx. done.
  - intros a n x Hx. apply (F4 a n). tauto.
  - intros x Hx. destruct (F5 x Hx) as (? & ? & ?). done.
Qed.

Lemma txs_of_insert P a l b : txs_of (<[a := l]> P) b = if decide (a = b) then items l else txs_of P b.
Proof. unfold txs_of. rewrite lookup_insert. by case_decide. Qed.
Lemma txs_of_Some P a l : P !! a = Some l → txs_of P a = items l.
Proof. intros E. unfold txs_of. by rewrite E. Qed.
Lemma txs_of_list P s a n tx : map_Forall (list_of s) P → txs_of P a !! n = Some tx → from_of tx = a ∧ Nonce tx = n.
Proof.
  unfold txs_of. destruct (P !! a) as [l|] eqn:E; cbn; [|by rewrite lookup_empty]. intros F H. destruct (F a l E) as [K _ Hf].
  split; [by eapply Hf|]. by apply (items_nonce l n tx K).
Qed.

(** Whoever is in limbo has a place of its own. *)
Lemma limbo_place L P Q A tx x a n : filed L P Q A → tx ∈ L → txs_of P a !! n = Some x ∨ txs_of Q a !! n = Some x → tx_Hash x ≠ tx_Hash tx.
Proof.
  intros F Hin Hx E. pose proof (fl_known _ _ _ _ _ _ F a n x Hx) as Kx. destruct (fl_limbo _ _ _ _ _ _ F tx Hin) as (Kt & Np & Nq).
  rewrite E, Kt in Kx. injection Kx as ->. destruct Hx as [Hx|Hx].
  - destruct (txs_of_list P s1 a n x (fl_pending _ _ _ _ _ _ F) Hx) as [<- <-]. congruence.
  - destruct (txs_of_list Q s2 a n x (fl_queue _ _ _ _ _ _ F) Hx) as [<- <-]. congruence.
Qed.

Lemma filed_forget tx L P Q A : filed (tx :: L) P Q A → filed L P Q (delete (tx_Hash tx) A).
Proof.
  intros F. pose proof F as [F1 F2 F3 F4 F5 F6]. apply NoDup_cons in F6 as [Hn F6]. constructor; [done..| | |done].
  - intros a n x Hx. rewrite lookup_delete_ne; [by eapply F4|]. intros E. by apply (limbo_place _ _ _ _ tx x a n F (list_elem_of_here _ _) Hx).
  - intros x Hx. destruct (F5 x (list_elem_of_further _ _ _ Hx)) as (K & ? & ?). split_and!; [|done|done]. rewrite lookup_delete_ne; [done|].
    intros E. rewrite <- E in K. destruct (F5 tx (list_elem_of_here _ _)) as (K' & _). rewrite K' in K. injection K as ->.
    apply Hn. by apply list_elem_of_fmap_2.
Qed.

(** A transaction may also be left where it is: known, and in no list. *)
Lemma filed_orphan tx L P Q A : filed (tx :: L) P Q A → filed L P Q A.
Proof. intros [? ? ? ? F5 F6]. apply NoDup_cons in F6 as [_ F6]. constructor; try done. intros x Hx. apply F5. by right. Qed.

Lemma took_fresh s a l R l' : list_of s a l → took l R l' → list_of s a l' ∧ (∀ tx, tx ∈ R → from_of tx = a ∧ items l !! Nonce tx = Some tx ∧ items l' !! Nonce tx = None) ∧
  NoDup (place <$> R).
Proof.
  intros [K S F] [K' S' U G N]. assert (H : ∀ tx, tx ∈ R → from_of tx = a ∧ items l !! Nonce tx = Some tx ∧ items l' !! Nonce tx = None).
  { intros tx [H1 H2]%G. split_and!; [by eapply F|done|done]. }
  split_and!; [|done|].
  - constructor; [done|congruence|]. intros n tx Hn. eapply F. by eapply lookup_weaken.
  - clear -N. induction R as [|x R IH]; [constructor|]. cbn in *. apply NoDup_cons in N as [Hn N]. constructor; [|by apply IH].
    intros (y & E & Hy)%list_elem_of_fmap. apply Hn. apply list_elem_of_fmap. exists y. split; [|done]. by injection E.
Qed.

Lemma filed_take_1 L P Q A a l R l' : filed L P Q A → P !! a = Some l → took l R l' → filed (R ++ L) (<[a := l']> P) Q A.
Proof.
  intros [F1 F2 F3 F4 F5 F6] E T. destruct (took_fresh s1 a l R l' (F1 a l E) T) as (Kl & Hr & Nr).
  assert (Sub : ∀ b n x, txs_of (<[a := l']> P) b !! n = Some x → txs_of P b !! n = Some x).
  { intros b n x. rewrite txs_of_insert. case_decide as D; [subst b|done]. rewrite (txs_of_Some P a l E). intros ?. by eapply lookup_weaken; [|apply T]. }
  assert (SubN : ∀ b n, txs_of P b !! n = None → txs_of (<[a := l']> P) b !! n = None).
  { intros b n Hn. apply eq_None_not_Some. intros [x Hx%Sub]. congruence. }
  constructor; [by apply map_Forall_insert_2|done| | | |].
  - intros b n [x Hx%Sub]. apply F3. by exists x.
  - intros b n x [Hx|Hx]; apply (F4 b n); [left; by apply Sub|by right].
  - intros x [Hx|Hx]%elem_of_app.
    + destruct (Hr x Hx) as (-> & H1 & H2). rewrite <- (txs_of_Some P a l E) in H1. split_and!; [apply (F4 a (Nonce x)); by left| |apply F3; by exists x].
      by rewrite txs_of_insert, decide_True.
    + destruct (F5 x Hx) as (? & ? & ?). split_and!; [done|by apply SubN|done].
  - rewrite fmap_app. apply NoDup_app. split_and!; [done| |done]. intros k (x & -> & Hx)%list_elem_of_fmap (y & Ey & Hy)%list_elem_of_fmap.
    destruct (Hr x Hx) as (Hf & H1 & _). destruct (F5 y Hy) as (_ & H2 & _). unfold place in Ey. injection Ey as Ef En.
    rewrite <- Ef, <- En, Hf, (txs_of_Some P a l E) in H2. congruence.
Qed.

(** A transaction in limbo is put into a list. *)
Lemma filed_put_1 tx L P Q A l l' : filed (tx :: L) P Q A → P !! from_of tx = Some l → tl_ok l' → tl_strict l' = tl_strict l →
  items l' = <[Nonce tx := tx]> (items l) → filed L (<[from_of tx := l']> P) Q A.
Proof.
  intros [F1 F2 F3 F4 F5 F6] E K' S Ei. set (a := from_of tx) in *. apply NoDup_cons in F6 as [Hn F6]. pose proof (F1 a l E) as [Kl Sl Fl].
  destruct (F5 tx (list_elem_of_here _ _)) as (Kt & Np & Nq). change (from_of tx) with a in Np, Nq.
  assert (At : ∀ b n, txs_of (<[a := l']> P) b !! n = if decide (b = a ∧ n = Nonce tx) then Some tx else txs_of P b !! n).
  { intros b n. rewrite txs_of_insert. destruct (decide (a = b)) as [<-|D]; [|by rewrite decide_False by (intros [? _]; congruence)].
    rewrite Ei, lookup_insert, (txs_of_Some P a l E). destruct (decide (Nonce tx = n)) as [<-|D]; [by rewrite decide_True|by rewrite decide_False by (intros [_ ?]; congruence)]. }
  constructor; [apply map_Forall_insert_2; [constructor; [done|congruence|]|done]|done| | | |done].
  - intros n x. rewrite Ei. intros [[<- <-]|[_ Hx]]%lookup_insert_Some; [done|by eapply Fl].
  - intros b n. rewrite At. case_decide as D; [destruct D as [-> ->]; done|]. apply F3.
  - intros b n x. rewrite At. case_decide as D; [|apply F4]. intros [[= <-]|Hx]; [done|]. apply (F4 b n). by right.
  - intros x Hx. destruct (F5 x (list_elem_of_further _ _ _ Hx)) as (? & ? & ?). split_and!; [done| |done]. rewrite At, decide_False; [done|].
    intros [E1 E2]. apply Hn. replace (place tx) with (place x) by (unfold place; by rewrite E1, E2). by apply list_elem_of_fmap_2.
Qed.

(** A list that is empty may come and go. *)
Lemma filed_same_1 L P P' Q A : filed L P Q A → map_Forall (list_of s1) P' → (∀ b, txs_of P' b = txs_of P b) → filed L P' Q A.
Proof.
  intros [F1 F2 F3 F4 F5 F6] F E. constructor; [done|done| | | |done].
  - intros a n. rewrite E. apply F3.
  - intros a n x. rewrite E. apply F4.
  - intros x Hx. rewrite E. by apply F5.
Qed.
Lemma newTxList_of a : list_of s1 a (newTxList s1).
Proof. constructor; [constructor; [apply newTxSortedMap_ok|]|done|]; cbn; intros n tx; by rewrite lookup_empty. Qed.
Lemma filed_ensure_1 L P Q A a : filed L P Q A → P !! a = None → filed L (<[a := newTxList s1]> P) Q A.
Proof.
  intros F E. eapply filed_same_1; [done|apply map_Forall_insert_2; [apply newTxList_of|apply F]|]. intros b. rewrite txs_of_insert.
  case_decide as D; [subst b|done]. unfold txs_of. by rewrite E.
Qed.
Lemma filed_drop_1 L P Q A a l : filed L P Q A → P !! a = Some l → items l = ∅ → filed L (delete a P) Q A.
Proof.
  intros F E Hl. eapply filed_same_1; [done|apply map_Forall_delete, F|]. intros b. unfold txs_of. rewrite lookup_delete.
  case_decide as D; [subst b|done]. by rewrite E.
Qed.

(** A transaction that is in no list need not be known. *)
Lemma filed_unknown tx L P Q A : filed L P Q (<[tx_Hash tx := tx]> A) → A !! tx_Hash tx = None →
  txs_of P (from_of tx) !! Nonce tx ≠ Some tx → txs_of Q (from_of tx) !! Nonce tx ≠ Some tx → tx ∉ L → filed L P Q A.
Proof.
  intros [F1 F2 F3 F4 F5 F6] E Hp Hq Hn. constructor; [done..| | |done].
  - intros a n x Hx. pose proof (F4 a n x Hx) as [[Eh ->]|[_ ?]]%lookup_insert_Some; [exfalso|done]. destruct Hx as [Hx|Hx].
    + destruct (txs_of_list P s1 a n x F1 Hx) as [<- <-]. done.
    + destruct (txs_of_list Q s2 a n x F2 Hx) as [<- <-]. done.
  - intros x Hx. destruct (F5 x Hx) as ([[_ ->]|[_ ?]]%lookup_insert_Some & ? & ?); [done|by split_and!].
Qed.
Lemma filed_orphans R L P Q A : filed (R ++ L) P Q A → filed L P Q A.
Proof. induction R as [|x R IH]; [done|]. intros F. apply IH. by eapply filed_orphan. Qed.
(** The one that was at the place of a transaction is taken out; neither is in a list. *)
Lemma filed_vacate tx x L P Q A : filed (x :: L) P Q (<[tx_Hash tx := tx]> A) → place x = place tx → A !! tx_Hash tx = None → filed L P Q A.
Proof.
  intros F Ep E. pose proof F as [_ _ _ _ F5 F6]. destruct (F5 x (list_elem_of_here _ _)) as (_ & H1 & H2). apply NoDup_cons in F6 as [Hn _].
  unfold place in Ep. injection Ep as E1 E2. rewrite E1, E2 in *. eapply filed_unknown; [by eapply filed_orphan|done|congruence|congruence|].
  intros Hin. apply Hn. unfold place at 1. rewrite E1, E2. by apply (list_elem_of_fmap_2 place).
Qed.

(** A transaction that comes in. *)
Lemma filed_new tx L P Q A : filed L P Q A → A !! tx_Hash tx = None → txs_of P (from_of tx) !! Nonce tx = None → txs_of Q (from_of tx) !! Nonce tx = None →
  place tx ∉ place <$> L → filed (tx :: L) P Q (<[tx_Hash tx := tx]> A).
Proof.
  intros [F1 F2 F3 F4 F5 F6] E Hp Hq Hn. constructor; [done..| | |by constructor].
  - intros a n x Hx. pose proof (F4 a n x Hx). rewrite lookup_insert_ne by congruence. done.
  - intros x [->|Hx]%elem_of_cons; [by rewrite lookup_insert_eq|]. destruct (F5 x Hx) as (? & ? & ?). rewrite lookup_insert_ne by congruence. done.
Qed.

(** A transaction that comes in takes the place of the one that was there. *)
Lemma filed_replace tx P Q A l l' : filed [] P Q A → P !! from_of tx = Some l → A !! tx_Hash tx = None → txs_of Q (from_of tx) !! Nonce tx = None →
  tl_ok l' → tl_strict l' = tl_strict l → items l' = <[Nonce tx := tx]> (items l) →
  filed [] (<[from_of tx := l']> P) Q (<[tx_Hash tx := tx]> (from_option (λ old, delete (tx_Hash old) A) A (items l !! Nonce tx))).
Proof.
  intros F E Ha Hq K' S Ei. pose proof (fl_pending _ _ _ _ _ _ F _ _ E) as [Kl Sl Fl]. destruct (items l !! Nonce tx) as [old|] eqn:Eo; cbn [from_option].
  - destruct (items_nonce l _ old Kl Eo) as [En _]. rewrite <- En in Eo. destruct (remove_one l old Kl Eo) as (t & Kt & Et & Tk).
    pose proof (filed_take_1 _ _ _ _ _ _ _ _ F E Tk) as F1. apply filed_forget in F1. rewrite <- (insert_insert_eq P (from_of tx) l' (l <| tl_txs := t |>)).
    eapply filed_put_1; [|apply lookup_insert_eq|done|by rewrite S|cbn; by rewrite Et, Ei, En, insert_delete_eq]. apply filed_new; [done| | |done|apply not_elem_of_nil].
    + apply lookup_delete_None. by right.
    + rewrite txs_of_insert, decide_True by done. cbn. rewrite Et, En. apply lookup_delete_eq.
  - eapply filed_put_1; [|exact E|done|done|done]. apply filed_new; [done|done|by rewrite (txs_of_Some _ _ _ E)|done|apply not_elem_of_nil].
Qed.
End Filed.

(** ** The price index *)

(** A transaction the pool can hold. *)
Record tx_fine (tx : Transaction) : Prop := mkTxFine {
  tf_kind : ∃ kind, GetTransactionType tx = Ret kind;
  tf_nonce : is_u64 (Nonce tx)
}.

Section Indexed.
Context `{TX : PoolTx}.

(** Every known transaction is known by its hash and has an entry in the index.  (The
    index may have others.) *)
Record indexed (A : gmap hash Transaction) (t : list KV) : Prop := mkIndexed {
  ix_types : types_ok t;
  ix_all h tx : A !! h = Some tx → tx_Hash tx = h ∧ tx_fine tx ∧ tx ∈ index_txs t
}.

Lemma indexed_forget A t tx : indexed A t → A !! tx_Hash tx = Some tx →
  ∃ kind t', GetTransactionType tx = Ret kind ∧ RemoveByHash tx_Hash kind (tx_Hash tx) t = Ret (tt, t') ∧ indexed (delete (tx_Hash tx) A) t'.
Proof.
  intros [K H] E. destruct (H _ _ E) as (_ & [[kind Hk] _] & Hin). destruct (RemoveByHash_ok tx_Hash tx kind t Hk K Hin) as (t' & gone & Er & K' & Hg & P & _).
  exists kind, t'. split_and!; [done|done|]. constructor; [done|]. intros h x [Hne Hx]%lookup_delete_Some. destruct (H h x Hx) as (Eh & ? & Hi).
  split_and!; [done|done|]. rewrite P in Hi. apply elem_of_cons in Hi as [->|Hi]; [congruence|done].
Qed.

Lemma indexed_put A t tx code : indexed A t → tx_fine tx → ∃ t', type_Put code tx t = Ret (tt, t') ∧ indexed (<[tx_Hash tx := tx]> A) t'.
Proof.
  intros [K H] Hf. destruct (tf_kind _ Hf) as [kind Hk]. destruct (type_Put_ok code tx kind t Hk K) as (t' & E & K' & P). exists t'. split; [done|]. constructor; [done|].
  intros h x [[<- <-]|[_ Hx]]%lookup_insert_Some; [split_and!; [done|done|rewrite P; by left]|]. destruct (H h x Hx) as (? & ? & ?).
  split_and!; [done|done|]. rewrite P. by right.
Qed.

(** A smaller pool, or a larger index. *)
Lemma indexed_mono A A' t t' : indexed A t → A' ⊆ A → types_ok t' → (∀ tx, (∃ h, A' !! h = Some tx) → tx ∈ index_txs t → tx ∈ index_txs t') → indexed A' t'.
Proof.
  intros [K H] S K' I. constructor; [done|]. intros h x Hx. destruct (H h x (lookup_weaken _ _ _ _ Hx S)) as (? & ? & ?). split_and!; [done|done|]. apply I; [by exists h|done].
Qed.
End Indexed.

(** ** Sorting and trimming the index *)

Lemma StronglySorted_at {A} (R : A → A → Prop) l : StronglySorted R l → ∀ i j x y, (i < j)%nat → l !! i = Some x → l !! j = Some y → R x y.
Proof.
  induction 1 as [|a l S IH F]; intros i j x y Hij Hi Hj; [done|]. destruct j as [|j]; [lia|]. cbn in Hj. destruct i as [|i]; cbn in Hi.
  - injection Hi as <-. rewrite Forall_forall in F. apply F. by eapply list_elem_of_lookup_2.
  - apply (IH i j); [lia|done|done].
Qed.
Lemma sorted_heap l : StronglySorted dearer l → is_heap dearest l.
Proof.
  intros S j Hl Hj. destruct (parent_spec j) as [Hp _]; [lia|]. unfold key_at. destruct (lookup_lt_is_Some_2 l j) as [y Hy]; [lia|].
  destruct (lookup_lt_is_Some_2 l (parent j)) as [x Hx]; [lia|]. rewrite Hx, Hy. cbn. pose proof (StronglySorted_at _ _ S _ _ _ _ Hp Hx Hy) as D. unfold dearer, dearest in *. lia.
Qed.
#[export] Instance dearer_total : Total dearer.
Proof. intros x y. unfold dearer. lia. Qed.
#[export] Instance dearer_trans : Transitive dearer.
Proof. intros x y z. unfold dearer. lia. Qed.
Lemma sort_price_ok l : merge_sort dearer l ≡ₚ l ∧ StronglySorted dearer (merge_sort dearer l).
Proof. split; [apply merge_sort_Permutation|apply StronglySorted_merge_sort; apply _]. Qed.

(** One kind is replaced. *)
Lemma types_replace t i kv kv' : types_ok t → t !! i = Some kv → kv_ok kv' → kv_key kv' = kv_key kv →
  types_ok (<[i := kv']> t) ∧ ∀ x, x ∈ index_txs t → x ∈ kv_value kv ∨ x ∈ index_txs (<[i := kv']> t).
Proof.
  intros K Hi K' Ek. pose proof (front t i kv Hi) as P. pose proof (front_insert t i kv kv' Hi) as P'. set (t0 := delete i t) in *. clearbody t0. split.
  - rewrite P'. rewrite P in K. apply types_ok_cons in K as (_ & ? & N). apply types_ok_cons. by rewrite Ek.
  - intros x. rewrite P', P. unfold index_txs. cbn [mbind list_bind]. rewrite !elem_of_app. tauto.
Qed.
Lemma types_replace_in t i kv kv' x : t !! i = Some kv → x ∈ kv_value kv' → x ∈ index_txs (<[i := kv']> t).
Proof. intros Hi Hx. rewrite (front_insert t i kv kv' Hi). unfold index_txs. cbn [mbind list_bind]. rewrite elem_of_app. by left. Qed.
(** When nothing that matters is lost. *)
Lemma types_shrink t i kv kv' (live : Transaction → bool) : types_ok t → t !! i = Some kv → kv_ok kv' → kv_key kv' = kv_key kv →
  (∀ x, live x = true → x ∈ kv_value kv → x ∈ kv_value kv') →
  types_ok (<[i := kv']> t) ∧ ∀ x, live x = true → x ∈ index_txs t → x ∈ index_txs (<[i := kv']> t).
Proof.
  intros K Hi K' Ek H. destruct (types_replace t i kv kv' K Hi K' Ek) as [K2 R]. split; [done|]. intros x Hl Hx.
  destruct (R x Hx) as [Hv|?]; [|done]. eapply types_replace_in; [done|]. by apply H.
Qed.

Lemma sorted_kv kv : kv_ok kv → kv_ok (kv <| kv_value := merge_sort dearer (kv_value kv) |>).
Proof.
  intros [H1 H2 H3]. destruct (sort_price_ok (kv_value kv)) as [P S]. constructor; cbn; [by apply sorted_heap| |by rewrite P].
  intros E. rewrite E in P. by apply Permutation_nil in P.
Qed.

Section Trim.
Variable tx_Hash : Transaction → hash.
Variable all : gmap hash Transaction.
#[local] Abbreviation live := (in_pool tx_Hash all).

Lemma trim_stale_ok fuel : ∀ l, ∃ k, trim_stale tx_Hash all fuel l = take k l ∧ ∀ x, live x = true → x ∈ l → x ∈ trim_stale tx_Hash all fuel l.
Proof using Type.
  induction fuel as [|fuel IH]; intros l; cbn [trim_stale].
  { exists (length l). rewrite firstn_all. by destruct (last l). }
  destruct (last l) as [h|] eqn:E; [|exists (length l); by rewrite firstn_all]. destruct (live h) eqn:Hl; [exists (length l); by rewrite firstn_all|].
  destruct (IH (take (length l - 1) l)) as (k & Ek & Hk). exists (Nat.min k (length l - 1)). split; [by rewrite Ek, take_take|].
  intros x Hx Hin. apply Hk; [done|]. apply last_Some in E as [l' ->]. rewrite length_app. cbn. replace (length l' + 1 - 1)%nat with (length l') by lia.
  rewrite take_app_length. apply elem_of_app in Hin as [?|Hin]; [done|]. apply list_elem_of_singleton in Hin as ->. congruence.
Qed.

Lemma type_Underpriced_ok tx kind t i : GetTransactionType tx = Ret kind → types_ok t → sorter_Get kind t = Some i →
  match type_Underpriced tx_Hash all tx t with
  | Ret (_, t') => types_ok t' ∧ (∀ x, live x = true → x ∈ index_txs t → x ∈ index_txs t') ∧ kv_key <$> t' = kv_key <$> t
  | Panic w => w = no_live_tx
  end.
Proof using Type.
  intros Hk K Hg. destruct (sorter_Get_Some _ _ _ Hg) as (kv & Hi & Hkey). unfold type_Underpriced.
  erewrite GM_bind_run by (unfold lift_outcome; by rewrite Hk). erewrite GM_bind_run by reflexivity. rewrite Hg. cbn [mbind option_bind]. rewrite Hi. cbn [fmap option_fmap option_map].
  destruct (sort_price_ok (kv_value kv)) as [P S]. destruct (trim_stale_ok (length (kv_value kv)) (merge_sort dearer (kv_value kv))) as (k & Ek & Hk').
  set (value := trim_stale _ _ _ _) in *. erewrite GM_bind_run by reflexivity. destruct (last value) as [c|] eqn:El; [|done]. cbn.
  assert (Kv : kv_ok kv) by (destruct K as [F _]; rewrite Forall_forall in F; apply F; by eapply list_elem_of_lookup_2).
  assert (Kv' : kv_ok (kv <| kv_value := value |>)).
  { constructor; cbn; [apply sorted_heap; rewrite Ek; rewrite <- (take_drop k) in S; by apply StronglySorted_app in S as (_ & ? & _)|by intros ->|].
    destruct Kv as [_ _ F]. rewrite Ek. apply Forall_take. by rewrite P. }
  destruct (types_shrink t i kv (kv <| kv_value := value |>) live K Hi Kv' eq_refl) as [K2 H2].
  { intros x Hl Hx. apply Hk'; [done|]. by rewrite P. }
  split_and!; [done|done|]. rewrite list_fmap_insert. cbn. apply list_insert_id. by rewrite list_lookup_fmap, Hi.
Qed.

Lemma RemoveTx_ok t : types_ok t → t ≠ [] → ∃ h t', RemoveTx tx_Hash t = Ret (h, t') ∧ types_ok t' ∧ ∀ x, x ∈ index_txs t → x ∈ index_txs t'.
Proof using Type.
  intros K Ht. destruct t as [|kv t]; [done|]. destruct K as [F N]. pose proof F as [Kv _]%Forall_cons. unfold RemoveTx. erewrite GM_bind_run by reflexivity. cbv beta iota zeta.
  erewrite GM_bind_run by reflexivity. pose proof (sorted_kv kv Kv) as Ks. destruct (sort_price_ok (kv_value kv)) as [P _].
  destruct (last (merge_sort dearer (kv_value kv))) as [x|] eqn:El; [|apply last_None in El; by destruct (ko_some _ Ks)].
  eexists _, _. split; [reflexivity|].
  destruct (types_shrink (kv :: t) 0 kv (kv <| kv_value := merge_sort dearer (kv_value kv) |>) (λ _, true)) as [K2 H2]; [by constructor|done|done|done|intros y _ Hy; cbn; by rewrite P|].
  split; [done|]. intros y Hy. by apply H2.
Qed.
End Trim.

Section Room.
Context `{TX : PoolTx}.
Lemma cheapest_of_ok t kind i : types_ok t → sorter_Get kind t = Some i → ∃ h t', cheapest_of kind t = Ret (h, t') ∧ types_ok t' ∧ ∀ x, x ∈ index_txs t → x ∈ index_txs t'.
Proof.
  intros K Hg. destruct (sorter_Get_Some _ _ _ Hg) as (kv & Hi & Hkey). unfold cheapest_of. erewrite GM_bind_run by reflexivity. rewrite Hg. cbn [mbind option_bind].
  rewrite Hi. cbn [fmap option_fmap option_map]. erewrite GM_bind_run by reflexivity.
  assert (Kv : kv_ok kv) by (destruct K as [F _]; rewrite Forall_forall in F; apply F; by eapply list_elem_of_lookup_2). pose proof (sorted_kv kv Kv) as Ks.
  destruct (sort_price_ok (kv_value kv)) as [P _]. destruct (last (merge_sort dearer (kv_value kv))) as [x|] eqn:El; [|apply last_None in El; by destruct (ko_some _ Ks)].
  eexists _, _. split; [reflexivity|].
  destruct (types_shrink t i kv (kv <| kv_value := merge_sort dearer (kv_value kv) |>) (λ _, true)) as [K2 H2]; [done|done|done|done|intros y _ Hy; cbn; by rewrite P|].
  split; [done|]. intros y Hy. by apply H2.
Qed.
Lemma sorter_Get_keys kind (t t' : list KV) : kv_key <$> t' = kv_key <$> t → sorter_Get kind t' = sorter_Get kind t.
Proof.
  revert t'. induction t as [|kv t IH]; intros [|kv' t']; cbn; [done|done|done|]. intros [= Ek E]. by rewrite Ek, (IH t' E).
Qed.

(** [Cap] of the index only adds to it. *)
Lemma type_Cap_ok local all code threshold t : types_ok t →
  ∃ drops t', type_Cap tx_Hash local all code threshold t = Ret (drops, t') ∧ types_ok t' ∧ ∀ x, x ∈ index_txs t → x ∈ index_txs t'.
Proof.
  intros K. assert (G : ∀ (Q : Transaction → Prop) fuel items drop save, is_heap dearest items → Forall Q items → Forall Q save →
    Forall Q (type_cap_loop tx_Hash local all fuel threshold drop save items).2).
  { intros Q. induction fuel as [|fuel IH]; intros its drop save H Fi Fs; cbn [type_cap_loop]; [done|].
    destruct (heap_Pop_cases dearest its H) as [ [-> E] |(x & its' & E & P & H' & _)]; rewrite E; [done|]. rewrite P in Fi. apply Forall_cons in Fi as [Hx Fi].
    assert (Fs' : Forall Q (save ++ [x])) by (apply Forall_app; by repeat constructor).
    destruct (negb _); [by apply IH|]. destruct (_ >=? _); [done|]. destruct (local x); by apply IH. }
  destruct (GetTransactionList_ok t) as [P H]. unfold type_Cap. erewrite GM_bind_run by reflexivity. cbv zeta.
  pose proof (G (λ tx, ∃ kind, GetTransactionType tx = Ret kind) (length (GetTransactionList t)) (GetTransactionList t) [] [] H) as S.
  destruct (type_cap_loop _ _ _ _ _ _ _ _) as [drop save]. cbn [snd] in S.
  destruct (put_all_ok code save t) as (t' & E & K' & C); [|done|].
  - apply S; [|constructor]. rewrite P. apply Forall_forall. intros x Hx. apply list_elem_of_bind in Hx as (kv & Hv & Hkv). destruct K as [F _].
    rewrite Forall_forall in F. destruct (F kv Hkv) as [_ _ F3]. rewrite Forall_forall in F3. eexists. by apply F3.
  - exists drop, t'. split; [by erewrite GM_bind_run by exact E|]. split; [done|]. intros x Hx. rewrite C. apply elem_of_app. by right.
Qed.
End Room.
