(* ===== verification/TxPoolSteps.v ===== *)
(** * The steps of the pool

    The operations on one transaction and on one account keep the books of the pool, and
    touch the lists of no other account. *)

From S2P Require Import Prelude Interfaces AssetInfo StateTypes StateSample Hex VmData Votes.
From S2P Require Import VmGas VoteCount StateDB Evm Transition Secp TxData Signing.
From S2P Require Import Bloom Blocks Heap TxList TxPriced ManagedState TxPool TxPoolLists.
From S2P Require Import TxPoolBooks.

(** ** Running *)

(** [m] returns with [Q], or panics for a reason that is allowed. *)
Definition runs (T : string → Prop) {A} (m : PM A) (p : TxPool) (Q : A → TxPool → Prop) : Prop :=
  match m p with Ret (a, p') => Q a p' | Panic w => T w end.

Section Runs.
Context {T : string → Prop}.
#[local] Abbreviation runs := (runs T).

Lemma runs_bind {A B} (m : PM A) (k : A → PM B) p Q : runs m p (λ a p', runs (k a) p' Q) → runs (m ≫= k) p Q.
Proof. unfold runs, TxPoolSteps.runs, mbind, GM_bind. destruct (m p) as [[a p']|w]; done. Qed.
Lemma runs_ret {A} (a : A) p (Q : A → TxPool → Prop) : Q a p → runs (mret a) p Q.
Proof. done. Qed.
Lemma runs_mono {A} (m : PM A) p (Q Q' : A → TxPool → Prop) : runs m p Q → (∀ a p', Q a p' → Q' a p') → runs m p Q'.
Proof. unfold runs, TxPoolSteps.runs. destruct (m p) as [[a p']|w]; auto. Qed.
Lemma runs_seq {A B} (m : PM A) (k : A → PM B) p Q R : runs m p R → (∀ a p', R a p' → runs (k a) p' Q) → runs (m ≫= k) p Q.
Proof. intros H K. apply runs_bind. eapply runs_mono; [exact H|exact K]. Qed.
Lemma runs_eq {A} (m : PM A) p a p' (Q : A → TxPool → Prop) : m p = Ret (a, p') → Q a p' → runs m p Q.
Proof. unfold runs, TxPoolSteps.runs. by intros ->. Qed.
Lemma runs_each {A} (f : A → PM unit) (I : list A → TxPool → Prop) l : ∀ p,
  (∀ a l p, I (a :: l) p → runs (f a) p (λ _, I l)) → I l p → runs (each f l) p (λ _, I []).
Proof.
  induction l as [|a l IH]; intros p H Hl; [by apply runs_ret|]. cbn [each]. eapply (runs_seq _ _ _ _ (λ _, I l)); [by apply H|]. intros _ p' Hp. by apply IH.
Qed.
Lemma runs_get {B} (k : TxPool → PM B) p Q : runs (k p) p Q → runs (gget ≫= k) p Q.
Proof. intros H. by apply runs_bind. Qed.
Lemma runs_set {B} f (k : unit → PM B) p Q : runs (k tt) (f p) Q → runs (gmodify f ≫= k) p Q.
Proof. intros H. by apply runs_bind. Qed.
Lemma runs_lift {A B} (o : outcome A) a (k : A → PM B) p Q : o = Ret a → runs (k a) p Q → runs (lift_outcome o ≫= k) p Q.
Proof. intros E H. apply runs_bind. eapply runs_eq; [by rewrite E|done]. Qed.
Lemma runs_assoc {A B C} (m : PM A) (k : A → PM B) (k' : B → PM C) p Q : runs (m ≫= λ a, k a ≫= k') p Q → runs ((m ≫= k) ≫= k') p Q.
Proof. unfold runs, TxPoolSteps.runs, mbind, GM_bind. destruct (m p) as [[a p']|w]; done. Qed.

Lemma runs_priced {A} (m : GM (list KV) A) p a t (Q : A → TxPool → Prop) : m (p_priced p) = Ret (a, t) → Q a (p <| p_priced := t |>) → runs (on_priced m) p Q.
Proof. intros E H. eapply runs_eq; [unfold on_priced; by rewrite E|done]. Qed.
Lemma runs_managed {A} (m : GM ManagedState A) p a t (Q : A → TxPool → Prop) : m (p_managed p) = Ret (a, t) → Q a (p <| p_managed := t |>) → runs (on_managed m) p Q.
Proof. intros E H. eapply runs_eq; [unfold on_managed; by rewrite E|done]. Qed.
Lemma runs_pending {A} (m : GM txList A) addr p l a l' (Q : A → TxPool → Prop) : p_pending p !! addr = Some l → m l = Ret (a, l') →
  Q a (p <| p_pending ::= <[addr := l']> |>) → runs (on_pending addr m) p Q.
Proof. intros E1 E2 H. eapply runs_eq; [unfold on_pending; by rewrite E1, E2|done]. Qed.
Lemma runs_queue {A} (m : GM txList A) addr p l a l' (Q : A → TxPool → Prop) : p_queue p !! addr = Some l → m l = Ret (a, l') →
  Q a (p <| p_queue ::= <[addr := l']> |>) → runs (on_queue addr m) p Q.
Proof. intros E1 E2 H. eapply runs_eq; [unfold on_queue; by rewrite E1, E2|done]. Qed.
End Runs.

(** ** The invariant *)

(** The numbers of a configuration that the code does not check. *)
Record config_ok (c : TxPoolConfig) : Prop := mkConfigOk {
  co_slots : 1 ≤ AccountSlots c;
  co_queue : 0 ≤ AccountQueue c < 2 ^ 63;
  co_room : 1 ≤ u64 (GlobalQueue c + GlobalSlots c)
}.
Record view_ok (v : View) (h : heap) : Prop := mkViewOk {
  vo_nonce a : is_u64 (v_nonce v a);
  vo_votes a : valid_slice h (v_votes v a)
}.

(** The laws of the runtime. *)
Class RuntimeLaws `(RT : PoolRuntime) : Prop := {
  range_txs_all m : range_txs m ≡ₚ map_to_list m;
  range_lists_all m : range_lists m ≡ₚ (map_to_list m).*1;
  range_set_all X : range_set X ≡ₚ elements X;
  prque_sorts l : ∃ l', prque_order l = l'.*1 ∧ l' ≡ₚ l ∧ StronglySorted (λ x y : address * Z, y.2 ≤ x.2) l';
  sort_beats_all l : sort_beats l ≡ₚ l
}.

Section Steps.
Context `{TX : PoolTx} `{CHAIN : PoolChain} `{JSON : TxJson} `{RT : PoolRuntime} `{RL : !RuntimeLaws RT}.
Context {T : string → Prop}.
#[local] Abbreviation runs := (runs T).

Record Inv (L : list Transaction) (p : TxPool) : Prop := mkInv {
  iv_filed : filed_as true false L (p_pending p) (p_queue p) (p_all p);
  iv_indexed : indexed (p_all p) (p_priced p);
  iv_managed : ms_ok (p_managed p);
  iv_view : view_ok (p_view p) (p_heap p);
  iv_config : config_ok (p_config p)
}.

(** No pending list is empty. *)
Definition busy (p : TxPool) : Prop := map_Forall (λ _ l, items l ≠ ∅) (p_pending p).

(** Only the lists of [a] have changed, and no transaction has been added. *)
Record only (a : address) (p p' : TxPool) : Prop := mkOnly {
  on_lists b : b ≠ a → p_pending p' !! b = p_pending p !! b ∧ p_queue p' !! b = p_queue p !! b;
  on_all : p_all p' ⊆ p_all p
}.
#[export] Instance only_refl a : Reflexive (only a).
Proof. intros p. constructor; [done|done]. Qed.
#[export] Instance only_trans a : Transitive (only a).
Proof.
  intros p1 p2 p3 [L1 A1] [L2 A2]. constructor; [|by etrans]. intros b Hb. destruct (L1 b Hb), (L2 b Hb). split; congruence.
Qed.

Lemma forget_ok tx L p : Inv (tx :: L) p →
  runs (forget tx) p (λ _ p', Inv L p' ∧ p_pending p' = p_pending p ∧ p_queue p' = p_queue p ∧ p_all p' ⊆ p_all p).
Proof.
  intros [F X M V C]. destruct (fl_limbo _ _ _ _ _ _ F tx (list_elem_of_here _ _)) as (Kt & _).
  destruct (indexed_forget _ _ _ X Kt) as (kind & t' & Hk & Er & X'). unfold forget.
  apply runs_bind. eapply runs_eq; [unfold lift_outcome; by rewrite Hk|]. apply runs_set. eapply runs_priced; [exact Er|].
  split_and!; [|done|done|apply delete_subseteq]. constructor; cbn; [by apply filed_forget|done..].
Qed.

(** Forgetting all the transactions taken out of a list. *)
Lemma forget_all_ok R L p : Inv (R ++ L) p →
  runs (forget_all R) p (λ _ p', Inv L p' ∧ p_pending p' = p_pending p ∧ p_queue p' = p_queue p ∧ p_all p' ⊆ p_all p).
Proof.
  intros I. eapply runs_mono; [apply (runs_each forget (λ R p', Inv (R ++ L) p' ∧ p_pending p' = p_pending p ∧ p_queue p' = p_queue p ∧ p_all p' ⊆ p_all p))|done].
  - intros tx R' p' (I' & Ep & Eq & S). eapply runs_mono; [by apply forget_ok|]. intros _ p'' (I'' & Ep' & Eq' & S').
    split_and!; [done|congruence|congruence|by etrans].
  - by split_and!.
Qed.

(** ** Lists *)

Lemma Inv_lists L L' p P Q : Inv L p → filed_as true false L' P Q (p_all p) → Inv L' (p <| p_pending := P |> <| p_queue := Q |>).
Proof. intros [F X M V C] F'. by constructor. Qed.

Lemma Inv_take_pending L p a l R l' : Inv L p → p_pending p !! a = Some l → took l R l' → Inv (R ++ L) (p <| p_pending ::= <[a := l']> |>).
Proof. intros [F X M V C] E Tk. constructor; cbn; [by eapply filed_take_1|done..]. Qed.
Lemma Inv_take_queue L p a l R l' : Inv L p → p_queue p !! a = Some l → took l R l' → Inv (R ++ L) (p <| p_queue ::= <[a := l']> |>).
Proof. intros [F X M V C] E Tk. constructor; cbn; [|done..]. apply filed_swap. eapply filed_take_1; [by apply filed_swap|done|done]. Qed.

Lemma Inv_pending L p a l : Inv L p → p_pending p !! a = Some l → tl_ok l ∧ tl_strict l = true.
Proof. intros [F _ _ _ _] E. by destruct (fl_pending _ _ _ _ _ _ F a l E). Qed.
Lemma Inv_queue L p a l : Inv L p → p_queue p !! a = Some l → tl_ok l ∧ tl_strict l = false.
Proof. intros [F _ _ _ _] E. by destruct (fl_queue _ _ _ _ _ _ F a l E). Qed.

Lemma only_pending p a l : only a p (p <| p_pending ::= <[a := l]> |>).
Proof. constructor; cbn; [|done]. intros b Hb. by rewrite lookup_insert_ne by done. Qed.
Lemma only_queue p a l : only a p (p <| p_queue ::= <[a := l]> |>).
Proof. constructor; cbn; [|done]. intros b Hb. by rewrite lookup_insert_ne by done. Qed.

Lemma ensure_queue_ok L p a : Inv L p → runs (ensure_queue a) p (λ _ p', Inv L p' ∧ p_pending p' = p_pending p ∧ p_all p' = p_all p ∧ only a p p' ∧
  (∀ b, txs_of (p_queue p') b = txs_of (p_queue p) b) ∧ is_Some (p_queue p' !! a)).
Proof.
  intros [F X M V C]. eapply runs_eq; [reflexivity|]. cbn. destruct (p_queue p !! a) as [l|] eqn:E; [split_and!; [by constructor|done..|by exists l]|].
  pose proof (filed_ensure_1 _ _ _ _ a (filed_swap _ _ _ _ F) E) as F'. split_and!; [|done|done|apply only_queue| |cbn; rewrite lookup_insert_eq; by eexists].
  - constructor; cbn; [by apply filed_swap|done..].
  - cbn. intros b. rewrite txs_of_insert. case_decide as D; [subst b|done]. unfold txs_of. by rewrite E.
Qed.
Lemma ensure_pending_ok L p a : Inv L p → runs (ensure_pending a) p (λ _ p', Inv L p' ∧ p_queue p' = p_queue p ∧ p_all p' = p_all p ∧ only a p p' ∧
  (∀ b, txs_of (p_pending p') b = txs_of (p_pending p) b) ∧ is_Some (p_pending p' !! a)).
Proof.
  intros [F X M V C]. eapply runs_eq; [reflexivity|]. cbn. destruct (p_pending p !! a) as [l|] eqn:E; [split_and!; [by constructor|done..|by exists l]|].
  pose proof (filed_ensure_1 _ _ _ _ a F E) as F'. split_and!; [|done|done|apply only_pending| |cbn; rewrite lookup_insert_eq; by eexists].
  - by constructor.
  - cbn. intros b. rewrite txs_of_insert. case_decide as D; [subst b|done]. unfold txs_of. by rewrite E.
Qed.

(** ** Single transactions *)

(** Putting a known transaction into the index again. *)
Lemma remember_ok tx L p : filed_as true false L (p_pending p) (p_queue p) (<[tx_Hash tx := tx]> (p_all p)) → tx_fine tx → indexed (p_all p) (p_priced p) →
  ms_ok (p_managed p) → view_ok (p_view p) (p_heap p) → config_ok (p_config p) →
  runs (remember (tx_Hash tx) tx) p (λ _ p', Inv L p' ∧ p_pending p' = p_pending p ∧ p_queue p' = p_queue p ∧ p_all p' = <[tx_Hash tx := tx]> (p_all p)).
Proof.
  intros F Hf X M V C. destruct (indexed_put _ _ tx (v_code (p_view p)) X Hf) as (t' & E & X'). unfold remember, priced_Put. apply runs_set, runs_get.
  eapply runs_priced; [exact E|]. split_and!; [by constructor|done..].
Qed.
Lemma remember_again tx L p : Inv L p → p_all p !! tx_Hash tx = Some tx →
  runs (remember (tx_Hash tx) tx) p (λ _ p', Inv L p' ∧ p_pending p' = p_pending p ∧ p_queue p' = p_queue p ∧ p_all p' = p_all p).
Proof.
  intros [F X M V C] E. eapply runs_mono; [apply (remember_ok tx L)|]; rewrite ?insert_id by done; try done. by destruct (ix_all _ _ X _ _ E) as (_ & ? & _).
Qed.

(** A transaction taken out of a list goes into the queue: its place is free. *)
Lemma enqueue_ok tx L p : Inv (tx :: L) p →
  runs (enqueue tx) p (λ _ p', Inv L p' ∧ p_pending p' = p_pending p ∧ p_all p' = p_all p ∧ only (from_of tx) p p' ∧ is_Some (p_queue p' !! from_of tx)).
Proof.
  intros I. unfold enqueue, enqueueTx. apply runs_assoc. eapply runs_seq; [by apply ensure_queue_ok|].
  intros _ p1 (I1 & Ep & Ea & O1 & Eq & [l El]). destruct (iv_filed _ _ I1) as [_ _ _ _ F5 _]. destruct (F5 tx (list_elem_of_here _ _)) as (Kt & _ & Nq).
  rewrite (txs_of_Some _ _ _ El) in Nq. destruct (Inv_queue _ _ _ _ I1 El) as [Kl Sl]. destruct (ix_all _ _ (iv_indexed _ _ I1) _ _ Kt) as (_ & Hf & _).
  apply runs_assoc, runs_get. destruct (tl_Add_ok tx (PriceBump (p_config p1)) l Kl (tf_nonce _ Hf)) as ([ins old] & l' & E & K' & S' & R).
  apply runs_assoc. apply runs_bind. eapply runs_queue; [exact El|exact E|]. destruct ins; [|destruct R as (_ & o & Ho & _); congruence].
  destruct R as (Eo & Ei & _). rewrite Nq in Eo. subst old. cbn [negb forget_old]. apply runs_assoc, runs_bind, runs_ret.
  set (p2 := p1 <| p_queue ::= <[from_of tx := l']> |>).
  assert (I2 : Inv L p2).
  { destruct I1 as [F X M V C]. constructor; cbn; [|done..]. apply filed_swap. eapply filed_put_1; [by apply filed_swap|done|done|congruence|done]. }
  apply runs_assoc. eapply runs_seq; [by apply (remember_again tx L p2)|]. intros _ p3 (I3 & Ep3 & Eq3 & Ea3). apply runs_bind, runs_ret, runs_ret.
  split_and!; [done|rewrite Ep3; cbn; congruence|rewrite Ea3; cbn; congruence| |rewrite Eq3; cbn; rewrite lookup_insert_eq; by eexists].
  etrans; [exact O1|]. etrans; [apply (only_queue p1 (from_of tx) l')|]. constructor; [by rewrite Ep3, Eq3|by rewrite Ea3].
Qed.

Lemma enqueue_all_ok R L p a : Inv (R ++ L) p → (∀ tx, tx ∈ R → from_of tx = a) →
  runs (each enqueue R) p (λ _ p', Inv L p' ∧ p_pending p' = p_pending p ∧ p_all p' = p_all p ∧ only a p p').
Proof.
  intros I Hf. eapply runs_mono; [apply (runs_each enqueue (λ R p', Inv (R ++ L) p' ∧ (∀ tx, tx ∈ R → from_of tx = a) ∧ p_pending p' = p_pending p ∧ p_all p' = p_all p ∧ only a p p'))|].
  - intros tx R' p' (I' & H & Ep & Ea & O). pose proof (H tx (list_elem_of_here _ _)) as <-. eapply runs_mono; [by apply enqueue_ok|].
    intros _ p'' (I'' & Ep' & Ea' & O' & _). split_and!; [done|intros x Hx; apply H; by right|congruence|congruence|by etrans].
  - by split_and!.
  - intros _ p' (? & _ & ? & ? & ?). done.
Qed.

Lemma u64_is_u64 z : is_u64 (u64 z).
Proof. unfold u64, is_u64. pose proof (Z.mod_pos_bound z (2 ^ 64)). lia. Qed.

Lemma Inv_managed L p ms : Inv L p → ms_ok ms → Inv L (p <| p_managed := ms |>).
Proof. intros [F X M V C] K. by constructor. Qed.

(** A transaction taken out of the queue becomes pending: its place is free. *)
Lemma promote_one_ok tx L p a : Inv (tx :: L) p → from_of tx = a → busy p →
  runs (promote_one a tx) p (λ _ p', Inv L p' ∧ busy p' ∧ only a p p' ∧ p_queue p' = p_queue p).
Proof.
  intros I Hf B. unfold promote_one, promoteTx. eapply runs_seq; [by apply ensure_pending_ok|].
  intros _ p1 (I1 & Eq & Ea & O1 & Et & [l El]). destruct (iv_filed _ _ I1) as [_ _ _ _ F5 _]. destruct (F5 tx (list_elem_of_here _ _)) as (Kt & Np & _).
  rewrite Hf, (txs_of_Some _ _ _ El) in Np. destruct (Inv_pending _ _ _ _ I1 El) as [Kl Sl]. destruct (ix_all _ _ (iv_indexed _ _ I1) _ _ Kt) as (_ & Hfine & _).
  apply runs_get. destruct (tl_Add_ok tx (PriceBump (p_config p1)) l Kl (tf_nonce _ Hfine)) as ([ins old] & l' & E & K' & S' & R).
  apply runs_bind. eapply runs_pending; [exact El|exact E|]. destruct ins; [|destruct R as (_ & o & Ho & _); congruence].
  destruct R as (Eo & Ei & _). rewrite Np in Eo. subst old. cbn [negb forget_old]. apply runs_bind, runs_ret, runs_get.
  set (p2 := p1 <| p_pending ::= <[a := l']> |>).
  assert (I2 : Inv L p2).
  { destruct I1 as [F X M V C]. constructor; cbn; [|done..]. rewrite <- Hf. eapply filed_put_1; [done|by rewrite Hf|done|congruence|done]. }
  assert (B2 : busy p2).
  { intros b lb. cbn. rewrite lookup_insert. case_decide as D; [intros [= <-]; rewrite Ei; apply insert_non_empty|]. intros Hb.
    destruct (on_lists _ _ _ O1 b ltac:(congruence)) as [Hs _]. rewrite Hs in Hb. by apply (B b). }
  rewrite bool_decide_true by (cbn; by rewrite Kt). apply runs_bind, runs_ret. unfold now. apply runs_assoc, runs_get, runs_assoc, runs_set, runs_bind, runs_ret, runs_set.
  destruct (ms_SetNonce_ok a (u64 (Nonce tx + 1)) (p_managed p1) (iv_managed _ _ I1) (u64_is_u64 _)) as (ms & Es & Ks & _).
  apply runs_bind. eapply runs_managed; [exact Es|]. eapply runs_eq; [reflexivity|]. split_and!; [|done| |done].
  - destruct I2 as [F X M V C]. by constructor.
  - etrans; [exact O1|]. etrans; [apply (only_pending p1 a l')|]. by constructor.
Qed.

Lemma promote_all_ok R L p a : Inv (R ++ L) p → (∀ tx, tx ∈ R → from_of tx = a) → busy p →
  runs (each (promote_one a) R) p (λ _ p', Inv L p' ∧ busy p' ∧ only a p p' ∧ p_queue p' = p_queue p).
Proof.
  intros I Hf B. eapply runs_mono; [apply (runs_each (promote_one a) (λ R p', Inv (R ++ L) p' ∧ (∀ tx, tx ∈ R → from_of tx = a) ∧ busy p' ∧ only a p p' ∧ p_queue p' = p_queue p))|].
  - intros tx R' p' (I' & H & B' & O & Eq). eapply runs_mono; [apply promote_one_ok; [exact I'|apply H; by left|done]|].
    intros _ p'' (I'' & B'' & O' & Eq'). split_and!; [done|intros x Hx; apply H; by right|done|by etrans|congruence].
  - by split_and!.
  - intros _ p' (? & _ & ? & ? & ?). done.
Qed.

Lemma empty_items l : tl_Empty l = true ↔ items l = ∅.
Proof. unfold tl_Empty, tl_Len, tm_Len. rewrite Nat.eqb_eq. apply map_size_empty_iff. Qed.

Lemma queue_done_ok L p a : Inv L p → runs (queue_done a) p (λ _ p', Inv L p' ∧ p_pending p' = p_pending p ∧ only a p p').
Proof.
  intros I. eapply runs_eq; [reflexivity|]. cbn. destruct (p_queue p !! a) as [l|] eqn:E; [|done]. destruct (tl_Empty l) eqn:Em; [|done].
  apply empty_items in Em. destruct I as [F X M V C]. split_and!; [|done|constructor; cbn; [intros b Hb; by rewrite lookup_delete_ne by done|done]].
  constructor; cbn; [|done..]. apply filed_swap. eapply filed_drop_1; [by apply filed_swap|done|done].
Qed.
(** All pending lists but one have transactions; that one is looked at. *)
Lemma pending_done_ok L p a : Inv L p → (∀ b l, b ≠ a → p_pending p !! b = Some l → items l ≠ ∅) →
  runs (pending_done a) p (λ _ p', Inv L p' ∧ busy p' ∧ only a p p').
Proof.
  intros I B. eapply runs_eq; [reflexivity|]. cbn. destruct (p_pending p !! a) as [l|] eqn:E.
  - destruct (tl_Empty l) eqn:Em.
    + apply empty_items in Em. destruct I as [F X M V C]. split_and!.
      * constructor; cbn; [by eapply filed_drop_1|done..].
      * intros b lb. cbn. rewrite lookup_delete_Some. intros [Hne Hb]. by apply (B b).
      * constructor; cbn; [intros b Hb; by rewrite lookup_delete_ne by done|done].
    + split_and!; [done| |done]. intros b lb Hb. destruct (decide (b = a)) as [->|D]; [|by apply (B b)]. intros Hi%empty_items. congruence.
  - split_and!; [done| |done]. intros b lb Hb. apply (B b); [congruence|done].
Qed.

Lemma lower_nonce_ok L p a n : Inv L p → is_u64 n → busy p →
  runs (lower_nonce a n) p (λ _ p', Inv L p' ∧ p_pending p' = p_pending p ∧ p_queue p' = p_queue p ∧ p_all p' = p_all p).
Proof.
  intros I Hn B. destruct (ms_GetNonce_ok a (p_managed p) (iv_managed _ _ I)) as (ms & E & K & _). unfold lower_nonce. apply runs_bind.
  eapply runs_managed; [exact E|]. destruct (_ >? n).
  - destruct (ms_SetNonce_ok a n ms K Hn) as (ms' & E' & K' & _). eapply runs_managed; [exact E'|]. split_and!; [|done..]. by apply (Inv_managed _ p).
  - apply runs_ret. split_and!; [|done..]. by apply (Inv_managed _ p).
Qed.

(** ** Removal *)

(** [tx] has been struck from [all] and the index; it may still be in a list. *)
Record struck (tx : Transaction) (p : TxPool) : Prop := mkStruck {
  sk_filed : filed_as true false [] (p_pending p) (p_queue p) (<[tx_Hash tx := tx]> (p_all p));
  sk_gone : p_all p !! tx_Hash tx = None;
  sk_fine : tx_fine tx;
  sk_indexed : indexed (p_all p) (p_priced p);
  sk_managed : ms_ok (p_managed p);
  sk_view : view_ok (p_view p) (p_heap p);
  sk_config : config_ok (p_config p)
}.

Lemma busy_insert p a l : busy p → items l ≠ ∅ → busy (p <| p_pending ::= <[a := l]> |>).
Proof. intros B H. unfold busy. cbn. by apply map_Forall_insert_2. Qed.

Lemma only_same a p p' : p_pending p' = p_pending p → p_queue p' = p_queue p → p_all p' = p_all p → only a p p'.
Proof. intros E1 E2 E3. constructor; [by rewrite E1, E2|by rewrite E3]. Qed.

Lemma remove_pending_ok tx p : struck tx p → busy p → runs (remove_pending (from_of tx) tx) p (λ removed p',
  busy p' ∧ only (from_of tx) p p' ∧
  if removed then Inv [] p' else struck tx p' ∧ txs_of (p_pending p') (from_of tx) !! Nonce tx = None ∧ p_queue p' = p_queue p).
Proof.
  intros S B. set (a := from_of tx). unfold remove_pending. apply runs_get. destruct (p_pending p !! a) as [l|] eqn:El.
  2: { apply runs_ret. split_and!; [done|done|done|unfold txs_of; by rewrite El|done]. }
  destruct S as [F G Hf X M V C]. destruct (fl_pending _ _ _ _ _ _ F a l El) as [Kl Sl Fl].
  pose proof (tl_Remove_took range_txs range_txs_all tx l Kl) as Hr. destruct (items l !! Nonce tx) as [x|] eqn:Ex.
  - destruct Hr as (R & l' & E & Tk & _ & Hn). apply runs_bind. eapply runs_pending; [exact El|exact E|]. cbn [negb]. apply runs_get.
    set (p1 := p <| p_pending ::= <[a := l']> |>). assert (I1 : Inv R p1).
    { constructor; cbn; [|done..]. pose proof (filed_take_1 _ _ _ _ _ _ _ _ F El Tk) as F'. rewrite app_nil_r in F'.
      eapply filed_vacate; [exact F'| |done]. unfold place. by rewrite (Fl _ _ Ex), (proj1 (items_nonce l _ x Kl Ex)). }
    eapply runs_seq.
    { change (p_pending p1 !! a) with (<[a := l']> (p_pending p) !! a). rewrite lookup_insert_eq. cbn [from_option].
      instantiate (1 := λ _ p', Inv [] p' ∧ busy p' ∧ only a p1 p'). destruct (tl_Empty l') eqn:Em.
      - eapply runs_mono; [apply (pending_done_ok R p1 a I1)|].
        + intros b lb Hb. cbn. rewrite lookup_insert_ne by done. apply (B b).
        + intros _ p' ([F' X' M' V' C'] & ? & ?). split_and!; [|done|done]. constructor; [|done..]. rewrite <- (app_nil_r R) in F'. by eapply filed_orphans.
      - eapply runs_mono; [apply (enqueue_all_ok R [] p1 a); [by rewrite app_nil_r|]|].
        + intros y Hy. eapply Fl. by apply (tk_gone _ _ _ Tk y), list_elem_of_further.
        + intros _ p' (I' & Ep & _ & O'). split_and!; [done| |done]. unfold busy. rewrite Ep. apply (busy_insert p a l' B). intros Hi%empty_items. congruence. }
    intros _ p2 (I2 & B2 & O2). eapply runs_seq; [by apply (lower_nonce_ok [] p2 a (Nonce tx) I2 (tf_nonce _ Hf))|].
    intros _ p3 (I3 & Ep3 & Eq3 & Ea3). apply runs_ret. split_and!; [unfold busy; by rewrite Ep3| |done].
    etrans; [apply (only_pending p a l')|]. etrans; [exact O2|]. by apply only_same.
  - destruct Hr as (l' & E & Tk). apply runs_bind. eapply runs_pending; [exact El|exact E|]. cbn [negb]. apply runs_ret.
    pose proof (took_nil_items _ _ Kl Tk) as Ei. split_and!; [apply busy_insert; [done|rewrite Ei; by apply (B a)]|apply only_pending| | |done].
    + constructor; cbn; [|done..]. exact (filed_take_1 _ _ _ _ _ _ _ _ F El Tk).
    + cbn. by rewrite txs_of_insert, decide_True, Ei by done.
Qed.

Lemma removeTx_ok h p : Inv [] p → busy p → runs (removeTx h) p (λ _ p', Inv [] p' ∧ busy p' ∧
  match p_all p !! h with Some tx => only (from_of tx) p p' | None => p' = p end).
Proof.
  intros I B. unfold removeTx. apply runs_get. destruct (p_all p !! h) as [tx|] eqn:Eh; [|by apply runs_ret].
  pose proof I as [F X M V C]. destruct (ix_all _ _ X _ _ Eh) as (<- & Hf & _). destruct (indexed_forget _ _ _ X Eh) as (kind & t' & Hk & Er & X').
  eapply runs_lift; [exact Hk|]. apply runs_set, runs_bind. eapply runs_priced; [exact Er|].
  set (p1 := p <| p_all ::= delete (tx_Hash tx) |> <| p_priced := t' |>). assert (O1 : only (from_of tx) p p1) by (constructor; [done|apply delete_subseteq]).
  assert (S1 : struck tx p1).
  { constructor; cbn; [by rewrite insert_delete_id|apply lookup_delete_eq|done..]. }
  eapply runs_seq; [by apply (remove_pending_ok tx p1 S1)|]. intros removed p2 (B2 & O2 & H2).
  assert (O : only (from_of tx) p p2) by (by etrans). destruct removed; [by apply runs_ret|]. destruct H2 as (S2 & Np & Eq).
  clear - RL S2 B2 O Np. destruct S2 as [F G Hf X M V C].
  assert (Done : txs_of (p_queue p2) (from_of tx) !! Nonce tx ≠ Some tx → Inv [] p2).
  { intros Nq. constructor; [|done..]. eapply filed_unknown; [done|done|congruence|done|apply not_elem_of_nil]. }
  unfold remove_queued. apply runs_get. destruct (p_queue p2 !! from_of tx) as [l|] eqn:El.
  2: { apply runs_ret. split_and!; [|done|done]. apply Done. unfold txs_of. by rewrite El. }
  destruct (fl_queue _ _ _ _ _ _ F _ l El) as [Kl Sl Fl]. pose proof (tl_Remove_took range_txs range_txs_all tx l Kl) as Hr. destruct (items l !! Nonce tx) as [x|] eqn:Ex.
  - destruct Hr as (R & l' & E & Tk & Hs & Hn). rewrite (Hs Sl) in *. apply runs_bind. eapply runs_queue; [exact El|exact E|].
    set (p3 := p2 <| p_queue ::= <[from_of tx := l']> |>). assert (I3 : Inv [] p3).
    { constructor; cbn; [|done..]. apply filed_swap. eapply (filed_vacate tx x); [exact (filed_take_1 [] _ _ _ _ _ [x] _ (filed_swap _ _ _ _ F) El Tk)| |done].
      unfold place. by rewrite (Fl _ _ Ex), (proj1 (items_nonce l _ x Kl Ex)). }
    eapply runs_mono; [by apply (queue_done_ok [] p3 (from_of tx))|]. intros _ p4 (I4 & Ep4 & O4). split_and!; [done|unfold busy; by rewrite Ep4|].
    etrans; [exact O|]. etrans; [apply (only_queue p2 (from_of tx) l')|done].
  - destruct Hr as (l' & E & Tk). apply runs_bind. eapply runs_queue; [exact El|exact E|]. set (p3 := p2 <| p_queue ::= <[from_of tx := l']> |>).
    assert (I3 : Inv [] p3).
    { apply (Inv_take_queue [] p2 (from_of tx) l [] l'); [|done|done]. apply Done. rewrite (txs_of_Some _ _ _ El). congruence. }
    eapply runs_mono; [by apply (queue_done_ok [] p3 (from_of tx))|]. intros _ p4 (I4 & Ep4 & O4). split_and!; [done|unfold busy; by rewrite Ep4|].
    etrans; [exact O|]. etrans; [apply (only_queue p2 (from_of tx) l')|done].
Qed.

(** Removing the transactions of one account. *)
Lemma remove_all_ok txs p a : Inv [] p → busy p → (∀ tx, tx ∈ txs → from_of tx = a ∧ p_all p !! tx_Hash tx = Some tx) →
  runs (each remove_listed txs) p (λ _ p', Inv [] p' ∧ busy p' ∧ only a p p').
Proof.
  intros I B H. eapply runs_mono; [apply (runs_each remove_listed (λ txs p', Inv [] p' ∧ busy p' ∧ only a p p' ∧ ∀ tx, tx ∈ txs → from_of tx = a ∧ p_all p !! tx_Hash tx = Some tx))|].
  - intros tx txs' p' (I' & B' & O' & H'). eapply runs_mono; [by apply removeTx_ok|]. intros _ p'' (I'' & B'' & R).
    split_and!; [done|done| |intros x Hx; apply H'; by right]. destruct (H' tx (list_elem_of_here _ _)) as [Ef Et].
    destruct (p_all p' !! tx_Hash tx) as [y|] eqn:Ey; [|by subst p'']. assert (y = tx) as -> by (pose proof (lookup_weaken _ _ _ _ Ey (on_all _ _ _ O')); congruence).
    rewrite Ef in R. by etrans.
  - by split_and!.
  - intros _ p' (? & ? & ? & _). done.
Qed.

Lemma known_sorted L p a l tx : Inv L p → p_pending p !! a = Some l ∨ p_queue p !! a = Some l → tx ∈ sorted_txs (items l) → from_of tx = a ∧ p_all p !! tx_Hash tx = Some tx.
Proof.
  intros I E Hin. destruct (iv_filed _ _ I) as [F1 F2 _ F4 _ _]. destruct E as [E|E].
  - destruct (F1 a l E) as [K _ Hf]. apply (elem_sorted_txs l tx K) in Hin. split; [by eapply Hf|]. apply (F4 a (Nonce tx)). left. by rewrite (txs_of_Some _ _ _ E).
  - destruct (F2 a l E) as [K _ Hf]. apply (elem_sorted_txs l tx K) in Hin. split; [by eapply Hf|]. apply (F4 a (Nonce tx)). right. by rewrite (txs_of_Some _ _ _ E).
Qed.

(** ** Accounts *)

(** After taking transactions out of a queue, and forgetting them. *)
Lemma queue_forget p a l R l' : Inv [] p → p_queue p !! a = Some l → took l R l' →
  runs (forget_all R) (p <| p_queue ::= <[a := l']> |>) (λ _ p', Inv [] p' ∧ p_pending p' = p_pending p ∧ only a p p' ∧ p_queue p' !! a = Some l').
Proof.
  intros I E Tk. pose proof (Inv_take_queue _ _ _ _ _ _ I E Tk) as I1. eapply runs_mono; [by apply forget_all_ok|].
  intros _ p' (I' & Ep & Eq & S). split_and!; [done|done| |rewrite Eq; cbn; apply lookup_insert_eq].
  etrans; [apply (only_queue p a l')|]. constructor; [by rewrite Ep, Eq|done].
Qed.

Lemma promote_account_ok p a : Inv [] p → busy p → runs (promote_account a) p (λ _ p', Inv [] p' ∧ busy p' ∧ only a p p').
Proof.
  intros I B. unfold promote_account. apply runs_get. destruct (p_queue p !! a) as [l|] eqn:El; [|by apply runs_ret].
  destruct (Inv_queue _ _ _ _ I El) as [Kl Sl]. destruct (tl_Forward_took (v_nonce (p_view p) a) l Kl) as (R1 & l1 & E1 & T1 & _).
  apply runs_bind. eapply runs_queue; [exact El|exact E1|]. eapply runs_seq; [by apply (queue_forget p a l R1 l1)|]. intros _ p1 (I1 & Ep1 & O1 & El1).
  destruct (tl_Filter_took range_txs range_txs_all (v_balance (p_view p) a) (p_maxGas p) l1 (tk_ok _ _ _ T1)) as (R2 & N2 & l2 & E2 & T2 & Hs2).
  rewrite Hs2, app_nil_r in T2 by (rewrite (tk_strict _ _ _ T1); done). apply runs_bind. eapply runs_queue; [exact El1|exact E2|].
  eapply runs_seq; [by apply (queue_forget p1 a l1 R2 l2)|]. intros _ p2 (I2 & Ep2 & O2 & El2).
  destruct (ms_GetNonce_ok a (p_managed p2) (iv_managed _ _ I2)) as (ms & Em & Km & _). apply runs_bind. eapply runs_managed; [exact Em|].
  pose proof (Inv_managed _ _ _ I2 Km) as I3. set (p3 := p2 <| p_managed := ms |>) in *. destruct (tl_Ready_took (virtual_nonce (p_managed p2) a) l2 (tk_ok _ _ _ T2)) as (R3 & l3 & E3 & T3).
  apply runs_bind. eapply runs_queue; [exact El2|exact E3|]. pose proof (Inv_take_queue _ p3 a l2 R3 l3 I3 El2 T3) as I4. set (p4 := p3 <| p_queue ::= _ |>) in *.
  assert (B4 : busy p4) by (unfold busy; change (p_pending p4) with (p_pending p2); by rewrite Ep2, Ep1).
  assert (Hf : ∀ tx, tx ∈ R3 → from_of tx = a).
  { intros tx [Hx _]%(tk_gone _ _ _ T3). destruct (fl_queue _ _ _ _ _ _ (iv_filed _ _ I2) a l2 El2) as [_ _ Hf]. by eapply Hf. }
  eapply runs_seq; [by apply (promote_all_ok R3 [] p4 a I4 Hf B4)|]. intros _ p5 (I5 & B5 & O5 & Eq5).
  assert (El5 : p_queue p5 !! a = Some l3) by (rewrite Eq5; cbn; apply lookup_insert_eq). eapply (runs_seq _ _ _ _ (λ _ p', Inv [] p' ∧ busy p' ∧ only a p5 p')).
  { destruct (is_local p a); [by apply runs_ret|]. apply runs_bind. destruct (co_queue _ (iv_config _ _ I)) as [Q1 Q2].
    destruct (tl_Cap_took (i64 (AccountQueue (p_config p))) l3 (tk_ok _ _ _ T3)) as (R6 & l6 & E6 & T6 & _).
    { unfold i64. rewrite Z.mod_small by lia. lia. }
    eapply runs_queue; [exact El5|exact E6|]. eapply runs_mono; [by apply (queue_forget p5 a l3 R6 l6)|]. intros _ p6 (I6 & Ep6 & O6 & _).
    split_and!; [done|unfold busy; by rewrite Ep6|done]. }
  intros _ p6 (I6 & B6 & O6). eapply runs_mono; [by apply queue_done_ok|]. intros _ p7 (I7 & Ep7 & O7). split_and!; [done|unfold busy; by rewrite Ep7|].
  etrans; [exact O1|]. etrans; [exact O2|]. etrans; [apply (only_queue p2 a l3)|]. etrans; [|exact O7]. etrans; [|exact O6].
  exact (mkOnly a (p2 <| p_queue ::= <[a := l3]> |>) p5 (on_lists _ _ _ O5) (on_all _ _ _ O5)).
Qed.

Lemma pending_forget p a l R l' : Inv [] p → p_pending p !! a = Some l → took l R l' →
  runs (forget_all R) (p <| p_pending ::= <[a := l']> |>) (λ _ p', Inv [] p' ∧ p_queue p' = p_queue p ∧ only a p p' ∧ p_pending p' = <[a := l']> (p_pending p)).
Proof.
  intros I E Tk. pose proof (Inv_take_pending _ _ _ _ _ _ I E Tk) as I1. eapply runs_mono; [by apply forget_all_ok|].
  intros _ p' (I' & Ep & Eq & S). split_and!; [done|done| |done]. etrans; [apply (only_pending p a l')|]. constructor; [by rewrite Ep, Eq|done].
Qed.

Definition busy_but (a : address) (p : TxPool) : Prop := ∀ b l, b ≠ a → p_pending p !! b = Some l → items l ≠ ∅.
Lemma busy_but_only a p p' : busy_but a p → only a p p' → busy_but a p'.
Proof. intros B O b l Hb E. apply (B b l Hb). by destruct (on_lists _ _ _ O b Hb) as [<- _]. Qed.

Lemma demote_account_ok p a : Inv [] p → busy p → is_Some (p_pending p !! a) → runs (demote_account a) p (λ _ p', Inv [] p' ∧ busy p' ∧ only a p p').
Proof.
  intros I B [l El]. assert (B0 : busy_but a p) by (intros b lb _ Hb; by apply (B b)). unfold demote_account. apply runs_get.
  destruct (Inv_pending _ _ _ _ I El) as [Kl Sl]. destruct (tl_Forward_took (v_nonce (p_view p) a) l Kl) as (R1 & l1 & E1 & T1 & _).
  apply runs_bind. eapply runs_pending; [exact El|exact E1|]. eapply runs_seq; [by apply (pending_forget p a l R1 l1)|]. intros _ p1 (I1 & _ & O1 & Ep1).
  assert (El1 : p_pending p1 !! a = Some l1) by (rewrite Ep1; apply lookup_insert_eq).
  destruct (tl_Filter_took range_txs range_txs_all (v_balance (p_view p) a) (p_maxGas p) l1 (tk_ok _ _ _ T1)) as (R2 & N2 & l2 & E2 & T2 & _).
  apply runs_bind. eapply runs_pending; [exact El1|exact E2|]. pose proof (Inv_take_pending _ _ _ _ _ _ I1 El1 T2) as I2. rewrite <- app_assoc in I2.
  set (p2 := p1 <| p_pending ::= _ |>) in *. eapply runs_seq; [by apply (forget_all_ok R2 (N2 ++ []) p2)|]. intros _ p3 (I3 & Ep3 & Eq3 & S3).
  destruct (fl_pending _ _ _ _ _ _ (iv_filed _ _ I1) a l1 El1) as [_ _ Hf].
  assert (O3 : only a p1 p3) by (etrans; [apply (only_pending p1 a l2)|]; constructor; [by rewrite Ep3, Eq3|done]).
  eapply runs_seq; [apply (enqueue_all_ok N2 [] p3 a I3)|].
  { intros tx Hx. eapply Hf. by apply (tk_gone _ _ _ T2 tx), elem_of_app; right. }
  intros _ p4 (I4 & Ep4 & _ & O4). apply runs_get. assert (El4 : p_pending p4 !! a = Some l2) by (rewrite Ep4, Ep3; cbn; apply lookup_insert_eq).
  assert (O : only a p p4) by (etrans; [exact O1|]; by etrans). eapply (runs_seq _ _ _ _ (λ _ p', Inv [] p' ∧ only a p p')).
  - rewrite El4. cbn [from_option]. destruct (negb (tl_Empty l2) && _); [|by apply runs_ret].
    destruct (tl_Cap_took 0 l2 (tk_ok _ _ _ T2) ltac:(done)) as (R5 & l5 & E5 & T5 & _). apply runs_bind. eapply runs_pending; [exact El4|exact E5|].
    eapply runs_mono; [apply (enqueue_all_ok R5 [] _ a); [by apply (Inv_take_pending _ p4 a l2)|]|].
    + intros tx Hx. apply (tk_gone _ _ _ T5 tx) in Hx as [Hx _]. eapply Hf. eapply lookup_weaken; [exact Hx|apply T2].
    + intros _ p5 (I5 & _ & _ & O5). split; [done|]. etrans; [exact O|]. by etrans; [apply (only_pending p4 a l5)|].
  - intros _ p5 (I5 & O5). eapply runs_mono; [apply (pending_done_ok [] p5 a I5); by apply (busy_but_only a p p5)|].
    intros _ p6 (I6 & B6 & O6). split_and!; [done|done|by etrans].
Qed.

(** ** All accounts *)

(** Going through a map of lists: an account is visited once, and only its own lists
    change. *)
Lemma each_account (f : address → PM unit) (lists : TxPool → gmap address txList) (addrs : list address) p :
  (∀ p p' a b, only a p p' → b ≠ a → lists p' !! b = lists p !! b) →
  (∀ p a, Inv [] p → busy p → is_Some (lists p !! a) → runs (f a) p (λ _ p', Inv [] p' ∧ busy p' ∧ only a p p')) →
  Inv [] p → busy p → NoDup addrs → (∀ a, a ∈ addrs → is_Some (lists p !! a)) → runs (each f addrs) p (λ _ p', Inv [] p' ∧ busy p').
Proof.
  intros Hl Hs I B N H. eapply runs_mono; [apply (runs_each f (λ addrs p', Inv [] p' ∧ busy p' ∧ NoDup addrs ∧ ∀ a, a ∈ addrs → is_Some (lists p' !! a)))|].
  - intros a addrs' p' (I' & B' & N' & H'). apply NoDup_cons in N' as [Hn N']. eapply runs_mono; [apply Hs; [done|done|apply H'; by left]|].
    intros _ p'' (I'' & B'' & O). split_and!; [done|done|done|]. intros b Hb. rewrite (Hl p' p'' a b O) by (intros ->; done). apply H'. by right.
  - by split_and!.
  - intros _ p' (? & ? & _). done.
Qed.
Lemma range_lists_NoDup m : NoDup (range_lists m).
Proof. rewrite range_lists_all. apply NoDup_fst_map_to_list. Qed.
Lemma range_lists_elem m a : a ∈ range_lists m → is_Some (m !! a).
Proof. rewrite range_lists_all. intros ((b & l) & -> & H%elem_of_map_to_list)%list_elem_of_fmap. by exists l. Qed.

Lemma demote_ok p : Inv [] p → busy p → runs demoteUnexecutables p (λ _ p', Inv [] p' ∧ busy p').
Proof.
  intros I B. unfold demoteUnexecutables. apply runs_get. apply (each_account demote_account p_pending); [|intros; by apply demote_account_ok|done|done|apply range_lists_NoDup|apply range_lists_elem].
  intros p1 p2 a b O Hb. by apply (on_lists _ _ _ O b Hb).
Qed.

Lemma promote_accounts_ok addrs p : Inv [] p → busy p → runs (each promote_account addrs) p (λ _ p', Inv [] p' ∧ busy p').
Proof.
  intros I B. apply (runs_each promote_account (λ _ p', Inv [] p' ∧ busy p')); [|done]. intros a l p' [I' B']. eapply runs_mono; [by apply promote_account_ok|].
  intros _ p'' (? & ? & _). done.
Qed.
End Steps.
