(* ===== verification/TxPoolRun.v ===== *)
(** * The handlers of the pool

    The limits on the pool, eviction, and the handlers themselves: they keep the books,
    and they do not panic but for one reason. *)

From S2P Require Import Prelude Interfaces AssetInfo StateTypes StateSample Hex VmData Votes.
From S2P Require Import VmGas VoteCount StateDB Evm Transition Secp TxData Signing.
From S2P Require Import Bloom Blocks Heap TxList TxPriced ManagedState TxPool TxPoolLists.
From S2P Require Import TxPoolBooks TxPoolSteps.

(** ** Limits *)

Lemma count_delete (P : gmap address txList) a l : P !! a = Some l → count_lists P = Z.of_nat (tl_Len l) + count_lists (delete a P).
Proof.
  intros E. unfold count_lists. rewrite <- (insert_delete_id P a l E) at 1.
  rewrite map_fold_insert_L; [done| |apply lookup_delete_eq]. intros. lia.
Qed.
Lemma count_insert (P : gmap address txList) a l l' : P !! a = Some l → count_lists (<[a := l']> P) = count_lists P - Z.of_nat (tl_Len l) + Z.of_nat (tl_Len l').
Proof.
  intros E. rewrite (count_delete P a l E), (count_delete (<[a := l']> P) a l') by apply lookup_insert_eq. rewrite delete_insert_eq. lia.
Qed.
Lemma count_nonneg (P : gmap address txList) : 0 ≤ count_lists P.
Proof. unfold count_lists. apply (map_fold_weak_ind (λ r _, 0 ≤ r)); [done|]. intros. lia. Qed.
Lemma count_at (P : gmap address txList) a l : P !! a = Some l → Z.of_nat (tl_Len l) ≤ count_lists P.
Proof. intros E. rewrite (count_delete P a l E). pose proof (count_nonneg (delete a P)). lia. Qed.

(** Choosing entries of a list without duplicates. *)
Lemma NoDup_omap_fst {A B} (f : A → option (A * B)) (l : list A) : (∀ a c b, f a = Some (c, b) → a = c) → NoDup l → NoDup (omap f l).*1.
Proof.
  intros H. induction 1 as [|a l Ha ND IH]; [constructor|]. cbn [omap list_omap]. destruct (f a) as [[c b]|] eqn:E; [|done].
  destruct (H _ _ _ E). cbn [fmap list_fmap fst]. constructor; [|done]. intros ([c' b'] & -> & Hin)%list_elem_of_fmap.
  apply list_elem_of_omap in Hin as (x & Hx & Ex). destruct (H _ _ _ Ex). done.
Qed.

(** Operations that leave the configuration alone. *)
Definition cfg {A} (m : PM A) : Prop := ∀ p a p', m p = Ret (a, p') → p_config p' = p_config p.
Create HintDb cfg.
Section Cfg.
Context `{TX : PoolTx}.
Lemma cfg_ret {A} (a : A) : cfg (mret a).
Proof. by intros p a' p' [= <- <-]. Qed.
Lemma cfg_bind {A B} (m : PM A) (k : A → PM B) : cfg m → (∀ a, cfg (k a)) → cfg (m ≫= k).
Proof.
  intros Hm Hk p b p'. unfold mbind, GM_bind. destruct (m p) as [[a p1]|w] eqn:E; [|done]. intros E'. rewrite (Hk _ _ _ _ E'). by eapply Hm.
Qed.
Lemma cfg_get : cfg gget.
Proof. by intros p a p' [= <- <-]. Qed.
Lemma cfg_set f : (∀ p, p_config (f p) = p_config p) → cfg (gmodify f).
Proof. intros H p a p' [= <- <-]. apply H. Qed.
Lemma cfg_panic {A} w : cfg (gpanic (A := A) w).
Proof. by intros p a p' ?. Qed.
Lemma cfg_lift {A} (o : outcome A) : cfg (lift_outcome o).
Proof. intros p a p'. unfold lift_outcome. destruct o; [by intros [= <- <-]|done]. Qed.
Lemma cfg_priced {A} (m : GM (list KV) A) : cfg (on_priced m).
Proof. intros p a p'. unfold on_priced. destruct (m _) as [[? ?]|]; [by intros [= <- <-]|done]. Qed.
Lemma cfg_managed {A} (m : GM ManagedState A) : cfg (on_managed m).
Proof. intros p a p'. unfold on_managed. destruct (m _) as [[? ?]|]; [by intros [= <- <-]|done]. Qed.
Lemma cfg_pending {A} a (m : GM txList A) : cfg (on_pending a m).
Proof. intros p x p'. unfold on_pending. destruct (p_pending p !! a); [|done]. destruct (m _) as [[? ?]|]; [by intros [= <- <-]|done]. Qed.
Lemma cfg_each {A} (f : A → PM unit) l : (∀ a, cfg (f a)) → cfg (each f l).
Proof. intros H. induction l as [|a l IH]; cbn [each]; [apply cfg_ret|]. by apply cfg_bind. Qed.
End Cfg.
#[export] Hint Resolve cfg_ret cfg_bind cfg_get cfg_panic cfg_lift cfg_priced cfg_managed cfg_pending cfg_each : cfg.
#[export] Hint Extern 5 (cfg (gmodify _)) => apply cfg_set; intros; reflexivity : cfg.

Section Limits.
Context `{TX : PoolTx} `{CHAIN : PoolChain} `{JSON : TxJson} `{RT : PoolRuntime} `{RL : !RuntimeLaws RT}.
Context {T : string → Prop}.
#[local] Abbreviation runs := (runs T).

Lemma runs_cfg {A} (m : PM A) p Q : cfg m → runs m p Q → runs m p (λ a p', Q a p' ∧ p_config p' = p_config p).
Proof. intros C. unfold TxPoolSteps.runs. specialize (C p). destruct (m p) as [[a p']|w]; [|done]. intros H. split; [done|]. by eapply C. Qed.

Lemma cfg_forget tx : cfg (forget tx).
Proof. unfold forget. auto with cfg. Qed.
Lemma cfg_lower a n : cfg (lower_nonce a n).
Proof. unfold lower_nonce. apply cfg_bind; [auto with cfg|]. intros z. destruct (_ >? _); auto with cfg. Qed.
Lemma cfg_cap_offender a : cfg (cap_offender a).
Proof.
  unfold cap_offender, pending_len. apply cfg_bind; [apply cfg_bind; [auto with cfg|]; intros p; destruct (_ !! _); auto with cfg|].
  intros n. apply cfg_bind; [auto with cfg|]. intros drops. apply cfg_each. intros tx. apply cfg_bind; [apply cfg_forget|]. intros _. apply cfg_lower.
Qed.

Lemma cap_offender_ok p a l : Inv [] p → busy p → p_pending p !! a = Some l → (2 ≤ tl_Len l)%nat →
  runs (cap_offender a) p (λ _ p', Inv [] p' ∧ busy p' ∧ p_config p' = p_config p ∧
    ∃ l', p_pending p' = <[a := l']> (p_pending p) ∧ Z.of_nat (tl_Len l') = Z.of_nat (tl_Len l) - 1).
Proof.
  intros I B El Hl. apply (runs_mono _ _ (λ _ p', (Inv [] p' ∧ busy p' ∧ ∃ l', p_pending p' = <[a := l']> (p_pending p) ∧ Z.of_nat (tl_Len l') = Z.of_nat (tl_Len l) - 1) ∧
    p_config p' = p_config p)); [apply runs_cfg; [apply cfg_cap_offender|]|by intros _ p' ((? & ? & ?) & ?)].
  destruct (Inv_pending _ _ _ _ I El) as [Kl Sl]. unfold cap_offender, pending_len. apply runs_assoc, runs_get. rewrite El. apply runs_bind, runs_ret.
  destruct (tl_Cap_took (Z.of_nat (tl_Len l) - 1) l Kl ltac:(lia)) as (R & l' & E & Tk & Hlen). apply runs_bind. eapply runs_pending; [exact El|exact E|].
  set (p1 := p <| p_pending ::= <[a := l']> |>). assert (B1 : busy p1).
  { apply busy_insert; [done|]. intros Hi%empty_items. unfold tl_Empty in Hi. apply Nat.eqb_eq in Hi. lia. }
  assert (Hu : ∀ tx, tx ∈ R → is_u64 (Nonce tx)) by (intros tx [Hx _]%(tk_gone _ _ _ Tk); by apply (items_nonce l (Nonce tx) tx Kl)).
  eapply runs_mono; [apply (runs_each _ (λ R p', Inv (R ++ []) p' ∧ (∀ tx, tx ∈ R → is_u64 (Nonce tx)) ∧ busy p' ∧ p_pending p' = p_pending p1))|].
  - intros tx R' p' (I' & Hu' & B' & Ep). eapply runs_seq; [by apply (forget_ok tx (R' ++ []) p')|]. intros _ p2 (I2 & Ep2 & _).
    eapply runs_mono; [apply (lower_nonce_ok _ p2 a (Nonce tx) I2); [apply Hu'; by left|unfold busy; by rewrite Ep2]|].
    intros _ p3 (I3 & Ep3 & _). split_and!; [done|intros x Hx; apply Hu'; by right|unfold busy; by rewrite Ep3, Ep2|congruence].
  - split_and!; [by apply (Inv_take_pending [] p a l R l')|done|done|done].
  - intros _ p' (I' & _ & B' & Ep). split_and!; [done|done|]. exists l'. split; [done|lia].
Qed.

(** The pending lists of these accounts all have [N] transactions. *)
Definition level (p : TxPool) (N : Z) (offs : list address) : Prop :=
  ∀ a, a ∈ offs → ∃ l, p_pending p !! a = Some l ∧ Z.of_nat (tl_Len l) = N.
Definition others (offs : list address) (p p' : TxPool) : Prop := ∀ b, b ∉ offs → p_pending p' !! b = p_pending p !! b.

(** A state in the middle of the loops: [pending] is the number of pending transactions. *)
Record counted (GS : Z) (pending : Z) (p : TxPool) : Prop := mkCounted {
  ct_inv : Inv [] p;
  ct_busy : busy p;
  ct_total : pending = count_lists (p_pending p);
  ct_slots : GlobalSlots (p_config p) = GS
}.

Lemma cap_offenders_ok GS N offs : ∀ pending p, counted GS pending p → NoDup offs → level p N offs → 2 ≤ N →
  runs (cap_offenders offs pending) p (λ r p', counted GS r p' ∧ r = pending - Z.of_nat (length offs) ∧ level p' (N - 1) offs ∧ others offs p p').
Proof.
  induction offs as [|a offs IH]; intros pending p C ND Lv HN; cbn [cap_offenders].
  { apply runs_ret. split_and!; [done|cbn; lia|by intros b ?%not_elem_of_nil|done]. }
  apply NoDup_cons in ND as [Ha ND]. destruct C as [I B Et Es]. destruct (Lv a (list_elem_of_here _ _)) as (l & El & Hl).
  eapply runs_seq; [by apply (cap_offender_ok p a l I B El ltac:(lia))|]. intros _ p1 (I1 & B1 & E1 & l' & Ep1 & Hl').
  assert (C1 : counted GS (pending - 1) p1).
  { constructor; [done|done| |congruence]. rewrite Ep1, (count_insert _ a l l' El). lia. }
  assert (Lv1 : level p1 N offs).
  { intros b Hb. destruct (Lv b (list_elem_of_further _ _ _ Hb)) as (lb & ? & ?). exists lb. rewrite Ep1, lookup_insert_ne by (intros ->; done). done. }
  eapply runs_mono; [by apply IH|]. intros r p2 (C2 & Er & Lv2 & O2). split_and!; [done|cbn [length]; lia| |].
  - intros b [->|Hb]%elem_of_cons; [|by apply Lv2]. exists l'. rewrite (O2 a Ha), Ep1, lookup_insert_eq. split; [done|lia].
  - intros b [Hb1 Hb2]%not_elem_of_cons. rewrite (O2 b Hb2), Ep1, lookup_insert_ne by done. done.
Qed.

Lemma others_trans offs p1 p2 p3 : others offs p1 p2 → others offs p2 p3 → others offs p1 p3.
Proof. intros H1 H2 b Hb. by rewrite (H2 b Hb), (H1 b Hb). Qed.

(** The lists are lowered together, down to the threshold unless there is room before;
    [pending] is enough fuel. *)
Lemma equalize_ok GS t offs fuel : 1 ≤ t → offs ≠ [] → ∀ N pending p, counted GS pending p → NoDup offs → level p N offs → t ≤ N → pending ≤ Z.of_nat fuel →
  runs (equalize fuel offs t pending) p (λ r p', counted GS r p' ∧ others offs p p' ∧ ∃ N', t ≤ N' ∧ level p' N' offs ∧ (r ≤ GS ∨ N' = t)).
Proof.
  intros Ht Hne. destruct (last offs) as [w|] eqn:Ew; [|by apply last_None in Ew].
  assert (Hw : w ∈ offs) by (by apply last_Some_elem_of). assert (Hpos : (0 < length offs)%nat) by (destruct offs; [done|cbn; lia]).
  induction fuel as [|fuel IH]; intros N pending p C ND Lv HN Hf.
  { exfalso. destruct (Lv w Hw) as (l & El & Hl). pose proof (count_at _ _ _ El). destruct C as [_ _ Et _]. lia. }
  cbn [equalize]. apply runs_get. rewrite (ct_slots _ _ _ C). destruct (Z.gtb_spec pending GS) as [Hgt|Hle].
  2: { apply runs_ret. split_and!; [done|by intros b|]. exists N. split_and!; [done|done|by left]. }
  rewrite Ew. unfold pending_len. destruct (Lv w Hw) as (l & El & Hl). apply runs_assoc, runs_get. rewrite El. apply runs_bind, runs_ret. rewrite Hl.
  destruct (Z.gtb_spec N t) as [Hgt'|Hle'].
  - eapply runs_seq; [apply (cap_offenders_ok GS N offs pending p C ND Lv); lia|]. intros r p1 (C1 & Er & Lv1 & O1).
    eapply runs_mono; [apply (IH (N - 1) r p1 C1 ND Lv1); lia|]. intros r2 p2 (C2 & O2 & HN2). split_and!; [done|by eapply others_trans|done].
  - apply runs_ret. split_and!; [done|by intros b|]. exists N. split_and!; [done|done|right; lia].
Qed.

(** The accounts still to come, with their numbers of transactions. *)
Definition waiting (p : TxPool) (slots : Z) (S : list (address * Z)) : Prop :=
  ∀ a n, (a, n) ∈ S → slots < n ∧ ∃ l, p_pending p !! a = Some l ∧ Z.of_nat (tl_Len l) = n.

Lemma penalize_ok GS slots S : 1 ≤ slots → ∀ offs pending p, counted GS pending p → NoDup (offs ++ S.*1) →
  StronglySorted (λ x y : address * Z, y.2 ≤ x.2) S → waiting p slots S →
  (pending ≤ GS ∨ offs = [] ∨ ∃ N, slots < N ∧ level p N offs ∧ ∀ a n, (a, n) ∈ S → n ≤ N) →
  runs (penalize S.*1 offs pending) p (λ r p', counted GS r.2 p' ∧ NoDup r.1 ∧ (r.2 ≤ GS ∨ r.1 = [] ∨ ∃ N, slots < N ∧ level p' N r.1)).
Proof.
  intros Hs. induction S as [|[a n] S IH]; intros offs pending p C ND Srt W Lv; cbn [fmap list_fmap penalize fst] in *.
  { apply runs_ret. rewrite app_nil_r in ND. split_and!; [done|done|]. destruct Lv as [?|[?|(N & ? & ? & _)]]; eauto 6. }
  apply runs_get. rewrite (ct_slots _ _ _ C). assert (ND1 : NoDup offs) by (by apply NoDup_app in ND as (? & _)).
  destruct (Z.gtb_spec pending GS) as [Hgt|Hle]; [|apply runs_ret; split_and!; [done|done|by left]].
  apply StronglySorted_inv in Srt as [Srt Hle]. rewrite Forall_forall in Hle. destruct (W a n (list_elem_of_here _ _)) as (Hn & l & El & Hl).
  assert (Ha : a ∉ offs) by (intros Hin; apply NoDup_app in ND as (_ & D & _); apply (D a Hin); by left).
  assert (ND2 : NoDup ((offs ++ [a]) ++ S.*1)) by (by rewrite <- app_assoc).
  assert (W2 : ∀ p', others offs p p' → waiting p' slots S).
  { intros p' O b k Hb. destruct (W b k (list_elem_of_further _ _ _ Hb)) as (? & lb & ? & ?). split; [done|]. exists lb. split; [|done]. rewrite (O b); [done|].
    intros Hin. apply NoDup_app in ND as (_ & D & _). apply (D b Hin). right. by apply (list_elem_of_fmap_2' _ _ (b, k)). }
  eapply (runs_seq _ _ _ _ (λ r p', counted GS r p' ∧ others offs p p' ∧ (r ≤ GS ∨ level p' n offs))).
  - destruct (Nat.ltb_spec 0 (length offs)) as [Hpos|Hz]; [|apply runs_ret; split_and!; [done|by intros b|right]; destruct offs; [by intros b ?%not_elem_of_nil|cbn in Hz; lia]].
    destruct Lv as [?|[->|(N & HN & Lv & Hmax)]]; [lia|cbn in Hpos; lia|]. unfold pending_len. apply runs_assoc, runs_get. rewrite El. apply runs_bind, runs_ret. rewrite Hl.
    pose proof (count_nonneg (p_pending p)). eapply runs_mono; [apply (equalize_ok GS n offs (Z.to_nat pending)) with (N := N); try done|].
    + lia.
    + intros ->. cbn in Hpos. lia.
    + apply (Hmax a). by left.
    + rewrite Z2Nat.id; [done|]. destruct C. lia.
    + intros r p' (C' & O' & N' & HN' & Lv' & Hr). split_and!; [done|done|]. destruct Hr as [?| ->]; [by left|by right].
  - intros r p' (C' & O' & Hr). apply IH; [done|done|done|by apply W2|]. destruct Hr as [?|Lv']; [by left|right; right]. exists n. split_and!; [done| |].
    + intros b [Hb|Hb]%elem_of_app; [by apply Lv'|]. apply list_elem_of_singleton in Hb as ->. exists l. by rewrite (O' a Ha).
    + intros b k Hb. by apply (Hle (b, k)).
Qed.

Lemma truncate_pending_ok p : Inv [] p → busy p → runs truncate_pending p (λ _ p', Inv [] p' ∧ busy p').
Proof.
  intros I B. unfold truncate_pending. apply runs_get. destruct (Z.gtb_spec (count_lists (p_pending p)) (GlobalSlots (p_config p))) as [Hgt|]; [|by apply runs_ret].
  set (spammers := omap _ _). destruct (prque_sorts spammers) as (S & -> & PS & Srt). set (slots := AccountSlots (p_config p)) in *.
  assert (W : waiting p slots S).
  { intros a n. rewrite PS. unfold spammers. rewrite list_elem_of_omap. intros (b & Hb & E). destruct (p_pending p !! b) as [l|] eqn:El; [|done]. cbn in E.
    destruct (negb _ && _) eqn:G; [|done]. injection E as <- <-. apply andb_true_iff in G as [_ G%Z.gtb_lt]. split; [done|]. by exists l. }
  assert (ND : NoDup S.*1).
  { rewrite PS. apply NoDup_omap_fst; [|apply range_lists_NoDup]. intros b c n E. destruct (p_pending p !! b); [|done]. cbn in E.
    destruct (negb _ && _); [|done]. by injection E. }
  pose proof (co_slots _ (iv_config _ _ I)) as Hs. fold slots in Hs. eapply runs_seq; [apply (penalize_ok (GlobalSlots (p_config p)) slots S Hs [] (count_lists (p_pending p)) p); try done; by right; left|].
  intros [offs pending] p1 (C1 & ND1 & H1). cbn [fst snd] in *. destruct (Z.gtb_spec pending (GlobalSlots (p_config p))) as [Hgt1|]; cbn [andb]; [|apply runs_ret; by destruct C1].
  destruct (Nat.ltb_spec 0 (length offs)) as [Hpos|]; [|apply runs_ret; by destruct C1]. destruct H1 as [?|[->|(N & HN & Lv)]]; [lia|cbn in Hpos; lia|].
  eapply runs_seq; [apply (equalize_ok (GlobalSlots (p_config p)) slots offs (Z.to_nat pending)) with (N := N); try done|].
  - intros ->. cbn in Hpos. lia.
  - lia.
  - pose proof (count_nonneg (p_pending p1)). destruct C1. lia.
  - intros r p2 (C2 & _). apply runs_ret. by destruct C2.
Qed.

(** Reading a list caches its order. *)
Lemma flatten_queue_ok p a l : Inv [] p → p_queue p !! a = Some l →
  runs (on_queue a (tl_Flatten range_txs)) p (λ txs p', Inv [] p' ∧ p_pending p' = p_pending p ∧ only a p p' ∧
    ∀ tx, tx ∈ txs → from_of tx = a ∧ p_all p' !! tx_Hash tx = Some tx).
Proof.
  intros I El. destruct (Inv_queue _ _ _ _ I El) as [Kl Sl]. destruct (tl_Flatten_same range_txs range_txs_all l Kl) as (l' & E & Tk & _).
  eapply runs_queue; [exact El|exact E|]. split_and!; [by apply (Inv_take_queue [] p a l [] l')|done|apply only_queue|].
  intros tx Hin. apply (known_sorted [] p a l tx I); [by right|done].
Qed.
Lemma flatten_pending_ok p a l : Inv [] p → busy p → p_pending p !! a = Some l →
  runs (on_pending a (tl_Flatten range_txs)) p (λ txs p', Inv [] p' ∧ busy p' ∧ only a p p' ∧ txs = sorted_txs (items l) ∧
    ∀ tx, tx ∈ txs → from_of tx = a ∧ p_all p' !! tx_Hash tx = Some tx).
Proof.
  intros I B El. destruct (Inv_pending _ _ _ _ I El) as [Kl Sl]. destruct (tl_Flatten_same range_txs range_txs_all l Kl) as (l' & E & Tk & Ei).
  eapply runs_pending; [exact El|exact E|]. split_and!; [by apply (Inv_take_pending [] p a l [] l')|apply busy_insert; [done|rewrite Ei; by apply (B a)]|apply only_pending|done|].
  intros tx Hin. apply (known_sorted [] p a l tx I); [by left|done].
Qed.

Lemma drop_queued_ok addrs : ∀ drop p, Inv [] p → busy p → NoDup addrs → (∀ a, a ∈ addrs → is_Some (p_queue p !! a)) →
  runs (drop_queued addrs drop) p (λ _ p', Inv [] p' ∧ busy p').
Proof.
  induction addrs as [|a addrs IH]; intros drop p I B ND H; cbn [drop_queued]; [by apply runs_ret|]. destruct (drop >? 0); [|by apply runs_ret].
  apply NoDup_cons in ND as [Ha ND]. destruct (H a (list_elem_of_here _ _)) as [l El]. apply runs_get. rewrite El.
  eapply runs_seq; [by apply (flatten_queue_ok p a l)|]. intros txs p1 (I1 & Ep1 & O1 & Hk). assert (B1 : busy p1) by (unfold busy; by rewrite Ep1).
  destruct (_ <=? drop).
  - eapply runs_seq; [by apply (remove_all_ok txs p1 a)|]. intros _ p2 (I2 & B2 & O2). apply IH; [done|done|done|]. intros b Hb.
    assert (Hne : b ≠ a) by (intros ->; done). destruct (on_lists _ _ _ O1 b Hne) as [_ E1], (on_lists _ _ _ O2 b Hne) as [_ E2]. rewrite E2, E1. apply H. by right.
  - eapply runs_mono; [apply (remove_all_ok _ p1 a I1 B1)|by intros _ p2 (? & ? & _)]. intros tx Hin. apply Hk. apply elem_of_take in Hin as (k & Hk' & _).
    apply list_elem_of_lookup_2 in Hk'. apply list_elem_of_In. apply in_rev. by apply list_elem_of_In.
Qed.

Lemma truncate_queue_ok p : Inv [] p → busy p → runs truncate_queue p (λ _ p', Inv [] p' ∧ busy p').
Proof.
  intros I B. unfold truncate_queue. apply runs_get. destruct (_ >? _); [|by apply runs_ret]. set (addrs := omap _ _).
  apply drop_queued_ok; [done|done| |].
  - rewrite <- Permutation_rev, sort_beats_all. apply NoDup_omap_fst; [|apply range_lists_NoDup]. intros b c n E.
    destruct (is_local p b); [done|]. by injection E.
  - intros a. rewrite <- Permutation_rev, sort_beats_all. intros ([c n] & -> & Hin)%list_elem_of_fmap. cbn.
    apply list_elem_of_omap in Hin as (b & Hb & E). destruct (is_local p b); [done|]. injection E as <- _. by apply range_lists_elem.
Qed.

Lemma promoteExecutables_ok accounts p : Inv [] p → busy p → runs (promoteExecutables accounts) p (λ _ p', Inv [] p' ∧ busy p').
Proof.
  intros I B. unfold promoteExecutables. apply runs_get. eapply runs_seq; [by apply promote_accounts_ok|]. intros _ p1 [I1 B1].
  eapply runs_seq; [by apply truncate_pending_ok|]. intros _ p2 [I2 B2]. by apply truncate_queue_ok.
Qed.

(** ** Eviction *)

Lemma time_Since_ok t p : runs (time_Since t) p (λ _ p', p' = p <| p_ticks ::= S |>).
Proof. eapply runs_eq; [reflexivity|done]. Qed.
Lemma Inv_tick p f : Inv [] p → Inv [] (p <| p_ticks ::= f |>).
Proof. intros [F X M V C]. by constructor. Qed.

Lemma evict_pending_ok p a : Inv [] p → busy p → is_Some (p_pending p !! a) → runs (evict_pending a) p (λ _ p', Inv [] p' ∧ busy p' ∧ only a p p').
Proof.
  intros I B [l El]. unfold evict_pending. apply runs_get. eapply runs_seq; [apply time_Since_ok|]. intros age p0 ->. pose proof (Inv_tick p S I) as I0.
  set (p0 := p <| p_ticks ::= S |>) in *. assert (O0 : only a p p0) by by constructor. destruct (_ >? _); [|by apply runs_ret].
  eapply runs_seq; [by apply (flatten_pending_ok p0 a l)|]. intros txs p1 (I1 & B1 & O1 & _ & Hk). eapply runs_mono; [by apply (remove_all_ok txs p1 a)|].
  intros _ p2 (I2 & B2 & O2). split_and!; [done|done|]. etrans; [exact O0|]. by etrans.
Qed.
Lemma evict_queued_ok p a : Inv [] p → busy p → is_Some (p_queue p !! a) → runs (evict_queued a) p (λ _ p', Inv [] p' ∧ busy p' ∧ only a p p').
Proof.
  intros I B [l El]. unfold evict_queued. apply runs_get. eapply runs_seq; [apply time_Since_ok|]. intros age p0 ->. pose proof (Inv_tick p S I) as I0.
  set (p0 := p <| p_ticks ::= S |>) in *. assert (O0 : only a p p0) by by constructor. destruct (_ >? _); [|by apply runs_ret].
  eapply runs_seq; [by apply (flatten_queue_ok p0 a l)|]. intros txs p1 (I1 & Ep1 & O1 & Hk). assert (B1 : busy p1) by (unfold busy; by rewrite Ep1).
  eapply runs_mono; [by apply (remove_all_ok txs p1 a)|]. intros _ p2 (I2 & B2 & O2). split_and!; [done|done|]. etrans; [exact O0|]. by etrans.
Qed.

(** The index is cleared of what is not in the pool: every stale entry is still there
    when its turn comes. *)
Definition entry (tx : Transaction) : outcome address * hash := (GetTransactionType tx, tx_Hash tx).
Lemma forget_stale_all txs : ∀ p rest, Inv [] p → busy p →
  entry <$> index_txs (p_priced p) ≡ₚ (entry <$> txs) ++ rest → (∀ tx, tx ∈ txs → ∃ kind, GetTransactionType tx = Ret kind) →
  runs (each forget_stale txs) p (λ _ p', Inv [] p' ∧ busy p').
Proof.
  induction txs as [|tx txs IH]; intros p rest I B P Hk; cbn [each]; [by apply runs_ret|]. unfold forget_stale at 1. apply runs_assoc, runs_get.
  destruct (decide (is_Some (p_all p !! tx_Hash tx))) as [Hin|Hout].
  - rewrite bool_decide_true by done. apply runs_bind, runs_ret. apply (IH p (entry tx :: rest)); [done|done| |intros x Hx; apply Hk; by right].
    rewrite P. cbn. by rewrite Permutation_middle.
  - rewrite bool_decide_false by done. apply runs_assoc. destruct (Hk tx (list_elem_of_here _ _)) as [kind Hkind]. eapply runs_lift; [exact Hkind|].
    assert (Hx : ∃ x, x ∈ index_txs (p_priced p) ∧ GetTransactionType x = Ret kind ∧ tx_Hash x = tx_Hash tx).
    { assert (Hm : entry tx ∈ entry <$> index_txs (p_priced p)) by (rewrite P; by left). apply list_elem_of_fmap in Hm as (x & Ex & Hx).
      exists x. unfold entry in Ex. injection Ex as E1 E2. split_and!; [done|congruence|done]. }
    destruct Hx as (x & Hx & Hxk & Hxh). destruct (RemoveByHash_ok tx_Hash x kind (p_priced p) Hxk (ix_types _ _ (iv_indexed _ _ I)) Hx) as (t' & gone & Er & K' & Hg & Pg & Hgk).
    rewrite Hxh in Er, Hg. apply runs_bind. eapply runs_priced; [exact Er|]. apply (IH _ rest).
    + destruct I as [F X M V C]. constructor; cbn; [done| |done..]. apply (indexed_mono _ _ _ _ X); [done|done|]. intros y [h Hy] Hi. rewrite Pg in Hi.
      apply elem_of_cons in Hi as [->|?]; [|done]. destruct (ix_all _ _ X h gone Hy) as (Eh & _). exfalso. apply Hout. rewrite <- Hg, Eh. by exists gone.
    + done.
    + cbn. assert (Eg : entry gone = entry tx).
      { unfold entry. by rewrite Hg, Hkind, Hgk. }
      rewrite Pg in P. cbn in P. rewrite Eg in P. by apply Permutation_cons_inv in P.
    + intros y Hy. apply Hk. by right.
Qed.

Lemma evict_tick_ok p : Inv [] p → busy p → runs evict_tick p (λ _ p', Inv [] p' ∧ busy p').
Proof.
  intros I B. unfold evict_tick. apply runs_get. eapply runs_seq.
  { apply (each_account evict_pending p_pending); [|intros; by apply evict_pending_ok|done|done|apply range_lists_NoDup|apply range_lists_elem].
    intros p1 p2 a b O Hb. by apply (on_lists _ _ _ O b Hb). }
  intros _ p1 [I1 B1]. apply runs_get. eapply runs_seq.
  { apply (each_account evict_queued p_queue); [|intros; by apply evict_queued_ok|done|done|apply range_lists_NoDup|apply range_lists_elem].
    intros p2 p3 a b O Hb. by apply (on_lists _ _ _ O b Hb). }
  intros _ p2 [I2 B2]. apply runs_get. destruct (_ =? _)%nat; [by apply runs_ret|]. destruct (GetTransactionList_ok (p_priced p2)) as [P _].
  apply (forget_stale_all _ p2 []); [done|done|by rewrite P, app_nil_r|]. intros x Hx. rewrite P in Hx. apply list_elem_of_bind in Hx as (kv & Hv & Hkv).
  destruct (ix_types _ _ (iv_indexed _ _ I2)) as [F _]. rewrite Forall_forall in F. destruct (F kv Hkv) as [_ _ F3]. rewrite Forall_forall in F3. eexists. by apply F3.
Qed.

(** ** Adding *)

(** The lists already have the new transaction; now it becomes known and the one it
    replaces is forgotten. *)
Lemma settle_ok {B} tx old (k : unit → PM B) p Q : tx_fine tx → indexed (p_all p) (p_priced p) → ms_ok (p_managed p) → view_ok (p_view p) (p_heap p) → config_ok (p_config p) →
  (∀ o, old = Some o → p_all p !! tx_Hash o = Some o) →
  filed_as true false [] (p_pending p) (p_queue p) (<[tx_Hash tx := tx]> (from_option (λ o, delete (tx_Hash o) (p_all p)) (p_all p) old)) →
  (∀ p', Inv [] p' → p_pending p' = p_pending p → runs (k tt) p' Q) →
  runs (forget_old old;; remember (tx_Hash tx) tx ≫= k) p Q.
Proof.
  intros Hf X M V C Ho F Hk. destruct old as [o|]; cbn [forget_old from_option] in *.
  - destruct (indexed_forget _ _ _ X (Ho o eq_refl)) as (kind & t' & Hkind & Er & X'). unfold forget at 1. apply runs_assoc. eapply runs_lift; [exact Hkind|].
    apply runs_assoc, runs_set, runs_bind. eapply runs_priced; [exact Er|]. eapply runs_seq; [by apply (remember_ok tx [])|]. intros [] p' (I & Ep & _). by apply Hk.
  - apply runs_bind, runs_ret. eapply runs_seq; [by apply (remember_ok tx [])|]. intros [] p' (I & Ep & _). by apply Hk.
Qed.

Lemma Inv_known p a l old n : Inv [] p → p_pending p !! a = Some l ∨ p_queue p !! a = Some l → items l !! n = Some old → p_all p !! tx_Hash old = Some old.
Proof.
  intros I E Ho. apply (fl_known _ _ _ _ _ _ (iv_filed _ _ I) a n). destruct E as [E|E]; [left|right]; by rewrite (txs_of_Some _ _ _ E).
Qed.

Lemma enqueueTx_new tx p : Inv [] p → busy p → tx_fine tx → p_all p !! tx_Hash tx = None → txs_of (p_pending p) (from_of tx) !! Nonce tx = None →
  runs (enqueueTx (tx_Hash tx) tx) p (λ _ p', Inv [] p' ∧ busy p').
Proof.
  intros I B Hf Ha Hp. unfold enqueueTx. eapply runs_seq; [by apply ensure_queue_ok|]. intros _ p1 (I1 & Ep & Ea & _ & _ & [l El]). apply runs_get.
  assert (B1 : busy p1) by (unfold busy; by rewrite Ep). destruct (Inv_queue _ _ _ _ I1 El) as [Kl Sl].
  destruct (tl_Add_ok tx (PriceBump (p_config p1)) l Kl (tf_nonce _ Hf)) as ([ins old] & l' & E & K' & S' & R).
  apply runs_bind. eapply runs_queue; [exact El|exact E|]. destruct ins; cbn [negb].
  - destruct R as (Eo & Ei & _). destruct I1 as [F X M V C] eqn:EI. apply (settle_ok tx old); try done.
    + intros o ->. apply (Inv_known p1 (from_of tx) l o (Nonce tx)); [done|by right|done].
    + cbn. rewrite Eo. apply filed_swap. apply filed_replace; [by apply filed_swap|done|by rewrite Ea|by rewrite Ep|done|done|done].
    + intros p' I' Ep'. apply runs_ret. split; [done|]. unfold busy. by rewrite Ep'.
  - apply runs_ret. destruct R as [-> _]. split; [|done]. by apply (Inv_take_queue [] p1 (from_of tx) l [] l I1 El), took_nil.
Qed.

Lemma insert_tx_ok tx local p : Inv [] p → busy p → tx_fine tx → p_all p !! tx_Hash tx = None → runs (insert_tx tx local) p (λ _ p', Inv [] p' ∧ busy p').
Proof.
  intros I B Hf Ha. unfold insert_tx. apply runs_get. destruct (from_option (tl_Overlaps tx) false (p_pending p !! from_of tx)) eqn:Ov.
  - destruct (p_pending p !! from_of tx) as [l|] eqn:El; [|done]. cbn in Ov. unfold tl_Overlaps, tm_Get in Ov. apply bool_decide_eq_true in Ov as [o Ho].
    destruct (Inv_pending _ _ _ _ I El) as [Kl Sl]. destruct (tl_Add_ok tx (PriceBump (p_config p)) l Kl (tf_nonce _ Hf)) as ([ins old] & l' & E & K' & S' & R).
    apply runs_bind. eapply runs_pending; [exact El|exact E|]. destruct ins; cbn [negb].
    + destruct R as (Eo & Ei & _). pose proof I as [F X M V C]. assert (B' : items l' ≠ ∅) by (rewrite Ei; apply insert_non_empty). apply (settle_ok tx old); try done.
      * intros x ->. apply (Inv_known p (from_of tx) l x (Nonce tx)); [done|by left|done].
      * cbn. rewrite Eo. apply filed_replace; [done|done|done| |done|done|done]. apply (fl_apart _ _ _ _ _ _ F). rewrite (txs_of_Some _ _ _ El). by exists o.
      * intros p' I' Ep'. apply runs_set, runs_ret. split; [destruct I' as [F' X' M' V' C']; by constructor|]. unfold busy. cbn. rewrite Ep'. by apply (busy_insert p).
    + apply runs_ret. destruct R as [-> _]. split; [by apply (Inv_take_pending [] p (from_of tx) l [] l I El), took_nil|]. apply busy_insert; [done|by apply (B (from_of tx))].
  - eapply runs_seq; [apply (enqueueTx_new tx p); try done|].
    { unfold txs_of. destruct (p_pending p !! from_of tx) as [l|]; cbn in *; [|done]. unfold tl_Overlaps, tm_Get in Ov. apply bool_decide_eq_false in Ov.
      by apply eq_None_not_Some. }
    intros [replace|err] p1 [I1 B1]; [|by apply runs_ret]. destruct local; [|by apply runs_bind, runs_ret, runs_ret].
    apply runs_set, runs_ret. split; [destruct I1 as [F' X' M' V' C']; by constructor|done].
Qed.

(** ** Checking *)

(** The check of a vote edits arrays and keeps every slice valid. *)
Definition valid_later (h h' : heap) : Prop := ∀ sl, valid_slice h sl → valid_slice h' sl.

Lemma write_valid h i l : length l = length (array h i) → valid_later h (write_array i l h).
Proof. intros E sl [H1 H2]. split; [|done]. rewrite array_write. case_decide as D; [subst i; lia|done]. Qed.
Lemma append1_valid grow sl x h : valid_later h (append1 grow sl x h).2.
Proof.
  unfold append1. destruct (Nat.ltb_spec (sl_len sl) (length (array h (sl_arr sl)))).
  - cbn. apply write_valid. by rewrite length_insert.
  - cbn. intros sl' [H1 H2]. split; cbn; [|lia]. unfold array in *. cbn. rewrite lookup_insert_ne by lia. done.
Qed.
Lemma remove_at_valid sl j h : valid_slice h sl → (j < sl_len sl)%nat → valid_later h (remove_at sl j h).2.
Proof.
  intros [H1 H2] Hj. cbn. apply write_valid. unfold contents. rewrite !length_app, length_take, !length_drop, length_take. lia.
Qed.

Lemma validateVote_valid vs dl : ∀ h sl, valid_slice h sl → Forall (λ v, is_Some (Candidate v)) vs →
  ∃ r h', validateVote slice_grow sl vs dl h = Ret (r, h') ∧ valid_later h h'.
Proof.
  assert (Stop : ∀ (e : vote_rejection) (h : heap), ∃ (r : option vote_rejection) h', (mret (Some e) : GM heap _) h = Ret (r, h') ∧ valid_later h h') by (intros e h; exists (Some e), h; split; [done|by intros sl]).
  induction vs as [|v vs IH]; intros h sl V Hc; [exists None, h; split; [done|by intros ?]|]. apply Forall_cons in Hc as [[c Ec] Hc]. cbn [validateVote]. rewrite Ec.
  destruct (vote_op_cases (Operation v)) as [E|[E|[E0 E1]]].
  - rewrite E. erewrite GM_bind_run by reflexivity. destruct (sliceContains c (contents h sl)).2; [apply Stop|]. destruct (decide (c ∈ dl)); [|apply Stop].
    pose proof (append1_valid slice_grow sl c h) as VL. destruct (append1 slice_grow sl c h) as [sl1 h1] eqn:Ea. cbn [snd] in VL.
    destruct (append1_ok _ _ _ _ _ _ V Ea) as (_ & V1 & _). cbv beta iota. erewrite GM_bind_run by reflexivity.
    destruct (IH h1 sl1 V1 Hc) as (r & h' & E' & VL'). exists r, h'. split; [done|]. intros s0 Hs. by apply VL', VL.
  - rewrite E. erewrite GM_bind_run by reflexivity. unfold sliceContains. destruct (decide (c ∈ contents h sl)) as [Hin|Hout]; [|rewrite sliceContains_out by done; apply Stop].
    destruct (sliceContains_in 0 c _ Hin) as (l1 & l2 & Hl & Hl1 & ->). rewrite Nat.add_0_l, Nat2Z.id.
    assert (Hj : (length l1 < sl_len sl)%nat) by (rewrite <- (contents_length _ _ V), Hl, length_app; cbn; lia).
    pose proof (remove_at_valid sl (length l1) h V Hj) as VL. destruct (remove_at sl (length l1) h) as [sl1 h1] eqn:Ea. cbn [snd] in VL.
    destruct (remove_at_ok _ _ _ _ _ _ _ V Hl Ea) as (_ & V1 & _). cbv beta iota. erewrite GM_bind_run by reflexivity.
    destruct (IH h1 sl1 V1 Hc) as (r & h' & E' & VL'). exists r, h'. split; [done|]. intros s0 Hs. by apply VL', VL.
  - destruct (Operation v) as [|[q|q|]|q]; try done; apply Stop.
Qed.

(** What a transaction from outside must have for the pool to survive it: a recipient,
    a candidate in each vote, and a description with a supply if it publishes an asset. *)
Record tx_sane (tx : Transaction) : Prop := mkTxSane {
  ts_to : is_Some (Recipient (data tx));
  ts_nonce : is_u64 (Nonce tx);
  ts_votes votes : BytesToVote (Vote (data tx)) = inl votes → Forall (λ v, is_Some (Candidate v)) votes;
  ts_asset : Action (data tx) = ActionPublishAsset → ∃ ai, AssetInfo_of tx = Ret (Some ai)
}.

Lemma sane_fine tx : tx_sane tx → tx_fine tx.
Proof.
  intros [[to Ht] Hn _ _]. constructor; [|done]. unfold GetTransactionType. rewrite Ht. cbn.
  repeat (match goal with |- context [if ?b then _ else _] => destruct b end); eauto.
Qed.

Lemma Inv_heap L p h : Inv L p → valid_later (p_heap p) h → Inv L (p <| p_heap := h |>).
Proof. intros [F X M [V1 V2] C] VL. constructor; cbn; [done..| |done]. constructor; [done|]. intros a. by apply VL. Qed.

Lemma validate_action_ok tx from dl p : Inv [] p → tx_sane tx → runs (validate_action tx from dl) p (λ _ p', Inv [] p' ∧ p_pending p' = p_pending p ∧ p_all p' = p_all p).
Proof.
  intros I S. unfold validate_action. apply runs_get. destruct (_ =? ActionRegister); [by apply runs_ret|]. destruct (_ || _).
  { destruct (BytesToVote _) as [votes|] eqn:Ev; [|by apply runs_ret]. destruct (_ =? 0)%nat; [by apply runs_ret|].
    destruct (validateVote_valid votes dl (p_heap p) (v_votes (p_view p) from) (vo_votes _ _ (iv_view _ _ I) from) (ts_votes _ S _ Ev)) as (r & h' & E & VL).
    apply runs_bind. eapply runs_eq; [unfold on_votes; by rewrite E|]. pose proof (Inv_heap _ _ _ I VL). destruct r; by apply runs_ret. }
  destruct (Action (data tx) =? ActionPublishAsset) eqn:Ea; [|destruct (_ =? ActionCreateContract); by apply runs_ret]. apply Z.eqb_eq in Ea. destruct (ts_asset _ S Ea) as [ai Hai].
  eapply runs_lift; [exact Hai|]. eapply runs_lift; [reflexivity|]. by apply runs_ret.
Qed.

Lemma validateTx_ok tx local p : Inv [] p → tx_sane tx → runs (validateTx tx local) p (λ _ p', Inv [] p' ∧ p_pending p' = p_pending p ∧ p_all p' = p_all p).
Proof.
  intros I S. unfold validateTx. apply runs_get. repeat (match goal with |- TxPoolSteps.runs _ (if ?b then _ else _) _ _ => destruct b; [by apply runs_ret|] end).
  destruct (tx_Sender tx) as [from|]; [|by apply runs_ret]. cbv zeta.
  repeat (match goal with |- TxPoolSteps.runs _ (if ?b then _ else _) _ _ => destruct b; [by apply runs_ret|] end).
  destruct GetDelegatePoll as [dl|]; [|by apply runs_ret]. eapply runs_seq; [by apply validate_action_ok|]. intros [err|] p1 H; [by apply runs_ret|].
  repeat (match goal with |- TxPoolSteps.runs _ (if ?b then _ else _) _ _ => destruct b; [by apply runs_ret|] end). destruct (IntrinsicGas _ _); by apply runs_ret.
Qed.

(** ** Room in a full pool *)

Context {HT : T no_live_tx}.

Lemma Inv_index p t : Inv [] p → types_ok t → (∀ x, (∃ h, p_all p !! h = Some x) → x ∈ index_txs (p_priced p) → x ∈ index_txs t) → Inv [] (p <| p_priced := t |>).
Proof. intros [F X M V C] K H. constructor; cbn; [done| |done..]. by apply (indexed_mono _ _ _ _ X). Qed.

Lemma make_room_ok tx kind p : Inv [] p → GetTransactionType tx = Ret kind → p_all p ≠ ∅ →
  runs (make_room tx kind) p (λ _ p', Inv [] p' ∧ p_pending p' = p_pending p ∧ p_all p' = p_all p).
Proof.
  intros I Hk Hne. pose proof (iv_indexed _ _ I) as X. unfold make_room. apply runs_get. destruct (sorter_Get kind (p_priced p)) as [i|] eqn:Hg.
  - pose proof (type_Underpriced_ok tx_Hash (p_all p) tx kind (p_priced p) i Hk (ix_types _ _ X) Hg) as U. apply runs_bind. unfold TxPoolSteps.runs at 1, on_priced at 1.
    destruct (type_Underpriced tx_Hash (p_all p) tx (p_priced p)) as [[under t]|w]; [|by subst w]. destruct U as (K & Hlive & Ek).
    assert (I1 : Inv [] (p <| p_priced := t |>)).
    { apply Inv_index; [done|done|]. intros x [h Hx] Hi. apply Hlive; [|done]. unfold in_pool. apply bool_decide_eq_true. destruct (ix_all _ _ X h x Hx) as (-> & _). by exists x. }
    destruct under; [by apply runs_ret|]. rewrite <- (sorter_Get_keys kind _ _ Ek) in Hg. destruct (cheapest_of_ok t kind i K Hg) as (h & t' & E & K' & Hin).
    apply runs_bind. eapply runs_priced; [exact E|]. apply runs_ret. split_and!; [|done|done]. apply (Inv_index (p <| p_priced := t |>) t'); [done|done|]. intros x _. apply Hin.
  - destruct (_ >? maxTrxType); [by apply runs_ret|]. destruct (map_choose _ Hne) as (h & x & Hx). destruct (ix_all _ _ X h x Hx) as (_ & _ & Hin).
    destruct (RemoveTx_ok tx_Hash (p_priced p) (ix_types _ _ X)) as (h' & t' & E & K' & Hi); [intros Et; rewrite Et in Hin; by apply not_elem_of_nil in Hin|].
    apply runs_bind. eapply runs_priced; [exact E|]. apply runs_ret. split_and!; [|done|done]. apply Inv_index; [done|done|]. intros y _. apply Hi.
Qed.

Lemma pool_add_ok tx local p : Inv [] p → busy p → tx_sane tx → runs (pool_add tx local) p (λ _ p', Inv [] p' ∧ busy p').
Proof.
  intros I B S. pose proof (sane_fine tx S) as Hf. unfold pool_add. destruct (ts_to _ S) as [to Hto]. eapply runs_lift; [by rewrite Hto|].
  destruct (tf_kind _ Hf) as [kind Hk]. eapply runs_lift; [exact Hk|]. apply runs_get. destruct (p_all p !! tx_Hash tx) as [x|] eqn:Ex.
  { rewrite bool_decide_true by done. by apply runs_ret. }
  rewrite bool_decide_false by (by intros [? ?]). eapply runs_seq; [by apply validateTx_ok|]. intros [err|] p1 (I1 & Ep1 & Ea1).
  { apply runs_ret. split; [done|]. unfold busy. by rewrite Ep1. }
  assert (B1 : busy p1) by (unfold busy; by rewrite Ep1). rewrite <- Ea1 in Ex. apply runs_get. destruct (Z.geb_spec (Z.of_nat (base.size (p_all p1))) (u64 (GlobalQueue (p_config p1) + GlobalSlots (p_config p1)))) as [Hfull|].
  2: { by apply insert_tx_ok. }
  assert (Hne : p_all p1 ≠ ∅).
  { intros E. pose proof (co_room _ (iv_config _ _ I1)). rewrite E, map_size_empty in Hfull. lia. }
  eapply runs_seq; [by apply (make_room_ok tx kind p1)|]. intros [victim|err] p2 (I2 & Ep2 & Ea2); [|apply runs_ret; split; [done|]; unfold busy; by rewrite Ep2].
  assert (B2 : busy p2) by (unfold busy; by rewrite Ep2). eapply runs_seq; [by apply (removeTx_ok victim p2)|]. intros _ p3 (I3 & B3 & R3). apply insert_tx_ok; [done|done|done|].
  rewrite <- Ea2 in Ex. destruct (p_all p2 !! victim) as [v|]; [|by subst p3]. apply eq_None_not_Some. intros [y Hy].
  pose proof (lookup_weaken _ _ _ _ Hy (on_all _ _ _ R3)). congruence.
Qed.

Lemma addTx_ok tx local p : Inv [] p → busy p → tx_sane tx → runs (addTx tx local) p (λ _ p', Inv [] p' ∧ busy p').
Proof.
  intros I B S. unfold addTx. eapply runs_seq; [by apply pool_add_ok|]. intros [replace|err] p1 [I1 B1]; [|by apply runs_ret].
  destruct replace; [by apply runs_bind, runs_ret, runs_ret|]. eapply runs_seq; [by apply promoteExecutables_ok|]. intros ? p2 H. by apply runs_ret.
Qed.

Lemma add_each_ok local txs : ∀ dirty p, Inv [] p → busy p → Forall tx_sane txs → runs (add_each txs local dirty) p (λ _ p', Inv [] p' ∧ busy p').
Proof.
  induction txs as [|tx txs IH]; intros dirty p I B F; cbn [add_each]; [by apply runs_ret|]. apply Forall_cons in F as [S F].
  eapply runs_seq; [by apply pool_add_ok|]. intros r p1 [I1 B1]. eapply runs_seq; [by apply IH|]. intros [errs d] p2 H. by apply runs_ret.
Qed.
Lemma addTxsLocked_ok txs local p : Inv [] p → busy p → Forall tx_sane txs → runs (addTxsLocked txs local) p (λ _ p', Inv [] p' ∧ busy p').
Proof.
  intros I B F. unfold addTxsLocked. eapply runs_seq; [by apply add_each_ok|]. intros [errs dirty] p1 [I1 B1].
  destruct (bool_decide (dirty = ∅)); [by apply runs_bind, runs_ret, runs_ret|]. eapply runs_seq; [by apply promoteExecutables_ok|]. intros ? p2 H. by apply runs_ret.
Qed.

Lemma SetGasPrice_ok price p : Inv [] p → busy p → runs (SetGasPrice price) p (λ _ p', Inv [] p' ∧ busy p').
Proof.
  intros I B. unfold SetGasPrice. apply runs_set, runs_get. set (p0 := p <| p_gasPrice := price |>). assert (I0 : Inv [] p0) by (destruct I; by constructor).
  destruct (type_Cap_ok (local_tx p0) (p_all p0) (v_code (p_view p0)) price (p_priced p0) (ix_types _ _ (iv_indexed _ _ I0))) as (drops & t' & E & K & H).
  apply runs_bind. eapply runs_priced; [exact E|]. assert (I1 : Inv [] (p0 <| p_priced := t' |>)) by (apply Inv_index; [done|done|intros x _; apply H]).
  apply (runs_each remove_listed (λ _ p', Inv [] p' ∧ busy p')); [|done]. intros tx l p' [I' B']. eapply runs_mono; [by apply removeTx_ok|]. by intros _ p'' (? & ? & _).
Qed.

(** ** A new head *)

(** What the pool relies on of the chain: a block is found under its number, none comes
    before the first, and the states and the transactions of blocks are sane. *)
Class ChainLaws : Prop := {
  GetBlock_number h n b : GetBlock h n = Some b → NumberU64 b = n;
  GetBlock_first h : GetBlock h (2 ^ 64 - 1) = None;
  GetBlock_sane h n b : GetBlock h n = Some b → Forall tx_sane (transactions b);
  StateAt_sane root v h : StateAt root = inl (v, h) → view_ok v h
}.
Context `{CL : !ChainLaws}.

Lemma NumberU64_range b : 0 ≤ NumberU64 b < 2 ^ 64.
Proof. unfold NumberU64, Uint64, u64. apply Z.mod_pos_bound. lia. Qed.
Lemma parent_number b b' : parent_of b = Some b' → 0 < NumberU64 b ∧ NumberU64 b' = NumberU64 b - 1 ∧ Forall tx_sane (transactions b').
Proof.
  unfold parent_of. fold (NumberU64 b). intros E. pose proof (NumberU64_range b). destruct (Z.eq_dec (NumberU64 b) 0) as [E0|].
  - rewrite E0 in E. change (u64 (0 - 1)) with (2 ^ 64 - 1) in E. by rewrite GetBlock_first in E.
  - split_and!; [lia| |by eapply GetBlock_sane]. rewrite (GetBlock_number _ _ _ E). unfold u64. rewrite Z.mod_small; lia.
Qed.

Lemma walk_down_ok height fuel : ∀ b txs, 0 ≤ height → NumberU64 b - height ≤ Z.of_nat fuel → Forall tx_sane txs → Forall tx_sane (transactions b) →
  ∃ r, walk_down fuel b height txs = Ret r ∧ ∀ b' txs', r = Some (b', txs') → NumberU64 b' = Z.min (NumberU64 b) height ∧ Forall tx_sane txs' ∧ Forall tx_sane (transactions b').
Proof.
  induction fuel as [|fuel IH]; intros b txs Hh Hf F Fb; cbn [walk_down]; destruct (Z.gtb_spec (NumberU64 b) height) as [Hgt|Hle]; try lia.
  - eexists. split; [done|]. intros b' txs' [= <- <-]. split_and!; [lia|done|done].
  - destruct (parent_of b) as [b1|] eqn:E; [|by eexists]. destruct (parent_number b b1 E) as (_ & En & F1).
    destruct (IH b1 (txs ++ transactions b) Hh ltac:(lia) ltac:(by apply Forall_app) F1) as (r & Er & Hr). exists r. split; [done|]. intros b' txs' Hb.
    destruct (Hr b' txs' Hb) as (? & ? & ?). split_and!; [lia|done|done].
  - eexists. split; [done|]. intros b' txs' [= <- <-]. split_and!; [lia|done|done].
Qed.
Lemma walk_both_ok fuel : ∀ rem add d i, NumberU64 rem < Z.of_nat fuel → Forall tx_sane d → Forall tx_sane (transactions rem) →
  ∃ r, walk_both fuel rem add d i = Ret r ∧ ∀ d' i', r = Some (d', i') → Forall tx_sane d'.
Proof.
  induction fuel as [|fuel IH]; intros rem add d i Hf F Fr; cbn [walk_both]; case_bool_decide; try (eexists; split; [done|]; by intros d' i' [= <- <-]).
  - pose proof (NumberU64_range rem). lia.
  - destruct (parent_of rem) as [rem'|] eqn:E; [|by eexists]. destruct (parent_of add) as [add'|]; [|by eexists]. destruct (parent_number rem rem' E) as (_ & En & F1).
    apply IH; [lia|by apply Forall_app|done].
Qed.

Definition head_known (h : Header) : Prop := is_Some (GetBlock (head_Hash h) (Uint64 (Number h))).
Lemma reinjected_ok oldHead newHead : (∀ h, oldHead = Some h → head_known h) → head_known newHead →
  ∃ r, reinjected oldHead newHead = Ret r ∧ ∀ txs, r = Some txs → Forall tx_sane txs.
Proof.
  intros Ho [add Ha]. unfold reinjected. destruct oldHead as [old|]; [|eexists; split; [done|]; by intros txs [= <-]].
  case_bool_decide; [eexists; split; [done|]; by intros txs [= <-]|]. cbv zeta. destruct (Z.gtb_spec (Z.abs (Uint64 (Number old) - Uint64 (Number newHead))) 64) as [|Hd]; [eexists; split; [done|]; by intros txs [= <-]|].
  destruct (Ho old eq_refl) as [rem Hr]. rewrite Hr, Ha. cbn [deref mbind outcome_bind]. pose proof (GetBlock_number _ _ _ Hr) as Nr. pose proof (GetBlock_number _ _ _ Ha) as Na.
  pose proof (NumberU64_range rem) as Rr. pose proof (NumberU64_range add) as Ra.
  destruct (walk_down_ok (NumberU64 add) 64 rem []) as (r1 & E1 & H1); [lia|lia|constructor|by eapply GetBlock_sane|]. rewrite E1. cbn [mbind outcome_bind].
  destruct r1 as [[rem1 d1]|]; [|by eexists]. destruct (H1 rem1 d1 eq_refl) as (N1 & F1 & G1).
  destruct (walk_down_ok (NumberU64 rem1) 64 add []) as (r2 & E2 & H2); [lia|lia|constructor|by eapply GetBlock_sane|]. rewrite E2. cbn [mbind outcome_bind].
  destruct r2 as [[add2 i2]|]; [|by eexists]. destruct (walk_both_ok (S (Z.to_nat (NumberU64 rem1))) rem1 add2 d1 i2) as (r3 & E3 & H3); [lia|done|done|]. rewrite E3. cbn [mbind outcome_bind].
  destruct r3 as [[d3 i3]|]; [|by eexists]. eexists. split; [done|]. intros txs [= <-]. unfold tx_difference. apply Forall_forall. intros x [_ Hx]%list_elem_of_filter.
  specialize (H3 d3 i3 eq_refl). rewrite Forall_forall in H3. by apply H3.
Qed.

Lemma set_pending_nonce_ok p a : Inv [] p → busy p → is_Some (p_pending p !! a) → runs (set_pending_nonce a) p (λ _ p', Inv [] p' ∧ busy p' ∧ only a p p').
Proof.
  intros I B [l El]. unfold set_pending_nonce. eapply runs_seq; [by apply (flatten_pending_ok p a l)|]. intros txs p1 (I1 & B1 & O1 & -> & _).
  destruct (last (sorted_txs (items l))) as [tx|] eqn:E.
  - destruct (ms_SetNonce_ok a (u64 (Nonce tx + 1)) (p_managed p1) (iv_managed _ _ I1) (u64_is_u64 _)) as (ms & Es & Ks & _). eapply runs_managed; [exact Es|].
    split_and!; [by apply Inv_managed|done|]. etrans; [exact O1|]. by constructor.
  - exfalso. apply last_None in E. apply (B a l El). apply map_empty. intros n. apply eq_None_not_Some. intros [x Hx]. destruct (Inv_pending _ _ _ _ I El) as [Kl _].
    pose proof (items_at l n x Kl Hx) as Hx'. apply (elem_sorted_txs l x Kl) in Hx'. rewrite E in Hx'. by apply not_elem_of_nil in Hx'.
Qed.

Lemma pool_reset_ok oldHead newHead p : Inv [] p → busy p → (∀ h, oldHead = Some h → head_known h) → head_known newHead →
  runs (pool_reset oldHead newHead) p (λ _ p', Inv [] p' ∧ busy p').
Proof.
  intros I B Ho Hn. unfold pool_reset. destruct (reinjected_ok oldHead newHead Ho Hn) as (r & Er & Hr). eapply runs_lift; [exact Er|].
  destruct r as [txs|]; [|by apply runs_ret]. destruct (StateAt (Root newHead)) as [[v h]|] eqn:Es; [|by apply runs_ret]. pose proof (StateAt_sane _ _ _ Es) as V.
  apply runs_set. set (p1 := p <| p_view := v |> <| p_heap := h |> <| p_managed := _ |> <| p_maxGas := _ |>).
  assert (I1 : Inv [] p1) by (destruct I as [F X M _ C]; constructor; cbn; [done|done| |done|done]; constructor; [apply V|apply map_Forall_empty]).
  eapply runs_seq; [by apply (addTxsLocked_ok txs false p1 I1 B), Hr|]. intros _ p2 [I2 B2]. eapply runs_seq; [by apply demote_ok|]. intros _ p3 [I3 B3]. apply runs_get.
  eapply runs_seq.
  { apply (each_account set_pending_nonce p_pending); [|intros; by apply set_pending_nonce_ok|done|done|apply range_lists_NoDup|apply range_lists_elem].
    intros q1 q2 a b O Hb. by apply (on_lists _ _ _ O b Hb). }
  intros _ p4 [I4 B4]. by apply promoteExecutables_ok.
Qed.
End Limits.
