(* ===== verification/TxPoolClaims.v ===== *)
(** * The transaction pool: claims

    Sequences of calls of the pool from its creation on, and situations in which
    it does not do what it means to. *)

From S2P Require Import Prelude Interfaces AssetInfo StateTypes StateSample Hex VmData Votes.
From S2P Require Import VmGas VoteCount StateDB Evm Transition Secp TxData Signing.
From S2P Require Import Bloom Blocks Heap TxList TxPriced ManagedState TxPool TxPoolLists.
From S2P Require Import TxPoolBooks TxPoolSteps TxPoolRun.

(** ** Sequences of calls *)

Inductive pool_op : Type :=
| opAddLocal (tx : Transaction)
| opAddRemote (tx : Transaction)
| opAddLocals (txs : list Transaction)
| opAddRemotes (txs : list Transaction)
| opSetGasPrice (price : Z)
| opNewHead (oldHead newHead : Header)
| opEvict.

Section Claims.
Context `{TX : PoolTx} `{JSON : TxJson} `{RT : PoolRuntime}.

(** Each call sees the chain as it is then. *)
Definition pool_exec (chain : PoolChain) (o : pool_op) : PM (list (option poolerr)) :=
  match o with
  | opAddLocal tx => e ← AddLocal tx; mret [e]
  | opAddRemote tx => e ← AddRemote tx; mret [e]
  | opAddLocals txs => AddLocals txs
  | opAddRemotes txs => AddRemotes txs
  | opSetGasPrice price => SetGasPrice price;; mret []
  | opNewHead oldHead newHead => pool_reset (Some oldHead) newHead;; mret []
  | opEvict => evict_tick;; mret []
  end.
Fixpoint pool_run (os : list (PoolChain * pool_op)) : PM (list (list (option poolerr))) :=
  match os with
  | [] => mret []
  | (chain, o) :: os => e ← pool_exec chain o; es ← pool_run os; mret (e :: es)
  end.

(** The transactions from outside are sane, and the chain has the heads it announces. *)
Definition op_sane (chain : PoolChain) (o : pool_op) : Prop :=
  match o with
  | opAddLocal tx | opAddRemote tx => tx_sane tx
  | opAddLocals txs | opAddRemotes txs => Forall tx_sane txs
  | opSetGasPrice _ | opEvict => True
  | opNewHead oldHead newHead => head_known oldHead ∧ head_known newHead
  end.

(** The books of a pool. *)
Record books (p : TxPool) : Prop := mkBooks {
  bk_lists a l : p_pending p !! a = Some l ∨ p_queue p !! a = Some l → tl_ok l;
  bk_listed a l n tx : p_pending p !! a = Some l ∨ p_queue p !! a = Some l → items l !! n = Some tx →
    from_of tx = a ∧ Nonce tx = n ∧ pool_Get (tx_Hash tx) p = Some tx;
  bk_apart a l l' n : p_pending p !! a = Some l → p_queue p !! a = Some l' → is_Some (items l !! n) → items l' !! n = None;
  bk_some a l : p_pending p !! a = Some l → items l ≠ ∅;
  bk_known h tx : pool_Get h p = Some tx → tx_Hash tx = h ∧ tx ∈ index_txs (p_priced p)
}.

Lemma Inv_books p : Inv [] p → busy p → books p.
Proof.
  intros [F X M V C] B. pose proof F as [F1 F2 F3 F4 _ _]. constructor.
  - intros a l [E|E]; [by destruct (F1 a l E)|by destruct (F2 a l E)].
  - intros a l n tx E Hn. assert (G : list_of true a l ∨ list_of false a l) by (destruct E as [E|E]; [left; by apply F1|right; by apply F2]).
    split_and!; [destruct G as [[_ _ H]|[_ _ H]]; by eapply H|destruct G as [[K _ _]|[K _ _]]; by apply (items_nonce l n tx K)|].
    apply (F4 a n). destruct E as [E|E]; [left|right]; by rewrite (txs_of_Some _ _ _ E).
  - intros a l l' n E E' Hn. rewrite <- (txs_of_Some _ _ _ E'). apply F3. by rewrite (txs_of_Some _ _ _ E).
  - intros a l E. by apply (B a).
  - intros h tx E. by destruct (ix_all _ _ X h tx E) as (? & _ & ?).
Qed.

Context `{RL : !RuntimeLaws RT}.
#[local] Abbreviation starved := (λ w : string, w = no_live_tx).
#[local] Abbreviation runs := (runs starved).

Lemma pool_exec_ok (chain : PoolChain) o p : ChainLaws (CHAIN := chain) → op_sane chain o → Inv [] p → busy p →
  runs (pool_exec chain o) p (λ _ p', Inv [] p' ∧ busy p').
Proof.
  intros CL S I B. destruct o; cbn [pool_exec op_sane] in *.
  - apply runs_bind. unfold AddLocal. apply runs_get. eapply runs_mono; [by apply (addTx_ok (T := starved) (HT := eq_refl))|]. intros e p' H. by apply runs_ret.
  - apply runs_bind. eapply runs_mono; [by apply (addTx_ok (T := starved) (HT := eq_refl))|]. intros e p' H. by apply runs_ret.
  - unfold AddLocals. apply runs_get. by apply (addTxsLocked_ok (T := starved) (HT := eq_refl)).
  - by apply (addTxsLocked_ok (T := starved) (HT := eq_refl)).
  - apply runs_bind. eapply runs_mono; [by apply SetGasPrice_ok|]. intros e p' H. by apply runs_ret.
  - apply runs_bind. destruct S as [S1 S2]. eapply runs_mono; [apply (pool_reset_ok (T := starved) (HT := eq_refl)); [done|done|by intros h [= <-]|done]|]. intros e p' H. by apply runs_ret.
  - apply runs_bind. eapply runs_mono; [by apply evict_tick_ok|]. intros e p' H. by apply runs_ret.
Qed.

Lemma pool_run_ok os : ∀ p, Forall (λ co, ChainLaws (CHAIN := co.1) ∧ op_sane co.1 co.2) os → Inv [] p → busy p →
  runs (pool_run os) p (λ es p', Inv [] p' ∧ busy p' ∧ length es = length os).
Proof using RL.
  induction os as [|[chain o] os IH]; intros p F I B; cbn [pool_run]; [by apply runs_ret|]. apply Forall_cons in F as [[CL S] F].
  eapply runs_seq; [by apply (pool_exec_ok chain o p)|]. intros e p1 [I1 B1]. eapply runs_seq; [by apply IH|]. intros es p2 (I2 & B2 & El).
  apply runs_ret. split_and!; [done|done|cbn; by rewrite El].
Qed.

Lemma empty_pool_ok config : config_ok config → Inv [] (empty_pool config) ∧ busy (empty_pool config).
Proof.
  intros C. split; [|apply map_Forall_empty]. constructor; cbn; [| |constructor; [intros a; unfold is_u64; cbn; lia|apply map_Forall_empty]|constructor|done].
  - constructor; [apply map_Forall_empty|apply map_Forall_empty|..|constructor].
    + intros a n [x Hx]. unfold txs_of in Hx. by rewrite lookup_empty in Hx.
    + intros a n x. unfold txs_of. rewrite !lookup_empty. by intros [?|?].
    + by intros x ?%not_elem_of_nil.
  - constructor; [by constructor; constructor|]. intros h x. by rewrite lookup_empty.
  - intros a. unfold is_u64. cbn. lia.
  - intros a. unfold valid_slice. cbn. lia.
Qed.
End Claims.

(** C6: The pool keeps its books.  A pool is created at a head whose state is there, with
    at least one slot for an account, room for at least one transaction altogether and a
    limit on an account's queue below [2^63] - [sanitize] checks none of these, see
    [no_slots_empties] and [no_room_panics] - and any sequence of calls follows: local and remote transactions, alone or in batches,
    changes of the price limit, new heads with reorganisations, and evictions.  Then
    every call returns, and afterwards every transaction of a list is its sender's, is
    at its nonce, can be fetched by its hash and is in the price index; no nonce of an
    account is both pending and queued; no pending list is empty.  The transactions are
    sane - each has a recipient, its votes have candidates, a published asset has a
    description - and the one panic left is that of a full pool asked to compare a
    price with a kind of transaction of which the index has only stale entries. *)
Theorem pool_keeps_books `{TX : PoolTx} `{JSON : TxJson} `{RT : PoolRuntime} `{RL : !RuntimeLaws RT} (chain : PoolChain) (config : TxPoolConfig) (head : Header)
    (os : list (PoolChain * pool_op)) :
  config_ok (sanitize config) → ChainLaws (CHAIN := chain) → head_known (CHAIN := chain) head → (∃ s, StateAt (Root head) = inl s) →
  Forall (λ co, ChainLaws (CHAIN := co.1) ∧ op_sane co.1 co.2) os →
  match NewTxPool config head ≫= pool_run os with
  | Ret (errs, p) => length errs = length os ∧ books p
  | Panic why => why = no_live_tx
  end.
Proof.
  intros C CL Hh _ F. destruct (empty_pool_ok _ C) as [I B].
  pose proof (pool_reset_ok (T := λ w, w = no_live_tx) (HT := eq_refl) None head (empty_pool (sanitize config)) I B ltac:(done) Hh) as R.
  unfold NewTxPool, runs in *. destruct (pool_reset None head (empty_pool (sanitize config))) as [[[] p]|w]; cbn [mbind outcome_bind]; [|done]. destruct R as [I1 B1].
  pose proof (pool_run_ok os p F I1 B1) as R. unfold runs in R. destruct (pool_run os p) as [[errs p']|w]; [|done]. destruct R as (I2 & B2 & E). split; [done|]. by apply Inv_books.
Qed.

(** ** Examples *)

Module SamplePool.
(** Transfers by two accounts; a transaction is known by its nonce and price. *)
#[export] Instance sample_pool_tx : PoolTx := {|
  tx_Hash tx := BigToHash (Nonce tx * 2 ^ 32 + GasPrice tx);
  tx_Sender tx := Some (BigToAddress (if GasPrice tx <? 100 then 1 else 2));
  tx_Size _ := 100;
  head_Hash h := BigToHash (Number h)
|}.
Definition later (x y : address * Z) : Prop := y.2 ≤ x.2.
#[export] Instance later_dec x y : Decision (later x y) := decide (y.2 ≤ x.2).
#[export] Instance sample_runtime : PoolRuntime := {|
  range_txs := map_to_list;
  range_lists m := (map_to_list m).*1;
  range_set X := elements X;
  prque_order l := (merge_sort later l).*1;
  sort_beats l := l;
  clock n := Z.of_nat n;
  zero_time := 0;
  slice_grow n := n;
  maxElectDelegate := 30
|}.

#[local] Existing Instance sample_json.

Definition first_header : Header := mkHeader hash0 address0 hash0 hash0 hash0 [] 0 1000000 0 0 [] [] hash0 hash0 0.
Definition first_block : Block := mkBlock first_header [] None None 0 [] [].
Definition rich : View := mkView (λ _, 0) (λ _, 10 ^ 18) (λ _, 0) (λ _ _, 0) (λ _, mkSlice 0 0) (λ _, 0).
Definition sample_chain : PoolChain := {|
  GetBlock _ n := if n =? 0 then Some first_block else None;
  StateAt _ := inl (rich, mkHeap ∅ 1);
  GetDelegatePoll := inl ∅
|}.
Definition transfer (nonce price : Z) : Transaction :=
  mkTx (mkTxdata nonce price 30000 (Some (BigToAddress 7)) 0 [] ActionTrans [] [] None [] EmptyString EmptyString 0 0 0) None None None.

#[export] Instance sample_runtime_laws : RuntimeLaws sample_runtime.
Proof.
  constructor; cbn; [done..| |done]. intros l. exists (merge_sort later l). split_and!; [done|apply merge_sort_Permutation|].
  assert (Total later) by (intros x y; unfold later; lia). assert (Transitive later) by (intros x y z; unfold later; lia).
  exact (StronglySorted_merge_sort later l).
Qed.
Lemma sample_chain_laws : ChainLaws (CHAIN := sample_chain).
Proof.
  assert (Hz : ∀ h n b, GetBlock (PoolChain := sample_chain) h n = Some b → n = 0 ∧ b = first_block).
  { intros h n b. cbn. destruct (Z.eqb_spec n 0); [by intros [= <-]|done]. }
  constructor.
  - intros h n b [-> ->]%Hz. reflexivity.
  - done.
  - intros h n b [_ ->]%Hz. constructor.
  - intros root v h [= <- <-]. constructor; intros a; [unfold is_u64; cbn; lia|unfold valid_slice; cbn; lia].
Qed.
Lemma transfer_sane n price : is_u64 n → tx_sane (transfer n price).
Proof. intros H. constructor; [by eexists|done|intros votes [= <-]; constructor|done]. Qed.
Lemma default_config_ok : config_ok (sanitize DefaultTxPoolConfig).
Proof. constructor; vm_compute; by repeat split. Qed.

(** Two transactions of one account, the second first; one of another; and a new price
    for the second. *)
Definition some_calls : list (PoolChain * pool_op) :=
  [(sample_chain, opAddRemote (transfer 1 10)); (sample_chain, opAddRemotes [transfer 0 10; transfer 0 200]);
   (sample_chain, opAddLocal (transfer 1 10)); (sample_chain, opAddRemote (transfer 1 20)); (sample_chain, opSetGasPrice 15);
   (sample_chain, opNewHead first_header first_header); (sample_chain, opEvict)].
End SamplePool.

Lemma pool_keeps_books_witness : ∃ p,
  (NewTxPool (TX := SamplePool.sample_pool_tx) (CHAIN := SamplePool.sample_chain) (JSON := sample_json) (RT := SamplePool.sample_runtime) DefaultTxPoolConfig SamplePool.first_header
    ≫= pool_run (TX := SamplePool.sample_pool_tx) (JSON := sample_json) (RT := SamplePool.sample_runtime) SamplePool.some_calls) =
  Ret ([[None]; [None; None]; [Some (errKnown (BigToHash (2 ^ 32 + 10)))]; [None]; []; []; []], p) ∧ books (TX := SamplePool.sample_pool_tx) p.
Proof.
  pose proof (pool_keeps_books (TX := SamplePool.sample_pool_tx) (JSON := sample_json) (RT := SamplePool.sample_runtime) (RL := SamplePool.sample_runtime_laws)
    SamplePool.sample_chain DefaultTxPoolConfig
    SamplePool.first_header SamplePool.some_calls SamplePool.default_config_ok SamplePool.sample_chain_laws) as W.
  assert (E : match NewTxPool (TX := SamplePool.sample_pool_tx) (CHAIN := SamplePool.sample_chain) (JSON := sample_json) (RT := SamplePool.sample_runtime) DefaultTxPoolConfig SamplePool.first_header
      ≫= pool_run (TX := SamplePool.sample_pool_tx) (JSON := sample_json) (RT := SamplePool.sample_runtime) SamplePool.some_calls with
    | Ret (errs, _) => errs = [[None]; [None; None]; [Some (errKnown (BigToHash (2 ^ 32 + 10)))]; [None]; []; []; []]
    | Panic _ => False
    end) by (vm_compute; reflexivity).
  revert E W. generalize (NewTxPool (TX := SamplePool.sample_pool_tx) (CHAIN := SamplePool.sample_chain) (JSON := sample_json) (RT := SamplePool.sample_runtime) DefaultTxPoolConfig SamplePool.first_header
      ≫= pool_run (TX := SamplePool.sample_pool_tx) (JSON := sample_json) (RT := SamplePool.sample_runtime) SamplePool.some_calls).
  intros [[errs p]|w] E W; [|destruct E]. exists p. rewrite E. split; [reflexivity|].
  apply W.
  - by eexists.
  - by eexists.
  - assert (L := SamplePool.sample_chain_laws). unfold SamplePool.some_calls.
    repeat (apply Forall_cons; split; [split; [exact L|]|]); [..|constructor]; cbn -[SamplePool.transfer]; try exact I.
    + by apply SamplePool.transfer_sane.
    + repeat constructor; by apply SamplePool.transfer_sane.
    + by apply SamplePool.transfer_sane.
    + by apply SamplePool.transfer_sane.
    + split; by eexists.
Defined.

(** ** What goes wrong *)

(** A transaction without a recipient, as every creation of a contract is, makes the pool
    dereference nil when it logs the recipient's address. *)
Theorem no_recipient_crashes `{TX : PoolTx} `{CHAIN : PoolChain} `{JSON : TxJson} `{RT : PoolRuntime} (tx : Transaction) (p : TxPool) :
  Recipient (data tx) = None → ∃ why, AddRemote tx p = Panic why.
Proof.
  intros E. unfold AddRemote, addTx, pool_add. rewrite E. eexists. reflexivity.
Qed.

Module PoolTrouble.
Import SamplePool.
#[local] Existing Instances sample_json sample_chain.

Definition asset_kind (nonce price : Z) : Transaction :=
  mkTx (mkTxdata nonce price 30000 (Some (BigToAddress 7)) 0 [] ActionTrans [] [] (Some (BigToAddress 9)) [] EmptyString EmptyString 0 0 0) None None None.
Definition bare_asset : Transaction :=
  mkTx (mkTxdata 0 10 30000 (Some (BigToAddress 7)) 0 [] ActionPublishAsset [] [] None [] EmptyString EmptyString 0 0 0) None None None.

Definition on_new_pool {A} (config : TxPoolConfig) (m : PM A) : outcome (A * TxPool) := NewTxPool config first_header ≫= m.
(** How many accounts have pending and queued transactions, how many transactions are
    known, and how many the index has. *)
Definition sizes {A} (r : outcome (A * TxPool)) : option (nat * nat * nat * nat) :=
  match r with Ret (_, p) => Some (base.size (p_pending p), base.size (p_queue p), base.size (p_all p), TxNum (p_priced p)) | Panic _ => None end.

(** A transaction that publishes an asset and describes none makes the pool dereference
    nil. *)
Theorem bare_asset_crashes : match on_new_pool DefaultTxPoolConfig (AddRemote bare_asset) with Panic _ => True | Ret _ => False end.
Proof. vm_compute. exact I. Qed.

(** When the first of two pending transactions is removed, the second stays known and
    indexed, and is in no list: the pending list is empty and is deleted before its
    followers are queued. *)
Theorem followers_orphaned :
  sizes (on_new_pool DefaultTxPoolConfig (AddRemotes [transfer 0 10; transfer 1 10];; removeTx (tx_Hash (transfer 0 10)))) = Some (0, 0, 1, 1)%nat.
Proof. vm_compute. reflexivity. Qed.

(** When the second of three is removed, the third is queued and indexed once more. *)
Theorem followers_indexed_twice :
  sizes (on_new_pool DefaultTxPoolConfig (AddRemotes [transfer 0 10; transfer 1 10; transfer 2 10];; removeTx (tx_Hash (transfer 1 10)))) = Some (1, 1, 2, 3)%nat.
Proof. vm_compute. reflexivity. Qed.

(** After that one is removed too, its second entry is all the index has of its kind, and
    a full pool panics at the next transaction of the kind. *)
Theorem stale_kind_panics :
  on_new_pool (DefaultTxPoolConfig <| GlobalQueue := 0 |> <| GlobalSlots := 3 |>)
    (AddRemotes [transfer 0 10; transfer 1 10; asset_kind 2 10];; removeTx (tx_Hash (transfer 1 10));; removeTx (tx_Hash (asset_kind 2 10));;
     AddRemotes [transfer 0 200; transfer 1 200];; AddRemote (asset_kind 2 200)) = Panic no_live_tx.
Proof. vm_compute. reflexivity. Qed.

(** [sanitize] accepts any numbers of slots.  Without room for a single transaction the
    first one panics, since there is none in the index to give way to it. *)
Theorem no_room_panics :
  match on_new_pool (DefaultTxPoolConfig <| GlobalQueue := 0 |> <| GlobalSlots := 0 |>) (AddRemote (transfer 0 10)) with Panic _ => True | Ret _ => False end.
Proof. vm_compute. exact I. Qed.

(** Without slots for an account, two accounts with more transactions than all accounts
    may have are cut down to empty pending lists, which stay. *)
Theorem no_slots_empties :
  match on_new_pool (DefaultTxPoolConfig <| AccountSlots := 0 |> <| GlobalSlots := 1 |>) (AddRemotes [transfer 0 10; transfer 0 200]) with
  | Ret (_, p) => (λ l, base.size (items l)) <$> (map_to_list (p_pending p)).*2 = [0; 0]%nat
  | Panic _ => False
  end.
Proof. vm_compute. reflexivity. Qed.
End PoolTrouble.
