(* ===== verification/Shuffle.v ===== *)
(** * The rounds of the delegates ([util/shuffle.go])

    The order in which the elected delegates produce blocks is shuffled anew for each
    round, from the time the round begins; every node computes the same order.  The
    time a round began is computed from the time of any block. *)

From S2P Require Import Prelude Interfaces StateTypes Hex DelegateState.

(** ** [strconv.FormatFloat(f, 'E', -1, 64)]

    Of a number that is an integer below 2^53: all its digits but the zeros at the
    end, with a point after the first, and the exponent with at least two digits. *)
Fixpoint decimal_digits (fuel : nat) (n : Z) : list Z :=
  match fuel with
  | O => []
  | S fuel => if n <? 10 then [n] else decimal_digits fuel (n / 10) ++ [n mod 10]
  end.
Fixpoint strip_zeros (ds : list Z) : list Z :=
  match ds with
  | [] => []
  | d :: ds => match strip_zeros ds with [] => if d =? 0 then [] else [d] | ds => d :: ds end
  end.
Definition digit (d : Z) : Byte.byte := byte_of (48 + d).
Definition format_E (n : Z) : bytes :=
  let sign := if n <? 0 then str "-" else [] in
  match decimal_digits 20 (Z.abs n) with
  | [] => []
  | d :: ds =>
    let frac := match strip_zeros ds with [] => [] | ds => str "." ++ (digit <$> ds) end in
    let e := Z.of_nat (length ds) in
    sign ++ [digit d] ++ frac ++ str "E+" ++ [digit (e / 10); digit (e mod 10)]
  end.

(** ** Shuffling *)

Section Shuffle.
(** [sha256.Sum256] *)
Context (sha256 : bytes → bytes).

(** [l[j], l[i] = l[i], l[j]] *)
Definition swap {A} (l : list A) (i j : nat) : outcome (list A) :=
  match l !! i, l !! j with
  | Some x, Some y => Ret (<[i := y]> (<[j := x]> l))
  | _, _ => Panic "index out of range"
  end.

(** The inner loop, with [k] turns left before [x] is 4; returns [i] after it. *)
Fixpoint shuffle_inner (currentSend : bytes) (delCount : nat) (k i : nat) (l : list nat) : outcome (nat * list nat) :=
  match k with
  | O => Ret (i, l)
  | S k' =>
    if (i <? delCount)%nat then
      let newIndex := (Z.to_nat (byte_val (nth (4 - k) currentSend (byte_of 0))) mod delCount)%nat in
      l ← swap l i newIndex;
      shuffle_inner currentSend delCount k' (S i) l
    else Ret (i, l)
  end.
(** The outer loop goes on one further after the inner one. *)
Fixpoint shuffle_outer (currentSend : bytes) (delCount : nat) (fuel i : nat) (l : list nat) : outcome (list nat) :=
  match fuel with
  | O => Ret l
  | S fuel =>
    if (i <? delCount)%nat then
      '(i, l) ← shuffle_inner currentSend delCount 4 i l;
      shuffle_outer currentSend delCount fuel (S i) l
    else Ret l
  end.

Definition Shuffle (height delegateNumber : Z) : outcome (list nat) :=
  let truncDelegateList := seq 0 (Z.to_nat delegateNumber) in
  if delegateNumber =? 0 then Panic "integer divide by zero"
  else
    let seed := Z.quot height delegateNumber in
    let seed := if Z.rem height delegateNumber >? 0 then seed + 1 else seed in
    let currentSend := EncodeToString (sha256 (format_E seed)) in
    let delCount := length truncDelegateList in
    shuffle_outer currentSend delCount delCount 0 truncDelegateList.

(** ** A round *)

Record ShuffleDel : Type := mkShuffleDel {
  WorkTime : Z;
  sd_Address : bytes;
  sd_Vote : Z;
  sd_Nickname : bytes
}.

Fixpoint round_slots (currentDposList : list Candidate) (beginTime blockInterval : Z) (index : Z) (trunc : list nat) : outcome (list ShuffleDel) :=
  match trunc with
  | [] => Ret []
  | delegateIndex :: trunc =>
    match currentDposList !! delegateIndex with
    | None => Panic "index out of range"
    | Some c =>
      let workTime := i64 (beginTime + i64 (index * blockInterval)) in
      rest ← round_slots currentDposList beginTime blockInterval (index + 1) trunc;
      Ret (mkShuffleDel (u64 workTime) (c_Address c) (c_Vote c) (c_Nickname c) :: rest)
    end
  end.

(** The list [Shuffle] returns has [maxElectDelegate] entries. *)
Definition ShuffleNewRound (beginTime maxElectDelegate : Z) (currentDposList : list Candidate) (blockInterval : Z) : outcome (list ShuffleDel) :=
  let maxElectDelegate := if Z.of_nat (length currentDposList) <? maxElectDelegate then Z.of_nat (length currentDposList) else maxElectDelegate in
  truncDelegateList ← Shuffle (i64 (beginTime + 1)) maxElectDelegate;
  round_slots currentDposList beginTime blockInterval 0 (take (Z.to_nat maxElectDelegate) truncDelegateList).
End Shuffle.

(** ** The round of a block *)

(** Both loops; [None] when the turns run out. *)
Fixpoint round_backwards (fuel : nat) (next block period now count : Z) : option Z :=
  match fuel with
  | O => None
  | S fuel =>
    let shuffleTime := next + count * period in
    if (shuffleTime <=? block) && (shuffleTime + period >? block) then Some shuffleTime
    else if shuffleTime >=? now then Some 0
    else round_backwards fuel next block period now (count + 1)
  end.
Fixpoint round_forward (fuel : nat) (next block period count : Z) : option Z :=
  match fuel with
  | O => None
  | S fuel =>
    let shuffleTime := next - count * period in
    if shuffleTime <=? block then Some shuffleTime
    else if shuffleTime <=? 0 then Some 0
    else round_forward fuel next block period (count + 1)
  end.
Definition CalShuffleTimeByHeaderTime (fuel : nat) (nowUnix nextRoundBeginTime blockTime blockInterval maxElectDelegate : Z) : option Z :=
  let period := maxElectDelegate * blockInterval in
  if nextRoundBeginTime =? blockTime then Some nextRoundBeginTime
  else if nextRoundBeginTime <? blockTime then round_backwards fuel nextRoundBeginTime blockTime period nowUnix 0
  else round_forward fuel nextRoundBeginTime blockTime period 0.

(** ** Shuffling loses nobody *)

Lemma swap_perm {A} (l : list A) i j : (i < length l)%nat → (j < length l)%nat → ∃ l', swap l i j = Ret l' ∧ l' ≡ₚ l.
Proof.
  intros Hi Hj. destruct (lookup_lt_is_Some_2 l i Hi) as [x Ex], (lookup_lt_is_Some_2 l j Hj) as [y Ey].
  unfold swap. rewrite Ex, Ey. eexists. split; [reflexivity|]. apply Permutation_inj. split; [by rewrite !length_insert|].
  exists (λ k, if decide (k = i) then j else if decide (k = j) then i else k). split.
  - intros a b. repeat case_decide; intros; subst; congruence.
  - intros k. case_decide as Hk; [subst k; by rewrite list_lookup_insert_eq by by rewrite length_insert|].
    rewrite list_lookup_insert_ne by done. case_decide as Hk'; [subst k; by rewrite list_lookup_insert_eq by done|]. by rewrite list_lookup_insert_ne by done.
Qed.

Lemma shuffle_inner_perm send n k : (0 < n)%nat → ∀ i l, length l = n →
  ∃ i' l', shuffle_inner send n k i l = Ret (i', l') ∧ (i ≤ i')%nat ∧ l' ≡ₚ l.
Proof.
  intros Hn. induction k as [|k IH]; intros i l Hl; [by exists i, l|]. cbn [shuffle_inner]. destruct (Nat.ltb_spec i n) as [Hi|]; [|by exists i, l].
  destruct (swap_perm l i (Z.to_nat (byte_val (nth (4 - S k) send (byte_of 0))) mod n)%nat) as (l1 & E1 & P1); [lia|rewrite Hl; apply Nat.mod_upper_bound; lia|].
  rewrite E1. cbn [mbind outcome_bind]. destruct (IH (S i) l1) as (i' & l' & E & Hi' & P); [by rewrite P1|].
  exists i', l'. split_and!; [done|lia|by rewrite P].
Qed.

Lemma shuffle_outer_perm send n fuel : ∀ i l, length l = n → (n ≤ i + fuel)%nat → ∃ l', shuffle_outer send n fuel i l = Ret l' ∧ l' ≡ₚ l.
Proof.
  induction fuel as [|fuel IH]; intros i l Hl Hf; [by exists l|]. cbn [shuffle_outer]. destruct (Nat.ltb_spec i n) as [Hi|]; [|by exists l].
  destruct (shuffle_inner_perm send n 4 ltac:(lia) i l Hl) as (i' & l1 & -> & Hi' & P1). cbn [mbind outcome_bind].
  destruct (IH (S i') l1) as (l' & -> & P); [by rewrite P1|lia|]. exists l'. split; [done|by rewrite P].
Qed.

Lemma Shuffle_perm sha256 height n : 0 < n → ∃ l, Shuffle sha256 height n = Ret l ∧ l ≡ₚ seq 0 (Z.to_nat n).
Proof.
  intros Hn. unfold Shuffle. rewrite (proj2 (Z.eqb_neq n 0)) by lia. apply shuffle_outer_perm; [by rewrite length_seq|rewrite length_seq; lia].
Qed.

(** Who has a slot, and who was elected. *)
Definition slot_key (s : ShuffleDel) : bytes * Z * bytes := (sd_Address s, sd_Vote s, sd_Nickname s).
Definition cand_key (c : Candidate) : bytes * Z * bytes := (c_Address c, c_Vote c, c_Nickname c).

Lemma omap_cons_Some {A B} (f : A → option B) a (l : list A) b : f a = Some b → omap f (a :: l) = b :: omap f l.
Proof. intros E. simpl. by rewrite E. Qed.

Lemma round_slots_spec cs begin interval trunc : ∀ index, 0 ≤ index → 0 ≤ begin → 0 ≤ interval →
  begin + (index + Z.of_nat (length trunc)) * interval < 2 ^ 63 → Forall (λ d, (d < length cs)%nat) trunc →
  ∃ l, round_slots cs begin interval index trunc = Ret l ∧ slot_key <$> l = omap (λ d, cand_key <$> cs !! d) trunc ∧
    ∀ k s, l !! k = Some s → WorkTime s = begin + (index + Z.of_nat k) * interval.
Proof.
  induction trunc as [|d trunc IH]; intros index Hi Hb Hin Hov Hall; [by exists []; repeat split|].
  apply Forall_cons in Hall as [Hd Hall]. destruct (lookup_lt_is_Some_2 cs d Hd) as [c Ec]. cbn [round_slots]. rewrite Ec. cbn [length] in Hov.
  assert (Hm : index * interval ≤ (index + Z.of_nat (S (length trunc))) * interval) by nia.
  destruct (IH (index + 1)) as (l & -> & F & W); [lia|done|done|by replace (index + 1 + Z.of_nat (length trunc)) with (index + Z.of_nat (S (length trunc))) by lia|done|].
  cbn [mbind outcome_bind]. eexists. split; [reflexivity|]. rewrite (i64_small (index * interval)) by nia. rewrite i64_small by nia. rewrite u64_small by (unfold is_u64; nia). split.
  - rewrite fmap_cons, (omap_cons_Some _ d trunc (cand_key c)) by (by rewrite Ec). by rewrite F.
  - intros [|k] s Hk; [injection Hk as <-; cbn; lia|]. rewrite (W k s Hk). lia.
Qed.

Lemma omap_of_fmap {A B C} (h : A → B) (g : B → option C) (l : list A) : omap g (h <$> l) = omap (λ a, g (h a)) l.
Proof. induction l as [|x l IH]; [done|]. rewrite fmap_cons. cbn. by rewrite <- IH. Qed.

Lemma omap_seq {A B} (f : A → B) (l : list A) n : (n ≤ length l)%nat → omap (λ d, f <$> l !! d) (seq 0 n) = f <$> take n l.
Proof.
  revert l. induction n as [|n IH]; intros [|a l] Hn; try done; [cbn in Hn; lia|]. cbn [seq length] in *.
  rewrite (omap_cons_Some _ 0%nat _ (f a)) by done. rewrite firstn_cons, fmap_cons. f_equal. rewrite <- (IH l) by lia. rewrite <- seq_shift.
  change (omap (λ d, f <$> (a :: l) !! d) (S <$> seq 0 n) = omap (λ d, f <$> l !! d) (seq 0 n)).
  by rewrite omap_of_fmap.
Qed.

(** C35: a round is fair.  With at least one delegate, the round is computed without
    fault, and each of the first [maxElectDelegate] delegates has exactly one slot in
    it: the slots are the delegates in some order, one after the other, a block
    interval apart, the first at the beginning of the round.  The order is a function
    of the time and the delegates, so all nodes have the same. *)
Theorem round_fair (sha256 : bytes → bytes) (begin maxElect interval : Z) (cs : list Candidate) :
  cs ≠ [] → 0 < maxElect → 0 ≤ begin → 0 ≤ interval → begin + maxElect * interval < 2 ^ 63 → 
  ∃ l, ShuffleNewRound sha256 begin maxElect cs interval = Ret l ∧
    slot_key <$> l ≡ₚ cand_key <$> take (Z.to_nat maxElect) cs ∧
    ∀ k s, l !! k = Some s → WorkTime s = begin + Z.of_nat k * interval.
Proof.
  intros Hne Hm Hb Hi Hov. unfold ShuffleNewRound. set (m := if _ <? _ then _ else _).
  assert (Hm' : 0 < m ≤ maxElect ∧ m ≤ Z.of_nat (length cs) ∧ take (Z.to_nat m) cs = take (Z.to_nat maxElect) cs).
  { unfold m. destruct cs; [done|]. destruct (Z.ltb_spec (Z.of_nat (length (c :: cs))) maxElect); cbn [length] in *; split_and!; try lia; [|done].
    rewrite !take_ge by (cbn [length]; lia). done. }
  clearbody m. destruct Hm' as (Hm1 & Hm2 & Ht). destruct (Shuffle_perm sha256 (i64 (begin + 1)) m) as (tr & -> & P); [lia|]. cbn [mbind outcome_bind].
  assert (Hl : length tr = Z.to_nat m) by (by rewrite P, length_seq). rewrite take_ge by lia.
  destruct (round_slots_spec cs begin interval tr 0) as (l & E & K & W); [lia|done|done|rewrite Hl; nia| |].
  { rewrite P, Forall_seq. intros j Hj. lia. }
  exists l. split_and!; [done| |exact W]. rewrite K, P, omap_seq, Ht by lia. done.
Qed.

Definition sample_delegates : list Candidate :=
  (λ i, mkCandidate [byte_of i] (100 - i) [] 0) <$> [1; 2; 3; 4; 5; 6; 7; 8; 9; 10; 11; 12].

Lemma round_fair_witness : ∃ l, ShuffleNewRound (λ b, b) 1000 9 sample_delegates 10 = Ret l ∧
  slot_key <$> l ≡ₚ cand_key <$> take 9 sample_delegates.
Proof.
  destruct (round_fair (λ b, b) 1000 9 10 sample_delegates) as (l & H1 & H2 & _); [done|lia|lia|lia|lia|]. exists l. split; [exact H1|exact H2].
Defined.

(** ** The round of a block is found *)

Lemma round_backwards_spec next block period now : 0 < period → block ≤ now → ∀ fuel count,
  next + count * period ≤ block → block < next + (count + Z.of_nat fuel) * period →
  ∃ k, round_backwards fuel next block period now count = Some (next + k * period) ∧ next + k * period ≤ block < next + k * period + period.
Proof.
  intros Hp Hn. induction fuel as [|fuel IH]; intros count H1 H2; [lia|]. cbn [round_backwards].
  destruct (Z.leb_spec (next + count * period) block); [|lia]. cbn [andb]. rewrite Z.gtb_ltb.
  destruct (Z.ltb_spec block (next + count * period + period)); [by exists count|].
  rewrite Z.geb_leb, (proj2 (Z.leb_gt now _)) by lia. apply IH; lia.
Qed.

Lemma round_forward_spec next block period : 0 < period → 0 ≤ block → ∀ fuel count,
  block < next - count * period + period → next - (count + Z.of_nat fuel - 1) * period ≤ block →
  ∃ k, round_forward fuel next block period count = Some (next + k * period) ∧ next + k * period ≤ block < next + k * period + period.
Proof.
  intros Hp Hb. induction fuel as [|fuel IH]; intros count H1 H2; [lia|]. cbn [round_forward].
  destruct (Z.leb_spec (next - count * period) block); [exists (- count); replace (next + - count * period) with (next - count * period) by lia; split; [done|lia]|].
  rewrite (proj2 (Z.leb_gt _ 0)) by lia. apply IH; lia.
Qed.

(** The round of a block is found.  For a block that is not from the future, the
    search ends, and gives the beginning of the round the block belongs to: a whole
    number of rounds from the known beginning, not after the block, and less than a
    round before it. *)
Theorem round_found (fuel : nat) (now next block interval maxElect : Z) :
  0 < maxElect * interval → 0 ≤ block ≤ now → Z.abs (block - next) < Z.of_nat fuel →
  ∃ k, CalShuffleTimeByHeaderTime fuel now next block interval maxElect = Some (next + k * (maxElect * interval)) ∧
    next + k * (maxElect * interval) ≤ block < next + k * (maxElect * interval) + maxElect * interval.
Proof.
  intros Hp Hb Hf. unfold CalShuffleTimeByHeaderTime. destruct (Z.eqb_spec next block) as [->|Hne]; [exists 0; split; [f_equal; lia|lia]|].
  destruct (Z.ltb_spec next block).
  - apply (round_backwards_spec next block (maxElect * interval) now); [done|lia|lia|nia].
  - apply (round_forward_spec next block (maxElect * interval)); [done|lia|lia|nia].
Qed.

Lemma round_found_witness : ∃ k, CalShuffleTimeByHeaderTime 4000 5000 1000 4321 10 101 = Some (1000 + k * (101 * 10)).
Proof. destruct (round_found 4000 5000 1000 4321 10 101) as (k & H & _); [lia|lia|lia|]. by exists k. Defined.
