(* ===== verification/Dpos.v ===== *)
(** * The consensus engine ([consensus/dpos/dpos_consensus.go], [CalcGasLimit])

    What is checked of a header, of the signature of a block's producer, and of the
    signatures of the delegates that confirm a block.  The time is an argument;
    [GetHeader] is the chain's. *)

From S2P Require Import Prelude Interfaces StateTypes Hex VmData Rlp RlpLayout RlpStream.
From S2P Require Import RlpRead RlpRoundtrip Secp TxData Bloom Blocks DelegateState Shuffle.
From S2P Require Import TrieClaims.

Inductive dposerr : Type :=
| extraTooLong
| futureBlock
| zeroBlockTime
| gasLimitTooHigh
| gasUsedTooHigh
| badGasLimit
| invalidNumber
| unknownAncestor
| blockExpired
| missingSignature
| notInShuffleList
| wrongSlot
| wrongSigner
| signsUndecodable (e : rlperr)
| notEnoughSigns
| unrecoverable (e : secperr).

(** ** Headers *)

Definition MaximumExtraDataSize : Z := 16.
Definition GasLimitBoundDivisor : Z := 512.
Definition MinGasLimit : Z := 200000000.
Definition GenesisGasLimit : Z := 250000000.
Definition TargetGasLimit : Z := GenesisGasLimit.
Definition allowedFutureBlockTime : Z := 15.
Definition maxGasLimit : Z := 0x7fffffffffffffff.

(** The part of [verifyHeader] that is about the gas limit. *)
Definition gas_limit_refused (header parent : Header) : bool :=
  let diff := i64 (i64 (h_GasLimit parent) - i64 (h_GasLimit header)) in
  let diff := if diff <? 0 then i64 (diff * -1) else diff in
  let limit := h_GasLimit parent / GasLimitBoundDivisor in
  (u64 diff >=? limit) || (h_GasLimit header <? MinGasLimit).

Definition verifyHeader (now : Z) (header parent : Header) : option dposerr :=
  if blen (Extra header) >? MaximumExtraDataSize then Some extraTooLong
  else if Time header >? now + allowedFutureBlockTime then Some futureBlock
  else if Time header <=? Time parent then Some zeroBlockTime
  else if h_GasLimit header >? maxGasLimit then Some gasLimitTooHigh
  else if h_GasUsed header >? h_GasLimit header then Some gasUsedTooHigh
  else if gas_limit_refused header parent then Some badGasLimit
  else if negb (Number header - Number parent =? 1) then Some invalidNumber
  else None.

(** The limit of the block after [parent]; arithmetic on [uint64]. *)
Definition CalcGasLimit (parent : Header) : Z :=
  let contrib := u64 (h_GasUsed parent + h_GasUsed parent / 2) / GasLimitBoundDivisor in
  let decay := u64 (h_GasLimit parent / GasLimitBoundDivisor - 1) in
  let limit := u64 (u64 (h_GasLimit parent - decay) + contrib) in
  let limit := if limit <? MinGasLimit then MinGasLimit else limit in
  if limit <? TargetGasLimit then
    let limit := u64 (h_GasLimit parent + decay) in
    if limit >? TargetGasLimit then TargetGasLimit else limit
  else limit.

Section Engine.
Context (keccak : bytes → hash) `{SECP : Secp256k1} (GetHeader : hash → Z → option Header).

Definition Prepare (header : Header) : option dposerr :=
  match GetHeader (ParentHash header) (u64 (Uint64 (Number header) - 1)) with None => Some unknownAncestor | Some _ => None end.

Definition VerifyHeader (now : Z) (header : Header) : outcome (option dposerr) :=
  let number := Uint64 (Number header) in
  h ← Header_Hash keccak header;
  match GetHeader h number with
  | Some _ => Ret None
  | None =>
    if now <? Int64 (Time header) then Ret (Some futureBlock)
    else match GetHeader (ParentHash header) (u64 (number - 1)) with
         | None => Ret (Some unknownAncestor)
         | Some parent => Ret (verifyHeader now header parent)
         end
  end.

(** The check of one header of a batch. *)
Definition verifyHeaders (now : Z) (headers : list Header) (index : nat) : outcome (option dposerr) :=
  match headers !! index with
  | None => Panic "index out of range"
  | Some header =>
    parent ← match index with
             | O => Ret (GetHeader (ParentHash header) (u64 (Uint64 (Number header) - 1)))
             | S i => match headers !! i with
                      | None => Panic "index out of range"
                      | Some prev => h ← Header_Hash keccak prev; Ret (if bool_decide (h = ParentHash header) then Some prev else None)
                      end
             end;
    match parent with
    | None => Ret (Some unknownAncestor)
    | Some parent =>
      h ← Header_Hash keccak header;
      match GetHeader h (Uint64 (Number header)) with
      | Some _ => Ret None
      | None => Ret (verifyHeader now header parent)
      end
    end
  end.

(** ** Signatures *)

Definition address_Hex (a : address) : bytes := Hex (λ b, hash_bytes (keccak b)) a.
(** [strings.EqualFold] where one of the strings is that of an address: without the
    letters that have more than two cases. *)
Definition EqualFold (a b : bytes) : bool := bool_decide (ToLower a = ToLower b).
Definition checkInShuffleList (l : list ShuffleDel) (a : bytes) : bool := existsb (λ v, EqualFold (sd_Address v) a) l.

(** The hash is that of the header; the caller's block keeps it. *)
Definition VerifyHeaderAndSign (now : Z) (block : Block) (shuffle : list ShuffleDel) (blockInterval : Z) : outcome (option dposerr) :=
  let header := Blocks.header block in
  let parent := GetHeader (ParentHash header) (u64 (Uint64 (Number header) - 1)) in
  let blockTime := Uint64 (Time header) in
  if (now <? i64 blockTime) || (now >=? i64 (i64 blockTime + blockInterval)) then Ret (Some blockExpired)
  else match parent with
  | None => Ret (Some unknownAncestor)
  | Some parent =>
    match verifyHeader now header parent with
    | Some err => Ret (Some err)
    | None =>
      let coinbase := address_Hex (Coinbase header) in
      if (length (Signature block) =? 0)%nat then Ret (Some missingSignature)
      else match List.find (λ v, EqualFold (sd_Address v) coinbase) shuffle with
      | None => Ret (Some notInShuffleList)
      | Some delegate =>
        if negb (blockTime =? WorkTime delegate) then Ret (Some wrongSlot)
        else
          '(h, _) ← Block_Hash keccak block;
          let '(pubkey, _) := RecoverPubkey (hash_bytes h) (Signature block) in
          a ← signer_address keccak pubkey;
          Ret (if negb (EqualFold (address_Hex a) coinbase) then Some wrongSigner else None)
      end
    end
  end.

Definition VerifySignatureSend (blockHash : hash) (confirmSign : bytes) (shuffle : list ShuffleDel) : outcome (option dposerr) :=
  match RecoverPubkey (hash_bytes blockHash) confirmSign with
  | (_, Some err) => Ret (Some (unrecoverable err))
  | (pubkey, None) =>
    a ← signer_address keccak pubkey;
    Ret (if checkInShuffleList shuffle (address_Hex a) then None else Some notInShuffleList)
  end.

(** [[]types.VoteSign] *)
Definition signs_type : gtype := TSlice (TStruct [(no_tags, TBytes); (no_tags, TUint 64)]).
Definition val_sign (v : gval) : option bytes := match v with VList [VBytes sign; VUint _] => Some sign | _ => None end.
Definition decode_signs (b : bytes) : list bytes + rlperr :=
  match DecodeBytes signs_type b with
  | inr err => inr err
  | inl (VList vs) => match mapM val_sign vs with Some signs => inl signs | None => inr ill_typed end
  | inl _ => inr ill_typed
  end.

(** The addresses of the signers that are delegates of the round. *)
Fixpoint collect_signers (h : hash) (shuffle : list ShuffleDel) (signs : list bytes) (m : gset bytes) : outcome (gset bytes) :=
  match signs with
  | [] => Ret m
  | sign :: signs =>
    let '(pubkey, _) := RecoverPubkey (hash_bytes h) sign in
    a ← signer_address keccak pubkey;
    let addr := address_Hex a in
    collect_signers h shuffle signs (if checkInShuffleList shuffle addr then {[ addr ]} ∪ m else m)
  end.

Definition VerifyBlockGenerate (now maxElectDelegate : Z) (block : Block) (shuffle : list ShuffleDel) (blockInterval : Z) : outcome (option dposerr) :=
  let delegateAmount := Z.quot (Int64 maxElectDelegate) 3 * 2 in
  err ← VerifyHeaderAndSign now block shuffle blockInterval;
  match err with
  | Some err => Ret (Some err)
  | None =>
    match decode_signs (RlpEncodeSigns block) with
    | inr err => Ret (Some (signsUndecodable err))
    | inl signs =>
      '(h, _) ← Block_Hash keccak block;
      signers ← collect_signers h shuffle signs ∅;
      Ret (if Z.of_nat (base.size signers) >? delegateAmount then None else Some notEnoughSigns)
    end
  end.
End Engine.

(** ** The producer's limit is one the verifiers accept *)

Lemma next_limit l c d : 200000000 ≤ l → 512 * d ≤ l < 512 * d + 512 → 0 ≤ c → 1024 * c ≤ 3 * l → 
  let limit := if l - (d - 1) + c <? 200000000 then 200000000 else l - (d - 1) + c in
  let limit := if limit <? 250000000 then if l + (d - 1) >? 250000000 then 250000000 else l + (d - 1) else limit in
  l - d < limit < l + d ∧ 200000000 ≤ limit.
Proof.
  intros Hl Hd Hc Hc'. cbv zeta. rewrite Z.gtb_ltb. destruct (Z.ltb_spec (l - (d - 1) + c) 200000000) as [H1|H1].
  - destruct (Z.ltb_spec 200000000 250000000); [|lia]. destruct (Z.ltb_spec 250000000 (l + (d - 1))); lia.
  - destruct (Z.ltb_spec (l - (d - 1) + c) 250000000); [|lia]. destruct (Z.ltb_spec 250000000 (l + (d - 1))); lia.
Qed.

Lemma CalcGasLimit_bounds parent : MinGasLimit ≤ h_GasLimit parent ≤ 2 ^ 62 → 0 ≤ h_GasUsed parent ≤ h_GasLimit parent →
  Z.abs (CalcGasLimit parent - h_GasLimit parent) < h_GasLimit parent / GasLimitBoundDivisor ∧ MinGasLimit ≤ CalcGasLimit parent.
Proof.
  unfold CalcGasLimit, MinGasLimit, TargetGasLimit, GenesisGasLimit, GasLimitBoundDivisor. cbv zeta.
  generalize (h_GasLimit parent) as l, (h_GasUsed parent) as u. intros l u Hp Hu.
  rewrite (u64_small (u + u / 2)) by (unfold is_u64; Z.div_mod_to_equations; lia).
  assert (Hc : 0 ≤ (u + u / 2) / 512 ∧ 1024 * ((u + u / 2) / 512) ≤ 3 * l) by (Z.div_mod_to_equations; lia). revert Hc. generalize ((u + u / 2) / 512) as c. intros c Hc.
  assert (Hd : 512 * (l / 512) ≤ l < 512 * (l / 512) + 512) by (Z.div_mod_to_equations; lia). revert Hd. generalize (l / 512) as d. intros d Hd.
  rewrite (u64_small (d - 1)), (u64_small (l - (d - 1))), (u64_small (l - (d - 1) + c)), (u64_small (l + (d - 1))) by (unfold is_u64; lia).
  pose proof (next_limit l c d ltac:(lia) Hd ltac:(lia) ltac:(lia)) as Hn. cbv zeta in Hn. lia.
Qed.

(** A producer's gas limit is accepted.  Whatever a parent block used of its
    limit, the limit [CalcGasLimit] chooses for the next block passes the rules of
    [verifyHeader]: it differs from the parent's by less than one part in 512, is not
    below the minimum, and nothing overflows on the way. *)
Theorem gas_limit_accepted (parent header : Header) :
  MinGasLimit ≤ h_GasLimit parent ≤ 2 ^ 62 → 0 ≤ h_GasUsed parent ≤ h_GasLimit parent → h_GasLimit header = CalcGasLimit parent →
  gas_limit_refused header parent = false ∧ h_GasLimit header ≤ maxGasLimit.
Proof.
  intros Hp Hu Hh. destruct (CalcGasLimit_bounds parent Hp Hu) as [H1 H2]. rewrite <- Hh in *. unfold gas_limit_refused. revert H1 H2 Hp. clear.
  generalize (h_GasLimit parent) as l, (h_GasLimit header) as n. unfold MinGasLimit, GasLimitBoundDivisor. intros l n H1 H2 Hp.
  assert (l / 512 ≤ l) by (Z.div_mod_to_equations; lia).
  rewrite (i64_small l), (i64_small n), (i64_small (l - n)), (i64_small ((l - n) * -1)) by lia. split; [|change maxGasLimit with (2 ^ 63 - 1); lia].
  apply orb_false_iff. split; [|apply Z.ltb_ge; lia]. rewrite Z.geb_leb. apply Z.leb_gt.
  destruct (Z.ltb_spec (l - n) 0); rewrite u64_small; unfold is_u64; lia.
Qed.

Definition gas_parent : Header := sample_header <| h_GasLimit := 300000000 |> <| h_GasUsed := 299999999 |>.
Definition gas_child : Header := sample_header <| h_GasLimit := CalcGasLimit gas_parent |>.
Lemma gas_limit_accepted_witness : gas_limit_refused gas_child gas_parent = false ∧ h_GasLimit gas_child ≤ maxGasLimit.
Proof. apply (gas_limit_accepted gas_parent gas_child); [by vm_compute|by vm_compute|reflexivity]. Defined.

(** ** Who has signed *)

Lemma EqualFold_true a b : EqualFold a b = true → ToLower a = ToLower b.
Proof. unfold EqualFold. apply bool_decide_eq_true_1. Qed.

Section Signed.
Context (keccak : bytes → hash) `{SECP : Secp256k1} (GetHeader : hash → Z → option Header).

(** The signature is one over [h] from which the key of [a] is recovered. *)
Definition signed_by (h : hash) (sig : bytes) (a : address) : Prop :=
  ∃ pub, RecoverPubkey (hash_bytes h) sig = (pub, None) ∧ signer_address keccak pub = Ret a.
(** The delegate of this address is in the round. *)
Definition in_round (shuffle : list ShuffleDel) (a : address) : Prop := ∃ d, d ∈ shuffle ∧ ToLower (sd_Address d) = ToLower (address_Hex keccak a).

Lemma RecoverPubkey_error m sig pub err : RecoverPubkey m sig = (pub, Some err) → pub = [].
Proof. unfold RecoverPubkey. repeat case_match; by intros [= <- _]. Qed.

Lemma signer_address_nil : signer_address keccak [] = Panic "nil pointer dereference".
Proof. done. Qed.

Lemma signed_by_recovered h sig pub err a : RecoverPubkey (hash_bytes h) sig = (pub, err) → signer_address keccak pub = Ret a → signed_by h sig a.
Proof.
  intros E Ha. destruct err as [err|]; [|by exists pub]. apply RecoverPubkey_error in E as ->. by rewrite signer_address_nil in Ha.
Qed.

Lemma checkInShuffleList_in shuffle a : checkInShuffleList shuffle (address_Hex keccak a) = true → in_round shuffle a.
Proof.
  intros H. apply existsb_exists in H as (d & Hd & E). apply EqualFold_true in E. exists d. split; [by apply list_elem_of_In|exact E].
Qed.

Lemma address_Hex_inj a b : ToLower (address_Hex keccak a) = ToLower (address_Hex keccak b) → a = b.
Proof. apply lower_Hex_inj. Qed.

(** The signers that are counted: delegates of the round, each with a signature. *)
Lemma collect_signers_sound h shuffle signs : ∀ m m', collect_signers keccak h shuffle signs m = Ret m' →
  ∀ s, s ∈ m' → s ∈ m ∨ ∃ a sig, s = address_Hex keccak a ∧ in_round shuffle a ∧ sig ∈ signs ∧ signed_by h sig a.
Proof.
  induction signs as [|sign signs IH]; intros m m' E s Hs; [injection E as <-; by left|]. cbn [collect_signers] in E.
  destruct (RecoverPubkey (hash_bytes h) sign) as [pub err] eqn:ER. destruct (signer_address keccak pub) as [a|] eqn:Ea; [|done]. cbn [mbind outcome_bind] in E.
  destruct (IH _ _ E s Hs) as [Hm|(a' & sig & -> & Hr & Hin & Hsig)]; [|right; exists a', sig; split_and!; [done|done|by right|done]].
  destruct (checkInShuffleList shuffle (address_Hex keccak a)) eqn:Ec; [|by left]. apply elem_of_union in Hm as [Hm|Hm]; [|by left].
  apply elem_of_singleton in Hm as ->. right. exists a, sign. split_and!; [done|by apply checkInShuffleList_in|by left|by eapply signed_by_recovered].
Qed.

(** One signature from which no key can be recovered, and the check does not return. *)
Lemma collect_signers_panics h shuffle signs sig pub err : sig ∈ signs → RecoverPubkey (hash_bytes h) sig = (pub, Some err) →
  ∀ m, ∃ w, collect_signers keccak h shuffle signs m = Panic w.
Proof.
  intros Hin E. induction Hin as [sig signs|sig sig' signs _ IH]; intros m; cbn [collect_signers].
  - rewrite E. apply RecoverPubkey_error in E as ->. rewrite signer_address_nil. cbn. by eexists.
  - destruct (RecoverPubkey (hash_bytes h) sig') as [pub' err']. destruct (signer_address keccak pub') as [a|w]; cbn; [by apply IH|by eexists].
Qed.

(** Distinct strings of addresses are distinct addresses. *)
Lemma signers_list (m : gset bytes) (P : address → Prop) : (∀ s, s ∈ m → ∃ a, s = address_Hex keccak a ∧ P a) →
  ∃ l, NoDup l ∧ length l = base.size m ∧ Forall P l.
Proof.
  intros H. assert (∃ l, address_Hex keccak <$> l = elements m ∧ Forall P l) as (l & El & HP).
  { assert (H' : ∀ s, s ∈ elements m → ∃ a, s = address_Hex keccak a ∧ P a) by (intros s Hs; apply H; by apply elem_of_elements).
    revert H'. generalize (elements m). induction l as [|s l IH]; intros H'; [by exists []|].
    destruct (H' s) as (a & -> & Ha); [by left|]. destruct IH as (l' & <- & HP); [intros s Hs; apply H'; by right|]. exists (a :: l'). by split; [|constructor]. }
  exists l. split_and!; [|by rewrite <- (length_fmap (address_Hex keccak)), El|done].
  apply (NoDup_fmap_1 (address_Hex keccak)). rewrite El. apply NoDup_elements.
Qed.

(** ** What an accepted block satisfies *)

Lemma verifyHeader_ok now header parent : verifyHeader now header parent = None →
  blen (Extra header) ≤ MaximumExtraDataSize ∧ Time parent < Time header ≤ now + allowedFutureBlockTime ∧ h_GasUsed header ≤ h_GasLimit header ≤ maxGasLimit ∧
  gas_limit_refused header parent = false ∧ Number header = Number parent + 1.
Proof.
  unfold verifyHeader. intros H. repeat match type of H with (if ?b then _ else _) = _ => destruct b eqn:?; [discriminate H|] end.
  repeat match goal with E : (_ >? _) = false |- _ => rewrite Z.gtb_ltb in E; apply Z.ltb_ge in E | E : (_ <=? _) = false |- _ => apply Z.leb_gt in E end.
  match goal with E : negb _ = false |- _ => apply negb_false_iff, Z.eqb_eq in E end. by split_and!; try lia.
Qed.

(** The producer is the delegate of this slot, and has signed. *)
Definition produced_in_turn (now : Z) (block : Block) (shuffle : list ShuffleDel) (interval : Z) (h : hash) : Prop :=
  let hd := Blocks.header block in
  (∃ parent, GetHeader (ParentHash hd) (u64 (Uint64 (Number hd) - 1)) = Some parent ∧ Number hd = Number parent + 1 ∧ Time parent < Time hd ∧
    h_GasUsed hd ≤ h_GasLimit hd ∧ gas_limit_refused hd parent = false) ∧
  (∃ delegate, delegate ∈ shuffle ∧ ToLower (sd_Address delegate) = ToLower (address_Hex keccak (Coinbase hd)) ∧ WorkTime delegate = Uint64 (Time hd)) ∧
  i64 (Uint64 (Time hd)) ≤ now < i64 (i64 (Uint64 (Time hd)) + interval) ∧
  signed_by h (Signature block) (Coinbase hd).

Lemma header_accepted now block shuffle interval : VerifyHeaderAndSign keccak GetHeader now block shuffle interval = Ret None →
  ∃ h b', Block_Hash keccak block = Ret (h, b') ∧ produced_in_turn now block shuffle interval h.
Proof.
  unfold VerifyHeaderAndSign, produced_in_turn. cbv zeta. intros H. set (hd := Blocks.header block) in *. destruct ((now <? _) || _) eqn:Et; [done|].
  destruct (GetHeader (ParentHash hd) _) as [parent|] eqn:Ep; [|done]. destruct (verifyHeader now hd parent) eqn:Ev; [done|].
  destruct (_ =? _)%nat; [done|]. destruct (List.find _ shuffle) as [d|] eqn:Ed; [|done]. destruct (negb _) eqn:Ew; [done|].
  destruct (Block_Hash keccak block) as [[h b']|] eqn:Eh; [|done]. cbn [mbind outcome_bind] in H.
  destruct (RecoverPubkey _ _) as [pub err] eqn:Er. destruct (signer_address keccak pub) as [a|] eqn:Ea; [|done]. cbn [mbind outcome_bind] in H.
  destruct (EqualFold (address_Hex keccak a) (address_Hex keccak (Coinbase hd))) eqn:Ee; [|done].
  apply EqualFold_true, address_Hex_inj in Ee as ->. apply find_some in Ed as [Hd He]. apply EqualFold_true in He.
  apply negb_false_iff, Z.eqb_eq in Ew. apply orb_false_iff in Et as [E1 E2]. apply Z.ltb_ge in E1. rewrite Z.geb_leb in E2. apply Z.leb_gt in E2.
  apply verifyHeader_ok in Ev as (_ & Ht & Hg & Hl & Hn). exists h, b'. split; [done|]. split_and!; [|exists d; split_and!; [by apply list_elem_of_In|done|done]|done|done|by eapply signed_by_recovered].
  exists parent. split_and!; [done|done|apply Ht|apply Hg|done].
Qed.

(** C5: an accepted block has its producer's signature and a quorum's.  If
    [VerifyBlockGenerate] accepts a block then its producer is the delegate of the
    round whose slot is the block's time, the time has come and the slot has not
    passed, the header follows its parent (number, time, gas) and the producer has
    signed its hash; and more than twice a third of the number of delegates, the
    third rounded down, have signed the same hash: that many different addresses of the
    round.  For a number that is no multiple of three this is not two thirds: 67 of 101
    delegates are enough. *)
Theorem block_accepted (now maxElect : Z) (block : Block) (shuffle : list ShuffleDel) (interval : Z) :
  VerifyBlockGenerate keccak GetHeader now maxElect block shuffle interval = Ret None →
  ∃ h b' signers, Block_Hash keccak block = Ret (h, b') ∧ produced_in_turn now block shuffle interval h ∧
    NoDup signers ∧ Z.quot (Int64 maxElect) 3 * 2 < Z.of_nat (length signers) ∧ Forall (λ a, in_round shuffle a ∧ ∃ sig, signed_by h sig a) signers.
Proof.
  unfold VerifyBlockGenerate. intros H. destruct (VerifyHeaderAndSign keccak GetHeader now block shuffle interval) as [[err|]|] eqn:E; [done| |done].
  cbn [mbind outcome_bind] in H. destruct (decode_signs _) as [signs|]; [|done]. apply header_accepted in E as (h & b' & Eh & Hp). rewrite Eh in H.
  cbn [mbind outcome_bind] in H. destruct (collect_signers keccak h shuffle signs ∅) as [m|] eqn:Ec; [|done]. cbn [mbind outcome_bind] in H.
  destruct (Z.gtb_spec (Z.of_nat (base.size m)) (Z.quot (Int64 maxElect) 3 * 2)) as [Hq|]; [|done].
  destruct (signers_list m (λ a, in_round shuffle a ∧ ∃ sig, signed_by h sig a)) as (l & Hnd & Hl & HP).
  { intros s Hs. destruct (collect_signers_sound _ _ _ _ _ Ec s Hs) as [Hs'|(a & sig & -> & Hr & _ & Hsig)]; [by apply not_elem_of_empty in Hs'|].
    exists a. split_and!; [done|done|by exists sig]. }
  exists h, b', l. split_and!; [done|done|done|by rewrite Hl|done].
Qed.

(** C40: a bad signature stops the node.  The signatures that come with a block are not
    covered by its hash.  If one of them is such that no key can be recovered from it
    - it is too short, or its last byte is 4 or more - and the block itself is in
    order, then [VerifyBlockGenerate] does not return an error but panics: the error
    of [RecoverPubkey] is dropped and the missing key is dereferenced. *)
Theorem bad_sign_panics (now maxElect : Z) (block : Block) (shuffle : list ShuffleDel) (interval : Z) (signs : list bytes) (sig pub : bytes) (err : secperr) (h : hash) (b' : Block) :
  VerifyHeaderAndSign keccak GetHeader now block shuffle interval = Ret None → decode_signs (RlpEncodeSigns block) = inl signs →
  Block_Hash keccak block = Ret (h, b') → sig ∈ signs → RecoverPubkey (hash_bytes h) sig = (pub, Some err) →
  ∃ w, VerifyBlockGenerate keccak GetHeader now maxElect block shuffle interval = Panic w.
Proof.
  intros E Ed Eh Hin Er. unfold VerifyBlockGenerate. rewrite E. cbn [mbind outcome_bind]. rewrite Ed, Eh. cbn [mbind outcome_bind].
  destruct (collect_signers_panics h shuffle signs sig pub err Hin Er ∅) as [w ->]. by exists w.
Qed.
End Signed.

(** ** An example

    One delegate, whose key is that of the base point. *)
Definition base_address : address := point_address toy_keccak curve_Gx curve_Gy.
Definition turn_parent : Header := sample_header <| h_GasLimit := 300000000 |> <| Number := 6 |> <| Time := 990 |>.
Definition turn_header : Header := turn_parent <| Coinbase := base_address |> <| Number := 7 |> <| Time := 1000 |>.
Definition turn_sign : bytes := replicate 65 (byte_of 1).
Definition turn_signs (signs : list bytes) : bytes :=
  match EncodeToBytes signs_type (VList ((λ s, VList [VBytes s; VUint 0]) <$> signs)) with Ret (inl b) => b | _ => [] end.
Definition turn_block (signs : list bytes) : Block := mkBlock turn_header [] None None 0 turn_sign (turn_signs signs).
Definition turn_round : list ShuffleDel := [mkShuffleDel 1000 (address_Hex toy_keccak base_address) 5 []].
Definition turn_chain (h : hash) (n : Z) : option Header := Some turn_parent.

Lemma block_accepted_witness : ∃ h b' signers, Block_Hash toy_keccak (turn_block [turn_sign]) = Ret (h, b') ∧
  @produced_in_turn toy_keccak toy_secp turn_chain 1003 (turn_block [turn_sign]) turn_round 10 h ∧ 0 < Z.of_nat (length (signers : list address)).
Proof.
  destruct (@block_accepted toy_keccak toy_secp turn_chain 1003 1 (turn_block [turn_sign]) turn_round 10) as (h & b' & signers & H1 & H2 & _ & H3 & _);
    [by vm_compute|]. exists h, b', signers. split; [exact H1|]. split; [exact H2|exact H3].
Defined.

Lemma bad_sign_panics_witness : ∃ w, @VerifyBlockGenerate toy_keccak toy_secp turn_chain 1003 1 (turn_block [turn_sign; []]) turn_round 10 = Panic w.
Proof.
  destruct (Block_Hash toy_keccak (turn_block [turn_sign; []])) as [[h b']|] eqn:E; [|by vm_compute in E].
  apply (@bad_sign_panics toy_keccak toy_secp turn_chain 1003 1 (turn_block [turn_sign; []]) turn_round 10 [turn_sign; []] [] [] ErrInvalidSignatureLen h b');
    [by vm_compute|by vm_compute|exact E|by right; left|]. unfold RecoverPubkey. by rewrite (length_be_bytes 32 h : length (hash_bytes h) = 32%nat).
Defined.
