(* ===== verification/HeaderPipeline.v ===== *)
(** * Checking headers concurrently ([AuroraDpos.VerifyHeaders])

    A coordinator hands the indices of the headers to workers over an unbuffered
    channel; a worker stores its result in a shared array and reports the index over a
    buffered channel; the coordinator sends the results on in the order of the
    headers.  The steps of all goroutines, in any interleaving, are a relation. *)

From S2P Require Import Prelude Interfaces StateTypes Hex VmData Rlp RlpLayout RlpStream.
From S2P Require Import RlpRead RlpRoundtrip Secp TxData Bloom Blocks DelegateState Shuffle.
From S2P Require Import Dpos TrieClaims.

(** ** Goroutines *)

Inductive worker : Type :=
| Waiting                 (* for the next index *)
| Checking (index : nat)  (* has taken an index *)
| Reporting (index : nat) (* has stored the result *).

Record pipeline : Type := mkPipeline {
  p_in : nat;                          (* the next index to hand out *)
  p_out : nat;                         (* the next result to send on *)
  p_checked : list bool;
  p_workers : list worker;
  p_errors : list (option dposerr);    (* [headerErrors], all nil at first *)
  p_done : list nat;                   (* in the channel [done] *)
  p_results : list (option dposerr);   (* sent on [errorsOut] *)
  p_running : bool                     (* the coordinator has not returned *)
}.
#[export] Instance pipeline_eta : Eta pipeline := λ p,
  mkPipeline (p_in p) (p_out p) (p_checked p) (p_workers p) (p_errors p) (p_done p) (p_results p) (p_running p).

Section Pipeline.
Context (keccak : bytes → hash) (GetHeader : hash → Z → option Header) (headers : list Header).
#[local] Abbreviation n := (length headers).

(** The loop of the coordinator: what is checked is sent on; it returns after the
    last header. *)
Fixpoint send_on (fuel : nat) (p : pipeline) : pipeline :=
  match fuel with
  | O => p
  | S fuel =>
    match p_checked p !! p_out p, p_errors p !! p_out p with
    | Some true, Some r =>
      let p := p <| p_results ::= λ l, l ++ [r] |> in
      if (p_out p =? n - 1)%nat then p <| p_running := false |>
      else send_on fuel (p <| p_out ::= S |>)
    | _, _ => p
    end
  end.

(** What the goroutines do on their own, and the quit channel. *)
Inductive work : pipeline → pipeline → Prop :=
| work_hand p w : (* [inputs <- in] meets a waiting worker *)
    p_running p = true → (p_in p < n)%nat → p_workers p !! w = Some Waiting →
    work p (p <| p_workers ::= <[w := Checking (p_in p)]> |> <| p_in ::= S |>)
| work_check p w i now r : (* [headerErrors[index] = d.verifyHeaders(chain, headers, index)] *)
    p_workers p !! w = Some (Checking i) → verifyHeaders keccak GetHeader now headers i = Ret r →
    work p (p <| p_workers ::= <[w := Reporting i]> |> <| p_errors ::= <[i := r]> |>)
| work_report p w i : (* [done <- index], a channel with room for one index of each worker *)
    p_workers p !! w = Some (Reporting i) → (length (p_done p) < length (p_workers p))%nat →
    work p (p <| p_workers ::= <[w := Waiting]> |> <| p_done ::= λ l, l ++ [i] |>)
| work_collect p i rest : (* [index := <-done] *)
    p_running p = true → p_done p = i :: rest →
    work p (send_on n (p <| p_done := rest |> <| p_checked ::= <[i := true]> |>)).
Inductive step : pipeline → pipeline → Prop :=
| step_work p p' : work p p' → step p p'
| step_abort p : p_running p = true → step p (p <| p_running := false |>).

(** [GOMAXPROCS] workers, but not more than headers. *)
Definition start (workers : nat) : pipeline :=
  mkPipeline 0 0 (replicate n false) (replicate (workers `min` n) Waiting) (replicate n None) [] [] true.

(** ** Invariants *)

(** [r] is what the check of header [i] returned. *)
Definition verified (i : nat) (r : option dposerr) : Prop := ∃ now, verifyHeaders keccak GetHeader now headers i = Ret r.
Definition stored (p : pipeline) (i : nat) : Prop := ∃ r, p_errors p !! i = Some r ∧ verified i r.
(** Index [i] is with a worker, on the way back, or back. *)
Definition held (p : pipeline) (i : nat) : Prop :=
  (∃ w, p_workers p !! w = Some (Checking i) ∨ p_workers p !! w = Some (Reporting i)) ∨ i ∈ p_done p ∨ p_checked p !! i = Some true.

Definition results_ok (p : pipeline) : Prop := ∀ k r, p_results p !! k = Some r → verified k r.
(** A running coordinator waits for the header it sends on next. *)
Definition waits (p : pipeline) : Prop := length (p_results p) = p_out p ∧ p_checked p !! p_out p = Some false.

Record inv (p : pipeline) : Prop := {
  iv_checked : length (p_checked p) = n;
  iv_errors : length (p_errors p) = n;
  iv_workers : (0 < length (p_workers p))%nat;
  iv_in : (p_in p ≤ n)%nat;
  iv_checking : ∀ w i, p_workers p !! w = Some (Checking i) → (i < n)%nat;
  iv_reporting : ∀ w i, p_workers p !! w = Some (Reporting i) → stored p i;
  iv_done : ∀ i, i ∈ p_done p → stored p i;
  iv_true : ∀ i, p_checked p !! i = Some true → stored p i;
  iv_held : ∀ i, (i < p_in p)%nat → held p i;
  iv_results : results_ok p;
  iv_waits : p_running p = true → waits p
}.

(** The fields the loop of the coordinator leaves alone. *)
Definition same_but_output (p p' : pipeline) : Prop :=
  p_in p' = p_in p ∧ p_checked p' = p_checked p ∧ p_workers p' = p_workers p ∧ p_errors p' = p_errors p ∧ p_done p' = p_done p.

Lemma send_on_spec fuel : ∀ p, length (p_checked p) = n → (∀ i, p_checked p !! i = Some true → stored p i) → results_ok p →
  length (p_results p) = p_out p → (p_out p < n)%nat → (n ≤ p_out p + fuel)%nat → p_running p = true →
  same_but_output p (send_on fuel p) ∧ results_ok (send_on fuel p) ∧
  (p_running (send_on fuel p) = true ∧ waits (send_on fuel p) ∨ p_running (send_on fuel p) = false ∧ length (p_results (send_on fuel p)) = n).
Proof.
  induction fuel as [|fuel IH]; intros p Hl Ht Hr Hlen Ho Hf Hrun; [lia|]. cbn [send_on].
  destruct (lookup_lt_is_Some_2 (p_checked p) (p_out p)) as [[] Ec]; [lia| |].
  - destruct (Ht _ Ec) as (r & Er & Hv). rewrite Ec, Er. cbv zeta.
    assert (Hr' : results_ok (p <| p_results ::= λ l, l ++ [r] |>)).
    { intros k r' Hk. cbn in Hk. apply lookup_app_Some in Hk as [Hk|[Hk1 Hk2]]; [by apply Hr|].
      apply list_lookup_singleton_Some in Hk2 as [Hk2 <-]. by replace k with (p_out p) by lia. }
    destruct (Nat.eqb_spec (p_out (p <| p_results ::= λ l, l ++ [r] |>)) (n - 1)) as [E|E]; cbn in E.
    + split_and!; [done|done|]. right. split; [done|]. cbn. rewrite length_app. cbn. lia.
    + destruct (IH (p <| p_results ::= λ l, l ++ [r] |> <| p_out ::= S |>)) as (S1 & S2 & S3);
        [done|done|exact Hr'|cbn; rewrite length_app; cbn; lia|cbn; lia|cbn; lia|done|].
      split; [exact S1|]. split; [exact S2|exact S3].
  - rewrite Ec. split_and!; [done|done|]. left. by split.
Qed.

Lemma stored_write p q i r j : p_errors q = <[i := r]> (p_errors p) → (i < length (p_errors p))%nat → verified i r → stored p j → stored q j.
Proof.
  intros E Hi Hv (r' & Hr' & Hv'). unfold stored. rewrite E. destruct (decide (i = j)) as [->|Hne].
  - exists r. split; [by apply list_lookup_insert_eq|done].
  - exists r'. split; [by rewrite list_lookup_insert_ne|done].
Qed.

Lemma insert_cases {A} (l : list A) w a v b : <[w := a]> l !! v = Some b → (v = w ∧ b = a) ∨ (v ≠ w ∧ l !! v = Some b).
Proof. intros H. apply list_lookup_insert_Some in H as [(<- & -> & _)|[Hne H]]; [by left|by right]. Qed.

Lemma held_worker p q i w a : p_workers q = <[w := a]> (p_workers p) → p_workers p !! w = Some Waiting → p_done q = p_done p → p_checked q = p_checked p →
  held p i → held q i.
Proof.
  intros Ew Ha Ed Ec [[v Hv]|H]; [left|right; by rewrite Ed, Ec]. exists v. rewrite Ew. assert (v ≠ w) by (intros ->; destruct Hv; congruence).
  by rewrite !list_lookup_insert_ne by done.
Qed.

Lemma inv_hand p w : inv p → p_running p = true → (p_in p < n)%nat → p_workers p !! w = Some Waiting →
  inv (p <| p_workers ::= <[w := Checking (p_in p)]> |> <| p_in ::= S |>).
Proof.
  intros [] Hrun Hin Hw. split; cbn; try done.
  - by rewrite length_insert.
  - intros v i Hv. apply insert_cases in Hv as [[-> [= ->]]|[_ Hv]]; [done|by eauto].
  - intros v i Hv. apply insert_cases in Hv as [[_ ?]|[_ Hv]]; [done|by eauto].
  - intros i Hi. destruct (decide (i = p_in p)) as [->|Hne].
    + left. exists w. left. cbn. apply list_lookup_insert_eq. by eapply lookup_lt_Some.
    + eapply (held_worker p _ i w); [reflexivity|done|done|done|]. apply iv_held0. lia.
Qed.

Lemma inv_check p w i r : inv p → p_workers p !! w = Some (Checking i) → verified i r →
  inv (p <| p_workers ::= <[w := Reporting i]> |> <| p_errors ::= <[i := r]> |>).
Proof.
  intros [] Hw Hv. assert (Hi : (i < length (p_errors p))%nat) by (rewrite iv_errors0; by eapply iv_checking0).
  assert (Hst : ∀ j, stored p j → stored (p <| p_workers ::= <[w := Reporting i]> |> <| p_errors ::= <[i := r]> |>) j) by (intros j; by eapply (stored_write p _ i r j)).
  split; cbn; try done.
  - by rewrite length_insert.
  - by rewrite length_insert.
  - intros v j Hj. apply insert_cases in Hj as [[_ ?]|[_ Hj]]; [done|by eauto].
  - intros v j Hj. apply insert_cases in Hj as [[-> [= ->]]|[_ Hj]]; [|by eauto].
    exists r. split; [by apply list_lookup_insert_eq|done].
  - by eauto.
  - by eauto.
  - intros j Hj. destruct (iv_held0 j Hj) as [[v Hv']|H]; [left|by right]. cbn. destruct (decide (v = w)) as [->|Hne].
    + exists w. right. rewrite Hw in Hv'. destruct Hv' as [[= ->]|?]; [|done]. apply list_lookup_insert_eq. by eapply lookup_lt_Some.
    + exists v. by rewrite !list_lookup_insert_ne by done.
Qed.

Lemma inv_report p w i : inv p → p_workers p !! w = Some (Reporting i) → inv (p <| p_workers ::= <[w := Waiting]> |> <| p_done ::= λ l, l ++ [i] |>).
Proof.
  intros [] Hw. split; cbn; try done.
  - by rewrite length_insert.
  - intros v j Hj. apply insert_cases in Hj as [[_ ?]|[_ Hj]]; [done|by eauto].
  - intros v j Hj. apply insert_cases in Hj as [[_ ?]|[_ Hj]]; [done|by eauto].
  - intros j [Hj|Hj%list_elem_of_singleton]%elem_of_app; [by apply iv_done0|subst j; by eapply iv_reporting0].
  - intros j Hj. destruct (iv_held0 j Hj) as [[v Hv']|[H|H]]; cbn.
    + destruct (decide (v = w)) as [->|Hne]; [|left; exists v; cbn; by rewrite !list_lookup_insert_ne by done].
      rewrite Hw in Hv'. destruct Hv' as [?|[= ->]]; [done|]. right. left. cbn. apply elem_of_app. right. by left.
    + right. left. cbn. apply elem_of_app. by left.
    + by right; right.
Qed.

(** The result of a turn of the coordinator: it waits on, or it has sent everything. *)
Lemma inv_collect p i rest : inv p → p_running p = true → p_done p = i :: rest →
  let p' := send_on n (p <| p_done := rest |> <| p_checked ::= <[i := true]> |>) in
  inv p' ∧ (p_running p' = false → length (p_results p') = n).
Proof.
  intros Hi Hrun Hd p'. pose proof Hi as []. destruct (iv_waits0 Hrun) as [Hlen Hf].
  assert (Ho : (p_out p < n)%nat) by (rewrite <- iv_checked0; by eapply lookup_lt_Some).
  assert (Ht : ∀ j, <[i := true]> (p_checked p) !! j = Some true → stored p j).
  { intros j Hj. apply insert_cases in Hj as [[-> _]|[_ Hj]]; [|by eauto]. apply iv_done0. rewrite Hd. by left. }
  destruct (send_on_spec n (p <| p_done := rest |> <| p_checked ::= <[i := true]> |>)) as ((S1 & S2 & S3 & S4 & S5) & HR & HW);
    [cbn; by rewrite length_insert|exact Ht|done|done|done|cbn; lia|done|]. fold p' in S1, S2, S3, S4, S5, HR, HW. cbn in S1, S2, S3, S4, S5.
  split; [|destruct HW as [[-> _]|[_ ?]]; done]. assert (Hst : ∀ j, stored p j → stored p' j) by (unfold stored; by rewrite S4).
  split; rewrite ?S1, ?S2, ?S3, ?S4, ?S5; try done.
  - by rewrite length_insert.
  - intros w j Hj. by eauto.
  - intros j Hj. apply Hst, iv_done0. rewrite Hd. by right.
  - intros j Hj. by apply Hst, Ht.
  - intros j Hj. destruct (iv_held0 j Hj) as [[v Hv]|[H|H]]; unfold held; rewrite S2, S3, S5.
    + left. by exists v.
    + rewrite Hd in H. apply elem_of_cons in H as [->|H]; [|by right; left]. right. right. apply list_lookup_insert_eq. rewrite iv_checked0.
      destruct (iv_done0 i) as (r & Hr & _); [rewrite Hd; by left|]. rewrite <- iv_errors0. by eapply lookup_lt_Some.
    + right. right. apply list_lookup_insert_Some. destruct (decide (i = j)) as [->|Hne]; [left|by right]. split_and!; [done|done|by eapply lookup_lt_Some].
  - destruct HW as [[_ HW]|[-> _]]; [by intros _|done].
Qed.

Lemma inv_start W : headers ≠ [] → (0 < W)%nat → inv (start W).
Proof.
  intros Hne HW. assert (0 < n)%nat by (destruct headers; [done|cbn; lia]).
  assert (Hnone : ∀ w x, replicate (W `min` n) Waiting !! w = Some x → x = Waiting) by (intros w x Hx; by apply lookup_replicate in Hx as [-> _]).
  split; cbn; rewrite ?length_replicate; try done; try lia.
  - intros w i Hw. by apply Hnone in Hw.
  - intros w i Hw. by apply Hnone in Hw.
  - intros i Hi. by apply not_elem_of_nil in Hi.
  - intros i Hi. by apply lookup_replicate in Hi as [? _].
  - intros _. split; [done|]. cbn. by apply lookup_replicate.
Qed.

Lemma inv_work p p' : inv p → work p p' → inv p' ∧ ((p_running p = false → length (p_results p) = n) → p_running p' = false → length (p_results p') = n).
Proof.
  intros Hi Hw. destruct Hw as [p w Hrun Hin Hw|p w i now r Hw Hv|p w i Hw Hd|p i rest Hrun Hd].
  - split; [by apply inv_hand|done].
  - split; [apply inv_check; [done|done|by exists now]|done].
  - split; [by apply inv_report|done].
  - destruct (inv_collect p i rest Hi Hrun Hd) as [H1 H2]. by split.
Qed.

(** ** Progress *)

Lemma worker_cases (ws : list worker) :
  (∃ w i, ws !! w = Some (Checking i)) ∨ (∃ w i, ws !! w = Some (Reporting i)) ∨ (∀ w x, ws !! w = Some x → x = Waiting).
Proof.
  induction ws as [|x ws IH]; [by right; right|]. destruct x as [|i|i]; [|left; by exists 0%nat, i|right; left; by exists 0%nat, i].
  destruct IH as [(w & i & H)|[(w & i & H)|H]]; [left; by exists (S w), i|right; left; by exists (S w), i|]. right. right. intros [|w] x Hx; [by injection Hx as <-|by apply (H w)].
Qed.

Lemma work_progress p : (∀ i, (i < n)%nat → ∃ r, verified i r) → inv p → p_running p = true → ∃ p', work p p'.
Proof.
  intros Hver Hi Hrun. pose proof Hi as []. destruct (iv_waits0 Hrun) as [_ Hf].
  assert (Hcol : p_done p ≠ [] → ∃ p', work p p') by (intros Hd; destruct (p_done p) as [|i rest] eqn:E; [done|]; eexists; by eapply work_collect).
  destruct (worker_cases (p_workers p)) as [(w & i & Hw)|[(w & i & Hw)|Hall]].
  - destruct (Hver i) as (r & now & Hv); [by eapply iv_checking0|]. eexists. by eapply work_check.
  - destruct (decide (length (p_done p) < length (p_workers p))%nat); [eexists; by eapply work_report|]. apply Hcol. intros E. rewrite E in *. cbn in *. lia.
  - destruct (p_done p) as [|i rest] eqn:Ed; [|by apply Hcol]. destruct (decide (p_in p < n)%nat) as [Hin|Hin].
    + destruct (lookup_lt_is_Some_2 (p_workers p) 0) as [x Hx]; [done|]. eexists. eapply work_hand; [done|done|]. by rewrite <- (Hall _ _ Hx).
    + destruct (iv_held0 (p_out p)) as [[v [Hv|Hv]]|[H|H]]; [rewrite <- iv_checked0 in Hin; apply lookup_lt_Some in Hf; lia| | | |].
      * by apply Hall in Hv.
      * by apply Hall in Hv.
      * rewrite Ed in H. by apply not_elem_of_nil in H.
      * congruence.
Qed.

(** ** Every run ends *)

Definition weight (w : worker) : nat := match w with Waiting => 0 | Checking _ => 3 | Reporting _ => 2 end.
Definition measure (p : pipeline) : nat :=
  (4 * (n - p_in p) + sum_list (weight <$> p_workers p) + length (p_done p) + if p_running p then 1 else 0)%nat.

Lemma sum_insert ws w a b : ws !! w = Some a → (sum_list (weight <$> <[w := b]> ws) + weight a = sum_list (weight <$> ws) + weight b)%nat.
Proof.
  revert w. induction ws as [|x ws IH]; intros [|w] H; try done.
  - injection H as <-. change ((weight b + sum_list (weight <$> ws)) + weight x = (weight x + sum_list (weight <$> ws)) + weight b)%nat. lia.
  - change ((weight x + sum_list (weight <$> <[w := b]> ws)) + weight a = (weight x + sum_list (weight <$> ws)) + weight b)%nat. specialize (IH w H). lia.
Qed.

Lemma send_on_measure fuel : ∀ p, (measure (send_on fuel p) ≤ measure p)%nat.
Proof.
  induction fuel as [|fuel IH]; intros p; [done|]. cbn [send_on]. destruct (p_checked p !! p_out p) as [[]|]; [|done..].
  destruct (p_errors p !! p_out p) as [r|]; [|done]. cbv zeta. destruct (_ =? _)%nat; [unfold measure; cbn; destruct (p_running p); lia|].
  etrans; [apply IH|]. unfold measure. cbn. done.
Qed.

Lemma step_measure p p' : step p p' → (measure p' < measure p)%nat.
Proof.
  intros [p0 p1 [p2 w Hrun Hin Hw|p2 w i now r Hw Hv|p2 w i Hw Hd|p2 i rest Hrun Hd]|p0 Hrun].
  - pose proof (sum_insert _ _ _ (Checking (p_in p2)) Hw) as H. unfold measure. cbn [p_in p_workers p_done p_running upd weight] in *. lia.
  - pose proof (sum_insert _ _ _ (Reporting i) Hw) as H. unfold measure. cbn [p_in p_workers p_done p_running upd weight] in *. lia.
  - pose proof (sum_insert _ _ _ Waiting Hw) as H. unfold measure. cbn [p_in p_workers p_done p_running upd weight] in *. rewrite length_app. cbn [length]. lia.
  - eapply Nat.le_lt_trans; [apply send_on_measure|]. unfold measure. cbn. rewrite Hd. cbn. lia.
  - unfold measure. cbn. rewrite Hrun. lia.
Qed.

(** C17: headers are checked concurrently as if one by one.  Whatever the number of
    workers and however they are scheduled: the results that have been sent are those
    of the first headers, in order, each the result of checking that header; as long
    as the coordinator has not returned, some goroutine can go on, and when it has
    returned without being told to quit, there is one result per header; and every
    step brings the end nearer, so every run ends. *)
Theorem headers_in_order (W : nat) : headers ≠ [] → (0 < W)%nat → (∀ i, (i < n)%nat → ∃ r, verified i r) →
  (∀ p, rtc step (start W) p → ∀ k r, p_results p !! k = Some r → verified k r) ∧
  (∀ p, rtc work (start W) p → if p_running p then ∃ p', work p p' else length (p_results p) = n) ∧
  (∀ p p', step p p' → (measure p' < measure p)%nat).
Proof.
  intros Hne HW Hver. pose proof (inv_start W Hne HW) as H0. split_and!; [| |apply step_measure].
  - intros p Hp. enough (Hi : inv p) by apply Hi.
    revert Hp. generalize (start W) H0. intros p0 Hi0 Hp. induction Hp as [p|p p1 p2 Hs _ IH]; [done|]. apply IH.
    destruct Hs as [p p1 Hw|p Hrun]; [by apply (inv_work p)|]. by destruct Hi0; split.
  - intros p Hp. assert (Hi : inv p ∧ (p_running p = false → length (p_results p) = n)).
    { assert (Hs : p_running (start W) = false → length (p_results (start W)) = n) by done. revert Hp Hs. generalize (start W) H0. intros p0 Hi0 Hp.
      induction Hp as [p|p p1 p2 Hw _ IH]; intros Hs; [by split|]. destruct (inv_work p p1 Hi0 Hw) as [H1 H2]. apply IH; [done|by apply H2]. }
    destruct Hi as [Hi Hf]. destruct (p_running p) eqn:Er; [by apply work_progress|by apply Hf].
Qed.
End Pipeline.

Definition pipeline_chain (h : hash) (k : Z) : option Header := if k =? 6 then Some turn_parent else None.
Lemma headers_in_order_witness : ∃ p', work toy_keccak pipeline_chain [turn_header] (start [turn_header] 4) p'.
Proof.
  destruct (headers_in_order toy_keccak pipeline_chain [turn_header] 4) as (_ & H & _); [done|lia| |exact (H _ (rtc_refl _ _))].
  intros i Hi. assert (i = 0%nat) as -> by (cbn in Hi; lia). exists None, 1003. by vm_compute.
Defined.
